(* ===== verification/_CoqProject ===== *)
-Q . S2P
Prelude.v
Ids.v
Pages.v
Frame.v
ClockSpec.v
Nibble.v
Trie.v
Clock.v
Types.v
Membership.v
Topology.v
TopologyMeta.v
Evidence.v
Records.v
Pool.v
Store.v
StoreLog.v
StoreAdmit.v
StoreOps.v
StoreReset.v
StoreEvidence.v
StoreRun.v
StoreReads.v
Integrity.v
Inspections.v
IntegrityRun.v
StoreWitness.v
IntegrityStore.v
Admission.v
Dag.v
Projection.v
Building.v
Commit.v
Genesis.v
Turns.v
Oplog.v
Evolve.v
OplogInv.v
Receive.v
Creation.v
CreationInv.v
CreationPair.v
CreationEnds.v
Scheduler.v
SchedulerInv.v
SchedulerRun.v
Requests.v
SyncEvidence.v
SyncEvidenceInv.v
Staging.v
StagingCopy.v
StagingInv.v
StagingRun.v
Bootstrap.v
Peers.v
PeersInv.v
Programs.v
ClockStore.v
ClockStoreInv.v
ClockKeep.v
ClockKeepInv.v
ClockScan.v
ClockScanInv.v
Slices.v
Repair.v
Pager.v
PagerInv.v
PagerMoves.v
PagerSteps.v
PagerFill.v
PagerWait.v
PagerPlan.v
PagerRun.v
OplogWitness.v
CreationWitness.v
EvidenceWitness.v
PagerWitness.v
ClockWitness.v
