(* ===== verification/Prelude.v ===== *)
(** * Irokle: a verification development

    Irokle replicates topics. A topic is a log of signed operations that form a Merkle
    DAG: every operation names the operations it depends on by their hashes, and its
    place in the chain of its author. Peers exchange operations, each validates what it
    receives against its own copy and stores it; equal sets of operations must give
    every peer the same topic. This development models that core of the Rust program
    under [src/src] and proves it correct.

    ** Parts of the program and their files

    - Identifiers, frames, types. [Ids.v] ([ids.rs]): 32-byte ids, their order and text
      form. [Frame.v] ([frame.rs]): length-prefixed frames. [Types.v] ([op.rs],
      [topic.rs], [event.rs], [crypto.rs], [error.rs]): operations, payloads, topic
      states, metadata, signing and [Op::validate].
    - Actor clocks ([clock.rs]). [Nibble.v], [Trie.v], [Clock.v]: the copy-on-write trie;
      [ClockSpec.v]: the class [ClockImpl], through which all other files use clocks.
    - Stored clocks ([clock_store.rs], [clock_scan.rs]). [ClockStore.v]: nodes named by
      their hashes, how a clock is written and read; [ClockKeep.v]: the cache that retains
      the latest clocks; [ClockScan.v]: checking all records of a namespace in one scan.
      [ClockStoreInv.v], [ClockKeepInv.v], [ClockScanInv.v] prove them correct.
    - Membership ([oplog/membership.rs]) in [Membership.v]; orderings
      ([oplog/topology.rs]) in [Topology.v] and [TopologyMeta.v].
    - Storage. [Evidence.v] ([storage/evidence.rs]): acknowledgements, obligations, sync
      status. [Records.v] ([storage/record.rs], [storage/staging.rs]): batches, quotas.
      [Pool.v] and [Store.v] ([storage/memory/mod.rs]): the pending pool and the store
      under its lock, the record [MemoryInner], one function for every method that
      writes; [StoreReads.v] the reads. [StoreLog.v], [StoreAdmit.v],
      [StoreOps.v], [StoreReset.v], [StoreEvidence.v], [StoreRun.v]: the invariant of the
      store and that every write keeps it.
    - Integrity ([oplog/integrity.rs]). [Integrity.v]: the scan for unresolved references,
      through the class [SnapshotRead]; [Inspections.v]: the cache of scans and verdicts;
      [IntegrityRun.v]: its interleaving with writers; [IntegrityStore.v]: admission
      creates no hole.
    - Admission ([oplog/admission.rs], [oplog/pending.rs], [oplog/genesis.rs],
      [oplog/mod.rs]). [Admission.v]: validation, projection of membership, [build_batch];
      [Genesis.v]: collisions of geneses; [Turns.v] ([oplog/turns.rs]): one admission per
      topic at a time; [Oplog.v]: commit, buffering, retries and the receive loop.
    - [Dag.v], [Projection.v], [Building.v], [Commit.v], [Evolve.v], [OplogInv.v],
      [Receive.v]: what a valid history is and that admission keeps it.
    - Local writes ([oplog/creation.rs]). [Creation.v]: creating operations and topics,
      with their retries; [CreationInv.v], [CreationPair.v], [CreationEnds.v]: what a
      creation leaves behind, whoever else writes, and when it succeeds.
    - Sync. [Requests.v] ([sync/request.rs], [sync/types.rs]): how a
      peer describes what it lacks, in bounded space. [Scheduler.v], [SchedulerInv.v],
      [SchedulerRun.v] ([iroh/scheduler.rs]): which peer and topic to sync next, and who
      holds the claim to it. [SyncEvidence.v] and [SyncEvidenceInv.v]
      ([sync/evidence.rs]): what peers say they hold and what they are owed.
    - Staged topics ([storage/memory/staging.rs]): a topic that is fetched from a peer for
      the first time lives in a namespace of its own until it is whole. [Staging.v]: the
      registry of namespaces, writing through a view, activation; [StagingCopy.v],
      [StagingInv.v]: what activation publishes; [StagingRun.v]: all
      interleavings of views, registry and main store. [Bootstrap.v]
      ([node/bootstrap.rs]): making room for a staging, and expiry.
    - Peer selection ([node/peers.rs]). [Peers.v]: the table of failures and who a topic is
      synced with; [PeersInv.v]: its theorems.
    - Pages ([sync/plan.rs], [sync/slice.rs], [sync/space.rs], [sync/records.rs],
      [sync/repair.rs]): what a responder sends next. [Programs.v]: programs over one
      state that fail or loop, and their total correctness. [Slices.v]: the work a slice
      may do, and the decoded operations it keeps, over a pool other plans use too;
      [Repair.v]: wanted operations and their holes; [Pager.v]: the walk over the actors,
      its heads and waits, filling a page and keeping the rest. [PagerInv.v]: the
      invariant of the walk; [PagerMoves.v], [PagerSteps.v], [PagerFill.v],
      [PagerWait.v], [PagerPlan.v]: that every step keeps it; [PagerRun.v]: what a plan
      brings a peer.
    - [StoreWitness.v], [OplogWitness.v], [CreationWitness.v], [EvidenceWitness.v]
      (staged topics too), [PagerWitness.v] and [ClockWitness.v] evaluate the definitions
      on small runs and apply the theorems there.

    ** How the code is modelled

    Functions return [res], the [Result] of the source, with its errors as constructors
    of [Error]; state is passed explicitly. Machine integers are numbers of type [N] with
    the checked and saturating operations of the standard library where the source uses
    them. [BTreeMap] and [BTreeSet] are [gmap] and [gset], iterated in the order of their
    keys ([bt_elements]). Methods that hold the store's lock are functions on
    [MemoryInner]; a poisoned lock is left out. A write that fails in the middle returns
    the state it left.

    Code outside the repository is a parameter: [Crypto] (hashing, encoding, Ed25519),
    [StoreEnv] (memory reservations that may be refused, sizes of encoded operations,
    fingerprints), [OplogEnv] (workspace reservations, sharing of states), [PtrEq] (which
    clock nodes share memory), [Sizes] (sizes of encoded operations), [NodeCodec] and
    [PrefixCodec] (the encoding of clock nodes), [AckCodec] (that of acknowledgements).
    Theorems about histories assume [collision_free]: no two operations around have the
    same id; those about stored clocks, that no two byte strings ever written have the
    same hash.

    Concurrency is explicit. [Oplog.v] gives every attempt what others write before it
    reads and between its reads and its commit, and the theorems hold for all writers
    that keep stores valid ([harmless]); the reads of one [build_batch] see one state of
    the store. [Creation.v] goes further: a creation is an [action], and others may write
    before every single access it makes. [SyncEvidence.v] and [Bootstrap.v] take what
    others write between their accesses as an argument. [Turns.v], [IntegrityRun.v],
    [StagingRun.v] and [SchedulerRun.v] are step relations whose steps are the critical
    sections of the source; the last one carries two history variables, when a target was
    last asked for and served. The time is an argument of the functions that read it.

    Loops that are not structural take fuel. The fuel is proved sufficient: for the
    membership walk ([membership_walk_ends]), the scan ([stateless_holes_exact]), edges
    ([read_edges_total]), orderings, closures and expiry by their specifications, the
    receive loop ([receive_ends]), the walk of a creation ([creation_succeeds]) and the
    growing filter of a request ([exact_loop_enough]). The loops of the planner have fuel
    computed from the slice and the walk ([settle_fuel], [plan_fuel]); [plan_ends] shows
    that it is enough. A stored clock is read with 65 nested calls, one more than the
    levels of the trie ([stored_clocks_load]). The retry loops have the 64 attempts of
    the source.

    ** What is proved

    - Store: every reachable store is consistent; admission is atomic and exact; a reset
      removes one topic and nothing else; buffering, rejection, purging, expiry and
      acknowledgements do exactly what they should; quotas hold.
    - Clocks refine finite maps whatever they share in memory; merge is the least upper
      bound of the pointwise order.
    - Membership: materializing, applying one control and merging agree and do not
      depend on order or multiplicity, so replicas converge.
    - Orderings list operations after their dependencies and fail exactly on cycles.
    - Admission: whatever others write, histories stay valid and only grow or lose to a
      smaller genesis; what is reported accepted was stored, errors included; a batch
      that was built commits; projected membership is that of the causal past; the
      frontier determines the history; competing geneses converge; receiving ends.
    - Local writes: whoever else writes, a success stored one valid operation as the only
      head; a topic and its first event appear together or not at all; without
      competition the write of a member goes through at the first attempt; refusals
      change nothing.
    - Requests: never overstate what is held, within their limits. Scheduler: a target
      has at most one owner, no request is lost, late completions change nothing, and
      work that was due first goes first.
    - Evidence: a peer is never believed to hold what it does not, whether it signs an
      acknowledgement or has the same fingerprint; what it is to get stays owed until it
      holds it.
    - Staged topics: activation is refused without a change or publishes exactly the staged
      history and state, with what was buffered for it, and touches no other topic; the
      namespaces stay within their limits however they are used; a view of an ended session
      is refused; making room drops nothing unless it helps, and no more than needed.
      [activation_publishes] assumes that nothing buffered in the main store waits for an
      operation of the staged topic; [activation_leaves_waiter] shows that such an
      operation would not be woken.
    - Peers: the selected ones are allowed members, as many as asked for, failing ones
      last; while nothing fails every member is reached from every other one.
    - Pages: planning ends, within the budget and the slice; a page is in an order the
      peer can apply; a plan that is not cut short and says there is no more has brought
      everything the peer asked for and lacks, and it is never stuck.
    - Stored clocks: what was written is read back, whatever is cached; damaged or forged
      records are never read as another clock; a scan accepts exactly what a reader
      accepts; the cache retains what its clocks hold and counts it right.
    - Turns: mutual exclusion, no lost wakeup, every caller returns.
    - Integrity: a verdict assembled from several snapshots while others write is right.
    - Frames, ids and signatures round-trip.

    ** Not modelled

    The fjall store but for its clock nodes (the same trait over an embedded database, the
    namespaces of staged topics included), byte accounting ([storage/memory/budget.rs],
    [storage/pressure.rs]), reconciliation of buffered operations at start, history reads
    and reducers ([history.rs], [reducer.rs]), the pages a frontier has offered but not
    confirmed and the continuations kept for peers ([sync/continuation.rs], parts of
    [sync/plan.rs]), the sessions of the sync engine ([sync/mod.rs]), the node facade
    ([node/]) but for making room for staged topics and selecting peers, and the iroh transport but for its scheduler ([iroh/]), which is
    asynchronous glue over a network library. *)

From Stdlib Require Export ssreflect NArith Lia.
From stdpp Require Export prelude sorting gmap strings list.

#[global] Open Scope general_if_scope.
#[global] Open Scope nat_scope.


(** ** Results *)

(** [Result<A, E>] of the standard library. *)
Inductive result (E A : Type) : Type :=
  | Ok (a : A)
  | Err (e : E).
Arguments Ok {E A} a.
Arguments Err {E A} e.

#[global] Instance result_ret {E} : MRet (result E) := λ A a, Ok a.
#[global] Instance result_bind {E} : MBind (result E) := λ A B f r,
  match r with Ok a => f a | Err e => Err e end.
#[global] Instance result_fmap {E} : FMap (result E) := λ A B f r,
  match r with Ok a => Ok (f a) | Err e => Err e end.

Definition is_ok {E A} (r : result E A) : bool :=
  match r with Ok _ => true | Err _ => false end.

(** [if cond { return Err(e); }] *)
Definition refuse_if {E} (cond : bool) (e : E) : result E unit :=
  if cond then Err e else Ok ().

(** [opt.ok_or(e)] *)
Definition ok_or {E A} (o : option A) (e : E) : result E A :=
  match o with Some a => Ok a | None => Err e end.

(** A [for] loop whose body may return early with an error. *)
Fixpoint try_fold {E A S} (f : S → A → result E S) (s : S) (l : list A) : result E S :=
  match l with
  | [] => Ok s
  | a :: l' => match f s a with Ok s' => try_fold f s' l' | Err e => Err e end
  end.

Lemma refuse_if_ok {E} (c : bool) (e : E) u : refuse_if c e = Ok u → c = false.
Proof. by destruct c. Qed.

Lemma ok_or_ok {E A} (o : option A) (e : E) a : ok_or o e = Ok a ↔ o = Some a.
Proof. destruct o; simpl; split; congruence. Qed.

Lemma bind_ok {E A B} (r : result E A) (f : A → result E B) b :
  r ≫= f = Ok b ↔ ∃ a, r = Ok a ∧ f a = Ok b.
Proof. destruct r; simpl; split; [by eauto|by intros (? & [= ->] & ?)|done|by intros (? & ? & ?)]. Qed.

(** Tactics for fallible code: [res_step] runs the next statement once its result is
    known; [skip_ok H] and [next_ok H as p] pass a statement that succeeded, forgetting
    or keeping what it says. *)
Ltac res_step := cbn [mbind result_bind].
Ltac skip_ok H := apply bind_ok in H as (? & _ & H).
Tactic Notation "next_ok" hyp(H) "as" simple_intropattern(p) := apply bind_ok in H as p.

(** Conditions of the source, computed as booleans, as propositions. *)
Create HintDb reflect discriminated.
#[export] Hint Rewrite andb_true_iff orb_true_iff negb_true_iff andb_false_iff orb_false_iff negb_false_iff
  @bool_decide_eq_true @bool_decide_eq_false N.eqb_eq N.eqb_neq N.ltb_lt N.ltb_ge N.leb_le N.leb_gt : reflect.
Ltac reflect_in H := autorewrite with reflect in H.

Lemma try_fold_app {E A S} (f : S → A → result E S) s l1 l2 :
  try_fold f s (l1 ++ l2) = (try_fold f s l1 ≫= λ s', try_fold f s' l2).
Proof.
  revert s. induction l1 as [|a l1 IH]; intros s; [done|].
  simpl. destruct (f s a); [apply IH|done].
Qed.

(** Invariant rule of the early-returning loop: an invariant kept by every
    iteration that goes on holds of the state the loop ends with. *)
Lemma try_fold_inv {E A S} (I : S → Prop) (f : S → A → result E S) s l s' :
  (∀ a s1 s2, a ∈ l → I s1 → f s1 a = Ok s2 → I s2) →
  I s → try_fold f s l = Ok s' → I s'.
Proof.
  revert s. induction l as [|a l IH]; intros s Hstep Hs; simpl.
  { by intros [= <-]. }
  destruct (f s a) as [s1|e] eqn:Hf; [|done]. intros Hrest.
  eapply IH; [|eapply Hstep; [|done..]|done].
  - intros. eapply Hstep; [|done..]. by right.
  - by left.
Qed.

(** Invariant rule that also knows which elements were already visited. *)
Lemma try_fold_inv_prefix {E A S} (I : list A → S → Prop) (f : S → A → result E S) s l s' :
  (∀ done a rest s1 s2, l = done ++ a :: rest → I done s1 → f s1 a = Ok s2 →
    I (done ++ [a]) s2) →
  I [] s → try_fold f s l = Ok s' → I l s'.
Proof.
  intros Hstep Hs.
  enough (∀ l2 l1 s1, l = l1 ++ l2 → I l1 s1 → try_fold f s1 l2 = Ok s' → I l s') as H.
  { apply (H l []); done. }
  induction l2 as [|a l2 IH]; intros l1 s1 -> HI; simpl.
  { intros [= <-]. by rewrite app_nil_r. }
  destruct (f s1 a) as [s2|e] eqn:Hf; [|done].
  apply (IH (l1 ++ [a])); [by rewrite -app_assoc|].
  eapply Hstep; [done..].
Qed.

Lemma list_elem_of_option_list {A} (o : option A) a : a ∈ option_list o ↔ o = Some a.
Proof.
  destruct o as [b|]; simpl; [rewrite list_elem_of_singleton|rewrite elem_of_nil]; naive_solver.
Qed.

(** A loop that only checks stops at the first refusal. *)
Lemma try_fold_unit {E A} (f : A → result E unit) (l : list A) :
  try_fold (λ _ a, f a) () l = Ok () ↔ ∀ a, a ∈ l → f a = Ok ().
Proof.
  induction l as [|a l IH]; simpl; [split; [by intros _ ? ?%elem_of_nil|done]|].
  destruct (f a) as [[]|e] eqn:Hf.
  - rewrite IH. split; [intros Hall b [->|?]%elem_of_cons; auto|intros Hall b ?; apply Hall; by right].
  - split; [done|]. intros Hall. specialize (Hall a ltac:(by left)). congruence.
Qed.

(** [Iterator::take_while] *)
Fixpoint take_while {A} (P : A → bool) (l : list A) : list A :=
  match l with
  | [] => []
  | a :: l => if P a then a :: take_while P l else []
  end.

Lemma take_while_split {A} (P : A → bool) (l : list A) :
  ∃ k, l = take_while P l ++ k ∧ (∀ x, x ∈ take_while P l → P x = true) ∧ ∀ x k', k = x :: k' → P x = false.
Proof.
  induction l as [|a l (k & Hl & Hin & Hk)]; cbn [take_while]; [exists []; split_and!; [done|by intros x ?%elem_of_nil|done]|].
  destruct (P a) eqn:Ha; [exists k|exists (a :: l)]; split_and!.
  - by rewrite /= -Hl.
  - by intros x [->|Hx]%elem_of_cons; [|apply Hin].
  - done.
  - done.
  - by intros x ?%elem_of_nil.
  - by intros x k' [= <- _].
Qed.

(** ** Machine integers

    [u64], [usize] (64 bit) and [u8] are numbers of type [N]; the operations
    below are the checked and saturating ones of the standard library. *)

Definition u64_max : N := 18446744073709551615.

Definition checked_add (a b : N) : option N :=
  if (a + b <=? u64_max)%N then Some (a + b)%N else None.
Definition checked_sub (a b : N) : option N :=
  if (b <=? a)%N then Some (a - b)%N else None.
Definition saturating_add (a b : N) : N := N.min (a + b) u64_max.
Definition saturating_mul (a b : N) : N := N.min (a * b) u64_max.
Definition saturating_sub (a b : N) : N := (a - b)%N.

Lemma checked_add_Some a b c :
  checked_add a b = Some c ↔ c = (a + b)%N ∧ (c ≤ u64_max)%N.
Proof. unfold checked_add. destruct (N.leb_spec (a + b) u64_max); naive_solver lia. Qed.

Lemma checked_add_None a b : checked_add a b = None ↔ (u64_max < a + b)%N.
Proof. unfold checked_add. destruct (N.leb_spec (a + b) u64_max); naive_solver lia. Qed.

Lemma checked_sub_Some a b c :
  checked_sub a b = Some c ↔ (b ≤ a)%N ∧ c = (a - b)%N.
Proof. unfold checked_sub. destruct (N.leb_spec b a); naive_solver lia. Qed.

(** ** Orders

    [derive(Ord)]: a three-way comparison that is a strict total order. [BTreeMap]
    and [BTreeSet] iterate in this order, structs and tuples compare their fields
    lexicographically. *)

Class BOrd (A : Type) := {
  bcmp : A → A → comparison;
  bcmp_eq x y : bcmp x y = Eq ↔ x = y;
  bcmp_opp x y : bcmp y x = CompOpp (bcmp x y);
  bcmp_trans x y z : bcmp x y = Lt → bcmp y z = Lt → bcmp x z = Lt;
}.

Definition lex_cmp (c1 c2 : comparison) : comparison :=
  match c1 with Eq => c2 | Lt => Lt | Gt => Gt end.

Section bord.
Context {A : Type} `{BOrd A}.
Implicit Types x y z : A.

Definition blt x y : Prop := bcmp x y = Lt.
Definition ble x y : Prop := bcmp x y ≠ Gt.
Definition bltb x y : bool := match bcmp x y with Lt => true | _ => false end.
Definition bleb x y : bool := match bcmp x y with Gt => false | _ => true end.

#[global] Instance blt_dec : RelDecision blt.
Proof. intros x y. unfold blt. destruct (bcmp x y); [right|left|right]; done. Defined.
#[global] Instance ble_dec : RelDecision ble.
Proof. intros x y. unfold ble. destruct (bcmp x y); [left|left|right]; auto. Defined.

Lemma bcmp_refl x : bcmp x x = Eq.
Proof. by apply bcmp_eq. Qed.
Lemma bltb_lt x y : bltb x y = true ↔ blt x y.
Proof. unfold bltb, blt. destruct (bcmp x y); naive_solver. Qed.
Lemma bltb_ge x y : bltb x y = false ↔ ble y x.
Proof.
  unfold bltb, ble. rewrite (bcmp_opp x y). destruct (bcmp x y); simpl; naive_solver.
Qed.
Lemma blt_irrefl x : ¬ blt x x.
Proof. unfold blt. by rewrite bcmp_refl. Qed.
Lemma blt_trans x y z : blt x y → blt y z → blt x z.
Proof. apply bcmp_trans. Qed.
Lemma blt_ne x y : blt x y → x ≠ y.
Proof. intros ? ->. by eapply blt_irrefl. Qed.
Lemma blt_asym x y : blt x y → ¬ blt y x.
Proof. unfold blt. rewrite (bcmp_opp x y). intros ->. done. Qed.
Lemma ble_lt_eq x y : ble x y ↔ blt x y ∨ x = y.
Proof.
  unfold ble, blt. rewrite -bcmp_eq. destruct (bcmp x y); naive_solver.
Qed.
Lemma not_ble x y : ¬ ble x y ↔ blt y x.
Proof.
  unfold ble, blt. rewrite (bcmp_opp x y). destruct (bcmp x y); simpl; naive_solver.
Qed.
Lemma not_blt x y : ¬ blt x y ↔ ble y x.
Proof.
  unfold ble, blt. rewrite (bcmp_opp x y). destruct (bcmp x y); simpl; naive_solver.
Qed.
Lemma blt_trichotomy x y : blt x y ∨ x = y ∨ blt y x.
Proof.
  unfold blt. rewrite -bcmp_eq (bcmp_opp x y). destruct (bcmp x y); simpl; auto.
Qed.
Lemma ble_blt_trans x y z : ble x y → blt y z → blt x z.
Proof. rewrite ble_lt_eq. intros [?| ->]; [by eapply blt_trans|done]. Qed.
Lemma blt_ble_trans x y z : blt x y → ble y z → blt x z.
Proof. rewrite ble_lt_eq. intros ? [?| <-]; [by eapply blt_trans|done]. Qed.

#[global] Instance blt_strict : StrictOrder blt.
Proof. split; [intros x; apply blt_irrefl|intros x y z; apply blt_trans]. Qed.
#[global] Instance ble_preorder : PreOrder ble.
Proof.
  split.
  - intros x. apply ble_lt_eq. by right.
  - intros x y z Hxy [?| ->]%ble_lt_eq; [|done].
    apply ble_lt_eq. left. by eapply ble_blt_trans.
Qed.
#[global] Instance ble_antisymm : AntiSymm (=) ble.
Proof.
  intros x y [Hxy| ->]%ble_lt_eq [Hyx| ?]%ble_lt_eq; try done.
  exfalso. by eapply blt_asym.
Qed.
#[global] Instance ble_total : Total ble.
Proof. intros x y. rewrite !ble_lt_eq. destruct (blt_trichotomy x y) as [?|[->|?]]; auto. Qed.
End bord.

#[global] Program Instance N_bord : BOrd N := {| bcmp := N.compare |}.
Next Obligation. intros. apply N.compare_eq_iff. Qed.
Next Obligation. intros. apply N.compare_antisym. Qed.
Next Obligation. intros x y z. rewrite !N.compare_lt_iff. lia. Qed.

Lemma lex_cmp_eq c1 c2 : lex_cmp c1 c2 = Eq ↔ c1 = Eq ∧ c2 = Eq.
Proof. destruct c1, c2; naive_solver. Qed.
Lemma lex_cmp_opp c1 c2 : CompOpp (lex_cmp c1 c2) = lex_cmp (CompOpp c1) (CompOpp c2).
Proof. by destruct c1, c2. Qed.
Lemma lex_cmp_lt c1 c2 : lex_cmp c1 c2 = Lt ↔ c1 = Lt ∨ (c1 = Eq ∧ c2 = Lt).
Proof. destruct c1, c2; naive_solver. Qed.

#[global] Program Instance prod_bord {A B} `{BOrd A, BOrd B} : BOrd (A * B) :=
  {| bcmp x y := lex_cmp (bcmp x.1 y.1) (bcmp x.2 y.2) |}.
Next Obligation.
  intros A B ? ? [a b] [c d]; simpl. rewrite lex_cmp_eq !bcmp_eq. naive_solver.
Qed.
Next Obligation.
  intros A B ? ? [a b] [c d]; simpl. by rewrite lex_cmp_opp -!bcmp_opp.
Qed.
Next Obligation.
  intros A B ? ? [a b] [c d] [e f]; simpl. rewrite !lex_cmp_lt !bcmp_eq.
  intros [?|[-> ?]] [?|[-> ?]]; eauto using bcmp_trans.
Qed.

(** Slices and arrays compare lexicographically, a proper prefix first. *)
Fixpoint list_cmp {A} `{BOrd A} (l k : list A) : comparison :=
  match l, k with
  | [], [] => Eq
  | [], _ :: _ => Lt
  | _ :: _, [] => Gt
  | x :: l', y :: k' => lex_cmp (bcmp x y) (list_cmp l' k')
  end.

#[global] Program Instance list_bord {A} `{BOrd A} : BOrd (list A) :=
  {| bcmp := list_cmp |}.
Next Obligation.
  intros A ? l. induction l as [|x l IH]; intros [|y k]; simpl; try naive_solver.
  rewrite lex_cmp_eq bcmp_eq IH. naive_solver.
Qed.
Next Obligation.
  intros A ? l. induction l as [|x l IH]; intros [|y k]; simpl; try done.
  by rewrite lex_cmp_opp -bcmp_opp IH.
Qed.
Next Obligation.
  intros A ? l. induction l as [|x l IH]; intros [|y k] [|z j]; simpl; try done.
  rewrite !lex_cmp_lt !bcmp_eq. intros [?|[-> ?]] [?|[-> ?]]; eauto using bcmp_trans.
Qed.

(** ** Ordered collections

    [BTreeSet] and [BTreeMap] are [gset] and [gmap]; where the program iterates over
    them, the elements come in ascending order. *)

Section btree.
Context {A : Type} `{Countable A, !BOrd A}.

(** The elements of a [BTreeSet] in iteration order. *)
Definition bt_elements (X : gset A) : list A := merge_sort ble (elements X).

Lemma elem_of_bt_elements (X : gset A) x : x ∈ bt_elements X ↔ x ∈ X.
Proof. unfold bt_elements. by rewrite merge_sort_Permutation elem_of_elements. Qed.

Lemma bt_elements_NoDup (X : gset A) : NoDup (bt_elements X).
Proof. unfold bt_elements. rewrite merge_sort_Permutation. apply NoDup_elements. Qed.

Lemma bt_elements_sorted (X : gset A) : StronglySorted blt (bt_elements X).
Proof.
  pose proof (bt_elements_NoDup X) as Hnd. unfold bt_elements in *.
  assert (StronglySorted ble (merge_sort ble (elements X))) as Hs
    by apply (StronglySorted_merge_sort ble _).
  induction Hs as [|x l Hs IH Hall]; [constructor|].
  apply NoDup_cons in Hnd as [Hx Hnd]. constructor; [by apply IH|].
  rewrite Forall_forall in Hall. apply Forall_forall. intros y Hy.
  apply Hall in Hy as Hle. apply ble_lt_eq in Hle as [?| ->]; done.
Qed.

Lemma bt_elements_length (X : gset A) : length (bt_elements X) = size X.
Proof. unfold bt_elements. by rewrite merge_sort_Permutation. Qed.

(** The entries of a [BTreeMap] in iteration order. *)
Definition bt_entries {V} (m : gmap A V) : list (A * V) :=
  omap (λ k, pair k <$> m !! k) (bt_elements (dom m)).

Lemma elem_of_bt_entries {V} (m : gmap A V) k v : (k, v) ∈ bt_entries m ↔ m !! k = Some v.
Proof.
  unfold bt_entries. rewrite list_elem_of_omap. split.
  - intros (k' & _ & Hk). destruct (m !! k') eqn:E; simplify_eq/=. done.
  - intros Hk. exists k. rewrite Hk. split; [|done].
    apply elem_of_bt_elements, elem_of_dom. eauto.
Qed.

Lemma bt_entries_keys {V} (m : gmap A V) : (bt_entries m).*1 = bt_elements (dom m).
Proof.
  unfold bt_entries.
  assert (∀ a, a ∈ bt_elements (dom m) → is_Some (m !! a)) as Hall.
  { intros a. by rewrite elem_of_bt_elements elem_of_dom. }
  induction (bt_elements (dom m)) as [|a l IH]; [done|]. simpl.
  destruct (Hall a) as [v Hv]; [by left|]. rewrite Hv. simpl. f_equal.
  apply IH. intros b Hb. apply Hall. by right.
Qed.

Lemma bt_entries_NoDup {V} (m : gmap A V) : NoDup (bt_entries m).*1.
Proof. rewrite bt_entries_keys. apply bt_elements_NoDup. Qed.

Lemma bt_entries_perm {V} (m : gmap A V) : bt_entries m ≡ₚ map_to_list m.
Proof.
  apply NoDup_Permutation; [eapply NoDup_fmap_1, bt_entries_NoDup|apply NoDup_map_to_list|].
  intros [k v]. by rewrite elem_of_bt_entries elem_of_map_to_list.
Qed.

Lemma list_to_map_bt_entries {V} (m : gmap A V) : list_to_map (bt_entries m) = m.
Proof.
  apply map_eq. intros k. apply option_eq. intros v.
  by rewrite -elem_of_list_to_map; [apply bt_entries_NoDup|apply elem_of_bt_entries].
Qed.
End btree.

(** Two strictly ascending lists with the same elements are equal. *)
Lemma sorted_blt_unique {A} `{BOrd A} (l k : list A) :
  StronglySorted blt l → StronglySorted blt k → (∀ x, x ∈ l ↔ x ∈ k) → l = k.
Proof.
  intros Hl Hk Hiff.
  assert (∀ l : list A, StronglySorted blt l → StronglySorted ble l ∧ NoDup l) as Hw.
  { clear. induction 1 as [|x l Hs [IH Hnd] Hall]; [split; constructor|].
    rewrite Forall_forall in Hall. split; constructor; try done.
    - apply Forall_forall. intros y Hy%Hall. apply ble_lt_eq. by left.
    - intros Hx%Hall. by apply blt_irrefl in Hx. }
  destruct (Hw l Hl) as [Hl1 Hl2], (Hw k Hk) as [Hk1 Hk2].
  apply (StronglySorted_unique ble); [done..|]. by apply NoDup_Permutation.
Qed.
