(* ===== verification/Ids.v ===== *)
(** * Identifiers ([src/src/ids.rs])

    The five 32-byte identifier types the [id_type!] macro generates, their
    lexicographic order, their hexadecimal text form and its parser. *)

From S2P Require Import Prelude.

#[local] Open Scope N_scope.

(** [pub const LEN: usize = 32;] *)
Definition LEN : nat := 32.

Definition is_byte (b : N) : bool := b <? 256.
Definition is_id (l : list N) : bool :=
  bool_decide (length l = LEN) && forallb is_byte l.

(** One tag per instantiation of the macro. *)
Inductive id_kind := KOp | KTopic | KActor | KPeer | KEviction.

(** [pub struct $name([u8; 32]);] *)
Record id (k : id_kind) := Id { as_bytes : list N; id_ok : Is_true (is_id as_bytes) }.
Arguments Id {k} as_bytes id_ok.
Arguments as_bytes {k} i.
Arguments id_ok {k} i.

Abbreviation OpId := (id KOp).
Abbreviation TopicId := (id KTopic).
Abbreviation ActorId := (id KActor).
Abbreviation PeerId := (id KPeer).
Abbreviation EvictionKey := (id KEviction).

Lemma id_eq {k} (a b : id k) : a = b ↔ as_bytes a = as_bytes b.
Proof.
  split; [by intros ->|]. destruct a as [l Hl], b as [l' Hl']; simpl. intros ->.
  by rewrite (proof_irrel Hl Hl').
Qed.

#[global] Instance id_eq_dec k : EqDecision (id k).
Proof. refine (λ a b, cast_if (decide (as_bytes a = as_bytes b))); by rewrite id_eq. Defined.

(** [from_bytes] on a list that may not be an array of 32 bytes. *)
Definition from_bytes {k} (l : list N) : option (id k) :=
  match decide (Is_true (is_id l)) with
  | left H => Some (Id l H)
  | right _ => None
  end.

Lemma from_bytes_as_bytes {k} (a : id k) : from_bytes (as_bytes a) = Some a.
Proof.
  unfold from_bytes. destruct (decide _) as [H|H].
  - f_equal. by apply id_eq.
  - by destruct H, a.
Qed.

Lemma from_bytes_Some {k} (l : list N) (a : id k) : from_bytes l = Some a → as_bytes a = l.
Proof. unfold from_bytes. destruct (decide _); by intros [= <-]. Qed.

#[global] Instance id_countable k : Countable (id k) :=
  inj_countable as_bytes from_bytes from_bytes_as_bytes.

Lemma as_bytes_length {k} (a : id k) : length (as_bytes a) = LEN.
Proof.
  destruct a as [l H]; simpl. apply andb_prop_elim in H as [H _].
  by apply bool_decide_spec in H.
Qed.

Lemma as_bytes_bound {k} (a : id k) i b : as_bytes a !! i = Some b → b < 256.
Proof.
  destruct a as [l H]; simpl. apply andb_prop_elim in H as [_ H].
  apply Is_true_true_1 in H. rewrite forallb_forall in H.
  intros Hi%list_elem_of_lookup_2%list_elem_of_In. apply H in Hi. by apply N.ltb_lt.
Qed.

(** The derived [Ord] compares the byte arrays. *)
#[global] Program Instance id_bord k : BOrd (id k) :=
  {| bcmp a b := bcmp (as_bytes a) (as_bytes b) |}.
Next Obligation. intros. by rewrite bcmp_eq id_eq. Qed.
Next Obligation. intros k x y. apply bcmp_opp. Qed.
Next Obligation. intros k x y z. apply (bcmp_trans (as_bytes x)). Qed.

(** The id whose last byte is [n] and whose other bytes are zero; used by examples. *)
Definition small_id {k} (n : N) : id k :=
  match from_bytes (replicate 31 0 ++ [n mod 256]) with
  | Some i => i
  | None => Id (replicate 32 0) I
  end.

(** ** Text form *)

(** [fn hex_nibble(byte: u8) -> Option<u8>] *)
Definition hex_nibble (byte : N) : option N :=
  if (48 <=? byte) && (byte <=? 57) then Some (byte - 48)
  else if (97 <=? byte) && (byte <=? 102) then Some (byte - 97 + 10)
  else None.

(** The digit [{:x}] writes for a nibble. *)
Definition hex_digit (n : N) : N := if n <? 10 then 48 + n else 97 + (n - 10).

(** [Display]: two lowercase digits per byte. *)
Definition fmt {k} (a : id k) : list N :=
  as_bytes a ≫= λ byte, [hex_digit (byte / 16); hex_digit (byte mod 16)].

Record IdParseError := { expected_len : nat }.

(** [chunks_exact(2)] with the loop body that fills [bytes]. *)
Fixpoint parse_chunks (input : list N) : option (list N) :=
  match input with
  | c0 :: c1 :: rest =>
      match hex_nibble c0 with
      | None => None
      | Some hi =>
          match hex_nibble c1 with
          | None => None
          | Some lo =>
              match parse_chunks rest with
              | None => None
              | Some bytes => Some (N.lor (N.shiftl hi 4) lo :: bytes)
              end
          end
      end
  | _ => Some []
  end.

(** [FromStr::from_str] *)
Definition from_str {k} (input : list N) : result IdParseError (id k) :=
  if negb (bool_decide (length input = LEN * 2)%nat)
  then Err {| expected_len := LEN |}
  else match parse_chunks input with
       | None => Err {| expected_len := LEN |}
       | Some bytes => ok_or (from_bytes bytes) {| expected_len := LEN |}
       end.

Lemma hex_nibble_digit n : n < 16 → hex_nibble (hex_digit n) = Some n.
Proof.
  intros Hn. unfold hex_nibble, hex_digit.
  destruct (N.ltb_spec n 10).
  - rewrite (proj2 (N.leb_le 48 (48 + n))); [lia|].
    rewrite (proj2 (N.leb_le (48 + n) 57)); [lia|]. simpl. f_equal. lia.
  - rewrite (proj2 (N.leb_gt (97 + (n - 10)) 57)); [lia|].
    rewrite andb_false_r.
    rewrite (proj2 (N.leb_le 97 (97 + (n - 10)))); [lia|].
    rewrite (proj2 (N.leb_le (97 + (n - 10)) 102)); [lia|]. simpl. f_equal. lia.
Qed.

Lemma hex_nibble_Some c n : hex_nibble c = Some n → n < 16 ∧ hex_digit n = c.
Proof.
  unfold hex_nibble, hex_digit.
  destruct (N.leb_spec 48 c), (N.leb_spec c 57), (N.leb_spec 97 c), (N.leb_spec c 102);
    simpl; intros [= <-]; try lia; (split; [lia|]);
    match goal with |- context [?n <? 10] => destruct (N.ltb_spec n 10) end; lia.
Qed.

Lemma nibbles_join hi lo : lo < 16 → N.lor (N.shiftl hi 4) lo = hi * 16 + lo.
Proof.
  intros Hlo. rewrite N.shiftl_mul_pow2. change (2 ^ 4) with 16.
  assert (N.land (hi * 16) lo = 0) as Hdisj.
  { apply N.bits_inj_0. intros i. rewrite N.land_spec.
    destruct (N.lt_ge_cases i 4).
    - change 16 with (2 ^ 4). by rewrite N.mul_pow2_bits_low.
    - rewrite andb_comm. replace lo with (lo mod 2 ^ 4) by (apply N.mod_small; done).
      by rewrite N.mod_pow2_bits_high. }
  by rewrite -N.lxor_lor // -N.add_nocarry_lxor.
Qed.

Lemma parse_chunks_fmt l :
  forallb is_byte l = true →
  parse_chunks (l ≫= λ byte, [hex_digit (byte / 16); hex_digit (byte mod 16)]) = Some l.
Proof.
  induction l as [|b l IH]; simpl; [done|].
  intros [Hb%N.ltb_lt Hl]%andb_true_iff.
  pose proof (N.mod_lt b 16). pose proof (N.div_lt_upper_bound b 16 16).
  rewrite !hex_nibble_digit; [lia..|]. rewrite IH //.
  rewrite nibbles_join; [lia|]. do 2 f_equal.
  pose proof (N.div_mod b 16). lia.
Qed.

Lemma parse_chunks_Some n input bytes :
  length input = (n * 2)%nat → parse_chunks input = Some bytes →
  length bytes = n ∧ forallb is_byte bytes = true ∧
  input = bytes ≫= λ byte, [hex_digit (byte / 16); hex_digit (byte mod 16)].
Proof.
  revert input bytes. induction n as [|n IH]; intros [|c0 [|c1 input]] bytes Hlen; try done.
  { by intros [= <-]. }
  simpl in *. destruct (hex_nibble c0) as [hi|] eqn:H0; [|done].
  destruct (hex_nibble c1) as [lo|] eqn:H1; [|done].
  destruct (parse_chunks input) as [rest|] eqn:Hrest; [|done]. intros [= <-].
  apply hex_nibble_Some in H0 as [Hhi <-]. apply hex_nibble_Some in H1 as [Hlo <-].
  destruct (IH input rest) as (Hl & Hb & ->); [lia|done|].
  simpl. rewrite nibbles_join //. split; [by rewrite Hl|]. split.
  - rewrite Hb andb_true_r. apply N.ltb_lt. lia.
  - rewrite N.div_add_l // (N.div_small lo) // N.add_0_r.
    by rewrite N.add_comm N.Div0.mod_add N.mod_small.
Qed.

Lemma fmt_length {k} (a : id k) : length (fmt a) = (LEN * 2)%nat.
Proof.
  unfold fmt. rewrite -(as_bytes_length a).
  induction (as_bytes a) as [|b l IH]; simpl; [done|]. by rewrite IH.
Qed.

(** Parsing what [Display] prints gives the identifier back. *)
Lemma from_str_fmt_ok {k} (a : id k) : from_str (fmt a) = Ok a.
Proof.
  unfold from_str. rewrite bool_decide_true; [apply fmt_length|]. simpl.
  unfold fmt. rewrite parse_chunks_fmt.
  - destruct a as [l H]; simpl. apply andb_prop_elim in H as [_ H].
    by apply Is_true_true_1.
  - by rewrite from_bytes_as_bytes.
Qed.

(** Whatever the parser accepts is exactly the printed form of its result. *)
Lemma from_str_ok_fmt {k} input (a : id k) : from_str input = Ok a → input = fmt a.
Proof.
  unfold from_str. destruct (bool_decide_reflect (length input = LEN * 2)%nat) as [Hlen|];
    simpl; [|done].
  destruct (parse_chunks input) as [bytes|] eqn:Hp; [|done].
  intros Ha%ok_or_ok%from_bytes_Some. unfold fmt. rewrite Ha.
  by eapply parse_chunks_Some in Hp as (? & ? & ?).
Qed.

(** C40: [Display] and [FromStr] are inverse of each other: a string parses to
    an identifier exactly when it is that identifier's printed form. In particular
    uppercase digits, wrong lengths and other characters are refused. *)
Theorem from_str_iff_fmt {k} (input : list N) (a : id k) :
  from_str input = Ok a ↔ input = fmt a.
Proof. split; [apply from_str_ok_fmt|]. intros ->. apply from_str_fmt_ok. Qed.
