(* ===== verification/Pages.v ===== *)
(** * Ranges of ordered collections

    [BTreeSet::range] with a limit, as the paged reads of the stores use it: a page
    that starts after the last element of another continues it without a gap and
    without a repetition. *)

From stdpp Require Import sorting.
From S2P Require Import Prelude Ids.

#[local] Open Scope N_scope.

Section pages.
Context {A : Type} `{Countable A, !BOrd A}.

(** [(start, Unbounded)] with [start] excluded, when there is one. *)
Definition beyond (after : option A) (x : A) : Prop :=
  match after with Some a => blt a x | None => True end.

#[global] Instance beyond_dec after x : Decision (beyond after x).
Proof. destruct after; simpl; apply _. Defined.

(** [range((start, Unbounded))] *)
Definition bt_after (X : gset A) (after : option A) : list A := filter (beyond after) (bt_elements X).

(** [.take(limit)] of it. *)
Definition page (X : gset A) (after : option A) (limit : nat) : list A :=
  take limit (bt_after X after).

Lemma sorted_filter (P : A → Prop) `{∀ x, Decision (P x)} (l : list A) :
  StronglySorted blt l → StronglySorted blt (filter P l).
Proof.
  induction 1 as [|x l Hs IH Hall]; [constructor|]. rewrite filter_cons. case_decide; [|done].
  constructor; [done|]. apply Forall_forall. intros y [_ Hy]%list_elem_of_filter.
  by apply (proj1 (Forall_forall _ _) Hall).
Qed.

Lemma bt_after_sorted X after : StronglySorted blt (bt_after X after).
Proof. apply sorted_filter, bt_elements_sorted. Qed.

Lemma elem_of_bt_after X after x : x ∈ bt_after X after ↔ x ∈ X ∧ beyond after x.
Proof. unfold bt_after. rewrite list_elem_of_filter elem_of_bt_elements. tauto. Qed.

Lemma bt_after_None X : bt_after X None = bt_elements X.
Proof.
  apply sorted_blt_unique; [apply bt_after_sorted|apply bt_elements_sorted|].
  intros x. rewrite elem_of_bt_after elem_of_bt_elements. simpl. tauto.
Qed.

(** What follows an element of a range is the range after it. *)
Lemma bt_after_split X after (l1 l2 : list A) a :
  bt_after X after = l1 ++ a :: l2 → bt_after X (Some a) = l2.
Proof.
  intros Hl. pose proof (bt_after_sorted X after) as Hs. rewrite Hl in Hs.
  apply StronglySorted_app in Hs as (Hcross & _ & Hs). apply StronglySorted_inv in Hs as [Hs2 Hall].
  apply sorted_blt_unique; [apply bt_after_sorted|done|]. intros x.
  assert (a ∈ bt_after X after) as Ha by (rewrite Hl elem_of_app elem_of_cons; tauto).
  apply elem_of_bt_after in Ha as [_ Ha]. rewrite elem_of_bt_after. simpl. split.
  - intros [Hx Hax]. assert (x ∈ bt_after X after) as Hin.
    { apply elem_of_bt_after. split; [done|]. destruct after; [by eapply blt_trans|done]. }
    rewrite Hl elem_of_app elem_of_cons in Hin. destruct Hin as [Hin|[->|Hin]]; [|by apply blt_irrefl in Hax|done].
    destruct (blt_asym a x Hax). apply (Hcross x a); [done|]. by left.
  - intros Hx. split; [|by apply (proj1 (Forall_forall _ _) Hall)].
    assert (x ∈ bt_after X after) as Hin by (rewrite Hl elem_of_app elem_of_cons; tauto).
    by apply elem_of_bt_after in Hin as [? _].
Qed.

(** The page after the last element of a page continues it. *)
Lemma page_next X after (n k : nat) a :
  last (page X after n) = Some a → page X after n ++ page X (Some a) k = page X after (n + k)%nat.
Proof.
  intros (l & Hp)%last_Some. unfold page in *.
  assert (bt_after X after = l ++ a :: drop n (bt_after X after)) as Hsplit.
  { by rewrite -{1}(take_drop n (bt_after X after)) Hp -app_assoc. }
  rewrite (bt_after_split X after _ _ _ Hsplit). apply take_take_drop.
Qed.

(** An empty page ends the enumeration; a large enough one is all of it. *)
Lemma page_nil X after limit : (0 < limit)%nat → page X after limit = [] → bt_after X after = [].
Proof. unfold page. by destruct limit, (bt_after X after); [lia..| |]. Qed.

Lemma page_all X limit : (size X ≤ limit)%nat → page X None limit = bt_elements X.
Proof. intros Hs. unfold page. rewrite bt_after_None take_ge //. by rewrite bt_elements_length. Qed.
End pages.

(** The smallest and the largest id. *)
Definition id_min {k} : id k := Id (replicate 32 0) I.
Definition id_max {k} : id k := Id (replicate 32 255) I.

(** ** Keys with a common first component *)

Lemma id_bounds {k} (a : id k) : ble id_min a ∧ ble a id_max.
Proof.
  assert (∀ l : list N, (∀ i b, l !! i = Some b → b < 256) →
    list_cmp (replicate (length l) 0) l ≠ Gt ∧ list_cmp l (replicate (length l) 255) ≠ Gt) as Hgen.
  { induction l as [|x l IH]; intros Hb; [done|]. cbn [length replicate list_cmp bcmp N_bord].
    assert (x < 256) as Hx by by apply (Hb 0%nat). destruct IH as [H1 H2]; [intros i b; apply (Hb (S i))|].
    destruct (N.compare_spec 0 x), (N.compare_spec x 255); simpl; try done; lia. }
  specialize (Hgen (as_bytes a) (as_bytes_bound a)). rewrite as_bytes_length in Hgen. exact Hgen.
Qed.

Lemma blt_pair {A B} `{BOrd A, BOrd B} (x x' : A) (y y' : B) :
  blt (x, y) (x', y') ↔ blt x x' ∨ (x = x' ∧ blt y y').
Proof. unfold blt. simpl. by rewrite lex_cmp_lt bcmp_eq. Qed.

(** A range over the second component selects by the first. *)
Lemma ble_pair {A B} `{BOrd A, BOrd B} (x x' : A) (y y' : B) :
  ble (x, y) (x', y') ↔ blt x x' ∨ (x = x' ∧ ble y y').
Proof.
  rewrite !ble_lt_eq blt_pair. naive_solver.
Qed.

Lemma ble_squeeze {A B} `{BOrd A, BOrd B} (x x' : A) (lo hi y : B) :
  ble (x, lo) (x', y) ∧ ble (x', y) (x, hi) ↔ x' = x ∧ ble lo y ∧ ble y hi.
Proof.
  rewrite !ble_pair. split; [|naive_solver].
  intros [[Hlt|[-> Hlo]] [Hgt|[Heq Hhi]]]; subst; try done.
  - by destruct (blt_asym x x' Hlt).
  - by apply blt_irrefl in Hlt.
  - by apply blt_irrefl in Hgt.
Qed.

Section keys.
Context {K1 K2 V : Type} `{Countable K1, Countable K2, !BOrd K1, !BOrd K2}.

(** The entries of a map under [x], keyed by the second component. *)
Lemma range_entries (m : gmap (K1 * K2) V) (x : K1) (P : K1 * K2 * V → Prop) `{∀ e, Decision (P e)} :
  (∀ e, P e → e.1.1 = x) →
  let l := (λ e : K1 * K2 * V, (e.1.2, e.2)) <$> filter P (bt_entries m) in
  StronglySorted blt l.*1 ∧ ∀ y v, (y, v) ∈ l ↔ m !! (x, y) = Some v ∧ P ((x, y), v).
Proof.
  intros Hx l. split.
  - unfold l. rewrite -list_fmap_compose. pose proof (bt_elements_sorted (dom m : gset (K1 * K2))) as Hs.
    rewrite -bt_entries_keys in Hs. clear l. induction (bt_entries m) as [|e l IH]; [constructor|].
    rewrite fmap_cons in Hs. apply StronglySorted_inv in Hs as [Hs Hall].
    rewrite filter_cons. case_decide as He; [|by apply IH]. rewrite fmap_cons. constructor; [by apply IH|].
    apply Forall_forall. intros y (e' & -> & [He' Hin]%list_elem_of_filter)%list_elem_of_fmap.
    assert (blt e.1 e'.1) as Hlt.
    { apply (proj1 (Forall_forall _ _) Hall). by apply list_elem_of_fmap_2. }
    apply Hx in He, He'. unfold blt in Hlt. simpl in Hlt. rewrite He He' bcmp_refl /= in Hlt. done.
  - intros y v. unfold l. rewrite list_elem_of_fmap. split.
    + intros ([[x' y'] v'] & [= -> ->] & [He Hin]%list_elem_of_filter). pose proof (Hx _ He) as Heq.
      simpl in Heq. subst x'. apply elem_of_bt_entries in Hin. done.
    + intros [Hm HP]. exists ((x, y), v). split; [done|]. apply list_elem_of_filter.
      split; [done|]. by apply elem_of_bt_entries.
Qed.
End keys.
