(* ===== verification/Frame.v ===== *)
(** * Stream framing ([src/src/frame.rs])

    Length-prefixed frames: the encoder, the incremental decoder, their list
    versions and the decode reservations. Bytes are numbers below 256. *)

From S2P Require Import Prelude Ids.

#[local] Open Scope N_scope.

(** The [io::Error]s this code builds: the kind and the message. *)
Inductive io_error :=
  | InvalidData (message : string)
  | UnexpectedEof (message : string).

(** [pub(super) const MAX_FRAME_LEN: usize = 16 * 1024 * 1024;] *)
Definition MAX_FRAME_LEN : N := 16 * 1024 * 1024.
(** [pub const MAX_SYNC_DATA_OPS_PER_MESSAGE: usize = 256;] *)
Definition MAX_SYNC_DATA_OPS_PER_MESSAGE : N := 256.

Definition lenN {A} (l : list A) : N := N.of_nat (length l).

(** [u32::to_be_bytes] and [u32::from_be_bytes]. *)
Definition to_be_bytes (n : N) : list N :=
  [ (n / 2 ^ 24) mod 256; (n / 2 ^ 16) mod 256; (n / 2 ^ 8) mod 256; n mod 256 ].
Definition from_be_bytes (b0 b1 b2 b3 : N) : N :=
  b0 * 2 ^ 24 + b1 * 2 ^ 16 + b2 * 2 ^ 8 + b3.

(** [pub fn encode_frame(payload: &[u8]) -> io::Result<Vec<u8>>] *)
Definition encode_frame (payload : list N) : result io_error (list N) :=
  if MAX_FRAME_LEN <? lenN payload
  then Err (InvalidData "sync frame exceeds maximum length")
  else
    let len := lenN payload mod 2 ^ 32 in
    Ok (to_be_bytes len ++ payload).

(** [pub fn decode_frame(input: &[u8]) -> io::Result<Option<(Vec<u8>, usize)>>] *)
Definition decode_frame (input : list N) : result io_error (option (list N * N)) :=
  match input with
  | b0 :: b1 :: b2 :: b3 :: _ =>
      let len := from_be_bytes b0 b1 b2 b3 in
      if MAX_FRAME_LEN <? len
      then Err (InvalidData "sync frame exceeds maximum length")
      else
        let end_ := 4 + len in
        if lenN input <? end_ then Ok None
        else Ok (Some (take (N.to_nat len) (drop 4 input), end_))
  | _ => Ok None
  end.

(** [pub fn encode_frames] *)
Definition encode_frames (payloads : list (list N)) : result io_error (list N) :=
  try_fold (λ out payload, frame ← encode_frame payload; Ok (out ++ frame)) [] payloads.

(** One iteration of the loop of [decode_frames] per unit of fuel; [None] when
    the fuel ran out before the input was consumed. *)
Fixpoint decode_frames_loop (fuel : nat) (frames : list (list N)) (input : list N)
    : option (result io_error (list (list N))) :=
  match input with
  | [] => Some (Ok frames)
  | _ :: _ =>
      match fuel with
      | O => None
      | S fuel' =>
          match decode_frame input with
          | Err e => Some (Err e)
          | Ok None => Some (Err (UnexpectedEof "incomplete sync frame"))
          | Ok (Some (frame, consumed)) =>
              decode_frames_loop fuel' (frames ++ [frame]) (drop (N.to_nat consumed) input)
          end
      end
  end.

(** [pub fn decode_frames(mut input: &[u8]) -> io::Result<Vec<Vec<u8>>>]. Every
    iteration consumes at least the four prefix bytes, so the input length is
    enough fuel ([decode_frames_total]). *)
Definition decode_frames (input : list N) : option (result io_error (list (list N))) :=
  decode_frames_loop (length input) [] input.

(** [pub fn frame_decode_bound(bytes: usize, tag: u8) -> usize]. The two sizes are
    what [size_of] gives for the build's [Op] and [SyncMessage]. *)
Definition frame_decode_bound (size_of_Op size_of_SyncMessage : N) (bytes tag : N) : N :=
  let data := tag =? 4 in
  let factor := if data then 3 else 18 in
  let ops := if data then MAX_SYNC_DATA_OPS_PER_MESSAGE else 0 in
  saturating_add
    (saturating_add
       (saturating_add (saturating_mul bytes (factor + 1)) (2 * 1024 * 1024))
       (saturating_mul ops size_of_Op))
    (2 * size_of_SyncMessage).

(** [pub(super) fn largest_decode_bound() -> usize] *)
Definition largest_decode_bound (size_of_Op size_of_SyncMessage : N) : N :=
  foldl N.max 0
    ((λ tag, frame_decode_bound size_of_Op size_of_SyncMessage MAX_FRAME_LEN (N.of_nat tag))
       <$> seq 0 256).

(** ** Big-endian prefixes *)

Lemma to_from_be_bytes n rest :
  n < 2 ^ 32 →
  ∃ b0 b1 b2 b3, to_be_bytes n ++ rest = b0 :: b1 :: b2 :: b3 :: rest ∧
    from_be_bytes b0 b1 b2 b3 = n.
Proof.
  intros Hn. unfold to_be_bytes, from_be_bytes. do 4 eexists. split; [done|].
  change (2 ^ 24) with 16777216. change (2 ^ 16) with 65536. change (2 ^ 8) with 256.
  change (2 ^ 32) with 4294967296 in Hn. Zify.zify. Z.to_euclidean_division_equations. lia.
Qed.

Lemma from_to_be_bytes b0 b1 b2 b3 :
  is_byte b0 → is_byte b1 → is_byte b2 → is_byte b3 →
  to_be_bytes (from_be_bytes b0 b1 b2 b3) = [b0; b1; b2; b3].
Proof.
  unfold is_byte. rewrite !Is_true_true !N.ltb_lt. intros.
  unfold to_be_bytes, from_be_bytes.
  change (2 ^ 24) with 16777216. change (2 ^ 16) with 65536. change (2 ^ 8) with 256.
  repeat f_equal; Zify.zify; Z.to_euclidean_division_equations; lia.
Qed.

Lemma encode_frame_ok payload frame :
  encode_frame payload = Ok frame →
  lenN payload ≤ MAX_FRAME_LEN ∧ frame = to_be_bytes (lenN payload) ++ payload.
Proof.
  unfold encode_frame. destruct (N.ltb_spec MAX_FRAME_LEN (lenN payload)); [done|].
  rewrite N.mod_small; [unfold MAX_FRAME_LEN in *; lia|]. by intros [= <-].
Qed.

Lemma encode_frame_length payload frame :
  encode_frame payload = Ok frame → lenN frame = 4 + lenN payload.
Proof. intros [_ ->]%encode_frame_ok. unfold lenN. simpl. lia. Qed.

(** The decoder reads an encoded frame from the front of any longer input. *)
Lemma decode_encode_frame payload frame rest :
  encode_frame payload = Ok frame →
  decode_frame (frame ++ rest) = Ok (Some (payload, lenN frame)).
Proof.
  intros Henc. pose proof (encode_frame_length _ _ Henc) as Hlen.
  apply encode_frame_ok in Henc as [Hmax ->].
  assert (lenN payload < 2 ^ 32) as H32 by (unfold MAX_FRAME_LEN in *; lia).
  rewrite Hlen -app_assoc.
  destruct (to_from_be_bytes (lenN payload) (payload ++ rest) H32)
    as (b0 & b1 & b2 & b3 & -> & Heq).
  unfold decode_frame. rewrite Heq. rewrite (proj2 (N.ltb_ge _ _)) //.
  rewrite (proj2 (N.ltb_ge _ _)).
  { unfold lenN. simpl. rewrite length_app. lia. }
  simpl. do 3 f_equal. unfold lenN. by rewrite Nat2N.id take_app_length.
Qed.

(** Whatever the decoder returns was encoded by [encode_frame]. *)
Lemma decode_frame_sound input payload consumed :
  Forall is_byte input →
  decode_frame input = Ok (Some (payload, consumed)) →
  encode_frame payload = Ok (take (N.to_nat consumed) input) ∧
  lenN payload + 4 = consumed ∧ consumed ≤ lenN input.
Proof.
  intros Hbytes. unfold decode_frame.
  destruct input as [|b0 [|b1 [|b2 [|b3 input]]]]; try done.
  destruct (N.ltb_spec MAX_FRAME_LEN (from_be_bytes b0 b1 b2 b3)) as [|Hmax]; [done|].
  destruct (N.ltb_spec (lenN (b0 :: b1 :: b2 :: b3 :: input)) (4 + from_be_bytes b0 b1 b2 b3))
    as [|Hlen]; [done|].
  simpl. intros [= <- <-].
  set (len := from_be_bytes b0 b1 b2 b3) in *.
  assert (lenN (take (N.to_nat len) input) = len) as Htake.
  { unfold lenN in *. rewrite length_take. simpl in Hlen. lia. }
  split; [|split; [rewrite Htake; lia|done]].
  unfold encode_frame. rewrite Htake. rewrite (proj2 (N.ltb_ge _ _)) //.
  rewrite N.mod_small; [unfold MAX_FRAME_LEN in *; lia|].
  do 4 (apply Forall_cons in Hbytes as [? Hbytes]).
  unfold len at 1. rewrite from_to_be_bytes //.
  replace (N.to_nat (4 + len)) with (4 + N.to_nat len)%nat by lia. done.
Qed.

(** ** Sequences of frames *)

Lemma drop_frame {A} (frame rest : list A) : drop (N.to_nat (lenN frame)) (frame ++ rest) = rest.
Proof. unfold lenN. by rewrite Nat2N.id drop_app_length. Qed.

Lemma decode_frame_consumes input payload consumed :
  decode_frame input = Ok (Some (payload, consumed)) → 4 ≤ consumed.
Proof.
  unfold decode_frame. repeat case_match; intros [= <- <-]; lia.
Qed.

(** The loop of [decode_frames] never runs out of the fuel it is given. *)
Lemma decode_frames_total fuel frames input :
  (length input ≤ fuel)%nat → is_Some (decode_frames_loop fuel frames input).
Proof.
  revert frames input. induction fuel as [|fuel IH]; intros frames [|b input] Hfuel;
    cbn [decode_frames_loop]; [by eauto|simpl in Hfuel; lia|by eauto|].
  destruct (decode_frame (b :: input)) as [[[frame consumed]|]|e] eqn:Hdec; [|by eauto..].
  apply IH. apply decode_frame_consumes in Hdec. rewrite length_drop.
  simpl in *. lia.
Qed.

(** The loop body of [encode_frames]. *)
Abbreviation push_frame :=
  (λ out payload, frame ← encode_frame payload; Ok (out ++ frame)).

(** What the loop already wrote only prefixes what it still writes. *)
Lemma encode_frames_acc payloads acc :
  try_fold push_frame acc payloads = (tail ← encode_frames payloads; Ok (acc ++ tail)).
Proof.
  unfold encode_frames. revert acc.
  induction payloads as [|p payloads IH]; intros acc; simpl.
  { by rewrite app_nil_r. }
  destruct (encode_frame p) as [frame|e]; simpl; [|done].
  rewrite (IH (acc ++ frame)) (IH frame).
  destruct (try_fold _ [] payloads); simpl; [by rewrite app_assoc|done].
Qed.

Lemma encode_frames_cons payload payloads out :
  encode_frames (payload :: payloads) = Ok out →
  ∃ frame tail, encode_frame payload = Ok frame ∧
    encode_frames payloads = Ok tail ∧ out = frame ++ tail.
Proof.
  unfold encode_frames at 1. simpl.
  destruct (encode_frame payload) as [frame|e]; simpl; [|done].
  rewrite encode_frames_acc bind_ok. intros (tail & Ht & [= <-]). eauto.
Qed.

Lemma decode_frames_loop_encoded payloads : ∀ fuel frames input,
  encode_frames payloads = Ok input → (length input ≤ fuel)%nat →
  decode_frames_loop fuel frames input = Some (Ok (frames ++ payloads)).
Proof.
  induction payloads as [|p payloads IH]; intros fuel frames input Henc Hfuel.
  { injection Henc as <-. rewrite app_nil_r. by destruct fuel. }
  apply encode_frames_cons in Henc as (frame & tail & Hf & Htail & ->).
  pose proof (decode_encode_frame _ _ tail Hf) as Hdec.
  pose proof (encode_frame_length _ _ Hf) as Hlen. unfold lenN in Hlen.
  destruct (frame ++ tail) as [|b rest] eqn:Heq.
  { destruct frame; [simpl in Hlen; lia|done]. }
  rewrite -Heq in Hdec |- *. rewrite -Heq in Hfuel. rewrite length_app in Hfuel.
  destruct fuel as [|fuel]; [lia|].
  assert (decode_frames_loop (S fuel) frames (frame ++ tail) =
    decode_frames_loop fuel (frames ++ [p]) tail) as ->.
  { rewrite -{2}(drop_frame frame tail). rewrite Heq. cbn [decode_frames_loop]. by rewrite -Heq Hdec. }
  rewrite (IH _ _ _ Htail); [lia|]. by rewrite -app_assoc.
Qed.

(** Encoding a list of payloads and decoding the bytes gives the same
    payloads back, with no frame lost, merged or split. *)
Theorem decode_encode_frames payloads bytes :
  encode_frames payloads = Ok bytes → decode_frames bytes = Some (Ok payloads).
Proof. intros H. unfold decode_frames. by rewrite (decode_frames_loop_encoded payloads). Qed.

Lemma decode_encode_frames_witness :
  encode_frames [[1; 2]; []; [7]] = Ok [0; 0; 0; 2; 1; 2; 0; 0; 0; 0; 0; 0; 0; 1; 7] ∧
  decode_frames [0; 0; 0; 2; 1; 2; 0; 0; 0; 0; 0; 0; 0; 1; 7] = Some (Ok [[1; 2]; []; [7]]).
Proof.
  split; [vm_compute; reflexivity|].
  apply (decode_encode_frames [[1; 2]; []; [7]]). vm_compute. reflexivity.
Defined.

(** ** Incremental reading *)

(** On bytes read so far the decoder has three answers, and each is
    final in the right way. A frame it returns is the encoding of the payload it
    reports, is unchanged by whatever bytes arrive later, and never exceeds
    [MAX_FRAME_LEN]; an error is also unchanged by later bytes; and only an input
    shorter than its frame asks for more. *)
Theorem decode_frame_incremental (input later : list N) :
  Forall is_byte input →
  match decode_frame input with
  | Ok (Some (payload, consumed)) =>
      encode_frame payload = Ok (take (N.to_nat consumed) input) ∧
      consumed = 4 + lenN payload ∧ lenN payload ≤ MAX_FRAME_LEN ∧
      decode_frame (input ++ later) = Ok (Some (payload, consumed))
  | Err e => decode_frame (input ++ later) = Err e
  | Ok None =>
      (length input < 4)%nat ∨
      ∃ b0 b1 b2 b3 rest, input = b0 :: b1 :: b2 :: b3 :: rest ∧
        lenN rest < from_be_bytes b0 b1 b2 b3 ≤ MAX_FRAME_LEN
  end.
Proof.
  intros Hbytes. destruct (decode_frame input) as [[[payload consumed]|]|e] eqn:Hdec.
  - destruct (decode_frame_sound _ _ _ Hbytes Hdec) as (Henc & Hlen & Hc).
    pose proof (proj1 (encode_frame_ok _ _ Henc)). split; [done|].
    split; [lia|]. split; [done|].
    rewrite -{1}(take_drop (N.to_nat consumed) input) -app_assoc.
    rewrite (decode_encode_frame payload _ _ Henc). do 3 f_equal.
    unfold lenN in *. rewrite length_take. lia.
  - revert Hdec. unfold decode_frame.
    destruct input as [|b0 [|b1 [|b2 [|b3 rest]]]]; simpl; try (left; lia).
    destruct (N.ltb_spec MAX_FRAME_LEN (from_be_bytes b0 b1 b2 b3)); [done|].
    case_match eqn:Hlt; [|done]. apply N.ltb_lt in Hlt. right.
    exists b0, b1, b2, b3, rest. split; [done|]. unfold lenN in *. simpl in Hlt. lia.
  - revert Hdec. unfold decode_frame.
    destruct input as [|b0 [|b1 [|b2 [|b3 rest]]]]; simpl; try done.
    by destruct (N.ltb_spec MAX_FRAME_LEN (from_be_bytes b0 b1 b2 b3)); [|case_match].
Qed.

Lemma decode_frame_incremental_witness :
  decode_frame ([0; 0; 0; 1; 9; 5] ++ [3]) = Ok (Some ([9], 5)).
Proof.
  refine (proj2 (proj2 (proj2 (decode_frame_incremental [0; 0; 0; 1; 9; 5] [3] _)))).
  repeat constructor.
Defined.

(** ** Reservations *)

Lemma frame_decode_bound_mono op msg b1 b2 tag :
  b1 ≤ b2 → frame_decode_bound op msg b1 tag ≤ frame_decode_bound op msg b2 tag.
Proof.
  intros H. unfold frame_decode_bound, saturating_add, saturating_mul.
  set (f := (if tag =? 4 then 3 else 18) + 1).
  assert (b1 * f ≤ b2 * f) by (apply N.mul_le_mono_r; done). lia.
Qed.

Lemma foldl_max_ge (l : list N) a x : x ∈ l ∨ x = a → x ≤ foldl N.max a l.
Proof.
  revert a x. induction l as [|y l IH]; intros a x; simpl.
  { intros [H| ->]; [by apply elem_of_nil in H|done]. }
  intros [[->|H]%elem_of_cons| ->].
  - etrans; [|apply IH; by right]. lia.
  - apply IH. by left.
  - etrans; [|apply IH; by right]. lia.
Qed.

(** A pool that fits [largest_decode_bound] can admit every legal frame:
    no frame of at most [MAX_FRAME_LEN] bytes, whatever its first byte, reserves more. *)
Theorem decode_bound_largest (size_of_Op size_of_SyncMessage bytes tag : N) :
  bytes ≤ MAX_FRAME_LEN → is_byte tag →
  frame_decode_bound size_of_Op size_of_SyncMessage bytes tag
    ≤ largest_decode_bound size_of_Op size_of_SyncMessage.
Proof.
  intros Hb Ht%Is_true_true%N.ltb_lt.
  etrans; [by apply frame_decode_bound_mono|].
  apply foldl_max_ge. left. apply list_elem_of_fmap. exists (N.to_nat tag).
  split; [by rewrite N2Nat.id|]. apply elem_of_seq. lia.
Qed.

Lemma decode_bound_largest_witness :
  frame_decode_bound 300 200 1000 4 ≤ largest_decode_bound 300 200.
Proof. apply decode_bound_largest; [vm_compute; discriminate|done]. Defined.
