(* ===== verification/ClockSpec.v ===== *)
(** * The interface of actor clocks

    What the components that hold clocks rely on, stated as a type class: the
    operations of [src/src/clock.rs] over an opaque type and, for each, the finite
    map it leaves. [Clock.v] proves that the trie of the source implements it; the
    finite map itself is the reference implementation. *)

From S2P Require Import Prelude Ids.

#[local] Open Scope N_scope.

(** ** The interface *)

(** What the rest of the program relies on of a clock: operations over an opaque
    type and, for each, the map it leaves. *)
Class ClockImpl (C : Type) := {
  ck_view : C → gmap ActorId N;
  ck_new : C;
  ck_get : C → ActorId → N;
  ck_set : C → ActorId → N → C;
  ck_observe : C → ActorId → N → C;
  ck_merge : C → C → C;
  ck_intersect : C → C → C;
  ck_select : C → gset ActorId → C;
  ck_dominates : C → C → bool;
  ck_eqb : C → C → bool;
  ck_iter : C → list (ActorId * N);
  ck_len : C → N;
  ck_is_empty : C → bool;
  ck_view_new : ck_view ck_new = ∅;
  ck_get_view c a : ck_get c a = default 0 (ck_view c !! a);
  ck_view_set c a s :
    ck_view (ck_set c a s) = if s =? 0 then delete a (ck_view c) else <[a := s]> (ck_view c);
  ck_view_observe c a s :
    ck_view (ck_observe c a s) = <[a := N.max (default 0 (ck_view c !! a)) s]> (ck_view c);
  ck_view_merge c d :
    ck_view (ck_merge c d) = union_with (λ s t, Some (N.max s t)) (ck_view c) (ck_view d);
  ck_view_intersect c d :
    ck_view (ck_intersect c d) =
      intersection_with (λ s t, Some (N.min s t)) (ck_view c) (ck_view d);
  ck_view_select c actors :
    ck_view (ck_select c actors) = filter (λ e, e.1 ∈ actors) (ck_view c);
  ck_dominates_view c d :
    ck_dominates c d = true ↔
      ∀ a, default 0 (ck_view d !! a) ≤ default 0 (ck_view c !! a);
  ck_eqb_view c d : ck_eqb c d = true ↔ ck_view c = ck_view d;
  ck_iter_view c : ck_iter c = bt_entries (ck_view c);
  ck_len_view c : ck_len c = N.of_nat (size (ck_view c));
  ck_is_empty_view c : ck_is_empty c = bool_decide (ck_view c = ∅);
}.

(** The finite map itself implements the interface: the reference implementation. *)
#[global] Program Instance map_clock : ClockImpl (gmap ActorId N) := {|
  ck_view c := c;
  ck_new := ∅;
  ck_get c a := default 0 (c !! a);
  ck_set c a s := if s =? 0 then delete a c else <[a := s]> c;
  ck_observe c a s := <[a := N.max (default 0 (c !! a)) s]> c;
  ck_merge := union_with (λ s t, Some (N.max s t));
  ck_intersect := intersection_with (λ s t, Some (N.min s t));
  ck_select c actors := filter (λ e, e.1 ∈ actors) c;
  ck_dominates c d := forallb (λ e, e.2 <=? default 0 (c !! e.1)) (map_to_list d);
  ck_eqb c d := bool_decide (c = d);
  ck_iter := bt_entries;
  ck_len c := N.of_nat (size c);
  ck_is_empty c := bool_decide (c = ∅);
|}.
Solve Obligations with done.
Next Obligation.
  intros c d. rewrite forallb_forall. split; intros Hle.
  - intros a. destruct (d !! a) as [s|] eqn:Hs; simpl; [|lia].
    apply elem_of_map_to_list, list_elem_of_In in Hs. apply N.leb_le, (Hle _ Hs).
  - intros [a s] Hin%list_elem_of_In%elem_of_map_to_list. apply N.leb_le.
    specialize (Hle a). by rewrite Hin in Hle.
Qed.
Next Obligation. intros c d. apply bool_decide_eq_true. Qed.

(** Entries after an observation and after a merge. *)
Section entries.
Context {C : Type} `{!ClockImpl C}.

Lemma ck_get_observe (c : C) a s b :
  ck_get (ck_observe c a s) b = if decide (a = b) then N.max (ck_get c b) s else ck_get c b.
Proof.
  rewrite !ck_get_view ck_view_observe. case_decide; subst;
    [by rewrite lookup_insert_eq|by rewrite lookup_insert_ne].
Qed.

Lemma ck_get_merge (c d : C) a : ck_get (ck_merge c d) a = N.max (ck_get c a) (ck_get d a).
Proof.
  rewrite !ck_get_view ck_view_merge lookup_union_with.
  destruct (ck_view c !! a), (ck_view d !! a); simpl; lia.
Qed.

End entries.
