(* ===== verification/Nibble.v ===== *)
(** * Nibbles of actor ids ([src/src/clock.rs])

    The digit alphabet of the clock trie: the nibble of an id at a level, the first
    level where two ids differ, and the slot of a digit under a branch bitmap. *)

From S2P Require Import Prelude Ids.

#[local] Open Scope N_scope.

(** [fn nibble(actor: &ActorId, level: u8) -> u8]. Levels are below 64, so the
    byte index is in range; the default is what an unreachable panic leaves. *)
Definition nibble (actor : ActorId) (level : N) : N :=
  let byte := default 0 (as_bytes actor !! N.to_nat (level / 2)) in
  if level mod 2 =? 0 then N.shiftr byte 4 else N.land byte 15.

(** [(0..a.len()).find(|index| a[*index] != b[*index])] *)
Fixpoint find_difference (index : N) (a b : list N) : option (N * N * N) :=
  match a, b with
  | x :: a', y :: b' =>
      if x =? y then find_difference (index + 1) a' b' else Some (index, x, y)
  | _, _ => None
  end.

(** [fn first_difference(a: &ActorId, b: &ActorId) -> Option<u8>] *)
Definition first_difference (a b : ActorId) : option N :=
  match find_difference 0 (as_bytes a) (as_bytes b) with
  | None => None
  | Some (byte, x, y) =>
      let high := N.shiftr (N.lxor x y) 4 =? 0 in
      Some (byte * 2 + (if high then 1 else 0))
  end.

(** [u16::count_ones]: the set bits among sixteen. *)
Definition digits16 : list N := N.of_nat <$> seq 0 16.
Definition count_ones (bits : N) : nat := length (filter (N.testbit bits) digits16).

(** [1 << digit] *)
Definition bit (digit : N) : N := N.shiftl 1 digit.

(** [bitmap & (1 << digit) != 0] *)
Definition has_bit (bitmap digit : N) : bool := negb (N.land bitmap (bit digit) =? 0).

(** [fn slot(bitmap: u16, nibble: u8) -> usize] *)
Definition slot (bitmap digit : N) : nat :=
  count_ones (N.land bitmap (bit digit - 1)).

(** ** Nibbles determine ids *)

(** Two ids have the same nibbles before level [n]. *)
Definition agree (a b : ActorId) (n : N) : Prop := ∀ i, i < n → nibble a i = nibble b i.

Lemma agree_refl a n : agree a a n.
Proof. by intros i. Qed.
Lemma agree_sym a b n : agree a b n → agree b a n.
Proof. intros H i Hi. by rewrite H. Qed.
Lemma agree_trans a b c n : agree a b n → agree b c n → agree a c n.
Proof. intros H1 H2 i Hi. by rewrite H1 // H2. Qed.
Lemma agree_le a b m n : m ≤ n → agree a b n → agree a b m.
Proof. intros Hmn H i Hi. apply H. lia. Qed.
Lemma agree_succ a b n : agree a b (n + 1) ↔ agree a b n ∧ nibble a n = nibble b n.
Proof.
  split.
  - intros H. split; [by eapply agree_le, H; lia|]. apply H. lia.
  - intros [H Hn] i Hi. destruct (decide (i = n)) as [->|]; [done|]. apply H. lia.
Qed.

#[export] Hint Resolve agree_refl : core.

Lemma nibble_lt a l : nibble a l < 16.
Proof.
  unfold nibble. set (b := default 0 _).
  assert (b < 256) as Hb.
  { unfold b. destruct (as_bytes a !! _) eqn:H; simpl; [by eapply as_bytes_bound|lia]. }
  destruct (_ =? 0).
  - rewrite N.shiftr_div_pow2. by apply N.Div0.div_lt_upper_bound.
  - change 15 with (N.ones 4). rewrite N.land_ones. by apply N.mod_lt.
Qed.

Lemma byte_nibbles x y :
  N.shiftr x 4 = N.shiftr y 4 → N.land x 15 = N.land y 15 → x = y.
Proof.
  rewrite !N.shiftr_div_pow2. change 15 with (N.ones 4). rewrite !N.land_ones.
  intros H1 H2. rewrite (N.div_mod x (2 ^ 4)) // (N.div_mod y (2 ^ 4)) //. by rewrite H1 H2.
Qed.

Lemma high_nibble_xor x y : N.shiftr (N.lxor x y) 4 =? 0 = (N.shiftr x 4 =? N.shiftr y 4).
Proof.
  rewrite N.shiftr_lxor. apply eq_true_iff_eq.
  by rewrite !N.eqb_eq N.lxor_eq_0_iff.
Qed.

Lemma find_difference_None i a b :
  length a = length b → find_difference i a b = None → a = b.
Proof.
  revert i b. induction a as [|x a IH]; intros i [|y b] Hlen; try done. simpl.
  destruct (N.eqb_spec x y) as [->|]; [|done]. intros H. f_equal.
  eapply IH; [|done]. by injection Hlen.
Qed.

Lemma find_difference_Some i a b j x y :
  length a = length b → find_difference i a b = Some (j, x, y) →
  ∃ k : nat, j = i + N.of_nat k ∧ a !! k = Some x ∧ b !! k = Some y ∧ x ≠ y ∧
    ∀ k' : nat, (k' < k)%nat → a !! k' = b !! k'.
Proof.
  revert i b. induction a as [|x' a IH]; intros i [|y' b] Hlen; try done. simpl.
  destruct (N.eqb_spec x' y') as [->|Hne].
  - intros H. apply IH in H as (k & -> & Ha & Hb & Hxy & Hpre); [|by injection Hlen].
    exists (S k). split; [lia|]. split_and!; try done.
    intros [|k'] Hk; [done|]. simpl. apply Hpre. lia.
  - intros [= <- <- <-]. exists 0%nat. split; [lia|]. split_and!; try done. lia.
Qed.

Lemma nibble_even a (k : nat) x :
  as_bytes a !! k = Some x → nibble a (N.of_nat k * 2) = N.shiftr x 4.
Proof.
  intros H. unfold nibble. rewrite N.div_mul // N.Div0.mod_mul Nat2N.id H. done.
Qed.

Lemma nibble_odd a (k : nat) x :
  as_bytes a !! k = Some x → nibble a (N.of_nat k * 2 + 1) = N.land x 15.
Proof.
  intros H. unfold nibble. rewrite N.div_add_l // N.add_comm N.Div0.mod_add.
  change (1 / 2) with 0. rewrite N.add_0_r Nat2N.id H. done.
Qed.

Lemma nibble_byte a b i :
  as_bytes a !! N.to_nat (i / 2) = as_bytes b !! N.to_nat (i / 2) →
  nibble a i = nibble b i.
Proof. intros H. unfold nibble. by rewrite H. Qed.

(** [first_difference] is exactly the first level where the nibbles differ. *)
Lemma first_difference_Some a b d :
  first_difference a b = Some d →
  d < 64 ∧ agree a b d ∧ nibble a d ≠ nibble b d.
Proof.
  unfold first_difference.
  destruct (find_difference 0 _ _) as [[[j x] y]|] eqn:Hf; [|done].
  apply find_difference_Some in Hf as (k & -> & Ha & Hb & Hxy & Hpre);
    [|by rewrite !as_bytes_length].
  rewrite N.add_0_l high_nibble_xor. intros [= <-].
  assert (N.of_nat k < 32) as Hk.
  { apply lookup_lt_Some in Ha. rewrite as_bytes_length in Ha. unfold LEN in Ha. lia. }
  destruct (N.eqb_spec (N.shiftr x 4) (N.shiftr y 4)) as [Hhi|Hhi].
  - split; [lia|]. split.
    + intros i Hi. destruct (decide (i = N.of_nat k * 2)) as [->|].
      * by rewrite (nibble_even _ _ _ Ha) (nibble_even _ _ _ Hb).
      * apply nibble_byte, Hpre. assert (i / 2 < N.of_nat k); [|lia].
        apply N.Div0.div_lt_upper_bound. lia.
    + rewrite (nibble_odd _ _ _ Ha) (nibble_odd _ _ _ Hb).
      intros Hlo. by apply Hxy, byte_nibbles.
  - rewrite N.add_0_r. split; [lia|]. split.
    + intros i Hi. apply nibble_byte, Hpre. assert (i / 2 < N.of_nat k); [|lia].
      apply N.Div0.div_lt_upper_bound. lia.
    + by rewrite (nibble_even _ _ _ Ha) (nibble_even _ _ _ Hb).
Qed.

Lemma first_difference_None a b : first_difference a b = None ↔ a = b.
Proof.
  unfold first_difference. split.
  - destruct (find_difference 0 _ _) as [[[j x] y]|] eqn:Hf; [done|]. intros _.
    apply id_eq. eapply find_difference_None; [|done]. by rewrite !as_bytes_length.
  - intros ->. destruct (find_difference 0 _ _) as [[[j x] y]|] eqn:Hf; [|done].
    apply find_difference_Some in Hf as (k & _ & Ha & Hb & Hxy & _); [|done]. congruence.
Qed.

(** Ids that agree on all 64 nibbles are equal. *)
Lemma agree_64 a b : agree a b 64 → a = b.
Proof.
  intros H. destruct (first_difference a b) as [d|] eqn:Hd.
  - apply first_difference_Some in Hd as (? & _ & Hne). by destruct Hne; apply H.
  - by apply first_difference_None.
Qed.

Lemma first_difference_ge a b n d :
  agree a b n → first_difference a b = Some d → n ≤ d.
Proof.
  intros H (_ & _ & Hne)%first_difference_Some.
  destruct (N.le_gt_cases n d); [done|]. by destruct Hne; apply H.
Qed.

Lemma first_difference_unique a b d :
  d < 64 → agree a b d → nibble a d ≠ nibble b d → first_difference a b = Some d.
Proof.
  intros Hd Ha Hne. destruct (first_difference a b) as [d'|] eqn:H.
  - f_equal. pose proof (first_difference_ge _ _ _ _ Ha H).
    apply first_difference_Some in H as (_ & Ha' & Hne').
    destruct (N.lt_trichotomy d d') as [?|[?|?]]; [|done|lia].
    by destruct Hne; apply Ha'.
  - apply first_difference_None in H as ->. done.
Qed.

(** ** Order *)

Lemma find_difference_cmp i a b j x y :
  find_difference i a b = Some (j, x, y) → list_cmp a b = N.compare x y.
Proof.
  revert i b. induction a as [|x' a IH]; intros i [|y' b]; try done. simpl.
  destruct (N.eqb_spec x' y') as [->|Hne].
  - rewrite N.compare_refl. simpl. apply IH.
  - intros [= _ <- <-]. by destruct (N.compare_spec x' y').
Qed.

Lemma nibble_compare x y :
  (if N.shiftr x 4 =? N.shiftr y 4 then N.compare (N.land x 15) (N.land y 15)
   else N.compare (N.shiftr x 4) (N.shiftr y 4)) = N.compare x y.
Proof.
  rewrite !N.shiftr_div_pow2. change 15 with (N.ones 4). rewrite !N.land_ones.
  change (2 ^ 4) with 16.
  pose proof (N.div_mod x 16 ltac:(done)). pose proof (N.div_mod y 16 ltac:(done)).
  pose proof (N.mod_lt x 16 ltac:(done)). pose proof (N.mod_lt y 16 ltac:(done)).
  destruct (N.eqb_spec (x / 16) (y / 16)) as [Heq|Hne].
  - destruct (N.compare_spec x y); [apply N.compare_eq_iff|apply N.compare_lt_iff|
      apply N.compare_gt_iff]; lia.
  - destruct (N.compare_spec x y) as [|Hlt|Hlt]; [congruence|apply N.compare_lt_iff|
      apply N.compare_gt_iff].
    + pose proof (N.Div0.div_le_mono x y 16). lia.
    + pose proof (N.Div0.div_le_mono y x 16). lia.
Qed.

(** Ids compare as their nibbles at the first difference. *)
Lemma first_difference_cmp (a b : ActorId) d :
  first_difference a b = Some d → bcmp a b = N.compare (nibble a d) (nibble b d).
Proof.
  unfold first_difference.
  destruct (find_difference 0 _ _) as [[[j x] y]|] eqn:Hf; [|done].
  pose proof (find_difference_cmp _ _ _ _ _ _ Hf) as Hcmp.
  apply find_difference_Some in Hf as (k & -> & Ha & Hb & Hxy & Hpre);
    [|by rewrite !as_bytes_length].
  rewrite N.add_0_l high_nibble_xor. intros [= <-].
  change (bcmp a b) with (list_cmp (as_bytes a) (as_bytes b)). rewrite Hcmp.
  rewrite -(nibble_compare x y).
  destruct (N.shiftr x 4 =? N.shiftr y 4).
  - by rewrite (nibble_odd _ _ _ Ha) (nibble_odd _ _ _ Hb).
  - by rewrite N.add_0_r (nibble_even _ _ _ Ha) (nibble_even _ _ _ Hb).
Qed.

Lemma agree_cmp (a b : ActorId) l :
  l < 64 → agree a b l → nibble a l < nibble b l → blt a b.
Proof.
  intros Hl Hag Hlt. unfold blt.
  rewrite (first_difference_cmp a b l); [apply first_difference_unique; [done..|lia]|].
  by apply N.compare_lt_iff.
Qed.

(** ** Bitmaps *)

Lemma has_bit_testbit bm d : has_bit bm d = N.testbit bm d.
Proof.
  unfold has_bit, bit. destruct (N.testbit bm d) eqn:Hb.
  - apply negb_true_iff, N.eqb_neq. intros H.
    assert (N.testbit (N.land bm (N.shiftl 1 d)) d = true) as Ht; [|by rewrite H in Ht].
    by rewrite N.land_spec Hb N.shiftl_1_l N.pow2_bits_true.
  - apply negb_false_iff, N.eqb_eq. apply N.bits_inj_0. intros i.
    rewrite N.land_spec N.shiftl_1_l. destruct (decide (i = d)) as [->|]; [by rewrite Hb|].
    rewrite N.pow2_bits_false //. apply andb_false_r.
Qed.

Lemma bit_pred d i : N.testbit (bit d - 1) i = (i <? d).
Proof.
  unfold bit. rewrite N.shiftl_1_l. replace (2 ^ d - 1) with (N.ones d).
  - destruct (N.ltb_spec i d); [by apply N.ones_spec_low|by apply N.ones_spec_high].
  - rewrite N.ones_equiv. lia.
Qed.

Lemma testbit_lor_bit bm d i : N.testbit (N.lor bm (bit d)) i = N.testbit bm i || (i =? d).
Proof.
  unfold bit. rewrite N.lor_spec N.shiftl_1_l. f_equal.
  destruct (N.eqb_spec i d) as [->|]; [by rewrite N.pow2_bits_true|by rewrite N.pow2_bits_false].
Qed.

Lemma testbit_clear_bit bm d i :
  N.testbit (N.ldiff bm (bit d)) i = N.testbit bm i && negb (i =? d).
Proof.
  unfold bit. rewrite N.ldiff_spec N.shiftl_1_l. do 2 f_equal.
  destruct (N.eqb_spec i d) as [->|]; [by rewrite N.pow2_bits_true|by rewrite N.pow2_bits_false].
Qed.

Lemma elem_of_digits16 d : d ∈ digits16 ↔ d < 16.
Proof.
  unfold digits16. rewrite list_elem_of_fmap. split.
  - intros (n & -> & ?%elem_of_seq). lia.
  - intros Hd. exists (N.to_nat d). split; [lia|]. apply elem_of_seq. lia.
Qed.

Lemma NoDup_digits16 : NoDup digits16.
Proof. apply NoDup_fmap_2; [intros x y; lia|apply NoDup_seq]. Qed.

Lemma StronglySorted_lt_NoDup (ds : list N) : StronglySorted N.lt ds → NoDup ds.
Proof.
  induction 1 as [|d ds _ IH Hall]; constructor; [|done].
  intros Hd. rewrite Forall_forall in Hall. apply Hall in Hd. lia.
Qed.

(** The bitmap [bm] names exactly the digits [ds]. *)
Definition names (bm : N) (ds : list N) : Prop := ∀ d, N.testbit bm d = true ↔ d ∈ ds.

(** The slot of a digit is the number of smaller digits present. *)
Lemma slot_count bm ds d :
  NoDup ds → (∀ x, x ∈ ds → x < 16) → names bm ds →
  slot bm d = length (filter (λ x, x < d) ds).
Proof.
  intros Hnd Hlt Hbm. unfold slot, count_ones.
  apply Permutation_length, NoDup_Permutation.
  - apply NoDup_filter, NoDup_digits16.
  - by apply NoDup_filter.
  - intros x. rewrite !list_elem_of_filter elem_of_digits16 Is_true_true N.land_spec bit_pred.
    rewrite andb_true_iff N.ltb_lt (Hbm x). naive_solver.
Qed.

Lemma sorted_filter_lt (ds : list N) i d :
  StronglySorted N.lt ds → ds !! i = Some d → length (filter (λ x, x < d) ds) = i.
Proof.
  intros Hs. revert i. induction Hs as [|d' ds Hs IH Hall]; intros [|i]; simpl; try done.
  - intros [= ->]. rewrite filter_cons_False; [lia|].
    assert (filter (λ x, x < d) ds = []) as ->; [|done].
    rewrite Forall_forall in Hall.
    apply elem_of_nil_inv. intros x [Hx Hel%Hall]%list_elem_of_filter. lia.
  - intros Hi. pose proof Hi as Hel%list_elem_of_lookup_2.
    rewrite Forall_forall in Hall. rewrite filter_cons_True; [by apply Hall|].
    simpl. f_equal. by apply IH.
Qed.

Lemma slot_lookup bm ds i d :
  StronglySorted N.lt ds → (∀ x, x ∈ ds → x < 16) → names bm ds →
  ds !! i = Some d → slot bm d = i.
Proof.
  intros Hs Hlt Hbm Hi. rewrite (slot_count bm ds); [by apply StronglySorted_lt_NoDup|done..|].
  by apply sorted_filter_lt.
Qed.
