(* ===== verification/Trie.v ===== *)
(** * The clock trie ([src/src/clock.rs])

    The persistent, path-compressed trie over actor-id nibbles behind [ActorClock]:
    its nodes, [pair], [set_node], [union], [union_children], [observed], [lookup]
    and [selected_node]. Nodes are values; [Arc::ptr_eq] is a test that is only known
    to imply equality, so every result holds whatever sharing the program has. *)

From S2P Require Import Prelude Ids Nibble.

#[local] Open Scope N_scope.

(** [enum Node]. The cached hash of a node's stored form is not part of its value. *)
Inductive Node :=
  | Leaf (actor : ActorId) (seq : N)
  | Branch (level bitmap len : N) (key : ActorId) (children : list Node).

#[global] Instance Node_inhabited : Inhabited Node := populate (Leaf (small_id 0) 0).

(** [Arc::ptr_eq]: true only for one allocation, hence for equal nodes. *)
Class PtrEq := {
  ptr_eq : Node → Node → bool;
  ptr_eq_sound a b : ptr_eq a b = true → a = b;
}.

(** A program whose nodes are never shared. *)
Definition unshared : PtrEq := {| ptr_eq _ _ := false; ptr_eq_sound a b H := ltac:(done) |}.

(** [Node::key] *)
Definition node_key (n : Node) : ActorId :=
  match n with Leaf actor _ => actor | Branch _ _ _ key _ => key end.

(** [Node::len] *)
Definition node_len (n : Node) : N :=
  match n with Leaf _ _ => 1 | Branch _ _ len _ _ => len end.

(** [children.iter().map(|child| child.len()).sum()] *)
Definition sum_len (children : list Node) : N := foldr (λ c s, node_len c + s) 0 children.

(** [fn leaf] *)
Definition leaf (actor : ActorId) (seq : N) : Node := Leaf actor seq.

(** [fn pair(level: u8, a: Arc<Node>, b: Arc<Node>) -> Arc<Node>] *)
Definition pair (level : N) (a b : Node) : Node :=
  let na := nibble (node_key a) level in
  let nb := nibble (node_key b) level in
  let key := node_key a in
  let len := node_len a + node_len b in
  let children := if na <? nb then [a; b] else [b; a] in
  Branch level (N.lor (bit na) (bit nb)) len key children.

(** [f] applied to the element at an index, if there is one. Written as a loop over
    the list so that recursive calls on children are structural. *)
Definition at_index {A B} (f : A → B) : nat → list A → option B :=
  fix go i l {struct l} :=
    match l with
    | [] => None
    | x :: l' => match i with O => Some (f x) | S i' => go i' l' end
    end.

Lemma at_index_lookup {A B} (f : A → B) i l : at_index f i l = f <$> l !! i.
Proof. revert i. induction l as [|x l IH]; intros [|i]; simpl; [done..|apply IH]. Qed.

(** [Vec::insert] and [Vec::remove]. *)
Definition vec_insert {A} (i : nat) (x : A) (l : list A) : list A := take i l ++ x :: drop i l.
Definition vec_remove {A} (i : nat) (l : list A) : list A := take i l ++ drop (S i) l.

(** [fn lookup(mut node: &Node, actor: &ActorId) -> Option<u64>]. The index into the
    children is in range for every trie the module builds ([kid_slot]). *)
Fixpoint lookup (node : Node) (actor : ActorId) : option N :=
  match node with
  | Leaf held seq => if decide (held = actor) then Some seq else None
  | Branch level bitmap _ _ children =>
      let digit := nibble actor level in
      if negb (has_bit bitmap digit) then None
      else mjoin (at_index (λ child, lookup child actor) (slot bitmap digit) children)
  end.

(** [fn set_node(node: &mut Arc<Node>, actor: &ActorId, seq: Option<u64>) -> bool]:
    the node afterwards, or [None] when the call returns false. *)
Fixpoint set_node (node : Node) (actor : ActorId) (seq : option N) : option Node :=
  match node with
  | Leaf held _ =>
      if decide (held = actor) then
        match seq with Some seq => Some (leaf actor seq) | None => None end
      else
        match seq, first_difference held actor with
        | Some seq, Some difference => Some (pair difference node (leaf actor seq))
        | _, _ => Some node
        end
  | Branch level bitmap len key children =>
      let difference := first_difference key actor in
      let outside := match difference with Some d => d <? level | None => false end in
      if outside then
        match seq, difference with
        | Some seq, Some difference => Some (pair difference node (leaf actor seq))
        | _, _ => Some node
        end
      else
        let digit := nibble actor level in
        let index := slot bitmap digit in
        let '(bitmap', children', only) :=
          if negb (has_bit bitmap digit) then
            match seq with
            | Some seq =>
                (N.lor bitmap (bit digit), vec_insert index (leaf actor seq) children, None)
            | None => (bitmap, children, None)
            end
          else
            match at_index (λ child, set_node child actor seq) index children with
            | Some (Some child) => (bitmap, <[index := child]> children, None)
            | Some None =>
                let rest := vec_remove index children in
                let cleared := N.ldiff bitmap (bit digit) in
                match rest with
                | [last] => (cleared, [], Some last)
                | _ => (cleared, rest, None)
                end
            | None => (bitmap, children, None)
            end in
        let key' := match children' with first :: _ => node_key first | [] => key end in
        match only with
        | Some only => Some only
        | None => Some (Branch level bitmap' (sum_len children') key' children')
        end
  end.

(** [fn observed(node: &Arc<Node>, actor: &ActorId, seq: u64) -> Arc<Node>] *)
Definition observed (node : Node) (actor : ActorId) (seq : N) : Node :=
  match lookup node actor with
  | Some held => if seq <=? held then node else default node (set_node node actor (Some seq))
  | None => default node (set_node node actor (Some seq))
  end.

Fixpoint height (n : Node) : nat :=
  match n with
  | Leaf _ _ => 0
  | Branch _ _ _ _ children => S (foldr (λ c h, Nat.max (height c) h) O children)
  end.

Section shared.
Context `{PtrEq}.

(** [bits == bitmap && own.iter().zip(&children).all(|(x, y)| Arc::ptr_eq(x, y))] *)
Definition same_children (bits bitmap : N) (own children : list Node) : bool :=
  (bits =? bitmap) && forallb (λ '(x, y), ptr_eq x y) (zip own children).

(** The part of [fn union] for a branch above the other node: [lower] goes into the
    child of [upper] holding its digit, by [merge], the recursive call. *)
Definition graft (merge : Node → Node → Node) (upper : Node)
    (level bitmap : N) (key : ActorId) (children : list Node) (lower : Node) : Node :=
  let digit := nibble (node_key lower) level in
  let index := slot bitmap digit in
  if negb (has_bit bitmap digit) then
    let merged := vec_insert index lower children in
    Branch level (N.lor bitmap (bit digit)) (sum_len merged) key merged
  else
    match children !! index with
    | Some old =>
        let child := merge old lower in
        if ptr_eq child old then upper
        else let merged := <[index := child]> children in
             Branch level bitmap (sum_len merged) key merged
    | None => upper
    end.

(** [fn union_children(a: &Arc<Node>, b: &Arc<Node>) -> Arc<Node>] *)
Definition union_children (merge : Node → Node → Node) (a b : Node) : Node :=
  match a, b with
  | Branch level ba _ key ca, Branch _ bb _ _ cb =>
      let bitmap := N.lor ba bb in
      let children :=
        omap (λ digit,
          let from_a := if has_bit ba digit then ca !! slot ba digit else None in
          let from_b := if has_bit bb digit then cb !! slot bb digit else None in
          match from_a, from_b with
          | Some x, Some y => Some (merge x y)
          | Some x, None | None, Some x => Some x
          | None, None => None
          end)
          (filter (has_bit bitmap) digits16) in
      if same_children ba bitmap ca children then a
      else if same_children bb bitmap cb children then b
      else Branch level bitmap (sum_len children) key children
  | _, _ => a
  end.

(** [fn union(a: &Arc<Node>, b: &Arc<Node>) -> Arc<Node>]. Each recursive call goes
    into a child of at least one side, so the sum of the heights is enough fuel
    ([union_spec]). *)
Fixpoint union_fuel (fuel : nat) (a b : Node) : Node :=
  match fuel with
  | O => a
  | S fuel' =>
      if ptr_eq a b then a
      else
        match a, b with
        | _, Leaf actor seq => observed a actor seq
        | Leaf actor seq, _ => observed b actor seq
        | Branch la ba _ ka ca, Branch lb bb _ kb cb =>
            let lowest := N.min la lb in
            match first_difference ka kb with
            | Some difference =>
                if difference <? lowest then pair difference a b
                else if la =? lb then union_children (union_fuel fuel') a b
                else if la <? lb then graft (union_fuel fuel') a la ba ka ca b
                else graft (union_fuel fuel') b lb bb kb cb a
            | None =>
                if la =? lb then union_children (union_fuel fuel') a b
                else if la <? lb then graft (union_fuel fuel') a la ba ka ca b
                else graft (union_fuel fuel') b lb bb kb cb a
            end
        end
  end.

Definition union (a b : Node) : Node := union_fuel (S (height a + height b)) a b.

(** One iteration of the loop of [selected_node]: the children kept so far are copied
    out only once a child changed. *)
Definition select_step (children : list Node) (sel : Node → option Node)
    (st : nat * option (list Node)) (child : Node) : nat * option (list Node) :=
  let '(index, changed) := st in
  let selected := sel child in
  let unchanged := match selected with Some s => ptr_eq s child | None => false end in
  match changed with
  | None => if unchanged then (S index, None)
            else (S index, Some (take index children ++ option_list selected))
  | Some kept => (S index, Some (kept ++ option_list selected))
  end.

(** [fn selected_node(node: &Arc<Node>, actors: &BTreeSet<ActorId>) -> Option<Arc<Node>>] *)
Fixpoint selected_node (node : Node) (actors : gset ActorId) : option Node :=
  match node with
  | Leaf held _ => if decide (held ∈ actors) then Some node else None
  | Branch level _ _ _ children =>
      match (foldl (select_step children (λ child, selected_node child actors))
               (O, None) children).2 with
      | None => Some node
      | Some [] => None
      | Some [only] => Some only
      | Some ((first :: _) as kept) =>
          Some (Branch level
            (foldl (λ bits child, N.lor bits (bit (nibble (node_key child) level))) 0 kept)
            (sum_len kept) (node_key first) kept)
      end
  end.
End shared.

(** ** Structure *)

Section node_ind.
Context (P : Node → Prop).
Context (HLeaf : ∀ a s, P (Leaf a s)).
Context (HBranch : ∀ l bm len k cs, Forall P cs → P (Branch l bm len k cs)).

Fixpoint Node_ind' (n : Node) : P n :=
  match n with
  | Leaf a s => HLeaf a s
  | Branch l bm len k cs =>
      HBranch l bm len k cs
        ((fix go cs : Forall P cs :=
            match cs with
            | [] => Forall_nil_2 P
            | c :: cs' => Forall_cons_2 P c cs' (Node_ind' c) (go cs')
            end) cs)
  end.
End node_ind.

(** Leaves sit below every level. *)
Definition node_level (n : Node) : N :=
  match n with Leaf _ _ => 64 | Branch level _ _ _ _ => level end.

(** The digit of a child under a branch at level [l]. *)
Definition digit_of (l : N) (c : Node) : N := nibble (node_key c) l.

(** The entries of a node in the order of its leaves. *)
Fixpoint entries (n : Node) : list (ActorId * N) :=
  match n with
  | Leaf actor seq => [(actor, seq)]
  | Branch _ _ _ _ children => mjoin (entries <$> children)
  end.

(** Children of a branch at level [l] whose entries share the nibbles of [k] before it. *)
Definition kids_ok (l : N) (k : ActorId) (cs : list Node) : Prop :=
  Forall (λ c, l < node_level c ∧ agree (node_key c) k l) cs ∧
  StronglySorted N.lt (digit_of l <$> cs).

(** What the comment on [Node::Branch] promises: at least two children, one per distinct
    nibble at [level], in nibble order, sharing the nibbles of [key] before [level]; the
    bitmap names the children and [len] counts the entries. *)
Inductive wf : Node → Prop :=
  | wf_leaf a s : wf (Leaf a s)
  | wf_branch l bm len k cs :
      l < 64 → (2 ≤ length cs)%nat → Forall wf cs → kids_ok l k cs →
      names bm (digit_of l <$> cs) → len = sum_len cs →
      wf (Branch l bm len k cs).

(** The child holding digit [d]. *)
Fixpoint find_kid (l d : N) (cs : list Node) : option Node :=
  match cs with
  | [] => None
  | c :: cs' => if digit_of l c =? d then Some c else find_kid l d cs'
  end.

Lemma digit_lt l (cs : list Node) x : x ∈ digit_of l <$> cs → x < 16.
Proof. intros (c & -> & _)%list_elem_of_fmap. apply nibble_lt. Qed.

Lemma kids_NoDup l k cs : kids_ok l k cs → NoDup (digit_of l <$> cs).
Proof. intros [_ Hs]. by apply StronglySorted_lt_NoDup. Qed.

Lemma find_kid_Some l d cs c :
  NoDup (digit_of l <$> cs) → find_kid l d cs = Some c ↔ c ∈ cs ∧ digit_of l c = d.
Proof.
  induction cs as [|c' cs IH]; simpl.
  { intros _. split; [done|]. by intros [?%elem_of_nil _]. }
  intros [Hc' Hnd]%NoDup_cons. destruct (N.eqb_spec (digit_of l c') d) as [Heq|Hne].
  - split; [intros [= ->]; split; [by left|done]|].
    intros [[->|Hin]%elem_of_cons Hd]; [done|]. destruct Hc'.
    rewrite Heq -Hd. by apply list_elem_of_fmap_2.
  - rewrite IH // elem_of_cons. split; [naive_solver|]. intros [[->|?] ?]; naive_solver.
Qed.

Lemma find_kid_None l d cs : find_kid l d cs = None ↔ d ∉ digit_of l <$> cs.
Proof.
  induction cs as [|c cs IH]; simpl.
  { split; [|done]. by intros _ ?%elem_of_nil. }
  rewrite not_elem_of_cons. destruct (N.eqb_spec (digit_of l c) d) as [<-|]; [|rewrite IH];
    naive_solver.
Qed.

(** The bitmap test and the slot find exactly the child holding the digit, so the
    index into the children is always in range. *)
Lemma kid_slot l k cs bm d :
  kids_ok l k cs → names bm (digit_of l <$> cs) →
  (if has_bit bm d then cs !! slot bm d else None) = find_kid l d cs.
Proof.
  intros Hk Hbm. pose proof (kids_NoDup _ _ _ Hk) as Hnd. rewrite has_bit_testbit.
  destruct (N.testbit bm d) eqn:Hd.
  - apply Hbm in Hd as Hin. apply list_elem_of_fmap in Hin as (c & -> & Hc).
    pose proof Hc as [i Hi]%list_elem_of_lookup_1.
    rewrite (slot_lookup bm (digit_of l <$> cs) i).
    + apply Hk.
    + apply digit_lt.
    + done.
    + by rewrite list_lookup_fmap Hi.
    + rewrite Hi. symmetry. by apply find_kid_Some.
  - symmetry. apply find_kid_None. intros Hin%Hbm. congruence.
Qed.

Lemma kid_slot_Some l k cs bm d c :
  kids_ok l k cs → names bm (digit_of l <$> cs) → find_kid l d cs = Some c →
  has_bit bm d = true ∧ cs !! slot bm d = Some c ∧ digit_of l c = d ∧ c ∈ cs.
Proof.
  intros Hk Hbm Hc. pose proof (kid_slot _ _ _ _ d Hk Hbm) as Hs. rewrite Hc in Hs.
  destruct (has_bit bm d); [|done].
  apply find_kid_Some in Hc as [??]; [done|]. by eapply kids_NoDup.
Qed.

Lemma kid_slot_None l k cs bm d :
  kids_ok l k cs → names bm (digit_of l <$> cs) → find_kid l d cs = None →
  has_bit bm d = false.
Proof.
  intros Hk Hbm Hd%find_kid_None. rewrite has_bit_testbit.
  destruct (N.testbit bm d) eqn:Ht; [|done]. by apply Hbm in Ht.
Qed.

(** ** Editing the children *)

Lemma vec_insert_perm {A} i (x : A) l : vec_insert i x l ≡ₚ x :: l.
Proof. unfold vec_insert. by rewrite -Permutation_middle take_drop. Qed.

Lemma sorted_insert (ds : list N) d :
  StronglySorted N.lt ds → d ∉ ds →
  StronglySorted N.lt (vec_insert (length (filter (λ x, x < d) ds)) d ds).
Proof.
  induction 1 as [|d' ds Hs IH Hall]; [intros _; by repeat constructor|].
  intros [Hne Hni]%not_elem_of_cons. rewrite Forall_forall in Hall.
  rewrite filter_cons. destruct (decide (d' < d)) as [Hlt|Hge].
  - change (StronglySorted N.lt (d' :: vec_insert (length (filter (λ x, x < d) ds)) d ds)).
    constructor; [by apply IH|]. apply Forall_forall. intros x.
    rewrite vec_insert_perm elem_of_cons. intros [->|Hx]; [done|by apply Hall].
  - assert (filter (λ x, x < d) ds = []) as ->.
    { apply elem_of_nil_inv. intros x [Hx Hel%Hall]%list_elem_of_filter. lia. }
    unfold vec_insert. simpl. constructor; [by constructor; [|apply Forall_forall]|].
    constructor; [lia|]. apply Forall_forall. intros x Hx%Hall. lia.
Qed.

Lemma vec_insert_fmap {A B} (f : A → B) i x l :
  f <$> vec_insert i x l = vec_insert i (f x) (f <$> l).
Proof. unfold vec_insert. by rewrite fmap_app fmap_cons fmap_take fmap_drop. Qed.

Lemma vec_remove_perm {A} i (x : A) l : l !! i = Some x → l ≡ₚ x :: vec_remove i l.
Proof.
  intros Hi. unfold vec_remove. rewrite -{1}(take_drop_middle l i x) //.
  by rewrite -Permutation_middle.
Qed.

Lemma sum_len_perm cs cs' : cs ≡ₚ cs' → sum_len cs = sum_len cs'.
Proof. unfold sum_len. induction 1; simpl; lia. Qed.

(** Two lists of children with the same members have the same child per digit. *)
Lemma find_kid_ext l d cs cs' :
  NoDup (digit_of l <$> cs) → NoDup (digit_of l <$> cs') →
  (∀ c, digit_of l c = d → c ∈ cs ↔ c ∈ cs') → find_kid l d cs = find_kid l d cs'.
Proof.
  intros H1 H2 Hiff. apply option_eq. intros c. rewrite !find_kid_Some //. naive_solver.
Qed.

(** A new child for an absent digit. *)
Lemma kids_insert l k cs bm x :
  kids_ok l k cs → names bm (digit_of l <$> cs) →
  find_kid l (digit_of l x) cs = None → l < node_level x → agree (node_key x) k l →
  let cs' := vec_insert (slot bm (digit_of l x)) x cs in
  kids_ok l k cs' ∧ names (N.lor bm (bit (digit_of l x))) (digit_of l <$> cs') ∧
  ∀ d, find_kid l d cs' = if d =? digit_of l x then Some x else find_kid l d cs.
Proof.
  intros Hk Hbm Hnone Hl Hag cs'. pose proof (kids_NoDup _ _ _ Hk) as Hnd.
  assert (Hni : digit_of l x ∉ digit_of l <$> cs) by by apply find_kid_None.
  assert (kids_ok l k cs') as Hk'.
  { split.
    - apply Forall_forall. intros c. unfold cs'. rewrite vec_insert_perm elem_of_cons.
      intros [->|Hc]; [done|]. destruct Hk as [Hk _]. rewrite Forall_forall in Hk. auto.
    - unfold cs'. rewrite vec_insert_fmap.
      rewrite (slot_count bm (digit_of l <$> cs)) //; [by intros ? ?%digit_lt|].
      apply sorted_insert; [apply Hk|done]. }
  split; [done|]. split.
  - intros d. unfold cs'. rewrite vec_insert_fmap vec_insert_perm elem_of_cons.
    rewrite testbit_lor_bit orb_true_iff N.eqb_eq (Hbm d). naive_solver.
  - pose proof (kids_NoDup _ _ _ Hk') as Hnd'. intros d. apply option_eq. intros c.
    destruct (N.eqb_spec d (digit_of l x)) as [->|Hne].
    + rewrite find_kid_Some //. unfold cs'. rewrite vec_insert_perm elem_of_cons.
      split; [|intros [= ->]; auto]. intros [[->|Hc] Hd]; [done|].
      destruct Hni. rewrite -Hd. by apply list_elem_of_fmap_2.
    + rewrite !find_kid_Some //. unfold cs'. rewrite vec_insert_perm elem_of_cons.
      naive_solver.
Qed.

Lemma list_insert_perm {A} (l : list A) i x y :
  l !! i = Some x → <[i := y]> l ≡ₚ y :: vec_remove i l.
Proof.
  intros Hi. rewrite insert_take_drop; [by eapply lookup_lt_Some|].
  unfold vec_remove. by rewrite -Permutation_middle.
Qed.

(** A child replaced by one with the same digit. *)
Lemma kids_replace l k cs bm i c x :
  kids_ok l k cs → names bm (digit_of l <$> cs) → cs !! i = Some c →
  digit_of l x = digit_of l c → l < node_level x → agree (node_key x) k l →
  let cs' := <[i := x]> cs in
  kids_ok l k cs' ∧ names bm (digit_of l <$> cs') ∧
  ∀ d, find_kid l d cs' = if d =? digit_of l c then Some x else find_kid l d cs.
Proof.
  intros Hk Hbm Hi Hd Hl Hag cs'. pose proof (kids_NoDup _ _ _ Hk) as Hnd.
  assert (digit_of l <$> cs' = digit_of l <$> cs) as Hds.
  { unfold cs'. rewrite list_fmap_insert Hd. apply list_insert_id.
    by rewrite list_lookup_fmap Hi. }
  assert (kids_ok l k cs') as Hk'.
  { split; [|rewrite Hds; apply Hk]. by apply Forall_insert; [apply Hk|]. }
  split; [done|]. split; [by rewrite Hds|].
  intros d. pose proof (kids_NoDup _ _ _ Hk') as Hnd'.
  destruct (N.eqb_spec d (digit_of l c)) as [->|Hne].
  - apply find_kid_Some; [done|]. split; [|done]. apply list_elem_of_lookup_2 with i.
    apply list_lookup_insert_eq. by eapply lookup_lt_Some.
  - apply find_kid_ext; [done..|]. intros c' Hc'. unfold cs'.
    rewrite (list_insert_perm _ _ _ _ Hi) {2}(vec_remove_perm _ _ _ Hi) !elem_of_cons.
    naive_solver.
Qed.

(** A child removed. *)
Lemma kids_remove l k cs bm i c :
  kids_ok l k cs → names bm (digit_of l <$> cs) → cs !! i = Some c →
  let cs' := vec_remove i cs in
  kids_ok l k cs' ∧ names (N.ldiff bm (bit (digit_of l c))) (digit_of l <$> cs') ∧
  ∀ d, find_kid l d cs' = if d =? digit_of l c then None else find_kid l d cs.
Proof.
  intros Hk Hbm Hi cs'. pose proof (kids_NoDup _ _ _ Hk) as Hnd.
  pose proof (vec_remove_perm _ _ _ Hi) as Hperm. fold cs' in Hperm.
  assert (Hds : digit_of l <$> cs ≡ₚ digit_of l c :: (digit_of l <$> cs')) by by rewrite {1}Hperm.
  assert (digit_of l c ∉ digit_of l <$> cs' ∧ NoDup (digit_of l <$> cs')) as [Hni Hnd'].
  { rewrite Hds in Hnd. by apply NoDup_cons in Hnd. }
  assert (kids_ok l k cs') as Hk'.
  { split.
    - destruct Hk as [Hk _]. rewrite Hperm in Hk. by apply Forall_cons in Hk as [_ ?].
    - generalize (proj2 Hk). unfold cs', vec_remove.
      rewrite -{1}(take_drop_middle cs i c) // !fmap_app fmap_cons.
      generalize (digit_of l <$> take i cs). intros l1.
      induction l1 as [|y l1 IH]; simpl; inversion_clear 1 as [|?? Hsl Hall]; [done|].
      constructor; [by apply IH|]. rewrite !Forall_app in Hall |- *.
      rewrite Forall_cons in Hall. naive_solver. }
  split; [done|]. split.
  - intros d. rewrite testbit_clear_bit andb_true_iff negb_true_iff N.eqb_neq (Hbm d) Hds.
    rewrite elem_of_cons. naive_solver.
  - intros d. destruct (N.eqb_spec d (digit_of l c)) as [->|Hne].
    + by apply find_kid_None.
    + apply find_kid_ext; [done..|]. intros c' Hc'. rewrite Hperm elem_of_cons. naive_solver.
Qed.

(** Building a well-formed branch. *)
Lemma wf_branch_intro l bm k k' cs :
  l < 64 → (2 ≤ length cs)%nat → (∀ c, c ∈ cs → wf c) → kids_ok l k cs → agree k k' l →
  names bm (digit_of l <$> cs) → wf (Branch l bm (sum_len cs) k' cs).
Proof.
  intros Hl Hlen Hwf [Hk Hs] Hag Hbm. constructor; try done; [by apply Forall_forall|].
  split; [|done]. eapply Forall_impl; [exact Hk|]. simpl. intros c [? ?].
  split; [done|]. by eapply agree_trans.
Qed.

(** ** Lookups *)

Lemma lookup_branch l bm len k cs a :
  kids_ok l k cs → names bm (digit_of l <$> cs) →
  lookup (Branch l bm len k cs) a =
    (find_kid l (nibble a l) cs ≫= λ c, lookup c a).
Proof.
  intros Hk Hbm. simpl. pose proof (kid_slot _ _ _ _ (nibble a l) Hk Hbm) as Hs.
  rewrite -Hs. destruct (has_bit bm (nibble a l)); simpl; [|done].
  rewrite at_index_lookup. by destruct (cs !! _).
Qed.

Lemma lookup_prefix n a s : wf n → lookup n a = Some s → agree a (node_key n) (node_level n).
Proof.
  intros Hwf. revert a s. induction n as [b t|l bm len k cs IH] using Node_ind'; intros a s.
  { simpl. case_decide; [|done]. intros _. by subst. }
  inversion Hwf as [|? ? ? ? ? Hl Hlen Hcs Hk Hbm Hsum]; subst. rewrite lookup_branch //.
  destruct (find_kid l (nibble a l) cs) as [c|] eqn:Hc; simpl; [|done].
  destruct (kid_slot_Some _ _ _ _ _ _ Hk Hbm Hc) as (_ & _ & Hd & Hin).
  rewrite Forall_forall in IH. rewrite Forall_forall in Hcs.
  destruct Hk as [Hk _]. rewrite Forall_forall in Hk. destruct (Hk c Hin) as [Hlc Hag].
  intros Hlk%(IH c Hin (Hcs c Hin)). eapply agree_trans; [|done].
  eapply agree_le; [|done]. lia.
Qed.

(** A node holds nothing for an actor outside its prefix. *)
Lemma lookup_outside n a p :
  wf n → p ≤ node_level n → ¬ agree a (node_key n) p → lookup n a = None.
Proof.
  intros Hwf Hp Hag. destruct (lookup n a) as [s|] eqn:Hs; [|done]. destruct Hag.
  apply lookup_prefix in Hs; [|done]. by eapply agree_le.
Qed.

Lemma lookup_sibling l k cs c a :
  Forall wf cs → kids_ok l k cs → c ∈ cs → digit_of l c ≠ nibble a l → lookup c a = None.
Proof.
  intros Hwf [Hk _] Hin Hd. rewrite Forall_forall in Hwf. rewrite Forall_forall in Hk.
  destruct (Hk c Hin) as [Hlc Hag]. apply (lookup_outside c a (l + 1)); [auto|lia|].
  rewrite agree_succ. intros [_ Heq]. by destruct Hd.
Qed.

Lemma wf_level n : wf n → node_level n ≤ 64.
Proof. intros [|]; simpl; lia. Qed.

Lemma testbit_bit d i : N.testbit (bit d) i = (i =? d).
Proof. pose proof (testbit_lor_bit 0 d i) as H. by rewrite N.lor_0_l N.bits_0 in H. Qed.

(** The parts of [pair] for children already in nibble order. *)
Lemma pair_ordered d k x y :
  wf x → wf y → d < 64 → d < node_level x → d < node_level y →
  agree (node_key x) k d → agree (node_key y) k d → digit_of d x < digit_of d y →
  ∀ bm, (∀ i, N.testbit bm i = (i =? digit_of d x) || (i =? digit_of d y)) →
  let n := Branch d bm (sum_len [x; y]) k [x; y] in
  wf n ∧ ∀ a, lookup n a = match lookup x a with Some s => Some s | None => lookup y a end.
Proof.
  intros Hx Hy Hd Hlx Hly Hax Hay Hlt bm Hbm n.
  assert (kids_ok d k [x; y]) as Hk.
  { split; [by repeat constructor|]. simpl. by repeat constructor. }
  assert (names bm (digit_of d <$> [x; y])) as Hn.
  { intros i. rewrite Hbm orb_true_iff !N.eqb_eq. simpl.
    rewrite elem_of_cons list_elem_of_singleton. naive_solver. }
  split; [by constructor; [..|repeat constructor|done|done|]|].
  intros a. unfold n. rewrite lookup_branch //. simpl.
  assert (Forall wf [x; y]) as Hwf by by repeat constructor.
  destruct (N.eqb_spec (digit_of d x) (nibble a d)) as [Heq|Hne]; simpl.
  - rewrite (lookup_sibling d k [x; y] y) //; [by right; left|lia|]. by destruct (lookup x a).
  - rewrite (lookup_sibling d k [x; y] x) //; [by left|].
    destruct (N.eqb_spec (digit_of d y) (nibble a d)) as [Heq|Hne']; simpl; [done|].
    rewrite (lookup_sibling d k [x; y] y) //. by right; left.
Qed.

(** [pair] joins two subtrees whose keys first differ at its level. *)
Lemma pair_spec d a b :
  wf a → wf b → d < node_level a → d < node_level b →
  agree (node_key a) (node_key b) d → nibble (node_key a) d ≠ nibble (node_key b) d →
  wf (pair d a b) ∧ node_level (pair d a b) = d ∧ node_key (pair d a b) = node_key a ∧
  ∀ x, lookup (pair d a b) x =
    match lookup a x with Some s => Some s | None => lookup b x end.
Proof.
  intros Ha Hb Hda Hdb Hag Hne. pose proof (wf_level _ Ha). unfold pair.
  set (bm := N.lor _ _).
  assert (∀ i, N.testbit bm i =
    (i =? nibble (node_key a) d) || (i =? nibble (node_key b) d)) as Hbm.
  { intros i. unfold bm. by rewrite testbit_lor_bit testbit_bit. }
  destruct (N.ltb_spec (nibble (node_key a) d) (nibble (node_key b) d)) as [Hlt|Hge].
  - destruct (pair_ordered d (node_key a) a b) with (bm := bm) as [Hw Hlk];
      [done|done|lia|done|done|done|by apply agree_sym|done|done|].
    simpl in Hw, Hlk |- *. rewrite N.add_0_r in Hw, Hlk |- *. naive_solver.
  - destruct (pair_ordered d (node_key a) b a) with (bm := bm) as [Hw Hlk];
      [done|done|lia|done|done|by apply agree_sym|done|unfold digit_of; lia| |].
    { intros i. rewrite Hbm. apply orb_comm. }
    simpl in Hw, Hlk |- *. rewrite N.add_0_r (N.add_comm (node_len b)) in Hw, Hlk |- *.
    split_and!; [done..|]. intros x. rewrite Hlk.
    destruct (lookup a x) as [s|] eqn:Hs, (lookup b x) as [t|] eqn:Ht; try done.
    destruct Hne. apply lookup_prefix in Hs; [|done]. apply lookup_prefix in Ht; [|done].
    by rewrite -(Hs d) // -(Ht d).
Qed.

(** ** Setting and removing an actor *)

(** The contract of [set_node] for a node all of whose entries share their first [p]
    nibbles with [actor]: the result has the same prefix, is well formed, and differs
    from the node only at [actor]. *)
Definition set_spec (n : Node) (actor : ActorId) (seq : option N) (p : N)
    (r : option Node) : Prop :=
  match r with
  | Some n' => wf n' ∧ p ≤ node_level n' ∧ agree (node_key n') (node_key n) p ∧
      ∀ b, lookup n' b = if decide (b = actor) then seq else lookup n b
  | None => seq = None ∧ ∀ b, b ≠ actor → lookup n b = None
  end.

Lemma set_outside n actor seq p :
  wf n → p ≤ node_level n → agree actor (node_key n) p →
  (∀ d, first_difference (node_key n) actor = Some d → d < node_level n) →
  lookup n actor = None → node_key n ≠ actor →
  set_spec n actor seq p
    match seq, first_difference (node_key n) actor with
    | Some seq, Some difference => Some (pair difference n (leaf actor seq))
    | _, _ => Some n
    end.
Proof.
  intros Hwf Hp Hag Hd Hnone Hkey.
  destruct seq as [s|]; simpl; [destruct (first_difference _ _) as [d|] eqn:Hf|].
  - assert (p ≤ d) as Hpd by by eapply first_difference_ge; [apply agree_sym|].
    pose proof (Hd d eq_refl) as Hdl.
    apply first_difference_Some in Hf as (Hd64 & Hag' & Hne).
    destruct (pair_spec d n (leaf actor s)) as (Hw & Hl & Hk & Hlk); [done|constructor|done..|].
    rewrite /set_spec Hl Hk. split_and!; [done..|]. intros b. rewrite Hlk. simpl.
    destruct (decide (b = actor)) as [->|Hb]; [rewrite Hnone; by case_decide|].
    destruct (lookup n b); [done|]. case_decide; [by subst|done].
  - by apply first_difference_None in Hf.
  - split_and!; [done..|]. intros b. case_decide; by subst.
Qed.

Lemma set_leaf held s0 actor seq p :
  agree actor held p → p ≤ 64 →
  set_spec (Leaf held s0) actor seq p (set_node (Leaf held s0) actor seq).
Proof.
  intros Hag Hp. simpl. case_decide as Heq.
  - subst held. destruct seq as [s|]; simpl.
    + split_and!; [constructor|done..|]. intros b. repeat case_decide; congruence.
    + split; [done|]. intros b Hb. case_decide; congruence.
  - apply (set_outside (Leaf held s0)); simpl; [constructor|done..| | |].
    + by intros d (? & _ & _)%first_difference_Some.
    + by case_decide.
    + done.
Qed.

(** The key [set_node] leaves in a branch: that of its first child. *)
Definition first_key (k : ActorId) (cs : list Node) : ActorId :=
  match cs with first :: _ => node_key first | [] => k end.

Lemma first_key_agree l k cs : kids_ok l k cs → agree k (first_key k cs) l.
Proof.
  intros [Hk _]. destruct cs as [|c cs]; simpl; [done|].
  apply Forall_cons in Hk as [[_ ?] _]. by apply agree_sym.
Qed.

(** Rebuilding the branch around edited children. *)
Lemma set_rebuild n l k actor seq p bm' cs' :
  node_key n = k → l < 64 → p ≤ l → (2 ≤ length cs')%nat → (∀ c, c ∈ cs' → wf c) →
  kids_ok l k cs' → names bm' (digit_of l <$> cs') →
  (∀ b, (find_kid l (nibble b l) cs' ≫= λ c, lookup c b) =
        if decide (b = actor) then seq else lookup n b) →
  set_spec n actor seq p (Some (Branch l bm' (sum_len cs') (first_key k cs') cs')).
Proof.
  intros Hkey Hl Hp Hlen Hwf Hk Hbm Hlk. pose proof (first_key_agree _ _ _ Hk) as Hag.
  assert (wf (Branch l bm' (sum_len cs') (first_key k cs') cs')) as Hw
    by by eapply wf_branch_intro.
  unfold set_spec. split_and!; [done..| |].
  - rewrite Hkey. eapply agree_le; [done|]. by apply agree_sym.
  - intros b. rewrite -Hlk. inversion Hw; subst. by rewrite lookup_branch.
Qed.

Lemma set_absent l bm len k cs actor seq p :
  wf (Branch l bm len k cs) → p ≤ l → agree actor k l →
  find_kid l (nibble actor l) cs = None →
  set_spec (Branch l bm len k cs) actor seq p
    (let cs' := match seq with
                | Some s => vec_insert (slot bm (nibble actor l)) (leaf actor s) cs
                | None => cs end in
     Some (Branch l (match seq with Some _ => N.lor bm (bit (nibble actor l)) | None => bm end)
       (sum_len cs') (first_key k cs') cs')).
Proof.
  intros Hwf Hp Hag Hnone. inversion Hwf as [|? ? ? ? ? Hl Hlen Hcs Hk Hbm Hsum]; subst.
  rewrite Forall_forall in Hcs. destruct seq as [s|].
  - destruct (kids_insert l k cs bm (leaf actor s)) as (Hk' & Hbm' & Hfind);
      [done..|simpl; lia|done|].
    eapply set_rebuild; try done.
    + rewrite vec_insert_perm. simpl. lia.
    + intros c. rewrite vec_insert_perm elem_of_cons. intros [->|]; [constructor|auto].
    + intros b. rewrite Hfind lookup_branch //. unfold digit_of. simpl.
      destruct (N.eqb_spec (nibble b l) (nibble actor l)) as [Heq|Hne]; simpl.
      * rewrite Heq Hnone. simpl. repeat case_decide; congruence.
      * case_decide; [congruence|done].
  - eapply set_rebuild; try done. intros b. rewrite lookup_branch //.
    case_decide; [subst; by rewrite Hnone|done].
Qed.

Lemma set_replaced l bm len k cs actor seq p c c' :
  wf (Branch l bm len k cs) → p ≤ l → find_kid l (nibble actor l) cs = Some c →
  set_spec c actor seq (l + 1) (Some c') →
  set_spec (Branch l bm len k cs) actor seq p
    (let cs' := <[slot bm (nibble actor l) := c']> cs in
     Some (Branch l bm (sum_len cs') (first_key k cs') cs')).
Proof.
  intros Hwf Hp Hc (Hwc' & Hlc' & Hagc' & Hlk).
  inversion Hwf as [|? ? ? ? ? Hl Hlen Hcs Hk Hbm Hsum]; subst.
  destruct (kid_slot_Some _ _ _ _ _ _ Hk Hbm Hc) as (_ & Hslot & Hd & Hin).
  apply agree_succ in Hagc' as [Hagc Hdc].
  assert (agree (node_key c) k l) as Hck.
  { destruct Hk as [Hk _]. rewrite Forall_forall in Hk. by apply Hk. }
  destruct (kids_replace l k cs bm _ c c' Hk Hbm Hslot) as (Hk' & Hbm' & Hfind);
    [done|lia|by eapply agree_trans|].
  eapply set_rebuild; try done.
  - by rewrite length_insert.
  - apply Forall_forall. by apply Forall_insert.
  - intros b. rewrite Hfind Hd lookup_branch //.
    destruct (N.eqb_spec (nibble b l) (nibble actor l)) as [Heq|Hne]; simpl.
    + by rewrite Heq Hc Hlk.
    + case_decide; [congruence|done].
Qed.

Lemma set_removed l bm len k cs actor p c :
  wf (Branch l bm len k cs) → p ≤ l → find_kid l (nibble actor l) cs = Some c →
  set_spec c actor None (l + 1) None →
  set_spec (Branch l bm len k cs) actor None p
    (let rest := vec_remove (slot bm (nibble actor l)) cs in
     match rest with
     | [last] => Some last
     | _ => Some (Branch l (N.ldiff bm (bit (nibble actor l)))
              (sum_len rest) (first_key k rest) rest)
     end).
Proof.
  intros Hwf Hp Hc [_ Hgone].
  inversion Hwf as [|? ? ? ? ? Hl Hlen Hcs Hk Hbm Hsum]; subst.
  destruct (kid_slot_Some _ _ _ _ _ _ Hk Hbm Hc) as (_ & Hslot & Hd & Hin).
  destruct (kids_remove l k cs bm _ c Hk Hbm Hslot) as (Hk' & Hbm' & Hfind).
  pose proof (vec_remove_perm _ _ _ Hslot) as Hperm.
  rewrite Hd in Hfind, Hbm'. set (rest := vec_remove _ cs) in *. simpl.
  assert (∀ c, c ∈ rest → wf c) as Hwr.
  { intros c'. rewrite Forall_forall in Hcs. intros Hc'. apply Hcs. rewrite Hperm. by right. }
  assert (∀ b, (find_kid l (nibble b l) rest ≫= λ c, lookup c b) =
    if decide (b = actor) then None else lookup (Branch l bm (sum_len cs) k cs) b) as Hlk.
  { intros b. rewrite Hfind lookup_branch //.
    destruct (N.eqb_spec (nibble b l) (nibble actor l)) as [Heq|Hne].
    - rewrite Heq Hc. simpl. case_decide; [done|]. symmetry. by apply Hgone.
    - case_decide; [congruence|done]. }
  destruct rest as [|c0 [|c1 rest']] eqn:Hrest.
  - apply Permutation_length in Hperm. simpl in Hperm. lia.
  - destruct Hk' as [Hk' _]. apply Forall_cons in Hk' as [[Hl0 Hag0] _]. simpl in *.
    split_and!; [by apply Hwr; left|lia|by eapply agree_le|].
    intros b. specialize (Hlk b). simpl in Hlk. rewrite -Hlk.
    destruct (N.eqb_spec (digit_of l c0) (nibble b l)) as [|Hne]; simpl; [done|].
    apply (lookup_sibling l k cs); [done..| |done]. rewrite Hperm. by right; left.
  - by eapply set_rebuild; try done; simpl; lia.
Qed.

Lemma set_node_spec n : ∀ actor seq p,
  wf n → p ≤ node_level n → agree actor (node_key n) p →
  set_spec n actor seq p (set_node n actor seq).
Proof.
  induction n as [held s0|l bm len k cs IH] using Node_ind'; intros actor seq p Hwf Hp Hag.
  { by apply set_leaf. }
  inversion Hwf as [|? ? ? ? ? Hl Hlen Hcs Hk Hbm Hsum]; subst. simpl in Hp, Hag |- *.
  destruct (match first_difference k actor with Some d => d <? l | None => false end) eqn:Hout.
  { destruct (first_difference k actor) as [d|] eqn:Hf; [|done]. apply N.ltb_lt in Hout.
    assert (¬ agree actor k l) as Hnag.
    { intros H. apply first_difference_ge with (n := l) in Hf; [lia|by apply agree_sym]. }
    pose proof (set_outside (Branch l bm (sum_len cs) k cs) actor seq p) as Hs.
    simpl in Hs. rewrite Hf in Hs. apply Hs; try done.
    - by intros d' [= <-].
    - by apply (lookup_outside (Branch l bm (sum_len cs) k cs) actor l).
    - intros ->. by apply Hnag. }
  assert (agree actor k l) as Hagl.
  { destruct (first_difference k actor) as [d|] eqn:Hf.
    - apply N.ltb_ge in Hout. apply first_difference_Some in Hf as (_ & ? & _).
      eapply agree_le; [done|]. by apply agree_sym.
    - by apply first_difference_None in Hf as ->. }
  destruct (find_kid l (nibble actor l) cs) as [c|] eqn:Hc.
  - destruct (kid_slot_Some _ _ _ _ _ _ Hk Hbm Hc) as (-> & Hslot & Hd & Hin). simpl.
    rewrite at_index_lookup Hslot. simpl.
    assert (set_spec c actor seq (l + 1) (set_node c actor seq)) as Hsc.
    { rewrite Forall_forall in IH. rewrite Forall_forall in Hcs.
      destruct Hk as [Hk _]. rewrite Forall_forall in Hk. destruct (Hk c Hin) as [Hlc Hagc].
      apply IH; [done|by apply Hcs|lia|]. apply agree_succ.
      split; [|done]. eapply agree_trans; [done|]. by apply agree_sym. }
    destruct (set_node c actor seq) as [c'|].
    + by eapply (set_replaced l bm (sum_len cs) k cs).
    + pose proof Hsc as [-> _].
      pose proof (set_removed l bm (sum_len cs) k cs actor p c Hwf Hp Hc Hsc) as Hrem.
      simpl in Hrem. by destruct (vec_remove _ cs) as [|? [|? ?]].
  - rewrite (kid_slot_None _ _ _ _ _ Hk Hbm Hc). simpl.
    pose proof (set_absent l bm (sum_len cs) k cs actor seq p Hwf Hp Hagl Hc) as Habs.
    by destruct seq.
Qed.

(** ** Merging *)

(** The higher of two positions, either of which may be absent. *)
Definition mx : option N → option N → option N := union_with (λ s t, Some (N.max s t)).

Lemma mx_comm o1 o2 : mx o1 o2 = mx o2 o1.
Proof. destruct o1, o2; simpl; try done. unfold mx; simpl. by rewrite N.max_comm. Qed.
Lemma mx_idemp o : mx o o = o.
Proof. destruct o; [|done]. unfold mx; simpl. by rewrite N.max_id. Qed.
Lemma mx_None_r o : mx o None = o.
Proof. by destruct o. Qed.
Lemma mx_None_l o : mx None o = o.
Proof. by destruct o. Qed.

(** The contract of [union] for two nodes whose entries share their first [p] nibbles. *)
Definition union_ok (a b : Node) (p : N) (u : Node) : Prop :=
  wf u ∧ p ≤ node_level u ∧ agree (node_key u) (node_key a) p ∧
  ∀ x, lookup u x = mx (lookup a x) (lookup b x).

Lemma union_ok_comm a b p u :
  agree (node_key a) (node_key b) p → union_ok a b p u → union_ok b a p u.
Proof.
  intros Hag (? & ? & ? & Hlk). split_and!; [done..|by eapply agree_trans|].
  intros x. by rewrite mx_comm.
Qed.

Lemma observed_spec n actor s p :
  wf n → p ≤ node_level n → agree actor (node_key n) p →
  union_ok n (Leaf actor s) p (observed n actor s).
Proof.
  intros Hwf Hp Hag. pose proof (set_node_spec n actor (Some s) p Hwf Hp Hag) as Hs.
  assert (∀ held, lookup n actor = held → (∀ h, held = Some h → ¬ s ≤ h) →
    union_ok n (Leaf actor s) p (default n (set_node n actor (Some s)))) as Hset.
  { intros held Hheld Hlow. destruct (set_node n actor (Some s)) as [n'|]; [|by destruct Hs].
    destruct Hs as (? & ? & ? & Hlk). split_and!; [done..|]. simpl. intros x. rewrite Hlk.
    destruct (decide (x = actor)) as [->|Hne].
    - rewrite Hheld. case_decide; [|done]. destruct held as [h|]; [|done].
      unfold mx; simpl. f_equal. specialize (Hlow h eq_refl). lia.
    - case_decide; [by subst|]. by rewrite mx_None_r. }
  unfold observed. destruct (lookup n actor) as [h|] eqn:Hh; [|by apply (Hset None)].
  destruct (N.leb_spec s h) as [Hle|Hgt].
  - split_and!; [done..|]. simpl. intros x. case_decide; [subst; rewrite Hh|by rewrite mx_None_r].
    unfold mx; simpl. f_equal. lia.
  - apply (Hset (Some h)); [done|]. intros h' Heq. simplify_eq. lia.
Qed.

Lemma pair_union_ok d a b p :
  wf a → wf b → d < node_level a → d < node_level b → p ≤ d →
  agree (node_key a) (node_key b) d → nibble (node_key a) d ≠ nibble (node_key b) d →
  union_ok a b p (pair d a b).
Proof.
  intros Ha Hb Hda Hdb Hp Hag Hne.
  destruct (pair_spec d a b) as (Hw & Hl & Hk & Hlk); [done..|].
  split_and!; [done|lia|by rewrite Hk|]. intros x. rewrite Hlk.
  destruct (lookup a x) as [s|] eqn:Hs, (lookup b x) as [t|] eqn:Ht; try done.
  destruct Hne. apply lookup_prefix in Hs; [|done]. apply lookup_prefix in Ht; [|done].
  by rewrite -(Hs d) // -(Ht d).
Qed.

(** A branch over [cs], whatever its key is, when [cs] merges two nodes digit by digit. *)
Lemma branch_union_ok a b p l bm k' cs :
  l < 64 → p ≤ l → (2 ≤ length cs)%nat → (∀ c, c ∈ cs → wf c) →
  kids_ok l (node_key a) cs → agree (node_key a) k' l → names bm (digit_of l <$> cs) →
  (∀ x, (find_kid l (nibble x l) cs ≫= λ c, lookup c x) = mx (lookup a x) (lookup b x)) →
  union_ok a b p (Branch l bm (sum_len cs) k' cs).
Proof.
  intros Hl Hp Hlen Hwf Hk Hag Hbm Hlk.
  assert (wf (Branch l bm (sum_len cs) k' cs)) as Hw by by eapply wf_branch_intro.
  split_and!; [done..| |].
  - eapply agree_le; [done|]. by apply agree_sym.
  - intros x. rewrite -Hlk. inversion Hw; subst. by rewrite lookup_branch.
Qed.

Section union_proof.
Context `{PtrEq}.

(** [merge] meets the contract of [union] on the children of [cs] against [lower]. *)
Lemma graft_spec merge l bm k cs lower p :
  let upper := Branch l bm (sum_len cs) k cs in
  wf upper → wf lower → p ≤ l → l < node_level lower → agree k (node_key lower) l →
  (∀ c, c ∈ cs → digit_of l c = nibble (node_key lower) l →
    union_ok c lower (l + 1) (merge c lower)) →
  union_ok upper lower p (graft merge upper l bm k cs lower).
Proof.
  intros upper Hwf Hlow Hp Hll Hag Hmerge.
  inversion Hwf as [|? ? ? ? ? Hl Hlen Hcs Hk Hbm Hsum]; subst.
  assert (∀ x, nibble x l ≠ nibble (node_key lower) l → lookup lower x = None) as Hother.
  { intros x Hx. apply (lookup_outside lower x (l + 1)); [done|lia|].
    rewrite agree_succ. by intros [_ ?]. }
  rewrite Forall_forall in Hcs. unfold graft.
  destruct (find_kid l (nibble (node_key lower) l) cs) as [c|] eqn:Hc.
  - destruct (kid_slot_Some _ _ _ _ _ _ Hk Hbm Hc) as (-> & Hslot & Hd & Hin). simpl.
    rewrite Hslot. destruct (Hmerge c Hin Hd) as (Hwu & Hlu & Hagu & Hlk).
    assert (union_ok upper lower p
      (Branch l bm (sum_len (<[slot bm (nibble (node_key lower) l) := merge c lower]> cs)) k
        (<[slot bm (nibble (node_key lower) l) := merge c lower]> cs))) as Hnew.
    { apply agree_succ in Hagu as [Hagu Hdu].
      assert (agree (node_key c) k l) as Hck.
      { destruct Hk as [Hk _]. rewrite Forall_forall in Hk. by apply Hk. }
      destruct (kids_replace l k cs bm _ c (merge c lower) Hk Hbm Hslot)
        as (Hk' & Hbm' & Hfind); [done|lia|by eapply agree_trans|].
      eapply branch_union_ok; try done.
      - by rewrite length_insert.
      - apply Forall_forall, Forall_insert; [by apply Forall_forall|done].
      - intros x. rewrite Hfind Hd (lookup_branch l bm) //.
        destruct (N.eqb_spec (nibble x l) (nibble (node_key lower) l)) as [Heq|Hne]; simpl.
        + by rewrite Heq Hc Hlk.
        + by rewrite Hother // mx_None_r. }
    destruct (ptr_eq (merge c lower) c) eqn:Hptr; [|done].
    apply ptr_eq_sound in Hptr. rewrite Hptr list_insert_id // in Hnew.
  - rewrite (kid_slot_None _ _ _ _ _ Hk Hbm Hc). simpl.
    destruct (kids_insert l k cs bm lower) as (Hk' & Hbm' & Hfind);
      [done..|by apply agree_sym|].
    eapply branch_union_ok; try done.
    + rewrite vec_insert_perm. simpl. lia.
    + intros c. rewrite vec_insert_perm elem_of_cons. intros [->|]; auto.
    + intros x. rewrite Hfind (lookup_branch l bm) //. unfold digit_of.
      destruct (N.eqb_spec (nibble x l) (nibble (node_key lower) l)) as [Heq|Hne]; simpl.
      * by rewrite Heq Hc mx_None_l.
      * by rewrite Hother // mx_None_r.
Qed.

(** Children collected digit by digit. *)
Lemma collect_kids l (f : N → option Node) ds :
  StronglySorted N.lt ds → (∀ d c, d ∈ ds → f d = Some c → digit_of l c = d) →
  StronglySorted N.lt (digit_of l <$> omap f ds) ∧
  (∀ c, c ∈ omap f ds ↔ ∃ d, d ∈ ds ∧ f d = Some c).
Proof.
  intros Hs Hf. split; [|intros c; by rewrite list_elem_of_omap].
  induction Hs as [|d ds Hs IH Hall]; simpl; [constructor|].
  assert (StronglySorted N.lt (digit_of l <$> omap f ds)) as Hsub.
  { apply IH. intros ?? ?. apply Hf. by right. }
  destruct (f d) as [c|] eqn:Hc; simpl; [|done]. constructor; [done|].
  rewrite (Hf d c) //; [by left|]. rewrite Forall_forall in Hall.
  apply Forall_forall. intros d' (c' & -> & (e & He & Hfe)%list_elem_of_omap)%list_elem_of_fmap.
  rewrite (Hf e c') //; [by right|]. by apply Hall.
Qed.

Lemma sorted_digits16 : StronglySorted N.lt digits16.
Proof. repeat constructor. Qed.

Lemma StronglySorted_filter (P : N → Prop) `{!∀ x, Decision (P x)} ds :
  StronglySorted N.lt ds → StronglySorted N.lt (filter P ds).
Proof.
  induction 1 as [|d ds Hs IH Hall]; [constructor|]. rewrite filter_cons.
  case_decide; [|done]. constructor; [done|]. rewrite Forall_forall in Hall.
  apply Forall_forall. intros x [_ ?]%list_elem_of_filter. by apply Hall.
Qed.

Lemma zip_ptr_eq (own children : list Node) :
  length own = length children →
  forallb (λ '(x, y), ptr_eq x y) (zip own children) = true → own = children.
Proof.
  revert children. induction own as [|x own IH]; intros [|y children]; try done.
  simpl. intros [= Hlen] [Hxy Hrest]%andb_true_iff. by rewrite (ptr_eq_sound _ _ Hxy) (IH _ Hlen).
Qed.

(** Equal bitmaps name equally many children. *)
Lemma names_length bm l k (cs cs' : list Node) :
  kids_ok l k cs → kids_ok l k cs' → names bm (digit_of l <$> cs) →
  names bm (digit_of l <$> cs') → length cs = length cs'.
Proof.
  intros Hk Hk' Hn Hn'.
  assert (digit_of l <$> cs ≡ₚ digit_of l <$> cs') as Hp%Permutation_length.
  { apply NoDup_Permutation; [by eapply kids_NoDup..|]. intros d. by rewrite -(Hn d) -(Hn' d). }
  by rewrite !length_fmap in Hp.
Qed.

Lemma kids_agree l k k' cs : agree k k' l → kids_ok l k cs → kids_ok l k' cs.
Proof.
  intros Hag [Hk Hs]. split; [|done]. eapply Forall_impl; [exact Hk|].
  simpl. intros c [? ?]. split; [done|]. by eapply agree_trans.
Qed.

(** The child [union_children] puts at digit [d]. *)
Definition join_kids (merge : Node → Node → Node) (l : N) (ca cb : list Node) (d : N)
    : option Node :=
  match find_kid l d ca, find_kid l d cb with
  | Some x, Some y => Some (merge x y)
  | Some x, None | None, Some x => Some x
  | None, None => None
  end.

Section children.
Context (merge : Node → Node → Node) (l ba bb : N) (ka kb : ActorId) (ca cb : list Node).
Context (Hag : agree ka kb l) (Hca : Forall wf ca) (Hcb : Forall wf cb).
Context (Hka : kids_ok l ka ca) (Hkb : kids_ok l kb cb).
Context (Hba : names ba (digit_of l <$> ca)) (Hbb : names bb (digit_of l <$> cb)).
Context (Hmerge : ∀ x y, x ∈ ca → y ∈ cb → digit_of l x = digit_of l y →
  union_ok x y (l + 1) (merge x y)).

Lemma join_kids_ok d c :
  join_kids merge l ca cb d = Some c →
  digit_of l c = d ∧ wf c ∧ l < node_level c ∧ agree (node_key c) ka l.
Proof.
  assert (∀ k cs c', Forall wf cs → kids_ok l k cs → agree k ka l →
    find_kid l d cs = Some c' →
    digit_of l c' = d ∧ wf c' ∧ l < node_level c' ∧ agree (node_key c') ka l) as Hone.
  { intros k cs c' Hwf Hk Hk' [Hin Hd]%find_kid_Some; [|by eapply kids_NoDup].
    rewrite Forall_forall in Hwf. destruct Hk as [Hk _]. rewrite Forall_forall in Hk.
    destruct (Hk c' Hin). split_and!; [done|auto|done|by eapply agree_trans]. }
  unfold join_kids.
  destruct (find_kid l d ca) as [x|] eqn:Hx, (find_kid l d cb) as [y|] eqn:Hy.
  - intros [= <-]. apply find_kid_Some in Hx as [Hinx Hdx]; [|by eapply kids_NoDup].
    apply find_kid_Some in Hy as [Hiny Hdy]; [|by eapply kids_NoDup].
    destruct (Hmerge x y Hinx Hiny) as (Hw & Hl & Hagu & _); [congruence|].
    apply agree_succ in Hagu as [Hagu Hdu].
    destruct Hka as [Hk _]. rewrite Forall_forall in Hk. destruct (Hk x Hinx).
    split_and!; [unfold digit_of in *; congruence|done|lia|by eapply agree_trans].
  - intros [= <-]. by apply (Hone ka ca).
  - intros [= <-]. apply (Hone kb cb); [done..|by apply agree_sym|done].
  - done.
Qed.

Lemma join_kids_Some d :
  is_Some (join_kids merge l ca cb d) ↔ N.testbit (N.lor ba bb) d = true.
Proof.
  rewrite N.lor_spec orb_true_iff (Hba d) (Hbb d). unfold join_kids.
  destruct (find_kid l d ca) as [x|] eqn:Hx, (find_kid l d cb) as [y|] eqn:Hy.
  all: try (apply find_kid_Some in Hx as [Hx Hdx]; [|by eapply kids_NoDup]).
  all: try (apply find_kid_Some in Hy as [Hy Hdy]; [|by eapply kids_NoDup]).
  all: try (apply find_kid_None in Hx). all: try (apply find_kid_None in Hy).
  1-3: (split; [intros _|by eauto]).
  1,2: (left; rewrite -Hdx; by apply list_elem_of_fmap_2).
  1: (right; rewrite -Hdy; by apply list_elem_of_fmap_2).
  split; [by intros [? ?]|tauto].
Qed.

Definition joined : list Node :=
  omap (join_kids merge l ca cb) (filter (has_bit (N.lor ba bb)) digits16).

Lemma joined_ok :
  kids_ok l ka joined ∧ (∀ c, c ∈ joined → wf c) ∧
  names (N.lor ba bb) (digit_of l <$> joined) ∧
  ∀ d, find_kid l d joined = join_kids merge l ca cb d.
Proof.
  destruct (collect_kids l (join_kids merge l ca cb)
    (filter (has_bit (N.lor ba bb)) digits16)) as [Hs Hin].
  { apply StronglySorted_filter, sorted_digits16. }
  { by intros d c _ (? & _)%join_kids_ok. }
  fold joined in Hs, Hin.
  assert (∀ d c, join_kids merge l ca cb d = Some c → c ∈ joined) as Hall.
  { intros d c Hc. apply Hin. exists d. split; [|done].
    rewrite list_elem_of_filter elem_of_digits16 has_bit_testbit Is_true_true.
    rewrite -join_kids_Some. split; [by eauto|].
    apply join_kids_ok in Hc as (<- & _). apply nibble_lt. }
  assert (kids_ok l ka joined) as Hk.
  { split; [|done]. apply Forall_forall.
    by intros c (d & _ & (_ & _ & ? & ?)%join_kids_ok)%Hin. }
  assert (∀ d, find_kid l d joined = join_kids merge l ca cb d) as Hfind.
  { intros d. apply option_eq. intros c. rewrite find_kid_Some; [by eapply kids_NoDup|].
    split.
    - intros [(d' & _ & Hc)%Hin Hd]. by destruct (join_kids_ok _ _ Hc) as [<- _]; subst.
    - intros Hc. split; [by eapply Hall|]. by apply join_kids_ok in Hc as (? & _). }
  split; [done|]. split; [by intros c (d & _ & (_ & ? & _)%join_kids_ok)%Hin|].
  split; [|done]. intros d. rewrite -join_kids_Some -Hfind.
  destruct (find_kid l d joined) as [c|] eqn:Hc.
  - apply find_kid_Some in Hc as [Hc <-]; [|by eapply kids_NoDup].
    split; [intros _; by apply list_elem_of_fmap_2|by eauto].
  - apply find_kid_None in Hc. split; [by intros [? ?]|done].
Qed.
End children.

(** A side whose children are all reused unchanged is the result. *)
Lemma same_children_eq l k bits bitmap own cs :
  kids_ok l k own → kids_ok l k cs → names bits (digit_of l <$> own) →
  names bitmap (digit_of l <$> cs) → same_children bits bitmap own cs = true →
  bits = bitmap ∧ own = cs.
Proof.
  intros Hk Hk' Hn Hn' [Heq%N.eqb_eq Hall]%andb_true_iff. subst bits. split; [done|].
  apply zip_ptr_eq; [|done]. by eapply names_length.
Qed.

Lemma union_children_spec merge l ba bb ka kb ca cb p :
  let a := Branch l ba (sum_len ca) ka ca in
  let b := Branch l bb (sum_len cb) kb cb in
  wf a → wf b → p ≤ l → agree ka kb l →
  (∀ x y, x ∈ ca → y ∈ cb → digit_of l x = digit_of l y →
    union_ok x y (l + 1) (merge x y)) →
  union_ok a b p (union_children merge a b).
Proof.
  intros a b Ha Hb Hp Hag Hmerge.
  inversion Ha as [|? ? ? ? ? Hl Hlena Hca Hka Hba _]; subst.
  inversion Hb as [|? ? ? ? ? _ Hlenb Hcb Hkb Hbb _]; subst.
  destruct (joined_ok merge l ba bb ka kb ca cb) as (Hk & Hwf & Hbm & Hfind); [done..|].
  set (cs := joined merge l ba bb ca cb) in *.
  assert (length ca ≤ length cs)%nat as Hlen.
  { rewrite -(length_fmap (digit_of l) ca) -(length_fmap (digit_of l) cs).
    apply submseteq_length, NoDup_submseteq; [by eapply kids_NoDup|].
    intros d Hd%Hba. apply Hbm. by rewrite N.lor_spec Hd. }
  assert (∀ k', agree ka k' l → union_ok a b p
    (Branch l (N.lor ba bb) (sum_len cs) k' cs)) as Hnew.
  { intros k' Hk'. apply branch_union_ok; try done; [lia|]. intros x.
    rewrite Hfind (lookup_branch l ba) // (lookup_branch l bb) //. unfold join_kids.
    destruct (find_kid l (nibble x l) ca) as [u|] eqn:Hu,
      (find_kid l (nibble x l) cb) as [v|] eqn:Hv; simpl.
    - apply find_kid_Some in Hu as [Hu ?]; [|by eapply kids_NoDup].
      apply find_kid_Some in Hv as [Hv ?]; [|by eapply kids_NoDup].
      destruct (Hmerge u v Hu Hv) as (_ & _ & _ & Hlk); [congruence|]. apply Hlk.
    - by rewrite mx_None_r.
    - by destruct (lookup v x).
    - done. }
  unfold union_children, a, b.
  assert (omap _ _ = cs) as ->.
  { unfold cs, joined. apply list_omap_ext, Forall2_same_length_lookup_2; [done|].
    intros i d d' Hd Hd'. simplify_eq. unfold join_kids.
    by rewrite (kid_slot _ _ _ _ d Hka Hba) (kid_slot _ _ _ _ d Hkb Hbb). }
  destruct (same_children ba (N.lor ba bb) ca cs) eqn:Hsa.
  { apply (same_children_eq l ka) in Hsa as [Heq Hcs]; [|done..].
    rewrite -Heq -Hcs in Hnew. by apply Hnew. }
  destruct (same_children bb (N.lor ba bb) cb cs) eqn:Hsb; [|by apply Hnew].
  apply (same_children_eq l kb) in Hsb as [Heq Hcs]; [|done|by eapply kids_agree|done..].
  rewrite -Heq -Hcs in Hnew. by apply Hnew.
Qed.
End union_proof.

Section union_theorem.
Context `{PtrEq}.

Lemma height_child l bm len k cs c :
  c ∈ cs → (height c < height (Branch l bm len k cs))%nat.
Proof. simpl. induction 1 as [|c c' cs Hin IH]; simpl; lia. Qed.

Lemma union_fuel_spec fuel : ∀ a b p,
  (height a + height b < fuel)%nat → wf a → wf b →
  p ≤ node_level a → p ≤ node_level b → agree (node_key a) (node_key b) p →
  union_ok a b p (union_fuel fuel a b).
Proof.
  induction fuel as [|fuel IH]; intros a b p Hfuel Ha Hb Hpa Hpb Hag; [lia|].
  cbn [union_fuel]. destruct (ptr_eq a b) eqn:Hptr.
  { apply ptr_eq_sound in Hptr as <-. split_and!; [done..|]. intros x. by rewrite mx_idemp. }
  destruct b as [actor s|lb bb lenb kb cb].
  { destruct a; apply observed_spec; try done; by apply agree_sym. }
  destruct a as [actor s|la ba lena ka ca].
  { apply union_ok_comm; [by apply agree_sym|]. by apply observed_spec. }
  simpl in Hpa, Hpb, Hag.
  inversion Ha as [|? ? ? ? ? Hla Hlena Hca Hka Hba Hsa]; subst.
  inversion Hb as [|? ? ? ? ? Hlb Hlenb Hcb Hkb Hbb Hsb]; subst.
  set (a := Branch la ba (sum_len ca) ka ca) in *.
  set (b := Branch lb bb (sum_len cb) kb cb) in *.
  assert (agree ka kb (N.min la lb) → union_ok a b p
    (if la =? lb then union_children (union_fuel fuel) a b
     else if la <? lb then graft (union_fuel fuel) a la ba ka ca b
     else graft (union_fuel fuel) b lb bb kb cb a)) as Hnear.
  { intros Hmin. destruct (N.eqb_spec la lb) as [<-|Hne]; [|destruct (N.ltb_spec la lb)].
    - rewrite N.min_id in Hmin. apply union_children_spec; try done. intros x y Hx Hy Hd.
      pose proof (height_child la ba (sum_len ca) ka ca x Hx).
      pose proof (height_child la bb (sum_len cb) kb cb y Hy).
      destruct Hka as [Hka _], Hkb as [Hkb _].
      rewrite Forall_forall in Hka. rewrite Forall_forall in Hkb.
      rewrite Forall_forall in Hca. rewrite Forall_forall in Hcb.
      destruct (Hka x Hx), (Hkb y Hy).
      apply IH; [unfold a, b in *; lia|auto|auto|lia|lia|]. apply agree_succ. split; [|done].
      eapply agree_trans; [done|]. eapply agree_trans; [done|]. by apply agree_sym.
    - apply graft_spec; try done.
      + eapply agree_le; [|done]. lia.
      + intros c Hc Hd. pose proof (height_child la ba (sum_len ca) ka ca c Hc).
        destruct Hka as [Hka _]. rewrite Forall_forall in Hka.
        rewrite Forall_forall in Hca. destruct (Hka c Hc).
        apply IH; [unfold a, b in *; lia|auto|done|lia|simpl; lia|]. apply agree_succ.
        split; [|done]. eapply agree_trans; [done|]. eapply agree_le; [|done]. lia.
    - apply union_ok_comm; [by apply agree_sym|]. apply graft_spec; try done.
      + simpl. lia.
      + apply agree_sym. eapply agree_le; [|done]. simpl. lia.
      + intros c Hc Hd. pose proof (height_child lb bb (sum_len cb) kb cb c Hc).
        destruct Hkb as [Hkb _]. rewrite Forall_forall in Hkb.
        rewrite Forall_forall in Hcb. destruct (Hkb c Hc).
        apply IH; [unfold a, b in *; lia|auto|done|lia|simpl; lia|]. apply agree_succ.
        split; [|done]. eapply agree_trans; [done|]. apply agree_sym.
        eapply agree_le; [|done]. simpl. lia. }
  destruct (first_difference ka kb) as [d|] eqn:Hf.
  - pose proof Hf as (Hd64 & Hagd & Hned)%first_difference_Some.
    destruct (N.ltb_spec d (N.min la lb)) as [Hlt|Hge].
    + apply pair_union_ok; simpl; try done; [lia|lia|].
      by eapply first_difference_ge.
    + apply Hnear. by eapply agree_le.
  - apply Hnear. by apply first_difference_None in Hf as ->.
Qed.

(** [union] of two well-formed tries is the pointwise maximum of their entries. *)
Lemma union_spec a b :
  wf a → wf b → wf (union a b) ∧ ∀ x, lookup (union a b) x = mx (lookup a x) (lookup b x).
Proof.
  intros Ha Hb. unfold union.
  destruct (union_fuel_spec (S (height a + height b)) a b 0) as (? & _ & _ & ?);
    [lia|done|done|lia|lia|by intros i ?; lia|done].
Qed.
End union_theorem.

(** ** Entries *)

Lemma entries_branch l bm len k cs e :
  e ∈ entries (Branch l bm len k cs) ↔ ∃ c, c ∈ cs ∧ e ∈ entries c.
Proof.
  simpl. rewrite list_elem_of_join. split.
  - intros (es & He & (c & -> & Hc)%list_elem_of_fmap). eauto.
  - intros (c & Hc & He). exists (entries c). split; [done|]. by apply list_elem_of_fmap_2.
Qed.

(** The traversal visits exactly what lookups find. *)
Lemma lookup_entries n a s : wf n → lookup n a = Some s ↔ (a, s) ∈ entries n.
Proof.
  intros Hwf. induction n as [b t|l bm len k cs IH] using Node_ind'.
  { simpl. rewrite list_elem_of_singleton. case_decide; naive_solver. }
  inversion Hwf as [|? ? ? ? ? Hl Hlen Hcs Hk Hbm Hsum]; subst.
  rewrite Forall_forall in IH. rewrite entries_branch lookup_branch //.
  pose proof Hcs as Hcs'. rewrite Forall_forall in Hcs'. split.
  - destruct (find_kid l (nibble a l) cs) as [c|] eqn:Hc; [|done]. simpl.
    apply find_kid_Some in Hc as [Hin _]; [|by eapply kids_NoDup].
    intros Hs. exists c. split; [done|]. by apply IH; [| |]; auto.
  - intros (c & Hin & Hs%IH); [|done|auto].
    destruct (decide (digit_of l c = nibble a l)) as [Hd|Hd].
    + assert (find_kid l (nibble a l) cs = Some c) as ->; [|done].
      apply find_kid_Some; [by eapply kids_NoDup|done].
    + by rewrite (lookup_sibling l k cs c a) in Hs.
Qed.

Lemma entries_agree n a s : wf n → (a, s) ∈ entries n → agree a (node_key n) (node_level n).
Proof. intros Hwf Hs%lookup_entries; [|done]. by eapply lookup_prefix. Qed.

(** Iteration is ID-ordered. *)
Lemma entries_sorted n : wf n → StronglySorted blt (entries n).*1.
Proof.
  induction n as [b t|l bm len k cs IH] using Node_ind'; [repeat constructor|].
  intros Hwf. inversion Hwf as [|? ? ? ? ? Hl Hlen Hcs [Hk Hs] _ _]; subst. clear Hwf Hlen.
  simpl. induction cs as [|c cs IHcs]; simpl; [constructor|].
  apply Forall_cons in IH as [IHc IH]. apply Forall_cons in Hcs as [Hc Hcs].
  apply Forall_cons in Hk as [[Hlc Hagc] Hk]. inversion Hs as [|? ? Hs' Hall]; subst.
  rewrite fmap_app. apply StronglySorted_app_2; [|by apply IHc|by apply IHcs].
  intros a b ([a' s] & -> & Ha)%list_elem_of_fmap ([b' t] & -> & Hb)%list_elem_of_fmap. simpl.
  apply list_elem_of_join in Hb as (es & Hb & (c' & -> & Hc')%list_elem_of_fmap).
  rewrite Forall_forall in Hcs. rewrite Forall_forall in Hk. rewrite Forall_forall in Hall.
  destruct (Hk c' Hc') as [Hlc' Hagc'].
  apply entries_agree in Ha; [|done]. apply entries_agree in Hb; [|auto].
  apply (agree_cmp a' b' l); [done| |].
  - eapply agree_trans; [by eapply agree_le; [|exact Ha]; lia|].
    eapply agree_trans; [done|]. apply agree_sym.
    eapply agree_trans; [by eapply agree_le; [|exact Hb]; lia|done].
  - rewrite (Ha l) // (Hb l) //. apply (Hall (digit_of l c')). by apply list_elem_of_fmap_2.
Qed.

Lemma entries_length n : wf n → node_len n = N.of_nat (length (entries n)).
Proof.
  induction n as [b t|l bm len k cs IH] using Node_ind'; [done|].
  intros Hwf. inversion Hwf as [|? ? ? ? ? _ _ Hcs _ _ Hsum]; subst. clear Hwf. simpl.
  induction cs as [|c cs IHcs]; simpl; [done|].
  apply Forall_cons in IH as [IHc IH]. apply Forall_cons in Hcs as [Hc Hcs].
  rewrite length_app Nat2N.inj_add -IHc // -IHcs //.
Qed.

(** ** Selecting actors *)

Section selected.
Context `{PtrEq}.

(** The loop copies children out lazily; what it keeps is what every child's selection
    leaves, in order. *)
Lemma select_loop (sel : Node → option Node) (children : list Node) :
  match (foldl (select_step children sel) (O, None) children).2 with
  | None => omap sel children = children
  | Some kept => kept = omap sel children
  end.
Proof.
  enough (∀ post pre st, children = pre ++ post → st.1 = length pre →
    match st.2 with None => omap sel pre = pre | Some kept => kept = omap sel pre end →
    match (foldl (select_step children sel) st post).2 with
    | None => omap sel children = children | Some kept => kept = omap sel children end) as Hl.
  { apply (Hl children []); done. }
  induction post as [|c post IH]; intros pre [index changed] Hch Hidx Hst.
  { rewrite app_nil_r in Hch. subst pre. done. }
  simpl in Hidx, Hst |- *. subst index.
  apply (IH (pre ++ [c])); [by rewrite -app_assoc| |].
  { destruct changed; [|case_match]; simpl; rewrite length_app; simpl; lia. }
  rewrite omap_app. simpl. destruct changed as [kept|]; simpl.
  { subst kept. by destruct (sel c). }
  destruct (sel c) as [c'|] eqn:Hc; simpl; [destruct (ptr_eq c' c) eqn:Hp|]; simpl.
  - apply ptr_eq_sound in Hp as ->. by rewrite Hst.
  - by rewrite Hch take_app_length Hst.
  - by rewrite Hch take_app_length Hst.
Qed.

Lemma fold_bits l (kept : list Node) bits d :
  N.testbit (foldl (λ bits child, N.lor bits (bit (nibble (node_key child) l))) bits kept) d
    = true ↔ N.testbit bits d = true ∨ d ∈ digit_of l <$> kept.
Proof.
  revert bits. induction kept as [|c kept IH]; intros bits; simpl.
  { split; [by left|]. intros [?|?%elem_of_nil]; done. }
  rewrite IH testbit_lor_bit orb_true_iff N.eqb_eq elem_of_cons. unfold digit_of.
  naive_solver.
Qed.

(** The contract of [selected_node]. *)
Definition select_spec (n : Node) (actors : gset ActorId) (r : option Node) : Prop :=
  match r with
  | Some n' => wf n' ∧ node_level n ≤ node_level n' ∧
      agree (node_key n') (node_key n) (node_level n) ∧
      ∀ x, lookup n' x = if decide (x ∈ actors) then lookup n x else None
  | None => ∀ x, x ∈ actors → lookup n x = None
  end.

(** Children that survive the selection keep their digits and order. *)
Lemma kept_kids l k cs (sel : Node → option Node) :
  kids_ok l k cs →
  (∀ c c', c ∈ cs → sel c = Some c' →
    node_level c ≤ node_level c' ∧ agree (node_key c') (node_key c) (node_level c)) →
  kids_ok l k (omap sel cs) ∧
  (∀ d c', find_kid l d (omap sel cs) = Some c' →
    ∃ c, find_kid l d cs = Some c ∧ sel c = Some c') ∧
  (∀ d c, find_kid l d cs = Some c → find_kid l d (omap sel cs) = sel c).
Proof.
  intros [Hk Hs] Hsel.
  assert (∀ c c', c ∈ cs → sel c = Some c' → digit_of l c' = digit_of l c) as Hdig.
  { intros c c' Hc Hc'. destruct (Hsel c c' Hc Hc') as [_ Hag].
    rewrite Forall_forall in Hk. apply Hag, (Hk c Hc). }
  assert (kids_ok l k (omap sel cs)) as Hok.
  { split.
    - rewrite Forall_forall in Hk. apply Forall_forall.
      intros c' (c & Hc & Hc')%list_elem_of_omap. destruct (Hsel c c' Hc Hc') as [Hlev Hag].
      destruct (Hk c Hc). split; [lia|]. eapply agree_trans; [|done].
      eapply agree_le; [|done]. lia.
    - clear Hk Hsel. induction cs as [|c cs IH]; simpl; [constructor|].
      inversion Hs as [|? ? Hs' Hall]; subst.
      assert (StronglySorted N.lt (digit_of l <$> omap sel cs)) as Hrec.
      { apply IH; [done|]. intros ?? ?. apply Hdig. by right. }
      destruct (sel c) as [c0|] eqn:Hc; simpl; [|done]. constructor; [done|].
      apply Forall_forall.
      intros d (c' & -> & (c1 & Hin & Hc1)%list_elem_of_omap)%list_elem_of_fmap.
      rewrite (Hdig c c0) //; [by left|]. rewrite (Hdig c1 c') //; [by right|].
      rewrite Forall_forall in Hall. apply Hall. by apply (list_elem_of_fmap_2 (digit_of l)). }
  pose proof (kids_NoDup _ _ _ Hok) as Hnd'.
  assert (NoDup (digit_of l <$> cs)) as Hnd by by apply (kids_NoDup l k).
  split; [done|]. split.
  - intros d c' [(c & Hc & Hc')%list_elem_of_omap Hd]%find_kid_Some; [|done].
    exists c. split; [|done]. apply find_kid_Some; [done|]. by rewrite -(Hdig c c').
  - intros d c [Hc Hd]%find_kid_Some; [|done]. destruct (sel c) as [c'|] eqn:Hc'.
    + apply find_kid_Some; [done|]. rewrite list_elem_of_omap (Hdig c c') //. eauto.
    + destruct (find_kid l d (omap sel cs)) as [c'|] eqn:Hf; [|done].
      apply find_kid_Some in Hf as [(c1 & Hc1 & Hsel1)%list_elem_of_omap Hd1]; [|done].
      assert (find_kid l d cs = Some c1) as H1.
      { apply find_kid_Some; [done|]. by rewrite -(Hdig c1 c'). }
      assert (find_kid l d cs = Some c) as H2 by by apply find_kid_Some.
      congruence.
Qed.

Lemma selected_node_spec n actors : wf n → select_spec n actors (selected_node n actors).
Proof.
  induction n as [b t|l bm len k cs IH] using Node_ind'; intros Hwf.
  { simpl. case_decide as Hb; simpl.
    - split_and!; [constructor|done..|]. intros x. repeat case_decide; congruence.
    - intros x Hx. case_decide; [by subst|done]. }
  inversion Hwf as [|? ? ? ? ? Hl Hlen Hcs Hk Hbm Hsum]; subst.
  rewrite Forall_forall in IH. rewrite Forall_forall in Hcs.
  set (sel := λ c, selected_node c actors).
  assert (∀ c, c ∈ cs → select_spec c actors (sel c)) as Hsel by (intros c Hc; by apply IH; auto).
  destruct (kept_kids l k cs sel Hk) as (Hk' & Hfrom & Hto).
  { intros c c' Hc Hc'. specialize (Hsel c Hc). rewrite Hc' in Hsel.
    destruct Hsel as (_ & ? & ? & _). done. }
  assert (∀ x, (find_kid l (nibble x l) (omap sel cs) ≫= λ c, lookup c x) =
    if decide (x ∈ actors) then lookup (Branch l bm (sum_len cs) k cs) x else None) as Hlk.
  { intros x. rewrite lookup_branch //.
    destruct (find_kid l (nibble x l) cs) as [c|] eqn:Hc; simpl.
    - rewrite (Hto _ _ Hc). apply find_kid_Some in Hc as [Hc _]; [|by eapply kids_NoDup].
      specialize (Hsel c Hc). destruct (sel c) as [c'|]; simpl.
      + destruct Hsel as (_ & _ & _ & ->). done.
      + case_decide; [|done]. symmetry. by apply Hsel.
    - destruct (find_kid l (nibble x l) (omap sel cs)) as [c'|] eqn:Hc'; simpl; [|by case_decide].
      apply Hfrom in Hc' as (c & ? & _). congruence. }
  assert (∀ c, c ∈ omap sel cs → wf c) as Hwf'.
  { intros c' (c & Hc & Hc')%list_elem_of_omap. specialize (Hsel c Hc). rewrite Hc' in Hsel.
    by destruct Hsel. }
  pose proof (select_loop sel cs) as Hloop. cbn [selected_node]. fold sel.
  destruct (foldl (select_step cs sel) (O, None) cs).2 as [kept|].
  2: { rewrite Hloop in Hlk. split_and!; [done|done|done|]. intros x.
       rewrite -Hlk. by apply lookup_branch. }
  subst kept. destruct (omap sel cs) as [|c0 [|c1 rest]] eqn:Hkept.
  - intros x Hx. specialize (Hlk x). simpl in Hlk. by case_decide.
  - destruct Hk' as [Hk' _]. apply Forall_cons in Hk' as [[Hl0 Hag0] _].
    split_and!; [by apply Hwf'; left|simpl; lia|done|].
    intros x. rewrite -Hlk. simpl.
    destruct (N.eqb_spec (digit_of l c0) (nibble x l)) as [|Hne]; [done|]. simpl.
    apply (lookup_outside c0 x (l + 1)); [by apply Hwf'; left|lia|].
    rewrite agree_succ. intros [_ Heq]. by destruct Hne.
  - set (kept := c0 :: c1 :: rest) in *.
    set (bits := foldl _ 0 kept).
    assert (names bits (digit_of l <$> kept)) as Hbits.
    { intros d. unfold bits. rewrite fold_bits N.bits_0. naive_solver. }
    pose proof (first_key_agree _ _ _ Hk') as Hag. simpl in Hag.
    assert (wf (Branch l bits (sum_len kept) (node_key c0) kept)) as Hw.
    { eapply wf_branch_intro; try done. simpl. lia. }
    split_and!; [done|done|by apply agree_sym|]. intros x. rewrite -Hlk.
    inversion Hw; subst. by rewrite lookup_branch.
Qed.
End selected.
