(* ===== verification/Clock.v ===== *)
(** * Actor clocks ([src/src/clock.rs])

    [ActorClock] over the trie of [Trie.v], its traversal, equality and wire form,
    and the instance of the interface [ClockImpl] of [ClockSpec.v], through which the
    rest of the development uses clocks.
    The specification of a clock is the finite map [clock_map] from actors to
    positions, which is what the [BTreeMap] the type replaced was. *)

From S2P Require Import Prelude Ids ClockSpec Nibble Trie.

#[local] Open Scope N_scope.

(** [pub struct ActorClock { root: Option<Arc<Node>> }] *)
Record ActorClock := MkClock { root : option Node }.

(** ** Traversal *)

(** [impl Iterator for ClockCursor]: one call of [next]. The head of the list is the
    top of the stack. [None] when the fuel ran out, [Some None] at the end. *)
Fixpoint cursor_next (fuel : nat) (stack : list Node)
    : option (option ((ActorId * N) * list Node)) :=
  match stack with
  | [] => Some None
  | Leaf actor seq :: stack' => Some (Some ((actor, seq), stack'))
  | Branch _ _ _ _ children :: stack' =>
      match fuel with O => None | S fuel' => cursor_next fuel' (children ++ stack') end
  end.

(** [ActorClock::cursor] *)
Definition cursor (c : ActorClock) : list Node := option_list (root c).

Fixpoint node_count (n : Node) : nat :=
  match n with
  | Leaf _ _ => 1
  | Branch _ _ _ _ children => S (foldr (λ c s, node_count c + s)%nat O children)
  end.
Definition stack_count (stack : list Node) : nat :=
  foldr (λ c s, node_count c + s)%nat O stack.

(** A traversal run to its end: [next] until it returns [None]. *)
Fixpoint drain (fuel : nat) (stack : list Node) : list (ActorId * N) :=
  match fuel with
  | O => []
  | S fuel' =>
      match cursor_next (stack_count stack) stack with
      | Some (Some (entry, stack')) => entry :: drain fuel' stack'
      | _ => []
      end
  end.

(** [ActorClock::iter], collected. *)
Definition iter (c : ActorClock) : list (ActorId * N) :=
  drain (stack_count (cursor c)) (cursor c).

(** ** Operations *)

Definition new : ActorClock := {| root := None |}.

(** [fn entry(&self, actor: &ActorId) -> Option<u64>] *)
Definition entry (c : ActorClock) (actor : ActorId) : option N :=
  match root c with Some n => lookup n actor | None => None end.

(** [pub fn get(&self, actor: &ActorId) -> u64] *)
Definition get (c : ActorClock) (actor : ActorId) : N := default 0 (entry c actor).

(** [fn put(&mut self, actor: ActorId, seq: Option<u64>)] *)
Definition put (c : ActorClock) (actor : ActorId) (seq : option N) : ActorClock :=
  if decide (entry c actor = seq) then c
  else
    match root c with
    | Some n => {| root := set_node n actor seq |}
    | None => {| root := leaf actor <$> seq |}
    end.

(** [pub fn advance(&mut self, actor: ActorId) -> u64] *)
Definition advance (c : ActorClock) (actor : ActorId) : N * ActorClock :=
  let next := saturating_add (get c actor) 1 in
  (next, put c actor (Some next)).

(** [pub fn observe(&mut self, actor: ActorId, seq: u64)] *)
Definition observe (c : ActorClock) (actor : ActorId) (seq : N) : ActorClock :=
  let current := entry c actor in
  put c actor (Some (N.max (default 0 current) seq)).

(** [pub fn set(&mut self, actor: ActorId, seq: u64)] *)
Definition set (c : ActorClock) (actor : ActorId) (seq : N) : ActorClock :=
  put c actor (if seq =? 0 then None else Some seq).

Definition is_empty (c : ActorClock) : bool :=
  match root c with None => true | Some _ => false end.

(** [pub(crate) fn len(&self) -> usize] *)
Definition len (c : ActorClock) : N := from_option node_len 0 (root c).

(** [pub(crate) fn allocation_bound(entries: usize) -> usize], for the build's
    [size_of::<Node>()] and a pointer size of eight. *)
Definition allocation_bound (size_of_Node : N) (entries : N) : N :=
  let node := size_of_Node + 2 * 8 + 16 in
  saturating_mul entries (2 * node + 16 * 8 + 16).

(** [pub fn intersect(&self, other: &Self) -> Self] *)
Definition intersect (self other : ActorClock) : ActorClock :=
  let '(small, large) := if len self <=? len other then (self, other) else (other, self) in
  foldl (λ clock '(actor, counter),
    match entry large actor with
    | Some held => put clock actor (Some (N.min counter held))
    | None => clock
    end) new (iter small).

Section shared.
Context `{PtrEq}.

(** [pub fn merge(&mut self, other: &Self)] *)
Definition merge (self other : ActorClock) : ActorClock :=
  {| root :=
       match root self, root other with
       | Some own, Some theirs => Some (union own theirs)
       | own, theirs => match own with Some _ => own | None => theirs end
       end |}.

(** [Arc::ptr_eq] of two roots. *)
Definition shared (self other : ActorClock) : bool :=
  match root self, root other with
  | Some own, Some theirs => ptr_eq own theirs
  | _, _ => false
  end.

(** [pub fn dominates(&self, other: &Self) -> bool] *)
Definition dominates (self other : ActorClock) : bool :=
  shared self other ||
  forallb (λ '(actor, counter), counter <=? get self actor) (iter other).

(** [pub(crate) fn selected(&self, actors: &BTreeSet<ActorId>) -> Self] *)
Definition selected (self : ActorClock) (actors : gset ActorId) : ActorClock :=
  if len self <=? saturating_mul (N.of_nat (size actors)) 2 then
    {| root := root self ≫= λ node, selected_node node actors |}
  else
    foldl (λ clock actor,
      match entry self actor with
      | Some seq => put clock actor (Some seq)
      | None => clock
      end) new (bt_elements actors).

(** [impl PartialEq for ActorClock] *)
Definition clock_eq (self other : ActorClock) : bool :=
  shared self other ||
  ((len self =? len other) && bool_decide (iter self = iter other)).
End shared.

(** [impl Deserialize for ActorClock]: the entries of the wire's [BTreeMap]. *)
Definition from_entries (wire : gmap ActorId N) : ActorClock :=
  foldl (λ clock '(actor, seq), put clock actor (Some seq)) new (bt_entries wire).

(** ** Well-formed clocks and their maps *)

Definition wf_clock (c : ActorClock) : Prop := ∀ n, root c = Some n → wf n.

(** The specification value of a clock. *)
Definition clock_map (c : ActorClock) : gmap ActorId N := list_to_map (iter c).

Lemma node_count_pos n : (0 < node_count n)%nat.
Proof. destruct n; simpl; lia. Qed.

Lemma stack_count_app s1 s2 : stack_count (s1 ++ s2) = (stack_count s1 + stack_count s2)%nat.
Proof. unfold stack_count. induction s1 as [|n s1 IH]; simpl; lia. Qed.

Definition stack_entries (stack : list Node) : list (ActorId * N) := mjoin (entries <$> stack).

(** One call of [next] takes the first remaining entry and leaves the others. *)
Lemma cursor_next_spec fuel stack :
  (stack_count stack ≤ fuel)%nat →
  match cursor_next fuel stack with
  | Some (Some (e, stack')) => stack_entries stack = e :: stack_entries stack' ∧
      (stack_count stack' < stack_count stack)%nat
  | Some None => stack_entries stack = []
  | None => False
  end.
Proof.
  revert stack. induction fuel as [|fuel IH]; intros [|[a s|l bm ln k cs] stack] Hf; simpl in *.
  - done.
  - lia.
  - lia.
  - done.
  - split; [done|lia].
  - specialize (IH (cs ++ stack)). rewrite stack_count_app in IH.
    change (foldr _ O cs) with (stack_count cs) in *.
    destruct (cursor_next fuel (cs ++ stack)) as [[[e stack']|]|].
    + destruct IH as [Heq Hlt]; [lia|]. split; [|lia].
      rewrite -Heq. unfold stack_entries. simpl. by rewrite fmap_app join_app.
    + rewrite -IH; [lia|]. unfold stack_entries. simpl. by rewrite fmap_app join_app.
    + apply IH. lia.
Qed.

Lemma drain_entries fuel stack :
  (stack_count stack ≤ fuel)%nat → drain fuel stack = stack_entries stack.
Proof.
  revert stack. induction fuel as [|fuel IH]; intros stack Hf; simpl.
  - destruct stack as [|n stack]; [done|]. simpl in Hf. pose proof (node_count_pos n). lia.
  - pose proof (cursor_next_spec (stack_count stack) stack ltac:(done)) as Hn.
    destruct (cursor_next _ stack) as [[[e stack']|]|]; [|done..].
    destruct Hn as [-> ?]. f_equal. apply IH. lia.
Qed.

Lemma iter_entries c : iter c = from_option entries [] (root c).
Proof.
  unfold iter. rewrite drain_entries //. unfold cursor, stack_entries.
  destruct (root c); simpl; [by rewrite app_nil_r|done].
Qed.

Lemma iter_sorted c : wf_clock c → StronglySorted blt (iter c).*1.
Proof.
  intros Hwf. rewrite iter_entries. destruct (root c) as [n|] eqn:Hn; simpl; [|constructor].
  by apply entries_sorted, Hwf.
Qed.

Lemma iter_NoDup c : wf_clock c → NoDup (iter c).*1.
Proof.
  intros Hwf%iter_sorted. induction Hwf as [|x l Hs IH Hall]; [constructor|].
  constructor; [|done]. rewrite Forall_forall in Hall. intros Hx%Hall.
  by apply blt_irrefl in Hx.
Qed.

Lemma elem_of_iter c a s : wf_clock c → (a, s) ∈ iter c ↔ entry c a = Some s.
Proof.
  intros Hwf. rewrite iter_entries. unfold entry.
  destruct (root c) as [n|] eqn:Hn; simpl.
  - by rewrite lookup_entries; [apply Hwf|].
  - split; [by intros ?%elem_of_nil|done].
Qed.

Lemma lookup_clock_map c a : wf_clock c → clock_map c !! a = entry c a.
Proof.
  intros Hwf. apply option_eq. intros s. unfold clock_map.
  rewrite -elem_of_list_to_map; [by apply iter_NoDup|]. by apply elem_of_iter.
Qed.

Lemma clock_len c : wf_clock c → len c = N.of_nat (length (iter c)).
Proof.
  intros Hwf. rewrite iter_entries. unfold len.
  destruct (root c) as [n|] eqn:Hn; simpl; [|done]. by apply entries_length, Hwf.
Qed.

Lemma get_clock_map c a : wf_clock c → get c a = default 0 (clock_map c !! a).
Proof. intros. by rewrite lookup_clock_map. Qed.

Lemma wf_new : wf_clock new.
Proof. by intros n. Qed.

Lemma put_spec c a s :
  wf_clock c → wf_clock (put c a s) ∧
  ∀ b, entry (put c a s) b = if decide (b = a) then s else entry c b.
Proof.
  intros Hwf. unfold put. case_decide as Heq.
  { split; [done|]. intros b. by case_decide; subst. }
  destruct (root c) as [n|] eqn:Hn.
  - pose proof (set_node_spec n a s 0 (Hwf n Hn) ltac:(lia) ltac:(intros ? ?; lia)) as Hs.
    unfold entry. rewrite Hn. simpl. destruct (set_node n a s) as [n'|] eqn:Hn'.
    + destruct Hs as (? & _ & _ & Hlk). split; [by intros ? [= <-]|done].
    + destruct Hs as [-> Hlk]. split; [by intros ?|]. intros b.
      case_decide; [done|]. symmetry. by apply Hlk.
  - unfold entry. rewrite Hn. destruct s as [s|]; simpl.
    + split; [intros ? [= <-]; constructor|]. intros b. repeat case_decide; congruence.
    + split; [by intros ?|]. intros b. by case_decide.
Qed.

Lemma put_map c a s :
  wf_clock c → clock_map (put c a s) = partial_alter (λ _, s) a (clock_map c).
Proof.
  intros Hwf. destruct (put_spec c a s Hwf) as [Hwf' Hlk]. apply map_eq. intros b.
  rewrite lookup_clock_map // Hlk. case_decide as Hb.
  - subst. by rewrite lookup_partial_alter_eq.
  - by rewrite lookup_partial_alter_ne // lookup_clock_map.
Qed.

Lemma wf_put c a s : wf_clock c → wf_clock (put c a s).
Proof. intros. by apply put_spec. Qed.

Create HintDb clock discriminated.
#[export] Hint Resolve wf_new wf_put : clock.

(** ** Refinement of the map *)

Lemma observe_map c a s :
  wf_clock c → clock_map (observe c a s) = <[a := N.max (get c a) s]> (clock_map c).
Proof. intros. unfold observe. by rewrite put_map. Qed.

Lemma wf_observe c a s : wf_clock c → wf_clock (observe c a s).
Proof. apply wf_put. Qed.

Lemma clock_set_map c a s :
  wf_clock c →
  clock_map (set c a s) = if s =? 0 then delete a (clock_map c) else <[a := s]> (clock_map c).
Proof. intros. unfold set. rewrite put_map //. by destruct (s =? 0). Qed.

Lemma is_empty_map c : wf_clock c → is_empty c = bool_decide (clock_map c = ∅).
Proof.
  intros Hwf. unfold is_empty. destruct (root c) as [n|] eqn:Hn.
  - symmetry. apply bool_decide_eq_false. intros Hempty.
    pose proof (clock_len c Hwf) as Hlen. pose proof (entries_length n (Hwf n Hn)) as Hnl.
    assert (∃ a s, (a, s) ∈ iter c) as (a & s & Hin).
    { rewrite iter_entries Hn. simpl. specialize (Hwf n Hn). clear -Hwf.
      induction n as [a s|l bm ln k cs IH] using Node_ind'; [exists a, s; by left|].
      inversion Hwf as [|? ? ? ? ? _ Hlen Hcs _ _ _]; subst.
      destruct cs as [|c cs]; [simpl in Hlen; lia|].
      apply Forall_cons in IH as [IH _]. apply Forall_cons in Hcs as [Hc _].
      destruct (IH Hc) as (a & s & Has). exists a, s. apply entries_branch.
      exists c. split; [by left|done]. }
    apply elem_of_iter in Hin; [|done]. rewrite -lookup_clock_map // Hempty in Hin. done.
  - symmetry. apply bool_decide_eq_true. unfold clock_map. by rewrite iter_entries Hn.
Qed.

Lemma len_map c : wf_clock c → len c = N.of_nat (size (clock_map c)).
Proof.
  intros Hwf. rewrite clock_len //. unfold clock_map. f_equal.
  rewrite -length_map_to_list map_to_list_to_map //. by apply iter_NoDup.
Qed.

(** Two clocks iterate the same way exactly when they hold the same entries. *)
Lemma iter_map_eq c d :
  wf_clock c → wf_clock d → iter c = iter d ↔ clock_map c = clock_map d.
Proof.
  intros Hc Hd. split; [unfold clock_map; by intros ->|]. intros Heq.
  assert (∀ a s, (a, s) ∈ iter c ↔ (a, s) ∈ iter d) as Hiff.
  { intros a s. by rewrite !elem_of_iter // -!lookup_clock_map // Heq. }
  assert ((iter c).*1 = (iter d).*1) as Hfst.
  { apply sorted_blt_unique; [by apply iter_sorted..|]. intros a.
    rewrite !list_elem_of_fmap. split; intros ([? s] & -> & Hin); exists (i, s);
      (split; [done|]); by apply Hiff. }
  apply list_eq. intros i. apply option_eq. intros [a s].
  assert (∀ e f : ActorClock, wf_clock e → wf_clock f → (iter e).*1 = (iter f).*1 →
    (∀ a s, (a, s) ∈ iter e ↔ (a, s) ∈ iter f) →
    iter e !! i = Some (a, s) → iter f !! i = Some (a, s)) as Hone.
  { clear. intros e f He Hf Hfst Hiff Hi.
    assert ((iter f).*1 !! i = Some a) as Hfi by by rewrite -Hfst list_lookup_fmap Hi.
    rewrite list_lookup_fmap in Hfi. destruct (iter f !! i) as [[a' t]|] eqn:Ht; simplify_eq/=.
    apply list_elem_of_lookup_2, Hiff in Hi. apply list_elem_of_lookup_2 in Ht.
    rewrite elem_of_iter // in Hi. rewrite elem_of_iter // in Ht. congruence. }
  split; apply Hone; done || by intros; rewrite Hiff.
Qed.

Lemma foldl_put_map (f : ActorId → N → option N) (l : list (ActorId * N)) c :
  wf_clock c → NoDup l.*1 →
  let step := λ clock '(actor, seq),
    match f actor seq with Some s => put clock actor (Some s) | None => clock end in
  wf_clock (foldl step c l) ∧
  ∀ b, clock_map (foldl step c l) !! b =
    match (list_to_map l : gmap ActorId N) !! b ≫= f b with
    | Some s => Some s
    | None => clock_map c !! b
    end.
Proof.
  intros Hwf Hnd step. revert c Hwf. induction l as [|[a s] l IH]; intros c Hwf; simpl.
  { split; [done|]. intros b. by rewrite lookup_empty. }
  apply NoDup_cons in Hnd as [Ha Hnd]. specialize (IH Hnd).
  assert ((list_to_map l : gmap ActorId N) !! a = None) as Hnone by by apply not_elem_of_list_to_map.
  destruct (f a s) as [t|] eqn:Hf.
  - destruct (IH (put c a (Some t))) as [Hw Hlk]; [by apply wf_put|]. split; [done|].
    intros b. rewrite Hlk put_map //. destruct (decide (a = b)) as [<-|Hne].
    + rewrite Hnone lookup_insert_eq /= lookup_partial_alter_eq Hf. done.
    + rewrite lookup_insert_ne // lookup_partial_alter_ne //.
  - destruct (IH c Hwf) as [Hw Hlk]. split; [done|]. intros b. rewrite Hlk.
    destruct (decide (a = b)) as [<-|Hne].
    + by rewrite Hnone lookup_insert_eq /= Hf.
    + by rewrite lookup_insert_ne.
Qed.

Lemma intersect_spec c d :
  wf_clock c → wf_clock d → wf_clock (intersect c d) ∧
  clock_map (intersect c d) =
    intersection_with (λ s t, Some (N.min s t)) (clock_map c) (clock_map d).
Proof.
  intros Hc Hd. unfold intersect.
  assert (∀ small large, wf_clock small → wf_clock large →
    let r := foldl (λ clock '(actor, counter),
      match entry large actor with
      | Some held => put clock actor (Some (N.min counter held))
      | None => clock
      end) new (iter small) in
    wf_clock r ∧ ∀ b, clock_map r !! b =
      match clock_map small !! b, clock_map large !! b with
      | Some s, Some t => Some (N.min s t) | _, _ => None end) as Hfold.
  { intros small large Hs Hl r.
    destruct (foldl_put_map (λ a s, N.min s <$> entry large a) (iter small) new wf_new)
      as [Hw Hlk]; [by apply iter_NoDup|].
    assert (r = foldl (λ clock '(actor, seq),
      match N.min seq <$> entry large actor with
      | Some s => put clock actor (Some s) | None => clock end) new (iter small)) as ->.
    { unfold r. clear Hw Hlk r. generalize new. induction (iter small) as [|[a s] l IH]; intros e; [done|].
      simpl. destruct (entry large a); simpl; apply IH. }
    split; [done|]. intros b. rewrite Hlk. fold (clock_map small).
    rewrite -lookup_clock_map //.
    destruct (clock_map small !! b); simpl; [|done]. by destruct (clock_map large !! b). }
  destruct (len c <=? len d); [destruct (Hfold c d)|destruct (Hfold d c)]; try done;
    (split; [done|]); apply map_eq; intros b; rewrite lookup_intersection_with;
    match goal with H : ∀ b, clock_map _ !! b = _ |- _ => rewrite H end;
    destruct (clock_map c !! b), (clock_map d !! b); simpl; try done.
  by rewrite N.min_comm.
Qed.

Lemma from_entries_spec (wire : gmap ActorId N) :
  wf_clock (from_entries wire) ∧ clock_map (from_entries wire) = wire.
Proof.
  pose proof (bt_entries_NoDup wire) as Hnd.
  destruct (foldl_put_map (λ _ s, Some s) (bt_entries wire) new wf_new Hnd) as [Hw Hlk].
  split; [exact Hw|]. apply map_eq. intros b. rewrite Hlk list_to_map_bt_entries.
  by destruct (wire !! b).
Qed.

(** The loop of [selected] that looks every requested actor up. *)
Lemma foldl_select c (l : list ActorId) e :
  NoDup l → wf_clock e →
  let r := foldl (λ clock actor, match entry c actor with
    | Some seq => put clock actor (Some seq) | None => clock end) e l in
  wf_clock r ∧ ∀ b, entry r b =
    if decide (b ∈ l) then match entry c b with Some s => Some s | None => entry e b end
    else entry e b.
Proof.
  revert e. induction l as [|a l IH]; intros e Hnd He; cbn [foldl].
  { split; [done|]. intros b. case_decide as Hb; [by apply elem_of_nil in Hb|done]. }
  apply NoDup_cons in Hnd as [Ha Hnd].
  assert (∀ b, b ≠ a → b ∈ l ↔ b ∈ a :: l) as Hcons.
  { intros b Hne. rewrite elem_of_cons. naive_solver. }
  destruct (entry c a) as [s|] eqn:Hs.
  - destruct (IH (put e a (Some s)) Hnd) as [Hw Hlk]; [by apply wf_put|].
    split; [done|]. intros b. rewrite Hlk. destruct (put_spec e a (Some s) He) as [_ ->].
    destruct (decide (b = a)) as [->|Hne].
    + rewrite decide_False // decide_True; [by left|]. by rewrite Hs.
    + by rewrite (decide_ext _ _ _ _ (Hcons b Hne)).
  - destruct (IH e Hnd He) as [Hw Hlk]. split; [done|]. intros b. rewrite Hlk.
    destruct (decide (b = a)) as [->|Hne].
    + rewrite decide_False // decide_True; [by left|]. by rewrite Hs.
    + by rewrite (decide_ext _ _ _ _ (Hcons b Hne)).
Qed.

Section refinement.
Context `{PtrEq}.

Lemma merge_spec c d :
  wf_clock c → wf_clock d → wf_clock (merge c d) ∧
  clock_map (merge c d) =
    union_with (λ s t, Some (N.max s t)) (clock_map c) (clock_map d).
Proof.
  intros Hc Hd.
  assert (wf_clock (merge c d) ∧ ∀ b, entry (merge c d) b = mx (entry c b) (entry d b))
    as [Hw Hlk].
  { unfold merge, entry, wf_clock in *.
    destruct (root c) as [n|], (root d) as [m|]; simpl.
    - destruct (union_spec n m) as [Hw Hlk]; [auto..|]. split; [by intros ? [= <-]|done].
    - split; [done|]. intros b. by destruct (lookup n b).
    - split; [done|]. intros b. by destruct (lookup m b).
    - split; done. }
  split; [done|]. apply map_eq. intros b.
  by rewrite lookup_union_with !lookup_clock_map // Hlk.
Qed.

Lemma shared_eq c d : shared c d = true → c = d.
Proof.
  destruct c as [[n|]], d as [[m|]]; unfold shared; simpl; try done.
  by intros ->%ptr_eq_sound.
Qed.

Lemma dominates_spec c d :
  wf_clock c → wf_clock d →
  dominates c d = true ↔
    ∀ a s, clock_map d !! a = Some s → s ≤ default 0 (clock_map c !! a).
Proof.
  intros Hc Hd. unfold dominates. destruct (shared c d) eqn:Hsh; simpl.
  { apply shared_eq in Hsh as <-. split; [|done]. by intros _ a s ->. }
  rewrite forallb_forall. split.
  - intros Hall a s Has. rewrite lookup_clock_map // -elem_of_iter // list_elem_of_In in Has.
    specialize (Hall _ Has). simpl in Hall. rewrite -get_clock_map //. by apply N.leb_le.
  - intros Hall [a s] Hin%list_elem_of_In. apply elem_of_iter in Hin; [|done].
    rewrite -lookup_clock_map // in Hin. apply N.leb_le. rewrite get_clock_map //. by apply Hall.
Qed.

Lemma selected_spec c actors :
  wf_clock c → wf_clock (selected c actors) ∧
  clock_map (selected c actors) = filter (λ e, e.1 ∈ actors) (clock_map c).
Proof.
  intros Hc.
  assert (wf_clock (selected c actors) ∧ ∀ b, entry (selected c actors) b =
    if decide (b ∈ actors) then entry c b else None) as [Hw Hlk].
  { unfold selected. destruct (_ <=? _).
    - unfold entry, wf_clock in *. destruct (root c) as [n|]; simpl.
      + pose proof (selected_node_spec n actors (Hc n eq_refl)) as Hs.
        destruct (selected_node n actors) as [n'|]; simpl in *.
        * destruct Hs as (? & _ & _ & Hlk). split; [by intros ? [= <-]|done].
        * split; [by intros|]. intros b. case_decide; [|done]. symmetry. auto.
      + split; [by intros|]. intros b. by case_decide.
    - pose proof (bt_elements_NoDup actors) as Hnd.
      pose proof (elem_of_bt_elements actors) as Hel.
      destruct (foldl_select c (bt_elements actors) new Hnd wf_new) as [Hw Hlk]. split; [done|].
      intros b. rewrite Hlk. unfold entry at 2 3. simpl.
      destruct (decide (b ∈ actors)) as [Hb|Hb].
      + rewrite decide_True; [by apply Hel|]. by destruct (entry c b).
      + rewrite decide_False //. by rewrite Hel. }
  split; [done|]. apply map_eq. intros b. rewrite lookup_clock_map // Hlk.
  rewrite map_lookup_filter lookup_clock_map //.
  destruct (entry c b); simpl; repeat case_decide; simpl; by repeat case_guard.
Qed.

(** [==] on clocks is equality of their entries. *)
Lemma clock_eq_spec c d :
  wf_clock c → wf_clock d → clock_eq c d = true ↔ clock_map c = clock_map d.
Proof.
  intros Hc Hd. unfold clock_eq. destruct (shared c d) eqn:Hsh; simpl.
  { by apply shared_eq in Hsh as <-. }
  rewrite andb_true_iff N.eqb_eq bool_decide_eq_true iter_map_eq //.
  split; [by intros []|]. intros Heq. by rewrite !len_map // Heq.
Qed.
End refinement.

(** ** The clock as an abstract data type

    Every way the program builds a clock, as an expression; [run] builds it with
    the trie, [denote] says which map it stands for. *)
Inductive expr :=
  | ENew
  | EWire (wire : gmap ActorId N)
  | EObserve (e : expr) (actor : ActorId) (seq : N)
  | ESet (e : expr) (actor : ActorId) (seq : N)
  | EAdvance (e : expr) (actor : ActorId)
  | EMerge (e1 e2 : expr)
  | EIntersect (e1 e2 : expr)
  | ESelected (e : expr) (actors : gset ActorId).

Fixpoint denote (e : expr) : gmap ActorId N :=
  match e with
  | ENew => ∅
  | EWire wire => wire
  | EObserve e a s => <[a := N.max (default 0 (denote e !! a)) s]> (denote e)
  | ESet e a s => if s =? 0 then delete a (denote e) else <[a := s]> (denote e)
  | EAdvance e a => <[a := saturating_add (default 0 (denote e !! a)) 1]> (denote e)
  | EMerge e1 e2 => union_with (λ s t, Some (N.max s t)) (denote e1) (denote e2)
  | EIntersect e1 e2 => intersection_with (λ s t, Some (N.min s t)) (denote e1) (denote e2)
  | ESelected e actors => filter (λ p, p.1 ∈ actors) (denote e)
  end.

Lemma iter_bt_entries c : wf_clock c → iter c = bt_entries (clock_map c).
Proof.
  intros Hc.
  assert ((iter c).*1 = (bt_entries (clock_map c)).*1) as Hfst.
  { rewrite bt_entries_keys. apply sorted_blt_unique; [by apply iter_sorted|apply bt_elements_sorted|].
    intros a. rewrite elem_of_bt_elements elem_of_dom.
    rewrite list_elem_of_fmap lookup_clock_map //. split.
    - intros ([? s] & -> & Hin). apply elem_of_iter in Hin; [|done]. by eexists.
    - intros [s Hs']. exists (a, s). split; [done|]. by apply elem_of_iter. }
  assert (∀ l k : list (ActorId * N), l.*1 = k.*1 →
    (∀ a s t, (a, s) ∈ l → (a, t) ∈ k → s = t) → l = k) as Hext.
  { clear. induction l as [|[a s] l IH]; intros [|[b t] k] Heq Hall; try done; simplify_eq/=.
    rewrite (Hall b s t); [by left|by left|]. f_equal. apply IH; [done|].
    intros a' s' t' ? ?. apply (Hall a'); by right. }
  apply Hext; [done|]. intros a s t Hs' Ht'. apply elem_of_iter in Hs'; [|done].
  apply elem_of_bt_entries in Ht'. rewrite lookup_clock_map // in Ht'. congruence.
Qed.

Section adt.
Context `{PtrEq}.

Fixpoint run (e : expr) : ActorClock :=
  match e with
  | ENew => new
  | EWire wire => from_entries wire
  | EObserve e a s => observe (run e) a s
  | ESet e a s => set (run e) a s
  | EAdvance e a => (advance (run e) a).2
  | EMerge e1 e2 => merge (run e1) (run e2)
  | EIntersect e1 e2 => intersect (run e1) (run e2)
  | ESelected e actors => selected (run e) actors
  end.

Lemma run_denote e : wf_clock (run e) ∧ clock_map (run e) = denote e.
Proof.
  induction e as [|w|e [IH IHm] a s|e [IH IHm] a s|e [IH IHm] a|e1 [IH1 IHm1] e2 [IH2 IHm2]
    |e1 [IH1 IHm1] e2 [IH2 IHm2]|e [IH IHm] actors]; simpl.
  - split; [apply wf_new|done].
  - apply from_entries_spec.
  - split; [by apply wf_observe|]. by rewrite observe_map // get_clock_map // IHm.
  - split; [by apply wf_put|]. by rewrite clock_set_map // IHm.
  - split; [by apply wf_put|]. by rewrite put_map // get_clock_map // IHm.
  - rewrite -IHm1 -IHm2. by apply merge_spec.
  - rewrite -IHm1 -IHm2. by apply intersect_spec.
  - rewrite -IHm. by apply selected_spec.
Qed.

(** C17: a clock built by any sequence of [observe], [set], [advance],
    [merge], [intersect], [selected] and decoding is a well-formed trie that stands
    for exactly the map those operations describe: [get] reads it, [iter] lists its
    entries once each in ascending actor order, [len] counts them and [is_empty]
    tells when there are none. *)
Theorem clock_refines_map e a :
  wf_clock (run e) ∧ clock_map (run e) = denote e ∧
  get (run e) a = default 0 (denote e !! a) ∧
  iter (run e) = bt_entries (denote e) ∧
  len (run e) = N.of_nat (size (denote e)) ∧
  is_empty (run e) = bool_decide (denote e = ∅).
Proof.
  destruct (run_denote e) as [Hw <-]. split_and!; [done..|by apply get_clock_map| | |].
  - by apply iter_bt_entries.
  - by apply len_map.
  - by apply is_empty_map.
Qed.

Lemma dominates_get c d :
  wf_clock c → wf_clock d → dominates c d = true ↔ ∀ a, get d a ≤ get c a.
Proof.
  intros Hc Hd. rewrite dominates_spec //. setoid_rewrite (get_clock_map c); [|done].
  setoid_rewrite (get_clock_map d); [|done]. split; intros Hle a.
  - destruct (clock_map d !! a) as [s|] eqn:Hs; simpl; [by apply Hle|lia].
  - intros s Hs. specialize (Hle a). by rewrite Hs in Hle.
Qed.

Lemma merge_get c d a :
  wf_clock c → wf_clock d → get (merge c d) a = N.max (get c a) (get d a).
Proof.
  intros Hc Hd. destruct (merge_spec c d Hc Hd) as [Hw Hm].
  rewrite !get_clock_map // Hm lookup_union_with.
  destruct (clock_map c !! a), (clock_map d !! a); simpl; lia.
Qed.

(** On clocks the program can build, whichever allocations they share,
    [==] is equality of the entries, [dominates] is the pointwise order of the
    positions, and [merge] is its least upper bound. *)
Theorem clock_order_lattice e1 e2 e3 :
  (clock_eq (run e1) (run e2) = true ↔ denote e1 = denote e2) ∧
  (dominates (run e1) (run e2) = true ↔
    ∀ a, default 0 (denote e2 !! a) ≤ default 0 (denote e1 !! a)) ∧
  dominates (merge (run e1) (run e2)) (run e1) = true ∧
  dominates (merge (run e1) (run e2)) (run e2) = true ∧
  (dominates (run e3) (merge (run e1) (run e2)) = true ↔
    dominates (run e3) (run e1) = true ∧ dominates (run e3) (run e2) = true).
Proof.
  destruct (run_denote e1) as [H1 M1], (run_denote e2) as [H2 M2], (run_denote e3) as [H3 _].
  destruct (merge_spec _ _ H1 H2) as [Hm _].
  rewrite clock_eq_spec // -M1 -M2. rewrite !dominates_get //.
  setoid_rewrite merge_get; [|done..]. split_and!; [done| |intros; lia..|].
  - setoid_rewrite get_clock_map; [|done..]. done.
  - split; [intros Hle; split; intros a; specialize (Hle a); lia|].
    intros [Ha Hb] a. specialize (Ha a). specialize (Hb a). lia.
Qed.
End adt.

(** ** The interface is implemented *)

(** A clock with the invariant of its trie. *)
Record wclock := WClock { wc_clock : ActorClock; wc_wf : wf_clock wc_clock }.

(** [clock.rs] implements the interface. *)
#[global] Program Instance trie_clock `{PtrEq} : ClockImpl wclock := {|
  ck_view c := clock_map (wc_clock c);
  ck_new := WClock new wf_new;
  ck_get c := get (wc_clock c);
  ck_set c a s := WClock (set (wc_clock c) a s) _;
  ck_observe c a s := WClock (observe (wc_clock c) a s) _;
  ck_merge c d := WClock (merge (wc_clock c) (wc_clock d)) _;
  ck_intersect c d := WClock (intersect (wc_clock c) (wc_clock d)) _;
  ck_select c actors := WClock (selected (wc_clock c) actors) _;
  ck_dominates c d := dominates (wc_clock c) (wc_clock d);
  ck_eqb c d := clock_eq (wc_clock c) (wc_clock d);
  ck_iter c := iter (wc_clock c);
  ck_len c := len (wc_clock c);
  ck_is_empty c := is_empty (wc_clock c);
|}.
Next Obligation. intros ? [c Hc] a s. by apply wf_put. Qed.
Next Obligation. intros ? [c Hc] a s. by apply wf_observe. Qed.
Next Obligation. intros ? [c Hc] [d Hd]. by apply merge_spec. Qed.
Next Obligation. intros ? [c Hc] [d Hd]. by apply intersect_spec. Qed.
Next Obligation. intros ? [c Hc] actors. by apply selected_spec. Qed.
Next Obligation. done. Qed.
Next Obligation. intros ? [c Hc] a. by apply get_clock_map. Qed.
Next Obligation. intros ? [c Hc] a s. by apply clock_set_map. Qed.
Next Obligation. intros ? [c Hc] a s. cbn [wc_clock]. by rewrite observe_map // get_clock_map. Qed.
Next Obligation. intros ? [c Hc] [d Hd]. by apply merge_spec. Qed.
Next Obligation. intros ? [c Hc] [d Hd]. by apply intersect_spec. Qed.
Next Obligation. intros ? [c Hc] actors. by apply selected_spec. Qed.
Next Obligation.
  intros ? [c Hc] [d Hd]. cbn [wc_clock]. rewrite dominates_get //.
  setoid_rewrite get_clock_map; done.
Qed.
Next Obligation. intros ? [c Hc] [d Hd]. by apply clock_eq_spec. Qed.
Next Obligation. intros ? [c Hc]. by apply iter_bt_entries. Qed.
Next Obligation. intros ? [c Hc]. by apply len_map. Qed.
Next Obligation. intros ? [c Hc]. by apply is_empty_map. Qed.
