(* ===== verification/Types.v ===== *)
(** * Shared data types ([src/src/op.rs], [topic.rs], [event.rs], [error.rs],
    [crypto.rs], [storage/record.rs])

    The signed operations, the topic configuration and control payloads, the errors
    and the stored records. Types that hold an [ActorClock] take the clock type as a
    parameter, used through [ClockImpl]. *)

From S2P Require Import Prelude Ids Frame ClockSpec.

#[local] Open Scope N_scope.

(** ** Topics ([topic.rs], [event.rs]) *)

Definition DEFAULT_MAX_SYNC_PEERS : N := 8.

Record ReplicationPolicy := {
  selected_peers : gset PeerId;
  max_sync_peers : N;
}.

(** [ReplicationPolicy::all], also the [Default] *)
Definition policy_all : ReplicationPolicy :=
  {| selected_peers := ∅; max_sync_peers := DEFAULT_MAX_SYNC_PEERS |}.

Record TopicGenesis := {
  event_type_id : string;
  initial_peers : gset PeerId;
  replication_policy : ReplicationPolicy;
}.

Record EventEnvelope := {
  type_id : string;
  ev_payload : list N;
}.

Inductive TopicControl :=
  | AddPeer (peer : PeerId)
  | RemovePeer (peer : PeerId)
  | SetReplicationPolicy (policy : ReplicationPolicy).

Inductive TopicPayload :=
  | Genesis (genesis : TopicGenesis)
  | Event (envelope : EventEnvelope)
  | Control (control : TopicControl).

(** ** Operations ([op.rs]) *)

Record OpBody := {
  topic_id : TopicId;
  author : PeerId;
  actor_id : ActorId;
  actor_seq : N;
  actor_prev : option OpId;
  deps : gset OpId;
  generation : N;
  payload : TopicPayload;
}.

Record SignedOp := {
  body : OpBody;
  signature : list N;
}.

Record Op := {
  op_id : OpId;
  signed : SignedOp;
}.

(** [op.signed.body] *)
Definition obody (op : Op) : OpBody := body (signed op).

#[global] Instance ReplicationPolicy_eq_dec : EqDecision ReplicationPolicy.
Proof. solve_decision. Defined.
#[global] Instance TopicGenesis_eq_dec : EqDecision TopicGenesis.
Proof. solve_decision. Defined.
#[global] Instance EventEnvelope_eq_dec : EqDecision EventEnvelope.
Proof. solve_decision. Defined.
#[global] Instance TopicControl_eq_dec : EqDecision TopicControl.
Proof. solve_decision. Defined.
#[global] Instance TopicPayload_eq_dec : EqDecision TopicPayload.
Proof. solve_decision. Defined.
#[global] Instance OpBody_eq_dec : EqDecision OpBody.
Proof. solve_decision. Defined.
#[global] Instance SignedOp_eq_dec : EqDecision SignedOp.
Proof. solve_decision. Defined.
#[global] Instance Op_eq_dec : EqDecision Op.
Proof. solve_decision. Defined.

(** ** Outcomes of admission ([oplog/mod.rs]) *)

(** [oplog::EvictedOp] and [oplog::TopicEviction] *)
Record EvictedOp := {
  ev_op_id : OpId;
  ev_actor_id : ActorId;
  ev_author : PeerId;
  ev_actor_seq : N;
  ev_payload_of : TopicPayload;
}.
Record TopicEviction := {
  te_topic_id : TopicId;
  te_losing_genesis : OpId;
  te_winning_genesis : OpId;
  te_evicted : list EvictedOp;
}.

#[global] Instance EvictedOp_eq_dec : EqDecision EvictedOp.
Proof. solve_decision. Defined.
#[global] Instance TopicEviction_eq_dec : EqDecision TopicEviction.
Proof. solve_decision. Defined.

(** [oplog::Admitted] *)
Record AdmittedOps := {
  ad_accepted : gset OpId;
  ad_evictions : list TopicEviction;
  ad_ready_remaining : bool;
}.
Definition admitted_default : AdmittedOps :=
  {| ad_accepted := ∅; ad_evictions := []; ad_ready_remaining := false |}.

(** ** Errors ([error.rs])

    The variants of the transport and of the Fjall feature are left out; no modelled
    operation returns them. *)
Inductive Error :=
  | EncodeError
  | InvalidSignature
  | MissingSignature
  | AdmissionConflict
  | MemoryPressure (required limit : N)
  | InvalidPublicKey
  | InvalidOpId
  | GenerationMismatch (expected actual : N)
  | WrongSigner
  | EventTypeMismatch (expected actual : string)
  | TopicNotFound
  | TopicFull
  | NotTopicMember
  | InvalidSyncAck (why : string)
  | StaleIncarnation
  | OpTooLarge
  | ActorSeqGap (expected actual : N)
  | ActorPrevMismatch
  | ActorFork
  | ActorAuthorMismatch
  | TopicMismatch
  | MissingDependency (id : OpId)
  | InvalidGenesis
  | Decode (why : string)
  | Storage (why : string)
  | Shared (source : Error)
  | AdmissionCommitted (admitted : AdmittedOps) (source : Error)
  | SyncCapacity (why : string)
  | RejectedOp (id : OpId)
  | StagingCapacity (why : string)
  | EvictionJournalFull
  | TopicSealed.

(** [Error::cause] *)
Fixpoint cause (e : Error) : Error :=
  match e with
  | Shared source => cause source
  | _ => e
  end.

Abbreviation res := (result Error).

(** ** Signatures and identities ([crypto.rs], [op.rs], [ids.rs])

    postcard, BLAKE3 and ed25519-dalek are outside the repository. *)
Class Crypto := {
  (** [postcard::to_allocvec] of an [OpBody] and of a [SignedOp] *)
  canonical_body : OpBody → res (list N);
  canonical_signed : SignedOp → res (list N);
  (** [blake3::hash], as an id of the wanted kind *)
  blake3 : ∀ k, list N → id k;
  (** [VerifyingKey::from_bytes] *)
  VerifyingKey : Type;
  key_from_bytes : PeerId → option VerifyingKey;
  is_weak : VerifyingKey → bool;
  verify_strict : VerifyingKey → list N → list N → bool;
}.

(** [trait Signer] *)
Record Signer := {
  signer_peer_id : PeerId;
  signer_sign : list N → res (list N);
}.

(** [b"irokle/op/v1\0"] *)
Definition OP_SIGNING_DOMAIN : list N :=
  [105; 114; 111; 107; 108; 101; 47; 111; 112; 47; 118; 49; 0].

Section crypto.
Context `{Crypto}.

(** [crypto::verify] *)
Definition verify (peer : PeerId) (message sig : list N) : res unit :=
  key ← ok_or (key_from_bytes peer) InvalidPublicKey;
  if is_weak key then Err InvalidPublicKey
  else if verify_strict key message sig then Ok () else Err InvalidSignature.

Definition op_signing_message (b : OpBody) : res (list N) :=
  body_bytes ← canonical_body b;
  Ok (OP_SIGNING_DOMAIN ++ body_bytes).

(** [SignedOp::sign] *)
Definition signed_op_sign (b : OpBody) (signer : Signer) : res SignedOp :=
  if decide (author b = signer_peer_id signer) then
    message ← op_signing_message b;
    sig ← signer_sign signer message;
    Ok {| body := b; signature := sig |}
  else Err WrongSigner.

(** [SignedOp::verify] *)
Definition signed_op_verify (s : SignedOp) : res unit :=
  message ← op_signing_message (body s);
  verify (author (body s)) message (signature s).

(** [Op::derive_id] *)
Definition derive_id (s : SignedOp) : res OpId :=
  bytes ← canonical_signed s;
  Ok (blake3 KOp bytes).

(** [Op::new] *)
Definition op_new (s : SignedOp) : res Op :=
  i ← derive_id s;
  Ok {| op_id := i; signed := s |}.

(** [Op::sign] *)
Definition op_sign (b : OpBody) (signer : Signer) : res Op :=
  s ← signed_op_sign b signer;
  op_new s.

(** [Op::validate] *)
Definition op_validate (op : Op) : res unit :=
  i ← derive_id (signed op);
  if decide (op_id op = i) then signed_op_verify (signed op) else Err InvalidOpId.

(** [ids::actor_id_for] *)
Definition actor_id_for (t : TopicId) (p : PeerId) : ActorId :=
  blake3 KActor (as_bytes t ++ as_bytes p).

(** What signing promises to verification: the signer's peer id is a usable
    public key, and strict verification accepts what the signer signs. *)
Class HonestSigner (signer : Signer) : Prop := {
  signer_key : ∃ key, key_from_bytes (signer_peer_id signer) = Some key ∧
    is_weak key = false ∧
    ∀ m s, signer_sign signer m = Ok s → verify_strict key m s = true;
}.

(** An operation an honest signer signs validates everywhere, and it
    carries the body it was signed for; a body of another author is refused. *)
Theorem signed_ops_validate (b : OpBody) (signer : Signer) :
  HonestSigner signer →
  (author b ≠ signer_peer_id signer → op_sign b signer = Err WrongSigner) ∧
  ∀ op, op_sign b signer = Ok op →
    op_validate op = Ok () ∧ obody op = b ∧ author b = signer_peer_id signer.
Proof.
  intros [(key & Hkey & Hweak & Hver)]. unfold op_sign, signed_op_sign. split.
  { intros Hne. by rewrite decide_False. }
  intros op Hs. case_decide as Ha; [|done].
  apply bind_ok in Hs as (s & Hs & Hnew).
  next_ok Hs as (m & Hm & Hs). apply bind_ok in Hs as (sg & Hsg & [= <-]).
  apply bind_ok in Hnew as (i & Hi & [= <-]).
  unfold op_validate, signed_op_verify, verify. cbn [signed body op_id signature].
  rewrite Hi. res_step. rewrite decide_True // Hm. res_step.
  by rewrite Ha Hkey /= Hweak (Hver _ _ Hsg).
Qed.
End crypto.

(** A concrete instance: digests of the authors' bytes and signatures that repeat
    the message, checked by comparison. *)
Definition toy_crypto : Crypto := {|
  canonical_body b := Ok (actor_seq b :: as_bytes (author b));
  canonical_signed s := Ok (signature s);
  blake3 k bytes := small_id (foldr N.add 0 bytes mod 256);
  VerifyingKey := PeerId;
  key_from_bytes p := Some p;
  is_weak _ := false;
  verify_strict _ m s := bool_decide (m = s);
|}.

Definition toy_signer (p : PeerId) : Signer :=
  {| signer_peer_id := p; signer_sign m := Ok m |}.

Definition toy_body (p : PeerId) (seq : N) (prev : option OpId) (ds : gset OpId) (gen : N)
    (pl : TopicPayload) : OpBody :=
  {| topic_id := small_id 1; author := p; actor_id := small_id 2; actor_seq := seq;
     actor_prev := prev; deps := ds; generation := gen; payload := pl |}.

Definition toy_op (i : N) (p : PeerId) (seq : N) (prev : option OpId) (ds : gset OpId) (gen : N)
    (pl : TopicPayload) : Op :=
  {| op_id := small_id i; signed := {| body := toy_body p seq prev ds gen pl; signature := [] |} |}.

Lemma toy_signer_honest p : @HonestSigner toy_crypto (toy_signer p).
Proof.
  split. exists p. split_and!; [done..|]. intros m s [= <-]. by apply bool_decide_eq_true.
Qed.

Lemma signed_ops_validate_witness :
  let crypto := toy_crypto in
  let b := toy_body (small_id 3) 1 None ∅ 0 (Event {| type_id := "note"; ev_payload := [] |}) in
  ∃ op, op_sign b (toy_signer (small_id 3)) = Ok op ∧ op_validate op = Ok ().
Proof.
  intros crypto b. eexists. split; [reflexivity|].
  eapply (@signed_ops_validate crypto b (toy_signer (small_id 3)));
    [apply toy_signer_honest|reflexivity].
Defined.

(** ** Stored records ([storage/record.rs]) *)

Record ControlKey := {
  ck_generation : N;
  ck_actor_id : ActorId;
  ck_actor_seq : N;
  ck_op_id : OpId;
}.

#[global] Instance ControlKey_eq_dec : EqDecision ControlKey.
Proof. solve_decision. Defined.

Definition ck_tuple (k : ControlKey) : N * (ActorId * (N * OpId)) :=
  (ck_generation k, (ck_actor_id k, (ck_actor_seq k, ck_op_id k))).

(** [derive(PartialOrd, Ord)] of [ControlKey]: its fields in order. *)
#[global] Program Instance ControlKey_bord : BOrd ControlKey :=
  {| bcmp x y := bcmp (ck_tuple x) (ck_tuple y) |}.
Next Obligation.
  intros [] []. rewrite bcmp_eq. unfold ck_tuple; simpl. naive_solver.
Qed.
Next Obligation. intros. apply bcmp_opp. Qed.
Next Obligation. intros x y z. apply bcmp_trans. Qed.

Record TopicState := {
  ts_topic_id : TopicId;
  ts_event_type_id : string;
  ts_genesis : OpId;
  ts_heads : gset OpId;
  ts_members : gset PeerId;
  ts_replication_policy : ReplicationPolicy;
  ts_membership_controls : gmap PeerId (ControlKey * bool);
  ts_replication_policy_control : option (ControlKey * ReplicationPolicy);
}.

#[global] Instance TopicState_eq_dec : EqDecision TopicState.
Proof. solve_decision. Defined.

(** [state.heads = heads] *)
Definition set_heads (s : TopicState) (h : gset OpId) : TopicState :=
  {| ts_topic_id := ts_topic_id s; ts_event_type_id := ts_event_type_id s;
     ts_genesis := ts_genesis s; ts_heads := h; ts_members := ts_members s;
     ts_replication_policy := ts_replication_policy s;
     ts_membership_controls := ts_membership_controls s;
     ts_replication_policy_control := ts_replication_policy_control s |}.

Record OpMeta (C : Type) := {
  om_id : OpId;
  om_topic_id : TopicId;
  om_author : PeerId;
  om_actor_id : ActorId;
  om_actor_seq : N;
  om_actor_prev : option OpId;
  om_deps : gset OpId;
  om_generation : N;
  om_observed_clock : C;
  om_ready : bool;
  om_missing_deps : gset OpId;
}.
Arguments om_id {C}. Arguments om_topic_id {C}. Arguments om_author {C}.
Arguments om_actor_id {C}. Arguments om_actor_seq {C}. Arguments om_actor_prev {C}.
Arguments om_deps {C}. Arguments om_generation {C}. Arguments om_observed_clock {C}.
Arguments om_ready {C}. Arguments om_missing_deps {C}.

(** [OpPosition]: the metadata without the observed clock. *)
Record OpPosition := {
  pos_topic_id : TopicId;
  pos_actor_id : ActorId;
  pos_actor_seq : N;
  pos_actor_prev : option OpId;
  pos_deps : gset OpId;
  pos_generation : N;
}.

(** [impl From<&OpMeta> for OpPosition] *)
Definition position_of {C} (m : OpMeta C) : OpPosition := {|
  pos_topic_id := om_topic_id m; pos_actor_id := om_actor_id m;
  pos_actor_seq := om_actor_seq m; pos_actor_prev := om_actor_prev m;
  pos_deps := om_deps m; pos_generation := om_generation m |}.

(** [OpHeader]: the position without its dependencies. *)
Record OpHeader := {
  hd_topic_id : TopicId;
  hd_actor_id : ActorId;
  hd_actor_seq : N;
  hd_actor_prev : option OpId;
  hd_generation : N;
}.

(** [impl From<&OpMeta> for OpHeader] and [impl From<&OpPosition> for OpHeader] *)
Definition header_of {C} (m : OpMeta C) : OpHeader := {|
  hd_topic_id := om_topic_id m; hd_actor_id := om_actor_id m;
  hd_actor_seq := om_actor_seq m; hd_actor_prev := om_actor_prev m;
  hd_generation := om_generation m |}.
Definition header_of_position (m : OpPosition) : OpHeader := {|
  hd_topic_id := pos_topic_id m; hd_actor_id := pos_actor_id m;
  hd_actor_seq := pos_actor_seq m; hd_actor_prev := pos_actor_prev m;
  hd_generation := pos_generation m |}.

(** [derive(PartialEq)] of [OpMeta]: clocks compare with their own [==]. *)
Definition meta_eqb {C} `{ClockImpl C} (m n : OpMeta C) : bool :=
  bool_decide (om_id m = om_id n) && bool_decide (om_topic_id m = om_topic_id n) &&
  bool_decide (om_author m = om_author n) && bool_decide (om_actor_id m = om_actor_id n) &&
  bool_decide (om_actor_seq m = om_actor_seq n) &&
  bool_decide (om_actor_prev m = om_actor_prev n) && bool_decide (om_deps m = om_deps n) &&
  bool_decide (om_generation m = om_generation n) &&
  ck_eqb (om_observed_clock m) (om_observed_clock n) &&
  bool_decide (om_ready m = om_ready n) && bool_decide (om_missing_deps m = om_missing_deps n).
