(* ===== verification/Membership.v ===== *)
(** * Topic membership ([src/src/oplog/membership.rs])

    The topic state a set of operations stands for: every control carries a key, and
    for each peer, and for the replication policy, the control with the greatest key
    wins. [materialize_topic_state] computes it from a list of operations,
    [apply_control] one operation at a time, [merge_states] from the states of
    several dependencies; the theorems say the three agree. *)

From S2P Require Import Prelude Ids Frame ClockSpec Types.

#[local] Open Scope N_scope.

Abbreviation controls := (gmap PeerId (ControlKey * bool)).

(** [control_key] *)
Definition control_key (op : Op) : ControlKey := {|
  ck_generation := generation (obody op);
  ck_actor_id := actor_id (obody op);
  ck_actor_seq := actor_seq (obody op);
  ck_op_id := op_id op |}.

(** [current.is_none_or(|(current_key, _)| key > *current_key)] *)
Definition newer {V} (key : ControlKey) (current : option (ControlKey * V)) : bool :=
  match current with Some (current_key, _) => bltb current_key key | None => true end.

(** [set_membership_control]: the controls after it and what it returns. *)
Definition set_membership_control (c : controls) (peer : PeerId) (key : ControlKey)
    (is_member : bool) : controls * bool :=
  if newer key (c !! peer) then (<[peer := (key, is_member)]> c, true) else (c, false).

(** [members.insert(peer)] or [members.remove(peer)] *)
Definition set_member (members : gset PeerId) (peer : PeerId) (is_member : bool) : gset PeerId :=
  if is_member then {[peer]} ∪ members else members ∖ {[peer]}.

Definition policy_control := option (ControlKey * ReplicationPolicy).

(** [if is_none_or(key > current_key) { current = Some((key, policy)) }] *)
Definition set_policy_control (current : policy_control) (key : ControlKey)
    (policy : ReplicationPolicy) : policy_control :=
  if newer key current then Some (key, policy) else current.

(** The local variables of [materialize_topic_state]. *)
Record mstate := MState {
  m_genesis : option (OpId * TopicId * TopicGenesis);
  m_topic_id : option TopicId;
  m_controls : controls;
  m_policy : policy_control;
}.

(** The body of the loop of [materialize_topic_state]. *)
Definition materialize_step (m : mstate) (op : Op) : res mstate :=
  let b := obody op in
  if (match m_topic_id m with Some t => negb (bool_decide (t = topic_id b)) | None => false end)
  then Err TopicMismatch
  else
    let tid := Some (default (topic_id b) (m_topic_id m)) in
    match payload b with
    | Genesis g =>
        if (match m_genesis m with
            | Some (genesis_id, _, _) => negb (bool_decide (genesis_id = op_id op))
            | None => false
            end)
        then Err InvalidGenesis
        else Ok (MState (Some (default (op_id op, topic_id b, g) (m_genesis m))) tid
               (m_controls m) (m_policy m))
    | Control (AddPeer peer) =>
        Ok (MState (m_genesis m) tid
          (set_membership_control (m_controls m) peer (control_key op) true).1 (m_policy m))
    | Control (RemovePeer peer) =>
        Ok (MState (m_genesis m) tid
          (set_membership_control (m_controls m) peer (control_key op) false).1 (m_policy m))
    | Control (SetReplicationPolicy policy) =>
        Ok (MState (m_genesis m) tid (m_controls m)
          (set_policy_control (m_policy m) (control_key op) policy))
    | Event _ => Ok (MState (m_genesis m) tid (m_controls m) (m_policy m))
    end.

(** The part of [materialize_topic_state] after its loop. *)
Definition materialize_finish (m : mstate) (heads : gset OpId) : res TopicState :=
  '(genesis_id, tid, g) ← ok_or (m_genesis m) TopicNotFound;
  Ok {|
    ts_topic_id := tid;
    ts_event_type_id := event_type_id g;
    ts_genesis := genesis_id;
    ts_heads := heads;
    ts_members := foldl (λ ms '(peer, (_, is_member)), set_member ms peer is_member)
      (initial_peers g) (bt_entries (m_controls m));
    ts_replication_policy := default (replication_policy g) (snd <$> m_policy m);
    ts_membership_controls := m_controls m;
    ts_replication_policy_control := m_policy m
  |}.

Definition materialize_topic_state (ops : list Op) (heads : gset OpId) : res TopicState :=
  m ← try_fold materialize_step (MState None None ∅ None) ops;
  materialize_finish m heads.

(** [apply_control] *)
Definition apply_control (s : TopicState) (op : Op) (control : TopicControl) : TopicState :=
  let with_members c ms := {|
    ts_topic_id := ts_topic_id s; ts_event_type_id := ts_event_type_id s;
    ts_genesis := ts_genesis s; ts_heads := ts_heads s; ts_members := ms;
    ts_replication_policy := ts_replication_policy s; ts_membership_controls := c;
    ts_replication_policy_control := ts_replication_policy_control s |} in
  match control with
  | AddPeer peer =>
      let '(c, set) := set_membership_control (ts_membership_controls s) peer (control_key op) true in
      with_members c (if set then set_member (ts_members s) peer true else ts_members s)
  | RemovePeer peer =>
      let '(c, set) := set_membership_control (ts_membership_controls s) peer (control_key op) false in
      with_members c (if set then set_member (ts_members s) peer false else ts_members s)
  | SetReplicationPolicy policy =>
      if newer (control_key op) (ts_replication_policy_control s) then {|
        ts_topic_id := ts_topic_id s; ts_event_type_id := ts_event_type_id s;
        ts_genesis := ts_genesis s; ts_heads := ts_heads s; ts_members := ts_members s;
        ts_replication_policy := policy; ts_membership_controls := ts_membership_controls s;
        ts_replication_policy_control := Some (control_key op, policy) |}
      else s
  end.

(** The part of [merge_states] that folds [incoming] into [current]. *)
Definition merge_into (current incoming : TopicState) : TopicState :=
  let '(c, ms) := foldl (λ '(c, ms) '(peer, (key, member)),
      let '(c', set) := set_membership_control c peer key member in
      (c', if set then set_member ms peer member else ms))
    (ts_membership_controls current, ts_members current)
    (bt_entries (ts_membership_controls incoming)) in
  let '(pc, policy) :=
    match ts_replication_policy_control incoming with
    | Some (key, policy) =>
        if newer key (ts_replication_policy_control current) then (Some (key, policy), policy)
        else (ts_replication_policy_control current, ts_replication_policy current)
    | None => (ts_replication_policy_control current, ts_replication_policy current)
    end in
  {| ts_topic_id := ts_topic_id current; ts_event_type_id := ts_event_type_id current;
     ts_genesis := ts_genesis current; ts_heads := ts_heads current; ts_members := ms;
     ts_replication_policy := policy; ts_membership_controls := c;
     ts_replication_policy_control := pc |}.

(** [merge_states]; [ptr_eq] is [Arc::ptr_eq]. *)
Definition merge_states (ptr_eq : TopicState → TopicState → bool) (ds : gset OpId)
    (projections : gmap OpId TopicState) : res TopicState :=
  merged ← try_fold (λ merged i,
      incoming ← ok_or (projections !! i) (MissingDependency i);
      match merged with
      | None => Ok (Some incoming)
      | Some current =>
          if ptr_eq current incoming then Ok (Some current)
          else if negb (bool_decide (ts_genesis current = ts_genesis incoming))
          then Err InvalidGenesis
          else Ok (Some (merge_into current incoming))
      end) None (bt_elements ds);
  ok_or merged TopicNotFound.

(** ** The specification: the greatest key wins *)

(** One register written by the control with the greatest key. *)
Definition lww {V} (current incoming : option (ControlKey * V)) : option (ControlKey * V) :=
  match incoming with
  | Some (key, _) => if newer key current then incoming else current
  | None => current
  end.

(** What [op] writes to the membership of [peer], and to the policy. *)
Definition member_write (op : Op) (peer : PeerId) : option (ControlKey * bool) :=
  match payload (obody op) with
  | Control (AddPeer p) => if decide (p = peer) then Some (control_key op, true) else None
  | Control (RemovePeer p) => if decide (p = peer) then Some (control_key op, false) else None
  | _ => None
  end.
Definition policy_write (op : Op) : option (ControlKey * ReplicationPolicy) :=
  match payload (obody op) with
  | Control (SetReplicationPolicy policy) => Some (control_key op, policy)
  | _ => None
  end.

(** [w] is the write of an operation of [ops] with the greatest key, if any. *)
Definition wins {V} (write : Op → option (ControlKey * V)) (ops : list Op)
    (w : option (ControlKey * V)) : Prop :=
  match w with
  | Some kv => (∃ op, op ∈ ops ∧ write op = Some kv) ∧
      ∀ op kv', op ∈ ops → write op = Some kv' → ble kv'.1 kv.1
  | None => ∀ op, op ∈ ops → write op = None
  end.

(** The topic state the operations of a topic stand for: genesis [g] and the winning
    controls. *)
Definition state_spec (ops : list Op) (gop : Op) (g : TopicGenesis) (s : TopicState) : Prop :=
  ts_topic_id s = topic_id (obody gop) ∧
  ts_event_type_id s = event_type_id g ∧
  ts_genesis s = op_id gop ∧
  (∀ p, wins (λ op, member_write op p) ops (ts_membership_controls s !! p)) ∧
  (∀ p, p ∈ ts_members s ↔
    match ts_membership_controls s !! p with
    | Some (_, is_member) => is_member = true
    | None => p ∈ initial_peers g
    end) ∧
  wins policy_write ops (ts_replication_policy_control s) ∧
  ts_replication_policy s =
    default (replication_policy g) (snd <$> ts_replication_policy_control s).

(** Operation ids identify operations: they are digests of the signed content. *)
Definition ids_unique (ops : list Op) : Prop :=
  ∀ o1 o2, o1 ∈ ops → o2 ∈ ops → op_id o1 = op_id o2 → o1 = o2.

(** ** The last-writer register *)

Lemma newer_true {V} key (cur : option (ControlKey * V)) :
  newer key cur = true ↔ ∀ kv, cur = Some kv → blt kv.1 key.
Proof.
  destruct cur as [[k v]|]; simpl; [|naive_solver]. rewrite bltb_lt. naive_solver.
Qed.
Lemma newer_false {V} key (cur : option (ControlKey * V)) :
  newer key cur = false ↔ ∃ kv, cur = Some kv ∧ ble key kv.1.
Proof.
  destruct cur as [[k v]|]; simpl; [|naive_solver]. rewrite bltb_ge. naive_solver.
Qed.

Lemma set_membership_control_lookup c p key b q :
  (set_membership_control c p key b).1 !! q =
    if decide (p = q) then lww (c !! q) (Some (key, b)) else c !! q.
Proof.
  unfold set_membership_control. destruct (newer key (c !! p)) eqn:Hn; simpl.
  - case_decide; subst; simpl; [by rewrite lookup_insert_eq Hn|by rewrite lookup_insert_ne].
  - case_decide; subst; simpl; [by rewrite Hn|done].
Qed.

Lemma wins_lww {V} (write : Op → option (ControlKey * V)) ops w op :
  wins write ops w → wins write (ops ++ [op]) (lww w (write op)).
Proof.
  intros Hw. destruct (write op) as [[k v]|] eqn:Hop; simpl.
  - destruct (newer k w) eqn:Hn.
    + simpl. split; [exists op; set_solver|]. intros o kv [Ho|Ho%list_elem_of_singleton]%elem_of_app Hkv.
      * destruct w as [kv0|]; simpl in Hw; [|rewrite Hw // in Hkv].
        apply newer_true with (kv := kv0) in Hn; [|done].
        apply ble_lt_eq. left. destruct Hw as [_ Hw]. eapply ble_blt_trans; [by eapply Hw|done].
      * subst. rewrite Hop in Hkv. simplify_eq/=. reflexivity.
    + apply newer_false in Hn as (kv0 & -> & Hle). destruct Hw as [(o & Ho & Hwo) Hw]. simpl.
      split; [exists o; set_solver|]. intros o' kv [Ho'|Ho'%list_elem_of_singleton]%elem_of_app Hkv.
      * by eapply Hw.
      * subst. rewrite Hop in Hkv. by simplify_eq/=.
  - destruct w as [kv0|]; simpl in *.
    + destruct Hw as [(o & Ho & Hwo) Hw]. split; [exists o; set_solver|].
      intros o' kv [Ho'|Ho'%list_elem_of_singleton]%elem_of_app Hkv; [by eapply Hw|]. naive_solver.
    + intros o [Ho|Ho%list_elem_of_singleton]%elem_of_app; naive_solver.
Qed.

(** A register's writes: each one carries its operation's key. *)
Definition keyed {V} (write : Op → option (ControlKey * V)) : Prop :=
  ∀ op kv, write op = Some kv → kv.1 = control_key op.

Lemma member_write_keyed p : keyed (λ op, member_write op p).
Proof.
  intros op kv. unfold member_write. destruct (payload (obody op)) as [| |[]]; try done;
    case_decide; naive_solver.
Qed.
Lemma policy_write_keyed : keyed policy_write.
Proof. intros op kv. unfold policy_write. destruct (payload (obody op)) as [| |[]]; naive_solver. Qed.

(** Only one value can win. *)
Lemma wins_unique {V} (write : Op → option (ControlKey * V)) ops1 ops2 w1 w2 :
  keyed write → ids_unique ops1 → (∀ op, op ∈ ops1 ↔ op ∈ ops2) →
  wins write ops1 w1 → wins write ops2 w2 → w1 = w2.
Proof.
  intros Hk Hu Heq Hw1 Hw2. destruct w1 as [kv1|], w2 as [kv2|]; simpl in *.
  - destruct Hw1 as [(o1 & Ho1 & Hwo1) H1], Hw2 as [(o2 & Ho2 & Hwo2) H2].
    assert (kv1.1 = kv2.1) as Hkey.
    { apply (anti_symm ble); [eapply H2; [by apply Heq|done]|eapply H1; [by apply Heq|done]]. }
    assert (o1 = o2) as ->; [|congruence]. apply Hu; [done|by apply Heq|].
    apply Hk in Hwo1, Hwo2. rewrite Hwo1 Hwo2 in Hkey. by injection Hkey.
  - destruct Hw1 as [(o1 & Ho1 & Hwo1) _]. rewrite Hw2 in Hwo1; [by apply Heq|done].
  - destruct Hw2 as [(o2 & Ho2 & Hwo2) _]. rewrite Hw1 in Hwo2; [by apply Heq|done].
  - done.
Qed.

Lemma wins_app {V} (write : Op → option (ControlKey * V)) ops1 ops2 w1 w2 :
  wins write ops1 w1 → wins write ops2 w2 → wins write (ops1 ++ ops2) (lww w1 w2).
Proof.
  intros H1 H2. destruct w2 as [[k v]|]; simpl in *.
  - destruct H2 as [(o & Ho & Hwo) H2]. destruct (newer k w1) eqn:Hn; simpl.
    + split; [exists o; set_solver|]. intros o' kv [Ho'|Ho']%elem_of_app Hkv; [|by eapply H2].
      destruct w1 as [kv1|]; simpl in H1; [|by rewrite H1 in Hkv].
      eapply newer_true in Hn; [|done]. destruct H1 as [_ H1].
      apply ble_lt_eq. left. eapply ble_blt_trans; [by eapply H1|done].
    + apply newer_false in Hn as (kv1 & -> & Hle). destruct H1 as [(o1 & Ho1 & Hw1) H1]. simpl.
      split; [exists o1; set_solver|]. intros o' kv [Ho'|Ho']%elem_of_app Hkv; [by eapply H1|].
      etransitivity; [by eapply H2|done].
  - destruct w1 as [kv1|]; simpl in *.
    + destruct H1 as [(o & Ho & Hwo) H1]. split; [exists o; set_solver|].
      intros o' kv [Ho'|Ho']%elem_of_app Hkv; [by eapply H1|]. by rewrite H2 in Hkv.
    + intros o [Ho|Ho]%elem_of_app; auto.
Qed.

Lemma lww_idemp {V} (w : option (ControlKey * V)) : lww w w = w.
Proof. destruct w as [[k v]|]; simpl; [|done]. by destruct (bltb k k). Qed.

(** ** Members follow the controls *)

Lemma set_member_spec ms p b q :
  q ∈ set_member ms p b ↔ if decide (p = q) then b = true else q ∈ ms.
Proof. unfold set_member. destruct b; case_decide; set_solver. Qed.

Lemma foldl_members (l : list (PeerId * (ControlKey * bool))) ms q :
  NoDup l.*1 →
  q ∈ foldl (λ ms '(peer, (_, is_member)), set_member ms peer is_member) ms l ↔
    match (list_to_map l : controls) !! q with
    | Some (_, is_member) => is_member = true
    | None => q ∈ ms
    end.
Proof.
  revert ms. induction l as [|[p [k b]] l IH]; intros ms Hnd; simpl; [by rewrite lookup_empty|].
  apply NoDup_cons in Hnd as [Hp Hnd]. rewrite IH //. destruct (decide (p = q)) as [<-|Hne].
  - rewrite lookup_insert_eq not_elem_of_list_to_map_1 //. rewrite set_member_spec decide_True //.
  - rewrite lookup_insert_ne //. destruct (_ !! q) as [[]|]; [done|].
    by rewrite set_member_spec decide_False.
Qed.

(** The loop of [merge_into] over the incoming controls. *)
Lemma foldl_merge_controls (l : list (PeerId * (ControlKey * bool))) c ms q :
  NoDup l.*1 →
  let '(c', ms') := foldl (λ '(c, ms) '(peer, (key, member)),
      let '(c', set) := set_membership_control c peer key member in
      (c', if set then set_member ms peer member else ms)) (c, ms) l in
  c' !! q = lww (c !! q) ((list_to_map l : controls) !! q) ∧
  (q ∈ ms' ↔ match (list_to_map l : controls) !! q with
    | Some (k, b) => if newer k (c !! q) then b = true else q ∈ ms
    | None => q ∈ ms
    end).
Proof.
  revert c ms. induction l as [|[p [k b]] l IH]; intros c ms Hnd; simpl.
  { by rewrite lookup_empty. }
  apply NoDup_cons in Hnd as [Hp Hnd].
  pose proof (set_membership_control_lookup c p k b q) as Hlk.
  assert ((set_membership_control c p k b).2 = newer k (c !! p)) as Hset.
  { unfold set_membership_control. by destruct (newer _ _). }
  destruct (set_membership_control c p k b) as [c1 set]. simpl in Hlk, Hset. subst set.
  specialize (IH c1 (if newer k (c !! p) then set_member ms p b else ms) Hnd).
  destruct (foldl _ _ l) as [c' ms']. destruct IH as [-> IH]. rewrite IH Hlk.
  destruct (decide (p = q)) as [<-|Hne].
  - rewrite lookup_insert_eq not_elem_of_list_to_map_1 //=. split; [done|].
    destruct (newer k (c !! p)); [|done]. by rewrite set_member_spec decide_True.
  - rewrite lookup_insert_ne //. split; [done|].
    assert (q ∈ (if newer k (c !! p) then set_member ms p b else ms) ↔ q ∈ ms) as Hms.
    { destruct (newer k (c !! p)); [|done]. by rewrite set_member_spec decide_False. }
    destruct (_ !! q) as [[k' b']|]; [destruct (newer k' (c !! q))|]; done.
Qed.

(** ** States of operations *)

Lemma state_spec_event ops gop g s op :
  state_spec ops gop g s → (∀ c, payload (obody op) ≠ Control c) →
  state_spec (ops ++ [op]) gop g s.
Proof.
  intros (?&?&?&Hm&?&Hp&?) Hev. split_and!; try done.
  - intros p. specialize (wins_lww _ ops _ op (Hm p)). unfold member_write at 2.
    destruct (payload (obody op)); naive_solver.
  - specialize (wins_lww _ ops _ op Hp). unfold policy_write at 2.
    destruct (payload (obody op)); naive_solver.
Qed.

Lemma state_spec_control ops gop g s op c :
  state_spec ops gop g s → payload (obody op) = Control c →
  state_spec (ops ++ [op]) gop g (apply_control s op c).
Proof.
  intros (Ht&Hty&Hg&Hm&Hmem&Hp&Hrp) Hc.
  assert (∀ p b, (∀ q, member_write op q = if decide (p = q) then Some (control_key op, b) else None) →
    policy_write op = None →
    state_spec (ops ++ [op]) gop g
      (let '(cs, set) := set_membership_control (ts_membership_controls s) p (control_key op) b in {|
        ts_topic_id := ts_topic_id s; ts_event_type_id := ts_event_type_id s;
        ts_genesis := ts_genesis s; ts_heads := ts_heads s;
        ts_members := if set then set_member (ts_members s) p b else ts_members s;
        ts_replication_policy := ts_replication_policy s; ts_membership_controls := cs;
        ts_replication_policy_control := ts_replication_policy_control s |})) as Hmember.
  { intros p b Hw Hpw.
    pose proof (set_membership_control_lookup (ts_membership_controls s) p (control_key op) b) as Hlk.
    assert ((set_membership_control (ts_membership_controls s) p (control_key op) b).2 =
      newer (control_key op) (ts_membership_controls s !! p)) as Hset.
    { unfold set_membership_control. by destruct (newer _ _). }
    destruct (set_membership_control _ _ _ _) as [cs set]. simpl in Hlk, Hset. subst set.
    split_and!; try done; cbn [ts_membership_controls ts_members ts_replication_policy_control].
    - intros q. pose proof (wins_lww _ ops _ op (Hm q)) as Hwin. cbv beta in Hwin.
      rewrite Hw in Hwin. rewrite Hlk. by case_decide.
    - intros q. rewrite Hlk. destruct (newer _ (ts_membership_controls s !! p)) eqn:Hn.
      + rewrite set_member_spec. case_decide; subst; [|done]. simpl. by rewrite Hn.
      + rewrite Hmem. case_decide; subst; [|done]. simpl. by rewrite Hn.
    - specialize (wins_lww _ ops _ op Hp). by rewrite Hpw. }
  destruct c as [p|p|policy]; simpl.
  - apply Hmember; unfold member_write, policy_write; by rewrite Hc.
  - apply Hmember; unfold member_write, policy_write; by rewrite Hc.
  - pose proof (wins_lww _ ops _ op Hp) as Hwin. unfold policy_write at 2 in Hwin. rewrite Hc /= in Hwin.
    assert (∀ q, wins (λ op, member_write op q) (ops ++ [op]) (ts_membership_controls s !! q)) as Hm'.
    { intros q. specialize (wins_lww _ ops _ op (Hm q)). unfold member_write at 2. by rewrite Hc. }
    destruct (newer _ _); split_and!; try done.
Qed.

Lemma state_spec_merge ops1 ops2 gop g s1 s2 :
  state_spec ops1 gop g s1 → state_spec ops2 gop g s2 →
  state_spec (ops1 ++ ops2) gop g (merge_into s1 s2).
Proof.
  intros (Ht&Hty&Hg&Hm&Hmem&Hp&Hrp) (_&_&_&Hm2&Hmem2&Hp2&Hrp2). unfold merge_into.
  pose proof (λ q, foldl_merge_controls (bt_entries (ts_membership_controls s2))
    (ts_membership_controls s1) (ts_members s1) q (bt_entries_NoDup _)) as Hfold.
  destruct (foldl _ _ _) as [c' ms']. setoid_rewrite list_to_map_bt_entries in Hfold.
  set (pp := match ts_replication_policy_control s2 with Some _ => _ | None => _ end).
  assert (pp.1 = lww (ts_replication_policy_control s1) (ts_replication_policy_control s2) ∧
    pp.2 = default (replication_policy g) (snd <$> pp.1)) as [Hpp1 Hpp2].
  { unfold pp. destruct (ts_replication_policy_control s2) as [[k v]|]; simpl; [|done].
    by destruct (newer _ _). }
  destruct pp as [pc policy]. simpl in Hpp1, Hpp2.
  split_and!; try done; cbn [ts_membership_controls ts_members ts_replication_policy_control].
  - intros q. destruct (Hfold q) as [-> _]. by apply wins_app.
  - intros q. destruct (Hfold q) as [-> ->]. destruct (ts_membership_controls s2 !! q) as [[k b]|]; simpl.
    + destruct (newer _ _) eqn:Hn; [done|by rewrite Hmem].
    + by rewrite Hmem.
  - rewrite Hpp1. by apply wins_app.
Qed.

Lemma state_spec_twice ops1 ops2 gop g s :
  state_spec ops1 gop g s → state_spec ops2 gop g s → state_spec (ops1 ++ ops2) gop g s.
Proof.
  intros (Ht&Hty&Hg&Hm&Hmem&Hp&Hrp) (_&_&_&Hm2&Hmem2&Hp2&Hrp2). split_and!; try done.
  - intros q. rewrite -(lww_idemp (_ !! q)). by apply wins_app.
  - rewrite -(lww_idemp (ts_replication_policy_control s)). by apply wins_app.
Qed.

(** Operations determine the state, up to the frontier recorded in it. *)
Lemma state_spec_unique ops1 ops2 gop1 gop2 g1 g2 s1 s2 h :
  ids_unique ops1 → (∀ op, op ∈ ops1 ↔ op ∈ ops2) →
  gop1 ∈ ops1 → gop2 ∈ ops2 → op_id gop1 = op_id gop2 →
  payload (obody gop1) = Genesis g1 → payload (obody gop2) = Genesis g2 →
  state_spec ops1 gop1 g1 s1 → state_spec ops2 gop2 g2 s2 →
  set_heads s1 h = set_heads s2 h.
Proof.
  intros Hu Heq Hin1 Hin2 Hid Hg1 Hg2 (Ht&Hty&Hg&Hm&Hmem&Hp&Hrp) (Ht2&Hty2&Hg'&Hm2&Hmem2&Hp2&Hrp2).
  assert (gop1 = gop2) as -> by (apply Hu; [done|by apply Heq|done]).
  assert (g1 = g2) as -> by congruence.
  assert (ts_membership_controls s1 = ts_membership_controls s2) as Hcs.
  { apply map_eq. intros p. by eapply wins_unique; [apply member_write_keyed|..]. }
  assert (ts_replication_policy_control s1 = ts_replication_policy_control s2) as Hpc
    by by eapply wins_unique; [apply policy_write_keyed|..].
  assert (ts_members s1 = ts_members s2) as Hms.
  { apply set_eq. intros p. by rewrite Hmem Hmem2 Hcs. }
  unfold set_heads. rewrite Hcs Hpc Hms Ht Ht2 Hty Hty2 Hg Hg' Hrp Hrp2 Hpc. done.
Qed.

(** ** Materialization *)

Definition is_genesis (op : Op) : bool :=
  match payload (obody op) with Genesis _ => true | _ => false end.

(** What the loop knows after the operations [ops]. *)
Definition materialized (ops : list Op) (m : mstate) : Prop :=
  (∀ op, op ∈ ops → m_topic_id m = Some (topic_id (obody op))) ∧
  (ops = [] → m_topic_id m = None) ∧
  match m_genesis m with
  | Some (i, t, g) => ∃ gop, gop ∈ ops ∧ payload (obody gop) = Genesis g ∧
      i = op_id gop ∧ t = topic_id (obody gop) ∧
      ∀ op, op ∈ ops → is_genesis op = true → op_id op = i
  | None => ∀ op, op ∈ ops → is_genesis op = false
  end ∧
  (∀ p, wins (λ op, member_write op p) ops (m_controls m !! p)) ∧
  wins policy_write ops (m_policy m).

Lemma materialize_step_ok ops m op m' :
  materialized ops m → materialize_step m op = Ok m' → materialized (ops ++ [op]) m'.
Proof.
  intros (Ht & Hnil & Hg & Hm & Hp). unfold materialize_step.
  set (bad := match m_topic_id m with Some _ => _ | None => _ end).
  destruct bad eqn:Hbad; [done|]. intros Hstep.
  assert (∀ o, o ∈ ops ++ [op] →
    Some (default (topic_id (obody op)) (m_topic_id m)) = Some (topic_id (obody o))) as Ht'.
  { intros o [Ho|Ho%list_elem_of_singleton]%elem_of_app; [by rewrite (Ht o Ho)|]. subst o. f_equal.
    unfold bad in Hbad. destruct (m_topic_id m) as [t|]; simpl; [|done].
    apply negb_false_iff, bool_decide_eq_true in Hbad. done. }
  assert (ops ++ [op] = [] → Some (default (topic_id (obody op)) (m_topic_id m)) = None) as Hn'.
  { by intros []%app_nil. }
  assert (is_genesis op = false → match m_genesis m with
    | Some (i, t, g) => ∃ gop, gop ∈ ops ++ [op] ∧ payload (obody gop) = Genesis g ∧
        i = op_id gop ∧ t = topic_id (obody gop) ∧
        ∀ op', op' ∈ ops ++ [op] → is_genesis op' = true → op_id op' = i
    | None => ∀ op', op' ∈ ops ++ [op] → is_genesis op' = false end) as Hg'.
  { intros Hno. destruct (m_genesis m) as [[[i t] g]|].
    - destruct Hg as (gop & Hin & Hpl & -> & -> & Hall). exists gop. split_and!; [set_solver|done..|].
      intros o [Ho|Ho%list_elem_of_singleton]%elem_of_app Hgo; [by apply Hall|]. subst. congruence.
    - intros o [Ho|Ho%list_elem_of_singleton]%elem_of_app; [by apply Hg|by subst]. }
  pose proof (λ p, wins_lww _ ops _ op (Hm p)) as Hm'. cbv beta in Hm'.
  pose proof (wins_lww _ ops _ op Hp) as Hp'.
  unfold member_write in Hm' at 2. unfold policy_write in Hp' at 2. unfold is_genesis in Hg' at 1.
  destruct (payload (obody op)) as [g|ev|c] eqn:Hpl.
  - destruct (m_genesis m) as [[[i t] g0]|] eqn:Hgm; simpl in Hstep.
    + destruct (decide (i = op_id op)) as [Hi|Hi]; [rewrite bool_decide_true // in Hstep|
        rewrite bool_decide_false // in Hstep]. simplify_eq/=.
      destruct Hg as (gop & Hin & Hgp & Hid & -> & Hall).
      split_and!; try done. exists gop. split_and!; [set_solver|done..|].
      intros o [Ho|Ho%list_elem_of_singleton]%elem_of_app Hgo; [by apply Hall|by subst].
    + simplify_eq/=. split_and!; try done. exists op. split_and!; [set_solver|done..|].
      intros o [Ho|Ho%list_elem_of_singleton]%elem_of_app Hgo; [|by subst].
      rewrite Hg // in Hgo.
  - simplify_eq/=. split_and!; try done. by apply Hg'.
  - destruct c as [p|p|policy]; simplify_eq/=; split_and!; try done; try (by apply Hg');
      cbn [m_controls]; intros q; rewrite set_membership_control_lookup;
      specialize (Hm' q); by case_decide.
Qed.

Lemma materialized_nil : materialized [] (MState None None ∅ None).
Proof.
  split_and!; try done; try (by intros ? ?%elem_of_nil).
  intros p. cbn [m_controls]. rewrite lookup_empty. by intros ? ?%elem_of_nil.
Qed.

Lemma materialize_loop_ok ops m :
  try_fold materialize_step (MState None None ∅ None) ops = Ok m → materialized ops m.
Proof.
  apply (try_fold_inv_prefix materialized); [|apply materialized_nil].
  intros pre op rest m1 m2 _. apply materialize_step_ok.
Qed.

(** No operation of one topic with one genesis stops the loop. *)
Lemma materialize_step_total (ops : list Op) gop m op pre :
  (∀ op, op ∈ ops → topic_id (obody op) = topic_id (obody gop)) →
  (∀ op, op ∈ ops → is_genesis op = true → op_id op = op_id gop) →
  (∀ o, o ∈ pre → o ∈ ops) → op ∈ ops → materialized pre m →
  ∃ m', materialize_step m op = Ok m'.
Proof.
  intros Ht Hg Hsub Hop (Htm & Hnil & Hgm & _). unfold materialize_step.
  assert ((match m_topic_id m with
    | Some t => negb (bool_decide (t = topic_id (obody op))) | None => false end) = false) as ->.
  { destruct pre as [|o pre]; [by rewrite Hnil|]. rewrite (Htm o); [by left|].
    apply negb_false_iff, bool_decide_eq_true. rewrite (Ht op) // (Ht o) //. apply Hsub. by left. }
  destruct (payload (obody op)) as [g|ev|[]] eqn:Hpl; try by eexists.
  destruct (m_genesis m) as [[[i t] g0]|]; simpl; [|by eexists].
  destruct Hgm as (gop' & Hin & Hpl' & -> & _).
  rewrite bool_decide_true; [|by eexists].
  rewrite (Hg gop'); [by apply Hsub|unfold is_genesis; by rewrite Hpl'|].
  symmetry. apply Hg; [done|]. unfold is_genesis. by rewrite Hpl.
Qed.

(** A materialized state is the state its operations stand for. *)
Lemma materialize_sound ops h s :
  materialize_topic_state ops h = Ok s →
  ∃ gop g, gop ∈ ops ∧ payload (obody gop) = Genesis g ∧
    (∀ op, op ∈ ops → topic_id (obody op) = topic_id (obody gop)) ∧
    (∀ op, op ∈ ops → is_genesis op = true → op_id op = op_id gop) ∧
    ts_heads s = h ∧ state_spec ops gop g s.
Proof.
  unfold materialize_topic_state. intros (m & Hloop & Hfin)%bind_ok.
  apply materialize_loop_ok in Hloop as (Ht & _ & Hg & Hm & Hp).
  unfold materialize_finish in Hfin. destruct (m_genesis m) as [[[i t] g]|]; simplify_eq/=.
  destruct Hg as (gop & Hin & Hpl & -> & -> & Hall). exists gop, g. split_and!; try done.
  - intros op Hop. apply Ht in Hop. apply Ht in Hin. congruence.
  - split_and!; try done. intros p. cbn [ts_members ts_membership_controls].
    rewrite foldl_members; [apply bt_entries_NoDup|]. by rewrite list_to_map_bt_entries.
Qed.

(** Operations of one topic with one genesis materialize. *)
Lemma materialize_complete (ops : list Op) h gop g :
  gop ∈ ops → payload (obody gop) = Genesis g →
  (∀ op, op ∈ ops → topic_id (obody op) = topic_id (obody gop)) →
  (∀ op, op ∈ ops → is_genesis op = true → op_id op = op_id gop) →
  ∃ s, materialize_topic_state ops h = Ok s.
Proof.
  intros Hin Hpl Ht Hg.
  assert (∀ post pre m, ops = pre ++ post → materialized pre m →
    ∃ m', try_fold materialize_step m post = Ok m') as Hloop.
  { induction post as [|op post IH]; intros pre m Hops Hm; [by exists m|].
    destruct (materialize_step_total ops gop m op pre) as [m' Hm']; try done;
      [rewrite Hops; set_solver..|].
    simpl. rewrite Hm'. apply (IH (pre ++ [op])); [by rewrite -app_assoc|].
    by eapply materialize_step_ok. }
  destruct (Hloop ops [] (MState None None ∅ None)) as [m Hm]; [done|apply materialized_nil|].
  unfold materialize_topic_state. rewrite Hm. simpl.
  apply materialize_loop_ok in Hm as (_ & _ & Hgm & _). unfold materialize_finish.
  destruct (m_genesis m) as [[[i t] g']|]; simpl; [by eexists|].
  specialize (Hgm gop Hin). unfold is_genesis in Hgm. by rewrite Hpl in Hgm.
Qed.

(** ** Convergence *)

(** C16: which operations arrived, and not their order or repetition,
    decides a topic's state: the same operations materialize to the same state, and
    they do exactly when they are of one topic and hold one genesis. The members are
    then the initial peers overridden, peer by peer, by the control with the greatest
    key. *)
Theorem materialize_converges ops1 ops2 h :
  ids_unique ops1 → (∀ op, op ∈ ops1 ↔ op ∈ ops2) →
  (∀ s, materialize_topic_state ops1 h = Ok s ↔ materialize_topic_state ops2 h = Ok s) ∧
  ((∃ s, materialize_topic_state ops1 h = Ok s) ↔
    ∃ gop, gop ∈ ops1 ∧ is_genesis gop = true ∧
      (∀ op, op ∈ ops1 → topic_id (obody op) = topic_id (obody gop)) ∧
      (∀ op, op ∈ ops1 → is_genesis op = true → op_id op = op_id gop)) ∧
  (∀ s, materialize_topic_state ops1 h = Ok s →
    ∃ gop g, gop ∈ ops1 ∧ payload (obody gop) = Genesis g ∧ state_spec ops1 gop g s).
Proof.
  intros Hu Heq.
  assert (∀ l k s, ids_unique l → (∀ op, op ∈ l ↔ op ∈ k) →
    materialize_topic_state l h = Ok s → materialize_topic_state k h = Ok s) as Hone.
  { clear. intros l k s Hu Heq Hs. pose proof Hs as Hs0.
    apply materialize_sound in Hs as (gop & g & Hin & Hpl & Ht & Hg & Hh & Hspec).
    destruct (materialize_complete k h gop g) as [s' Hs']; [by apply Heq|done|..].
    { intros op Hop. by apply Ht, Heq. }
    { intros op Hop. by apply Hg, Heq. }
    rewrite Hs'. f_equal.
    apply materialize_sound in Hs' as (gop' & g' & Hin' & Hpl' & _ & Hg' & Hh' & Hspec').
    assert (set_heads s h = set_heads s' h) as Hsame.
    { eapply (state_spec_unique l k gop gop'); try done.
      apply Hg'; [by apply Heq|]. unfold is_genesis. by rewrite Hpl. }
    destruct s, s'. unfold set_heads in Hsame. simpl in *. congruence. }
  split_and!.
  - intros s. split; apply Hone; [done..| |by intros; rewrite Heq].
    intros o1 o2 H1%Heq H2%Heq. by apply Hu.
  - split.
    + intros [s (gop & g & Hin & Hpl & Ht & Hg & _)%materialize_sound]. exists gop.
      split_and!; try done. unfold is_genesis. by rewrite Hpl.
    + intros (gop & Hin & Hgen & Ht & Hg). unfold is_genesis in Hgen.
      destruct (payload (obody gop)) as [g| |] eqn:Hpl; try done.
      by apply (materialize_complete ops1 h gop g).
  - intros s (gop & g & ? & ? & ? & ? & ? & ?)%materialize_sound. by exists gop, g.
Qed.

(** Applying one more operation to a materialized state, a
    control through [apply_control] and an event not at all, gives the state
    materialized from all the operations. *)
Theorem apply_control_materializes ops op h s :
  ids_unique (ops ++ [op]) → materialize_topic_state ops h = Ok s →
  topic_id (obody op) = ts_topic_id s → is_genesis op = false →
  materialize_topic_state (ops ++ [op]) h =
    Ok (match payload (obody op) with Control c => apply_control s op c | _ => s end).
Proof.
  intros Hu Hs Htop Hng. set (s' := match payload (obody op) with Control c => _ | _ => _ end).
  apply materialize_sound in Hs as (gop & g & Hin & Hpl & Ht & Hg & Hh & Hspec).
  assert (state_spec (ops ++ [op]) gop g s' ∧ ts_heads s' = h) as [Hspec' Hh'].
  { unfold s', is_genesis in *. destruct (payload (obody op)) as [g0|ev|c] eqn:Hop; [done| |].
    - split; [|done]. apply state_spec_event; [done|]. intros c. by rewrite Hop.
    - split; [by apply state_spec_control|]. rewrite -Hh. destruct c; simpl;
        by repeat (case_match; simpl). }
  destruct (materialize_complete (ops ++ [op]) h gop g) as [t Hmat]; [set_solver|done|..].
  { intros o [Ho|Ho%list_elem_of_singleton]%elem_of_app; [by apply Ht|]. subst.
    rewrite Htop. by destruct Hspec. }
  { intros o [Ho|Ho%list_elem_of_singleton]%elem_of_app Hgo; [by apply Hg|]. subst. congruence. }
  rewrite Hmat. f_equal.
  apply materialize_sound in Hmat as (gop' & g' & Hin' & Hpl' & _ & Hg' & Ht' & Hspec2).
  assert (set_heads t h = set_heads s' h) as Hsame.
  { eapply (state_spec_unique (ops ++ [op]) (ops ++ [op]) gop' gop); try done; [set_solver|].
    symmetry. apply Hg'; [set_solver|]. unfold is_genesis. by rewrite Hpl. }
  destruct t, s'. unfold set_heads in Hsame. simpl in *. congruence.
Qed.

Section merge_states.
Context (ptr_eq : TopicState → TopicState → bool).
Context (ptr_eq_sound : ∀ a b, ptr_eq a b = true → a = b).

Lemma merge_states_spec ds projections (hist : OpId → list Op) gop g :
  ds ≠ ∅ →
  (∀ d, d ∈ ds → ∃ s, projections !! d = Some s ∧ state_spec (hist d) gop g s) →
  ∃ s, merge_states ptr_eq ds projections = Ok s ∧
    state_spec (mjoin (hist <$> bt_elements ds)) gop g s.
Proof.
  intros Hne Hall. unfold merge_states.
  assert (∀ d, d ∈ bt_elements ds → ∃ s, projections !! d = Some s ∧ state_spec (hist d) gop g s)
    as Hall' by (intros d; rewrite elem_of_bt_elements; apply Hall).
  assert (bt_elements ds ≠ []) as Hnil.
  { intros Hnil. apply set_choose_L in Hne as [x Hx].
    apply elem_of_bt_elements in Hx. rewrite Hnil in Hx. by apply elem_of_nil in Hx. }
  destruct (bt_elements ds) as [|d l]; [done|]. clear Hnil Hall Hne.
  destruct (Hall' d) as (s & Hs & Hspec); [by left|]. simpl. rewrite Hs. simpl.
  assert (∀ e, e ∈ l → ∃ s, projections !! e = Some s ∧ state_spec (hist e) gop g s) as Hl
    by (intros e He; apply Hall'; by right).
  clear Hs Hall'. revert s Hspec. generalize (hist d) as ops.
  induction l as [|e l IH]; intros ops s Hspec; simpl.
  { exists s. by rewrite app_nil_r. }
  destruct (Hl e) as (s2 & Hs2 & Hspec2); [by left|]. rewrite Hs2. cbn [mbind result_bind ok_or].
  assert (∀ f, f ∈ l → ∃ s, projections !! f = Some s ∧ state_spec (hist f) gop g s) as Hl'
    by (intros f Hf; apply Hl; by right).
  rewrite (app_assoc ops). destruct (ptr_eq s s2) eqn:Hptr.
  - apply ptr_eq_sound in Hptr as <-. apply IH; [done|]. by apply state_spec_twice.
  - rewrite bool_decide_true /=.
    { destruct Hspec as (_&_&->&_), Hspec2 as (_&_&->&_). done. }
    apply IH; [done|]. by apply state_spec_merge.
Qed.

(** Merging the states of an operation's dependencies, each materialized
    from the history behind that dependency, gives the state materialized from the
    union of those histories, whichever states are shared in memory. *)
Theorem merge_states_materializes ds projections (hist : OpId → list Op) h :
  ds ≠ ∅ → ids_unique (mjoin (hist <$> bt_elements ds)) →
  (∀ d, d ∈ ds → ∃ s hd, projections !! d = Some s ∧
    materialize_topic_state (hist d) hd = Ok s) →
  (∀ d e s t, d ∈ ds → e ∈ ds → projections !! d = Some s → projections !! e = Some t →
    ts_genesis s = ts_genesis t) →
  ∃ s, merge_states ptr_eq ds projections = Ok s ∧
    materialize_topic_state (mjoin (hist <$> bt_elements ds)) h = Ok (set_heads s h).
Proof.
  intros Hne Hu Hall Hsame. set (ops := mjoin _) in *.
  assert (∀ d op, d ∈ ds → op ∈ hist d → op ∈ ops) as Hsub.
  { intros d op Hd Hop. apply list_elem_of_join. exists (hist d). split; [done|].
    apply list_elem_of_fmap_2. by apply elem_of_bt_elements. }
  destruct (set_choose_L ds Hne) as [d0 Hd0].
  destruct (Hall d0 Hd0) as (s0 & h0 & Hp0 & Hm0).
  pose proof (materialize_sound _ _ _ Hm0) as (gop & g & Hin & Hpl & Ht & Hg & _ & Hspec0).
  assert (∀ d, d ∈ ds → ∃ s, projections !! d = Some s ∧ state_spec (hist d) gop g s ∧
    ∀ op, op ∈ hist d → topic_id (obody op) = topic_id (obody gop) ∧
      (is_genesis op = true → op_id op = op_id gop)) as Hspecs.
  { intros d Hd. destruct (Hall d Hd) as (s & hd & Hp & Hm). exists s. split; [done|].
    apply materialize_sound in Hm as (gop' & g' & Hin' & Hpl' & Ht' & Hg' & _ & Hspec').
    assert (gop' = gop) as ->.
    { apply Hu; [by apply (Hsub d)|by apply (Hsub d0)|]. destruct Hspec0 as (_&_&<-&_), Hspec' as (_&_&<-&_).
      by apply (Hsame d d0). }
    assert (g' = g) as -> by congruence. split; [done|]. auto. }
  destruct (merge_states_spec ds projections hist gop g) as (s & Hs & Hspec); [done|..].
  { intros d Hd. destruct (Hspecs d Hd) as (s & ? & ? & _). by exists s. }
  exists s. split; [done|]. fold ops in Hspec.
  assert (∀ op, op ∈ ops → topic_id (obody op) = topic_id (obody gop) ∧
    (is_genesis op = true → op_id op = op_id gop)) as Hops.
  { intros op (l & Hop & (d & -> & Hd)%list_elem_of_fmap)%list_elem_of_join.
    apply elem_of_bt_elements in Hd. destruct (Hspecs d Hd) as (s1 & _ & _ & Ho). by apply Ho. }
  destruct (materialize_complete ops h gop g) as [t Hmat]; [by apply (Hsub d0)|done|..].
  { intros op Hop. by apply Hops. }
  { intros op Hop. by apply Hops. }
  rewrite Hmat. f_equal.
  apply materialize_sound in Hmat as (gop' & g' & Hin' & Hpl' & _ & _ & Hh & Hspec2).
  assert (set_heads t h = set_heads s h) as <-.
  { eapply (state_spec_unique ops ops gop' gop); try done; [by apply (Hsub d0)|].
    apply Hops; [done|]. unfold is_genesis. by rewrite Hpl'. }
  destruct t. unfold set_heads. simpl in *. congruence.
Qed.
End merge_states.

(** ** Witnesses *)

Lemma ids_unique_NoDup (ops : list Op) : NoDup (op_id <$> ops) → ids_unique ops.
Proof.
  intros Hnd o1 o2 H1 H2 Hid. apply list_elem_of_lookup in H1 as [i Hi], H2 as [j Hj].
  assert (i = j) as ->; [|congruence].
  eapply NoDup_lookup; [done|rewrite list_lookup_fmap Hi //=|by rewrite list_lookup_fmap Hj Hid].
Qed.

(** A topic of peer 3 that adds peer 4 and then removes it. *)
Definition toy_genesis : Op :=
  toy_op 10 (small_id 3) 1 None ∅ 0
    (Genesis {| event_type_id := "note"; initial_peers := {[small_id 3]};
                replication_policy := policy_all |}).
Definition toy_add : Op :=
  toy_op 11 (small_id 3) 2 (Some (small_id 10)) {[small_id 10]} 1 (Control (AddPeer (small_id 4))).
Definition toy_remove : Op :=
  toy_op 12 (small_id 3) 3 (Some (small_id 11)) {[small_id 11]} 2 (Control (RemovePeer (small_id 4))).

Definition toy_view (r : res TopicState) : option (TopicId * OpId * list PeerId) :=
  match r with
  | Ok s => Some (ts_topic_id s, ts_genesis s, bt_elements (ts_members s))
  | Err _ => None
  end.

Lemma toy_view_Some r v :
  toy_view r = Some v →
  ∃ s, r = Ok s ∧ ts_topic_id s = v.1.1 ∧ ts_genesis s = v.1.2 ∧ bt_elements (ts_members s) = v.2.
Proof. destruct r as [s|]; [|done]. intros [= <-]. by exists s. Qed.

Lemma toy_ids_unique : ids_unique [toy_genesis; toy_add; toy_remove].
Proof. apply ids_unique_NoDup, (bool_decide_unpack _). by vm_compute. Qed.

Lemma elem_of_shared {A} (a b c x : A) : x ∈ [a; b; a; c] → x ∈ [a; b; c].
Proof. rewrite !elem_of_cons. naive_solver. Qed.
Lemma elem_of_shuffled {A} (a b c x : A) : x ∈ [a; b; c] ↔ x ∈ [c; b; a; b].
Proof. rewrite !elem_of_cons. naive_solver. Qed.

Lemma toy_view_removed :
  toy_view (materialize_topic_state [toy_genesis; toy_add; toy_remove] ∅) =
    Some (small_id 1, small_id 10, [small_id 3]).
Proof. vm_compute. reflexivity. Qed.
Lemma toy_view_added :
  toy_view (materialize_topic_state [toy_genesis; toy_add] ∅) =
    Some (small_id 1, small_id 10, [small_id 3; small_id 4]).
Proof. vm_compute. reflexivity. Qed.
Lemma toy_view_only_removed :
  toy_view (materialize_topic_state [toy_genesis; toy_remove] ∅) =
    Some (small_id 1, small_id 10, [small_id 3]).
Proof. vm_compute. reflexivity. Qed.

Lemma materialize_converges_witness :
  ∃ s, materialize_topic_state [toy_remove; toy_add; toy_genesis; toy_add] ∅ = Ok s ∧
    bt_elements (ts_members s) = [small_id 3].
Proof.
  destruct (toy_view_Some _ _ toy_view_removed) as (s & Hs & _ & _ & Hm). exists s.
  split; [|done].
  apply (materialize_converges [toy_genesis; toy_add; toy_remove]);
    [apply toy_ids_unique| |assumption].
  intros op. apply elem_of_shuffled.
Defined.

Lemma apply_control_materializes_witness :
  ∃ s, materialize_topic_state [toy_genesis; toy_add] ∅ = Ok s ∧
    materialize_topic_state ([toy_genesis; toy_add] ++ [toy_remove]) ∅ =
      Ok (apply_control s toy_remove (RemovePeer (small_id 4))).
Proof.
  destruct (toy_view_Some _ _ toy_view_added) as (s & Hs & Ht & _). exists s. split; [done|].
  apply (apply_control_materializes [toy_genesis; toy_add] toy_remove ∅ s); [|done| |done].
  - apply toy_ids_unique.
  - rewrite Ht. reflexivity.
Defined.

Lemma merge_states_materializes_witness :
  let hist := λ d : OpId, if bool_decide (d = small_id 11) then [toy_genesis; toy_add]
    else [toy_genesis; toy_remove] in
  ∃ s1 s2 s, materialize_topic_state [toy_genesis; toy_add] ∅ = Ok s1 ∧
    materialize_topic_state [toy_genesis; toy_remove] ∅ = Ok s2 ∧
    merge_states (λ _ _, false) {[small_id 11; small_id 12]}
      {[small_id 11 := s1; small_id 12 := s2]} = Ok s ∧
    materialize_topic_state (mjoin (hist <$> bt_elements {[small_id 11; small_id 12]})) ∅ =
      Ok (set_heads s ∅).
Proof.
  intros hist.
  destruct (toy_view_Some _ _ toy_view_added) as (s1 & Hs1 & _ & Hg1 & _).
  destruct (toy_view_Some _ _ toy_view_only_removed) as (s2 & Hs2 & _ & Hg2 & _).
  destruct (merge_states_materializes (λ _ _, false) ltac:(done) {[small_id 11; small_id 12]}
    {[small_id 11 := s1; small_id 12 := s2]} hist ∅) as (s & Hm & Hs).
  - set_solver.
  - assert (mjoin (hist <$> bt_elements {[small_id 11; small_id 12]}) =
      [toy_genesis; toy_add; toy_genesis; toy_remove]) as -> by (vm_compute; reflexivity).
    intros o1 o2 H1%elem_of_shared H2%elem_of_shared. by apply toy_ids_unique.
  - intros d [->%elem_of_singleton| ->%elem_of_singleton]%elem_of_union.
    + exists s1, ∅. rewrite lookup_insert_eq /hist bool_decide_true //.
    + exists s2, ∅. rewrite lookup_insert_ne // lookup_singleton_eq /hist bool_decide_false //.
  - assert (map_Forall (λ _ s, ts_genesis s = small_id 10)
      ({[small_id 11 := s1; small_id 12 := s2]} : gmap OpId TopicState)) as Hall.
    { apply map_Forall_insert_2; [done|]. by apply map_Forall_singleton. }
    intros d e s t _ _ Hd%Hall He%Hall. cbv beta in Hd, He. by rewrite Hd He.
  - exists s1, s2, s. split_and!; assumption.
Defined.
