(* ===== verification/Topology.v ===== *)
(** * Dependency order ([src/src/oplog/topology.rs])

    [topological_ops] orders a batch by dependencies, oldest generation first;
    [topological_meta] orders stored operations and leaves out those a hole blocks.
    Both are Kahn's algorithm; its theory is shared in the section [kahn]. *)

From S2P Require Import Prelude Ids Frame ClockSpec Types.

#[local] Open Scope N_scope.

(** ** Ordering a batch *)

(** [children.entry(dep).or_default().insert(id)] *)
Definition add_child (children : gmap OpId (gset OpId)) (dep child : OpId)
    : gmap OpId (gset OpId) :=
  <[dep := {[child]} ∪ default ∅ (children !! dep)]> children.

(** [children.get(&id).into_iter().flatten()] *)
Definition children_of (children : gmap OpId (gset OpId)) (i : OpId) : list OpId :=
  bt_elements (default ∅ (children !! i)).

(** [ops.into_iter().map(|op| (op.id, op)).collect::<BTreeMap<_, _>>()] *)
Definition collect_ops (ops : list Op) : gmap OpId Op :=
  foldl (λ m op, <[op_id op := op]> m) ∅ ops.

(** The in-degrees and children of the batch. *)
Definition batch_edges (by_id : gmap OpId Op) : gmap OpId N * gmap OpId (gset OpId) :=
  foldl (λ '(indeg, children) '(i, op),
    let '(count, children') := foldl (λ '(count, children) dep,
        if bool_decide (is_Some (by_id !! dep)) then (count + 1, add_child children dep i)
        else (count, children))
      (0, children) (bt_elements (deps (obody op))) in
    (<[i := count]> indeg, children')) (∅, ∅) (bt_entries by_id).

Definition batch_generation (by_id : gmap OpId Op) (i : OpId) : N :=
  from_option (λ op, generation (obody op)) 0 (by_id !! i).

(** The loop over the children of an operation that was taken. *)
Definition release (by_id : gmap OpId Op) (st : gmap OpId N * gset (N * OpId)) (child : OpId)
    : gmap OpId N * gset (N * OpId) :=
  let '(indeg, ready) := st in
  match indeg !! child with
  | Some count =>
      let count := saturating_sub count 1 in
      (<[child := count]> indeg,
       if count =? 0 then {[(batch_generation by_id child, child)]} ∪ ready else ready)
  | None => (indeg, ready)
  end.

(** [while let Some((_, id)) = ready.pop_first()]; every iteration takes an operation
    of the batch, so [fuel] beyond their number is never needed. *)
Fixpoint order_loop (fuel : nat) (by_id : gmap OpId Op) (children : gmap OpId (gset OpId))
    (indeg : gmap OpId N) (ready : gset (N * OpId)) (out : list Op) : res (list Op) :=
  match bt_elements ready with
  | [] => Ok out
  | (g, i) :: _ =>
      match fuel with
      | O => Ok out
      | S fuel' =>
          match by_id !! i with
          | None => Err (Storage "missing input op")
          | Some op =>
              let '(indeg', ready') :=
                foldl (release by_id) (indeg, ready ∖ {[(g, i)]}) (children_of children i) in
              order_loop fuel' by_id children indeg' ready' (out ++ [op])
          end
      end
  end.

Definition initial_ready (by_id : gmap OpId Op) (indeg : gmap OpId N) : gset (N * OpId) :=
  list_to_set (omap (λ '(i, count),
    if count =? 0 then Some (batch_generation by_id i, i) else None) (bt_entries indeg)).

(** [topological_ops] *)
Definition topological_ops (ops : list Op) : res (list Op) :=
  let by_id := collect_ops ops in
  let '(indeg, children) := batch_edges by_id in
  out ← order_loop (size by_id) by_id children indeg (initial_ready by_id indeg) [];
  if decide (length out = size by_id) then Ok out
  else Err (Storage "cycle in input op batch").

(** ** Kahn's algorithm *)

Section kahn.
Context (V : gset OpId) (D : OpId → gset OpId).
Context (D_sub : ∀ c, c ∈ V → D c ⊆ V).

(** Every node comes after its dependencies. *)
Definition topo (out : list OpId) : Prop :=
  ∀ l1 c l2, out = l1 ++ c :: l2 → D c ⊆ list_to_set l1.

(** Nodes that wait for each other: no order of [V] puts dependencies first. *)
Definition stuck (U : gset OpId) : Prop :=
  U ≠ ∅ ∧ U ⊆ V ∧ ∀ c, c ∈ U → ∃ d, d ∈ U ∧ d ∈ D c.

Record kahn_inv (count : OpId → option N) (rdy : gset OpId) (out : list OpId) : Prop := {
  ki_nodup : NoDup out;
  ki_sub : ∀ c, c ∈ out → c ∈ V;
  ki_topo : topo out;
  ki_count : ∀ c, c ∈ V → c ∉ out → count c = Some (N.of_nat (size (D c ∖ list_to_set out)));
  ki_ready : ∀ c, c ∈ rdy ↔ c ∈ V ∧ c ∉ out ∧ D c ⊆ list_to_set out;
}.

Lemma topo_snoc out i : topo out → D i ⊆ list_to_set out → topo (out ++ [i]).
Proof using Type.
  intros Ht Hi l1 c l2 Heq. destruct l2 as [|x l2 _] using rev_ind.
  - apply app_inj_tail in Heq as [<- <-]. done.
  - rewrite app_comm_cons app_assoc in Heq. apply app_inj_tail in Heq as [-> _].
    by eapply Ht.
Qed.

Lemma topo_closed out c : topo out → c ∈ out → D c ⊆ list_to_set out.
Proof using Type.
  intros Ht (l1 & l2 & ->)%list_elem_of_split. intros d Hd.
  apply (Ht l1 c l2 eq_refl) in Hd. rewrite !elem_of_list_to_set in Hd |- *.
  apply elem_of_app. by left.
Qed.

(** Taking a ready node and counting it off its dependents keeps the invariant. *)
Lemma kahn_step count rdy out i count' rdy' :
  kahn_inv count rdy out → i ∈ rdy →
  (∀ c, c ∈ V → c ∉ out ++ [i] → count' c = if decide (i ∈ D c) then N.pred <$> count c else count c) →
  (∀ c, c ∈ rdy' ↔ (c ∈ rdy ∧ c ≠ i) ∨ (c ∈ V ∧ c ∉ out ++ [i] ∧ i ∈ D c ∧ count' c = Some 0)) →
  kahn_inv count' rdy' (out ++ [i]).
Proof using Type.
  intros [Hnd Hsub Ht Hc Hr] Hi Hc' Hr'. apply Hr in Hi as (HiV & Hiout & HiD).
  assert (∀ c, c ∉ out ++ [i] ↔ c ∉ out ∧ c ≠ i) as Hsnoc.
  { intros c. rewrite not_elem_of_app list_elem_of_singleton. done. }
  assert (∀ c, D c ∖ list_to_set (out ++ [i]) = (D c ∖ list_to_set out) ∖ {[i]}) as Hdiff.
  { intros c. rewrite list_to_set_app_L /= right_id_L. clear. set_solver. }
  assert (∀ c, D c ⊆ list_to_set (out ++ [i]) ↔ D c ∖ list_to_set (out ++ [i]) = ∅) as Hempty.
  { intros c. split; [apply subseteq_empty_difference_L|]. intros He d Hd.
    destruct (decide (d ∈ (list_to_set (out ++ [i]) : gset OpId))); [done|]. clear -He Hd n. set_solver. }
  assert (∀ c, c ∈ V → c ∉ out ++ [i] →
    count' c = Some (N.of_nat (size (D c ∖ list_to_set (out ++ [i]))))) as Hcount.
  { intros c HcV Hcout. rewrite Hc' // Hdiff (Hc c HcV); [by apply Hsnoc|].
    destruct (decide (i ∈ D c)) as [HiDc|HiDc]; simpl; f_equal.
    - assert (i ∈ D c ∖ list_to_set out) as Hin.
      { apply elem_of_difference. by rewrite elem_of_list_to_set. }
      rewrite (size_difference (D c ∖ list_to_set out) {[i]}); [by apply singleton_subseteq_l|].
      rewrite size_singleton.
      assert (size (D c ∖ list_to_set out : gset OpId) ≠ 0%nat); [|lia].
      apply size_non_empty_iff. clear -Hin. set_solver.
    - f_equal. f_equal. clear -HiDc. set_solver. }
  split.
  - apply NoDup_app. split_and!; [done| |apply NoDup_singleton].
    intros c Hc0 ->%list_elem_of_singleton. done.
  - intros c [?| ->%list_elem_of_singleton]%elem_of_app; auto.
  - by apply topo_snoc.
  - done.
  - intros c. rewrite Hr' Hr Hempty. split.
    + intros [[(?&?&Hsub') ?]|(HcV & Hcout & HiDc & H0)].
      { split_and!; [done|by apply Hsnoc|]. apply Hempty. rewrite list_to_set_app_L.
        clear -Hsub'. set_solver. }
      split_and!; [done..|]. rewrite Hcount // in H0. injection H0 as H0.
      apply leibniz_equiv, size_empty_inv. clear -H0. lia.
    + intros (HcV & Hcout & HD). destruct (decide (i ∈ D c)) as [HiDc|HiDc].
      * right. split_and!; [done..|]. by rewrite Hcount // HD size_empty.
      * left. apply Hsnoc in Hcout as [??]. split_and!; [done..| |done].
        rewrite Hdiff in HD. clear -HD HiDc. intros d Hd.
        destruct (decide (d ∈ (list_to_set out : gset OpId))); set_solver.
Qed.

(** When nothing is ready any more, either every node was taken or the rest wait for
    each other. *)
Lemma kahn_end count out :
  kahn_inv count ∅ out →
  (length out = size V ∧ ∀ c, c ∈ out ↔ c ∈ V) ∨
  (length out ≠ size V ∧ stuck (V ∖ list_to_set out)).
Proof.
  intros [Hnd Hsub Ht Hc Hr].
  assert (size (list_to_set out : gset OpId) = length out) as Hlen by by apply size_list_to_set.
  destruct (decide (V ∖ list_to_set out = ∅)) as [Hemp|Hne].
  - left. assert (list_to_set out = V) as HV.
    { apply set_eq. intros c. split; [set_solver|]. intros HcV.
      destruct (decide (c ∈ (list_to_set out : gset OpId))); set_solver. }
    split; [by rewrite -Hlen HV|]. intros c. rewrite -HV. set_solver.
  - right. split.
    + intros Heq. apply Hne. assert ((list_to_set out : gset OpId) = V) as ->; [|set_solver].
      apply set_subseteq_size_eq; [set_solver|lia].
    + split_and!; [done|set_solver|]. intros c Hcin.
      destruct (decide (D c ⊆ list_to_set out)) as [Hs|Hs].
      { exfalso. destruct (Hr c) as [_ Hr']. apply (not_elem_of_empty (C := gset OpId) c), Hr'.
        set_solver. }
      assert (D c ∖ list_to_set out ≠ ∅) as [d Hd]%set_choose_L.
      { intros Hemp. apply Hs. intros d Hd.
        destruct (decide (d ∈ (list_to_set out : gset OpId))); set_solver. }
      exists d. split; [|set_solver]. pose proof (D_sub c). set_solver.
Qed.

(** An order of all nodes and a stuck set exclude each other. *)
Lemma topo_not_stuck out U : topo out → (∀ c, c ∈ V → c ∈ out) → ¬ stuck U.
Proof using Type.
  intros Ht Hall (Hne & HU & Hstuck).
  assert (∀ l1 l2, out = l1 ++ l2 → ∀ c, c ∈ l1 → c ∉ U) as Hno.
  { induction l1 as [|x l1 IH] using rev_ind; [by intros ? ? ? ?%elem_of_nil|].
    intros l2 Heq c Hc HcU. rewrite -app_assoc /= in Heq.
    apply elem_of_app in Hc as [Hc|Hc%list_elem_of_singleton].
    - by apply (IH (x :: l2) Heq c).
    - subst c. destruct (Hstuck x HcU) as (d & HdU & HdD).
      apply (IH (x :: l2) Heq d); [|done]. apply (Ht _ _ _ Heq) in HdD.
      by rewrite elem_of_list_to_set in HdD. }
  apply set_choose_L in Hne as [c Hc]. apply (Hno out [] ltac:(by rewrite app_nil_r) c); [|done].
  by apply Hall, HU.
Qed.
End kahn.

(** ** The batch's graph *)

Lemma collect_ops_spec ops i :
  (is_Some (collect_ops ops !! i) ↔ i ∈ op_id <$> ops) ∧
  ∀ op, collect_ops ops !! i = Some op → op_id op = i ∧ op ∈ ops.
Proof.
  unfold collect_ops. induction ops as [|o ops IH] using rev_ind.
  { simpl. rewrite lookup_empty elem_of_nil. split; [split; [by intros []|done]|done]. }
  rewrite foldl_snoc fmap_app elem_of_app /= list_elem_of_singleton.
  destruct (decide (op_id o = i)) as [<-|Hne].
  - rewrite lookup_insert_eq. split; [split; [by right|by eexists]|].
    intros op [= ->]. split; [done|]. set_solver.
  - rewrite lookup_insert_ne //. destruct IH as [IH1 IH2]. split.
    + rewrite IH1. naive_solver.
    + intros op [? ?]%IH2. set_solver.
Qed.

Lemma collect_ops_unique ops op :
  NoDup (op_id <$> ops) → op ∈ ops → collect_ops ops !! op_id op = Some op.
Proof.
  intros Hnd Hin. unfold collect_ops. induction ops as [|o ops IH] using rev_ind.
  { by apply elem_of_nil in Hin. }
  rewrite foldl_snoc. rewrite fmap_app in Hnd. apply NoDup_app in Hnd as (Hnd & Hno & _).
  apply elem_of_app in Hin as [Hin| ->%list_elem_of_singleton]; [|by rewrite lookup_insert_eq].
  rewrite lookup_insert_ne; [|by apply IH]. intros Heq.
  apply (Hno (op_id op)); [by apply list_elem_of_fmap_2|]. rewrite -Heq. by left.
Qed.

Section batch.
Context (by_id : gmap OpId Op).

(** The dependencies of [c] inside the batch. *)
Definition batch_deps (c : OpId) : gset OpId :=
  from_option (λ op, deps (obody op)) ∅ (by_id !! c) ∩ dom by_id.

Lemma add_child_spec children dep child c d :
  c ∈ default ∅ (add_child children dep child !! d) ↔
    (c = child ∧ d = dep) ∨ c ∈ default ∅ (children !! d).
Proof.
  unfold add_child. destruct (decide (dep = d)) as [<-|Hne].
  - rewrite lookup_insert_eq /=. set_solver.
  - rewrite lookup_insert_ne //. naive_solver.
Qed.

Lemma dep_fold i (l : list OpId) n children :
  NoDup l →
  let r := foldl (λ '(count, children) dep,
    if bool_decide (is_Some (by_id !! dep)) then (count + 1, add_child children dep i)
    else (count, children)) (n, children) l in
  r.1 = n + N.of_nat (size (list_to_set l ∩ dom by_id : gset OpId)) ∧
  ∀ c d, c ∈ default ∅ (r.2 !! d) ↔
    c ∈ default ∅ (children !! d) ∨ (c = i ∧ d ∈ l ∧ d ∈ dom by_id).
Proof.
  revert n children. induction l as [|e l IH]; intros n children Hnd; cbn [foldl].
  { simpl. rewrite intersection_empty_l_L size_empty. split; [lia|]. intros c d.
    rewrite elem_of_nil. tauto. }
  apply NoDup_cons in Hnd as [He Hnd]. simpl list_to_set.
  case_bool_decide as Hs.
  - destruct (IH (n + 1) (add_child children e i) Hnd) as [H1 H2]. split.
    + rewrite H1. apply elem_of_dom in Hs.
      assert (({[e]} ∪ list_to_set l) ∩ dom by_id = {[e]} ∪ (list_to_set l ∩ dom by_id)) as ->
        by (clear -Hs; set_solver).
      rewrite size_union; [clear -He; set_solver|]. rewrite size_singleton. lia.
    + intros c d. rewrite H2 add_child_spec elem_of_cons. apply elem_of_dom in Hs.
      split; [|naive_solver]. intros [[[-> ->]|?]|(?&?&?)]; tauto.
  - destruct (IH n children Hnd) as [H1 H2]. split.
    + rewrite H1. f_equal. f_equal. f_equal.
      assert (e ∉ dom by_id) as Hn by by rewrite elem_of_dom. clear -Hn. set_solver.
    + intros c d. rewrite H2 elem_of_cons. assert (e ∉ dom by_id) by by rewrite elem_of_dom.
      split; [tauto|]. intros [?|(? & [->|?] & ?)]; tauto.
Qed.

Lemma batch_edges_spec :
  let '(indeg, children) := batch_edges by_id in
  (∀ c, indeg !! c =
    if decide (c ∈ dom by_id) then Some (N.of_nat (size (batch_deps c))) else None) ∧
  ∀ c d, c ∈ default ∅ (children !! d) ↔ c ∈ dom by_id ∧ d ∈ batch_deps c.
Proof.
  unfold batch_edges. set (f := λ '(indeg, children) '(i, op), _).
  enough (∀ l indeg children, NoDup l.*1 → (∀ i op, (i, op) ∈ l → by_id !! i = Some op) →
    let r := foldl f (indeg, children) l in
    (∀ c, r.1 !! c = if decide (c ∈ l.*1) then Some (N.of_nat (size (batch_deps c)))
      else indeg !! c) ∧
    ∀ c d, c ∈ default ∅ (r.2 !! d) ↔
      c ∈ default ∅ (children !! d) ∨ (c ∈ l.*1 ∧ d ∈ batch_deps c)) as Hgen.
  { destruct (Hgen (bt_entries by_id) ∅ ∅) as [H1 H2]; [apply bt_entries_NoDup|..].
    { intros i op. by rewrite elem_of_bt_entries. }
    destruct (foldl f _ _) as [indeg children]. simpl in H1, H2.
    rewrite bt_entries_keys in H1. setoid_rewrite bt_entries_keys in H2. split.
    - intros c. rewrite H1 lookup_empty. apply decide_ext, elem_of_bt_elements.
    - intros c d. rewrite H2 lookup_empty elem_of_bt_elements /=. set_solver. }
  induction l as [|[i op] l IH]; intros indeg children Hnd Hl; cbn [foldl].
  { split; [intros c; case_decide as Hc; [by apply elem_of_nil in Hc|done]|].
    intros c d. simpl. rewrite elem_of_nil. tauto. }
  apply NoDup_cons in Hnd as [Hi Hnd].
  assert (by_id !! i = Some op) as Hop by (apply Hl; by left).
  pose proof (dep_fold i (bt_elements (deps (obody op))) 0 children (bt_elements_NoDup _)) as Hd.
  unfold f at 2 4. destruct (foldl _ (0, children) _) as [count children'].
  cbn [fst snd] in Hd. destruct Hd as [Hcount Hch].
  assert (count = N.of_nat (size (batch_deps i))) as ->.
  { rewrite Hcount N.add_0_l. f_equal. f_equal. unfold batch_deps. rewrite Hop /=.
    apply set_eq. intros x. by rewrite !elem_of_intersection elem_of_list_to_set elem_of_bt_elements. }
  destruct (IH (<[i := N.of_nat (size (batch_deps i))]> indeg) children' Hnd) as [H1 H2].
  { intros j o Hj. apply Hl. by right. }
  split.
  - intros c. rewrite H1. simpl. destruct (decide (c = i)) as [->|Hne].
    + rewrite decide_False // decide_True; [by left|]. by rewrite lookup_insert_eq.
    + rewrite lookup_insert_ne //. apply decide_ext. rewrite elem_of_cons. naive_solver.
  - intros c d. rewrite H2 Hch elem_of_bt_elements. cbn [fmap list_fmap fst]. rewrite elem_of_cons.
    assert (d ∈ batch_deps i ↔ d ∈ deps (obody op) ∧ d ∈ dom by_id) as Hbd.
    { unfold batch_deps. by rewrite Hop elem_of_intersection. }
    destruct (decide (c = i)) as [->|Hne]; naive_solver.
Qed.
End batch.

(** ** The ordering loop *)

Lemma release_fold by_id (l : list OpId) indeg ready :
  NoDup l →
  let r := foldl (release by_id) (indeg, ready) l in
  (∀ c, r.1 !! c = if decide (c ∈ l) then N.pred <$> indeg !! c else indeg !! c) ∧
  (∀ e, e ∈ r.2 ↔ e ∈ ready ∨
    ∃ c, c ∈ l ∧ e = (batch_generation by_id c, c) ∧ r.1 !! c = Some 0).
Proof.
  revert indeg ready. induction l as [|a l IH]; intros indeg ready Hnd; cbn [foldl].
  { split; [intros c; case_decide as Hc; [by apply elem_of_nil in Hc|done]|].
    intros e. split; [by left|]. intros [?|(c & Hc & _)]; [done|]. by apply elem_of_nil in Hc. }
  apply NoDup_cons in Hnd as [Ha Hnd].
  assert (∃ indeg1 ready1, release by_id (indeg, ready) a = (indeg1, ready1) ∧
    (∀ c, indeg1 !! c = if decide (c = a) then N.pred <$> indeg !! c else indeg !! c) ∧
    (∀ e, e ∈ ready1 ↔ e ∈ ready ∨ (e = (batch_generation by_id a, a) ∧ indeg1 !! a = Some 0)))
    as (indeg1 & ready1 & -> & Hin1 & Hre1).
  { unfold release. destruct (indeg !! a) as [n|] eqn:Hn.
    - eexists _, _. split; [done|]. rewrite lookup_insert_eq. unfold saturating_sub.
      rewrite N.sub_1_r. split.
      + intros c. case_decide as Hc; [subst; by rewrite lookup_insert_eq Hn|by rewrite lookup_insert_ne].
      + intros e. destruct (N.eqb_spec (N.pred n) 0) as [->|Hne0]; [set_solver|].
        split; [by left|]. intros [?|[_ [= ?]]]; done.
    - eexists _, _. split; [done|]. split.
      + intros c. case_decide as Hc; [subst; by rewrite Hn|done].
      + intros e. rewrite Hn. naive_solver. }
  destruct (IH indeg1 ready1 Hnd) as [H1 H2]. split.
  - intros c. rewrite H1 Hin1. destruct (decide (c = a)) as [->|Hne].
    + rewrite decide_False // decide_True //. by left.
    + apply decide_ext. rewrite elem_of_cons. naive_solver.
  - intros e. rewrite H2 Hre1. rewrite -(decide_False (P := a ∈ l) (N.pred <$> indeg1 !! a) (indeg1 !! a)) // -H1.
    split.
    + intros [[?|[-> ?]]|(c & ? & ? & ?)]; [by left|right; exists a|right; exists c];
        rewrite elem_of_cons; auto.
    + intros [?|(c & [->|?]%elem_of_cons & -> & ?)]; [auto..|]. right. by exists c.
Qed.

(** The generations of a batch grow along its dependencies. *)
Definition generations_grow (by_id : gmap OpId Op) : Prop :=
  ∀ c d, d ∈ batch_deps by_id c → batch_generation by_id d < batch_generation by_id c.

(** What is still to be ordered comes after [x]. *)
Definition before_rest (by_id : gmap OpId Op) (out : list OpId) : Prop :=
  StronglySorted blt ((λ c, (batch_generation by_id c, c)) <$> out) ∧
  ∀ x c, x ∈ out → c ∈ dom by_id → c ∉ out →
    blt (batch_generation by_id x, x) (batch_generation by_id c, c).

Lemma ready_below by_id count rdy out c :
  generations_grow by_id → kahn_inv (dom by_id) (batch_deps by_id) count rdy out →
  c ∈ dom by_id → c ∉ out →
  ∃ r, r ∈ rdy ∧ ble (batch_generation by_id r, r) (batch_generation by_id c, c).
Proof.
  intros Hg Hk. remember (batch_generation by_id c) as n eqn:Hn. revert c Hn.
  induction n as [n IH] using (well_founded_induction N.lt_wf_0). intros c -> Hc Hout.
  destruct (decide (batch_deps by_id c ⊆ list_to_set out)) as [Hs|Hs].
  { exists c. split; [|reflexivity]. by apply (ki_ready _ _ _ _ _ Hk). }
  assert (batch_deps by_id c ∖ list_to_set out ≠ ∅) as [d Hd]%set_choose_L.
  { intros Hemp. apply Hs. intros d Hd. destruct (decide (d ∈ (list_to_set out : gset OpId))); [done|].
    clear -Hemp Hd n. set_solver. }
  apply elem_of_difference in Hd as [HdD Hdout].
  pose proof (Hg c d HdD) as Hlt.
  destruct (IH (batch_generation by_id d) Hlt d eq_refl) as (r & Hr & Hle).
  { unfold batch_deps in HdD. by apply elem_of_intersection in HdD as [_ ?]. }
  { by rewrite elem_of_list_to_set in Hdout. }
  exists r. split; [done|]. etransitivity; [done|]. apply ble_lt_eq. left.
  unfold blt. simpl. apply lex_cmp_lt. left. by apply N.compare_lt_iff.
Qed.

(** The set of ready entries as nodes. *)
Definition ready_ids (ready : gset (N * OpId)) : gset OpId := set_map snd ready.

Record order_inv (by_id : gmap OpId Op) (indeg : gmap OpId N) (ready : gset (N * OpId))
    (out : list Op) : Prop := {
  oi_kahn : kahn_inv (dom by_id) (batch_deps by_id) (λ c, indeg !! c) (ready_ids ready) (op_id <$> out);
  oi_tags : ∀ g i, (g, i) ∈ ready → g = batch_generation by_id i;
  oi_ops : ∀ op, op ∈ out → by_id !! op_id op = Some op;
  oi_sorted : generations_grow by_id → before_rest by_id (op_id <$> out);
}.

Lemma order_step by_id children indeg ready out g i rest op :
  (∀ c d, c ∈ default ∅ (children !! d) ↔ c ∈ dom by_id ∧ d ∈ batch_deps by_id c) →
  (∀ j o, by_id !! j = Some o → op_id o = j) →
  order_inv by_id indeg ready out → bt_elements ready = (g, i) :: rest →
  by_id !! i = Some op →
  let r := foldl (release by_id) (indeg, ready ∖ {[(g, i)]}) (children_of children i) in
  order_inv by_id r.1 r.2 (out ++ [op]).
Proof.
  intros Hch Hids [Hk Htags Hops Hsort] Hel Hop r.
  assert ((g, i) ∈ ready) as Hgi by (apply elem_of_bt_elements; rewrite Hel; by left).
  assert (∀ c, c ∈ children_of children i ↔ c ∈ dom by_id ∧ i ∈ batch_deps by_id c) as Hci.
  { intros c. unfold children_of. rewrite elem_of_bt_elements. apply Hch. }
  destruct (release_fold by_id (children_of children i) indeg (ready ∖ {[(g, i)]})
    (bt_elements_NoDup _)) as [Hr1 Hr2]. fold r in Hr1, Hr2.
  assert (op_id op = i) as Hid by by apply Hids.
  assert (i ∈ ready_ids ready) as Hri by (apply elem_of_map; by exists (g, i)).
  pose proof (proj1 (ki_ready _ _ _ _ _ Hk i) Hri) as (HiV & Hiout & HiD).
  assert (∀ c, c ∈ dom by_id → i ∈ batch_deps by_id c → c ∉ op_id <$> out ++ [op]) as Hnew.
  { intros c Hc Hic. rewrite fmap_app elem_of_app /= Hid list_elem_of_singleton. intros [Hco| ->].
    - pose proof (topo_closed (batch_deps by_id) (op_id <$> out) c (ki_topo _ _ _ _ _ Hk) Hco i Hic) as Hi.
      by rewrite elem_of_list_to_set in Hi.
    - apply HiD in Hic. by rewrite elem_of_list_to_set in Hic. }
  split.
  - rewrite fmap_app /= Hid. eapply kahn_step; [exact Hk|done|..].
    + intros c HcV _. rewrite Hr1. apply decide_ext. rewrite Hci. tauto.
    + intros c. unfold ready_ids at 1. rewrite elem_of_map. setoid_rewrite Hr2. split.
      * intros ([h x] & -> & [[Hx Hne]%elem_of_difference|(c' & Hc & [= -> ->] & H0)]); simpl.
        -- left. split; [apply elem_of_map; by exists (h, x)|]. intros ->.
           apply Hne, elem_of_singleton. f_equal. rewrite (Htags _ _ Hx). by rewrite (Htags _ _ Hgi).
        -- right. apply Hci in Hc as [??]. split_and!; try done.
           specialize (Hnew c'). rewrite fmap_app /= Hid in Hnew. auto.
      * intros [[([h x] & -> & Hx)%elem_of_map Hne]|(HcV & Hcout & HiDc & H0)]; simpl in *.
        -- exists (h, x). split; [done|]. left. apply elem_of_difference. split; [done|].
           rewrite elem_of_singleton. by intros [= -> ->].
        -- exists (batch_generation by_id c, c). split; [done|]. right. exists c.
           by rewrite Hci.
  - intros h x. rewrite Hr2. intros [[Hx _]%elem_of_difference|(c & _ & [= -> ->] & _)]; [|done].
    by apply Htags.
  - intros o [Ho| ->%list_elem_of_singleton]%elem_of_app; [by apply Hops|]. by rewrite Hid.
  - intros Hg. destruct (Hsort Hg) as [Hs Hrest].
    assert (∀ c, c ∈ dom by_id → c ∉ op_id <$> out → c ≠ i →
      blt (batch_generation by_id i, i) (batch_generation by_id c, c)) as Hleast.
    { intros c Hc Hcout Hne. destruct (ready_below by_id _ _ _ c Hg Hk Hc Hcout) as (x & Hx & Hle).
      apply elem_of_map in Hx as ([h x'] & -> & Hx). simpl in Hle.
      assert (ble (g, i) (h, x')) as Hle'.
      { pose proof (bt_elements_sorted ready) as Hsr. rewrite Hel in Hsr.
        apply elem_of_bt_elements in Hx. rewrite Hel in Hx. apply elem_of_cons in Hx as [->|Hx]; [reflexivity|].
        apply StronglySorted_inv in Hsr as [_ Hall]. rewrite Forall_forall in Hall.
        apply ble_lt_eq. left. by apply Hall. }
      rewrite (Htags _ _ Hgi) (Htags _ _ Hx) in Hle'.
      assert (ble (batch_generation by_id i, i) (batch_generation by_id c, c)) as Hle2 by by etransitivity.
      apply ble_lt_eq in Hle2 as [?|[= _ ?]]; done. }
    split.
    + rewrite fmap_app fmap_app /= Hid. apply StronglySorted_app_2; [|done|repeat constructor].
      intros ? ? (x & -> & Hx)%list_elem_of_fmap ->%list_elem_of_singleton. by apply Hrest.
    + intros x c. rewrite fmap_app /= Hid !elem_of_app !list_elem_of_singleton.
      intros [Hx| ->] Hc Hno; [apply Hrest|apply Hleast]; tauto.
Qed.

Lemma kahn_done by_id count rdy out i :
  kahn_inv (dom by_id) (batch_deps by_id) count rdy out → i ∈ rdy →
  (length out < size by_id)%nat.
Proof.
  intros Hk Hi. apply (ki_ready _ _ _ _ _ Hk) in Hi as (HiV & Hiout & _).
  rewrite -(size_dom by_id) -(size_list_to_set (C := gset OpId) out); [by eapply ki_nodup|].
  apply subset_size. split.
  - intros c. rewrite elem_of_list_to_set. by eapply ki_sub.
  - intros Hsub. apply Hsub in HiV. by rewrite elem_of_list_to_set in HiV.
Qed.

Lemma order_loop_spec by_id children :
  (∀ c d, c ∈ default ∅ (children !! d) ↔ c ∈ dom by_id ∧ d ∈ batch_deps by_id c) →
  (∀ j o, by_id !! j = Some o → op_id o = j) →
  ∀ fuel indeg ready out, (size by_id ≤ fuel + length out)%nat →
  order_inv by_id indeg ready out →
  ∃ indeg' out', order_loop fuel by_id children indeg ready out = Ok out' ∧
    order_inv by_id indeg' ∅ out'.
Proof.
  intros Hch Hids. induction fuel as [|fuel IH]; intros indeg ready out Hfuel Hinv;
    cbn [order_loop]; destruct (bt_elements ready) as [|[g i] rest] eqn:Hel.
  1,3: exists indeg, out; split; [done|]; replace ∅ with ready; [done|];
    apply set_eq; intros e; rewrite -elem_of_bt_elements Hel; set_solver.
  all: assert (i ∈ ready_ids ready) as Hi
    by (apply elem_of_map; exists (g, i); rewrite -elem_of_bt_elements Hel; split; [done|by left]).
  all: pose proof (kahn_done _ _ _ _ _ (oi_kahn _ _ _ _ Hinv) Hi) as Hlt; rewrite length_fmap in Hlt.
  { exfalso. lia. }
  apply (ki_ready _ _ _ _ _ (oi_kahn _ _ _ _ Hinv)) in Hi as (HiV & _).
  apply elem_of_dom in HiV as [op Hop]. rewrite Hop.
  pose proof (order_step by_id children indeg ready out g i rest op Hch Hids Hinv Hel Hop) as Hstep.
  destruct (foldl _ _ _) as [indeg' ready']. apply (IH indeg' ready'); [|done].
  rewrite length_app /=. lia.
Qed.

Lemma initial_ready_spec by_id indeg :
  (∀ c, indeg !! c =
    if decide (c ∈ dom by_id) then Some (N.of_nat (size (batch_deps by_id c))) else None) →
  order_inv by_id indeg (initial_ready by_id indeg) [].
Proof.
  intros Hin.
  assert (∀ g i, (g, i) ∈ initial_ready by_id indeg ↔
    g = batch_generation by_id i ∧ i ∈ dom by_id ∧ batch_deps by_id i = ∅) as Hready.
  { intros g i. unfold initial_ready. rewrite elem_of_list_to_set list_elem_of_omap. split.
    - intros ([j n] & Hj & Heq). apply elem_of_bt_entries in Hj.
      destruct (N.eqb_spec n 0); simplify_eq/=. rewrite Hin in Hj. case_decide; simplify_eq/=.
      split_and!; [done..|]. apply leibniz_equiv, size_empty_inv. lia.
    - intros (-> & Hi & Hd). exists (i, 0). rewrite elem_of_bt_entries Hin decide_True // Hd size_empty.
      done. }
  split.
  - split; simpl.
    + constructor.
    + by intros c ?%elem_of_nil.
    + intros l1 c l2 Heq. by destruct l1.
    + intros c Hc _. by rewrite Hin decide_True // difference_empty_L.
    + intros c. unfold ready_ids. rewrite elem_of_map. split.
      * intros ([g i] & -> & (-> & ? & Hd)%Hready). simpl. rewrite Hd. split_and!; [done|by intros ?%elem_of_nil|done].
      * intros (Hc & _ & Hsub). exists (batch_generation by_id c, c). split; [done|].
        apply Hready. split_and!; [done..|]. apply set_eq. intros d. split; [intros Hd%Hsub|]; set_solver.
  - intros g i [Hgi _]%Hready. done.
  - by intros op ?%elem_of_nil.
  - intros _. split; [constructor|]. by intros x c ?%elem_of_nil.
Qed.

(** Operations of a batch that wait for each other. *)
Definition batch_cycle (ops : list Op) (U : gset OpId) : Prop :=
  stuck (dom (collect_ops ops)) (batch_deps (collect_ops ops)) U.

Lemma topological_ops_spec (ops : list Op) :
  (∃ out, topological_ops ops = Ok out ∧ (∀ U, ¬ batch_cycle ops U) ∧
    NoDup (op_id <$> out) ∧ (∀ op, op ∈ out → op ∈ ops) ∧
    (∀ op, op ∈ ops → op_id op ∈ op_id <$> out) ∧
    (∀ l1 op l2 d, out = l1 ++ op :: l2 → d ∈ deps (obody op) → d ∈ op_id <$> ops →
      d ∈ op_id <$> l1) ∧
    ((∀ o1 o2, o1 ∈ out → o2 ∈ out → op_id o2 ∈ deps (obody o1) →
        generation (obody o2) < generation (obody o1)) →
      StronglySorted blt ((λ op, (generation (obody op), op_id op)) <$> out))) ∨
  (topological_ops ops = Err (Storage "cycle in input op batch") ∧ ∃ U, batch_cycle ops U).
Proof.
  unfold topological_ops, batch_cycle. set (by_id := collect_ops ops).
  assert (∀ j o, by_id !! j = Some o → op_id o = j) as Hids
    by by intros j o [? _]%collect_ops_spec.
  pose proof (batch_edges_spec by_id) as Hedges. destruct (batch_edges by_id) as [indeg children].
  destruct Hedges as [Hin Hch].
  destruct (order_loop_spec by_id children Hch Hids (size by_id) indeg (initial_ready by_id indeg) [])
    as (indeg' & out & -> & Hinv); [simpl; lia|by apply initial_ready_spec|].
  res_step. destruct Hinv as [Hk _ Hops Hsort].
  replace (ready_ids ∅) with (∅ : gset OpId) in Hk by (unfold ready_ids; by rewrite set_map_empty).
  assert (∀ c, c ∈ dom by_id → batch_deps by_id c ⊆ dom by_id) as Hsub.
  { intros c _ d. unfold batch_deps. by rewrite elem_of_intersection; intros []. }
  destruct (kahn_end _ _ Hsub _ _ Hk) as [[Hlen Hall]|[Hlen Hstuck]];
    rewrite length_fmap size_dom in Hlen.
  2: { right. rewrite decide_False //. split; [done|]. by eexists. }
  left. rewrite decide_True //. exists out. split_and!; [done|..].
  - intros U. eapply topo_not_stuck; [by eapply ki_topo|]. intros c. by apply Hall.
  - by eapply ki_nodup.
  - by intros op [_ ?]%Hops%collect_ops_spec.
  - intros op Hop. apply Hall, elem_of_dom, collect_ops_spec. by apply list_elem_of_fmap_2.
  - intros l1 op l2 d -> Hd Hdops.
    assert (d ∈ batch_deps by_id (op_id op)) as Hdep.
    { unfold batch_deps. rewrite (Hops op); [set_solver|]. simpl. apply elem_of_intersection.
      split; [done|]. by apply elem_of_dom, collect_ops_spec. }
    eapply (ki_topo _ _ _ _ _ Hk) in Hdep; [|by rewrite fmap_app]. by rewrite elem_of_list_to_set in Hdep.
  - intros Hgen.
    assert (generations_grow by_id) as Hgrow.
    { intros c d Hd. unfold batch_deps in Hd. destruct (by_id !! c) as [o1|] eqn:Ho1; [|set_solver].
      apply elem_of_intersection in Hd as [Hd Hdd]. simpl in Hd.
      assert (∀ x o, by_id !! x = Some o → o ∈ out) as Hout.
      { intros x o Hx. pose proof (Hids x o Hx) as <-.
        assert (op_id o ∈ op_id <$> out) as Hi by (apply Hall, elem_of_dom; by eexists).
        apply list_elem_of_fmap in Hi as (o' & Heq & Ho'). pose proof (Hops o' Ho') as Ho''.
        rewrite -Heq Hx in Ho''. by injection Ho'' as ->. }
      apply elem_of_dom in Hdd as [o2 Ho2]. unfold batch_generation. rewrite Ho1 Ho2 /=.
      apply Hgen; [by eapply Hout..|]. by rewrite (Hids _ _ Ho2). }
    destruct (Hsort Hgrow) as [Hs _]. rewrite -list_fmap_compose in Hs.
    erewrite list_fmap_ext; [exact Hs|].
    intros k op Hk'. simpl. unfold batch_generation.
    by rewrite (Hops op); [by eapply list_elem_of_lookup_2|].
Qed.

(** C35: a batch is ordered exactly when no operations of it wait for each
    other: the result then holds every operation once, with the dependencies it holds
    before it, and in the order of generations and ids whenever generations grow
    along dependencies; otherwise the batch is refused. *)
Theorem topological_ops_correct (ops : list Op) :
  (∃ out, topological_ops ops = Ok out ∧ (∀ U, ¬ batch_cycle ops U) ∧
    NoDup (op_id <$> out) ∧ (∀ op, op ∈ out → op ∈ ops) ∧
    (∀ op, op ∈ ops → op_id op ∈ op_id <$> out) ∧
    (∀ l1 op l2 d, out = l1 ++ op :: l2 → d ∈ deps (obody op) → d ∈ op_id <$> ops →
      d ∈ op_id <$> l1) ∧
    ((∀ o1 o2, o1 ∈ out → o2 ∈ out → op_id o2 ∈ deps (obody o1) →
        generation (obody o2) < generation (obody o1)) →
      StronglySorted blt ((λ op, (generation (obody op), op_id op)) <$> out))) ∨
  (topological_ops ops = Err (Storage "cycle in input op batch") ∧ ∃ U, batch_cycle ops U).
Proof. apply topological_ops_spec. Qed.
