(* ===== verification/TopologyMeta.v ===== *)
(** * Dependency order of stored operations ([src/src/oplog/topology.rs])

    [topological_meta] orders the stored operations a caller names, oldest first. An
    operation whose records are incomplete, or that needs one that cannot be
    resolved, is a hole; it and what depends on it are left out. *)

From S2P Require Import Prelude Ids Frame ClockSpec Types Topology.

#[local] Open Scope N_scope.

(** The reads of [trait SnapshotRead] used here. *)
Record SnapshotRead (C : Type) := {
  get_meta : OpId → res (option (OpMeta C));
  get_op : OpId → res (option Op);
  dep_resolvable : OpId → res bool;
}.
Arguments get_meta {C}. Arguments get_op {C}. Arguments dep_resolvable {C}.

Section topology.
Context {C : Type}.
Implicit Types (read : SnapshotRead C) (ids : gset OpId).

Abbreviation presence := (gmap OpId (OpMeta C * N)).

(** The loop over the dependencies of one operation. *)
Definition scan_deps read ids (i : OpId) (st : N * gmap OpId (gset OpId) * bool) (dep : OpId)
    : res (N * gmap OpId (gset OpId) * bool) :=
  let '(deps_in_set, children, dangling) := st in
  if bool_decide (dep ∈ ids) then Ok (deps_in_set + 1, add_child children dep i, dangling)
  else
    resolvable ← dep_resolvable read dep;
    Ok (deps_in_set, children, dangling || negb resolvable).

(** The body of the loop over [ids]. *)
Definition scan_op read ids (st : presence * gmap OpId (gset OpId) * gset OpId) (i : OpId)
    : res (presence * gmap OpId (gset OpId) * gset OpId) :=
  let '(present, children, blocked) := st in
  meta ← get_meta read i;
  match meta with
  | None => Ok (present, children, {[i]} ∪ blocked)
  | Some meta =>
      resolvable ← dep_resolvable read i;
      if negb resolvable then Ok (present, children, {[i]} ∪ blocked)
      else
        '(deps_in_set, children, dangling) ←
          try_fold (scan_deps read ids i) (0, children, false) (bt_elements (om_deps meta));
        if (dangling : bool) then Ok (present, children, {[i]} ∪ blocked)
        else Ok (<[i := (meta, deps_in_set)]> present, children, blocked)
  end.

(** The loop over the children of a blocked operation. The head of [frontier] is its
    top. *)
Definition block_child ids (st : presence * gset OpId * list OpId) (child : OpId)
    : presence * gset OpId * list OpId :=
  let '(present, blocked, frontier) := st in
  if bool_decide (child ∈ ids) && bool_decide (child ∉ blocked)
  then (delete child present, {[child]} ∪ blocked, child :: frontier)
  else (present, blocked, frontier).

(** [while let Some(id) = frontier.pop()] *)
Fixpoint block_loop (fuel : nat) ids (children : gmap OpId (gset OpId))
    (st : presence * gset OpId * list OpId) : presence * gset OpId :=
  let '(present, blocked, frontier) := st in
  match frontier, fuel with
  | [], _ | _, O => (present, blocked)
  | i :: frontier, S fuel' =>
      block_loop fuel' ids children
        (foldl (block_child ids) (present, blocked, frontier) (children_of children i))
  end.

(** The loop over the children of an operation that was taken. *)
Definition count_off (st : presence * list OpId) (child : OpId) : presence * list OpId :=
  let '(present, ready) := st in
  match present !! child with
  | Some (meta, count) =>
      let count := saturating_sub count 1 in
      (<[child := (meta, count)]> present, if count =? 0 then ready ++ [child] else ready)
  | None => (present, ready)
  end.

(** [while let Some(id) = ready.pop_front()] *)
Fixpoint take_loop (fuel : nat) (children : gmap OpId (gset OpId)) (present : presence)
    (ready : list OpId) (out : list (OpMeta C)) : list (OpMeta C) :=
  match ready, fuel with
  | [], _ | _, O => out
  | i :: ready, S fuel' =>
      match present !! i with
      | None => take_loop fuel' children present ready out
      | Some (meta, _) =>
          let '(present, ready) :=
            foldl count_off (delete i present, ready) (children_of children i) in
          take_loop fuel' children present ready (out ++ [meta])
      end
  end.

(** [topological_meta] *)
Definition topological_meta read ids : res (list (OpMeta C)) :=
  '(present, children, blocked) ← try_fold (scan_op read ids) (∅, ∅, ∅) (bt_elements ids);
  let '(present, blocked) :=
    block_loop (size ids) ids children (present, blocked, rev (bt_elements blocked)) in
  let ready := omap (λ '(i, (_, count)), if (count : N) =? 0 then Some i else None)
    (bt_entries present) in
  let expected := size present in
  let out := take_loop expected children present ready [] in
  if decide (length out = expected) then Ok out
  else Err (Storage "cycle in op graph").

(** [topological_ids] *)
Definition topological_ids read ids : res (list OpId) :=
  metas ← topological_meta read ids;
  Ok (om_id <$> metas : list OpId).

(** [subset_entries_in] *)
Definition subset_entries_in read ids : res (list (Op * OpMeta C)) :=
  metas ← topological_meta read ids;
  try_fold (λ out meta,
    o ← get_op read (om_id meta);
    op ← ok_or o (Storage "missing op");
    Ok (out ++ [(op, meta)])) [] metas.

(** ** Holes *)

(** A store whose reads succeed. *)
Context (read : SnapshotRead C) (meta_at : OpId → option (OpMeta C)) (resolvable : OpId → bool).
Context (meta_reads : ∀ i, get_meta read i = Ok (meta_at i)).
Context (dep_reads : ∀ i, dep_resolvable read i = Ok (resolvable i)).
Context (ids : gset OpId).

(** The dependencies of [i] its metadata names. *)
Definition deps_at (i : OpId) : gset OpId := from_option om_deps ∅ (meta_at i).

(** The records of [i] are complete. *)
Definition readable (i : OpId) : Prop := is_Some (meta_at i) ∧ resolvable i = true.

(** [i] is complete and needs nothing outside [ids] that cannot be resolved. *)
Definition sound (i : OpId) : Prop :=
  readable i ∧ ∀ d, d ∈ deps_at i → d ∈ ids ∨ resolvable d = true.

(** Holes: what cannot be ordered, and what depends on it. *)
Inductive hole : OpId → Prop :=
  | hole_here i : i ∈ ids → ¬ sound i → hole i
  | hole_dep i d : i ∈ ids → d ∈ deps_at i → d ∈ ids → hole d → hole i.

#[local] Instance sound_dec i : Decision (sound i).
Proof.
  unfold sound, readable.
  refine (cast_if_and3 (decide (is_Some (meta_at i))) (decide (resolvable i = true))
    (decide (set_Forall (λ d, d ∈ ids ∨ resolvable d = true) (deps_at i)))); naive_solver.
Defined.

Definition in_set (i : OpId) : gset OpId := deps_at i ∩ ids.

Lemma scan_deps_fold i l n children g :
  NoDup l →
  ∃ children', try_fold (scan_deps read ids i) (n, children, g) l =
    Ok (n + N.of_nat (size (list_to_set l ∩ ids : gset OpId)), children',
        g || negb (forallb (λ d, bool_decide (d ∈ ids) || resolvable d) l)) ∧
    ∀ c d, c ∈ default ∅ (children' !! d) ↔
      c ∈ default ∅ (children !! d) ∨ (c = i ∧ d ∈ l ∧ d ∈ ids).
Proof using dep_reads.
  revert n children g. induction l as [|e l IH]; intros n children g Hnd.
  { exists children. simpl. rewrite intersection_empty_l_L size_empty orb_false_r N.add_0_r.
    split; [done|]. intros c d. rewrite elem_of_nil. tauto. }
  apply NoDup_cons in Hnd as [He Hnd]. cbn [try_fold]. unfold scan_deps at 1.
  simpl list_to_set. cbn [forallb]. case_bool_decide as Hs.
  - destruct (IH (n + 1) (add_child children e i) g Hnd) as (ch & -> & Hch).
    assert (({[e]} ∪ list_to_set l) ∩ ids = {[e]} ∪ (list_to_set l ∩ ids)) as ->
      by (clear -Hs; set_solver).
    rewrite size_union; [clear -He; set_solver|]. rewrite size_singleton.
    eexists. split; [do 3 f_equal; lia|]. intros c d. rewrite Hch add_child_spec elem_of_cons.
    split; [|naive_solver]. intros [[[-> ->]|?]|(?&?&?)]; tauto.
  - rewrite dep_reads. res_step.
    destruct (IH n children (g || negb (resolvable e)) Hnd) as (ch & -> & Hch).
    assert (({[e]} ∪ list_to_set l) ∩ ids = list_to_set l ∩ ids) as -> by (clear -Hs; set_solver).
    eexists. split; [rewrite negb_andb orb_assoc; done|]. intros c d. rewrite Hch elem_of_cons.
    split; [tauto|]. intros [?|(? & [->|?] & ?)]; tauto.
Qed.

(** What the scan of [pre] leaves. *)
Definition scanned (pre : list OpId) (st : presence * gmap OpId (gset OpId) * gset OpId) : Prop :=
  let '(present, children, blocked) := st in
  (∀ i, present !! i =
    if decide (i ∈ pre ∧ sound i)
    then (λ m, (m, N.of_nat (size (in_set i)))) <$> meta_at i else None) ∧
  (∀ i, i ∈ blocked ↔ i ∈ pre ∧ ¬ sound i) ∧
  (∀ c d, c ∈ default ∅ (children !! d) ↔ c ∈ pre ∧ readable c ∧ d ∈ in_set c).

Lemma scan_op_ok pre st i :
  scanned pre st → i ∉ pre → ∃ st', scan_op read ids st i = Ok st' ∧ scanned (pre ++ [i]) st'.
Proof using meta_reads dep_reads.
  destruct st as [[present children] blocked]. intros (Hp & Hb & Hc) Hi.
  assert (∀ j, j ∈ pre ++ [i] ↔ j ∈ pre ∨ j = i) as Hsnoc.
  { intros j. by rewrite elem_of_app list_elem_of_singleton. }
  assert (∀ (P : Prop), ¬ sound i → (∀ c d, c ∈ default ∅ (children !! d) ↔ c ∈ pre ∧ readable c ∧ d ∈ in_set c) →
    (∀ j, present !! j = if decide (j ∈ pre ++ [i] ∧ sound j)
      then (λ m, (m, N.of_nat (size (in_set j)))) <$> meta_at j else None) ∧
    (∀ j, j ∈ {[i]} ∪ blocked ↔ j ∈ pre ++ [i] ∧ ¬ sound j)) as Hblocked.
  { intros _ Hns _. split; intros j.
    - rewrite Hp. apply decide_ext. rewrite Hsnoc. naive_solver.
    - rewrite elem_of_union elem_of_singleton Hb Hsnoc. naive_solver. }
  unfold scan_op. rewrite meta_reads. res_step.
  destruct (meta_at i) as [meta|] eqn:Hm.
  2: { assert (¬ readable i) as Hnr by (unfold readable; rewrite Hm; by intros [[] _]).
    destruct (Hblocked True) as [H1 H2]; [unfold sound; tauto|done|].
    eexists. split; [done|]. split_and!; [done..|]. intros c d. rewrite Hc Hsnoc.
    clear -Hnr. naive_solver. }
  rewrite dep_reads. res_step.
  destruct (resolvable i) eqn:Hr; simpl.
  2: { assert (¬ readable i) as Hnr by (unfold readable; rewrite Hr; by intros [_ ?]).
    destruct (Hblocked True) as [H1 H2]; [unfold sound; tauto|done|].
    eexists. split; [done|]. split_and!; [done..|]. intros c d. rewrite Hc Hsnoc.
    clear -Hnr. naive_solver. }
  destruct (scan_deps_fold i (bt_elements (om_deps meta)) 0 children false (bt_elements_NoDup _))
    as (children' & -> & Hch). cbn [mbind result_bind orb].
  assert (deps_at i = om_deps meta) as Hdeps by (unfold deps_at; by rewrite Hm).
  assert (readable i) as Hread by (unfold readable; rewrite Hm; by eauto).
  assert (∀ c d, c ∈ default ∅ (children' !! d) ↔ c ∈ pre ++ [i] ∧ readable c ∧ d ∈ in_set c) as Hc'.
  { intros c d. rewrite Hch Hc Hsnoc elem_of_bt_elements.
    assert (d ∈ in_set i ↔ d ∈ om_deps meta ∧ d ∈ ids) as Hd
      by (unfold in_set; by rewrite Hdeps elem_of_intersection). clear -Hd Hread. naive_solver. }
  destruct (forallb _ _) eqn:Hall; simpl.
  - assert (sound i) as Hsound.
    { split; [done|]. intros d Hd. rewrite forallb_forall in Hall. rewrite Hdeps in Hd.
      apply elem_of_bt_elements, list_elem_of_In, Hall, orb_true_iff in Hd.
      by rewrite bool_decide_eq_true in Hd. }
    assert (N.of_nat (size (list_to_set (bt_elements (om_deps meta)) ∩ ids : gset OpId)) =
      N.of_nat (size (in_set i))) as ->.
    { f_equal. f_equal. unfold in_set. rewrite Hdeps. apply set_eq. intros d.
      by rewrite !elem_of_intersection elem_of_list_to_set elem_of_bt_elements. }
    eexists. split; [done|]. split_and!; [..|done].
    + intros j. destruct (decide (i = j)) as [<-|Hne].
      * rewrite lookup_insert_eq decide_True; [rewrite Hsnoc; auto|]. by rewrite Hm.
      * rewrite lookup_insert_ne // Hp. apply decide_ext. rewrite Hsnoc.
        clear -Hne. naive_solver.
    + intros j. rewrite Hb Hsnoc. clear -Hsound. naive_solver.
  - destruct (Hblocked True) as [H1 H2]; [|done|eexists; split; [done|]; done].
    intros [_ Hdd]. apply not_true_iff_false in Hall. apply Hall, forallb_forall.
    intros d Hd%list_elem_of_In%elem_of_bt_elements. rewrite orb_true_iff bool_decide_eq_true.
    apply Hdd. by rewrite Hdeps.
Qed.

Lemma scan_ok :
  ∃ st, try_fold (scan_op read ids) (∅, ∅, ∅) (bt_elements ids) = Ok st ∧
    scanned (bt_elements ids) st.
Proof using meta_reads dep_reads.
  assert (∀ post pre st, NoDup (pre ++ post) → scanned pre st →
    ∃ st', try_fold (scan_op read ids) st post = Ok st' ∧ scanned (pre ++ post) st') as Hloop.
  { induction post as [|i post IH]; intros pre st Hnd Hst.
    { exists st. by rewrite app_nil_r. }
    destruct (scan_op_ok pre st i Hst) as (st' & Hst' & Hsc).
    { apply NoDup_app in Hnd as (_ & Hdis & _). intros Hi. apply (Hdis i Hi). by left. }
    cbn [try_fold]. rewrite Hst'. rewrite (cons_middle i pre post) app_assoc.
    apply IH; [|done]. by rewrite -app_assoc. }
  apply (Hloop (bt_elements ids) []); [apply bt_elements_NoDup|]. split_and!.
  - intros i. rewrite lookup_empty. case_decide as Hi; [|done]. by destruct Hi as [?%elem_of_nil _].
  - intros i. split; [set_solver|]. by intros [?%elem_of_nil _].
  - intros c d. rewrite lookup_empty. split; [set_solver|]. by intros [?%elem_of_nil _].
Qed.

(** ** Blocking what depends on a hole *)

Section block.
Context (present0 : presence) (children : gmap OpId (gset OpId)).
Context (children_spec : ∀ c d, c ∈ default ∅ (children !! d) ↔
  c ∈ ids ∧ readable c ∧ d ∈ in_set c).

(** The state of the blocking loop. *)
Definition blocking (st : presence * gset OpId * list OpId) : Prop :=
  let '(present, blocked, frontier) := st in
  (∀ i, i ∈ ids → ¬ sound i → i ∈ blocked) ∧
  (∀ i, i ∈ blocked → hole i) ∧
  (∀ i, present !! i = if decide (i ∈ blocked) then None else present0 !! i) ∧
  (∀ i, i ∈ frontier → i ∈ blocked).

Lemma block_fold l st :
  (∀ c, c ∈ l → c ∈ ids → hole c) → blocking st →
  let '(_, blocked, frontier) := st in
  let '(present', blocked', frontier') := foldl (block_child ids) st l in
  blocking (present', blocked', frontier') ∧
  (∀ i, i ∈ blocked' ↔ i ∈ blocked ∨ (i ∈ l ∧ i ∈ ids)) ∧
  (∀ i, i ∈ frontier' ↔ i ∈ frontier ∨ (i ∈ l ∧ i ∈ ids ∧ i ∉ blocked)) ∧
  (length frontier' + size (ids ∖ blocked') = length frontier + size (ids ∖ blocked))%nat.
Proof using Type.
  revert st. induction l as [|c l IH]; intros [[present blocked] frontier] Hh Hst; cbn [foldl].
  { split; [done|split; [|split; [|done]]]; intros i; rewrite elem_of_nil; tauto. }
  unfold block_child at 2. destruct (decide (c ∈ ids)) as [Hc|Hc].
  2: { rewrite bool_decide_false //=.
    specialize (IH (present, blocked, frontier)). simpl in IH.
    destruct (foldl _ _ l) as [[present' blocked'] frontier'].
    destruct IH as (? & Hb & Hf & ?); [|done|].
    { intros x Hx. apply Hh. by right. }
    split; [done|split; [|split; [|done]]]; intros i; rewrite ?Hb ?Hf elem_of_cons;
      clear -Hc; naive_solver. }
  rewrite bool_decide_true //. destruct (decide (c ∈ blocked)) as [Hcb|Hcb].
  - rewrite bool_decide_false /=; [tauto|].
    specialize (IH (present, blocked, frontier)). simpl in IH.
    destruct (foldl _ _ l) as [[present' blocked'] frontier'].
    destruct IH as (? & Hb & Hf & ?); [|done|].
    { intros x Hx. apply Hh. by right. }
    split; [done|split; [|split; [|done]]]; intros i; rewrite ?Hb ?Hf elem_of_cons;
      clear -Hc Hcb; naive_solver.
  - rewrite bool_decide_true /=; [done|].
    specialize (IH (delete c present, {[c]} ∪ blocked, c :: frontier)). simpl in IH.
    destruct (foldl _ _ l) as [[present' blocked'] frontier'].
    destruct IH as (? & Hb & Hf & Hlen); [|..|].
    { intros x Hx. apply Hh. by right. }
    { destruct Hst as (Hbase & Hsub & Hpre & Hfr). split_and!.
      - intros i Hi Hs. by apply elem_of_union_r, Hbase.
      - intros i [->%elem_of_singleton|Hi]%elem_of_union; [apply Hh; [by left|done]|by apply Hsub].
      - intros i. destruct (decide (i = c)) as [->|Hne].
        + rewrite lookup_delete_eq decide_True //. by apply elem_of_union_l, elem_of_singleton.
        + rewrite lookup_delete_ne // Hpre. apply decide_ext.
          rewrite elem_of_union elem_of_singleton. clear -Hne. naive_solver.
      - intros i [->|Hi]%elem_of_cons; [by apply elem_of_union_l, elem_of_singleton|].
        by apply elem_of_union_r, Hfr. }
    split; [done|split; [|split]].
    + intros i. rewrite Hb elem_of_cons elem_of_union elem_of_singleton.
      clear -Hc. naive_solver.
    + intros i. rewrite Hf !elem_of_cons elem_of_union elem_of_singleton.
      destruct (decide (i = c)) as [->|Hne]; [clear -Hc Hcb|clear -Hne]; naive_solver.
    + rewrite Hlen.
      assert (ids ∖ blocked = {[c]} ∪ (ids ∖ ({[c]} ∪ blocked))) as ->.
      { apply set_eq. intros i. rewrite !elem_of_union !elem_of_difference elem_of_union !elem_of_singleton.
        destruct (decide (i = c)) as [->|Hne]; [clear -Hc Hcb|clear -Hne]; naive_solver. }
      rewrite size_union; [clear; set_solver|]. rewrite size_singleton. simpl. lia.
Qed.

(** Every blocked operation whose children may be unblocked is still in the frontier. *)
Definition pursued (st : presence * gset OpId * list OpId) : Prop :=
  let '(_, blocked, frontier) := st in
  ∀ b c, b ∈ blocked → b ∉ frontier → c ∈ default ∅ (children !! b) → c ∈ blocked.

Lemma hole_in_ids i : hole i → i ∈ ids.
Proof using Type. by destruct 1. Qed.

Lemma block_loop_spec fuel st :
  blocking st → pursued st →
  (let '(_, blocked, frontier) := st in length frontier + size (ids ∖ blocked) ≤ fuel)%nat →
  let '(present, blocked) := block_loop fuel ids children st in
  (∀ i, i ∈ blocked ↔ hole i) ∧
  ∀ i, present !! i = if decide (i ∈ blocked) then None else present0 !! i.
Proof using children_spec.
  revert st. induction fuel as [|fuel IH]; intros [[present blocked] frontier] Hst Hpu Hfuel;
    destruct frontier as [|b frontier]; cbn [block_loop]; [|simpl in Hfuel; lia|..].
  1,2: destruct Hst as (Hbase & Hsub & Hpre & _); split; [|done]; intros i; split; [apply Hsub|];
    induction 1 as [i Hi Hs|i d Hi Hd Hdi _ IHd]; [by apply Hbase|];
    destruct (decide (sound i)) as [[Hr _]|?]; [|by apply Hbase];
    apply (Hpu d); [done|by apply not_elem_of_nil|];
    apply children_spec; unfold in_set; rewrite elem_of_intersection; done.
  pose proof Hst as (Hbase & Hsub & Hpre & Hfr).
  assert (b ∈ blocked) as Hb by (apply Hfr; by left).
  pose proof (block_fold (children_of children b) (present, blocked, frontier)) as Hfold.
  cbn beta iota in Hfold.
  destruct (foldl _ _ _) as [[present' blocked'] frontier'].
  destruct Hfold as (Hst' & Hb' & Hf' & Hlen).
  { intros c Hc _. unfold children_of in Hc. rewrite elem_of_bt_elements in Hc.
    apply children_spec in Hc as (? & _ & Hd). unfold in_set in Hd. apply elem_of_intersection in Hd as [??].
    by eapply hole_dep, Hsub. }
  { split_and!; [done..|]. intros i Hi. apply Hfr. by right. }
  apply IH; [done|..].
  - intros x c Hx Hxf Hc. destruct (decide (x = b)) as [->|Hne].
    + apply Hb'. right. pose proof Hc as Hc2. apply children_spec in Hc2 as [? _].
      unfold children_of. by rewrite elem_of_bt_elements.
    + apply Hb' in Hx. rewrite Hf' in Hxf.
      destruct (decide (x ∈ blocked)) as [Hxb|Hxb].
      * apply Hb'. left. apply (Hpu x); [done| |done]. rewrite elem_of_cons. clear -Hxf Hne. naive_solver.
      * exfalso. clear -Hx Hxf Hxb. naive_solver.
  - simpl in Hfuel. lia.
Qed.
End block.

(** ** Taking the rest in order *)

Section take.
Context (V : gset OpId) (metas : gmap OpId (OpMeta C)) (children : gmap OpId (gset OpId)).
Context (metas_dom : dom metas = V).
Context (in_set_sub : ∀ c, c ∈ V → in_set c ⊆ V).
Context (children_spec : ∀ c d, c ∈ V → c ∈ default ∅ (children !! d) ↔ d ∈ in_set c).

Record taking (present : presence) (ready : list OpId) (out : list OpId) : Prop := {
  tk_kahn : kahn_inv V in_set (λ c, snd <$> present !! c) (list_to_set ready) out;
  tk_ready : NoDup ready;
  tk_metas : ∀ c, fst <$> present !! c = if decide (c ∈ out) then None else metas !! c;
}.

Lemma count_off_fold (l : list OpId) present ready :
  NoDup l →
  let r := foldl count_off (present, ready) l in
  (∀ c, r.1 !! c = if decide (c ∈ l) then (λ e, (e.1, N.pred e.2)) <$> present !! c
    else present !! c) ∧
  r.2 = ready ++ filter (λ c, snd <$> r.1 !! c = Some 0) l.
Proof using Type.
  revert present ready. induction l as [|a l IH]; intros present ready Hnd; cbn [foldl].
  { split; [intros c; case_decide as Hc; [by apply elem_of_nil in Hc|done]|].
    simpl. by rewrite app_nil_r. }
  apply NoDup_cons in Hnd as [Ha Hnd].
  set (present1 := if present !! a is Some e then <[a := (e.1, N.pred e.2)]> present else present).
  set (ready1 := if decide (snd <$> present1 !! a = Some 0) then ready ++ [a] else ready).
  assert (count_off (present, ready) a = (present1, ready1)) as ->.
  { unfold count_off, ready1, present1. destruct (present !! a) as [[m n]|] eqn:Hn.
    - rewrite lookup_insert_eq /saturating_sub N.sub_1_r. f_equal.
      destruct (N.eqb_spec (N.pred n) 0) as [Hz|Hz]; case_decide as Hd; try done.
      + destruct Hd. by rewrite /= Hz.
      + by injection Hd.
    - rewrite Hn. by case_decide. }
  destruct (IH present1 ready1 Hnd) as [H1 H2]. split.
  - intros c. rewrite H1. unfold present1. destruct (decide (c = a)) as [->|Hne].
    + rewrite decide_False // decide_True; [by left|].
      destruct (present !! a) as [e|] eqn:He; [by rewrite lookup_insert_eq|by rewrite He].
    + assert ((if present !! a is Some e then <[a:=(e.1, N.pred e.2)]> present else present) !! c
        = present !! c) as ->.
      { destruct (present !! a); [by rewrite lookup_insert_ne|done]. }
      apply decide_ext. rewrite elem_of_cons. clear -Hne. naive_solver.
  - rewrite H2. rewrite filter_cons.
    assert ((foldl count_off (present1, ready1) l).1 !! a = present1 !! a) as Hsame
      by by rewrite H1 decide_False.
    unfold ready1 at 1. rewrite Hsame. case_decide as Hz; [|done]. by rewrite -app_assoc.
Qed.

Lemma taking_step present i ready out meta n :
  taking present (i :: ready) out → present !! i = Some (meta, n) →
  let r := foldl count_off (delete i present, ready) (children_of children i) in
  taking r.1 r.2 (out ++ [i]).
Proof using children_spec metas_dom.
  intros [Hk Hnd Hmet] Hpi r. apply NoDup_cons in Hnd as [Hi Hnd].
  destruct (count_off_fold (children_of children i) (delete i present) ready (bt_elements_NoDup _))
    as [H1 H2]. fold r in H1, H2.
  pose proof (proj1 (ki_ready _ _ _ _ _ Hk i) ltac:(rewrite elem_of_list_to_set; by left))
    as (HiV & Hiout & HiD).
  assert (∀ c, c ∈ V → c ∈ children_of children i ↔ i ∈ in_set c) as Hci.
  { intros c Hc. unfold children_of. rewrite elem_of_bt_elements. by apply children_spec. }
  assert (∀ c, c ∈ out ++ [i] ↔ c ∈ out ∨ c = i) as Hsnoc.
  { intros c. by rewrite elem_of_app list_elem_of_singleton. }
  assert (∀ c, is_Some (r.1 !! c) → c ∈ V ∧ c ∉ out ++ [i]) as Hdom.
  { intros c Hc. rewrite H1 in Hc.
    assert (is_Some (delete i present !! c)) as [Hne [e He]]%lookup_delete_is_Some.
    { case_decide; [by apply fmap_is_Some in Hc|done]. }
    specialize (Hmet c). rewrite He /= in Hmet. case_decide as Hco; [done|].
    split; [rewrite -metas_dom; apply elem_of_dom; by rewrite -Hmet|]. rewrite Hsnoc. clear -Hco Hne.
    naive_solver. }
  split.
  - eapply kahn_step; [exact Hk|rewrite elem_of_list_to_set; by left|..].
    + intros c HcV Hcout. rewrite H1. rewrite Hsnoc in Hcout.
      rewrite lookup_delete_ne; [clear -Hcout; naive_solver|].
      rewrite (decide_ext _ _ _ _ (Hci c HcV)). case_decide; [|done].
      by destruct (present !! c).
    + intros c. rewrite H2 list_to_set_app_L elem_of_union !elem_of_list_to_set list_elem_of_filter elem_of_cons.
      split.
      * intros [Hc|[H0 Hc]].
        -- left. split; [by right|]. by intros ->.
        -- right. assert (is_Some (r.1 !! c)) as [HcV Hcout]%Hdom.
           { destruct (r.1 !! c); [by eexists|done]. }
           by rewrite -Hci.
      * intros [[[->|Hc] Hne]|(HcV & Hcout & Hic & H0)]; [done|by left|right].
        by rewrite Hci.
  - rewrite H2. apply NoDup_app. split_and!; [done| |apply NoDup_filter, bt_elements_NoDup].
    intros c Hc [H0 Hcc]%list_elem_of_filter.
    assert (is_Some (r.1 !! c)) as [HcV Hcout]%Hdom.
    { destruct (r.1 !! c); [by eexists|done]. }
    apply Hci in Hcc; [|done].
    pose proof (proj1 (ki_ready _ _ _ _ _ Hk c) ltac:(rewrite elem_of_list_to_set; by right))
      as (_ & _ & HcD). apply HcD in Hcc. by rewrite elem_of_list_to_set in Hcc.
  - intros c. rewrite H1. assert (∀ o : option (OpMeta C * N),
      fst <$> ((λ e, (e.1, N.pred e.2)) <$> o) = fst <$> o) as Hfst by by intros [].
    assert (fst <$> (if decide (c ∈ children_of children i)
      then (λ e, (e.1, N.pred e.2)) <$> delete i present !! c else delete i present !! c) =
      fst <$> delete i present !! c) as ->.
    { case_decide; [apply Hfst|done]. }
    destruct (decide (c = i)) as [->|Hne].
    + rewrite lookup_delete_eq decide_True //. apply Hsnoc. by right.
    + rewrite lookup_delete_ne // Hmet. apply decide_ext. rewrite Hsnoc. clear -Hne. naive_solver.
Qed.

Lemma take_loop_spec fuel present ready out :
  taking present ready (om_id <$> out) → (∀ c m, metas !! c = Some m → om_id m = c) →
  (∀ m, m ∈ out → metas !! om_id m = Some m) → (size V ≤ fuel + length out)%nat →
  ∃ present' out', take_loop fuel children present ready out = out' ∧
    taking present' [] (om_id <$> out') ∧ ∀ m, m ∈ out' → metas !! om_id m = Some m.
Proof using children_spec metas_dom.
  intros Htk Hmid. revert present ready out Htk.
  induction fuel as [|fuel IH]; intros present ready out Htk Hout Hfuel;
    destruct ready as [|i ready]; cbn [take_loop]; try by exists present, out.
  all: pose proof (proj1 (ki_ready _ _ _ _ _ (tk_kahn _ _ _ Htk) i)
    ltac:(rewrite elem_of_list_to_set; by left)) as (HiV & Hiout & _).
  - exfalso. assert (length (om_id <$> out) < size V)%nat as Hlt; [|rewrite length_fmap in Hlt; lia].
    rewrite -(size_list_to_set (C := gset OpId)); [by eapply ki_nodup, tk_kahn|].
    apply subset_size. split.
    + intros c. rewrite elem_of_list_to_set. by eapply ki_sub, tk_kahn.
    + intros Hsub. apply Hsub in HiV. by rewrite elem_of_list_to_set in HiV.
  - pose proof (tk_metas _ _ _ Htk i) as Hmi. rewrite decide_False // in Hmi.
    rewrite -metas_dom in HiV. apply elem_of_dom in HiV as [meta Hmeta]. rewrite Hmeta in Hmi.
    destruct (present !! i) as [[m n]|] eqn:Hpi; simplify_eq/=.
    pose proof (taking_step present i ready _ meta n Htk Hpi) as Hstep.
    destruct (foldl _ _ _) as [present' ready']. apply IH.
    + rewrite fmap_app /= (Hmid i meta) //.
    + intros m [Hm| ->%list_elem_of_singleton]%elem_of_app; [by apply Hout|]. by rewrite (Hmid i).
    + rewrite length_app /=. lia.
Qed.
End take.

(** After the scan and the blocking, exactly the operations that are no holes are
    present, with the number of their dependencies in [ids]. *)
Lemma present_after_blocking :
  ∃ present children,
    (∃ st, try_fold (scan_op read ids) (∅, ∅, ∅) (bt_elements ids) = Ok st ∧
      st.1.2 = children ∧
      (block_loop (size ids) ids children (st.1.1, st.2, rev (bt_elements st.2))).1 = present) ∧
    (∀ i, present !! i = if decide (i ∈ dom present)
      then (λ m, (m, N.of_nat (size (in_set i)))) <$> meta_at i else None) ∧
    (∀ i, i ∈ dom present ↔ i ∈ ids ∧ ¬ hole i) ∧
    (∀ c d, c ∈ dom present → c ∈ default ∅ (children !! d) ↔ d ∈ in_set c).
Proof using meta_reads dep_reads.
  destruct scan_ok as ([[present0 children] blocked0] & Hscan & Hp0 & Hb & Hc).
  assert (∀ i, present0 !! i = if decide (i ∈ ids ∧ sound i)
    then (λ m, (m, N.of_nat (size (in_set i)))) <$> meta_at i else None) as Hp.
  { intros i. rewrite Hp0. apply decide_ext. by rewrite elem_of_bt_elements. }
  setoid_rewrite elem_of_bt_elements in Hb.
  setoid_rewrite elem_of_bt_elements in Hc.
  pose proof (block_loop_spec present0 children Hc (size ids)
    (present0, blocked0, rev (bt_elements blocked0))) as Hloop.
  destruct (block_loop _ _ _ _) as [present blocked] eqn:Hbl.
  assert (∀ i, i ∈ rev (bt_elements blocked0) ↔ i ∈ blocked0) as Hrev.
  { intros i. rewrite list_elem_of_In -in_rev -list_elem_of_In. apply elem_of_bt_elements. }
  destruct Hloop as [Hholes Hpresent].
  { split_and!.
    - intros i Hi Hs. by apply Hb.
    - intros i [Hi Hs]%Hb. by constructor.
    - intros i. rewrite Hp. destruct (decide (i ∈ blocked0)) as [[_ Hs]%Hb|_]; [|done].
      by rewrite decide_False; [naive_solver|].
    - intros i Hi. by apply Hrev. }
  { intros b c Hbb Hnf. destruct Hnf. by apply Hrev. }
  { rewrite length_rev bt_elements_length.
    assert (ids = blocked0 ∪ (ids ∖ blocked0)) as Hids.
    { apply union_difference_L. by intros i [? _]%Hb. }
    rewrite {2}Hids size_union; [clear; set_solver|]. done. }
  assert (∀ i, i ∈ dom present ↔ i ∈ ids ∧ ¬ hole i) as Hdom.
  { intros i. rewrite elem_of_dom Hpresent. case_decide as Hi.
    - apply Hholes in Hi. split; [by intros []|tauto].
    - rewrite Hp. case_decide as His.
      + destruct His as [Hii [[[m Hm] _] _]]. rewrite Hm /=. rewrite -Hholes. split; [done|by eexists].
      + split; [by intros []|]. intros [Hii Hnh]. destruct His. split; [done|].
        destruct (decide (sound i)); [done|]. destruct Hnh. by constructor. }
  exists present, children. split_and!.
  - eexists. split; [exact Hscan|]. split; [done|]. cbn [fst snd]. by rewrite Hbl.
  - intros i. rewrite Hpresent Hp. case_decide as Hi.
    + rewrite decide_False //. rewrite Hdom -Hholes. tauto.
    + apply decide_ext. rewrite Hdom -Hholes. split; [tauto|]. intros [Hii _]. split; [done|].
      destruct (decide (sound i)); [done|]. destruct Hi. apply Hholes. by constructor.
  - done.
  - intros c d [Hci Hch]%Hdom. rewrite Hc. split; [tauto|]. intros Hd. split_and!; [done| |done].
    destruct (decide (sound c)) as [[? _]|?]; [done|]. destruct Hch. by constructor.
Qed.

(** Where the loop that takes operations starts. *)
Lemma taking_start (present : presence) :
  (∀ i, present !! i = if decide (i ∈ dom present)
    then (λ m, (m, N.of_nat (size (in_set i)))) <$> meta_at i else None) →
  taking (dom present) (fst <$> present) present
    (omap (λ '(i, (_, count)), if (count : N) =? 0 then Some i else None) (bt_entries present)) [].
Proof using Type.
  intros Hpres. set (V := dom present). set (metas := fst <$> present). set (ready := omap _ _).
  assert (∀ c, c ∈ ready ↔ c ∈ V ∧ in_set c = ∅) as Hready.
  { intros c. unfold ready. rewrite list_elem_of_omap. split.
    - intros ([j [m n]] & Hj & Heq). apply elem_of_bt_entries in Hj.
      destruct (N.eqb_spec n 0) as [->|]; simplify_eq/=. pose proof Hj as Hj2.
      rewrite Hpres in Hj2. case_decide; [|done]. destruct (meta_at c); simplify_eq/=.
      split; [done|]. apply leibniz_equiv, size_empty_inv. lia.
    - intros [HcV Hd]. pose proof (Hpres c) as Hpc. rewrite decide_True // in Hpc.
      apply elem_of_dom in HcV as [e He]. rewrite He in Hpc.
      destruct (meta_at c) as [m|]; simplify_eq/=. exists (c, (m, N.of_nat (size (in_set c)))).
      rewrite elem_of_bt_entries. split; [done|]. by rewrite Hd size_empty. }
  split; simpl.
  - split; simpl; [constructor|by intros ? ?%elem_of_nil|by intros [] ? ?| |].
    + intros c HcV _. rewrite Hpres decide_True // difference_empty_L.
      apply elem_of_dom in HcV as [e He]. rewrite Hpres in He. case_decide; [|done].
      by destruct (meta_at c).
    + intros c. rewrite elem_of_list_to_set Hready. split.
      * intros [? ->]. split_and!; [done|by apply not_elem_of_nil|done].
      * intros (? & _ & He). split; [done|]. clear -He. set_solver.
  - unfold ready. clear Hready ready. pose proof (bt_entries_NoDup present) as Hnd.
    induction (bt_entries present) as [|[j [m n]] l IHl]; simpl; [constructor|].
    apply NoDup_cons in Hnd as [Hj Hnd]. destruct (n =? 0); [|by apply IHl].
    constructor; [|by apply IHl]. intros ([j' [m' n']] & Hin & Heq)%list_elem_of_omap.
    destruct (n' =? 0); simplify_eq/=. apply Hj. apply list_elem_of_fmap. by exists (j, (m', n')).
  - intros c. unfold metas. by rewrite lookup_fmap.
Qed.

(** C36: ordering stored operations leaves out exactly the holes: the result
    holds every other operation named once, each after the dependencies named with
    it, and every other dependency of it can be resolved in the store. Only
    operations that wait for each other, none of them a hole, are an error. *)
Theorem topological_meta_correct :
  (∀ i m, meta_at i = Some m → om_id m = i) →
  (∃ out, topological_meta read ids = Ok out ∧ NoDup (om_id <$> out) ∧
    (∀ i, i ∈ om_id <$> out ↔ i ∈ ids ∧ ¬ hole i) ∧
    (∀ m, m ∈ out → meta_at (om_id m) = Some m) ∧
    (∀ l1 m l2 d, out = l1 ++ m :: l2 → d ∈ om_deps m →
      d ∈ om_id <$> l1 ∨ (d ∉ ids ∧ resolvable d = true))) ∨
  (topological_meta read ids = Err (Storage "cycle in op graph") ∧
    ∃ U : gset OpId, U ≠ ∅ ∧ ∀ c, c ∈ U → c ∈ ids ∧ ¬ hole c ∧ ∃ d, d ∈ U ∧ d ∈ deps_at c).
Proof using meta_reads dep_reads.
  intros Hmid. destruct present_after_blocking
    as (present & children & ([[present0 children0] blocked0] & Hscan & Hch0 & Hbl) & Hpres & Hdom & Hch).
  simpl in Hch0. subst children0. cbn [fst snd] in Hbl.
  unfold topological_meta. rewrite Hscan. res_step.
  destruct (block_loop _ _ _ _) as [present' blocked']. simpl in Hbl. subst present'.
  set (V := dom present). set (metas := fst <$> present).
  assert (dom metas = V) as HV by (unfold metas; by rewrite dom_fmap_L).
  assert (∀ c, c ∈ V → in_set c ⊆ V) as Hsub.
  { intros c [Hci Hch']%Hdom d [Hd Hdi]%elem_of_intersection. apply Hdom. split; [done|].
    intros Hdh. apply Hch'. by eapply hole_dep. }
  assert (∀ c m, metas !! c = Some m → meta_at c = Some m) as Hmetas.
  { intros c m. unfold metas. rewrite lookup_fmap Hpres. case_decide; [|done].
    by destruct (meta_at c). }
  set (ready := omap _ _).
  pose proof (taking_start present Hpres) as Htk. fold ready V metas in Htk.
  destruct (take_loop_spec V metas children HV Hch (size present) present ready [] Htk)
    as (p' & out & -> & Hend & Hout).
  { intros c m Hm%Hmetas. by apply Hmid. }
  { by intros m ?%elem_of_nil. }
  { unfold V. rewrite size_dom /=. lia. }
  destruct (kahn_end _ _ Hsub _ _ (tk_kahn _ _ _ _ _ Hend)) as [[Hlen Hall]|[Hlen (Hne & HU & Hst)]];
    rewrite length_fmap /V size_dom in Hlen.
  - left. exists out. rewrite decide_True //. split_and!; [done|..].
    + by eapply ki_nodup, tk_kahn.
    + intros i. by rewrite Hall Hdom.
    + intros m Hm. by apply Hmetas, Hout.
    + intros l1 m l2 d -> Hd.
      assert (meta_at (om_id m) = Some m) as Hm by (apply Hmetas, Hout; set_solver).
      assert (d ∈ deps_at (om_id m)) as Hda by (unfold deps_at; by rewrite Hm).
      destruct (decide (d ∈ ids)) as [Hdi|Hdi].
      * left. assert (d ∈ in_set (om_id m)) as Hdin by (apply elem_of_intersection; done).
        eapply (ki_topo _ _ _ _ _ (tk_kahn _ _ _ _ _ Hend)) in Hdin; [|by rewrite fmap_app].
        by rewrite elem_of_list_to_set in Hdin.
      * right. split; [done|]. assert (om_id m ∈ V) as [Hmi Hmh]%Hdom.
        { apply Hall, list_elem_of_fmap_2. set_solver. }
        destruct (decide (sound (om_id m))) as [[_ Hs]|?]; [|destruct Hmh; by constructor].
        by destruct (Hs d Hda).
  - right. rewrite decide_False //. split; [done|]. eexists. split; [exact Hne|].
    intros c Hc. pose proof (HU c Hc) as [? ?]%Hdom. split_and!; [done..|].
    destruct (Hst c Hc) as (d & HdU & Hd). exists d. split; [done|].
    by apply elem_of_intersection in Hd as [? _].
Qed.
End topology.

(** A store of three operations; the third depends on one that is not there. *)
Definition toy_meta (i : N) (ds : gset OpId) : OpMeta unit := {|
  om_id := small_id i; om_topic_id := small_id 1; om_author := small_id 3;
  om_actor_id := small_id 2; om_actor_seq := i; om_actor_prev := None; om_deps := ds;
  om_generation := i; om_observed_clock := (); om_ready := true; om_missing_deps := ∅ |}.
Definition toy_metas : gmap OpId (OpMeta unit) :=
  {[small_id 1 := toy_meta 1 ∅; small_id 2 := toy_meta 2 {[small_id 1]};
    small_id 3 := toy_meta 3 {[small_id 9]}]}.
Definition toy_read : SnapshotRead unit := {|
  get_meta i := Ok (toy_metas !! i);
  get_op _ := Ok None;
  dep_resolvable i := Ok (bool_decide (is_Some (toy_metas !! i))) |}.

Lemma topological_meta_correct_witness :
  ∃ out, topological_meta toy_read {[small_id 1; small_id 2; small_id 3]} = Ok out ∧
    om_id <$> out = [small_id 1; small_id 2] ∧
    ∀ i, i ∈ om_id <$> out → ¬ hole (λ i, toy_metas !! i)
      (λ i, bool_decide (is_Some (toy_metas !! i))) {[small_id 1; small_id 2; small_id 3]} i.
Proof.
  destruct (topological_meta_correct toy_read (λ i, toy_metas !! i)
    (λ i, bool_decide (is_Some (toy_metas !! i))) ltac:(done) ltac:(done)
    {[small_id 1; small_id 2; small_id 3]}) as [(out & Hok & _ & Hin & _)|[Herr _]].
  - assert (map_Forall (λ i m, om_id m = i) toy_metas) as Hall
      by (apply (bool_decide_unpack _); vm_compute; done). exact Hall.
  - exists out. split; [done|]. split; [|intros i Hi; by apply Hin in Hi as []].
    vm_compute in Hok. by injection Hok as <-.
  - vm_compute in Herr. discriminate Herr.
Defined.
