(* ===== verification/Evidence.v ===== *)
(** * Acknowledgements, obligations and sync status ([src/src/storage/evidence.rs])

    What a peer proved to hold ([PeerAck]), what it is still owed
    ([SyncObligation]) and how its attempts went ([SyncPeerStatus]). Clocks are used
    through [ClockImpl]. *)

From S2P Require Import Prelude Ids Frame ClockSpec Types.

#[local] Open Scope N_scope.

Definition MAX_REPAIR_IDS : nat := 4096.
Definition MAX_RECENT_ATTEMPTS : nat := 32.

Record PeerAck (C : Type) := {
  ack_peer_id : PeerId;
  ack_topic_id : TopicId;
  ack_genesis : option OpId;
  ack_heads : gset OpId;
  ack_clock : C;
}.
Arguments ack_peer_id {C}. Arguments ack_topic_id {C}. Arguments ack_genesis {C}.
Arguments ack_heads {C}. Arguments ack_clock {C}.

Inductive ObligationTarget (C : Type) :=
  | ClockTarget (clock : C)
  | RepairTarget (ids : gset OpId).
Arguments ClockTarget {C}. Arguments RepairTarget {C}.

Record SyncObligation (C : Type) := {
  ob_peer_id : PeerId;
  ob_topic_id : TopicId;
  ob_target : ObligationTarget C;
}.
Arguments ob_peer_id {C}. Arguments ob_topic_id {C}. Arguments ob_target {C}.

(** [AckCommit] *)
Inductive AckCommit := Certify | Retain.

#[global] Instance AckCommit_eq_dec : EqDecision AckCommit.
Proof. solve_decision. Defined.

Section evidence.
Context {C : Type} `{!ClockImpl C}.
Implicit Types (ack existing incoming : PeerAck C) (ob : SyncObligation C).

Definition set_target ob (target : ObligationTarget C) : SyncObligation C :=
  {| ob_peer_id := ob_peer_id ob; ob_topic_id := ob_topic_id ob; ob_target := target |}.

(** [SyncObligation::is_empty] *)
Definition ob_is_empty ob : bool :=
  match ob_target ob with
  | ClockTarget clock => ck_is_empty clock
  | RepairTarget ids => bool_decide (ids = ∅)
  end.

(** [ack_covers] *)
Definition ack_covers (ack : option (PeerAck C)) (genesis : option OpId) ob : bool :=
  match ob_target ob with
  | ClockTarget target =>
      bool_decide (is_Some genesis) &&
      match ack with
      | Some ack => bool_decide (ack_genesis ack = genesis) && ck_dominates (ack_clock ack) target
      | None => false
      end
  | RepairTarget _ => false
  end.

(** [merged_obligation] *)
Definition merged_obligation (existing : option (SyncObligation C)) (incoming : SyncObligation C)
    : res (SyncObligation C) :=
  if (match ob_target incoming with
      | RepairTarget ids => bool_decide (MAX_REPAIR_IDS < size ids)%nat
      | ClockTarget _ => false
      end)
  then Err (Storage "repair obligation exceeds its id limit")
  else
    match existing with
    | None => Ok incoming
    | Some merged =>
        match ob_target merged, ob_target incoming with
        | ClockTarget stored, ClockTarget clock =>
            Ok (set_target merged (ClockTarget (ck_merge stored clock)))
        | RepairTarget stored, RepairTarget ids =>
            if bool_decide (MAX_REPAIR_IDS < size (stored ∪ ids))%nat
            then Err (Storage "repair obligation exceeds its id limit")
            else Ok (set_target merged (RepairTarget (stored ∪ ids)))
        | _, _ => Err (Storage "obligation kinds differ under one key")
        end
    end.

(** [settled_obligation]; [meta] resolves a repair id's position. *)
Definition settled_obligation ob ack (meta : OpId → res (option OpPosition))
    : res (option (SyncObligation C)) :=
  target ←
    match ob_target ob with
    | ClockTarget target =>
        Ok (ClockTarget (foldl (λ rest '(actor, seq),
          if ck_get (ack_clock ack) actor <? seq then ck_observe rest actor seq else rest)
          ck_new (ck_iter target)))
    | RepairTarget ids =>
        rest ← try_fold (λ (rest : gset OpId) i,
          covered ← (if bool_decide (i ∈ ack_heads ack) then Ok true
            else
              m ← meta i;
              Ok match m with
                 | Some m => bool_decide (pos_topic_id m = ob_topic_id ob) &&
                     (pos_actor_seq m <=? ck_get (ack_clock ack) (pos_actor_id m))
                 | None => false
                 end);
          Ok (if (covered : bool) then rest else {[i]} ∪ rest)) ∅ (bt_elements ids);
        Ok (RepairTarget rest)
    end;
  let rest := set_target ob target in
  Ok (if ob_is_empty rest then None else Some rest).

(** [ack_reached_op] *)
Definition ack_reached_op ack (genesis : OpId) (i : OpId) (position : OpPosition) : bool :=
  bool_decide (ack_genesis ack = Some genesis) &&
  (bool_decide (i ∈ ack_heads ack) ||
   (pos_actor_seq position <=? ck_get (ack_clock ack) (pos_actor_id position))).

(** [ack_commit] *)
Definition ack_commit (state : option TopicState) ack : res AckCommit :=
  match state with
  | None => Ok Retain
  | Some state =>
      if negb (bool_decide (ack_genesis ack = Some (ts_genesis state))) then Err StaleIncarnation
      else if negb (bool_decide (ack_peer_id ack ∈ ts_members state)) then Err NotTopicMember
      else Ok Certify
  end.

(** [same_incarnation] *)
Definition same_incarnation existing incoming : bool :=
  bool_decide (ack_peer_id existing = ack_peer_id incoming) &&
  bool_decide (ack_topic_id existing = ack_topic_id incoming) &&
  bool_decide (is_Some (ack_genesis existing)) &&
  bool_decide (ack_genesis existing = ack_genesis incoming).

(** [stored_ack_dominates] *)
Definition stored_ack_dominates existing incoming : bool :=
  same_incarnation existing incoming && ck_dominates (ack_clock existing) (ack_clock incoming).

(** [merged_peer_ack] *)
Definition merged_peer_ack existing incoming : PeerAck C :=
  {| ack_peer_id := ack_peer_id incoming; ack_topic_id := ack_topic_id incoming;
     ack_genesis := ack_genesis incoming; ack_heads := ack_heads incoming;
     ack_clock :=
       if same_incarnation existing incoming
       then ck_merge (ack_clock incoming) (ack_clock existing)
       else ack_clock incoming |}.

(** ** Settling *)

Lemma settle_clock_view (clock target : C) :
  ck_view (foldl (λ rest '(actor, seq),
      if ck_get clock actor <? seq then ck_observe rest actor seq else rest)
    ck_new (ck_iter target)) =
  filter (λ e, ck_get clock e.1 < e.2) (ck_view target).
Proof.
  rewrite ck_iter_view.
  enough (∀ (l : list (ActorId * N)) rest, NoDup l.*1 →
    (∀ a, a ∈ l.*1 → ck_view rest !! a = None) →
    ck_view (foldl (λ rest '(actor, seq),
      if ck_get clock actor <? seq then ck_observe rest actor seq else rest) rest l) =
    filter (λ e, ck_get clock e.1 < e.2) (list_to_map l) ∪ ck_view rest) as Hgen.
  { rewrite Hgen; [apply bt_entries_NoDup|intros; by rewrite ck_view_new lookup_empty|].
    by rewrite list_to_map_bt_entries ck_view_new (right_id_L ∅ (∪)). }
  induction l as [|[a s] l IH]; intros rest Hnd Hno; cbn [foldl].
  { simpl. by rewrite map_filter_empty (left_id_L ∅ (∪)). }
  apply NoDup_cons in Hnd as [Ha Hnd]. simpl list_to_map.
  assert ((list_to_map l : gmap ActorId N) !! a = None) as Hla
    by by apply not_elem_of_list_to_map_1.
  destruct (N.ltb_spec (ck_get clock a) s) as [Hlt|Hge].
  - rewrite IH //.
    + intros b Hb. rewrite ck_view_observe lookup_insert_ne; [by intros ->|]. apply Hno. by right.
    + rewrite map_filter_insert_True // ck_view_observe (Hno a); [by left|].
      rewrite /= N.max_0_l -insert_union_r; [|by rewrite insert_union_l].
      apply map_lookup_filter_None. by left.
  - rewrite IH //; [intros b Hb; apply Hno; by right|].
    rewrite map_filter_insert_False /=; [lia|]. rewrite delete_id //.
Qed.

(** A repair id is proved by [ack]. *)
Definition repaired ob ack (meta : OpId → option OpPosition) (i : OpId) : Prop :=
  i ∈ ack_heads ack ∨ ∃ m, meta i = Some m ∧ pos_topic_id m = ob_topic_id ob ∧
    pos_actor_seq m ≤ ck_get (ack_clock ack) (pos_actor_id m).

Lemma settle_repair ob ack (meta : OpId → option OpPosition) (l : list OpId) (r0 : gset OpId) :
  ∃ rest, try_fold (λ (rest : gset OpId) i,
      covered ← (if bool_decide (i ∈ ack_heads ack) then Ok true
        else
          m ← Ok (meta i);
          Ok match m with
             | Some m => bool_decide (pos_topic_id m = ob_topic_id ob) &&
                 (pos_actor_seq m <=? ck_get (ack_clock ack) (pos_actor_id m))
             | None => false
             end);
      Ok (if (covered : bool) then rest else {[i]} ∪ rest)) r0 l = (Ok rest : res (gset OpId)) ∧
    ∀ i, i ∈ rest ↔ i ∈ r0 ∨ (i ∈ l ∧ ¬ repaired ob ack meta i).
Proof.
  revert r0. induction l as [|i l IH]; intros r0; cbn [try_fold].
  { exists r0. split; [done|]. intros i. rewrite elem_of_nil. tauto. }
  set (covered := if bool_decide (i ∈ ack_heads ack) then _ else _).
  assert (∃ b, covered = Ok b ∧ (b = true ↔ repaired ob ack meta i)) as (b & -> & Hb).
  { unfold covered, repaired. case_bool_decide as Hh.
    - exists true. split; [done|]. split; [by left|done].
    - res_step. eexists. split; [done|]. destruct (meta i) as [m|].
      + rewrite andb_true_iff bool_decide_eq_true N.leb_le. split.
        * intros [??]. right. by exists m.
        * intros [?|(m' & [= <-] & ? & ?)]; done.
      + split; [done|]. by intros [?|(m' & ? & _)]. }
  res_step. destruct (IH (if b then r0 else {[i]} ∪ r0)) as (rest & Hrest & Hin).
  exists rest. split; [exact Hrest|]. intros j. rewrite Hin elem_of_cons.
  destruct b.
  - split; [tauto|]. intros [?|[[->|?] Hn]]; [tauto| |tauto]. destruct Hn. by apply Hb.
  - rewrite elem_of_union elem_of_singleton. split; [|tauto].
    intros [[->|?]|?]; [|tauto..]. right. split; [by left|]. rewrite -Hb. done.
Qed.

(** An acknowledgement clears exactly what it proves. Of a clock target
    the entries beyond the acknowledged clock remain, of a repair target the ids it
    neither names as heads nor covers by position; nothing remains exactly when
    everything is proved, and the peer and topic stay the same. *)
Theorem settled_obligation_exact ob ack (meta : OpId → option OpPosition) :
  ∃ rest, settled_obligation ob ack (λ i, Ok (meta i)) = Ok rest ∧
  match ob_target ob, rest with
  | ClockTarget target, None => ∀ a, default 0 (ck_view target !! a) ≤ ck_get (ack_clock ack) a
  | ClockTarget target, Some rest => ∃ c, rest = set_target ob (ClockTarget c) ∧
      ck_view c = filter (λ e, ck_get (ack_clock ack) e.1 < e.2) (ck_view target) ∧
      ck_view c ≠ ∅
  | RepairTarget ids, None => ∀ i, i ∈ ids → repaired ob ack meta i
  | RepairTarget ids, Some rest => ∃ left, rest = set_target ob (RepairTarget left) ∧ left ≠ ∅ ∧
      ∀ i, i ∈ left ↔ i ∈ ids ∧ ¬ repaired ob ack meta i
  end.
Proof.
  unfold settled_obligation. destruct (ob_target ob) as [target|ids] eqn:Ht.
  - res_step. eexists. split; [done|]. unfold ob_is_empty. cbn [ob_target set_target].
    rewrite ck_is_empty_view settle_clock_view. case_bool_decide as He.
    + intros a. destruct (ck_view target !! a) as [s|] eqn:Hs; simpl; [|lia].
      apply N.nlt_ge. intros Hlt.
      assert (filter (λ e, ck_get (ack_clock ack) e.1 < e.2) (ck_view target) !! a = Some s) as Hf
        by by apply map_lookup_filter_Some. by rewrite He lookup_empty in Hf.
    + eexists. split; [done|]. by rewrite settle_clock_view.
  - destruct (settle_repair ob ack meta (bt_elements ids) ∅) as (rest & Hrest & Hin).
    setoid_rewrite elem_of_bt_elements in Hin.
    cbn [mbind result_bind] in Hrest |- *. rewrite Hrest. eexists. split; [done|].
    unfold ob_is_empty. cbn [ob_target set_target]. case_bool_decide as He.
    + intros i Hi. destruct (Hin i) as [_ Hr].
      assert (Decision (repaired ob ack meta i)) as Hd.
      { unfold repaired. apply or_dec; [apply _|]. destruct (meta i) as [m|].
        - destruct (decide (pos_topic_id m = ob_topic_id ob ∧
            pos_actor_seq m ≤ ck_get (ack_clock ack) (pos_actor_id m))); [left|right].
          + by exists m.
          + by intros (m' & [= <-] & ?).
        - right. by intros (m' & ? & _). }
      destruct (decide (repaired ob ack meta i)); [done|].
      exfalso. apply (not_elem_of_empty (C := gset OpId) i). rewrite -He. apply Hr. by right.
    + exists rest. split_and!; [done..|]. intros i. rewrite Hin. set_solver.
Qed.

(** ** Acknowledgements of one branch only grow *)

(** The record [apply_ack_locked] stores: the stored one when it already covers the
    incoming one, else the two merged. *)
Definition effective_ack (existing : option (PeerAck C)) ack : PeerAck C :=
  match existing with
  | Some existing =>
      if stored_ack_dominates existing ack then existing else merged_peer_ack existing ack
  | None => ack
  end.

Lemma same_incarnation_true existing incoming :
  same_incarnation existing incoming = true ↔
    ack_peer_id existing = ack_peer_id incoming ∧ ack_topic_id existing = ack_topic_id incoming ∧
    is_Some (ack_genesis existing) ∧ ack_genesis existing = ack_genesis incoming.
Proof. unfold same_incarnation. autorewrite with reflect. tauto. Qed.

(** Recording an acknowledgement never forgets what the same peer proved of
    the same branch: the stored clock is the pointwise maximum of both. Evidence of
    another branch, or evidence that names none, is replaced and lends nothing. *)
Theorem effective_ack_grows existing ack :
  let stored := effective_ack (Some existing) ack in
  ack_genesis stored = ack_genesis ack ∧
  ∀ a, ck_get (ack_clock stored) a =
    if same_incarnation existing ack
    then N.max (ck_get (ack_clock existing) a) (ck_get (ack_clock ack) a)
    else ck_get (ack_clock ack) a.
Proof.
  intros stored. unfold stored, effective_ack, stored_ack_dominates, merged_peer_ack.
  destruct (same_incarnation existing ack) eqn:Hsame; [|done]. simpl.
  apply same_incarnation_true in Hsame as (_ & _ & _ & Hg).
  destruct (ck_dominates _ _) eqn:Hdom.
  - split; [done|]. intros a. rewrite ck_dominates_view in Hdom. rewrite !ck_get_view.
    specialize (Hdom a). lia.
  - split; [done|]. intros a. cbn [ack_clock]. rewrite ck_get_merge. lia.
Qed.
End evidence.

(** ** Sync status *)

Inductive SyncPeerState := Idle | Healthy | Behind | Failed.

#[global] Instance SyncPeerState_eq_dec : EqDecision SyncPeerState.
Proof. solve_decision. Defined.

Record SyncPeerStatus := {
  st_peer_id : PeerId;
  st_topic_id : TopicId;
  st_state : SyncPeerState;
  st_pending_obligations : N;
  st_failed_attempts : N;
  st_successful_attempts : N;
  st_last_attempt_ms : option N;
  st_last_success_ms : option N;
  st_last_error : option string;
  st_latest_attempt : option (N * N);
  st_recent_attempts : list (N * N);
}.

Inductive SyncStateUpdate :=
  | Keep
  | SetState (state : SyncPeerState)
  | BehindUnlessFailed.

Record SyncStatusUpdate := {
  up_successful_attempts : N;
  up_failed_attempts : N;
  up_state : SyncStateUpdate;
  up_pending_obligations : option N;
  up_last_attempt_ms : option N;
  up_last_success_ms : option N;
  up_last_error : option (option string);
  up_expected_attempts : option N;
  up_attempt : option (N * N);
}.

(** [new_peer_status] *)
Definition new_peer_status (p : PeerId) (t : TopicId) : SyncPeerStatus := {|
  st_peer_id := p; st_topic_id := t; st_state := Idle; st_pending_obligations := 0;
  st_failed_attempts := 0; st_successful_attempts := 0; st_last_attempt_ms := None;
  st_last_success_ms := None; st_last_error := None; st_latest_attempt := None;
  st_recent_attempts := [] |}.

(** [stale_outcome] *)
Definition stale_outcome (status : SyncPeerStatus) (update : SyncStatusUpdate) : bool :=
  match up_last_attempt_ms update with
  | None => false
  | Some attempt_ms =>
      match st_last_attempt_ms status with Some newest => attempt_ms <? newest | None => false end
      || ((0 <? up_failed_attempts update) && (up_successful_attempts update =? 0) &&
          match st_last_success_ms status with Some ok => attempt_ms <=? ok | None => false end)
  end.

(** [recent_attempts.push(attempt); sort_unstable(); drain(..excess)] *)
Definition remember (recent : list (N * N)) (attempt : N * N) : list (N * N) :=
  let recent := merge_sort ble (recent ++ [attempt]) in
  drop (length recent - MAX_RECENT_ATTEMPTS) recent.

(** [last_ms.unwrap_or(ms).max(ms)] *)
Definition later (last : option N) (ms : option N) : option N :=
  match ms with Some ms => Some (N.max (default ms last) ms) | None => last end.

(** [apply_status_update]: the status after it and what it returns. *)
Definition apply_status_update (status : SyncPeerStatus) (update : SyncStatusUpdate)
    : SyncPeerStatus * bool :=
  let attempts := saturating_add (st_successful_attempts status) (st_failed_attempts status) in
  let expected :=
    match up_expected_attempts update with Some want => want =? attempts | None => true end in
  let finish (latest : option (N * N)) (recent : list (N * N)) (current : bool) :=
    let counted := (0 <? up_successful_attempts update) || (0 <? up_failed_attempts update)
      || bool_decide (is_Some (up_attempt update)) in
    let status' := {|
      st_peer_id := st_peer_id status; st_topic_id := st_topic_id status;
      st_state :=
        if current then
          match up_state update with
          | Keep => st_state status
          | SetState state => state
          | BehindUnlessFailed =>
              if decide (st_state status = Failed) then st_state status else Behind
          end
        else st_state status;
      st_pending_obligations :=
        if current then default (st_pending_obligations status) (up_pending_obligations update)
        else st_pending_obligations status;
      st_failed_attempts := saturating_add (st_failed_attempts status) (up_failed_attempts update);
      st_successful_attempts :=
        saturating_add (st_successful_attempts status) (up_successful_attempts update);
      st_last_attempt_ms := later (st_last_attempt_ms status) (up_last_attempt_ms update);
      st_last_success_ms := later (st_last_success_ms status) (up_last_success_ms update);
      st_last_error :=
        if current then default (st_last_error status) (up_last_error update)
        else st_last_error status;
      st_latest_attempt := latest;
      st_recent_attempts := recent |} in
    (status', if current then true else counted) in
  match up_attempt update with
  | Some attempt =>
      if bool_decide (st_latest_attempt status = Some attempt)
         || bool_decide (attempt ∈ st_recent_attempts status)
      then (status, false)
      else
        let current := expected &&
          match st_latest_attempt status with Some latest => bltb latest attempt | None => true end in
        finish (if current then Some attempt else st_latest_attempt status)
          (remember (st_recent_attempts status) attempt) current
  | None =>
      finish (st_latest_attempt status) (st_recent_attempts status)
        (expected && negb (stale_outcome status update))
  end.

(** A status remembers a bounded, ascending list of attempts. *)
Definition status_ok (status : SyncPeerStatus) : Prop :=
  StronglySorted blt (st_recent_attempts status) ∧
  (length (st_recent_attempts status) ≤ MAX_RECENT_ATTEMPTS)%nat.

Lemma remember_ok recent attempt :
  StronglySorted blt recent → (length recent ≤ MAX_RECENT_ATTEMPTS)%nat → attempt ∉ recent →
  StronglySorted blt (remember recent attempt) ∧
  (length (remember recent attempt) ≤ MAX_RECENT_ATTEMPTS)%nat.
Proof.
  intros Hs Hl Hno. unfold remember.
  assert (NoDup (merge_sort ble (recent ++ [attempt]))) as Hnd.
  { rewrite merge_sort_Permutation. apply NoDup_app. split_and!; [| |apply NoDup_singleton].
    - clear -Hs. induction Hs as [|x l Hs IH Hall]; [constructor|]. constructor; [|done].
      rewrite Forall_forall in Hall. intros Hx%Hall. by apply blt_irrefl in Hx.
    - intros x Hx ->%list_elem_of_singleton. done. }
  assert (StronglySorted ble (merge_sort ble (recent ++ [attempt]))) as Hsort
    by apply (StronglySorted_merge_sort ble _).
  revert Hnd Hsort. generalize (merge_sort ble (recent ++ [attempt])) as l. intros l Hnd Hsort.
  split; [|rewrite length_drop; lia].
  assert (StronglySorted blt l) as Hlt.
  { induction Hsort as [|x l Hso IH Hall]; [constructor|]. apply NoDup_cons in Hnd as [Hx Hnd].
    constructor; [by apply IH|]. rewrite Forall_forall in Hall. apply Forall_forall.
    intros y Hy. destruct (proj1 (ble_lt_eq x y) (Hall y Hy)) as [?|<-]; done. }
  rewrite -(take_drop (length l - MAX_RECENT_ATTEMPTS) l) in Hlt.
  by apply StronglySorted_app_1_r in Hlt.
Qed.

(** The gauges of a status. *)
Definition gauges (s : SyncPeerStatus) : SyncPeerState * N * option string :=
  (st_state s, st_pending_obligations s, st_last_error s).

(** A status stays bounded and ordered; an attempt counted once is never
    counted again; the newest attempt recorded never goes back, and an outcome of an
    older attempt changes counters only, never the state, error or pending gauge. *)
Theorem apply_status_update_ok status update :
  status_ok status →
  let '(status', changed) := apply_status_update status update in
  status_ok status' ∧
  (∀ a, up_attempt update = Some a →
    (a ∈ st_recent_attempts status ∨ st_latest_attempt status = Some a →
      status' = status ∧ changed = false) ∧
    (∀ latest, st_latest_attempt status = Some latest → ble a latest →
      gauges status' = gauges status ∧ st_latest_attempt status' = Some latest)) ∧
  (∀ latest, st_latest_attempt status = Some latest →
    ∃ latest', st_latest_attempt status' = Some latest' ∧ ble latest latest') ∧
  (changed = false → gauges status' = gauges status).
Proof.
  intros [Hs Hl]. unfold apply_status_update. destruct (up_attempt update) as [a|] eqn:Ha.
  - destruct (bool_decide (st_latest_attempt status = Some a)
      || bool_decide (a ∈ st_recent_attempts status)) eqn:Hseen.
    { split; [done|]. split; [by intros ? _|]. split; [|done]. intros latest ->. by exists latest. }
    apply orb_false_iff in Hseen as [Hne Hno].
    apply bool_decide_eq_false in Hne, Hno.
    destruct (remember_ok _ a Hs Hl Hno) as [Hs' Hl'].
    set (expected := match up_expected_attempts update with Some _ => _ | None => _ end).
    set (newest := match st_latest_attempt status with Some _ => _ | None => _ end).
    split; [done|]. split; [|split].
    + intros b [= <-]. split; [by intros [?|?]|]. intros latest Hlat Hle. unfold newest. rewrite Hlat.
      assert (bltb latest a = false) as -> by by apply bltb_ge. by rewrite andb_false_r.
    + intros latest Hlat. unfold newest. rewrite Hlat. simpl.
      destruct (expected && bltb latest a) eqn:Hc; [|by exists latest].
      exists a. split; [done|]. apply andb_true_iff in Hc as [_ Hc%bltb_lt].
      apply ble_lt_eq. by left.
    + intros Hch. destruct (expected && newest); [done|]. done.
  - split; [done|]. split; [done|]. split.
    + intros latest ->. by exists latest.
    + by destruct (_ && negb _).
Qed.

Definition toy_update (attempt : N * N) (state : SyncPeerState) : SyncStatusUpdate := {|
  up_successful_attempts := 1; up_failed_attempts := 0; up_state := SetState state;
  up_pending_obligations := Some 3; up_last_attempt_ms := None; up_last_success_ms := None;
  up_last_error := None; up_expected_attempts := None; up_attempt := Some attempt |}.

Lemma apply_status_update_ok_witness :
  let status := (apply_status_update (new_peer_status (small_id 3) (small_id 1))
    (toy_update (1, 5) Healthy)).1 in
  let '(status', _) := apply_status_update status (toy_update (1, 4) Failed) in
  gauges status' = (Healthy, 3, None) ∧ st_successful_attempts status' = 2 ∧
  status_ok status'.
Proof.
  intros status.
  pose proof (apply_status_update_ok status (toy_update (1, 4) Failed)
    ltac:(split; [repeat constructor|vm_compute; lia])) as (Hok & Hold & _).
  split; [|split; [reflexivity|exact Hok]].
  destruct (Hold (1, 4) eq_refl) as [_ Hg].
  destruct (Hg (1, 5) eq_refl ltac:(by vm_compute)) as [-> _]. reflexivity.
Defined.
