(* ===== verification/Records.v ===== *)
(** * Batches, quotas and staging limits ([src/src/storage/record.rs],
    [storage/staging.rs], [storage/mod.rs])

    The checks every backend runs on a batch before it commits, the usage counters of
    the pending pool, and the byte quotas of pending and staged operations. *)

From S2P Require Import Prelude Ids Frame ClockSpec Types Evidence.

#[local] Open Scope N_scope.

(** ** Batches *)

Record AdmittedBatch (C : Type) := {
  ab_topic_id : TopicId;
  ab_expected_heads : gset OpId;
  ab_expected_topic_state : option TopicState;
  ab_entries : list (Op * OpMeta C);
  ab_heads : gset OpId;
  ab_topic_state : option TopicState;
  ab_effects : list (SyncObligation C);
}.
Arguments ab_topic_id {C}. Arguments ab_expected_heads {C}.
Arguments ab_expected_topic_state {C}. Arguments ab_entries {C}. Arguments ab_heads {C}.
Arguments ab_topic_state {C}. Arguments ab_effects {C}.

Section batch.
Context {C : Type}.
Implicit Types (batch : AdmittedBatch C) (meta : OpMeta C).

(** The metadata of an entry repeats its body and is ready. *)
Definition meta_matches (op : Op) meta : bool :=
  bool_decide (om_id meta = op_id op) && bool_decide (om_author meta = author (obody op)) &&
  bool_decide (om_actor_id meta = actor_id (obody op)) &&
  bool_decide (om_actor_seq meta = actor_seq (obody op)) &&
  bool_decide (om_actor_prev meta = actor_prev (obody op)) &&
  bool_decide (om_deps meta = deps (obody op)) &&
  bool_decide (om_generation meta = generation (obody op)) &&
  om_ready meta && bool_decide (om_missing_deps meta = ∅).

(** [validate_batch] *)
Definition validate_batch batch : res unit :=
  if existsb (λ s, negb (bool_decide (ts_topic_id s = ab_topic_id batch)))
       (option_list (ab_expected_topic_state batch) ++ option_list (ab_topic_state batch))
  then Err TopicMismatch
  else if (match ab_topic_state batch with
      | Some s => negb (bool_decide (ts_heads s = ab_heads batch))
      | None => false
      end)
  then Err (Storage "topic state frontier mismatch")
  else try_fold (λ _ '(op, meta),
    if negb (bool_decide (topic_id (obody op) = ab_topic_id batch))
       || negb (bool_decide (om_topic_id meta = ab_topic_id batch))
    then Err TopicMismatch
    else if negb (meta_matches op meta) then Err (Storage "operation metadata mismatch")
    else Ok ()) () (ab_entries batch).

(** [validate_heads]; [accounted] tells repairs and duplicates. *)
Definition validate_heads batch (accounted : OpMeta C → bool) : res unit :=
  let '(heads, consumed) := foldl (λ '(heads, consumed) '(op, meta),
      if accounted meta then (heads, consumed)
      else ({[op_id op]} ∪ heads, consumed ∪ deps (obody op)))
    (ab_expected_heads batch, ∅) (ab_entries batch) in
  if decide (heads ∖ consumed = ab_heads batch) then Ok ()
  else Err (Storage "admitted frontier mismatch").

(** [ensure_deps_resolvable] *)
Definition ensure_deps_resolvable (entries : list (Op * OpMeta C)) (stored_dep : OpId → bool)
    : res unit :=
  let batch : gset OpId := list_to_set ((λ e, op_id e.1) <$> entries) in
  try_fold (λ _ '(_, meta),
    try_fold (λ _ dep,
      if bool_decide (dep ∉ batch) && negb (stored_dep dep) then Err (MissingDependency dep)
      else Ok ()) () (bt_elements (om_deps meta))) () entries.

(** What an entry of a validated batch satisfies. *)
Definition entry_ok batch (e : Op * OpMeta C) : Prop :=
  topic_id (obody e.1) = ab_topic_id batch ∧ om_topic_id e.2 = ab_topic_id batch ∧
  om_id e.2 = op_id e.1 ∧ om_author e.2 = author (obody e.1) ∧
  om_actor_id e.2 = actor_id (obody e.1) ∧ om_actor_seq e.2 = actor_seq (obody e.1) ∧
  om_actor_prev e.2 = actor_prev (obody e.1) ∧ om_deps e.2 = deps (obody e.1) ∧
  om_generation e.2 = generation (obody e.1) ∧ om_ready e.2 = true ∧ om_missing_deps e.2 = ∅.

Lemma meta_matches_true (op : Op) meta :
  meta_matches op meta = true ↔
    om_id meta = op_id op ∧ om_author meta = author (obody op) ∧
    om_actor_id meta = actor_id (obody op) ∧ om_actor_seq meta = actor_seq (obody op) ∧
    om_actor_prev meta = actor_prev (obody op) ∧ om_deps meta = deps (obody op) ∧
    om_generation meta = generation (obody op) ∧ om_ready meta = true ∧ om_missing_deps meta = ∅.
Proof. unfold meta_matches. autorewrite with reflect. tauto. Qed.

Lemma validate_batch_ok batch :
  validate_batch batch = Ok () ↔
  (∀ s, ab_expected_topic_state batch = Some s → ts_topic_id s = ab_topic_id batch) ∧
  (∀ s, ab_topic_state batch = Some s →
    ts_topic_id s = ab_topic_id batch ∧ ts_heads s = ab_heads batch) ∧
  ∀ e, e ∈ ab_entries batch → entry_ok batch e.
Proof.
  unfold validate_batch. destruct (existsb _ _) eqn:Hex.
  { split; [done|]. intros (He & Hs & _). apply existsb_exists in Hex as (s & Hin & Hneg).
    apply list_elem_of_In, elem_of_app in Hin as [Hin|Hin]; apply list_elem_of_option_list in Hin;
      [apply He in Hin|apply Hs in Hin as [Hin _]]; by rewrite bool_decide_true in Hneg. }
  assert (∀ s, s ∈ option_list (ab_expected_topic_state batch) ++ option_list (ab_topic_state batch) →
    ts_topic_id s = ab_topic_id batch) as Htopics.
  { intros s Hs. apply list_elem_of_In in Hs. apply not_true_iff_false in Hex.
    destruct (decide (ts_topic_id s = ab_topic_id batch)); [done|]. destruct Hex.
    apply existsb_exists. exists s. split; [done|]. by rewrite bool_decide_false. }
  assert (∀ s, ab_expected_topic_state batch = Some s → ts_topic_id s = ab_topic_id batch) as Hexp.
  { intros s Hs. apply Htopics. rewrite elem_of_app !list_elem_of_option_list. by left. }
  assert (∀ s, ab_topic_state batch = Some s → ts_topic_id s = ab_topic_id batch) as Hst.
  { intros s Hs. apply Htopics. rewrite elem_of_app !list_elem_of_option_list. by right. }
  assert (∀ e, (let '(op, meta) := e in
      if negb (bool_decide (topic_id (obody op) = ab_topic_id batch))
         || negb (bool_decide (om_topic_id meta = ab_topic_id batch))
      then Err TopicMismatch
      else if negb (meta_matches op meta) then Err (Storage "operation metadata mismatch")
      else Ok ()) = (Ok () : res unit) ↔ entry_ok batch e) as Hentry.
  { intros [op meta]. unfold entry_ok. simpl.
    destruct (decide (topic_id (obody op) = ab_topic_id batch)) as [Ht|Ht];
      [rewrite (bool_decide_true _ Ht)|rewrite (bool_decide_false _ Ht); split; [done|tauto]].
    destruct (decide (om_topic_id meta = ab_topic_id batch)) as [Hm|Hm];
      [rewrite (bool_decide_true _ Hm)|rewrite (bool_decide_false _ Hm); split; [done|tauto]].
    pose proof (meta_matches_true op meta) as Hmm. simpl.
    destruct (meta_matches op meta); simpl; split; [|done|done|]; intros Hx.
    - by split_and!; try apply Hmm.
    - destruct Hx as (_ & _ & Hx). by apply Hmm in Hx. }
  destruct (ab_topic_state batch) as [s|] eqn:Hs.
  - case_bool_decide as Hh; simpl.
    2: { split; [done|]. intros (_ & Hall & _). destruct (Hall s eq_refl). done. }
    rewrite (try_fold_unit (λ e, let '(op, meta) := e in _)). setoid_rewrite Hentry.
    split; [|tauto]. intros He. split_and!; [done| |done]. intros ? [= <-]. by split; [apply Hst|].
  - rewrite (try_fold_unit (λ e, let '(op, meta) := e in _)). setoid_rewrite Hentry.
    split; [|tauto]. intros He. split_and!; done.
Qed.

Lemma ensure_deps_resolvable_ok entries stored_dep :
  ensure_deps_resolvable entries stored_dep = Ok () ↔
  ∀ e d, e ∈ entries → d ∈ om_deps e.2 →
    d ∈ (λ e : Op * OpMeta C, op_id e.1) <$> entries ∨ stored_dep d = true.
Proof.
  unfold ensure_deps_resolvable. rewrite (try_fold_unit (λ e, let '(_, meta) := e in _)).
  split.
  - intros Hall [op meta] d He Hd. specialize (Hall _ He). simpl in Hall, Hd.
    rewrite (try_fold_unit (λ dep, _)) in Hall.
    apply elem_of_bt_elements, Hall in Hd. case_bool_decide as Hb; simpl in Hd.
    + right. by destruct (stored_dep d).
    + left. by rewrite elem_of_list_to_set in Hb.
  - intros Hall [op meta] He. rewrite (try_fold_unit (λ dep, _)).
    intros d Hd%elem_of_bt_elements. destruct (Hall _ d He Hd) as [Hin|Hst].
    + rewrite bool_decide_false //. rewrite elem_of_list_to_set. tauto.
    + rewrite Hst. by rewrite andb_false_r.
Qed.
End batch.

(** ** Pending quotas *)

Definition MAX_PENDING_OPS_TOTAL : N := 4096.
Definition MAX_PENDING_OPS_PER_SOURCE : N := 1024.
Definition MAX_PENDING_WAITERS_PER_DEP : nat := 1024.
Definition MAX_PENDING_BYTES_TOTAL : N := 64 * 1024 * 1024.
Definition MAX_PENDING_BYTES_PER_SOURCE : N := 16 * 1024 * 1024.
Definition MAX_PENDING_MISSING_DEPS : nat := 128.
Definition MAX_PENDING_OPS_PER_TOPIC : N := 2048.
Definition MAX_PENDING_BYTES_PER_TOPIC : N := 32 * 1024 * 1024.
Definition MAX_REJECTED_PER_TOPIC : nat := 4096.
Definition MAX_PENDING_EVICTIONS : nat := 1024.

Record PendingUsage := MkUsage { pu_ops : N; pu_bytes : N }.

#[global] Instance PendingUsage_eq_dec : EqDecision PendingUsage.
Proof. solve_decision. Defined.

(** [PendingUsage::default()] *)
Definition usage_default : PendingUsage := MkUsage 0 0.

(** [PendingUsage::charged] *)
Definition charged (u : PendingUsage) (bytes : N) : PendingUsage :=
  MkUsage (pu_ops u + 1) (pu_bytes u + bytes).

(** [PendingUsage::refunded] *)
Definition refunded (u : PendingUsage) (bytes : N) : res PendingUsage :=
  match checked_sub (pu_ops u) 1, checked_sub (pu_bytes u) bytes with
  | Some ops, Some bytes => Ok (MkUsage ops bytes)
  | _, _ => Err (Storage "pending accounting does not match the buffered records")
  end.

Record PendingRecord := {
  pr_source : PeerId;
  pr_topic_id : TopicId;
  pr_missing : gset OpId;
  pr_charge : N;
}.

(** [check_pending_quota] *)
Definition check_pending_quota (total source topic : PendingUsage) (charge : N) : res unit :=
  if MAX_PENDING_OPS_TOTAL <=? pu_ops total then Err (Storage "pending op buffer is full")
  else if MAX_PENDING_BYTES_TOTAL <? pu_bytes total + charge
  then Err (Storage "pending byte budget is full")
  else if MAX_PENDING_OPS_PER_SOURCE <=? pu_ops source
  then Err (Storage "pending op source quota exceeded")
  else if MAX_PENDING_BYTES_PER_SOURCE <? pu_bytes source + charge
  then Err (Storage "pending byte quota exceeded for source")
  else if MAX_PENDING_OPS_PER_TOPIC <=? pu_ops topic
  then Err (Storage "pending op topic quota exceeded")
  else if MAX_PENDING_BYTES_PER_TOPIC <? pu_bytes topic + charge
  then Err (Storage "pending byte quota exceeded for topic")
  else Ok ().

Lemma refunded_charged u bytes : refunded (charged u bytes) bytes = Ok u.
Proof.
  unfold refunded, charged, checked_sub. simpl.
  destruct (N.leb_spec 1 (pu_ops u + 1)), (N.leb_spec bytes (pu_bytes u + bytes)); try lia.
  destruct u as [ops b]. simpl. do 2 f_equal; lia.
Qed.

(** Usage within the limits of a scope. *)
Definition within (u : PendingUsage) (ops bytes : N) : Prop := pu_ops u ≤ ops ∧ pu_bytes u ≤ bytes.

Lemma check_pending_quota_ok total source topic charge :
  check_pending_quota total source topic charge = Ok () →
  within (charged total charge) MAX_PENDING_OPS_TOTAL MAX_PENDING_BYTES_TOTAL ∧
  within (charged source charge) MAX_PENDING_OPS_PER_SOURCE MAX_PENDING_BYTES_PER_SOURCE ∧
  within (charged topic charge) MAX_PENDING_OPS_PER_TOPIC MAX_PENDING_BYTES_PER_TOPIC.
Proof.
  unfold check_pending_quota, within, charged.
  repeat match goal with |- context [if ?b then _ else _] => destruct b eqn:?; [done|] end.
  repeat match goal with
  | H : (_ <=? _) = false |- _ => apply N.leb_gt in H
  | H : (_ <? _) = false |- _ => apply N.ltb_ge in H
  end.
  intros _. simpl. lia.
Qed.

(** ** Staging limits *)

Record StagingLimits := {
  sl_total_bytes : N;
  sl_source_bytes : N;
  sl_namespace_bytes : N;
  sl_namespaces : N;
  sl_source_namespaces : N;
}.

(** [StagingLimits::MEMORY] *)
Definition staging_limits_memory : StagingLimits := {|
  sl_total_bytes := 64 * 1024 * 1024; sl_source_bytes := 32 * 1024 * 1024;
  sl_namespace_bytes := 32 * 1024 * 1024; sl_namespaces := 64; sl_source_namespaces := 8 |}.

(** [check_namespaces] *)
Definition check_namespaces (limits : StagingLimits) (namespaces from_source : N) : res unit :=
  if sl_namespaces limits <=? namespaces then Err (StagingCapacity "bootstrap namespaces are full")
  else if sl_source_namespaces limits <=? from_source
  then Err (StagingCapacity "bootstrap namespace quota exceeded for source")
  else Ok ().

Record StagingQuota := { sq_namespace : N; sq_total : N; sq_source : N }.

(** [StagingQuota::new] *)
Definition staging_quota_new (limits : StagingLimits) (others source : N) : StagingQuota := {|
  sq_namespace := sl_namespace_bytes limits;
  sq_total := saturating_sub (sl_total_bytes limits) others;
  sq_source := saturating_sub (sl_source_bytes limits) source |}.

(** [StagingQuota::check] *)
Definition quota_check (q : StagingQuota) (held charge : N) : res unit :=
  if charge =? 0 then Ok ()
  else
    match checked_add held charge with
    | None => Err (StagingCapacity "bootstrap staging byte count overflow")
    | Some after =>
        if sq_namespace q <? after
        then Err (StagingCapacity "bootstrap namespace byte quota exceeded")
        else if sq_total q <? after
        then Err (StagingCapacity "bootstrap staging byte budget is full")
        else if sq_source q <? after
        then Err (StagingCapacity "bootstrap staging byte quota exceeded for source")
        else Ok ()
    end.

(** A namespace that holds [held] bytes beside others holding [others], of
    which [source] of its own source, may take [charge] more only while it, all
    namespaces together and all of its source together stay within the configured
    limits; a refused charge is always for one of these reasons. *)
Theorem staging_quota_bounds limits others source held charge :
  0 < charge → held + charge ≤ u64_max →
  quota_check (staging_quota_new limits others source) held charge = Ok () ↔
    held + charge ≤ sl_namespace_bytes limits ∧
    others + (held + charge) ≤ sl_total_bytes limits ∧
    source + (held + charge) ≤ sl_source_bytes limits.
Proof.
  intros Hc Hov. unfold quota_check, staging_quota_new, saturating_sub.
  destruct (N.eqb_spec charge 0); [lia|].
  unfold checked_add. destruct (N.leb_spec (held + charge) u64_max); [|lia]. simpl.
  destruct (N.ltb_spec (sl_namespace_bytes limits) (held + charge)); [split; [done|lia]|].
  destruct (N.ltb_spec (sl_total_bytes limits - others) (held + charge)); [split; [done|lia]|].
  destruct (N.ltb_spec (sl_source_bytes limits - source) (held + charge)); [split; [done|lia]|].
  split; [lia|done].
Qed.

Lemma staging_quota_bounds_witness :
  quota_check (staging_quota_new staging_limits_memory 100 50) 1000 24 = Ok ().
Proof.
  apply (staging_quota_bounds staging_limits_memory 100 50 1000 24); [lia|unfold u64_max; lia|].
  simpl. lia.
Defined.

(** ** Branches *)

(** [branch_matches] *)
Definition branch_matches (state : option TopicState) (expected : option OpId) : res unit :=
  if decide (ts_genesis <$> state = expected) then Ok () else Err StaleIncarnation.

(** [peer_departed] *)
Definition peer_departed (state : option TopicState) (p : PeerId) (expected : option OpId) : bool :=
  is_ok (branch_matches state expected) &&
  match state with Some s => bool_decide (p ∉ ts_members s) | None => true end.
