(* ===== verification/Pool.v ===== *)
(** * The pending pool of the memory store ([src/src/storage/memory/mod.rs])

    Operations whose dependencies are not stored yet. The pool keeps them with the
    dependencies each waits for, indexed by dependency, topic and readiness, and
    counts operations and bytes per source and per topic. The functions below are
    the [_locked] helpers and the parts of the [Storage] methods that change the
    pool; [Store.v] puts them behind the checks that read the stored operations. *)

From S2P Require Import Prelude Ids Pages Frame ClockSpec Types Evidence Records.

#[local] Open Scope N_scope.

(** The [pending_*], [source_usage] and [topic_usage] fields of [MemoryInner]. *)
Record Pool := MkPool {
  p_ops : gmap OpId Op;
  p_records : gmap OpId PendingRecord;
  p_by_topic : gmap TopicId (gset OpId);
  p_waiters : gmap OpId (gset OpId);
  p_ready : gset OpId;
  p_since : gmap OpId N;
  p_usage : PendingUsage;
  p_source : gmap PeerId PendingUsage;
  p_topic : gmap TopicId PendingUsage;
}.

Definition pool_empty : Pool := MkPool ∅ ∅ ∅ ∅ ∅ ∅ usage_default ∅ ∅.

(** [map.get(k).remove(x)], dropping the entry when the set became empty. *)
Definition drop_from {K} `{Countable K} (m : gmap K (gset OpId)) (k : K) (x : OpId)
    : gmap K (gset OpId) :=
  match m !! k with
  | Some s =>
      let s := s ∖ {[x]} in
      if decide (s = ∅) then delete k m else <[k := s]> m
  | None => m
  end.

(** [map.entry(k).or_default().insert(x)] *)
Definition add_to {K} `{Countable K} (m : gmap K (gset OpId)) (k : K) (x : OpId)
    : gmap K (gset OpId) :=
  <[k := {[x]} ∪ default ∅ (m !! k)]> m.

(** [unwait_locked] *)
Definition unwait_locked (waiters : gmap OpId (gset OpId)) (dep i : OpId) : gmap OpId (gset OpId) :=
  drop_from waiters dep i.

(** [usage_map.remove(k)] when nothing is left, else [usage_map.insert(k, u)] *)
Definition put_usage {K} `{Countable K} (m : gmap K PendingUsage) (k : K) (u : PendingUsage)
    : gmap K PendingUsage :=
  if decide (u = usage_default) then delete k m else <[k := u]> m.

Definition usage_of {K} `{Countable K} (m : gmap K PendingUsage) (k : K) : PendingUsage :=
  default usage_default (m !! k).

(** [record.missing = missing] *)
Definition set_missing (r : PendingRecord) (missing : gset OpId) : PendingRecord :=
  {| pr_source := pr_source r; pr_topic_id := pr_topic_id r; pr_missing := missing;
     pr_charge := pr_charge r |}.

(** [remove_pending_locked] *)
Definition remove_pending_locked (p : Pool) (i : OpId) : res Pool :=
  match p_records p !! i with
  | None => Ok p
  | Some record =>
      total ← refunded (p_usage p) (pr_charge record);
      source ← refunded (usage_of (p_source p) (pr_source record)) (pr_charge record);
      topic ← refunded (usage_of (p_topic p) (pr_topic_id record)) (pr_charge record);
      Ok {|
        p_ops := delete i (p_ops p);
        p_records := delete i (p_records p);
        p_by_topic := drop_from (p_by_topic p) (pr_topic_id record) i;
        p_waiters := foldl (λ w dep, unwait_locked w dep i) (p_waiters p)
          (bt_elements (pr_missing record));
        p_ready := p_ready p ∖ {[i]};
        p_since := p_since p;
        p_usage := total;
        p_source := put_usage (p_source p) (pr_source record) source;
        p_topic := put_usage (p_topic p) (pr_topic_id record) topic
      |}
  end.

(** [settle_waiters_locked] *)
Definition settle_waiters_locked (p : Pool) (admitted : OpId) : Pool :=
  let '(records, ready) := foldl (λ '(records, ready) waiter,
      match records !! waiter with
      | Some record =>
          let missing := pr_missing record ∖ {[admitted]} in
          (<[waiter := set_missing record missing]> records,
           if decide (missing = ∅) then {[waiter]} ∪ ready else ready)
      | None => (records, ready)
      end)
    (p_records p, p_ready p) (bt_elements (default ∅ (p_waiters p !! admitted))) in
  {| p_ops := p_ops p; p_records := records; p_by_topic := p_by_topic p;
     p_waiters := delete admitted (p_waiters p); p_ready := ready; p_since := p_since p;
     p_usage := p_usage p; p_source := p_source p; p_topic := p_topic p |}.

(** The writes of [put_pending_bound], after its checks. [previous] is what a known
    operation waited for. *)
Definition buffer (p : Pool) (source_peer : PeerId) (op : Op) (missing : gset OpId)
    (charge : N) : Pool :=
  let i := op_id op in
  let previous := from_option pr_missing ∅ (p_records p !! i) in
  let waiters := foldl (λ w dep, unwait_locked w dep i) (p_waiters p)
    (bt_elements (previous ∖ missing)) in
  let waiters := foldl (λ w dep, add_to w dep i) waiters (bt_elements missing) in
  let ready := if decide (missing = ∅) then {[i]} ∪ p_ready p else p_ready p ∖ {[i]} in
  match p_records p !! i with
  | Some record =>
      {| p_ops := p_ops p; p_records := <[i := set_missing record missing]> (p_records p);
         p_by_topic := p_by_topic p; p_waiters := waiters; p_ready := ready;
         p_since := p_since p; p_usage := p_usage p; p_source := p_source p;
         p_topic := p_topic p |}
  | None =>
      let t := topic_id (obody op) in
      {| p_ops := <[i := op]> (p_ops p);
         p_records := <[i := {| pr_source := source_peer; pr_topic_id := t;
                                pr_missing := missing; pr_charge := charge |}]> (p_records p);
         p_by_topic := add_to (p_by_topic p) t i;
         p_waiters := waiters; p_ready := ready; p_since := p_since p;
         p_usage := charged (p_usage p) charge;
         p_source := <[source_peer := charged (usage_of (p_source p) source_peer) charge]>
           (p_source p);
         p_topic := <[t := charged (usage_of (p_topic p) t) charge]> (p_topic p) |}
  end.

(** [waiter_closure_locked]: the head of [frontier] is its top; an operation joins
    the frontier once, so the number of records bounds the pops after the first. *)
Fixpoint closure_loop (fuel : nat) (p : Pool) (frontier : list OpId) (seen : gset OpId)
    : gset OpId :=
  match frontier, fuel with
  | [], _ | _, O => seen
  | dep :: frontier, S fuel' =>
      let '(frontier, seen) := foldl (λ '(frontier, seen) i,
          if decide (i ∈ seen) then (frontier, seen) else (i :: frontier, {[i]} ∪ seen))
        (frontier, seen) (bt_elements (default ∅ (p_waiters p !! dep))) in
      closure_loop fuel' p frontier seen
  end.
Definition waiter_closure_locked (p : Pool) (dep : OpId) : gset OpId :=
  closure_loop (S (size (p_records p))) p [dep] ∅ ∖ {[dep]}.

(** [purge_pending_waiters] *)
Definition purge_pending_waiters (p : Pool) (dep : OpId) : res (Pool * nat) :=
  let closure := waiter_closure_locked p dep in
  p ← try_fold remove_pending_locked p (bt_elements closure);
  Ok (p, size closure).

(** [inner.pending_since = since] *)
Definition set_since (p : Pool) (since : gmap OpId N) : Pool :=
  {| p_ops := p_ops p; p_records := p_records p; p_by_topic := p_by_topic p;
     p_waiters := p_waiters p; p_ready := p_ready p; p_since := since; p_usage := p_usage p;
     p_source := p_source p; p_topic := p_topic p |}.

(** The sweep of [expire_pending]: when each buffered operation was first seen, and
    those idle for too long. *)
Definition expire_sweep (p : Pool) (now_ms max_idle_ms : N) : gmap OpId N * gset OpId :=
  foldl (λ '(since, expired) i,
      let first := default now_ms (since !! i) in
      (<[i := first]> since,
       if saturating_add first max_idle_ms <? now_ms then {[i]} ∪ expired else expired))
    (filter (λ e, is_Some (p_records p !! e.1)) (p_since p), ∅)
    (bt_elements (dom (p_records p))).

(** [if pending_records.contains_key(&op_id) { remove ... }] *)
Definition expire_op (st : Pool * gset OpId) (x : OpId) : res (Pool * gset OpId) :=
  let '(p, removed) := st in
  match p_records p !! x with
  | Some _ =>
      p' ← remove_pending_locked p x;
      Ok (set_since p' (delete x (p_since p')), {[x]} ∪ removed)
  | None => Ok (p, removed)
  end.

(** One expired operation with its subtree. *)
Definition expire_subtree (st : Pool * gset OpId) (i : OpId) : res (Pool * gset OpId) :=
  try_fold expire_op st (bt_elements ({[i]} ∪ waiter_closure_locked st.1 i)).

(** [expire_pending] *)
Definition expire_pending (p : Pool) (now_ms max_idle_ms : N) : res (Pool * nat) :=
  let '(since, expired) := expire_sweep p now_ms max_idle_ms in
  st ← try_fold expire_subtree (set_since p since, ∅) (bt_elements expired);
  Ok (st.1, size st.2).

(** [pending_missing_locked] *)
Definition pending_missing_locked (p : Pool) (t : TopicId) : gset OpId :=
  ⋃ (omap (λ i, pr_missing <$> p_records p !! i) (bt_elements (default ∅ (p_by_topic p !! t)))).

(** [pending_entry_locked] *)
Definition pending_entry_locked (p : Pool) (i : OpId) : option (PeerId * Op) :=
  record ← p_records p !! i;
  op ← p_ops p !! i;
  Some (pr_source record, op).

(** [ready_pending_after] *)
Definition ready_pending_after (p : Pool) (after : option OpId) (limit : nat)
    : list (PeerId * Op) :=
  omap (pending_entry_locked p) (page (p_ready p) after limit).

(** ** Indexes and counters *)

(** The operations waiting for [d]. *)
Definition waits (records : gmap OpId PendingRecord) (i d : OpId) : Prop :=
  ∃ r, records !! i = Some r ∧ d ∈ pr_missing r.

(** [m] indexes the relation [R], without empty entries. *)
Definition indexes {K} `{Countable K} (m : gmap K (gset OpId)) (R : OpId → K → Prop) : Prop :=
  (∀ k x, x ∈ default ∅ (m !! k) ↔ R x k) ∧ ∀ k, m !! k ≠ Some ∅.

(** The usage of a set of records. *)
Definition usage_sum (records : gmap OpId PendingRecord) : PendingUsage :=
  map_fold (λ _ r u, charged u (pr_charge r)) usage_default records.

(** [m] counts the records by [f], without zero entries. *)
Definition counts {K} `{Countable K} (m : gmap K PendingUsage) (f : PendingRecord → K)
    (records : gmap OpId PendingRecord) : Prop :=
  ∀ k, usage_of m k = usage_sum (filter (λ e, f e.2 = k) records) ∧ m !! k ≠ Some usage_default.

(** What every operation on the pool preserves. *)
Record pool_ok (p : Pool) : Prop := {
  po_dom : dom (p_ops p) = dom (p_records p);
  po_op : ∀ i op r, p_ops p !! i = Some op → p_records p !! i = Some r →
    op_id op = i ∧ topic_id (obody op) = pr_topic_id r;
  po_waiters : indexes (p_waiters p) (waits (p_records p));
  po_by_topic : indexes (p_by_topic p) (λ i t, ∃ r, p_records p !! i = Some r ∧ pr_topic_id r = t);
  po_ready : ∀ i, i ∈ p_ready p ↔ ∃ r, p_records p !! i = Some r ∧ pr_missing r = ∅;
  po_usage : p_usage p = usage_sum (p_records p);
  po_source : counts (p_source p) pr_source (p_records p);
  po_topic : counts (p_topic p) pr_topic_id (p_records p);
}.

Lemma indexes_iff {K} `{Countable K} (m : gmap K (gset OpId)) (R R' : OpId → K → Prop) :
  indexes m R → (∀ x k, R x k ↔ R' x k) → indexes m R'.
Proof. intros [Hin Hne] HR. split; [|done]. intros k x. by rewrite Hin HR. Qed.

Lemma drop_from_indexes {K} `{Countable K} (m : gmap K (gset OpId)) R k x :
  indexes m R → indexes (drop_from m k x) (λ y l, R y l ∧ ¬ (y = x ∧ l = k)).
Proof.
  intros [Hin Hne]. unfold drop_from. destruct (m !! k) as [s|] eqn:Hs.
  - case_decide as He; split.
    + intros l y. destruct (decide (l = k)) as [->|Hl].
      * rewrite lookup_delete_eq -Hin Hs /=. set_solver.
      * rewrite lookup_delete_ne // Hin. naive_solver.
    + intros l. destruct (decide (l = k)) as [->|Hl]; [by rewrite lookup_delete_eq|].
      by rewrite lookup_delete_ne.
    + intros l y. destruct (decide (l = k)) as [->|Hl].
      * rewrite lookup_insert_eq -Hin Hs /=. set_solver.
      * rewrite lookup_insert_ne // Hin. naive_solver.
    + intros l. destruct (decide (l = k)) as [->|Hl].
      * rewrite lookup_insert_eq. by intros [= ?].
      * by rewrite lookup_insert_ne.
  - split; [|done]. intros l y. rewrite Hin. split; [|tauto]. intros HR. split; [done|].
    intros [-> ->]. apply Hin in HR. by rewrite Hs in HR.
Qed.

Lemma add_to_indexes {K} `{Countable K} (m : gmap K (gset OpId)) R k x :
  indexes m R → indexes (add_to m k x) (λ y l, R y l ∨ (y = x ∧ l = k)).
Proof.
  intros [Hin Hne]. unfold add_to. split.
  - intros l y. destruct (decide (l = k)) as [->|Hl].
    + rewrite lookup_insert_eq /= elem_of_union elem_of_singleton Hin. naive_solver.
    + rewrite lookup_insert_ne // Hin. naive_solver.
  - intros l. destruct (decide (l = k)) as [->|Hl].
    + rewrite lookup_insert_eq. intros [= He]. set_solver.
    + by rewrite lookup_insert_ne.
Qed.

Lemma unwait_all m R (ds : gset OpId) i :
  indexes m R →
  indexes (foldl (λ w dep, unwait_locked w dep i) m (bt_elements ds))
    (λ y d, R y d ∧ ¬ (y = i ∧ d ∈ ds)).
Proof.
  intros Hm. eapply indexes_iff with (R := λ y d, R y d ∧ ¬ (y = i ∧ d ∈ bt_elements ds)).
  2: { intros y d. by rewrite elem_of_bt_elements. }
  generalize (bt_elements ds) as l. intros l. revert m R Hm.
  induction l as [|d l IH]; intros m R Hm; cbn [foldl].
  { eapply indexes_iff; [done|]. intros y d. rewrite elem_of_nil. tauto. }
  eapply indexes_iff; [apply IH, drop_from_indexes, Hm|]. intros y e. rewrite elem_of_cons.
  clear. naive_solver.
Qed.

Lemma wait_all m R (ds : gset OpId) i :
  indexes m R →
  indexes (foldl (λ w dep, add_to w dep i) m (bt_elements ds)) (λ y d, R y d ∨ (y = i ∧ d ∈ ds)).
Proof.
  intros Hm. eapply indexes_iff with (R := λ y d, R y d ∨ (y = i ∧ d ∈ bt_elements ds)).
  2: { intros y d. by rewrite elem_of_bt_elements. }
  generalize (bt_elements ds) as l. intros l. revert m R Hm.
  induction l as [|d l IH]; intros m R Hm; cbn [foldl].
  { eapply indexes_iff; [done|]. intros y d. rewrite elem_of_nil. tauto. }
  eapply indexes_iff; [apply IH, add_to_indexes, Hm|]. intros y e. rewrite elem_of_cons.
  clear. naive_solver.
Qed.

Lemma usage_sum_insert records i r :
  records !! i = None →
  usage_sum (<[i := r]> records) = charged (usage_sum records) (pr_charge r).
Proof.
  intros Hi. unfold usage_sum. rewrite map_fold_insert_L //.
  intros j1 j2 r1 r2 u _ _ _. unfold charged. simpl. f_equal; lia.
Qed.

Lemma usage_sum_delete records i r :
  records !! i = Some r →
  usage_sum records = charged (usage_sum (delete i records)) (pr_charge r).
Proof.
  intros Hi. rewrite -(usage_sum_insert (delete i records) i r); [by rewrite lookup_delete_eq|].
  by rewrite insert_delete_id.
Qed.

Lemma usage_sum_ops records : pu_ops (usage_sum records) = N.of_nat (size records).
Proof.
  induction records as [|i r m Hi IH] using map_ind; [done|].
  rewrite usage_sum_insert // map_size_insert_None //. unfold charged. simpl. lia.
Qed.

Lemma usage_sum_zero records : usage_sum records = usage_default ↔ records = ∅.
Proof.
  split; [|by intros ->]. intros Hz. apply map_size_empty_iff.
  pose proof (usage_sum_ops records) as Hops. rewrite Hz in Hops. simpl in Hops. lia.
Qed.

Lemma put_usage_counts {K} `{Countable K} (m : gmap K PendingUsage) f records i r u :
  counts m f records → records !! i = Some r → refunded (usage_of m (f r)) (pr_charge r) = Ok u →
  counts (put_usage m (f r) u) f (delete i records).
Proof.
  intros Hm Hi Hu k.
  assert (usage_of (put_usage m (f r) u) k = if decide (k = f r) then u else usage_of m k) as Hof.
  { unfold put_usage, usage_of. destruct (decide (k = f r)) as [->|Hk]; case_decide as He.
    - by rewrite lookup_delete_eq He.
    - by rewrite lookup_insert_eq.
    - by rewrite lookup_delete_ne.
    - by rewrite lookup_insert_ne. }
  split.
  - rewrite Hof. case_decide as Hk.
    + subst k. destruct (Hm (f r)) as [Hsum _]. rewrite Hsum in Hu.
      rewrite (usage_sum_delete _ i r) in Hu; [by apply map_lookup_filter_Some|].
      rewrite refunded_charged in Hu. injection Hu as <-. by rewrite map_filter_delete.
    + destruct (Hm k) as [-> _]. rewrite map_filter_delete. f_equal.
      rewrite delete_id //. apply map_lookup_filter_None. right. intros r' Hr' Heq. simpl in Heq.
      congruence.
  - clear Hof. unfold put_usage. case_decide as He.
    + destruct (decide (k = f r)) as [->|Hk]; [by rewrite lookup_delete_eq|].
      rewrite lookup_delete_ne //. by destruct (Hm k).
    + destruct (decide (k = f r)) as [->|Hk]; [rewrite lookup_insert_eq; congruence|].
      rewrite lookup_insert_ne //. by destruct (Hm k).
Qed.

Lemma counts_refund {K} `{Countable K} (m : gmap K PendingUsage) f records i r :
  counts m f records → records !! i = Some r →
  ∃ u, refunded (usage_of m (f r)) (pr_charge r) = Ok u.
Proof.
  intros Hm Hi. destruct (Hm (f r)) as [-> _].
  rewrite (usage_sum_delete _ i r); [by apply map_lookup_filter_Some|].
  eexists. apply refunded_charged.
Qed.

Lemma counts_charge {K} `{Countable K} (m : gmap K PendingUsage) f records i r :
  counts m f records → records !! i = None →
  counts (<[f r := charged (usage_of m (f r)) (pr_charge r)]> m) f (<[i := r]> records).
Proof.
  intros Hm Hi k. destruct (decide (k = f r)) as [->|Hk].
  - split.
    + unfold usage_of at 1. rewrite lookup_insert_eq /=. destruct (Hm (f r)) as [-> _].
      rewrite map_filter_insert_True // usage_sum_insert //.
      apply map_lookup_filter_None. by left.
    + rewrite lookup_insert_eq. unfold charged, usage_default. intros [= Hz]. lia.
  - destruct (Hm k) as [Hsum Hne]. split.
    + unfold usage_of. rewrite lookup_insert_ne //. fold (usage_of m k). rewrite Hsum.
      rewrite map_filter_insert_False; [simpl; congruence|]. by rewrite delete_id.
    + by rewrite lookup_insert_ne.
Qed.

(** ** The operations preserve the invariant *)

Lemma pool_empty_ok : pool_ok pool_empty.
Proof.
  split; cbn [pool_empty p_ops p_records p_waiters p_by_topic p_ready p_usage p_source p_topic].
  - done.
  - intros i op r. by rewrite lookup_empty.
  - split; [|by intros k; rewrite lookup_empty]. intros d x. rewrite lookup_empty. unfold waits.
    split; [by intros ?%elem_of_empty|]. intros (r & Hr & _). by rewrite lookup_empty in Hr.
  - split; [|by intros k; rewrite lookup_empty]. intros d x. rewrite lookup_empty.
    split; [by intros ?%elem_of_empty|]. intros (r & Hr & _). by rewrite lookup_empty in Hr.
  - intros i. split; [by intros ?%elem_of_empty|]. intros (r & Hr & _). by rewrite lookup_empty in Hr.
  - done.
  - intros k. unfold usage_of. by rewrite lookup_empty map_filter_empty.
  - intros k. unfold usage_of. by rewrite lookup_empty map_filter_empty.
Qed.

Lemma remove_pending_ok p i :
  pool_ok p → ∃ p', remove_pending_locked p i = Ok p' ∧ pool_ok p' ∧
    p_records p' = delete i (p_records p) ∧ p_ops p' = delete i (p_ops p) ∧ p_since p' = p_since p.
Proof.
  intros [Hdom Hop Hw Ht Hr Hu Hsrc Htop]. unfold remove_pending_locked.
  destruct (p_records p !! i) as [r|] eqn:Hi.
  2: { assert (p_ops p !! i = None) as Hoi.
    { apply not_elem_of_dom. rewrite Hdom. by apply not_elem_of_dom. }
    exists p. by rewrite (delete_id (p_records p)) // (delete_id (p_ops p)). }
  destruct (counts_refund _ _ _ _ _ Hsrc Hi) as [us Hus].
  destruct (counts_refund _ _ _ _ _ Htop Hi) as [ut Hut].
  rewrite Hu (usage_sum_delete _ i r) // refunded_charged. res_step.
  rewrite Hus. res_step. rewrite Hut. res_step.
  eexists. split; [done|]. split; [|done].
  split; cbn [p_ops p_records p_waiters p_by_topic p_ready p_usage p_source p_topic].
  - by rewrite !dom_delete_L Hdom.
  - intros j op r' Hj Hrj. apply lookup_delete_Some in Hj as [_ Hj], Hrj as [_ Hrj]. by eapply Hop.
  - eapply indexes_iff; [by apply unwait_all|]. intros y d. unfold waits. cbv beta.
    setoid_rewrite lookup_delete_Some. split.
    + intros [(r' & Hy & Hd) Hn]. exists r'. split_and!; [|done..]. intros ->.
      apply Hn. split; [done|]. rewrite Hi in Hy. by simplify_eq.
    + intros (r' & [Hne Hy] & Hd). split; [by exists r'|]. naive_solver.
  - eapply indexes_iff; [by apply drop_from_indexes|]. intros y t. cbv beta.
    setoid_rewrite lookup_delete_Some. split.
    + intros [(r' & Hy & <-) Hn]. exists r'. split_and!; [|done..]. intros <-.
      apply Hn. rewrite Hi in Hy. by simplify_eq.
    + intros (r' & [Hne Hy] & <-). split; [by exists r'|]. naive_solver.
  - intros y. rewrite elem_of_difference elem_of_singleton Hr. setoid_rewrite lookup_delete_Some.
    naive_solver.
  - done.
  - by apply put_usage_counts.
  - by apply put_usage_counts.
Qed.

(** Changing only what a record waits for keeps every counter. *)
Lemma usage_sum_missing records i r ms :
  records !! i = Some r → usage_sum (<[i := set_missing r ms]> records) = usage_sum records.
Proof.
  intros Hi. rewrite -insert_delete_eq usage_sum_insert; [by rewrite lookup_delete_eq|].
  by rewrite (usage_sum_delete records i r).
Qed.

Lemma counts_missing {K} `{Countable K} (m : gmap K PendingUsage) f records i r ms :
  (∀ x y, f (set_missing x y) = f x) → counts m f records → records !! i = Some r →
  counts m f (<[i := set_missing r ms]> records).
Proof.
  intros Hf Hm Hi k. destruct (Hm k) as [-> Hne]. split; [|done].
  destruct (decide (f r = k)) as [Hk|Hk].
  - rewrite map_filter_insert_True /=; [by rewrite Hf|].
    rewrite usage_sum_missing //. by apply map_lookup_filter_Some.
  - rewrite map_filter_insert_False /=; [by rewrite Hf|]. rewrite map_filter_delete delete_id //.
    apply map_lookup_filter_None. right. intros r' Hr'. simpl. congruence.
Qed.

(** What [buffer] does to the records. *)
Definition buffered_record (p : Pool) (source_peer : PeerId) (op : Op) (missing : gset OpId)
    (charge : N) : PendingRecord :=
  match p_records p !! op_id op with
  | Some record => set_missing record missing
  | None => {| pr_source := source_peer; pr_topic_id := topic_id (obody op);
               pr_missing := missing; pr_charge := charge |}
  end.

Lemma buffer_records p src op ms ch :
  p_records (buffer p src op ms ch) =
    <[op_id op := buffered_record p src op ms ch]> (p_records p).
Proof. unfold buffer, buffered_record. by destruct (p_records p !! op_id op). Qed.

Lemma buffer_ok p src op ms ch :
  pool_ok p → (∀ r, p_records p !! op_id op = Some r → p_ops p !! op_id op = Some op) →
  pool_ok (buffer p src op ms ch).
Proof.
  intros [Hdom Hop Hw Ht Hr Hu Hsrc Htop] Hknown.
  assert (indexes (foldl (λ w dep, add_to w dep (op_id op))
      (foldl (λ w dep, unwait_locked w dep (op_id op)) (p_waiters p)
        (bt_elements (from_option pr_missing ∅ (p_records p !! op_id op) ∖ ms)))
      (bt_elements ms))
    (waits (p_records (buffer p src op ms ch)))) as Hw'.
  { eapply indexes_iff; [by apply wait_all, unwait_all|]. intros y d. cbv beta.
    rewrite buffer_records. unfold waits. destruct (decide (y = op_id op)) as [->|Hne].
    - rewrite lookup_insert_eq. unfold buffered_record.
      destruct (p_records p !! op_id op) as [r|]; simpl; [|naive_solver].
      rewrite elem_of_difference. split.
      + intros [[(? & [= <-] & Hd) Hn]|[_ Hd]]; eexists; (split; [done|]); simpl; [|done].
        destruct (decide (d ∈ ms)); [done|]. destruct Hn. done.
      + intros (? & [= <-] & Hd). by right.
    - rewrite lookup_insert_ne //. naive_solver. }
  assert (∀ i, i ∈ (if decide (ms = ∅) then {[op_id op]} ∪ p_ready p else p_ready p ∖ {[op_id op]}) ↔
    ∃ r, p_records (buffer p src op ms ch) !! i = Some r ∧ pr_missing r = ∅) as Hr'.
  { intros i. rewrite buffer_records. destruct (decide (i = op_id op)) as [->|Hne].
    - rewrite lookup_insert_eq. assert (pr_missing (buffered_record p src op ms ch) = ms) as Hbm.
      { unfold buffered_record. by destruct (p_records p !! op_id op). }
      case_decide as He; (split; [|intros (r & [= <-] & Hms); rewrite Hbm in Hms; set_solver]).
      + intros _. exists (buffered_record p src op ms ch). by rewrite Hbm.
      + intros Hi. set_solver.
    - rewrite lookup_insert_ne // -Hr. case_decide; set_solver. }
  revert Hw' Hr'. unfold buffer. destruct (p_records p !! op_id op) as [r|] eqn:Hi;
    cbn [p_ops p_records p_waiters p_by_topic p_ready p_usage p_source p_topic]; intros Hw' Hr'.
  - split; cbn [p_ops p_records p_waiters p_by_topic p_ready p_usage p_source p_topic]; try done.
    + rewrite dom_insert_lookup_L //.
    + intros j o r' Hj Hrj. apply lookup_insert_Some in Hrj as [[<- <-]|[_ Hrj]]; [|by eapply Hop].
      simpl. by eapply Hop.
    + eapply indexes_iff; [done|]. intros y t. cbv beta. destruct (decide (y = op_id op)) as [->|Hne].
      * rewrite lookup_insert_eq Hi. split; intros (r' & [= <-] & <-); by eexists.
      * by rewrite lookup_insert_ne.
    + by rewrite Hu usage_sum_missing.
    + by apply counts_missing.
    + by apply counts_missing.
  - split; cbn [p_ops p_records p_waiters p_by_topic p_ready p_usage p_source p_topic]; try done.
    + by rewrite !dom_insert_L Hdom.
    + intros j o r' Hj Hrj. destruct (decide (j = op_id op)) as [->|Hne].
      * rewrite lookup_insert_eq in Hj. rewrite lookup_insert_eq in Hrj. by simplify_eq.
      * rewrite lookup_insert_ne // in Hj. rewrite lookup_insert_ne // in Hrj. by eapply Hop.
    + eapply indexes_iff; [by apply add_to_indexes|]. intros y t. cbv beta.
      destruct (decide (y = op_id op)) as [->|Hne].
      * rewrite lookup_insert_eq Hi. naive_solver.
      * rewrite lookup_insert_ne //. naive_solver.
    + by rewrite Hu usage_sum_insert.
    + by apply (counts_charge _ pr_source _ _ {| pr_source := src; pr_topic_id := _;
        pr_missing := ms; pr_charge := ch |}).
    + by apply (counts_charge _ pr_topic_id _ _ {| pr_source := src; pr_topic_id := _;
        pr_missing := ms; pr_charge := ch |}).
Qed.

(** ** Settling waiters *)

(** A record that stopped waiting for [a]. *)
Definition settled (a : OpId) (r : PendingRecord) : PendingRecord :=
  set_missing r (pr_missing r ∖ {[a]}).

Lemma settled_id a r : a ∉ pr_missing r → settled a r = r.
Proof.
  intros Ha. destruct r as [s t m c]. unfold settled, set_missing. simpl in *. f_equal. set_solver.
Qed.

Lemma settle_fold a (l : list OpId) records ready :
  NoDup l →
  let r := foldl (λ '(records, ready) waiter,
      match records !! waiter with
      | Some record =>
          let missing := pr_missing record ∖ {[a]} in
          (<[waiter := set_missing record missing]> records,
           if decide (missing = ∅) then {[waiter]} ∪ ready else ready)
      | None => (records, ready)
      end) (records, ready) l in
  (∀ i, r.1 !! i = if decide (i ∈ l) then settled a <$> (records : gmap OpId PendingRecord) !! i
    else records !! i) ∧
  (∀ i, i ∈ r.2 ↔ i ∈ (ready : gset OpId) ∨
    (i ∈ l ∧ ∃ rc, records !! i = Some rc ∧ pr_missing rc ∖ {[a]} = ∅)).
Proof.
  revert records ready. induction l as [|w l IH]; intros records ready Hnd; cbn [foldl].
  { split; intros i; [case_decide as Hi; [by apply elem_of_nil in Hi|done]|].
    split; [by left|]. intros [?|[?%elem_of_nil _]]; done. }
  apply NoDup_cons in Hnd as [Hw Hnd].
  destruct (records !! w) as [rc|] eqn:Hrc.
  - destruct (IH (<[w := settled a rc]> records)
      (if decide (pr_missing rc ∖ {[a]} = ∅) then {[w]} ∪ ready else ready) Hnd) as [H1 H2].
    split; intros i.
    + rewrite H1. destruct (decide (i = w)) as [->|Hne].
      * rewrite decide_False // lookup_insert_eq decide_True; [by left|]. by rewrite Hrc.
      * rewrite lookup_insert_ne //. apply decide_ext. rewrite elem_of_cons. naive_solver.
    + rewrite H2 elem_of_cons. destruct (decide (i = w)) as [->|Hne].
      * case_decide as He; [set_solver|]. rewrite Hrc. split; [intros [?|[? _]]; [by left|done]|].
        intros [?|[_ (? & [= <-] & ?)]]; [by left|done].
      * rewrite lookup_insert_ne //.
        assert (i ∈ (if decide (pr_missing rc ∖ {[a]} = ∅) then {[w]} ∪ ready else ready) ↔ i ∈ ready)
          as ->; [|naive_solver]. case_decide; set_solver.
  - destruct (IH records ready Hnd) as [H1 H2]. split; intros i.
    + rewrite H1. destruct (decide (i = w)) as [->|Hne].
      * rewrite decide_False // decide_True; [by left|]. by rewrite Hrc.
      * apply decide_ext. rewrite elem_of_cons. naive_solver.
    + rewrite H2 elem_of_cons. destruct (decide (i = w)) as [->|Hne]; [|naive_solver].
      rewrite Hrc. naive_solver.
Qed.

Lemma usage_sum_settled a records : usage_sum (settled a <$> records) = usage_sum records.
Proof.
  induction records as [|i r m Hi IH] using map_ind; [done|].
  rewrite fmap_insert !usage_sum_insert //; [by rewrite lookup_fmap Hi|]. by rewrite IH.
Qed.

Lemma counts_settled {K} `{Countable K} (m : gmap K PendingUsage) f a records :
  (∀ x y, f (set_missing x y) = f x) → counts m f records → counts m f (settled a <$> records).
Proof.
  intros Hf Hm k. destruct (Hm k) as [-> Hne]. split; [|done].
  rewrite map_filter_fmap usage_sum_settled. f_equal.
  apply map_filter_ext. intros i r _. simpl. by rewrite /settled Hf.
Qed.

Lemma settle_records p a :
  pool_ok p → p_records (settle_waiters_locked p a) = settled a <$> p_records p.
Proof.
  intros Hp. unfold settle_waiters_locked.
  pose proof (settle_fold a (bt_elements (default ∅ (p_waiters p !! a))) (p_records p) (p_ready p)
    (bt_elements_NoDup _)) as [H1 _].
  destruct (foldl _ _ _) as [records ready]. cbn [p_records]. simpl in H1.
  apply map_eq. intros i. rewrite H1 lookup_fmap. case_decide as Hi; [done|].
  rewrite elem_of_bt_elements (proj1 (po_waiters p Hp)) in Hi.
  unfold waits in Hi. destruct (p_records p !! i) as [r|]; [|done]. simpl. rewrite settled_id //.
  intros Ha. apply Hi. by exists r.
Qed.

Lemma settle_ok p a : pool_ok p → pool_ok (settle_waiters_locked p a).
Proof.
  intros Hp. pose proof (settle_records p a Hp) as Hrec. revert Hrec.
  unfold settle_waiters_locked.
  pose proof (settle_fold a (bt_elements (default ∅ (p_waiters p !! a))) (p_records p) (p_ready p)
    (bt_elements_NoDup _)) as [_ H2].
  destruct (foldl _ _ _) as [records ready]. cbn [p_records]. simpl in H2. intros ->.
  destruct Hp as [Hdom Hop Hw Ht Hr Hu Hsrc Htop].
  split; cbn [p_ops p_records p_waiters p_by_topic p_ready p_usage p_source p_topic].
  - by rewrite dom_fmap_L.
  - intros i op r Hi (r0 & <- & Hr0)%lookup_fmap_Some. simpl. by eapply Hop.
  - destruct Hw as [Hw1 Hw2]. split.
    + intros d x. unfold waits. destruct (decide (d = a)) as [->|Hne].
      * rewrite lookup_delete_eq. split; [by intros ?%elem_of_empty|].
        intros (r & (r0 & <- & Hr0)%lookup_fmap_Some & Hd). set_solver.
      * rewrite lookup_delete_ne // Hw1. unfold waits. split.
        -- intros (r & Hrx & Hd). exists (settled a r). rewrite lookup_fmap Hrx. set_solver.
        -- intros (r & (r0 & <- & Hr0)%lookup_fmap_Some & Hd). exists r0. set_solver.
    + intros d. destruct (decide (d = a)) as [->|Hne]; [by rewrite lookup_delete_eq|].
      by rewrite lookup_delete_ne.
  - eapply indexes_iff; [done|]. intros x t. cbv beta. split.
    + intros (r & Hx & <-). exists (settled a r). by rewrite lookup_fmap Hx.
    + intros (r & (r0 & <- & Hr0)%lookup_fmap_Some & <-). by exists r0.
  - intros i. rewrite H2 Hr elem_of_bt_elements (proj1 Hw). unfold waits. split.
    + intros [(r & Hi & He)|[_ (r & Hi & He)]]; exists (settled a r); rewrite lookup_fmap Hi;
        (split; [done|]); unfold settled; simpl; [rewrite He; set_solver|done].
    + intros (r & (r0 & <- & Hr0)%lookup_fmap_Some & He). unfold settled in He. simpl in He.
      destruct (decide (a ∈ pr_missing r0)) as [Ha|Ha].
      * right. split; [by exists r0|by exists r0].
      * left. exists r0. split; [done|]. set_solver.
  - by rewrite usage_sum_settled.
  - by apply counts_settled.
  - by apply counts_settled.
Qed.

(** ** The waiter closure *)

(** [i] waits for [dep], directly or through other buffered operations. *)
Inductive blocked_by (records : gmap OpId PendingRecord) (dep : OpId) : OpId → Prop :=
  | blocked_here i : waits records i dep → blocked_by records dep i
  | blocked_through i j : blocked_by records dep j → waits records i j → blocked_by records dep i.

Section closure.
Context (p : Pool) (Hp : pool_ok p) (dep : OpId).

(** The state of the closure loop. *)
Definition closing (frontier : list OpId) (seen : gset OpId) : Prop :=
  (∀ i, i ∈ seen → blocked_by (p_records p) dep i) ∧
  (∀ i, i ∈ frontier → i = dep ∨ i ∈ seen) ∧
  (∀ x i, x = dep ∨ x ∈ seen → x ∉ frontier → waits (p_records p) i x → i ∈ seen).

Lemma closure_fold (l frontier : list OpId) seen :
  (∀ i, i ∈ l → i ∈ dom (p_records p)) →
  let '(frontier', seen') := foldl (λ '(frontier, seen) i,
      if decide (i ∈ seen) then (frontier, seen) else (i :: frontier, {[i]} ∪ seen))
    (frontier, seen) l in
  (∀ i, i ∈ seen' ↔ i ∈ (seen : gset OpId) ∨ i ∈ l) ∧
  (∀ i, i ∈ frontier' ↔ i ∈ frontier ∨ (i ∈ l ∧ i ∉ seen)) ∧
  (length frontier' + size (dom (p_records p) ∖ seen') =
    length frontier + size (dom (p_records p) ∖ seen))%nat.
Proof using Type.
  revert frontier seen. induction l as [|c l IH]; intros frontier seen Hl; cbn [foldl].
  { split_and!; [..|done]; intros i; rewrite elem_of_nil; tauto. }
  assert (∀ i, i ∈ l → i ∈ dom (p_records p)) as Hl' by (intros; apply Hl; by right).
  destruct (decide (c ∈ seen)) as [Hc|Hc].
  - specialize (IH frontier seen Hl'). destruct (foldl _ _ l) as [frontier' seen'].
    destruct IH as (H1 & H2 & H3). split_and!; [..|done]; intros i; rewrite ?H1 ?H2 elem_of_cons;
      clear -Hc; naive_solver.
  - specialize (IH (c :: frontier) ({[c]} ∪ seen) Hl'). destruct (foldl _ _ l) as [frontier' seen'].
    destruct IH as (H1 & H2 & H3). split_and!.
    + intros i. rewrite H1 elem_of_union elem_of_singleton elem_of_cons. clear. naive_solver.
    + intros i. rewrite H2 elem_of_union elem_of_singleton !elem_of_cons.
      destruct (decide (i = c)) as [->|Hne]; [clear -Hc|clear -Hne]; naive_solver.
    + rewrite H3. simpl length. assert (c ∈ dom (p_records p)) as Hcd by (apply Hl; by left).
      assert (dom (p_records p) ∖ seen = {[c]} ∪ (dom (p_records p) ∖ ({[c]} ∪ seen))) as ->.
      { apply set_eq. intros i. rewrite !elem_of_union !elem_of_difference elem_of_union !elem_of_singleton.
        destruct (decide (i = c)) as [->|Hne]; [clear -Hc Hcd|clear -Hne]; naive_solver. }
      rewrite size_union; [clear; set_solver|]. rewrite size_singleton. lia.
Qed.

Lemma closure_loop_spec fuel frontier seen :
  closing frontier seen →
  (length frontier + size (dom (p_records p) ∖ seen) ≤ fuel)%nat →
  ∀ i, i ∈ closure_loop fuel p frontier seen ↔ blocked_by (p_records p) dep i.
Proof using Hp.
  revert frontier seen. induction fuel as [|fuel IH]; intros frontier seen (Hsub & Hfr & Hpu) Hfuel;
    destruct frontier as [|x frontier]; cbn [closure_loop]; [|simpl in Hfuel; lia|..].
  1,2: intros i; split; [apply Hsub|]; induction 1 as [i Hi|i j _ Hj Hi];
    [apply (Hpu dep); [by left|by apply not_elem_of_nil|done]|
     apply (Hpu j); [by right|by apply not_elem_of_nil|done]].
  assert (∀ i, i ∈ bt_elements (default ∅ (p_waiters p !! x)) ↔ waits (p_records p) i x) as Hw.
  { intros i. rewrite elem_of_bt_elements. apply (po_waiters p Hp). }
  pose proof (closure_fold (bt_elements (default ∅ (p_waiters p !! x))) frontier seen) as Hfold.
  destruct (foldl _ _ _) as [frontier' seen']. destruct Hfold as (H1 & H2 & H3).
  { intros i (r & Hr & _)%Hw. apply elem_of_dom. by eexists. }
  apply IH; [|simpl in Hfuel; lia]. split_and!.
  - intros i [Hi|Hi%Hw]%H1; [by apply Hsub|].
    destruct (Hfr x ltac:(by left)) as [->|Hx]; [by constructor|].
    eapply blocked_through; [by apply Hsub|done].
  - intros i [Hi|[Hi _]]%H2.
    + destruct (Hfr i ltac:(by right)) as [?|?]; [by left|]. right. apply H1. by left.
    + right. apply H1. by right.
  - intros y i Hy Hyf Hi. apply H1. destruct (decide (y = x)) as [->|Hne].
    { right. by apply Hw. }
    rewrite H2 in Hyf. destruct (decide (y = dep ∨ y ∈ seen)) as [Hys|Hys].
    + left. apply (Hpu y); [done| |done]. rewrite elem_of_cons. clear -Hne Hyf. naive_solver.
    + exfalso. destruct Hy as [->|Hy%H1]; [naive_solver|]. naive_solver.
Qed.

(** The closure is the set of operations that cannot be admitted before [dep]. *)
Lemma waiter_closure_spec i :
  i ∈ waiter_closure_locked p dep ↔ blocked_by (p_records p) dep i ∧ i ≠ dep.
Proof using Hp.
  unfold waiter_closure_locked. rewrite elem_of_difference elem_of_singleton closure_loop_spec //.
  - split_and!.
    + by intros j ?%elem_of_empty.
    + intros j ->%list_elem_of_singleton. by left.
    + intros x j [->|Hx] Hn _; [|set_solver]. destruct Hn. by left.
  - rewrite difference_empty_L size_dom. simpl. lia.
Qed.
End closure.

(** ** Purging and expiring *)

Lemma blocked_in_records records dep i : blocked_by records dep i → i ∈ dom records.
Proof. destruct 1 as [i (r & Hr & _)|i j _ (r & Hr & _)]; apply elem_of_dom; by eexists. Qed.

Lemma remove_all_ok p (l : list OpId) :
  pool_ok p → ∃ p', try_fold remove_pending_locked p l = Ok p' ∧ pool_ok p' ∧
    p_records p' = filter (λ e, e.1 ∉ l) (p_records p).
Proof.
  revert p. induction l as [|i l IH]; intros p Hp; cbn [try_fold].
  { exists p. split_and!; [done..|]. symmetry. apply map_filter_id.
    intros j r _. simpl. apply not_elem_of_nil. }
  destruct (remove_pending_ok p i Hp) as (p1 & -> & Hp1 & Hr1 & _).
  destruct (IH p1 Hp1) as (p2 & -> & Hp2 & Hr2). exists p2. split_and!; [done..|].
  rewrite Hr2 Hr1. apply map_eq. intros j. apply option_eq. intros r.
  rewrite !map_lookup_filter_Some lookup_delete_Some /= not_elem_of_cons. naive_solver.
Qed.

(** Purging the waiters of a dependency that will never be stored succeeds
    and drops exactly the operations that wait for it, directly or through others;
    the pool's indexes and counters still describe the records that remain. *)
Theorem purge_pending_exact p dep :
  pool_ok p →
  ∃ p' n, purge_pending_waiters p dep = Ok (p', n) ∧ pool_ok p' ∧
    (∀ i r, p_records p' !! i = Some r ↔
      p_records p !! i = Some r ∧ (blocked_by (p_records p) dep i → i = dep)) ∧
    (size (p_records p') + n = size (p_records p))%nat.
Proof.
  intros Hp. unfold purge_pending_waiters.
  destruct (remove_all_ok p (bt_elements (waiter_closure_locked p dep)) Hp) as (p' & -> & Hp' & Hr).
  exists p', (size (waiter_closure_locked p dep)). split_and!; [done..| |].
  - intros i r. rewrite Hr map_lookup_filter_Some /= elem_of_bt_elements waiter_closure_spec //.
    destruct (decide (i = dep)) as [->|Hne]; naive_solver.
  - assert (dom (p_records p) = dom (p_records p') ∪ waiter_closure_locked p dep) as Hd.
    { apply set_eq. intros i. rewrite elem_of_union !elem_of_dom Hr. split.
      - intros [r Hi]. destruct (decide (i ∈ waiter_closure_locked p dep)) as [?|Hn]; [by right|].
        left. exists r. apply map_lookup_filter_Some. split; [done|]. simpl.
        by rewrite elem_of_bt_elements.
      - intros [[r [Hi _]%map_lookup_filter_Some]|Hi]; [by eexists|].
        apply waiter_closure_spec in Hi as [Hb _]; [|done]. by apply elem_of_dom, (blocked_in_records _ dep). }
    rewrite -!(size_dom (D := gset OpId)) Hd size_union // => i.
    rewrite elem_of_dom Hr. intros [r [_ Hn]%map_lookup_filter_Some] Hi. simpl in Hn.
    by rewrite elem_of_bt_elements in Hn.
Qed.

Lemma set_since_ok p since : pool_ok p → pool_ok (set_since p since).
Proof. by intros []. Qed.

Lemma expire_ops_ok (l : list OpId) p removed :
  pool_ok p → ∃ p' removed', try_fold expire_op (p, removed) l = Ok (p', removed') ∧ pool_ok p' ∧
    p_records p' = filter (λ e, e.1 ∉ l) (p_records p) ∧
    ∀ i, i ∈ removed' ↔ i ∈ removed ∨ (i ∈ l ∧ i ∈ dom (p_records p)).
Proof.
  revert p removed. induction l as [|i l IH]; intros p removed Hp; cbn [try_fold].
  { exists p, removed. split_and!; [done..| |].
    - symmetry. apply map_filter_id. intros j r _. simpl. apply not_elem_of_nil.
    - intros j. rewrite elem_of_nil. tauto. }
  unfold expire_op at 1. destruct (p_records p !! i) as [r|] eqn:Hi.
  - destruct (remove_pending_ok p i Hp) as (p1 & -> & Hp1 & Hr1 & _ & _). res_step.
    destruct (IH (set_since p1 (delete i (p_since p1))) ({[i]} ∪ removed)) as (p2 & rm & -> & Hp2 & Hr2 & Hrm);
      [by apply set_since_ok|].
    exists p2, rm. split_and!; [done..| |].
    + rewrite Hr2. cbn [set_since p_records]. rewrite Hr1. apply map_eq. intros j. apply option_eq. intros r'.
      rewrite !map_lookup_filter_Some lookup_delete_Some /= not_elem_of_cons. naive_solver.
    + intros j. rewrite Hrm. cbn [set_since p_records]. rewrite Hr1 dom_delete_L elem_of_cons.
      assert (i ∈ dom (p_records p)) as Hd by (apply elem_of_dom; by eexists).
      destruct (decide (j = i)) as [->|Hne]; set_solver.
  - destruct (IH p removed Hp) as (p2 & rm & -> & Hp2 & Hr2 & Hrm). exists p2, rm.
    split_and!; [done..| |].
    + rewrite Hr2. apply map_eq. intros j. apply option_eq. intros r'.
      rewrite !map_lookup_filter_Some /= not_elem_of_cons. split; [|naive_solver].
      intros [Hj ?]. split_and!; [done| |done]. intros ->. congruence.
    + intros j. rewrite Hrm elem_of_cons. apply not_elem_of_dom in Hi.
      destruct (decide (j = i)) as [->|Hne]; naive_solver.
Qed.

(** What goes when [expired] expire: they and what waits for them. *)
Definition gone (records : gmap OpId PendingRecord) (expired : list OpId) (i : OpId) : Prop :=
  ∃ e, e ∈ expired ∧ (i = e ∨ blocked_by records e i).

(** Operations that stay are blocked by the same ones as before. *)
Lemma blocked_by_rest records records' expired e i :
  (∀ j r, records' !! j = Some r ↔ records !! j = Some r ∧ ¬ gone records expired j) →
  ¬ gone records expired i → blocked_by records' e i ↔ blocked_by records e i.
Proof.
  intros Hrest Hi. split.
  - intros Hb. clear Hi. induction Hb as [i (r & Hr & Hd)|i j _ IH (r & Hr & Hd)].
    + apply Hrest in Hr as [Hr _]. apply blocked_here. by exists r.
    + apply Hrest in Hr as [Hr _]. apply (blocked_through _ _ i j); [done|]. by exists r.
  - intros Hb. induction Hb as [i (r & Hr & Hd)|i j Hj IH (r & Hr & Hd)].
    + apply blocked_here. exists r. split; [by apply Hrest|done].
    + apply (blocked_through _ _ i j); [|exists r; split; [by apply Hrest|done]].
      apply IH. intros (e' & He' & Hje). apply Hi. exists e'. split; [done|]. right.
      destruct Hje as [->|Hje]; [apply blocked_here; by exists r|].
      apply (blocked_through _ _ i j); [done|]. by exists r.
Qed.

Lemma expire_subtrees_ok (l : list OpId) p removed records pre :
  pool_ok p →
  (∀ j r, p_records p !! j = Some r ↔ records !! j = Some r ∧ ¬ gone records pre j) →
  (∀ i, i ∈ removed ↔ i ∈ dom records ∧ i ∉ dom (p_records p)) →
  ∃ p' removed', try_fold expire_subtree (p, removed) l = Ok (p', removed') ∧ pool_ok p' ∧
    (∀ j r, p_records p' !! j = Some r ↔ records !! j = Some r ∧ ¬ gone records (pre ++ l) j) ∧
    (∀ i, i ∈ removed' ↔ i ∈ dom records ∧ i ∉ dom (p_records p')).
Proof.
  revert p removed pre. induction l as [|e l IH]; intros p removed pre Hp Hrec Hrm; cbn [try_fold].
  { exists p, removed. by rewrite app_nil_r. }
  unfold expire_subtree at 1. cbn [fst].
  destruct (expire_ops_ok (bt_elements ({[e]} ∪ waiter_closure_locked p e)) p removed Hp)
    as (p1 & rm1 & -> & Hp1 & Hr1 & Hrm1). rewrite (cons_middle e pre l) app_assoc.
  assert (∀ j, j ∉ bt_elements ({[e]} ∪ waiter_closure_locked p e) ↔
    j ≠ e ∧ ¬ blocked_by (p_records p) e j) as Hsub.
  { intros j. rewrite elem_of_bt_elements elem_of_union elem_of_singleton waiter_closure_spec //.
    destruct (decide (j = e)); naive_solver. }
  apply IH; [done|..].
  - intros j r. rewrite Hr1 map_lookup_filter_Some /= Hrec Hsub. unfold gone at 2.
    setoid_rewrite elem_of_app. setoid_rewrite list_elem_of_singleton. split.
    + intros [[Hj Hg] [Hne Hnb]]. split; [done|]. intros (e' & [He'| ->] & Hje).
      * apply Hg. by exists e'.
      * destruct Hje as [->|Hje]; [done|]. apply Hnb. by apply (blocked_by_rest records _ pre).
    + intros [Hj Hg]. assert (¬ gone records pre j) as Hgp.
      { intros (e' & He' & Hje). apply Hg. exists e'. split; [by left|done]. }
      split_and!; [done..| |].
      * intros ->. apply Hg. exists e. split; [by right|by left].
      * intros Hb. apply Hg. exists e. split; [by right|]. right.
        by apply (blocked_by_rest records (p_records p) pre).
  - intros i. rewrite Hrm1 Hrm Hr1. rewrite (elem_of_dom (filter _ _)).
    setoid_rewrite map_lookup_filter. split.
    + intros [[Hi Hn]|[Hi Hd]].
      * split; [done|]. apply not_elem_of_dom in Hn. rewrite Hn. by intros [].
      * split.
        -- apply elem_of_dom in Hd as [r Hr]. apply Hrec in Hr as [Hr _]. apply elem_of_dom. by eexists.
        -- apply elem_of_dom in Hd as [r Hr]. rewrite Hr /=. by case_guard; intros [].
    + intros [Hi Hn]. destruct (decide (i ∈ dom (p_records p))) as [Hd|Hd]; [|by left].
      right. split; [|done]. apply elem_of_dom in Hd as [r Hr]. rewrite Hr /= in Hn.
      destruct (decide (i ∈ bt_elements ({[e]} ∪ waiter_closure_locked p e))); [done|].
      case_guard; [|done]. destruct Hn. by eexists.
Qed.

(** When operation [i] was first seen by a sweep. *)
Definition first_seen (p : Pool) (now_ms : N) (i : OpId) : N := default now_ms (p_since p !! i).

Lemma expire_sweep_spec p now_ms max_idle_ms i :
  i ∈ (expire_sweep p now_ms max_idle_ms).2 ↔
    i ∈ dom (p_records p) ∧ saturating_add (first_seen p now_ms i) max_idle_ms < now_ms.
Proof.
  unfold expire_sweep.
  set (since0 := filter _ (p_since p)).
  enough (∀ (l : list OpId) since (expired : gset OpId), NoDup l →
    i ∈ (foldl (λ '(since, expired) i,
      let first := default now_ms (since !! i) in
      (<[i := first]> since,
       if saturating_add first max_idle_ms <? now_ms then {[i]} ∪ expired else expired))
      (since, expired) l).2 ↔
    i ∈ expired ∨ (i ∈ l ∧ saturating_add (default now_ms ((since : gmap OpId N) !! i)) max_idle_ms < now_ms))
    as Hgen.
  { rewrite Hgen; [apply bt_elements_NoDup|]. rewrite elem_of_bt_elements.
    split; [intros [?%elem_of_empty|[Hd Hlt]]; [done|]|intros [Hd Hlt]; right]; (split; [done|]);
      unfold first_seen in *; apply elem_of_dom in Hd as [r Hr];
      assert (since0 !! i = p_since p !! i) as Heq
        by (unfold since0; rewrite map_lookup_filter; destruct (p_since p !! i); simpl; [|done];
            case_guard as Hg; [done|]; destruct Hg; by eexists);
      by rewrite Heq in Hlt |- *. }
  induction l as [|j l IH]; intros since expired Hnd; cbn [foldl].
  { rewrite elem_of_nil. tauto. }
  apply NoDup_cons in Hnd as [Hj Hnd]. rewrite IH // elem_of_cons.
  destruct (decide (i = j)) as [->|Hne].
  - destruct (N.ltb_spec (saturating_add (default now_ms (since !! j)) max_idle_ms) now_ms); [set_solver|].
    split; [tauto|]. intros [?|[_ ?]]; [by left|lia].
  - rewrite lookup_insert_ne //. destruct (_ <? _); set_solver.
Qed.

(** A sweep succeeds and drops exactly the operations first seen longer ago
    than the idle time together with everything that waits for them, and reports how
    many it dropped; the rest of the pool is untouched and consistent. *)
Theorem expire_pending_exact p now_ms max_idle_ms :
  pool_ok p →
  ∃ p' n, expire_pending p now_ms max_idle_ms = Ok (p', n) ∧ pool_ok p' ∧
    (∀ i r, p_records p' !! i = Some r ↔ p_records p !! i = Some r ∧
      ¬ ∃ e, (e ∈ dom (p_records p) ∧ saturating_add (first_seen p now_ms e) max_idle_ms < now_ms) ∧
        (i = e ∨ blocked_by (p_records p) e i)) ∧
    (size (p_records p') + n = size (p_records p))%nat.
Proof.
  intros Hp. unfold expire_pending.
  pose proof (expire_sweep_spec p now_ms max_idle_ms) as Hsweep.
  destruct (expire_sweep p now_ms max_idle_ms) as [since expired]. simpl in Hsweep.
  destruct (expire_subtrees_ok (bt_elements expired) (set_since p since) ∅ (p_records p) [])
    as (p' & removed & -> & Hp' & Hr & Hrm).
  { by apply set_since_ok. }
  { intros j r. cbn [set_since p_records]. split; [|by intros []]. intros Hj. split; [done|].
    by intros (e & ?%elem_of_nil & _). }
  { intros i. cbn [set_since p_records]. set_solver. }
  exists p', (size removed). split_and!; [done..| |].
  - intros i r. rewrite Hr. unfold gone. simpl. setoid_rewrite elem_of_bt_elements.
    by setoid_rewrite Hsweep.
  - assert (dom (p_records p) = dom (p_records p') ∪ removed) as Hd.
    { apply set_eq. intros i. rewrite elem_of_union Hrm. split; [|intros [Hi|[? _]]; [|done]].
      - intros Hi. destruct (decide (i ∈ dom (p_records p'))); tauto.
      - apply elem_of_dom in Hi as [r [Hi _]%Hr]. apply elem_of_dom. by eexists. }
    rewrite -!(size_dom (D := gset OpId)) Hd size_union // => i Hi Hn. apply Hrm in Hn. tauto.
Qed.

(** ** Witnesses *)

(** Operation 11 waits for 10, operation 12 for 11, operation 13 for nothing. *)
Definition toy_waiting (i : N) : Op :=
  toy_op i (small_id 3) i None ∅ 0 (Event {| type_id := "note"; ev_payload := [] |}).
Definition toy_pool : Pool :=
  buffer (buffer (buffer pool_empty (small_id 3) (toy_waiting 11) {[small_id 10]} 5)
    (small_id 3) (toy_waiting 12) {[small_id 11]} 7) (small_id 4) (toy_waiting 13) ∅ 9.

Lemma toy_pool_ok : pool_ok toy_pool.
Proof.
  assert (∀ p src op ms ch, pool_ok p → p_records p !! op_id op = None →
    pool_ok (buffer p src op ms ch)) as Hnew.
  { intros p src op ms ch Hp Hno. apply buffer_ok; [done|]. intros r Hr. congruence. }
  apply Hnew; [|by vm_compute]. apply Hnew; [|by vm_compute].
  apply Hnew; [apply pool_empty_ok|by vm_compute].
Qed.

Definition toy_outcome (r : res (Pool * nat)) : option (nat * PendingUsage) :=
  match r with Ok (p, n) => Some (n, p_usage p) | Err _ => None end.

Lemma toy_purged :
  toy_outcome (purge_pending_waiters toy_pool (small_id 10)) = Some (2%nat, MkUsage 1 9).
Proof. vm_compute. reflexivity. Qed.
Lemma toy_expired :
  toy_outcome (expire_pending (set_since toy_pool {[small_id 11 := 100]}) 1000 500) =
    Some (2%nat, MkUsage 1 9).
Proof. vm_compute. reflexivity. Qed.

Lemma purge_pending_exact_witness :
  ∃ p' n, purge_pending_waiters toy_pool (small_id 10) = Ok (p', n) ∧
    n = 2%nat ∧ pool_ok p' ∧ p_usage p' = MkUsage 1 9.
Proof.
  destruct (purge_pending_exact toy_pool (small_id 10) toy_pool_ok) as (p' & n & Hp & Hok & _).
  pose proof toy_purged as Ht. rewrite Hp in Ht. cbn [toy_outcome] in Ht. injection Ht as Hn Hu.
  exists p', n. split_and!; assumption.
Defined.

Lemma expire_pending_exact_witness :
  ∃ p' n, expire_pending (set_since toy_pool {[small_id 11 := 100]}) 1000 500 = Ok (p', n) ∧
    n = 2%nat ∧ pool_ok p' ∧ p_usage p' = MkUsage 1 9.
Proof.
  destruct (expire_pending_exact (set_since toy_pool {[small_id 11 := 100]}) 1000 500
    (set_since_ok _ _ toy_pool_ok)) as (p' & n & Hp & Hok & _).
  pose proof toy_expired as Ht. rewrite Hp in Ht. cbn [toy_outcome] in Ht. injection Ht as Hn Hu.
  exists p', n. split_and!; assumption.
Defined.
