(* ===== verification/Store.v ===== *)
(** * The memory store ([src/src/storage/memory/mod.rs])

    The admitted log with its indexes, the pending pool of [Pool.v], the branch
    evidence and the eviction journal, and the writes of [MemoryStorage]: admission
    of a batch, buffering, rejection, acknowledgement, obligations and the reset of a
    topic. Every method runs under one lock, so a write is one step.

    Memory reservations are requests to the environment: wherever the source
    reserves, [mem] may refuse, and the theorems hold whatever it answers. The
    reservations a store keeps ([charges], [metadata], [namespace_charge]) are part
    of that budget and not of the state here. *)

From S2P Require Import Prelude Ids Frame ClockSpec Types Evidence Records Pool.

#[local] Open Scope N_scope.

(** [enum ObligationKind] *)
Inductive ObligationKind := ClockKind | RepairKind.

#[global] Instance ObligationKind_eq_dec : EqDecision ObligationKind.
Proof. solve_decision. Defined.
#[global] Instance ObligationKind_countable : Countable ObligationKind.
Proof.
  refine (inj_countable' (λ k, if k is ClockKind then true else false)
    (λ b, if b then ClockKind else RepairKind) _). by intros [].
Defined.
(** [derive(Ord)]: variants in the order they are declared. *)
Definition kind_cmp (x y : ObligationKind) : comparison :=
  match x, y with
  | ClockKind, RepairKind => Lt
  | RepairKind, ClockKind => Gt
  | ClockKind, ClockKind | RepairKind, RepairKind => Eq
  end.
#[global] Program Instance ObligationKind_bord : BOrd ObligationKind := {| bcmp := kind_cmp |}.
Next Obligation. by intros [] []. Qed.
Next Obligation. by intros [] []. Qed.
Next Obligation. by intros [] [] []. Qed.

(** [TopicEviction::key] *)
Definition eviction_key `{Crypto} (e : TopicEviction) : EvictionKey :=
  blake3 KEviction (as_bytes (te_topic_id e) ++ as_bytes (te_losing_genesis e)
    ++ as_bytes (te_winning_genesis e) ++ mjoin ((λ o, as_bytes (ev_op_id o)) <$> te_evicted e)).

(** [journalled_eviction] *)
Definition journalled_eviction `{Crypto} (e : option TopicEviction)
    : option (EvictionKey * TopicEviction) :=
  match e with
  | Some e => match te_evicted e with [] => None | _ => Some (eviction_key e, e) end
  | None => None
  end.

(** The log's part of [MemoryInner]. *)
Record Log (C : Type) := MkLog {
  l_ops : gmap OpId Op;
  l_meta : gmap OpId (OpMeta C);
  l_topic_ops : gmap TopicId (gset OpId);
  l_children : gmap OpId (gset OpId);
  l_actor_by_seq : gmap (TopicId * ActorId * N) OpId;
  l_actor_tip : gmap (TopicId * ActorId) (N * OpId);
  l_max_generation : gmap TopicId N;
}.
Arguments MkLog {C}. Arguments l_ops {C}. Arguments l_meta {C}. Arguments l_topic_ops {C}.
Arguments l_children {C}. Arguments l_actor_by_seq {C}. Arguments l_actor_tip {C}.
Arguments l_max_generation {C}.

(** [RejectedIds] *)
Record RejectedIds := { rj_order : list OpId; rj_ids : gset OpId }.
Definition rejected_default : RejectedIds := {| rj_order := []; rj_ids := ∅ |}.

(** [MemoryInner] *)
Record MemoryInner (C : Type) := MkInner {
  s_log : Log C;
  s_pool : Pool;
  s_heads : gmap TopicId (gset OpId);
  s_actor_clock : gmap TopicId C;
  s_topic_fingerprint : gmap TopicId (list N);
  s_topics : gmap TopicId TopicState;
  s_rejected : gmap TopicId RejectedIds;
  s_peer_acks : gmap (PeerId * TopicId) (PeerAck C);
  s_obligations : gmap (TopicId * PeerId) (gmap ObligationKind (SyncObligation C));
  s_sync_statuses : gmap (TopicId * PeerId) SyncPeerStatus;
  s_evictions : gmap EvictionKey TopicEviction;
  s_sealed_topics : gset TopicId;
  s_topic_epochs : gmap TopicId N;
  s_attempt_epoch : N;
  s_admitted_bytes : N;
}.
Arguments MkInner {C}. Arguments s_log {C}. Arguments s_pool {C}. Arguments s_heads {C}.
Arguments s_actor_clock {C}. Arguments s_topic_fingerprint {C}. Arguments s_topics {C}.
Arguments s_rejected {C}. Arguments s_peer_acks {C}. Arguments s_obligations {C}.
Arguments s_sync_statuses {C}. Arguments s_evictions {C}. Arguments s_sealed_topics {C}.
Arguments s_topic_epochs {C}. Arguments s_attempt_epoch {C}. Arguments s_admitted_bytes {C}.

(** What a store asks its memory budget for. *)
Inductive MemRequest (C : Type) :=
  | MergeWorkspace (obligations : list (SyncObligation C))
  | ClockWorkspace (entries : N)
  | PlanNodes
  | SharedNodes (clock : C)
  | RecordBytes (op : Op) (meta : OpMeta C)
  | TopicRecord (topic : TopicId)
  | ObligationRecord (obligation : SyncObligation C)
  | RejectedRecord (topic : TopicId)
  | EvictionRecord (eviction : TopicEviction)
  | CopyOfStore
  | AckWorkspace (ack : PeerAck C)
  | AckRecord (ack : PeerAck C)
  | StatusWorkspace (update : SyncStatusUpdate)
  | StatusRecord (status : SyncPeerStatus)
  | HoldWorkspace (held : N)
  | NamespaceRecord
  | CopyOfNamespace.
Arguments MergeWorkspace {C}. Arguments ClockWorkspace {C}. Arguments PlanNodes {C}. Arguments SharedNodes {C}.
Arguments RecordBytes {C}. Arguments TopicRecord {C}. Arguments ObligationRecord {C}.
Arguments RejectedRecord {C}. Arguments EvictionRecord {C}. Arguments CopyOfStore {C}.
Arguments AckWorkspace {C}. Arguments AckRecord {C}. Arguments StatusWorkspace {C}.
Arguments StatusRecord {C}. Arguments HoldWorkspace {C}. Arguments NamespaceRecord {C}.
Arguments CopyOfNamespace {C}.

(** The environment of a store: the budget's verdicts, the size of postcard's
    encoding ([pending_op_bytes]) and the fingerprint of a frontier
    ([topic_fingerprint_for]). *)
Class StoreEnv (C : Type) := {
  mem : MemRequest C → res unit;
  pending_op_bytes : Op → res N;
  topic_fingerprint_for : gset OpId → C → res (list N);
}.

Section store.
Context {C : Type} `{!ClockImpl C} `{!StoreEnv C} `{!Crypto}.
Implicit Types (inner : MemoryInner C) (batch : AdmittedBatch C) (log : Log C).

Definition log_empty : Log C := MkLog ∅ ∅ ∅ ∅ ∅ ∅ ∅.
Definition store_empty : MemoryInner C :=
  MkInner log_empty pool_empty ∅ ∅ ∅ ∅ ∅ ∅ ∅ ∅ ∅ ∅ ∅ 0 0.

Definition set_pool inner (p : Pool) : MemoryInner C :=
  MkInner (s_log inner) p (s_heads inner) (s_actor_clock inner) (s_topic_fingerprint inner)
    (s_topics inner) (s_rejected inner) (s_peer_acks inner) (s_obligations inner)
    (s_sync_statuses inner) (s_evictions inner) (s_sealed_topics inner) (s_topic_epochs inner)
    (s_attempt_epoch inner) (s_admitted_bytes inner).

(** ** Reads *)

(** [dep_resolvable_locked] *)
Definition dep_resolvable_locked inner (d : OpId) : bool :=
  bool_decide (is_Some (l_ops (s_log inner) !! d)) && bool_decide (is_Some (l_meta (s_log inner) !! d)).

(** [topic_state_locked] *)
Definition topic_state_locked inner (t : TopicId) : option TopicState :=
  (λ s, set_heads s (default ∅ (s_heads inner !! t))) <$> s_topics inner !! t.

Definition clock_of inner (t : TopicId) : C := default ck_new (s_actor_clock inner !! t).

(** [stored_op_branch] *)
Definition stored_op_branch inner (i : OpId) : option (OpMeta C * OpId) :=
  meta ← l_meta (s_log inner) !! i;
  state ← s_topics inner !! om_topic_id meta;
  Some (meta, ts_genesis state).

(** [peer_reached_op] *)
Definition peer_reached_op inner (p : PeerId) (i : OpId) : bool :=
  match stored_op_branch inner i with
  | None => false
  | Some (meta, genesis) =>
      match s_peer_acks inner !! (p, om_topic_id meta) with
      | Some ack => ack_reached_op ack genesis i (position_of meta)
      | None => false
      end
  end.

(** ** Obligations *)

(** [ObligationKind::of] *)
Definition kind_of (ob : SyncObligation C) : ObligationKind :=
  match ob_target ob with ClockTarget _ => ClockKind | RepairTarget _ => RepairKind end.

(** [merged_obligation_locked] *)
Definition merged_obligation_locked inner (ob : SyncObligation C) : res (SyncObligation C) :=
  merged_obligation
    (s_obligations inner !! (ob_topic_id ob, ob_peer_id ob) ≫= λ records, records !! kind_of ob) ob.

(** [put_obligation_locked] *)
Definition put_obligation_locked
    (obligations : gmap (TopicId * PeerId) (gmap ObligationKind (SyncObligation C)))
    (ob : SyncObligation C) :=
  if ob_is_empty ob then obligations
  else <[(ob_topic_id ob, ob_peer_id ob) :=
      <[kind_of ob := ob]> (default ∅ (obligations !! (ob_topic_id ob, ob_peer_id ob)))]> obligations.

(** The effects of a batch, merged before anything is written. *)
Definition merge_effects inner batch (genesis : option OpId)
    : res (gmap (PeerId * ObligationKind) (SyncObligation C)) :=
  try_fold (λ effects ob,
    if negb (bool_decide (ob_topic_id ob = ab_topic_id batch)) then Err TopicMismatch
    else if ob_is_empty ob
         || ack_covers (s_peer_acks inner !! (ob_peer_id ob, ab_topic_id batch)) genesis ob
    then Ok effects
    else
      let key := (ob_peer_id ob, kind_of ob) in
      merged ← match effects !! key with
               | Some pending => merged_obligation (Some pending) ob
               | None => merged_obligation_locked inner ob
               end;
      Ok (<[key := merged]> effects)) ∅ (ab_effects batch).

(** ** Admission *)

(** The closure [validate_heads] is called with: whether the chain accounts for an id. *)
Definition accounted inner (meta : OpMeta C) : bool :=
  bool_decide (is_Some (l_ops (s_log inner) !! om_id meta)) ||
  bool_decide (is_Some (l_meta (s_log inner) !! om_id meta)) ||
  bool_decide (l_actor_by_seq (s_log inner) !!
    (om_topic_id meta, om_actor_id meta, om_actor_seq meta) = Some (om_id meta)) ||
  bool_decide (is_Some (l_children (s_log inner) !! om_id meta)).

(** The loop over the entries of a batch: which are new, and where each actor's chain
    ends. *)
Definition scan_entry inner (t : TopicId)
    (st : gmap (TopicId * ActorId) (N * OpId) * list (Op * OpMeta C)) (e : Op * OpMeta C)
    : res (gmap (TopicId * ActorId) (N * OpId) * list (Op * OpMeta C)) :=
  let '(tips, new_entries) := st in
  let '(op, meta) := e in
  let log := s_log inner in
  let at_seq := (om_topic_id meta, om_actor_id meta, om_actor_seq meta) in
  let chain := (om_topic_id meta, om_actor_id meta) in
  if negb (bool_decide (om_topic_id meta = t)) then Err TopicMismatch
  else if (match l_ops log !! op_id op with
      | Some existing => negb (bool_decide (existing = op))
      | None => false
      end)
  then Err (Storage "op id collision with different op")
  else
    let has_op := bool_decide (is_Some (l_ops log !! op_id op)) in
    let has_meta := bool_decide (is_Some (l_meta log !! op_id op)) in
    if has_op && has_meta then Ok (tips, new_entries)
    else if (match l_actor_by_seq log !! at_seq with
        | Some existing => negb (bool_decide (existing = op_id op))
        | None => false
        end)
    then Err ActorFork
    else if has_op || has_meta || bool_decide (l_actor_by_seq log !! at_seq = Some (op_id op))
         || bool_decide (is_Some (l_children log !! op_id op))
    then Ok (tips, new_entries ++ [(op, meta)])
    else
      _ ← match (match tips !! chain with Some tip => Some tip | None => l_actor_tip log !! chain end) with
          | Some (seq, i) =>
              expected ← ok_or (checked_add seq 1) InvalidOpId;
              if negb (om_actor_seq meta =? expected) then Err (ActorSeqGap expected (om_actor_seq meta))
              else if negb (bool_decide (om_actor_prev meta = Some i)) then Err ActorPrevMismatch
              else Ok ()
          | None =>
              if negb (om_actor_seq meta =? 1) then Err (ActorSeqGap 1 (om_actor_seq meta))
              else if bool_decide (is_Some (om_actor_prev meta)) then Err ActorPrevMismatch
              else Ok ()
          end;
      Ok (<[chain := (om_actor_seq meta, op_id op)]> tips, new_entries ++ [(op, meta)]).

(** The writes of one new entry to the indexes. *)
Definition write_index log (op : Op) (meta : OpMeta C) : Log C :=
  let t := om_topic_id meta in
  let chain := (t, om_actor_id meta) in {|
    l_ops := l_ops log;
    l_meta := l_meta log;
    l_topic_ops := add_to (l_topic_ops log) t (op_id op);
    l_children := foldl (λ ch d, add_to ch d (op_id op)) (l_children log) (bt_elements (om_deps meta));
    l_actor_by_seq := <[(t, om_actor_id meta, om_actor_seq meta) := op_id op]> (l_actor_by_seq log);
    l_actor_tip :=
      match l_actor_tip log !! chain with
      | Some (seq, i) =>
          if seq <? om_actor_seq meta then <[chain := (om_actor_seq meta, op_id op)]> (l_actor_tip log)
          else l_actor_tip log
      | None => <[chain := (om_actor_seq meta, op_id op)]> (l_actor_tip log)
      end;
    l_max_generation :=
      <[t := match l_max_generation log !! t with
             | Some g => N.max g (om_generation meta)
             | None => om_generation meta
             end]> (l_max_generation log) |}.

(** All writes of one new entry to the log. *)
Definition write_log log (op : Op) (meta : OpMeta C) : Log C :=
  let log := write_index log op meta in
  MkLog (<[op_id op := op]> (l_ops log)) (<[op_id op := meta]> (l_meta log)) (l_topic_ops log)
    (l_children log) (l_actor_by_seq log) (l_actor_tip log) (l_max_generation log).

(** The loop that writes the new entries. A refund that fails stops it in the middle;
    [write_entries_ok] shows that none does. *)
Fixpoint write_entries (log : Log C) (pool : Pool) (entries : list (Op * OpMeta C))
    : (Log C * Pool) * res unit :=
  match entries with
  | [] => ((log, pool), Ok ())
  | (op, meta) :: entries =>
      match remove_pending_locked pool (op_id op) with
      | Err e => ((write_index log op meta, pool), Err e)
      | Ok pool =>
          write_entries (write_log log op meta) (settle_waiters_locked pool (op_id op)) entries
      end
  end.

(** A validated admission: what [admit_batch_locked] knows before its first write. *)
Record AdmitPlan := {
  ap_new_entries : list (Op * OpMeta C);
  ap_projected : C;
  ap_fingerprint : list N;
  ap_effects : gmap (PeerId * ObligationKind) (SyncObligation C);
  ap_removed_peers : gset PeerId;
  ap_charge : N;
}.

(** The part of [admit_batch_locked] that reads, checks and reserves. *)
Definition admit_plan inner batch (quota : option StagingQuota) : res AdmitPlan :=
  let t := ab_topic_id batch in
  let log := s_log inner in
  _ ← validate_batch batch;
  _ ← refuse_if (negb (bool_decide (default ∅ (s_heads inner !! t) = ab_expected_heads batch)))
        AdmissionConflict;
  _ ← refuse_if (negb (bool_decide (topic_state_locked inner t = ab_expected_topic_state batch)))
        AdmissionConflict;
  _ ← validate_heads batch (accounted inner);
  let genesis := ts_genesis <$>
    match ab_topic_state batch with Some s => Some s | None => ab_expected_topic_state batch end in
  _ ← mem (MergeWorkspace (ab_effects batch));
  effects ← merge_effects inner batch genesis;
  let removed := match ab_expected_topic_state batch, ab_topic_state batch with
    | Some expected, Some state => ts_members expected ∖ ts_members state
    | _, _ => ∅
    end in
  '(_, new_entries) ← try_fold (scan_entry inner t) (∅, []) (ab_entries batch);
  _ ← ensure_deps_resolvable new_entries (dep_resolvable_locked inner);
  _ ← mem (ClockWorkspace (saturating_add (saturating_add (ck_len (clock_of inner t))
        (N.of_nat (length new_entries))) 64));
  _ ← mem PlanNodes;
  projected ← try_fold (λ projected '(op, meta),
      _ ← mem (SharedNodes (om_observed_clock meta));
      _ ← mem (RecordBytes op meta);
      Ok (ck_observe projected (om_actor_id meta) (om_actor_seq meta)))
    (clock_of inner t) new_entries;
  _ ← mem (SharedNodes projected);
  _ ← mem PlanNodes;
  _ ← mem (TopicRecord t);
  _ ← try_fold (λ _ '(_, ob), mem (ObligationRecord ob)) () (bt_entries effects);
  fingerprint ← topic_fingerprint_for (ab_heads batch) projected;
  charge ← match quota with
    | None => Ok 0
    | Some quota =>
        charge ← try_fold (λ charge '(op, _),
            if bool_decide (is_Some (l_ops log !! op_id op)) then Ok charge
            else bytes ← pending_op_bytes op; Ok (charge + bytes)) 0 new_entries;
        _ ← quota_check quota (s_admitted_bytes inner + pu_bytes (p_usage (s_pool inner))) charge;
        Ok charge
    end;
  Ok {| ap_new_entries := new_entries; ap_projected := projected; ap_fingerprint := fingerprint;
        ap_effects := effects; ap_removed_peers := removed; ap_charge := charge |}.

(** The writes of [admit_batch_locked]. *)
Definition admit_write inner batch (plan : AdmitPlan) : MemoryInner C * res unit :=
  let t := ab_topic_id batch in
  let '((log, pool), written) := write_entries (s_log inner) (s_pool inner) (ap_new_entries plan) in
  let bytes := s_admitted_bytes inner + ap_charge plan in
  match written with
  | Err e =>
      (MkInner log pool (s_heads inner) (s_actor_clock inner) (s_topic_fingerprint inner)
        (s_topics inner) (s_rejected inner) (s_peer_acks inner) (s_obligations inner)
        (s_sync_statuses inner) (s_evictions inner) (s_sealed_topics inner)
        (s_topic_epochs inner) (s_attempt_epoch inner) bytes, Err e)
  | Ok _ =>
      let removed := ap_removed_peers plan in
      let obligations := foldl (λ obs '(_, ob), put_obligation_locked obs ob)
        (s_obligations inner) (bt_entries (ap_effects plan)) in
      (MkInner log pool
        (<[t := ab_heads batch]> (s_heads inner))
        (<[t := ap_projected plan]> (s_actor_clock inner))
        (<[t := ap_fingerprint plan]> (s_topic_fingerprint inner))
        (match ab_topic_state batch with
         | Some s => <[ts_topic_id s := s]> (s_topics inner) | None => s_topics inner end)
        (s_rejected inner)
        (foldl (λ acks p, delete (p, t) acks) (s_peer_acks inner) (bt_elements removed))
        (foldl (λ obs p, delete (t, p) obs) obligations (bt_elements removed))
        (foldl (λ sts p, delete (t, p) sts) (s_sync_statuses inner) (bt_elements removed))
        (s_evictions inner) (s_sealed_topics inner) (s_topic_epochs inner) (s_attempt_epoch inner) bytes, Ok ())
  end.

(** [admit_batch_locked] *)
Definition admit_batch_locked inner batch (quota : option StagingQuota)
    : MemoryInner C * res unit :=
  match admit_plan inner batch quota with
  | Err e => (inner, Err e)
  | Ok plan => admit_write inner batch plan
  end.
(** ** Buffering *)

(** The first of [op.id] and [missing] the topic rejected. *)
Definition find_rejected inner (t : TopicId) (i : OpId) (missing : gset OpId) : option OpId :=
  match s_rejected inner !! t with
  | Some rejected =>
      head (filter (λ x, x ∈ rj_ids rejected) (i :: bt_elements missing))
  | None => None
  end.

(** [put_pending_bound] *)
Definition put_pending_bound inner (quota : option StagingQuota) (source_peer : PeerId) (op : Op)
    (meta : OpMeta C) (genesis : option OpId) : res (MemoryInner C) :=
  charge ← pending_op_bytes op;
  let t := topic_id (obody op) in
  let pool := s_pool inner in
  let missing := om_missing_deps meta in
  _ ← refuse_if (negb (bool_decide (om_topic_id meta = t)) || negb (bool_decide (om_id meta = op_id op)))
        TopicMismatch;
  _ ← refuse_if (bool_decide (MAX_PENDING_MISSING_DEPS < size missing)%nat)
        (Storage "pending op has too many missing deps");
  _ ← match genesis with
      | Some genesis => branch_matches (s_topics inner !! t) (Some genesis)
      | None => Ok ()
      end;
  if dep_resolvable_locked inner (op_id op) then Ok inner
  else if existsb (dep_resolvable_locked inner) (bt_elements missing) then Err AdmissionConflict
  else match find_rejected inner t (op_id op) missing with
  | Some rejected => Err (RejectedOp rejected)
  | None =>
      let known := p_records pool !! op_id op in
      if bool_decide (is_Some known) && negb (bool_decide (p_ops pool !! op_id op = Some op))
      then Err (Storage "pending op id collision with different op")
      else if bool_decide (pr_missing <$> known = Some missing) then Ok inner
      else
        let previous := pr_missing <$> known in
        _ ← try_fold (λ _ dep,
            let already := bool_decide (dep ∈ default ∅ previous) in
            refuse_if (negb already && bool_decide
              (MAX_PENDING_WAITERS_PER_DEP ≤ size (default ∅ (p_waiters pool !! dep)))%nat)
              (Storage "pending waiter quota exceeded")) () (bt_elements missing);
        _ ← match previous, quota with
            | None, Some quota =>
                quota_check quota (s_admitted_bytes inner + pu_bytes (p_usage pool)) charge
            | _, _ => Ok ()
            end;
        _ ← match previous with
            | None => check_pending_quota (p_usage pool) (usage_of (p_source pool) source_peer)
                        (usage_of (p_topic pool) t) charge
            | Some _ => Ok ()
            end;
        _ ← mem (RecordBytes op meta);
        Ok (set_pool inner (buffer pool source_peer op missing charge))
  end.

(** [rejected.ids.insert(id) && rejected.order.push_back(id)] *)
Definition mark_rejected (rejected : RejectedIds) (i : OpId) : RejectedIds :=
  if decide (i ∈ rj_ids rejected) then rejected
  else {| rj_order := rj_order rejected ++ [i]; rj_ids := {[i]} ∪ rj_ids rejected |}.

(** [while rejected.order.len() > MAX_REJECTED { pop the oldest }] *)
Fixpoint forget_oldest (n : nat) (rejected : RejectedIds) : RejectedIds :=
  match n with
  | O => rejected
  | S n' =>
      match rj_order rejected with
      | oldest :: order =>
          if decide (MAX_REJECTED_PER_TOPIC < length (rj_order rejected))%nat
          then forget_oldest n' {| rj_order := order; rj_ids := rj_ids rejected ∖ {[oldest]} |}
          else rejected
      | [] => rejected
      end
  end.

Definition set_rejected inner (rejected : gmap TopicId RejectedIds) : MemoryInner C :=
  MkInner (s_log inner) (s_pool inner) (s_heads inner) (s_actor_clock inner)
    (s_topic_fingerprint inner) (s_topics inner) rejected (s_peer_acks inner)
    (s_obligations inner) (s_sync_statuses inner) (s_evictions inner) (s_sealed_topics inner)
    (s_topic_epochs inner) (s_attempt_epoch inner) (s_admitted_bytes inner).

(** [reject_pending_subtree] *)
Definition reject_pending_subtree inner (i : OpId) : res (MemoryInner C * nat) :=
  match p_records (s_pool inner) !! i with
  | None => Ok (inner, O)
  | Some record =>
      let t := pr_topic_id record in
      let subtree := {[i]} ∪ waiter_closure_locked (s_pool inner) i in
      _ ← mem PlanNodes;
      _ ← mem (RejectedRecord t);
      pool ← try_fold remove_pending_locked (s_pool inner) (bt_elements subtree);
      let rejected := foldl mark_rejected (default rejected_default (s_rejected inner !! t))
        (bt_elements subtree) in
      let rejected := forget_oldest (length (rj_order rejected)) rejected in
      Ok (set_rejected (set_pool inner pool) (<[t := rejected]> (s_rejected inner)), size subtree)
  end.

(** ** Acknowledgements and obligations *)

Definition set_evidence inner acks obligations statuses : MemoryInner C :=
  MkInner (s_log inner) (s_pool inner) (s_heads inner) (s_actor_clock inner)
    (s_topic_fingerprint inner) (s_topics inner) (s_rejected inner) acks obligations statuses
    (s_evictions inner) (s_sealed_topics inner) (s_topic_epochs inner) (s_attempt_epoch inner) (s_admitted_bytes inner).

(** What is left of each of a peer's records after [ack], with the reservations for
    it. *)
Definition settle_records_of inner (ack : PeerAck C)
    (records : gmap ObligationKind (SyncObligation C))
    : res (gmap ObligationKind (option (SyncObligation C))) :=
  try_fold (λ settled '(kind, ob),
    rest ← settled_obligation ob ack (λ i, Ok (position_of <$> l_meta (s_log inner) !! i));
    _ ← match rest with Some rest => mem (ObligationRecord rest) | None => Ok () end;
    Ok (<[kind := rest]> settled)) ∅ (bt_entries records).

(** The loop of [apply_ack_locked] that writes what is left of a record. *)
Definition settle_step (key : TopicId * PeerId)
    (st : gmap (TopicId * PeerId) (gmap ObligationKind (SyncObligation C)) * nat)
    (e : ObligationKind * option (SyncObligation C))
    : gmap (TopicId * PeerId) (gmap ObligationKind (SyncObligation C)) * nat :=
  let '(obligations, cleared) := st in
  let '(kind, rest) := e in
  match rest with
  | Some rest => (put_obligation_locked obligations rest, cleared)
  | None => (alter (delete kind) key obligations, S cleared)
  end.

(** Dropping an entry that became empty. *)
Definition drop_empty (key : TopicId * PeerId)
    (obligations : gmap (TopicId * PeerId) (gmap ObligationKind (SyncObligation C)))
    : gmap (TopicId * PeerId) (gmap ObligationKind (SyncObligation C)) :=
  match obligations !! key with
  | Some records => if decide (size records = O) then delete key obligations else obligations
  | None => obligations
  end.

(** [apply_ack_locked]: the store after it and how many records it cleared. *)
Definition apply_ack_locked inner (ack : PeerAck C) : res (MemoryInner C * nat) :=
  commit ← ack_commit (s_topics inner !! ack_topic_id ack) ack;
  let key := (ack_peer_id ack, ack_topic_id ack) in
  _ ← mem (AckWorkspace ack);
  let effective := effective_ack (s_peer_acks inner !! key) ack in
  _ ← mem PlanNodes;
  _ ← mem (AckRecord effective);
  let obligation_key := (ack_topic_id effective, ack_peer_id effective) in
  settled ← match commit, s_obligations inner !! obligation_key with
    | Certify, Some records => settle_records_of inner effective records
    | _, _ => Ok ∅
    end;
  let '(obligations, cleared) :=
    foldl (settle_step obligation_key) (s_obligations inner, O) (bt_entries settled) in
  Ok (set_evidence inner (<[key := effective]> (s_peer_acks inner))
        (drop_empty obligation_key obligations) (s_sync_statuses inner), cleared).

(** [put_sync_obligation] *)
Definition put_sync_obligation inner (ob : SyncObligation C) (expected_genesis : option OpId)
    : res (MemoryInner C) :=
  _ ← branch_matches (s_topics inner !! ob_topic_id ob) expected_genesis;
  _ ← mem (MergeWorkspace [ob]);
  merged ← merged_obligation_locked inner ob;
  _ ← mem PlanNodes;
  _ ← mem (ObligationRecord merged);
  Ok (set_evidence inner (s_peer_acks inner) (put_obligation_locked (s_obligations inner) merged)
        (s_sync_statuses inner)).

(** [next_attempt_epoch] *)
Definition next_attempt_epoch inner : res (MemoryInner C * N) :=
  epoch ← ok_or (checked_add (s_attempt_epoch inner) 1) (Storage "attempt epoch overflow");
  Ok (MkInner (s_log inner) (s_pool inner) (s_heads inner) (s_actor_clock inner)
        (s_topic_fingerprint inner) (s_topics inner) (s_rejected inner) (s_peer_acks inner)
        (s_obligations inner) (s_sync_statuses inner) (s_evictions inner) (s_sealed_topics inner)
        (s_topic_epochs inner) epoch (s_admitted_bytes inner), epoch).

(** [put_sync_status] *)
Definition put_sync_status inner (status : SyncPeerStatus) : res (MemoryInner C) :=
  _ ← mem PlanNodes;
  _ ← mem (StatusRecord status);
  Ok (set_evidence inner (s_peer_acks inner) (s_obligations inner)
        (<[(st_topic_id status, st_peer_id status) := status]> (s_sync_statuses inner))).

(** [update_sync_status] *)
Definition update_sync_status inner (p : PeerId) (t : TopicId) (update : SyncStatusUpdate)
    : res (MemoryInner C * SyncPeerStatus) :=
  _ ← mem (StatusWorkspace update);
  let key := (t, p) in
  let '(status, applied) :=
    apply_status_update (default (new_peer_status p t) (s_sync_statuses inner !! key)) update in
  if applied : bool then
    _ ← mem PlanNodes;
    _ ← mem (StatusRecord status);
    Ok (set_evidence inner (s_peer_acks inner) (s_obligations inner)
          (<[key := status]> (s_sync_statuses inner)), status)
  else Ok (inner, status).

(** [apply_peer_acks]: one acknowledgement after the other, each with its own outcome. *)
Definition apply_next_ack (st : MemoryInner C * list (res nat)) (ack : PeerAck C)
    : MemoryInner C * list (res nat) :=
  match apply_ack_locked st.1 ack with
  | Ok (inner, cleared) => (inner, st.2 ++ [Ok cleared])
  | Err e => (st.1, st.2 ++ [Err e])
  end.
Definition apply_peer_acks inner (acks : list (PeerAck C)) : MemoryInner C * list (res nat) :=
  foldl apply_next_ack (inner, []) acks.

(** [clear_peer_sync_state] *)
Definition clear_peer_sync_state inner (p : PeerId) (t : TopicId) (expected_genesis : option OpId)
    : MemoryInner C * nat :=
  if negb (peer_departed (s_topics inner !! t) p expected_genesis) then (inner, O)
  else
    (set_evidence inner (delete (p, t) (s_peer_acks inner)) (delete (t, p) (s_obligations inner))
       (delete (t, p) (s_sync_statuses inner)),
     from_option size O (s_obligations inner !! (t, p))).

(** ** Reset *)

(** The loop of [reset_topic_locked] over the topic's operations: the log, the staged
    bytes and whether it finished. *)
Fixpoint reset_ops log (bytes : N) (l : list OpId) : (Log C * N) * res unit :=
  match l with
  | [] => ((log, bytes), Ok ())
  | i :: l =>
      let ds := from_option om_deps ∅ (l_meta log !! i) in
      let children := foldl (λ ch d, drop_from ch d i) (l_children log) (bt_elements ds) in
      let refund :=
        match l_ops log !! i with
        | Some op => if 0 <? bytes then pending_op_bytes op else Ok 0
        | None => Ok 0
        end in
      match refund with
      | Err e =>
          ((MkLog (l_ops log) (l_meta log) (l_topic_ops log) children (l_actor_by_seq log)
              (l_actor_tip log) (l_max_generation log), bytes), Err e)
      | Ok refund =>
          reset_ops (MkLog (delete i (l_ops log)) (delete i (l_meta log)) (l_topic_ops log)
              (delete i children) (l_actor_by_seq log) (l_actor_tip log) (l_max_generation log))
            (saturating_sub bytes refund) l
      end
  end.

(** [reset_topic_locked]: the store after it and how many operations it removed. *)
Definition reset_topic_locked inner (t : TopicId) : MemoryInner C * res nat :=
  match mem (TopicRecord t) with
  | Err e => (inner, Err e)
  | Ok _ =>
      let log := s_log inner in
      let epochs := <[t := default 0 (s_topic_epochs inner !! t) + 1]> (s_topic_epochs inner) in
      let ids := default ∅ (l_topic_ops log !! t) in
      let log := MkLog (l_ops log) (l_meta log) (delete t (l_topic_ops log)) (l_children log)
        (l_actor_by_seq log) (l_actor_tip log) (l_max_generation log) in
      match reset_ops log (s_admitted_bytes inner) (bt_elements ids) with
      | ((log, bytes), Err e) =>
          (MkInner log (s_pool inner) (s_heads inner) (s_actor_clock inner)
             (s_topic_fingerprint inner) (s_topics inner) (s_rejected inner) (s_peer_acks inner)
             (s_obligations inner) (s_sync_statuses inner) (s_evictions inner)
             (s_sealed_topics inner) epochs (s_attempt_epoch inner) bytes, Err e)
      | ((log, bytes), Ok _) =>
          let log := MkLog (l_ops log) (l_meta log) (l_topic_ops log) (l_children log)
            (filter (λ e, e.1.1.1 ≠ t) (l_actor_by_seq log))
            (filter (λ e, e.1.1 ≠ t) (l_actor_tip log))
            (delete t (l_max_generation log)) in
          let cleared pool := MkInner log pool (delete t (s_heads inner))
            (delete t (s_actor_clock inner)) (delete t (s_topic_fingerprint inner))
            (delete t (s_topics inner)) (delete t (s_rejected inner))
            (filter (λ e, e.1.2 ≠ t) (s_peer_acks inner))
            (filter (λ e, e.1.1 ≠ t) (s_obligations inner))
            (filter (λ e, e.1.1 ≠ t) (s_sync_statuses inner))
            (s_evictions inner) (s_sealed_topics inner) epochs (s_attempt_epoch inner) bytes in
          match try_fold remove_pending_locked (s_pool inner)
                  (bt_elements (default ∅ (p_by_topic (s_pool inner) !! t))) with
          | Ok pool => (cleared pool, Ok (size ids))
          | Err e => (cleared (s_pool inner), Err e)
          end
      end
  end.

Definition set_evictions inner (evictions : gmap EvictionKey TopicEviction) : MemoryInner C :=
  MkInner (s_log inner) (s_pool inner) (s_heads inner) (s_actor_clock inner)
    (s_topic_fingerprint inner) (s_topics inner) (s_rejected inner) (s_peer_acks inner)
    (s_obligations inner) (s_sync_statuses inner) evictions (s_sealed_topics inner)
    (s_topic_epochs inner) (s_attempt_epoch inner) (s_admitted_bytes inner).

(** [reset_topic_and_admit] of the main store: the reset, the admission and the
    journal entry happen on a copy that replaces the store only when all succeeded. *)
Definition reset_topic_and_admit inner (t : TopicId) (expected : TopicState)
    (batch : AdmittedBatch C) (eviction : option TopicEviction) : MemoryInner C * res nat :=
  if bool_decide (t ∈ s_sealed_topics inner) then (inner, Err TopicSealed)
  else if negb (bool_decide (topic_state_locked inner t = Some expected))
  then (inner, Err AdmissionConflict)
  else
    let outcome : res (MemoryInner C * nat) :=
      _ ← mem CopyOfStore;
      let '(staged, removed) := reset_topic_locked inner t in
      removed ← removed;
      let '(staged, admitted) := admit_batch_locked staged batch None in
      _ ← admitted;
      staged ← match journalled_eviction eviction with
        | None => Ok staged
        | Some (key, eviction) =>
            if bool_decide (s_evictions staged !! key = None)
               && bool_decide (MAX_PENDING_EVICTIONS ≤ size (s_evictions staged))%nat
            then Err EvictionJournalFull
            else
              _ ← mem PlanNodes;
              _ ← mem (EvictionRecord eviction);
              Ok (set_evictions staged (<[key := eviction]> (s_evictions staged)))
        end;
      Ok (staged, removed) in
    match outcome with
    | Ok (staged, removed) => (staged, Ok removed)
    | Err e => (inner, Err e)
    end.

(** [seal_topic], [unseal_topic] and [clear_eviction] *)
Definition set_sealed inner (sealed : gset TopicId) : MemoryInner C :=
  MkInner (s_log inner) (s_pool inner) (s_heads inner) (s_actor_clock inner)
    (s_topic_fingerprint inner) (s_topics inner) (s_rejected inner) (s_peer_acks inner)
    (s_obligations inner) (s_sync_statuses inner) (s_evictions inner) sealed
    (s_topic_epochs inner) (s_attempt_epoch inner) (s_admitted_bytes inner).
Definition seal_topic inner (t : TopicId) : res (MemoryInner C * bool) :=
  _ ← mem PlanNodes;
  _ ← mem (TopicRecord t);
  Ok (set_sealed inner ({[t]} ∪ s_sealed_topics inner), bool_decide (t ∉ s_sealed_topics inner)).
Definition unseal_topic inner (t : TopicId) : MemoryInner C * bool :=
  (set_sealed inner (s_sealed_topics inner ∖ {[t]}), bool_decide (t ∈ s_sealed_topics inner)).
Definition clear_eviction inner (key : EvictionKey) : MemoryInner C :=
  set_evictions inner (delete key (s_evictions inner)).
End store.
