(* ===== verification/StoreLog.v ===== *)
(** * The invariant of the admitted log

    The indexes of [MemoryInner] are functions of the metadata it holds, and every
    actor's operations form one chain without gaps or forks. Appending an operation
    keeps this; a batch that passes the scan of [admit_batch_locked] is a sequence of
    appends. *)

From S2P Require Import Prelude Ids Frame ClockSpec Types Evidence Records Pool Store.

#[local] Open Scope N_scope.

Section log.
Context {C : Type} `{!ClockImpl C} `{!StoreEnv C} `{!Crypto}.
Implicit Types (log : Log C) (meta : OpMeta C) (inner : MemoryInner C).

(** [i] is the operation at position [s] of actor [a] in topic [t]. *)
Definition at_position (metas : gmap OpId (OpMeta C)) (t : TopicId) (a : ActorId) (s : N)
    (i : OpId) : Prop :=
  ∃ m, metas !! i = Some m ∧ om_topic_id m = t ∧ om_actor_id m = a ∧ om_actor_seq m = s.

Record log_ok log : Prop := {
  lo_dom : dom (l_ops log) = dom (l_meta log);
  lo_entry : ∀ i op m, l_ops log !! i = Some op → l_meta log !! i = Some m →
    op_id op = i ∧ om_id m = i ∧ om_topic_id m = topic_id (obody op) ∧ meta_matches op m = true;
  lo_topic : indexes (l_topic_ops log) (λ i t, ∃ m, l_meta log !! i = Some m ∧ om_topic_id m = t);
  lo_children : indexes (l_children log) (λ c d, ∃ m, l_meta log !! c = Some m ∧ d ∈ om_deps m);
  lo_seq : ∀ t a s i, l_actor_by_seq log !! (t, a, s) = Some i ↔ at_position (l_meta log) t a s i;
  lo_tip : ∀ t a,
    match l_actor_tip log !! (t, a) with
    | Some (s, i) => l_actor_by_seq log !! (t, a, s) = Some i ∧
        ∀ s', is_Some (l_actor_by_seq log !! (t, a, s')) ↔ 1 ≤ s' ≤ s
    | None => ∀ s', l_actor_by_seq log !! (t, a, s') = None
    end;
  lo_prev : ∀ i m, l_meta log !! i = Some m →
    om_actor_prev m = if om_actor_seq m =? 1 then None
      else l_actor_by_seq log !! (om_topic_id m, om_actor_id m, om_actor_seq m - 1);
  lo_generation : ∀ i m, l_meta log !! i = Some m →
    om_generation m ≤ default 0 (l_max_generation log !! om_topic_id m);
  lo_generation_tight : ∀ t g, l_max_generation log !! t = Some g →
    ∃ i m, l_meta log !! i = Some m ∧ om_topic_id m = t ∧ om_generation m = g;
}.

(** The entry continues its actor's chain. *)
Definition extends (tip : option (N * OpId)) meta : Prop :=
  match tip with
  | Some (s, i) => om_actor_seq meta = s + 1 ∧ om_actor_prev meta = Some i
  | None => om_actor_seq meta = 1 ∧ om_actor_prev meta = None
  end.

Record appends log (op : Op) meta : Prop := {
  ap_fresh : l_meta log !! op_id op = None;
  ap_id : om_id meta = op_id op;
  ap_topic : om_topic_id meta = topic_id (obody op);
  ap_matches : meta_matches op meta = true;
  ap_extends : extends (l_actor_tip log !! (om_topic_id meta, om_actor_id meta)) meta;
}.

Lemma log_empty_ok : log_ok log_empty.
Proof.
  split; cbn [log_empty l_ops l_meta l_topic_ops l_children l_actor_by_seq l_actor_tip l_max_generation].
  - done.
  - intros i op m. by rewrite lookup_empty.
  - split; [|by intros k; rewrite lookup_empty]. intros k x. rewrite lookup_empty.
    split; [by intros ?%elem_of_empty|]. intros (m & Hm & _). by rewrite lookup_empty in Hm.
  - split; [|by intros k; rewrite lookup_empty]. intros k x. rewrite lookup_empty.
    split; [by intros ?%elem_of_empty|]. intros (m & Hm & _). by rewrite lookup_empty in Hm.
  - intros t a s i. rewrite lookup_empty. split; [done|]. intros (m & Hm & _).
    by rewrite lookup_empty in Hm.
  - intros t a. rewrite lookup_empty. intros s. by rewrite lookup_empty.
  - intros i m. by rewrite lookup_empty.
  - intros i m. by rewrite lookup_empty.
  - intros t g. by rewrite lookup_empty.
Qed.

Lemma add_children (ch : gmap OpId (gset OpId)) R (ds : gset OpId) i :
  indexes ch R →
  indexes (foldl (λ ch d, add_to ch d i) ch (bt_elements ds)) (λ c d, R c d ∨ (c = i ∧ d ∈ ds)).
Proof. apply wait_all. Qed.

(** The next position of a chain is free. *)
Lemma extends_free log meta :
  log_ok log → extends (l_actor_tip log !! (om_topic_id meta, om_actor_id meta)) meta →
  l_actor_by_seq log !! (om_topic_id meta, om_actor_id meta, om_actor_seq meta) = None.
Proof.
  intros Hlog Hext. pose proof (lo_tip log Hlog (om_topic_id meta) (om_actor_id meta)) as Htip.
  destruct (l_actor_tip log !! _) as [[s i]|]; simpl in Hext; [|done].
  destruct Hext as [-> _], Htip as [_ Hall].
  destruct (l_actor_by_seq log !! _) eqn:Hs; [|done].
  assert (1 ≤ s + 1 ≤ s) by (apply Hall; by eexists). lia.
Qed.

Lemma write_log_ok log op meta :
  log_ok log → appends log op meta → log_ok (write_log log op meta).
Proof.
  intros Hlog [Hfresh Hid Htopic Hmatch Hext].
  pose proof (extends_free log meta Hlog Hext) as Hfree.
  destruct Hlog as [Hdom Hentry Htop Hch Hseq Htip Hprev Hgen Htight].
  set (t := om_topic_id meta) in *. set (a := om_actor_id meta) in *. set (s := om_actor_seq meta) in *.
  assert (∀ P : OpMeta C → Prop, ∀ j, (∃ m, <[op_id op := meta]> (l_meta log) !! j = Some m ∧ P m) ↔
    (∃ m, l_meta log !! j = Some m ∧ P m) ∨ (j = op_id op ∧ P meta)) as Hins.
  { intros P j. destruct (decide (j = op_id op)) as [->|Hne].
    - rewrite lookup_insert_eq Hfresh. naive_solver.
    - rewrite lookup_insert_ne //. naive_solver. }
  split; cbn [write_log write_index l_ops l_meta l_topic_ops l_children l_actor_by_seq l_actor_tip l_max_generation];
    fold t a s.
  - by rewrite !dom_insert_L Hdom.
  - intros i o m Ho Hm. destruct (decide (i = op_id op)) as [->|Hne].
    + rewrite lookup_insert_eq in Ho. rewrite lookup_insert_eq in Hm. by simplify_eq.
    + rewrite lookup_insert_ne // in Ho. rewrite lookup_insert_ne // in Hm. by apply Hentry.
  - eapply indexes_iff; [by apply add_to_indexes|]. intros i t'. cbv beta. rewrite Hins.
    fold t. naive_solver.
  - eapply indexes_iff; [by apply add_children|]. intros c d. cbv beta. by rewrite Hins.
  - intros t' a' s' i. unfold at_position. rewrite Hins. fold t a s.
    rewrite lookup_insert_Some Hseq. unfold at_position. split.
    + intros [[[= -> -> ->] <-]|[Hne Hi]]; [by right|by left].
    + intros [Hi|[-> (<- & <- & <-)]]; [right|by left].
      split; [|done]. intros [= <- <- <-]. apply Hseq in Hi. congruence.
  - intros t' a'. destruct (decide ((t', a') = (t, a))) as [[= -> ->]|Hne].
    + assert (match l_actor_tip log !! (t, a) with
        | Some (seq, i) => if seq <? s then <[(t, a) := (s, op_id op)]> (l_actor_tip log) else l_actor_tip log
        | None => <[(t, a) := (s, op_id op)]> (l_actor_tip log) end !! (t, a) = Some (s, op_id op)) as ->.
      { destruct (l_actor_tip log !! (t, a)) as [[q i]|]; simpl in Hext; [|by rewrite lookup_insert_eq].
        destruct (N.ltb_spec q s); [by rewrite lookup_insert_eq|]. fold s in Hext. lia. }
      split; [by rewrite lookup_insert_eq|]. intros s'. specialize (Htip t a).
      destruct (decide (s' = s)) as [->|Hs'].
      * rewrite lookup_insert_eq. split; [intros _|by eexists].
        destruct (l_actor_tip log !! (t, a)) as [[q i]|]; simpl in Hext; fold s in Hext; lia.
      * rewrite lookup_insert_ne; [by intros [= <-]|].
        destruct (l_actor_tip log !! (t, a)) as [[q i]|]; simpl in Hext; fold s in Hext.
        -- destruct Htip as [_ ->]. lia.
        -- rewrite Htip. split; [by intros []|lia].
    + assert (match l_actor_tip log !! (t, a) with
        | Some (seq, i) => if seq <? s then <[(t, a) := (s, op_id op)]> (l_actor_tip log) else l_actor_tip log
        | None => <[(t, a) := (s, op_id op)]> (l_actor_tip log) end !! (t', a') = l_actor_tip log !! (t', a')) as ->.
      { destruct (l_actor_tip log !! (t, a)) as [[q i]|]; [destruct (q <? s)|];
          rewrite ?lookup_insert_ne //; congruence. }
      specialize (Htip t' a').
      destruct (l_actor_tip log !! (t', a')) as [[q i]|].
      * destruct Htip as [Hq Hall]. rewrite lookup_insert_ne; [congruence|]. split; [done|].
        intros s'. rewrite lookup_insert_ne; [congruence|]. apply Hall.
      * intros s'. rewrite lookup_insert_ne; [congruence|]. apply Htip.
  - intros i m Hm. apply lookup_insert_Some in Hm as [[<- <-]|[Hne Hm]].
    + fold t a s. specialize (Htip t a).
      destruct (l_actor_tip log !! (t, a)) as [[q j]|]; simpl in Hext; fold s in Hext;
        destruct Hext as [Hs ->]; rewrite Hs.
      * destruct Htip as [Hq Hall]. assert (1 ≤ q) by (apply (Hall q); by eexists).
        destruct (N.eqb_spec (q + 1) 1); [lia|]. rewrite lookup_insert_ne; [intros [= ?]; lia|].
        by rewrite N.add_sub Hq.
      * done.
    + rewrite (Hprev i m Hm). destruct (om_actor_seq m =? 1) eqn:H1; [done|].
      rewrite lookup_insert_ne //. intros [= Ht Ha Hs].
      assert (l_actor_by_seq log !! (om_topic_id m, om_actor_id m, om_actor_seq m) = Some i) as Hi
        by (apply Hseq; by exists m).
      specialize (Htip t a). rewrite -Ht -Ha in Hi. apply N.eqb_neq in H1.
      destruct (l_actor_tip log !! (t, a)) as [[q j]|]; simpl in Hext; fold s in Hext.
      * destruct Htip as [_ Hall].
        assert (1 ≤ om_actor_seq m ≤ q) by (apply Hall; by eexists). lia.
      * by rewrite Htip in Hi.
  - intros i m Hm. destruct (decide (om_topic_id m = t)) as [Ht|Ht].
    + rewrite Ht lookup_insert_eq /=. apply lookup_insert_Some in Hm as [[<- <-]|[Hne Hm]].
      * destruct (l_max_generation log !! t); lia.
      * specialize (Hgen i m Hm). rewrite Ht in Hgen. destruct (l_max_generation log !! t); simpl in Hgen; lia.
    + rewrite lookup_insert_ne //. apply lookup_insert_Some in Hm as [[<- <-]|[Hne Hm]]; [done|].
      by apply (Hgen i).
  - assert (∀ t' g, l_max_generation log !! t' = Some g → ∃ i m,
      <[op_id op:=meta]> (l_meta log) !! i = Some m ∧ om_topic_id m = t' ∧ om_generation m = g) as Hold.
    { intros t' g Hg. destruct (Htight t' g Hg) as (i & m & Hm & Hrest). exists i, m.
      rewrite lookup_insert_ne //. congruence. }
    assert (∃ i m, <[op_id op:=meta]> (l_meta log) !! i = Some m ∧ om_topic_id m = t ∧
      om_generation m = om_generation meta) as Hnew by (exists (op_id op), meta; by rewrite lookup_insert_eq).
    intros t' g [[<- <-]|[_ Hg]]%lookup_insert_Some; [|by apply Hold].
    destruct (l_max_generation log !! t) as [g|] eqn:Hg; [|done].
    destruct (N.max_spec g (om_generation meta)) as [[_ ->]|[_ ->]]; [done|by apply Hold].
Qed.
End log.

(** ** Invariants of the memory store

    [store_ok] relates every part of [MemoryInner] to the metadata it holds. The
    theorems show that admission, buffering, rejection, acknowledgement and reset
    keep it, and what each of them does. *)

Section store.
Context {C : Type} `{!ClockImpl C} `{!StoreEnv C} `{!Crypto}.
Implicit Types (log : Log C) (meta : OpMeta C) (inner : MemoryInner C) (batch : AdmittedBatch C).

Abbreviation metas inner := (l_meta (s_log inner)).

(** ** The store invariant *)

(** The rejected ids of a topic, in the order they came, bounded. *)
Definition rejected_ok (rj : RejectedIds) : Prop :=
  NoDup (rj_order rj) ∧ rj_ids rj = list_to_set (rj_order rj) ∧
  (length (rj_order rj) ≤ MAX_REJECTED_PER_TOPIC)%nat.

Record store_ok inner : Prop := {
  so_log : log_ok (s_log inner);
  so_pool : pool_ok (s_pool inner);
  (** A buffered operation is not stored, and waits only for what is not stored. *)
  so_buffered : ∀ i r, p_records (s_pool inner) !! i = Some r →
    metas inner !! i = None ∧ ∀ d, d ∈ pr_missing r → metas inner !! d = None;
  (** Dependencies are stored, in the same topic. *)
  so_deps : ∀ i m d, metas inner !! i = Some m → d ∈ om_deps m →
    ∃ md, metas inner !! d = Some md ∧ om_topic_id md = om_topic_id m;
  (** The heads are the operations nothing depends on. *)
  so_heads : ∀ t i, i ∈ default ∅ (s_heads inner !! t) ↔
    (∃ m, metas inner !! i = Some m ∧ om_topic_id m = t) ∧
    ∀ c mc, metas inner !! c = Some mc → i ∉ om_deps mc;
  (** The clock of a topic holds the tip of every actor. *)
  so_clock : ∀ t a, ck_view (clock_of inner t) !! a = fst <$> l_actor_tip (s_log inner) !! (t, a);
  so_topics : ∀ t s, s_topics inner !! t = Some s → ts_topic_id s = t;
  (** No buffered operation was rejected or waits for a rejected one. *)
  so_rejected : ∀ i r rj, p_records (s_pool inner) !! i = Some r →
    s_rejected inner !! pr_topic_id r = Some rj →
    i ∉ rj_ids rj ∧ ∀ d, d ∈ pr_missing r → d ∉ rj_ids rj;
  so_rejected_ids : ∀ t rj, s_rejected inner !! t = Some rj → rejected_ok rj;
}.

Lemma store_empty_ok : store_ok store_empty.
Proof.
  split; cbn [store_empty s_log s_pool s_heads s_topics s_rejected].
  - apply log_empty_ok.
  - apply pool_empty_ok.
  - intros i r. by rewrite lookup_empty.
  - intros i m d. by rewrite lookup_empty.
  - intros t i. rewrite lookup_empty. split; [by intros ?%elem_of_empty|].
    intros [(m & Hm & _) _]. by rewrite lookup_empty in Hm.
  - intros t a. unfold clock_of. by rewrite /= !lookup_empty /= ck_view_new lookup_empty.
  - intros t s. by rewrite lookup_empty.
  - intros i r rj. by rewrite lookup_empty.
  - intros t rj. by rewrite lookup_empty.
Qed.

(** The evidence, the journal, the seals and the counters are not part of it. *)
Lemma store_ok_frame inner inner' :
  s_log inner' = s_log inner → s_pool inner' = s_pool inner → s_heads inner' = s_heads inner →
  s_actor_clock inner' = s_actor_clock inner → s_topics inner' = s_topics inner →
  s_rejected inner' = s_rejected inner → store_ok inner → store_ok inner'.
Proof.
  intros Hl Hp Hh Hc Ht Hr [Hlog Hpool Hbuf Hdeps Hheads Hclock Htops Hrej Hrids].
  split; rewrite ?Hl ?Hp ?Hh ?Ht ?Hr //. intros t a. rewrite -Hclock. unfold clock_of. by rewrite Hc.
Qed.

(** ** A batch is a sequence of appends *)

Fixpoint appends_all log (l : list (Op * OpMeta C)) : Prop :=
  match l with
  | [] => True
  | (op, meta) :: l => appends log op meta ∧ appends_all (write_log log op meta) l
  end.

Definition write_all log (l : list (Op * OpMeta C)) : Log C :=
  foldl (λ log e, write_log log e.1 e.2) log l.

Lemma appends_all_snoc log l e :
  appends_all log (l ++ [e]) ↔ appends_all log l ∧ appends (write_all log l) e.1 e.2.
Proof.
  revert log. induction l as [|[o m] l IH]; intros log; simpl.
  - destruct e. tauto.
  - rewrite IH. tauto.
Qed.

Lemma write_all_ok log l : log_ok log → appends_all log l → log_ok (write_all log l).
Proof.
  revert log. induction l as [|[o m] l IH]; intros log Hlog; simpl; [done|].
  intros [Ha Hl]. apply IH; [by apply write_log_ok|done].
Qed.

Lemma write_all_meta log l i :
  NoDup ((λ e : Op * OpMeta C, op_id e.1) <$> l) →
  (∀ m, l_meta (write_all log l) !! i = Some m ↔
    (∃ o, (o, m) ∈ l ∧ op_id o = i) ∨
    (i ∉ (λ e : Op * OpMeta C, op_id e.1) <$> l ∧ l_meta log !! i = Some m)).
Proof.
  revert log. induction l as [|[o m] l IH]; intros log Hnd m'; simpl.
  { split; [intros Hm; right; split; [by apply not_elem_of_nil|done]|].
    intros [(o & ?%elem_of_nil & _)|[_ ?]]; done. }
  apply NoDup_cons in Hnd as [Ho Hnd]. rewrite IH //. cbn [write_log write_index l_meta].
  rewrite not_elem_of_cons. setoid_rewrite elem_of_cons. split.
  - intros [(o' & Ho' & <-)|[Hni Hi]]; [left; exists o'; by split; [right|]|].
    apply lookup_insert_Some in Hi as [[<- <-]|[Hne Hi]].
    + left. exists o. split; [by left|done].
    + right. split; [split; [congruence|done]|done].
  - intros [(o' & [[= -> ->]|Ho'] & <-)|[[Hne Hni] Hi]].
    + right. split; [done|]. by rewrite lookup_insert_eq.
    + left. by exists o'.
    + right. split; [done|]. by rewrite lookup_insert_ne.
Qed.

(** What the node that builds a batch promises the store: ids are distinct, and a
    dependency is in the batch or stored under the batch's topic. *)
Record batch_wf inner batch : Prop := {
  bw_ids : NoDup ((λ e : Op * OpMeta C, op_id e.1) <$> ab_entries batch);
  bw_deps : ∀ e d md, e ∈ ab_entries batch → d ∈ om_deps e.2 → metas inner !! d = Some md →
    om_topic_id md = ab_topic_id batch;
}.

(** In an undamaged store the chain accounts for an id exactly when it is stored. *)
Lemma accounted_stored inner meta :
  store_ok inner → accounted inner meta = bool_decide (is_Some (metas inner !! om_id meta)).
Proof.
  intros Hok. unfold accounted.
  destruct (decide (is_Some (metas inner !! om_id meta))) as [Hs|Hs].
  - rewrite !(bool_decide_true _ Hs). by rewrite orb_true_r.
  - rewrite !(bool_decide_false _ Hs). rewrite bool_decide_false.
    { rewrite -elem_of_dom (lo_dom _ (so_log _ Hok)) elem_of_dom. done. }
    rewrite bool_decide_false; [|rewrite bool_decide_false //].
    + rewrite (lo_seq _ (so_log _ Hok)). intros (m & Hm & _). apply Hs. by eexists.
    + intros [ch Hch]. destruct (lo_children _ (so_log _ Hok)) as [Hin Hne].
      destruct (decide (ch = ∅)) as [->|[c Hc]%set_choose_L]; [by apply Hne in Hch|].
      destruct (Hin (om_id meta) c) as [Hin' _]. rewrite Hch in Hin'.
      destruct (Hin' Hc) as (m & Hm & Hd). destruct (so_deps _ Hok _ _ _ Hm Hd) as (md & Hmd & _).
      apply Hs. by eexists.
Qed.

Lemma stored_complete inner i :
  store_ok inner → dep_resolvable_locked inner i = bool_decide (is_Some (metas inner !! i)).
Proof.
  intros Hok. unfold dep_resolvable_locked.
  assert (is_Some (l_ops (s_log inner) !! i) ↔ is_Some (metas inner !! i)) as Heq.
  { by rewrite -!elem_of_dom (lo_dom _ (so_log _ Hok)). }
  rewrite (bool_decide_ext _ _ Heq). by destruct (bool_decide _).
Qed.

(** The entries of a batch that are not stored yet. *)
Definition fresh_entries inner (l : list (Op * OpMeta C)) : list (Op * OpMeta C) :=
  filter (λ e, metas inner !! op_id e.1 = None) l.

Lemma fresh_nodup inner (l : list (Op * OpMeta C)) :
  NoDup ((λ e : Op * OpMeta C, op_id e.1) <$> l) →
  NoDup ((λ e : Op * OpMeta C, op_id e.1) <$> fresh_entries inner l).
Proof.
  unfold fresh_entries. induction l as [|x l IH]; [done|]. simpl.
  intros [Hx Hnd]%NoDup_cons. rewrite filter_cons. case_decide; [|by apply IH].
  simpl. constructor; [|by apply IH]. intros (y & Hy & Hin)%list_elem_of_fmap. apply Hx.
  apply list_elem_of_filter in Hin as [_ Hin]. apply list_elem_of_fmap. by exists y.
Qed.

Lemma scan_step inner t tips new e tips' new' :
  store_ok inner → om_id e.2 = op_id e.1 →
  scan_entry inner t (tips, new) e = Ok (tips', new') →
  om_topic_id e.2 = t ∧
  ((l_ops (s_log inner) !! op_id e.1 = Some e.1 ∧ is_Some (metas inner !! op_id e.1) ∧
    tips' = tips ∧ new' = new) ∨
   (metas inner !! op_id e.1 = None ∧ new' = new ++ [e] ∧
    extends (match tips !! (om_topic_id e.2, om_actor_id e.2) with
       | Some tip => Some tip
       | None => l_actor_tip (s_log inner) !! (om_topic_id e.2, om_actor_id e.2) end) e.2 ∧
    tips' = <[(om_topic_id e.2, om_actor_id e.2) := (om_actor_seq e.2, op_id e.1)]> tips)).
Proof.
  destruct e as [op meta]. intros Hok Hid. simpl in Hid. unfold scan_entry. cbn [fst snd].
  destruct (decide (om_topic_id meta = t)) as [Ht|Ht];
    [rewrite (bool_decide_true _ Ht)|by rewrite (bool_decide_false _ Ht)]. cbn [negb].
  destruct (match l_ops _ !! op_id op with Some _ => _ | None => _ end) eqn:Hcol; [done|].
  assert (bool_decide (is_Some (l_ops (s_log inner) !! op_id op)) =
    bool_decide (is_Some (metas inner !! op_id op))) as ->.
  { apply bool_decide_ext. by rewrite -!elem_of_dom (lo_dom _ (so_log _ Hok)). }
  pose proof (accounted_stored inner meta Hok) as Hacc. unfold accounted in Hacc. rewrite Hid in Hacc.
  destruct (decide (is_Some (metas inner !! op_id op))) as [Hs|Hs].
  { rewrite !(bool_decide_true _ Hs). simpl. intros [= <- <-]. split; [done|]. left. split; [|done].
    assert (is_Some (l_ops (s_log inner) !! op_id op)) as [o Ho].
    { rewrite -elem_of_dom (lo_dom _ (so_log _ Hok)). by apply elem_of_dom. }
    rewrite Ho in Hcol |- *. apply negb_false_iff, bool_decide_eq_true in Hcol. by subst. }
  rewrite !(bool_decide_false _ Hs) in Hacc |- *. cbn [andb orb].
  apply orb_false_iff in Hacc as [Hacc Hch]. apply orb_false_iff in Hacc as [_ Hidx].
  destruct (match l_actor_by_seq _ !! _ with Some _ => _ | None => _ end); [done|].
  rewrite Hidx Hch. cbn [orb]. intros (u & Hchk & [= <- <-])%bind_ok. split; [done|]. right.
  apply eq_None_not_Some in Hs. split_and!; [done..| |done].
  destruct (match tips !! _ with Some _ => _ | None => _ end) as [[s i]|]; simpl.
  - next_ok Hchk as (x & Hx & Hchk). apply ok_or_ok, checked_add_Some in Hx as [-> _].
    destruct (N.eqb_spec (om_actor_seq meta) (s + 1)); [|done]. simpl in Hchk.
    case_bool_decide; done.
  - destruct (N.eqb_spec (om_actor_seq meta) 1); [|done]. simpl in Hchk.
    case_bool_decide as Hp; [done|]. split; [done|]. by apply eq_None_not_Some.
Qed.

(** Scanning a batch that is validated yields the fresh entries, each of which
    appends to the log the earlier ones leave. *)
Lemma scan_appends inner batch tips new :
  store_ok inner → batch_wf inner batch → (∀ e, e ∈ ab_entries batch → entry_ok batch e) →
  try_fold (scan_entry inner (ab_topic_id batch)) (∅, []) (ab_entries batch) = Ok (tips, new) →
  new = fresh_entries inner (ab_entries batch) ∧ appends_all (s_log inner) new ∧
  ∀ e, e ∈ ab_entries batch → is_Some (metas inner !! op_id e.1) →
    l_ops (s_log inner) !! op_id e.1 = Some e.1.
Proof.
  intros Hok [Hids _] Hentries Hscan.
  pose (I := λ (pre : list (Op * OpMeta C))
    (st : gmap (TopicId * ActorId) (N * OpId) * list (Op * OpMeta C)),
    st.2 = fresh_entries inner pre ∧ appends_all (s_log inner) st.2 ∧
    (∀ e, e ∈ pre → is_Some (metas inner !! op_id e.1) → l_ops (s_log inner) !! op_id e.1 = Some e.1) ∧
    ∀ k, match st.1 !! k with Some tip => Some tip | None => l_actor_tip (s_log inner) !! k end =
      l_actor_tip (write_all (s_log inner) st.2) !! k).
  assert (I (ab_entries batch) (tips, new)) as (Hn & Ha & Hsame & _); [|done].
  revert Hscan. apply try_fold_inv_prefix.
  2: { split_and!; try done. by intros e ?%elem_of_nil. }
  intros pre e rest [tips1 new1] [tips2 new2] Hsplit (Hn & Ha & Hsame & Htips) Hstep.
  assert (e ∈ ab_entries batch) as He by (rewrite Hsplit; set_solver).
  destruct (Hentries e He) as (Hbt & Hmt & Hmid & Hmm).
  destruct (scan_step _ _ _ _ _ _ _ Hok Hmid Hstep) as [_ [(Hop & Hs & -> & ->)|(Hs & -> & Hext & ->)]].
  { unfold I, fresh_entries in *. rewrite filter_app filter_cons_False.
    { simpl. intros Hno. rewrite Hno in Hs. by destruct Hs. }
    simpl in *. rewrite app_nil_r. split_and!; [done..| |done].
    intros e' [He'| ->%list_elem_of_singleton]%elem_of_app; [by apply Hsame|done]. }
  simpl in Hn, Ha, Htips. rewrite Htips in Hext.
  assert (l_meta (write_all (s_log inner) new1) !! op_id e.1 = None) as Hfresh.
  { destruct (l_meta (write_all _ _) !! _) as [m|] eqn:Hm; [|done]. exfalso.
    rewrite Hsplit fmap_app in Hids. apply NoDup_app in Hids as (Hpre & Hdis & _).
    rewrite Hn in Hm. apply (write_all_meta _ _ _ (fresh_nodup inner pre Hpre)) in Hm
      as [(o & Ho & Hoid)|[_ Hm]]; [|congruence].
    apply list_elem_of_filter in Ho as [_ Ho].
    apply (Hdis (op_id e.1)); [|by left]. rewrite -Hoid. apply list_elem_of_fmap. by exists (o, m). }
  assert (appends (write_all (s_log inner) new1) e.1 e.2) as Happ.
  { split; [done|done| | |done].
    - by rewrite Hmt Hbt.
    - apply meta_matches_true. tauto. }
  split_and!; simpl.
  - unfold fresh_entries in *. rewrite filter_app Hn filter_cons_True //.
  - apply appends_all_snoc. done.
  - intros e' [He'| ->%list_elem_of_singleton]%elem_of_app; [by apply Hsame|].
    rewrite Hs. by intros [].
  - intros k. unfold write_all. rewrite foldl_snoc. fold (write_all (s_log inner) new1).
    specialize (Htips k). cbn [write_log write_index l_actor_tip].
    destruct (decide (k = (om_topic_id e.2, om_actor_id e.2))) as [->|Hk].
    + rewrite lookup_insert_eq. simpl in Hext.
      destruct (l_actor_tip (write_all _ new1) !! _) as [[q j]|]; simpl in Hext.
      * destruct (N.ltb_spec q (om_actor_seq e.2)); [by rewrite lookup_insert_eq|lia].
      * by rewrite lookup_insert_eq.
    + rewrite lookup_insert_ne // Htips.
      destruct (l_actor_tip (write_all _ new1) !! (_, _)) as [[q j]|];
        [destruct (q <? _)|]; rewrite ?lookup_insert_ne //.
Qed.
End store.
