(* ===== verification/StoreAdmit.v ===== *)
(** * Admission into the memory store

    [admit_batch_locked] either changes nothing or writes the whole batch, and keeps
    [store_ok]: the indexes, the frontier, the actor clock and the pending pool stay
    what the stored metadata says they are. *)

From S2P Require Import Prelude Ids Frame ClockSpec Types Evidence Records Pool Store StoreLog.

#[local] Open Scope N_scope.

Section admission.
Context {C : Type} `{!ClockImpl C} `{!StoreEnv C} `{!Crypto}.
Implicit Types (log : Log C) (meta : OpMeta C) (inner : MemoryInner C) (batch : AdmittedBatch C).

Abbreviation metas inner := (l_meta (s_log inner)).
Abbreviation ids l := ((λ e : Op * OpMeta C, op_id e.1) <$> l).

(** ** The writes of the entries *)

(** A record that stopped waiting for a set of operations. *)
Definition settled_by (X : gset OpId) (r : PendingRecord) : PendingRecord :=
  set_missing r (pr_missing r ∖ X).

(** The writes never fail: the pool refunds what it charged. *)
Lemma write_entries_ok log (pool : Pool) (l : list (Op * OpMeta C)) :
  pool_ok pool →
  ∃ pool', write_entries log pool l = ((write_all log l, pool'), Ok ()) ∧ pool_ok pool' ∧
    ∀ i r, p_records pool' !! i = Some r ↔ i ∉ ids l ∧
      ∃ r0, p_records pool !! i = Some r0 ∧ r = settled_by (list_to_set (ids l)) r0.
Proof.
  revert log pool. induction l as [|[op meta] l IH]; intros log pool Hp.
  { exists pool. split_and!; [done..|]. intros i r. split.
    - intros Hi. split; [apply not_elem_of_nil|]. exists r. split; [done|].
      destruct r. unfold settled_by, set_missing. simpl. f_equal. set_solver.
    - intros [_ (r0 & Hi & ->)]. rewrite Hi. destruct r0. unfold settled_by, set_missing. simpl.
      do 2 f_equal. set_solver. }
  cbn [write_entries]. destruct (remove_pending_ok pool (op_id op) Hp) as (p1 & -> & Hp1 & Hr1 & _).
  destruct (IH (write_log log op meta) _ (settle_ok p1 (op_id op) Hp1)) as (p2 & -> & Hp2 & Hr2).
  exists p2. split_and!; [done..|]. intros i r. rewrite Hr2 settle_records // Hr1.
  rewrite fmap_cons not_elem_of_cons. cbn [fst]. split.
  - intros (Hi & r0 & (r1 & <- & [Hne Hr]%lookup_delete_Some)%lookup_fmap_Some & ->).
    split; [done|]. exists r1. split; [done|]. destruct r1. unfold settled_by, settled, set_missing.
    simpl. f_equal. set_solver.
  - intros ([Hne Hi] & r1 & Hr & ->). split; [done|]. exists (settled (op_id op) r1). split.
    + rewrite lookup_fmap lookup_delete_ne // Hr. done.
    + destruct r1. unfold settled_by, settled, set_missing. simpl. f_equal. set_solver.
Qed.

(** ** The frontier *)

Lemma heads_fold inner batch (l : list (Op * OpMeta C)) (heads consumed : gset OpId) :
  store_ok inner → (∀ e, e ∈ l → entry_ok batch e) →
  let r := foldl (λ '(heads, consumed) '(op, meta),
      if accounted inner meta then (heads, consumed)
      else ({[op_id op]} ∪ heads, consumed ∪ deps (obody op))) (heads, consumed) l in
  (∀ i, i ∈ r.1 ↔ i ∈ heads ∨ i ∈ ids (fresh_entries inner l)) ∧
  (∀ i, i ∈ r.2 ↔ i ∈ consumed ∨ ∃ e, e ∈ fresh_entries inner l ∧ i ∈ om_deps e.2).
Proof.
  intros Hok. revert heads consumed. induction l as [|[op meta] l IH]; intros heads consumed Hl.
  { simpl. unfold fresh_entries. rewrite filter_nil. split; intros i; [set_solver|].
    split; [by left|]. intros [Hi|(e & ?%elem_of_nil & _)]; done. }
  destruct (Hl (op, meta)) as (_ & _ & Hid & _ & _ & _ & _ & Hdeps & _); [by left|].
  simpl in Hid, Hdeps. cbn [foldl]. rewrite accounted_stored // Hid.
  unfold fresh_entries. rewrite filter_cons. cbn [fst].
  case_decide as Hm; cycle 1.
  - rewrite bool_decide_true; [by apply not_eq_None_Some|]. apply IH.
    intros e He. apply Hl. by right.
  - rewrite bool_decide_false; [rewrite Hm; by intros []|].
    destruct (IH ({[op_id op]} ∪ heads) (consumed ∪ deps (obody op))) as [H1 H2].
    { intros e He. apply Hl. by right. }
    cbv zeta in H1, H2 |- *. split; intros i.
    + rewrite H1 fmap_cons elem_of_cons elem_of_union elem_of_singleton. simpl. tauto.
    + rewrite H2 elem_of_union. setoid_rewrite elem_of_cons. rewrite -Hdeps. split.
      * intros [[Hi|Hi]|(e & He & Hi)]; [by left|right; exists (op, meta); by split; [left|]|].
        right. exists e. by split; [right|].
      * intros [Hi|(e & [->|He] & Hi)]; [by left; left|by left; right|]. right. by exists e.
Qed.

Lemma validate_heads_ok inner batch :
  store_ok inner → (∀ e, e ∈ ab_entries batch → entry_ok batch e) →
  validate_heads batch (accounted inner) = Ok () →
  ∀ i, i ∈ ab_heads batch ↔
    (i ∈ ab_expected_heads batch ∨ i ∈ ids (fresh_entries inner (ab_entries batch))) ∧
    ∀ e, e ∈ fresh_entries inner (ab_entries batch) → i ∉ om_deps e.2.
Proof.
  intros Hok Hentries Hv i. unfold validate_heads in Hv.
  destruct (heads_fold inner batch (ab_entries batch) (ab_expected_heads batch) ∅ Hok Hentries)
    as [H1 H2].
  destruct (foldl _ _ _) as [heads consumed]. simpl in H1, H2. case_decide as He; [|done].
  rewrite -He elem_of_difference H1 H2. clear. set_solver.
Qed.

(** ** The clock *)

Lemma clock_fold log (l : list (Op * OpMeta C)) t projected projected' :
  appends_all log l → (∀ e, e ∈ l → om_topic_id e.2 = t) →
  (∀ a, ck_view projected !! a = fst <$> l_actor_tip log !! (t, a)) →
  try_fold (λ projected '(op, meta),
      _ ← mem (SharedNodes (om_observed_clock meta));
      _ ← mem (RecordBytes op meta);
      Ok (ck_observe projected (om_actor_id meta) (om_actor_seq meta))) projected l =
    (Ok projected' : res C) →
  ∀ a, ck_view projected' !! a = fst <$> l_actor_tip (write_all log l) !! (t, a).
Proof.
  revert log projected. induction l as [|[op meta] l IH]; intros log projected Ha Ht Hc.
  { by intros [= <-]. }
  destruct Ha as [Ha Hl]. assert (om_topic_id meta = t) as Hmt by (apply (Ht (op, meta)); by left).
  cbn [try_fold]. intros (p1 & (u1 & _ & (u2 & _ & [= <-])%bind_ok)%bind_ok & Hfold)%bind_ok.
  refine (IH _ _ Hl (λ e He, Ht e (list_elem_of_further _ _ _ He)) _ Hfold).
  intros a. rewrite ck_view_observe Hc. pose proof (ap_extends _ _ _ Ha) as Hext.
  cbn [write_log write_index l_actor_tip]. rewrite Hmt in Hext |- *.
  assert (match l_actor_tip log !! (t, om_actor_id meta) with
    | Some (seq, i) => if seq <? om_actor_seq meta
        then <[(t, om_actor_id meta) := (om_actor_seq meta, op_id op)]> (l_actor_tip log)
        else l_actor_tip log
    | None => <[(t, om_actor_id meta) := (om_actor_seq meta, op_id op)]> (l_actor_tip log) end =
    <[(t, om_actor_id meta) := (om_actor_seq meta, op_id op)]> (l_actor_tip log)) as ->.
  { destruct (l_actor_tip log !! _) as [[q i]|]; [|done]. simpl in Hext.
    destruct (N.ltb_spec q (om_actor_seq meta)); [done|lia]. }
  destruct (decide (a = om_actor_id meta)) as [->|Hne].
  - rewrite !lookup_insert_eq /=. f_equal.
    destruct (l_actor_tip log !! _) as [[q i]|]; simpl in Hext |- *; lia.
  - rewrite lookup_insert_ne; [congruence|]. rewrite lookup_insert_ne; [congruence|]. by rewrite Hc.
Qed.

Lemma write_all_tip_ne log (l : list (Op * OpMeta C)) t t' a :
  (∀ e, e ∈ l → om_topic_id e.2 = t) → t' ≠ t →
  l_actor_tip (write_all log l) !! (t', a) = l_actor_tip log !! (t', a).
Proof.
  revert log. induction l as [|[op meta] l IH]; intros log Ht Hne; [done|]. simpl.
  rewrite IH //; [intros e He; apply Ht; by right|]. cbn [write_log write_index l_actor_tip].
  assert (om_topic_id meta = t) as -> by (apply (Ht (op, meta)); by left).
  destruct (l_actor_tip log !! (t, _)) as [[q i]|]; [destruct (q <? _)|];
    rewrite ?lookup_insert_ne //; congruence.
Qed.

(** ** The plan *)

(** What a successful plan establishes before the first write. *)
Record plan_ok inner batch (plan : AdmitPlan) : Prop := {
  pl_entries : ∀ e, e ∈ ab_entries batch → entry_ok batch e;
  pl_expected_heads : default ∅ (s_heads inner !! ab_topic_id batch) = ab_expected_heads batch;
  pl_expected_state : topic_state_locked inner (ab_topic_id batch) = ab_expected_topic_state batch;
  pl_state : ∀ s, ab_topic_state batch = Some s →
    ts_topic_id s = ab_topic_id batch ∧ ts_heads s = ab_heads batch;
  pl_new : ap_new_entries plan = fresh_entries inner (ab_entries batch);
  pl_stored : ∀ e, e ∈ ab_entries batch → is_Some (metas inner !! op_id e.1) →
    l_ops (s_log inner) !! op_id e.1 = Some e.1;
  pl_appends : appends_all (s_log inner) (ap_new_entries plan);
  pl_heads : ∀ i, i ∈ ab_heads batch ↔
    (i ∈ ab_expected_heads batch ∨ i ∈ ids (ap_new_entries plan)) ∧
    ∀ e, e ∈ ap_new_entries plan → i ∉ om_deps e.2;
  pl_deps : ∀ e d, e ∈ ap_new_entries plan → d ∈ om_deps e.2 →
    d ∈ ids (ap_new_entries plan) ∨ is_Some (metas inner !! d);
  pl_clock : ∀ a, ck_view (ap_projected plan) !! a =
    fst <$> l_actor_tip (write_all (s_log inner) (ap_new_entries plan)) !! (ab_topic_id batch, a);
}.

Lemma fresh_topic inner batch :
  (∀ e, e ∈ ab_entries batch → entry_ok batch e) →
  ∀ e, e ∈ fresh_entries inner (ab_entries batch) → om_topic_id e.2 = ab_topic_id batch.
Proof. intros Hall e [_ He]%list_elem_of_filter. by apply Hall. Qed.

Lemma admit_plan_ok inner batch quota plan :
  store_ok inner → batch_wf inner batch → admit_plan inner batch quota = Ok plan →
  plan_ok inner batch plan.
Proof.
  intros Hok Hwf Hplan. unfold admit_plan in Hplan. cbv zeta in Hplan.
  next_ok Hplan as ([] & (_ & Hst & Hentries)%validate_batch_ok & Hplan).
  next_ok Hplan as (? & Hheads%refuse_if_ok & Hplan).
  next_ok Hplan as (? & Hstate%refuse_if_ok & Hplan).
  apply negb_false_iff, bool_decide_eq_true in Hheads, Hstate.
  next_ok Hplan as ([] & Hvh & Hplan).
  skip_ok Hplan. next_ok Hplan as (effects & _ & Hplan).
  next_ok Hplan as ([tips new] & Hscan & Hplan).
  next_ok Hplan as ([] & Hdeps & Hplan).
  do 2 skip_ok Hplan.
  next_ok Hplan as (projected & Hproj & Hplan).
  do 4 skip_ok Hplan.
  next_ok Hplan as (fp & _ & Hplan). apply bind_ok in Hplan as (charge & _ & [= <-]).
  destruct (scan_appends inner batch tips new Hok Hwf Hentries Hscan) as (-> & Happ & Hsame).
  pose proof (fresh_topic inner batch Hentries) as Htop.
  split; cbn [ap_new_entries ap_projected]; try done.
  - by apply validate_heads_ok.
  - intros e d He Hd. pose proof (proj1 (ensure_deps_resolvable_ok _ _) Hdeps e d He Hd) as [Hin|Hs];
      [by left|right]. rewrite stored_complete // in Hs. by apply bool_decide_eq_true in Hs.
  - intros a. refine (clock_fold _ _ _ _ _ Happ Htop _ Hproj a). intros b. by apply so_clock.
Qed.

(** ** The store after the writes *)

(** The log after a plan: the stored metadata and the new entries. *)
Lemma planned_meta inner batch plan i m :
  batch_wf inner batch → plan_ok inner batch plan →
  l_meta (write_all (s_log inner) (ap_new_entries plan)) !! i = Some m ↔
    metas inner !! i = Some m ∨ ∃ o, (o, m) ∈ ap_new_entries plan ∧ op_id o = i.
Proof.
  intros Hwf Hpl. pose proof (fresh_nodup inner _ (bw_ids _ _ Hwf)) as Hnd.
  rewrite (pl_new _ _ _ Hpl) (write_all_meta _ _ _ Hnd). split.
  - intros [Ho|[_ Hi]]; [by right|by left].
  - intros [Hi|Ho]; [|by left]. right. split; [|done].
    intros (e & -> & [Hno _]%list_elem_of_filter)%list_elem_of_fmap. congruence.
Qed.

Lemma write_all_ops_ne log (l : list (Op * OpMeta C)) i :
  i ∉ ids l → l_ops (write_all log l) !! i = l_ops log !! i.
Proof.
  revert log. induction l as [|[o m] l IH]; intros log; [done|].
  rewrite fmap_cons not_elem_of_cons. intros [Hne Hi]. cbn [write_all foldl].
  rewrite -/(write_all _ l) IH //. by apply lookup_insert_ne.
Qed.

Lemma write_all_ops log (l : list (Op * OpMeta C)) e :
  NoDup (ids l) → e ∈ l → l_ops (write_all log l) !! op_id e.1 = Some e.1.
Proof.
  revert log. induction l as [|[o m] l IH]; intros log; [by intros _ ?%elem_of_nil|].
  rewrite fmap_cons. intros [Ho Hnd]%NoDup_cons [->|He]%elem_of_cons; [|by apply IH].
  cbn [write_all foldl fst]. rewrite -/(write_all _ l) write_all_ops_ne //. by apply lookup_insert_eq.
Qed.

(** Every entry of the batch is stored afterwards. *)
Lemma planned_ops inner batch plan e :
  batch_wf inner batch → plan_ok inner batch plan → e ∈ ab_entries batch →
  l_ops (write_all (s_log inner) (ap_new_entries plan)) !! op_id e.1 = Some e.1.
Proof.
  intros Hwf Hpl He. rewrite (pl_new _ _ _ Hpl).
  destruct (metas inner !! op_id e.1) as [m|] eqn:Hm.
  - rewrite write_all_ops_ne; [|apply (pl_stored _ _ _ Hpl e He); by eexists].
    intros (e' & Heq & [Hno _]%list_elem_of_filter)%list_elem_of_fmap. congruence.
  - apply write_all_ops; [by apply fresh_nodup, (bw_ids _ _ Hwf)|]. by apply list_elem_of_filter.
Qed.

Lemma planned_heads inner batch plan t i :
  store_ok inner → batch_wf inner batch → plan_ok inner batch plan →
  let metas' := l_meta (write_all (s_log inner) (ap_new_entries plan)) in
  i ∈ default ∅ (<[ab_topic_id batch := ab_heads batch]> (s_heads inner) !! t) ↔
    (∃ m, metas' !! i = Some m ∧ om_topic_id m = t) ∧ ∀ c mc, metas' !! c = Some mc → i ∉ om_deps mc.
Proof.
  intros Hok Hwf Hpl metas'.
  assert (∀ e, e ∈ ap_new_entries plan → om_topic_id e.2 = ab_topic_id batch ∧
    metas inner !! op_id e.1 = None) as Hnew.
  { intros e He. rewrite (pl_new _ _ _ Hpl) in He.
    split; [by apply (fresh_topic inner batch (pl_entries _ _ _ Hpl))|].
    by apply list_elem_of_filter in He as [? _]. }
  assert (∀ i m, metas' !! i = Some m ↔
    metas inner !! i = Some m ∨ ∃ o, (o, m) ∈ ap_new_entries plan ∧ op_id o = i) as Hmetas
    by (intros j m; by apply (planned_meta inner batch)).
  assert ((∀ c mc, metas' !! c = Some mc → i ∉ om_deps mc) ↔
    (∀ c mc, metas inner !! c = Some mc → i ∉ om_deps mc) ∧
    ∀ e, e ∈ ap_new_entries plan → i ∉ om_deps e.2) as Hcons.
  { setoid_rewrite Hmetas. split.
    - intros Hall. split; [intros c mc Hc; apply (Hall c); by left|].
      intros [o m] He. apply (Hall (op_id o)). right. by exists o.
    - intros [H1 H2] c mc [Hc|(o & Ho & _)]; [by apply (H1 c)|by apply (H2 (o, mc))]. }
  rewrite Hcons. setoid_rewrite Hmetas. clear Hcons Hmetas metas'.
  destruct (decide (t = ab_topic_id batch)) as [->|Ht].
  - rewrite lookup_insert_eq /= (pl_heads _ _ _ Hpl) -(pl_expected_heads _ _ _ Hpl) (so_heads _ Hok).
    split.
    + intros [[[(m & Hm & Hmt) Hold]|Hi] Hcons]; [by split; [exists m; split; [left|]|]|].
      apply list_elem_of_fmap in Hi as ([o m] & -> & He). destruct (Hnew _ He) as [Hmt Hno].
      split; [exists m; split; [right; by exists o|done]|]. split; [|done].
      intros c mc Hc Hd. destruct (so_deps _ Hok _ _ _ Hc Hd) as (md & Hmd & _). simpl in *. congruence.
    + intros [(m & [Hm|(o & Ho & <-)] & Hmt) [Hold Hcons]]; (split; [|done]).
      * left. by split; [exists m|].
      * right. apply list_elem_of_fmap. by exists (o, m).
  - rewrite lookup_insert_ne // (so_heads _ Hok). split.
    + intros [(m & Hm & Hmt) Hold]. split; [exists m; by split; [left|]|]. split; [done|].
      intros e He Hd. rewrite (pl_new _ _ _ Hpl) in He. apply list_elem_of_filter in He as [_ He].
      apply Ht. rewrite -Hmt. by apply (bw_deps _ _ Hwf e i).
    + intros [(m & [Hm|(o & Ho & <-)] & Hmt) [Hold _]]; [by split; [exists m|]|].
      destruct Ht. rewrite -Hmt. by apply (Hnew (o, m)).
Qed.

Lemma planned_deps inner batch plan i m d :
  store_ok inner → batch_wf inner batch → plan_ok inner batch plan →
  let metas' := l_meta (write_all (s_log inner) (ap_new_entries plan)) in
  metas' !! i = Some m → d ∈ om_deps m →
  ∃ md, metas' !! d = Some md ∧ om_topic_id md = om_topic_id m.
Proof.
  intros Hok Hwf Hpl metas' Hm Hd.
  pose proof (λ i m, planned_meta inner batch plan i m Hwf Hpl) as Hmetas.
  pose proof (fresh_topic inner batch (pl_entries _ _ _ Hpl)) as Htop.
  rewrite -(pl_new _ _ _ Hpl) in Htop.
  apply Hmetas in Hm as [Hm|(o & Ho & <-)].
  - destruct (so_deps _ Hok _ _ _ Hm Hd) as (md & Hmd & Ht). exists md. split; [|done].
    apply Hmetas. by left.
  - rewrite (Htop _ Ho). destruct (pl_deps _ _ _ Hpl _ d Ho Hd) as [Hin|[md Hmd]].
    + apply list_elem_of_fmap in Hin as ([o' md] & -> & Hin). exists md.
      split; [apply Hmetas; right; by exists o'|]. by apply (Htop (o', md)).
    + exists md. split; [apply Hmetas; by left|]. apply (bw_deps _ _ Hwf (o, m) d); [|done..].
      rewrite (pl_new _ _ _ Hpl) in Ho. by apply list_elem_of_filter in Ho as [_ ?].
Qed.

Lemma admit_write_ok inner batch plan inner' r :
  store_ok inner → batch_wf inner batch → plan_ok inner batch plan →
  admit_write inner batch plan = (inner', r) →
  r = Ok () ∧ store_ok inner' ∧
  s_log inner' = write_all (s_log inner) (ap_new_entries plan) ∧
  s_heads inner' = <[ab_topic_id batch := ab_heads batch]> (s_heads inner) ∧
  s_topics inner' = match ab_topic_state batch with
    | Some s => <[ab_topic_id batch := s]> (s_topics inner) | None => s_topics inner end ∧
  (∀ i r, p_records (s_pool inner') !! i = Some r ↔ i ∉ ids (ap_new_entries plan) ∧
    ∃ r0, p_records (s_pool inner) !! i = Some r0 ∧
      r = settled_by (list_to_set (ids (ap_new_entries plan))) r0).
Proof.
  intros Hok Hwf Hpl. unfold admit_write.
  destruct (write_entries_ok (s_log inner) (s_pool inner) (ap_new_entries plan) (so_pool _ Hok))
    as (pool & -> & Hpool & Hrec).
  intros [= <- <-]. split; [done|].
  assert (match ab_topic_state batch with
    | Some s => <[ts_topic_id s := s]> (s_topics inner) | None => s_topics inner end =
    match ab_topic_state batch with
    | Some s => <[ab_topic_id batch := s]> (s_topics inner) | None => s_topics inner end) as Htops.
  { destruct (ab_topic_state batch) as [s|] eqn:Hs; [|done].
    by destruct (pl_state _ _ _ Hpl s Hs) as [-> _]. }
  cbn [s_log s_pool s_heads s_topics]. split; [|done].
  pose proof (λ i m, planned_meta inner batch plan i m Hwf Hpl) as Hmetas.
  split; cbn [s_log s_pool s_heads s_topics s_rejected].
  - apply write_all_ok; [by apply so_log|apply (pl_appends _ _ _ Hpl)].
  - done.
  - intros i r (Hi & r0 & Hr0 & ->)%Hrec. destruct (so_buffered _ Hok i r0 Hr0) as [Hno Hmiss]. split.
    + destruct (l_meta (write_all _ _) !! i) as [m|] eqn:Hm; [|done]. apply Hmetas in Hm as [Hm|(o & Ho & <-)]; [congruence|].
      destruct Hi. apply list_elem_of_fmap. by exists (o, m).
    + intros d. cbn [settled_by set_missing pr_missing].
      rewrite elem_of_difference elem_of_list_to_set. intros [Hd Hni].
      destruct (l_meta (write_all _ _) !! d) as [m|] eqn:Hm; [|done].
      apply Hmetas in Hm as [Hm|(o & Ho & <-)]; [by rewrite Hmiss in Hm|].
      destruct Hni. apply list_elem_of_fmap. by exists (o, m).
  - intros i m d. by apply (planned_deps inner batch).
  - intros t i. by apply planned_heads.
  - intros t a. unfold clock_of. cbn [s_actor_clock].
    destruct (decide (t = ab_topic_id batch)) as [->|Ht].
    + rewrite lookup_insert_eq /=. by apply (pl_clock _ _ _ Hpl).
    + rewrite lookup_insert_ne // (write_all_tip_ne _ _ (ab_topic_id batch)) //.
      * rewrite (pl_new _ _ _ Hpl). apply fresh_topic, Hpl.
      * by apply (so_clock _ Hok).
  - intros t s. rewrite Htops. destruct (ab_topic_state batch) as [s'|] eqn:Hs; [|by apply so_topics].
    intros [[<- <-]|[_ Hts]]%lookup_insert_Some; [|by apply (so_topics _ Hok)].
    by apply (pl_state _ _ _ Hpl).
  - intros i r rj (Hi & r0 & Hr0 & ->)%Hrec Hrj.
    destruct (so_rejected _ Hok i r0 rj Hr0 Hrj) as [Hni Hmiss]. split; [done|].
    intros d. cbn [settled_by set_missing pr_missing]. intros [Hd _]%elem_of_difference. by apply Hmiss.
  - apply (so_rejected_ids _ Hok).
Qed.

Lemma admit_write_evictions inner batch plan :
  s_evictions (admit_write inner batch plan).1 = s_evictions inner.
Proof. unfold admit_write. by destruct (write_entries _ _ _) as [[log pool] [u|e]]. Qed.

Lemma admit_batch_spec inner batch quota inner' r :
  store_ok inner → batch_wf inner batch →
  admit_batch_locked inner batch quota = (inner', r) →
  store_ok inner' ∧
  match r with
  | Err _ => inner' = inner
  | Ok _ =>
      (∀ i m, metas inner' !! i = Some m ↔ metas inner !! i = Some m ∨
        metas inner !! i = None ∧ ∃ o, (o, m) ∈ ab_entries batch ∧ op_id o = i) ∧
      (∀ e, e ∈ ab_entries batch → l_ops (s_log inner') !! op_id e.1 = Some e.1) ∧
      default ∅ (s_heads inner' !! ab_topic_id batch) = ab_heads batch ∧
      topic_state_locked inner' (ab_topic_id batch) =
        match ab_topic_state batch with
        | Some s => Some s
        | None => (λ s, set_heads s (ab_heads batch)) <$> ab_expected_topic_state batch
        end ∧
      (∀ i r, p_records (s_pool inner') !! i = Some r ↔
        metas inner' !! i = None ∧ ∃ r0, p_records (s_pool inner) !! i = Some r0 ∧
          r = set_missing r0 (filter (λ d, metas inner' !! d = None) (pr_missing r0)))
  end.
Proof.
  intros Hok Hwf. unfold admit_batch_locked.
  destruct (admit_plan inner batch quota) as [plan|e] eqn:Hplan; [|by intros [= <- <-]].
  pose proof (admit_plan_ok _ _ _ _ Hok Hwf Hplan) as Hpl. intros Hw.
  destruct (admit_write_ok _ _ _ _ _ Hok Hwf Hpl Hw) as (-> & Hok' & Hlog & Hheads & Htops & Hrec).
  split; [done|].
  pose proof (λ i m, planned_meta inner batch plan i m Hwf Hpl) as Hmetas. rewrite -Hlog in Hmetas.
  split; [|split; [|split; [|split]]].
  - intros i m. rewrite Hmetas (pl_new _ _ _ Hpl). setoid_rewrite list_elem_of_filter. cbn [fst].
    naive_solver.
  - intros e He. rewrite Hlog. by apply (planned_ops inner batch).
  - by rewrite Hheads lookup_insert_eq.
  - unfold topic_state_locked. rewrite Htops Hheads lookup_insert_eq /=.
    destruct (ab_topic_state batch) as [s|] eqn:Hs.
    + rewrite lookup_insert_eq /=. destruct (pl_state _ _ _ Hpl s Hs) as [_ <-]. by destruct s.
    + rewrite -(pl_expected_state _ _ _ Hpl). unfold topic_state_locked.
      by destruct (s_topics inner !! ab_topic_id batch).
  - assert (∀ i r0, p_records (s_pool inner) !! i = Some r0 →
      (i ∉ ids (ap_new_entries plan) ↔ metas inner' !! i = None) ∧
      settled_by (list_to_set (ids (ap_new_entries plan))) r0 =
        set_missing r0 (filter (λ d, metas inner' !! d = None) (pr_missing r0))) as Heq.
    { intros i r0 Hr0. destruct (so_buffered _ Hok i r0 Hr0) as [Hno Hmiss].
      assert (∀ d, metas inner !! d = None →
        d ∉ ids (ap_new_entries plan) ↔ metas inner' !! d = None) as Hd.
      { intros d Hd. rewrite eq_None_not_Some. unfold is_Some. setoid_rewrite Hmetas.
        rewrite list_elem_of_fmap. split; intros Hx.
        - intros (m & [Hm|(o & Ho & <-)]); [congruence|]. apply Hx. by exists (o, m).
        - intros ([o m] & -> & Ho). apply Hx. exists m. right. by exists o. }
      split; [by apply Hd|]. unfold settled_by. f_equal. apply set_eq. intros d.
      rewrite elem_of_difference elem_of_list_to_set elem_of_filter.
      split; intros [H1 H2]; (split; [by apply Hd; [apply Hmiss|]|done]) || (split; [done|by apply Hd; [apply Hmiss|]]). }
    intros i r. rewrite Hrec. split.
    + intros (Hi & r0 & Hr0 & ->). destruct (Heq i r0 Hr0) as [Hi' He]. split; [by apply Hi'|].
      exists r0. by rewrite He.
    + intros (Hi & r0 & Hr0 & ->). destruct (Heq i r0 Hr0) as [Hi' He]. split; [by apply Hi'|].
      exists r0. by rewrite He.
Qed.

(** C14: admission of a well-formed batch into a consistent store leaves it
    consistent: every index, frontier, clock and pending counter still agrees with
    the stored metadata. A refused batch changes nothing. An admitted one stores
    exactly its absent entries, holds every operation of it, replaces the frontier and the topic state by those
    of the batch, and the operations still buffered wait for exactly those of their
    dependencies that are still absent. *)
Theorem admit_batch_consistent inner batch quota inner' r :
  store_ok inner → batch_wf inner batch →
  admit_batch_locked inner batch quota = (inner', r) →
  store_ok inner' ∧
  match r with
  | Err _ => inner' = inner
  | Ok _ =>
      (∀ i m, metas inner' !! i = Some m ↔ metas inner !! i = Some m ∨
        metas inner !! i = None ∧ ∃ o, (o, m) ∈ ab_entries batch ∧ op_id o = i) ∧
      (∀ e, e ∈ ab_entries batch → l_ops (s_log inner') !! op_id e.1 = Some e.1) ∧
      default ∅ (s_heads inner' !! ab_topic_id batch) = ab_heads batch ∧
      topic_state_locked inner' (ab_topic_id batch) =
        match ab_topic_state batch with
        | Some s => Some s
        | None => (λ s, set_heads s (ab_heads batch)) <$> ab_expected_topic_state batch
        end ∧
      (∀ i r, p_records (s_pool inner') !! i = Some r ↔
        metas inner' !! i = None ∧ ∃ r0, p_records (s_pool inner) !! i = Some r0 ∧
          r = set_missing r0 (filter (λ d, metas inner' !! d = None) (pr_missing r0)))
  end.
Proof. apply admit_batch_spec. Qed.
End admission.
