(* ===== verification/StoreOps.v ===== *)
(** * Buffering, rejection and reset in the memory store

    The writes other than admission: each keeps [store_ok] and does what its name
    says on every branch. *)

From S2P Require Import Prelude Ids Frame ClockSpec Types Evidence Records Pool Store StoreLog.
From S2P Require Import StoreAdmit.

#[local] Open Scope N_scope.

Section ops.
Context {C : Type} `{!ClockImpl C} `{!StoreEnv C} `{!Crypto}.
Implicit Types (log : Log C) (meta : OpMeta C) (inner : MemoryInner C) (batch : AdmittedBatch C).

Abbreviation metas inner := (l_meta (s_log inner)).

(** ** Buffering *)

(** The quotas of the pending pool. *)
Record pool_bounded (p : Pool) : Prop := {
  pb_total : within (p_usage p) MAX_PENDING_OPS_TOTAL MAX_PENDING_BYTES_TOTAL;
  pb_source : ∀ s, within (usage_of (p_source p) s) MAX_PENDING_OPS_PER_SOURCE
    MAX_PENDING_BYTES_PER_SOURCE;
  pb_topic : ∀ t, within (usage_of (p_topic p) t) MAX_PENDING_OPS_PER_TOPIC
    MAX_PENDING_BYTES_PER_TOPIC;
  pb_waiters : ∀ d, (size (default ∅ (p_waiters p !! d)) ≤ MAX_PENDING_WAITERS_PER_DEP)%nat;
  pb_missing : ∀ i r, p_records p !! i = Some r → (size (pr_missing r) ≤ MAX_PENDING_MISSING_DEPS)%nat;
}.

Lemma find_rejected_None inner t i missing rj :
  find_rejected inner t i missing = None → s_rejected inner !! t = Some rj →
  i ∉ rj_ids rj ∧ ∀ d, d ∈ missing → d ∉ rj_ids rj.
Proof.
  unfold find_rejected. intros Hf Hrj. rewrite Hrj in Hf.
  assert (∀ x, x ∈ i :: bt_elements missing → x ∉ rj_ids rj) as Hall.
  { intros x Hx Hin. destruct (filter _ _) as [|y l] eqn:Hl; [|done].
    eapply (not_elem_of_nil x). rewrite -Hl. by apply list_elem_of_filter. }
  split; [apply Hall; by left|]. intros d Hd. apply Hall. right. by apply elem_of_bt_elements.
Qed.

(** What [put_pending_bound] checked when it writes. *)
Record buffer_checks inner (src : PeerId) (op : Op) (missing : gset OpId) (charge : N) : Prop := {
  bc_count : (size (missing) ≤ MAX_PENDING_MISSING_DEPS)%nat;
  bc_absent : metas inner !! op_id op = None;
  bc_missing : ∀ d, d ∈ missing → metas inner !! d = None;
  bc_rejected : find_rejected inner (topic_id (obody op)) (op_id op) (missing) = None;
  bc_known : ∀ r, p_records (s_pool inner) !! op_id op = Some r →
    p_ops (s_pool inner) !! op_id op = Some op;
  bc_waiters : ∀ d, d ∈ missing →
    d ∉ from_option pr_missing ∅ (p_records (s_pool inner) !! op_id op) →
    (size (default ∅ (p_waiters (s_pool inner) !! d)) < MAX_PENDING_WAITERS_PER_DEP)%nat;
  bc_quota : p_records (s_pool inner) !! op_id op = None →
    check_pending_quota (p_usage (s_pool inner)) (usage_of (p_source (s_pool inner)) src)
      (usage_of (p_topic (s_pool inner)) (topic_id (obody op))) charge = Ok ();
}.

Lemma waiter_check_ok (p : Pool) (previous : option (gset OpId)) (missing : gset OpId) :
  try_fold (λ _ dep,
    let already := bool_decide (dep ∈ default ∅ previous) in
    refuse_if (negb already && bool_decide
      (MAX_PENDING_WAITERS_PER_DEP ≤ size (default ∅ (p_waiters p !! dep)))%nat)
      (Storage "pending waiter quota exceeded")) () (bt_elements missing) = Ok () →
  ∀ d, d ∈ missing → d ∉ default ∅ previous →
    (size (default ∅ (p_waiters p !! d)) < MAX_PENDING_WAITERS_PER_DEP)%nat.
Proof.
  cbv zeta. rewrite (try_fold_unit (λ dep, refuse_if _ _)). intros Hall d Hd Hn.
  apply elem_of_bt_elements, Hall, refuse_if_ok in Hd.
  rewrite (bool_decide_false _ Hn) andb_true_l in Hd. apply bool_decide_eq_false in Hd. lia.
Qed.

Lemma put_pending_cases inner quota src (op : Op) meta genesis inner' :
  store_ok inner → put_pending_bound inner quota src op meta genesis = Ok inner' →
  (inner' = inner ∧ is_Some (metas inner !! op_id op)) ∨
  (inner' = inner ∧ metas inner !! op_id op = None ∧ p_ops (s_pool inner) !! op_id op = Some op ∧
     ∃ r, p_records (s_pool inner) !! op_id op = Some r ∧ pr_missing r = om_missing_deps meta) ∨
  ∃ charge, buffer_checks inner src op (om_missing_deps meta) charge ∧
    inner' = set_pool inner (buffer (s_pool inner) src op (om_missing_deps meta) charge).
Proof.
  intros Hok Hput. unfold put_pending_bound in Hput.
  next_ok Hput as (charge & Hch & Hput). next_ok Hput as (? & Hids & Hput).
  next_ok Hput as (? & Hcount%refuse_if_ok & Hput).
  apply bool_decide_eq_false in Hcount. skip_ok Hput.
  rewrite stored_complete // in Hput. case_bool_decide as Hs; [injection Hput as <-; by left|].
  right. apply eq_None_not_Some in Hs.
  destruct (existsb _ _) eqn:Hex; [done|].
  assert (∀ d, d ∈ om_missing_deps meta → metas inner !! d = None) as Hmiss.
  { intros d Hd. apply eq_None_not_Some. intros Hsd. apply not_true_iff_false in Hex. apply Hex.
    apply existsb_exists. exists d. rewrite stored_complete // bool_decide_true //.
    split; [|done]. by apply list_elem_of_In, elem_of_bt_elements. }
  destruct (find_rejected _ _ _ _) eqn:Hrej; [done|].
  destruct (p_records (s_pool inner) !! op_id op) as [r|] eqn:Hr.
  - rewrite bool_decide_true in Hput; [by eexists|]. cbn [andb] in Hput.
    case_bool_decide as Hop; [|done]. cbn [negb] in Hput.
    case_bool_decide as Hm.
    { left. injection Hput as <-. injection Hm as Hm. split_and!; [done..|]. by exists r. }
    right. next_ok Hput as ([] & Hw & Hput). do 3 skip_ok Hput.
    injection Hput as <-. exists charge. split; [|done]. split; try done; rewrite ?Hr; try done.
    + lia.
    + intros d Hd Hn. by apply (waiter_check_ok _ _ _ Hw).
  - right. rewrite bool_decide_false in Hput; [by intros []|]. cbn [andb fmap option_fmap option_map] in Hput.
    rewrite bool_decide_false // in Hput.
    next_ok Hput as ([] & Hw & Hput). skip_ok Hput.
    next_ok Hput as ([] & Hq & Hput). skip_ok Hput.
    injection Hput as <-. exists charge. split; [|done]. split; try done; rewrite ?Hr; try done.
    + lia.
    + intros d Hd Hn. by apply (waiter_check_ok _ _ _ Hw).
Qed.

Lemma buffer_store_ok inner src (op : Op) (missing : gset OpId) charge :
  store_ok inner → buffer_checks inner src op missing charge →
  store_ok (set_pool inner (buffer (s_pool inner) src op missing charge)).
Proof.
  intros Hok Hbc. pose proof (buffer_records (s_pool inner) src op missing charge) as Hrec.
  assert (∀ i r, p_records (buffer (s_pool inner) src op missing charge) !! i = Some r →
    i = op_id op ∧ pr_missing r = missing ∧ pr_topic_id r = topic_id (obody op) ∨
    p_records (s_pool inner) !! i = Some r) as Hcases.
  { intros i r. rewrite Hrec. intros [[<- <-]|[_ Hi]]%lookup_insert_Some; [left|by right].
    unfold buffered_record. destruct (p_records (s_pool inner) !! op_id op) as [r0|] eqn:Hr0; [|done].
    split_and!; [done..|]. simpl. symmetry.
    apply (po_op _ (so_pool _ Hok) (op_id op)); [by apply (bc_known _ _ _ _ _ Hbc r0)|done]. }
  destruct Hok as [Hlog Hpool Hbuf Hdeps Hheads Hclock Htops Hrej Hrids].
  split; cbn [set_pool s_log s_pool s_heads s_topics s_rejected]; try done.
  - apply buffer_ok; [done|]. apply (bc_known _ _ _ _ _ Hbc).
  - intros i r [(-> & -> & _)|Hi]%Hcases; [|by apply Hbuf].
    split; [apply (bc_absent _ _ _ _ _ Hbc)|apply (bc_missing _ _ _ _ _ Hbc)].
  - intros i r rj [(-> & -> & ->)|Hi]%Hcases Hrj; [|by apply (Hrej i r)].
    by eapply find_rejected_None; [apply (bc_rejected _ _ _ _ _ Hbc)|].
Qed.

Lemma buffer_waiters (p : Pool) src (op : Op) missing charge d :
  pool_ok p → (∀ r, p_records p !! op_id op = Some r → p_ops p !! op_id op = Some op) →
  ∀ i, i ∈ default ∅ (p_waiters (buffer p src op missing charge) !! d) ↔
    if decide (i = op_id op) then d ∈ missing else i ∈ default ∅ (p_waiters p !! d).
Proof.
  intros Hp Hknown i.
  rewrite (proj1 (po_waiters _ (buffer_ok p src op missing charge Hp Hknown))).
  unfold waits. rewrite buffer_records. case_decide as Hi.
  - subst i. rewrite lookup_insert_eq. split.
    + intros (r & [= <-] & Hd). unfold buffered_record in Hd. by destruct (p_records p !! op_id op).
    + intros Hd. eexists. split; [done|]. unfold buffered_record. by destruct (p_records p !! op_id op).
  - by rewrite lookup_insert_ne // (proj1 (po_waiters _ Hp)).
Qed.

Lemma buffer_bounded inner src (op : Op) (missing : gset OpId) charge :
  store_ok inner → buffer_checks inner src op missing charge → pool_bounded (s_pool inner) →
  pool_bounded (buffer (s_pool inner) src op missing charge).
Proof.
  intros Hok Hbc Hb. pose proof (so_pool _ Hok) as Hp. pose proof (bc_known _ _ _ _ _ Hbc) as Hknown.
  assert (∀ i r, p_records (buffer (s_pool inner) src op missing charge) !! i = Some r →
    (size (pr_missing r) ≤ MAX_PENDING_MISSING_DEPS)%nat) as Hmissing.
  { intros i r. rewrite buffer_records. intros [[<- <-]|[_ Hi]]%lookup_insert_Some;
      [|by apply (pb_missing _ Hb i)].
    pose proof (bc_count _ _ _ _ _ Hbc). unfold buffered_record.
    by destruct (p_records (s_pool inner) !! op_id op). }
  assert (∀ d, (size (default ∅ (p_waiters (buffer (s_pool inner) src op missing charge)
    !! d)) ≤ MAX_PENDING_WAITERS_PER_DEP)%nat) as Hwaiters.
  { intros d. pose proof (buffer_waiters (s_pool inner) src op missing charge d Hp Hknown) as Hw.
    pose proof (pb_waiters _ Hb d) as Hold.
    destruct (decide (d ∈ missing)) as [Hd|Hd].
    - destruct (decide (op_id op ∈ default ∅ (p_waiters (s_pool inner) !! d))) as [Hin|Hin].
      + etrans; [|exact Hold]. apply subseteq_size. intros i. rewrite Hw. case_decide; [by subst|done].
      + assert (size (default ∅ (p_waiters (s_pool inner) !! d)) < MAX_PENDING_WAITERS_PER_DEP)%nat as Hlt.
        { apply (bc_waiters _ _ _ _ _ Hbc d Hd). intros Hprev. apply Hin, (proj1 (po_waiters _ Hp)).
          destruct (p_records (s_pool inner) !! op_id op) as [r|] eqn:Hr; [|by apply elem_of_empty in Hprev].
          by exists r. }
        etrans; [apply (subseteq_size _ ({[op_id op]} ∪ default ∅ (p_waiters (s_pool inner) !! d)))|].
        * intros i. rewrite Hw elem_of_union elem_of_singleton. case_decide; tauto.
        * rewrite size_union; [set_solver|]. rewrite size_singleton. lia.
    - etrans; [|exact Hold]. apply subseteq_size. intros i. rewrite Hw. case_decide; done. }
  destruct Hb as [Htot Hsrc Htop _ _].
  unfold buffer. split; [| | |exact Hwaiters|exact Hmissing];
    destruct (p_records (s_pool inner) !! op_id op) eqn:Hr; cbn [p_usage p_source p_topic]; try done;
    destruct (check_pending_quota_ok _ _ _ _ (bc_quota _ _ _ _ _ Hbc Hr)) as (Hqt & Hqs & Hqp); [done| |].
  - intros s. unfold usage_of. destruct (decide (s = src)) as [->|Hs];
      [by rewrite lookup_insert_eq|rewrite lookup_insert_ne //]. apply Hsrc.
  - intros t. unfold usage_of. destruct (decide (t = topic_id (obody op))) as [->|Hs];
      [by rewrite lookup_insert_eq|rewrite lookup_insert_ne //]. apply Htop.
Qed.

(** Buffering keeps the store consistent and the pool within its quotas.
    It changes nothing when the operation is stored; otherwise the pool holds the
    operation afterwards, waiting for exactly the dependencies the metadata names,
    and every other record is as it was. *)
Theorem put_pending_consistent inner quota src (op : Op) meta genesis inner' :
  store_ok inner → pool_bounded (s_pool inner) →
  put_pending_bound inner quota src op meta genesis = Ok inner' →
  store_ok inner' ∧ pool_bounded (s_pool inner') ∧ s_log inner' = s_log inner ∧
  (is_Some (metas inner !! op_id op) → inner' = inner) ∧
  (metas inner !! op_id op = None →
    p_ops (s_pool inner') !! op_id op = Some op ∧
    pr_missing <$> p_records (s_pool inner') !! op_id op = Some (om_missing_deps meta)) ∧
  ∀ i, i ≠ op_id op → p_records (s_pool inner') !! i = p_records (s_pool inner) !! i.
Proof.
  intros Hok Hb Hput.
  destruct (put_pending_cases _ _ _ _ _ _ _ Hok Hput)
    as [[-> Hs]|[(-> & Hno & Hop & r & Hr & Hm)|(charge & Hbc & ->)]].
  - split_and!; try done. intros Hno. rewrite Hno in Hs. by destruct Hs.
  - split_and!; try done. intros _. split; [done|]. by rewrite Hr /= Hm.
  - pose proof (bc_absent _ _ _ _ _ Hbc) as Habs. split; [by apply buffer_store_ok|].
    split; [by apply buffer_bounded|]. split; [done|]. cbn [set_pool s_pool].
    split; [intros Hs; rewrite Habs in Hs; by destruct Hs|]. rewrite buffer_records. split.
    + intros _. rewrite lookup_insert_eq. unfold buffer, buffered_record.
      destruct (p_records (s_pool inner) !! op_id op) as [r|] eqn:Hr; cbn [p_ops]; simpl.
      * by split; [apply (bc_known _ _ _ _ _ Hbc r)|].
      * by rewrite lookup_insert_eq.
    + intros i Hi. by rewrite lookup_insert_ne.
Qed.

(** ** Shrinking the pool *)

(** Records that only stopped waiting or were removed. *)
Definition shrinks (records records' : gmap OpId PendingRecord) : Prop :=
  ∀ i r', records' !! i = Some r' → ∃ r, records !! i = Some r ∧ pr_source r' = pr_source r ∧
    pr_topic_id r' = pr_topic_id r ∧ pr_charge r' = pr_charge r ∧ pr_missing r' ⊆ pr_missing r.

Lemma usage_sum_shrinks records records' ops bytes :
  shrinks records records' → within (usage_sum records) ops bytes →
  within (usage_sum records') ops bytes.
Proof.
  intros Hsh [Hops Hbytes].
  assert (pu_ops (usage_sum records') ≤ pu_ops (usage_sum records) ∧
    pu_bytes (usage_sum records') ≤ pu_bytes (usage_sum records)) as [H1 H2].
  { clear Hops Hbytes. revert records Hsh.
    induction records' as [|i r' m' Hi IH] using map_ind; intros records Hsh.
    { rewrite (proj2 (usage_sum_zero ∅) eq_refl). simpl. lia. }
    destruct (Hsh i r') as (r & Hr & _ & _ & Hch & _); [by rewrite lookup_insert_eq|].
    rewrite usage_sum_insert // (usage_sum_delete records i r) // Hch.
    destruct (IH (delete i records)) as [H1 H2].
    { intros j r1 Hj. destruct (decide (j = i)) as [->|Hne]; [congruence|].
      rewrite lookup_delete_ne //. apply Hsh. by rewrite lookup_insert_ne. }
    unfold charged. simpl. lia. }
  split; lia.
Qed.

Lemma counts_shrinks {K} `{Countable K} (m m' : gmap K PendingUsage) f records records' ops bytes :
  (∀ i r r', records !! i = Some r → records' !! i = Some r' → f r' = f r) →
  counts m f records → counts m' f records' → shrinks records records' →
  (∀ k, within (usage_of m k) ops bytes) → ∀ k, within (usage_of m' k) ops bytes.
Proof.
  intros Hf Hm Hm' Hsh Hw k. specialize (Hw k). rewrite (proj1 (Hm k)) in Hw. rewrite (proj1 (Hm' k)).
  eapply usage_sum_shrinks; [|done].
  intros i r' [Hi Hk]%map_lookup_filter_Some. destruct (Hsh i r' Hi) as (r & Hr & Hrest).
  exists r. split; [|done]. apply map_lookup_filter_Some. split; [done|].
  simpl in *. by rewrite -(Hf i r r').
Qed.

Lemma bounded_shrinks (p p' : Pool) :
  pool_ok p → pool_ok p' → shrinks (p_records p) (p_records p') → pool_bounded p → pool_bounded p'.
Proof.
  intros Hp Hp' Hsh [Htot Hsrc Htop Hw Hm]. split.
  - rewrite (po_usage _ Hp'). rewrite (po_usage _ Hp) in Htot. by eapply usage_sum_shrinks.
  - eapply counts_shrinks; [|apply (po_source _ Hp)|apply (po_source _ Hp')|done|done].
    intros i r r' Hr Hr'. destruct (Hsh i r' Hr') as (r1 & Hr1 & Hs & _). by simplify_eq.
  - eapply counts_shrinks; [|apply (po_topic _ Hp)|apply (po_topic _ Hp')|done|done].
    intros i r r' Hr Hr'. destruct (Hsh i r' Hr') as (r1 & Hr1 & _ & Ht & _). by simplify_eq.
  - intros d. etrans; [|apply (Hw d)]. apply subseteq_size. intros i.
    rewrite (proj1 (po_waiters _ Hp)) (proj1 (po_waiters _ Hp')).
    intros (r' & Hr' & Hd). destruct (Hsh i r' Hr') as (r & Hr & _ & _ & _ & Hsub).
    exists r. split; [done|]. by apply Hsub.
  - intros i r' Hr'. destruct (Hsh i r' Hr') as (r & Hr & _ & _ & _ & Hsub).
    etrans; [by apply subseteq_size|by apply (Hm i)].
Qed.

(** Dropping records keeps the store consistent. *)
Lemma drop_records_ok inner (p' : Pool) :
  store_ok inner → pool_ok p' → p_records p' ⊆ p_records (s_pool inner) →
  store_ok (set_pool inner p').
Proof.
  intros [Hlog Hpool Hbuf Hdeps Hheads Hclock Htops Hrej Hrids] Hp' Hsub.
  split; cbn [set_pool s_log s_pool s_heads s_topics s_rejected]; try done.
  - intros i r Hi. apply (Hbuf i r). by eapply lookup_weaken.
  - intros i r rj Hi. apply (Hrej i r rj). by eapply lookup_weaken.
Qed.

Lemma subset_shrinks (m m' : gmap OpId PendingRecord) : m' ⊆ m → shrinks m m'.
Proof. intros Hsub i r Hi. exists r. by split; [eapply lookup_weaken|]. Qed.

(** ** Rejection *)

Lemma mark_all (l : list OpId) rj :
  NoDup l → NoDup (rj_order rj) → rj_ids rj = list_to_set (rj_order rj) →
  let rj' := foldl mark_rejected rj l in
  NoDup (rj_order rj') ∧ rj_ids rj' = list_to_set (rj_order rj') ∧
  ∃ added, rj_order rj' = rj_order rj ++ added ∧ (length added ≤ length l)%nat ∧
    ∀ i, i ∈ added ↔ i ∈ l ∧ i ∉ rj_ids rj.
Proof.
  revert rj. induction l as [|x l IH]; intros rj Hl Hnd Hids; cbn [foldl].
  { split_and!; [done..|]. exists []. rewrite app_nil_r. split_and!; [done..|].
    intros i. rewrite elem_of_nil. tauto. }
  apply NoDup_cons in Hl as [Hx Hl].
  destruct (decide (x ∈ rj_ids rj)) as [Hin|Hin].
  - assert (mark_rejected rj x = rj) as -> by (unfold mark_rejected; by rewrite decide_True).
    destruct (IH rj Hl Hnd Hids) as (H1 & H2 & added & H3 & H4 & H5).
    split_and!; [done..|]. exists added. split_and!; [done|simpl; lia|].
    intros i. rewrite H5 elem_of_cons. naive_solver.
  - assert (mark_rejected rj x = {| rj_order := rj_order rj ++ [x]; rj_ids := {[x]} ∪ rj_ids rj |})
      as -> by (unfold mark_rejected; by rewrite decide_False).
    destruct (IH {| rj_order := rj_order rj ++ [x]; rj_ids := {[x]} ∪ rj_ids rj |})
      as (H1 & H2 & added & H3 & H4 & H5); [done|..]; cbn [rj_order rj_ids] in *.
    { apply NoDup_app. split_and!; [done| |by apply NoDup_singleton].
      intros y Hy ->%list_elem_of_singleton. apply Hin. rewrite Hids. by apply elem_of_list_to_set. }
    { rewrite Hids list_to_set_app_L. simpl. set_solver. }
    split_and!; [done..|]. exists (x :: added). rewrite -app_assoc in H3.
    split_and!; [done|simpl; lia|]. intros i. rewrite !elem_of_cons H5. set_solver.
Qed.

Lemma forget_oldest_drop n rj :
  (length (rj_order rj) - MAX_REJECTED_PER_TOPIC ≤ n)%nat →
  NoDup (rj_order rj) → rj_ids rj = list_to_set (rj_order rj) →
  let rj' := forget_oldest n rj in
  rejected_ok rj' ∧
  rj_order rj' = drop (length (rj_order rj) - MAX_REJECTED_PER_TOPIC) (rj_order rj).
Proof.
  revert rj. induction n as [|n IH]; intros rj Hn Hnd Hids; cbn [forget_oldest].
  { replace (length (rj_order rj) - MAX_REJECTED_PER_TOPIC)%nat with O by lia.
    rewrite drop_0. split; [|done]. split_and!; [done..|lia]. }
  destruct (rj_order rj) as [|x order] eqn:Ho.
  { split; [|by rewrite Ho drop_nil]. split_and!; rewrite ?Ho //. simpl. lia. }
  case_decide as Hlen.
  - apply NoDup_cons in Hnd as [Hx Hnd].
    destruct (IH {| rj_order := order; rj_ids := rj_ids rj ∖ {[x]} |}) as [Hok Hdrop];
      cbn [rj_order rj_ids] in *; [cbn [length] in Hn, Hlen; lia|done| |].
    { rewrite Hids. simpl. apply set_eq. intros y.
      rewrite elem_of_difference elem_of_union elem_of_singleton elem_of_list_to_set.
      split; [tauto|]. intros Hy. split; [by right|]. by intros ->. }
    split; [done|]. rewrite Hdrop. cbn [length] in Hlen |- *.
    by replace (S (length order) - MAX_REJECTED_PER_TOPIC)%nat
      with (S (length order - MAX_REJECTED_PER_TOPIC)) by lia.
  - replace (length (x :: order) - MAX_REJECTED_PER_TOPIC)%nat with O by lia.
    rewrite drop_0. split; [|done]. split_and!; rewrite ?Ho //. lia.
Qed.

(** What a rejection leaves of a topic's rejected ids. *)
Lemma reject_ids rj (l : list OpId) :
  NoDup l → rejected_ok rj →
  let marked := foldl mark_rejected rj l in
  let rj' := forget_oldest (length (rj_order marked)) marked in
  rejected_ok rj' ∧ (∀ i, i ∈ rj_ids rj' → i ∈ rj_ids rj ∨ i ∈ l) ∧
  ((length l ≤ MAX_REJECTED_PER_TOPIC)%nat → ∀ i, i ∈ l → i ∉ rj_ids rj → i ∈ rj_ids rj').
Proof.
  intros Hl (Hnd & Hids & Hlen) marked.
  destruct (mark_all l rj Hl Hnd Hids) as (Hnd' & Hids' & added & Hadd & Hlen' & Hin).
  fold marked in Hnd', Hids', Hadd.
  destruct (forget_oldest_drop (length (rj_order marked)) marked) as [Hok Hdrop]; [lia|done..|].
  cbv zeta. split; [done|]. destruct Hok as (_ & -> & _). rewrite Hdrop. split.
  - intros i Hk%elem_of_list_to_set.
    assert (i ∈ rj_order marked) as Hm.
    { rewrite -(take_drop (length (rj_order marked) - MAX_REJECTED_PER_TOPIC) (rj_order marked)).
      apply elem_of_app. by right. }
    rewrite Hadd in Hm. apply elem_of_app in Hm as [Hm|Hm%Hin]; [|tauto]. left. rewrite Hids. by apply elem_of_list_to_set.
  - intros Hmax i Hi Hni. apply elem_of_list_to_set. rewrite Hadd length_app.
    rewrite drop_app_le; [lia|]. apply elem_of_app. right. by apply Hin.
Qed.

Lemma reject_pending_spec inner i inner' n :
  store_ok inner → pool_bounded (s_pool inner) →
  reject_pending_subtree inner i = Ok (inner', n) →
  store_ok inner' ∧ pool_bounded (s_pool inner') ∧
  match p_records (s_pool inner) !! i with
  | None => inner' = inner ∧ n = 0%nat
  | Some record =>
      let records := p_records (s_pool inner) in
      (∀ j r, p_records (s_pool inner') !! j = Some r ↔
        records !! j = Some r ∧ j ≠ i ∧ ¬ blocked_by records i j) ∧
      (size (p_records (s_pool inner')) + n = size records)%nat ∧
      ∃ rj, s_rejected inner' !! pr_topic_id record = Some rj ∧ rejected_ok rj ∧
        ∀ j r, records !! j = Some r → pr_topic_id r = pr_topic_id record →
          j = i ∨ blocked_by records i j → j ∈ rj_ids rj
  end.
Proof.
  intros Hok Hb. unfold reject_pending_subtree.
  destruct (p_records (s_pool inner) !! i) as [record|] eqn:Hi; [|by intros [= <- <-]].
  set (t := pr_topic_id record). set (records := p_records (s_pool inner)) in *.
  intros (u1 & _ & (u2 & _ & (p' & Hrm & Hret)%bind_ok)%bind_ok)%bind_ok.
  assert (∀ j, j ∈ {[i]} ∪ waiter_closure_locked (s_pool inner) i ↔ j = i ∨ blocked_by records i j)
    as Hsub.
  { intros j. rewrite elem_of_union elem_of_singleton waiter_closure_spec; [by apply so_pool|].
    destruct (decide (j = i)); tauto. }
  set (subtree := {[i]} ∪ waiter_closure_locked (s_pool inner) i) in *.
  destruct (remove_all_ok (s_pool inner) (bt_elements subtree) (so_pool _ Hok)) as (p1 & Hp1 & Hok1 & Hrec).
  rewrite Hp1 in Hrm. injection Hrm as ->. fold records in Hrec.
  assert (subtree ⊆ dom records) as Hdom.
  { intros j [->|Hj]%Hsub; [by apply elem_of_dom|by apply (blocked_in_records _ i)]. }
  assert (size subtree ≤ MAX_REJECTED_PER_TOPIC)%nat as Hsize.
  { etrans; [by apply subseteq_size|]. rewrite size_dom. pose proof (pb_total _ Hb) as [Hops _].
    rewrite (po_usage _ (so_pool _ Hok)) usage_sum_ops in Hops. fold records in Hops.
    unfold MAX_PENDING_OPS_TOTAL in Hops. unfold MAX_REJECTED_PER_TOPIC. lia. }
  assert (rejected_ok (default rejected_default (s_rejected inner !! t))) as Hrj0.
  { destruct (s_rejected inner !! t) as [rj|] eqn:Hrj; [by apply (so_rejected_ids _ Hok t)|].
    simpl. split_and!; [constructor|done|simpl; unfold MAX_REJECTED_PER_TOPIC; lia]. }
  destruct (reject_ids _ (bt_elements subtree) (bt_elements_NoDup _) Hrj0) as (Hrj & Hfrom & Hkept).
  rewrite bt_elements_length in Hkept. specialize (Hkept Hsize).
  set (rj := forget_oldest _ _) in *. injection Hret as <- <-.
  assert (p_records p' ⊆ records) as Hsubset by (rewrite Hrec; apply map_filter_subseteq).
  assert (∀ j r, p_records p' !! j = Some r ↔ records !! j = Some r ∧ j ∉ subtree) as Hrec'.
  { intros j r. rewrite Hrec map_lookup_filter_Some /= elem_of_bt_elements. done. }
  pose proof (drop_records_ok inner p' Hok Hok1 Hsubset) as [Hlog Hpool Hbuf Hdeps Hheads Hclock Htops Hrej Hrids].
  split; [split|split; [|split; [|split]]];
    cbn [set_rejected set_pool s_log s_pool s_heads s_topics s_rejected] in *; try done.
  - intros j r rj' Hj. pose proof Hj as [_ Hns]%Hrec'.
    intros [[Ht <-]|[_ Hrj']]%lookup_insert_Some; [|by apply (Hrej j r)].
    assert (∀ d, d = j ∨ d ∈ pr_missing r → d ∉ subtree) as Hnsub.
    { intros d [->|Hd]; [done|]. intros Hds. apply Hns, Hsub. right.
      assert (waits records j d) as Hw by (exists r; split; [by apply (Hrec' j r)|done]).
      apply Hsub in Hds as [->|Hds]; [by apply blocked_here|by eapply blocked_through]. }
    assert (∀ d, d = j ∨ d ∈ pr_missing r → d ∉ rj_ids (default rejected_default (s_rejected inner !! t)))
      as Hold.
    { intros d Hd. destruct (s_rejected inner !! t) as [rj0|] eqn:Hrj0'; [|by apply not_elem_of_empty].
      rewrite Ht in Hrj0'. destruct (Hrej j r rj0 Hj Hrj0') as [H1 H2].
      destruct Hd as [->|Hd]; [done|by apply H2]. }
    assert (∀ d, d = j ∨ d ∈ pr_missing r → d ∉ rj_ids rj) as Hnew.
    { intros d Hd [Hin|Hin%elem_of_bt_elements]%Hfrom; [by apply (Hold d)|by apply (Hnsub d)]. }
    split; [apply Hnew; by left|]. intros d Hd. apply Hnew. by right.
  - intros t' rj' [[<- <-]|[_ Hrj']]%lookup_insert_Some; [done|by apply (Hrids t')].
  - eapply bounded_shrinks; [apply (so_pool _ Hok)|done|by apply subset_shrinks|done].
  - intros j r. rewrite Hrec' Hsub. tauto.
  - assert (dom records = dom (p_records p') ∪ subtree) as Hd.
    { apply set_eq. intros j. rewrite elem_of_union !elem_of_dom. unfold is_Some. setoid_rewrite Hrec'.
      split; [|intros [(r & Hr & _)|Hj]; [by exists r|by apply elem_of_dom, Hdom]].
      intros [r Hr]. destruct (decide (j ∈ subtree)); [by right|]. left. by exists r. }
    rewrite -!(size_dom (D := gset OpId)) Hd size_union // => j.
    intros [r [_ Hn]%Hrec']%elem_of_dom. done.
  - exists rj. split; [by rewrite lookup_insert_eq|]. split; [done|]. intros j r Hj Ht Hsubj.
    apply Hkept; [by apply elem_of_bt_elements, Hsub|].
    destruct (s_rejected inner !! t) as [rj0|] eqn:Hrj0'; [|by apply not_elem_of_empty].
    simpl. assert (s_rejected inner !! pr_topic_id r = Some rj0) as Hrjr by (rewrite Ht; done).
    exact (proj1 (so_rejected _ Hok j r rj0 Hj Hrjr)).
Qed.

(** Rejecting a buffered operation keeps the store consistent, removes
    exactly it and the operations that wait for it, directly or through others, and
    counts them; while the pool is within its quotas all of them are remembered as
    rejected, so that none of them is buffered again, and the memory of a topic stays
    bounded. An operation that is not buffered changes nothing. *)
Theorem reject_pending_consistent inner i inner' n :
  store_ok inner → pool_bounded (s_pool inner) →
  reject_pending_subtree inner i = Ok (inner', n) →
  store_ok inner' ∧ pool_bounded (s_pool inner') ∧
  match p_records (s_pool inner) !! i with
  | None => inner' = inner ∧ n = 0%nat
  | Some record =>
      let records := p_records (s_pool inner) in
      (∀ j r, p_records (s_pool inner') !! j = Some r ↔
        records !! j = Some r ∧ j ≠ i ∧ ¬ blocked_by records i j) ∧
      (size (p_records (s_pool inner')) + n = size records)%nat ∧
      ∃ rj, s_rejected inner' !! pr_topic_id record = Some rj ∧ rejected_ok rj ∧
        ∀ j r, records !! j = Some r → pr_topic_id r = pr_topic_id record →
          j = i ∨ blocked_by records i j → j ∈ rj_ids rj
  end.
Proof. apply reject_pending_spec. Qed.
End ops.
