(* ===== verification/StoreReset.v ===== *)
(** * Reset of a topic in the memory store

    [reset_topic_locked] removes a topic from every part of the store and leaves the
    others as they were; [reset_topic_and_admit] replaces a branch in one step. *)

From S2P Require Import Prelude Ids Frame ClockSpec Types Evidence Records Pool Store StoreLog.
From S2P Require Import StoreAdmit.

#[local] Open Scope N_scope.

(** A lookup under a key the filter keeps. *)
Lemma map_lookup_filter_keep {K A} `{Countable K} (P : K * A → Prop) `{∀ e, Decision (P e)}
    (m : gmap K A) k :
  (∀ x, P (k, x)) → filter P m !! k = m !! k.
Proof.
  intros Hk. destruct (m !! k) as [x|] eqn:Hx.
  - by apply map_lookup_filter_Some.
  - apply map_lookup_filter_None. by left.
Qed.

Lemma map_lookup_filter_drop {K A} `{Countable K} (P : K * A → Prop) `{∀ e, Decision (P e)}
    (m : gmap K A) k :
  (∀ x, ¬ P (k, x)) → filter P m !! k = None.
Proof. intros Hk. apply map_lookup_filter_None. right. by intros x _. Qed.

Section reset.
Context {C : Type} `{!ClockImpl C} `{!StoreEnv C} `{!Crypto}.
Implicit Types (log : Log C) (meta : OpMeta C) (inner : MemoryInner C) (batch : AdmittedBatch C).

Abbreviation metas inner := (l_meta (s_log inner)).

(** ** The loop over the operations *)

Lemma delete_indexes {K} `{Countable K} (m : gmap K (gset OpId)) R k :
  indexes m R → indexes (delete k m) (λ x l, R x l ∧ l ≠ k).
Proof.
  intros [Hin Hne]. split; intros l.
  - intros x. destruct (decide (l = k)) as [->|Hl].
    + rewrite lookup_delete_eq. split; [by intros ?%elem_of_empty|by intros [_ []]].
    + rewrite lookup_delete_ne // Hin. naive_solver.
  - destruct (decide (l = k)) as [->|Hl]; [by rewrite lookup_delete_eq|by rewrite lookup_delete_ne].
Qed.

Definition edge (metas : gmap OpId (OpMeta C)) (c d : OpId) : Prop :=
  ∃ m, metas !! c = Some m ∧ d ∈ om_deps m.

Lemma edge_delete (metas : gmap OpId (OpMeta C)) i c d :
  edge (delete i metas) c d ↔ edge metas c d ∧ ¬ (c = i ∧ d ∈ from_option om_deps ∅ (metas !! i)).
Proof.
  unfold edge. setoid_rewrite lookup_delete_Some. split.
  - intros (m & [Hne Hm] & Hd). split; [by exists m|]. by intros [-> _].
  - intros [(m & Hm & Hd) Hn]. exists m. split; [|done]. split; [|done]. intros ->.
    apply Hn. by rewrite Hm.
Qed.

Lemma reset_ops_ok log bytes (l : list OpId) log' bytes' (P : OpId → Prop) :
  indexes (l_children log) (λ c d, edge (l_meta log) c d ∧ P d) →
  reset_ops log bytes l = ((log', bytes'), Ok ()) →
  l_ops log' = filter (λ e, e.1 ∉ l) (l_ops log) ∧ l_meta log' = filter (λ e, e.1 ∉ l) (l_meta log) ∧
  l_topic_ops log' = l_topic_ops log ∧ l_actor_by_seq log' = l_actor_by_seq log ∧
  l_actor_tip log' = l_actor_tip log ∧ l_max_generation log' = l_max_generation log ∧
  indexes (l_children log') (λ c d, edge (l_meta log') c d ∧ P d ∧ d ∉ l).
Proof.
  revert log bytes P. induction l as [|i l IH]; intros log bytes P Hch.
  { intros [= <- <-]. split_and!; try done; [symmetry; apply map_filter_id..|].
    1, 2: intros j x _; apply not_elem_of_nil.
    eapply indexes_iff; [done|]. intros c d. rewrite elem_of_nil. tauto. }
  cbn [reset_ops]. destruct (match l_ops log !! i with Some _ => _ | None => _ end); [|done].
  intros Hr. apply (IH _ _ (λ d, P d ∧ d ≠ i)) in Hr as (Ho & Hm & Ht & Hs & Htip & Hg & Hc).
  - cbn [l_ops l_meta l_topic_ops l_actor_by_seq l_actor_tip l_max_generation] in *.
    assert (∀ A (m : gmap OpId A), filter (λ e, e.1 ∉ l) (delete i m) = filter (λ e, e.1 ∉ i :: l) m)
      as Hfilter.
    { intros A m. apply map_eq. intros j. apply option_eq. intros x.
      rewrite !map_lookup_filter_Some lookup_delete_Some /= not_elem_of_cons. clear.
      split; [intros [[Hj Hx] Hl]|intros [Hx [Hj Hl]]]; by split_and!. }
    rewrite Ho Hm !Hfilter. rewrite Hm Hfilter in Hc. split_and!; try done.
    eapply indexes_iff; [done|]. intros c d. rewrite not_elem_of_cons. tauto.
  - cbn [l_meta l_children]. eapply indexes_iff; [apply delete_indexes, unwait_all, Hch|].
    intros c d. cbv beta. rewrite edge_delete. tauto.
Qed.

(** Without staged bytes to refund the loop does not fail. *)
Lemma reset_ops_unstaged log (l : list OpId) : (reset_ops log 0 l).2 = Ok ().
Proof.
  revert log. induction l as [|i l IH]; intros log; [done|]. cbn [reset_ops].
  by destruct (l_ops log !! i); cbn [N.ltb N.compare]; rewrite IH.
Qed.

(** ** The log without a topic *)

(** The log that [reset_topic_locked] leaves. *)
Record log_without log (t : TopicId) log' : Prop := {
  lw_ops : l_ops log' = filter (λ e, e.1 ∉ default ∅ (l_topic_ops log !! t)) (l_ops log);
  lw_meta : l_meta log' = filter (λ e, e.1 ∉ default ∅ (l_topic_ops log !! t)) (l_meta log);
  lw_topic : l_topic_ops log' = delete t (l_topic_ops log);
  lw_seq : l_actor_by_seq log' = filter (λ e, e.1.1.1 ≠ t) (l_actor_by_seq log);
  lw_tip : l_actor_tip log' = filter (λ e, e.1.1 ≠ t) (l_actor_tip log);
  lw_generation : l_max_generation log' = delete t (l_max_generation log);
  lw_children : indexes (l_children log')
    (λ c d, edge (l_meta log') c d ∧ d ∉ default ∅ (l_topic_ops log !! t));
}.

Lemma without_meta log t log' i m :
  log_ok log → log_without log t log' →
  l_meta log' !! i = Some m ↔ l_meta log !! i = Some m ∧ om_topic_id m ≠ t.
Proof.
  intros Hok Hw. rewrite (lw_meta _ _ _ Hw) map_lookup_filter_Some /= (proj1 (lo_topic _ Hok)).
  split; intros [Hm Hn]; (split; [done|]).
  - intros Ht. apply Hn. by exists m.
  - intros (m' & Hm' & Ht). apply Hn. by simplify_eq.
Qed.

Lemma without_position log t log' t' a s i :
  log_ok log → log_without log t log' →
  at_position (l_meta log') t' a s i ↔ at_position (l_meta log) t' a s i ∧ t' ≠ t.
Proof.
  intros Hok Hw. unfold at_position.
  setoid_rewrite (λ m, without_meta log t log' i m Hok Hw). naive_solver.
Qed.

Lemma without_ok log t log' :
  log_ok log →
  (∀ i m d, l_meta log !! i = Some m → d ∈ om_deps m →
    ∃ md, l_meta log !! d = Some md ∧ om_topic_id md = om_topic_id m) →
  log_without log t log' → log_ok log'.
Proof.
  intros Hok Hdeps Hw. pose proof (λ i m, without_meta log t log' i m Hok Hw) as Hmeta.
  pose proof (lw_seq _ _ _ Hw) as Hseq'. pose proof (lw_tip _ _ _ Hw) as Htip'.
  assert (∀ t' a s, t' ≠ t → l_actor_by_seq log' !! (t', a, s) = l_actor_by_seq log !! (t', a, s)) as Hsame.
  { intros t' a s Ht. rewrite Hseq'. by apply map_lookup_filter_keep. }
  split.
  - rewrite (lw_ops _ _ _ Hw) (lw_meta _ _ _ Hw). apply set_eq. intros i.
    rewrite !elem_of_dom. unfold is_Some. setoid_rewrite map_lookup_filter_Some. simpl.
    pose proof (lo_dom _ Hok) as Hd. rewrite set_eq in Hd. specialize (Hd i).
    rewrite !elem_of_dom in Hd. unfold is_Some in Hd. naive_solver.
  - intros i o m. rewrite (lw_ops _ _ _ Hw). intros [Ho _]%map_lookup_filter_Some [Hm _]%Hmeta.
    by apply (lo_entry _ Hok).
  - rewrite (lw_topic _ _ _ Hw). eapply indexes_iff; [apply delete_indexes, (lo_topic _ Hok)|].
    intros i t'. cbv beta. setoid_rewrite Hmeta. naive_solver.
  - eapply indexes_iff; [apply (lw_children _ _ _ Hw)|]. intros c d. cbv beta. unfold edge.
    split; [tauto|]. intros (m & Hm & Hd). split; [by exists m|]. apply Hmeta in Hm as [Hm Ht].
    rewrite (proj1 (lo_topic _ Hok)). intros (md & Hmd & Hmt).
    destruct (Hdeps c m d Hm Hd) as (md' & Hmd' & Heq). by simplify_eq.
  - intros t' a s i. rewrite (without_position log t log') // -(lo_seq _ Hok) Hseq' map_lookup_filter_Some.
    done.
  - intros t' a. destruct (decide (t' = t)) as [->|Ht].
    + assert (l_actor_tip log' !! (t, a) = None) as ->.
      { rewrite Htip'. apply map_lookup_filter_drop; intros ? []; done. }
      intros s. rewrite Hseq'. apply map_lookup_filter_drop; intros ? []; done.
    + assert (l_actor_tip log' !! (t', a) = l_actor_tip log !! (t', a)) as ->.
      { rewrite Htip'. by apply map_lookup_filter_keep. }
      pose proof (lo_tip _ Hok t' a) as Htip. destruct (l_actor_tip log !! _) as [[s i]|].
      * destruct Htip as [H1 H2]. split; [by rewrite Hsame|]. intros s'. by rewrite Hsame.
      * intros s'. by rewrite Hsame.
  - intros i m [Hm Ht]%Hmeta. rewrite Hsame //. by apply (lo_prev _ Hok i).
  - intros i m [Hm Ht]%Hmeta. rewrite (lw_generation _ _ _ Hw) lookup_delete_ne //.
    by apply (lo_generation _ Hok i).
  - intros t' g. rewrite (lw_generation _ _ _ Hw). intros [Hne Hg]%lookup_delete_Some.
    destruct (lo_generation_tight _ Hok t' g Hg) as (i & m & Hm & Ht & Hgm). exists i, m.
    split; [|done]. apply Hmeta. split; [done|congruence].
Qed.

(** ** The reset *)

(** Everything a store holds of a topic. *)
Record topic_gone inner (t : TopicId) : Prop := {
  tg_ops : ∀ i m, metas inner !! i = Some m → om_topic_id m ≠ t;
  tg_pending : ∀ i r, p_records (s_pool inner) !! i = Some r → pr_topic_id r ≠ t;
  tg_heads : s_heads inner !! t = None;
  tg_clock : s_actor_clock inner !! t = None;
  tg_state : s_topics inner !! t = None;
  tg_rejected : s_rejected inner !! t = None;
  tg_acks : ∀ p, s_peer_acks inner !! (p, t) = None;
  tg_obligations : ∀ p, s_obligations inner !! (t, p) = None;
  tg_statuses : ∀ p, s_sync_statuses inner !! (t, p) = None;
}.

(** Two stores agree on a topic. *)
Record topic_same inner inner' (t : TopicId) : Prop := {
  tm_ops : ∀ i m, om_topic_id m = t → metas inner' !! i = Some m ↔ metas inner !! i = Some m;
  tm_pending : ∀ i r, pr_topic_id r = t →
    p_records (s_pool inner') !! i = Some r ↔ p_records (s_pool inner) !! i = Some r;
  tm_heads : s_heads inner' !! t = s_heads inner !! t;
  tm_clock : s_actor_clock inner' !! t = s_actor_clock inner !! t;
  tm_state : s_topics inner' !! t = s_topics inner !! t;
  tm_rejected : s_rejected inner' !! t = s_rejected inner !! t;
  tm_acks : ∀ p, s_peer_acks inner' !! (p, t) = s_peer_acks inner !! (p, t);
  tm_obligations : ∀ p, s_obligations inner' !! (t, p) = s_obligations inner !! (t, p);
  tm_statuses : ∀ p, s_sync_statuses inner' !! (t, p) = s_sync_statuses inner !! (t, p);
}.

(** What a reset that reports success wrote. *)
Lemma reset_shape inner t inner' n :
  store_ok inner → reset_topic_locked inner t = (inner', Ok n) →
  n = size (default ∅ (l_topic_ops (s_log inner) !! t)) ∧
  log_without (s_log inner) t (s_log inner') ∧ pool_ok (s_pool inner') ∧
  p_records (s_pool inner') = filter (λ e, pr_topic_id e.2 ≠ t) (p_records (s_pool inner)) ∧
  s_heads inner' = delete t (s_heads inner) ∧ s_actor_clock inner' = delete t (s_actor_clock inner) ∧
  s_topics inner' = delete t (s_topics inner) ∧ s_rejected inner' = delete t (s_rejected inner) ∧
  s_peer_acks inner' = filter (λ e, e.1.2 ≠ t) (s_peer_acks inner) ∧
  s_obligations inner' = filter (λ e, e.1.1 ≠ t) (s_obligations inner) ∧
  s_sync_statuses inner' = filter (λ e, e.1.1 ≠ t) (s_sync_statuses inner) ∧
  s_evictions inner' = s_evictions inner ∧ s_sealed_topics inner' = s_sealed_topics inner ∧
  s_topic_epochs inner' = <[t := default 0 (s_topic_epochs inner !! t) + 1]> (s_topic_epochs inner).
Proof.
  intros Hok. unfold reset_topic_locked. destruct (mem (TopicRecord t)); [|done].
  set (log0 := MkLog _ _ (delete t _) _ _ _ _).
  destruct (reset_ops log0 _ _) as [[log' bytes'] [[]|e]] eqn:Hreset; [|done].
  destruct (remove_all_ok (s_pool inner) (bt_elements (default ∅ (p_by_topic (s_pool inner) !! t)))
    (so_pool _ Hok)) as (pool & -> & Hpool & Hrec).
  intros [= <- <-]. cbn [s_log s_pool s_heads s_actor_clock s_topics s_rejected s_peer_acks
    s_obligations s_sync_statuses s_evictions s_sealed_topics s_topic_epochs].
  apply (reset_ops_ok _ _ _ _ _ (λ _, True)) in Hreset as (Ho & Hm & Ht & Hs & Htip & Hg & Hc).
  - assert (∀ A (m : gmap OpId A) (X : gset OpId),
      filter (λ e, e.1 ∉ bt_elements X) m = filter (λ e, e.1 ∉ X) m) as Helems.
    { intros A m X. apply map_filter_ext. intros i x _. simpl. by rewrite elem_of_bt_elements. }
    rewrite Helems in Ho. rewrite Helems in Hm.
    split; [done|]. split; [|split; [done|]].
    + split; cbn [l_ops l_meta l_topic_ops l_actor_by_seq l_actor_tip l_max_generation l_children];
        rewrite ?Hs ?Htip ?Hg //.
      eapply indexes_iff; [exact Hc|]. intros c d. cbv beta. rewrite elem_of_bt_elements. tauto.
    + split_and!; try done. rewrite Hrec. apply map_filter_ext. intros i r Hi. simpl.
      rewrite elem_of_bt_elements (proj1 (po_by_topic _ (so_pool _ Hok))). split; [|by intros Hn (r' & Hr' & Ht'); simplify_eq].
      intros Hn Htr. apply Hn. by exists r.
  - cbn [log0 l_children l_meta]. eapply indexes_iff; [apply (lo_children _ (so_log _ Hok))|].
    intros c d. unfold edge. tauto.
Qed.

Lemma reset_ok inner t inner' n :
  store_ok inner → reset_topic_locked inner t = (inner', Ok n) →
  store_ok inner' ∧ topic_gone inner' t ∧ ∀ t', t' ≠ t → topic_same inner inner' t'.
Proof.
  intros Hok Hreset.
  destruct (reset_shape _ _ _ _ Hok Hreset) as (_ & Hw & Hpool & Hrec & Hh & Hc & Hts & Hrj & Ha & Hob & Hst & _).
  pose proof (λ i m, without_meta _ _ _ i m (so_log _ Hok) Hw) as Hmeta.
  assert (∀ i r, p_records (s_pool inner') !! i = Some r ↔
    p_records (s_pool inner) !! i = Some r ∧ pr_topic_id r ≠ t) as Hrec'
    by (intros i r; by rewrite Hrec map_lookup_filter_Some).
  assert (∀ d, metas inner !! d = None → metas inner' !! d = None) as Hnone.
  { intros d Hd. apply eq_None_not_Some. intros [m [Hm _]%Hmeta]. congruence. }
  split; [|split; [split|]].
  - destruct Hok as [Hlog Hp Hbuf Hdeps Hheads Hclock Htops Hrej Hrids]. split.
    + by apply (without_ok (s_log inner) t).
    + done.
    + intros i r [Hi _]%Hrec'. destruct (Hbuf i r Hi) as [H1 H2]. split; [by apply Hnone|].
      intros d Hd. by apply Hnone, H2.
    + intros i m d [Hm Ht]%Hmeta Hd. destruct (Hdeps i m d Hm Hd) as (md & Hmd & Heq). exists md.
      split; [apply Hmeta; split; [done|congruence]|done].
    + intros t' i. rewrite Hh. destruct (decide (t' = t)) as [->|Ht].
      * rewrite lookup_delete_eq. split; [by intros ?%elem_of_empty|].
        by intros [(m & [_ Hne]%Hmeta & Ht) _].
      * rewrite lookup_delete_ne // Hheads. setoid_rewrite Hmeta. split.
        -- intros [(m & Hm & Hmt) Hn]. split; [exists m; split; [split; [done|congruence]|done]|].
           intros c mc [Hmc _]. by apply (Hn c).
        -- intros [(m & [Hm Hne] & Hmt) Hn]. split; [by exists m|]. intros c mc Hmc Hd.
           destruct (Hdeps c mc i Hmc Hd) as (mi & Hmi & Heq). simplify_eq.
           apply (Hn c mc); [|done]. split; [done|congruence].
    + intros t' a. unfold clock_of. rewrite Hc (lw_tip _ _ _ Hw).
      destruct (decide (t' = t)) as [->|Ht].
      * rewrite lookup_delete_eq /= ck_view_new lookup_empty. symmetry.
        apply fmap_None, map_lookup_filter_drop; intros ? []; done.
      * rewrite lookup_delete_ne //. rewrite -/(clock_of inner t') Hclock. f_equal. symmetry.
        by apply map_lookup_filter_keep.
    + intros t' s. rewrite Hts. intros [_ Hs]%lookup_delete_Some. by apply Htops.
    + intros i r rj [Hi _]%Hrec'. rewrite Hrj. intros [_ Hr]%lookup_delete_Some. by apply (Hrej i r).
    + intros t' rj. rewrite Hrj. intros [_ Hr]%lookup_delete_Some. by apply (Hrids t').
  - intros i m Hm. by apply Hmeta in Hm as [_ ?].
  - intros i r Hr. by apply Hrec' in Hr as [_ ?].
  - by rewrite Hh lookup_delete_eq.
  - by rewrite Hc lookup_delete_eq.
  - by rewrite Hts lookup_delete_eq.
  - by rewrite Hrj lookup_delete_eq.
  - intros p. rewrite Ha. apply map_lookup_filter_drop; intros ? []; done.
  - intros p. rewrite Hob. apply map_lookup_filter_drop; intros ? []; done.
  - intros p. rewrite Hst. apply map_lookup_filter_drop; intros ? []; done.
  - intros t' Ht. split.
    + intros i m Hm. rewrite Hmeta. split; [by intros []|]. intros H1. split; [done|congruence].
    + intros i r Hr. rewrite Hrec'. split; [by intros []|]. intros H1. split; [done|congruence].
    + by rewrite Hh lookup_delete_ne.
    + by rewrite Hc lookup_delete_ne.
    + by rewrite Hts lookup_delete_ne.
    + by rewrite Hrj lookup_delete_ne.
    + intros p. rewrite Ha. by apply map_lookup_filter_keep.
    + intros p. rewrite Hob. by apply map_lookup_filter_keep.
    + intros p. rewrite Hst. by apply map_lookup_filter_keep.
Qed.

Lemma without_size log t log' :
  log_ok log → log_without log t log' →
  (size (l_meta log') + size (default ∅ (l_topic_ops log !! t)) = size (l_meta log))%nat.
Proof.
  intros Hok Hw. rewrite -!(size_dom (D := gset OpId)).
  assert (dom (l_meta log) = dom (l_meta log') ∪ default ∅ (l_topic_ops log !! t)) as ->.
  { apply set_eq. intros i. rewrite elem_of_union !elem_of_dom (proj1 (lo_topic _ Hok)). unfold is_Some.
    setoid_rewrite (λ m, without_meta log t log' i m Hok Hw). split; [|naive_solver].
    intros [m Hm]. destruct (decide (om_topic_id m = t)); [right|left]; by exists m. }
  rewrite size_union // => i. rewrite elem_of_dom (proj1 (lo_topic _ Hok)).
  intros [m [Hm Ht]%(without_meta log t log')] (m' & Hm' & Ht'); [|done..]. by simplify_eq.
Qed.

(** A reset that succeeds removes every trace of the topic, counts the
    operations it removed, leaves every other topic as it was, keeps the store
    consistent and starts a new epoch of the topic. Outside staging, where no bytes
    are refunded, a reset that fails changes nothing. *)
Theorem reset_topic_exact inner t inner' r :
  store_ok inner → reset_topic_locked inner t = (inner', r) →
  match r with
  | Ok n =>
      store_ok inner' ∧ topic_gone inner' t ∧ (∀ t', t' ≠ t → topic_same inner inner' t') ∧
      (size (metas inner') + n = size (metas inner))%nat ∧
      s_topic_epochs inner' !! t = Some (default 0 (s_topic_epochs inner !! t) + 1)
  | Err _ => s_admitted_bytes inner = 0 → inner' = inner
  end.
Proof.
  intros Hok Hreset. destruct r as [n|e].
  - destruct (reset_ok _ _ _ _ Hok Hreset) as (Hok' & Hgone & Hsame).
    destruct (reset_shape _ _ _ _ Hok Hreset) as (-> & Hw & Hrest).
    split; [done|]. split; [done|]. split; [done|]. split; [by apply without_size; [apply so_log|]|].
    destruct Hrest as (_ & _ & _ & _ & _ & _ & _ & _ & _ & _ & _ & ->). by rewrite lookup_insert_eq.
  - intros Hbytes. revert Hreset. unfold reset_topic_locked. rewrite Hbytes.
    destruct (mem (TopicRecord t)) as [u|e']; [|by intros [= <- _]].
    set (log0 := MkLog _ _ (delete t _) _ _ _ _).
    pose proof (reset_ops_unstaged log0 (bt_elements (default ∅ (l_topic_ops (s_log inner) !! t)))) as Hz.
    destruct (reset_ops _ _ _) as [[log' bytes'] w]. cbn [snd] in Hz. subst w.
    destruct (remove_all_ok (s_pool inner) (bt_elements (default ∅ (p_by_topic (s_pool inner) !! t)))
      (so_pool _ Hok)) as (pool & -> & _). done.
Qed.

Lemma reset_evictions inner t inner' n :
  reset_topic_locked inner t = (inner', Ok n) → s_evictions inner' = s_evictions inner.
Proof.
  unfold reset_topic_locked. destruct (mem _); [|done].
  destruct (reset_ops _ _ _) as [[log bytes] [u|e]]; [|done].
  destruct (try_fold _ _ _); [|done]. by intros [= <- _].
Qed.

(** A batch admitted into a store that holds nothing of its topic. *)
Lemma replaced_topic inner staged staged' batch u :
  store_ok staged → batch_wf staged batch → topic_gone staged (ab_topic_id batch) →
  (∀ t', t' ≠ ab_topic_id batch → topic_same inner staged t') →
  admit_batch_locked staged batch None = (staged', Ok u) →
  store_ok staged' ∧
  (∀ i m, om_topic_id m = ab_topic_id batch →
    metas staged' !! i = Some m ↔ ∃ o, (o, m) ∈ ab_entries batch ∧ op_id o = i) ∧
  default ∅ (s_heads staged' !! ab_topic_id batch) = ab_heads batch ∧
  (∀ t', t' ≠ ab_topic_id batch →
    (∀ i m, om_topic_id m = t' → metas staged' !! i = Some m ↔ metas inner !! i = Some m) ∧
    topic_state_locked staged' t' = topic_state_locked inner t') ∧
  s_evictions staged' = s_evictions staged.
Proof.
  intros Hok Hwf Hgone Hsame. unfold admit_batch_locked.
  destruct (admit_plan staged batch None) as [plan|e] eqn:Hplan; [|done].
  pose proof (admit_plan_ok _ _ _ _ Hok Hwf Hplan) as Hpl. intros Hadmit.
  pose proof (admit_write_evictions staged batch plan) as Hev. rewrite Hadmit in Hev.
  destruct (admit_write_ok _ _ _ _ _ Hok Hwf Hpl Hadmit) as (_ & Hok' & Hlog & Hheads & Htops & _).
  pose proof (λ i m, planned_meta staged batch plan i m Hwf Hpl) as Hmetas. rewrite -Hlog in Hmetas.
  pose proof (fresh_topic staged batch (pl_entries _ _ _ Hpl)) as Htop. rewrite -(pl_new _ _ _ Hpl) in Htop.
  split; [done|]. split; [|split; [by rewrite Hheads lookup_insert_eq|split; [|done]]].
  - intros i m Hm. rewrite Hmetas (pl_new _ _ _ Hpl). setoid_rewrite list_elem_of_filter. split.
    + intros [Hi|(o & [_ Ho] & Hid)]; [by destruct (tg_ops _ _ Hgone i m Hi)|by exists o].
    + intros (o & Ho & <-). right. exists o. split; [split; [|done]|done]. simpl.
      destruct (metas staged !! op_id o) as [m'|] eqn:Hm'; [|done]. exfalso.
      apply (tg_ops _ _ Hgone _ _ Hm').
      assert (l_ops (s_log staged) !! op_id o = Some o) as Hop
        by (apply (pl_stored _ _ _ Hpl (o, m)); [done|by eexists]).
      destruct (lo_entry _ (so_log _ Hok) _ _ _ Hop Hm') as (_ & _ & -> & _).
      by destruct (pl_entries _ _ _ Hpl (o, m) Ho) as [? _].
  - intros t' Ht. split.
    + intros i m Hm. rewrite Hmetas (tm_ops _ _ _ (Hsame _ Ht) i m Hm). split; [|by left].
      intros [Hi|(o & Ho & _)]; [done|]. specialize (Htop _ Ho). simpl in Htop. congruence.
    + unfold topic_state_locked. rewrite Hheads Htops lookup_insert_ne //.
      rewrite (tm_heads _ _ _ (Hsame _ Ht)) -(tm_state _ _ _ (Hsame _ Ht)).
      destruct (ab_topic_state batch); [|done]. by rewrite lookup_insert_ne.
Qed.

(** Replacing a branch is atomic. It fails without any change, or the
    topic was unsealed and in the expected state, its operations are afterwards
    exactly those of the batch, with the batch's frontier, and the operations,
    frontiers and states of all other topics are what they were. An eviction that
    names operations is journalled, and the journal stays bounded. *)
Theorem reset_and_admit_atomic inner expected batch eviction inner' r :
  store_ok inner → batch_wf inner batch →
  reset_topic_and_admit inner (ab_topic_id batch) expected batch eviction = (inner', r) →
  match r with
  | Err _ => inner' = inner
  | Ok _ =>
      store_ok inner' ∧ ab_topic_id batch ∉ s_sealed_topics inner ∧
      topic_state_locked inner (ab_topic_id batch) = Some expected ∧
      (∀ i m, om_topic_id m = ab_topic_id batch →
        metas inner' !! i = Some m ↔ ∃ o, (o, m) ∈ ab_entries batch ∧ op_id o = i) ∧
      default ∅ (s_heads inner' !! ab_topic_id batch) = ab_heads batch ∧
      (∀ t', t' ≠ ab_topic_id batch →
        (∀ i m, om_topic_id m = t' → metas inner' !! i = Some m ↔ metas inner !! i = Some m) ∧
        topic_state_locked inner' t' = topic_state_locked inner t') ∧
      match journalled_eviction eviction with
      | Some (key, e) => s_evictions inner' = <[key := e]> (s_evictions inner) ∧
          (size (s_evictions inner') ≤ max MAX_PENDING_EVICTIONS (size (s_evictions inner)))%nat
      | None => s_evictions inner' = s_evictions inner
      end
  end.
Proof.
  intros Hok Hwf. unfold reset_topic_and_admit. set (t := ab_topic_id batch).
  case_bool_decide as Hsealed; [by intros [= <- <-]|].
  case_bool_decide as Hstate; [|by intros [= <- <-]]. cbn [negb].
  destruct (mem CopyOfStore) as [u|e]; [|by intros [= <- <-]]. res_step.
  destruct (reset_topic_locked inner t) as [staged [n|e]] eqn:Hreset; [|by intros [= <- <-]].
  res_step.
  destruct (admit_batch_locked staged batch None) as [staged' [u'|e]] eqn:Hadmit;
    [|by intros [= <- <-]]. res_step.
  destruct (reset_ok _ _ _ _ Hok Hreset) as (Hok1 & Hgone & Hsame).
  assert (batch_wf staged batch) as Hwf1.
  { split; [apply (bw_ids _ _ Hwf)|]. intros e d md He Hd Hmd. apply (bw_deps _ _ Hwf e d md He Hd).
    destruct (decide (om_topic_id md = t)) as [Ht|Ht]; [by destruct (tg_ops _ _ Hgone d md Hmd)|].
    by apply (tm_ops _ _ _ (Hsame _ Ht)). }
  destruct (replaced_topic inner staged staged' batch u' Hok1 Hwf1 Hgone Hsame Hadmit)
    as (Hok2 & Hops & Hheads & Hothers & Hev).
  rewrite (reset_evictions _ _ _ _ Hreset) in Hev.
  destruct (journalled_eviction eviction) as [[key e]|].
  - rewrite Hev. case_bool_decide as Hkey; case_bool_decide as Hfull; cbn [andb];
      try (by intros [= <- <-]);
      (destruct (mem PlanNodes); [|by intros [= <- <-]]); res_step;
      (destruct (mem (EvictionRecord e)); [|by intros [= <- <-]]); res_step;
      intros [= <- <-]; (split; [by eapply store_ok_frame, Hok2|]);
      split_and!; try done; cbn [set_evictions s_evictions].
    + rewrite map_size_insert_None //. lia.
    + rewrite map_size_insert_Some; [by apply not_eq_None_Some|]. lia.
    + rewrite map_size_insert_Some; [by apply not_eq_None_Some|]. lia.
  - intros [= <- <-]. by split_and!.
Qed.
End reset.
