(* ===== verification/StoreEvidence.v ===== *)
(** * Acknowledgements and obligations in the memory store

    The records a store keeps of what peers hold and are owed: how an
    acknowledgement settles them and how obligations are recorded and dropped. *)

From S2P Require Import Prelude Ids Frame ClockSpec Types Evidence Records Pool Store StoreLog.

#[local] Open Scope N_scope.

Section evidence.
Context {C : Type} `{!ClockImpl C} `{!StoreEnv C} `{!Crypto}.
Implicit Types (inner : MemoryInner C) (ob rest : SyncObligation C) (ack : PeerAck C)
  (key : TopicId * PeerId).

Abbreviation obligations := (gmap (TopicId * PeerId) (gmap ObligationKind (SyncObligation C))).

(** An obligation in its place: under its own topic, peer and kind, not empty. *)
Definition filed (key : TopicId * PeerId) (kind : ObligationKind) ob : Prop :=
  (ob_topic_id ob, ob_peer_id ob) = key ∧ kind_of ob = kind ∧ ob_is_empty ob = false.

(** The records are filed, and no entry is empty. *)
Definition obligations_ok (obs : obligations) : Prop :=
  ∀ key records, obs !! key = Some records → records ≠ ∅ ∧
    ∀ kind ob, records !! kind = Some ob → filed key kind ob.

(** The record of one kind that a peer is owed. *)
Definition owed (obs : obligations) (key : TopicId * PeerId) (kind : ObligationKind)
    : option (SyncObligation C) :=
  obs !! key ≫= λ records, records !! kind.

Lemma settled_filed ob ack meta key kind rest :
  filed key kind ob → settled_obligation ob ack meta = Ok (Some rest) → filed key kind rest.
Proof.
  intros (Hkey & Hkind & _) (target & Htarget & Hrest)%bind_ok.
  cbv zeta in Hrest. destruct (ob_is_empty (set_target ob target)) eqn:He; [done|]. injection Hrest as <-.
  split; [done|]. split; [|done]. subst kind. unfold kind_of. cbn [set_target ob_target].
  destruct (ob_target ob).
  - by injection Htarget as <-.
  - by apply bind_ok in Htarget as (? & _ & [= <-]).
Qed.

Lemma put_obligation_filed (obs : obligations) key kind ob :
  filed key kind ob →
  put_obligation_locked obs ob = <[key := <[kind := ob]> (default ∅ (obs !! key))]> obs.
Proof. intros (<- & <- & He). unfold put_obligation_locked. by rewrite He. Qed.

(** ** Settling *)

Definition positions inner (i : OpId) : option OpPosition := position_of <$> l_meta (s_log inner) !! i.

(** What is left of a record after [ack]. *)
Definition remaining inner ack ob : option (SyncObligation C) :=
  match settled_obligation ob ack (λ i, Ok (positions inner i)) with Ok rest => rest | Err _ => None end.

Lemma remaining_filed inner ack ob key kind rest :
  filed key kind ob → remaining inner ack ob = Some rest → filed key kind rest.
Proof.
  unfold remaining. intros Hf Hr. destruct (settled_obligation _ _ _) as [[r|]|] eqn:Hs; simplify_eq.
  by eapply settled_filed.
Qed.

Lemma settle_records_ok inner ack (records : gmap ObligationKind (SyncObligation C)) settled :
  settle_records_of inner ack records = Ok settled →
  settled = remaining inner ack <$> records.
Proof.
  unfold settle_records_of. intros Hfold.
  enough (settled = list_to_map (prod_map (@Datatypes.id ObligationKind) (remaining inner ack) <$> bt_entries records)) as ->.
  { by rewrite list_to_map_fmap list_to_map_bt_entries. }
  pose (I := λ (pre : list (ObligationKind * SyncObligation C))
      (m : gmap ObligationKind (option (SyncObligation C))),
    ∀ k, m !! k = (list_to_map (prod_map (@Datatypes.id ObligationKind) (remaining inner ack) <$> pre)
      : gmap ObligationKind (option (SyncObligation C))) !! k).
  apply map_eq. revert Hfold. apply (try_fold_inv_prefix I); [|done].
  intros pre [kind ob] post m m' Hsplit HI Hstep k.
  apply bind_ok in Hstep as (rest & Hrest & (u & _ & [= <-])%bind_ok).
  assert (remaining inner ack ob = rest) as Hrem.
  { unfold remaining, positions. by rewrite Hrest. }
  assert (kind ∉ pre.*1) as Hkind.
  { pose proof (bt_entries_NoDup records) as Hnd. rewrite Hsplit fmap_app in Hnd.
    apply NoDup_app in Hnd as (_ & Hdis & _). intros Hin. apply (Hdis kind Hin). by left. }
  rewrite fmap_app list_to_map_app. cbn [fmap list_fmap prod_map fst snd]. rewrite Hrem.
  destruct (decide (k = kind)) as [->|Hne].
  - rewrite lookup_insert_eq lookup_union_r; [|by rewrite /= lookup_insert_eq].
    apply not_elem_of_list_to_map_1. rewrite -list_fmap_compose. exact Hkind.
  - rewrite lookup_insert_ne // HI. rewrite lookup_union /=.
    rewrite lookup_insert_ne // lookup_empty. by rewrite (right_id_L None).
Qed.

Lemma settle_loop (key : TopicId * PeerId) (l : list (ObligationKind * option (SyncObligation C)))
    (obs : obligations) (cleared : nat) (records : gmap ObligationKind (SyncObligation C)) :
  NoDup l.*1 → (∀ kind rest, (kind, Some rest) ∈ l → filed key kind rest) →
  (∀ kind, kind ∈ l.*1 → is_Some (records !! kind)) → obs !! key = Some records →
  ∃ records' n, foldl (settle_step key) (obs, cleared) l = (<[key := records']> obs, (cleared + n)%nat) ∧
    (∀ kind, records' !! kind = default (records !! kind)
      ((list_to_map l : gmap ObligationKind (option (SyncObligation C))) !! kind)) ∧
    (n + size records' = size records)%nat.
Proof.
  revert obs cleared records.
  induction l as [|[kind rest] l IH]; intros obs cleared records Hnd Hf Hin Hk.
  { exists records, O. by rewrite insert_id // Nat.add_0_r. }
  rewrite fmap_cons in Hnd. apply NoDup_cons in Hnd as [Hkind Hnd]. cbn [foldl settle_step].
  assert (∀ k r, (k, Some r) ∈ l → filed key k r) as Hf' by (intros k r Hkr; apply Hf; by right).
  assert ((list_to_map l : gmap ObligationKind (option (SyncObligation C))) !! kind = None) as Hnone
    by by apply not_elem_of_list_to_map_1.
  destruct (Hin kind) as [ob Hob]; [by left|].
  assert (∀ k, k ∈ l.*1 → k ≠ kind ∧ is_Some (records !! k)) as Hin'.
  { intros k Hkl. split; [by intros ->|]. apply Hin. by right. }
  pose (records1 := match rest with Some r => <[kind := r]> records | None => delete kind records end).
  pose (cleared1 := match rest with Some _ => cleared | None => S cleared end).
  assert (match rest with
    | Some rest => (put_obligation_locked obs rest, cleared)
    | None => (alter (delete kind) key obs, S cleared) end = (<[key := records1]> obs, cleared1)) as ->.
  { unfold records1, cleared1. destruct rest as [rest|]; f_equal; [|by apply alter_alt_Some].
    rewrite (put_obligation_filed _ key kind); [apply Hf; by left|]. by rewrite Hk. }
  destruct (IH (<[key := records1]> obs) cleared1 records1 Hnd Hf') as (records' & n & -> & Hrec & Hsize).
  { intros k [Hne Hs]%Hin'. unfold records1.
    destruct rest; [rewrite lookup_insert_ne //|rewrite lookup_delete_ne //]. }
  { by rewrite lookup_insert_eq. }
  exists records', (match rest with Some _ => n | None => S n end). rewrite insert_insert_eq.
  split; [unfold cleared1; destruct rest; f_equal; lia|]. split.
  - intros k. rewrite Hrec /=. unfold records1. destruct (decide (k = kind)) as [->|Hne].
    + rewrite lookup_insert_eq Hnone. destruct rest; simpl; [by rewrite lookup_insert_eq|].
      by rewrite lookup_delete_eq.
    + rewrite lookup_insert_ne //. destruct rest; [by rewrite lookup_insert_ne|by rewrite lookup_delete_ne].
  - unfold records1 in Hsize. destruct rest.
    + rewrite map_size_insert_Some // in Hsize.
    + rewrite map_size_delete Hob in Hsize. assert (size records ≠ O) by
        (apply (map_size_ne_0_lookup_2 _ kind); by exists ob). simpl in Hsize. lia.
Qed.

Lemma drop_empty_id key (obs : obligations) : obligations_ok obs → drop_empty key obs = obs.
Proof.
  intros Hok. unfold drop_empty. destruct (obs !! key) as [records|] eqn:Hk; [|done].
  case_decide as Hs; [|done]. apply map_size_empty_inv in Hs. by destruct (Hok _ _ Hk).
Qed.

Lemma drop_empty_owed key (obs : obligations) k kind :
  owed (drop_empty key obs) k kind = owed obs k kind.
Proof.
  unfold drop_empty, owed. destruct (obs !! key) as [records|] eqn:Hk; [|done].
  case_decide as Hs; [|done]. destruct (decide (k = key)) as [->|Hne]; [|by rewrite lookup_delete_ne].
  apply map_size_empty_inv in Hs as ->. by rewrite lookup_delete_eq Hk /= lookup_empty.
Qed.

Lemma drop_empty_ne key (obs : obligations) k : k ≠ key → drop_empty key obs !! k = obs !! k.
Proof.
  intros Hne. unfold drop_empty. destruct (obs !! key); [|done]. case_decide; [|done].
  by rewrite lookup_delete_ne.
Qed.

Lemma drop_empty_size key (obs : obligations) :
  size (default ∅ (drop_empty key obs !! key)) = size (default ∅ (obs !! key)).
Proof.
  unfold drop_empty. destruct (obs !! key) as [records|] eqn:Hk; [|by rewrite Hk].
  case_decide as Hs; [|by rewrite Hk]. by rewrite lookup_delete_eq /= Hs.
Qed.

Lemma drop_empty_ok key (obs : obligations) (records : gmap ObligationKind (SyncObligation C)) :
  obligations_ok obs → (∀ kind ob, records !! kind = Some ob → filed key kind ob) →
  obligations_ok (drop_empty key (<[key := records]> obs)).
Proof.
  intros Hok Hf k recs. destruct (decide (k = key)) as [->|Hne].
  - unfold drop_empty. rewrite lookup_insert_eq. case_decide as Hs; [by rewrite lookup_delete_eq|].
    rewrite lookup_insert_eq. intros [= <-]. split; [|done]. intros ->. by apply Hs.
  - rewrite drop_empty_ne // lookup_insert_ne //. apply Hok.
Qed.

Lemma effective_ack_key (existing : option (PeerAck C)) ack :
  (ack_topic_id (effective_ack existing ack), ack_peer_id (effective_ack existing ack)) =
    (ack_topic_id ack, ack_peer_id ack).
Proof.
  destruct existing as [e|]; simpl; [|done]. unfold stored_ack_dominates.
  destruct (same_incarnation e ack) eqn:Hsame; simpl; [|done].
  apply same_incarnation_true in Hsame as (Hp & Ht & _).
  destruct (ck_dominates _ _); [by rewrite Hp Ht|done].
Qed.

Lemma apply_ack_spec inner ack inner' cleared :
  obligations_ok (s_obligations inner) → apply_ack_locked inner ack = Ok (inner', cleared) →
  let key := (ack_topic_id ack, ack_peer_id ack) in
  let stored := effective_ack (s_peer_acks inner !! (ack_peer_id ack, ack_topic_id ack)) ack in
  (∀ state, s_topics inner !! ack_topic_id ack = Some state →
    ack_genesis ack = Some (ts_genesis state) ∧ ack_peer_id ack ∈ ts_members state) ∧
  inner' = set_evidence inner (<[(ack_peer_id ack, ack_topic_id ack) := stored]> (s_peer_acks inner))
    (s_obligations inner') (s_sync_statuses inner) ∧
  obligations_ok (s_obligations inner') ∧
  (∀ kind, owed (s_obligations inner') key kind =
    if decide (is_Some (s_topics inner !! ack_topic_id ack))
    then owed (s_obligations inner) key kind ≫= remaining inner stored
    else owed (s_obligations inner) key kind) ∧
  (∀ key', key' ≠ key → s_obligations inner' !! key' = s_obligations inner !! key') ∧
  (cleared + size (default ∅ (s_obligations inner' !! key)) =
    size (default ∅ (s_obligations inner !! key)))%nat.
Proof.
  intros Hobs Happly key stored. unfold apply_ack_locked in Happly.
  next_ok Happly as (commit & Hcommit & Happly). cbv zeta in Happly.
  do 3 skip_ok Happly.
  rewrite effective_ack_key -/stored -/key in Happly.
  next_ok Happly as (settled & Hsettled & Happly).
  assert ((∀ state, s_topics inner !! ack_topic_id ack = Some state →
    ack_genesis ack = Some (ts_genesis state) ∧ ack_peer_id ack ∈ ts_members state) ∧
    commit = if decide (is_Some (s_topics inner !! ack_topic_id ack)) then Certify else Retain)
    as [Hguard ->].
  { unfold ack_commit in Hcommit. destruct (s_topics inner !! _) as [state|].
    - case_bool_decide as Hg; [|done]. case_bool_decide as Hm; [|done]. injection Hcommit as <-.
      split; [by intros ? [= <-]|done].
    - injection Hcommit as <-. done. }
  split; [exact Hguard|].
  assert (∃ obs', foldl (settle_step key) (s_obligations inner, O) (bt_entries settled) = (obs', cleared) ∧
    inner' = set_evidence inner (<[(ack_peer_id ack, ack_topic_id ack) := stored]> (s_peer_acks inner))
      (drop_empty key obs') (s_sync_statuses inner)) as (obs' & Hloop & ->).
  { destruct (foldl _ _ _) as [obs' c]. injection Happly as <- <-. by exists obs'. }
  split; [done|]. cbn [set_evidence s_obligations].
  setoid_rewrite drop_empty_owed. rewrite drop_empty_size. clear Happly Hcommit.
  destruct (decide (is_Some (s_topics inner !! ack_topic_id ack))) as [Hs|Hs];
    [destruct (s_obligations inner !! key) as [records|] eqn:Hkey|].
  2, 3: injection Hsettled as <-; change (bt_entries ∅) with (@nil (ObligationKind * option (SyncObligation C))) in Hloop;
    injection Hloop as <- <-.
  - apply settle_records_ok in Hsettled as ->. destruct (Hobs _ _ Hkey) as [Hne Hfiled].
    destruct (settle_loop key (bt_entries (remaining inner stored <$> records)) (s_obligations inner)
      0 records) as (records' & n & Hl & Hrec & Hsize); [apply bt_entries_NoDup| | |done|].
    { intros kind rest (ob & Hrem & Hob)%elem_of_bt_entries%lookup_fmap_Some.
      by eapply remaining_filed; [apply Hfiled|]. }
    { intros kind. rewrite bt_entries_keys elem_of_bt_elements dom_fmap_L. apply elem_of_dom. }
    rewrite Hl in Hloop. injection Hloop as <- <-.
    rewrite list_to_map_bt_entries in Hrec. setoid_rewrite lookup_fmap in Hrec.
    assert (∀ kind, records' !! kind = records !! kind ≫= remaining inner stored) as Hrec'
      by (intros kind; rewrite Hrec; by destruct (records !! kind)).
    split; [|split; [|split]].
    + apply drop_empty_ok; [done|]. intros kind rest Hr. rewrite Hrec' in Hr.
      apply bind_Some in Hr as (ob & Hob & Hrem). by eapply remaining_filed; [apply Hfiled|].
    + intros kind. unfold owed. rewrite lookup_insert_eq Hkey /=. apply Hrec'.
    + intros k Hk. by rewrite drop_empty_ne // lookup_insert_ne.
    + by rewrite lookup_insert_eq.
  - rewrite drop_empty_id //. split_and!; try done; [intros kind; unfold owed|]; by rewrite Hkey.
  - rewrite drop_empty_id //.
Qed.

(** An acknowledgement is recorded only when it names the stored branch
    and a member, or nothing is stored of the topic yet. Recording it merges it into
    the peer's evidence and, when the topic is stored, leaves of each obligation of
    the peer exactly what it does not prove, counting those that vanish; nothing
    else of the store changes. *)
Theorem apply_ack_exact inner ack inner' cleared :
  obligations_ok (s_obligations inner) → apply_ack_locked inner ack = Ok (inner', cleared) →
  let key := (ack_topic_id ack, ack_peer_id ack) in
  let stored := effective_ack (s_peer_acks inner !! (ack_peer_id ack, ack_topic_id ack)) ack in
  (∀ state, s_topics inner !! ack_topic_id ack = Some state →
    ack_genesis ack = Some (ts_genesis state) ∧ ack_peer_id ack ∈ ts_members state) ∧
  inner' = set_evidence inner (<[(ack_peer_id ack, ack_topic_id ack) := stored]> (s_peer_acks inner))
    (s_obligations inner') (s_sync_statuses inner) ∧
  obligations_ok (s_obligations inner') ∧
  (∀ kind, owed (s_obligations inner') key kind =
    if decide (is_Some (s_topics inner !! ack_topic_id ack))
    then owed (s_obligations inner) key kind ≫= remaining inner stored
    else owed (s_obligations inner) key kind) ∧
  (∀ key', key' ≠ key → s_obligations inner' !! key' = s_obligations inner !! key') ∧
  (cleared + size (default ∅ (s_obligations inner' !! key)) =
    size (default ∅ (s_obligations inner !! key)))%nat.
Proof. apply apply_ack_spec. Qed.
End evidence.
