(* ===== verification/StoreRun.v ===== *)
(** * Runs of the memory store

    The writes of [MemoryStorage] as steps of a transition system. Every store that a
    sequence of writes reaches from the empty one is consistent, within its quotas,
    and keeps its obligations filed, whatever the memory budget refuses in between. *)

From stdpp Require Import relations.
From S2P Require Import Prelude Ids Frame ClockSpec Types Evidence Records Pool Store StoreLog.
From S2P Require Import StoreAdmit StoreOps StoreReset StoreEvidence.

#[local] Open Scope N_scope.

Section run.
Context {C : Type} `{!ClockImpl C} `{!StoreEnv C} `{!Crypto}.
Implicit Types (inner : MemoryInner C) (batch : AdmittedBatch C).

(** ** Steps *)

(** One write of a store that may hold as much as [quota] says, the main store when there is
    none. Admission asks that the batch is well formed; an operation that fails without an
    effect is no step. *)
Inductive step (quota : option StagingQuota) inner : MemoryInner C → Prop :=
  | step_admit batch inner' r :
      batch_wf inner batch → admit_batch_locked inner batch quota = (inner', r) → step quota inner inner'
  | step_buffer src op meta genesis inner' :
      put_pending_bound inner quota src op meta genesis = Ok inner' → step quota inner inner'
  | step_reject i inner' n : reject_pending_subtree inner i = Ok (inner', n) → step quota inner inner'
  | step_purge dep p n :
      purge_pending_waiters (s_pool inner) dep = Ok (p, n) → step quota inner (set_pool inner p)
  | step_expire now_ms max_idle_ms p n :
      expire_pending (s_pool inner) now_ms max_idle_ms = Ok (p, n) → step quota inner (set_pool inner p)
  | step_ack ack inner' n : apply_ack_locked inner ack = Ok (inner', n) → step quota inner inner'
  | step_obligation ob genesis inner' :
      put_sync_obligation inner ob genesis = Ok inner' → step quota inner inner'
  | step_acks acks : step quota inner (apply_peer_acks inner acks).1
  | step_epoch inner' n : next_attempt_epoch inner = Ok (inner', n) → step quota inner inner'
  | step_put_status status inner' : put_sync_status inner status = Ok inner' → step quota inner inner'
  | step_update_status p t update inner' status :
      update_sync_status inner p t update = Ok (inner', status) → step quota inner inner'
  | step_remove i p : remove_pending_locked (s_pool inner) i = Ok p → step quota inner (set_pool inner p)
  | step_clear p t genesis : step quota inner (clear_peer_sync_state inner p t genesis).1
  | step_reset t inner' n : reset_topic_locked inner t = (inner', Ok n) → step quota inner inner'
  | step_replace expected batch eviction inner' r :
      quota = None → batch_wf inner batch →
      reset_topic_and_admit inner (ab_topic_id batch) expected batch eviction = (inner', r) →
      step quota inner inner'
  | step_seal t inner' b : seal_topic inner t = Ok (inner', b) → step quota inner inner'
  | step_unseal t : step quota inner (unseal_topic inner t).1
  | step_clear_eviction key : step quota inner (clear_eviction inner key).

(** Acknowledgements are filed under their own peer and topic. *)
Definition acks_ok (acks : gmap (PeerId * TopicId) (PeerAck C)) : Prop :=
  ∀ key ack, acks !! key = Some ack → (ack_peer_id ack, ack_topic_id ack) = key.

(** What every step keeps. *)
Record consistent inner : Prop := {
  co_store : store_ok inner;
  co_pool : pool_bounded (s_pool inner);
  co_obligations : obligations_ok (s_obligations inner);
  co_acks : acks_ok (s_peer_acks inner);
}.

Lemma pool_empty_bounded : pool_bounded pool_empty.
Proof.
  assert (∀ ops bytes, within usage_default ops bytes) as Hz by (split; simpl; lia).
  split; [done|intros s; unfold usage_of; rewrite lookup_empty; done..| |].
  - intros d. rewrite lookup_empty. cbn [from_option]. rewrite size_empty. lia.
  - intros i r. by rewrite lookup_empty.
Qed.

Lemma store_empty_consistent : consistent store_empty.
Proof.
  split; [apply store_empty_ok|apply pool_empty_bounded|..]; intros key x; by rewrite lookup_empty.
Qed.

(** ** Obligations and acknowledgements *)

Lemma sub_acks_ok (acks acks' : gmap (PeerId * TopicId) (PeerAck C)) :
  acks_ok acks → acks' ⊆ acks → acks_ok acks'.
Proof. intros Hok Hsub key ack Hk. apply Hok. by eapply lookup_weaken. Qed.

Lemma put_obligation_ok obs (ob : SyncObligation C) :
  obligations_ok obs → obligations_ok (put_obligation_locked obs ob).
Proof.
  intros Hok. unfold put_obligation_locked. destruct (ob_is_empty ob) eqn:He; [done|].
  intros key records [[<- <-]|[_ Hr]]%lookup_insert_Some; [|by apply Hok].
  split; [apply insert_non_empty|]. intros kind ob' [[<- <-]|[_ Hk]]%lookup_insert_Some; [done|].
  destruct (obs !! _) as [recs|] eqn:Hrecs; [|by rewrite lookup_empty in Hk].
  by apply (Hok _ _ Hrecs).
Qed.

Lemma sub_obligations_ok (obs obs' : gmap (TopicId * PeerId) (gmap ObligationKind (SyncObligation C))) :
  obligations_ok obs → obs' ⊆ obs → obligations_ok obs'.
Proof. intros Hok Hsub key records Hk. apply Hok. by eapply lookup_weaken. Qed.

Lemma delete_all_subset {K A B} `{Countable K} (f : B → K) (l : list B) (m : gmap K A) :
  foldl (λ m x, delete (f x) m) m l ⊆ m.
Proof.
  revert m. induction l as [|x l IH]; intros m; [done|]. simpl.
  etrans; [apply IH|apply delete_subseteq].
Qed.

Lemma admit_obligations inner batch quota :
  obligations_ok (s_obligations inner) →
  obligations_ok (s_obligations (admit_batch_locked inner batch quota).1).
Proof.
  intros Hok. unfold admit_batch_locked. destruct (admit_plan _ _ _) as [plan|e]; [|done].
  unfold admit_write. destruct (write_entries _ _ _) as [[log pool] [u|e]]; [|done]. cbn [fst s_obligations].
  eapply sub_obligations_ok; [|apply (delete_all_subset (λ p, (ab_topic_id batch, p)))].
  generalize (bt_entries (ap_effects plan)) as l. intros l. revert Hok. generalize (s_obligations inner).
  induction l as [|[k ob] l IH]; intros obs Hok; [done|]. by apply IH, put_obligation_ok.
Qed.

Lemma admit_acks inner batch quota :
  s_peer_acks (admit_batch_locked inner batch quota).1 ⊆ s_peer_acks inner.
Proof.
  unfold admit_batch_locked. destruct (admit_plan _ _ _) as [plan|e]; [|done].
  unfold admit_write. destruct (write_entries _ _ _) as [[log pool] [u|e]]; [|done].
  apply (delete_all_subset (λ p, (p, ab_topic_id batch))).
Qed.

Lemma reset_evidence inner t n inner' :
  reset_topic_locked inner t = (inner', Ok n) →
  s_obligations inner' ⊆ s_obligations inner ∧ s_peer_acks inner' ⊆ s_peer_acks inner.
Proof.
  unfold reset_topic_locked. destruct (mem _); [|done].
  destruct (reset_ops _ _ _) as [[log bytes] [u|e]]; [|done].
  destruct (try_fold _ _ _); [|done]. intros [= <- _]. split; apply map_filter_subseteq.
Qed.

Lemma reject_evidence inner i inner' n :
  reject_pending_subtree inner i = Ok (inner', n) →
  s_obligations inner' = s_obligations inner ∧ s_peer_acks inner' = s_peer_acks inner.
Proof.
  unfold reject_pending_subtree. destruct (p_records _ !! i); [|by intros [= <- _]].
  intros (? & _ & (? & _ & (? & _ & [= <- _])%bind_ok)%bind_ok)%bind_ok. done.
Qed.

(** ** Pools *)

Lemma expire_subset (p : Pool) now_ms max_idle_ms p' n :
  pool_ok p → expire_pending p now_ms max_idle_ms = Ok (p', n) →
  pool_ok p' ∧ p_records p' ⊆ p_records p.
Proof.
  intros Hp. unfold expire_pending. destruct (expire_sweep p now_ms max_idle_ms) as [since expired].
  destruct (expire_subtrees_ok (bt_elements expired) (set_since p since) ∅ (p_records p) [])
    as (p1 & removed & -> & Hp1 & Hr & _).
  { by apply set_since_ok. }
  { intros j r. cbn [set_since p_records]. split; [|by intros []]. intros Hj. split; [done|].
    by intros (e & ?%elem_of_nil & _). }
  { intros i. cbn [set_since p_records]. set_solver. }
  intros [= <- _]. split; [done|]. apply map_subseteq_spec. intros i r Hi. by apply Hr in Hi as [? _].
Qed.

Lemma purge_subset (p : Pool) dep p' n :
  pool_ok p → purge_pending_waiters p dep = Ok (p', n) → pool_ok p' ∧ p_records p' ⊆ p_records p.
Proof.
  intros Hp. unfold purge_pending_waiters.
  destruct (remove_all_ok p (bt_elements (waiter_closure_locked p dep)) Hp) as (p1 & -> & Hp1 & Hr).
  intros [= <- _]. split; [done|]. rewrite Hr. apply map_filter_subseteq.
Qed.

Lemma drop_consistent inner (p : Pool) :
  consistent inner → pool_ok p → p_records p ⊆ p_records (s_pool inner) → consistent (set_pool inner p).
Proof.
  intros [Hok Hb Hobs Hacks] Hp Hsub. split; [by apply drop_records_ok| |done..].
  by eapply bounded_shrinks; [apply (so_pool _ Hok)|done|apply subset_shrinks|].
Qed.

Lemma admit_pool_shrinks inner batch quota inner' r :
  store_ok inner → batch_wf inner batch → admit_batch_locked inner batch quota = (inner', r) →
  store_ok inner' ∧ shrinks (p_records (s_pool inner)) (p_records (s_pool inner')).
Proof.
  intros Hok Hwf. unfold admit_batch_locked.
  destruct (admit_plan inner batch quota) as [plan|e] eqn:Hplan.
  - pose proof (admit_plan_ok _ _ _ _ Hok Hwf Hplan) as Hpl. intros Hw.
    destruct (admit_write_ok _ _ _ _ _ Hok Hwf Hpl Hw) as (_ & Hok' & _ & _ & _ & Hrec).
    split; [done|]. intros i r' (_ & r0 & Hr0 & ->)%Hrec. exists r0. split_and!; try done. set_solver.
  - intros [= <- _]. split; [done|]. by apply subset_shrinks.
Qed.

(** ** The invariant *)

Lemma reset_consistent inner t inner' n :
  consistent inner → reset_topic_locked inner t = (inner', Ok n) → consistent inner'.
Proof.
  intros [Hok Hb Hobs Hacks] Hreset. destruct (reset_ok _ _ _ _ Hok Hreset) as (Hok' & _).
  destruct (reset_shape _ _ _ _ Hok Hreset) as (_ & _ & Hpool & Hrec & _).
  destruct (reset_evidence _ _ _ _ Hreset) as [Hobs' Hacks']. split; [done| | |].
  - eapply bounded_shrinks; [apply (so_pool _ Hok)|done| |done]. apply subset_shrinks. rewrite Hrec.
    apply map_filter_subseteq.
  - by eapply sub_obligations_ok.
  - by eapply sub_acks_ok.
Qed.

Lemma admit_consistent inner batch quota inner' r :
  consistent inner → batch_wf inner batch → admit_batch_locked inner batch quota = (inner', r) →
  consistent inner'.
Proof.
  intros [Hok Hb Hobs Hacks] Hwf Hadmit.
  destruct (admit_pool_shrinks _ _ _ _ _ Hok Hwf Hadmit) as [Hok' Hsh]. split; [done| | |].
  - eapply bounded_shrinks; [apply (so_pool _ Hok)|apply (so_pool _ Hok')|done|done].
  - pose proof (admit_obligations inner batch quota Hobs) as Ho. by rewrite Hadmit in Ho.
  - pose proof (admit_acks inner batch quota) as Ha. rewrite Hadmit in Ha. by eapply sub_acks_ok.
Qed.

Lemma replace_consistent inner expected batch eviction inner' r :
  consistent inner → batch_wf inner batch →
  reset_topic_and_admit inner (ab_topic_id batch) expected batch eviction = (inner', r) →
  consistent inner'.
Proof.
  intros Hco Hwf. unfold reset_topic_and_admit.
  destruct (bool_decide _); [by intros [= <- _]|]. destruct (negb _); [by intros [= <- _]|].
  destruct (mem CopyOfStore); [|by intros [= <- _]]. res_step.
  destruct (reset_topic_locked inner _) as [staged [n|e]] eqn:Hreset; [|by intros [= <- _]].
  res_step.
  destruct (admit_batch_locked staged batch None) as [staged' [u|e]] eqn:Hadmit; [|by intros [= <- _]].
  res_step. assert (consistent staged') as Hco'.
  { eapply admit_consistent; [by eapply reset_consistent| |done].
    destruct (reset_ok _ _ _ _ (co_store _ Hco) Hreset) as (_ & Hgone & Hsame).
    split; [apply (bw_ids _ _ Hwf)|]. intros e d md He Hd Hmd. apply (bw_deps _ _ Hwf e d md He Hd).
    apply (tm_ops _ _ _ (Hsame _ (tg_ops _ _ Hgone d md Hmd))); done. }
  assert (∀ ev, consistent (set_evictions staged' ev)) as Hev.
  { intros ev. destruct Hco' as [H1 H2 H3 H4]. split; [|done..]. by eapply store_ok_frame, H1. }
  destruct (journalled_eviction eviction) as [[key e]|]; [|by intros [= <- _]].
  destruct (_ && _); [by intros [= <- _]|]. destruct (mem PlanNodes); [|by intros [= <- _]].
  res_step. destruct (mem (EvictionRecord e)); [|by intros [= <- _]].
  intros [= <- _]. apply Hev.
Qed.

(** Replacing the evidence of a store by filed obligations. *)
Lemma evidence_consistent inner acks obs statuses :
  consistent inner → obligations_ok obs → acks_ok acks →
  consistent (set_evidence inner acks obs statuses).
Proof. intros [H1 H2 H3 H4] Hobs Hacks. split; [|done..]. by eapply store_ok_frame, H1. Qed.

Lemma ack_consistent inner ack inner' n :
  consistent inner → apply_ack_locked inner ack = Ok (inner', n) → consistent inner'.
Proof.
  intros Hco Hack. destruct (apply_ack_spec _ _ _ _ (co_obligations _ Hco) Hack) as (_ & -> & Hobs' & _).
  apply evidence_consistent; [done..|].
  intros key ack' [[<- <-]|[_ Hk]]%lookup_insert_Some; [|by apply (co_acks _ Hco)].
  by injection (effective_ack_key (s_peer_acks inner !! (ack_peer_id ack, ack_topic_id ack)) ack) as -> ->.
Qed.

Lemma acks_consistent inner acks : consistent inner → consistent (apply_peer_acks inner acks).1.
Proof.
  unfold apply_peer_acks. change inner with (inner, @nil (res nat)).1 at 1.
  generalize (inner, @nil (res nat)) as st. clear inner.
  induction acks as [|ack acks IH]; intros st Hco; [done|]. cbn [foldl]. apply IH. unfold apply_next_ack.
  destruct (apply_ack_locked st.1 ack) as [[inner' n]|e] eqn:Hack; [|done]. by eapply ack_consistent.
Qed.

Lemma step_consistent quota inner inner' : consistent inner → step quota inner inner' → consistent inner'.
Proof.
  intros Hco Hstep. pose proof Hco as [Hok Hb Hobs Hacks]. destruct Hstep as
    [batch inner' r Hwf Hadmit|src op meta genesis inner' Hput|i inner' n Hrej
    |dep p n Hpurge|now_ms max_idle_ms p n Hexp|ack inner' n Hack|ob genesis inner' Hob|acks
    |inner' n Hepoch|status inner' Hput|p t update inner' status Hup|i p Hrm|p t genesis
    |t inner' n Hreset|expected batch eviction inner' r _ Hwf Hrep|t inner' b Hseal|t|key].
  - by eapply admit_consistent.
  - destruct (put_pending_cases _ _ _ _ _ _ _ Hok Hput) as [[-> _]|[[-> _]|(charge & Hbc & ->)]]; [done..|].
    split; [by apply buffer_store_ok|by apply buffer_bounded|done..].
  - destruct (reject_pending_spec _ _ _ _ Hok Hb Hrej) as (Hok' & Hb' & _).
    destruct (reject_evidence _ _ _ _ Hrej) as [Ho Ha]. by split; rewrite ?Ho ?Ha.
  - destruct (purge_subset _ _ _ _ (so_pool _ Hok) Hpurge). by apply drop_consistent.
  - destruct (expire_subset _ _ _ _ _ (so_pool _ Hok) Hexp). by apply drop_consistent.
  - by eapply ack_consistent.
  - skip_ok Hob. skip_ok Hob.
    next_ok Hob as (merged & _ & Hob). do 2 skip_ok Hob.
    injection Hob as <-. apply evidence_consistent; [done|by apply put_obligation_ok|done].
  - by apply acks_consistent.
  - apply bind_ok in Hepoch as (e & _ & [= <- _]). split; [by eapply store_ok_frame, Hok|done..].
  - do 2 skip_ok Hput. injection Hput as <-. by apply evidence_consistent.
  - skip_ok Hup. cbv zeta in Hup. destruct (apply_status_update _ _) as [status' [|]].
    + do 2 skip_ok Hup. injection Hup as <- _. by apply evidence_consistent.
    + by injection Hup as <- _.
  - destruct (remove_pending_ok (s_pool inner) i (so_pool _ Hok)) as (p' & Hp' & Hpool & Hr & _).
    rewrite Hp' in Hrm. injection Hrm as ->. apply drop_consistent; [done..|]. rewrite Hr.
    apply delete_subseteq.
  - unfold clear_peer_sync_state. destruct (negb _); [done|]. apply evidence_consistent; [done|..].
    + eapply sub_obligations_ok; [done|apply delete_subseteq].
    + eapply sub_acks_ok; [done|apply delete_subseteq].
  - by eapply reset_consistent.
  - by eapply replace_consistent.
  - do 2 skip_ok Hseal. injection Hseal as <- <-.
    split; [by eapply store_ok_frame, Hok|done..].
  - split; [by eapply store_ok_frame, Hok|done..].
  - split; [by eapply store_ok_frame, Hok|done..].
Qed.

(** C11: every store reached from the empty one by any sequence of admissions,
    buffering, rejections, purges, expiries, acknowledgements, obligations, statuses, resets,
    branch replacements and seals is consistent: its indexes, frontiers, clocks and
    pending pool agree with the stored metadata, the pool is within its quotas, and
    obligations and acknowledgements are filed under their own topic, peer and kind. *)
Theorem reachable_consistent inner :
  rtc (λ inner inner', ∃ quota, step quota inner inner') store_empty inner → consistent inner.
Proof.
  revert inner. apply (rtc_ind_r (R := λ inner inner', ∃ quota, step quota inner inner') consistent store_empty);
    [apply store_empty_consistent|].
  intros x y _ [quota Hxy] Hx. by eapply step_consistent.
Qed.
End run.
