(* ===== verification/StoreReads.v ===== *)
(** * Reads of the memory store ([src/src/storage/memory/mod.rs])

    The [Storage] and [SnapshotRead] methods that only read. Each runs under the
    store's one lock, so what it returns describes one state; in a consistent store
    its parts agree with each other. *)

From stdpp Require Import sorting.
From S2P Require Import Prelude Ids Pages Frame ClockSpec Types Evidence Records Pool Store.
From S2P Require Import StoreLog StoreEvidence StoreRun.

#[local] Open Scope N_scope.

(** [storage/record.rs] *)
Record TopicView (C : Type) := {
  tv_state : TopicState;
  tv_clock : C;
  tv_tips : gmap ActorId (N * OpId);
  tv_fingerprint : list N;
  tv_epoch : N;
  tv_pending_missing : gset OpId;
  tv_ack : option (PeerAck C);
  tv_owed : bool;
}.
Arguments tv_state {C}. Arguments tv_clock {C}. Arguments tv_tips {C}. Arguments tv_fingerprint {C}.
Arguments tv_epoch {C}. Arguments tv_pending_missing {C}. Arguments tv_ack {C}. Arguments tv_owed {C}.

Record RequestView (C : Type) := {
  rv_genesis : OpId;
  rv_epoch : N;
  rv_member : bool;
  rv_clock : C;
}.
Arguments rv_genesis {C}. Arguments rv_epoch {C}. Arguments rv_member {C}. Arguments rv_clock {C}.

Record DependencyCursor := { dc_offset : nat; dc_after : option OpId }.
Definition cursor_start : DependencyCursor := {| dc_offset := 0; dc_after := None |}.

(** [TopicInfo] *)
Record TopicInfo := { ti_topic_id : TopicId; ti_event_type_id : string; ti_genesis : OpId }.

Section reads.
Context {C : Type} `{!ClockImpl C} `{!StoreEnv C} `{!Crypto}.
Implicit Types (inner : MemoryInner C).

(** ** Operations *)

Definition list_ops inner (t : TopicId) : list Op :=
  omap (λ i, l_ops (s_log inner) !! i) (bt_elements (default ∅ (l_topic_ops (s_log inner) !! t))).
Definition topic_ids_locked inner (t : TopicId) : gset OpId :=
  default ∅ (l_topic_ops (s_log inner) !! t).
Definition heads inner (t : TopicId) : gset OpId := default ∅ (s_heads inner !! t).
Definition children inner (i : OpId) : gset OpId := default ∅ (l_children (s_log inner) !! i).
Definition max_generation inner (t : TopicId) : N := default 0 (l_max_generation (s_log inner) !! t).
Definition list_topics inner : list TopicInfo :=
  (λ e, {| ti_topic_id := ts_topic_id e.2; ti_event_type_id := ts_event_type_id e.2;
           ti_genesis := ts_genesis e.2 |}) <$> bt_entries (s_topics inner).

(** [topic_ids_after] *)
Definition topic_ids_after inner (t : TopicId) (after : option OpId) (limit : nat) : list OpId :=
  match l_topic_ops (s_log inner) !! t with
  | Some ids => page ids after limit
  | None => []
  end.

(** [actor_range_locked] *)
Definition actor_range_locked inner (t : TopicId) (a : ActorId) (after : N) (limit : nat)
    : list (N * OpId) :=
  match checked_add after 1 with
  | None => []
  | Some start =>
      (λ e : TopicId * ActorId * N * OpId, (e.1.2, e.2)) <$>
        take limit (filter (λ e, ble (t, a, start) e.1 ∧ ble e.1 (t, a, u64_max))
          (bt_entries (l_actor_by_seq (s_log inner))))
  end.

(** [dependency_ids] *)
Definition dependency_ids inner (i : OpId) (cursor : DependencyCursor) (limit : nat)
    : res (option (list OpId)) :=
  if decide (limit = O) then Err (SyncCapacity "dependency read limit must be positive")
  else
    match l_meta (s_log inner) !! i with
    | None => Ok None
    | Some meta =>
        if bool_decide (size (om_deps meta) < dc_offset cursor)%nat
           || negb (eqb (bool_decide (dc_offset cursor = O)) (bool_decide (dc_after cursor = None)))
           || match dc_after cursor with
              | Some after => bool_decide (after ∉ om_deps meta)
              | None => false
              end
        then Err (Decode "dependency cursor does not match metadata")
        else Ok (Some (page (om_deps meta) (dc_after cursor) limit))
    end.

(** ** Views *)

(** [topic_fingerprint], whose encoding the source takes to be infallible. *)
Definition topic_fingerprint inner (t : TopicId) : res (list N) :=
  match s_topic_fingerprint inner !! t with
  | Some fingerprint => Ok fingerprint
  | None => topic_fingerprint_for (heads inner t) (clock_of inner t)
  end.

(** [topic_view_locked] *)
Definition topic_view_locked inner (t : TopicId) (p : option PeerId) : res (option (TopicView C)) :=
  match topic_state_locked inner t with
  | None => Ok None
  | Some state =>
      let clock := clock_of inner t in
      let tips := list_to_map ((λ e : TopicId * ActorId * (N * OpId), (e.1.2, e.2)) <$>
        filter (λ e, ble (t, id_min) e.1 ∧ ble e.1 (t, id_max))
          (bt_entries (l_actor_tip (s_log inner)))) in
      fingerprint ← match s_topic_fingerprint inner !! t with
        | Some fingerprint => Ok fingerprint
        | None => topic_fingerprint_for (ts_heads state) clock
        end;
      let '(ack, owed) := match p with
        | Some p => (s_peer_acks inner !! (p, t),
            match s_obligations inner !! (t, p) with
            | Some records => negb (bool_decide (records = ∅))
            | None => false
            end)
        | None => (None, false)
        end in
      Ok (Some {| tv_epoch := default 0 (s_topic_epochs inner !! t);
                  tv_pending_missing := pending_missing_locked (s_pool inner) t;
                  tv_state := state; tv_clock := clock; tv_tips := tips;
                  tv_fingerprint := fingerprint; tv_ack := ack; tv_owed := owed |})
  end.

(** [request_view] *)
Definition request_view inner (t : TopicId) (p : PeerId) (actors : gset ActorId)
    : option (RequestView C) :=
  match s_topics inner !! t with
  | None => None
  | Some state =>
      Some {| rv_genesis := ts_genesis state; rv_epoch := default 0 (s_topic_epochs inner !! t);
              rv_member := bool_decide (p ∈ ts_members state);
              rv_clock := match s_actor_clock inner !! t with
                | Some local => ck_select local actors
                | None => ck_new
                end |}
  end.

(** [peers_reached_op] *)
Definition peers_reached_op inner (i : OpId) : list PeerId :=
  match stored_op_branch inner i with
  | None => []
  | Some (meta, genesis) =>
      merge_sort ble (ack_peer_id <$> filter (λ ack, ack_topic_id ack = om_topic_id meta ∧
          ack_reached_op ack genesis i (position_of meta) = true)
        (snd <$> bt_entries (s_peer_acks inner)))
  end.

(** ** Evidence *)

Definition peer_acks inner (t : TopicId) : list (PeerAck C) :=
  filter (λ ack, ack_topic_id ack = t) (snd <$> bt_entries (s_peer_acks inner)).
Definition sync_obligations inner (p : PeerId) (t : TopicId) : list (SyncObligation C) :=
  match s_obligations inner !! (t, p) with
  | Some records => snd <$> bt_entries records
  | None => []
  end.
Definition all_sync_obligations inner : list (SyncObligation C) :=
  mjoin ((λ e, snd <$> bt_entries e.2) <$> bt_entries (s_obligations inner)).
Definition sync_obligation_count inner (p : PeerId) (t : TopicId) : nat :=
  from_option size O (s_obligations inner !! (t, p)).
Definition has_sync_obligations inner (p : PeerId) (t : TopicId) : bool :=
  match s_obligations inner !! (t, p) with
  | Some records => negb (bool_decide (records = ∅))
  | None => false
  end.
Definition sync_statuses inner (t : TopicId) : list SyncPeerStatus :=
  filter (λ status, st_topic_id status = t) (snd <$> bt_entries (s_sync_statuses inner)).
Definition pending_waiters inner (d : OpId) : list (PeerId * Op) :=
  omap (pending_entry_locked (s_pool inner)) (bt_elements (default ∅ (p_waiters (s_pool inner) !! d))).

(** [topic_obligation_counts]: the entries from the topic's first key on, while they
    are the topic's. *)
Fixpoint take_while {A} (f : A → bool) (l : list A) : list A :=
  match l with
  | [] => []
  | x :: l => if f x then x :: take_while f l else []
  end.
Definition topic_obligation_counts inner (t : TopicId) : gmap PeerId nat :=
  foldl (λ counts '((_, p), records),
    if decide (records = ∅) then counts else <[p := size records]> counts) ∅
    (take_while (λ e, bool_decide (e.1.1 = t))
      (filter (λ e, ble (t, id_min) e.1) (bt_entries (s_obligations inner)))).

Lemma tips_lookup inner (t : TopicId) (a : ActorId) :
  (list_to_map ((λ e : TopicId * ActorId * (N * OpId), (e.1.2, e.2)) <$>
    filter (λ e, ble (t, id_min) e.1 ∧ ble e.1 (t, id_max)) (bt_entries (l_actor_tip (s_log inner))))
    : gmap ActorId (N * OpId)) !! a = l_actor_tip (s_log inner) !! (t, a).
Proof.
  destruct (range_entries (l_actor_tip (s_log inner)) t
    (λ e, ble (t, id_min) e.1 ∧ ble e.1 (t, id_max))) as [Hs Hin].
  { intros [[t' a'] v]. simpl. rewrite ble_squeeze. by intros [-> _]. }
  apply option_eq. intros v. rewrite -elem_of_list_to_map.
  - clear Hin. induction Hs as [|x l Hs IH Hall]; [constructor|]. constructor; [|done].
    intros Hx. apply (proj1 (Forall_forall _ _) Hall) in Hx. by apply blt_irrefl in Hx.
  - rewrite Hin ble_squeeze. split; [by intros []|]. intros Hv. split; [done|]. split; [done|].
    apply id_bounds.
Qed.

Lemma pending_missing_spec (p : Pool) (t : TopicId) d :
  pool_ok p →
  d ∈ pending_missing_locked p t ↔
    ∃ i r, p_records p !! i = Some r ∧ pr_topic_id r = t ∧ d ∈ pr_missing r.
Proof.
  intros Hp. unfold pending_missing_locked. rewrite elem_of_union_list. split.
  - intros (X & (i & Hi & Hr)%list_elem_of_omap & Hd).
    apply elem_of_bt_elements, (proj1 (po_by_topic _ Hp)) in Hi as (r & Hrec & Ht).
    rewrite Hrec in Hr. injection Hr as <-. by exists i, r.
  - intros (i & r & Hi & Ht & Hd). exists (pr_missing r). split; [|done]. apply list_elem_of_omap.
    exists i. rewrite Hi. split; [|done]. apply elem_of_bt_elements, (proj1 (po_by_topic _ Hp)). by exists r.
Qed.

(** A view of a topic is coherent. Its heads are exactly the stored
    operations of the topic that no stored operation depends on; its clock and its
    tips name the same last position of every actor, and the operation stored there;
    the missing dependencies are exactly those the topic's buffered operations wait
    for, none of which is stored; and the peer is owed something exactly when an
    obligation is recorded for it. *)
Theorem topic_view_coherent inner t p view :
  consistent inner → topic_view_locked inner t p = Ok (Some view) →
  ts_topic_id (tv_state view) = t ∧
  (∀ i, i ∈ ts_heads (tv_state view) ↔
    (∃ m, l_meta (s_log inner) !! i = Some m ∧ om_topic_id m = t) ∧
    ∀ c mc, l_meta (s_log inner) !! c = Some mc → i ∉ om_deps mc) ∧
  (∀ a, ck_view (tv_clock view) !! a = fst <$> tv_tips view !! a) ∧
  (∀ a s i, tv_tips view !! a = Some (s, i) →
    at_position (l_meta (s_log inner)) t a s i ∧
    ∀ s' j, at_position (l_meta (s_log inner)) t a s' j → s' ≤ s) ∧
  (∀ d, d ∈ tv_pending_missing view → l_meta (s_log inner) !! d = None) ∧
  (∀ d, d ∈ tv_pending_missing view ↔
    ∃ i r, p_records (s_pool inner) !! i = Some r ∧ pr_topic_id r = t ∧ d ∈ pr_missing r) ∧
  (tv_owed view = true ↔ ∃ q kind, p = Some q ∧ is_Some (owed (s_obligations inner) (t, q) kind)).
Proof.
  intros [Hok _ Hobs _] Hview. unfold topic_view_locked in Hview.
  destruct (topic_state_locked inner t) as [state|] eqn:Hstate; [|done].
  next_ok Hview as (fp & _ & Hview). cbv zeta in Hview.
  set (tips := list_to_map _) in Hview.
  assert (∀ a, tips !! a = l_actor_tip (s_log inner) !! (t, a)) as Htips by apply tips_lookup.
  unfold topic_state_locked in Hstate. apply fmap_Some in Hstate as (state0 & Hst & ->).
  assert (∃ ack owed', view = {| tv_epoch := default 0 (s_topic_epochs inner !! t);
    tv_pending_missing := pending_missing_locked (s_pool inner) t;
    tv_state := set_heads state0 (default ∅ (s_heads inner !! t)); tv_clock := clock_of inner t;
    tv_tips := tips; tv_fingerprint := fp; tv_ack := ack; tv_owed := owed' |} ∧
    (owed' = true ↔ ∃ q kind, p = Some q ∧ is_Some (owed (s_obligations inner) (t, q) kind)))
    as (ack & owed' & -> & Howed).
  { destruct p as [q|]; injection Hview as <-; do 2 eexists; (split; [done|]).
    - unfold owed. destruct (s_obligations inner !! (t, q)) as [records|] eqn:Hq.
      + destruct (Hobs _ _ Hq) as [Hne _]. rewrite bool_decide_false //. split; [intros _|done].
        apply map_choose in Hne as (kind & ob & Hk). exists q, kind. rewrite Hq /=. split; [done|]. by exists ob.
      + split; [done|]. intros (q' & kind & [= <-] & [ob Hob]). by rewrite Hq in Hob.
    - split; [done|]. by intros (q & kind & ? & _). }
  cbn [tv_state tv_clock tv_tips tv_pending_missing tv_owed].
  pose proof (λ d, pending_missing_spec (s_pool inner) t d (so_pool _ Hok)) as Hmiss.
  split; [exact (so_topics _ Hok t state0 Hst)|]. split; [intros i; apply (so_heads _ Hok)|].
  split; [intros a; rewrite Htips; apply (so_clock _ Hok)|]. split; [|split; [|split; [exact Hmiss|exact Howed]]].
  - intros a s i Hs. rewrite Htips in Hs. pose proof (lo_tip _ (so_log _ Hok) t a) as Htip.
    rewrite Hs in Htip. destruct Htip as [Hsi Hall]. split; [by apply (lo_seq _ (so_log _ Hok))|].
    intros s' j Hj. apply (lo_seq _ (so_log _ Hok)) in Hj.
    assert (1 ≤ s' ≤ s) by (apply Hall; by eexists). lia.
  - intros d (i & r & Hr & _ & Hd)%Hmiss. by apply (so_buffered _ Hok i r).
Qed.

(** ** Paging *)

(** Positions [start], [start + 1], ... *)
Definition positions_from (start : N) (n : nat) : list N := (λ k, start + N.of_nat k) <$> seq 0 n.

Lemma elem_of_positions start n s : s ∈ positions_from start n ↔ start ≤ s < start + N.of_nat n.
Proof.
  unfold positions_from. rewrite list_elem_of_fmap. setoid_rewrite elem_of_seq. split.
  - intros (k & -> & Hk). lia.
  - intros Hs. exists (N.to_nat (s - start)). lia.
Qed.

Lemma positions_sorted start n : StronglySorted blt (positions_from start n).
Proof.
  unfold positions_from. generalize 0%nat. induction n as [|n IH]; intros k; [constructor|].
  cbn [seq fmap list_fmap]. constructor; [apply IH|]. apply Forall_forall.
  intros x (j & -> & Hj)%list_elem_of_fmap. apply elem_of_seq in Hj. unfold blt. simpl.
  apply N.compare_lt_iff. lia.
Qed.

(** The last position of an actor. *)
Definition tip_of inner (t : TopicId) (a : ActorId) : N :=
  default 0 (fst <$> l_actor_tip (s_log inner) !! (t, a)).

(** Reading an actor's range after a position returns the operations at the
    next positions, one after the other without a gap, up to the limit or the
    actor's tip, whichever comes first. *)
Theorem actor_range_contiguous inner t a after limit :
  store_ok inner → tip_of inner t a ≤ u64_max →
  let l := actor_range_locked inner t a after limit in
  l.*1 = positions_from (after + 1) (min limit (N.to_nat (tip_of inner t a - after))) ∧
  ∀ s i, (s, i) ∈ l → at_position (l_meta (s_log inner)) t a s i.
Proof.
  intros Hok Htip l.
  assert (∀ s, is_Some (l_actor_by_seq (s_log inner) !! (t, a, s)) ↔ 1 ≤ s ≤ tip_of inner t a) as Hdom.
  { intros s. unfold tip_of. pose proof (lo_tip _ (so_log _ Hok) t a) as Hlo.
    destruct (l_actor_tip (s_log inner) !! (t, a)) as [[q i]|]; simpl; [apply Hlo|].
    rewrite Hlo. split; [by intros []|lia]. }
  unfold l, actor_range_locked. destruct (checked_add after 1) as [start|] eqn:Hstart.
  2: { apply checked_add_None in Hstart. replace (N.to_nat _) with O by lia. rewrite Nat.min_0_r.
    split; [done|]. by intros s i ?%elem_of_nil. }
  apply checked_add_Some in Hstart as [-> Hmax].
  destruct (range_entries (l_actor_by_seq (s_log inner)) (t, a)
    (λ e, ble (t, a, after + 1) e.1 ∧ ble e.1 (t, a, u64_max))) as [Hs Hin].
  { intros [[[t' a'] s] v]. cbn [fst]. rewrite ble_squeeze. by intros [-> _]. }
  set (full := _ <$> filter _ _) in Hs, Hin. rewrite fmap_take. fold full.
  assert (full.*1 = positions_from (after + 1) (N.to_nat (tip_of inner t a - after))) as Hfull.
  { apply sorted_blt_unique; [done|apply positions_sorted|]. intros s.
    rewrite elem_of_positions list_elem_of_fmap. split.
    - intros ([s' i] & -> & [Hsi Hr]%Hin). rewrite ble_squeeze in Hr. destruct Hr as (_ & Hlo & _).
      assert (1 ≤ s' ≤ tip_of inner t a) by (apply Hdom; by eexists).
      unfold ble in Hlo. simpl in Hlo. rewrite N.compare_le_iff in Hlo. simpl. lia.
    - intros Hr. destruct (proj2 (Hdom s)) as [i Hi]; [lia|]. exists (s, i). split; [done|].
      apply Hin. split; [done|]. rewrite ble_squeeze. split; [done|]. unfold ble. simpl.
      rewrite !N.compare_le_iff. lia. }
  split.
  - rewrite fmap_take Hfull. unfold positions_from. by rewrite -fmap_take take_seq.
  - intros s i Hsi. apply (lo_seq _ (so_log _ Hok)).
    apply elem_of_take in Hsi as (k & Hk%list_elem_of_lookup_2 & _). by apply Hin in Hk as [? _].
Qed.

(** The cursor a page of dependencies ends at. *)
Definition cursor_next (cursor : DependencyCursor) (ids : list OpId) : DependencyCursor :=
  match last ids with
  | Some after => {| dc_offset := (dc_offset cursor + length ids)%nat; dc_after := Some after |}
  | None => cursor
  end.

(** A cursor that [dependency_ids] hands out: it counts what lies before it. *)
Definition cursor_ok (deps : gset OpId) (cursor : DependencyCursor) : Prop :=
  (dc_offset cursor + length (bt_after deps (dc_after cursor)) = size deps)%nat ∧
  match dc_after cursor with Some a => a ∈ deps ∧ (0 < dc_offset cursor)%nat | None => dc_offset cursor = O end.

Lemma cursor_start_ok deps : cursor_ok deps cursor_start.
Proof. split; [|done]. simpl. by rewrite bt_after_None bt_elements_length. Qed.

(** A page that is not empty ends at an element, after which the rest begins. *)
Lemma cursor_next_rest deps cursor limit a :
  last (page deps (dc_after cursor) limit) = Some a →
  page deps (dc_after cursor) limit ++ bt_after deps (Some a) = bt_after deps (dc_after cursor) ∧ a ∈ deps.
Proof.
  intros (l & Hp)%last_Some. unfold page in *. set (rest := bt_after deps (dc_after cursor)) in *.
  assert (rest = l ++ a :: drop limit rest) as Hsplit
    by by rewrite -{1}(take_drop limit rest) Hp -app_assoc.
  rewrite (bt_after_split _ _ _ _ _ Hsplit). split; [apply take_drop|].
  assert (a ∈ rest) as [Ha _]%elem_of_bt_after by (rewrite Hsplit; set_solver). done.
Qed.

Lemma cursor_next_ok deps cursor limit :
  cursor_ok deps cursor → cursor_ok deps (cursor_next cursor (page deps (dc_after cursor) limit)).
Proof.
  intros [Hcount Hcur]. unfold cursor_next.
  destruct (last (page deps (dc_after cursor) limit)) as [a|] eqn:Hlast; [|done].
  destruct (cursor_next_rest _ _ _ _ Hlast) as [Hrest Ha]. apply (f_equal length) in Hrest.
  rewrite length_app in Hrest. split; cbn [dc_offset dc_after]; [lia|]. split; [done|].
  destruct (page deps (dc_after cursor) limit); [done|]. simpl. lia.
Qed.

(** A cursor that was handed out is accepted. *)
Lemma dependency_ids_page inner i meta cursor limit :
  l_meta (s_log inner) !! i = Some meta → (0 < limit)%nat → cursor_ok (om_deps meta) cursor →
  dependency_ids inner i cursor limit = Ok (Some (page (om_deps meta) (dc_after cursor) limit)).
Proof.
  intros Hm Hl [Hcount Hcur]. unfold dependency_ids. rewrite decide_False; [lia|]. rewrite Hm.
  rewrite bool_decide_false; [lia|]. cbn [orb].
  assert (eqb (bool_decide (dc_offset cursor = O)) (bool_decide (dc_after cursor = None)) = true) as ->.
  { destruct (dc_after cursor) as [a|].
    - destruct Hcur as [_ Hpos]. rewrite bool_decide_false; [lia|done].
    - by rewrite !bool_decide_true. }
  assert (match dc_after cursor with
    | Some after => bool_decide (after ∉ om_deps meta) | None => false end = false) as ->.
  { destruct (dc_after cursor) as [a|]; [|done]. destruct Hcur as [Ha _]. apply bool_decide_false. by intros []. }
  done.
Qed.

(** Reading dependencies in pages from the start never fails on a cursor it
    returned, and the pages enumerate the dependencies of the operation in order,
    each exactly once: a page and the next one are together the page of both
    lengths, and a page that is shorter than its limit is the last. *)
Theorem dependency_pages inner i meta cursor limit :
  l_meta (s_log inner) !! i = Some meta → (0 < limit)%nat → cursor_ok (om_deps meta) cursor →
  ∃ ids, dependency_ids inner i cursor limit = Ok (Some ids) ∧
    cursor_ok (om_deps meta) (cursor_next cursor ids) ∧
    ids = take limit (bt_after (om_deps meta) (dc_after cursor)) ∧
    (ids ≠ [] → ids ++ bt_after (om_deps meta) (dc_after (cursor_next cursor ids)) =
      bt_after (om_deps meta) (dc_after cursor)) ∧
    ((length ids < limit)%nat → ids = bt_after (om_deps meta) (dc_after cursor)).
Proof.
  intros Hm Hl Hcur. exists (page (om_deps meta) (dc_after cursor) limit).
  split; [by apply dependency_ids_page|]. split; [by apply cursor_next_ok|]. split; [done|]. split.
  - intros Hne. unfold cursor_next.
    destruct (last (page (om_deps meta) (dc_after cursor) limit)) as [a|] eqn:Hlast; [|by apply last_None in Hlast].
    by apply (cursor_next_rest _ _ _ _ Hlast).
  - unfold page. rewrite length_take. intros Hlt. rewrite take_ge //. lia.
Qed.

(** Listing a topic's ids in pages gives all of them, in order, each once: the
    page after the last id of a page continues it exactly, and a page as long as the
    topic is the whole list. *)
Theorem topic_ids_pages inner t after (n k : nat) a :
  store_ok inner → last (topic_ids_after inner t after n) = Some a →
  topic_ids_after inner t after n ++ topic_ids_after inner t (Some a) k =
    topic_ids_after inner t after (n + k)%nat ∧
  topic_ids_after inner t None (size (topic_ids_locked inner t)) = bt_elements (topic_ids_locked inner t) ∧
  ∀ i, i ∈ topic_ids_locked inner t ↔ ∃ m, l_meta (s_log inner) !! i = Some m ∧ om_topic_id m = t.
Proof.
  intros Hok Hlast. split; [|split].
  - unfold topic_ids_after in *. destruct (l_topic_ops (s_log inner) !! t); [|done]. by apply page_next.
  - unfold topic_ids_after, topic_ids_locked. destruct (l_topic_ops (s_log inner) !! t); [|done].
    by apply page_all.
  - intros i. apply (proj1 (lo_topic _ (so_log _ Hok))).
Qed.

(** ** Evidence *)

(** The peers that reached an operation are listed in ascending order,
    each once, and are exactly those for which [peer_reached_op] holds. *)
Theorem peers_reached_exact inner i :
  consistent inner →
  StronglySorted blt (peers_reached_op inner i) ∧
  ∀ p, p ∈ peers_reached_op inner i ↔ peer_reached_op inner p i = true.
Proof.
  intros Hco. unfold peers_reached_op, peer_reached_op.
  destruct (stored_op_branch inner i) as [[meta genesis]|]; [|split; [constructor|]].
  2: { intros p. by rewrite elem_of_nil. }
  set (reached := λ ack : PeerAck C, ack_topic_id ack = om_topic_id meta ∧
    ack_reached_op ack genesis i (position_of meta) = true).
  set (l := ack_peer_id <$> filter _ _).
  assert (∀ p, p ∈ l ↔ ∃ ack, s_peer_acks inner !! (p, om_topic_id meta) = Some ack ∧
    ack_reached_op ack genesis i (position_of meta) = true) as Hl.
  { intros p. unfold l. rewrite list_elem_of_fmap. split.
    - intros (ack & -> & [[Ht Hr] ([key ack'] & Heq & Hin)%list_elem_of_fmap]%list_elem_of_filter).
      simpl in Heq. subst ack'. apply elem_of_bt_entries in Hin. exists ack. split; [|done].
      pose proof (co_acks _ Hco _ _ Hin) as Hkey. by rewrite -Ht Hkey.
    - intros (ack & Hin & Hr). pose proof (co_acks _ Hco _ _ Hin) as [= Hp Ht]. exists ack.
      split; [done|]. apply list_elem_of_filter. split; [done|]. apply list_elem_of_fmap.
      exists ((p, om_topic_id meta), ack). split; [done|]. by apply elem_of_bt_entries. }
  assert (NoDup l) as Hnd.
  { unfold l. apply NoDup_fmap_2_strong.
    - intros a1 a2 [[Ht1 _] ([k1 ?] & -> & H1)%list_elem_of_fmap]%list_elem_of_filter
        [[Ht2 _] ([k2 ?] & -> & H2)%list_elem_of_fmap]%list_elem_of_filter Hp. simpl in *.
      apply elem_of_bt_entries in H1, H2.
      pose proof (co_acks _ Hco _ _ H1) as <-. pose proof (co_acks _ Hco _ _ H2) as <-.
      rewrite Hp Ht1 -Ht2 in H1. rewrite H1 in H2. by injection H2.
    - apply NoDup_filter, NoDup_fmap_2_strong.
      + intros [k1 a1] [k2 a2] H1%elem_of_bt_entries H2%elem_of_bt_entries Heq. simpl in Heq. subst a2.
        pose proof (co_acks _ Hco _ _ H1) as <-. pose proof (co_acks _ Hco _ _ H2) as <-. done.
      + eapply NoDup_fmap_1. apply bt_entries_NoDup. }
  split.
  - assert (merge_sort ble l = bt_elements (list_to_set l)) as ->; [|apply bt_elements_sorted].
    unfold bt_elements. apply (StronglySorted_unique ble); [apply (StronglySorted_merge_sort ble)..|].
    by rewrite !merge_sort_Permutation elements_list_to_set.
  - intros p. rewrite merge_sort_Permutation Hl.
    destruct (s_peer_acks inner !! (p, om_topic_id meta)) as [ack|]; [|by split; [intros (? & ? & _)|]].
    split; [by intros (? & [= <-] & ?)|]. intros Hr. by exists ack.
Qed.

Lemma take_while_closed {A} (f : A → bool) (l : list A) :
  (∀ l1 x l2, l = l1 ++ x :: l2 → f x = false → ∀ y, y ∈ l2 → f y = false) →
  take_while f l = filter (λ x, f x = true) l.
Proof.
  induction l as [|x l IH]; intros Hclosed; [done|]. cbn [take_while]. rewrite filter_cons.
  case_decide as Hx.
  - rewrite Hx. f_equal. apply IH. intros l1 y l2 Hl. apply (Hclosed (x :: l1)). by rewrite Hl.
  - apply not_true_iff_false in Hx. rewrite Hx.
    assert (∀ y, y ∈ l → f y = false) as Hall by (intros y; by apply (Hclosed [] x l)).
    clear -Hall. induction l as [|y l IH]; [done|]. rewrite filter_cons_False.
    { rewrite Hall; [by left|done]. }
    apply IH. intros z Hz. apply Hall. by right.
Qed.

(** The entries [topic_obligation_counts] visits. *)
Lemma topic_entries inner t :
  let l := take_while (λ e, bool_decide (e.1.1 = t))
      (filter (λ e, ble (t, id_min) e.1) (bt_entries (s_obligations inner))) in
  NoDup l.*1 ∧ (∀ e, e ∈ l → e.1.1 = t) ∧
  ∀ p records, ((t, p), records) ∈ l ↔ s_obligations inner !! (t, p) = Some records.
Proof.
  intros l. set (full := filter _ _) in l.
  assert (StronglySorted blt full.*1) as Hs.
  { pose proof (bt_elements_sorted (dom (s_obligations inner) : gset (TopicId * PeerId))) as Hs.
    rewrite -bt_entries_keys in Hs. unfold full. clear l full.
    induction (bt_entries (s_obligations inner)) as [|e l IH]; [constructor|].
    rewrite fmap_cons in Hs. apply StronglySorted_inv in Hs as [Hs Hall]. rewrite filter_cons.
    case_decide; [|by apply IH]. rewrite fmap_cons. constructor; [by apply IH|].
    apply Forall_forall. intros k (e' & -> & [_ Hin]%list_elem_of_filter)%list_elem_of_fmap.
    apply (proj1 (Forall_forall _ _) Hall). by apply list_elem_of_fmap_2. }
  assert (l = filter (λ e, bool_decide (e.1.1 = t) = true) full) as ->.
  { apply take_while_closed. intros l1 x l2 Hl Hx y Hy. apply bool_decide_eq_false in Hx.
    apply bool_decide_eq_false. intros Hyt.
    assert (ble (t, id_min) x.1) as Hlo.
    { assert (x ∈ full) as [Hx' _]%list_elem_of_filter by (rewrite Hl; set_solver). done. }
    rewrite Hl fmap_app fmap_cons in Hs. apply StronglySorted_app in Hs as (_ & _ & Hs).
    apply StronglySorted_inv in Hs as [_ Hall].
    assert (blt x.1 y.1) as Hlt by (apply (proj1 (Forall_forall _ _) Hall), list_elem_of_fmap_2, Hy).
    destruct x as [[xt xp] xr], y as [[yt yp] yr]. cbn [fst] in *. subst yt.
    apply ble_pair in Hlo as [Hlo|[-> _]]; [|done].
    apply (blt_asym t xt Hlo). by apply blt_pair in Hlt as [?|[? _]]. }
  assert (∀ e, e ∈ filter (λ e, bool_decide (e.1.1 = t) = true) full ↔ e ∈ full ∧ e.1.1 = t) as Hin.
  { intros e. rewrite list_elem_of_filter bool_decide_eq_true. tauto. }
  split; [|split].
  - assert (NoDup full.*1) as Hnd.
    { clear -Hs. induction Hs as [|x k Hs IH Hall]; [constructor|]. constructor; [|done].
      intros Hx. apply (proj1 (Forall_forall _ _) Hall) in Hx. by apply blt_irrefl in Hx. }
    clear -Hnd. induction full as [|e k IH]; [constructor|]. rewrite fmap_cons in Hnd.
    apply NoDup_cons in Hnd as [He Hnd]. rewrite filter_cons. case_decide; [|by apply IH].
    rewrite fmap_cons. constructor; [|by apply IH]. intros (e' & Heq & [_ Hin]%list_elem_of_filter)%list_elem_of_fmap.
    apply He. apply list_elem_of_fmap. by exists e'.
  - intros e He. by apply Hin in He as [_ ?].
  - intros p records. rewrite Hin. unfold full. rewrite list_elem_of_filter elem_of_bt_entries. simpl.
    split; [tauto|]. intros Hr. split_and!; [|done..]. apply ble_pair. right. split; [done|]. apply id_bounds.
Qed.

Lemma counts_fold (t : TopicId) (p : PeerId)
    (l : list (TopicId * PeerId * gmap ObligationKind (SyncObligation C))) (acc : gmap PeerId nat) :
  NoDup l.*1 → (∀ e, e ∈ l → e.1.1 = t) →
  foldl (λ counts '((_, q), records),
    if decide (records = ∅) then counts else <[q := size records]> counts) acc l !! p =
  match (list_to_map l : gmap (TopicId * PeerId) _) !! (t, p) with
  | Some records => if decide (records = ∅) then acc !! p else Some (size records)
  | None => acc !! p
  end.
Proof.
  revert acc. induction l as [|[[t' q] records] l IH]; intros acc Hnd Hkeys; [done|].
  rewrite fmap_cons in Hnd. apply NoDup_cons in Hnd as [Hq Hnd].
  assert (t' = t) as -> by (apply (Hkeys ((t', q), records)); by left).
  cbn [foldl list_to_map foldr curry uncurry]. rewrite IH //; [intros e He; apply Hkeys; by right|].
  destruct (decide (p = q)) as [->|Hne].
  - rewrite lookup_insert_eq. simpl in Hq. rewrite (not_elem_of_list_to_map_1 l (t, q)) //. cbn [snd].
    destruct (decide (records = ∅)); [done|]. by rewrite lookup_insert_eq.
  - rewrite lookup_insert_ne; [by intros [= ->]|].
    destruct (decide (records = ∅)); [done|]. by rewrite lookup_insert_ne.
Qed.

(** The obligation counts of a topic hold one entry for each peer that is
    owed something of it, with the number of its records. *)
Theorem obligation_counts_exact inner t p :
  consistent inner →
  topic_obligation_counts inner t !! p = size <$> s_obligations inner !! (t, p) ∧
  sync_obligation_count inner p t = default O (topic_obligation_counts inner t !! p) ∧
  has_sync_obligations inner p t = bool_decide (is_Some (topic_obligation_counts inner t !! p)).
Proof.
  intros Hco. assert (topic_obligation_counts inner t !! p = size <$> s_obligations inner !! (t, p)) as ->.
  { unfold topic_obligation_counts. destruct (topic_entries inner t) as (Hnd & Hkeys & Hin).
    set (l := take_while _ _) in *.
    assert (∀ records, ((t, p), records) ∈ l → records ≠ ∅) as Hne.
    { intros records Hr. apply Hin in Hr. by apply (co_obligations _ Hco) in Hr as [? _]. }
    rewrite (counts_fold t) //.
    assert ((list_to_map l : gmap (TopicId * PeerId) _) !! (t, p) = s_obligations inner !! (t, p)) as ->.
    { apply option_eq. intros records. by rewrite -elem_of_list_to_map // Hin. }
    destruct (s_obligations inner !! (t, p)) as [records|] eqn:Hr; [|done]. rewrite decide_False //.
    apply Hne, Hin, Hr. }
  split; [done|]. unfold sync_obligation_count, has_sync_obligations.
  destruct (s_obligations inner !! (t, p)) as [records|] eqn:Hr; [|done]. split; [done|].
  destruct (co_obligations _ Hco _ _ Hr) as [Hne _]. by rewrite bool_decide_false.
Qed.
End reads.
