(* ===== verification/Integrity.v ===== *)
(** * Holes of a topic ([src/src/oplog/integrity.rs])

    A hole is an id that stored records reference and that cannot be resolved. A scan
    lists the topic in bounded steps, each in its own snapshot, and resumes where it
    stopped. This file models a step and the loop of [stateless_holes]: on one snapshot
    the loop ends and finds exactly the holes. [IntegrityRun.v] interleaves the steps
    with writers.

    Snapshots are used through the class [SnapshotRead], the part of the trait of that
    name a scan needs; the memory store is an instance. *)

From stdpp Require Import relations.
From S2P Require Import Prelude Ids Pages Frame ClockSpec Types Evidence Records Pool Store StoreReads.

#[local] Open Scope N_scope.

(** ** The interface of snapshots *)

(** The reads of a snapshot, and what they are reads of: the ids listed for a topic,
    the dependencies of stored positions and the ids that resolve. A read may fail;
    when it answers, it answers for this content. *)
Class SnapshotRead (R : Type) := {
  rd_key : R → TopicId → res (option (OpId * N));
  rd_header : R → OpId → res (option OpHeader);
  rd_dep_resolvable : R → OpId → res bool;
  rd_topic_ids_after : R → TopicId → option OpId → nat → res (list OpId);
  rd_dependency_ids : R → OpId → DependencyCursor → nat → res (option (list OpId));

  rd_epoch : R → TopicId → N;
  rd_ids : R → TopicId → gset OpId;
  rd_deps : R → OpId → option (gset OpId);
  rd_stored : R → OpId → bool;

  rd_key_ok r t k : rd_key r t = Ok (Some k) → k.2 = rd_epoch r t;
  rd_header_ok r i h : rd_header r i = Ok h → is_Some h ↔ is_Some (rd_deps r i);
  rd_resolvable_ok r i b : rd_dep_resolvable r i = Ok b → b = rd_stored r i;
  rd_ids_ok r t after n l : rd_topic_ids_after r t after n = Ok l → l = page (rd_ids r t) after n;
  rd_deps_ok r i c n o : rd_dependency_ids r i c n = Ok o →
    o = (λ ds, page ds (dc_after c) n) <$> rd_deps r i;
  rd_stored_deps r i : rd_stored r i = true → is_Some (rd_deps r i);
}.

(** A snapshot whose reads do not fail, for cursors it handed out. *)
Class ReliableRead (R : Type) `{!SnapshotRead R} : Prop := {
  rd_header_total r i : is_ok (rd_header r i) = true;
  rd_resolvable_total r i : is_ok (rd_dep_resolvable r i) = true;
  rd_ids_total r t after n : is_ok (rd_topic_ids_after r t after n) = true;
  rd_deps_total r i c n :
    (0 < n)%nat → (∀ ds, rd_deps r i = Some ds → cursor_ok ds c) → is_ok (rd_dependency_ids r i c n) = true;
}.

(** ** Steps of a scan *)

(** [Holes]: unresolved ids, each with its generation when its position is stored *)
Abbreviation Holes := (gmap OpId (option N)).

(** [struct Cursor] *)
Record Cursor := { cu_after : option OpId; cu_open : option (OpId * DependencyCursor) }.
#[global] Instance DependencyCursor_eq_dec : EqDecision DependencyCursor.
Proof. solve_decision. Defined.
#[global] Instance Cursor_eq_dec : EqDecision Cursor.
Proof. solve_decision. Defined.

Definition scan_start : Cursor := {| cu_after := None; cu_open := None |}.

(** [struct Step] *)
Record Step := { sp_cursor : Cursor; sp_holes : Holes; sp_done : bool }.

(** [STEP_READS] *)
Definition STEP_READS : nat := 65536.

(** [holes.entry(id).or_insert(generation)] *)
Definition or_insert (holes : Holes) (i : OpId) (generation : option N) : Holes :=
  match holes !! i with Some _ => holes | None => <[i := generation]> holes end.

Definition with_cursor (step : Step) (c : Cursor) : Step :=
  {| sp_cursor := c; sp_holes := sp_holes step; sp_done := sp_done step |}.
Definition with_holes (step : Step) (h : Holes) : Step :=
  {| sp_cursor := sp_cursor step; sp_holes := h; sp_done := sp_done step |}.

(** [step.cursor.after = Some(id)] *)
Definition passed_id (step : Step) (i : OpId) : Step :=
  with_cursor step {| cu_after := Some i; cu_open := cu_open (sp_cursor step) |}.
(** [step.cursor.open = ...] *)
Definition opened (step : Step) (o : option (OpId * DependencyCursor)) : Step :=
  with_cursor step {| cu_after := cu_after (sp_cursor step); cu_open := o |}.

Section scan.
Context {R : Type} `{!SnapshotRead R}.
Implicit Types (read : R).

(** The check of one dependency *)
Definition check_dep read (holes : Holes) (d : OpId) : res Holes :=
  resolvable ← rd_dep_resolvable read d;
  Ok (if resolvable : bool then holes else or_insert holes d None).

(** [read_edges]: whether all were read, what is left, and the step. Every round
    spends from [left], so [S left] rounds are enough. *)
Fixpoint read_edges (fuel : nat) read (i : OpId) (from : DependencyCursor) (left : nat) (step : Step)
    : res (bool * nat * Step) :=
  match fuel with
  | O => Err (Storage "unreachable")
  | S fuel =>
      if decide (left = O) then Ok (false, left, opened step (Some (i, from)))
      else
        page ← rd_dependency_ids read i from left;
        match page with
        | None => Ok (true, left, passed_id (with_holes step (or_insert (sp_holes step) i None)) i)
        | Some deps =>
            holes ← try_fold (check_dep read) (sp_holes step) deps;
            if decide (length deps < left)%nat
            then Ok (true, (left - length deps)%nat, passed_id (with_holes step holes) i)
            else read_edges fuel read i
                   {| dc_offset := (dc_offset from + length deps)%nat; dc_after := last deps |}
                   (left - length deps) (with_holes step holes)
        end
  end.

(** The body of the loop over the listed ids: whether its edges were all read. *)
Definition scan_id read (i : OpId) (left : nat) (step : Step) : res (bool * nat * Step) :=
  header ← rd_header read i;
  match header with
  | None => Ok (true, left, passed_id (with_holes step (<[i := None]> (sp_holes step))) i)
  | Some h =>
      resolvable ← rd_dep_resolvable read i;
      let step := if resolvable : bool then step
                  else with_holes step (<[i := Some (hd_generation h)]> (sp_holes step)) in
      read_edges (S left) read i cursor_start left step
  end.

(** The loop over the listed ids: whether it reached their end. *)
Fixpoint scan_ids read (ids : list OpId) (left : nat) (step : Step) : res (bool * Step) :=
  match ids with
  | [] => Ok (true, step)
  | i :: rest =>
      '(all, left, step) ← scan_id read i (left - 1) step;
      if negb all then Ok (false, step)
      else if bool_decide (left = O) && negb (bool_decide (rest = [])) then Ok (false, step)
      else scan_ids read rest left step
  end.

(** [scan_step] from where its listing starts *)
Definition scan_listing read (t : TopicId) (left : nat) (step : Step) : res Step :=
  if decide (left = O) then Ok step
  else
    ids ← rd_topic_ids_after read t (cu_after (sp_cursor step)) left;
    '(all, step) ← scan_ids read ids left step;
    Ok (if all : bool
        then {| sp_cursor := sp_cursor step; sp_holes := sp_holes step;
                sp_done := bool_decide (length ids < left)%nat |}
        else step).

(** [scan_step] *)
Definition scan_step read (t : TopicId) (cursor : Cursor) (reads : nat) : res Step :=
  let step := {| sp_cursor := cursor; sp_holes := ∅; sp_done := false |} in
  let left := Nat.max reads 1 in
  match cu_open cursor with
  | Some (i, from) =>
      '(all, left, step) ← read_edges (S left) read i from left (opened step None);
      if negb all then Ok step else scan_listing read t left step
  | None => scan_listing read t left step
  end.

(** [known.or(generation)] of the merge of a step into the holes found before *)
Definition merge_holes (found new : Holes) : Holes :=
  union_with (λ known generation, Some (match known with Some _ => known | None => generation end)) found new.

(** The loop of [stateless_holes] over one snapshot. *)
Fixpoint holes_loop (fuel : nat) read (t : TopicId) (reads : nat) (cursor : Cursor) (holes : Holes)
    : option (res Holes) :=
  match fuel with
  | O => None
  | S fuel =>
      match scan_step read t cursor reads with
      | Err e => Some (Err e)
      | Ok step =>
          let holes := merge_holes holes (sp_holes step) in
          if sp_done step then Some (Ok holes)
          else holes_loop fuel read t reads (sp_cursor step) holes
      end
  end.

Definition stateless_holes (fuel : nat) read (t : TopicId) : option (res Holes) :=
  holes_loop fuel read t STEP_READS scan_start ∅.

(** ** What a scan has seen *)

(** The stored records of [i], listed for [t], reference [h], which does not resolve. *)
Definition hole_of read (i h : OpId) : Prop :=
  rd_stored read h = false ∧ (h = i ∨ ∃ ds, rd_deps read i = Some ds ∧ h ∈ ds).
Definition hole_at read (t : TopicId) (i h : OpId) : Prop := i ∈ rd_ids read t ∧ hole_of read i h.

(** The scan is past the reference from [i] to [h]: past [i], or in the dependencies of
    an operation after [i], or past [h] in those of [i]. *)
Definition edges_seen (c : DependencyCursor) (i h : OpId) : Prop :=
  h = i ∨ ¬ beyond (dc_after c) h.
Definition scanned (c : Cursor) (i h : OpId) : Prop :=
  ¬ beyond (cu_after c) i ∨
  ∃ io from, cu_open c = Some (io, from) ∧ (blt i io ∨ i = io ∧ edges_seen from i h).

(** ** The edges of one operation *)

Lemma no_holes (h : OpId) : h ∉ dom (∅ : Holes).
Proof. rewrite dom_empty_L. apply not_elem_of_empty. Qed.

Lemma or_insert_dom (holes : Holes) i g : dom (or_insert holes i g) = {[i]} ∪ dom holes.
Proof.
  unfold or_insert. destruct (holes !! i) eqn:Hi; [|by rewrite dom_insert_L].
  assert (i ∈ dom holes) by (apply elem_of_dom; by eexists). set_solver.
Qed.

Lemma check_deps_ok read ds holes holes' :
  try_fold (check_dep read) holes ds = Ok holes' →
  ∀ h, h ∈ dom holes' ↔ h ∈ dom holes ∨ h ∈ ds ∧ rd_stored read h = false.
Proof.
  revert holes. induction ds as [|d ds IH]; intros holes; simpl.
  { intros [= <-] h. set_solver. }
  unfold check_dep at 1. destruct (rd_dep_resolvable read d) as [b|] eqn:Hd; [|done]. res_step.
  apply rd_resolvable_ok in Hd as ->. intros Hf h. rewrite (IH _ Hf h).
  rewrite elem_of_cons. destruct (rd_stored read d) eqn:Hs; [|rewrite or_insert_dom elem_of_union elem_of_singleton];
    naive_solver congruence.
Qed.

Lemma not_stored_missing read i : rd_deps read i = None → hole_of read i i.
Proof.
  intros Hn. split; [|by left]. destruct (rd_stored read i) eqn:Hs; [|done].
  apply rd_stored_deps in Hs. rewrite Hn in Hs. by destruct Hs.
Qed.

(** What reading the edges of [i] from [from] on adds: only holes of [i], and all that
    lie between the two cursors. *)
Record edges_read (read : R) (i : OpId) (from : DependencyCursor) (step : Step) (left : nat)
    (all : bool) (step' : Step) : Prop := {
  er_grows : dom (sp_holes step) ⊆ dom (sp_holes step');
  er_sound h : h ∈ dom (sp_holes step') → h ∈ dom (sp_holes step) ∨ hole_of read i h;
  er_done : sp_done step' = sp_done step;
  er_cursor : if all then sp_cursor step' = {| cu_after := Some i; cu_open := cu_open (sp_cursor step) |}
              else ∃ from', sp_cursor step' =
                     {| cu_after := cu_after (sp_cursor step); cu_open := Some (i, from') |};
  er_all h : hole_of read i h → h ≠ i → all = true →
    ¬ beyond (dc_after from) h ∨ h ∈ dom (sp_holes step');
  er_part h from' : hole_of read i h → h ≠ i → cu_open (sp_cursor step') = Some (i, from') → all = false →
    ¬ beyond (dc_after from') h → ¬ beyond (dc_after from) h ∨ h ∈ dom (sp_holes step');
}.

(** Elements of a range up to the last of a page are in the page. *)
Lemma page_upto (X : gset OpId) after n a x :
  last (page X after n) = Some a → x ∈ X → ¬ beyond (Some a) x → ¬ beyond after x ∨ x ∈ page X after n.
Proof.
  intros Hlast Hx Hxa. destruct (decide (beyond after x)) as [Hb|]; [right|by left].
  pose proof Hlast as (l & Hp)%last_Some.
  assert (x ∈ bt_after X after) as Hin by by apply elem_of_bt_after.
  assert (bt_after X after = l ++ a :: drop n (bt_after X after)) as Hsplit.
  { rewrite -{1}(take_drop n (bt_after X after)). unfold page in Hp. by rewrite Hp -app_assoc. }
  pose proof (bt_after_split X after _ _ _ Hsplit) as Hrest.
  rewrite Hsplit in Hin. rewrite Hp. apply elem_of_app in Hin as [?|[->|Hin]%elem_of_cons]; [set_solver..|].
  destruct Hxa. rewrite -Hrest in Hin. by apply elem_of_bt_after in Hin as [_ ?].
Qed.

Lemma elem_of_page (X : gset OpId) after n x : x ∈ page X after n → x ∈ X ∧ beyond after x.
Proof. intros (k & Hk & _)%elem_of_take. by apply elem_of_bt_after, (list_elem_of_lookup_2 _ k). Qed.

Lemma page_sorted (X : gset OpId) after n : StronglySorted blt (page X after n).
Proof.
  pose proof (bt_after_sorted X after) as Hs. rewrite -(take_drop n (bt_after X after)) in Hs.
  by apply StronglySorted_app in Hs as (_ & Hs & _).
Qed.

(** A page has no gap. *)
Lemma page_down (X : gset OpId) after n x y :
  x ∈ page X after n → y ∈ X → beyond after y → ¬ beyond (Some x) y → y ∈ page X after n.
Proof.
  intros Hx Hy Hb Hxy. assert (y ∈ bt_after X after) as Hin by by apply elem_of_bt_after.
  pose proof (bt_after_sorted X after) as Hs. rewrite -(take_drop n (bt_after X after)) in Hs, Hin.
  apply StronglySorted_app in Hs as (Hcross & _ & _). apply elem_of_app in Hin as [?|Hin]; [done|].
  destruct Hxy. by apply Hcross.
Qed.

Lemma page_short (X : gset OpId) after n : (length (page X after n) < n)%nat → page X after n = bt_after X after.
Proof. unfold page. rewrite length_take. intros Hl. apply take_ge. lia. Qed.

Lemma page_length (X : gset OpId) after n : (length (page X after n) ≤ n)%nat.
Proof. unfold page. rewrite length_take. lia. Qed.

Lemma hole_of_dep read i h : hole_of read i h → h ≠ i → ∃ ds, rd_deps read i = Some ds ∧ h ∈ ds.
Proof. intros [_ [?|?]]; done. Qed.

Lemma read_edges_ok fuel read i from left step all left' step' :
  read_edges fuel read i from left step = Ok (all, left', step') →
  edges_read read i from step left all step' ∧ (left' ≤ left)%nat ∧ (all = true → (0 < left')%nat).
Proof.
  revert from left step. induction fuel as [|fuel IH]; intros from left step; [done|]. cbn [read_edges].
  destruct (decide (left = O)) as [->|Hl].
  { intros [= <- <- <-]. split; [|split; [lia|done]]. split; cbn [opened with_cursor sp_holes sp_done sp_cursor cu_open].
    - done.
    - by left.
    - done.
    - by eexists.
    - done.
    - intros h from' _ _ [= <-] _ Hb. by left. }
  destruct (rd_dependency_ids read i from left) as [o|] eqn:Ho; [|done]. res_step.
  apply rd_deps_ok in Ho as ->. destruct (rd_deps read i) as [ds|] eqn:Hds; cbn [fmap option_fmap option_map].
  2:{ intros [= <- <- <-]. split; [|split; [lia|lia]].
      split; cbn [passed_id with_holes with_cursor sp_holes sp_done sp_cursor cu_open].
      - rewrite or_insert_dom. set_solver.
      - intros h. rewrite or_insert_dom elem_of_union elem_of_singleton. intros [->|?]; [|by left].
        right. by apply not_stored_missing.
      - done.
      - done.
      - intros h Hh Hne. destruct (hole_of_dep _ _ _ Hh Hne) as (ds & Hds' & _). congruence.
      - done. }
  destruct (try_fold _ _ _) as [holes|] eqn:Hf; [|done]. res_step.
  pose proof (check_deps_ok _ _ _ _ Hf) as Hholes.
  assert (∀ h, h ∈ dom holes → h ∈ dom (sp_holes step) ∨ hole_of read i h) as Hsound.
  { intros h [?|[Hin Hs]]%Hholes; [by left|right]. split; [done|right]. exists ds. split; [done|].
    by apply elem_of_page in Hin as [? _]. }
  destruct (decide _) as [Hlt|Hge].
  - intros [= <- <- <-]. split; [|split; [lia|lia]].
    split; cbn [passed_id with_holes with_cursor sp_holes sp_done sp_cursor cu_open]; try done.
    + intros h Hh. apply Hholes. by left.
    + intros h Hh Hne _. destruct (hole_of_dep _ _ _ Hh Hne) as (ds' & Hds' & Hin).
      rewrite Hds in Hds'. injection Hds' as <-.
      destruct (decide (beyond (dc_after from) h)); [right|by left]. apply Hholes. right.
      rewrite page_short //. split; [by apply elem_of_bt_after|apply Hh].
  - intros [[Hg Hsnd Hdone Hcur Hall Hpart] Hleft]%IH. split; [|split; [lia|apply Hleft]].
    cbn [with_holes sp_holes sp_done sp_cursor] in Hg, Hsnd, Hdone, Hcur.
    assert (∃ a, last (page ds (dc_after from) left) = Some a) as [a Ha].
    { destruct (last _) eqn:Hlast; [by eexists|]. apply last_None in Hlast. rewrite Hlast /= in Hge. lia. }
    assert (∀ h, hole_of read i h → h ≠ i → ¬ beyond (Some a) h → ¬ beyond (dc_after from) h ∨ h ∈ dom (sp_holes step')) as Hupto.
    { intros h Hh Hne Hb. destruct (hole_of_dep _ _ _ Hh Hne) as (ds' & Hds' & Hin).
      rewrite Hds in Hds'. injection Hds' as <-.
      destruct (page_upto ds _ _ _ h Ha Hin Hb); [by left|right]. apply Hg, Hholes. right. split; [done|apply Hh]. }
    split; try done.
    + intros h Hh. apply Hg, Hholes. by left.
    + intros h [Hh|?]%Hsnd; [by apply Hsound|by right].
    + intros h Hh Hne Hal. destruct (Hall h Hh Hne Hal) as [Hb|?]; [|by right].
      cbn [dc_after] in Hb. rewrite Ha in Hb. by apply Hupto.
    + intros h from' Hh Hne Hop Hal Hb. destruct (Hpart h from' Hh Hne Hop Hal Hb) as [Hb'|?]; [|by right].
      cbn [dc_after] in Hb'. rewrite Ha in Hb'. by apply Hupto.
Qed.

(** One listed id: all its holes are found when the scan goes on. *)
Lemma scan_id_ok read i left step all left' step' :
  cu_open (sp_cursor step) = None →
  scan_id read i left step = Ok (all, left', step') →
  dom (sp_holes step) ⊆ dom (sp_holes step') ∧
  (∀ h, h ∈ dom (sp_holes step') → h ∈ dom (sp_holes step) ∨ hole_of read i h) ∧
  sp_done step' = sp_done step ∧ (left' ≤ left)%nat ∧
  if all then sp_cursor step' = {| cu_after := Some i; cu_open := None |} ∧
              ∀ h, hole_of read i h → h ∈ dom (sp_holes step')
  else ∃ from, sp_cursor step' = {| cu_after := cu_after (sp_cursor step); cu_open := Some (i, from) |} ∧
              ∀ h, hole_of read i h → edges_seen from i h → h ∈ dom (sp_holes step').
Proof.
  intros Hopen. unfold scan_id. destruct (rd_header read i) as [header|] eqn:Hh; [|done]. res_step.
  apply rd_header_ok in Hh. destruct header as [header|].
  - destruct (rd_dep_resolvable read i) as [b|] eqn:Hb; [|done]. res_step.
    apply rd_resolvable_ok in Hb as ->.
    set (step1 := if rd_stored read i then step else _).
    assert (∀ h, h ∈ dom (sp_holes step1) ↔ h ∈ dom (sp_holes step) ∨ h = i ∧ rd_stored read i = false) as Hdom.
    { intros h. unfold step1. destruct (rd_stored read i); [naive_solver|].
      cbn [with_holes sp_holes]. rewrite dom_insert elem_of_union elem_of_singleton. naive_solver. }
    assert (sp_cursor step1 = sp_cursor step) as Hcur1 by (unfold step1; by destruct (rd_stored read i)).
    assert (sp_done step1 = sp_done step) as Hdone1 by (unfold step1; by destruct (rd_stored read i)).
    intros [[Hg Hs Hd Hc Hall Hpart] [Hleft _]]%read_edges_ok. rewrite Hcur1 in Hc. rewrite Hdone1 in Hd.
    split; [intros h ?; apply Hg, Hdom; by left|]. split; [|split; [done|split; [done|]]].
    + intros h [[?|[-> ?]]%Hdom|?]%Hs; [by left|right|by right]. split; [done|by left].
    + assert (hole_of read i i → i ∈ dom (sp_holes step')) as Hself by (intros [? _]; apply Hg, Hdom; by right).
      destruct all.
      * rewrite Hopen in Hc. split; [done|]. intros h Hh'. destruct (decide (h = i)) as [->|Hne]; [by apply Hself|].
        destruct (Hall h Hh' Hne eq_refl) as [[]|?]; done.
      * destruct Hc as [from Hc]. exists from. split; [done|]. intros h Hh' [->|Hb]; [by apply Hself|].
        destruct (decide (h = i)) as [->|Hne]; [by apply Hself|].
        destruct (Hpart h from Hh' Hne) as [[]|?]; [by rewrite Hc|done..].
  - intros [= <- <- <-]. cbn [passed_id with_holes with_cursor sp_holes sp_done sp_cursor].
    assert (rd_deps read i = None) as Hn.
    { destruct (rd_deps read i) eqn:Hd; [|done]. destruct (proj2 Hh) as [? ?]; [by eexists|done]. }
    rewrite dom_insert_L Hopen. split; [set_solver|]. split; [|split; [done|split; [done|split; [done|]]]].
    + intros h [->%elem_of_singleton|?]%elem_of_union; [right|by left]. by apply not_stored_missing.
    + intros h [_ [->|(ds & ? & _)]]; [set_solver|congruence].
Qed.

(** The listed ids: what the loop passed it has searched. *)
Lemma scan_ids_ok read ids left step all step' :
  StronglySorted blt ids → (∀ i, i ∈ ids → beyond (cu_after (sp_cursor step)) i) →
  cu_open (sp_cursor step) = None →
  scan_ids read ids left step = Ok (all, step') →
  dom (sp_holes step) ⊆ dom (sp_holes step') ∧ sp_done step' = sp_done step ∧
  (∀ h, h ∈ dom (sp_holes step') → h ∈ dom (sp_holes step) ∨ ∃ i, i ∈ ids ∧ hole_of read i h) ∧
  (∀ i h, i ∈ ids → hole_of read i h → all = true ∨ scanned (sp_cursor step') i h →
    h ∈ dom (sp_holes step')) ∧
  (cu_after (sp_cursor step') = cu_after (sp_cursor step) ∨
    ∃ x, cu_after (sp_cursor step') = Some x ∧ x ∈ ids) ∧
  (∀ io from, cu_open (sp_cursor step') = Some (io, from) → io ∈ ids).
Proof.
  revert left step. induction ids as [|i ids IH]; intros left step Hsort Hbeyond Hopen; cbn [scan_ids].
  { intros [= <- <-]. rewrite Hopen. split; [done|]. split; [done|]. split; [by left|].
    split; [by intros i h ?%elem_of_nil|]. split; [by left|done]. }
  apply StronglySorted_inv in Hsort as [Hsort Hmin]. rewrite Forall_forall in Hmin.
  destruct (scan_id read i (left - 1) step) as [[[all1 left1] step1]|] eqn:Hid; [|done]. res_step.
  apply scan_id_ok in Hid as (Hg & Hs & Hd & _ & Hcase); [|done].
  assert (∀ j, j ∈ ids → j ≠ i) as Hne by (intros j Hj ->; by apply (blt_irrefl i), Hmin).
  destruct all1; cbn [negb].
  - destruct Hcase as [Hc Hall].
    destruct (bool_decide _ && negb _) eqn:Hpause.
    + intros [= <- <-]. rewrite Hc. split; [done|]. split; [done|].
      split; [intros h [?|?]%Hs; [by left|right]; exists i; split; [by left|done]|].
      split; [|split; [right; exists i; split; [done|by left]|done]].
      intros j h [->|Hj]%elem_of_cons Hh [?|[Hb|(? & ? & ? & _)]]; try done; [by apply Hall|].
      destruct Hb. by apply Hmin.
    + intros (Hg' & Hd' & Hs' & Hcov & Hafter & Hop)%IH;
        [|done|intros j Hj; rewrite Hc; by apply Hmin|by rewrite Hc].
      split; [by etrans|]. split; [congruence|]. split; [|split; [|split]].
      * intros h [Hh|(j & ? & ?)]%Hs'; [apply Hs in Hh as [?|?]; [by left|right]; exists i; split; [by left|done]|right].
        exists j. split; [by right|done].
      * intros j h [->|Hj]%elem_of_cons Hh Hsc; [by apply Hg', Hall|]. by apply (Hcov j).
      * right. destruct Hafter as [Ha|(x & Ha & Hx)]; [|exists x; split; [done|by right]].
        exists i. rewrite Ha Hc. split; [done|by left].
      * intros io from Ho. right. by eapply Hop.
  - destruct Hcase as (from & Hc & Hpart). intros [= <- <-]. rewrite Hc. cbn [cu_after cu_open].
    split; [done|]. split; [done|]. split; [|split; [|split]].
    + intros h [?|?]%Hs; [by left|right]. exists i. split; [by left|done].
    + intros j h Hj Hh [?|[Hb|(io & f & [= <- <-] & Hcmp)]]; [done|by destruct Hb; apply Hbeyond|].
      destruct Hcmp as [Hlt|[-> Hseen]]; [|by apply Hpart]. apply elem_of_cons in Hj as [->|Hj].
      * by apply blt_irrefl in Hlt.
      * destruct (blt_asym _ _ Hlt). by apply Hmin.
    + by left.
    + intros io f [= <- <-]. by left.
Qed.

Lemma scan_listing_ok read t left step step' :
  cu_open (sp_cursor step) = None → sp_done step = false →
  scan_listing read t left step = Ok step' →
  dom (sp_holes step) ⊆ dom (sp_holes step') ∧
  (∀ h, h ∈ dom (sp_holes step') → h ∈ dom (sp_holes step) ∨ ∃ i, hole_at read t i h) ∧
  (∀ i h, hole_at read t i h → sp_done step' = true ∨ scanned (sp_cursor step') i h →
    scanned (sp_cursor step) i h ∨ h ∈ dom (sp_holes step')).
Proof.
  intros Hopen Hdone. unfold scan_listing. destruct (decide (left = O)).
  { intros [= <-]. split; [done|]. split; [by left|]. intros i h _ [?|?]; [congruence|by left]. }
  destruct (rd_topic_ids_after _ _ _ _) as [ids|] eqn:Hids; [|done]. res_step.
  apply rd_ids_ok in Hids. destruct (scan_ids _ _ _ _) as [[all step1]|] eqn:Hscan; [|done]. res_step.
  intros [= <-]. apply scan_ids_ok in Hscan as (Hg & Hd & Hs & Hcov & Hafter & Hop); [| | |done].
  2:{ rewrite Hids. apply page_sorted. }
  2:{ intros i. rewrite Hids. by intros [_ ?]%elem_of_page. }
  set (step' := if all then _ else step1).
  assert (sp_holes step' = sp_holes step1 ∧ sp_cursor step' = sp_cursor step1) as [-> ->] by (unfold step'; by destruct all).
  split; [done|]. split.
  { intros h [?|(i & Hi & ?)]%Hs; [by left|right]. exists i. split; [|done]. rewrite Hids in Hi.
    by apply elem_of_page in Hi as [? _]. }
  intros i h [Hi Hh] Hsc. destruct (decide (beyond (cu_after (sp_cursor step)) i)) as [Hb|]; [|by left; left].
  assert (∀ x, x ∈ ids → ¬ beyond (Some x) i → i ∈ ids) as Hdown.
  { intros x Hx Hxi. rewrite Hids in Hx |- *. by eapply page_down. }
  right. destruct Hsc as [Hdn|Hsc].
  - destruct all; [|unfold step' in Hdn; congruence]. apply (Hcov i); [|done|by left].
    apply bool_decide_eq_true in Hdn. rewrite Hids in Hdn |- *. rewrite page_short //. by apply elem_of_bt_after.
  - apply (Hcov i); [|done|by right]. destruct Hsc as [Hn|(io & from & Ho & Hlt)].
    + destruct Hafter as [Ha|(x & Ha & Hx)]; [by rewrite Ha in Hn|]. rewrite Ha in Hn. by apply (Hdown x).
    + apply (Hdown io); [by eapply Hop|]. destruct Hlt as [Hlt|[-> _]]; simpl; [by apply blt_asym|by apply blt_irrefl].
Qed.

(** A step finds every hole between the cursor it starts from and the one it leaves, and
    every hole after the start when it ends the scan. *)
Lemma scan_step_covers read t start reads step :
  scan_step read t start reads = Ok step →
  ∀ i h, hole_at read t i h → sp_done step = true ∨ scanned (sp_cursor step) i h →
    scanned start i h ∨ h ∈ dom (sp_holes step).
Proof.
  unfold scan_step. destruct (cu_open start) as [[io from]|] eqn:Hopen.
  2:{ intros (_ & _ & Hcov)%scan_listing_ok; done. }
  destruct (read_edges _ _ _ _ _ _) as [[[all left'] step1]|] eqn:He; [|done]. res_step.
  apply read_edges_ok in He as [[Hg _ Hd Hc Hall Hpart] _]. cbn [opened with_cursor sp_cursor sp_done cu_open cu_after] in *.
  assert (∀ i h, blt i io ∨ i = io ∧ edges_seen from i h → scanned start i h) as Hstart.
  { intros i h Hlt. right. by exists io, from. }
  destruct all; cbn [negb].
  - intros (Hg' & _ & Hcov)%scan_listing_ok; [|by rewrite Hc|done]. intros i h Hh Hsc.
    destruct (Hcov i h Hh Hsc) as [[Hn|(? & ? & Ho & _)]|?]; [|by rewrite Hc in Ho|by right].
    rewrite Hc /= in Hn. destruct (blt_trichotomy i io) as [?|[->|?]]; [left; apply Hstart; by left| |done].
    destruct (decide (h = io)) as [->|Hne]; [left; apply Hstart; right; split; [done|by left]|].
    destruct (Hall h (proj2 Hh) Hne eq_refl); [left; apply Hstart; right; split; [done|by right]|right]. by apply Hg'.
  - intros [= <-] i h Hh [?|Hsc]; [congruence|]. destruct Hc as [from' Hc]. rewrite Hc in Hsc.
    destruct Hsc as [?|(? & ? & [= <- <-] & [?|[-> Hseen]])]; [by left; left|left; apply Hstart; by left|].
    destruct (decide (h = io)) as [->|Hne]; [left; apply Hstart; right; split; [done|by left]|].
    destruct Hseen as [?|Hb]; [done|].
    destruct (Hpart h from' (proj2 Hh) Hne) as [?|?]; [by rewrite Hc|done..| |by right].
    left. apply Hstart. right. split; [done|by right].
Qed.

(** ** A scan of one snapshot *)

(** The step's cursor is where a scan of this snapshot may stand. *)
Definition cursor_valid read (t : TopicId) (c : Cursor) : Prop :=
  match cu_open c with
  | Some (io, from) => io ∈ rd_ids read t ∧ beyond (cu_after c) io ∧
      ∀ ds, rd_deps read io = Some ds → cursor_ok ds from
  | None => True
  end.

(** References a scan may still read: ids after its position, dependencies of the open
    one. *)
Definition deps_left read (i : OpId) (from : DependencyCursor) : nat :=
  match rd_deps read i with Some ds => length (bt_after ds (dc_after from)) | None => 0 end.
Definition ids_left read (t : TopicId) (c : Cursor) : nat := length (bt_after (rd_ids read t) (cu_after c)).

Section reliable.
Context `{!ReliableRead R}.

Lemma check_deps_total read ds holes : is_ok (try_fold (check_dep read) holes ds) = true.
Proof.
  revert holes. induction ds as [|d ds IH]; intros holes; [done|]. simpl. unfold check_dep at 1.
  pose proof (rd_resolvable_total read d). destruct (rd_dep_resolvable read d); [|done]. apply IH.
Qed.

Lemma read_edges_total fuel read i from left step :
  (left < fuel)%nat → (∀ ds, rd_deps read i = Some ds → cursor_ok ds from) →
  ∃ all left' step', read_edges fuel read i from left step = Ok (all, left', step') ∧
    ∀ from', all = false → cu_open (sp_cursor step') = Some (i, from') →
      (∀ ds, rd_deps read i = Some ds → cursor_ok ds from') ∧
      (deps_left read i from' ≤ deps_left read i from)%nat ∧
      ((0 < left)%nat → (deps_left read i from' < deps_left read i from)%nat).
Proof.
  revert from left step. induction fuel as [|fuel IH]; intros from left step Hfuel Hfrom; [lia|]. cbn [read_edges].
  destruct (decide (left = O)) as [->|Hl].
  { do 3 eexists. split; [done|]. intros from' _ [= <-]. split; [done|]. split; [done|lia]. }
  pose proof (rd_deps_total read i from left ltac:(lia) Hfrom) as Htot.
  destruct (rd_dependency_ids read i from left) as [o|] eqn:Ho; [|done]. res_step.
  apply rd_deps_ok in Ho as ->. destruct (rd_deps read i) as [ds|] eqn:Hds; cbn [fmap option_fmap option_map].
  2:{ by do 3 eexists. }
  pose proof (check_deps_total read (page ds (dc_after from) left) (sp_holes step)) as Hc.
  destruct (try_fold _ _ _) as [holes|]; [|done]. res_step.
  destruct (decide _) as [Hlt|Hge]; [by do 3 eexists|].
  specialize (Hfrom ds eq_refl).
  assert (∃ a, last (page ds (dc_after from) left) = Some a) as [a Ha].
  { destruct (last _) eqn:Hlast; [by eexists|]. apply last_None in Hlast. rewrite Hlast /= in Hge. lia. }
  pose proof (cursor_next_ok ds from left Hfrom) as Hnext. unfold cursor_next in Hnext. rewrite Ha in Hnext.
  destruct (cursor_next_rest _ _ _ _ Ha) as [Hrest _]. apply (f_equal length) in Hrest. rewrite length_app in Hrest.
  rewrite Ha. destruct (IH {| dc_offset := (dc_offset from + length (page ds (dc_after from) left))%nat; dc_after := Some a |}
    (left - length (page ds (dc_after from) left))%nat (with_holes step holes))
    as (all & left' & step' & Hr & Hprop); [lia|by intros ds' [= <-]|].
  exists all, left', step'. split; [done|]. intros from' Hall Hopen.
  destruct (Hprop from' Hall Hopen) as (? & Hle & _). split; [done|].
  unfold deps_left in *. rewrite Hds in Hle |- *. cbn [dc_after] in Hle. lia.
Qed.

Lemma scan_id_total read i left step :
  ∃ all left' step', scan_id read i left step = Ok (all, left', step') ∧
    ∀ from, all = false → cu_open (sp_cursor step') = Some (i, from) →
      ∀ ds, rd_deps read i = Some ds → cursor_ok ds from.
Proof.
  unfold scan_id. pose proof (rd_header_total read i) as Hh.
  destruct (rd_header read i) as [[header|]|]; [|by do 3 eexists|done]. res_step.
  pose proof (rd_resolvable_total read i) as Hr. destruct (rd_dep_resolvable read i) as [b|]; [|done].
  res_step.
  destruct (read_edges_total (S left) read i cursor_start left (if b then step
    else with_holes step (<[i:=Some (hd_generation header)]> (sp_holes step))))
    as (all & left' & step' & -> & Hprop); [lia|intros ds _; apply cursor_start_ok|].
  exists all, left', step'. split; [done|]. intros from Hall Hopen. by apply (Hprop from).
Qed.

(** The loop over listed ids succeeds; it ends past one of them, or with one open. *)
Lemma scan_ids_total read t ids left step :
  StronglySorted blt ids → (∀ i, i ∈ ids → i ∈ rd_ids read t ∧ beyond (cu_after (sp_cursor step)) i) →
  cu_open (sp_cursor step) = None →
  ∃ all step', scan_ids read ids left step = Ok (all, step') ∧ cursor_valid read t (sp_cursor step') ∧
    ((∃ x, cu_after (sp_cursor step') = Some x ∧ x ∈ ids) ∨
     cu_after (sp_cursor step') = cu_after (sp_cursor step) ∧
       if all then ids = [] else is_Some (cu_open (sp_cursor step'))).
Proof.
  revert left step. induction ids as [|i ids IH]; intros left step Hsort Hids Hopen; cbn [scan_ids].
  { exists true, step. split; [done|]. split; [by unfold cursor_valid; rewrite Hopen|]. by right. }
  apply StronglySorted_inv in Hsort as [Hsort Hmin]. rewrite Forall_forall in Hmin.
  destruct (scan_id_total read i (left - 1) step) as (all1 & left1 & step1 & Hid & Hcur). rewrite Hid. res_step.
  pose proof Hid as (_ & _ & _ & _ & Hcase)%scan_id_ok; [|done]. destruct all1; cbn [negb].
  - destruct Hcase as [Hc _]. destruct (bool_decide _ && negb _).
    + exists false, step1. rewrite Hc. split; [done|]. split; [done|]. left. exists i. split; [done|by left].
    + destruct (IH left1 step1 Hsort) as (all & step' & Hr & Hv & Hend).
      { intros j Hj. rewrite Hc. split; [by apply Hids; right|by apply Hmin]. }
      { by rewrite Hc. }
      exists all, step'. split; [done|]. split; [done|]. left. destruct Hend as [(x & Hx & Hin)|[Ha _]].
      * exists x. split; [done|by right].
      * exists i. rewrite Ha Hc. split; [done|by left].
  - destruct Hcase as (from & Hc & _). exists false, step1. split; [done|]. rewrite Hc.
    split; [|by right; split; [|eexists]]. destruct (Hids i) as [Hi Hb]; [by left|].
    split; [done|]. split; [done|]. apply (Hcur from); [done|by rewrite Hc].
Qed.

(** How far a scan has to go; every step that does not end it gets closer. *)
Definition closer read (t : TopicId) (c c' : Cursor) : Prop :=
  (ids_left read t c' < ids_left read t c)%nat ∨
  ids_left read t c' = ids_left read t c ∧
  ∃ io from, cu_open c' = Some (io, from) ∧
    match cu_open c with
    | Some (io0, from0) => io = io0 ∧ (deps_left read io from < deps_left read io from0)%nat
    | None => True
    end.

(** Passing an element shortens a range. *)
Lemma bt_after_shorter (X : gset OpId) after x :
  x ∈ X → beyond after x → (length (bt_after X (Some x)) < length (bt_after X after))%nat.
Proof.
  intros Hx Hb. assert (x ∈ bt_after X after) as (l1 & l2 & Hl)%list_elem_of_split by by apply elem_of_bt_after.
  rewrite (bt_after_split _ _ _ _ _ Hl) Hl length_app /=. lia.
Qed.

Lemma scan_listing_total read t left step :
  cu_open (sp_cursor step) = None → sp_done step = false →
  ∃ step', scan_listing read t left step = Ok step' ∧ cursor_valid read t (sp_cursor step') ∧
    (sp_done step' = false → left ≠ O → closer read t (sp_cursor step) (sp_cursor step')) ∧
    (left = O → sp_cursor step' = sp_cursor step).
Proof.
  intros Hopen Hdone. unfold scan_listing. destruct (decide (left = O)) as [Hl|Hl].
  { exists step. split; [done|]. split; [by unfold cursor_valid; rewrite Hopen|]. done. }
  pose proof (rd_ids_total read t (cu_after (sp_cursor step)) left) as Htot.
  destruct (rd_topic_ids_after _ _ _ _) as [ids|] eqn:Hids; [|done]. res_step.
  apply rd_ids_ok in Hids. destruct (scan_ids_total read t ids left step) as (all & step' & Hscan & Hv & Hend); [| |done|].
  { rewrite Hids. apply page_sorted. }
  { intros i. rewrite Hids. by intros ?%elem_of_page. }
  rewrite Hscan. res_step. eexists. split; [done|].
  set (step2 := if all then _ else step').
  assert (sp_cursor step2 = sp_cursor step') as -> by (unfold step2; by destruct all).
  split; [done|]. split; [|done]. intros Hnd _. destruct Hend as [(x & Hx & Hin)|[Ha Hend]].
  - left. unfold ids_left. rewrite Hx. rewrite Hids in Hin. apply elem_of_page in Hin as [Hin Hb].
    by apply bt_after_shorter.
  - destruct all.
    + unfold step2 in Hnd. cbn [sp_done] in Hnd. apply bool_decide_eq_false in Hnd. rewrite Hend /= in Hnd. lia.
    + right. unfold ids_left. rewrite Ha Hopen. split; [done|]. destruct Hend as [[io from] Ho]. by exists io, from.
Qed.

Lemma scan_step_total read t c reads :
  cursor_valid read t c →
  ∃ step, scan_step read t c reads = Ok step ∧ cursor_valid read t (sp_cursor step) ∧
    (sp_done step = false → closer read t c (sp_cursor step)) ∧
    ∀ h, h ∈ dom (sp_holes step) → ∃ i, hole_at read t i h.
Proof.
  intros Hc. unfold scan_step, cursor_valid in *. destruct (cu_open c) as [[io from]|] eqn:Hopen.
  2:{ destruct (scan_listing_total read t (Nat.max reads 1) {| sp_cursor := c; sp_holes := ∅; sp_done := false |})
        as (step & Hs & Hv & Hcl & _); [done..|].
      exists step. split; [done|]. split; [done|]. split; [intros ?; apply Hcl; [done|lia]|].
      apply scan_listing_ok in Hs as (_ & Hsound & _); [|done..].
      intros h [[]%no_holes|?]%Hsound; done. }
  destruct Hc as (Hio & Hb & Hfrom).
  destruct (read_edges_total (S (Nat.max reads 1)) read io from (Nat.max reads 1)
    (opened {| sp_cursor := c; sp_holes := ∅; sp_done := false |} None)) as (all & left' & step1 & He & Hprop); [lia|done|].
  rewrite He. res_step. pose proof He as [[_ Hsnd Hd Hcur _ _] [_ Hleft]]%read_edges_ok.
  cbn [opened with_cursor sp_cursor sp_done sp_holes cu_open cu_after] in Hsnd, Hd, Hcur.
  assert (∀ h, h ∈ dom (sp_holes step1) → ∃ i, hole_at read t i h) as Hsound1.
  { intros h [[]%no_holes|?]%Hsnd. by exists io. }
  destruct all; cbn [negb].
  - destruct (scan_listing_total read t left' step1) as (step & Hs & Hv & Hcl & _); [by rewrite Hcur|done|].
    exists step. split; [done|]. split; [done|]. split.
    + intros Hnd. left. assert (ids_left read t (sp_cursor step1) < ids_left read t c)%nat as Hlt.
      { unfold ids_left. rewrite Hcur. by apply bt_after_shorter. }
      destruct (Hcl Hnd) as [?|[? _]]; [specialize (Hleft eq_refl); lia|lia..].
    + apply scan_listing_ok in Hs as (_ & Hsound & _); [|by rewrite Hcur|done].
      intros h [?|?]%Hsound; [by apply Hsound1|done].
  - destruct Hcur as [from' Hcur]. destruct (Hprop from' eq_refl) as (Hok & _ & Hlt); [by rewrite Hcur|].
    exists step1. split; [done|]. rewrite Hcur. split; [done|]. split; [|done].
    intros _. right. split; [done|]. exists io, from'. rewrite Hopen. split; [done|]. split; [done|]. apply Hlt. lia.
Qed.

(** ** The scan ends and finds the holes *)

(** The largest number of dependencies of a listed id. *)
Definition widest read (t : TopicId) : nat :=
  foldr (λ i n, Nat.max (deps_left read i cursor_start) n) O (elements (rd_ids read t)).

Lemma deps_left_start read i from : (deps_left read i from ≤ deps_left read i cursor_start)%nat.
Proof.
  unfold deps_left. destruct (rd_deps read i) as [ds|]; [|done]. cbn [cursor_start dc_after].
  rewrite bt_after_None. apply length_filter.
Qed.

Lemma deps_left_widest read t i from : i ∈ rd_ids read t → (deps_left read i from ≤ widest read t)%nat.
Proof.
  intros Hi%elem_of_elements. etrans; [apply deps_left_start|]. unfold widest.
  induction (elements (rd_ids read t)) as [|j l IH]; [by apply elem_of_nil in Hi|]. simpl.
  apply elem_of_cons in Hi as [->|Hi]; [lia|]. specialize (IH Hi). lia.
Qed.

Definition rank read (t : TopicId) (c : Cursor) : nat :=
  (ids_left read t c * (widest read t + 2) +
   match cu_open c with None => widest read t + 1 | Some (io, from) => deps_left read io from end)%nat.

(** Steps that a scan from the start takes at most. *)
Definition scan_fuel read (t : TopicId) : nat := S (rank read t scan_start).

Lemma closer_rank read t c c' :
  cursor_valid read t c' → closer read t c c' → (rank read t c' < rank read t c)%nat.
Proof.
  unfold rank, cursor_valid. intros Hv [Hlt|(Heq & io & from & Ho & Hcase)].
  - assert (match cu_open c' with None => widest read t + 1
      | Some (io, from) => deps_left read io from end ≤ widest read t + 1)%nat as Hle.
    { destruct (cu_open c') as [[io from]|]; [|done]. destruct Hv as [Hio _].
      pose proof (deps_left_widest read t io from Hio). lia. }
    revert Hle. generalize (match cu_open c' with None => widest read t + 1
      | Some (io, from) => deps_left read io from end)%nat as w. intros w Hw.
    enough (ids_left read t c' * (widest read t + 2) + (widest read t + 2) ≤ ids_left read t c * (widest read t + 2))%nat
      by lia. nia.
  - rewrite Heq Ho. rewrite Ho in Hv. destruct Hv as [Hio _]. destruct (cu_open c) as [[io0 from0]|].
    + destruct Hcase as [-> ?]. lia.
    + pose proof (deps_left_widest read t io from Hio). lia.
Qed.

Lemma merge_holes_dom (found new : Holes) : dom (merge_holes found new) = dom found ∪ dom new.
Proof.
  apply set_eq. intros h. unfold merge_holes. rewrite elem_of_union !elem_of_dom lookup_union_with.
  rewrite !is_Some_alt. destruct (found !! h), (new !! h); simpl; tauto.
Qed.

Lemma holes_loop_ok fuel read t reads c holes :
  cursor_valid read t c → (rank read t c < fuel)%nat →
  (∀ i h, hole_at read t i h → scanned c i h → h ∈ dom holes) →
  (∀ h, h ∈ dom holes → ∃ i, hole_at read t i h) →
  ∃ holes', holes_loop fuel read t reads c holes = Some (Ok holes') ∧
    ∀ h, h ∈ dom holes' ↔ ∃ i, hole_at read t i h.
Proof.
  revert c holes. induction fuel as [|fuel IH]; intros c holes Hv Hf Hcov Hsound; [lia|]. cbn [holes_loop].
  destruct (scan_step_total read t c reads Hv) as (step & Hs & Hv' & Hcl & Hsnd). rewrite Hs.
  assert (∀ i h, hole_at read t i h → sp_done step = true ∨ scanned (sp_cursor step) i h →
    h ∈ dom (merge_holes holes (sp_holes step))) as Hcov'.
  { intros i h Hh Hsc. rewrite merge_holes_dom elem_of_union.
    destruct (scan_step_covers _ _ _ _ _ Hs i h Hh Hsc); [left; by eapply Hcov|by right]. }
  assert (∀ h, h ∈ dom (merge_holes holes (sp_holes step)) → ∃ i, hole_at read t i h) as Hsound'.
  { intros h. rewrite merge_holes_dom elem_of_union. intros [?|?]; [by apply Hsound|by apply Hsnd]. }
  destruct (sp_done step) eqn:Hdone.
  - eexists. split; [done|]. intros h. split; [apply Hsound'|]. intros [i Hh]. apply (Hcov' i h Hh). by left.
  - apply IH; [done| |intros i h Hh ?; apply (Hcov' i h Hh); by right|done].
    pose proof (closer_rank read t c (sp_cursor step) Hv' (Hcl eq_refl)). lia.
Qed.

Lemma stateless_holes_ok read t :
  ∃ holes, stateless_holes (scan_fuel read t) read t = Some (Ok holes) ∧
    ∀ h, h ∈ dom holes ↔ ∃ i, hole_at read t i h.
Proof.
  apply holes_loop_ok; [done|unfold scan_fuel; lia| |by intros h ?%no_holes].
  intros i h _ [[]|(? & ? & ? & _)]; done.
Qed.
End reliable.
End scan.

(** ** The memory store *)

Section memory.
Context {C : Type} `{!ClockImpl C} `{!StoreEnv C} `{!Crypto}.

(** The snapshot of the memory store is the store under its lock. *)
#[global] Program Instance memory_read : SnapshotRead (MemoryInner C) := {|
  rd_key inner t := Ok ((λ state, (ts_genesis state, default 0 (s_topic_epochs inner !! t))) <$> topic_state_locked inner t);
  rd_header inner i := Ok (header_of <$> l_meta (s_log inner) !! i);
  rd_dep_resolvable inner i := Ok (dep_resolvable_locked inner i);
  rd_topic_ids_after inner t after n := Ok (topic_ids_after inner t after n);
  rd_dependency_ids := dependency_ids;
  rd_epoch inner t := default 0 (s_topic_epochs inner !! t);
  rd_ids := topic_ids_locked;
  rd_deps inner i := om_deps <$> l_meta (s_log inner) !! i;
  rd_stored := dep_resolvable_locked;
|}.
Next Obligation. intros inner t k [= Hk]. apply fmap_Some in Hk as (state & _ & ->). done. Qed.
Next Obligation. intros inner i h [= <-]. by rewrite !fmap_is_Some. Qed.
Next Obligation. by intros inner i b [= <-]. Qed.
Next Obligation.
  intros inner t after n l [= <-]. unfold topic_ids_after, topic_ids_locked.
  destruct (l_topic_ops (s_log inner) !! t) as [ids|]; [done|]. symmetry. apply take_nil.
Qed.
Next Obligation.
  intros inner i c n o. unfold dependency_ids. case_decide; [done|].
  destruct (l_meta (s_log inner) !! i) as [meta|]; [|by intros [= <-]]. by destruct (_ || _); [|intros [= <-]].
Qed.
Next Obligation.
  intros inner i. unfold dep_resolvable_locked. autorewrite with reflect. intros [_ ?]. by apply fmap_is_Some.
Qed.

#[global] Instance memory_reliable : ReliableRead (MemoryInner C).
Proof.
  split; try done. intros inner i c n Hn Hc. simpl.
  destruct (l_meta (s_log inner) !! i) as [meta|] eqn:Hm.
  - rewrite (dependency_ids_page inner i meta) //. apply Hc. simpl. by rewrite Hm.
  - unfold dependency_ids. rewrite decide_False; [lia|]. by rewrite Hm.
Qed.

(** C37: a scan of a stored topic ends and its holes are exactly the ids that its
    records reference and that do not resolve: listed ids whose position or record is
    missing, and dependencies that are not stored. This holds for damaged stores; the
    number of steps is bounded by the references. *)
Theorem stateless_holes_exact (inner : MemoryInner C) t :
  ∃ holes, stateless_holes (scan_fuel inner t) inner t = Some (Ok holes) ∧
    ∀ h, h ∈ dom holes ↔
      ∃ i, i ∈ topic_ids_locked inner t ∧ dep_resolvable_locked inner h = false ∧
        (h = i ∨ ∃ meta, l_meta (s_log inner) !! i = Some meta ∧ h ∈ om_deps meta).
Proof.
  destruct (stateless_holes_ok inner t) as (holes & Hs & Hh). exists holes. split; [done|].
  intros h. rewrite Hh. unfold hole_at, hole_of. simpl. setoid_rewrite fmap_Some. naive_solver.
Qed.
End memory.
