(* ===== verification/Inspections.v ===== *)
(** * The cache of integrity scans ([src/src/oplog/integrity.rs])

    [Inspections] keeps, per topic, how far a scan came and which holes it found, or its
    verdict, under a branch and a data epoch. Every critical section of the source is
    one function on the entries behind the lock. *)

From S2P Require Import Prelude Ids Pages Frame ClockSpec Types Evidence Records Pool Store StoreReads Integrity.

#[local] Open Scope N_scope.

(** [enum Integrity] *)
Inductive Integrity :=
  | IUnknown
  | IScanning (holes : Holes)
  | IIncomplete (holes : Holes)
  | IWhole.

(** [is_whole], [is_complete], [holes] *)
Definition is_whole (a : Integrity) : bool := match a with IWhole => true | _ => false end.
Definition is_complete (a : Integrity) : bool :=
  match a with IWhole | IIncomplete _ => true | _ => false end.
Definition integrity_holes (a : Integrity) : option Holes :=
  match a with IScanning holes | IIncomplete holes => Some holes | IUnknown | IWhole => None end.

(** [unresolved] *)
Definition unresolved {C} (a : Integrity) (view : TopicView C) : Holes :=
  default ∅ (integrity_holes a) ∪ gset_to_gmap None (tv_pending_missing view).

(** [certifies] *)
Definition certifies {C} (a : Integrity) (view : TopicView C) : bool :=
  is_whole a && bool_decide (tv_pending_missing view = ∅).

(** [struct Found] *)
Record Found := { fo_holes : Holes; fo_checked : option OpId }.
Definition found_default : Found := {| fo_holes := ∅; fo_checked := None |}.

(** [enum State] *)
Inductive ScanState :=
  | Scanning (cursor : Cursor) (found : Found) (stepping : option N)
  | Incomplete (found : Found)
  | Whole.

(** Branch and data epoch *)
Abbreviation BranchKey := (OpId * N)%type.

(** [struct Entry] *)
Record Entry := { en_key : BranchKey; en_state : ScanState }.

(** [struct Listed] *)
Record Listed := { ls_topic_id : TopicId; ls_key : BranchKey; ls_id : OpId }.

(** [Entry::start] *)
Definition entry_start (key : BranchKey) : Entry :=
  {| en_key := key; en_state := Scanning scan_start found_default None |}.

(** [Entry::answer] *)
Definition answer (e : Entry) : Integrity :=
  match en_state e with
  | Whole => IWhole
  | Incomplete found => IIncomplete (fo_holes found)
  | Scanning cursor found stepping =>
      if bool_decide (is_Some stepping) && bool_decide (cursor = scan_start)
         && bool_decide (fo_holes found = ∅)
      then IUnknown else IScanning (fo_holes found)
  end.

(** [Entry::found_mut] and [Entry::holes] *)
Definition entry_found (e : Entry) : option Found :=
  match en_state e with
  | Scanning _ found _ | Incomplete found => Some found
  | Whole => None
  end.

(** Writing through [found_mut] *)
Definition set_found (e : Entry) (found : Found) : Entry :=
  {| en_key := en_key e;
     en_state := match en_state e with
       | Scanning cursor _ stepping => Scanning cursor found stepping
       | Incomplete _ => Incomplete found
       | Whole => Whole
       end |}.

(** [Entry::remove] *)
Definition entry_remove (e : Entry) (i : OpId) : Entry :=
  {| en_key := en_key e;
     en_state := match en_state e with
       | Scanning cursor found stepping =>
           Scanning cursor {| fo_holes := delete i (fo_holes found); fo_checked := fo_checked found |} stepping
       | Incomplete found =>
           let holes := delete i (fo_holes found) in
           if bool_decide (holes = ∅) then Whole
           else Incomplete {| fo_holes := holes; fo_checked := fo_checked found |}
       | Whole => Whole
       end |}.

(** [Found::next] *)
Definition found_next (found : Found) (reads : nat) : Found * list OpId :=
  let slice := page (dom (fo_holes found)) (fo_checked found) reads in
  ({| fo_holes := fo_holes found;
      fo_checked := if decide (length slice < reads)%nat then None else last slice |}, slice).

(** ** Critical sections *)

(** The entries behind the lock *)
Abbreviation Entries := (gmap TopicId Entry).

(** [topics.get_mut(topic).filter(|entry| entry.key == key)] *)
Definition entry_at (entries : Entries) (t : TopicId) (key : BranchKey) : option Entry :=
  e ← entries !! t; if bool_decide (en_key e = key) then Some e else None.

(** The first section of [advance]: the answer, or where the claimed scan stands. *)
Definition advance_claim (entries : Entries) (t : TopicId) (key : BranchKey) (claim : N)
    : Entries * (Integrity + Cursor) :=
  let e := default (entry_start key) (entries !! t) in
  let e := if bool_decide (en_key e = key) then e else entry_start key in
  match en_state e with
  | Scanning cursor found None =>
      (<[t := {| en_key := key; en_state := Scanning cursor found (Some claim) |}]> entries, inr cursor)
  | _ => (<[t := e]> entries, inl (answer e))
  end.

(** [Claim::finish] *)
Definition finish (entries : Entries) (t : TopicId) (key : BranchKey) (claim : N) (start : Cursor) (step : Step)
    : Entries * Integrity :=
  match entries !! t with
  | Some {| en_key := k; en_state := Scanning cursor found stepping |} =>
      if bool_decide (k = key) && bool_decide (stepping = Some claim) && bool_decide (cursor = start) then
        let found := {| fo_holes := merge_holes (fo_holes found) (sp_holes step);
                        fo_checked := fo_checked found |} in
        let '(state, a) :=
          if sp_done step then
            if bool_decide (fo_holes found = ∅) then (Whole, IWhole)
            else (Incomplete found, IIncomplete (fo_holes found))
          else (Scanning (sp_cursor step) found None, IScanning (fo_holes found)) in
        (<[t := {| en_key := k; en_state := state |}]> entries, a)
      else (entries, IScanning (sp_holes step))
  | _ => (entries, IScanning (sp_holes step))
  end.

(** [drop] of a [Claim] *)
Definition claim_drop (entries : Entries) (t : TopicId) (key : BranchKey) (claim : N) : Entries :=
  match entries !! t with
  | Some {| en_key := k; en_state := Scanning cursor found stepping |} =>
      if bool_decide (k = key) && bool_decide (stepping = Some claim)
      then <[t := {| en_key := k; en_state := Scanning cursor found None |}]> entries
      else entries
  | _ => entries
  end.

(** The first section of [recheck]: the slice to check, unless the entry was replaced. *)
Definition recheck_slice (entries : Entries) (t : TopicId) (key : BranchKey) (reads : nat)
    : Entries * option (list OpId) :=
  match entry_at entries t key with
  | Some e =>
      match entry_found e with
      | Some found =>
          let '(found, slice) := found_next found (Nat.max reads 1) in
          (<[t := set_found e found]> entries, Some slice)
      | None => (entries, None)
      end
  | None => (entries, None)
  end.

(** The second section of [recheck] *)
Definition recheck_drop (entries : Entries) (t : TopicId) (key : BranchKey) (stored : list OpId)
    : Entries * Integrity :=
  match entry_at entries t key with
  | Some e => let e := foldl entry_remove e stored in (<[t := e]> entries, answer e)
  | None => (entries, IUnknown)
  end.

(** [listed] *)
Definition listed (entries : Entries) (ops : list Op) : list Listed :=
  omap (λ op,
    let t := topic_id (obody op) in
    e ← entries !! t;
    found ← entry_found e;
    if bool_decide (is_Some (fo_holes found !! op_id op))
    then Some {| ls_topic_id := t; ls_key := en_key e; ls_id := op_id op |} else None) ops.

(** [fill] *)
Definition fill_one (entries : Entries) (hole : Listed) : Entries :=
  match entry_at entries (ls_topic_id hole) (ls_key hole) with
  | Some e => <[ls_topic_id hole := entry_remove e (ls_id hole)]> entries
  | None => entries
  end.
Definition fill (entries : Entries) (filled : list Listed) : Entries := foldl fill_one entries filled.
