(* ===== verification/IntegrityRun.v ===== *)
(** * Integrity scans beside writers ([src/src/oplog/integrity.rs], [oplog/mod.rs])

    A question claims the scan of its topic, reads one step from its snapshot without
    the lock, and saves the step if the scan is still where it was; then it checks a
    slice of the known holes again. All of it interleaves with other questions, with
    admissions that fill holes, and with writers that move the store. The step relation
    interleaves the critical sections of [Inspections.v]; a question keeps the snapshot
    it began with. *)

From stdpp Require Import relations.
From S2P Require Import Prelude Ids Pages Frame ClockSpec Types Evidence Records Pool Store StoreReads.
From S2P Require Import Integrity Inspections.

#[local] Open Scope N_scope.

Section run.
Context {R : Type} `{!SnapshotRead R} (reads : nat).

(** The holes of [fill_holes] that are stored now; an unreadable one is kept. *)
Definition stored_now (read : R) (i : OpId) : bool :=
  match rd_dep_resolvable read i with Ok b => b | Err _ => false end.

(** The presence checks of [recheck] *)
Definition recheck_stored (read : R) (slice : list OpId) : res (list OpId) :=
  try_fold (λ stored i, b ← rd_dep_resolvable read i; Ok (if b : bool then stored ++ [i] else stored)) [] slice.

(** ** Questions, admissions and writers *)

(** Where a thread is: it took a snapshot for a question; it reads a step of the scan
    it claimed; it is about to check known holes, or checks a slice; its question is
    answered; it admits operations that were holes, before and after it looked. *)
Inductive Flight :=
  | Asked (t : TopicId) (key : BranchKey) (read : R)
  | Stepping (t : TopicId) (key : BranchKey) (claim : N) (start : Cursor) (read : R)
  | Checking (t : TopicId) (key : BranchKey) (read : R)
  | Rechecking (t : TopicId) (key : BranchKey) (slice : list OpId) (read : R)
  | Answered (t : TopicId) (key : BranchKey) (a : Integrity)
  | Listing (holes : list Listed)
  | Filling (holes : list Listed).

(** [if integrity.holes().is_some_and(|holes| !holes.is_empty()) { return self.recheck(..) }] *)
Definition after_answer (t : TopicId) (key : BranchKey) (read : R) (a : Integrity) : Flight :=
  match integrity_holes a with
  | Some holes => if bool_decide (holes = ∅) then Answered t key a else Checking t key read
  | None => Answered t key a
  end.

Record World := {
  wd_read : R;
  wd_entries : Entries;
  wd_claims : N;
  wd_flights : gmap nat Flight;
}.

Definition world_start (read : R) : World :=
  {| wd_read := read; wd_entries := ∅; wd_claims := 0; wd_flights := ∅ |}.

(** A later state of the store: resets advance the epoch, and within an epoch no
    reference becomes a hole. *)
Definition follows (r r' : R) : Prop :=
  ∀ t, rd_epoch r t ≤ rd_epoch r' t ∧
    (rd_epoch r t = rd_epoch r' t → ∀ i h, hole_at r' t i h → hole_at r t i h).

(** The world with thread [n] at [f] and the cache at [entries] *)
Definition moved (w : World) (entries : Entries) (n : nat) (f : option Flight) : World :=
  {| wd_read := wd_read w; wd_entries := entries; wd_claims := wd_claims w;
     wd_flights := partial_alter (λ _, f) n (wd_flights w) |}.

Inductive world_step (w : World) : World → Prop :=
  | step_store r' :
      follows (wd_read w) r' →
      world_step w {| wd_read := r'; wd_entries := wd_entries w; wd_claims := wd_claims w;
                      wd_flights := wd_flights w |}
  | step_ask n t key :
      wd_flights w !! n = None → rd_key (wd_read w) t = Ok (Some key) →
      world_step w (moved w (wd_entries w) n (Some (Asked t key (wd_read w))))
  | step_advance n t key read entries outcome :
      wd_flights w !! n = Some (Asked t key read) →
      advance_claim (wd_entries w) t key (wd_claims w) = (entries, outcome) →
      world_step w {| wd_read := wd_read w; wd_entries := entries; wd_claims := wd_claims w + 1;
                      wd_flights := <[n := match outcome with
                        | inl a => after_answer t key read a
                        | inr start => Stepping t key (wd_claims w) start read
                        end]> (wd_flights w) |}
  | step_finish n t key claim start read step entries a :
      wd_flights w !! n = Some (Stepping t key claim start read) →
      scan_step read t start reads = Ok step →
      finish (wd_entries w) t key claim start step = (entries, a) →
      world_step w (moved w (claim_drop entries t key claim) n (Some (after_answer t key read a)))
  | step_abandon n t key claim start read :
      wd_flights w !! n = Some (Stepping t key claim start read) →
      world_step w (moved w (claim_drop (wd_entries w) t key claim) n None)
  | step_slice n t key read entries slice :
      wd_flights w !! n = Some (Checking t key read) →
      recheck_slice (wd_entries w) t key reads = (entries, slice) →
      world_step w (moved w entries n (Some (match slice with
        | Some slice => Rechecking t key slice read
        | None => Answered t key IUnknown
        end)))
  | step_recheck n t key slice read stored entries a :
      wd_flights w !! n = Some (Rechecking t key slice read) →
      recheck_stored read slice = Ok stored →
      recheck_drop (wd_entries w) t key stored = (entries, a) →
      world_step w (moved w entries n (Some (Answered t key a)))
  | step_listed n ops :
      wd_flights w !! n = None →
      world_step w (moved w (wd_entries w) n (Some (Listing (listed (wd_entries w) ops))))
  | step_probe n holes :
      wd_flights w !! n = Some (Listing holes) →
      world_step w (moved w (wd_entries w) n
        (Some (Filling (filter (λ hole, stored_now (wd_read w) (ls_id hole) = true) holes))))
  | step_fill n holes :
      wd_flights w !! n = Some (Filling holes) →
      world_step w (moved w (fill (wd_entries w) holes) n None)
  | step_clear :
      world_step w {| wd_read := wd_read w; wd_entries := ∅; wd_claims := wd_claims w;
                      wd_flights := wd_flights w |}
  | step_leave n f :
      wd_flights w !! n = Some f → (∀ t key claim start read, f ≠ Stepping t key claim start read) →
      world_step w (moved w (wd_entries w) n None).

Definition world_reachable (w : World) : Prop := ∃ read, rtc world_step (world_start read) w.

(** ** Verdicts *)

(** What an answer promises of the store *)
Definition verdict_ok (r : R) (t : TopicId) (a : Integrity) : Prop :=
  match a with
  | IWhole => ∀ i h, ¬ hole_at r t i h
  | IIncomplete holes => ∀ i h, hole_at r t i h → h ∈ dom holes
  | IScanning _ | IUnknown => True
  end.

(** What a scan or verdict knows: the holes of what it scanned *)
Definition state_ok (r : R) (t : TopicId) (s : ScanState) : Prop :=
  match s with
  | Scanning c found _ => ∀ i h, hole_at r t i h → scanned c i h → h ∈ dom (fo_holes found)
  | Incomplete found => ∀ i h, hole_at r t i h → h ∈ dom (fo_holes found)
  | Whole => ∀ i h, ¬ hole_at r t i h
  end.

(** [P] holds as long as the epoch of [key] is the current one. *)
Definition under (r : R) (t : TopicId) (key : BranchKey) (P : Prop) : Prop :=
  key.2 ≤ rd_epoch r t ∧ (key.2 = rd_epoch r t → P).

Definition entries_ok (r : R) (entries : Entries) : Prop :=
  ∀ t e, entries !! t = Some e → under r t (en_key e) (state_ok r t (en_state e)).

(** The snapshot of a question is an earlier state of the store, of its key's epoch. *)
Definition snapshot_ok (r : R) (t : TopicId) (key : BranchKey) (read : R) : Prop :=
  follows read r ∧ key.2 = rd_epoch read t.

Definition flight_ok (r : R) (f : Flight) : Prop :=
  match f with
  | Asked t key read | Checking t key read => snapshot_ok r t key read
  | Stepping t key _ _ read => snapshot_ok r t key read
  | Rechecking t key _ read => snapshot_ok r t key read
  | Answered t key a => under r t key (verdict_ok r t a)
  | Listing holes => ∀ hole, hole ∈ holes → (ls_key hole).2 ≤ rd_epoch r (ls_topic_id hole)
  | Filling holes => ∀ hole, hole ∈ holes → under r (ls_topic_id hole) (ls_key hole)
      (∀ i, ¬ hole_at r (ls_topic_id hole) i (ls_id hole))
  end.

Record world_ok (w : World) : Prop := {
  wo_entries : entries_ok (wd_read w) (wd_entries w);
  wo_flights n f : wd_flights w !! n = Some f → flight_ok (wd_read w) f;
}.

Lemma follows_refl r : follows r r.
Proof. by split. Qed.

Lemma follows_trans r1 r2 r3 : follows r1 r2 → follows r2 r3 → follows r1 r3.
Proof.
  intros H12 H23 t. destruct (H12 t) as [He1 Hg1], (H23 t) as [He2 Hg2]. split; [lia|].
  intros He i h Hh. apply Hg1; [lia|]. apply Hg2; [lia|done].
Qed.

(** The epoch of a key that is current after a write was current before it. *)
Lemma under_follows r r' t key (P P' : Prop) :
  follows r r' → under r t key P →
  ((∀ i h, hole_at r' t i h → hole_at r t i h) → P → P') → under r' t key P'.
Proof.
  intros Hf [Hle HP] Himp. destruct (Hf t) as [He Hg]. split; [lia|]. intros Heq.
  apply Himp; [apply Hg; lia|apply HP; lia].
Qed.

Lemma under_mono r t key (P P' : Prop) : under r t key P → (P → P') → under r t key P'.
Proof. intros [? ?] ?. split; auto. Qed.

Lemma snapshot_under r t key read (P : Prop) :
  snapshot_ok r t key read →
  ((∀ i h, hole_at r t i h → hole_at read t i h) → P) → under r t key P.
Proof.
  intros [Hf He] HP. destruct (Hf t) as [Hle Hg]. split; [lia|]. intros Heq. apply HP, Hg. lia.
Qed.

Lemma state_ok_shrinks r r' t s :
  (∀ i h, hole_at r' t i h → hole_at r t i h) → state_ok r t s → state_ok r' t s.
Proof. intros Hg. destruct s; simpl; eauto. Qed.

Lemma verdict_ok_shrinks r r' t a :
  (∀ i h, hole_at r' t i h → hole_at r t i h) → verdict_ok r t a → verdict_ok r' t a.
Proof. intros Hg. destruct a; simpl; eauto. Qed.

Lemma answer_ok r t e : state_ok r t (en_state e) → verdict_ok r t (answer e).
Proof. unfold answer. destruct (en_state e); simpl; [|done..]. by destruct (_ && _). Qed.

Lemma entries_insert r entries t e :
  entries_ok r entries → under r t (en_key e) (state_ok r t (en_state e)) → entries_ok r (<[t := e]> entries).
Proof.
  intros Hok He t' e'. rewrite lookup_insert. case_decide as Ht; [|by apply Hok].
  intros [= <-]. by subst.
Qed.

Lemma remove_ok r t e i :
  state_ok r t (en_state e) → (∀ j, ¬ hole_at r t j i) → state_ok r t (en_state (entry_remove e i)).
Proof.
  intros He Hi. assert (∀ (holes : Holes) j h, hole_at r t j h → h ∈ dom holes → h ∈ dom (delete i holes)) as Hdel.
  { intros holes j h Hh Hd. rewrite dom_delete elem_of_difference not_elem_of_singleton. split; [done|].
    intros ->. by destruct (Hi j). }
  unfold entry_remove. destruct (en_state e) as [c found st|found|]; simpl in *; [|case_bool_decide as Hempty|done].
  - intros j h Hh Hsc. eapply Hdel; [done|]. by eapply He.
  - intros j h Hh. apply (no_holes h). rewrite -Hempty. eapply Hdel; [done|]. by eapply He.
  - intros j h Hh. eapply Hdel; [done|]. by eapply He.
Qed.

Lemma removes_ok r t e l :
  state_ok r t (en_state e) → (∀ i, i ∈ l → ∀ j, ¬ hole_at r t j i) →
  state_ok r t (en_state (foldl entry_remove e l)).
Proof.
  revert e. induction l as [|i l IH]; intros e He Hl; [done|]. simpl.
  apply IH; [|intros j Hj; apply Hl; by right]. apply remove_ok; [done|]. apply Hl. by left.
Qed.

Lemma removes_key e l : en_key (foldl entry_remove e l) = en_key e.
Proof. revert e. induction l as [|i l IH]; intros e; [done|]. simpl. by rewrite IH. Qed.

Lemma entry_at_Some (entries : Entries) t key e :
  entry_at entries t key = Some e ↔ entries !! t = Some e ∧ en_key e = key.
Proof.
  unfold entry_at. destruct (entries !! t) as [e'|]; simpl; [|naive_solver].
  case_bool_decide; naive_solver.
Qed.

(** ** The sections keep what is known *)

Lemma advance_ok r entries t key read claim entries' outcome :
  entries_ok r entries → snapshot_ok r t key read →
  advance_claim entries t key claim = (entries', outcome) →
  entries_ok r entries' ∧
  match outcome with inl a => under r t key (verdict_ok r t a) | inr _ => True end.
Proof.
  intros Hok Hsnap. unfold advance_claim.
  set (e0 := default (entry_start key) (entries !! t)). set (e := if bool_decide (en_key e0 = key) then e0 else _).
  assert (under r t key (state_ok r t (en_state (entry_start key)))) as Hstart.
  { apply (snapshot_under r t key read); [done|]. intros _ i h _ [[]|(? & ? & ? & _)]; done. }
  assert (en_key e = key ∧ under r t key (state_ok r t (en_state e))) as [Hkey He].
  { unfold e. case_bool_decide as Hk; [|done]. split; [done|]. rewrite -Hk. unfold e0 in *.
    destruct (entries !! t) as [e1|] eqn:He1; simpl in *; [by apply Hok|done]. }
  destruct (en_state e) as [c found [st|]|found|] eqn:Hs; intros [= <- <-].
  - split; [apply entries_insert; [done|by rewrite Hkey Hs]|].
    eapply under_mono; [done|]. rewrite -Hs. apply answer_ok.
  - split; [|done]. by apply entries_insert.
  - split; [apply entries_insert; [done|by rewrite Hkey Hs]|].
    eapply under_mono; [done|]. rewrite -Hs. apply answer_ok.
  - split; [apply entries_insert; [done|by rewrite Hkey Hs]|].
    eapply under_mono; [done|]. rewrite -Hs. apply answer_ok.
Qed.

(** Saving a step read from an earlier snapshot: what it did not see cannot be a hole now. *)
Lemma finish_ok r entries t key claim start read step entries' a :
  entries_ok r entries → snapshot_ok r t key read → scan_step read t start reads = Ok step →
  finish entries t key claim start step = (entries', a) →
  entries_ok r entries' ∧ under r t key (verdict_ok r t a).
Proof.
  intros Hok Hsnap Hstep. unfold finish.
  assert (under r t key (verdict_ok r t (IScanning (sp_holes step)))) as Hpartial
    by by apply (snapshot_under r t key read).
  destruct (entries !! t) as [[k [c found st|found|]]|] eqn:He; try (by intros [= <- <-]).
  destruct (_ && _) eqn:Hsame; [|by intros [= <- <-]].
  reflect_in Hsame. destruct Hsame as [[-> _] ->].
  set (holes := merge_holes (fo_holes found) (sp_holes step)).
  pose proof (Hok t _ He) as Hunder. simpl in Hunder.
  assert (under r t key (∀ i h, hole_at r t i h → sp_done step = true ∨ scanned (sp_cursor step) i h →
    h ∈ dom holes)) as Hcov.
  { destruct Hunder as [Hle Hcur], Hsnap as [Hf Hkey]. destruct (Hf t) as [Hle' Hg]. split; [done|].
    intros Hnow i h Hh Hsc. unfold holes. rewrite merge_holes_dom elem_of_union.
    destruct (scan_step_covers _ _ _ _ _ Hstep i h) as [?|?]; [apply Hg; [lia|done]|done| |by right].
    left. by apply (Hcur Hnow i). }
  cbn [fo_holes fo_checked]. destruct (sp_done step); [case_bool_decide as Hempty|]; intros [= <- <-].
  - assert (under r t key (∀ i h, ¬ hole_at r t i h)) as Hw.
    { eapply under_mono; [exact Hcov|]. intros Hc i h Hh. apply (no_holes h). rewrite -Hempty.
      apply (Hc i); [done|by left]. }
    split; [by apply entries_insert|done].
  - assert (under r t key (∀ i h, hole_at r t i h → h ∈ dom holes)) as Hi.
    { eapply under_mono; [exact Hcov|]. intros Hc i h Hh. apply (Hc i); [done|by left]. }
    split; [by apply entries_insert|done].
  - split; [|done]. apply entries_insert; [done|]. eapply under_mono; [exact Hcov|].
    intros Hc i h Hh Hsc. apply (Hc i); [done|by right].
Qed.

Lemma claim_drop_ok r entries t key claim :
  entries_ok r entries → entries_ok r (claim_drop entries t key claim).
Proof.
  intros Hok. unfold claim_drop. destruct (entries !! t) as [[k [c found st|found|]]|] eqn:He; try done.
  destruct (_ && _); [|done]. apply entries_insert; [done|]. by apply (Hok t _ He).
Qed.

Lemma recheck_slice_ok r entries t key entries' slice :
  entries_ok r entries → recheck_slice entries t key reads = (entries', slice) → entries_ok r entries'.
Proof.
  intros Hok. unfold recheck_slice. destruct (entry_at entries t key) as [e|] eqn:He; [|by intros [= <- _]].
  apply entry_at_Some in He as [He _]. destruct (entry_found e) as [found|] eqn:Hf; [|by intros [= <- _]].
  unfold found_next. intros [= <- _]. apply entries_insert; [done|]. pose proof (Hok t e He) as Hu.
  unfold entry_found in Hf. destruct e as [k [c f st|f|]]; simpl in *; by simplify_eq.
Qed.

Lemma recheck_stored_ok (read : R) slice stored :
  recheck_stored read slice = Ok stored → ∀ i, i ∈ stored → rd_stored read i = true.
Proof.
  unfold recheck_stored. apply (try_fold_inv (λ s, ∀ i, i ∈ s → rd_stored read i = true)).
  - intros i s1 s2 _ Hs1. destruct (rd_dep_resolvable read i) as [b|] eqn:Hb; [|done]. res_step.
    apply rd_resolvable_ok in Hb as ->. intros [= <-] j. destruct (rd_stored read i) eqn:Hi; [|apply Hs1].
    rewrite elem_of_app list_elem_of_singleton. intros [?| ->]; [by apply Hs1|done].
  - by intros i ?%elem_of_nil.
Qed.

Lemma recheck_drop_ok r entries t key read slice stored entries' a :
  entries_ok r entries → snapshot_ok r t key read → recheck_stored read slice = Ok stored →
  recheck_drop entries t key stored = (entries', a) →
  entries_ok r entries' ∧ under r t key (verdict_ok r t a).
Proof.
  intros Hok Hsnap Hst. unfold recheck_drop.
  destruct (entry_at entries t key) as [e|] eqn:He.
  2:{ intros [= <- <-]. split; [done|]. by apply (snapshot_under r t key read). }
  apply entry_at_Some in He as [He Hkey]. intros [= <- <-].
  assert (under r t key (state_ok r t (en_state (foldl entry_remove e stored)))) as Hnew.
  { pose proof (Hok t e He) as [Hle Hs]. rewrite Hkey in Hle, Hs. destruct Hsnap as [Hf Hk].
    split; [done|]. intros Hnow. apply removes_ok; [by apply Hs|].
    intros i Hi j Hh. apply (proj2 (Hf t)) in Hh as (_ & Hh & _); [|lia].
    apply (recheck_stored_ok _ _ _ Hst) in Hi. congruence. }
  split; [apply entries_insert; [done|by rewrite removes_key Hkey]|].
  eapply under_mono; [done|]. apply answer_ok.
Qed.

Lemma fill_ok r entries holes :
  entries_ok r entries → flight_ok r (Filling holes) → entries_ok r (fill entries holes).
Proof.
  unfold fill. revert entries. induction holes as [|hole holes IH]; intros entries Hok Hf; [done|]. simpl.
  apply IH; [|intros hole' Hin; apply Hf; by right]. unfold fill_one.
  destruct (entry_at entries _ _) as [e|] eqn:He; [|done]. apply entry_at_Some in He as [He Hkey].
  apply entries_insert; [done|]. destruct (Hok _ e He) as [Hle Hs]. destruct (Hf hole) as [_ Hno]; [by left|].
  split; [done|]. intros Hnow. apply remove_ok; [by apply Hs|]. apply Hno. by rewrite -Hkey.
Qed.

Lemma listed_ok r entries ops :
  entries_ok r entries → flight_ok r (Listing (listed entries ops)).
Proof.
  intros Hok hole (op & _ & Hop)%list_elem_of_omap. simpl in Hop.
  destruct (entries !! topic_id (obody op)) as [e|] eqn:He; simpl in Hop; [|done].
  destruct (entry_found e); simpl in Hop; [|done]. case_bool_decide; [|done]. injection Hop as <-. simpl.
  apply (Hok _ e He).
Qed.

Lemma flight_follows r r' f : follows r r' → flight_ok r f → flight_ok r' f.
Proof.
  intros Hf. assert (∀ t key read, snapshot_ok r t key read → snapshot_ok r' t key read) as Hsnap.
  { intros t key read [? ?]. split; [by eapply follows_trans|done]. }
  destruct f as [| | | |t key a|holes|holes]; simpl; [by apply Hsnap..| | |].
  - intros Hu. eapply under_follows; [done..|]. intros Hg. by apply verdict_ok_shrinks.
  - intros Hh hole Hin. specialize (Hh hole Hin). destruct (Hf (ls_topic_id hole)). lia.
  - intros Hh hole Hin. eapply under_follows; [done|by apply Hh|]. intros Hg Hno i Hi. by apply (Hno i), Hg.
Qed.

Lemma after_answer_ok r t key read a :
  snapshot_ok r t key read → under r t key (verdict_ok r t a) → flight_ok r (after_answer t key read a).
Proof.
  intros Hs Hu. unfold after_answer. destruct (integrity_holes a) as [holes|]; [|done]. by case_bool_decide.
Qed.

(** Moving one thread keeps the others. *)
Lemma moved_ok w entries n f :
  world_ok w → entries_ok (wd_read w) entries → (∀ f', f = Some f' → flight_ok (wd_read w) f') →
  world_ok (moved w entries n f).
Proof.
  intros [_ Hf] He Hn. split; [done|]. cbn [moved wd_flights wd_read]. intros m f'.
  destruct (decide (n = m)) as [->|]; [rewrite lookup_partial_alter_eq; apply Hn|].
  rewrite lookup_partial_alter_ne //. apply Hf.
Qed.

Lemma world_step_ok w w' : world_ok w → world_step w w' → world_ok w'.
Proof.
  intros Hok Hstep. pose proof (wo_entries w Hok) as He. pose proof (wo_flights w Hok) as Hf.
  destruct Hstep as [r' Hr|n t key Hn Hk|n t key read entries outcome Hn Ha|n t key claim start read step entries a Hn Hs Hfin
    |n t key claim start read Hn|n t key read entries slice Hn Hs|n t key slice read stored entries a Hn Hst Hd
    |n ops Hn|n holes Hn|n holes Hn| |n f Hn _].
  - split; cbn [wd_read wd_entries wd_flights].
    + intros t e Hte. eapply under_follows; [done|by apply He|]. intros Hg. by apply state_ok_shrinks.
    + intros n f Hn. eapply flight_follows; [done|]. by eapply Hf.
  - apply moved_ok; [done..|]. intros f [= <-]. split; [apply follows_refl|]. by apply rd_key_ok.
  - pose proof (Hf n _ Hn) as Hsnap. destruct (advance_ok _ _ _ _ _ _ _ _ He Hsnap Ha) as [He' Hout].
    split; cbn [wd_read wd_entries wd_flights]; [done|]. intros m f. rewrite lookup_insert. case_decide; [|apply Hf].
    intros [= <-]. destruct outcome; [by apply after_answer_ok|done].
  - pose proof (Hf n _ Hn) as Hsnap. destruct (finish_ok _ _ _ _ _ _ _ _ _ _ He Hsnap Hs Hfin) as [He' Hout].
    apply moved_ok; [done|by apply claim_drop_ok|]. intros f [= <-]. by apply after_answer_ok.
  - apply moved_ok; [done|by apply claim_drop_ok|done].
  - apply moved_ok; [done|by eapply recheck_slice_ok|]. pose proof (Hf n _ Hn) as Hsnap. intros f [= <-].
    destruct slice; [done|]. by apply (snapshot_under _ t key read).
  - destruct (recheck_drop_ok _ _ _ _ _ _ _ _ _ He (Hf n _ Hn) Hst Hd) as [He' Hout].
    apply moved_ok; [done..|]. by intros f [= <-].
  - apply moved_ok; [done..|]. intros f [= <-]. by apply listed_ok.
  - apply moved_ok; [done..|]. intros f [= <-] hole [Hst Hin]%list_elem_of_filter. split; [by apply (Hf n _ Hn)|].
    intros _ i (_ & Hh & _). unfold stored_now in Hst.
    destruct (rd_dep_resolvable (wd_read w) (ls_id hole)) as [b|] eqn:Hb; [|done]. apply rd_resolvable_ok in Hb. congruence.
  - apply moved_ok; [done| |done]. apply fill_ok; [done|]. by apply (Hf n).
  - by split.
  - by apply moved_ok.
Qed.

Lemma reachable_world_ok w : world_reachable w → world_ok w.
Proof.
  intros [read Hr]. revert Hr. apply rtc_ind_r; [by split|]. intros w1 w2 _ Hs Hok. by eapply world_step_ok.
Qed.

(** C32: an integrity verdict is right although it was assembled from several
    snapshots while the store moved. However questions, admissions, resets and cache
    clears interleave, once a question is answered, and as long as the data epoch of
    its snapshot is the store's: the answer whole means that no stored record of the
    topic references anything unresolved, and an incomplete answer lists every such
    reference. *)
Theorem verdict_sound w n t key a :
  world_reachable w → wd_flights w !! n = Some (Answered t key a) → key.2 = rd_epoch (wd_read w) t →
  match a with
  | IWhole => ∀ i h, ¬ hole_at (wd_read w) t i h
  | IIncomplete holes => ∀ i h, hole_at (wd_read w) t i h → h ∈ dom holes
  | IScanning _ | IUnknown => True
  end.
Proof.
  intros Hr Hn Hkey. destruct (wo_flights w (reachable_world_ok w Hr) n _ Hn) as [_ Hv]. by apply Hv.
Qed.

(** ** Claims *)

(** The claim that holds the scan of a topic *)
Definition stepping_of (e : Entry) : option N :=
  match en_state e with Scanning _ _ stepping => stepping | _ => None end.
Definition claimed (entries : Entries) (t : TopicId) : option (BranchKey * N) :=
  e ← entries !! t; c ← stepping_of e; Some (en_key e, c).

Definition claims_shrink (entries entries' : Entries) : Prop :=
  ∀ t x, claimed entries' t = Some x → claimed entries t = Some x.

Lemma shrink_refl entries : claims_shrink entries entries.
Proof. by intros t x. Qed.
#[local] Hint Resolve shrink_refl : core.

(** Writing an entry back keeps its claim or ends it. *)
Lemma shrink_insert entries t e e' :
  entries !! t = Some e → en_key e' = en_key e → stepping_of e' = None ∨ stepping_of e' = stepping_of e →
  claims_shrink entries (<[t := e']> entries).
Proof.
  intros He Hk Hs t' x. unfold claimed. rewrite lookup_insert. case_decide as Ht; [subst t'|done].
  rewrite He. simpl. rewrite Hk. by destruct Hs as [->| ->].
Qed.

Lemma remove_stepping e i : stepping_of (entry_remove e i) = None ∨ stepping_of (entry_remove e i) = stepping_of e.
Proof. unfold stepping_of, entry_remove. destruct (en_state e); simpl; [by right| |by left]. case_bool_decide; by left. Qed.

Lemma removes_stepping e l :
  stepping_of (foldl entry_remove e l) = None ∨ stepping_of (foldl entry_remove e l) = stepping_of e.
Proof.
  revert e. induction l as [|i l IH]; intros e; [by right|]. simpl.
  destruct (IH (entry_remove e i)) as [?| ->]; [by left|apply remove_stepping].
Qed.

Lemma finish_shrink entries t key claim start step :
  claims_shrink entries (finish entries t key claim start step).1.
Proof.
  unfold finish. destruct (entries !! t) as [[k [c found st|found|]]|] eqn:He; try done.
  destruct (_ && _); [|done]. cbn [fo_holes]. destruct (sp_done step); [case_bool_decide|];
    (eapply shrink_insert; [exact He|done|by left]).
Qed.

Lemma claim_drop_shrink entries t key claim :
  claims_shrink entries (claim_drop entries t key claim) ∧
  claimed (claim_drop entries t key claim) t ≠ Some (key, claim).
Proof.
  unfold claim_drop. destruct (entries !! t) as [[k [c found st|found|]]|] eqn:He.
  2-4: split; [done|]; unfold claimed; by rewrite He.
  destruct (_ && _) eqn:Hsame; split; try done.
  - eapply shrink_insert; [exact He|done|by left].
  - unfold claimed. by rewrite lookup_insert_eq.
  - unfold claimed. rewrite He. simpl. destruct st as [st|]; [|done]. simpl. intros [= -> ->].
    by rewrite !bool_decide_true in Hsame.
Qed.

Lemma recheck_slice_shrink entries t key : claims_shrink entries (recheck_slice entries t key reads).1.
Proof.
  unfold recheck_slice. destruct (entry_at entries t key) as [e|] eqn:He; [|done].
  apply entry_at_Some in He as [He _]. destruct (entry_found e) as [found|] eqn:Hf; [|done].
  unfold found_next. eapply shrink_insert; [exact He|done|right]. unfold stepping_of. simpl. by destruct (en_state e).
Qed.

Lemma recheck_drop_shrink entries t key stored : claims_shrink entries (recheck_drop entries t key stored).1.
Proof.
  unfold recheck_drop. destruct (entry_at entries t key) as [e|] eqn:He; [|done].
  apply entry_at_Some in He as [He _]. eapply shrink_insert; [exact He|apply removes_key|apply removes_stepping].
Qed.

Lemma fill_shrink entries holes : claims_shrink entries (fill entries holes).
Proof.
  unfold fill. revert entries. induction holes as [|hole holes IH]; intros entries; [done|]. simpl.
  intros t x Hx%IH. revert t x Hx. change (claims_shrink entries (fill_one entries hole)). unfold fill_one.
  destruct (entry_at entries _ _) as [e|] eqn:He; [|done]. apply entry_at_Some in He as [He _].
  eapply shrink_insert; [exact He|done|apply remove_stepping].
Qed.

Lemma advance_claims entries t key claim entries' outcome :
  advance_claim entries t key claim = (entries', outcome) →
  match outcome with
  | inl _ => claims_shrink entries entries'
  | inr _ => ∀ t' x, claimed entries' t' = Some x → t' = t ∧ x = (key, claim) ∨ claimed entries t' = Some x
  end.
Proof.
  unfold advance_claim. set (e0 := default (entry_start key) (entries !! t)).
  set (e := if bool_decide (en_key e0 = key) then e0 else _).
  assert (stepping_of e = None ∨ entries !! t = Some e) as Hfrom.
  { unfold e. case_bool_decide; [|by left]. unfold e0. by destruct (entries !! t); [right|left]. }
  assert (∀ t' x, claimed (<[t := e]> entries) t' = Some x → claimed entries t' = Some x) as Hsame.
  { intros t' x. unfold claimed. rewrite lookup_insert. case_decide; [subst|done].
    destruct Hfrom as [Hn| ->]; [|done]. simpl. by rewrite Hn. }
  destruct (en_state e) as [c found [st|]|found|] eqn:Hs; intros [= <- <-]; try done.
  intros t' x. unfold claimed at 1. rewrite lookup_insert. case_decide; [|by right]. intros [= <-]. by left.
Qed.

Record claims_ok (w : World) : Prop := {
  co_fresh n t k c s r : wd_flights w !! n = Some (Stepping t k c s r) → c < wd_claims w;
  co_distinct n m t k c s r t' k' s' r' :
    wd_flights w !! n = Some (Stepping t k c s r) → wd_flights w !! m = Some (Stepping t' k' c s' r') → n = m;
  co_held t k c : claimed (wd_entries w) t = Some (k, c) →
    ∃ n s r, wd_flights w !! n = Some (Stepping t k c s r);
}.

Definition stepping_flight (f : Flight) : bool := match f with Stepping _ _ _ _ _ => true | _ => false end.

Lemma after_answer_idle t key read a : stepping_flight (after_answer t key read a) = false.
Proof. unfold after_answer. destruct (integrity_holes a); [by case_bool_decide|done]. Qed.

(** A thread that ends up idle and whose claim, if any, is gone *)
Lemma moved_claims w entries n f :
  claims_ok w → claims_shrink (wd_entries w) entries →
  (∀ f', f = Some f' → stepping_flight f' = false) →
  (∀ t k c s r, wd_flights w !! n = Some (Stepping t k c s r) → claimed entries t ≠ Some (k, c)) →
  claims_ok (moved w entries n f).
Proof.
  intros [Hfr Hd Hh] Hsh Hidle Hgone.
  assert (∀ m t k c s r, wd_flights (moved w entries n f) !! m = Some (Stepping t k c s r) →
    wd_flights w !! m = Some (Stepping t k c s r)) as Hback.
  { intros m t k c s r. cbn [moved wd_flights]. destruct (decide (n = m)) as [->|].
    - rewrite lookup_partial_alter_eq. intros ->. by specialize (Hidle _ eq_refl).
    - by rewrite lookup_partial_alter_ne. }
  split.
  - intros m t k c s r Hm%Hback. by apply (Hfr _ _ _ _ _ _ Hm).
  - intros m1 m2 t k c s r t' k' s' r' H1%Hback H2%Hback. by eapply Hd.
  - intros t k c Hc. cbn [moved wd_entries] in Hc. destruct (Hh t k c (Hsh _ _ Hc)) as (m & s & r & Hm).
    exists m, s, r. cbn [moved wd_flights]. rewrite lookup_partial_alter_ne //. intros ->. by apply (Hgone _ _ _ _ _ Hm).
Qed.

Lemma world_step_claims w w' : claims_ok w → world_step w w' → claims_ok w'.
Proof.
  intros Hok Hstep. pose proof Hok as [Hfr Hd Hh].
  destruct Hstep as [r' Hr|n t key Hn Hk|n t key read entries outcome Hn Ha|n t key claim start read step entries a Hn Hs Hfin
    |n t key claim start read Hn|n t key read entries slice Hn Hs|n t key slice read stored entries a Hn Hst Hd'
    |n ops Hn|n holes Hn|n holes Hn| |n f Hn Hidle].
  - done.
  - apply moved_claims; [done..|by intros ? [= <-]|]. by rewrite Hn.
  - apply advance_claims in Ha. destruct outcome as [a|start].
    + change (<[n := after_answer t key read a]> (wd_flights w)) with (partial_alter (λ _, Some (after_answer t key read a)) n (wd_flights w)).
      destruct (moved_claims w entries n (Some (after_answer t key read a))) as [Hfr' Hd' Hh']; [done..| | |].
      { intros ? [= <-]. apply after_answer_idle. }
      { by rewrite Hn. }
      split; cbn [wd_flights wd_claims wd_entries]; [|exact Hd'|exact Hh'].
      intros m t' k c s r Hm. apply Hfr' in Hm. cbn [moved wd_claims] in Hm. lia.
    + split; cbn [wd_flights wd_claims wd_entries].
      * intros m t' k c s r. rewrite lookup_insert. case_decide; [intros [= <- <- <- <- <-]; lia|].
        intros Hm%Hfr. lia.
      * intros m1 m2 t1 k1 c s1 r1 t2 k2 s2 r2. rewrite !lookup_insert. do 2 case_decide; [congruence|..|by apply Hd].
        -- intros [= <- <- <- <- <-] Hm%Hfr. lia.
        -- intros Hm%Hfr [= <- <- <- <- <-]. lia.
      * intros t' k c [[-> [= -> ->]]|Hold]%Ha; [exists n, start, read; by rewrite lookup_insert_eq|].
        destruct (Hh t' k c Hold) as (m & s & r & Hm). exists m, s, r. rewrite lookup_insert_ne //. congruence.
  - destruct (claim_drop_shrink entries t key claim) as [Hsh Hgone].
    apply moved_claims; [done| | |].
    + intros t' x Hx%Hsh. pose proof (finish_shrink (wd_entries w) t key claim start step) as Hf. rewrite Hfin in Hf. by apply Hf.
    + intros ? [= <-]. apply after_answer_idle.
    + rewrite Hn. by intros ? ? ? ? ? [= <- <- <- _ _].
  - destruct (claim_drop_shrink (wd_entries w) t key claim) as [Hsh Hgone].
    apply moved_claims; [done..|]. rewrite Hn. by intros ? ? ? ? ? [= <- <- <- _ _].
  - pose proof (recheck_slice_shrink (wd_entries w) t key) as Hf. rewrite Hs in Hf.
    apply moved_claims; [done..|intros ? [= <-]; by destruct slice|by rewrite Hn].
  - pose proof (recheck_drop_shrink (wd_entries w) t key stored) as Hf. rewrite Hd' in Hf.
    apply moved_claims; [done..|by intros ? [= <-]|by rewrite Hn].
  - apply moved_claims; [done..|by intros ? [= <-]|by rewrite Hn].
  - apply moved_claims; [done..|by intros ? [= <-]|by rewrite Hn].
  - apply moved_claims; [done|apply fill_shrink|done|by rewrite Hn].
  - split; cbn [wd_flights wd_claims wd_entries]; [done..|]. unfold claimed. by intros t k c.
  - apply moved_claims; [done..|]. rewrite Hn. intros ? ? ? ? ? [= ->]. by destruct (Hidle t k c s r).
Qed.

Lemma reachable_claims_ok w : world_reachable w → claims_ok w.
Proof.
  intros [read Hr]. revert Hr. apply rtc_ind_r; [by split|]. intros w1 w2 _ Hs Hok. by eapply world_step_claims.
Qed.

(** At most one step reads a topic at a time, and its claim ends with the step,
    however it ends. In every interleaving a scan that is marked as being read is
    being read by exactly one thread, so one that is not can be claimed: no error or
    cache clear leaves a scan behind that nobody can continue. *)
Theorem claim_exclusive w t key claim :
  world_reachable w → claimed (wd_entries w) t = Some (key, claim) →
  ∃ n start read, wd_flights w !! n = Some (Stepping t key claim start read) ∧
    ∀ m t' key' start' read', wd_flights w !! m = Some (Stepping t' key' claim start' read') → m = n.
Proof.
  intros Hr Hc. destruct (reachable_claims_ok w Hr) as [_ Hd Hh]. destruct (Hh t key claim Hc) as (n & s & r & Hn).
  exists n, s, r. split; [done|]. intros m t' key' s' r' Hm. by eapply Hd.
Qed.

(** ** An undisturbed question *)

(** [advance] *)
Definition advance (entries : Entries) (claim : N) (read : R) (t : TopicId) (key : BranchKey)
    : Entries * res Integrity :=
  match advance_claim entries t key claim with
  | (entries, inl a) => (entries, Ok a)
  | (entries, inr start) =>
      match scan_step read t start reads with
      | Err e => (claim_drop entries t key claim, Err e)
      | Ok step =>
          let '(entries, a) := finish entries t key claim start step in
          (claim_drop entries t key claim, Ok a)
      end
  end.

(** [recheck] *)
Definition recheck (entries : Entries) (read : R) (t : TopicId) (key : BranchKey) : Entries * res Integrity :=
  match recheck_slice entries t key reads with
  | (entries, None) => (entries, Ok IUnknown)
  | (entries, Some slice) =>
      match recheck_stored read slice with
      | Err e => (entries, Err e)
      | Ok stored => let '(entries, a) := recheck_drop entries t key stored in (entries, Ok a)
      end
  end.

(** [step] *)
Definition inspect_step (entries : Entries) (claim : N) (read : R) (t : TopicId) (key : BranchKey)
    : Entries * res Integrity :=
  match advance entries claim read t key with
  | (entries, Err e) => (entries, Err e)
  | (entries, Ok a) =>
      match integrity_holes a with
      | Some holes => if bool_decide (holes = ∅) then (entries, Ok a) else recheck entries read t key
      | None => (entries, Ok a)
      end
  end.

Lemma moved_twice w entries n f entries' f' : moved (moved w entries n f) entries' n f' = moved w entries' n f'.
Proof. unfold moved. cbn [wd_read wd_claims wd_flights]. f_equal. apply partial_alter_partial_alter_eq. Qed.

Lemma moved_at w entries n f : wd_flights (moved w entries n f) !! n = f.
Proof. cbn [moved wd_flights]. apply lookup_partial_alter_eq. Qed.

(** The claim counter after a question *)
Definition counted (w : World) : World :=
  {| wd_read := wd_read w; wd_entries := wd_entries w; wd_claims := wd_claims w + 1; wd_flights := wd_flights w |}.

(** The part of a question after the scan answered *)
Lemma recheck_run w n t key read a entries a' :
  wd_flights w !! n = Some (after_answer t key read a) →
  match integrity_holes a with
  | Some holes => if bool_decide (holes = ∅) then (wd_entries w, Ok a) else recheck (wd_entries w) read t key
  | None => (wd_entries w, Ok a)
  end = (entries, Ok a') →
  rtc world_step w (moved w entries n (Some (Answered t key a'))).
Proof.
  unfold after_answer. assert (∀ f, wd_flights w !! n = Some f → moved w (wd_entries w) n (Some f) = w) as Hsame.
  { intros f Hf. unfold moved. destruct w as [r e c fl]. cbn in *. f_equal.
    apply map_eq. intros m. destruct (decide (n = m)) as [->|]; [by rewrite lookup_partial_alter_eq|by rewrite lookup_partial_alter_ne]. }
  destruct (integrity_holes a) as [holes|]; [case_bool_decide|]; intros Hn.
  1,3: intros [= <- <-]; rewrite (Hsame _ Hn); apply rtc_refl.
  unfold recheck. destruct (recheck_slice (wd_entries w) t key reads) as [e1 [slice|]] eqn:Hs.
  2:{ intros [= <- <-]. eapply rtc_once. by eapply step_slice in Hs. }
  destruct (recheck_stored read slice) as [stored|] eqn:Hst; [|done].
  destruct (recheck_drop e1 t key stored) as [e2 a2] eqn:Hd. intros [= <- <-].
  eapply rtc_l; [by eapply step_slice in Hs|].
  eapply rtc_once. rewrite -(moved_twice w e1 n (Some (Rechecking t key slice read)) e2).
  eapply step_recheck; [apply moved_at|done..].
Qed.

(** A question nobody disturbs is a run of the steps. *)
Lemma inspect_step_run w n t key entries a :
  wd_flights w !! n = None → rd_key (wd_read w) t = Ok (Some key) →
  inspect_step (wd_entries w) (wd_claims w) (wd_read w) t key = (entries, Ok a) →
  rtc world_step w (moved (counted w) entries n (Some (Answered t key a))).
Proof.
  intros Hn Hk Hq. eapply rtc_l; [by eapply step_ask|].
  set (w1 := moved w (wd_entries w) n (Some (Asked t key (wd_read w)))).
  assert (wd_flights w1 !! n = Some (Asked t key (wd_read w))) as Hn1 by apply moved_at.
  unfold inspect_step, advance in Hq.
  destruct (advance_claim (wd_entries w) t key (wd_claims w)) as [e1 outcome] eqn:Ha.
  eapply rtc_l; [by eapply step_advance; [exact Hn1|exact Ha]|].
  set (f := match outcome with inl a => _ | inr _ => _ end).
  assert ({| wd_read := wd_read w1; wd_entries := e1; wd_claims := wd_claims w1 + 1; wd_flights := <[n:=f]> (wd_flights w1) |} =
    moved (counted w) e1 n (Some f)) as ->.
  { unfold w1, moved, counted. cbn [wd_read wd_claims wd_flights]. f_equal.
    change (<[n:=f]> ?m) with (partial_alter (λ _, Some f) n m). apply partial_alter_partial_alter_eq. }
  destruct outcome as [a0|start].
  - rewrite -(moved_twice _ e1 n (Some f) entries (Some (Answered t key a))). eapply recheck_run; [apply moved_at|exact Hq].
  - destruct (scan_step (wd_read w) t start reads) as [step|] eqn:Hs; [|done].
    destruct (finish e1 t key (wd_claims w) start step) as [e2 a0] eqn:Hf.
    eapply rtc_l; [eapply step_finish; [apply moved_at|exact Hs|exact Hf]|]. rewrite moved_twice.
    rewrite -(moved_twice _ (claim_drop e2 t key (wd_claims w)) n (Some (after_answer t key (wd_read w) a0))
      entries (Some (Answered t key a))).
    eapply recheck_run; [apply moved_at|exact Hq].
Qed.
End run.
