(* ===== verification/StoreWitness.v ===== *)
(** * A run of the memory store

    A small store with an unlimited budget: an operation is buffered, the two it
    builds on are admitted, a peer acknowledges, the topic is reset. The theorems on
    the store apply at each of these states. *)

From stdpp Require Import relations.
From S2P Require Import Prelude Ids Frame ClockSpec Types Membership Evidence Records Pool Store.
From S2P Require Import StoreLog StoreAdmit StoreOps StoreReset StoreEvidence StoreRun.
From S2P Require Import Pages StoreReads.

#[local] Open Scope N_scope.

#[local] Existing Instance toy_crypto.

Abbreviation mclock := (gmap ActorId N).

(** No reservation is refused, every operation takes ten bytes. *)
#[local] Instance toy_env : StoreEnv mclock := {|
  mem _ := Ok ();
  pending_op_bytes _ := Ok 10;
  topic_fingerprint_for _ _ := Ok [];
|}.

Definition unlimited_meta (op : Op) (missing : gset OpId) : OpMeta mclock := {|
  om_id := op_id op; om_topic_id := topic_id (obody op); om_author := author (obody op);
  om_actor_id := actor_id (obody op); om_actor_seq := actor_seq (obody op);
  om_actor_prev := actor_prev (obody op); om_deps := deps (obody op);
  om_generation := generation (obody op); om_observed_clock := ∅;
  om_ready := bool_decide (missing = ∅); om_missing_deps := missing |}.

(** The value of a computation that succeeds. *)
Definition value {A} (r : res A) (d : A) : A := match r with Ok a => a | Err _ => d end.

Lemma value_ok {A} (r : res A) (d : A) : is_ok r = true → r = Ok (value r d).
Proof. by destruct r. Qed.

(** Operation 12 is buffered: it waits for 11. *)
Definition s1_result : res (MemoryInner mclock) :=
  put_pending_bound store_empty None (small_id 3) toy_remove
    (unlimited_meta toy_remove {[small_id 11]}) None.
Definition s1 : MemoryInner mclock := value s1_result store_empty.

Lemma s1_ok : put_pending_bound store_empty None (small_id 3) toy_remove
    (unlimited_meta toy_remove {[small_id 11]}) None = Ok s1.
Proof. apply (value_ok s1_result). vm_compute. reflexivity. Qed.

(** Operations 10 and 11 are admitted. *)
Definition state2 : TopicState := {|
  ts_topic_id := small_id 1; ts_event_type_id := "note"; ts_genesis := small_id 10;
  ts_heads := {[small_id 11]}; ts_members := {[small_id 3; small_id 4]};
  ts_replication_policy := policy_all; ts_membership_controls := ∅;
  ts_replication_policy_control := None |}.
Definition batch2 : AdmittedBatch mclock := {|
  ab_topic_id := small_id 1; ab_expected_heads := ∅; ab_expected_topic_state := None;
  ab_entries := [(toy_genesis, unlimited_meta toy_genesis ∅); (toy_add, unlimited_meta toy_add ∅)];
  ab_heads := {[small_id 11]}; ab_topic_state := Some state2;
  ab_effects := [{| ob_peer_id := small_id 4; ob_topic_id := small_id 1;
                    ob_target := ClockTarget {[small_id 2 := 2]} |}] |}.
Definition s2 : MemoryInner mclock := (admit_batch_locked s1 batch2 None).1.

Lemma s2_ok : admit_batch_locked s1 batch2 None = (s2, Ok ()).
Proof.
  unfold s2. assert (is_ok (admit_batch_locked s1 batch2 None).2 = true) as H by (vm_compute; reflexivity).
  destruct (admit_batch_locked s1 batch2 None) as [s [[]|e]]; [done|done].
Qed.

(** Both states are reached from the empty store. *)
Lemma batch2_wf : batch_wf s1 batch2.
Proof.
  split; [apply (bool_decide_unpack _); vm_compute; reflexivity|].
  intros e d md _ _ Hmd. assert (map_to_list (l_meta (s_log s1)) = []) as Hnone by (vm_compute; reflexivity).
  apply map_to_list_empty_iff in Hnone. by rewrite Hnone lookup_empty in Hmd.
Qed.

Lemma s1_step : step None store_empty s1.
Proof. eapply step_buffer, s1_ok. Qed.
Lemma s2_step : step None s1 s2.
Proof. eapply step_admit; [apply batch2_wf|apply s2_ok]. Qed.
Lemma s1_consistent : consistent s1.
Proof. eapply step_consistent; [apply store_empty_consistent|apply s1_step]. Qed.
Lemma s2_consistent : consistent s2.
Proof. eapply step_consistent; [apply s1_consistent|apply s2_step]. Qed.

(** ** Witnesses *)

Lemma put_pending_consistent_witness :
  store_ok s1 ∧ pr_missing <$> p_records (s_pool s1) !! op_id toy_remove = Some {[small_id 11]}.
Proof.
  destruct (put_pending_consistent store_empty None (small_id 3) toy_remove
    (unlimited_meta toy_remove {[small_id 11]}) None s1 store_empty_ok pool_empty_bounded s1_ok)
    as (Hok & _ & _ & _ & Hnew & _).
  split; [exact Hok|]. destruct Hnew as [_ Hrec]; [vm_compute; reflexivity|exact Hrec].
Defined.

(** Admitting 10 and 11 makes 12 ready. *)
Lemma admit_batch_consistent_witness :
  store_ok s2 ∧ topic_state_locked s2 (small_id 1) = Some state2 ∧
  l_ops (s_log s2) !! small_id 11 = Some toy_add ∧ op_id toy_remove ∈ p_ready (s_pool s2).
Proof.
  destruct (admit_batch_consistent s1 batch2 None s2 (Ok ()) (co_store _ s1_consistent) batch2_wf s2_ok)
    as (Hok & _ & Hops & _ & Hstate & _).
  split; [exact Hok|]. split; [exact Hstate|]. split.
  - apply (Hops (toy_add, unlimited_meta toy_add ∅)). right. left.
  - apply (bool_decide_unpack _). vm_compute. reflexivity.
Defined.

(** Rejecting 12 forgets it for good. *)
Definition s3_result : res (MemoryInner mclock * nat) := reject_pending_subtree s1 (small_id 12).
Lemma s3_ok : reject_pending_subtree s1 (small_id 12) = Ok (value s3_result (store_empty, O)).
Proof. apply (value_ok s3_result). vm_compute. reflexivity. Qed.

Lemma reject_pending_consistent_witness :
  ∃ s3 n, reject_pending_subtree s1 (small_id 12) = Ok (s3, n) ∧ store_ok s3 ∧ n = 1%nat.
Proof.
  pose proof s3_ok as H. destruct (value s3_result (store_empty, O)) as [s3 n] eqn:Hv.
  exists s3, n. split; [exact H|].
  destruct (reject_pending_consistent s1 (small_id 12) s3 n (co_store _ s1_consistent)
    (co_pool _ s1_consistent) H) as (Hok & _ & _).
  split; [exact Hok|]. change n with (s3, n).2. rewrite -Hv. vm_compute. reflexivity.
Defined.

(** Peer 4 acknowledges the clock it was owed. *)
Definition ack4 : PeerAck mclock := {|
  ack_peer_id := small_id 4; ack_topic_id := small_id 1; ack_genesis := Some (small_id 10);
  ack_heads := {[small_id 11]}; ack_clock := {[small_id 2 := 2]} |}.
Definition s4_result : res (MemoryInner mclock * nat) := apply_ack_locked s2 ack4.
Lemma s4_ok : apply_ack_locked s2 ack4 = Ok (value s4_result (store_empty, O)).
Proof. apply (value_ok s4_result). vm_compute. reflexivity. Qed.

Lemma apply_ack_exact_witness :
  ∃ s4 n, apply_ack_locked s2 ack4 = Ok (s4, n) ∧ obligations_ok (s_obligations s4) ∧ n = 1%nat ∧
    s_obligations s4 !! (small_id 1, small_id 4) = None.
Proof.
  pose proof s4_ok as H. destruct (value s4_result (store_empty, O)) as [s4 n] eqn:Hv.
  exists s4, n. split; [exact H|].
  destruct (apply_ack_exact s2 ack4 s4 n (co_obligations _ s2_consistent) H) as (_ & _ & Hok & _).
  split; [exact Hok|]. change n with (s4, n).2. change (s_obligations s4) with (s_obligations (s4, n).1).
  rewrite -Hv. split; vm_compute; reflexivity.
Defined.

(** The topic is reset. *)
Definition s5 : MemoryInner mclock := (reset_topic_locked s2 (small_id 1)).1.
Lemma s5_ok : reset_topic_locked s2 (small_id 1) = (s5, Ok 2%nat).
Proof.
  unfold s5. assert ((reset_topic_locked s2 (small_id 1)).2 = Ok 2%nat) as H by (vm_compute; reflexivity).
  rewrite -H. by destruct (reset_topic_locked s2 (small_id 1)).
Qed.

Lemma reset_topic_exact_witness : store_ok s5 ∧ topic_gone s5 (small_id 1).
Proof.
  destruct (reset_topic_exact s2 (small_id 1) s5 (Ok 2%nat) (co_store _ s2_consistent) s5_ok)
    as (Hok & Hgone & _).
  split; [exact Hok|exact Hgone].
Defined.

(** The branch is replaced by one that holds the genesis alone. *)
Definition state6 : TopicState := set_heads state2 {[small_id 10]}.
Definition batch6 : AdmittedBatch mclock := {|
  ab_topic_id := small_id 1; ab_expected_heads := ∅; ab_expected_topic_state := None;
  ab_entries := [(toy_genesis, unlimited_meta toy_genesis ∅)];
  ab_heads := {[small_id 10]}; ab_topic_state := Some state6; ab_effects := [] |}.
Lemma batch6_wf : batch_wf s2 batch6.
Proof.
  split; [apply (bool_decide_unpack _); vm_compute; reflexivity|].
  intros e d md He Hd Hmd. exfalso.
  assert (om_deps e.2 = ∅) as Hz by (apply list_elem_of_singleton in He as ->; reflexivity).
  rewrite Hz in Hd. exact (not_elem_of_empty d Hd).
Qed.
Definition s6 : MemoryInner mclock := (reset_topic_and_admit s2 (small_id 1) state2 batch6 None).1.
Lemma s6_ok : reset_topic_and_admit s2 (small_id 1) state2 batch6 None = (s6, Ok 2%nat).
Proof.
  unfold s6.
  assert ((reset_topic_and_admit s2 (small_id 1) state2 batch6 None).2 = Ok 2%nat) as H
    by (vm_compute; reflexivity).
  rewrite -H. by destruct (reset_topic_and_admit s2 (small_id 1) state2 batch6 None).
Qed.

Lemma reset_and_admit_atomic_witness :
  store_ok s6 ∧ default ∅ (s_heads s6 !! (small_id 1 : TopicId)) = {[small_id 10]}.
Proof.
  destruct (reset_and_admit_atomic s2 state2 batch6 None s6 (Ok 2%nat) (co_store _ s2_consistent)
    batch6_wf s6_ok) as (Hok & _ & _ & _ & Hheads & _).
  split; [exact Hok|exact Hheads].
Defined.

Lemma reachable_consistent_witness : consistent s2.
Proof. apply reachable_consistent. eapply rtc_l; [by exists None; apply s1_step|].
  eapply rtc_l; [by exists None; apply s2_step|apply rtc_refl]. Defined.

(** ** Reads of the admitted state *)

Definition view2_result : res (option (TopicView mclock)) :=
  topic_view_locked s2 (small_id 1) (Some (small_id 4)).
Lemma view2_ok : ∃ view, topic_view_locked s2 (small_id 1) (Some (small_id 4)) = Ok (Some view) ∧
  tv_tips view !! (small_id 2 : ActorId) = Some (2, small_id 11).
Proof.
  assert (match view2_result with
    | Ok (Some view) => bool_decide (tv_tips view !! (small_id 2 : ActorId) = Some (2, small_id 11))
    | _ => false end = true) as H by (vm_compute; reflexivity).
  unfold view2_result in H. destruct (topic_view_locked _ _ _) as [[view|]|]; [|done..].
  exists view. split; [done|]. by apply bool_decide_eq_true in H.
Qed.

Lemma topic_view_coherent_witness :
  ∃ view, topic_view_locked s2 (small_id 1) (Some (small_id 4)) = Ok (Some view) ∧
    ck_view (tv_clock view) !! (small_id 2 : ActorId) = Some 2.
Proof.
  destruct view2_ok as (view & Hview & Htip). exists view. split; [exact Hview|].
  destruct (topic_view_coherent s2 (small_id 1) (Some (small_id 4)) view s2_consistent Hview)
    as (_ & _ & Hclock & _).
  rewrite Hclock Htip. reflexivity.
Defined.

Lemma tip2_bound : tip_of s2 (small_id 1) (small_id 2) ≤ u64_max.
Proof. apply N.leb_le. vm_compute. reflexivity. Qed.

Lemma actor_range_contiguous_witness :
  (actor_range_locked s2 (small_id 1) (small_id 2) 1 5).*1 = [2].
Proof.
  destruct (actor_range_contiguous s2 (small_id 1) (small_id 2) 1 5 (co_store _ s2_consistent) tip2_bound)
    as [Hpos _].
  rewrite Hpos. vm_compute. reflexivity.
Defined.

Lemma meta11_ok : l_meta (s_log s2) !! small_id 11 = Some (unlimited_meta toy_add ∅).
Proof. vm_compute. reflexivity. Qed.

Lemma dependency_pages_witness :
  ∃ ids, dependency_ids s2 (small_id 11) cursor_start 1 = Ok (Some ids) ∧
    ids = take 1 (bt_after {[small_id 10]} None).
Proof.
  destruct (dependency_pages s2 (small_id 11) (unlimited_meta toy_add ∅) cursor_start 1 meta11_ok
    (Nat.lt_0_succ 0) (cursor_start_ok _)) as (ids & Hids & _ & Heq & _).
  exists ids. split; [exact Hids|exact Heq].
Defined.

Lemma last2_ok : last (topic_ids_after s2 (small_id 1) None 1) = Some (small_id 10).
Proof. vm_compute. reflexivity. Qed.

Lemma topic_ids_pages_witness :
  topic_ids_after s2 (small_id 1) None 1 ++ topic_ids_after s2 (small_id 1) (Some (small_id 10)) 1 =
    topic_ids_after s2 (small_id 1) None 2.
Proof.
  apply (topic_ids_pages s2 (small_id 1) None 1 1 (small_id 10) (co_store _ s2_consistent) last2_ok).
Defined.

Lemma peers_reached_exact_witness : small_id 4 ∉ peers_reached_op s2 (small_id 11).
Proof.
  destruct (peers_reached_exact s2 (small_id 11) s2_consistent) as [_ Hin].
  intros Hp%Hin. revert Hp. vm_compute. discriminate.
Defined.

Lemma obligation_counts_exact_witness :
  topic_obligation_counts s2 (small_id 1) !! (small_id 4 : PeerId) = Some 1%nat.
Proof.
  destruct (obligation_counts_exact s2 (small_id 1) (small_id 4) s2_consistent) as [Hc _].
  rewrite Hc. vm_compute. reflexivity.
Defined.
