(* ===== verification/IntegrityStore.v ===== *)
(** * Integrity of the memory store

    Admission never creates a hole, in a damaged store neither; a consistent store has
    none. A question beside nobody else is a run of the steps of [IntegrityRun.v]; the
    theorems there apply to one about a store that lost a record. *)

From stdpp Require Import relations.
From S2P Require Import Prelude Ids Pages Frame ClockSpec Types Membership Evidence Records Pool Store.
From S2P Require Import StoreLog StoreAdmit StoreReads StoreWitness Integrity Inspections IntegrityRun.

#[local] Open Scope N_scope.

Section admission.
Context {C : Type} `{!ClockImpl C} `{!StoreEnv C} `{!Crypto}.
Implicit Types (inner : MemoryInner C) (log : Log C) (l : list (Op * OpMeta C)).

Lemma write_entries_log log pool l log' pool' :
  write_entries log pool l = ((log', pool'), Ok ()) → log' = write_all log l.
Proof.
  revert log pool. induction l as [|[op meta] l IH]; intros log pool; cbn [write_entries]; [by intros [= <- _]|].
  destruct (remove_pending_locked pool (op_id op)); [apply IH|done].
Qed.

(** What the writes of entries change of the records and the listing *)
Lemma write_all_grows log l :
  (∀ i, i ∈ op_id ∘ fst <$> l → is_Some (l_ops (write_all log l) !! i) ∧ is_Some (l_meta (write_all log l) !! i)) ∧
  (∀ i, is_Some (l_ops log !! i) → is_Some (l_ops (write_all log l) !! i)) ∧
  (∀ i, is_Some (l_meta log !! i) → is_Some (l_meta (write_all log l) !! i)) ∧
  (∀ i m, l_meta (write_all log l) !! i = Some m →
    l_meta log !! i = Some m ∧ i ∉ op_id ∘ fst <$> l ∨ ∃ o, (o, m) ∈ l ∧ op_id o = i) ∧
  (∀ t i, i ∈ default ∅ (l_topic_ops (write_all log l) !! t) →
    i ∈ default ∅ (l_topic_ops log !! t) ∨ i ∈ op_id ∘ fst <$> l).
Proof.
  revert log. induction l as [|[o m] l IH]; intros log.
  { split; [by intros i ?%elem_of_nil|]. split; [done|]. split; [done|]. split; [|by left].
    intros i m Hi. left. split; [done|apply not_elem_of_nil]. }
  rewrite fmap_cons. cbn [write_all foldl]. rewrite -/(write_all _ l).
  destruct (IH (write_log log o m)) as (Hnew & Hops & Hmeta & Hm & Ht).
  assert (∀ i, is_Some (l_ops log !! i) → is_Some (l_ops (write_log log o m) !! i)) as Hops1.
  { intros i Hi. cbn [write_log write_index l_ops]. rewrite lookup_insert. by case_decide. }
  assert (∀ i, is_Some (l_meta log !! i) → is_Some (l_meta (write_log log o m) !! i)) as Hmeta1.
  { intros i Hi. cbn [write_log write_index l_meta]. rewrite lookup_insert. by case_decide. }
  split; [|split; [by auto|split; [by auto|split]]].
  - intros i [->|Hi]%elem_of_cons; [|by apply Hnew]. split.
    + apply Hops. cbn [write_log l_ops]. by rewrite lookup_insert_eq.
    + apply Hmeta. cbn [write_log l_meta]. by rewrite lookup_insert_eq.
  - intros i m' [[Hi Hni]|(o' & Hin & <-)]%Hm; [|right; exists o'; split; [by right|done]].
    cbn [write_log write_index l_meta] in Hi. rewrite lookup_insert in Hi. case_decide as He.
    + right. exists o. injection Hi as <-. split; [by left|done].
    + left. split; [done|]. rewrite not_elem_of_cons. split; [|done]. intros ->. by apply He.
  - intros t i [Hi|Hi]%Ht; [|right; by right]. cbn [write_log write_index l_topic_ops] in Hi.
    unfold add_to in Hi. rewrite lookup_insert in Hi. case_decide as He; [|by left]. simpl in Hi.
    apply elem_of_union in Hi as [->%elem_of_singleton|?]; [right; by left|left; by subst].
Qed.

Lemma admit_plan_deps inner batch quota plan :
  admit_plan inner batch quota = Ok plan →
  ensure_deps_resolvable (ap_new_entries plan) (dep_resolvable_locked inner) = Ok ().
Proof.
  intros Hplan. unfold admit_plan in Hplan. cbv zeta in Hplan.
  do 6 skip_ok Hplan.
  next_ok Hplan as ([tips new] & _ & Hplan). next_ok Hplan as ([] & Hdeps & Hplan).
  do 9 skip_ok Hplan. by injection Hplan as <-.
Qed.

(** Stored both ways *)
Lemma resolvable_iff inner d :
  dep_resolvable_locked inner d = true ↔ is_Some (l_ops (s_log inner) !! d) ∧ is_Some (l_meta (s_log inner) !! d).
Proof. unfold dep_resolvable_locked. by autorewrite with reflect. Qed.

(** Admission never creates a hole. Whatever the store holds, damaged records
    included, after a batch is admitted every unresolved reference of a stored record
    was one before, in every topic, and the data epochs are the same: scans and
    verdicts made before stay valid. *)
Theorem admission_no_hole inner batch quota inner' :
  admit_batch_locked inner batch quota = (inner', Ok ()) → follows inner inner'.
Proof.
  unfold admit_batch_locked. destruct (admit_plan inner batch quota) as [plan|] eqn:Hplan; [|done].
  pose proof (proj1 (ensure_deps_resolvable_ok _ _) (admit_plan_deps _ _ _ _ Hplan)) as Hdeps. unfold admit_write.
  destruct (write_entries _ _ _) as [[log pool] [[]|]] eqn:Hw; [|done]. intros [= <-].
  apply write_entries_log in Hw. destruct (write_all_grows (s_log inner) (ap_new_entries plan)) as (Hnew & Hops & Hmeta & Hm & Ht).
  rewrite -Hw in Hnew, Hops, Hmeta, Hm, Ht. intros t. split; [done|]. intros _ i h (Hi & Hh & Href).
  simpl in Hi, Hh, Href. unfold topic_ids_locked in Hi. cbn [s_log] in Hi, Href.
  apply not_true_iff_false in Hh. rewrite resolvable_iff in Hh. cbn [s_log] in Hh.
  assert (h ∉ op_id ∘ fst <$> ap_new_entries plan) as Hnh by (intros ?; apply Hh; by apply Hnew).
  assert (dep_resolvable_locked inner h = false) as Hold.
  { apply not_true_iff_false. rewrite resolvable_iff. intros [? ?]. apply Hh. by split; [apply Hops|apply Hmeta]. }
  destruct Href as [->|(ds & Hds & Hin)].
  - split; [|split; [done|by left]]. by apply Ht in Hi as [?|Hi].
  - apply fmap_Some in Hds as (m & Hmi & ->). apply Hm in Hmi as [[Hmi Hni]|(o & Ho & <-)].
    + split; [by apply Ht in Hi as [?|Hi]|]. split; [done|right]. exists (om_deps m). simpl. by rewrite Hmi.
    + destruct (Hdeps (o, m) h Ho Hin) as [?|Hs]; [done|congruence].
Qed.

(** A consistent store has no hole at all. *)
Lemma consistent_whole inner t i h : store_ok inner → ¬ hole_at inner t i h.
Proof.
  intros Hok (Hi & Hh & Href). simpl in Hi, Hh, Href.
  assert (∀ d, is_Some (l_meta (s_log inner) !! d) → dep_resolvable_locked inner d = true) as Hres.
  { intros d Hd. rewrite stored_complete //. by apply bool_decide_eq_true. }
  enough (is_Some (l_meta (s_log inner) !! h)) as Hm by (apply Hres in Hm; congruence).
  destruct Href as [->|(ds & Hds & Hin)].
  - apply (proj1 (lo_topic _ (so_log _ Hok))) in Hi as (m & Hm & _). by eexists.
  - apply fmap_Some in Hds as (m & Hm & ->). destruct (so_deps _ Hok _ _ _ Hm Hin) as (md & ? & _). by eexists.
Qed.
End admission.

(** ** A store that lost a record *)

#[local] Existing Instance toy_crypto.
#[local] Existing Instance toy_env.

(** The store of two operations without the record of the first. *)
Definition damaged : MemoryInner mclock :=
  let log := s_log s2 in
  MkInner (MkLog (delete (small_id 10) (l_ops log)) (l_meta log) (l_topic_ops log) (l_children log)
      (l_actor_by_seq log) (l_actor_tip log) (l_max_generation log))
    (s_pool s2) (s_heads s2) (s_actor_clock s2) (s_topic_fingerprint s2) (s_topics s2) (s_rejected s2)
    (s_peer_acks s2) (s_obligations s2) (s_sync_statuses s2) (s_evictions s2) (s_sealed_topics s2)
    (s_topic_epochs s2) (s_attempt_epoch s2) (s_admitted_bytes s2).

Definition damaged_key : OpId * N := (small_id 10, 0).

(** A question of eight reads ends the scan and finds the lost record. *)
Definition damaged_question : gmap TopicId Entry * res Integrity :=
  inspect_step 8 ∅ 0 damaged (small_id 1) damaged_key.
Definition damaged_answer : Integrity := value damaged_question.2 IUnknown.
Definition asked_world : World :=
  moved (counted (world_start damaged)) damaged_question.1 1 (Some (Answered (small_id 1) damaged_key damaged_answer)).

Lemma damaged_key_read : rd_key damaged (small_id 1) = Ok (Some damaged_key).
Proof. vm_compute. reflexivity. Qed.

Lemma asked_world_reachable : world_reachable 8 asked_world.
Proof.
  exists damaged. apply inspect_step_run; [done|apply damaged_key_read|].
  assert (damaged_question.2 = Ok damaged_answer) as Ha by (apply value_ok; vm_compute; reflexivity).
  unfold damaged_question in *. cbn [world_start wd_entries wd_claims wd_read].
  destruct (inspect_step 8 ∅ 0 damaged (small_id 1) damaged_key) as [e r]. by rewrite -Ha.
Qed.

(** The world in which thread 1 reads the step it claimed. *)
Definition asking_world : World :=
  moved (world_start damaged) ∅ 1 (Some (Asked (small_id 1) damaged_key damaged)).
Definition claiming_world : World :=
  {| wd_read := wd_read asking_world;
     wd_entries := (advance_claim (wd_entries asking_world) (small_id 1) damaged_key (wd_claims asking_world)).1;
     wd_claims := wd_claims asking_world + 1;
     wd_flights := <[1%nat := Stepping (small_id 1) damaged_key (wd_claims asking_world) scan_start damaged]>
       (wd_flights asking_world) |}.

Lemma claiming_world_reachable : world_reachable 8 claiming_world.
Proof.
  exists damaged. eapply rtc_l; [apply (step_ask 8 (world_start damaged) 1 (small_id 1) damaged_key); [done|apply damaged_key_read]|].
  apply rtc_once. apply (step_advance 8 asking_world 1 (small_id 1) damaged_key damaged _ (inr scan_start)).
  - apply moved_at.
  - reflexivity.
Qed.

(** ** Witnesses *)

Lemma verdict_sound_witness :
  damaged_answer = IIncomplete {[small_id 10 := Some 0]} ∧
  ∀ i h, hole_at damaged (small_id 1) i h → h ∈ dom ({[small_id 10 := Some 0]} : Holes).
Proof.
  assert (damaged_answer = IIncomplete {[small_id 10 := Some 0]}) as Ha by (vm_compute; reflexivity).
  split; [exact Ha|].
  pose proof (verdict_sound 8 asked_world 1 (small_id 1) damaged_key damaged_answer asked_world_reachable) as Hs.
  rewrite Ha in Hs. apply Hs; [|vm_compute; reflexivity]. unfold asked_world. rewrite moved_at. by rewrite Ha.
Defined.

Lemma claim_exclusive_witness :
  ∃ n start read, wd_flights claiming_world !! n = Some (Stepping (small_id 1) damaged_key 0 start read) ∧
    ∀ m t' key' start' read', wd_flights claiming_world !! m = Some (Stepping t' key' 0 start' read') → m = n.
Proof. apply (claim_exclusive 8 claiming_world (small_id 1) damaged_key 0 claiming_world_reachable). reflexivity. Defined.

Lemma admission_no_hole_witness : follows s1 s2.
Proof. apply (admission_no_hole s1 batch2 None s2 s2_ok). Defined.
