(* ===== verification/Admission.v ===== *)
(** * Validation of received operations ([src/src/oplog/admission.rs],
    [oplog/pending.rs], [oplog/mod.rs], [net.rs])

    What an op log checks before it gives a batch to its store: the position of every
    operation in its actor's chain, the generation, the membership of its author at
    the dependencies it names, and which operations wait for absent dependencies.
    [build_batch] validates against one state of the store, through an overlay of the
    operations it already accepted, and writes nothing.

    The reads of the memory store fail only with a poisoned lock and are total here.
    Log output is left out. *)

From S2P Require Import Prelude Ids Frame ClockSpec Types Membership Topology.
From S2P Require Import Evidence Records Pool Store.

#[local] Open Scope N_scope.

(** [postcard]'s size of an empty [SyncMessage::Data], and [Arc::ptr_eq] on topic
    states: shared states are equal. *)
Class OplogEnv := {
  data_overhead : TopicId → res N;
  ptr_eq : TopicState → TopicState → bool;
  ptr_eq_sound : ∀ a b, ptr_eq a b = true → a = b;
}.

(** [sync::MAX_TYPE_BYTES] *)
Definition MAX_TYPE_BYTES : N := 1024.
Definition MAX_ADMISSION_RETRIES : nat := 64.
Definition MAX_CACHED_PROJECTIONS : nat := 4096.
Definition MAX_PROJECTION_BYTES : N := 16 * 1024 * 1024.
Definition WALK_BYTES : N := 64.
Definition SEEN_BYTES : N := 80.
Definition HOLD_BYTES : N := 64 * 1024.
Definition MAX_WORKSPACE_BYTES : N := 256 * 1024 * 1024.
Definition PEER_BYTES : N := 72.
Definition CONTROL_BYTES : N := 264.
Definition STATE_BASE_BYTES : N := 512.

Inductive OpAdmission := Admit | Duplicate.

(** [enum StoredOp] *)
Inductive StoredOp := Absent | Repair | Complete.

(** [String::len] *)
Definition str_len (s : string) : N := N.of_nat (String.length s).

Definition checked_next (value : N) : res N := ok_or (checked_add value 1) InvalidOpId.

Definition next_actor_position (tip : option (N * OpId)) : res (N * option OpId) :=
  match tip with
  | Some (seq, i) => next ← checked_next seq; Ok (next, Some i)
  | None => Ok (1, None)
  end.

Definition ensure_event_type (expected actual : string) : res unit :=
  if decide (expected = actual) then Ok () else Err (EventTypeMismatch expected actual).

Definition is_structural_genesis (op : Op) : bool :=
  is_genesis op && (actor_seq (obody op) =? 1) &&
  bool_decide (actor_prev (obody op) = None) && bool_decide (deps (obody op) = ∅).

(** [state_bytes], [fold_bytes] and [projection_bytes] *)
Definition state_bytes (state : TopicState) : N :=
  let peers := N.of_nat (size (ts_members state)
    + size (selected_peers (ts_replication_policy state))
    + match ts_replication_policy_control state with
      | Some (_, policy) => size (selected_peers policy)
      | None => 0
      end)%nat in
  STATE_BASE_BYTES + str_len (ts_event_type_id state) + PEER_BYTES * peers
  + CONTROL_BYTES * N.of_nat (size (ts_membership_controls state)).

Definition fold_bytes (op : Op) : N :=
  match payload (obody op) with
  | Genesis genesis =>
      str_len (event_type_id genesis) + PEER_BYTES *
        N.of_nat (size (initial_peers genesis)
          + 2 * size (selected_peers (replication_policy genesis)))%nat
  | Control (SetReplicationPolicy policy) => 2 * PEER_BYTES * N.of_nat (size (selected_peers policy))
  | Control (AddPeer _) | Control (RemovePeer _) => CONTROL_BYTES + PEER_BYTES
  | Event _ => 0
  end.

Definition projection_bytes (states : gmap OpId TopicState) : N :=
  map_fold (λ _ state total, state_bytes state + total) 0 states.

(** The batch-local view an operation is validated against. *)
Record BatchOverlay (C : Type) := {
  bo_ops : gmap OpId Op;
  bo_meta : gmap OpId (OpMeta C);
  bo_tips : gmap (TopicId * ActorId) (N * OpId);
  bo_index : gmap (TopicId * ActorId * N) OpId;
  bo_reset : bool;
}.
Arguments bo_ops {C}. Arguments bo_meta {C}. Arguments bo_tips {C}. Arguments bo_index {C}.
Arguments bo_reset {C}.

(** [struct Workspace]: the bytes held and used. *)
Record Workspace := { ws_held : N; ws_used : N }.
Definition workspace_new : Workspace := {| ws_held := 0; ws_used := 0 |}.

Section admission.
Context {C : Type} `{!ClockImpl C} `{!StoreEnv C} `{!Crypto} `{!OplogEnv}.
Implicit Types (inner : MemoryInner C) (overlay : BatchOverlay C) (op : Op).
Implicit Types (projections : gmap OpId TopicState) (overlay_meta : gmap OpId (OpMeta C)).

(** [Op::validate_frame], [net::validate_op] *)
Definition validate_frame op : res unit :=
  overhead ← data_overhead (topic_id (obody op));
  bytes ← pending_op_bytes op;
  refuse_if (MAX_FRAME_LEN <? overhead + bytes) OpTooLarge.

(** ** Reads through the overlay *)

Definition header_projected inner overlay_meta (i : OpId) : res OpHeader :=
  match overlay_meta !! i with
  | Some meta => Ok (header_of meta)
  | None => ok_or (header_of <$> l_meta (s_log inner) !! i) (MissingDependency i)
  end.

Definition meta_projected inner overlay_meta (i : OpId) : res (OpMeta C) :=
  match overlay_meta !! i with
  | Some meta => Ok meta
  | None => ok_or (l_meta (s_log inner) !! i) (MissingDependency i)
  end.

Definition op_projected inner (overlay_ops : gmap OpId Op) (i : OpId) : res Op :=
  match overlay_ops !! i with
  | Some op => Ok op
  | None => ok_or (l_ops (s_log inner) !! i) (MissingDependency i)
  end.

(** [get_observation] of the overlay or the store *)
Definition observation_projected inner overlay_meta (i : OpId) : res (OpHeader * C) :=
  match overlay_meta !! i with
  | Some meta => Ok (header_of meta, om_observed_clock meta)
  | None => ok_or ((λ meta, (header_of meta, om_observed_clock meta)) <$> l_meta (s_log inner) !! i)
              (MissingDependency i)
  end.

(** The loop of [meta_for_projected] over the dependencies. *)
Definition observe_dep inner overlay_meta (t : TopicId) (clock : C) (dep : OpId) : res C :=
  '(meta, dep_clock) ← observation_projected inner overlay_meta dep;
  if negb (bool_decide (hd_topic_id meta = t)) then Err TopicMismatch
  else Ok (ck_observe (ck_merge clock dep_clock) (hd_actor_id meta) (hd_actor_seq meta)).

Definition meta_for_projected inner overlay_meta op : res (OpMeta C) :=
  let b := obody op in
  clock ← try_fold (observe_dep inner overlay_meta (topic_id b)) ck_new (bt_elements (deps b));
  Ok {| om_id := op_id op; om_topic_id := topic_id b; om_author := author b;
        om_actor_id := actor_id b; om_actor_seq := actor_seq b; om_actor_prev := actor_prev b;
        om_deps := deps b; om_generation := generation b; om_observed_clock := clock;
        om_ready := true; om_missing_deps := ∅ |}.

Definition stored_actor_index inner (b : OpBody) (reset : bool) : option OpId :=
  if reset then None else l_actor_by_seq (s_log inner) !! (topic_id b, actor_id b, actor_seq b).

Definition stored_actor_tip inner (b : OpBody) (reset : bool) : option (N * OpId) :=
  if reset then None else l_actor_tip (s_log inner) !! (topic_id b, actor_id b).

Definition is_admitted_duplicate inner op : bool := dep_resolvable_locked inner (op_id op).

Definition stored_op_state inner op : StoredOp :=
  let log := s_log inner in
  let b := obody op in
  let has_op := bool_decide (is_Some (l_ops log !! op_id op)) in
  let has_meta := bool_decide (is_Some (l_meta log !! op_id op)) in
  if has_op && has_meta then Complete
  else if has_op || has_meta then Repair
  else if bool_decide (l_actor_by_seq log !! (topic_id b, actor_id b, actor_seq b) = Some (op_id op))
       || negb (bool_decide (default ∅ (l_children log !! op_id op) = ∅))
  then Repair
  else Absent.

Definition missing_deps_projected inner op (overlay_ops : gmap OpId Op) (reset : bool) : gset OpId :=
  filter (λ dep, overlay_ops !! dep = None ∧
    (reset || negb (dep_resolvable_locked inner dep)) = true) (deps (obody op)).

(** ** Membership at a causal frontier *)

(** [while used > held] of [Workspace::charge]; [fuel] counts the holds still needed. *)
Fixpoint hold_until (fuel : nat) (held used : N) : res N :=
  match fuel with
  | O => Ok held
  | S fuel =>
      if held <? used then
        _ ← mem (HoldWorkspace held);
        hold_until fuel (held + HOLD_BYTES) used
      else Ok held
  end.

(** [Workspace::charge] *)
Definition charge (ws : Workspace) (bytes : N) : res Workspace :=
  let used := saturating_add (ws_used ws) bytes in
  if MAX_WORKSPACE_BYTES <? used then Err (MemoryPressure used MAX_WORKSPACE_BYTES)
  else
    held ← hold_until (S (N.to_nat (used / HOLD_BYTES))) (ws_held ws) used;
    Ok {| ws_held := held; ws_used := used |}.

Definition covers_controls inner op (state : TopicState) overlay_meta : res bool :=
  if decide (deps (obody op) = ∅) then Ok false
  else
    meta ← meta_for_projected inner overlay_meta op;
    let clock := om_observed_clock meta in
    let keys := ((λ e, e.2.1) <$> bt_entries (ts_membership_controls state))
      ++ option_list (fst <$> ts_replication_policy_control state) in
    Ok (forallb (λ key, ck_actor_seq key <=? ck_get clock (ck_actor_id key)) keys).

(** The local variables of the walk in [project_membership]. The stack [w_walk] has its
    top at the head. *)
Record Walk := {
  w_workspace : Workspace;
  w_known : gset OpId;
  w_folded : list Op;
  w_grows : N;
  w_seen : gset OpId;
  w_walk : list OpId;
}.

(** One iteration of the walk, for the id popped from the stack. *)
Definition walk_step inner (overlay_ops : gmap OpId Op) overlay_meta projections (t : TopicId)
    (w : Walk) (i : OpId) (rest : list OpId) : res Walk :=
  if decide (i ∈ w_seen w) then
    Ok {| w_workspace := w_workspace w; w_known := w_known w; w_folded := w_folded w;
          w_grows := w_grows w; w_seen := w_seen w; w_walk := rest |}
  else
    ws ← charge (w_workspace w) SEEN_BYTES;
    let seen := {[i]} ∪ w_seen w in
    if bool_decide (is_Some (projections !! i)) then
      Ok {| w_workspace := ws; w_known := {[i]} ∪ w_known w; w_folded := w_folded w;
            w_grows := w_grows w; w_seen := seen; w_walk := rest |}
    else
      meta ← meta_projected inner overlay_meta i;
      if negb (bool_decide (om_topic_id meta = t)) then Err TopicMismatch
      else
        ws ← charge ws (WALK_BYTES * N.of_nat (size (om_deps meta)));
        let walk := rev (bt_elements (om_deps meta)) ++ rest in
        op ← op_projected inner overlay_ops i;
        match payload (obody op) with
        | Event _ =>
            Ok {| w_workspace := ws; w_known := w_known w; w_folded := w_folded w;
                  w_grows := w_grows w; w_seen := seen; w_walk := walk |}
        | _ =>
            bytes ← pending_op_bytes op;
            ws ← charge ws (3 * bytes);
            Ok {| w_workspace := ws; w_known := w_known w; w_folded := w_folded w ++ [op];
                  w_grows := saturating_add (w_grows w) (fold_bytes op);
                  w_seen := seen; w_walk := walk |}
        end.

(** The walk; [None] when [fuel] runs out, which [walk_fuel] excludes. *)
Fixpoint walk_loop (fuel : nat) inner (overlay_ops : gmap OpId Op) overlay_meta projections
    (t : TopicId) (w : Walk) : option (res Walk) :=
  match w_walk w with
  | [] => Some (Ok w)
  | i :: rest =>
      match fuel with
      | O => None
      | S fuel =>
          match walk_step inner overlay_ops overlay_meta projections t w i rest with
          | Ok w => walk_loop fuel inner overlay_ops overlay_meta projections t w
          | Err e => Some (Err e)
          end
      end
  end.

(** The edges of stored operations and of the overlay. *)
Definition edge_count (metas : gmap OpId (OpMeta C)) : nat :=
  map_fold (λ _ meta n, (size (om_deps meta) + n)%nat) O metas.
Definition walk_fuel inner overlay_meta (ds : gset OpId) : nat :=
  (size ds + edge_count (overlay_meta ∪ l_meta (s_log inner)))%nat.

(** [for op in &folded] over a merged state *)
Definition fold_control (state : TopicState) op : res TopicState :=
  match payload (obody op) with
  | Genesis _ => if decide (op_id op = ts_genesis state) then Ok state else Err InvalidGenesis
  | Control control => Ok (apply_control state op control)
  | Event _ => Ok state
  end.

(** The state after the walk, from nothing or from the states it met. *)
Definition walk_state projections (w : Walk) : res TopicState :=
  if decide (w_known w = ∅) then
    _ ← charge (w_workspace w) (STATE_BASE_BYTES + 2 * w_grows w);
    materialize_topic_state (w_folded w) ∅
  else
    let merged := foldr N.add 0
      (state_bytes <$> omap (λ i, projections !! i) (bt_elements (w_known w))) in
    _ ← charge (w_workspace w) (saturating_add merged (w_grows w));
    state ← merge_states ptr_eq (w_known w) projections;
    try_fold fold_control state (w_folded w).

(** Keeping the state of a single dependency. *)
Definition keep_projection projections (ds known : gset OpId) (state : TopicState)
    : gmap OpId TopicState :=
  match bt_elements ds with
  | [dep] =>
      let projections := foldl (λ m i, delete i m) projections (bt_elements known) in
      if projection_bytes projections + state_bytes state <=? MAX_PROJECTION_BYTES
      then <[dep := state]> projections
      else projections
  | _ => projections
  end.

(** [project_membership]: the state at [ds] and the kept projections. *)
Definition project_membership inner (t : TopicId) (ds : gset OpId)
    (overlay_ops : gmap OpId Op) overlay_meta projections
    : res (TopicState * gmap OpId TopicState) :=
  match (match bt_elements ds with [dep] => projections !! dep | _ => None end) with
  | Some state => Ok (state, projections)
  | None =>
      ws ← charge workspace_new (WALK_BYTES * N.of_nat (size ds));
      w ← default (Err (Storage "membership walk does not end"))
        (walk_loop (walk_fuel inner overlay_meta ds) inner overlay_ops overlay_meta projections t
          {| w_workspace := ws; w_known := ∅; w_folded := []; w_grows := 0; w_seen := ∅;
             w_walk := rev (bt_elements ds) |});
      state ← walk_state projections w;
      Ok (state, keep_projection projections ds (w_known w) state)
  end.

(** ** One operation *)

(** Whether the author is a member at the operation's dependencies: from the current
    state when they cover every control it applies, from the history behind them
    otherwise. *)
Definition author_is_member inner overlay op (heads : gset OpId) (state : TopicState) projections
    : res (bool * gmap OpId TopicState) :=
  let b := obody op in
  covered ← if bool_decide (deps b = heads) then Ok true
            else covers_controls inner op state (bo_meta overlay);
  if covered : bool then Ok (bool_decide (author b ∈ ts_members state), projections)
  else
    '(projected, projections) ← project_membership inner (topic_id b) (deps b) (bo_ops overlay)
      (bo_meta overlay) projections;
    Ok (bool_decide (author b ∈ ts_members projected), projections).

(** [generation = generation.max(checked_next(meta.generation)?)] for every dependency *)
Definition next_generation inner overlay_meta (ds : gset OpId) : res N :=
  try_fold (λ generation i,
    meta ← header_projected inner overlay_meta i;
    next ← checked_next (hd_generation meta);
    Ok (N.max generation next)) 0 (bt_elements ds).

(** The operation at the actor position of [b], stored or accepted before. *)
Definition existing_at inner overlay (b : OpBody) : option OpId :=
  match stored_actor_index inner b (bo_reset overlay) with
  | Some i => Some i
  | None => bo_index overlay !! (topic_id b, actor_id b, actor_seq b)
  end.

(** The tip of the actor of [b]. *)
Definition expected_tip inner overlay (b : OpBody) : option (N * OpId) :=
  match bo_tips overlay !! (topic_id b, actor_id b) with
  | Some tip => Some tip
  | None => stored_actor_tip inner b (bo_reset overlay)
  end.

(** The checks of [validate_op_projected] that follow the authorization. *)
Definition validate_position inner overlay op : res OpAdmission :=
  let b := obody op in
  '(expected_seq, expected_prev) ← next_actor_position (expected_tip inner overlay b);
  if negb (actor_seq b =? expected_seq) then
    if (actor_seq b <? expected_seq) && is_admitted_duplicate inner op then Ok Duplicate
    else Err (ActorSeqGap expected_seq (actor_seq b))
  else if negb (bool_decide (actor_prev b = expected_prev)) then Err ActorPrevMismatch
  else
    generation' ← next_generation inner (bo_meta overlay) (deps b);
    if negb (generation b =? generation') then Err (GenerationMismatch generation' (generation b))
    else Ok Admit.

(** The match of [validate_op_projected] on the payload. *)
Definition authorize inner overlay op (heads : gset OpId) (state : option TopicState) projections
    : res (gmap OpId TopicState) :=
  let b := obody op in
  match payload b with
  | Genesis genesis =>
      if negb (actor_seq b =? 1) || bool_decide (is_Some (actor_prev b))
         || negb (bool_decide (deps b = ∅)) || (MAX_TYPE_BYTES <? str_len (event_type_id genesis))
         || bool_decide (is_Some state)
      then Err InvalidGenesis
      else Ok projections
  | Event envelope =>
      state ← ok_or state TopicNotFound;
      _ ← ensure_event_type (ts_event_type_id state) (type_id envelope);
      '(member, projections) ← author_is_member inner overlay op heads state projections;
      if member : bool then Ok projections else Err NotTopicMember
  | Control _ =>
      state ← ok_or state TopicNotFound;
      '(member, projections) ← author_is_member inner overlay op heads state projections;
      if member : bool then Ok projections else Err NotTopicMember
  end.

Definition validate_op_projected inner overlay op (heads : gset OpId) (state : option TopicState)
    projections : res (OpAdmission * gmap OpId TopicState) :=
  let b := obody op in
  if negb (bool_decide (actor_id b = actor_id_for (topic_id b) (author b)))
  then Err ActorAuthorMismatch
  else if (match actor_prev b with Some prev => bool_decide (prev ∉ deps b) | None => false end)
  then Err ActorPrevMismatch
  else
    duplicate ← match existing_at inner overlay b with
      | Some existing =>
          if negb (bool_decide (existing = op_id op)) then Err ActorFork
          else Ok (is_admitted_duplicate inner op)
      | None => Ok false
      end;
    if duplicate : bool then Ok (Duplicate, projections)
    else
      projections ← authorize inner overlay op heads state projections;
      verdict ← validate_position inner overlay op;
      Ok (verdict, projections).

(** The checks of [validate_pending_op] on the payload. *)
Definition validate_pending_payload op (state : option TopicState) : res unit :=
  let b := obody op in
  match payload b with
  | Genesis _ =>
      refuse_if (negb (actor_seq b =? 1) || bool_decide (is_Some (actor_prev b))
        || negb (bool_decide (deps b = ∅)) || bool_decide (is_Some state)) InvalidGenesis
  | Event envelope =>
      _ ← refuse_if (bool_decide (deps b = ∅) || (generation b =? 0)) InvalidOpId;
      match state with
      | Some state => ensure_event_type (ts_event_type_id state) (type_id envelope)
      | None => Ok ()
      end
  | Control _ => refuse_if (bool_decide (deps b = ∅) || (generation b =? 0)) InvalidOpId
  end.

(** The checks of [validate_pending_op] on the predecessor. *)
Definition validate_pending_prev inner overlay op (missing : gset OpId) : res unit :=
  let b := obody op in
  match actor_prev b with
  | None => refuse_if (2 <=? actor_seq b) ActorPrevMismatch
  | Some prev =>
      _ ← refuse_if (actor_seq b =? 1) ActorPrevMismatch;
      _ ← refuse_if (bool_decide (prev ∉ deps b)) ActorPrevMismatch;
      if bool_decide (prev ∈ missing) then Ok ()
      else
        prev_meta ← header_projected inner (bo_meta overlay) prev;
        _ ← refuse_if (negb (bool_decide (hd_topic_id prev_meta = topic_id b))
              || negb (bool_decide (hd_actor_id prev_meta = actor_id b))) ActorPrevMismatch;
        next ← checked_next (hd_actor_seq prev_meta);
        refuse_if (negb (next =? actor_seq b)) (ActorSeqGap next (actor_seq b))
  end.

(** The checks of [validate_pending_op] on the dependencies that are present. *)
Definition validate_pending_deps inner overlay op (missing : gset OpId) : res unit :=
  let b := obody op in
  try_fold (λ _ dep,
    if decide (dep ∈ missing) then Ok ()
    else
      meta ← header_projected inner (bo_meta overlay) dep;
      if negb (bool_decide (hd_topic_id meta = topic_id b)) then Err TopicMismatch
      else if generation b <=? hd_generation meta then
        next ← checked_next (hd_generation meta);
        Err (GenerationMismatch next (generation b))
      else Ok ()) () (bt_elements (deps b)).

(** The check of [validate_pending_op] against the tip: [true] for a duplicate. *)
Definition validate_pending_tip inner overlay op : res bool :=
  let b := obody op in
  match expected_tip inner overlay b with
  | None => Ok false
  | Some (tip_seq, tip_id) =>
      next_seq ← checked_next tip_seq;
      if actor_seq b <=? tip_seq then
        if is_admitted_duplicate inner op then Ok true
        else Err (ActorSeqGap next_seq (actor_seq b))
      else if bool_decide (actor_prev b = Some tip_id) && negb (actor_seq b =? next_seq)
      then Err (ActorSeqGap next_seq (actor_seq b))
      else Ok false
  end.

Definition validate_pending_op inner op (missing : gset OpId) overlay (state : option TopicState)
    : res OpAdmission :=
  let b := obody op in
  if (MAX_PENDING_MISSING_DEPS <? size missing)%nat
  then Err (Storage "pending op has too many missing deps")
  else if negb (bool_decide (actor_id b = actor_id_for (topic_id b) (author b)))
  then Err ActorAuthorMismatch
  else if actor_seq b =? 0 then Err (ActorSeqGap 1 0)
  else
    duplicate ← match existing_at inner overlay b with
      | Some existing =>
          if negb (bool_decide (existing = op_id op)) then Err ActorFork
          else Ok (is_admitted_duplicate inner op)
      | None => Ok false
      end;
    if duplicate : bool then Ok Duplicate
    else
      _ ← validate_pending_payload op state;
      _ ← validate_pending_prev inner overlay op missing;
      duplicate ← validate_pending_tip inner overlay op;
      if duplicate : bool then Ok Duplicate
      else
        _ ← validate_pending_deps inner overlay op missing;
        Ok Admit.

(** [pending_meta_for] *)
Definition pending_meta_for op (missing : gset OpId) : OpMeta C :=
  let b := obody op in
  {| om_id := op_id op; om_topic_id := topic_id b; om_author := author b;
     om_actor_id := actor_id b; om_actor_seq := actor_seq b; om_actor_prev := actor_prev b;
     om_deps := deps b; om_generation := generation b; om_observed_clock := ck_new;
     om_ready := false; om_missing_deps := missing |}.

(** The authorization of [validate_repair]. *)
Definition authorize_repair inner op (state : option TopicState) (overlay_ops : gmap OpId Op)
    overlay_meta projections : res (gmap OpId TopicState) :=
  let b := obody op in
  let member :=
    '(projected, projections) ← project_membership inner (topic_id b) (deps b) overlay_ops
      overlay_meta projections;
    if bool_decide (author b ∈ ts_members projected) then Ok projections else Err NotTopicMember in
  match payload b with
  | Genesis genesis =>
      if negb (is_structural_genesis op) || (MAX_TYPE_BYTES <? str_len (event_type_id genesis))
         || (match state with
             | Some state => negb (bool_decide (ts_genesis state = op_id op)) | None => false end)
      then Err InvalidGenesis
      else Ok projections
  | Event envelope =>
      state ← ok_or state TopicNotFound;
      _ ← ensure_event_type (ts_event_type_id state) (type_id envelope);
      member
  | Control _ =>
      _ ← ok_or state TopicNotFound;
      member
  end.

(** The actor position of [validate_repair]. *)
Definition repair_position inner overlay_meta op : res unit :=
  let b := obody op in
  match actor_prev b with
  | None => refuse_if (negb (actor_seq b =? 1)) ActorPrevMismatch
  | Some prev =>
      _ ← refuse_if ((actor_seq b <? 2) || bool_decide (prev ∉ deps b)) ActorPrevMismatch;
      prev_meta ← header_projected inner overlay_meta prev;
      _ ← refuse_if (negb (bool_decide (hd_topic_id prev_meta = topic_id b))
            || negb (bool_decide (hd_actor_id prev_meta = actor_id b))) ActorPrevMismatch;
      next ← checked_next (hd_actor_seq prev_meta);
      refuse_if (negb (next =? actor_seq b)) ActorPrevMismatch
  end.

(** The loop of [validate_repair] over the dependencies. *)
Definition repair_generation inner overlay_meta op : res N :=
  try_fold (λ generation i,
    meta ← header_projected inner overlay_meta i;
    if negb (bool_decide (hd_topic_id meta = topic_id (obody op))) then Err TopicMismatch
    else
      next ← checked_next (hd_generation meta);
      Ok (N.max generation next)) 0 (bt_elements (deps (obody op))).

Definition validate_repair inner op (state : option TopicState) (overlay_ops : gmap OpId Op)
    overlay_meta projections : res (OpMeta C * gmap OpId TopicState) :=
  let b := obody op in
  if negb (bool_decide (actor_id b = actor_id_for (topic_id b) (author b)))
  then Err ActorAuthorMismatch
  else if (match l_actor_by_seq (s_log inner) !! (topic_id b, actor_id b, actor_seq b) with
           | Some i => negb (bool_decide (i = op_id op)) | None => false end)
  then Err ActorFork
  else
    projections ← authorize_repair inner op state overlay_ops overlay_meta projections;
    _ ← repair_position inner overlay_meta op;
    generation' ← repair_generation inner overlay_meta op;
    _ ← refuse_if (negb (generation b =? generation'))
          (GenerationMismatch generation' (generation b));
    meta ← meta_for_projected inner overlay_meta op;
    match l_meta (s_log inner) !! op_id op with
    | Some stored => if meta_eqb stored meta then Ok (meta, projections) else Err InvalidOpId
    | None => Ok (meta, projections)
    end.

(** ** A batch *)

(** The local variables of [build_batch]. *)
Record BuildState := {
  bs_accepted : gset OpId;
  bs_heads : gset OpId;
  bs_state : option TopicState;
  bs_changed : bool;
  bs_ops : gmap OpId Op;
  bs_meta : gmap OpId (OpMeta C);
  bs_tips : gmap (TopicId * ActorId) (N * OpId);
  bs_index : gmap (TopicId * ActorId * N) OpId;
  bs_admitted : list OpId;
  bs_pending : list (Op * gset OpId);
  bs_projections : gmap OpId TopicState;
  bs_projection_tips : gset OpId;
}.

Definition overlay_of (bs : BuildState) (reset : bool) : BatchOverlay C :=
  {| bo_ops := bs_ops bs; bo_meta := bs_meta bs; bo_tips := bs_tips bs; bo_index := bs_index bs;
     bo_reset := reset |}.

(** [pending.push((op, missing_deps))] *)
Definition push_pending (bs : BuildState) op (missing : gset OpId) : BuildState :=
  {| bs_accepted := bs_accepted bs; bs_heads := bs_heads bs; bs_state := bs_state bs;
     bs_changed := bs_changed bs; bs_ops := bs_ops bs; bs_meta := bs_meta bs;
     bs_tips := bs_tips bs; bs_index := bs_index bs; bs_admitted := bs_admitted bs;
     bs_pending := bs_pending bs ++ [(op, missing)]; bs_projections := bs_projections bs;
     bs_projection_tips := bs_projection_tips bs |}.

(** Projections kept by a validation. *)
Definition set_projections (bs : BuildState) projections : BuildState :=
  {| bs_accepted := bs_accepted bs; bs_heads := bs_heads bs; bs_state := bs_state bs;
     bs_changed := bs_changed bs; bs_ops := bs_ops bs; bs_meta := bs_meta bs;
     bs_tips := bs_tips bs; bs_index := bs_index bs; bs_admitted := bs_admitted bs;
     bs_pending := bs_pending bs; bs_projections := projections;
     bs_projection_tips := bs_projection_tips bs |}.

(** A refilled record: no head, clock entry or topic state changes. *)
Definition push_repair (bs : BuildState) op (meta : OpMeta C) projections : BuildState :=
  {| bs_accepted := {[op_id op]} ∪ bs_accepted bs; bs_heads := bs_heads bs;
     bs_state := bs_state bs; bs_changed := bs_changed bs;
     bs_ops := <[op_id op := op]> (bs_ops bs); bs_meta := <[op_id op := meta]> (bs_meta bs);
     bs_tips := bs_tips bs; bs_index := bs_index bs; bs_admitted := bs_admitted bs ++ [op_id op];
     bs_pending := bs_pending bs; bs_projections := projections;
     bs_projection_tips := bs_projection_tips bs |}.

(** The topic state a genesis starts. *)
Definition genesis_state (t : TopicId) op (genesis : TopicGenesis) : TopicState :=
  {| ts_topic_id := t; ts_event_type_id := event_type_id genesis; ts_genesis := op_id op;
     ts_heads := ∅; ts_members := initial_peers genesis;
     ts_replication_policy := replication_policy genesis; ts_membership_controls := ∅;
     ts_replication_policy_control := None |}.

(** The topic state after an accepted operation, and whether it changed. *)
Definition next_state (t : TopicId) op (state : option TopicState)
    : res (option TopicState * bool) :=
  match payload (obody op) with
  | Genesis genesis => Ok (Some (genesis_state t op genesis), true)
  | Event _ => Ok (state, false)
  | Control control =>
      state ← ok_or state TopicNotFound;
      Ok (Some (apply_control state op control), true)
  end.

(** An accepted operation. *)
Definition push_admitted (bs : BuildState) (t : TopicId) op (meta : OpMeta C)
    (state : option TopicState) (changed : bool) projections : BuildState :=
  {| bs_accepted := {[op_id op]} ∪ bs_accepted bs;
     bs_heads := {[op_id op]} ∪ (bs_heads bs ∖ deps (obody op));
     bs_state := state; bs_changed := bs_changed bs || changed;
     bs_ops := <[op_id op := op]> (bs_ops bs); bs_meta := <[op_id op := meta]> (bs_meta bs);
     bs_tips := <[(t, om_actor_id meta) := (om_actor_seq meta, op_id op)]> (bs_tips bs);
     bs_index := <[(t, om_actor_id meta, om_actor_seq meta) := op_id op]> (bs_index bs);
     bs_admitted := bs_admitted bs ++ [op_id op]; bs_pending := bs_pending bs;
     bs_projections := projections; bs_projection_tips := deps (obody op) |}.

(** The body of the loop of [build_batch] for an operation the store does not hold. *)
Definition build_absent inner (t : TopicId) (reset : bool) (bs : BuildState) op
    (missing : gset OpId) : res BuildState :=
  let overlay := overlay_of bs reset in
  if negb (bool_decide (missing = ∅)) then
    verdict ← validate_pending_op inner op missing overlay (bs_state bs);
    match verdict with
    | Duplicate => Ok bs
    | Admit => Ok (push_pending bs op missing)
    end
  else
    '(verdict, projections) ← validate_op_projected inner overlay op (bs_heads bs) (bs_state bs)
      (bs_projections bs);
    match verdict with
    | Duplicate => Ok (set_projections bs projections)
    | Admit =>
        meta ← meta_for_projected inner (bs_meta bs) op;
        '(state, changed) ← next_state t op (bs_state bs);
        Ok (push_admitted bs t op meta state changed projections)
    end.

(** The body of the loop of [build_batch]. *)
Definition build_step inner (t : TopicId) (verified : gset OpId) (reset : bool) (bs : BuildState) op
    : res BuildState :=
  _ ← validate_frame op;
  _ ← if bool_decide (op_id op ∈ verified) then Ok () else op_validate op;
  let missing := missing_deps_projected inner op (bs_ops bs) reset in
  match (if reset then Absent else stored_op_state inner op) with
  | Complete => _ ← ok_or (bs_state bs) AdmissionConflict; Ok bs
  | Repair =>
      if bool_decide (missing = ∅) then
        '(meta, projections) ← validate_repair inner op (bs_state bs) (bs_ops bs) (bs_meta bs)
          (bs_projections bs);
        Ok (push_repair bs op meta projections)
      else Ok (push_pending bs op missing)
  | Absent => build_absent inner t reset bs op missing
  end.

(** [Some((overlay_ops.remove(&id)?, overlay_meta.remove(&id)?))] for every admitted id *)
Fixpoint take_entries (ops : gmap OpId Op) (metas : gmap OpId (OpMeta C)) (l : list OpId)
    : option (list (Op * OpMeta C)) :=
  match l with
  | [] => Some []
  | i :: l =>
      op ← ops !! i;
      meta ← metas !! i;
      entries ← take_entries (delete i ops) (delete i metas) l;
      Some ((op, meta) :: entries)
  end.

Record BuiltBatch := {
  bb_accepted : gset OpId;
  bb_batch : AdmittedBatch C;
  bb_pending : list (Op * gset OpId);
  bb_projections : gmap OpId TopicState;
  bb_projection_tips : gset OpId;
}.

(** [ReceiveEffects] *)
Definition receive_effects : Type :=
  option PeerId → list (Op * OpMeta C) → TopicState → res (list (SyncObligation C)).

(** The cached projections of the topic and branch at hand. *)
Definition usable_projections (t : TopicId) (expected : option TopicState)
    (cached : gmap OpId TopicState) : gmap OpId TopicState :=
  match expected with
  | Some expected => filter (λ e, ts_topic_id e.2 = t ∧ ts_genesis e.2 = ts_genesis expected) cached
  | None => ∅
  end.

(** What [build_batch] makes of its local variables after the loop. *)
Definition finish_batch (t : TopicId) (source : option PeerId)
    (effects : option receive_effects) (expected_heads : gset OpId)
    (expected : option TopicState) (bs : BuildState) : res BuiltBatch :=
  entries ← ok_or (take_entries (bs_ops bs) (bs_meta bs) (bs_admitted bs))
    (Storage "admitted op left the batch overlay");
  let state := (λ s, set_heads s (bs_heads bs)) <$> bs_state bs in
  effects ← match effects, state with
    | Some compute, Some state =>
        if decide (entries = []) then Ok [] else compute source entries state
    | _, _ => Ok []
    end;
  Ok {| bb_accepted := bs_accepted bs;
        bb_batch := {| ab_topic_id := t; ab_expected_heads := expected_heads;
          ab_expected_topic_state := expected; ab_entries := entries; ab_heads := bs_heads bs;
          ab_topic_state := if bs_changed bs then state else None; ab_effects := effects |};
        bb_pending := bs_pending bs; bb_projections := bs_projections bs;
        bb_projection_tips := bs_projection_tips bs |}.

Definition build_start (heads : gset OpId) (state : option TopicState) projections : BuildState :=
  {| bs_accepted := ∅; bs_heads := heads; bs_state := state; bs_changed := false; bs_ops := ∅;
     bs_meta := ∅; bs_tips := ∅; bs_index := ∅; bs_admitted := []; bs_pending := [];
     bs_projections := projections; bs_projection_tips := ∅ |}.

(** [build_batch] with the cached projections [cached] and the branch a bound receive
    is for. *)
Definition build_batch inner (cached : gmap OpId TopicState)
    (receive_genesis : option (TopicId * OpId)) (source : option PeerId) (ops : list Op)
    (verified : gset OpId) (reset : bool) (effects : option receive_effects)
    : res (option BuiltBatch) :=
  ops ← topological_ops ops;
  match ops with
  | [] => Ok None
  | first :: _ =>
      let t := topic_id (obody first) in
      if existsb (λ op, negb (bool_decide (topic_id (obody op) = t))) ops then Err TopicMismatch
      else
        let expected := if reset then None else topic_state_locked inner t in
        let expected_heads := from_option ts_heads ∅ expected in
        let genesis :=
          match ts_genesis <$> expected with
          | Some g => Some g
          | None => op_id <$> List.find is_structural_genesis ops
          end in
        _ ← match receive_genesis with
            | Some (topic, bound) =>
                refuse_if (bool_decide (topic = t) && negb (bool_decide (genesis = Some bound)))
                  StaleIncarnation
            | None => Ok ()
            end;
        bs ← try_fold (build_step inner t verified reset)
          (build_start expected_heads expected (usable_projections t expected cached)) ops;
        built ← finish_batch t source effects expected_heads expected bs;
        Ok (Some built)
  end.
End admission.
