(* ===== verification/Dag.v ===== *)
(** * Causal histories

    What the stored operations of one topic form: a graph of dependencies rooted in
    one genesis, in which every actor's operations are a chain, observed clocks count
    exactly the ancestors, generations are depths, every author was a member at the
    dependencies it named, and the topic state is the one all controls determine.
    [history_ok] states this over an abstract set of entries; [entries_of] is the set
    a log holds. Two histories with the same frontier are the same. *)

From stdpp Require Import relations.
From S2P Require Import Prelude Ids Frame ClockSpec Types Membership.
From S2P Require Import Evidence Records Pool Store StoreLog Admission.

#[local] Open Scope N_scope.

Section dag.
Context {C : Type} `{!ClockImpl C}.

(** A set of entries: an id, its operation and its metadata. *)
Definition history : Type := OpId → Op → OpMeta C → Prop.
Implicit Types (E : history) (meta : OpMeta C).

Definition member E (i : OpId) : Prop := ∃ op m, E i op m.
(** [c] depends on [d]. *)
Definition depends E (c d : OpId) : Prop := ∃ op m, E c op m ∧ d ∈ om_deps m.
(** [j] is a proper ancestor of [i]. *)
Definition ancestor E (i j : OpId) : Prop := ∃ d, depends E i d ∧ rtc (depends E) d j.
(** [i] is one of [ds] or an ancestor of one. *)
Definition behind E (ds : gset OpId) (i : OpId) : Prop := ∃ d, d ∈ ds ∧ rtc (depends E) d i.
(** [ops] are the operations at and behind [ds]. *)
Definition causal E (ds : gset OpId) (ops : list Op) : Prop :=
  ∀ op, op ∈ ops ↔ ∃ m, E (op_id op) op m ∧ behind E ds (op_id op).
Definition everything E (ops : list Op) : Prop := ∀ op, op ∈ ops ↔ ∃ m, E (op_id op) op m.

(** [s] is the topic state the operations [ops] determine. *)
Definition state_of (ops : list Op) (s : TopicState) : Prop :=
  ∃ gop g, gop ∈ ops ∧ payload (obody gop) = Genesis g ∧ state_spec ops gop g s.

(** [s] is the topic state at the frontier [ds]: the one of the operations behind it. *)
Definition state_at E (ds : gset OpId) (s : TopicState) : Prop :=
  ∃ ops, causal E ds ops ∧ state_of ops s.

(** What an accepted operation satisfies against the operations before it. *)
Record entry_valid E (t : TopicId) (op : Op) meta : Prop := {
  ev_id : om_id meta = op_id op;
  ev_topic : topic_id (obody op) = t;
  ev_meta_topic : om_topic_id meta = t;
  ev_matches : meta_matches op meta = true;
  ev_deps : ∀ d, d ∈ om_deps meta → member E d;
  (** The generation is one more than the greatest of the dependencies. *)
  ev_generation : ∀ d o m, d ∈ om_deps meta → E d o m → om_generation m < om_generation meta;
  ev_generation_root : om_deps meta = ∅ → om_generation meta = 0;
  ev_generation_tight : om_deps meta ≠ ∅ →
    ∃ d o m, d ∈ om_deps meta ∧ E d o m ∧ om_generation meta = om_generation m + 1;
  (** The predecessor of the actor's chain is a dependency. *)
  ev_prev : match om_actor_prev meta with
    | None => om_actor_seq meta = 1
    | Some p => p ∈ om_deps meta ∧ ∃ o m, E p o m ∧ om_actor_id m = om_actor_id meta ∧
        om_actor_seq meta = om_actor_seq m + 1
    end;
  (** The clock counts what the dependencies are and what they count. *)
  ev_clock : ∀ a s, 1 ≤ s → s ≤ ck_get (om_observed_clock meta) a ↔
    ∃ d o m, d ∈ om_deps meta ∧ E d o m ∧
      (s ≤ ck_get (om_observed_clock m) a ∨ om_actor_id m = a ∧ s ≤ om_actor_seq m);
  (** Only the genesis has no dependencies. *)
  ev_root : is_genesis op = true ↔ om_deps meta = ∅;
  (** The author was a member at the dependencies. *)
  ev_member : is_genesis op = false →
    ∃ s, state_at E (om_deps meta) s ∧ author (obody op) ∈ ts_members s;
}.

(** The topic state of a history. *)
Definition history_state E (t : TopicId) (state : option TopicState) : Prop :=
  match state with
  | None => ∀ i, ¬ member E i
  | Some s => ts_topic_id s = t ∧ (∃ ops, everything E ops ∧ state_of ops s) ∧
      ∀ i op m, E i op m →
        (is_genesis op = true → i = ts_genesis s) ∧
        (∀ env, payload (obody op) = Event env → type_id env = ts_event_type_id s)
  end.

Record history_ok E (t : TopicId) (heads : gset OpId) (state : option TopicState) : Prop := {
  h_fun : ∀ i o m o' m', E i o m → E i o' m' → o = o' ∧ m = m';
  h_entry : ∀ i op m, E i op m → op_id op = i ∧ entry_valid E t op m;
  h_slot : ∀ i o m j o' m', E i o m → E j o' m' → om_actor_id m = om_actor_id m' →
    om_actor_seq m = om_actor_seq m' → i = j;
  h_heads : ∀ i, i ∈ heads → member E i ∧ ∀ c, ¬ depends E c i;
  h_covered : ∀ i, member E i → i ∈ heads ∨ ∃ c, depends E c i;
  h_bound : ∃ n, ∀ i op m, E i op m → om_generation m ≤ n;
  h_state : history_state E t state;
}.

(** ** Reachability *)

Lemma state_of_iff (l k : list Op) s :
  (∀ op, op ∈ l ↔ op ∈ k) → state_of l s → state_of k s.
Proof.
  intros Heq (gop & g & Hin & Hpl & (Ht & Hty & Hg & Hm & Hmem & Hp & Hrp)).
  assert (∀ V (write : Op → option (ControlKey * V)) w, wins write l w → wins write k w) as Hw.
  { intros V write [kv|]; simpl; setoid_rewrite <-Heq; done. }
  exists gop, g. split_and!; [by apply Heq|done|]. split_and!; try done.
  - intros p. apply Hw, Hm.
  - by apply Hw.
Qed.

Lemma behind_here E (ds : gset OpId) d : d ∈ ds → behind E ds d.
Proof. intros Hd. by exists d. Qed.

Lemma behind_step E (ds : gset OpId) c d : behind E ds c → depends E c d → behind E ds d.
Proof. intros (x & Hx & Hr) Hd. exists x. split; [done|]. by eapply rtc_r. Qed.

Section ok.
Context E (t : TopicId) heads state (Hok : history_ok E t heads state).

Lemma depends_member c d : depends E c d → member E c ∧ member E d.
Proof using Hok.
  intros (op & m & He & Hd). split; [by exists op, m|].
  destruct (h_entry _ _ _ _ Hok _ _ _ He) as [_ Hv]. by apply (ev_deps _ _ _ _ Hv).
Qed.

Lemma rtc_member c d : member E c → rtc (depends E) c d → member E d.
Proof using Hok.
  intros Hc Hr. induction Hr as [|x y z Hxy _ IH]; [done|].
  apply IH. by apply depends_member in Hxy as [_ ?].
Qed.

Lemma depends_generation c d oc mc od md :
  depends E c d → E c oc mc → E d od md → om_generation md < om_generation mc.
Proof using Hok.
  intros (op & m & He & Hd) Hc Hdd. destruct (h_fun _ _ _ _ Hok _ _ _ _ _ He Hc) as [-> ->].
  destruct (h_entry _ _ _ _ Hok _ _ _ Hc) as [_ Hv]. by eapply (ev_generation _ _ _ _ Hv).
Qed.

(** Induction along dependencies. *)
Lemma history_ind (P : OpId → Prop) :
  (∀ i op m, E i op m → (∀ d, d ∈ om_deps m → P d) → P i) → ∀ i, member E i → P i.
Proof using Hok.
  intros Hstep.
  assert (∀ n i op m, E i op m → om_generation m < n → P i) as Hn.
  { induction n as [|n IH] using N.peano_ind; intros i op m He Hlt; [lia|].
    eapply Hstep; [done|]. intros d Hd.
    destruct (depends_member i d) as [_ (od & md & Hdd)]; [by exists op, m|].
    apply (IH d od md Hdd). pose proof (depends_generation i d op m od md) as Hg.
    assert (om_generation md < om_generation m); [|lia]. apply Hg; [by exists op, m|done..]. }
  intros i (op & m & He). apply (Hn (om_generation m + 1) i op m He). lia.
Qed.

(** Every operation is a head or behind one. *)
Lemma heads_cover i : member E i → behind E heads i.
Proof using Hok.
  destruct (h_bound _ _ _ _ Hok) as [n Hn]. intros (op & m & He).
  assert (∀ k i op m, E i op m → n < om_generation m + k → behind E heads i) as Hk.
  { clear i op m He. induction k as [|k IH] using N.peano_ind; intros i op m He Hlt.
    { pose proof (Hn i op m He). lia. }
    destruct (h_covered _ _ _ _ Hok i) as [Hh|(c & Hc)]; [by exists op, m|by apply behind_here|].
    eapply behind_step; [|done]. destruct (depends_member c i Hc) as [(oc & mc & Hcc) _].
    apply (IH c oc mc Hcc). pose proof (depends_generation c i oc mc op m Hc Hcc He). lia. }
  apply (Hk (n + 1) i op m He). lia.
Qed.

(** The history behind a frontier is a finite list. *)
Lemma causal_one i : member E i → ∃ ops, causal E {[i]} ops.
Proof using Hok.
  revert i. apply history_ind. intros i op m He IH.
  assert (∀ l : list OpId, (∀ d, d ∈ l → d ∈ om_deps m) →
    ∃ ops : list Op, ∀ o, o ∈ ops ↔ ∃ m' d, d ∈ l ∧ E (op_id o) o m' ∧ rtc (depends E) d (op_id o)) as Hl.
  { induction l as [|d l IHl]; intros Hsub.
    { exists []. intros o. split; [by intros ?%elem_of_nil|]. by intros (? & ? & ?%elem_of_nil & _). }
    destruct (IH d) as [ops1 H1]; [apply Hsub; by left|].
    destruct IHl as [ops2 H2]; [intros e He'; apply Hsub; by right|].
    exists (ops1 ++ ops2). intros o. rewrite elem_of_app H1 H2. setoid_rewrite elem_of_cons. split.
    - intros [(m' & Hm' & (x & Hx%elem_of_singleton & Hr))|(m' & x & Hx & Hm' & Hr)]; subst.
      + exists m', d. by split_and!; [left|..].
      + exists m', x. by split_and!; [right|..].
    - intros (m' & x & [->|Hx] & Hm' & Hr).
      + left. exists m'. split; [done|]. exists d. split; [by apply elem_of_singleton|done].
      + right. by exists m', x. }
  destruct (Hl (elements (om_deps m))) as [ops Hops]; [by intros d ?%elem_of_elements|].
  exists (op :: ops). intros o. rewrite elem_of_cons Hops. split.
  - intros [->|(m' & d & Hd%elem_of_elements & Hm' & Hr)].
    + destruct (h_entry _ _ _ _ Hok _ _ _ He) as [-> _]. exists m. split; [done|].
      apply behind_here. by apply elem_of_singleton.
    + exists m'. split; [done|]. exists i. split; [by apply elem_of_singleton|].
      eapply rtc_l; [|done]. by exists op, m.
  - intros (m' & Hm' & (x & ->%elem_of_singleton & Hr)).
    apply rtc_inv in Hr as [Heq|(y & Hiy & Hr)].
    + left. subst i. by destruct (h_fun _ _ _ _ Hok _ _ _ _ _ Hm' He).
    + right. exists m', y. destruct Hiy as (op' & m'' & He' & Hy).
      destruct (h_fun _ _ _ _ Hok _ _ _ _ _ He' He) as [-> ->]. by rewrite elem_of_elements.
Qed.

Lemma causal_exists (ds : gset OpId) :
  (∀ d, d ∈ ds → member E d) → ∃ ops, causal E ds ops.
Proof using Hok.
  induction ds as [|d ds Hd IH] using set_ind_L; intros Hall.
  { exists []. intros o. split; [by intros ?%elem_of_nil|]. by intros (? & _ & (x & ?%elem_of_empty & _)). }
  destruct (causal_one d) as [ops1 H1]; [apply Hall; set_solver|].
  destruct IH as [ops2 H2]; [intros e He; apply Hall; set_solver|].
  exists (ops1 ++ ops2). intros o. rewrite elem_of_app H1 H2. unfold behind. split.
  - intros [(m & Hm & x & Hx & Hr)|(m & Hm & x & Hx & Hr)]; exists m; split; [done| |done|];
      exists x; split; [set_solver|done|set_solver|done].
  - intros (m & Hm & x & [Hx|Hx]%elem_of_union & Hr); [left|right]; exists m; split; try done; by exists x.
Qed.

(** ** Chains and clocks *)

Lemma seq_positive i op m : E i op m → 1 ≤ om_actor_seq m.
Proof using Hok.
  intros He. destruct (h_entry _ _ _ _ Hok _ _ _ He) as [_ Hv].
  pose proof (ev_prev _ _ _ _ Hv) as Hp. destruct (om_actor_prev m); [|lia].
  destruct Hp as (_ & o & m' & _ & _ & ->). lia.
Qed.

(** An actor's operation is at or behind every later one of the actor. *)
Lemma chain_behind i oi mi j oj mj :
  E i oi mi → E j oj mj → om_actor_id mi = om_actor_id mj →
  om_actor_seq mj ≤ om_actor_seq mi → rtc (depends E) i j.
Proof using Hok.
  intros Hi Hj Ha Hle. remember (om_actor_seq mi - om_actor_seq mj) as k eqn:Hk.
  revert i oi mi Hi Ha Hle Hk. induction k as [|k IH] using N.peano_ind; intros i oi mi Hi Ha Hle Hk.
  { assert (i = j) as ->; [|done]. eapply (h_slot _ _ _ _ Hok); [done..|lia]. }
  destruct (h_entry _ _ _ _ Hok _ _ _ Hi) as [_ Hv]. pose proof (ev_prev _ _ _ _ Hv) as Hp.
  pose proof (seq_positive _ _ _ Hj). destruct (om_actor_prev mi) as [p|]; [|lia].
  destruct Hp as (Hp & o & m & He & Ham & Hs).
  eapply rtc_l; [by exists oi, mi|]. apply (IH p o m He); [congruence|lia..].
Qed.

(** The observed clock of an operation counts exactly its ancestors. *)
Lemma clock_counts i oi mi j oj mj :
  E i oi mi → E j oj mj →
  om_actor_seq mj ≤ ck_get (om_observed_clock mi) (om_actor_id mj) ↔ ancestor E i j.
Proof using Hok.
  intros Hi Hj. assert (member E i) as Hm by by exists oi, mi. revert oi mi Hi.
  revert i Hm. apply (history_ind (λ i, ∀ oi mi, E i oi mi → _)).
  intros i op m He IH oi mi Hi. destruct (h_fun _ _ _ _ Hok _ _ _ _ _ He Hi) as [-> ->].
  destruct (h_entry _ _ _ _ Hok _ _ _ Hi) as [_ Hv].
  rewrite (ev_clock _ _ _ _ Hv); [by eapply seq_positive|]. split.
  - intros (d & o & m & Hd & Hdd & Hc). assert (depends E i d) as Hid by by exists oi, mi.
    destruct Hc as [Hc|[Ha Hc]].
    + exists d. split; [done|]. apply (IH d Hd o m Hdd) in Hc as (e & Hde & Hr). by eapply rtc_l.
    + exists d. split; [done|]. by eapply chain_behind.
  - intros (d & Hid & Hr). destruct Hid as (o' & m' & Hi' & Hd).
    destruct (h_fun _ _ _ _ Hok _ _ _ _ _ Hi' Hi) as [-> ->].
    destruct (ev_deps _ _ _ _ Hv d Hd) as (o & m & Hdd). exists d, o, m. split_and!; [done..|].
    apply rtc_inv in Hr as [->|Hr].
    + right. by destruct (h_fun _ _ _ _ Hok _ _ _ _ _ Hdd Hj) as [-> ->].
    + left. by apply (IH d Hd o m Hdd).
Qed.

(** ** The topic state at a frontier *)

(** Every operation has the genesis behind it. *)
Lemma genesis_behind s i :
  state = Some s → member E i → ∃ gop g ops, everything E ops ∧ gop ∈ ops ∧
    payload (obody gop) = Genesis g ∧ state_spec ops gop g s ∧ rtc (depends E) i (op_id gop).
Proof using Hok.
  intros Hs Hi. pose proof (h_state _ _ _ _ Hok) as Hst. rewrite Hs in Hst.
  destruct Hst as (_ & (ops & Hall & gop & g & Hin & Hpl & Hspec) & Hgen).
  exists gop, g, ops. split_and!; [done..|]. destruct (proj1 (Hall gop) Hin) as [mg Hg].
  destruct (Hgen _ _ _ Hg) as [Hgid _]. revert i Hi. apply history_ind. intros i op m He IH.
  destruct (h_entry _ _ _ _ Hok _ _ _ He) as [_ Hv].
  destruct (decide (om_deps m = ∅)) as [Hd|(d & Hd)%set_choose_L].
  - apply (ev_root _ _ _ _ Hv) in Hd. destruct (Hgen _ _ _ He) as [Hi _]. rewrite (Hi Hd) Hgid //.
    unfold is_genesis. by rewrite Hpl.
  - eapply rtc_l; [|by apply (IH d)]. by exists op, m.
Qed.

(** A frontier that has every winning control behind it has the current state. *)
Lemma covered_state (ds : gset OpId) s :
  state = Some s → ds ≠ ∅ → (∀ d, d ∈ ds → member E d) →
  (∀ key i o m, (∃ p b, ts_membership_controls s !! p = Some (key, b)) ∨
      (∃ r, ts_replication_policy_control s = Some (key, r)) →
    E i o m → om_actor_id m = ck_actor_id key → om_actor_seq m = ck_actor_seq key →
    behind E ds i) →
  state_at E ds s.
Proof using Hok.
  intros Hs [d0 Hd0]%set_choose_L Hds Hkeys.
  destruct (genesis_behind s d0 Hs (Hds d0 Hd0)) as (gop & g & ops & Hall & Hin & Hpl & Hspec & Hr).
  destruct (causal_exists ds Hds) as [cs Hcs]. exists cs. split; [done|]. exists gop, g.
  assert (gop ∈ cs) as Hgcs.
  { apply Hcs. destruct (proj1 (Hall gop) Hin) as [m Hm]. exists m. split; [done|]. by exists d0. }
  assert (∀ V (write : Op → option (ControlKey * V)) w, keyed write → wins write ops w →
    (∀ kv, w = Some kv → ∀ i o m, E i o m → om_actor_id m = ck_actor_id kv.1 →
      om_actor_seq m = ck_actor_seq kv.1 → behind E ds i) → wins write cs w) as Hw.
  { intros V write w Hk Hwin Hb. assert (∀ op, op ∈ cs → op ∈ ops) as Hsub.
    { intros op (m & Hm & _)%Hcs. apply Hall. by exists m. }
    destruct w as [kv|]; simpl in *; [|by intros op Hop%Hsub; apply Hwin].
    destruct Hwin as [(op & Hop & Hwr) Hmax]. split; [|by intros o kv' Ho%Hsub; apply Hmax].
    exists op. split; [|done]. apply Hcs. destruct (proj1 (Hall op) Hop) as [m Hm]. exists m. split; [done|].
    destruct (h_entry _ _ _ _ Hok _ _ _ Hm) as [_ Hv].
    pose proof (proj1 (meta_matches_true _ _) (ev_matches _ _ _ _ Hv)) as (_ & _ & Hma & Hms & _).
    eapply Hb; [done..| |]; by rewrite (Hk _ _ Hwr). }
  destruct Hspec as (Ht & Hty & Hg & Hm & Hmem & Hp & Hrp).
  split_and!; [done..|]. split_and!; try done.
  - intros p. apply Hw; [apply member_write_keyed|done|]. intros [key b] Hk i o m. apply Hkeys. left. by exists p, b.
  - apply Hw; [apply policy_write_keyed|done|]. intros [key r] Hk i o m. apply Hkeys. right. by exists r.
Qed.

(** The frontier of the whole history has the current state. *)
Lemma heads_state s : state = Some s → state_at E heads s.
Proof using Hok.
  intros Hs. apply covered_state; [done|..].
  - pose proof (h_state _ _ _ _ Hok) as Hst. rewrite Hs in Hst.
    destruct Hst as (_ & (ops & Hall & gop & g & Hin & _) & _). apply Hall in Hin as [m Hm].
    destruct (heads_cover (op_id gop)) as (h & Hh & _); [by exists gop, m|]. set_solver.
  - intros d Hd. by apply (h_heads _ _ _ _ Hok) in Hd as [? _].
  - intros key i o m _ He _ _. apply heads_cover. by exists o, m.
Qed.
End ok.

(** ** Growing a history *)

(** [E'] keeps the entries of [E] as they are. *)
Definition extends_history E E' : Prop :=
  ∀ d, member E d → ∀ o m, E' d o m ↔ E d o m.

Section grow.
Context E E' (t : TopicId) heads state (Hok : history_ok E t heads state) (Hext : extends_history E E').

Lemma member_grow i : member E i → member E' i.
Proof using Hext. intros Hi. pose proof Hi as (o & m & He). exists o, m. by apply Hext. Qed.

Lemma depends_grow c d : member E c → depends E' c d ↔ depends E c d.
Proof using Hext.
  intros Hc. unfold depends. split; intros (o & m & He & Hd); exists o, m; (split; [|done]);
    by apply (Hext c Hc).
Qed.

Lemma rtc_grow i j : member E i → rtc (depends E') i j ↔ rtc (depends E) i j.
Proof using Hext Hok.
  intros Hi. split; intros Hr.
  - revert Hi. induction Hr as [|x y z Hxy _ IH]; intros Hx; [done|].
    apply depends_grow in Hxy; [|done]. eapply rtc_l; [done|]. apply IH.
    by apply (depends_member E t heads state Hok) in Hxy as [_ ?].
  - revert Hi. induction Hr as [|x y z Hxy _ IH]; intros Hx; [done|].
    eapply rtc_l; [by apply depends_grow|]. apply IH.
    by apply (depends_member E t heads state Hok) in Hxy as [_ ?].
Qed.

Lemma causal_grow (ds : gset OpId) ops :
  (∀ d, d ∈ ds → member E d) → causal E' ds ops ↔ causal E ds ops.
Proof using Hext Hok.
  intros Hds.
  assert (∀ op, (∃ m, E' (op_id op) op m ∧ behind E' ds (op_id op)) ↔
    ∃ m, E (op_id op) op m ∧ behind E ds (op_id op)) as Heq.
  { intros op. split.
    - intros (m & Hm & (d & Hd & Hr)). apply rtc_grow in Hr; [|by apply Hds].
      exists m. split; [|by exists d]. apply Hext; [|done].
      eapply (rtc_member E t heads state Hok); [|done]. by apply Hds.
    - intros (m & Hm & (d & Hd & Hr)). exists m. split; [apply Hext; [by exists op, m|done]|].
      exists d. split; [done|]. apply rtc_grow; [by apply Hds|done]. }
  unfold causal. by setoid_rewrite Heq.
Qed.

Lemma state_at_grow (ds : gset OpId) s :
  (∀ d, d ∈ ds → member E d) → state_at E' ds s ↔ state_at E ds s.
Proof using Hext Hok. intros Hds. unfold state_at. by setoid_rewrite (causal_grow ds _ Hds). Qed.

Lemma entry_valid_grow op meta : entry_valid E t op meta → entry_valid E' t op meta.
Proof using Hext Hok.
  intros [Hid Htop Hmt Hmm Hdeps Hgen Hroot Htight Hprev Hclock Hgr Hmem].
  assert (∀ d o m, d ∈ om_deps meta → E' d o m ↔ E d o m) as Hsame
    by (intros d o m Hd; by apply Hext, Hdeps).
  split; try done.
  - intros d Hd. by apply member_grow, Hdeps.
  - intros d o m Hd He. apply (Hgen d o m Hd). by apply Hsame.
  - intros Hne. destruct (Htight Hne) as (d & o & m & Hd & He & Heq). exists d, o, m.
    split_and!; [done|by apply Hsame|done].
  - destruct (om_actor_prev meta) as [p|]; [|done]. destruct Hprev as (Hp & o & m & He & Hrest).
    split; [done|]. exists o, m. split; [by apply Hsame|done].
  - intros a s Hs. rewrite Hclock //. split; intros (d & o & m & Hd & He & Hrest);
      exists d, o, m; (split_and!; [done|by apply Hsame|done]).
  - intros Hng. destruct (Hmem Hng) as (s & Hs & Ha). exists s. split; [|done].
    by apply state_at_grow.
Qed.
End grow.

(** Histories with the same entries. *)
Lemma history_ok_iff E E' t heads state :
  (∀ i o m, E i o m ↔ E' i o m) → history_ok E t heads state → history_ok E' t heads state.
Proof.
  intros Heq Hok.
  assert (∀ i, member E' i ↔ member E i) as Hm by (intros i; unfold member; by setoid_rewrite Heq).
  assert (∀ c d, depends E' c d ↔ depends E c d) as Hd by (intros c d; unfold depends; by setoid_rewrite Heq).
  assert (extends_history E E') as Hext by (intros d _ o m; by rewrite Heq).
  split.
  - intros i o m o' m' H1%Heq H2%Heq. by eapply (h_fun _ _ _ _ Hok).
  - intros i o m H1%Heq. destruct (h_entry _ _ _ _ Hok _ _ _ H1). split; [done|]. by eapply entry_valid_grow.
  - intros i o m j o' m' H1%Heq H2%Heq. by eapply (h_slot _ _ _ _ Hok).
  - intros i Hi. rewrite Hm. setoid_rewrite Hd. by apply (h_heads _ _ _ _ Hok).
  - intros i Hi%Hm. setoid_rewrite Hd. by apply (h_covered _ _ _ _ Hok).
  - destruct (h_bound _ _ _ _ Hok) as [n Hn]. exists n. intros i o m H1%Heq. by eapply Hn.
  - pose proof (h_state _ _ _ _ Hok) as Hst. destruct state as [s|]; [|by intros i ?%Hm%Hst].
    destruct Hst as (Ht & (ops & Hall & Hs) & Hg). split_and!; [done| |by intros i o m ?%Heq%Hg].
    exists ops. split; [|done]. intros op. rewrite (Hall op). by setoid_rewrite Heq.
Qed.

(** [E] with one more entry. *)
Definition add_entry E (op : Op) meta : history :=
  λ i o m, E i o m ∨ (i = op_id op ∧ o = op ∧ m = meta).

Lemma add_entry_extends E op meta : ¬ member E (op_id op) → extends_history E (add_entry E op meta).
Proof.
  intros Hno d Hd o m. unfold add_entry. split; [|by left]. intros [?|(-> & _ & _)]; [done|]. by destruct Hno.
Qed.

Lemma add_entry_member E op meta i : member (add_entry E op meta) i ↔ member E i ∨ i = op_id op.
Proof.
  unfold member, add_entry. split.
  - intros (o & m & [He|(-> & _)]); [left; by exists o, m|by right].
  - intros [(o & m & He)| ->]; [exists o, m; by left|]. exists op, meta. by right.
Qed.

Lemma add_entry_depends E op meta c d :
  depends (add_entry E op meta) c d ↔ depends E c d ∨ (c = op_id op ∧ d ∈ om_deps meta).
Proof.
  unfold depends, add_entry. split.
  - intros (o & m & [He|(-> & -> & ->)] & Hd); [left; by exists o, m|by right].
  - intros [(o & m & He & Hd)|[-> Hd]]; [exists o, m; split; [by left|done]|].
    exists op, meta. split; [by right|done].
Qed.

(** How the topic state follows an accepted operation. *)
Definition state_follows (t : TopicId) op (state state' : option TopicState) : Prop :=
  match payload (obody op) with
  | Genesis g => state = None ∧ state' = Some (genesis_state t op g)
  | Event env => ∃ s, state = Some s ∧ state' = Some s ∧ type_id env = ts_event_type_id s
  | Control c => ∃ s, state = Some s ∧ state' = Some (apply_control s op c)
  end.

Lemma genesis_state_spec t op g :
  payload (obody op) = Genesis g → topic_id (obody op) = t →
  state_spec [op] op g (genesis_state t op g).
Proof.
  intros Hpl <-. split_and!; try done.
  - intros p. cbn [genesis_state ts_membership_controls]. rewrite lookup_empty.
    intros o ->%list_elem_of_singleton. unfold member_write. by rewrite Hpl.
  - intros o ->%list_elem_of_singleton. unfold policy_write. by rewrite Hpl.
Qed.

Lemma apply_control_genesis s op c :
  ts_genesis (apply_control s op c) = ts_genesis s ∧ ts_topic_id (apply_control s op c) = ts_topic_id s ∧
  ts_event_type_id (apply_control s op c) = ts_event_type_id s.
Proof. destruct c; simpl; by repeat (case_match; simpl). Qed.

Lemma history_state_extend E t heads state op meta state' :
  history_ok E t heads state → ¬ member E (op_id op) → entry_valid E t op meta →
  state_follows t op state state' → history_state (add_entry E op meta) t state'.
Proof.
  intros Hok Hno Hv Hf. pose proof (h_state _ _ _ _ Hok) as Hst. unfold state_follows in Hf.
  assert (∀ ops, everything E ops → everything (add_entry E op meta) (ops ++ [op])) as Hall'.
  { intros ops Hall o. rewrite elem_of_app list_elem_of_singleton Hall. unfold add_entry. split.
    - intros [[m Hm]| ->]; [exists m; by left|]. exists meta. by right.
    - intros [m [Hm|(_ & -> & _)]]; [left; by exists m|by right]. }
  destruct (payload (obody op)) as [g|env|c] eqn:Hpl.
  - destruct Hf as [-> ->]. simpl in Hst. split; [done|]. split.
    + exists [op]. split.
      { intros o. rewrite list_elem_of_singleton. unfold add_entry. split.
        - intros ->. exists meta. by right.
        - intros [m [Hm|(_ & -> & _)]]; [|done]. destruct (Hst (op_id o)). by exists o, m. }
      exists op, g. split_and!; [by apply list_elem_of_singleton|done|].
      apply genesis_state_spec; [done|apply Hv].
    + intros i o m [He|(-> & -> & _)]; [destruct (Hst i); by exists o, m|]. split; [done|].
      intros env. by rewrite Hpl.
  - destruct Hf as (s & -> & -> & Hty). destruct Hst as (Ht & (ops & Hall & gop & g & Hin & Hg & Hspec) & Hgen).
    split; [done|]. split.
    + exists (ops ++ [op]). split; [by apply Hall'|]. exists gop, g. split_and!; [set_solver|done|].
      apply state_spec_event; [done|]. intros c. by rewrite Hpl.
    + intros i o m [He|(-> & -> & _)]; [by eapply Hgen|]. unfold is_genesis. rewrite Hpl. split; [done|].
      by intros env' [= <-].
  - destruct Hf as (s & -> & ->). destruct Hst as (Ht & (ops & Hall & gop & g & Hin & Hg & Hspec) & Hgen).
    destruct (apply_control_genesis s op c) as (Hag & Hat & Haty). split; [congruence|]. split.
    + exists (ops ++ [op]). split; [by apply Hall'|]. exists gop, g. split_and!; [set_solver|done|].
      by apply state_spec_control.
    + rewrite Hag Haty. intros i o m [He|(-> & -> & _)]; [by eapply Hgen|]. unfold is_genesis.
      by rewrite Hpl.
Qed.

(** A valid entry at a free position extends a history. *)
Lemma history_extend E t heads state op meta state' :
  history_ok E t heads state → ¬ member E (op_id op) → entry_valid E t op meta →
  (∀ i o m, E i o m → om_actor_id m = om_actor_id meta → om_actor_seq m ≠ om_actor_seq meta) →
  state_follows t op state state' →
  history_ok (add_entry E op meta) t ({[op_id op]} ∪ (heads ∖ om_deps meta)) state'.
Proof.
  intros Hok Hno Hv Hfree Hf. pose proof (add_entry_extends E op meta Hno) as Hext.
  assert (op_id op ∉ om_deps meta) as Hself by by intros ?%(ev_deps _ _ _ _ Hv).
  split.
  - intros i o m o' m' [He|(-> & -> & ->)] [He'|(Heq & -> & ->)]; try done.
    + by eapply (h_fun _ _ _ _ Hok).
    + subst. destruct Hno. by exists o, m.
    + destruct Hno. by exists o', m'.
  - intros i o m [He|(-> & -> & ->)].
    + destruct (h_entry _ _ _ _ Hok _ _ _ He) as [Hi Hvi]. split; [done|]. by eapply entry_valid_grow.
    + split; [done|]. by eapply entry_valid_grow.
  - intros i o m j o' m' [He|(-> & -> & ->)] [He'|(-> & -> & ->)] Ha Hs; try done.
    + by eapply (h_slot _ _ _ _ Hok).
    + by destruct (Hfree i o m He).
    + by destruct (Hfree j o' m' He').
  - intros i [->%elem_of_singleton|[Hi Hnd]%elem_of_difference]%elem_of_union.
    + split; [apply add_entry_member; by right|]. intros c [Hc|[_ Hc]]%add_entry_depends; [|done].
      by apply (depends_member E t heads state Hok) in Hc as [_ ?].
    + destruct (h_heads _ _ _ _ Hok i Hi) as [Hm Hc]. split; [apply add_entry_member; by left|].
      intros c [Hci|[_ Hci]]%add_entry_depends; [by apply (Hc c)|done].
  - intros i [Hi| ->]%add_entry_member; [|left; set_solver].
    setoid_rewrite add_entry_depends. destruct (h_covered _ _ _ _ Hok i Hi) as [Hh|(c & Hc)].
    + destruct (decide (i ∈ om_deps meta)); [right; exists (op_id op); by right|left; set_solver].
    + right. exists c. by left.
  - destruct (h_bound _ _ _ _ Hok) as [n Hn]. exists (N.max n (om_generation meta)).
    intros i o m [He|(-> & -> & ->)]; [specialize (Hn i o m He); lia|lia].
  - by eapply history_state_extend.
Qed.

(** ** Equal frontiers *)

(** What a shared operation has behind it in one history is in the other. *)
Lemma rtc_shared E1 E2 t h1 s1 h2 s2 i j :
  history_ok E1 t h1 s1 → history_ok E2 t h2 s2 →
  (∀ i o1 m1 o2 m2, E1 i o1 m1 → E2 i o2 m2 → o1 = o2) →
  member E2 i → rtc (depends E1) i j → member E2 j.
Proof.
  intros H1 H2 Hsame Hm Hr. induction Hr as [|x y z (o & m & He & Hd) _ IH]; [done|]. apply IH.
  destruct Hm as (o2 & m2 & He2). pose proof (Hsame _ _ _ _ _ He He2) as <-.
  destruct (h_entry _ _ _ _ H1 _ _ _ He) as [_ Hv1], (h_entry _ _ _ _ H2 _ _ _ He2) as [_ Hv2].
  pose proof (proj1 (meta_matches_true _ _) (ev_matches _ _ _ _ Hv1)) as (_&_&_&_&_&Hd1&_).
  pose proof (proj1 (meta_matches_true _ _) (ev_matches _ _ _ _ Hv2)) as (_&_&_&_&_&Hd2&_).
  apply (ev_deps _ _ _ _ Hv2). by rewrite Hd2 -Hd1.
Qed.

(** What the frontier has behind it in one history is in the other. *)
Lemma frontier_member E1 E2 t heads s1 s2 :
  history_ok E1 t heads s1 → history_ok E2 t heads s2 →
  (∀ i o1 m1 o2 m2, E1 i o1 m1 → E2 i o2 m2 → o1 = o2) →
  ∀ i, member E1 i → member E2 i.
Proof.
  intros H1 H2 Hsame i Hi. destruct (heads_cover E1 t heads s1 H1 i Hi) as (h & Hh & Hr).
  eapply (rtc_shared E1 E2); [done..| |done]. by apply (h_heads _ _ _ _ H2).
Qed.

(** The state of a history is determined by its operations. *)
Lemma same_state E1 E2 t heads s1 s2 :
  history_ok E1 t heads (Some s1) → history_ok E2 t heads (Some s2) →
  (∀ op, (∃ m, E1 (op_id op) op m) ↔ ∃ m, E2 (op_id op) op m) →
  set_heads s1 heads = set_heads s2 heads.
Proof.
  intros H1 H2 Hiff. pose proof (h_state _ _ _ _ H1) as (_ & (l & Hl & g1 & p1 & Hin1 & Hp1 & Hs1) & Hg1).
  pose proof (h_state _ _ _ _ H2) as (_ & (k & Hk & g2 & p2 & Hin2 & Hp2 & Hs2) & Hg2).
  assert (∀ op, op ∈ l ↔ op ∈ k) as Heq by (intros op; rewrite (Hl op) (Hk op); apply Hiff).
  eapply (state_spec_unique l k g1 g2 p1 p2); try done.
  - intros o1 o2 [m1 Ho1]%Hl [m2 Ho2]%Hl Hid. rewrite -Hid in Ho2.
    by destruct (h_fun _ _ _ _ H1 _ _ _ _ _ Ho1 Ho2).
  - destruct (proj1 (Hl g1) Hin1) as [m1 Hm1]. apply Heq in Hin2. destruct (proj1 (Hl g2) Hin2) as [m2 Hm2].
    destruct (Hg1 _ _ _ Hm1) as [Hi1 _], (Hg1 _ _ _ Hm2) as [Hi2 _]. unfold is_genesis in Hi1, Hi2.
    rewrite Hp1 in Hi1. rewrite Hp2 in Hi2. by rewrite Hi1 // Hi2.
Qed.

(** Observed clocks agree where the operations do. *)
Lemma same_clock E1 E2 t heads s1 s2 :
  history_ok E1 t heads s1 → history_ok E2 t heads s2 →
  (∀ i o1 m1 o2 m2, E1 i o1 m1 → E2 i o2 m2 → o1 = o2) →
  ∀ i, member E1 i → ∀ o1 m1 o2 m2, E1 i o1 m1 → E2 i o2 m2 → ∀ a,
    ck_get (om_observed_clock m1) a = ck_get (om_observed_clock m2) a.
Proof.
  intros H1 H2 Hsame. apply (history_ind E1 t heads s1 H1 (λ i, ∀ o1 m1 o2 m2, E1 i o1 m1 → E2 i o2 m2 → ∀ a,
    ck_get (om_observed_clock m1) a = ck_get (om_observed_clock m2) a)).
  intros i op m He IH o1 m1 o2 m2 He1 He2 a.
  destruct (h_fun _ _ _ _ H1 _ _ _ _ _ He He1) as [<- <-]. pose proof (Hsame _ _ _ _ _ He He2) as <-.
  destruct (h_entry _ _ _ _ H1 _ _ _ He) as [_ Hv1], (h_entry _ _ _ _ H2 _ _ _ He2) as [_ Hv2].
  pose proof (proj1 (meta_matches_true _ _) (ev_matches _ _ _ _ Hv1)) as (_&_&_&_&_&Hd1&_).
  pose proof (proj1 (meta_matches_true _ _) (ev_matches _ _ _ _ Hv2)) as (_&_&_&_&_&Hd2&_).
  assert (∀ s, 1 ≤ s → s ≤ ck_get (om_observed_clock m) a ↔ s ≤ ck_get (om_observed_clock m2) a) as Hs.
  { assert (∀ d o m' o' m'', d ∈ deps (obody op) → E1 d o m' → E2 d o' m'' → ∀ s,
      (s ≤ ck_get (om_observed_clock m') a ∨ om_actor_id m' = a ∧ s ≤ om_actor_seq m') ↔
      (s ≤ ck_get (om_observed_clock m'') a ∨ om_actor_id m'' = a ∧ s ≤ om_actor_seq m'')) as Hdep.
    { intros d o m' o' m'' Hd Hd1' Hd2' s. rewrite (IH d ltac:(congruence) _ _ _ _ Hd1' Hd2').
      pose proof (Hsame _ _ _ _ _ Hd1' Hd2') as <-.
      destruct (h_entry _ _ _ _ H1 _ _ _ Hd1') as [_ Hw1], (h_entry _ _ _ _ H2 _ _ _ Hd2') as [_ Hw2].
      pose proof (proj1 (meta_matches_true _ _) (ev_matches _ _ _ _ Hw1)) as (_&_&->&->&_).
      by pose proof (proj1 (meta_matches_true _ _) (ev_matches _ _ _ _ Hw2)) as (_&_&->&->&_). }
    intros s Hs. rewrite (ev_clock _ _ _ _ Hv1) // (ev_clock _ _ _ _ Hv2) // Hd1 Hd2. split.
    - intros (d & o & m' & Hd & Hdd & Hc). rewrite -Hd2 in Hd.
      destruct (ev_deps _ _ _ _ Hv2 d Hd) as (o' & m'' & Hdd2). rewrite Hd2 in Hd. exists d, o', m''.
      split_and!; [done..|]. by apply (Hdep _ _ _ _ _ Hd Hdd Hdd2).
    - intros (d & o & m' & Hd & Hdd & Hc). rewrite -Hd1 in Hd.
      destruct (ev_deps _ _ _ _ Hv1 d Hd) as (o' & m'' & Hdd2). rewrite Hd1 in Hd. exists d, o', m''.
      split_and!; [done..|]. by apply (Hdep _ _ _ _ _ Hd Hdd2 Hdd). }
  pose proof (Hs (ck_get (om_observed_clock m) a)). pose proof (Hs (ck_get (om_observed_clock m2) a)). lia.
Qed.


(** ** Folding over dependencies *)

(** The generation computed from the dependencies visited. *)
Definition generation_after E (visited : list OpId) (g : N) : Prop :=
  (∀ d o m, d ∈ visited → E d o m → om_generation m < g) ∧ (visited = [] → g = 0) ∧
  (visited ≠ [] → ∃ d o m, d ∈ visited ∧ E d o m ∧ g = om_generation m + 1).

Lemma generation_after_nil E : generation_after E [] 0.
Proof. split_and!; [by intros d o m ?%elem_of_nil|done|done]. Qed.

Lemma generation_after_snoc E t heads state visited d o m g :
  history_ok E t heads state → E d o m → generation_after E visited g →
  generation_after E (visited ++ [d]) (N.max g (om_generation m + 1)).
Proof.
  intros HV He (H1 & H2 & H3). split_and!.
  - intros d' o' m' [Hd'|Hd'%list_elem_of_singleton]%elem_of_app He'; [specialize (H1 d' o' m' Hd' He'); lia|].
    subst d'. destruct (h_fun _ _ _ _ HV _ _ _ _ _ He He') as [<- <-]. lia.
  - by intros []%app_nil.
  - intros _. destruct (decide (visited = [])) as [Hnil|Hne].
    + exists d, o, m. split_and!; [set_solver|done|]. rewrite (H2 Hnil). lia.
    + destruct (H3 Hne) as (d' & o' & m' & Hd' & He' & Hg1).
      destruct (N.le_ge_cases (om_generation m + 1) g).
      * exists d', o', m'. split_and!; [set_solver|done|lia].
      * exists d, o, m. split_and!; [set_solver|done|lia].
Qed.

Lemma generation_after_set E (ds : gset OpId) g :
  generation_after E (bt_elements ds) g →
  (∀ d o m, d ∈ ds → E d o m → om_generation m < g) ∧ (ds = ∅ → g = 0) ∧
  (ds ≠ ∅ → ∃ d o m, d ∈ ds ∧ E d o m ∧ g = om_generation m + 1).
Proof.
  intros (H1 & H2 & H3). split_and!.
  - intros d o m Hd. apply H1. by apply elem_of_bt_elements.
  - intros ->. apply H2. done.
  - intros Hne. destruct H3 as (d & o & m & Hd & He & Hg'); [|exists d, o, m; by rewrite -elem_of_bt_elements].
    intros Hnil. apply set_choose_L in Hne as [x Hx]. apply elem_of_bt_elements in Hx. rewrite Hnil in Hx.
    by apply elem_of_nil in Hx.
Qed.

(** [d] is operation [s] of [a] or observed it. *)
Definition counts E (d : OpId) (a : ActorId) (s : N) : Prop :=
  ∃ o m, E d o m ∧ (s ≤ ck_get (om_observed_clock m) a ∨ om_actor_id m = a ∧ s ≤ om_actor_seq m).

(** The clock computed from the dependencies visited. *)
Definition clock_after E (visited : list OpId) (clock : C) : Prop :=
  (∀ d, d ∈ visited → member E d) ∧
  ∀ a s, 1 ≤ s → s ≤ ck_get clock a ↔ ∃ d, d ∈ visited ∧ counts E d a s.

Lemma clock_after_nil E : clock_after E [] ck_new.
Proof.
  split; [by intros d ?%elem_of_nil|]. intros a s Hs. rewrite ck_get_view ck_view_new lookup_empty /=.
  split; [lia|]. by intros (d & ?%elem_of_nil & _).
Qed.

Lemma clock_after_snoc E t heads state visited d o m clock :
  history_ok E t heads state → E d o m → clock_after E visited clock →
  clock_after E (visited ++ [d])
    (ck_observe (ck_merge clock (om_observed_clock m)) (om_actor_id m) (om_actor_seq m)).
Proof.
  intros HV He [H1 H2].
  split; [intros x [?| ->%list_elem_of_singleton]%elem_of_app; [by apply H1|by exists o, m]|].
  intros a s Hs. rewrite ck_get_observe ck_get_merge.
  assert (s ≤ (if decide (om_actor_id m = a) then N.max (N.max (ck_get clock a) (ck_get (om_observed_clock m) a))
      (om_actor_seq m) else N.max (ck_get clock a) (ck_get (om_observed_clock m) a)) ↔
    s ≤ ck_get clock a ∨ s ≤ ck_get (om_observed_clock m) a ∨ om_actor_id m = a ∧ s ≤ om_actor_seq m) as ->.
  { case_decide; [|naive_solver lia]. split; [|naive_solver lia]. intros ?.
    destruct (N.le_gt_cases s (ck_get clock a)); [by left|].
    destruct (N.le_gt_cases s (ck_get (om_observed_clock m) a)); [by right; left|]. right; right. split; [done|lia]. }
  rewrite H2 //. setoid_rewrite elem_of_app. setoid_rewrite list_elem_of_singleton. split.
  - intros [(x & Hx & Hc)|Hc]; [exists x; split; [by left|done]|]. exists d. split; [by right|]. by exists o, m.
  - intros (x & [Hx| ->] & Hc); [left; by exists x|right]. destruct Hc as (o' & m' & He' & Hc).
    by destruct (h_fun _ _ _ _ HV _ _ _ _ _ He He') as [<- <-].
Qed.

(** ** The history a log holds *)

Definition entries_of (log : Log C) (t : TopicId) : history :=
  λ i op m, l_ops log !! i = Some op ∧ l_meta log !! i = Some m ∧ om_topic_id m = t.
End dag.
