(* ===== verification/Projection.v ===== *)
(** * Membership at a frontier

    [project_membership] walks from the dependencies of an operation down to states
    it already knows and folds the controls it meets. The theorems show that the walk
    ends, and that its result is the topic state of exactly the operations behind the
    dependencies, whichever states were known; and that the shortcut of
    [covers_controls] decides the same. *)

From stdpp Require Import relations.
From S2P Require Import Prelude Ids Frame ClockSpec Types Membership Topology.
From S2P Require Import Evidence Records Pool Store StoreLog Admission Dag.

#[local] Open Scope N_scope.

(** Choosing a value for each of finitely many elements. *)
Lemma finite_choice {A B} `{Countable A} (X : gset A) (P : A → B → Prop) (b0 : B) :
  (∀ x, x ∈ X → ∃ y, P x y) → ∃ f, ∀ x, x ∈ X → P x (f x).
Proof.
  induction X as [|x X Hx IH] using set_ind_L; intros Hall.
  { exists (λ _, b0). set_solver. }
  destruct (Hall x) as [y Hy]; [set_solver|]. destruct IH as [f Hf]; [intros z Hz; apply Hall; set_solver|].
  exists (λ z, if decide (z = x) then y else f z). intros z Hz.
  destruct (decide (z = x)) as [->|]; [done|]. apply Hf. set_solver.
Qed.

(** Only controls and the genesis bear on the topic state. *)
Lemma state_spec_controls (l k : list Op) gop g s :
  (∀ op, (∀ env, payload (obody op) ≠ Event env) → op ∈ l ↔ op ∈ k) →
  state_spec l gop g s → state_spec k gop g s.
Proof.
  intros Heq (Ht & Hty & Hg & Hm & Hmem & Hp & Hrp).
  assert (∀ V (write : Op → option (ControlKey * V)) w,
    (∀ op, (∃ env, payload (obody op) = Event env) → write op = None) →
    wins write l w → wins write k w) as Hw.
  { intros V write w Hev Hwin.
    assert (∀ op, is_Some (write op) → op ∈ l ↔ op ∈ k) as Hx.
    { intros op [x Hx]. apply Heq. intros env Hpl. rewrite Hev in Hx; [by exists env|done]. }
    destruct w as [kv|]; simpl in *.
    - destruct Hwin as [(op & Hin & Hwr) Hmax]. split.
      + exists op. split; [|done]. apply Hx; [by eexists|done].
      + intros o kv' Ho Hkv. apply (Hmax o); [|done]. apply Hx; [by eexists|done].
    - intros op Hop. destruct (write op) eqn:Hwr; [|done]. rewrite -Hwr. apply Hwin, Hx; [by eexists|done]. }
  split_and!; try done.
  - intros p. apply Hw; [|done]. intros op [env Hpl]. unfold member_write. by rewrite Hpl.
  - apply Hw; [|done]. intros op [env Hpl]. unfold policy_write. by rewrite Hpl.
Qed.

Lemma state_of_controls (l k : list Op) s :
  (∀ op, (∀ env, payload (obody op) ≠ Event env) → op ∈ l ↔ op ∈ k) →
  state_of l s → state_of k s.
Proof.
  intros Heq (gop & g & Hin & Hpl & Hspec). exists gop, g. split_and!; [|done|by eapply state_spec_controls].
  apply Heq; [|done]. intros env. by rewrite Hpl.
Qed.

Section projection.
Context {C : Type} `{!ClockImpl C} `{!StoreEnv C} `{!Crypto} `{!OplogEnv}.
Implicit Types (inner : MemoryInner C).

(** ** The workspace *)

Lemma hold_until_enough fuel held used held' :
  used ≤ held + N.of_nat fuel * HOLD_BYTES → hold_until fuel held used = Ok held' →
  used ≤ held' ∧ held ≤ held'.
Proof.
  revert held. induction fuel as [|fuel IH]; intros held Hle; simpl.
  { intros [= <-]. lia. }
  destruct (N.ltb_spec held used); [|intros [= <-]; lia].
  intros (u & _ & Hh)%bind_ok. apply IH in Hh; unfold HOLD_BYTES in *; lia.
Qed.

(** What is in use is held, and within the limit of a projection. *)
Lemma charge_held ws bytes ws' :
  charge ws bytes = Ok ws' →
  ws_used ws' = saturating_add (ws_used ws) bytes ∧ ws_used ws' ≤ ws_held ws' ∧
  ws_used ws' ≤ MAX_WORKSPACE_BYTES.
Proof.
  unfold charge. destruct (N.ltb_spec MAX_WORKSPACE_BYTES (saturating_add (ws_used ws) bytes)); [done|].
  intros (held & Hh & [= <-])%bind_ok. apply hold_until_enough in Hh; [simpl; by destruct Hh|].
  rewrite Nnat.Nat2N.inj_succ Nnat.N2Nat.id.
  assert (HOLD_BYTES ≠ 0) as Hne by by vm_compute.
  pose proof (N.mul_succ_div_gt (saturating_add (ws_used ws) bytes) HOLD_BYTES Hne). lia.
Qed.

(** ** The walk ends *)

Lemma edge_count_delete (metas : gmap OpId (OpMeta C)) i m :
  metas !! i = Some m → edge_count metas = (size (om_deps m) + edge_count (delete i metas))%nat.
Proof.
  intros Hi. unfold edge_count. rewrite -{1}(insert_delete_id metas i m Hi).
  rewrite map_fold_insert_L //; [|by rewrite lookup_delete_eq]. intros. lia.
Qed.

Lemma edge_count_delete_le (metas : gmap OpId (OpMeta C)) i :
  (edge_count (delete i metas) ≤ edge_count metas)%nat.
Proof.
  destruct (metas !! i) as [m|] eqn:Hi; [rewrite (edge_count_delete metas i m Hi); lia|].
  by rewrite delete_id.
Qed.

Definition unseen (metas : gmap OpId (OpMeta C)) (seen : gset OpId) : gmap OpId (OpMeta C) :=
  filter (λ e, e.1 ∉ seen) metas.

Lemma unseen_insert metas seen i : unseen metas ({[i]} ∪ seen) = delete i (unseen metas seen).
Proof.
  apply map_eq. intros j. unfold unseen. apply option_eq. intros m.
  rewrite lookup_delete_Some !map_lookup_filter_Some /=. set_solver.
Qed.

Lemma walk_ends fuel inner ops metas projections t w :
  (length (w_walk w) + edge_count (unseen (metas ∪ l_meta (s_log inner)) (w_seen w)) ≤ fuel)%nat →
  walk_loop fuel inner ops metas projections t w ≠ None.
Proof.
  revert w. induction fuel as [|fuel IH]; intros w Hle; simpl.
  { destruct (w_walk w); simpl in Hle; [done|lia]. }
  destruct (w_walk w) as [|i rest] eqn:Hw; [done|]. cbn [length] in Hle.
  destruct (walk_step _ _ _ _ _ _ _ _) as [w'|e] eqn:Hs; [|done]. apply IH. revert Hs. unfold walk_step.
  destruct (decide (i ∈ w_seen w)); [intros [= <-]; simpl; lia|].
  intros (ws & _ & Hs)%bind_ok. cbv zeta in Hs.
  pose proof (edge_count_delete_le (unseen (metas ∪ l_meta (s_log inner)) (w_seen w)) i).
  case_bool_decide; [injection Hs as <-; cbn [w_walk w_seen]; rewrite unseen_insert; lia|].
  next_ok Hs as (m & Hm & Hs). destruct (negb _); [done|].
  next_ok Hs as (ws' & _ & Hs). next_ok Hs as (op & _ & Hs).
  assert (unseen (metas ∪ l_meta (s_log inner)) (w_seen w) !! i = Some m) as Hi.
  { apply map_lookup_filter_Some. split; [|done]. unfold meta_projected in Hm. rewrite lookup_union.
    destruct (metas !! i) as [m'|]; simplify_eq/=.
    - by rewrite union_Some_l.
    - apply ok_or_ok in Hm. by rewrite Hm. }
  pose proof (edge_count_delete _ _ _ Hi) as Hc.
  assert (length (w_walk w') = size (om_deps m) + length rest ∧ w_seen w' = {[i]} ∪ w_seen w)%nat as [-> ->].
  { destruct (payload (obody op)).
    2: { injection Hs as <-. cbn [w_walk w_seen]. by rewrite length_app length_rev bt_elements_length. }
    all: next_ok Hs as (bytes & _ & Hs); apply bind_ok in Hs as (ws3 & _ & [= <-]);
      cbn [w_walk w_seen]; by rewrite length_app length_rev bt_elements_length. }
  rewrite unseen_insert. lia.
Qed.

Lemma walk_fuel_enough inner ops metas projections t ds ws :
  walk_loop (walk_fuel inner metas ds) inner ops metas projections t
    {| w_workspace := ws; w_known := ∅; w_folded := []; w_grows := 0; w_seen := ∅;
       w_walk := rev (bt_elements ds) |} ≠ None.
Proof.
  apply walk_ends. cbn [w_walk w_seen]. rewrite length_rev bt_elements_length. unfold walk_fuel.
  assert (unseen (metas ∪ l_meta (s_log inner)) ∅ = metas ∪ l_meta (s_log inner)) as ->; [|done].
  apply map_filter_id. set_solver.
Qed.

(** The membership walk ends. Whatever the store, the overlay and the projections
    are, damaged or cyclic ones included, the walk from a frontier pops at most as many
    ids as the frontier and the stored edges have: the fuel it is given suffices. *)
Theorem membership_walk_ends inner ops metas projections t ds ws :
  walk_loop (walk_fuel inner metas ds) inner ops metas projections t
    {| w_workspace := ws; w_known := ∅; w_folded := []; w_grows := 0; w_seen := ∅;
       w_walk := rev (bt_elements ds) |} ≠ None.
Proof. apply walk_fuel_enough. Qed.

(** ** The walk collects the history *)

Section history.
Context inner (overlay_ops : gmap OpId Op) (overlay_meta : gmap OpId (OpMeta C)).
Context (V : history) (t : TopicId) heads state (HV : history_ok V t heads state).
Context (Hreads : ∀ i o m, V i o m →
  op_projected inner overlay_ops i = Ok o ∧ meta_projected inner overlay_meta i = Ok m).
Implicit Types (projections : gmap OpId TopicState) (w : Walk).

(** Known states are those of the history behind one operation. *)
Definition projections_ok projections : Prop :=
  ∀ i s, projections !! i = Some s → member V i ∧ state_at V {[i]} s.

(** What a walk from [ds] has collected. *)
Record walked projections (ds : gset OpId) w : Prop := {
  wk_member : ∀ i, i ∈ w_walk w ∨ i ∈ w_seen w → member V i;
  wk_behind : ∀ i, i ∈ w_walk w ∨ i ∈ w_seen w → behind V ds i;
  wk_start : ∀ d, d ∈ ds → d ∈ w_walk w ∨ d ∈ w_seen w;
  wk_known : ∀ i, i ∈ w_known w ↔ i ∈ w_seen w ∧ is_Some (projections !! i);
  wk_closed : ∀ i d, i ∈ w_seen w → projections !! i = None → depends V i d →
    d ∈ w_walk w ∨ d ∈ w_seen w;
  wk_folded : ∀ op, op ∈ w_folded w ↔ (∀ env, payload (obody op) ≠ Event env) ∧
    op_id op ∈ w_seen w ∧ projections !! op_id op = None ∧ ∃ m, V (op_id op) op m;
}.

(** Membership in the stack and the sets of a walk, by cases. *)
Ltac solve_in :=
  repeat match goal with
  | H : _ ∈ _ :: _ |- _ => apply elem_of_cons in H as [?|?]
  | H : _ ∈ _ ∪ _ |- _ => apply elem_of_union in H as [?|?]
  | H : _ ∈ {[_]} |- _ => apply elem_of_singleton in H
  | H : _ ∨ _ |- _ => destruct H as [?|?]
  end; subst; rewrite ?elem_of_cons ?elem_of_union ?elem_of_singleton; tauto.

Lemma walk_step_ok projections ds w i rest w' :
  w_walk w = i :: rest → walked projections ds w →
  walk_step inner overlay_ops overlay_meta projections t w i rest = Ok w' → walked projections ds w'.
Proof using Hreads HV.
  intros Hw [Hmem Hbeh Hstart Hknown Hclosed Hfold]. unfold walk_step. rewrite Hw in Hmem Hbeh Hstart Hclosed.
  assert (member V i) as Hi by (apply Hmem; left; by left).
  assert (behind V ds i) as Hbi by (apply Hbeh; left; by left).
  destruct (decide (i ∈ w_seen w)) as [Hs|Hs].
  { intros [= <-]. split; cbn [w_walk w_seen w_known w_folded]; try done.
    - intros j Hj. apply Hmem. solve_in.
    - intros j Hj. apply Hbeh. solve_in.
    - intros d Hd. destruct (Hstart d Hd); solve_in.
    - intros j d Hj Hp Hd. destruct (Hclosed j d Hj Hp Hd); solve_in. }
  intros (ws & _ & Hstep)%bind_ok. cbv zeta in Hstep. case_bool_decide as Hp.
  { injection Hstep as <-. split; cbn [w_walk w_seen w_known w_folded].
    - intros j Hj. destruct (decide (j = i)) as [->|]; [done|]. apply Hmem. solve_in.
    - intros j Hj. destruct (decide (j = i)) as [->|]; [done|]. apply Hbeh. solve_in.
    - intros d Hd. destruct (Hstart d Hd); solve_in.
    - intros j. rewrite !elem_of_union Hknown elem_of_singleton. naive_solver.
    - intros j d Hj Hpj Hd. destruct (decide (j = i)) as [->|Hne]; [by rewrite Hpj in Hp; destruct Hp|].
      destruct (Hclosed j d) as [?|?]; [solve_in|done|done|solve_in|solve_in].
    - intros op. rewrite Hfold elem_of_union elem_of_singleton. split; [naive_solver|].
      intros (Hev & [Hj|Hj] & Hpo & He); [|done]. rewrite Hj in Hpo. by rewrite Hpo in Hp; destruct Hp. }
  apply eq_None_not_Some in Hp. destruct Hi as (o & m & He). destruct (Hreads _ _ _ He) as [Ho Hm].
  rewrite Hm Ho in Hstep. cbn [mbind result_bind] in Hstep. destruct (negb _); [done|].
  next_ok Hstep as (ws' & _ & Hstep).
  assert (∀ d, d ∈ om_deps m ↔ depends V i d) as Hdeps.
  { intros d. split; [intros Hd; by exists o, m|]. intros (o' & m' & He' & Hd).
    by destruct (h_fun _ _ _ _ HV _ _ _ _ _ He He') as [-> ->]. }
  assert (w_seen w' = {[i]} ∪ w_seen w ∧ w_walk w' = rev (bt_elements (om_deps m)) ++ rest ∧
    w_known w' = w_known w ∧
    ∀ op, op ∈ w_folded w' ↔ op ∈ w_folded w ∨ op = o ∧ ∀ env, payload (obody o) ≠ Event env)
    as (Hseen' & Hwalk' & Hknown' & Hfold').
  { destruct (payload (obody o)).
    2: { injection Hstep as <-. split_and!; [done..|]. cbn [w_folded]. naive_solver. }
    all: next_ok Hstep as (bytes & _ & Hstep); apply bind_ok in Hstep as (ws3 & _ & [= <-]);
      split_and!; [done..|]; cbn [w_folded]; intros op; rewrite elem_of_app list_elem_of_singleton;
      naive_solver. }
  assert (∀ d, d ∈ w_walk w' ↔ depends V i d ∨ d ∈ rest) as Hwd.
  { intros d. rewrite Hwalk' elem_of_app -(Hdeps d) list_elem_of_In -in_rev -list_elem_of_In.
    by rewrite elem_of_bt_elements. }
  split; rewrite ?Hseen' ?Hknown'.
  - intros j Hj. destruct (decide (j = i)) as [->|Hne]; [by exists o, m|].
    rewrite Hwd in Hj. destruct Hj as [[Hj|Hj]|Hj]; [by apply (depends_member V t heads state HV) in Hj as [_ ?]|..];
      apply Hmem; solve_in.
  - intros j Hj. destruct (decide (j = i)) as [->|Hne]; [done|].
    rewrite Hwd in Hj. destruct Hj as [[Hj|Hj]|Hj]; [by eapply behind_step|..]; apply Hbeh; solve_in.
  - intros d Hd. rewrite Hwd. destruct (Hstart d Hd); solve_in.
  - intros j. rewrite Hknown elem_of_union elem_of_singleton. split; [naive_solver|].
    intros [[->|Hj] Hs']; [by rewrite Hp in Hs'; destruct Hs'|done].
  - intros j d Hj Hpj Hd. rewrite Hwd. destruct (decide (j = i)) as [->|Hne]; [by left; left|].
    destruct (Hclosed j d) as [?|?]; [solve_in|done|done|solve_in|solve_in].
  - intros op. rewrite Hfold' Hfold elem_of_union elem_of_singleton.
    destruct (h_entry _ _ _ _ HV _ _ _ He) as [Hoid _]. split.
    + intros [?|[-> Hev]]; [naive_solver|]. split_and!; [done|by left|congruence|]. exists m. by rewrite Hoid.
    + intros (Hev & [Hj|Hj] & Hpo & m' & He'); [|left; naive_solver]. right.
      rewrite Hj in He'. destruct (h_fun _ _ _ _ HV _ _ _ _ _ He He') as [-> ->]. done.
Qed.

Lemma walk_loop_ok fuel projections ds w w' :
  walked projections ds w →
  walk_loop fuel inner overlay_ops overlay_meta projections t w = Some (Ok w') →
  walked projections ds w' ∧ w_walk w' = [].
Proof using Hreads HV.
  revert w. induction fuel as [|fuel IH]; intros w Hwk; simpl.
  { destruct (w_walk w) eqn:Hw; [|done]. by intros [= <-]. }
  destruct (w_walk w) as [|i rest] eqn:Hw; [by intros [= <-]|].
  destruct (walk_step _ _ _ _ _ _ _ _) as [w1|e] eqn:Hs; [|done]. apply IH. by eapply walk_step_ok.
Qed.

Lemma walk_start_ok projections ds ws :
  (∀ d, d ∈ ds → member V d) →
  walked projections ds {| w_workspace := ws; w_known := ∅; w_folded := []; w_grows := 0;
    w_seen := ∅; w_walk := rev (bt_elements ds) |}.
Proof using Type.
  intros Hds. assert (∀ d, d ∈ rev (bt_elements ds) ↔ d ∈ ds) as Hrev.
  { intros d. by rewrite list_elem_of_In -in_rev -list_elem_of_In elem_of_bt_elements. }
  split; cbn [w_walk w_seen w_known w_folded].
  - intros i [Hi|Hi%elem_of_empty]; [by apply Hds, Hrev|done].
  - intros i [Hi|Hi%elem_of_empty]; [by apply behind_here, Hrev|done].
  - intros d Hd. left. by apply Hrev.
  - intros i. split; [by intros ?%elem_of_empty|by intros [?%elem_of_empty _]].
  - by intros i d ?%elem_of_empty.
  - intros op. split; [by intros ?%elem_of_nil|by intros (_ & ?%elem_of_empty & _)].
Qed.

(** A finished walk has seen every operation behind [ds] that is not behind a known
    one. *)
Lemma walk_done projections ds w i :
  walked projections ds w → w_walk w = [] →
  behind V ds i ↔ (i ∈ w_seen w ∧ projections !! i = None) ∨ behind V (w_known w) i.
Proof using HV.
  intros [Hmem Hbeh Hstart Hknown Hclosed Hfold] Hw. rewrite Hw in Hmem Hbeh Hstart Hclosed. split.
  - intros (d & Hd & Hr). assert (d ∈ w_seen w) as Hs by (by destruct (Hstart d Hd) as [?%elem_of_nil|]). clear Hd.
    induction Hr as [x|x y z Hxy Hyz IH].
    + destruct (projections !! x) eqn:Hp; [right|by left]. apply behind_here. rewrite Hknown. by eauto.
    + destruct (projections !! x) eqn:Hp.
      * right. exists x. split; [rewrite Hknown; by eauto|]. by eapply rtc_l.
      * apply IH. by destruct (Hclosed x y Hs Hp Hxy) as [?%elem_of_nil|].
  - intros [[Hs _]|(k & Hk & Hr)]; [apply Hbeh; by right|]. apply Hknown in Hk as [Hs _].
    destruct (Hbeh k) as (d & Hd & Hdk); [by right|]. exists d. split; [done|]. by eapply rtc_trans.
Qed.

(** ** The state the walk returns *)

(** All genesis operations of a history are one. *)
Lemma one_genesis i o m j o' m' :
  V i o m → V j o' m' → is_genesis o = true → is_genesis o' = true → o = o'.
Proof using HV.
  intros Hi Hj Hg Hg'. pose proof (h_state _ _ _ _ HV) as Hst. destruct state as [s|].
  - destruct Hst as (_ & _ & Hall). destruct (Hall _ _ _ Hi) as [Hii _], (Hall _ _ _ Hj) as [Hjj _].
    rewrite (Hii Hg) in Hi. rewrite (Hjj Hg') in Hj. by destruct (h_fun _ _ _ _ HV _ _ _ _ _ Hi Hj).
  - destruct (Hst i). by exists o, m.
Qed.

Lemma genesis_is_genesis op g : payload (obody op) = Genesis g → is_genesis op = true.
Proof using Type. unfold is_genesis. by intros ->. Qed.

(** Folding controls into a state of [ops] gives the state of all of them. *)
Lemma fold_controls_ok (folded ops : list Op) gop g s s' :
  state_spec ops gop g s → try_fold fold_control s folded = Ok s' →
  state_spec (ops ++ folded) gop g s'.
Proof using Type.
  revert ops s. induction folded as [|op folded IH]; intros ops s Hs; simpl.
  { intros [= <-]. by rewrite app_nil_r. }
  destruct (fold_control s op) as [s1|e] eqn:Hf; [|done]. intros Hrest.
  rewrite (app_assoc ops [op] folded). refine (IH (ops ++ [op]) s1 _ Hrest).
  unfold fold_control in Hf. destruct (payload (obody op)) as [g'|env|c] eqn:Hpl.
  - case_decide; [|done]. injection Hf as <-. apply state_spec_event; [done|]. intros c. by rewrite Hpl.
  - injection Hf as <-. apply state_spec_event; [done|]. intros c. by rewrite Hpl.
  - injection Hf as <-. by apply state_spec_control.
Qed.

(** The known states, merged, are the state of what is behind them. *)
Lemma known_state projections (known : gset OpId) s :
  projections_ok projections → (∀ i, i ∈ known → is_Some (projections !! i)) → known ≠ ∅ →
  merge_states ptr_eq known projections = Ok s →
  ∃ ops gop g, causal V known ops ∧ gop ∈ ops ∧ payload (obody gop) = Genesis g ∧
    state_spec ops gop g s.
Proof using HV.
  intros Hproj Hknown Hne Hmerge.
  assert (∃ gop g, ∀ i, i ∈ known → ∃ s ops, projections !! i = Some s ∧ causal V {[i]} ops ∧
    gop ∈ ops ∧ payload (obody gop) = Genesis g ∧ state_spec ops gop g s) as (gop & g & Hall).
  { destruct (set_choose_L known Hne) as [i0 Hi0]. destruct (Hknown i0 Hi0) as [s0 Hs0].
    destruct (Hproj i0 s0 Hs0) as [_ (ops0 & Hc0 & gop & g & Hin0 & Hpl & _)]. exists gop, g.
    intros i Hi. destruct (Hknown i Hi) as [s1 Hs1].
    destruct (Hproj i s1 Hs1) as [_ (ops & Hc & gop' & g' & Hin & Hpl' & Hspec)].
    apply Hc0 in Hin0 as (m0 & Hm0 & _). pose proof (proj1 (Hc gop') Hin) as (m & Hm & _).
    assert (gop' = gop) as -> by (eapply one_genesis; eauto using genesis_is_genesis).
    assert (g' = g) as -> by congruence. by exists s1, ops. }
  destruct (finite_choice known (λ i ops, ∃ s, projections !! i = Some s ∧ causal V {[i]} ops ∧
    gop ∈ ops ∧ payload (obody gop) = Genesis g ∧ state_spec ops gop g s) []) as [hist Hhist].
  { intros i Hi. destruct (Hall i Hi) as (s1 & ops & ?). by exists ops, s1. }
  destruct (merge_states_spec ptr_eq ptr_eq_sound known projections hist gop g) as (s' & Hs' & Hspec);
    [done| |].
  { intros d Hd. destruct (Hhist d Hd) as (s1 & ? & _ & _ & _ & ?). by exists s1. }
  rewrite Hs' in Hmerge. injection Hmerge as <-.
  exists (mjoin (hist <$> bt_elements known)), gop, g.
  assert (∀ op, op ∈ mjoin (hist <$> bt_elements known) ↔ ∃ i, i ∈ known ∧ op ∈ hist i) as Hjoin.
  { intros op. rewrite list_elem_of_join. setoid_rewrite list_elem_of_fmap.
    setoid_rewrite elem_of_bt_elements. split.
    - intros (l & Hop & (i & -> & Hi)). by exists i.
    - intros (i & Hi & Hop). exists (hist i). split; [done|]. by exists i. }
  split_and!; [| |destruct (set_choose_L known Hne) as [i Hi]; by destruct (Hhist i Hi) as (?&?&?&?&?&?)|done].
  - intros op. rewrite Hjoin. unfold behind. split.
    + intros (i & Hi & Hop). destruct (Hhist i Hi) as (_ & _ & Hc & _).
      apply Hc in Hop as (m & Hm & (d & ->%elem_of_singleton & Hr)). exists m. split; [done|]. by exists i.
    + intros (m & Hm & (i & Hi & Hr)). exists i. split; [done|].
      destruct (Hhist i Hi) as (_ & _ & Hc & _). apply Hc. exists m. split; [done|].
      exists i. split; [by apply elem_of_singleton|done].
  - apply Hjoin. destruct (set_choose_L known Hne) as [i Hi]. exists i. split; [done|].
    by destruct (Hhist i Hi) as (?&?&?&?&?&?).
Qed.

(** A finished walk yields the state of exactly the operations behind [ds]. *)
Lemma walk_state_ok projections ds w s :
  projections_ok projections → (∀ d, d ∈ ds → member V d) →
  walked projections ds w → w_walk w = [] → walk_state projections w = Ok s → state_at V ds s.
Proof using HV.
  intros Hproj Hds Hwk Hnil Hs. destruct (causal_exists V t heads state HV ds Hds) as [ops Hops].
  exists ops. split; [done|]. pose proof (λ i, walk_done projections ds w i Hwk Hnil) as Hdone.
  unfold walk_state in Hs. destruct (decide (w_known w = ∅)) as [Hk|Hk].
  - next_ok Hs as (ws & _ & Hs). apply materialize_sound in Hs as (gop & g & Hin & Hpl & _ & _ & _ & Hspec).
    apply (state_of_controls (w_folded w)); [|by exists gop, g]. intros op Hev.
    rewrite (wk_folded _ _ _ Hwk) (Hops op). setoid_rewrite Hdone. rewrite Hk. split.
    + intros (_ & Hseen & Hp & m & Hm). exists m. split; [done|]. by left.
    + intros (m & Hm & [[Hseen Hp]|(k & ?%elem_of_empty & _)]); [|done]. split_and!; [done..|]. by exists m.
  - next_ok Hs as (ws & _ & Hs). next_ok Hs as (s0 & Hmerge & Hs).
    destruct (known_state projections (w_known w) s0) as (kops & gop & g & Hc & Hin & Hpl & Hspec);
      [done| |done|done|].
    { intros i Hi. by apply (wk_known _ _ _ Hwk) in Hi as [_ ?]. }
    apply (state_of_controls (kops ++ w_folded w)).
    2: { exists gop, g. split_and!; [by apply elem_of_app; left|done|]. by eapply fold_controls_ok. }
    intros op Hev. rewrite elem_of_app (Hc op) (wk_folded _ _ _ Hwk) (Hops op). setoid_rewrite Hdone. split.
    + intros [(m & Hm & Hb)|(_ & Hseen & Hp & m & Hm)]; exists m; (split; [done|]); [by right|by left].
    + intros (m & Hm & [[Hseen Hp]|Hb]); [right|left; by exists m]. split_and!; [done..|]. by exists m.
Qed.

Lemma delete_all_lookup {A} (l : list OpId) (m : gmap OpId A) i x :
  foldl (λ m i, delete i m) m l !! i = Some x → m !! i = Some x.
Proof using Type.
  revert m. induction l as [|j l IH]; intros m; [done|]. simpl. intros Hx%IH.
  by apply lookup_delete_Some in Hx as [_ ?].
Qed.

Lemma keep_projection_ok projections (ds known : gset OpId) s :
  projections_ok projections → (∀ d, d ∈ ds → member V d) → state_at V ds s →
  projections_ok (keep_projection projections ds known s).
Proof using Type.
  intros Hproj Hds Hs. unfold keep_projection. destruct (bt_elements ds) as [|dep [|]] eqn:Hel; [done| |done].
  assert (ds = {[dep]}) as ->.
  { apply set_eq. intros x. by rewrite -elem_of_bt_elements Hel list_elem_of_singleton elem_of_singleton. }
  assert (projections_ok (foldl (λ m i, delete i m) projections (bt_elements known))) as Hrest
    by by intros i x ?%delete_all_lookup%Hproj.
  destruct (_ <=? _); [|done]. intros i x [[<- <-]|[_ Hx]]%lookup_insert_Some; [|by apply Hrest].
  split; [apply Hds; by apply elem_of_singleton|done].
Qed.

(** Projecting to a frontier yields its state and keeps the projections right. *)
Lemma project_membership_ok projections ds s projections' :
  projections_ok projections → (∀ d, d ∈ ds → member V d) →
  project_membership inner t ds overlay_ops overlay_meta projections = Ok (s, projections') →
  state_at V ds s ∧ projections_ok projections'.
Proof using HV Hreads.
  intros Hproj Hds. unfold project_membership.
  destruct (match bt_elements ds with [dep] => projections !! dep | _ => None end) as [s0|] eqn:Hhit.
  { intros [= <- <-]. split; [|done]. destruct (bt_elements ds) as [|dep [|]] eqn:Hel; [done| |done].
    assert (ds = {[dep]}) as ->; [|by apply Hproj].
    apply set_eq. intros x. by rewrite -elem_of_bt_elements Hel list_elem_of_singleton elem_of_singleton. }
  intros (ws & _ & H1)%bind_ok. next_ok H1 as (w & Hw & H1).
  destruct (walk_loop _ _ _ _ _ _ _) as [[w'|e]|] eqn:Hloop; simpl in Hw; [|done..]. injection Hw as ->.
  apply bind_ok in H1 as (s' & Hs & [= <- <-]).
  apply (walk_loop_ok _ _ ds) in Hloop as [Hwk Hnil]; [|by apply walk_start_ok].
  assert (state_at V ds s') as Hat by by eapply walk_state_ok. split; [done|]. by apply keep_projection_ok.
Qed.

(** C15: a projected membership is the one of the causal past. For dependencies in
    a history that the reads through the overlay return, projecting yields the topic
    state that all operations at and behind them determine, whichever known projections
    it stopped at, and every projection it keeps is again the state of the past of its
    operation. *)
Theorem projection_exact projections ds s projections' :
  projections_ok projections → (∀ d, d ∈ ds → member V d) →
  project_membership inner t ds overlay_ops overlay_meta projections = Ok (s, projections') →
  state_at V ds s ∧ projections_ok projections'.
Proof using HV Hreads. apply project_membership_ok. Qed.
End history.
End projection.
