(* ===== verification/Building.v ===== *)
(** * Building a batch

    The loop of [build_batch] against a consistent store whose topic holds a causal
    history: what it accepts extends that history, one valid entry after the other,
    and the batch it returns passes every check of the store it was built for. *)

From stdpp Require Import relations.
From S2P Require Import Prelude Ids Frame ClockSpec Types Membership Topology.
From S2P Require Import Evidence Records Pool Store StoreLog StoreAdmit.
From S2P Require Import Admission Dag Projection.

#[local] Open Scope N_scope.

Section building.
Context {C : Type} `{!ClockImpl C} `{!StoreEnv C} `{!Crypto} `{!OplogEnv}.

Abbreviation ids l := ((λ e : Op * OpMeta C, op_id e.1) <$> l).

(** [E] and the entries of a batch. *)
Definition with_entries (E : history (C := C)) (l : list (Op * OpMeta C)) : history :=
  λ i o m, E i o m ∨ ((o, m) ∈ l ∧ op_id o = i).

(** The store [base] a batch for [t] goes to: the one it is built from, or one in which
    a reset removed the topic. *)
Record base_for (inner base : MemoryInner C) (t : TopicId) (reset : bool) : Prop := {
  bf_ok : store_ok base;
  bf_same : reset = false → base = inner;
  bf_reset : reset = true → ∀ i, ¬ member (entries_of (s_log base) t) i;
}.

Section loop.
Context (inner base : MemoryInner C) (t : TopicId) (reset : bool).
Context (Hbase : base_for inner base t reset).
Implicit Types (l : list (Op * OpMeta C)) (bs : BuildState (C := C)) (op : Op).

Abbreviation E0 := (entries_of (s_log base) t).
Abbreviation V l := (with_entries E0 l).

(** The tip of an actor in a history. *)
Definition is_tip (E : history (C := C)) (a : ActorId) (tip : option (N * OpId)) : Prop :=
  match tip with
  | Some (s, i) => (∃ o m, E i o m ∧ om_actor_id m = a ∧ om_actor_seq m = s) ∧
      ∀ j o m, E j o m → om_actor_id m = a → om_actor_seq m ≤ s
  | None => ∀ j o m, E j o m → om_actor_id m ≠ a
  end.

(** What holds of the local variables after the entries [l] were accepted. *)
Record building (l : list (Op * OpMeta C)) (bs : BuildState) : Prop := {
  bd_ids : NoDup (ids l);
  bd_admitted : bs_admitted bs = ids l;
  bd_accepted : bs_accepted bs = list_to_set (ids l);
  bd_ops : ∀ i o, bs_ops bs !! i = Some o ↔ ∃ m, (o, m) ∈ l ∧ op_id o = i;
  bd_meta : ∀ i m, bs_meta bs !! i = Some m ↔ ∃ o, (o, m) ∈ l ∧ op_id o = i;
  bd_fresh : ∀ o m, (o, m) ∈ l → l_meta (s_log base) !! op_id o = None;
  bd_history : history_ok (V l) t (bs_heads bs) (bs_state bs);
  bd_index : ∀ a s i, bs_index bs !! (t, a, s) = Some i ↔
    ∃ o m, (o, m) ∈ l ∧ op_id o = i ∧ om_actor_id m = a ∧ om_actor_seq m = s;
  bd_tip : ∀ a, is_tip (V l) a
    (match bs_tips bs !! (t, a) with
     | Some tip => Some tip | None => l_actor_tip (s_log base) !! (t, a) end);
  bd_scan : try_fold (scan_entry base t) (∅, []) l = Ok (bs_tips bs, l);
  bd_projections : projections_ok (V l) (bs_projections bs);
}.

(** ** The history of the store *)

Lemma entry_stored i m :
  l_meta (s_log base) !! i = Some m → om_topic_id m = t → member E0 i.
Proof using Hbase.
  intros Hm Ht. assert (is_Some (l_ops (s_log base) !! i)) as [o Ho].
  { rewrite -elem_of_dom (lo_dom _ (so_log _ (bf_ok _ _ _ _ Hbase))). apply elem_of_dom. by eexists. }
  by exists o, m.
Qed.

Lemma base_tip a : is_tip E0 a (l_actor_tip (s_log base) !! (t, a)).
Proof using Hbase.
  pose proof (so_log _ (bf_ok _ _ _ _ Hbase)) as Hlog. pose proof (lo_tip _ Hlog t a) as Htip.
  assert (∀ j o m, E0 j o m → om_actor_id m = a →
    l_actor_by_seq (s_log base) !! (t, a, om_actor_seq m) = Some j) as Hseq.
  { intros j o m (_ & Hm & Ht) Ha. apply (lo_seq _ Hlog). by exists m. }
  destruct (l_actor_tip (s_log base) !! (t, a)) as [[s i]|]; simpl.
  - destruct Htip as [Hi Hall]. split.
    + apply (lo_seq _ Hlog) in Hi as (m & Hm & Ht & Ha & Hs).
      destruct (entry_stored i m Hm Ht) as (o & m' & He). pose proof He as (_ & Hm' & _).
      rewrite Hm in Hm'. injection Hm' as <-. by exists o, m.
    + intros j o m He Ha. apply (Hall (om_actor_seq m)). by eexists; eapply Hseq.
  - intros j o m He Ha. pose proof (Hseq j o m He Ha) as Hj. by rewrite Htip in Hj.
Qed.

(** ** Reads through the overlay *)

Lemma reads_virtual l bs i o m :
  building l bs → V l i o m →
  op_projected inner (bs_ops bs) i = Ok o ∧ meta_projected inner (bs_meta bs) i = Ok m.
Proof using Hbase.
  intros Hb [(Ho & Hm & Ht)|[Hin <-]].
  - assert (reset = false) as Hr.
    { destruct reset eqn:Hr; [|done]. destruct (bf_reset _ _ _ _ Hbase eq_refl i). by exists o, m. }
    rewrite (bf_same _ _ _ _ Hbase Hr) in Ho Hm.
    assert (bs_ops bs !! i = None) as Hno.
    { destruct (bs_ops bs !! i) as [o'|] eqn:Ho'; [|done]. apply (bd_ops _ _ Hb) in Ho' as (m' & Hin & <-).
      pose proof (bd_fresh _ _ Hb _ _ Hin) as Hf. rewrite (bf_same _ _ _ _ Hbase Hr) in Hf. congruence. }
    assert (bs_meta bs !! i = None) as Hnm.
    { destruct (bs_meta bs !! i) as [m'|] eqn:Hm'; [|done]. apply (bd_meta _ _ Hb) in Hm' as (o' & Hin & <-).
      pose proof (bd_fresh _ _ Hb _ _ Hin) as Hf. rewrite (bf_same _ _ _ _ Hbase Hr) in Hf. congruence. }
    unfold op_projected, meta_projected. by rewrite Hno Hnm Ho Hm.
  - unfold op_projected, meta_projected.
    rewrite (proj2 (bd_ops _ _ Hb (op_id o) o)); [by exists m|].
    by rewrite (proj2 (bd_meta _ _ Hb (op_id o) m)); [by exists o|].
Qed.

Lemma header_virtual l bs i o m :
  building l bs → V l i o m → header_projected inner (bs_meta bs) i = Ok (header_of m).
Proof using Hbase.
  intros Hb He. destruct (reads_virtual l bs i o m Hb He) as [_ Hm]. unfold header_projected, meta_projected in *.
  destruct (bs_meta bs !! i); [by injection Hm as ->|]. apply ok_or_ok in Hm. by rewrite Hm.
Qed.

Lemma observation_virtual l bs i o m :
  building l bs → V l i o m →
  observation_projected inner (bs_meta bs) i = Ok (header_of m, om_observed_clock m).
Proof using Hbase.
  intros Hb He. destruct (reads_virtual l bs i o m Hb He) as [_ Hm].
  unfold observation_projected, meta_projected in *.
  destruct (bs_meta bs !! i); [by injection Hm as ->|]. apply ok_or_ok in Hm. by rewrite Hm.
Qed.

(** A dependency that is not missing and lies in the topic is part of the history. *)
Lemma present_dep l bs op d hd ck :
  building l bs → missing_deps_projected inner op (bs_ops bs) reset = ∅ → d ∈ deps (obody op) →
  observation_projected inner (bs_meta bs) d = Ok (hd, ck) → hd_topic_id hd = t → member (V l) d.
Proof using Hbase.
  intros Hb Hmiss Hd Hobs Ht. unfold observation_projected in Hobs.
  destruct (bs_meta bs !! d) as [m|] eqn:Hm.
  { apply (bd_meta _ _ Hb) in Hm as (o & Hin & <-). exists o, m. by right. }
  assert (bs_ops bs !! d = None) as Hno.
  { destruct (bs_ops bs !! d) as [o|] eqn:Ho; [|done]. apply (bd_ops _ _ Hb) in Ho as (m & Hin & <-).
    assert (bs_meta bs !! op_id o = Some m) by (apply (bd_meta _ _ Hb); by exists o). congruence. }
  assert (reset = false) as Hr.
  { destruct reset eqn:Hr; [|done]. exfalso. apply (not_elem_of_empty (C := gset OpId) d).
    rewrite -Hmiss. apply elem_of_filter. by split. }
  apply ok_or_ok, fmap_Some in Hobs as (m & Hm' & [= -> ->]).
  rewrite -(bf_same _ _ _ _ Hbase Hr) in Hm'. destruct (entry_stored d m Hm' Ht) as (o & m' & He).
  exists o, m'. by left.
Qed.

(** ** Generations and clocks *)

Lemma next_generation_ok l bs (ds : gset OpId) g :
  building l bs → (∀ d, d ∈ ds → member (V l) d) → next_generation inner (bs_meta bs) ds = Ok g →
  (∀ d o m, d ∈ ds → V l d o m → om_generation m < g) ∧ (ds = ∅ → g = 0) ∧
  (ds ≠ ∅ → ∃ d o m, d ∈ ds ∧ V l d o m ∧ g = om_generation m + 1).
Proof using Hbase.
  intros Hb Hds Hg. pose proof (bd_history _ _ Hb) as HV.
  apply generation_after_set. revert Hg.
  apply (try_fold_inv_prefix (generation_after (V l))); [|apply generation_after_nil].
  intros pre d rest g1 g2 Hsplit Hpre Hstep.
  assert (d ∈ ds) as Hd by (apply elem_of_bt_elements; rewrite Hsplit; set_solver).
  destruct (Hds d Hd) as (o & m & He). rewrite (header_virtual l bs d o m Hb He) in Hstep.
  next_ok Hstep as (? & [= <-] & Hstep). apply bind_ok in Hstep as (n & Hn & [= <-]).
  apply ok_or_ok, checked_add_Some in Hn as [-> _]. by eapply generation_after_snoc.
Qed.

Lemma observe_deps_ok l bs op meta :
  building l bs → missing_deps_projected inner op (bs_ops bs) reset = ∅ →
  topic_id (obody op) = t → meta_for_projected inner (bs_meta bs) op = Ok meta →
  (∀ d, d ∈ deps (obody op) → member (V l) d) ∧
  (∀ a s, 1 ≤ s → s ≤ ck_get (om_observed_clock meta) a ↔
    ∃ d, d ∈ deps (obody op) ∧ counts (V l) d a s) ∧
  om_topic_id meta = t ∧ meta_matches op meta = true.
Proof using Hbase.
  intros Hb Hmiss Ht Hmeta. pose proof (bd_history _ _ Hb) as HV. unfold meta_for_projected in Hmeta.
  apply bind_ok in Hmeta as (clock & Hfold & [= <-]). cbn [om_topic_id om_observed_clock].
  assert (clock_after (V l) (bt_elements (deps (obody op))) clock) as [Hmem Hck].
  { revert Hfold. apply (try_fold_inv_prefix (clock_after (V l))); [|apply clock_after_nil].
    intros pre d rest c1 c2 Hsplit Hpre Hstep. unfold observe_dep in Hstep. rewrite Ht in Hstep.
    next_ok Hstep as ([hd ck] & Hobs & Hstep). cbv beta iota in Hstep.
    case_bool_decide as Htd; [|done]. simpl in Hstep. injection Hstep as <-.
    assert (d ∈ deps (obody op)) as Hd by (apply elem_of_bt_elements; rewrite Hsplit; set_solver).
    pose proof (present_dep l bs op d hd ck Hb Hmiss Hd Hobs Htd) as (o & m & He).
    rewrite (observation_virtual l bs d o m Hb He) in Hobs. injection Hobs as <- <-.
    by eapply clock_after_snoc. }
  split_and!; [| |done|by apply meta_matches_true].
  - intros d Hd. by apply Hmem, elem_of_bt_elements.
  - intros a s Hs. rewrite Hck //. by setoid_rewrite elem_of_bt_elements.
Qed.

(** ** Authorization *)

(** The shortcut of [covers_controls]: the dependencies have every winning control of
    the current state behind them. *)
Lemma covers_controls_ok l bs op meta s :
  building l bs → missing_deps_projected inner op (bs_ops bs) reset = ∅ →
  topic_id (obody op) = t → meta_for_projected inner (bs_meta bs) op = Ok meta →
  bs_state bs = Some s → covers_controls inner op s (bs_meta bs) = Ok true →
  state_at (V l) (deps (obody op)) s.
Proof using Hbase.
  intros Hb Hmiss Ht Hmeta Hs Hcov. pose proof (bd_history _ _ Hb) as HV.
  destruct (observe_deps_ok l bs op meta Hb Hmiss Ht Hmeta) as (Hdeps & Hck & _).
  unfold covers_controls in Hcov. destruct (decide (deps (obody op) = ∅)) as [|Hne]; [done|].
  rewrite Hmeta in Hcov. cbn [mbind result_bind] in Hcov. injection Hcov as Hcov.
  rewrite forallb_forall in Hcov.
  assert (∀ key, (∃ p b, ts_membership_controls s !! p = Some (key, b)) ∨
      (∃ r, ts_replication_policy_control s = Some (key, r)) →
    ck_actor_seq key ≤ ck_get (om_observed_clock meta) (ck_actor_id key)) as Hkeys.
  { intros key Hkey. apply N.leb_le, Hcov, list_elem_of_In, elem_of_app.
    destruct Hkey as [(p & b & Hp)|(r & Hr)].
    - left. apply list_elem_of_fmap. exists (p, (key, b)). split; [done|]. by apply elem_of_bt_entries.
    - right. rewrite Hr. by apply list_elem_of_singleton. }
  eapply (covered_state (V l) t _ _ HV); [done..|]. intros key i o m Hkey He Ha Hseq.
  pose proof (Hkeys key Hkey) as Hle. rewrite -Ha -Hseq in Hle.
  apply Hck in Hle as (d & Hd & od & md & Hed & Hc); [|by eapply (seq_positive (V l) t _ _ HV)].
  exists d. split; [done|]. destruct Hc as [Hc|[Had Hc]].
  - apply (clock_counts (V l) t _ _ HV d od md i o m Hed He) in Hc as (e & Hde & Hr). by eapply rtc_l.
  - by eapply (chain_behind (V l) t _ _ HV).
Qed.

Lemma author_is_member_ok l bs op meta s projections' :
  building l bs → missing_deps_projected inner op (bs_ops bs) reset = ∅ →
  topic_id (obody op) = t → meta_for_projected inner (bs_meta bs) op = Ok meta →
  bs_state bs = Some s →
  author_is_member inner (overlay_of bs reset) op (bs_heads bs) s (bs_projections bs) =
    Ok (true, projections') →
  projections_ok (V l) projections' ∧ deps (obody op) ≠ ∅ ∧
  ∃ s', state_at (V l) (deps (obody op)) s' ∧ author (obody op) ∈ ts_members s'.
Proof using Hbase.
  intros Hb Hmiss Ht Hmeta Hs. pose proof (bd_history _ _ Hb) as HV.
  destruct (observe_deps_ok l bs op meta Hb Hmiss Ht Hmeta) as (Hdeps & _).
  assert (∀ s', state_at (V l) (deps (obody op)) s' → deps (obody op) ≠ ∅) as Hne.
  { intros s' (ops & Hc & gop & g & Hin & _) Hempty. apply Hc in Hin as (m & _ & (d & Hd & _)).
    rewrite Hempty in Hd. by apply elem_of_empty in Hd. }
  unfold author_is_member. cbn [overlay_of bo_ops bo_meta]. intros (covered & Hcov & Hrest)%bind_ok.
  destruct covered.
  - injection Hrest as Hin <-. apply bool_decide_eq_true in Hin.
    assert (state_at (V l) (deps (obody op)) s) as Hat.
    { case_bool_decide as Hh; [|by eapply covers_controls_ok]. rewrite Hh.
      by apply (heads_state (V l) t _ _ HV). }
    split_and!; [apply Hb|by eapply Hne|by exists s].
  - next_ok Hrest as ([s' p'] & Hproj & Hrest). injection Hrest as Hin <-.
    apply bool_decide_eq_true in Hin. rewrite Ht in Hproj.
    eapply (project_membership_ok inner _ _ (V l) t _ _ HV) in Hproj as [Hat Hp]; [| |apply Hb|done].
    + split_and!; [done|by eapply Hne|by exists s'].
    + intros i o m. by apply reads_virtual.
Qed.

(** What passes [authorize] is a genesis of a fresh topic or comes from a member. *)
Lemma authorize_ok l bs op meta projections' state' changed :
  building l bs → missing_deps_projected inner op (bs_ops bs) reset = ∅ →
  topic_id (obody op) = t → meta_for_projected inner (bs_meta bs) op = Ok meta →
  authorize inner (overlay_of bs reset) op (bs_heads bs) (bs_state bs) (bs_projections bs) =
    Ok projections' →
  next_state t op (bs_state bs) = Ok (state', changed) →
  projections_ok (V l) projections' ∧
  (is_genesis op = true ↔ deps (obody op) = ∅) ∧
  (is_genesis op = false →
    ∃ s, state_at (V l) (deps (obody op)) s ∧ author (obody op) ∈ ts_members s) ∧
  state_follows t op (bs_state bs) state' ∧ (changed = false → state' = bs_state bs).
Proof using Hbase.
  intros Hb Hmiss Ht Hmeta Hauth Hnext. unfold authorize in Hauth. unfold next_state in Hnext.
  unfold state_follows, is_genesis.
  destruct (payload (obody op)) as [g|env|c] eqn:Hpl.
  - destruct (_ || _) eqn:Hbad; [done|]. injection Hauth as <-. injection Hnext as <- <-.
    apply orb_false_iff in Hbad as [Hbad Hst]. apply orb_false_iff in Hbad as [Hbad _].
    apply orb_false_iff in Hbad as [_ Hd]. apply negb_false_iff, bool_decide_eq_true in Hd.
    apply bool_decide_eq_false, eq_None_not_Some in Hst. split_and!; [apply Hb|done..].
  - next_ok Hauth as (s & Hs%ok_or_ok & Hauth). next_ok Hauth as (? & Hty & Hauth).
    next_ok Hauth as ([member p'] & Hmem & Hauth). destruct member; [|done]. injection Hauth as <-.
    destruct (author_is_member_ok l bs op meta s p' Hb Hmiss Ht Hmeta Hs Hmem) as (Hp & Hne & Hat).
    injection Hnext as <- <-. split_and!; [done|done|done| |done]. exists s. split_and!; [done..|].
    unfold ensure_event_type in Hty. by case_decide.
  - next_ok Hauth as (s & Hs%ok_or_ok & Hauth).
    next_ok Hauth as ([member p'] & Hmem & Hauth). destruct member; [|done]. injection Hauth as <-.
    destruct (author_is_member_ok l bs op meta s p' Hb Hmiss Ht Hmeta Hs Hmem) as (Hp & Hne & Hat).
    rewrite Hs in Hnext. injection Hnext as <- <-. split_and!; try done. by exists s.
Qed.

(** Whatever the verdict, the projections stay right. *)
Lemma author_projections_ok l bs op s b projections' :
  building l bs → missing_deps_projected inner op (bs_ops bs) reset = ∅ →
  topic_id (obody op) = t →
  author_is_member inner (overlay_of bs reset) op (bs_heads bs) s (bs_projections bs) =
    Ok (b, projections') → projections_ok (V l) projections'.
Proof using Hbase.
  intros Hb Hmiss Ht. pose proof (bd_history _ _ Hb) as HV.
  unfold author_is_member. cbn [overlay_of bo_ops bo_meta]. intros (covered & Hcov & Hrest)%bind_ok.
  destruct covered; [injection Hrest as _ <-; apply Hb|].
  next_ok Hrest as ([s' p'] & Hproj & Hrest). injection Hrest as _ <-. rewrite Ht in Hproj.
  eapply (project_membership_ok inner _ _ (V l) t _ _ HV) in Hproj as [_ Hp]; [done| |apply Hb|].
  { intros i o m. by apply reads_virtual. }
  case_bool_decide; [done|]. unfold covers_controls in Hcov. destruct (decide (deps (obody op) = ∅)) as [Hd|Hd].
  { rewrite Hd. by intros d ?%elem_of_empty. }
  apply bind_ok in Hcov as (meta & Hmeta & _). by eapply observe_deps_ok.
Qed.

Lemma authorize_projections_ok l bs op projections' :
  building l bs → missing_deps_projected inner op (bs_ops bs) reset = ∅ →
  topic_id (obody op) = t →
  authorize inner (overlay_of bs reset) op (bs_heads bs) (bs_state bs) (bs_projections bs) =
    Ok projections' → projections_ok (V l) projections'.
Proof using Hbase.
  intros Hb Hmiss Ht. unfold authorize. destruct (payload (obody op)) as [g|env|c].
  - destruct (_ || _); [done|]. intros [= <-]. apply Hb.
  - intros (s & _ & Ha)%bind_ok. skip_ok Ha.
    next_ok Ha as ([b p'] & Hm & Ha). destruct b; [|done]. injection Ha as <-.
    by eapply author_projections_ok.
  - intros (s & _ & Ha)%bind_ok. next_ok Ha as ([b p'] & Hm & Ha). destruct b; [|done].
    injection Ha as <-. by eapply author_projections_ok.
Qed.

(** ** Positions *)

Lemma expected_tip_ok l bs op :
  building l bs → topic_id (obody op) = t →
  is_tip (V l) (actor_id (obody op)) (expected_tip inner (overlay_of bs reset) (obody op)) ∧
  expected_tip inner (overlay_of bs reset) (obody op) =
    match bs_tips bs !! (t, actor_id (obody op)) with
    | Some tip => Some tip | None => l_actor_tip (s_log base) !! (t, actor_id (obody op)) end.
Proof using Hbase.
  intros Hb Ht.
  assert (expected_tip inner (overlay_of bs reset) (obody op) =
    match bs_tips bs !! (t, actor_id (obody op)) with
    | Some tip => Some tip | None => l_actor_tip (s_log base) !! (t, actor_id (obody op)) end) as Heq;
    [|split; [rewrite Heq; by apply bd_tip|done]].
  unfold expected_tip, stored_actor_tip. cbn [overlay_of bo_tips bo_reset]. rewrite Ht.
  pose proof (base_tip (actor_id (obody op))) as Htip.
  destruct (bs_tips bs !! _); [done|]. destruct reset eqn:Hr.
  - destruct (l_actor_tip (s_log base) !! _) as [[s i]|]; [|done].
    destruct Htip as [(o & m & He & _) _]. destruct (bf_reset _ _ _ _ Hbase eq_refl i). by exists o, m.
  - by rewrite (bf_same _ _ _ _ Hbase eq_refl).
Qed.

(** What [validate_position] establishes. *)
Lemma validate_position_ok l bs op :
  building l bs → topic_id (obody op) = t → (∀ d, d ∈ deps (obody op) → member (V l) d) →
  validate_position inner (overlay_of bs reset) op = Ok Admit →
  (∃ tip, expected_tip inner (overlay_of bs reset) (obody op) = tip ∧
    match tip with
    | Some (s, i) => actor_seq (obody op) = s + 1 ∧ s + 1 ≤ u64_max ∧ actor_prev (obody op) = Some i
    | None => actor_seq (obody op) = 1 ∧ actor_prev (obody op) = None
    end) ∧
  next_generation inner (bs_meta bs) (deps (obody op)) = Ok (generation (obody op)).
Proof using Type.
  intros Hb Ht Hdeps. unfold validate_position. intros ([seq prev] & Hpos & Hrest)%bind_ok.
  destruct (N.eqb_spec (actor_seq (obody op)) seq) as [Hseq|]; cbn [negb] in Hrest;
    [|by destruct (_ && _)].
  case_bool_decide as Hprev; [|done]. cbn [negb] in Hrest. next_ok Hrest as (g & Hg & Hrest).
  destruct (N.eqb_spec (generation (obody op)) g) as [Hgen|]; [|done]. rewrite Hgen. split; [|done].
  eexists. split; [done|]. unfold next_actor_position in Hpos.
  destruct (expected_tip _ _ _) as [[s i]|]; [|by injection Hpos as <- <-].
  apply bind_ok in Hpos as (n & Hn%ok_or_ok%checked_add_Some & [= <- <-]). by destruct Hn as [-> ?].
Qed.

(** ** An accepted operation *)

(** The entry continues the chain that ends in [tip]. *)
Definition continues (tip : option (N * OpId)) (meta : OpMeta C) : Prop :=
  match tip with
  | Some (s, i) => om_actor_seq meta = s + 1 ∧ s + 1 ≤ u64_max ∧ om_actor_prev meta = Some i
  | None => om_actor_seq meta = 1 ∧ om_actor_prev meta = None
  end.

Lemma validate_admit_inv bs op projections' :
  validate_op_projected inner (overlay_of bs reset) op (bs_heads bs) (bs_state bs) (bs_projections bs) =
    Ok (Admit, projections') →
  (∀ p, actor_prev (obody op) = Some p → p ∈ deps (obody op)) ∧
  actor_id (obody op) = actor_id_for (topic_id (obody op)) (author (obody op)) ∧
  authorize inner (overlay_of bs reset) op (bs_heads bs) (bs_state bs) (bs_projections bs) =
    Ok projections' ∧
  validate_position inner (overlay_of bs reset) op = Ok Admit.
Proof using Type.
  unfold validate_op_projected. case_bool_decide as Ha; [|done]. cbn [negb].
  destruct (match actor_prev (obody op) with Some _ => _ | None => _ end) eqn:Hprev; [done|].
  intros (dup & _ & Hrest)%bind_ok. destruct dup; [done|].
  next_ok Hrest as (p' & Hauth & Hrest). next_ok Hrest as (v & Hpos & Hrest).
  injection Hrest as -> ->. split_and!; [|done..].
  intros p Hp. rewrite Hp in Hprev. apply bool_decide_eq_false in Hprev. by apply dec_stable.
Qed.

Lemma admitted_valid l bs op meta projections' state' changed :
  building l bs → missing_deps_projected inner op (bs_ops bs) reset = ∅ →
  topic_id (obody op) = t →
  validate_op_projected inner (overlay_of bs reset) op (bs_heads bs) (bs_state bs) (bs_projections bs) =
    Ok (Admit, projections') →
  meta_for_projected inner (bs_meta bs) op = Ok meta →
  next_state t op (bs_state bs) = Ok (state', changed) →
  entry_valid (V l) t op meta ∧ projections_ok (V l) projections' ∧
  state_follows t op (bs_state bs) state' ∧ (changed = false → state' = bs_state bs) ∧
  continues (match bs_tips bs !! (t, om_actor_id meta) with
     | Some tip => Some tip | None => l_actor_tip (s_log base) !! (t, om_actor_id meta) end) meta.
Proof using Hbase.
  intros Hb Hmiss Ht Hval Hmeta Hnext. pose proof (bd_history _ _ Hb) as HV.
  apply validate_admit_inv in Hval as (Hprev & _ & Hauth & Hpos).
  destruct (observe_deps_ok l bs op meta Hb Hmiss Ht Hmeta) as (Hdeps & Hck & Hmt & Hmm).
  destruct (authorize_ok l bs op meta projections' state' changed Hb Hmiss Ht Hmeta Hauth Hnext)
    as (Hp & Hroot & Hmem & Hfol & Hch).
  destruct (validate_position_ok l bs op Hb Ht Hdeps Hpos) as [(tip & Htip & Hcont) Hgen].
  destruct (next_generation_ok l bs _ _ Hb Hdeps Hgen) as (Hg1 & Hg2 & Hg3).
  destruct (expected_tip_ok l bs op Hb Ht) as [Histip Heqtip].
  pose proof (proj1 (meta_matches_true _ _) Hmm) as (Hid & _ & Ha & Hs & Hpr & Hd & Hg & _).
  rewrite Ha. rewrite Htip in Heqtip, Histip. rewrite -Heqtip. split_and!; try done.
  - split; rewrite ?Hd ?Hg ?Hpr ?Hs; try done.
    + destruct tip as [[s i]|]; destruct Hcont as (-> & Hcont); [|by rewrite Hcont].
      destruct Hcont as [_ Hpp]. rewrite Hpp. split; [by apply Hprev|].
      destruct Histip as [(o & m & He & Hma & Hms) _]. exists o, m. rewrite Ha. by rewrite Hms.
    + intros a s Hs1. rewrite (Hck a s Hs1). unfold counts. naive_solver.
  - unfold continues. rewrite Hs Hpr. by destruct tip as [[s i]|].
Qed.

(** The position of an entry that continues its chain is free. *)
Lemma continues_free E a tip (meta : OpMeta C) :
  is_tip E a tip → continues tip meta → om_actor_id meta = a →
  (∀ j o m, E j o m → 1 ≤ om_actor_seq m) →
  ∀ j o m, E j o m → om_actor_id m = a → om_actor_seq m ≠ om_actor_seq meta.
Proof using Type.
  intros Htip Hc _ Hpos j o m He Ha. destruct tip as [[s i]|]; simpl in *.
  - destruct Htip as [_ Hmax], Hc as (-> & _). specialize (Hmax j o m He Ha). lia.
  - by destruct (Htip j o m He).
Qed.

(** The scan of the store takes the entry as new. *)
Lemma scan_continues l (tips : gmap (TopicId * ActorId) (N * OpId)) op (meta : OpMeta C) :
  l_meta (s_log base) !! op_id op = None → om_id meta = op_id op → om_topic_id meta = t →
  (∀ j o m, E0 j o m → om_actor_id m = om_actor_id meta → om_actor_seq m ≠ om_actor_seq meta) →
  continues (match tips !! (t, om_actor_id meta) with
     | Some tip => Some tip | None => l_actor_tip (s_log base) !! (t, om_actor_id meta) end) meta →
  scan_entry base t (tips, l) (op, meta) =
    Ok (<[(t, om_actor_id meta) := (om_actor_seq meta, op_id op)]> tips, l ++ [(op, meta)]).
Proof using Hbase.
  intros Hnew Hid Ht Hfree Hcont. pose proof (bf_ok _ _ _ _ Hbase) as Hok.
  assert (l_ops (s_log base) !! op_id op = None) as Hno.
  { apply eq_None_not_Some. rewrite -elem_of_dom (lo_dom _ (so_log _ Hok)) elem_of_dom Hnew. by intros []. }
  pose proof (accounted_stored base meta Hok) as Hacc. rewrite Hid Hnew in Hacc.
  rewrite (bool_decide_false (is_Some None)) in Hacc; [by intros []|]. unfold accounted in Hacc.
  apply orb_false_iff in Hacc as [Hacc Hch]. apply orb_false_iff in Hacc as [_ Hidx]. rewrite Hid in Hch Hidx.
  assert (l_actor_by_seq (s_log base) !! (t, om_actor_id meta, om_actor_seq meta) = None) as Hseq.
  { apply eq_None_not_Some. intros [i Hi]. apply (lo_seq _ (so_log _ Hok)) in Hi as (m & Hm & Htm & Ha & Hs).
    destruct (entry_stored i m Hm Htm) as (o & m' & He). pose proof He as (_ & Hm' & _).
    rewrite Hm in Hm'. injection Hm' as <-. by apply (Hfree i o m He). }
  unfold scan_entry. rewrite Ht Hno Hnew Hch Hseq. rewrite (bool_decide_true (t = t)) //.
  cbn -[checked_add].
  destruct (match tips !! _ with Some _ => _ | None => _ end) as [[s i]|]; simpl in Hcont.
  - destruct Hcont as (Hs & Hle & Hp). rewrite (proj2 (checked_add_Some s 1 (s + 1))) //=.
    rewrite Hs N.eqb_refl /= Hp bool_decide_true //.
  - destruct Hcont as (Hs & Hp). by rewrite Hs /= Hp.
Qed.

Lemma with_entries_snoc E l op (meta : OpMeta C) i o m :
  with_entries E (l ++ [(op, meta)]) i o m ↔ add_entry (with_entries E l) op meta i o m.
Proof using Type.
  unfold with_entries, add_entry. rewrite elem_of_app list_elem_of_singleton. naive_solver.
Qed.

Lemma fresh_virtual l bs op :
  building l bs → l_meta (s_log base) !! op_id op = None → op_id op ∉ ids l → ¬ member (V l) (op_id op).
Proof using Type.
  intros Hb Hnew Hni (o & m & [(_ & Hm & _)|[Hin Hid]]); [congruence|].
  apply Hni. rewrite -Hid. apply list_elem_of_fmap. by exists (o, m).
Qed.

Lemma is_tip_iff (E E' : history) a tip :
  (∀ i o m, E i o m ↔ E' i o m) → is_tip E a tip → is_tip E' a tip.
Proof using Type. intros Heq. destruct tip as [[s i]|]; simpl; by setoid_rewrite Heq. Qed.

Lemma tip_after E a op (meta : OpMeta C) tip :
  is_tip E a tip → (om_actor_id meta = a → continues tip meta) →
  is_tip (add_entry E op meta) a
    (if decide (om_actor_id meta = a) then Some (om_actor_seq meta, op_id op) else tip).
Proof using Type.
  intros Htip Hc. unfold add_entry. case_decide as Ha.
  - specialize (Hc Ha). split; [exists op, meta; split_and!; [by right|done..]|].
    intros j o m [He|(_ & _ & ->)] Haj; [|lia]. destruct tip as [[s i]|]; simpl in *.
    + destruct Htip as [_ Hmax], Hc as (-> & _). specialize (Hmax j o m He Haj). lia.
    + by destruct (Htip j o m He).
  - destruct tip as [[s i]|]; simpl in *.
    + destruct Htip as [(o & m & He & Hrest) Hmax]. split; [exists o, m; by split; [left|]|].
      intros j o' m' [He'|(_ & _ & ->)] Ha'; [by eapply Hmax|done].
    + intros j o m [He|(_ & _ & ->)]; [by eapply Htip|done].
Qed.

Lemma push_entry_ok l bs op meta projections' state' changed :
  building l bs → l_meta (s_log base) !! op_id op = None → op_id op ∉ ids l →
  entry_valid (V l) t op meta → projections_ok (V l) projections' →
  state_follows t op (bs_state bs) state' →
  continues (match bs_tips bs !! (t, om_actor_id meta) with
     | Some tip => Some tip | None => l_actor_tip (s_log base) !! (t, om_actor_id meta) end) meta →
  building (l ++ [(op, meta)]) (push_admitted bs t op meta state' changed projections').
Proof using Hbase.
  intros Hb Hnew Hni Hv Hp Hfol Hcont. pose proof (bd_history _ _ Hb) as HV.
  pose proof (proj1 (meta_matches_true _ _) (ev_matches _ _ _ _ Hv)) as (Hid & _ & _ & _ & _ & Hd & _).
  pose proof (fresh_virtual l bs op Hb Hnew Hni) as Hno.
  assert (∀ j o m, V l j o m → om_actor_id m = om_actor_id meta → om_actor_seq m ≠ om_actor_seq meta) as Hfree.
  { eapply continues_free; [by apply bd_tip|done|done|]. intros j o m. apply (seq_positive (V l) t _ _ HV). }
  assert (history_ok (V (l ++ [(op, meta)])) t ({[op_id op]} ∪ (bs_heads bs ∖ deps (obody op))) state') as HV'.
  { eapply history_ok_iff; [intros; symmetry; apply with_entries_snoc|]. rewrite -Hd.
    by eapply history_extend. }
  split; cbn [push_admitted bs_admitted bs_accepted bs_ops bs_meta bs_heads bs_state bs_index bs_tips
    bs_projections].
  - rewrite fmap_app. apply NoDup_app. split_and!; [apply Hb| |apply NoDup_singleton].
    intros x Hx ->%list_elem_of_singleton. done.
  - by rewrite (bd_admitted _ _ Hb) fmap_app.
  - rewrite (bd_accepted _ _ Hb) fmap_app list_to_set_app_L /=. set_solver.
  - intros i o. setoid_rewrite elem_of_app. setoid_rewrite list_elem_of_singleton.
    rewrite lookup_insert_Some (bd_ops _ _ Hb). split.
    + intros [[<- <-]|[_ (m & Hm & Hi)]]; [exists meta; split; [by right|done]|exists m; split; [by left|done]].
    + intros (m & [Hm|[= -> ->]] & <-); [right|by left]. split; [|by exists m]. intros Heq. apply Hni.
      rewrite Heq. apply list_elem_of_fmap. by exists (o, m).
  - intros i m. setoid_rewrite elem_of_app. setoid_rewrite list_elem_of_singleton.
    rewrite lookup_insert_Some (bd_meta _ _ Hb). split.
    + intros [[<- <-]|[_ (o & Hm & Hi)]]; [exists op; split; [by right|done]|exists o; split; [by left|done]].
    + intros (o & [Hm|[= -> ->]] & <-); [right|by left]. split; [|by exists o]. intros Heq. apply Hni.
      rewrite Heq. apply list_elem_of_fmap. by exists (o, m).
  - intros o m [Hin|[= -> ->]%list_elem_of_singleton]%elem_of_app; [by eapply bd_fresh|done].
  - done.
  - intros a s i. setoid_rewrite elem_of_app. setoid_rewrite list_elem_of_singleton.
    rewrite lookup_insert_Some (bd_index _ _ Hb). split.
    + intros [[[= <- <-] <-]|[_ (o & m & Hm & Hrest)]]; [exists op, meta|exists o, m]; naive_solver.
    + intros (o & m & [Hm|[= -> ->]] & <- & <- & <-); [right|by left]. split; [|by exists o, m].
      intros [= Ha Hs]. apply (Hfree (op_id o) o m); [by right|done..].
  - intros a. pose proof (bd_tip _ _ Hb a) as Htip.
    assert (is_tip (V (l ++ [(op, meta)])) a (if decide (om_actor_id meta = a) then
      Some (om_actor_seq meta, op_id op) else match bs_tips bs !! (t, a) with
      | Some tip => Some tip | None => l_actor_tip (s_log base) !! (t, a) end)) as Hafter.
    { eapply is_tip_iff; [intros; symmetry; apply with_entries_snoc|]. apply tip_after; [done|]. by intros <-. }
    destruct (decide (om_actor_id meta = a)) as [<-|Hne]; [by rewrite lookup_insert_eq|].
    rewrite lookup_insert_ne //. congruence.
  - rewrite try_fold_app (bd_scan _ _ Hb). cbn [mbind result_bind try_fold].
    rewrite (scan_continues l (bs_tips bs) op meta) //; [apply Hv|].
    intros j o m He. apply (Hfree j o m). by left.
  - intros i s Hi. destruct (Hp i s Hi) as [Hm Hat].
    assert (extends_history (V l) (V (l ++ [(op, meta)]))) as Hext.
    { intros d Hdm o m. rewrite with_entries_snoc. by apply add_entry_extends. }
    split; [by eapply member_grow|]. eapply (state_at_grow (V l)); [done..| |done].
    by intros d ->%elem_of_singleton.
Qed.

Lemma push_admitted_ok l bs op meta projections' state' changed :
  building l bs → missing_deps_projected inner op (bs_ops bs) reset = ∅ →
  topic_id (obody op) = t → l_meta (s_log base) !! op_id op = None → op_id op ∉ ids l →
  validate_op_projected inner (overlay_of bs reset) op (bs_heads bs) (bs_state bs) (bs_projections bs) =
    Ok (Admit, projections') →
  meta_for_projected inner (bs_meta bs) op = Ok meta →
  next_state t op (bs_state bs) = Ok (state', changed) →
  building (l ++ [(op, meta)]) (push_admitted bs t op meta state' changed projections').
Proof using Hbase.
  intros Hb Hmiss Ht Hnew Hni Hval Hmeta Hnext.
  destruct (admitted_valid l bs op meta projections' state' changed Hb Hmiss Ht Hval Hmeta Hnext)
    as (Hv & Hp & Hfol & _ & Hcont).
  by apply push_entry_ok.
Qed.

(** ** The loop *)

(** An undamaged store never asks for a repair. *)
Lemma stored_op_state_ok op :
  store_ok inner →
  stored_op_state inner op =
    if bool_decide (is_Some (l_meta (s_log inner) !! op_id op)) then Complete else Absent.
Proof using Type.
  intros Hok. unfold stored_op_state.
  assert (is_Some (l_ops (s_log inner) !! op_id op) ↔ is_Some (l_meta (s_log inner) !! op_id op)) as Heq.
  { by rewrite -!elem_of_dom (lo_dom _ (so_log _ Hok)). }
  rewrite (bool_decide_ext _ _ Heq). case_bool_decide as Hs; [done|]. cbn [andb orb].
  rewrite bool_decide_false; [|rewrite bool_decide_true //].
  - intros (m & Hm & _)%(lo_seq _ (so_log _ Hok)). apply Hs. by eexists.
  - apply set_eq. intros c. split; [|by intros ?%elem_of_empty]. intros Hc.
    destruct (lo_children _ (so_log _ Hok)) as [Hin _]. apply Hin in Hc as (m & Hm & Hd).
    destruct (so_deps _ Hok _ _ _ Hm Hd) as (md & Hmd & _). destruct Hs. by eexists.
Qed.

(** After the operations [pre] of the batch, the entries [l] were accepted. *)
Record built_so_far (ops : list Op) (state0 : option TopicState) (pre : list Op)
    (l : list (Op * OpMeta C)) (bs : BuildState) : Prop := {
  sf_building : building l bs;
  sf_sub : ∀ o m, (o, m) ∈ l → o ∈ pre;
  sf_changed : bs_changed bs = false → bs_state bs = state0;
  (** A buffered operation waits for something the batch does not bring. *)
  sf_pending : ∀ o missing, (o, missing) ∈ bs_pending bs →
    o ∈ pre ∧ op_id o ∉ ids l ∧ missing ≠ ∅ ∧ missing ⊆ deps (obody o) ∧
    ∀ d, d ∈ missing → d ∉ ids l ∧ (reset = false → dep_resolvable_locked inner d = false);
  (** After a reset a genesis is accepted. *)
  sf_genesis : reset = true → ∀ o, o ∈ pre → is_structural_genesis o = true → ∃ m, (o, m) ∈ l;
}.

(** The position of a genesis that may follow is free. *)
Lemma genesis_position l bs op v projections' :
  building l bs → reset = true → topic_id (obody op) = t → is_structural_genesis op = true →
  op_id op ∉ ids l →
  validate_op_projected inner (overlay_of bs reset) op (bs_heads bs) (bs_state bs) (bs_projections bs) =
    Ok (v, projections') → v = Admit.
Proof using Hbase.
  intros Hb Hr Ht Hg Hni. unfold validate_op_projected. destruct (negb _); [done|].
  destruct (match actor_prev (obody op) with Some _ => _ | None => _ end); [done|].
  intros (dup & Hdup & Hrest)%bind_ok. destruct dup.
  { exfalso. unfold existing_at, stored_actor_index in Hdup. cbn [overlay_of bo_reset bo_index] in Hdup.
    rewrite Hr Ht in Hdup. destruct (bs_index bs !! _) as [j|] eqn:Hj; [|done].
    case_bool_decide as Heq; [|done]. apply (bd_index _ _ Hb) in Hj as (o & m & Hin & Hid & _). apply Hni.
    apply list_elem_of_fmap. exists (o, m). split; [|done]. by rewrite -Heq -Hid. }
  next_ok Hrest as (p1 & Hauth & Hrest). apply bind_ok in Hrest as (v1 & Hpos & [= <- <-]).
  unfold is_structural_genesis in Hg. apply andb_true_iff in Hg as [[[Hgen Hseq]%andb_true_iff _]%andb_true_iff _].
  unfold is_genesis in Hgen. unfold authorize in Hauth.
  destruct (payload (obody op)); [|done..]. destruct (bs_state bs) as [s|] eqn:Hs.
  { by rewrite (bool_decide_true (is_Some (Some s))) // !orb_true_r in Hauth. }
  pose proof (h_state _ _ _ _ (bd_history _ _ Hb)) as Hst. rewrite Hs in Hst.
  destruct (expected_tip_ok l bs op Hb Ht) as [Htip _]. unfold validate_position in Hpos.
  destruct (expected_tip _ _ _) as [[s i]|].
  { destruct Htip as [(o & m & He & _) _]. destruct (Hst i). by exists o, m. }
  cbn [next_actor_position mbind result_bind] in Hpos. rewrite Hseq in Hpos. revert Hpos. cbn [negb].
  clear Hauth. case_bool_decide; cbn [negb]; [|done]. intros (g & _ & Hpos)%bind_ok. revert Hpos. destruct (negb _); [done|].
  by intros [= <-].
Qed.

Lemma genesis_not_missing op overlay_ops :
  is_structural_genesis op = true → missing_deps_projected inner op overlay_ops reset = ∅.
Proof using Type.
  unfold is_structural_genesis, missing_deps_projected.
  intros [_ ->%bool_decide_eq_true]%andb_true_iff. apply set_eq. intros d. rewrite elem_of_filter. tauto.
Qed.

Lemma building_projections l bs projections :
  building l bs → projections_ok (V l) projections → building l (set_projections bs projections).
Proof using Type. by intros [] ?. Qed.

Lemma building_pending l bs o missing : building l bs → building l (push_pending bs o missing).
Proof using Type. by intros []. Qed.

Section ordered.
Context (ops : list Op) (state0 : option TopicState).
Context (Hnodup : NoDup (op_id <$> ops)).
Context (Htopic : ∀ o, o ∈ ops → topic_id (obody o) = t).
Context (Horder : ∀ (l1 : list Op) (o : Op) (l2 : list Op) (d : OpId), ops = l1 ++ o :: l2 → d ∈ deps (obody o) → d ∈ op_id <$> ops →
  d ∈ op_id <$> l1).
Context (Hnew : reset = true → ∀ o, o ∈ ops → l_meta (s_log base) !! op_id o = None).

Lemma not_accepted pre o rest l :
  ops = pre ++ o :: rest → (∀ o' m, (o', m) ∈ l → o' ∈ pre) → op_id o ∉ ids l.
Proof using Hnodup.
  intros Hops Hsub ([o' m] & Hid & Hin)%list_elem_of_fmap. simpl in Hid. pose proof Hnodup as Hnd.
  rewrite Hops fmap_app in Hnd. apply NoDup_app in Hnd as (_ & Hdis & _). apply (Hdis (op_id o)); [|by left]. rewrite Hid.
  apply list_elem_of_fmap_2. by eapply Hsub.
Qed.

Lemma pending_grows pre o rest l bs o' missing' :
  ops = pre ++ o :: rest → built_so_far ops state0 pre l bs → (o', missing') ∈ bs_pending bs →
  o' ∈ pre ∧ o' ≠ o ∧ op_id o' ≠ op_id o ∧ op_id o ∉ missing'.
Proof using Hnodup Horder.
  intros Hops Hsf Hin. destruct (sf_pending _ _ _ _ _ Hsf _ _ Hin) as (Hpre & _ & _ & Hsub & Hd).
  assert (op_id o ∉ op_id <$> pre) as Hni.
  { pose proof Hnodup as Hnd. rewrite Hops fmap_app in Hnd. apply NoDup_app in Hnd as (_ & Hdis & _).
    intros Hx. apply (Hdis _ Hx). by left. }
  assert (op_id o' ≠ op_id o) as Hne.
  { intros Heq. apply Hni. rewrite -Heq. by apply list_elem_of_fmap_2. }
  split_and!; [done|congruence|done|]. intros Hm. apply Hni.
  apply list_elem_of_split in Hpre as (p1 & p2 & Hp).
  assert (op_id o ∈ op_id <$> p1) as Hp1.
  { apply (Horder p1 o' (p2 ++ o :: rest)); [by rewrite Hops Hp -app_assoc|by apply Hsub|].
    rewrite Hops fmap_app. apply elem_of_app. right. by left. }
  rewrite Hp fmap_app. apply elem_of_app. by left.
Qed.

Lemma keep_pending pre o rest l bs :
  ops = pre ++ o :: rest → (reset = true → is_structural_genesis o = false) →
  built_so_far ops state0 pre l bs → built_so_far ops state0 (pre ++ [o]) l bs.
Proof using Type.
  intros Hops Hng [Hb Hsub Hch Hp Hg]. split; [done| |done| |].
  - intros o' m Hin. apply elem_of_app. left. by eapply Hsub.
  - intros o' ms Hin. destruct (Hp o' ms Hin) as (? & ?). split; [apply elem_of_app; by left|done].
  - intros Hr o' [Ho| ->%list_elem_of_singleton]%elem_of_app Hs; [by apply Hg|]. by rewrite Hng in Hs.
Qed.

Lemma push_pending_ok pre o rest l bs :
  ops = pre ++ o :: rest → built_so_far ops state0 pre l bs →
  missing_deps_projected inner o (bs_ops bs) reset ≠ ∅ →
  built_so_far ops state0 (pre ++ [o]) l
    (push_pending bs o (missing_deps_projected inner o (bs_ops bs) reset)).
Proof using Hnodup.
  intros Hops Hsf Hne. pose proof Hsf as [Hb Hsub Hch Hp Hg].
  split; [by apply building_pending| |done| |].
  3: { intros Hr o' [Ho| ->%list_elem_of_singleton]%elem_of_app Hs; [by apply Hg|].
    destruct Hne. by apply genesis_not_missing. }
  - intros o' m Hin. apply elem_of_app. left. by eapply Hsub.
  - cbn [push_pending bs_pending]. intros o' ms [Hin|[= -> ->]%list_elem_of_singleton]%elem_of_app.
    { destruct (Hp o' ms Hin) as (? & ?). split; [apply elem_of_app; by left|done]. }
    split_and!; [apply elem_of_app; right; by left|by eapply not_accepted|done| |].
    + intros d [_ Hd]%elem_of_filter. done.
    + intros d [[Hno Hd] _]%elem_of_filter. split.
      * intros ([o' m] & -> & Hin)%list_elem_of_fmap. apply eq_None_not_Some in Hno. apply Hno.
        exists o'. apply (bd_ops _ _ Hb). by exists m.
      * intros Hr. rewrite Hr in Hd. by apply negb_true_iff in Hd.
Qed.

(** One iteration. *)
Lemma build_step_ok verified pre o rest l bs bs' :
  ops = pre ++ o :: rest → built_so_far ops state0 pre l bs →
  build_step inner t verified reset bs o = Ok bs' →
  ∃ l', built_so_far ops state0 (pre ++ [o]) l' bs'.
Proof using Hbase Hnodup Htopic Horder Hnew.
  intros Hops Hsf. pose proof Hsf as [Hb Hsub Hch Hp Hg].
  assert (o ∈ ops) as Ho by (rewrite Hops; apply elem_of_app; right; by left).
  intros (? & _ & Hstep)%bind_ok. skip_ok Hstep. cbv zeta in Hstep.
  assert ((if reset then Absent else stored_op_state inner o) ≠ Repair ∧
    ((if reset then Absent else stored_op_state inner o) = Complete → reset = false) ∧
    ((if reset then Absent else stored_op_state inner o) = Absent → l_meta (s_log base) !! op_id o = None))
    as (Hnorep & Hcomp & Habs).
  { clear Hstep Hsf Hb Hp. pose proof (bf_ok _ _ _ _ Hbase) as Hok. pose proof (bf_same _ _ _ _ Hbase) as Hsame.
    destruct reset; [split_and!; [done..|]; intros _; by apply Hnew|]. rewrite (Hsame eq_refl) in Hok |- *.
    rewrite (stored_op_state_ok o Hok). case_bool_decide as Hs; split_and!; [done..|]. intros _. by apply eq_None_not_Some. }
  destruct (if reset then Absent else stored_op_state inner o); [|done|].
  2: { apply bind_ok in Hstep as (? & _ & [= <-]). exists l. eapply keep_pending; [done| |done].
    intros Hr. by rewrite Hcomp in Hr. }
  specialize (Habs eq_refl). unfold build_absent in Hstep. case_bool_decide as Hmiss; cbn [negb] in Hstep.
  - next_ok Hstep as ([v p'] & Hval & Hstep). destruct v.
    + next_ok Hstep as (meta & Hmeta & Hstep). apply bind_ok in Hstep as ([st ch] & Hnext & [= <-]).
      pose proof (not_accepted pre o rest l Hops Hsub) as Hni.
      exists (l ++ [(o, meta)]). split.
      * by apply push_admitted_ok; try apply Htopic.
      * intros o' m [Hin|[= -> ->]%list_elem_of_singleton]%elem_of_app; apply elem_of_app;
          [left; by eapply Hsub|right; by left].
      * cbn [push_admitted bs_changed bs_state]. intros [Hc1 Hc2]%orb_false_iff.
        destruct (admitted_valid l bs o meta p' st ch Hb Hmiss (Htopic o Ho) Hval Hmeta Hnext)
          as (_ & _ & _ & Hsame & _). rewrite (Hsame Hc2). by apply Hch.
      * cbn [push_admitted bs_pending]. intros o' ms Hin.
        destruct (pending_grows pre o rest l bs o' ms Hops Hsf Hin) as (Hpre & _ & Hne & Hnm).
        destruct (Hp o' ms Hin) as (_ & Hnl & Hms & Hsd & Hall). split_and!; [apply elem_of_app; by left| |done..|].
        -- rewrite fmap_app. intros [?|?%list_elem_of_singleton]%elem_of_app; done.
        -- intros d Hd. destruct (Hall d Hd) as [Hdl Hdr]. split; [|done].
           rewrite fmap_app. intros [?|?%list_elem_of_singleton]%elem_of_app; [done|]. by subst.
      * intros Hr o' [Ho'| ->%list_elem_of_singleton]%elem_of_app Hs; [|exists meta; apply elem_of_app; right; by left].
        destruct (Hg Hr o' Ho' Hs) as [m Hm]. exists m. apply elem_of_app. by left.
    + injection Hstep as <-. exists l.
      apply (keep_pending pre o rest) in Hsf as [Hb1 Hs1 Hc1 Hp1 Hg1]; [|done|].
      2: { intros Hr. apply not_true_iff_false. intros Hs.
        by specialize (genesis_position l bs o _ _ Hb Hr (Htopic o Ho) Hs (not_accepted pre o rest l Hops Hsub) Hval). }
      split; [|done..]. apply building_projections; [done|].
      unfold validate_op_projected in Hval. destruct (negb _); [done|].
      destruct (match actor_prev (obody o) with Some _ => _ | None => _ end); [done|].
      next_ok Hval as (dup & _ & Hval). destruct dup; [injection Hval as <-; apply Hb|].
      next_ok Hval as (p1 & Hauth & Hval). next_ok Hval as (v & _ & Hval).
      injection Hval as _ <-. eapply (authorize_projections_ok l bs o); [done|done|by apply Htopic|done].
  - next_ok Hstep as (v & _ & Hstep). destruct v; injection Hstep as <-; exists l.
    + by eapply push_pending_ok.
    + eapply keep_pending; [done| |done]. intros _. apply not_true_iff_false. intros Hs.
      destruct Hmiss. by apply genesis_not_missing.
Qed.

Lemma build_loop_ok verified bs0 bs l0 :
  built_so_far ops state0 [] l0 bs0 →
  try_fold (build_step inner t verified reset) bs0 ops = Ok bs →
  ∃ l, built_so_far ops state0 ops l bs.
Proof using Hbase Hnodup Htopic Horder Hnew.
  intros Hstart. apply (try_fold_inv_prefix (λ pre bs, ∃ l, built_so_far ops state0 pre l bs)); [|by exists l0].
  intros pre o rest b1 b2 Hops [l Hl] Hstep. by eapply build_step_ok.
Qed.
End ordered.
End loop.
End building.
