(* ===== verification/Commit.v ===== *)
(** * Committing a built batch

    A batch [build_batch] returns passes every check of the store it was built for,
    and admitting it leaves every topic with a causal history: the store's own
    invariant says its indexes agree, [node_ok] says that what they index is a valid
    history with the right topic state. *)

From stdpp Require Import relations.
From S2P Require Import Prelude Ids Frame ClockSpec Types Membership Topology.
From S2P Require Import Evidence Records Pool Store StoreLog StoreAdmit StoreReset.
From S2P Require Import Admission Dag Projection Building.

#[local] Open Scope N_scope.

Section commit.
Context {C : Type} `{!ClockImpl C} `{!StoreEnv C} `{!Crypto} `{!OplogEnv}.
Implicit Types (inner base : MemoryInner C) (l : list (Op * OpMeta C)).

Abbreviation ids l := ((λ e : Op * OpMeta C, op_id e.1) <$> l).

(** The topic holds a causal history. *)
Definition topic_ok inner (t : TopicId) : Prop :=
  history_ok (entries_of (s_log inner) t) t (default ∅ (s_heads inner !! t)) (topic_state_locked inner t).

(** A store that agrees with itself and holds a causal history of every topic. *)
Record node_ok inner : Prop := {
  nd_store : store_ok inner;
  nd_topics : ∀ t, topic_ok inner t;
}.

Lemma state_of_set_heads (ops : list Op) s h : state_of ops s → state_of ops (set_heads s h).
Proof. intros (gop & g & Hin & Hpl & Hspec). by exists gop, g. Qed.

Lemma history_set_heads E (t : TopicId) heads s h :
  history_ok (C := C) E t heads (Some s) → history_ok E t heads (Some (set_heads s h)).
Proof.
  intros [Hf He Hs Hh Hc Hb (Ht & (ops & Hall & Hst) & Hg)]. split; try done. split_and!; [done| |done].
  exists ops. split; [done|]. by apply state_of_set_heads.
Qed.

Lemma stored_entry inner t i m :
  store_ok inner → l_meta (s_log inner) !! i = Some m → om_topic_id m = t → ∃ o, entries_of (s_log inner) t i o m.
Proof.
  intros Hok Hm Ht. assert (i ∈ dom (l_ops (s_log inner))) as [o Ho]%elem_of_dom.
  { rewrite (lo_dom _ (so_log _ Hok)). apply elem_of_dom. by eexists. }
  by exists o.
Qed.

Lemma topic_ok_heads inner t :
  topic_ok inner t →
  from_option ts_heads ∅ (topic_state_locked inner t) = default ∅ (s_heads inner !! t).
Proof.
  intros Hok. pose proof (h_state _ _ _ _ Hok) as Hst. unfold topic_state_locked in *.
  destruct (s_topics inner !! t) as [s|]; [done|]. simpl in *. symmetry. apply set_eq. intros i.
  split; [|by intros ?%elem_of_empty]. intros [Hi _]%(h_heads _ _ _ _ Hok). by apply Hst in Hi.
Qed.

Lemma take_entries_ok (ops : gmap OpId Op) (metas : gmap OpId (OpMeta C)) l :
  NoDup (ids l) → (∀ o m, (o, m) ∈ l → ops !! op_id o = Some o ∧ metas !! op_id o = Some m) →
  take_entries ops metas (ids l) = Some l.
Proof.
  revert ops metas. induction l as [|[o m] l IH]; intros ops metas Hnd Hall; [done|].
  rewrite fmap_cons in Hnd |- *. apply NoDup_cons in Hnd as [Ho Hnd]. simpl.
  destruct (Hall o m) as [-> ->]; [by left|]. simpl. rewrite IH; [done| |done].
  intros o' m' Hin. destruct (Hall o' m') as [Ho' Hm']; [by right|].
  assert (op_id o ≠ op_id o').
  { intros Heq. apply Ho. rewrite Heq. apply list_elem_of_fmap. by exists (o', m'). }
  by rewrite !lookup_delete_ne.
Qed.

(** A batch that extends the history of a store. *)
Record batch_extends base (t : TopicId) (batch : AdmittedBatch C) : Prop := {
  fits_topic : ab_topic_id batch = t;
  fits_wf : batch_wf base batch;
  fits_expected_heads : ab_expected_heads batch = default ∅ (s_heads base !! t);
  fits_expected_state : ab_expected_topic_state batch = topic_state_locked base t;
  fits_fresh : ∀ e, e ∈ ab_entries batch → l_meta (s_log base) !! op_id e.1 = None;
  fits_history : history_ok (with_entries (entries_of (s_log base) t) (ab_entries batch)) t
    (ab_heads batch)
    (match ab_topic_state batch with
     | Some s => Some s
     | None => (λ s, set_heads s (ab_heads batch)) <$> ab_expected_topic_state batch
     end);
}.

(** What the builder promises the store about a batch: it also passes every check. *)
Record batch_fits base (t : TopicId) (batch : AdmittedBatch C) : Prop := {
  fits_extends : batch_extends base t batch;
  fits_batch : validate_batch batch = Ok ();
  fits_heads : validate_heads batch (accounted base) = Ok ();
  fits_scan : ∃ tips, try_fold (scan_entry base t) (∅, []) (ab_entries batch) =
    Ok (tips, ab_entries batch);
  fits_deps : ensure_deps_resolvable (ab_entries batch) (dep_resolvable_locked base) = Ok ();
}.

Lemma fresh_all base l :
  (∀ o m, (o, m) ∈ l → l_meta (s_log base) !! op_id o = None) → fresh_entries base l = l.
Proof.
  unfold fresh_entries. induction l as [|[o m] l IH]; intros Hall; [done|].
  rewrite filter_cons_True; [apply (Hall o m); by left|]. f_equal. apply IH.
  intros o' m' Hin. apply (Hall o' m'). by right.
Qed.

(** The frontier the loop computes is the one the store recomputes. *)
Lemma frontier_fits base t l heads0 state0 heads state batch :
  store_ok base → history_ok (entries_of (s_log base) t) t heads0 state0 →
  history_ok (with_entries (entries_of (s_log base) t) l) t heads state →
  (∀ o m, (o, m) ∈ l → l_meta (s_log base) !! op_id o = None) →
  ab_entries batch = l → ab_expected_heads batch = heads0 → ab_heads batch = heads →
  (∀ e, e ∈ l → entry_ok batch e) →
  validate_heads batch (accounted base) = Ok ().
Proof.
  intros Hok Hs0 Hs1 Hfresh Hl Hh0 Hh Hentries. unfold validate_heads. rewrite Hl Hh0 Hh.
  pose proof (heads_fold base batch l heads0 ∅ Hok Hentries) as Hfold.
  rewrite (fresh_all base l Hfresh) in Hfold.
  destruct (foldl _ _ _) as [hs consumed]. destruct Hfold as [Hhs Hcons]. simpl in Hhs, Hcons.
  rewrite decide_True //. apply set_eq. intros i. rewrite elem_of_difference Hhs Hcons. split.
  - intros [Hi Hnc]. assert (member (with_entries (entries_of (s_log base) t) l) i) as Hm.
    { destruct Hi as [Hi|([o m] & -> & Hin)%list_elem_of_fmap].
      - destruct (h_heads _ _ _ _ Hs0 i Hi) as [(o & m & He) _]. exists o, m. by left.
      - exists o, m. by right. }
    destruct (h_covered _ _ _ _ Hs1 i Hm) as [?|(c & o & m & Hc & Hd)]; [done|]. exfalso.
    destruct Hc as [Hc|[Hin <-]]; [|apply Hnc; right; by exists (o, m)].
    assert (depends (entries_of (s_log base) t) c i) as Hdep by by exists o, m.
    destruct Hi as [Hi|([o' m'] & -> & Hin)%list_elem_of_fmap].
    + destruct (h_heads _ _ _ _ Hs0 i Hi) as [_ Hn]. by apply (Hn c).
    + apply (depends_member _ _ _ _ Hs0) in Hdep as [_ (x & y & (_ & Hy & _))]. simpl in Hy.
      by rewrite (Hfresh _ _ Hin) in Hy.
  - intros Hi. destruct (h_heads _ _ _ _ Hs1 i Hi) as [Hm Hn]. split.
    + destruct Hm as (o & m & [He|[Hin <-]]); [|right; apply list_elem_of_fmap; by exists (o, m)].
      left. destruct (h_covered _ _ _ _ Hs0 i) as [?|(c & oc & mc & Hc & Hd)]; [by exists o, m|done|].
      destruct (Hn c). exists oc, mc. split; [by left|done].
    + intros [?%elem_of_empty|([o m] & Hin & Hd)]; [done|]. apply (Hn (op_id o)). exists o, m.
      split; [by right|done].
Qed.

Lemma entry_ok_valid (batch : AdmittedBatch C) E t o (m : OpMeta C) :
  ab_topic_id batch = t → entry_valid E t o m → entry_ok batch (o, m).
Proof.
  intros Hb Hv. unfold entry_ok. simpl. rewrite Hb. split; [apply Hv|]. split; [apply Hv|].
  apply meta_matches_true, Hv.
Qed.

(** The loop's result, as the batch it becomes. *)
Lemma finish_fits inner base t reset ops pre l bs source effects built :
  base_for inner base t reset → topic_ok base t →
  built_so_far inner base t reset ops (topic_state_locked base t) pre l bs →
  finish_batch t source effects (default ∅ (s_heads base !! t)) (topic_state_locked base t) bs = Ok built →
  batch_fits base t (bb_batch built) ∧ ab_entries (bb_batch built) = l ∧
  bb_accepted built = list_to_set (ids l) ∧ bb_pending built = bs_pending bs ∧
  (∀ e, e ∈ l → e.1 ∈ pre) ∧
  projections_ok (with_entries (entries_of (s_log base) t) l) (bb_projections built).
Proof.
  intros Hbase Htop [Hb Hsub Hch _ _]. unfold finish_batch. rewrite (bd_admitted _ _ _ _ Hb).
  rewrite take_entries_ok; [apply (bd_ids _ _ _ _ Hb)| |].
  { intros o m Hin. rewrite (bd_ops _ _ _ _ Hb) (bd_meta _ _ _ _ Hb). split; [by exists m|by exists o]. }
  cbn [ok_or mbind result_bind]. intros (effs & _ & [= <-])%bind_ok.
  cbn [bb_batch bb_accepted bb_pending bb_projections ab_entries].
  split; [|split_and!; [done|apply Hb|done|by intros [o m] Hin; eapply Hsub|apply Hb]].
  pose proof (bd_history _ _ _ _ Hb) as HV. pose proof (bf_ok _ _ _ _ Hbase) as Hok.
  set (batch := {| ab_topic_id := t |}).
  assert (∀ o m, (o, m) ∈ l → entry_valid (with_entries (entries_of (s_log base) t) l) t o m) as Hval.
  { intros o m Hin. by apply (h_entry _ _ _ _ HV (op_id o) o m); right. }
  assert (∀ e, e ∈ l → entry_ok batch e) as Hentries
    by (intros [o m] Hin; eapply entry_ok_valid; [done|by apply Hval]).
  assert (∀ s, topic_state_locked base t = Some s → ts_topic_id s = t) as Hst0.
  { intros s Hs. pose proof (h_state _ _ _ _ Htop) as Hst. rewrite Hs in Hst. by destruct Hst. }
  assert (∀ s, bs_state bs = Some s → ts_topic_id s = t) as Hst1.
  { intros s Hs. pose proof (h_state _ _ _ _ HV) as Hst. rewrite Hs in Hst. by destruct Hst. }
  split; [split; try done|..].
  - split; [apply (bd_ids _ _ _ _ Hb)|]. intros [o m] d md Hin Hd Hmd. cbn [batch ab_topic_id ab_entries] in *.
    destruct (ev_deps _ _ _ _ (Hval o m Hin) d Hd) as (od & mdv & [(_ & Hmd' & Ht)|[Hin' <-]]); [congruence|].
    by rewrite (bd_fresh _ _ _ _ Hb _ _ Hin') in Hmd.
  - cbn [batch ab_entries]. intros [o m] Hin. by apply (bd_fresh _ _ _ _ Hb o m).
  - cbn [batch ab_entries ab_heads ab_topic_state ab_expected_topic_state].
    assert (history_ok (with_entries (entries_of (s_log base) t) l) t (bs_heads bs)
      ((λ s, set_heads s (bs_heads bs)) <$> bs_state bs)) as HV'.
    { destruct (bs_state bs); [by apply history_set_heads|done]. }
    destruct (bs_changed bs) eqn:Hc; [|by rewrite -(Hch eq_refl)].
    destruct (bs_state bs) as [s|]; [done|].
    destruct (topic_state_locked base t) as [s|] eqn:Hs; [|done].
    pose proof (h_state _ _ _ _ Htop) as Hst. rewrite Hs in Hst.
    destruct Hst as (_ & (all & Hall & gop & g & Hin & _) & _). apply Hall in Hin as [m Hm].
    destruct (h_state _ _ _ _ HV (op_id gop)). exists gop, m. by left.
  - apply validate_batch_ok. cbn [batch ab_expected_topic_state ab_topic_state ab_entries ab_topic_id ab_heads].
    split_and!; [done| |done]. intros s Hs. destruct (bs_changed bs); [|done].
    apply fmap_Some in Hs as (s' & Hs' & ->). split; [exact (Hst1 s' Hs')|done].
  - eapply frontier_fits; [done|apply Htop|done|apply (bd_fresh _ _ _ _ Hb)|done..].
  - exists (bs_tips bs). apply (bd_scan _ _ _ _ Hb).
  - apply ensure_deps_resolvable_ok. cbn [batch ab_entries]. intros [o m] d Hin Hd.
    destruct (ev_deps _ _ _ _ (Hval o m Hin) d Hd) as (od & mdv & [(_ & Hmd' & _)|[Hin' <-]]).
    + right. rewrite stored_complete //. apply bool_decide_eq_true. by eexists.
    + left. apply list_elem_of_fmap. by exists (od, mdv).
Qed.

Lemma with_entries_nil (E : history (C := C)) i o m : with_entries E [] i o m ↔ E i o m.
Proof. unfold with_entries. split; [|by left]. by intros [?|[?%elem_of_nil _]]. Qed.

Lemma build_start_ok inner base t reset ops projections :
  base_for inner base t reset → topic_ok base t →
  projections_ok (entries_of (s_log base) t) projections →
  built_so_far inner base t reset ops (topic_state_locked base t) [] []
    (build_start (default ∅ (s_heads base !! t)) (topic_state_locked base t) projections).
Proof.
  intros Hbase Htop Hproj. split; [|by intros o m ?%elem_of_nil|done|by intros o ms ?%elem_of_nil|
    by intros _ o ?%elem_of_nil].
  split; cbn [build_start bs_admitted bs_accepted bs_ops bs_meta bs_heads bs_state bs_index bs_tips
    bs_projections]; try done.
  - constructor.
  - intros i o. rewrite lookup_empty. split; [done|]. by intros (m & ?%elem_of_nil & _).
  - intros i m. rewrite lookup_empty. split; [done|]. by intros (o & ?%elem_of_nil & _).
  - by intros o m ?%elem_of_nil.
  - eapply history_ok_iff; [|exact Htop]. intros i o m. by rewrite with_entries_nil.
  - intros a s i. rewrite lookup_empty. split; [done|]. by intros (o & m & ?%elem_of_nil & _).
  - intros a. rewrite lookup_empty.
    eapply is_tip_iff; [intros; symmetry; apply with_entries_nil|by eapply base_tip].
  - intros i s Hi. destruct (Hproj i s Hi) as [Hm Hat].
    assert (extends_history (entries_of (s_log base) t) (with_entries (entries_of (s_log base) t) [])) as Hext.
    { intros d _ o m. by rewrite with_entries_nil. }
    split; [by eapply member_grow|].
    eapply (state_at_grow (entries_of (s_log base) t)); [exact Htop|done| |done].
    by intros d ->%elem_of_singleton.
Qed.

(** A topic with no operation has no state. *)
Lemma empty_topic_state base t :
  topic_ok base t → (∀ i, ¬ member (entries_of (s_log base) t) i) → topic_state_locked base t = None.
Proof.
  intros Htop Hno. pose proof (h_state _ _ _ _ Htop) as Hst.
  destruct (topic_state_locked base t) as [s|]; [|done].
  destruct Hst as (_ & (ops & Hall & gop & g & Hin & _) & _). apply Hall in Hin as [m Hm].
  destruct (Hno (op_id gop)). by exists gop, m.
Qed.

(** The batch of [build_batch] fits the store it is for. *)
Lemma build_batch_fits inner base cached receive source ops verified reset effects built :
  build_batch inner cached receive source ops verified reset effects = Ok (Some built) →
  let t := ab_topic_id (bb_batch built) in
  base_for inner base t reset → topic_ok base t →
  projections_ok (entries_of (s_log base) t) (usable_projections t (topic_state_locked base t) cached) →
  (reset = true → ∀ o, o ∈ ops → topic_id (obody o) = t → l_meta (s_log base) !! op_id o = None) →
  batch_fits base t (bb_batch built) ∧
  bb_accepted built = list_to_set (ids (ab_entries (bb_batch built))) ∧
  (∀ e, e ∈ ab_entries (bb_batch built) → e.1 ∈ ops) ∧
  (∀ o missing, (o, missing) ∈ bb_pending built → o ∈ ops ∧ topic_id (obody o) = t ∧
    op_id o ∉ ids (ab_entries (bb_batch built)) ∧ missing ≠ ∅ ∧ missing ⊆ deps (obody o) ∧
    ∀ d, d ∈ missing → d ∉ ids (ab_entries (bb_batch built)) ∧
      (reset = false → dep_resolvable_locked inner d = false)) ∧
  projections_ok (with_entries (entries_of (s_log base) t) (ab_entries (bb_batch built)))
    (bb_projections built) ∧
  (reset = true → ∀ g, g ∈ ops → (∀ o, o ∈ ops → op_id o = op_id g → o = g) →
    is_structural_genesis g = true →
    topic_id (obody g) = t ∧ ∃ m, (g, m) ∈ ab_entries (bb_batch built)).
Proof.
  intros Hbuild t Hbase Htop Hproj Hnew. unfold build_batch in Hbuild.
  destruct (topological_ops_spec ops) as [(out & Hout & _ & Hnd & Hsub & Hfull & Hord & _)|[Hout _]];
    rewrite Hout in Hbuild; [|done]. cbn [mbind result_bind] in Hbuild.
  destruct out as [|first out']; [done|]. set (out := first :: out') in *. cbv zeta in Hbuild.
  destruct (existsb _ out) eqn:Hex; [done|].
  skip_ok Hbuild. next_ok Hbuild as (bs & Hloop & Hbuild).
  apply bind_ok in Hbuild as (built' & Hfin & [= ->]).
  assert (t = topic_id (obody first)) as Ht.
  { unfold t. revert Hfin. unfold finish_batch. intros (entries & _ & Hf)%bind_ok.
    apply bind_ok in Hf as (effs & _ & [= <-]). done. }
  rewrite -Ht in Hex Hloop Hfin. clear Ht.
  assert (∀ o, o ∈ out → topic_id (obody o) = t) as Htopics.
  { intros o Ho. destruct (decide (topic_id (obody o) = t)) as [|Hne]; [done|].
    exfalso. rewrite -not_true_iff_false existsb_exists in Hex. apply Hex. exists o.
    split; [by apply list_elem_of_In|]. by rewrite bool_decide_false. }
  assert ((if reset then None else topic_state_locked inner t) = topic_state_locked base t) as Hexp.
  { clear Hloop Hfin. pose proof (bf_reset _ _ _ _ Hbase) as Hr. pose proof (bf_same _ _ _ _ Hbase) as Hs.
    destruct reset; [symmetry; apply empty_topic_state; auto|]. by rewrite Hs. }
  rewrite Hexp (topic_ok_heads base t Htop) in Hloop, Hfin.
  assert (∀ (l1 : list Op) (o : Op) (l2 : list Op) (d : OpId), out = l1 ++ o :: l2 → d ∈ deps (obody o) →
    d ∈ op_id <$> out → d ∈ op_id <$> l1) as Hord'.
  { intros l1 o l2 d Heq Hd Hin. apply (Hord l1 o l2 d Heq Hd).
    apply list_elem_of_fmap in Hin as (x' & -> & Hx). by apply list_elem_of_fmap_2, Hsub. }
  assert (reset = true → ∀ o, o ∈ out → l_meta (s_log base) !! op_id o = None) as Hnew'
    by (intros Hr o Ho; apply Hnew; [done|by apply Hsub|by apply Htopics]).
  destruct (build_loop_ok inner base t reset Hbase out _ Hnd Htopics Hord' Hnew' verified _ bs []
    (build_start_ok inner base t reset out _ Hbase Htop Hproj) Hloop) as [l Hl].
  destruct (finish_fits inner base t reset out out l bs source effects built Hbase Htop Hl Hfin)
    as (Hfits & Hentries & Hacc & Hpend & Hin & Hp). rewrite Hentries.
  split_and!; try done.
  - intros e He. by apply Hsub, Hin.
  - intros o ms Ho. rewrite Hpend in Ho.
    destruct (sf_pending _ _ _ _ _ _ _ _ _ Hl o ms Ho) as (Hpre & Hrest).
    split; [by apply Hsub|]. split; [by apply Htopics|done].
  - intros Hr g Hg Huniq Hs. destruct (proj1 (list_elem_of_fmap _ _ _) (Hfull g Hg)) as (g' & Hid & Hg').
    assert (g' = g) as -> by (apply Huniq; [by apply Hsub|done]).
    split; [by apply Htopics|]. by apply (sf_genesis _ _ _ _ _ _ _ _ _ Hl Hr g).
Qed.

(** ** The store after the commit *)

(** The entries of every topic after an admission. *)
Lemma admitted_entries base t batch quota base' u :
  store_ok base → batch_extends base t batch → admit_batch_locked base batch quota = (base', Ok u) →
  store_ok base' ∧
  (∀ i o m, entries_of (s_log base') t i o m ↔
    with_entries (entries_of (s_log base) t) (ab_entries batch) i o m) ∧
  (∀ t', t' ≠ t → ∀ i o m, entries_of (s_log base') t' i o m ↔ entries_of (s_log base) t' i o m) ∧
  s_heads base' = <[t := ab_heads batch]> (s_heads base) ∧
  s_topics base' = match ab_topic_state batch with
    | Some s => <[t := s]> (s_topics base) | None => s_topics base end.
Proof.
  intros Hok Hfits. pose proof (fits_wf _ _ _ Hfits) as Hwf. unfold admit_batch_locked.
  destruct (admit_plan base batch quota) as [plan|e] eqn:Hplan; [|done]. intros Hw.
  pose proof (admit_plan_ok _ _ _ _ Hok Hwf Hplan) as Hpl.
  destruct (admit_write_ok _ _ _ _ _ Hok Hwf Hpl Hw) as (_ & Hok' & Hlog & Hheads & Htops & _).
  rewrite (fits_topic _ _ _ Hfits) in Hheads, Htops.
  assert (ap_new_entries plan = ab_entries batch) as Hnew.
  { rewrite (pl_new _ _ _ Hpl). apply fresh_all. intros o m Hin. by apply (fits_fresh _ _ _ Hfits (o, m)). }
  pose proof (λ i m, planned_meta base batch plan i m Hwf Hpl) as Hmeta. rewrite -Hlog Hnew in Hmeta.
  assert (∀ i o m, l_ops (s_log base') !! i = Some o ∧ l_meta (s_log base') !! i = Some m ↔
    (l_ops (s_log base) !! i = Some o ∧ l_meta (s_log base) !! i = Some m) ∨
    ((o, m) ∈ ab_entries batch ∧ op_id o = i)) as Hboth.
  { intros i o m. rewrite Hmeta.
    assert (∀ e, e ∈ ab_entries batch → l_ops (s_log base') !! op_id e.1 = Some e.1) as Hin
      by (intros e He; rewrite Hlog; by apply (planned_ops base batch)).
    assert (∀ m', l_meta (s_log base) !! i = Some m' → l_ops (s_log base') !! i = l_ops (s_log base) !! i) as Hold.
    { intros m' Hm'. rewrite Hlog Hnew. apply write_all_ops_ne. intros (e & -> & He)%list_elem_of_fmap.
      by rewrite (fits_fresh _ _ _ Hfits e He) in Hm'. }
    split.
    - intros [Ho [Hm|(o' & Hin' & <-)]]; [left; by rewrite -(Hold m Hm)|].
      pose proof (Hin _ Hin') as Ho'. simpl in Ho'. rewrite Ho in Ho'. injection Ho' as ->. by right.
    - intros [[Ho Hm]|[Hin' <-]]; [rewrite (Hold m Hm); by split; [|left]|].
      split; [by apply (Hin (o, m))|right; by exists o]. }
  assert (∀ o m, (o, m) ∈ ab_entries batch → om_topic_id m = t) as Htopic.
  { intros o m Hin. destruct (pl_entries _ _ _ Hpl (o, m) Hin) as (_ & Hmt & _).
    by rewrite -(fits_topic _ _ _ Hfits). }
  split_and!; [done| | |done|done].
  - intros i o m. unfold entries_of, with_entries. rewrite assoc Hboth. split.
    + intros [[[Ho Hm]|[Hin Hi]] Ht]; [by left|by right].
    + intros [(Ho & Hm & Ht)|[Hin Hi]]; [by split; [left|]|]. split; [by right|by eapply Htopic].
  - intros t' Hne i o m. unfold entries_of. rewrite !assoc Hboth. split; [|naive_solver].
    intros [[?|[Hin Hi]] Ht]; [done|]. destruct Hne. rewrite -Ht. by eapply Htopic.
Qed.

(** Admitting a batch that fits leaves a history of every topic. *)
Lemma admitted_ok base t batch quota base' u :
  node_ok base → batch_extends base t batch → admit_batch_locked base batch quota = (base', Ok u) →
  node_ok base'.
Proof.
  intros [Hok Htopics] Hfits Hadmit.
  destruct (admitted_entries _ _ _ _ _ _ Hok Hfits Hadmit) as (Hok' & Hin & Hout & Hheads & Htops).
  split; [done|]. intros t'. unfold topic_ok, topic_state_locked. rewrite Htops Hheads.
  destruct (decide (t' = t)) as [->|Hne].
  - rewrite lookup_insert_eq /=.
    eapply history_ok_iff; [intros i o m; symmetry; apply Hin|].
    pose proof (fits_history _ _ _ Hfits) as HV. rewrite (fits_expected_state _ _ _ Hfits) in HV.
    destruct (ab_topic_state batch) as [s|] eqn:Hs.
    + rewrite lookup_insert_eq /=. by apply history_set_heads.
    + unfold topic_state_locked in HV. by destruct (s_topics base !! t).
  - rewrite lookup_insert_ne //.
    assert ((match ab_topic_state batch with Some s => <[t:=s]> (s_topics base) | None => s_topics base end) !! t' =
      s_topics base !! t') as -> by (destruct (ab_topic_state batch); [by rewrite lookup_insert_ne|done]).
    eapply history_ok_iff; [intros i o m; symmetry; by apply Hout|apply (Htopics t')].
Qed.

(** A budget that grants every request. *)
Definition unbounded : Prop :=
  (∀ r, mem r = Ok ()) ∧ ∀ heads (clock : C), ∃ f, topic_fingerprint_for heads clock = Ok f.

Lemma try_fold_total {A S} (f : S → A → res S) (s : S) (k : list A) :
  (∀ s a, a ∈ k → ∃ s', f s a = Ok s') → ∃ s', try_fold f s k = Ok s'.
Proof.
  revert s. induction k as [|a k IH]; intros s Hall; [by exists s|]. simpl.
  destruct (Hall s a) as [s' ->]; [by left|]. apply IH. intros s1 b Hb. apply Hall. by right.
Qed.

(** Only memory, effects or a quota can refuse a batch that fits. *)
Lemma fits_admitted base t batch :
  unbounded → store_ok base → batch_fits base t batch → ab_effects batch = [] →
  ∃ base', admit_batch_locked base batch None = (base', Ok ()).
Proof.
  intros [Hmem Hfp] Hok Hfits Heff. pose proof (fits_extends _ _ _ Hfits) as Hext. unfold admit_batch_locked.
  enough (∃ plan, admit_plan base batch None = Ok plan) as [plan Hplan].
  { rewrite Hplan. destruct (admit_write base batch plan) as [base' r] eqn:Hw. exists base'.
    pose proof (fits_wf _ _ _ Hext) as Hwf. pose proof (admit_plan_ok _ _ _ _ Hok Hwf Hplan) as Hpl.
    by destruct (admit_write_ok _ _ _ _ _ Hok Hwf Hpl Hw) as [-> _]. }
  unfold admit_plan. rewrite (fits_topic _ _ _ Hext) (fits_batch _ _ _ Hfits). res_step.
  rewrite (fits_expected_heads _ _ _ Hext) (fits_expected_state _ _ _ Hext).
  rewrite !bool_decide_true //. cbn [negb refuse_if mbind result_bind].
  rewrite (fits_heads _ _ _ Hfits). res_step. rewrite Hmem. res_step.
  unfold merge_effects. rewrite Heff. cbn [try_fold mbind result_bind].
  destruct (fits_scan _ _ _ Hfits) as [tips ->]. res_step.
  rewrite (fits_deps _ _ _ Hfits). res_step. rewrite !Hmem. res_step.
  match goal with |- context [try_fold ?f ?s (ab_entries batch)] =>
    destruct (try_fold_total f s (ab_entries batch)) as [projected ->] end.
  { intros s [o m] _. rewrite !Hmem. by eexists. }
  res_step. rewrite !Hmem. res_step.
  destruct (Hfp (ab_heads batch) projected) as [f Hf].
  assert (bt_entries (∅ : gmap (PeerId * ObligationKind) (SyncObligation C)) = []) as ->.
  { unfold bt_entries. rewrite dom_empty_L. done. }
  cbn [try_fold mbind result_bind]. rewrite Hf. res_step. by eexists.
Qed.
End commit.
