(* ===== verification/Genesis.v ===== *)
(** * Genesis collisions ([src/src/oplog/genesis.rs])

    Two peers may create the same topic independently. When a foreign genesis meets a
    local one, the smaller id wins if both name the same initial peers: the local
    chain is then reset and what it held is journalled; otherwise the foreign genesis
    and everything behind it in the batch is dropped. *)

From stdpp Require Import relations sorting.
From S2P Require Import Prelude Ids Frame ClockSpec Types Membership Topology.
From S2P Require Import Evidence Records Pool Store StoreLog StoreReads Admission.

#[local] Open Scope N_scope.

(** ** Dropping a genesis and what depends on it *)

(** [children.entry(dep).or_default().push(op.id)] for every dependency *)
Definition add_batch_children (children : gmap OpId (list OpId)) (op : Op) : gmap OpId (list OpId) :=
  foldl (λ ch d, <[d := default [] (ch !! d) ++ [op_id op]]> ch) children
    (bt_elements (deps (obody op))).

(** [if rejected_ids.insert(child) { pending.push_back(child) }] *)
Definition reject_child (st : gset OpId * list OpId) (child : OpId) : gset OpId * list OpId :=
  let '(rejected, queue) := st in
  if decide (child ∈ rejected) then (rejected, queue)
  else ({[child]} ∪ rejected, queue ++ [child]).

(** [while let Some(id) = pending.pop_front()]; every id is queued at most once. *)
Fixpoint reject_loop (fuel : nat) (children : gmap OpId (list OpId)) (rejected : gset OpId)
    (queue : list OpId) : gset OpId :=
  match fuel, queue with
  | S fuel, i :: queue =>
      let '(rejected, queue) :=
        foldl reject_child (rejected, queue) (default [] (children !! i)) in
      reject_loop fuel (delete i children) rejected queue
  | _, _ => rejected
  end.

Definition without_descendants (ops : list Op) (rejected : OpId) : list Op :=
  let children := foldl add_batch_children ∅ ops in
  let rejected_ids := reject_loop (S (length ops)) children {[rejected]} [rejected] in
  filter (λ op, op_id op ∉ rejected_ids) ops.

(** ** Evictions *)

(** The order of [sort_by_key(|meta| (meta.actor_id, meta.actor_seq))] *)
Definition actor_key {C} (meta : OpMeta C) : ActorId * N := (om_actor_id meta, om_actor_seq meta).
Definition by_actor {C} (m n : OpMeta C) : Prop := ble (actor_key m) (actor_key n).

#[global] Instance by_actor_dec {C} : RelDecision (by_actor (C := C)).
Proof. intros m n. unfold by_actor. apply _. Defined.

(** [struct ResetPlan] *)
Record ResetPlan := {
  rp_expected_state : TopicState;
  rp_eviction : TopicEviction;
}.

Section genesis.
Context {C : Type} `{!ClockImpl C} `{!StoreEnv C} `{!Crypto}.
Implicit Types (inner : MemoryInner C) (ops : list Op).

(** [evicted_ops]: damaged records are skipped. *)
Definition evicted_ops inner (ids : gset OpId) : list EvictedOp :=
  let metas := omap (λ i, l_meta (s_log inner) !! i) (bt_elements ids) in
  omap (λ meta : OpMeta C,
    (λ op, {| ev_op_id := om_id meta; ev_actor_id := om_actor_id meta;
              ev_author := om_author meta; ev_actor_seq := om_actor_seq meta;
              ev_payload_of := payload (obody op) |}) <$> l_ops (s_log inner) !! om_id meta)
    (merge_sort by_actor metas).

Definition extract_eviction inner (t : TopicId) (local : TopicState) (winning : OpId)
    : TopicEviction :=
  {| te_topic_id := t; te_losing_genesis := ts_genesis local; te_winning_genesis := winning;
     te_evicted := evicted_ops inner (topic_ids_locked inner t ∖ {[ts_genesis local]}) |}.

(** The closure [peers] of [same_peers] *)
Definition genesis_peers (op : Op) : option (gset PeerId) :=
  match payload (obody op) with Genesis genesis => Some (initial_peers genesis) | _ => None end.

Definition same_peers inner (genesis_id : OpId) (candidate : Op) : bool :=
  match l_ops (s_log inner) !! genesis_id ≫= genesis_peers with
  | None => false
  | Some current =>
      match genesis_peers candidate with
      | Some named => bool_decide (named = current) && bool_decide (author (obody candidate) ∈ named)
      | None => false
      end
  end.

(** [resolve_genesis_collision]: the operations to go on with, the reset when the local
    topic loses, and the genesis that was rejected. *)
Definition resolve_genesis_collision inner ops (verified : gset OpId)
    : res (list Op * option ResetPlan * option OpId) :=
  match List.find is_structural_genesis ops with
  | None => Ok (ops, None, None)
  | Some genesis =>
      let t := topic_id (obody genesis) in
      match topic_state_locked inner t with
      | None => Ok (ops, None, None)
      | Some state =>
          if bool_decide (ts_genesis state = op_id genesis) then Ok (ops, None, None)
          else
            _ ← if bool_decide (op_id genesis ∈ verified) then Ok () else op_validate genesis;
            if bltb (op_id genesis) (ts_genesis state) then
              if negb (same_peers inner (ts_genesis state) genesis)
              then Ok (without_descendants ops (op_id genesis), None, Some (op_id genesis))
              else
                Ok (ops, Some {| rp_expected_state := state;
                  rp_eviction := extract_eviction inner t state (op_id genesis) |}, None)
            else Ok (without_descendants ops (op_id genesis), None, Some (op_id genesis))
      end
  end.
End genesis.

(** ** What the batch keeps *)

(** [c] names [d] as a dependency in the batch. *)
Definition batch_child (ops : list Op) (d c : OpId) : Prop :=
  ∃ op, op ∈ ops ∧ op_id op = c ∧ d ∈ deps (obody op).

Lemma add_batch_children_spec (children : gmap OpId (list OpId)) op d c :
  c ∈ default [] (add_batch_children children op !! d) ↔
    c ∈ default [] (children !! d) ∨ (c = op_id op ∧ d ∈ deps (obody op)).
Proof.
  unfold add_batch_children. rewrite -(elem_of_bt_elements (deps (obody op))). revert children.
  induction (bt_elements (deps (obody op))) as [|x l IH]; intros children; simpl.
  { rewrite elem_of_nil. tauto. }
  rewrite IH elem_of_cons. destruct (decide (d = x)) as [->|Hne].
  - rewrite lookup_insert_eq /= elem_of_app list_elem_of_singleton. tauto.
  - rewrite lookup_insert_ne //. tauto.
Qed.

Lemma batch_children_spec (ops : list Op) d c :
  c ∈ default [] (foldl add_batch_children ∅ ops !! d) ↔ batch_child ops d c.
Proof.
  unfold batch_child. induction ops as [|op ops IH] using rev_ind.
  { rewrite /= lookup_empty /=. split; [by intros ?%elem_of_nil|by intros (? & ?%elem_of_nil & _)]. }
  rewrite foldl_snoc add_batch_children_spec IH. setoid_rewrite elem_of_app.
  setoid_rewrite list_elem_of_singleton. split.
  - intros [(o & Ho & Hrest)|[-> Hd]]; [exists o; split; [by left|done]|]. exists op. by split; [right|].
  - intros (o & [Ho| ->] & <- & Hd); [left; by exists o|by right].
Qed.

Lemma reject_children_spec (l : list OpId) (R : gset OpId) (Q : list OpId) R' Q' :
  NoDup Q → (∀ x, x ∈ Q → x ∈ R) → foldl reject_child (R, Q) l = (R', Q') →
  (∀ x, x ∈ R' ↔ x ∈ R ∨ x ∈ l) ∧ NoDup Q' ∧ (∀ x, x ∈ Q' ↔ x ∈ Q ∨ (x ∈ l ∧ x ∉ R)).
Proof.
  revert R Q. induction l as [|c l IH]; intros R Q Hnd Hsub; cbn [foldl].
  { intros [= <- <-]. split_and!; [intros x|done|intros x]; rewrite elem_of_nil; tauto. }
  cbn [reject_child]. case_decide as Hc; intros Hf.
  - apply IH in Hf as (H1 & H2 & H3); [|done..]. split_and!; [intros x|done|intros x];
      rewrite ?H1 ?H3 elem_of_cons; [|naive_solver]. split; [tauto|]. intros [?|[->|?]]; tauto.
  - apply IH in Hf as (H1 & H2 & H3).
    + split_and!; [intros x|done|intros x].
      * rewrite H1 elem_of_cons elem_of_union elem_of_singleton. tauto.
      * rewrite H3 elem_of_cons elem_of_app list_elem_of_singleton elem_of_union elem_of_singleton.
        destruct (decide (x = c)) as [->|]; tauto.
    + apply NoDup_app. split_and!; [done| |apply NoDup_singleton].
      intros x Hx ->%list_elem_of_singleton. by apply Hc, Hsub.
    + intros x. rewrite elem_of_app list_elem_of_singleton elem_of_union elem_of_singleton. naive_solver.
Qed.

(** What the loop knows: everything rejected descends from [r], and the children of
    whatever left the queue are rejected. *)
Record rejecting (ops : list Op) (r : OpId) (children : gmap OpId (list OpId)) (R : gset OpId)
    (Q : list OpId) : Prop := {
  rj_root : r ∈ R;
  rj_nodup : NoDup Q;
  rj_queue : ∀ x, x ∈ Q → x ∈ R;
  rj_sound : ∀ x, x ∈ R → rtc (batch_child ops) r x;
  rj_closed : ∀ x c, x ∈ R → x ∉ Q → batch_child ops x c → c ∈ R;
  rj_children : ∀ x, x ∈ Q ∨ x ∉ R → ∀ c, c ∈ default [] (children !! x) ↔ batch_child ops x c;
}.

Lemma rejecting_step ops r children R i Q R' Q' :
  rejecting ops r children R (i :: Q) →
  foldl reject_child (R, Q) (default [] (children !! i)) = (R', Q') →
  rejecting ops r (delete i children) R' Q' ∧ R ⊆ R' ∧ (∀ x, x ∈ R → x ∉ i :: Q → x ∉ Q') ∧ i ∉ Q'.
Proof.
  intros [Hroot Hnd Hq Hs Hc Hch] Hf. apply NoDup_cons in Hnd as [Hi Hnd].
  apply reject_children_spec in Hf as (H1 & H2 & H3); [|done|intros x Hx; apply Hq; by right].
  assert (∀ c, c ∈ default [] (children !! i) ↔ batch_child ops i c) as Hchi by (apply Hch; left; by left).
  assert (i ∈ R) as HiR by (apply Hq; by left).
  assert (i ∉ Q') as HiQ by (rewrite H3; tauto).
  split_and!; [|intros x Hx; apply H1; by left|
    intros x Hx Hnx; rewrite H3; rewrite elem_of_cons in Hnx; tauto|done].
  split.
  - apply H1. by left.
  - done.
  - intros x Hx. apply H3 in Hx as [Hx|[Hx _]]; apply H1; [left; apply Hq; by right|by right].
  - intros x [Hx|Hx]%H1; [by apply Hs|]. eapply rtc_r; [by apply (Hs i)|by apply Hchi].
  - intros x c [Hx|Hx]%H1 Hnx Hxc; apply H1.
    + destruct (decide (x = i)) as [->|Hne]; [right; by apply Hchi|]. left. apply (Hc x c Hx); [|done].
      rewrite elem_of_cons. intros [?|?]; [done|]. apply Hnx, H3. by left.
    + destruct (decide (x ∈ R)) as [HxR|HxR]; [|destruct Hnx; apply H3; by right].
      destruct (decide (x = i)) as [->|Hne]; [right; by apply Hchi|]. left. apply (Hc x c HxR); [|done].
      rewrite elem_of_cons. intros [?|?]; [done|]. apply Hnx, H3. by left.
  - intros x Hx c. destruct (decide (x = i)) as [->|Hne].
    { destruct Hx as [Hx|Hx]; [done|]. destruct Hx. apply H1. by left. }
    rewrite lookup_delete_ne //. apply Hch. rewrite elem_of_cons. destruct Hx as [Hx|Hx].
    + apply H3 in Hx as [Hx|[_ Hx]]; tauto.
    + right. intros HxR. apply Hx, H1. by left.
Qed.

(** An empty queue means the rejected ids are closed. *)
Lemma rejecting_done ops r children R :
  rejecting ops r children R [] → ∀ x, x ∈ R ↔ rtc (batch_child ops) r x.
Proof.
  intros [Hroot _ _ Hs Hc _] x. split; [apply Hs|]. intros Hr. revert Hroot. clear Hs.
  induction Hr as [|y z w Hyz _ IH]; intros Hy; [done|]. apply IH.
  apply (Hc y z Hy); [by apply not_elem_of_nil|done].
Qed.

Lemma size_list_to_set_le (l : list OpId) : (size (list_to_set l : gset OpId) ≤ length l)%nat.
Proof.
  induction l as [|x l IH]; [by rewrite size_empty|]. cbn [list_to_set foldr length]. rewrite size_union_alt size_singleton.
  pose proof (subseteq_size (list_to_set l ∖ {[x]} : gset OpId) (list_to_set l) ltac:(set_solver)). simpl in *. lia.
Qed.

(** With fuel for every id of the batch, the loop rejects exactly the descendants. *)
Lemma reject_loop_spec ops r fuel children R Q :
  rejecting ops r children R Q →
  (size (({[r]} ∪ list_to_set (op_id <$> ops) : gset OpId) ∖ (R ∖ list_to_set Q)) ≤ fuel)%nat →
  ∀ x, x ∈ reject_loop fuel children R Q ↔ rtc (batch_child ops) r x.
Proof.
  set (U := ({[r]} ∪ list_to_set (op_id <$> ops) : gset OpId)).
  assert (∀ x, rtc (batch_child ops) r x → x ∈ U) as HU.
  { intros x Hr. apply rtc_inv_r in Hr as [->|(y & _ & (op & Hop & <- & _))]; unfold U; [set_solver|].
    apply elem_of_union. right. apply elem_of_list_to_set. by apply list_elem_of_fmap_2. }
  revert children R Q. induction fuel as [|fuel IH]; intros children R Q Hrj Hsize x.
  - simpl. assert (Q = []) as ->.
    { destruct Q as [|i Q]; [done|]. exfalso. apply (not_elem_of_empty (C := gset OpId) i).
      assert (U ∖ (R ∖ list_to_set (i :: Q)) = ∅) as <- by (apply leibniz_equiv, size_empty_inv; lia).
      assert (i ∈ R) as HiR by (apply (rj_queue _ _ _ _ _ Hrj); by left).
      apply elem_of_difference. split; [by apply HU, (rj_sound _ _ _ _ _ Hrj)|]. set_solver. }
    by apply (rejecting_done ops r children).
  - simpl. destruct Q as [|i Q].
    { by apply (rejecting_done ops r children). }
    destruct (foldl reject_child (R, Q) _) as [R' Q'] eqn:Hf.
    destruct (rejecting_step _ _ _ _ _ _ _ _ Hrj Hf) as (Hrj' & Hsub & Hproc & Hi). apply IH; [done|].
    assert (i ∈ R) as HiR by (apply (rj_queue _ _ _ _ _ Hrj); by left).
    assert (U ∖ (R' ∖ list_to_set Q') ⊂ U ∖ (R ∖ list_to_set (i :: Q))) as Hlt; [|apply subset_size in Hlt; lia].
    split.
    + intros y. rewrite !elem_of_difference !elem_of_list_to_set. intros [Hy Hny]. split; [done|].
      intros [HyR HyQ]. apply Hny. split; [by apply Hsub|by apply Hproc].
    + intros Hall. assert (i ∈ U ∖ (R' ∖ list_to_set Q')) as Hbad.
      { apply Hall. rewrite !elem_of_difference !elem_of_list_to_set.
        split; [by apply HU, (rj_sound _ _ _ _ _ Hrj)|]. intros [_ Hn]. apply Hn. by left. }
      rewrite !elem_of_difference !elem_of_list_to_set in Hbad. destruct Hbad as [_ Hbad]. apply Hbad.
      split; [by apply Hsub|done].
Qed.

(** Dropping a rejected genesis from a batch keeps, in their order,
    exactly the operations that are neither the genesis nor behind it through
    dependencies within the batch. *)
Theorem without_descendants_exact (ops : list Op) (r : OpId) :
  without_descendants ops r `sublist_of` ops ∧
  ∀ op, op ∈ without_descendants ops r ↔ op ∈ ops ∧ ¬ rtc (batch_child ops) r (op_id op).
Proof.
  unfold without_descendants. split; [apply sublist_filter|]. intros op. rewrite list_elem_of_filter.
  rewrite (reject_loop_spec ops r); [| |tauto].
  - split; try done.
    + by apply elem_of_singleton.
    + apply NoDup_singleton.
    + intros x ->%list_elem_of_singleton. by apply elem_of_singleton.
    + by intros x ->%elem_of_singleton.
    + intros x c ->%elem_of_singleton Hx. destruct Hx. by apply list_elem_of_singleton.
    + intros x _ c. apply batch_children_spec.
  - pose proof (size_list_to_set_le (op_id <$> ops)) as Hl. rewrite length_fmap in Hl.
    etrans; [apply subseteq_size, (subseteq_difference_l _ _ _ (reflexivity _))|].
    rewrite size_union_alt size_singleton. apply le_n_S. etrans; [|exact Hl].
    apply subseteq_size, (subseteq_difference_l _ _ _ (reflexivity _)).
Qed.

(** ** The eviction record *)

#[global] Instance by_actor_total {C} : Total (by_actor (C := C)).
Proof. intros m n. apply (total ble). Qed.
#[global] Instance by_actor_trans {C} : Transitive (by_actor (C := C)).
Proof. intros m n k. unfold by_actor. apply transitivity. Qed.

Section records.
Context {C : Type} `{!ClockImpl C} `{!StoreEnv C} `{!Crypto}.
Implicit Types (inner : MemoryInner C) (ops : list Op) (meta : OpMeta C).

(** The record of one discarded operation. *)
Definition evicted_of (op : Op) meta : EvictedOp :=
  {| ev_op_id := om_id meta; ev_actor_id := om_actor_id meta; ev_author := om_author meta;
     ev_actor_seq := om_actor_seq meta; ev_payload_of := payload (obody op) |}.
Definition evicted_key (e : EvictedOp) : ActorId * N := (ev_actor_id e, ev_actor_seq e).

Lemma position_unique inner i j mi mj :
  log_ok (s_log inner) → l_meta (s_log inner) !! i = Some mi → l_meta (s_log inner) !! j = Some mj →
  om_topic_id mi = om_topic_id mj → actor_key mi = actor_key mj → i = j.
Proof.
  intros Hlog Hi Hj Ht [= Ha Hs].
  assert (l_actor_by_seq (s_log inner) !! (om_topic_id mi, om_actor_id mi, om_actor_seq mi) = Some i) as H1
    by (apply (lo_seq _ Hlog); by exists mi).
  assert (l_actor_by_seq (s_log inner) !! (om_topic_id mi, om_actor_id mi, om_actor_seq mi) = Some j) as H2
    by (apply (lo_seq _ Hlog); exists mj; by rewrite Ht Ha Hs).
  congruence.
Qed.

(** The record of a stored operation, as [evicted_ops] looks it up. *)
Definition record_of inner meta : option EvictedOp :=
  (λ op, evicted_of op meta) <$> l_ops (s_log inner) !! om_id meta.

Lemma sorted_records inner (t : TopicId) (l : list (OpMeta C)) :
  log_ok (s_log inner) → StronglySorted by_actor l → NoDup l →
  (∀ m, m ∈ l → l_meta (s_log inner) !! om_id m = Some m ∧ om_topic_id m = t) →
  StronglySorted blt (evicted_key <$> omap (record_of inner) l).
Proof.
  intros Hlog Hs. induction Hs as [|m l Hs IH Hall]; intros Hnd Hstored; [constructor|].
  apply NoDup_cons in Hnd as [Hm Hnd].
  assert (StronglySorted blt (evicted_key <$> omap (record_of inner) l)) as Hrest.
  { apply IH; [done|]. intros m' Hm'. apply Hstored. by right. }
  simpl. destruct (record_of inner m) as [e|] eqn:He; [|done]. constructor; [done|].
  apply Forall_forall. intros k (e' & -> & (m' & Hm' & He')%list_elem_of_omap)%list_elem_of_fmap.
  apply fmap_Some in He as (o & _ & ->), He' as (o' & _ & ->).
  change (blt (actor_key m) (actor_key m')).
  pose proof (proj1 (Forall_forall _ _) Hall m' Hm') as Hle.
  apply ble_lt_eq in Hle as [?|Heq]; [done|].
  destruct (Hstored m) as [H1 Ht1]; [by left|]. destruct (Hstored m') as [H2 Ht2]; [by right|].
  assert (om_id m = om_id m') as Hid by (eapply position_unique; [done..|congruence|done]).
  rewrite Hid H2 in H1. injection H1 as ->. done.
Qed.

Lemma evicted_ops_spec inner (ids : gset OpId) (t : TopicId) :
  log_ok (s_log inner) → (∀ i m, i ∈ ids → l_meta (s_log inner) !! i = Some m → om_topic_id m = t) →
  StronglySorted blt (evicted_key <$> evicted_ops inner ids) ∧
  ∀ e, e ∈ evicted_ops inner ids ↔ ∃ i op m, i ∈ ids ∧ l_ops (s_log inner) !! i = Some op ∧
    l_meta (s_log inner) !! i = Some m ∧ e = evicted_of op m.
Proof.
  intros Hlog Htopic. unfold evicted_ops.
  set (metas := omap (λ i, l_meta (s_log inner) !! i) (bt_elements ids)).
  assert (∀ m, m ∈ merge_sort by_actor metas ↔ ∃ i, i ∈ ids ∧ l_meta (s_log inner) !! i = Some m) as Hin.
  { intros m. rewrite merge_sort_Permutation /metas list_elem_of_omap. by setoid_rewrite elem_of_bt_elements. }
  assert (∀ i m, l_meta (s_log inner) !! i = Some m → om_id m = i) as Hid.
  { intros i m Hm. assert (is_Some (l_ops (s_log inner) !! i)) as [op Hop].
    { rewrite -elem_of_dom (lo_dom _ Hlog). apply elem_of_dom. by eexists. }
    by destruct (lo_entry _ Hlog i op m Hop Hm) as (_ & Hi & _). }
  split.
  - apply (sorted_records inner t); [done|apply (StronglySorted_merge_sort by_actor _)| |].
    + rewrite merge_sort_Permutation /metas. clear Hin metas. pose proof (bt_elements_NoDup ids) as Hnd.
      induction Hnd as [|i l Hi Hnd IH]; [constructor|].
      simpl. destruct (l_meta (s_log inner) !! i) as [m|] eqn:Hm; [|apply IH]. constructor; [|apply IH].
      intros (j & Hj & Hmj)%list_elem_of_omap. apply Hi. by rewrite -(Hid _ _ Hm) (Hid _ _ Hmj).
    + intros m (i & Hi & Hm)%Hin. rewrite (Hid i m Hm). split; [done|by eapply Htopic].
  - intros e. rewrite list_elem_of_omap. split.
    + intros (m & (i & Hi & Hm)%Hin & (op & Hop & ->)%fmap_Some). rewrite (Hid i m Hm) in Hop.
      by exists i, op, m.
    + intros (i & op & m & Hi & Hop & Hm & ->). exists m. split; [apply Hin; by exists i|].
      by rewrite (Hid i m Hm) Hop /= /evicted_of (Hid i m Hm).
Qed.

(** ** The tie-break *)

(** The genesis of a batch that meets a local topic of another genesis. *)
Definition collides inner ops (genesis : Op) (state : TopicState) : Prop :=
  List.find is_structural_genesis ops = Some genesis ∧
  topic_state_locked inner (topic_id (obody genesis)) = Some state ∧
  ts_genesis state ≠ op_id genesis.

Lemma structural_is_genesis op : is_structural_genesis op = true → is_genesis op = true.
Proof. unfold is_structural_genesis. by intros [[[? _]%andb_true_iff _]%andb_true_iff _]%andb_true_iff. Qed.

(** C29: a foreign genesis resets the local topic only when its id is the smaller
    one, its signature is valid, it names the initial peers of the local genesis and
    its author is one of them. The plan expects exactly the current topic state, and
    its eviction record lists every operation of the topic but the genesis once, by
    actor and sequence number. In every other collision the local topic stays and the
    foreign genesis is rejected with what depends on it. *)
Theorem collision_resolution inner ops verified genesis state kept reset rejected :
  log_ok (s_log inner) → collides inner ops genesis state →
  resolve_genesis_collision inner ops verified = Ok (kept, reset, rejected) →
  (op_id genesis ∈ verified ∨ op_validate genesis = Ok ()) ∧
  match reset with
  | Some plan =>
      kept = ops ∧ rejected = None ∧ blt (op_id genesis) (ts_genesis state) ∧
      rp_expected_state plan = state ∧
      te_losing_genesis (rp_eviction plan) = ts_genesis state ∧
      te_winning_genesis (rp_eviction plan) = op_id genesis ∧
      (∃ local peers, l_ops (s_log inner) !! ts_genesis state = Some local ∧
        genesis_peers local = Some peers ∧ genesis_peers genesis = Some peers ∧
        author (obody genesis) ∈ peers) ∧
      StronglySorted blt (evicted_key <$> te_evicted (rp_eviction plan)) ∧
      ∀ e, e ∈ te_evicted (rp_eviction plan) ↔ ∃ i op m, i ≠ ts_genesis state ∧
        l_ops (s_log inner) !! i = Some op ∧ l_meta (s_log inner) !! i = Some m ∧
        om_topic_id m = topic_id (obody genesis) ∧ e = evicted_of op m
  | None =>
      kept = without_descendants ops (op_id genesis) ∧ rejected = Some (op_id genesis) ∧
      (ble (ts_genesis state) (op_id genesis) ∨ same_peers inner (ts_genesis state) genesis = false)
  end.
Proof.
  intros Hlog (Hfind & Hstate & Hne) Hres. unfold resolve_genesis_collision in Hres.
  rewrite Hfind Hstate bool_decide_false // in Hres. next_ok Hres as (u & Hval & Hres).
  split; [case_bool_decide; [by left|right; by destruct u]|].
  destruct (bltb (op_id genesis) (ts_genesis state)) eqn:Hlt.
  2: { apply bltb_ge in Hlt. injection Hres as <- <- <-. split_and!; [done|done|by left]. }
  destruct (same_peers inner (ts_genesis state) genesis) eqn:Hsame; cbn [negb] in Hres; injection Hres as <- <- <-.
  2: { split_and!; [done|done|by right]. }
  apply bltb_lt in Hlt. cbn [rp_expected_state rp_eviction extract_eviction te_losing_genesis te_winning_genesis
    te_evicted]. split_and!; try done.
  - unfold same_peers in Hsame. destruct (l_ops (s_log inner) !! ts_genesis state) as [local|] eqn:Hl; [|done].
    simpl in Hsame. destruct (genesis_peers local) as [peers|] eqn:Hp; [|done].
    destruct (genesis_peers genesis) as [named|] eqn:Hn; [|done].
    apply andb_true_iff in Hsame as [->%bool_decide_eq_true Ha%bool_decide_eq_true]. by exists local, peers.
  - eapply (evicted_ops_spec inner _ (topic_id (obody genesis)) Hlog).
    intros i m [Hi _]%elem_of_difference Hm. apply (proj1 (lo_topic _ Hlog)) in Hi as (m' & Hm' & Ht). congruence.
  - intros e. rewrite (proj2 (evicted_ops_spec inner _ (topic_id (obody genesis)) Hlog _)).
    { intros i m [Hi _]%elem_of_difference Hm. apply (proj1 (lo_topic _ Hlog)) in Hi as (m' & Hm' & Ht). congruence. }
    split.
    + intros (i & op & m & [Hi Hni]%elem_of_difference & Hop & Hm & ->). exists i, op, m.
      apply (proj1 (lo_topic _ Hlog)) in Hi as (m' & Hm' & Ht). rewrite elem_of_singleton in Hni.
      split_and!; [done..|congruence|done].
    + intros (i & op & m & Hni & Hop & Hm & Ht & ->). exists i, op, m. split_and!; [|done..].
      rewrite elem_of_difference elem_of_singleton. split; [|done].
      apply (proj1 (lo_topic _ Hlog)). by exists m.
Qed.

(** Whether a replica that receives [genesis] alone abandons its own genesis for it. *)
Definition yields inner (genesis : Op) : bool :=
  match resolve_genesis_collision inner [genesis] {[op_id genesis]} with
  | Ok (_, Some _, _) => true
  | _ => false
  end.

End records.
