(* ===== verification/Turns.v ===== *)
(** * Admission turns ([src/src/oplog/turns.rs])

    One admission per topic at a time. Callers of [take] share a lock that guards the
    busy topics, wait on a condition variable while their topic is busy, and give up
    with a conflict when their patience ends; a turn gives its topic back when it is
    dropped and wakes every waiter.

    What runs under the lock is one function each ([look], [resume], [give_back]). The
    step relation interleaves the callers, with time passing and waiters waking for no
    reason, as [Condvar::wait_timeout] allows. Nothing panics under the lock, so it
    is never poisoned. *)

From Stdlib Require Import Relation_Operators Lexicographic_Product Wf_nat.
From stdpp Require Import relations.
From S2P Require Import Prelude Ids Types.

#[local] Open Scope N_scope.

(** [struct Busy { topics: BTreeSet<TopicId>, waiting: usize }] *)
Record Busy := { b_topics : gset TopicId; b_waiting : nat }.

Definition busy_default : Busy := {| b_topics := ∅; b_waiting := 0 |}.

(** What the loop of [take] decides under the lock. *)
Inductive Look :=
  | Taken (busy : Busy)
  | Waits (busy : Busy)
  | Refused (busy : Busy) (error : Error).

(** The loop of [take] up to its next wait: [deadline.checked_duration_since(now)] is
    absent or zero once the deadline is reached. *)
Definition look (busy : Busy) (topic : TopicId) (deadline now : N) : Look :=
  if bool_decide (topic ∈ b_topics busy) then
    if now <? deadline
    then Waits {| b_topics := b_topics busy; b_waiting := S (b_waiting busy) |}
    else Refused busy AdmissionConflict
  else Taken {| b_topics := {[topic]} ∪ b_topics busy; b_waiting := b_waiting busy |}.

(** A waiter that got the lock back: [busy.waiting -= 1], then the loop again. *)
Definition resume (busy : Busy) (topic : TopicId) (deadline now : N) : Look :=
  look {| b_topics := b_topics busy; b_waiting := pred (b_waiting busy) |} topic deadline now.

(** [drop] of an [AdmissionTurn], up to the release of the lock *)
Definition give_back (busy : Busy) (topic : TopicId) : Busy :=
  {| b_topics := b_topics busy ∖ {[topic]}; b_waiting := b_waiting busy |}.

(** ** The callers *)

(** Where a caller is: about to lock in [take]; in [wait_timeout], with the wakeup it
    was sent; holding a turn; or dropping it, between the lock and [notify_all]. *)
Inductive Phase :=
  | Asking (topic : TopicId) (deadline : N)
  | Waiting (topic : TopicId) (deadline : N) (notified : bool)
  | Holding (topic : TopicId)
  | Notifying.

(** [AdmissionTurns], its callers by thread and the clock of [Instant::now]. *)
Record Turns := {
  tn_busy : Busy;
  tn_threads : gmap nat Phase;
  tn_now : N;
}.

Definition turns_default : Turns := {| tn_busy := busy_default; tn_threads := ∅; tn_now := 0 |}.

(** The caller's part of a decision: it holds, waits, or returned with the error. *)
Definition settle (s : Turns) (i : nat) (topic : TopicId) (deadline : N) (l : Look) : Turns :=
  match l with
  | Taken busy =>
      {| tn_busy := busy; tn_threads := <[i := Holding topic]> (tn_threads s); tn_now := tn_now s |}
  | Waits busy =>
      {| tn_busy := busy; tn_threads := <[i := Waiting topic deadline false]> (tn_threads s);
         tn_now := tn_now s |}
  | Refused busy _ =>
      {| tn_busy := busy; tn_threads := delete i (tn_threads s); tn_now := tn_now s |}
  end.

(** [notify_all] *)
Definition notified (p : Phase) : Phase :=
  match p with Waiting t d _ => Waiting t d true | _ => p end.

(** What a thread that is inside [take] or dropping a turn does next. *)
Inductive move (s : Turns) : Turns → Prop :=
  | move_look i t d :
      tn_threads s !! i = Some (Asking t d) →
      move s (settle s i t d (look (tn_busy s) t d (tn_now s)))
  | move_resume i t d n :
      tn_threads s !! i = Some (Waiting t d n) → n = true ∨ d ≤ tn_now s →
      move s (settle s i t d (resume (tn_busy s) t d (tn_now s)))
  | move_drop i t :
      tn_threads s !! i = Some (Holding t) →
      move s {| tn_busy := give_back (tn_busy s) t; tn_threads := <[i := Notifying]> (tn_threads s);
                tn_now := tn_now s |}
  | move_notify i :
      tn_threads s !! i = Some Notifying →
      move s {| tn_busy := tn_busy s; tn_threads := notified <$> delete i (tn_threads s);
                tn_now := tn_now s |}.

(** What the rest of the world does: time passes, threads call [take], waiters wake
    without a reason. *)
Inductive disturb (patience : N) (s : Turns) : Turns → Prop :=
  | disturb_tick now :
      tn_now s ≤ now →
      disturb patience s {| tn_busy := tn_busy s; tn_threads := tn_threads s; tn_now := now |}
  | disturb_call i t :
      tn_threads s !! i = None →
      disturb patience s {| tn_busy := tn_busy s;
        tn_threads := <[i := Asking t (tn_now s + patience)]> (tn_threads s); tn_now := tn_now s |}
  | disturb_spurious i t d n :
      tn_threads s !! i = Some (Waiting t d n) →
      disturb patience s (settle s i t d (resume (tn_busy s) t d (tn_now s))).

Definition turn_step (patience : N) (s s' : Turns) : Prop := move s s' ∨ disturb patience s s'.

Definition turns_reachable (patience : N) (s : Turns) : Prop :=
  rtc (turn_step patience) turns_default s.

(** ** Sums over the callers *)

Definition total (w : Phase → nat) (m : gmap nat Phase) : nat :=
  map_fold (λ _ p n, (w p + n)%nat) 0%nat m.

Lemma total_insert w m i p :
  m !! i = None → total w (<[i := p]> m) = (w p + total w m)%nat.
Proof. intros Hi. unfold total. rewrite map_fold_insert_L //. lia. Qed.

Lemma total_delete w m i p :
  m !! i = Some p → total w m = (w p + total w (delete i m))%nat.
Proof.
  intros Hi. rewrite -{1}(insert_delete_id m i p) //. apply total_insert. apply lookup_delete_eq.
Qed.

Lemma total_update w m i p q :
  m !! i = Some p → (total w (<[i := q]> m) + w p = total w m + w q)%nat.
Proof.
  intros Hi. rewrite -insert_delete_eq total_insert ?lookup_delete_eq // (total_delete w m i p) //. lia.
Qed.

Lemma total_fmap w f m : total w (f <$> m) = total (w ∘ f) m.
Proof.
  induction m as [|i p m Hi IH] using map_ind; [done|].
  rewrite fmap_insert !total_insert ?lookup_fmap ?Hi //. by rewrite IH.
Qed.

Lemma total_ext w w' m : (∀ p, w p = w' p) → total w m = total w' m.
Proof.
  intros Hw. induction m as [|i p m Hi IH] using map_ind; [done|]. rewrite !total_insert // IH Hw //.
Qed.

Definition is_waiting (p : Phase) : nat := match p with Waiting _ _ _ => 1 | _ => 0 end.

(** ** Exclusion *)

(** The busy topics are those of the turns that are held, one turn each; the counter
    counts the waiters; and a waiter that nobody woke yet waits for a turn that is
    held, or somebody is about to wake it. *)
Record turns_ok (s : Turns) : Prop := {
  to_topics t : t ∈ b_topics (tn_busy s) ↔ ∃ i, tn_threads s !! i = Some (Holding t);
  to_one i j t : tn_threads s !! i = Some (Holding t) → tn_threads s !! j = Some (Holding t) → i = j;
  to_waiting : b_waiting (tn_busy s) = total is_waiting (tn_threads s);
  to_wakeup i t d : tn_threads s !! i = Some (Waiting t d false) →
    t ∈ b_topics (tn_busy s) ∨ ∃ j, tn_threads s !! j = Some Notifying;
}.

(** A caller inside [take] *)
Definition inside (p : Phase) (t : TopicId) (d : N) : Prop :=
  p = Asking t d ∨ ∃ n, p = Waiting t d n.

(** Phases that neither hold nor notify *)
Definition quiet (p : Phase) : Prop := (∀ t, p ≠ Holding t) ∧ p ≠ Notifying.

Lemma inside_quiet p t d : inside p t d → quiet p.
Proof. by intros [-> |[n ->]]. Qed.

(** Replacing a quiet phase by another, or removing it, changes who holds what only
    for the thread itself. *)
Lemma quiet_others (m : gmap nat Phase) i p q j r :
  m !! i = Some p → quiet p → quiet q → (∃ t, r = Holding t) ∨ r = Notifying →
  <[i := q]> m !! j = Some r ↔ m !! j = Some r.
Proof.
  intros Hi [Hp Hp'] [Hq Hq'] Hr. destruct (decide (i = j)) as [<-|Hne]; [|by rewrite lookup_insert_ne].
  rewrite lookup_insert_eq Hi. destruct Hr as [[t ->]| ->]; split; intros [= ?]; subst; naive_solver.
Qed.

Lemma quiet_removed (m : gmap nat Phase) i p j r :
  m !! i = Some p → quiet p → (∃ t, r = Holding t) ∨ r = Notifying →
  delete i m !! j = Some r ↔ m !! j = Some r.
Proof.
  intros Hi [Hp Hp'] Hr. destruct (decide (i = j)) as [<-|Hne]; [|by rewrite lookup_delete_ne].
  rewrite lookup_delete_eq Hi. destruct Hr as [[t ->]| ->]; split; intros [= ?]; subst; naive_solver.
Qed.

(** Who holds and who notifies, carried to another state of the threads. *)
Lemma ok_transfer s s' :
  turns_ok s → b_topics (tn_busy s') = b_topics (tn_busy s) →
  (∀ j r, (∃ t, r = Holding t) ∨ r = Notifying → tn_threads s' !! j = Some r ↔ tn_threads s !! j = Some r) →
  b_waiting (tn_busy s') = total is_waiting (tn_threads s') →
  (∀ i t d, tn_threads s' !! i = Some (Waiting t d false) →
    tn_threads s !! i = Some (Waiting t d false) ∨ t ∈ b_topics (tn_busy s)) →
  turns_ok s'.
Proof.
  intros [Ht H1 Hw Hwake] Htop Hsame Hw' Hnew. split.
  - intros t. rewrite Htop Ht. split; intros [i Hi]; exists i; apply Hsame in Hi; eauto.
  - intros i j t Hi Hj. apply (H1 i j t); apply Hsame; eauto.
  - done.
  - intros i t d Hi. rewrite Htop. destruct (Hnew i t d Hi) as [Hold|?]; [|by left].
    destruct (Hwake i t d Hold) as [?|[j Hj]]; [by left|right]. exists j. apply Hsame; eauto.
Qed.

(** The decision of a caller under the lock keeps the invariant. *)
Lemma turns_settle_ok s i p t d :
  turns_ok s → tn_threads s !! i = Some p → inside p t d →
  turns_ok (settle s i t d (look {| b_topics := b_topics (tn_busy s);
    b_waiting := (b_waiting (tn_busy s) - is_waiting p)%nat |} t d (tn_now s))).
Proof.
  intros Hok Hi Hp. pose proof (inside_quiet p t d Hp) as Hq. pose proof (to_waiting s Hok) as Hw.
  pose proof (λ q, total_update is_waiting (tn_threads s) i p q Hi) as Hup.
  pose proof (total_delete is_waiting (tn_threads s) i p Hi) as Hdel.
  unfold look. cbn [b_topics b_waiting]. case_bool_decide as Hin; [case: (tn_now s <? d)|]; cbn [settle].
  - apply (ok_transfer s); cbn [tn_busy tn_threads b_topics b_waiting]; [done..| | |].
    + intros j r Hr. by eapply quiet_others.
    + specialize (Hup (Waiting t d false)). cbn [is_waiting] in Hup. lia.
    + intros j t' d'. rewrite lookup_insert. case_decide; [intros [= -> ->]; by right|by left].
  - apply (ok_transfer s); cbn [tn_busy tn_threads b_topics b_waiting]; [done..| | |].
    + intros j r Hr. by eapply quiet_removed.
    + lia.
    + intros j t' d'. rewrite lookup_delete_Some. naive_solver.
  - specialize (Hup (Holding t)). cbn [is_waiting] in Hup.
    assert (∀ j t', tn_threads s !! j = Some (Holding t') → t' ≠ t) as Hfree.
    { intros j t' Hj ->. apply Hin, (to_topics s Hok). by exists j. }
    split; cbn [tn_busy tn_threads b_topics b_waiting].
    + intros t'. rewrite elem_of_union elem_of_singleton (to_topics s Hok). split.
      * intros [->|[j Hj]]; [exists i; by rewrite lookup_insert_eq|]. exists j.
        rewrite lookup_insert_ne //. intros <-. rewrite Hi in Hj. injection Hj as ->. by destruct (proj1 Hq t').
      * intros [j Hj]. rewrite lookup_insert in Hj. case_decide; [left; congruence|right; by exists j].
    + intros j k t'. rewrite !lookup_insert. do 2 case_decide; [congruence|..|by apply (to_one s Hok)].
      * intros [= <-] Hk. by destruct (Hfree k t).
      * intros Hj [= <-]. by destruct (Hfree j t).
    + lia.
    + intros j t' d'. rewrite lookup_insert. case_decide as Hij; [done|]. intros Hj.
      destruct (to_wakeup s Hok j t' d' Hj) as [?|[k Hk]]; [left; set_solver|right]. exists k.
      rewrite lookup_insert_ne //. intros <-. rewrite Hi in Hk. injection Hk as ->. by destruct Hq.
Qed.

Lemma look_ok s i t d :
  turns_ok s → tn_threads s !! i = Some (Asking t d) →
  turns_ok (settle s i t d (look (tn_busy s) t d (tn_now s))).
Proof.
  intros Hok Hi. pose proof (turns_settle_ok s i _ t d Hok Hi) as Hs. cbn [is_waiting] in Hs.
  rewrite Nat.sub_0_r in Hs. destruct (tn_busy s). apply Hs. by left.
Qed.

Lemma resume_ok s i t d n :
  turns_ok s → tn_threads s !! i = Some (Waiting t d n) →
  turns_ok (settle s i t d (resume (tn_busy s) t d (tn_now s))).
Proof.
  intros Hok Hi. pose proof (turns_settle_ok s i _ t d Hok Hi) as Hs. cbn [is_waiting] in Hs.
  rewrite Nat.sub_1_r in Hs. apply Hs. right. by eexists.
Qed.

Lemma drop_ok s i t :
  turns_ok s → tn_threads s !! i = Some (Holding t) →
  turns_ok {| tn_busy := give_back (tn_busy s) t; tn_threads := <[i := Notifying]> (tn_threads s);
              tn_now := tn_now s |}.
Proof.
  intros Hok Hi. split; cbn [tn_busy tn_threads give_back b_topics b_waiting].
  - intros t'. rewrite elem_of_difference elem_of_singleton (to_topics s Hok). split.
    + intros [[j Hj] Hne]. exists j. rewrite lookup_insert_ne //. congruence.
    + intros [j Hj]. rewrite lookup_insert in Hj. case_decide as Hij; [done|]. split; [by exists j|].
      intros ->. by apply Hij, (to_one s Hok _ _ t).
  - intros j k t'. rewrite !lookup_insert. do 2 case_decide; try done. by apply (to_one s Hok).
  - pose proof (total_update is_waiting _ i _ Notifying Hi) as Hup. cbn [is_waiting] in Hup.
    rewrite (to_waiting s Hok). lia.
  - intros j t' d _. right. exists i. by rewrite lookup_insert_eq.
Qed.

Lemma notify_ok s i :
  turns_ok s → tn_threads s !! i = Some Notifying →
  turns_ok {| tn_busy := tn_busy s; tn_threads := notified <$> delete i (tn_threads s);
              tn_now := tn_now s |}.
Proof.
  intros Hok Hi.
  assert (∀ j t, (notified <$> delete i (tn_threads s)) !! j = Some (Holding t) ↔
    tn_threads s !! j = Some (Holding t)) as Hh.
  { intros j t. rewrite lookup_fmap fmap_Some. split.
    - intros ([] & [_ Hj]%lookup_delete_Some & Heq); naive_solver.
    - intros Hj. exists (Holding t). split; [|done]. rewrite lookup_delete_Some. split; [congruence|done]. }
  split; cbn [tn_busy tn_threads].
  - intros t. rewrite (to_topics s Hok). split; intros [j Hj]; exists j; by apply Hh.
  - intros j k t Hj%Hh Hk%Hh. by apply (to_one s Hok _ _ t).
  - rewrite (to_waiting s Hok) total_fmap (total_delete _ _ _ _ Hi) /=. apply total_ext. by intros [].
  - intros j t d. rewrite lookup_fmap. by intros ([] & _ & ?)%fmap_Some.
Qed.

Lemma step_ok patience s s' : turns_ok s → turn_step patience s s' → turns_ok s'.
Proof.
  intros Hok [Hm|Hd].
  - destruct Hm; [by apply look_ok|by eapply resume_ok|by apply drop_ok|by apply notify_ok].
  - destruct Hd as [now Hnow|i t Hi|i t d n Hi].
    + by destruct Hok.
    + assert (∀ j p, (∀ d, p ≠ Asking t d) →
        <[i := Asking t (tn_now s + patience)]> (tn_threads s) !! j = Some p ↔ tn_threads s !! j = Some p) as Hsame.
      { intros j p Hp. rewrite lookup_insert. case_decide as Hij; [subst; rewrite Hi; naive_solver|done]. }
      apply (ok_transfer s); cbn [tn_busy tn_threads]; [done..| | |].
      * intros j r Hr. apply Hsame. intros d ->. naive_solver.
      * by rewrite total_insert // (to_waiting s Hok).
      * intros j t' d Hj. left. by apply Hsame in Hj.
    + by eapply resume_ok.
Qed.

Lemma reachable_ok patience s : turns_reachable patience s → turns_ok s.
Proof.
  unfold turns_reachable. intros Hr. revert Hr. apply rtc_ind_r.
  - split; cbn; [|done..]. intros t. split; [by intros ?%elem_of_empty|by intros [i ?]].
  - intros s1 s2 _ Hs Hok. by eapply step_ok.
Qed.

(** C33: at most one admission of a topic holds a turn, in every interleaving of callers,
    timeouts and wakeups. The busy topics are exactly those of the turns held, the
    counter counts the waiters, and no wakeup is lost: a waiter that was not woken
    waits for a turn that is held, or a turn is being given back and will wake it. *)
Theorem turns_exclusive patience s :
  turns_reachable patience s →
  (∀ i j t, tn_threads s !! i = Some (Holding t) → tn_threads s !! j = Some (Holding t) → i = j) ∧
  (∀ t, t ∈ b_topics (tn_busy s) ↔ ∃ i, tn_threads s !! i = Some (Holding t)) ∧
  b_waiting (tn_busy s) = total is_waiting (tn_threads s) ∧
  ∀ i t d, tn_threads s !! i = Some (Waiting t d false) →
    t ∈ b_topics (tn_busy s) ∨ ∃ j, tn_threads s !! j = Some Notifying.
Proof. intros Hr. destruct (reachable_ok _ _ Hr). eauto 6. Qed.

(** ** Every caller returns *)

(** Steps a caller still has before it: to take, to give back and to wake others. *)
Definition distance (p : Phase) : nat :=
  match p with Asking _ _ | Waiting _ _ _ => 3 | Holding _ => 2 | Notifying => 1 end.

(** Callers that will look again. *)
Definition alert (p : Phase) : nat :=
  match p with Asking _ _ | Waiting _ _ true => 1 | _ => 0 end.

(** A move after some time. *)
Definition progress (s s' : Turns) : Prop :=
  ∃ now, tn_now s ≤ now ∧
    move {| tn_busy := tn_busy s; tn_threads := tn_threads s; tn_now := now |} s'.

Definition farther : relation (nat * nat) := slexprod _ _ lt lt.
Definition remaining (s : Turns) : nat * nat :=
  (total distance (tn_threads s), total alert (tn_threads s)).

Lemma settle_closer s i p t d n :
  tn_threads s !! i = Some p → inside p t d → alert p = 1%nat ∨ d ≤ tn_now s →
  farther (remaining (settle s i t d (look {| b_topics := b_topics (tn_busy s); b_waiting := n |} t d
    (tn_now s)))) (remaining s).
Proof.
  intros Hi Hp Hd. assert (distance p = 3%nat) as Hdist by (by destruct Hp as [->|[? ->]]).
  pose proof (λ q, total_update distance _ i p q Hi) as H3. pose proof (λ q, total_update alert _ i p q Hi) as H1.
  unfold look, remaining. cbn [b_topics b_waiting]. case_bool_decide as Hin.
  - case: N.ltb_spec => Hnow; cbn [settle tn_threads].
    + specialize (H3 (Waiting t d false)). specialize (H1 (Waiting t d false)).
      cbn [distance alert] in H3, H1. destruct Hd as [Ha|?]; [|lia].
      replace (total distance (<[i:=Waiting t d false]> (tn_threads s)))
        with (total distance (tn_threads s)) by lia.
      apply right_slex. lia.
    + apply left_slex. rewrite (total_delete distance _ _ _ Hi). lia.
  - cbn [settle tn_threads]. apply left_slex. specialize (H3 (Holding t)). cbn [distance] in H3. lia.
Qed.

Lemma progress_closer s s' : progress s s' → farther (remaining s') (remaining s).
Proof.
  intros (now & _ & Hm). set (s0 := {| tn_busy := tn_busy s; tn_threads := tn_threads s; tn_now := now |}) in Hm.
  change (remaining s) with (remaining s0). destruct Hm as [i t d Hi|i t d n Hi Hn|i t Hi|i Hi].
  - destruct (tn_busy s0) as [topics waiting] eqn:Hb.
    pose proof (settle_closer s0 i _ t d waiting Hi) as Hs. rewrite Hb in Hs. apply Hs; by left.
  - eapply settle_closer; [done|right; by eexists|]. destruct Hn as [->|?]; by [left|right].
  - apply left_slex. cbn [tn_threads]. pose proof (total_update distance _ i _ Notifying Hi) as H3.
    cbn [distance] in H3. lia.
  - apply left_slex. cbn [tn_threads]. rewrite total_fmap (total_delete distance _ _ _ Hi) (total_ext (distance ∘ notified) distance).
    + by intros [].
    + cbn [distance]. lia.
Qed.

(** A state with callers left can move without waiting for a timeout. *)
Lemma callers_move s : turns_ok s → tn_threads s ≠ ∅ → ∃ s', move s s'.
Proof.
  intros Hok (i & p & Hi)%map_choose.
  assert (∀ j t, tn_threads s !! j = Some (Holding t) → ∃ s', move s s') as Hh
    by (intros j t Hj; eexists; by eapply move_drop).
  assert (∀ j, tn_threads s !! j = Some Notifying → ∃ s', move s s') as Hn
    by (intros j Hj; eexists; by eapply move_notify).
  destruct p as [t d|t d []|t|]; [eexists; by eapply move_look| |  |by eapply Hh|by eapply Hn].
  - eexists. eapply move_resume; [done|by left].
  - destruct (to_wakeup s Hok i t d Hi) as [[j Hj]%(to_topics s Hok)|[j Hj]]; [by eapply Hh|by eapply Hn].
Qed.

(** C34: every caller returns. However callers, holders and the clock interleave, only
    finitely many moves follow until new calls arrive or waiters wake for no reason;
    while a caller is left some move is possible without any timeout; and a caller
    whose topic nobody holds takes its turn when it looks, however late it is. *)
Theorem turns_live patience s :
  turns_reachable patience s →
  sn progress s ∧
  (tn_threads s ≠ ∅ → ∃ s', move s s') ∧
  ∀ i t d, (∀ j, tn_threads s !! j ≠ Some (Holding t)) →
    tn_threads (settle s i t d (look (tn_busy s) t d (tn_now s))) !! i = Some (Holding t).
Proof.
  intros Hr. pose proof (reachable_ok _ _ Hr) as Hok. split; [|split; [by apply callers_move|]].
  - assert (Acc farther (remaining s)) as Hacc by (apply wf_slexprod; apply lt_wf).
    remember (remaining s) as n eqn:Hn. clear Hr Hok. revert s Hn. induction Hacc as [n _ IH]. intros s ->.
    constructor. intros s' Hs. by eapply IH; [apply progress_closer|].
  - intros i t d Hfree. unfold look. rewrite bool_decide_false; [|by rewrite lookup_insert_eq].
    intros [j Hj]%(to_topics s Hok). by destruct (Hfree j).
Qed.

(** ** Two callers of one topic *)

Definition turns_topic : TopicId := Id (repeat 7 LEN) I.

(** The second caller waits until the first gives its turn back. *)
Definition turns_run : list Turns :=
  let ask s i := {| tn_busy := tn_busy s; tn_threads := <[i := Asking turns_topic (tn_now s + 60)]> (tn_threads s);
                    tn_now := tn_now s |} in
  let s1 := ask turns_default 1%nat in
  let s2 := settle s1 1 turns_topic 60 (look (tn_busy s1) turns_topic 60 0) in
  let s3 := ask s2 2%nat in
  let s4 := settle s3 2 turns_topic 60 (look (tn_busy s3) turns_topic 60 0) in
  [s1; s2; s3; s4].

Definition turns_contended : Turns := default turns_default (last turns_run).

Lemma turns_contended_reachable : turns_reachable 60 turns_contended.
Proof.
  eapply rtc_l; [right; by apply (disturb_call 60 turns_default 1 turns_topic)|].
  eapply rtc_l; [left; by eapply (move_look _ 1 turns_topic 60)|].
  eapply rtc_l; [right; by eapply (disturb_call 60 _ 2 turns_topic)|].
  eapply rtc_l; [left; by eapply (move_look _ 2 turns_topic 60)|].
  vm_compute. apply rtc_refl.
Qed.

Lemma turns_exclusive_witness :
  turns_reachable 60 turns_contended ∧ b_waiting (tn_busy turns_contended) = 1%nat ∧
  (turns_topic ∈ b_topics (tn_busy turns_contended) ∨
   ∃ j, tn_threads turns_contended !! j = Some Notifying).
Proof.
  split; [apply turns_contended_reachable|]. split; [done|].
  eapply (turns_exclusive 60 turns_contended turns_contended_reachable). by instantiate (2 := 2%nat).
Defined.

Lemma turns_live_witness : sn progress turns_contended ∧ ∃ s', move turns_contended s'.
Proof.
  destruct (turns_live 60 turns_contended turns_contended_reachable) as (Hsn & Hmove & _).
  split; [done|]. apply Hmove. intros Hnone. by apply (f_equal (lookup 2%nat)) in Hnone.
Defined.
