(* ===== verification/Oplog.v ===== *)
(** * The admission of operations ([src/src/oplog/admission.rs], [pending.rs])

    [admit_ops_batch] builds a batch, commits it and buffers what waits;
    [admit_with_retry] repeats it while others move the topic; [receive_ops_admission]
    feeds it with what was received and with buffered operations that became ready.

    Other writers share the store. What they do while an admission does not hold the
    store's lock is a parameter: [at_before] runs before an attempt reads and
    [at_between] between building and committing. The theorems hold for every such
    interference that keeps the store valid. *)

From S2P Require Import Prelude Ids Frame ClockSpec Types Membership Topology.
From S2P Require Import Pages Evidence Records Pool Store Integrity Inspections Admission Genesis.

#[local] Open Scope N_scope.

(** [struct MembershipCache]; [mc_epoch] stands for the identity of the [Arc]. *)
Record MembershipCache := {
  mc_epoch : N;
  mc_states : gmap OpId TopicState;
  mc_order : list OpId;
}.

(** [*cache = MembershipCache::default()]: a new epoch. *)
Definition cache_reset (cache : MembershipCache) : MembershipCache :=
  {| mc_epoch := mc_epoch cache + 1; mc_states := ∅; mc_order := [] |}.

(** [while cache.states.len() >= .. || bytes > .. { pop the oldest }] *)
Fixpoint make_room (states : gmap OpId TopicState) (order : list OpId) (state : TopicState)
    : gmap OpId TopicState * list OpId :=
  if bool_decide (MAX_CACHED_PROJECTIONS ≤ size states)%nat
     || (MAX_PROJECTION_BYTES <? projection_bytes states + state_bytes state)
  then match order with
       | oldest :: order => make_room (delete oldest states) order state
       | [] => (states, [])
       end
  else (states, order).

(** Caching the projection of one tip. *)
Definition cache_tip (projections : gmap OpId TopicState) (cache : MembershipCache) (i : OpId)
    : MembershipCache :=
  match projections !! i with
  | Some state =>
      if bool_decide (mc_states cache !! i = None) && (state_bytes state <=? MAX_PROJECTION_BYTES)
      then
        let '(states, order) := make_room (mc_states cache) (mc_order cache) state in
        {| mc_epoch := mc_epoch cache; mc_states := <[i := state]> states; mc_order := order ++ [i] |}
      else cache
  | None => cache
  end.

(** [struct Oplog] without its store. *)
Record Oplog := {
  ol_cache : MembershipCache;
  ol_receive_genesis : option (TopicId * OpId);
  ol_integrity : gmap TopicId Entry;
}.

Definition with_cache (ol : Oplog) (cache : MembershipCache) : Oplog :=
  {| ol_cache := cache; ol_receive_genesis := ol_receive_genesis ol; ol_integrity := ol_integrity ol |}.

(** [admission_failure] *)
Definition admission_failure (admitted : AdmittedOps) (error : Error) : Error :=
  let '(admitted, source) :=
    match error with
    | AdmissionCommitted partial source =>
        ({| ad_accepted := ad_accepted admitted ∪ ad_accepted partial;
            ad_evictions := ad_evictions admitted ++ ad_evictions partial;
            ad_ready_remaining := ad_ready_remaining admitted |}, source)
    | error => (admitted, error)
    end in
  if bool_decide (ad_accepted admitted = ∅) && bool_decide (ad_evictions admitted = [])
  then source
  else AdmissionCommitted admitted source.

(** [is_admission_race] *)
Definition is_admission_race (err : Error) : bool :=
  match err with
  | AdmissionConflict | ActorSeqGap _ _ | ActorPrevMismatch | ActorFork | InvalidOpId
  | GenerationMismatch _ _ => true
  | _ => false
  end.

(** [is_permanent_rejection] *)
Definition is_permanent_rejection (err : Error) : bool :=
  match err with
  | OpTooLarge | InvalidSignature | InvalidPublicKey | WrongSigner | ActorAuthorMismatch
  | TopicMismatch | GenerationMismatch _ _ | RejectedOp _ => true
  | _ => false
  end.

Inductive PendingVerdict := Reject | Retain.

Definition MAX_DRAIN_OPS : nat := 4096.
Definition READY_SLICE : nat := 256.

Section oplog.
Context {C : Type} `{!ClockImpl C} `{!StoreEnv C} `{!Crypto} `{!OplogEnv}.
Implicit Types (inner : MemoryInner C) (op : Op) (ops : list Op) (ol : Oplog).

(** The staging quota of the store: none for the main store. *)
Context (quota : option StagingQuota).

(** ** One batch *)

(** The loop that buffers the operations that wait. *)
Fixpoint buffer_pending inner (source : option PeerId) (bound : option OpId)
    (failure : Error → Error) (pending : list (Op * gset OpId)) : MemoryInner C * res unit :=
  match pending with
  | [] => (inner, Ok ())
  | (op, missing) :: pending =>
      match put_pending_bound inner quota (default (author (obody op)) source) op
              (pending_meta_for op missing) bound with
      | Ok inner => buffer_pending inner source bound failure pending
      | Err (RejectedOp _) => buffer_pending inner source bound failure pending
      | Err error => (inner, Err (failure error))
      end
  end.

(** The commit of a built batch: with its reset, on its own, or nothing to commit. *)
Definition commit_batch inner (batch : AdmittedBatch C) (plan : option ResetPlan)
    : MemoryInner C * res unit :=
  match plan with
  | Some plan =>
      let '(inner, r) := reset_topic_and_admit inner (ab_topic_id batch) (rp_expected_state plan)
        batch (Some (rp_eviction plan)) in
      (inner, (λ _, ()) <$> r)
  | None =>
      if decide (ab_entries batch = []) then (inner, Ok ())
      else admit_batch_locked inner batch quota
  end.

(** Caching the projections of the last frontier, unless the cache was replaced. *)
Definition cache_projections (epoch : N) (built : BuiltBatch (C := C)) (cache : MembershipCache)
    : MembershipCache :=
  if mc_epoch cache =? epoch
  then foldl (cache_tip (bb_projections built)) cache (bt_elements (bb_projection_tips built))
  else cache.

(** What was already committed when buffering fails. *)
Definition committed_part (built : BuiltBatch (C := C)) (plan : option ResetPlan) : AdmittedOps :=
  {| ad_accepted := bb_accepted built; ad_evictions := option_list (rp_eviction <$> plan);
     ad_ready_remaining := false |}.

(** [fill_holes] *)
Definition fill_holes ol inner (holes : list Listed) : Oplog :=
  {| ol_cache := ol_cache ol; ol_receive_genesis := ol_receive_genesis ol;
     ol_integrity := fill (ol_integrity ol)
       (filter (λ hole, dep_resolvable_locked inner (ls_id hole) = true) holes) |}.

(** [admit_ops_batch]; [between] is what others write after the batch was built. *)
Definition admit_ops_batch ol inner (between : MemoryInner C → MemoryInner C)
    (source : option PeerId) ops (verified : gset OpId) (plan : option ResetPlan)
    (effects : option (receive_effects (C := C))) : Oplog * MemoryInner C * res (gset OpId) :=
  let reset := bool_decide (is_Some plan) in
  let cache := if reset then cache_reset (ol_cache ol) else ol_cache ol in
  let ol := with_cache ol cache in
  let holes := listed (ol_integrity ol) ops in
  match build_batch inner (mc_states cache) (ol_receive_genesis ol) source ops verified reset effects with
  | Err e => (ol, between inner, Err e)
  | Ok None => (fill_holes ol (between inner) holes, between inner, Ok ∅)
  | Ok (Some built) =>
      let epoch := mc_epoch cache in
      let batch := bb_batch built in
      match commit_batch (between inner) batch plan with
      | (inner, Err e) => (ol, inner, Err e)
      | (inner, Ok _) =>
          let cache := if reset then cache_reset cache else cache in
          let ol := fill_holes (with_cache ol cache) inner holes in
          let bound := match ol_receive_genesis ol with
            | Some (t, genesis) => if bool_decide (t = ab_topic_id batch) then Some genesis else None
            | None => None
            end in
          match buffer_pending inner source bound (admission_failure (committed_part built plan))
                  (bb_pending built) with
          | (inner, Err e) => (ol, inner, Err e)
          | (inner, Ok _) =>
              (with_cache ol (cache_projections epoch built cache), inner, Ok (bb_accepted built))
          end
      end
  end.

(** ** Retries *)

(** What an attempt meets: whether it gets its turn, and the writes of others. *)
Record Attempt := {
  at_turn : res unit;
  at_before : MemoryInner C → MemoryInner C;
  at_between : MemoryInner C → MemoryInner C;
}.

(** [heads()] of the topic of the batch *)
Definition batch_heads inner ops : option (gset OpId) :=
  (λ op, default ∅ (s_heads inner !! topic_id (obody op))) <$> head ops.

(** The topic of a bound receive holds a smaller genesis. *)
Definition branch_replaced ol inner ops : bool :=
  match ol_receive_genesis ol, head ops with
  | Some (t, genesis), Some first =>
      bool_decide (topic_id (obody first) = t) &&
      match topic_state_locked inner t with
      | Some state => bltb (ts_genesis state) genesis
      | None => false
      end
  | _, _ => false
  end.

(** The body of the retry loop up to the outcome of [admit_ops_batch]. *)
Definition admit_attempt ol inner (between : MemoryInner C → MemoryInner C)
    (source : option PeerId) ops (verified : gset OpId) (effects : option (receive_effects (C := C)))
    : Oplog * MemoryInner C * res (gset OpId * option TopicEviction) :=
  if branch_replaced ol inner ops then (ol, inner, Err StaleIncarnation)
  else
    match (if existsb is_structural_genesis ops then resolve_genesis_collision inner ops verified
           else Ok (ops, None, None)) with
    | Err e => (ol, inner, Err e)
    | Ok (kept, plan, rejected) =>
        match (match rejected with
               | Some losing =>
                   '(pool, _) ← purge_pending_waiters (s_pool inner) losing;
                   Ok (set_pool inner pool)
               | None => Ok inner
               end) with
        | Err e => (ol, inner, Err e)
        | Ok inner =>
            let '(ol, inner, r) := admit_ops_batch ol inner between source kept verified plan effects in
            (ol, inner, (λ accepted, (accepted, rp_eviction <$> plan)) <$> r)
        end
    end.

(** The retry loop; [fuel] is the number of attempts left. *)
Fixpoint retry_loop (fuel attempt : nat) (others : nat → Attempt) ol inner (source : option PeerId) ops
    (verified : gset OpId) (effects : option (receive_effects (C := C)))
    : Oplog * MemoryInner C * res (gset OpId * option TopicEviction) :=
  match fuel with
  | O => (ol, inner, Err AdmissionConflict)
  | S fuel =>
      match (if ops is [] then Ok () else at_turn (others attempt)) with
      | Err e => (ol, inner, Err e)
      | Ok _ =>
          let inner := at_before (others attempt) inner in
          let before := batch_heads inner ops in
          let '(ol, inner, r) :=
            admit_attempt ol inner (at_between (others attempt)) source ops verified effects in
          match r with
          | Ok accepted => (ol, inner, Ok accepted)
          | Err AdmissionConflict => retry_loop fuel (S attempt) others ol inner source ops verified effects
          | Err e =>
              if is_admission_race e && negb (bool_decide (batch_heads inner ops = before))
              then retry_loop fuel (S attempt) others ol inner source ops verified effects
              else (ol, inner, Err e)
          end
      end
  end.

(** [admit_with_retry] *)
Definition admit_with_retry (others : nat → Attempt) ol inner (source : option PeerId) ops
    (verified : gset OpId) (effects : option (receive_effects (C := C)))
    : Oplog * MemoryInner C * res (gset OpId * option TopicEviction) :=
  let stale := match ol_receive_genesis ol with
    | Some (t, genesis) =>
        existsb (λ op, bool_decide (topic_id (obody op) = t) && is_structural_genesis op
          && negb (bool_decide (op_id op = genesis))) ops
    | None => false
    end in
  if stale then (ol, inner, Err StaleIncarnation)
  else
    match try_fold (λ _ op,
        if bool_decide (op_id op ∈ verified) then Ok ()
        else _ ← validate_frame op; op_validate op) () ops with
    | Err e => (ol, inner, Err e)
    | Ok _ =>
        retry_loop MAX_ADMISSION_RETRIES 0 others ol inner source ops (list_to_set (op_id <$> ops)) effects
    end.

(** ** Verdicts on buffered operations *)

(** [slot_taken] *)
Definition slot_taken inner op (seq : N) : option OpId :=
  holder ← l_actor_by_seq (s_log inner) !! (topic_id (obody op), actor_id (obody op), seq);
  if negb (bool_decide (holder = op_id op)) && dep_resolvable_locked inner holder
  then Some holder else None.

(** [position_impossible] *)
Definition position_impossible inner op : res bool :=
  let b := obody op in
  match actor_prev b with
  | None => Ok (negb (actor_seq b =? 1))
  | Some prev =>
      if (actor_seq b <? 2) || bool_decide (prev ∉ deps b) then Ok true
      else
        impossible ← match l_meta (s_log inner) !! prev with
          | Some meta =>
              if dep_resolvable_locked inner prev then
                if negb (bool_decide (om_topic_id meta = topic_id b))
                   || negb (bool_decide (om_actor_id meta = actor_id b))
                then Ok true
                else next ← checked_next (om_actor_seq meta); Ok (negb (next =? actor_seq b))
              else Ok false
          | None => Ok false
          end;
        if impossible : bool then Ok true
        else Ok (match slot_taken inner op (actor_seq b - 1) with
                 | Some holder => negb (bool_decide (holder = prev))
                 | None => false
                 end)
  end.

(** [pending_verdict] *)
Definition pending_verdict inner op (error : Error) : res PendingVerdict :=
  immutable ←
    if is_permanent_rejection error then Ok true
    else match error with
      | NotTopicMember | EventTypeMismatch _ _ | InvalidGenesis | InvalidOpId => Ok true
      | ActorPrevMismatch | ActorSeqGap _ _ => position_impossible inner op
      | ActorFork => Ok (bool_decide (is_Some (slot_taken inner op (actor_seq (obody op)))))
      | _ => Ok false
      end;
  Ok (if immutable : bool then Reject else Retain).

(** ** Receiving *)

(** The local variables of the loop of [receive_ops_admission]. *)
Record Drain := {
  dr_queue : list (option PeerId * list Op * bool);
  dr_drained : nat;
  dr_cursor : option OpId;
  dr_pass_admitted : bool;
  dr_window_admitted : bool;
  dr_held_back : gset OpId;
  dr_admitted : AdmittedOps;
}.

(** How an iteration ends. *)
Inductive Flow :=
  | Continue (dr : Drain)
  | Break (dr : Drain)
  | Fail (dr : Drain) (error : Error).

Definition drain_start (source : option PeerId) ops : Drain :=
  {| dr_queue := if decide (ops = []) then [] else [(source, ops, false)];
     dr_drained := 0; dr_cursor := None; dr_pass_admitted := false; dr_window_admitted := false;
     dr_held_back := ∅; dr_admitted := admitted_default |}.

Definition set_ready_remaining (admitted : AdmittedOps) (remaining : bool) : AdmittedOps :=
  {| ad_accepted := ad_accepted admitted; ad_evictions := ad_evictions admitted;
     ad_ready_remaining := remaining |}.

Definition set_admitted (dr : Drain) (admitted : AdmittedOps) : Drain :=
  {| dr_queue := dr_queue dr; dr_drained := dr_drained dr; dr_cursor := dr_cursor dr;
     dr_pass_admitted := dr_pass_admitted dr; dr_window_admitted := dr_window_admitted dr;
     dr_held_back := dr_held_back dr; dr_admitted := admitted |}.

Definition set_queue (dr : Drain) queue : Drain :=
  {| dr_queue := queue; dr_drained := dr_drained dr; dr_cursor := dr_cursor dr;
     dr_pass_admitted := dr_pass_admitted dr; dr_window_admitted := dr_window_admitted dr;
     dr_held_back := dr_held_back dr; dr_admitted := dr_admitted dr |}.

(** [if queue.is_empty()]: the next slice of ready operations, another pass or window, or
    the end. *)
Definition refill inner (dr : Drain) : Flow :=
  if decide (MAX_DRAIN_OPS ≤ dr_drained dr)%nat then
    if dr_window_admitted dr then
      Continue {| dr_queue := dr_queue dr; dr_drained := 0; dr_cursor := None;
        dr_pass_admitted := false; dr_window_admitted := false;
        dr_held_back := dr_held_back dr; dr_admitted := dr_admitted dr |}
    else Break (set_admitted dr (set_ready_remaining (dr_admitted dr)
      (negb (bool_decide (ready_pending_after (s_pool inner) None 1 = [])))))
  else
    let slice := ready_pending_after (s_pool inner) (dr_cursor dr) READY_SLICE in
    match list.last slice with
    | None =>
        if negb (dr_pass_admitted dr) then Break dr
        else Continue {| dr_queue := dr_queue dr; dr_drained := dr_drained dr; dr_cursor := None;
          dr_pass_admitted := false; dr_window_admitted := dr_window_admitted dr;
          dr_held_back := dr_held_back dr; dr_admitted := dr_admitted dr |}
    | Some (_, final) =>
        Continue {|
          dr_queue := (λ e : PeerId * Op, (Some e.1, [e.2], true)) <$>
            filter (λ e : PeerId * Op, op_id e.2 ∉ dr_held_back dr) slice;
          dr_drained := dr_drained dr + length slice; dr_cursor := Some (op_id final);
          dr_pass_admitted := dr_pass_admitted dr; dr_window_admitted := dr_window_admitted dr;
          dr_held_back := dr_held_back dr; dr_admitted := dr_admitted dr |}
    end.

(** What an accepted batch adds. *)
Definition count_accepted (dr : Drain) (accepted : gset OpId) (eviction : option TopicEviction)
    : Drain :=
  let some := negb (bool_decide (accepted = ∅)) in
  {| dr_queue := dr_queue dr; dr_drained := dr_drained dr; dr_cursor := dr_cursor dr;
     dr_pass_admitted := dr_pass_admitted dr || some;
     dr_window_admitted := dr_window_admitted dr || some;
     dr_held_back := dr_held_back dr;
     dr_admitted := {| ad_accepted := ad_accepted (dr_admitted dr) ∪ accepted;
       ad_evictions := ad_evictions (dr_admitted dr) ++ option_list eviction;
       ad_ready_remaining := ad_ready_remaining (dr_admitted dr) |} |}.

(** The failure of one buffered operation. *)
Definition judge inner (dr : Drain) op (error : Error) : MemoryInner C * Flow :=
  match pending_verdict inner op error with
  | Err e => (inner, Fail dr e)
  | Ok Reject =>
      match reject_pending_subtree inner (op_id op) with
      | Ok (inner, _) => (inner, Continue dr)
      | Err e => (inner, Fail dr e)
      end
  | Ok Retain =>
      let held := {| dr_queue := dr_queue dr; dr_drained := dr_drained dr; dr_cursor := dr_cursor dr;
        dr_pass_admitted := dr_pass_admitted dr; dr_window_admitted := dr_window_admitted dr;
        dr_held_back := {[op_id op]} ∪ dr_held_back dr; dr_admitted := dr_admitted dr |} in
      (inner, match error with
              | AdmissionConflict => Break (set_admitted held (set_ready_remaining (dr_admitted held) true))
              | _ => Continue held
              end)
  end.

(** One batch of the queue. *)
Definition drain_batch (others : nat → Attempt) ol inner (verified : gset OpId)
    (effects : option (receive_effects (C := C))) (dr : Drain)
    (source : option PeerId) ops (from_pending : bool) : Oplog * MemoryInner C * Flow :=
  let '(ol, inner, r) := admit_with_retry others ol inner source ops verified effects in
  match r with
  | Ok (accepted, eviction) => (ol, inner, Continue (count_accepted dr accepted eviction))
  | Err e =>
      if from_pending then
        match ops with
        | [op] => let '(inner, flow) := judge inner dr op e in (ol, inner, flow)
        | _ => (ol, inner, Continue (set_queue dr
            (dr_queue dr ++ ((λ op, (source, [op], true)) <$> ops))))
        end
      else (ol, inner, Fail dr e)
  end.

(** One iteration of the loop. *)
Definition drain_step (others : nat → Attempt) ol inner (verified : gset OpId)
    (effects : option (receive_effects (C := C))) (dr : Drain) : Oplog * MemoryInner C * Flow :=
  match dr_queue dr with
  | [] =>
      match refill inner dr with
      | Continue dr' =>
          match dr_queue dr' with
          | [] => (ol, inner, Continue dr')
          | (source, ops, from_pending) :: queue =>
              drain_batch others ol inner verified effects (set_queue dr' queue) source ops from_pending
          end
      | flow => (ol, inner, flow)
      end
  | (source, ops, from_pending) :: queue =>
      drain_batch others ol inner verified effects (set_queue dr queue) source ops from_pending
  end.

(** The loop from its iteration [n]; [None] when the fuel does not suffice. *)
Fixpoint drain_loop (fuel n : nat) (others : nat → nat → Attempt) ol inner (verified : gset OpId)
    (effects : option (receive_effects (C := C))) (dr : Drain)
    : option (Oplog * MemoryInner C * res AdmittedOps) :=
  match fuel with
  | O => None
  | S fuel =>
      let '(ol, inner, flow) := drain_step (others n) ol inner verified effects dr in
      match flow with
      | Continue dr => drain_loop fuel (S n) others ol inner verified effects dr
      | Break dr => Some (ol, inner, Ok (dr_admitted dr))
      | Fail dr error => Some (ol, inner, Err (admission_failure (dr_admitted dr) error))
      end
  end.

(** [receive_ops_admission] *)
Definition receive_ops_admission (fuel : nat) (others : nat → nat → Attempt) ol inner
    (source : option PeerId) ops (verified : gset OpId) (effects : option (receive_effects (C := C)))
    : option (Oplog * MemoryInner C * res AdmittedOps) :=
  drain_loop fuel 0 others ol inner verified effects (drain_start source ops).
End oplog.
