(* ===== verification/Evolve.v ===== *)
(** * How the stored histories change

    Every write leaves each topic with a history that extends the one before, or with
    one of a smaller genesis that replaced it. Topics therefore never return to an
    earlier branch, and a batch built for a frontier still fits when the frontier is
    the same, whatever was written in between.

    Operations are named by their hashes. The hypothesis [collision_free] says that no
    two of the operations around ([universe]) have the same id. *)

From stdpp Require Import relations.
From S2P Require Import Prelude Ids Frame ClockSpec Types Membership Topology.
From S2P Require Import Evidence Records Pool Store StoreLog StoreAdmit StoreOps StoreReset.
From S2P Require Import StoreEvidence StoreRun.
From S2P Require Import Admission Dag Projection Building Commit Genesis.

#[local] Open Scope N_scope.

Section evolve.
Context {C : Type} `{!ClockImpl C} `{!StoreEnv C} `{!Crypto} `{!OplogEnv}.
Context (universe : Op → Prop).
Implicit Types (inner base : MemoryInner C) (t : TopicId) (l : list (Op * OpMeta C)).

Abbreviation hist inner t := (entries_of (s_log inner) t).

(** No two operations of the universe have the same id. *)
Definition collision_free : Prop :=
  ∀ o o', universe o → universe o' → op_id o = op_id o' → o = o'.

(** What is buffered waits for something: it is no genesis. *)
Definition bufferable (o : Op) : Prop := universe o ∧ is_structural_genesis o = false.

(** A valid store holds causal histories of operations of the universe. *)
Record valid inner : Prop := {
  v_node : node_ok inner;
  v_consistent : consistent inner;
  v_ops : ∀ i o, l_ops (s_log inner) !! i = Some o → universe o;
  v_buffered : ∀ i o, p_ops (s_pool inner) !! i = Some o → bufferable o;
}.

(** The topic kept its branch, or lost it to one of a smaller genesis. *)
Definition topic_evolves inner inner' t : Prop :=
  extends_history (hist inner t) (hist inner' t) ∨
  ∃ s s', topic_state_locked inner t = Some s ∧ topic_state_locked inner' t = Some s' ∧
    blt (ts_genesis s') (ts_genesis s).

Definition evolves inner inner' : Prop := ∀ t, topic_evolves inner inner' t.

(** ** Order *)

Lemma topic_state_genesis inner t s :
  topic_ok inner t → topic_state_locked inner t = Some s →
  ∃ gop m, hist inner t (ts_genesis s) gop m ∧ is_genesis gop = true.
Proof.
  intros Hok Hs. pose proof (h_state _ _ _ _ Hok) as Hst. rewrite Hs in Hst.
  destruct Hst as (_ & (ops & Hall & gop & g & Hin & Hg & _) & Hgen). apply Hall in Hin as [m Hm].
  assert (is_genesis gop = true) as Hisg by (unfold is_genesis; by rewrite Hg).
  destruct (Hgen _ _ _ Hm) as [Hid _]. rewrite (Hid Hisg) in Hm. by exists gop, m.
Qed.

Lemma topic_state_member inner t i :
  topic_ok inner t → member (hist inner t) i → is_Some (topic_state_locked inner t).
Proof.
  intros Hok Hi. pose proof (h_state _ _ _ _ Hok) as Hst.
  destruct (topic_state_locked inner t); [by eexists|by destruct (Hst i)].
Qed.

(** A branch that grows keeps its genesis. *)
Lemma grows_genesis inner inner' t s :
  topic_ok inner t → topic_ok inner' t → extends_history (hist inner t) (hist inner' t) →
  topic_state_locked inner t = Some s →
  ∃ s', topic_state_locked inner' t = Some s' ∧ ts_genesis s' = ts_genesis s.
Proof.
  intros Hok Hok' Hext Hs. destruct (topic_state_genesis inner t s Hok Hs) as (gop & m & Hm & Hg).
  assert (hist inner' t (ts_genesis s) gop m) as Hm' by (apply Hext; [by exists gop, m|done]).
  destruct (topic_state_member inner' t (ts_genesis s) Hok') as [s' Hs']; [by exists gop, m|].
  exists s'. split; [done|]. pose proof (h_state _ _ _ _ Hok') as Hst. rewrite Hs' in Hst.
  destruct Hst as (_ & _ & Hgen). by destruct (Hgen _ _ _ Hm') as [-> _].
Qed.

Lemma extends_trans (E1 E2 E3 : history (C := C)) :
  extends_history E1 E2 → extends_history E2 E3 → extends_history E1 E3.
Proof.
  intros H12 H23 d Hd o m. rewrite H23; [|by apply H12].
  destruct Hd as (o' & m' & Hd). exists o', m'. apply H12; [by exists o', m'|done].
Qed.

Lemma evolves_refl inner : evolves inner inner.
Proof. intros t. left. by intros d _ o m. Qed.

Lemma evolves_trans inner1 inner2 inner3 :
  valid inner1 → valid inner2 → valid inner3 →
  evolves inner1 inner2 → evolves inner2 inner3 → evolves inner1 inner3.
Proof.
  intros [V1 _ _ _] [V2 _ _ _] [V3 _ _ _] H12 H23 t.
  pose proof (nd_topics _ V1 t) as T1. pose proof (nd_topics _ V2 t) as T2. pose proof (nd_topics _ V3 t) as T3.
  destruct (H12 t) as [E12|(s1 & s2 & Hs1 & Hs2 & L12)], (H23 t) as [E23|(s2' & s3 & Hs2' & Hs3 & L23)].
  - left. by eapply extends_trans.
  - destruct (topic_state_locked inner1 t) as [s1|] eqn:Hs1.
    + destruct (grows_genesis _ _ _ _ T1 T2 E12 Hs1) as (s & Hs & Hg). right. exists s1, s3.
      split_and!; [done..|]. assert (s = s2') as -> by congruence. by rewrite -Hg.
    + left. intros d Hd. by destruct (topic_state_member inner1 t d T1 Hd) as [? ?%(eq_trans (eq_sym Hs1))].
  - destruct (grows_genesis _ _ _ _ T2 T3 E23 Hs2) as (s3 & Hs3 & Hg). right. exists s1, s3.
    split_and!; [done..|]. by rewrite Hg.
  - right. exists s1, s3. assert (s2' = s2) as -> by congruence. split_and!; [done..|].
    by etrans.
Qed.

(** The same frontier and state are the same history. *)
Lemma evolves_same inner inner' t :
  valid inner → valid inner' → evolves inner inner' →
  default ∅ (s_heads inner' !! t) = default ∅ (s_heads inner !! t) →
  topic_state_locked inner' t = topic_state_locked inner t →
  ∀ i o m, hist inner' t i o m ↔ hist inner t i o m.
Proof.
  intros [V1 _ _ _] [V2 _ _ _] Hev Hheads Hstate i o m.
  destruct (Hev t) as [Hext|(s & s' & Hs & Hs' & Hlt)].
  2: { rewrite Hstate Hs in Hs'. injection Hs' as ->. by destruct (irreflexivity blt (ts_genesis s')). }
  pose proof (nd_topics _ V1 t) as T1. pose proof (nd_topics _ V2 t) as T2.
  split; intros Hi; [|by apply Hext; [exists o, m|]].
  enough (member (hist inner t) i) as Hm by by apply (Hext i Hm).
  destruct (heads_cover _ _ _ _ T2 i) as (h & Hh & Hr); [by exists o, m|]. rewrite Hheads in Hh.
  assert (member (hist inner t) h) as Hmh by by apply (h_heads _ _ _ _ T1).
  clear Hi Hh. induction Hr as [|x y z (ox & mx & Hx & Hd) _ IH]; [done|]. apply IH.
  apply (Hext x Hmh) in Hx. destruct (h_entry _ _ _ _ T1 _ _ _ Hx) as [_ Hv].
  by apply (ev_deps _ _ _ _ Hv).
Qed.

(** ** Buffers only lose operations *)

Lemma remove_pending_keeps (p p' : Pool) i : remove_pending_locked p i = Ok p' → p_ops p' ⊆ p_ops p.
Proof.
  unfold remove_pending_locked. destruct (p_records p !! i); [|by intros [= <-]].
  intros (a & _ & Hr)%bind_ok. next_ok Hr as (b & _ & Hr). apply bind_ok in Hr as (c & _ & [= <-]).
  apply delete_subseteq.
Qed.

Lemma remove_all_keeps (k : list OpId) (p p' : Pool) :
  try_fold remove_pending_locked p k = Ok p' → p_ops p' ⊆ p_ops p.
Proof.
  revert p. induction k as [|i k IH]; intros p; cbn [try_fold]; [by intros [= <-]|].
  destruct (remove_pending_locked p i) as [p1|] eqn:H1; [|done]. intros H2%IH.
  etrans; [exact H2|by eapply remove_pending_keeps].
Qed.

Lemma settle_keeps (p : Pool) i : p_ops (settle_waiters_locked p i) = p_ops p.
Proof. unfold settle_waiters_locked. by destruct (foldl _ _ _). Qed.

Lemma write_entries_keeps l (log log' : Log C) (p p' : Pool) r :
  write_entries log p l = ((log', p'), r) → p_ops p' ⊆ p_ops p.
Proof.
  revert log p. induction l as [|[o m] l IH]; intros log p; cbn [write_entries]; [by intros [= _ <- _]|].
  destruct (remove_pending_locked p (op_id o)) as [p1|] eqn:H1; [|by intros [= _ <- _]].
  intros H2%IH. rewrite settle_keeps in H2. etrans; [exact H2|by eapply remove_pending_keeps].
Qed.

Lemma admit_keeps base batch quota base' r :
  admit_batch_locked base batch quota = (base', r) → p_ops (s_pool base') ⊆ p_ops (s_pool base).
Proof.
  unfold admit_batch_locked. destruct (admit_plan _ _ _) as [plan|]; [|by intros [= <- _]].
  unfold admit_write. destruct (write_entries _ _ _) as [[log p] w] eqn:Hw.
  apply write_entries_keeps in Hw. by destruct w; intros [= <- _].
Qed.

Lemma reset_keeps inner t inner' r :
  reset_topic_locked inner t = (inner', Ok r) → p_ops (s_pool inner') ⊆ p_ops (s_pool inner).
Proof.
  unfold reset_topic_locked. destruct (mem _); [|done].
  destruct (reset_ops _ _ _) as [[log bytes] [u|e]]; [|done].
  destruct (try_fold _ _ _) as [p|] eqn:Hp; [|done]. intros [= <- _]. by eapply remove_all_keeps.
Qed.

(** ** Writes that do not touch histories *)

Lemma evolves_frame inner inner' :
  s_log inner' = s_log inner → evolves inner inner'.
Proof. intros Hl t. left. rewrite Hl. by intros d _ o m. Qed.

Lemma valid_frame inner inner' :
  valid inner → consistent inner' → s_log inner' = s_log inner → s_heads inner' = s_heads inner →
  s_topics inner' = s_topics inner →
  (∀ i o, p_ops (s_pool inner') !! i = Some o → bufferable o) → valid inner'.
Proof.
  intros [[_ Ht] _ Ho _] Hok Hl Hh Hs Hp. split; [split; [apply Hok|]|done| |done]; [|by rewrite Hl].
  intros t. specialize (Ht t). unfold topic_ok, topic_state_locked in *. by rewrite Hl Hh Hs.
Qed.

(** ** Admission *)

(** A batch that extended a store extends any later one with the same frontier. *)
Lemma extends_move base base' t batch :
  collision_free → valid base → valid base' → evolves base base' →
  default ∅ (s_heads base' !! t) = default ∅ (s_heads base !! t) →
  topic_state_locked base' t = topic_state_locked base t →
  (∀ e, e ∈ ab_entries batch → universe e.1) →
  batch_extends base t batch → batch_extends base' t batch.
Proof.
  intros Hcf V V' Hev Hheads Hstate Huni [Ht [Hids Hdeps] Heh Hes Hfresh Hhist].
  pose proof (evolves_same base base' t V V' Hev Hheads Hstate) as Hsame.
  pose proof (nd_store _ (v_node _ V')) as Hok'.
  assert (history_ok (with_entries (hist base' t) (ab_entries batch)) t (ab_heads batch)
    (match ab_topic_state batch with
     | Some s => Some s
     | None => (λ s, set_heads s (ab_heads batch)) <$> ab_expected_topic_state batch end)) as Hhist'.
  { eapply history_ok_iff; [|exact Hhist]. intros i o m. unfold with_entries. by rewrite Hsame. }
  assert (∀ e, e ∈ ab_entries batch → l_meta (s_log base') !! op_id e.1 = None) as Hfresh'.
  { intros [o m] He. specialize (Hfresh _ He). simpl in *.
    destruct (l_meta (s_log base') !! op_id o) as [m'|] eqn:Hm'; [|done]. exfalso.
    assert (is_Some (l_ops (s_log base') !! op_id o)) as [o' Ho'].
    { rewrite -elem_of_dom (lo_dom _ (so_log _ Hok')). apply elem_of_dom. by eexists. }
    destruct (lo_entry _ (so_log _ Hok') _ _ _ Ho' Hm') as (Hid & _ & Hmt & _).
    assert (o' = o) as -> by (apply Hcf; [by eapply (v_ops _ V')|by apply (Huni _ He)|done]).
    assert (topic_id (obody o) = t) as Hto.
    { destruct (h_entry _ _ _ _ Hhist (op_id o) o m) as [_ Hv]; [by right|apply Hv]. }
    assert (hist base t (op_id o) o m') as (_ & Hm & _); [|by rewrite Hfresh in Hm].
    apply Hsame. split_and!; [done..|congruence]. }
  split; [done| |by rewrite Hheads|by rewrite Hstate|done|done].
  split; [done|]. intros [o m] d md He Hd Hmd. simpl in *.
  destruct (h_entry _ _ _ _ Hhist' (op_id o) o m) as [_ Hv]; [by right|].
  destruct (ev_deps _ _ _ _ Hv d Hd) as (od & md' & [(_ & Hmd' & Hdt)|[He' <-]]).
  - rewrite Ht. congruence.
  - specialize (Hfresh' _ He'). simpl in Hfresh'. congruence.
Qed.

(** The entries of the batch are in the history, and nothing else is new. *)
Definition commits base base' t (batch : AdmittedBatch C) : Prop :=
  (∀ o m, (o, m) ∈ ab_entries batch → hist base' t (op_id o) o m) ∧
  ∀ i o, l_ops (s_log base') !! i = Some o →
    l_ops (s_log base) !! i = Some o ∨ ∃ m, (o, m) ∈ ab_entries batch.

(** Nothing stored was lost. *)
Definition keeps_ops inner inner' : Prop := l_ops (s_log inner) ⊆ l_ops (s_log inner').

(** Admitting a batch extends the history of its topic and keeps the others. *)
Lemma admitted_evolves base t batch quota base' u :
  valid base → batch_extends base t batch → (∀ e, e ∈ ab_entries batch → universe e.1) →
  admit_batch_locked base batch quota = (base', Ok u) →
  valid base' ∧ evolves base base' ∧ commits base base' t batch ∧ keeps_ops base base'.
Proof.
  intros [Hnode Hco Hops Hbuf] Hfits Huni Hadmit.
  destruct (admitted_entries _ _ _ _ _ _ (nd_store _ Hnode) Hfits Hadmit) as (_ & Hin & Hout & _).
  pose proof (admitted_ok _ _ _ _ _ _ Hnode Hfits Hadmit) as Hnode'.
  assert (∀ i o, l_ops (s_log base') !! i = Some o →
    l_ops (s_log base) !! i = Some o ∨ ∃ m, (o, m) ∈ ab_entries batch) as Hnew.
  { intros i o Ho. pose proof (so_log _ (nd_store _ Hnode')) as Hlog.
    assert (is_Some (l_meta (s_log base') !! i)) as [m Hm].
    { rewrite -elem_of_dom -(lo_dom _ Hlog). apply elem_of_dom. by eexists. }
    destruct (decide (om_topic_id m = t)) as [Ht|Hne].
    - assert (hist base' t i o m) as Hi by by split_and!.
      apply Hin in Hi as [(Hi & _)|[He _]]; [by left|right; by exists m].
    - assert (hist base' (om_topic_id m) i o m) as Hi by by split_and!. apply Hout in Hi as (Hi & _); [|done].
      by left. }
  split; [split; [done|by eapply admit_consistent, Hadmit; [|apply Hfits]| |]|split; [|split; [split; [|done]|]]].
  - intros i o [Ho|[m He]]%Hnew; [by eapply Hops|by apply (Huni _ He)].
  - intros i o Ho. apply (Hbuf i). eapply lookup_weaken; [done|by eapply admit_keeps].
  - intros t'. left. intros d Hd o m. destruct (decide (t' = t)) as [->|Hne]; [|by apply Hout].
    rewrite Hin. split; [|by left]. intros [?|[He <-]]; [done|].
    destruct Hd as (o' & m' & (_ & Hm' & _)). by rewrite (fits_fresh _ _ _ Hfits _ He) in Hm'.
  - intros o m He. apply Hin. by right.
  - apply map_subseteq_spec. intros i o Ho.
    assert (is_Some (l_meta (s_log base) !! i)) as [m Hm].
    { rewrite -elem_of_dom -(lo_dom _ (so_log _ (nd_store _ Hnode))). apply elem_of_dom. by eexists. }
    assert (hist base (om_topic_id m) i o m) as Hi by by split_and!.
    destruct (decide (om_topic_id m = t)) as [Ht|Hne]; [|by apply (Hout _ Hne) in Hi as [? _]].
    rewrite Ht in Hi. by assert (hist base' t i o m) as [? _] by (apply Hin; by left).
Qed.

(** ** Replacing a branch *)

Lemma empty_history_ok (E : history (C := C)) t : (∀ i, ¬ member E i) → history_ok E t ∅ None.
Proof.
  intros Hno. assert (∀ i o m, ¬ E i o m) as Hn by (intros i o m He; apply (Hno i); by exists o, m).
  split; [naive_solver..| | |by exists 0; naive_solver|done].
  - by intros i ?%elem_of_empty.
  - intros i Hi. by destruct (Hno i).
Qed.

(** A reset leaves nothing of its topic and the other topics alone. *)
Lemma reset_valid inner t staged n :
  valid inner → reset_topic_locked inner t = (staged, Ok n) →
  valid staged ∧ (∀ i, ¬ member (hist staged t) i) ∧
  ∀ t', t' ≠ t → (∀ i o m, hist staged t' i o m ↔ hist inner t' i o m) ∧
    topic_state_locked staged t' = topic_state_locked inner t'.
Proof.
  intros [[Hok Htops] Hco Hops Hbuf] Hreset.
  destruct (reset_ok _ _ _ _ Hok Hreset) as (Hok' & Hgone & Hsame).
  destruct (reset_shape _ _ _ _ Hok Hreset) as (_ & Hw & _).
  assert (∀ i o, l_ops (s_log staged) !! i = Some o → l_ops (s_log inner) !! i = Some o) as Hback.
  { intros i o. rewrite (lw_ops _ _ _ Hw). by intros [? _]%map_lookup_filter_Some. }
  assert (∀ i, ¬ member (hist staged t) i) as Hno.
  { intros i (o & m & (_ & Hm & Ht)). by apply (tg_ops _ _ Hgone i m). }
  assert (∀ t', t' ≠ t → ∀ i o m, hist staged t' i o m ↔ hist inner t' i o m) as Hist.
  { intros t' Hne i o m. unfold entries_of. split.
    - intros (Ho & Hm & Ht). split_and!; [by apply Hback| |done].
      by apply (tm_ops _ _ _ (Hsame t' Hne)).
    - intros (Ho & Hm & Ht). apply (tm_ops _ _ _ (Hsame t' Hne)) in Hm; [|done]. split_and!; [|done..].
      assert (is_Some (l_ops (s_log staged) !! i)) as [o' Ho'].
      { rewrite -elem_of_dom (lo_dom _ (so_log _ Hok')). apply elem_of_dom. by eexists. }
      pose proof (Hback _ _ Ho') as Heq. congruence. }
  assert (∀ t', t' ≠ t → topic_state_locked staged t' = topic_state_locked inner t') as Hst.
  { intros t' Hne. unfold topic_state_locked.
    by rewrite (tm_heads _ _ _ (Hsame t' Hne)) (tm_state _ _ _ (Hsame t' Hne)). }
  split; [|by split; [|intros t' Hne; split; [apply Hist|apply Hst]]]. split.
  - split; [done|]. intros t'. unfold topic_ok. destruct (decide (t' = t)) as [->|Hne].
    + unfold topic_state_locked. rewrite (tg_state _ _ Hgone) (tg_heads _ _ Hgone). by apply empty_history_ok.
    + rewrite (Hst t' Hne) (tm_heads _ _ _ (Hsame t' Hne)).
      eapply history_ok_iff; [intros i o m; symmetry; by apply Hist|apply (Htops t')].
  - by eapply reset_consistent.
  - intros i o Ho. by eapply Hops, Hback.
  - intros i o Ho. apply (Hbuf i). eapply lookup_weaken; [done|by eapply reset_keeps].
Qed.

(** What a replacement that succeeds went through. *)
Lemma replaced_inv inner t expected batch eviction inner' n :
  reset_topic_and_admit inner t expected batch eviction = (inner', Ok n) →
  topic_state_locked inner t = Some expected ∧
  ∃ staged staged' u, reset_topic_locked inner t = (staged, Ok n) ∧
    admit_batch_locked staged batch None = (staged', Ok u) ∧
    ∃ evictions, inner' = set_evictions staged' evictions ∨ inner' = staged'.
Proof.
  unfold reset_topic_and_admit. case_bool_decide; [done|]. case_bool_decide as Hst; [|done]. cbn [negb].
  destruct (mem CopyOfStore); [|done]. res_step.
  destruct (reset_topic_locked inner t) as [staged [k|e]]; [|done]. res_step.
  destruct (admit_batch_locked staged batch None) as [staged' [u|e]] eqn:Ha; [|done]. res_step.
  intros Hr. split; [done|].
  destruct (journalled_eviction eviction) as [[key e]|].
  - destruct (bool_decide (s_evictions staged' !! key = None) && _); [done|].
    destruct (mem PlanNodes); [|done]. cbn [mbind result_bind] in Hr.
    destruct (mem (EvictionRecord e)); [|done]. cbn [mbind result_bind] in Hr. injection Hr as <- <-.
    exists staged, staged', u. split_and!; [done..|]. eexists. by left.
  - injection Hr as <- <-. exists staged, staged', u. split_and!; [done..|]. exists ∅. by right.
Qed.

Lemma replaced_err inner t expected batch eviction inner' e :
  reset_topic_and_admit inner t expected batch eviction = (inner', Err e) → inner' = inner.
Proof.
  unfold reset_topic_and_admit. case_bool_decide; [by intros [= <- _]|].
  case_bool_decide; [|by intros [= <- _]]. cbn [negb].
  match goal with |- context [match ?r with Ok _ => _ | Err _ => _ end] => destruct r as [[]|] end;
    [done|by intros [= <- _]].
Qed.

Lemma valid_evictions inner evictions :
  valid inner → valid (set_evictions inner evictions).
Proof.
  intros Hv. pose proof Hv as [_ [Hok Hb Ho Ha] _ Hbuf]. apply (valid_frame inner); try done.
  split; [by apply (store_ok_frame inner)|done..].
Qed.

(** A batch built against an empty topic, with a smaller genesis, replaces the branch. *)
Lemma replaced_evolves inner t expected batch eviction inner' n (gen : Op) :
  valid inner → reset_topic_and_admit inner t expected batch eviction = (inner', Ok n) →
  (∀ staged, valid staged → (∀ i, ¬ member (hist staged t) i) → batch_extends staged t batch) →
  (∀ e, e ∈ ab_entries batch → universe e.1) →
  (∃ m, (gen, m) ∈ ab_entries batch) → is_genesis gen = true →
  blt (op_id gen) (ts_genesis expected) →
  valid inner' ∧ evolves inner inner' ∧ commits inner inner' t batch ∧
  ∃ s, topic_state_locked inner' t = Some s ∧ ts_genesis s = op_id gen.
Proof.
  intros Hv (Hexp & staged & staged' & u & Hreset & Hadmit & evs & Hinner)%replaced_inv Hfits Huni
    [mg Hg] Hgen Hlt.
  destruct (reset_valid _ _ _ _ Hv Hreset) as (Hv1 & Hno & Hothers).
  destruct (admitted_evolves _ _ _ _ _ _ Hv1 (Hfits _ Hv1 Hno) Huni Hadmit) as (Hv2 & Hev & (Hin & Hnew) & _).
  assert (valid inner' ∧ s_log inner' = s_log staged' ∧
    topic_state_locked inner' t = topic_state_locked staged' t) as (Hv' & Hl & Hs).
  { destruct Hinner as [-> | ->]; [|done]. split; [by apply valid_evictions|done]. }
  assert (∃ s, topic_state_locked inner' t = Some s ∧ ts_genesis s = op_id gen) as (s & Hts & Hsg).
  { pose proof (Hin _ _ Hg) as Hm. pose proof (nd_topics _ (v_node _ Hv2) t) as Ht2.
    destruct (topic_state_member staged' t (op_id gen) Ht2) as [s Hst]; [by exists gen, mg|].
    exists s. split; [congruence|]. pose proof (h_state _ _ _ _ Ht2) as Hh. rewrite Hst in Hh.
    destruct Hh as (_ & _ & Hall). by destruct (Hall _ _ _ Hm) as [-> _]. }
  split_and!; [done| | |by exists s].
  - intros t'. destruct (decide (t' = t)) as [->|Hne].
    + right. exists expected, s. split_and!; [done..|]. by rewrite Hsg.
    + left. destruct (Hothers t' Hne) as [Hh _]. intros d Hd o m. rewrite Hl -(Hh d o m).
      destruct (Hev t') as [Hx|(s1 & s2 & Hs1 & Hs2 & Hb)].
      * apply Hx. destruct Hd as (o' & m' & Hd). exists o', m'. by apply Hh.
      * exfalso. destruct (admitted_entries _ _ _ _ _ _ (nd_store _ (v_node _ Hv1)) (Hfits _ Hv1 Hno) Hadmit)
          as (_ & _ & _ & Hheads & Htops). revert Hs2. unfold topic_state_locked in Hs1 |- *.
        rewrite Htops Hheads lookup_insert_ne //.
        destruct (ab_topic_state batch); [rewrite lookup_insert_ne //|]; rewrite Hs1; intros [= <-];
          by destruct (irreflexivity blt (ts_genesis s1)).
  - split; rewrite Hl; [done|]. intros i o [Ho|Ho]%Hnew; [left|by right].
    destruct (reset_shape _ _ _ _ (nd_store _ (v_node _ Hv)) Hreset) as (_ & Hw & _).
    rewrite (lw_ops _ _ _ Hw) in Ho. by apply map_lookup_filter_Some in Ho as [? _].
Qed.

Lemma store_empty_valid : valid store_empty.
Proof.
  split.
  - split; [apply store_empty_ok|]. intros t. unfold topic_ok, topic_state_locked.
    cbn [store_empty s_heads s_topics]. rewrite !lookup_empty. apply empty_history_ok.
    intros i (o & m & (Ho & _)). by rewrite lookup_empty in Ho.
  - apply store_empty_consistent.
  - intros i o. by rewrite lookup_empty.
  - intros i o. by rewrite lookup_empty.
Qed.

(** ** The commit of a batch *)

Lemma admit_plan_expected base batch quota plan :
  admit_plan base batch quota = Ok plan →
  ab_expected_heads batch = default ∅ (s_heads base !! ab_topic_id batch) ∧
  ab_expected_topic_state batch = topic_state_locked base (ab_topic_id batch).
Proof.
  unfold admit_plan. intros (? & _ & Hp)%bind_ok. next_ok Hp as (? & Hh & Hp).
  apply bind_ok in Hp as (? & Hs & _). split.
  - revert Hh. clear Hs. by case_bool_decide.
  - revert Hs. clear Hh. by case_bool_decide.
Qed.

(** A batch built for [base] and committed to a later store is refused without a
    change, or extends the later store. *)
Lemma commit_evolves base base' t batch quota base'' r :
  collision_free → valid base → valid base' → evolves base base' → batch_extends base t batch →
  (∀ e, e ∈ ab_entries batch → universe e.1) →
  admit_batch_locked base' batch quota = (base'', r) →
  valid base'' ∧ evolves base' base'' ∧
  match r with
  | Ok _ => commits base' base'' t batch ∧ keeps_ops base' base''
  | Err _ => base'' = base'
  end.
Proof.
  intros Hcf Hv Hv' Hev Hfits Huni Hadmit. destruct (admit_plan base' batch quota) as [plan|e] eqn:Hplan.
  2: { revert Hadmit. unfold admit_batch_locked. rewrite Hplan. intros [= <- <-].
    split_and!; [done|apply evolves_refl|done]. }
  destruct (admit_plan_expected _ _ _ _ Hplan) as [Hh Hs]. rewrite (fits_topic _ _ _ Hfits) in Hh, Hs.
  assert (batch_extends base' t batch) as Hfits'.
  { eapply (extends_move base); try done.
    - by rewrite -Hh (fits_expected_heads _ _ _ Hfits).
    - by rewrite -Hs (fits_expected_state _ _ _ Hfits). }
  pose proof (nd_store _ (v_node _ Hv')) as Hok. pose proof (fits_wf _ _ _ Hfits') as Hwf.
  assert (r = Ok ()) as ->.
  { revert Hadmit. unfold admit_batch_locked. rewrite Hplan. intros Hw.
    by destruct (admit_write_ok _ _ _ _ _ Hok Hwf (admit_plan_ok _ _ _ _ Hok Hwf Hplan) Hw). }
  by apply (admitted_evolves _ _ _ _ _ _ Hv' Hfits' Huni Hadmit).
Qed.

(** ** Buffer writes *)

Lemma buffer_ops (p : Pool) src op missing charge i o :
  p_ops (buffer p src op missing charge) !! i = Some o → p_ops p !! i = Some o ∨ o = op.
Proof.
  unfold buffer. destruct (p_records p !! op_id op); cbn [p_ops]; [by left|].
  intros [[_ <-]|[_ ?]]%lookup_insert_Some; [by right|by left].
Qed.

Lemma buffered_valid inner quota src op meta genesis inner' :
  valid inner → bufferable op → put_pending_bound inner quota src op meta genesis = Ok inner' →
  valid inner' ∧ s_log inner' = s_log inner ∧ s_topics inner' = s_topics inner ∧
  s_heads inner' = s_heads inner.
Proof.
  intros Hv Hop Hput. pose proof (v_consistent _ Hv) as Hco.
  assert (consistent inner') as Hco' by (eapply step_consistent; [done|by eapply step_buffer]).
  destruct (put_pending_cases _ _ _ _ _ _ _ (co_store _ Hco) Hput)
    as [[-> _]|[[-> _]|(charge & _ & ->)]]; [done..|].
  split; [|done]. apply (valid_frame inner); try done. cbn [set_pool s_pool].
  intros i o [Ho| ->]%buffer_ops; [by apply (v_buffered _ Hv i)|done].
Qed.

Lemma purged_valid inner dep p n :
  valid inner → purge_pending_waiters (s_pool inner) dep = Ok (p, n) → valid (set_pool inner p).
Proof.
  intros Hv Hpurge. apply (valid_frame inner); try done.
  - eapply (step_consistent None); [apply (v_consistent _ Hv)|by eapply step_purge].
  - intros i o Ho. apply (v_buffered _ Hv i). eapply lookup_weaken; [done|]. revert Hpurge.
    unfold purge_pending_waiters. intros (p' & Hp & [= <- _])%bind_ok. by eapply remove_all_keeps.
Qed.

Lemma reject_keeps inner i inner' n :
  reject_pending_subtree inner i = Ok (inner', n) → p_ops (s_pool inner') ⊆ p_ops (s_pool inner).
Proof.
  unfold reject_pending_subtree. destruct (p_records _ !! i); [|by intros [= <- _]].
  intros (? & _ & Hrej)%bind_ok. skip_ok Hrej.
  apply bind_ok in Hrej as (pool & Hp & [= <- _]). by eapply remove_all_keeps.
Qed.

Lemma rejected_valid inner i inner' n :
  valid inner → reject_pending_subtree inner i = Ok (inner', n) →
  valid inner' ∧ s_log inner' = s_log inner ∧ s_topics inner' = s_topics inner ∧
  s_heads inner' = s_heads inner.
Proof.
  intros Hv Hrej.
  assert (consistent inner') as Hco
    by (eapply (step_consistent None); [apply (v_consistent _ Hv)|by eapply step_reject]).
  pose proof (reject_keeps _ _ _ _ Hrej) as Hkeeps. unfold reject_pending_subtree in Hrej. destruct (p_records _ !! i); [|by injection Hrej as <- _].
  do 2 skip_ok Hrej. apply bind_ok in Hrej as (pool & _ & [= <- _]).
  split; [|done]. apply (valid_frame inner); try done.
  intros j o Ho. apply (v_buffered _ Hv j). by eapply lookup_weaken.
Qed.
End evolve.
