(* ===== verification/OplogInv.v ===== *)
(** * What an admission keeps

    Whatever other writers do to the store between the reads of an admission and its
    commit, an admission leaves a valid store that evolved from the one it met, a
    membership cache whose projections are exact, and every operation it reports as
    accepted in the history of its topic. *)

From stdpp Require Import relations.
From S2P Require Import Prelude Ids Frame ClockSpec Types Membership Topology.
From S2P Require Import Pages Evidence Records Pool Store StoreLog StoreAdmit StoreOps StoreReset.
From S2P Require Import StoreEvidence StoreRun.
From S2P Require Import Admission Dag Projection Building Commit Genesis Oplog Evolve.

#[local] Open Scope N_scope.

Section oplog_inv.
Context {C : Type} `{!ClockImpl C} `{!StoreEnv C} `{!Crypto} `{!OplogEnv}.
Context (universe : Op → Prop) (Hcf : collision_free universe).
Implicit Types (inner mid : MemoryInner C) (t : TopicId) (ol : Oplog) (cache : MembershipCache).

Abbreviation hist inner t := (entries_of (s_log inner) t).
Abbreviation valid := (valid universe).

(** ** The membership cache *)

(** A cached state is the one behind its operation, or of a branch that was lost. *)
Definition cached_ok inner (i : OpId) (s : TopicState) : Prop :=
  ∃ s0, topic_state_locked inner (ts_topic_id s) = Some s0 ∧
    ((ts_genesis s0 = ts_genesis s ∧ member (hist inner (ts_topic_id s)) i ∧
      state_at (hist inner (ts_topic_id s)) {[i]} s) ∨
     blt (ts_genesis s0) (ts_genesis s)).

Definition cache_ok cache inner : Prop :=
  ∀ i s, mc_states cache !! i = Some s → cached_ok inner i s.

Lemma cached_evolves inner inner' i s :
  valid inner → valid inner' → evolves inner inner' → cached_ok inner i s → cached_ok inner' i s.
Proof.
  intros Hv Hv' Hev (s0 & Hs0 & Hc). set (t := ts_topic_id s) in *.
  pose proof (nd_topics _ (v_node _ _ Hv) t) as T. pose proof (nd_topics _ (v_node _ _ Hv') t) as T'.
  destruct (Hev t) as [Hext|(s1 & s1' & Hs1 & Hs1' & Hlt)].
  - destruct (grows_genesis _ _ _ _ T T' Hext Hs0) as (s0' & Hs0' & Hg). exists s0'. split; [done|].
    destruct Hc as [(Hgen & Hm & Hat)|Hlt]; [left|right; by rewrite Hg]. split; [congruence|].
    split; [by eapply member_grow|]. eapply (state_at_grow (hist inner t)); [exact T|done| |done].
    by intros d ->%elem_of_singleton.
  - exists s1'. split; [done|]. right. assert (s1 = s0) as -> by congruence.
    destruct Hc as [(Hgen & _)|Hlt']; [by rewrite -Hgen|by etrans].
Qed.

Lemma cache_evolves cache inner inner' :
  valid inner → valid inner' → evolves inner inner' → cache_ok cache inner → cache_ok cache inner'.
Proof. intros Hv Hv' Hev Hc i s Hi. by eapply cached_evolves, Hc. Qed.

Lemma cache_reset_ok cache inner : cache_ok (cache_reset cache) inner.
Proof. intros i s. by rewrite lookup_empty. Qed.

(** The projections a build starts from are exact. *)
Lemma usable_ok inner t cache :
  cache_ok cache inner →
  projections_ok (hist inner t) (usable_projections t (topic_state_locked inner t) (mc_states cache)).
Proof.
  intros Hc i s. unfold usable_projections. destruct (topic_state_locked inner t) as [s0|] eqn:Hs0;
    [|by rewrite lookup_empty].
  intros [Hi [Ht Hg]]%map_lookup_filter_Some. simpl in Ht, Hg.
  destruct (Hc i s Hi) as (s1 & Hs1 & Hcase). rewrite Ht in Hs1 Hcase. rewrite Hs0 in Hs1.
  injection Hs1 as <-. destruct Hcase as [(_ & Hm & Hat)|Hlt]; [done|].
  rewrite Hg in Hlt. by destruct (irreflexivity blt (ts_genesis s0)).
Qed.

(** A state at a frontier is of the topic and branch of the history. *)
Lemma state_at_branch (E : history (C := C)) t heads s0 (ds : gset OpId) s :
  history_ok E t heads (Some s0) → state_at E ds s → ts_topic_id s = t ∧ ts_genesis s = ts_genesis s0.
Proof.
  intros HE (ops & Hcausal & gop & g & Hin & Hpl & (Ht & _ & Hg & _)).
  apply Hcausal in Hin as (m & Hm & _). destruct (h_entry _ _ _ _ HE _ _ _ Hm) as [_ Hv].
  pose proof (h_state _ _ _ _ HE) as (_ & _ & Hall). destruct (Hall _ _ _ Hm) as [Hid _].
  rewrite Ht Hg. split; [apply Hv|]. apply Hid. unfold is_genesis. by rewrite Hpl.
Qed.

Lemma exact_cached inner t i s :
  topic_ok inner t → member (hist inner t) i → state_at (hist inner t) {[i]} s → cached_ok inner i s.
Proof.
  intros Hok Hm Hat. destruct (topic_state_member inner t i Hok Hm) as [s0 Hs0].
  assert (ts_topic_id s = t ∧ ts_genesis s = ts_genesis s0) as [Ht Hg].
  { eapply state_at_branch; [|done]. unfold topic_ok in Hok. by rewrite Hs0 in Hok. }
  exists s0. rewrite Ht. split; [done|]. left. by rewrite Hg.
Qed.

Lemma make_room_sub states order (s : TopicState) : (make_room states order s).1 ⊆ states.
Proof.
  revert states. induction order as [|i order IH]; intros states; simpl; destruct (_ || _); try done.
  etrans; [apply IH|apply delete_subseteq].
Qed.

Lemma cache_projections_ok cache inner epoch (built : BuiltBatch (C := C)) :
  (∀ i s, bb_projections built !! i = Some s → cached_ok inner i s) →
  cache_ok cache inner → cache_ok (cache_projections epoch built cache) inner.
Proof.
  intros Hp Hc. unfold cache_projections. destruct (_ =? _); [|done].
  generalize (bt_elements (bb_projection_tips built)) as l. intros l. revert cache Hc.
  induction l as [|i l IH]; intros cache Hc; [done|]. cbn [foldl]. apply IH. unfold cache_tip.
  destruct (bb_projections built !! i) as [s|] eqn:Hi; [|done].
  destruct (bool_decide _ && _); [|done].
  pose proof (make_room_sub (mc_states cache) (mc_order cache) s) as Hsub.
  destruct (make_room _ _ _) as [states order]. cbn [mc_states]. intros j s'. cbn [mc_states].
  intros [[<- <-]|[_ Hj]]%lookup_insert_Some.
  - by apply Hp.
  - apply Hc. by eapply lookup_weaken.
Qed.

(** ** Buffering what waits *)

Lemma buffer_pending_ok quota source bound failure pending inner inner' r :
  valid inner → (∀ o missing, (o, missing) ∈ pending → bufferable universe o) →
  buffer_pending quota inner source bound failure pending = (inner', r) →
  valid inner' ∧ s_log inner' = s_log inner ∧ s_topics inner' = s_topics inner ∧
  s_heads inner' = s_heads inner.
Proof.
  revert inner. induction pending as [|[o ms] pending IH]; intros inner Hv Huni; cbn [buffer_pending].
  { by intros [= <- _]. }
  assert (∀ o missing, (o, missing) ∈ pending → bufferable universe o) as Huni'
    by (intros o' ms' Hin; eapply Huni; by right).
  destruct (put_pending_bound _ _ _ _ _ _) as [inner1|e] eqn:Hput.
  - destruct (buffered_valid _ _ _ _ _ _ _ _ Hv (Huni o ms ltac:(by left)) Hput) as (Hv1 & Hl & Ht & Hh).
    intros Hrest. destruct (IH _ Hv1 Huni' Hrest) as (Hv2 & Hl2 & Ht2 & Hh2). split_and!; congruence || done.
  - destruct e; try (intros Hrest; injection Hrest as <- _; done). by apply IH.
Qed.

(** ** One batch *)

(** What other writers may do: any writes that keep the store valid and let histories
    evolve. *)
Definition harmless (f : MemoryInner C → MemoryInner C) : Prop :=
  ∀ st, valid st → valid (f st) ∧ evolves st (f st).

(** A plan to reset goes with a genesis smaller than the one it expects. *)
Definition plan_for (ops : list Op) (plan : option ResetPlan) : Prop :=
  ∀ p, plan = Some p → ∃ gen, gen ∈ ops ∧ is_structural_genesis gen = true ∧
    blt (op_id gen) (ts_genesis (rp_expected_state p)).

(** What an admission leaves: a valid store and cache, and what it accepted stored. *)
Record admitted_state ol inner (ops : list Op) ol' inner' (r : res (gset OpId)) : Prop := {
  as_valid : valid inner';
  as_evolves : evolves inner inner';
  as_cache : cache_ok (ol_cache ol') inner';
  as_genesis : ol_receive_genesis ol' = ol_receive_genesis ol;
  as_accepted : ∀ accepted i, r = Ok accepted → i ∈ accepted →
    ∃ o, o ∈ ops ∧ op_id o = i ∧ l_ops (s_log inner') !! i = Some o;
}.

(** Nothing but [ids] was stored since [mid]. *)
Definition only_new mid inner' (ids : gset OpId) : Prop :=
  ∀ i o, l_ops (s_log inner') !! i = Some o → l_ops (s_log mid) !! i = Some o ∨ i ∈ ids.

(** The outcome names everything that was stored since [mid], errors included. *)
Definition reported mid inner' (r : res (gset OpId)) : Prop :=
  match r with
  | Ok accepted => only_new mid inner' accepted
  | Err (AdmissionCommitted admitted _) => only_new mid inner' (ad_accepted admitted)
  | Err _ => only_new mid inner' ∅
  end.

(** In a valid store an operation of the universe is stored as itself. *)
Lemma fresh_elsewhere inner t (o : Op) :
  valid inner → universe o → topic_id (obody o) = t → (∀ i, ¬ member (hist inner t) i) →
  l_meta (s_log inner) !! op_id o = None.
Proof.
  intros Hv Ho Ht Hno. pose proof (so_log _ (nd_store _ (v_node _ _ Hv))) as Hlog.
  destruct (l_meta (s_log inner) !! op_id o) as [m|] eqn:Hm; [|done]. exfalso.
  assert (is_Some (l_ops (s_log inner) !! op_id o)) as [o' Ho'].
  { rewrite -elem_of_dom (lo_dom _ Hlog). apply elem_of_dom. by eexists. }
  destruct (lo_entry _ Hlog _ _ _ Ho' Hm) as (Hid & _ & Hmt & _).
  assert (o' = o) as -> by (apply Hcf; [by eapply v_ops|done..]).
  apply (Hno (op_id o)). exists o, m. split_and!; [done..|congruence].
Qed.

(** A projection made for a batch is exact afterwards, or its branch was lost. *)
Lemma projection_cached inner inner' t l heads state i s :
  valid inner → valid inner' → history_ok (with_entries (hist inner t) l) t heads state →
  evolves inner inner' → (∀ o m, (o, m) ∈ l → hist inner' t (op_id o) o m) →
  member (with_entries (hist inner t) l) i → state_at (with_entries (hist inner t) l) {[i]} s →
  cached_ok inner' i s.
Proof.
  intros Hv Hv' HV Hev Hin Hm Hat. pose proof (nd_topics _ (v_node _ _ Hv) t) as T.
  pose proof (nd_topics _ (v_node _ _ Hv') t) as T'.
  destruct (Hev t) as [Hx|(s1 & s2 & Hs1 & Hs2 & Hlt)].
  - assert (∀ j o m, with_entries (hist inner t) l j o m → hist inner' t j o m) as Hfwd.
    { intros j o m [Hj|[Hj <-]]; [|by apply Hin]. apply Hx; [by exists o, m|done]. }
    assert (extends_history (with_entries (hist inner t) l) (hist inner' t)) as Hext.
    { intros d (od & md & Hd) o m. split; [|apply Hfwd]. intros Hd'.
      by destruct (h_fun _ _ _ _ T' _ _ _ _ _ (Hfwd _ _ _ Hd) Hd') as [<- <-]. }
    eapply exact_cached; [exact T'|by eapply member_grow|].
    eapply (state_at_grow (with_entries (hist inner t) l)); [done..| |done]. by intros d ->%elem_of_singleton.
  - destruct (topic_state_genesis inner t s1 T Hs1) as (gop & m & Hg & Hisg).
    pose proof (h_state _ _ _ _ HV) as Hst. destruct state as [s0|]; [|by destruct (Hst i)].
    destruct (state_at_branch _ _ _ _ _ _ HV Hat) as [Ht Hsg].
    destruct Hst as (_ & _ & Hall). destruct (Hall (ts_genesis s1) gop m) as [Heq _]; [by left|].
    exists s2. rewrite Ht. split; [done|]. right. by rewrite Hsg -(Heq Hisg).
Qed.

Lemma waits_not_genesis (o : Op) (missing : gset OpId) :
  missing ≠ ∅ → missing ⊆ deps (obody o) → is_structural_genesis o = false.
Proof.
  intros Hne Hsub. unfold is_structural_genesis. apply andb_false_iff. right.
  apply bool_decide_eq_false. intros Hd. rewrite Hd in Hsub. set_solver.
Qed.

(** The batch of a build without a reset, and what it commits. *)
Lemma commit_built inner between quota cached receive source ops verified effects built inner' r :
  valid inner → harmless between → (∀ o, o ∈ ops → universe o) →
  projections_ok (hist inner (ab_topic_id (bb_batch built)))
    (usable_projections (ab_topic_id (bb_batch built))
      (topic_state_locked inner (ab_topic_id (bb_batch built))) cached) →
  build_batch inner cached receive source ops verified false effects = Ok (Some built) →
  commit_batch quota (between inner) (bb_batch built) None = (inner', r) →
  valid inner' ∧ evolves inner inner' ∧
  match r with
  | Ok _ =>
      commits (between inner) inner' (ab_topic_id (bb_batch built)) (bb_batch built) ∧
      (bb_accepted built = list_to_set ((λ e, op_id e.1) <$> ab_entries (bb_batch built))) ∧
      (∀ e, e ∈ ab_entries (bb_batch built) → e.1 ∈ ops) ∧
      (∀ o missing, (o, missing) ∈ bb_pending built → bufferable universe o) ∧
      ∀ i s, bb_projections built !! i = Some s → cached_ok inner' i s
  | Err _ => inner' = between inner
  end.
Proof.
  intros Hv Hharm Huni Hproj Hbuild Hcommit. set (t := ab_topic_id (bb_batch built)) in *.
  destruct (Hharm inner Hv) as [Hv1 Hev1].
  assert (base_for inner inner t false) as Hbase by (split; [apply (v_node _ _ Hv)|done|done]).
  destruct (build_batch_fits inner inner cached receive source ops verified false effects built Hbuild Hbase
    (nd_topics _ (v_node _ _ Hv) t) Hproj ltac:(done)) as (Hfits & Hacc & Hin & Hpend & Hp & _).
  assert (∀ e, e ∈ ab_entries (bb_batch built) → universe e.1) as Huni' by (intros e He; by apply Huni, Hin).
  assert (∀ o missing, (o, missing) ∈ bb_pending built → bufferable universe o) as Hpu.
  { intros o ms Ho. destruct (Hpend o ms Ho) as (Hops & _ & _ & Hne & Hsub & _).
    split; [by apply Huni|by eapply waits_not_genesis]. }
  assert (valid inner' ∧ evolves (between inner) inner' ∧
    match r with Ok _ => commits (between inner) inner' t (bb_batch built)
    | Err _ => inner' = between inner end) as (Hv2 & Hev2 & Hst).
  { revert Hcommit. unfold commit_batch. case_decide as Hnil.
    - intros [= <- <-]. split_and!; [done|apply evolves_refl|]. split; [|by left]. rewrite Hnil.
      by intros o m ?%elem_of_nil.
    - intros Hadmit. destruct (commit_evolves universe inner (between inner) t _ _ _ _ Hcf Hv Hv1 Hev1
        (fits_extends _ _ _ Hfits) Huni' Hadmit) as (H1 & H2 & H3).
      split_and!; [done..|]. by destruct r; [apply H3|]. }
  assert (evolves inner inner') as Hev by by eapply (evolves_trans universe inner (between inner)).
  split_and!; [done..|]. destruct r as [u|e]; [|done].
  split_and!; [done..|].
  intros i s Hi. destruct (Hp i s Hi) as [Hm Hat].
  eapply (projection_cached inner inner' t); [done|done|apply (fits_history _ _ _ (fits_extends _ _ _ Hfits))|
    done|apply Hst|done|done].
Qed.

(** The batch of a build for a reset, and what it commits. *)
Lemma commit_reset inner between quota cached receive source ops verified effects built plan inner' r :
  valid inner → harmless between → (∀ o, o ∈ ops → universe o) → plan_for ops (Some plan) →
  build_batch inner cached receive source ops verified true effects = Ok (Some built) →
  commit_batch quota (between inner) (bb_batch built) (Some plan) = (inner', r) →
  valid inner' ∧ evolves inner inner' ∧
  match r with
  | Ok _ =>
      commits (between inner) inner' (ab_topic_id (bb_batch built)) (bb_batch built) ∧
      (bb_accepted built = list_to_set ((λ e, op_id e.1) <$> ab_entries (bb_batch built))) ∧
      (∀ e, e ∈ ab_entries (bb_batch built) → e.1 ∈ ops) ∧
      (∀ o missing, (o, missing) ∈ bb_pending built → bufferable universe o)
  | Err _ => inner' = between inner
  end.
Proof.
  intros Hv Hharm Huni Hplan Hbuild Hcommit. set (t := ab_topic_id (bb_batch built)) in *.
  destruct (Hharm inner Hv) as [Hv1 Hev1].
  destruct (Hplan plan eq_refl) as (gen & Hgen & Hstruct & Hlt).
  revert Hcommit. unfold commit_batch.
  destruct (reset_topic_and_admit _ _ _ _ _) as [inner2 [n|e]] eqn:Hrep; intros [= <- <-].
  2: { rewrite (replaced_err _ _ _ _ _ _ _ Hrep). by split_and!. }
  assert (∀ staged, valid staged → (∀ i, ¬ member (hist staged t) i) →
    batch_fits staged t (bb_batch built) ∧
    bb_accepted built = list_to_set ((λ e, op_id e.1) <$> ab_entries (bb_batch built)) ∧
    (∀ e, e ∈ ab_entries (bb_batch built) → e.1 ∈ ops) ∧
    (∀ o missing, (o, missing) ∈ bb_pending built → bufferable universe o) ∧
    ∃ m, (gen, m) ∈ ab_entries (bb_batch built)) as Hbuilt.
  { intros staged Hvs Hno. pose proof (nd_topics _ (v_node _ _ Hvs) t) as Ts.
    destruct (build_batch_fits inner staged cached receive source ops verified true effects built Hbuild)
      as (Hfits & Hacc & Hin & Hpend & _ & Hg); [|done| | |].
    - split; [apply (v_node _ _ Hvs)|done|done].
    - rewrite (empty_topic_state staged t Ts Hno). intros i s. by rewrite lookup_empty.
    - intros _ o Ho Hto. by apply (fresh_elsewhere staged t o Hvs (Huni o Ho)).
    - split_and!; [done..| |].
      + intros o ms Ho. destruct (Hpend o ms Ho) as (Hops & _ & _ & Hne & Hsub & _).
        split; [by apply Huni|by eapply waits_not_genesis].
      + apply Hg; [done..| |done]. intros o Ho Hid. by apply Hcf; [apply Huni|apply Huni|]. }
  destruct (replaced_inv _ _ _ _ _ _ _ Hrep) as (_ & staged & _ & _ & Hreset & _).
  destruct (reset_valid _ _ _ _ _ Hv1 Hreset) as (Hvs & Hno & _).
  destruct (Hbuilt staged Hvs Hno) as (_ & Hacc & Hin & Hpend & Hg).
  destruct (replaced_evolves universe (between inner) t (rp_expected_state plan) (bb_batch built)
    (Some (rp_eviction plan)) inner2 n gen Hv1 Hrep) as (Hv2 & Hev2 & Hst & _); [| | |by apply structural_is_genesis|done|].
  - intros st Hvst Hnost. by apply (Hbuilt st Hvst Hnost).
  - intros e He. by apply Huni, Hin.
  - done.
  - split_and!; [done|by eapply (evolves_trans universe inner (between inner))|done..].
Qed.

(** What is known after a commit: how the store evolved, what it accepted. *)
Record committed inner mid inner1 (ops : list Op) (built : BuiltBatch (C := C)) : Prop := {
  cm_valid : valid inner1;
  cm_evolves : evolves inner inner1;
  cm_accepted : ∀ i, i ∈ bb_accepted built →
    ∃ o, o ∈ ops ∧ op_id o = i ∧ l_ops (s_log inner1) !! i = Some o;
  cm_new : only_new mid inner1 (bb_accepted built);
  cm_pending : ∀ o missing, (o, missing) ∈ bb_pending built → bufferable universe o;
}.

Lemma commits_accepted mid inner1 t (ops : list Op) (built : BuiltBatch (C := C)) :
  valid inner1 → commits mid inner1 t (bb_batch built) →
  bb_accepted built = list_to_set ((λ e, op_id e.1) <$> ab_entries (bb_batch built)) →
  (∀ e, e ∈ ab_entries (bb_batch built) → e.1 ∈ ops) →
  (∀ i, i ∈ bb_accepted built → ∃ o, o ∈ ops ∧ op_id o = i ∧ l_ops (s_log inner1) !! i = Some o) ∧
  only_new mid inner1 (bb_accepted built).
Proof.
  intros Hv [Hst Hnew] Ha Hin. split.
  - intros i. rewrite Ha elem_of_list_to_set. intros ([o m] & -> & He)%list_elem_of_fmap.
    exists o. destruct (Hst o m He) as (Ho & _). split_and!; [by apply (Hin _ He)|done|done].
  - intros i o Ho. destruct (Hnew i o Ho) as [?|[m He]]; [by left|right].
    assert (op_id o = i) as <-.
    { pose proof (so_log _ (nd_store _ (v_node _ _ Hv))) as Hlog.
      assert (is_Some (l_meta (s_log inner1) !! i)) as [m' Hm].
      { rewrite -elem_of_dom -(lo_dom _ Hlog). apply elem_of_dom. by eexists. }
      by destruct (lo_entry _ Hlog _ _ _ Ho Hm). }
    rewrite Ha elem_of_list_to_set. apply list_elem_of_fmap. by exists (o, m).
Qed.

(** A commit that succeeds. *)
Lemma commit_ok quota inner between cache receive source ops verified plan effects built inner1 rc :
  valid inner → cache_ok cache inner → (∀ o, o ∈ ops → universe o) → harmless between →
  plan_for ops plan →
  build_batch inner (mc_states cache) receive source ops verified (bool_decide (is_Some plan)) effects =
    Ok (Some built) →
  commit_batch quota (between inner) (bb_batch built) plan = (inner1, rc) →
  match rc with
  | Ok _ => committed inner (between inner) inner1 ops built ∧
      (plan = None → ∀ i s, bb_projections built !! i = Some s → cached_ok inner1 i s)
  | Err _ => inner1 = between inner
  end.
Proof.
  intros Hv Hc Huni Hharm Hplan Hbuild Hcommit. destruct plan as [plan|].
  - destruct (commit_reset _ _ _ _ _ _ _ _ _ _ _ _ _ Hv Hharm Huni Hplan Hbuild Hcommit) as (H1 & H2 & H3).
    destruct rc; [|done]. destruct H3 as (Hst & Ha & Hin & Hp).
    destruct (commits_accepted _ _ _ _ _ H1 Hst Ha Hin). by split.
  - destruct (commit_built _ _ _ _ _ _ _ _ _ _ _ _ Hv Hharm Huni (usable_ok _ _ _ Hc) Hbuild Hcommit)
      as (H1 & H2 & H3).
    destruct rc; [|done]. destruct H3 as (Hst & Ha & Hin & Hp & Hpr).
    destruct (commits_accepted _ _ _ _ _ H1 Hst Ha Hin). by split.
Qed.

(** The error of a failed buffering names what was committed. *)
Lemma failure_reported mid inner1 inner2 (built : BuiltBatch (C := C)) plan error :
  s_log inner2 = s_log inner1 → only_new mid inner1 (bb_accepted built) →
  reported mid inner2 (Err (admission_failure (committed_part built plan) error)).
Proof.
  intros Hl Hnew. assert (∀ ids, only_new mid inner1 ids → only_new mid inner2 ids) as Hsame
    by (unfold only_new; by rewrite Hl).
  assert (∀ ids : gset OpId, bb_accepted built ⊆ ids → only_new mid inner2 ids) as Hmore.
  { intros ids Hsub. apply Hsame. intros i o [?|?]%Hnew; [by left|right; by apply Hsub]. }
  unfold admission_failure. destruct error; cbn [committed_part ad_accepted ad_evictions].
  all: try (case_bool_decide as He; cbn [andb]; [|by apply Hmore]; case_bool_decide;
    [apply Hmore; set_solver|by apply Hmore]).
  case_bool_decide as He; cbn [andb]; [|apply Hmore; cbn [ad_accepted]; set_solver].
  assert (bb_accepted built = ∅) as Hnone by set_solver.
  case_bool_decide; [|apply Hmore; cbn [ad_accepted]; set_solver].
  destruct error; apply Hmore; set_solver.
Qed.

(** The failures of buffering pass through [failure]. *)
Lemma buffer_pending_failure quota source bound failure pending inner inner' e :
  buffer_pending quota inner source bound failure pending = (inner', Err e) → ∃ e0, e = failure e0.
Proof.
  revert inner. induction pending as [|[o ms] pending IH]; intros inner; cbn [buffer_pending]; [done|].
  destruct (put_pending_bound _ _ _ _ _ _) as [inner1|e1]; [by apply IH|].
  destruct e1; try (intros [= _ <-]; by eexists). by apply IH.
Qed.

(** [admit_ops_batch] keeps the op log and reports everything it stored. *)
Lemma admit_ops_batch_ok quota ol inner between source ops verified plan effects ol' inner' r :
  valid inner → cache_ok (ol_cache ol) inner → (∀ o, o ∈ ops → universe o) → harmless between →
  plan_for ops plan →
  admit_ops_batch quota ol inner between source ops verified plan effects = (ol', inner', r) →
  admitted_state ol inner ops ol' inner' r ∧ reported (between inner) inner' r.
Proof.
  intros Hv Hc Huni Hharm Hplan. destruct (Hharm inner Hv) as [Hv1 Hev1]. unfold admit_ops_batch.
  set (cache := if bool_decide (is_Some plan) then cache_reset (ol_cache ol) else ol_cache ol).
  assert (cache_ok cache inner) as Hc0 by (unfold cache; case_bool_decide; [apply cache_reset_ok|done]).
  assert (cache_ok cache (between inner)) as Hc1 by by eapply (cache_evolves _ inner).
  assert (∀ ol1 r', ol_cache ol1 = cache → ol_receive_genesis ol1 = ol_receive_genesis ol →
    (∀ accepted i, r' = Ok accepted → i ∉ accepted) →
    admitted_state ol inner ops ol1 (between inner) r' ∧ reported (between inner) (between inner) r')
    as Hnothing.
  { intros ol1 r' Hc' Hg' Hr'. split.
    - split; try done; [by rewrite Hc'|]. intros acc i Hacc Hi. by destruct (Hr' acc i).
    - destruct r' as [acc|e]; [by left|]. destruct e; by left. }
  destruct (build_batch _ _ _ _ _ _ _ _) as [[built|]|e] eqn:Hbuild.
  2: { intros [= <- <- <-]. apply Hnothing; [done..|]. intros acc i [= <-]. apply not_elem_of_empty. }
  2: { intros [= <- <- <-]. by apply Hnothing. }
  destruct (commit_batch quota (between inner) (bb_batch built) plan) as [inner1 rc] eqn:Hcommit.
  pose proof (commit_ok _ _ _ _ _ _ _ _ _ _ _ _ _ Hv Hc0 Huni Hharm Hplan Hbuild Hcommit) as Hrc.
  destruct rc as [u|e].
  2: { subst inner1. intros [= <- <- <-]. by apply Hnothing. }
  destruct Hrc as [[Hv2 Hev2 Hacc Hnew Hpend] Hproj].
  set (cache' := if bool_decide (is_Some plan) then cache_reset cache else cache).
  assert (cache_ok cache inner1) as Hc2 by by eapply (cache_evolves _ inner).
  assert (cache_ok cache' inner1) as Hc3 by (unfold cache'; case_bool_decide; [apply cache_reset_ok|done]).
  assert (cache_ok (cache_projections (mc_epoch cache) built cache') inner1) as Hc4.
  { unfold cache'. case_bool_decide as Hp.
    - unfold cache_projections. cbn [cache_reset mc_epoch]. rewrite (proj2 (N.eqb_neq _ _)); [lia|].
      apply cache_reset_ok.
    - apply cache_projections_ok; [|done]. apply Hproj. by apply eq_None_not_Some. }
  destruct (buffer_pending _ _ _ _ _ _) as [inner2 rb] eqn:Hbuf.
  destruct (buffer_pending_ok _ _ _ _ _ _ _ _ Hv2 Hpend Hbuf) as (Hv3 & Hl & _ & _).
  assert (evolves inner1 inner2) as Hev3 by by apply evolves_frame.
  assert (evolves inner inner2) as Hev4 by by eapply (evolves_trans universe inner inner1).
  destruct rb as [[]|e]; intros [= <- <- <-]; split.
  - split; [done..|by eapply (cache_evolves _ inner1)|done|]. intros acc i [= <-] Hi. rewrite Hl. by apply Hacc.
  - unfold reported, only_new. rewrite Hl. exact Hnew.
  - split; [done..|by eapply (cache_evolves _ inner1)|done|done].
  - destruct (buffer_pending_failure _ _ _ _ _ _ _ _ Hbuf) as [e0 ->]. by eapply failure_reported.
Qed.

(** ** Attempts and retries *)

(** What the resolution of a genesis collision goes on with. *)
Lemma resolved_plan inner (ops : list Op) verified kept plan rejected :
  resolve_genesis_collision inner ops verified = Ok (kept, plan, rejected) →
  (∀ o, o ∈ kept → o ∈ ops) ∧ plan_for kept plan.
Proof.
  unfold resolve_genesis_collision. destruct (List.find _ _) as [gen|] eqn:Hfind; [|by intros [= <- <- _]].
  apply List.find_some in Hfind as [Hin%list_elem_of_In Hs].
  destruct (topic_state_locked inner _) as [s|]; [|by intros [= <- <- _]].
  destruct (bool_decide _); [by intros [= <- <- _]|]. intros (? & _ & Hr)%bind_ok.
  assert (∀ o, o ∈ without_descendants ops (op_id gen) → o ∈ ops) as Hsub.
  { intros o Ho. unfold without_descendants in Ho. by apply list_elem_of_filter in Ho as [_ ?]. }
  revert Hr. destruct (bltb _ _) eqn:Hlt; [|by intros [= <- <- _]].
  destruct (negb _); intros [= <- <- _]; [done|]. split; [done|].
  intros p [= <-]. exists gen. split_and!; [done..|]. by apply bltb_lt.
Qed.

(** A harmless detour before an admission. *)
Lemma admitted_after ol inner inner1 ops ol' inner' r :
  valid inner → valid inner1 → evolves inner inner1 →
  admitted_state ol inner1 ops ol' inner' r → admitted_state ol inner ops ol' inner' r.
Proof.
  intros Hv Hv1 Hev [H1 H2 H3 H4 H5]. split; try done. by eapply (evolves_trans universe inner inner1).
Qed.

(** Nothing happened. *)
Lemma admitted_none ol inner ops e :
  valid inner → cache_ok (ol_cache ol) inner → admitted_state ol inner ops ol inner (Err e).
Proof. intros Hv Hc. split; [done|apply evolves_refl|done|done|done]. Qed.

Lemma admit_attempt_ok quota ol inner between source ops verified effects ol' inner' r :
  valid inner → cache_ok (ol_cache ol) inner → (∀ o, o ∈ ops → universe o) → harmless between →
  admit_attempt quota ol inner between source ops verified effects = (ol', inner', r) →
  admitted_state ol inner ops ol' inner' (fst <$> r).
Proof.
  intros Hv Hc Huni Hharm. unfold admit_attempt.
  destruct (branch_replaced _ _ _); [intros [= <- <- <-]; by apply admitted_none|].
  assert (∀ kept plan rejected, (if existsb is_structural_genesis ops
    then resolve_genesis_collision inner ops verified else Ok (ops, None, None)) = Ok (kept, plan, rejected) →
    (∀ o, o ∈ kept → o ∈ ops) ∧ plan_for kept plan) as Hres.
  { intros kept plan rejected. destruct (existsb _ _); [apply resolved_plan|by intros [= <- <- _]]. }
  destruct (if existsb _ _ then _ else _) as [[[kept plan] rejected]|e];
    [|intros [= <- <- <-]; by apply admitted_none].
  destruct (Hres _ _ _ eq_refl) as [Hsub Hplan].
  match goal with |- context [match ?x with Ok _ => _ | Err _ => _ end] => destruct x as [inner1|e] eqn:Hpurge end;
    [|intros [= <- <- <-]; by apply admitted_none].
  assert (valid inner1 ∧ evolves inner inner1 ∧ cache_ok (ol_cache ol) inner1) as (Hv1 & Hev1 & Hc1).
  { destruct rejected as [losing|]; [|injection Hpurge as <-; by split_and!; [|apply evolves_refl|]].
    apply bind_ok in Hpurge as ([pool n] & Hp & [= <-]).
    assert (valid (set_pool inner pool)) as Hv1 by by eapply purged_valid.
    assert (evolves inner (set_pool inner pool)) as Hev1 by by apply evolves_frame.
    split_and!; [done..|by eapply (cache_evolves _ inner)]. }
  destruct (admit_ops_batch _ _ _ _ _ _ _ _ _) as [[ol1 inner2] rb] eqn:Hbatch. intros [= <- <- <-].
  assert (∀ o, o ∈ kept → universe o) as Huni' by (intros o Ho; by apply Huni, Hsub).
  destruct (admit_ops_batch_ok _ _ _ _ _ _ _ _ _ _ _ _ Hv1 Hc1 Huni' Hharm Hplan Hbatch) as [Hst _].
  eapply admitted_after; [done..|]. destruct Hst as [H1 H2 H3 H4 H5]. split; try done.
  intros acc i Hacc Hi. destruct (H5 acc i) as (o & Ho & Hrest); [by destruct rb; simplify_eq/=|done|].
  exists o. split; [by apply Hsub|done].
Qed.

(** Every attempt meets harmless writers. *)
Definition harmless_others (others : nat → Attempt (C := C)) : Prop :=
  ∀ n, harmless (at_before (others n)) ∧ harmless (at_between (others n)).

Lemma retry_loop_ok quota fuel n others ol inner source ops verified effects ol' inner' r :
  valid inner → cache_ok (ol_cache ol) inner → (∀ o, o ∈ ops → universe o) → harmless_others others →
  retry_loop quota fuel n others ol inner source ops verified effects = (ol', inner', r) →
  admitted_state ol inner ops ol' inner' (fst <$> r).
Proof.
  revert n ol inner ol' inner' r. induction fuel as [|fuel IH]; intros n ol inner ol' inner' r Hv Hc Huni Hharm;
    cbn [retry_loop].
  { intros [= <- <- <-]. by apply admitted_none. }
  destruct (match ops with [] => _ | _ => _ end); [|intros [= <- <- <-]; by apply admitted_none].
  destruct (proj1 (Hharm n) inner Hv) as [Hv0 Hev0]. set (inner0 := at_before (others n) inner) in *.
  assert (cache_ok (ol_cache ol) inner0) as Hc0 by by eapply (cache_evolves _ inner).
  destruct (admit_attempt _ _ _ _ _ _ _ _) as [[ol1 inner1] r1] eqn:Hatt.
  pose proof (admit_attempt_ok _ _ _ _ _ _ _ _ _ _ _ Hv0 Hc0 Huni (proj2 (Hharm n)) Hatt) as Hst.
  apply (admitted_after ol inner) in Hst; [|done..].
  assert (∀ ol2 inner2 r2, retry_loop quota fuel (S n) others ol1 inner1 source ops verified effects =
    (ol2, inner2, r2) → admitted_state ol inner ops ol2 inner2 (fst <$> r2)) as Hagain.
  { intros ol2 inner2 r2 Hrest. destruct Hst as [H1 H2 H3 H4 _].
    apply IH in Hrest as [H5 H6 H7 H8 H9]; [|done..]. split; [done| |done|congruence|done].
    by eapply (evolves_trans universe inner inner1). }
  destruct r1 as [acc|e]; [by intros [= <- <- <-]|].
  destruct e; try (destruct (is_admission_race _ && _)); try apply Hagain; intros [= <- <- <-]; exact Hst.
Qed.

Lemma admit_with_retry_ok quota others ol inner source ops verified effects ol' inner' r :
  valid inner → cache_ok (ol_cache ol) inner → (∀ o, o ∈ ops → universe o) → harmless_others others →
  admit_with_retry quota others ol inner source ops verified effects = (ol', inner', r) →
  admitted_state ol inner ops ol' inner' (fst <$> r).
Proof.
  intros Hv Hc Huni Hharm. unfold admit_with_retry. destruct (match ol_receive_genesis ol with Some _ => _ | None => _ end);
    [intros [= <- <- <-]; by apply admitted_none|].
  destruct (try_fold _ _ _); [|intros [= <- <- <-]; by apply admitted_none].
  by apply retry_loop_ok.
Qed.

(** C1: an admission is safe whatever other writers do. From a valid store and an
    exact cache, with any writers that keep stores valid and let histories evolve before
    and between the reads and the commit of each attempt, an admission ends with a valid
    store, in which every topic kept its history or lost it to a smaller genesis, with
    an exact cache, and with every operation it reports accepted stored as received. *)
Theorem admission_safe quota others ol inner source ops verified effects ol' inner' r :
  valid inner → cache_ok (ol_cache ol) inner → (∀ o, o ∈ ops → universe o) → harmless_others others →
  admit_with_retry quota others ol inner source ops verified effects = (ol', inner', r) →
  admitted_state ol inner ops ol' inner' (fst <$> r).
Proof. apply admit_with_retry_ok. Qed.

(** C31: the outcome of a batch names everything it stored. Whether it succeeds or
    fails, an operation that is stored afterwards and was not when the commit began is
    among the accepted ones; an error after the commit carries them. *)
Theorem outcome_reported quota ol inner between source ops verified plan effects ol' inner' r :
  valid inner → cache_ok (ol_cache ol) inner → (∀ o, o ∈ ops → universe o) → harmless between →
  plan_for ops plan →
  admit_ops_batch quota ol inner between source ops verified plan effects = (ol', inner', r) →
  reported (between inner) inner' r.
Proof. intros. by eapply admit_ops_batch_ok. Qed.

(** ** What a build promises *)

Lemma no_effects inner cached receive source ops verified reset built :
  build_batch (C := C) inner cached receive source ops verified reset None = Ok (Some built) →
  ab_effects (bb_batch built) = [].
Proof.
  unfold build_batch. intros (out & _ & Hb)%bind_ok. destruct out as [|first out]; [done|].
  cbv zeta in Hb. destruct (existsb _ _); [done|]. skip_ok Hb.
  next_ok Hb as (bs & _ & Hb). apply bind_ok in Hb as (b & Hfin & [= <-]).
  unfold finish_batch in Hfin. next_ok Hfin as (entries & _ & Hfin).
  by apply bind_ok in Hfin as (effs & [= <-] & [= <-]).
Qed.


(** An operation of a batch that is set aside waits for something: it belongs to
    the topic, it was not accepted, and what it waits for are dependencies of it that
    neither the store nor the batch brings. *)
Theorem pending_waits inner cache receive source ops verified effects built o missing :
  valid inner → cache_ok cache inner →
  build_batch inner (mc_states cache) receive source ops verified false effects = Ok (Some built) →
  (o, missing) ∈ bb_pending built →
  o ∈ ops ∧ topic_id (obody o) = ab_topic_id (bb_batch built) ∧ op_id o ∉ bb_accepted built ∧
  missing ≠ ∅ ∧ missing ⊆ deps (obody o) ∧
  ∀ d, d ∈ missing → d ∉ bb_accepted built ∧ dep_resolvable_locked inner d = false.
Proof.
  intros Hv Hc Hbuild Hin.
  destruct (build_batch_fits inner inner (mc_states cache) receive source ops verified false effects built Hbuild)
    as (_ & Hacc & _ & Hpend & _); [by split; [apply (v_node _ _ Hv)|..]|apply (v_node _ _ Hv)|by apply usable_ok|done|].
  destruct (Hpend o missing Hin) as (Ho & Ht & Hni & Hne & Hsub & Hd).
  assert (∀ i, i ∈ bb_accepted built ↔ i ∈ (λ e, op_id e.1) <$> ab_entries (bb_batch built)) as Hiff
    by (intros i; by rewrite Hacc elem_of_list_to_set).
  split_and!; [done..|by rewrite Hiff|done|done|]. intros d Hdm. destruct (Hd d Hdm) as [Hd1 Hd2].
  rewrite Hiff. split; [done|]. by apply Hd2.
Qed.
End oplog_inv.
