(* ===== verification/Receive.v ===== *)
(** * Receiving operations

    The loop of [receive_ops_admission]: whatever it meets, it leaves a valid store in
    which every accepted operation was part of its topic's history; and it ends when
    nobody else keeps writing. *)

From stdpp Require Import relations.
From S2P Require Import Prelude Ids Pages Frame ClockSpec Types Membership Topology Evidence Records Pool Store StoreLog.
From S2P Require Import StoreAdmit StoreOps StoreReset StoreEvidence StoreRun Admission Dag Projection Building Commit Genesis Oplog Evolve OplogInv.

#[local] Open Scope N_scope.

Section receive.
Context {C : Type} `{!ClockImpl C} `{!StoreEnv C} `{!Crypto} `{!OplogEnv}.
Context (universe : Op → Prop) (Hcf : collision_free universe).
Context (quota : option StagingQuota).
Implicit Types (inner : MemoryInner C) (ol : Oplog) (dr : Drain).

Abbreviation valid := (valid universe).

(** The queue holds operations of the universe. *)
Definition queue_ok (queue : list (option PeerId * list Op * bool)) : Prop :=
  ∀ src ops from_pending, (src, ops, from_pending) ∈ queue → ∀ o, o ∈ ops → universe o.

(** The operation was stored by a store between [inner0] and [inner]. *)
Definition passed inner0 inner (i : OpId) : Prop :=
  ∃ st o, valid st ∧ evolves inner0 st ∧ evolves st inner ∧ l_ops (s_log st) !! i = Some o ∧ op_id o = i.

(** What the loop keeps. *)
Record draining inner0 ol inner dr : Prop := {
  dn_valid : valid inner;
  dn_evolves : evolves inner0 inner;
  dn_cache : cache_ok (ol_cache ol) inner;
  dn_queue : queue_ok (dr_queue dr);
  dn_accepted : ∀ i, i ∈ ad_accepted (dr_admitted dr) → passed inner0 inner i;
}.

Lemma passed_evolves inner0 inner inner' i :
  valid inner → valid inner' → evolves inner inner' → passed inner0 inner i → passed inner0 inner' i.
Proof.
  intros Hv Hv' Hev (st & o & Hst & H1 & H2 & Ho). exists st, o. split_and!; try done; [|by destruct Ho..].
  by eapply (evolves_trans universe st inner).
Qed.

(** A store that evolved, with the same local variables but for the queue. *)
Lemma draining_evolves inner0 ol inner dr ol' inner' dr' :
  valid inner0 → draining inner0 ol inner dr → valid inner' → evolves inner inner' →
  cache_ok (ol_cache ol') inner' → queue_ok (dr_queue dr') →
  (∀ i, i ∈ ad_accepted (dr_admitted dr') → i ∈ ad_accepted (dr_admitted dr) ∨ passed inner0 inner' i) →
  draining inner0 ol' inner' dr'.
Proof.
  intros Hv0 [H1 H2 H3 H4 H5] Hv' Hev Hc Hq Ha. split; try done; [by eapply (evolves_trans universe inner0 inner)|].
  intros i [Hi|?]%Ha; [|done]. by eapply passed_evolves, H5.
Qed.

Lemma queue_tail src ops b queue : queue_ok ((src, ops, b) :: queue) → queue_ok queue.
Proof. intros Hq s o f Hin. eapply Hq. by right. Qed.

Lemma refill_ok inner dr dr' :
  valid inner → dr_queue dr = [] → refill inner dr = Continue dr' ∨ refill inner dr = Break dr' →
  queue_ok (dr_queue dr') ∧ ad_accepted (dr_admitted dr') = ad_accepted (dr_admitted dr).
Proof.
  intros Hv Hq. unfold refill. assert (queue_ok []) as Hnil by by intros ? ? ? ?%elem_of_nil.
  case_decide.
  { destruct (dr_window_admitted dr); intros [Hr|Hr]; try done; injection Hr as <-;
      cbn [dr_queue dr_admitted set_admitted set_ready_remaining ad_accepted]; by rewrite Hq. }
  destruct (list.last _) as [[src final]|].
  - intros [Hr|Hr]; [|done]. injection Hr as <-. cbn [dr_queue dr_admitted]. split; [|done].
    intros s ops b ([src' o'] & [= -> -> ->] & Hin)%list_elem_of_fmap o ->%list_elem_of_singleton.
    apply list_elem_of_filter in Hin as [_ Hin]. unfold ready_pending_after in Hin.
    apply list_elem_of_omap in Hin as (i & _ & Hin). unfold pending_entry_locked in Hin.
    apply bind_Some in Hin as (r & _ & Hin). apply bind_Some in Hin as (o1 & Ho & [= <- <-]).
    by apply (v_buffered _ _ Hv i).
  - destruct (negb _); intros [Hr|Hr]; try done; injection Hr as <-; cbn [dr_queue dr_admitted]; by rewrite Hq.
Qed.

Lemma refill_no_fail inner dr dr' e : refill inner dr ≠ Fail dr' e.
Proof.
  unfold refill. destruct (decide _); [by destruct (dr_window_admitted dr)|].
  generalize (ready_pending_after (s_pool inner) (dr_cursor dr) READY_SLICE). intros slice.
  destruct (list.last slice) as [[]|]; [done|]. by destruct (negb _).
Qed.

(** A judgement only rejects or holds back. *)
Lemma judge_ok inner dr op e inner' flow :
  valid inner → judge inner dr op e = (inner', flow) →
  valid inner' ∧ s_log inner' = s_log inner ∧
  match flow with
  | Continue dr' | Break dr' | Fail dr' _ =>
      dr_queue dr' = dr_queue dr ∧ ad_accepted (dr_admitted dr') = ad_accepted (dr_admitted dr) ∧
      dr_pass_admitted dr' = dr_pass_admitted dr ∧ dr_window_admitted dr' = dr_window_admitted dr ∧
      dr_cursor dr' = dr_cursor dr
  end.
Proof.
  intros Hv. unfold judge. destruct (pending_verdict inner op e) as [[]|e']; [| |by intros [= <- <-]].
  - destruct (reject_pending_subtree inner (op_id op)) as [[inner1 n]|e'] eqn:Hrej; [|by intros [= <- <-]].
    destruct (rejected_valid _ _ _ _ _ Hv Hrej) as (Hv1 & Hl & _). by intros [= <- <-].
  - intros [= <- <-]. by destruct e.
Qed.

Lemma drain_batch_ok inner0 others ol inner verified effects dr src ops b ol' inner' flow :
  valid inner0 → harmless_others universe others → draining inner0 ol inner dr → (∀ o, o ∈ ops → universe o) →
  drain_batch quota others ol inner verified effects dr src ops b = (ol', inner', flow) →
  match flow with Continue dr' | Break dr' | Fail dr' _ => draining inner0 ol' inner' dr' end.
Proof.
  intros Hv0 Hharm Hdr Huni. pose proof Hdr as [Hv Hev Hc Hq Ha]. unfold drain_batch.
  destruct (admit_with_retry _ _ _ _ _ _ _ _) as [[ol1 inner1] r] eqn:Hadmit.
  destruct (admit_with_retry_ok _ Hcf _ _ _ _ _ _ _ _ _ _ _ Hv Hc Huni Hharm Hadmit) as [Hv1 Hev1 Hc1 _ Hacc].
  destruct r as [[accepted eviction]|e].
  { intros [= <- <- <-]. eapply draining_evolves; [done..|].
    cbn [count_accepted dr_admitted ad_accepted]. intros i [Hi|Hi]%elem_of_union; [by left|right].
    destruct (Hacc accepted i eq_refl Hi) as (o & _ & Hid & Ho). exists inner1, o.
    split_and!; [done|by eapply (evolves_trans universe inner0 inner)|apply evolves_refl|done|done]. }
  assert (draining inner0 ol1 inner1 dr) as Hdr1 by (eapply draining_evolves; try done; by left).
  destruct b; [|by intros [= <- <- <-]].
  assert (∀ ops', (∀ o, o ∈ ops' → universe o) → draining inner0 ol1 inner1
    (set_queue dr (dr_queue dr ++ ((λ op, (src, [op], true)) <$> ops')))) as Hsplit.
  { intros ops' Hops. destruct Hdr1 as [H1 H2 H3 H4 H5]. split; try done. cbn [set_queue dr_queue].
    intros s l f [Hin|Hin]%elem_of_app; [by eapply H4|].
    apply list_elem_of_fmap in Hin as (o & [= -> -> ->] & Ho). intros o' ->%list_elem_of_singleton. by apply Hops. }
  destruct ops as [|op [|op2 ops]]; [intros [= <- <- <-]; by apply (Hsplit [])| |
    intros [= <- <- <-]; by apply (Hsplit (op :: op2 :: ops))].
  destruct (judge inner1 dr op e) as [inner2 flow2] eqn:Hj. intros [= <- <- <-].
  destruct (judge_ok _ _ _ _ _ _ Hv1 Hj) as (Hv2 & Hl & Hflow).
  assert (evolves inner1 inner2) as Hev2 by by apply evolves_frame.
  assert (cache_ok (ol_cache ol1) inner2) as Hc2 by by eapply (cache_evolves universe _ inner1).
  destruct flow2 as [dr'|dr'|dr' e']; destruct Hflow as (Hq' & Ha' & _); eapply draining_evolves; try done;
    rewrite ?Hq' ?Ha'; try done; by left.
Qed.

Lemma drain_step_ok inner0 others ol inner verified effects dr ol' inner' flow :
  valid inner0 → harmless_others universe others → draining inner0 ol inner dr →
  drain_step quota others ol inner verified effects dr = (ol', inner', flow) →
  match flow with Continue dr' | Break dr' | Fail dr' _ => draining inner0 ol' inner' dr' end.
Proof.
  intros Hv0 Hharm Hdr. pose proof Hdr as [Hv Hev Hc Hq Ha]. unfold drain_step.
  assert (∀ dr1 src ops b queue, dr_queue dr1 = (src, ops, b) :: queue → draining inner0 ol inner dr1 →
    drain_batch quota others ol inner verified effects (set_queue dr1 queue) src ops b = (ol', inner', flow) →
    match flow with Continue dr' | Break dr' | Fail dr' _ => draining inner0 ol' inner' dr' end) as Hbatch.
  { intros dr1 src ops b queue Hqueue [H1 H2 H3 H4 H5]. rewrite Hqueue in H4. apply drain_batch_ok; [done..| |].
    - split; try done. by eapply queue_tail.
    - eapply H4. by left. }
  destruct (dr_queue dr) as [|[[src ops] b] queue] eqn:Hqueue; [|by apply (Hbatch dr)].
  assert (∀ dr1, refill inner dr = Continue dr1 ∨ refill inner dr = Break dr1 → draining inner0 ol inner dr1) as Hre.
  { intros dr1 Hr. destruct (refill_ok inner dr dr1 Hv Hqueue Hr) as [Hq1 Ha1].
    split; try done. by rewrite Ha1. }
  destruct (refill inner dr) as [dr1|dr1|dr1 e] eqn:Hr.
  - specialize (Hre dr1 (or_introl eq_refl)).
    destruct (dr_queue dr1) as [|[[src ops] b] queue] eqn:Hqueue1; [by intros [= <- <- <-]|by apply (Hbatch dr1)].
  - intros [= <- <- <-]. by apply Hre; right.
  - by destruct (refill_no_fail inner dr dr1 e).
Qed.

Lemma drain_start_ok ol inner source ops :
  valid inner → cache_ok (ol_cache ol) inner → (∀ o, o ∈ ops → universe o) →
  draining inner ol inner (drain_start source ops).
Proof.
  intros Hv Hc Huni. split; [done|apply evolves_refl|done| |by intros i ?%elem_of_empty].
  cbn [drain_start dr_queue]. case_decide; [by intros ? ? ? ?%elem_of_nil|].
  by intros s o b [= -> -> ->]%list_elem_of_singleton.
Qed.

End receive.

(** ** Receiving ends

    When nobody else writes, the loop of [receive_ops_admission] ends: every admission
    stores an operation that was buffered, another pass or window starts only after an
    admission, and within a pass the cursor moves on. *)

Section ends.
Context {C : Type} `{!ClockImpl C} `{!StoreEnv C} `{!Crypto} `{!OplogEnv}.
Context (universe : Op → Prop) (Hcf : collision_free universe).
Context (quota : option StagingQuota).
Implicit Types (inner : MemoryInner C) (ol : Oplog) (dr : Drain).

Abbreviation valid := (valid universe).

(** What one admission does to a store nobody else writes. *)
Record calm inner (ops : list Op) inner' (r : res (gset OpId)) : Prop := {
  cl_keeps : keeps_ops inner inner';
  cl_pool : ∀ i, i ∈ dom (p_ops (s_pool inner')) → i ∈ dom (p_ops (s_pool inner)) ∨ i ∈ op_id <$> ops;
  cl_fresh : ∀ accepted i, r = Ok accepted → i ∈ accepted → l_ops (s_log inner) !! i = None;
}.

Lemma keeps_refl inner : keeps_ops inner inner.
Proof. by unfold keeps_ops. Qed.
#[local] Hint Resolve keeps_refl : core.

Lemma calm_none inner (ops : list Op) e : calm inner ops inner (Err e).
Proof. split; [auto|by left|done]. Qed.

(** An attempt that failed before another one. *)
Lemma calm_trans inner (ops : list Op) inner1 e inner2 r :
  calm inner ops inner1 (Err e) → calm inner1 ops inner2 r → calm inner ops inner2 r.
Proof.
  intros [Hk1 Hp1 _] [Hk2 Hp2 Hf2]. split.
  - unfold keeps_ops in *. by etrans.
  - intros i [Hi|Hi]%Hp2; [by apply Hp1|by right].
  - intros acc i Hr Hi. specialize (Hf2 acc i Hr Hi). destruct (l_ops (s_log inner) !! i) as [o|] eqn:Ho; [|done].
    by rewrite (lookup_weaken _ _ _ _ Ho Hk1) in Hf2.
Qed.

Lemma put_pending_dom inner src op meta genesis inner' :
  put_pending_bound inner quota src op meta genesis = Ok inner' → valid inner →
  ∀ i, i ∈ dom (p_ops (s_pool inner')) → i ∈ dom (p_ops (s_pool inner)) ∨ i = op_id op.
Proof.
  intros Hput Hv. destruct (put_pending_cases _ _ _ _ _ _ _ (co_store _ (v_consistent _ _ Hv)) Hput)
    as [[-> _]|[[-> _]|(charge & _ & ->)]]; [by left|by left|].
  intros i. cbn [set_pool s_pool]. unfold buffer. destruct (p_records _ !! _); cbn [p_ops]; [by left|].
  rewrite dom_insert elem_of_union elem_of_singleton. tauto.
Qed.

Lemma buffer_pending_dom source bound failure pending inner inner' r :
  valid inner → (∀ o missing, (o, missing) ∈ pending → bufferable universe o) →
  buffer_pending quota inner source bound failure pending = (inner', r) →
  ∀ i, i ∈ dom (p_ops (s_pool inner')) → i ∈ dom (p_ops (s_pool inner)) ∨ i ∈ (λ e, op_id e.1) <$> pending.
Proof.
  revert inner. induction pending as [|[o ms] pending IH]; intros inner Hv Huni; cbn [buffer_pending].
  { intros [= <- _]. by left. }
  assert (∀ o missing, (o, missing) ∈ pending → bufferable universe o) as Huni'
    by (intros o' ms' Hin; eapply Huni; by right).
  rewrite fmap_cons. setoid_rewrite elem_of_cons.
  destruct (put_pending_bound _ _ _ _ _ _) as [inner1|e] eqn:Hput.
  - destruct (buffered_valid _ _ _ _ _ _ _ _ Hv (Huni o ms ltac:(by left)) Hput) as (Hv1 & _).
    intros Hrest i Hi. destruct (IH _ Hv1 Huni' Hrest i Hi) as [Hi1|Hi1]; [|by right; right].
    destruct (put_pending_dom _ _ _ _ _ _ Hput Hv i Hi1); [by left|right; by left].
  - destruct e; try (intros [= <- _]; by left). intros Hrest i Hi.
    destruct (IH _ Hv Huni' Hrest i Hi); [by left|right; by right].
Qed.

(** A batch of operations that need no reset. *)
Lemma batch_calm ol inner source ops verified effects ol' inner' r :
  valid inner → cache_ok (ol_cache ol) inner → (∀ o, o ∈ ops → universe o) →
  admit_ops_batch quota ol inner (λ st, st) source ops verified None effects = (ol', inner', r) →
  calm inner ops inner' r.
Proof.
  intros Hv Hc Huni. unfold admit_ops_batch. change (bool_decide (is_Some (@None ResetPlan))) with false. cbv iota zeta.
  destruct (build_batch _ _ _ _ _ _ _ _) as [[built|]|e] eqn:Hbuild.
  2: { intros [= <- <- <-]. split; [auto|by left|by intros ? i [= <-] ?%elem_of_empty]. }
  2: { intros [= <- <- <-]. apply calm_none. }
  set (t := ab_topic_id (bb_batch built)).
  destruct (build_batch_fits inner inner _ _ _ _ _ _ _ built Hbuild)
    as (Hfits & Hacc & Hin & Hpend & _);
    [by split; [apply (v_node _ _ Hv)|..]|apply (v_node _ _ Hv)|by apply usable_ok|done|].
  assert (∀ o missing, (o, missing) ∈ bb_pending built → bufferable universe o) as Hpu.
  { intros o ms Ho. destruct (Hpend o ms Ho) as (Hops & _ & _ & Hne & Hsub & _).
    split; [by apply Huni|by eapply waits_not_genesis]. }
  destruct (commit_batch _ _ _ _) as [inner1 rc] eqn:Hcommit.
  assert (valid inner1 ∧ keeps_ops inner inner1 ∧ p_ops (s_pool inner1) ⊆ p_ops (s_pool inner)) as (Hv1 & Hk1 & Hp1).
  { revert Hcommit. unfold commit_batch. case_decide; [intros [= <- _]; auto|]. intros Hadmit.
    destruct (commit_evolves universe inner inner t _ _ _ _ Hcf Hv Hv (evolves_refl _) (fits_extends _ _ _ Hfits)
      ltac:(intros e He; by apply Huni, Hin) Hadmit) as (Hc1 & _ & Hc3).
    split_and!; [done| |by eapply admit_keeps]. destruct rc; [apply Hc3|rewrite Hc3; auto]. }
  assert (∀ acc i, acc = bb_accepted built → i ∈ acc → l_ops (s_log inner) !! i = None) as Hfresh.
  { intros acc i ->. rewrite Hacc elem_of_list_to_set. intros (e & -> & He)%list_elem_of_fmap.
    pose proof (fits_fresh _ _ _ (fits_extends _ _ _ Hfits) e He) as Hm.
    apply not_elem_of_dom. rewrite (lo_dom _ (so_log _ (nd_store _ (v_node _ _ Hv)))). by apply not_elem_of_dom. }
  destruct rc as [u|e].
  2: { intros [= <- <- <-]. split; [done| |done]. intros i Hi. left. by eapply subseteq_dom. }
  destruct (buffer_pending _ _ _ _ _ _) as [inner2 rb] eqn:Hbuf.
  destruct (buffer_pending_ok _ _ _ _ _ _ _ _ _ Hv1 Hpu Hbuf) as (Hv2 & Hl & _).
  pose proof (buffer_pending_dom _ _ _ _ _ _ _ Hv1 Hpu Hbuf) as Hdom.
  assert (∀ i, i ∈ dom (p_ops (s_pool inner2)) → i ∈ dom (p_ops (s_pool inner)) ∨ i ∈ op_id <$> ops) as Hdom2.
  { intros i [Hi|Hi]%Hdom; [left; by eapply subseteq_dom|right].
    apply list_elem_of_fmap in Hi as ([o ms] & -> & Ho). apply list_elem_of_fmap_2.
    by destruct (Hpend o ms Ho). }
  assert (keeps_ops inner inner2) as Hk2 by by rewrite /keeps_ops Hl.
  destruct rb; intros [= <- <- <-]; (split; [done..|]); [|done]. intros acc i [= <-]. by apply Hfresh.
Qed.

(** Nobody else writes; a turn may still be refused. *)
Definition undisturbed (others : nat → Attempt (C := C)) : Prop :=
  ∀ n st, at_before (others n) st = st ∧ at_between (others n) st = st.

Lemma undisturbed_harmless others : undisturbed others → harmless_others universe others.
Proof.
  intros Hu n. split; intros st Hst; [rewrite (proj1 (Hu n st))|rewrite (proj2 (Hu n st))];
    (split; [done|apply evolves_refl]).
Qed.

Lemma admit_ops_batch_between ol inner f source ops verified plan effects :
  (∀ st, f st = st) →
  admit_ops_batch quota ol inner f source ops verified plan effects =
  admit_ops_batch quota ol inner (λ st, st) source ops verified plan effects.
Proof. intros Hf. unfold admit_ops_batch. by rewrite Hf. Qed.

Lemma retry_calm fuel n others ol inner source ops verified effects ol' inner' r :
  valid inner → cache_ok (ol_cache ol) inner → (∀ o, o ∈ ops → bufferable universe o) → undisturbed others →
  retry_loop quota fuel n others ol inner source ops verified effects = (ol', inner', r) →
  calm inner ops inner' (fst <$> r).
Proof.
  revert n ol inner ol' inner' r. induction fuel as [|fuel IH];
    intros n ol inner ol' inner' r Hv Hc Huni Hun; cbn [retry_loop].
  { intros [= <- <- <-]. apply calm_none. }
  destruct (match ops with [] => _ | _ => _ end); [|intros [= <- <- <-]; apply calm_none].
  rewrite (proj1 (Hun n inner)). destruct (admit_attempt _ _ _ _ _ _ _ _) as [[ol1 inner1] r1] eqn:Hatt.
  assert (∀ o, o ∈ ops → universe o) as Huni' by (intros o Ho; by apply Huni).
  destruct (admit_attempt_ok _ Hcf _ _ _ _ _ _ _ _ _ _ _ Hv Hc Huni' (proj2 (undisturbed_harmless _ Hun n)) Hatt)
    as [Hv1 _ Hc1 _ _].
  assert (calm inner ops inner1 (fst <$> r1)) as Hcalm.
  { revert Hatt. unfold admit_attempt. destruct (branch_replaced _ _ _); [intros [= <- <- <-]; apply calm_none|].
    assert (existsb is_structural_genesis ops = false) as ->.
    { apply not_true_iff_false. intros (o & Ho%list_elem_of_In & Hs)%existsb_exists.
      destruct (Huni o Ho) as [_ Hn]. congruence. }
    rewrite admit_ops_batch_between; [by apply Hun|].
    destruct (admit_ops_batch _ _ _ _ _ _ _ _ _) as [[ol2 inner2] rb] eqn:Hb. intros [= <- <- <-].
    apply batch_calm in Hb as [Hk Hp Hf]; [|done..]. split; [done..|].
    intros acc i Hacc. apply Hf. by destruct rb. }
  assert (∀ e ol2 inner2 r2, r1 = Err e →
    retry_loop quota fuel (S n) others ol1 inner1 source ops verified effects = (ol2, inner2, r2) →
    calm inner ops inner2 (fst <$> r2)) as Hagain.
  { intros e ol2 inner2 r2 -> Hrest. eapply calm_trans; [exact Hcalm|]. by eapply IH. }
  destruct r1 as [acc|e]; [by intros [= <- <- <-]|].
  destruct e; try (destruct (is_admission_race _ && _)); try (by eapply Hagain); intros [= <- <- <-]; exact Hcalm.
Qed.

Lemma admit_calm others ol inner source ops verified effects ol' inner' r :
  valid inner → cache_ok (ol_cache ol) inner → (∀ o, o ∈ ops → bufferable universe o) → undisturbed others →
  admit_with_retry quota others ol inner source ops verified effects = (ol', inner', r) →
  calm inner ops inner' (fst <$> r).
Proof.
  intros Hv Hc Huni Hun. unfold admit_with_retry.
  destruct (match ol_receive_genesis ol with Some _ => _ | None => _ end);
    [intros [= <- <- <-]; apply calm_none|].
  destruct (try_fold _ _ _); [|intros [= <- <- <-]; apply calm_none].
  by apply retry_calm.
Qed.

(** ** The measure *)

(** The loop works on buffered operations alone: their ids are [K]. *)
Record drained_from (K : gset OpId) inner dr : Prop := {
  df_pool : ∀ i, i ∈ dom (p_ops (s_pool inner)) → i ∈ K;
  df_queue : ∀ src ops b, (src, ops, b) ∈ dr_queue dr →
    b = true ∧ ∃ op, ops = [op] ∧ op_id op ∈ K ∧ bufferable universe op;
}.

(** What is left to store, and whether another window or pass may start. *)
Definition left_to_store (K : gset OpId) inner dr : nat :=
  3 * size (K ∖ dom (l_ops (s_log inner))) + Nat.b2n (dr_window_admitted dr) + Nat.b2n (dr_pass_admitted dr).

(** Ids the cursor did not pass. *)
Definition left_to_visit (K : gset OpId) dr : nat := size (filter (beyond (dr_cursor dr)) K).

Definition smaller (K : gset OpId) inner dr inner' dr' : Prop :=
  (left_to_store K inner' dr' < left_to_store K inner dr)%nat ∨
  (left_to_store K inner' dr' ≤ left_to_store K inner dr)%nat ∧
  ((left_to_visit K dr' < left_to_visit K dr)%nat ∨
   (left_to_visit K dr' ≤ left_to_visit K dr)%nat ∧ (length (dr_queue dr') < length (dr_queue dr))%nat).

Lemma stored_left (K : gset OpId) inner inner' :
  keeps_ops inner inner' →
  (size (K ∖ dom (l_ops (s_log inner'))) ≤ size (K ∖ dom (l_ops (s_log inner))))%nat.
Proof.
  intros Hk. apply subseteq_size. apply difference_mono_l. by apply subseteq_dom.
Qed.

Lemma stored_left_lt (K : gset OpId) inner inner' i o :
  keeps_ops inner inner' → i ∈ K → l_ops (s_log inner) !! i = None → l_ops (s_log inner') !! i = Some o →
  (size (K ∖ dom (l_ops (s_log inner'))) < size (K ∖ dom (l_ops (s_log inner))))%nat.
Proof.
  intros Hk HiK Hno Ho. apply subset_size. split.
  - apply difference_mono_l. by apply subseteq_dom.
  - intros Hall. assert (i ∈ K ∖ dom (l_ops (s_log inner'))) as Hbad.
    { apply Hall. apply elem_of_difference. split; [done|]. by apply not_elem_of_dom. }
    apply elem_of_difference in Hbad as [_ Hbad]. apply Hbad. apply elem_of_dom. by eexists.
Qed.

(** One batch of a buffered operation makes progress. *)
Lemma drain_batch_smaller K others ol inner verified effects dr src op queue ol' inner' dr' :
  valid inner → cache_ok (ol_cache ol) inner → undisturbed others →
  drained_from K inner dr → dr_queue dr = (src, [op], true) :: queue →
  drain_batch quota others ol inner verified effects (set_queue dr queue) src [op] true =
    (ol', inner', Continue dr') →
  drained_from K inner' dr' ∧ smaller K inner dr inner' dr'.
Proof.
  intros Hv Hc Hun [Hpool Hq] Hqueue. rewrite Hqueue in Hq.
  destruct (Hq src [op] true ltac:(by left)) as (_ & op' & [= <-] & HK & Hop).
  assert (∀ src' ops b, (src', ops, b) ∈ queue → b = true ∧ ∃ op, ops = [op] ∧ op_id op ∈ K ∧ bufferable universe op)
    as Hq' by (intros s o b Hin; apply (Hq s); by right). clear Hq.
  unfold drain_batch. destruct (admit_with_retry _ _ _ _ _ _ _ _) as [[ol1 inner1] r] eqn:Hadmit.
  assert (∀ o, o ∈ [op] → bufferable universe o) as Huni by by intros o ->%list_elem_of_singleton.
  pose proof (admit_with_retry_ok _ Hcf _ _ _ _ _ _ _ _ _ _ _ Hv Hc (λ o Ho, proj1 (Huni o Ho))
    (undisturbed_harmless _ Hun) Hadmit) as [Hv1 _ Hc1 _ Hacc].
  pose proof (admit_calm _ _ _ _ _ _ _ _ _ _ Hv Hc Huni Hun Hadmit) as [Hk Hp Hf].
  assert (∀ i, i ∈ dom (p_ops (s_pool inner1)) → i ∈ K) as Hpool1.
  { intros i [Hi| ->%list_elem_of_singleton]%Hp; [by apply Hpool|done]. }
  pose proof (stored_left K _ _ Hk) as Hleft. unfold smaller, left_to_store, left_to_visit. rewrite Hqueue.
  destruct r as [[accepted eviction]|e].
  - intros [= <- <- <-]. split; [split; [done|by cbn [count_accepted set_queue dr_queue]]|].
    cbn [count_accepted set_queue dr_queue dr_window_admitted dr_pass_admitted dr_cursor length].
    destruct (decide (accepted = ∅)) as [->|[i Hi]%set_choose_L].
    + rewrite (bool_decide_true (∅ = ∅)) //= !orb_false_r. right. split; [lia|]. right. lia.
    + left. destruct (Hacc accepted i eq_refl Hi) as (o & ->%list_elem_of_singleton & <- & Ho).
      pose proof (stored_left_lt K _ _ _ _ Hk HK (Hf accepted _ eq_refl Hi) Ho).
      destruct (dr_window_admitted dr), (dr_pass_admitted dr), (negb _); simpl; lia.
  - destruct (judge inner1 _ op e) as [inner2 flow] eqn:Hj. intros [= <- <- ->].
    destruct (judge_ok _ _ _ _ _ _ _ Hv1 Hj) as (Hv2 & Hl & Hqd & _ & Hpd & Hwd & Hcd).
    cbn [set_queue dr_queue dr_pass_admitted dr_window_admitted dr_cursor] in Hqd, Hpd, Hwd, Hcd.
    rewrite Hl Hpd Hwd Hcd Hqd. split; [|right; split; [lia|right; simpl; lia]].
    split; [|by rewrite Hqd]. intros i Hi. apply Hpool1. revert i Hi. change (dom (p_ops (s_pool inner2)) ⊆ dom (p_ops (s_pool inner1))).
    apply subseteq_dom. revert Hj. unfold judge.
    destruct (pending_verdict inner1 op e) as [[]|e']; [| |by intros [= <- <-]].
    + destruct (reject_pending_subtree inner1 (op_id op)) as [[inner3 n]|e'] eqn:Hrej; [|done].
      intros [= <- _]. by eapply reject_keeps.
    + by intros [= <- _].
Qed.

(** A slice of ready operations. *)
Lemma ready_slice inner after limit src op :
  valid inner → (src, op) ∈ ready_pending_after (s_pool inner) after limit →
  op_id op ∈ dom (p_ops (s_pool inner)) ∧ beyond after (op_id op) ∧ bufferable universe op.
Proof.
  intros Hv Hin. unfold ready_pending_after in Hin. apply list_elem_of_omap in Hin as (i & Hi & Hin).
  apply bind_Some in Hin as (r & Hr & Hin). apply bind_Some in Hin as (o1 & Ho & [= <- <-]).
  destruct (po_op _ (so_pool _ (co_store _ (v_consistent _ _ Hv))) i o1 r Ho Hr) as [Hid _].
  rewrite Hid. split_and!; [apply elem_of_dom; by eexists| |by apply (v_buffered _ _ Hv i)].
  unfold page in Hi. apply elem_of_take in Hi as (n & Hi & _). apply list_elem_of_lookup_2 in Hi.
  unfold bt_after in Hi. by apply list_elem_of_filter in Hi as [? _].
Qed.

Lemma refill_smaller K inner dr dr' :
  valid inner → drained_from K inner dr → dr_queue dr = [] → refill inner dr = Continue dr' →
  drained_from K inner dr' ∧
  ((left_to_store K inner dr' < left_to_store K inner dr)%nat ∧ dr_queue dr' = [] ∨
   left_to_store K inner dr' = left_to_store K inner dr ∧ (left_to_visit K dr' < left_to_visit K dr)%nat).
Proof.
  intros Hv [Hpool Hq] Hqueue. unfold refill, left_to_store, left_to_visit. destruct (decide _).
  { destruct (dr_window_admitted dr) eqn:Hw; [|done]. intros [= <-]. rewrite Hqueue in Hq |- *.
    split; [by split|]. left. cbn [dr_window_admitted dr_pass_admitted dr_queue Nat.b2n]. split; [lia|done]. }
  destruct (list.last _) as [[src final]|] eqn:Hlast.
  - intros [= <-]. cbn [dr_window_admitted dr_pass_admitted dr_cursor].
    apply last_Some_elem_of in Hlast. destruct (ready_slice _ _ _ _ _ Hv Hlast) as (Hd & Hb & _).
    split; [split; [done|]|right; split; [done|]].
    + cbn [dr_queue]. intros s ops b ([src' o] & [= -> -> ->] & Hin)%list_elem_of_fmap.
      apply list_elem_of_filter in Hin as [_ Hin]. destruct (ready_slice _ _ _ _ _ Hv Hin) as (Ho & _ & Hu).
      split; [done|]. exists o. split_and!; [done|by apply Hpool|done].
    + apply subset_size. split.
      * intros i [Hlt Hi]%elem_of_filter. apply elem_of_filter. split; [|done]. simpl in Hlt.
        destruct (dr_cursor dr) as [c|]; [|done]. simpl in *. by eapply blt_trans.
      * intros Hall. assert (op_id final ∈ filter (beyond (Some (op_id final))) K) as Hbad.
        { apply Hall. apply elem_of_filter. split; [done|by apply Hpool]. }
        apply elem_of_filter in Hbad as [Hbad _]. by apply blt_irrefl in Hbad.
  - destruct (dr_pass_admitted dr) eqn:Hp; cbn [negb]; [|done]. intros [= <-]. rewrite Hqueue in Hq |- *.
    split; [by split|]. left. cbn [dr_window_admitted dr_pass_admitted dr_queue Nat.b2n]. split; [lia|done].
Qed.

(** Every iteration on buffered operations makes progress or ends. *)
Lemma drain_step_smaller K others ol inner verified effects dr ol' inner' dr' :
  valid inner → cache_ok (ol_cache ol) inner → undisturbed others → drained_from K inner dr →
  drain_step quota others ol inner verified effects dr = (ol', inner', Continue dr') →
  drained_from K inner' dr' ∧ smaller K inner dr inner' dr'.
Proof.
  intros Hv Hc Hun Hdf. unfold drain_step.
  assert (∀ dr1 src ops b queue, drained_from K inner dr1 → dr_queue dr1 = (src, ops, b) :: queue →
    drain_batch quota others ol inner verified effects (set_queue dr1 queue) src ops b = (ol', inner', Continue dr') →
    drained_from K inner' dr' ∧ smaller K inner dr1 inner' dr') as Hbatch.
  { intros dr1 src ops b queue Hdf1 Hq1.
    destruct (df_queue _ _ _ Hdf1 src ops b) as (-> & op & -> & _); [rewrite Hq1; by left|].
    by apply drain_batch_smaller. }
  destruct (dr_queue dr) as [|[[src ops] b] queue] eqn:Hqueue; [|by apply (Hbatch dr)].
  destruct (refill inner dr) as [dr1|dr1|dr1 e] eqn:Hr; [|done..].
  destruct (refill_smaller K inner dr dr1 Hv Hdf Hqueue Hr) as [Hdf1 Hsm].
  destruct (dr_queue dr1) as [|[[src ops] b] queue] eqn:Hqueue1.
  { intros [= <- <- <-]. split; [done|]. unfold smaller. destruct Hsm as [[? _]|[? ?]]; [by left|right]. lia. }
  intros Hb. destruct (Hbatch dr1 src ops b queue Hdf1 Hqueue1 Hb) as [Hdf2 Hsm2]. split; [done|].
  destruct Hsm as [[_ ?]|[Heq Hlt]]; [done|]. unfold smaller in *. lia.
Qed.

Lemma smaller_ind (K : gset OpId) (P : Oplog → MemoryInner C → Drain → Prop) :
  (∀ ol inner dr, (∀ ol' inner' dr', smaller K inner dr inner' dr' → P ol' inner' dr') → P ol inner dr) →
  ∀ ol inner dr, P ol inner dr.
Proof.
  intros Hstep.
  assert (∀ a b c ol inner dr, (left_to_store K inner dr < a)%nat → (left_to_visit K dr < b)%nat →
    (length (dr_queue dr) < c)%nat → P ol inner dr) as Hall.
  { induction a as [|a IHa]; [lia|]. induction b as [|b IHb]; [lia|]. induction c as [|c IHc]; [lia|].
    intros ol inner dr Ha Hb Hc. apply Hstep. intros ol' inner' dr' [Hlt|[Hle [Hlt|[Hle2 Hlt]]]].
    - eapply (IHa (S (left_to_visit K dr')) (S (length (dr_queue dr')))); lia.
    - eapply (IHb (S (length (dr_queue dr')))); lia.
    - apply IHc; lia. }
  intros ol inner dr. eapply Hall; apply Nat.lt_succ_diag_r.
Qed.

Lemma drain_ends (K : gset OpId) inner0 others verified effects ol inner dr :
  (∀ n, undisturbed (others n)) → valid inner0 → draining universe inner0 ol inner dr →
  drained_from K inner dr →
  ∀ n, ∃ fuel, is_Some (drain_loop quota fuel n others ol inner verified effects dr).
Proof.
  intros Hun Hv0. revert ol inner dr. apply (smaller_ind K (λ ol inner dr, draining universe inner0 ol inner dr →
    drained_from K inner dr → ∀ n, ∃ fuel, is_Some (drain_loop quota fuel n others ol inner verified effects dr))).
  intros ol inner dr IH Hdr Hdf n.
  destruct (drain_step quota (others n) ol inner verified effects dr) as [[ol1 inner1] flow] eqn:Hstep.
  destruct flow as [dr1|dr1|dr1 e]; [|exists 1%nat; cbn [drain_loop]; rewrite Hstep; by eexists..].
  destruct (drain_step_smaller K _ _ _ _ _ _ _ _ _ (dn_valid _ _ _ _ _ Hdr) (dn_cache _ _ _ _ _ Hdr) (Hun n)
    Hdf Hstep) as [Hdf1 Hsm].
  pose proof (drain_step_ok universe Hcf quota inner0 _ _ _ _ _ _ _ _ _ Hv0 (undisturbed_harmless _ (Hun n)) Hdr
    Hstep) as Hdr1.
  destruct (IH ol1 inner1 dr1 Hsm Hdr1 Hdf1 (S n)) as [fuel Hf].
  exists (S fuel). cbn [drain_loop]. by rewrite Hstep.
Qed.

(** C12: receiving ends. From a valid store nobody else writes, the loop of
    [receive_ops_admission] returns after finitely many iterations, whatever was
    received and buffered and however its turns, checks and the memory budget decide. *)
Theorem receive_ends others ol inner source ops verified effects :
  valid inner → cache_ok (ol_cache ol) inner → (∀ o, o ∈ ops → universe o) →
  (∀ n, undisturbed (others n)) →
  ∃ fuel, is_Some (receive_ops_admission quota fuel others ol inner source ops verified effects).
Proof.
  intros Hv Hc Huni Hun. unfold receive_ops_admission.
  pose proof (drain_start_ok universe ol inner source ops Hv Hc Huni) as Hstart.
  assert (∀ ol1 inner1 dr1 n, draining universe inner ol1 inner1 dr1 → dr_queue dr1 = [] →
    ∃ fuel, is_Some (drain_loop quota fuel n others ol1 inner1 verified effects dr1)) as Hrest.
  { intros ol1 inner1 dr1 n Hdr1 Hq1.
    apply (drain_ends (dom (p_ops (s_pool inner1))) inner); [done..|]. split; [done|]. rewrite Hq1.
    by intros s o b ?%elem_of_nil. }
  destruct (decide (ops = [])) as [->|Hne]; [by apply Hrest|].
  destruct (drain_step quota (others O) ol inner verified effects (drain_start source ops))
    as [[ol1 inner1] flow] eqn:Hstep.
  pose proof (drain_step_ok universe Hcf quota inner _ _ _ _ _ _ _ _ _ Hv (undisturbed_harmless _ (Hun O)) Hstart
    Hstep) as Hnext.
  destruct flow as [dr1|dr1|dr1 e]; [|exists 1%nat; cbn [drain_loop]; rewrite Hstep; by eexists..].
  destruct (Hrest ol1 inner1 dr1 1%nat Hnext) as [fuel Hf].
  - revert Hstep. unfold drain_step, drain_start. cbn [dr_queue]. rewrite decide_False //.
    unfold drain_batch. destruct (admit_with_retry _ _ _ _ _ _ _ _) as [[ol2 inner2] [[acc ev]|e]]; [|done].
    by intros [= _ _ <-].
  - exists (S fuel). cbn [drain_loop]. by rewrite Hstep.
Qed.
End ends.
