(* ===== verification/Creation.v ===== *)
(** * Operations of the local signer ([src/src/oplog/creation.rs])

    A node writes to a topic by signing an operation that depends on every head it
    knows, checking it against the store, and committing it if the topic did not move
    meanwhile; otherwise it tries again, with the operation it signed before when its
    body is still the same.

    Every read locks the store on its own, so others may write between any two reads.
    An [action] threads the store through its reads; before its [n]-th access the
    others' writes [others n] happen. The walk of [state_for_deps] follows stored
    dependencies; [fuel] bounds its iterations. [conflict_pause] only sleeps. *)

From S2P Require Import Prelude Ids Frame ClockSpec Types Membership Topology.
From S2P Require Import Evidence Records Pool Store StoreReads Admission Oplog.

#[local] Open Scope N_scope.

(** [sync::MAX_TOPIC_ACTORS] *)
Definition MAX_TOPIC_ACTORS : N := 90000.

(** ** Actions *)

(** An action: from the number of accesses made and the store, to both and a result. *)
Definition action (C A : Type) : Type := nat → MemoryInner C → nat * MemoryInner C * res A.

#[global] Instance action_ret {C} : MRet (action C) := λ A a n st, (n, st, Ok a).
#[global] Instance action_bind {C} : MBind (action C) := λ A B f m n st,
  match m n st with
  | (n, st, Ok a) => f a n st
  | (n, st, Err e) => (n, st, Err e)
  end.

(** A result that needs no store, [?] on it. *)
Definition lift {C A} (r : res A) : action C A := λ n st, (n, st, r).

(** A loop over actions. *)
Fixpoint action_fold {C A S} (f : S → A → action C S) (s : S) (l : list A) : action C S :=
  match l with
  | [] => mret s
  | a :: l => s ← f s a; action_fold f s l
  end.

(** [heads_after] *)
Definition heads_after (current : gset OpId) (op : Op) : gset OpId :=
  {[op_id op]} ∪ (current ∖ deps (obody op)).

(** [topic_state_after] *)
Definition topic_state_after (op : Op) (heads : gset OpId) (base_state : option TopicState)
    : res (option TopicState) :=
  let b := obody op in
  match payload b with
  | Genesis genesis =>
      Ok (Some {| ts_topic_id := topic_id b; ts_event_type_id := event_type_id genesis;
        ts_genesis := op_id op; ts_heads := heads; ts_members := initial_peers genesis;
        ts_replication_policy := replication_policy genesis; ts_membership_controls := ∅;
        ts_replication_policy_control := None |})
  | Event _ => Ok None
  | Control control =>
      state ← ok_or base_state TopicNotFound;
      Ok (Some (apply_control (set_heads state heads) op control))
  end.

(** The signer is always an initial peer of the topics it creates. *)
Definition with_signer (genesis : TopicGenesis) (signer : Signer) : TopicGenesis :=
  {| event_type_id := event_type_id genesis;
     initial_peers := {[signer_peer_id signer]} ∪ initial_peers genesis;
     replication_policy := replication_policy genesis |}.

Section creation.
Context {C : Type} `{!ClockImpl C} `{!StoreEnv C} `{!Crypto} `{!OplogEnv}.
Context (quota : option StagingQuota) (fuel : nat) (others : nat → MemoryInner C → MemoryInner C).
Implicit Types (inner : MemoryInner C) (op : Op) (t : TopicId) (a : ActorId) (ds : gset OpId).

(** One locked read of the store. *)
Definition read {A} (f : MemoryInner C → A) : action C A := λ n st,
  let st := others n st in (S n, st, Ok (f st)).

(** [put_admitted_batch] *)
Definition put_admitted_batch (batch : AdmittedBatch C) : action C unit := λ n st,
  let '(st, r) := admit_batch_locked (others n st) batch quota in (S n, st, r).

(** [actor_count] *)
Definition actor_count inner t : N := from_option ck_len 0 (s_actor_clock inner !! t).

(** [ensure_member] *)
Definition ensure_member t (peer : PeerId) : action C unit :=
  state ← read (λ st, topic_state_locked st t);
  state ← lift (ok_or state TopicNotFound);
  lift (refuse_if (bool_decide (peer ∉ ts_members state)) NotTopicMember).

(** ** The next operation *)

(** The body of [next_local_op]. *)
Definition next_local_op t a ds (pl : TopicPayload) (signer : Signer) (previous : option Op)
    : action C Op :=
  tip ← read (λ st, l_actor_tip (s_log st) !! (t, a));
  '(seq, prev) ← lift (match tip with
    | Some (seq, i) =>
        next ← ok_or (checked_add seq 1) (Storage "actor sequence overflow"); Ok (next, Some i)
    | None => Ok (1, None)
    end);
  let ds := match prev with Some p => {[p]} ∪ ds | None => ds end in
  gen ← (if decide (ds = ∅) then mret 0
         else
           m ← read (λ st, max_generation st t);
           lift (ok_or (checked_add m 1) InvalidOpId));
  let b := {| topic_id := t; author := signer_peer_id signer; actor_id := a; actor_seq := seq;
              actor_prev := prev; deps := ds; generation := gen; payload := pl |} in
  match (match previous with
         | Some op => if decide (obody op = b) then Some op else None
         | None => None
         end) with
  | Some op => mret op
  | None =>
      op ← lift (op_sign b signer);
      _ ← lift (op_validate op);
      mret op
  end.

(** ** Checks against the store *)

(** The walk of [state_for_deps]; the stack has its top at the head. *)
Fixpoint deps_walk (fuel : nat) t (stack : list OpId) (reachable : gmap OpId Op)
    : action C (gmap OpId Op) :=
  match stack with
  | [] => mret reachable
  | i :: stack =>
      match fuel with
      | O => lift (Err (Storage "dependency walk does not end"))
      | S fuel =>
          if bool_decide (is_Some (reachable !! i)) then deps_walk fuel t stack reachable
          else
            op ← read (λ st, l_ops (s_log st) !! i);
            op ← lift (ok_or op (MissingDependency i));
            if negb (bool_decide (topic_id (obody op) = t)) then lift (Err TopicMismatch)
            else deps_walk fuel t (rev (bt_elements (deps (obody op))) ++ stack) (<[i := op]> reachable)
      end
  end.

(** [state_for_deps] *)
Definition state_for_deps t ds : action C TopicState :=
  reachable ← deps_walk fuel t (rev (bt_elements ds)) ∅;
  lift (materialize_topic_state (snd <$> bt_entries reachable) ∅).

(** The membership check of [validate_op] for events and controls. *)
Definition author_member t (author : PeerId) ds (current : TopicState) : action C unit :=
  member ← (if decide (ds = ts_heads current) then mret (bool_decide (author ∈ ts_members current))
            else
              state ← state_for_deps t ds;
              mret (bool_decide (author ∈ ts_members state)));
  lift (refuse_if (negb member) NotTopicMember).

(** The first check of [validate_op] on a genesis. *)
Definition validate_genesis_type op : action C unit :=
  match payload (obody op) with
  | Genesis genesis =>
      if MAX_TYPE_BYTES <? str_len (event_type_id genesis) then lift (Err InvalidGenesis)
      else
        state ← read (λ st, topic_state_locked st (topic_id (obody op)));
        lift (refuse_if (bool_decide (is_Some state)) InvalidGenesis)
  | _ => mret ()
  end.

(** The checks of [validate_op] on the actor's chain. *)
Definition validate_chain op : action C unit :=
  let b := obody op in
  existing ← read (λ st, l_actor_by_seq (s_log st) !! (topic_id b, actor_id b, actor_seq b));
  _ ← lift (refuse_if (match existing with
                       | Some i => negb (bool_decide (i = op_id op)) | None => false end) ActorFork);
  expected ← read (λ st, l_actor_tip (s_log st) !! (topic_id b, actor_id b));
  '(expected_seq, expected_prev) ← lift (next_actor_position expected);
  _ ← lift (refuse_if (negb (actor_seq b =? expected_seq)) (ActorSeqGap expected_seq (actor_seq b)));
  _ ← lift (refuse_if (negb (bool_decide (actor_prev b = expected_prev))) ActorPrevMismatch);
  lift (refuse_if (match actor_prev b with Some p => bool_decide (p ∉ deps b) | None => false end)
    ActorPrevMismatch).

(** [for dep in &body.deps] *)
Definition validate_deps op : action C unit :=
  action_fold (λ _ dep,
    stored ← read (λ st, l_ops (s_log st) !! dep);
    lift (refuse_if (bool_decide (stored = None)) (MissingDependency dep))) ()
    (bt_elements (deps (obody op))).

(** The match of [validate_op] on the payload. *)
Definition validate_payload op : action C unit :=
  let b := obody op in
  match payload b with
  | Genesis _ =>
      if negb (actor_seq b =? 1) || bool_decide (is_Some (actor_prev b))
         || negb (bool_decide (deps b = ∅))
      then lift (Err InvalidGenesis)
      else
        state ← read (λ st, topic_state_locked st (topic_id b));
        lift (refuse_if (bool_decide (is_Some state)) InvalidGenesis)
  | Event envelope =>
      current ← read (λ st, topic_state_locked st (topic_id b));
      current ← lift (ok_or current TopicNotFound);
      _ ← lift (ensure_event_type (ts_event_type_id current) (type_id envelope));
      author_member (topic_id b) (author b) (deps b) current
  | Control _ =>
      current ← read (λ st, topic_state_locked st (topic_id b));
      current ← lift (ok_or current TopicNotFound);
      author_member (topic_id b) (author b) (deps b) current
  end.

(** The generation check of [validate_op]. *)
Definition validate_generation op : action C unit :=
  let b := obody op in
  gen ← action_fold (λ gen i,
    meta ← read (λ st, l_meta (s_log st) !! i);
    meta ← lift (ok_or meta (MissingDependency i));
    next ← lift (checked_next (om_generation meta));
    mret (N.max gen next)) 0 (bt_elements (deps b));
  lift (refuse_if (negb (generation b =? gen)) (GenerationMismatch gen (generation b))).

(** [validate_op] *)
Definition validate_op op : action C unit :=
  let b := obody op in
  if negb (bool_decide (actor_id b = actor_id_for (topic_id b) (author b)))
  then lift (Err ActorAuthorMismatch)
  else
    _ ← validate_genesis_type op;
    _ ← validate_chain op;
    _ ← validate_deps op;
    _ ← validate_payload op;
    validate_generation op.

(** [clock_from_deps] *)
Definition clock_from_deps t ds : action C C :=
  action_fold (λ clock i,
    observed ← read (λ st, (λ meta, (header_of meta, om_observed_clock meta)) <$> l_meta (s_log st) !! i);
    '(meta, dep_clock) ← lift (ok_or observed (MissingDependency i));
    if negb (bool_decide (hd_topic_id meta = t)) then lift (Err TopicMismatch)
    else mret (ck_observe (ck_merge clock dep_clock) (hd_actor_id meta) (hd_actor_seq meta)))
    ck_new (bt_elements ds).

(** [meta_for] *)
Definition meta_for op : action C (OpMeta C) :=
  let b := obody op in
  clock ← clock_from_deps (topic_id b) (deps b);
  mret {| om_id := op_id op; om_topic_id := topic_id b; om_author := author b;
          om_actor_id := actor_id b; om_actor_seq := actor_seq b; om_actor_prev := actor_prev b;
          om_deps := deps b; om_generation := generation b; om_observed_clock := clock;
          om_ready := true; om_missing_deps := ∅ |}.

(** ** Committing *)

(** [Fn(&Op, &OpMeta, &TopicState) -> Result<AdmissionEffects>] *)
Definition local_effects : Type := Op → OpMeta C → TopicState → res (list (SyncObligation C)).

(** [commit_admission] *)
Definition commit_admission op (meta : OpMeta C) (expected_heads : gset OpId)
    (expected_state : option TopicState) (effects : local_effects) : action C unit :=
  let heads := heads_after expected_heads op in
  topic_state ← lift (topic_state_after op heads expected_state);
  effective ← lift (ok_or (match topic_state with Some s => Some s | None => expected_state end)
                      TopicNotFound);
  effs ← lift (effects op meta effective);
  put_admitted_batch {| ab_topic_id := topic_id (obody op); ab_expected_heads := expected_heads;
    ab_expected_topic_state := expected_state; ab_entries := [(op, meta)]; ab_heads := heads;
    ab_topic_state := topic_state; ab_effects := effs |}.

(** What [try_local_effects] reads before it builds the operation. *)
Definition prepare_local t a (pl : TopicPayload) (signer : Signer)
    : action C (gset OpId * option TopicState) :=
  _ ← match pl with
      | Genesis _ => mret ()
      | _ =>
          _ ← ensure_member t (signer_peer_id signer);
          tip ← read (λ st, l_actor_tip (s_log st) !! (t, a));
          if bool_decide (is_Some tip) then mret ()
          else
            count ← read (λ st, actor_count st t);
            lift (refuse_if (MAX_TOPIC_ACTORS <=? count) TopicFull)
      end;
  expected_heads ← read (λ st, heads st t);
  expected_state ← read (λ st, topic_state_locked st t);
  mret (expected_heads, expected_state).

(** The closure [committed] of [try_local_effects]. *)
Definition check_and_commit op (expected_heads : gset OpId) (expected_state : option TopicState)
    (effects : local_effects) : action C (OpMeta C) :=
  _ ← lift (validate_frame op);
  _ ← validate_op op;
  meta ← meta_for op;
  _ ← commit_admission op meta expected_heads expected_state effects;
  mret meta.

(** [try_local_effects]: also the operation kept in [signed] for a retry. *)
Definition try_local_effects t a (pl : TopicPayload) (signer : Signer) (signed : option Op)
    (effects : local_effects) (n : nat) inner
    : nat * MemoryInner C * option Op * res (Op * OpMeta C) :=
  match prepare_local t a pl signer n inner with
  | (n, inner, Err e) => (n, inner, signed, Err e)
  | (n, inner, Ok (expected_heads, expected_state)) =>
      match next_local_op t a expected_heads pl signer signed n inner with
      | (n, inner, Err e) => (n, inner, None, Err e)
      | (n, inner, Ok op) =>
          match check_and_commit op expected_heads expected_state effects n inner with
          | (n, inner, Ok meta) => (n, inner, None, Ok (op, meta))
          | (n, inner, Err e) => (n, inner, Some op, Err e)
          end
      end
  end.

(** The loop of [create_local_effects]. *)
Fixpoint local_retries (tries : nat) t a (pl : TopicPayload) (signer : Signer) (signed : option Op)
    (effects : local_effects) (n : nat) inner : nat * MemoryInner C * res (Op * OpMeta C) :=
  match tries with
  | O => (n, inner, Err AdmissionConflict)
  | S tries =>
      let '(n, inner, signed, r) := try_local_effects t a pl signer signed effects n inner in
      match r with
      | Err e =>
          if is_admission_race e then local_retries tries t a pl signer signed effects n inner
          else (n, inner, Err e)
      | Ok r => (n, inner, Ok r)
      end
  end.

(** [create_local_effects]; [turn] is what [turns.take] returns. *)
Definition create_local_effects (turn : res unit) t a (pl : TopicPayload) (signer : Signer)
    (effects : local_effects) : action C (Op * OpMeta C) := λ n inner,
  match turn with
  | Err e => (n, inner, Err e)
  | Ok _ => local_retries MAX_ADMISSION_RETRIES t a pl signer None effects n inner
  end.

(** [create_topic_effects] *)
Definition create_topic_effects (turn : res unit) t a (genesis : TopicGenesis) (signer : Signer)
    (effects : local_effects) : action C Op :=
  '(op, _) ← create_local_effects turn t a (Genesis (with_signer genesis signer)) signer effects;
  mret op.

(** [create_event_effects] *)
Definition create_event_effects (turn : res unit) t a (event : EventEnvelope) (signer : Signer)
    (effects : local_effects) : action C (Op * OpMeta C) :=
  create_local_effects turn t a (Event event) signer effects.

(** [create_control_effects] *)
Definition create_control_effects (turn : res unit) t a (control : TopicControl) (signer : Signer)
    (effects : local_effects) : action C Op :=
  '(op, _) ← create_local_effects turn t a (Control control) signer effects;
  mret op.

(** The closures of the public functions: no effects. *)
Definition no_effects : local_effects := λ _ _ _, Ok [].

(** [create_topic_genesis], [create_event_op] and [create_control_op] *)
Definition create_topic_genesis (turn : res unit) t a (genesis : TopicGenesis) (signer : Signer)
    : action C Op := create_topic_effects turn t a genesis signer no_effects.
Definition create_event_op (turn : res unit) t a (event : EventEnvelope) (signer : Signer)
    : action C Op :=
  '(op, _) ← create_event_effects turn t a event signer no_effects;
  mret op.
Definition create_control_op (turn : res unit) t a (control : TopicControl) (signer : Signer)
    : action C Op := create_control_effects turn t a control signer no_effects.

(** ** A genesis with its first event *)

(** The event chained off a genesis. *)
Definition event_body op (genesis_meta : OpMeta C) (event : EventEnvelope) (signer : Signer)
    : res OpBody :=
  seq ← checked_next (om_actor_seq genesis_meta);
  gen ← checked_next (om_generation genesis_meta);
  Ok {| topic_id := topic_id (obody op); author := signer_peer_id signer;
        actor_id := actor_id (obody op); actor_seq := seq; actor_prev := Some (op_id op);
        deps := {[op_id op]}; generation := gen; payload := Event event |}.

(** The overlay that holds the genesis alone. *)
Definition genesis_overlay op (meta : OpMeta C) : BatchOverlay C :=
  let b := obody op in
  {| bo_ops := {[op_id op := op]}; bo_meta := {[op_id op := meta]};
     bo_tips := {[(topic_id b, actor_id b) := (om_actor_seq meta, op_id op)]};
     bo_index := {[(topic_id b, actor_id b, om_actor_seq meta) := op_id op]};
     bo_reset := false |}.

(** [admit_genesis_pair]. What [validate_op_projected] and [meta_for_projected] read
    beside the overlay is one access each. *)
Definition admit_genesis_pair op (genesis_meta : OpMeta C) (event_op : Op)
    (expected_heads : gset OpId) (expected_state : option TopicState) (effects : local_effects)
    : action C ((Op * OpMeta C) * (Op * OpMeta C)) :=
  _ ← lift (validate_frame op);
  _ ← validate_op op;
  _ ← lift (validate_frame event_op);
  let genesis_heads := heads_after expected_heads op in
  state ← lift (topic_state_after op genesis_heads expected_state);
  state ← lift (ok_or state TopicNotFound);
  let overlay := genesis_overlay op genesis_meta in
  verdict ← read (λ st, validate_op_projected st overlay event_op genesis_heads (Some state) ∅);
  '(verdict, _) ← lift verdict;
  _ ← lift (match verdict with Duplicate => Err AdmissionConflict | Admit => Ok () end);
  event_meta ← read (λ st, meta_for_projected st (bo_meta overlay) event_op);
  event_meta ← lift event_meta;
  effs ← lift (effects op genesis_meta state);
  let heads := heads_after genesis_heads event_op in
  let state := set_heads state heads in
  more ← lift (effects event_op event_meta state);
  _ ← put_admitted_batch {| ab_topic_id := topic_id (obody op); ab_expected_heads := expected_heads;
    ab_expected_topic_state := expected_state; ab_entries := [(op, genesis_meta); (event_op, event_meta)];
    ab_heads := heads; ab_topic_state := Some state; ab_effects := effs ++ more |};
  mret ((op, genesis_meta), (event_op, event_meta)).

(** The part of [try_genesis_effects] before the pair is admitted. *)
Definition sign_genesis_pair t a (genesis : TopicGenesis) (event : EventEnvelope) (signer : Signer)
    (signed : option (Op * Op))
    : action C (Op * OpMeta C * Op * gset OpId * option TopicState) :=
  expected_heads ← read (λ st, heads st t);
  expected_state ← read (λ st, topic_state_locked st t);
  op ← next_local_op t a expected_heads (Genesis genesis) signer (fst <$> signed);
  genesis_meta ← meta_for op;
  b ← lift (event_body op genesis_meta event signer);
  event_op ← match (match signed with
                    | Some (_, e) => if decide (obody e = b) then Some e else None
                    | None => None
                    end) with
             | Some e => mret e
             | None =>
                 e ← lift (op_sign b signer);
                 _ ← lift (op_validate e);
                 mret e
             end;
  mret (op, genesis_meta, event_op, expected_heads, expected_state).

(** [try_genesis_effects] *)
Definition try_genesis_effects t a (genesis : TopicGenesis) (event : EventEnvelope) (signer : Signer)
    (signed : option (Op * Op)) (effects : local_effects) (n : nat) inner
    : nat * MemoryInner C * option (Op * Op) * res ((Op * OpMeta C) * (Op * OpMeta C)) :=
  match sign_genesis_pair t a genesis event signer signed n inner with
  | (n, inner, Err e) => (n, inner, None, Err e)
  | (n, inner, Ok (op, genesis_meta, event_op, expected_heads, expected_state)) =>
      match admit_genesis_pair op genesis_meta event_op expected_heads expected_state effects n inner with
      | (n, inner, Ok both) => (n, inner, None, Ok both)
      | (n, inner, Err e) => (n, inner, Some (op, event_op), Err e)
      end
  end.

(** The loop of [create_genesis_effects]. *)
Fixpoint genesis_retries (tries : nat) t a (genesis : TopicGenesis) (event : EventEnvelope)
    (signer : Signer) (signed : option (Op * Op)) (effects : local_effects) (n : nat) inner
    : nat * MemoryInner C * res ((Op * OpMeta C) * (Op * OpMeta C)) :=
  match tries with
  | O => (n, inner, Err AdmissionConflict)
  | S tries =>
      let '(n, inner, signed, r) :=
        try_genesis_effects t a genesis event signer signed effects n inner in
      match r with
      | Err e =>
          if is_admission_race e
          then genesis_retries tries t a genesis event signer signed effects n inner
          else (n, inner, Err e)
      | Ok r => (n, inner, Ok r)
      end
  end.

(** [create_genesis_effects] *)
Definition create_genesis_effects (turn : res unit) t a (genesis : TopicGenesis)
    (event : EventEnvelope) (signer : Signer) (effects : local_effects)
    : action C ((Op * OpMeta C) * (Op * OpMeta C)) := λ n inner,
  match turn with
  | Err e => (n, inner, Err e)
  | Ok _ =>
      genesis_retries MAX_ADMISSION_RETRIES t a (with_signer genesis signer) event signer None effects
        n inner
  end.

(** [create_topic_genesis_with_event] *)
Definition create_topic_genesis_with_event (turn : res unit) t a (genesis : TopicGenesis)
    (event : EventEnvelope) (signer : Signer) : action C (Op * Op) :=
  '((op, _), (event_op, _)) ← create_genesis_effects turn t a genesis event signer no_effects;
  mret (op, event_op).
End creation.
