(* ===== verification/CreationInv.v ===== *)
(** * What local creation keeps

    A small logic for the actions of [Creation]: [reads t m P] says that whatever
    harmless writers do between the accesses of [m], the store stays valid and evolves,
    and that if the history of [t] was the same when [m] began and ended, its result
    satisfies [P] of that history. A history that is the same at both ends was the same
    throughout: branches never come back. *)

From stdpp Require Import relations.
From S2P Require Import Prelude Ids Frame ClockSpec Types Membership Topology.
From S2P Require Import Evidence Records Pool Store StoreLog StoreAdmit StoreOps StoreReset.
From S2P Require Import StoreEvidence StoreRun StoreReads.
From S2P Require Import Admission Dag Projection Building Commit Genesis Oplog Evolve OplogInv Creation.

#[local] Open Scope N_scope.

(** What a successful sequence went through. *)
Lemma action_bind_ok {C A B} (f : A → action C B) (m : action C A) n st n' st' b :
  mbind f m n st = (n', st', Ok b) →
  ∃ n1 st1 a, m n st = (n1, st1, Ok a) ∧ f a n1 st1 = (n', st', Ok b).
Proof.
  unfold mbind, action_bind. destruct (m n st) as [[n1 st1] [a|e]]; [|done]. intros Hf. by exists n1, st1, a.
Qed.

Section creation_inv.
Context {C : Type} `{!ClockImpl C} `{!StoreEnv C} `{!Crypto} `{!OplogEnv}.
Context (universe : Op → Prop) (Hcf : collision_free universe).
Context (quota : option StagingQuota) (fuel : nat) (others : nat → MemoryInner C → MemoryInner C).
Context (Hothers : ∀ n, harmless universe (others n)).
Implicit Types (inner st : MemoryInner C) (t : TopicId) (op : Op) (E : history (C := C)).

Abbreviation hist inner t := (entries_of (s_log inner) t).
Abbreviation valid := (valid universe).

(** ** Histories that stand still *)

Definition same_history st t E : Prop := ∀ i o m, hist st t i o m ↔ E i o m.
Definition frozen st st' t E : Prop := same_history st t E ∧ same_history st' t E.

Lemma same_history_ok st t E :
  valid st → same_history st t E →
  history_ok E t (default ∅ (s_heads st !! t)) (topic_state_locked st t).
Proof. intros Hv Hsame. eapply history_ok_iff; [exact Hsame|apply (nd_topics _ (v_node _ _ Hv))]. Qed.

Lemma same_genesis st st' t E s s' :
  valid st → valid st' → frozen st st' t E → topic_state_locked st t = Some s →
  topic_state_locked st' t = Some s' → ts_genesis s' = ts_genesis s.
Proof.
  intros Hv Hv' [H1 H2] Hs Hs'.
  destruct (topic_state_genesis st t s (nd_topics _ (v_node _ _ Hv) t) Hs) as (gop & m & Hm & Hg).
  pose proof (h_state _ _ _ _ (nd_topics _ (v_node _ _ Hv') t)) as Hst. rewrite Hs' in Hst.
  destruct Hst as (_ & _ & Hgen). apply H1, H2 in Hm. by destruct (Hgen _ _ _ Hm) as [-> _].
Qed.

Lemma frozen_state st st' t E :
  valid st → valid st' → frozen st st' t E →
  is_Some (topic_state_locked st t) → is_Some (topic_state_locked st' t).
Proof.
  intros Hv Hv' [H1 H2] [s Hs].
  destruct (topic_state_genesis st t s (nd_topics _ (v_node _ _ Hv) t) Hs) as (gop & m & Hm & Hg).
  apply (topic_state_member st' t (ts_genesis s)); [apply (nd_topics _ (v_node _ _ Hv'))|].
  exists gop, m. by apply H2, H1.
Qed.

(** What is the same at both ends was the same in between. *)
Lemma squeeze st x st' t E :
  valid st → valid x → valid st' → evolves st x → evolves x st' → frozen st st' t E →
  same_history x t E.
Proof.
  intros Hv Hx Hv' H1 H2 Hfr. pose proof Hfr as [Hst Hst'].
  pose proof (nd_topics _ (v_node _ _ Hv) t) as T. pose proof (nd_topics _ (v_node _ _ Hx) t) as Tx.
  pose proof (nd_topics _ (v_node _ _ Hv') t) as T'.
  destruct (H1 t) as [E1|(s & sx & Hs & Hsx & L1)], (H2 t) as [E2|(sx' & s' & Hsx' & Hs' & L2)].
  - intros i o m. split.
    + intros Hi. apply Hst'. apply E2; [by exists o, m|done].
    + intros Hi%Hst. apply E1; [by exists o, m|done].
  - exfalso. destruct (topic_state_locked st t) as [s|] eqn:Hs.
    + destruct (grows_genesis _ _ _ _ T Tx E1 Hs) as (sx & Hsx & Hg).
      rewrite (same_genesis _ _ _ _ _ _ Hv Hv' Hfr Hs Hs') -Hg in L2. rewrite Hsx' in Hsx.
      injection Hsx as ->. by destruct (irreflexivity blt (ts_genesis sx)).
    + destruct (frozen_state st' st t E) as [? Hn]; [done..|by split|by exists s'|]. congruence.
  - exfalso. destruct (grows_genesis _ _ _ _ Tx T' E2 Hsx) as (s' & Hs' & Hg).
    rewrite -Hg (same_genesis _ _ _ _ _ _ Hv Hv' Hfr Hs Hs') in L1.
    by destruct (irreflexivity blt (ts_genesis s)).
  - exfalso. assert (sx' = sx) as -> by congruence.
    rewrite (same_genesis _ _ _ _ _ _ Hv Hv' Hfr Hs Hs') in L2.
    by destruct (irreflexivity blt (ts_genesis s)); etrans.
Qed.

(** ** The logic *)

Definition reads {A} t (m : action C A) (P : A → history → Prop) : Prop :=
  ∀ n st n' st' r, valid st → m n st = (n', st', r) →
    valid st' ∧ evolves st st' ∧ ∀ a E, r = Ok a → frozen st st' t E → P a E.

Lemma reads_lift {A} t (r : res A) (P : A → history → Prop) :
  (∀ a E, r = Ok a → P a E) → reads t (lift r) P.
Proof. intros HP n st n' st' r' Hv [= _ <- <-]. split_and!; [done|apply evolves_refl|]. eauto. Qed.

Lemma reads_ret {A} t (a : A) (P : A → history → Prop) : (∀ E, P a E) → reads t (mret a) P.
Proof. intros HP. apply (reads_lift t (Ok a)). by intros a' E [= <-]. Qed.

Lemma reads_read {A} t (f : MemoryInner C → A) (P : A → history → Prop) :
  (∀ x E, valid x → same_history x t E → P (f x) E) → reads t (read others f) P.
Proof.
  intros HP n st n' st' r Hv [= _ <- <-]. destruct (Hothers n st Hv) as [Hv' Hev].
  split_and!; [done..|]. intros a E [= <-] [_ Hsame]. by apply HP.
Qed.

Lemma reads_bind {A B} t (m : action C A) (f : A → action C B) (P : A → history → Prop)
    (Q : B → history → Prop) :
  reads t m P → (∀ a, reads t (f a) (λ b E, P a E → Q b E)) → reads t (mbind f m) Q.
Proof.
  intros Hm Hf n st n' st' r Hv. unfold mbind, action_bind.
  destruct (m n st) as [[n1 st1] r1] eqn:H1. destruct (Hm _ _ _ _ _ Hv H1) as (Hv1 & Hev1 & HP).
  destruct r1 as [a|e]; [|by intros [= _ <- <-]]. intros H2.
  destruct (Hf a _ _ _ _ _ Hv1 H2) as (Hv2 & Hev2 & HQ).
  split_and!; [done|by eapply (evolves_trans universe st st1)|].
  intros b E -> Hfr. pose proof (squeeze _ _ _ _ _ Hv Hv1 Hv2 Hev1 Hev2 Hfr) as Hmid.
  apply HQ; [done|by split; [|apply Hfr]|]. apply HP; [done|by split; [apply Hfr|]].
Qed.

Lemma reads_weaken {A} t (m : action C A) (P Q : A → history → Prop) :
  reads t m P → (∀ a E, P a E → Q a E) → reads t m Q.
Proof.
  intros Hm HPQ n st n' st' r Hv Hr. destruct (Hm _ _ _ _ _ Hv Hr) as (Hv' & Hev & HP).
  split_and!; [done..|]. intros a E Ha Hfr. by apply HPQ, HP.
Qed.

(** An invariant of a loop that knows the elements visited. *)
Lemma reads_fold {A S} t (f : S → A → action C S) (l : list A) (I : list A → S → history → Prop) s :
  (∀ pre a rest s, l = pre ++ a :: rest → reads t (f s a) (λ s' E, I pre s E → I (pre ++ [a]) s' E)) →
  reads t (action_fold f s l) (λ s' E, I [] s E → I l s' E).
Proof.
  intros Hstep.
  enough (∀ l2 l1 s, l = l1 ++ l2 → reads t (action_fold f s l2) (λ s' E, I l1 s E → I l s' E)) as Hall
    by by apply (Hall l []).
  induction l2 as [|a l2 IH]; intros l1 s1 Hl; cbn [action_fold].
  { apply reads_ret. intros E. by rewrite Hl app_nil_r. }
  eapply reads_bind; [by apply (Hstep l1 a l2)|]. intros s2.
  eapply reads_weaken; [apply (IH (l1 ++ [a])); by rewrite -app_assoc|]. naive_solver.
Qed.
(** One access and the rest. *)
Lemma reads_bind_read {A B} t (g : MemoryInner C → A) (f : A → action C B) (Q : B → history → Prop) :
  (∀ x, valid x → reads t (f (g x)) (λ b E, same_history x t E → Q b E)) →
  reads t (mbind f (read others g)) Q.
Proof.
  intros Hf n st n' st' r Hv. unfold mbind, action_bind, read.
  destruct (Hothers n st Hv) as [Hx Hev]. intros Hr.
  destruct (Hf _ Hx _ _ _ _ _ Hx Hr) as (Hv' & Hev' & HQ).
  split_and!; [done|by eapply (evolves_trans universe st (others n st))|].
  intros b E Hb Hfr. pose proof (squeeze _ _ _ _ _ Hv Hx Hv' Hev Hev' Hfr) as Hmid.
  apply HQ; [done|by split; [|apply Hfr]|done].
Qed.

Lemma reads_bind_lift {A B} t (r : res A) (f : A → action C B) (Q : B → history → Prop) :
  (∀ a, r = Ok a → reads t (f a) Q) → reads t (mbind f (lift r)) Q.
Proof.
  intros Hf n st n' st' r'. unfold mbind, action_bind, lift. destruct r as [a|e]; [by apply Hf|].
  intros Hv [= _ <- <-]. split_and!; [done|apply evolves_refl|done].
Qed.
(** ** What single reads say *)

Lemma read_tip x t E a :
  valid x → same_history x t E → is_tip E a (l_actor_tip (s_log x) !! (t, a)).
Proof.
  intros Hv Hs. eapply is_tip_iff; [exact Hs|]. eapply (base_tip x x t false).
  split; [apply (v_node _ _ Hv)|done|done].
Qed.

Lemma read_op x t E i o :
  valid x → same_history x t E → l_ops (s_log x) !! i = Some o → topic_id (obody o) = t →
  ∃ m, E i o m.
Proof.
  intros Hv Hs Ho Ht. pose proof (so_log _ (nd_store _ (v_node _ _ Hv))) as Hlog.
  assert (is_Some (l_meta (s_log x) !! i)) as [m Hm].
  { rewrite -elem_of_dom -(lo_dom _ Hlog). apply elem_of_dom. by eexists. }
  exists m. apply Hs. split_and!; [done..|]. destruct (lo_entry _ Hlog _ _ _ Ho Hm) as (_ & _ & Hmt & _).
  congruence.
Qed.

Lemma read_meta x t E i m :
  valid x → same_history x t E → l_meta (s_log x) !! i = Some m → om_topic_id m = t → ∃ o, E i o m.
Proof.
  intros Hv Hs Hm Ht. pose proof (so_log _ (nd_store _ (v_node _ _ Hv))) as Hlog.
  assert (is_Some (l_ops (s_log x) !! i)) as [o Ho].
  { rewrite -elem_of_dom (lo_dom _ Hlog). apply elem_of_dom. by eexists. }
  exists o. by apply Hs.
Qed.

Lemma read_member x t E i m :
  same_history x t E → member E i → l_meta (s_log x) !! i = Some m → ∃ o, E i o m.
Proof.
  intros Hs (o & m' & He) Hm. pose proof He as (_ & Hm' & _)%Hs. exists o. congruence.
Qed.

Lemma read_state x t E s :
  valid x → same_history x t E → topic_state_locked x t = Some s →
  history_ok E t (ts_heads s) (Some s).
Proof.
  intros Hv Hs Hst. pose proof (same_history_ok x t E Hv Hs) as Hok.
  pose proof (topic_ok_heads x t (nd_topics _ (v_node _ _ Hv) t)) as Hh. rewrite Hst in Hok Hh.
  by rewrite -Hh in Hok.
Qed.

Lemma read_no_state x t E :
  valid x → same_history x t E → topic_state_locked x t = None → ∀ i, ¬ member E i.
Proof.
  intros Hv Hs Hst. pose proof (h_state _ _ _ _ (same_history_ok x t E Hv Hs)) as Hno. by rewrite Hst in Hno.
Qed.

(** ** The state at the dependencies *)

(** [stack] and [R] explore what is behind [ds]. *)
Record walked E (ds : gset OpId) (stack : list OpId) (R : gmap OpId Op) : Prop := {
  wk_found : ∀ i o, R !! i = Some o → (∃ m, E i o m) ∧ behind E ds i;
  wk_stack : ∀ i, i ∈ stack → behind E ds i;
  wk_roots : ∀ d, d ∈ ds → d ∈ stack ∨ is_Some (R !! d);
  wk_closed : ∀ i o d, R !! i = Some o → d ∈ deps (obody o) → d ∈ stack ∨ is_Some (R !! d);
}.

Lemma walked_pop E ds i stack R o :
  R !! i = Some o → walked E ds (i :: stack) R → walked E ds stack R.
Proof.
  intros Hi [Hf Hs Hr Hc]. split; [done|intros j Hj; apply Hs; by right|..].
  - intros d Hd. destruct (Hr d Hd) as [[->|?]%elem_of_cons|?]; [right; by eexists|by left|by right].
  - intros j oj d Hj Hd. destruct (Hc j oj d Hj Hd) as [[->|?]%elem_of_cons|?]; [right; by eexists|by left|by right].
Qed.

Lemma walked_push E t heads state ds i stack R o m :
  history_ok E t heads state → E i o m → walked E ds (i :: stack) R →
  walked E ds (rev (bt_elements (deps (obody o))) ++ stack) (<[i := o]> R).
Proof.
  intros Hok He [Hf Hs Hr Hc].
  assert (om_deps m = deps (obody o)) as Hdeps.
  { destruct (h_entry _ _ _ _ Hok _ _ _ He) as [_ Hv].
    by pose proof (proj1 (meta_matches_true _ _) (ev_matches _ _ _ _ Hv)) as (_&_&_&_&_&?&_). }
  assert (∀ d, d ∈ rev (bt_elements (deps (obody o))) ↔ d ∈ deps (obody o)) as Hin.
  { intros d. by rewrite -elem_of_bt_elements !list_elem_of_In -in_rev. }
  assert (∀ d, d ∈ (i :: stack) ∨ is_Some (R !! d) →
    d ∈ rev (bt_elements (deps (obody o))) ++ stack ∨ is_Some (<[i := o]> R !! d)) as Hkeep.
  { intros d [[->|Hd]%elem_of_cons|Hd].
    - right. rewrite lookup_insert_eq. by eexists.
    - left. apply elem_of_app. by right.
    - right. destruct (decide (i = d)) as [->|]; [rewrite lookup_insert_eq; by eexists|by rewrite lookup_insert_ne]. }
  split.
  - intros j oj [[<- <-]|[_ Hj]]%lookup_insert_Some; [|by apply Hf]. split; [by exists m|apply Hs; by left].
  - intros d [Hd%Hin|Hd]%elem_of_app; [|apply Hs; by right].
    eapply behind_step; [apply (Hs i); by left|]. exists o, m. by rewrite Hdeps.
  - intros d Hd. apply Hkeep, Hr, Hd.
  - intros j oj d [[<- <-]|[_ Hj]]%lookup_insert_Some Hd; [left; apply elem_of_app; left; by apply Hin|].
    by apply Hkeep, (Hc j oj).
Qed.

Lemma deps_walk_reads k t ds stack R :
  reads t (deps_walk others k t stack R) (λ R' E, ∀ heads state,
    history_ok E t heads state → walked E ds stack R → walked E ds [] R').
Proof.
  revert stack R. induction k as [|k IH]; intros [|i stack] R; cbn [deps_walk]; try by apply reads_ret.
  { by apply reads_lift. }
  case_bool_decide as Hi.
  - destruct Hi as [o Hi]. eapply reads_weaken; [apply IH|]. cbv beta. intros R' E Hw heads state Hok Hwalk.
    apply (Hw heads state Hok). by eapply walked_pop.
  - apply reads_bind_read. intros x Hx. apply reads_bind_lift. intros o Ho%ok_or_ok.
    case_bool_decide as Ht; cbn [negb]; [|by apply reads_lift].
    eapply reads_weaken; [apply IH|]. cbv beta. intros R' E Hw Hs heads state Hok Hwalk.
    apply (Hw heads state Hok). destruct (read_op x t E i o Hx Hs Ho Ht) as [m He]. by eapply walked_push.
Qed.

(** The walk found exactly what is behind the dependencies. *)
Lemma walked_causal E t heads state ds R :
  history_ok E t heads state → walked E ds [] R → causal E ds (snd <$> bt_entries R).
Proof.
  intros Hok [Hf _ Hr Hc] op. split.
  - intros ([i o] & -> & Hin)%list_elem_of_fmap. apply elem_of_bt_entries in Hin.
    destruct (Hf i o Hin) as [[m Hm] Hb]. simpl. destruct (h_entry _ _ _ _ Hok _ _ _ Hm) as [<- _]. by exists m.
  - intros (m & Hm & (d & Hd & Hrtc)).
    assert (is_Some (R !! d)) as HRd by by destruct (Hr d Hd) as [?%elem_of_nil|].
    assert (is_Some (R !! op_id op)) as [o Ho].
    { clear Hm Hd. induction Hrtc as [|x y z (ox & mx & Hx & Hy) _ IH]; [done|]. apply IH.
      destruct HRd as [o Ho]. destruct (Hf x o Ho) as [[mo Hmo] _].
      destruct (h_fun _ _ _ _ Hok _ _ _ _ _ Hx Hmo) as [-> ->].
      destruct (h_entry _ _ _ _ Hok _ _ _ Hmo) as [_ Hv].
      pose proof (proj1 (meta_matches_true _ _) (ev_matches _ _ _ _ Hv)) as (_&_&_&_&_&Hdeps&_).
      rewrite Hdeps in Hy. by destruct (Hc x o y Ho Hy) as [?%elem_of_nil|]. }
    apply list_elem_of_fmap. exists (op_id op, o). destruct (Hf _ _ Ho) as [[mo Hmo] _].
    destruct (h_fun _ _ _ _ Hok _ _ _ _ _ Hm Hmo) as [-> _]. split; [done|by apply elem_of_bt_entries].
Qed.

Lemma state_for_deps_reads t ds :
  reads t (state_for_deps fuel others t ds) (λ s E, ∀ heads state,
    history_ok E t heads state → state_at E ds s).
Proof.
  unfold state_for_deps. eapply reads_bind; [apply (deps_walk_reads fuel t ds)|]. intros R. cbv beta.
  apply reads_lift. intros s E Hs Hw heads state Hok. exists (snd <$> bt_entries R).
  assert (walked E ds [] R) as Hwalk.
  { apply (Hw heads state Hok). split.
    - intros i o. by rewrite lookup_empty.
    - intros i Hi. apply behind_here. by rewrite list_elem_of_In -in_rev -list_elem_of_In elem_of_bt_elements in Hi.
    - intros d Hd. left. by rewrite list_elem_of_In -in_rev -list_elem_of_In elem_of_bt_elements.
    - intros i o d. by rewrite lookup_empty. }
  split; [by eapply walked_causal|].
  apply materialize_sound in Hs as (gop & g & Hin & Hpl & _ & _ & _ & Hspec). by exists gop, g.
Qed.

(** The author is a member at the dependencies. *)
Lemma author_member_reads t au ds current :
  reads t (author_member fuel others t au ds current) (λ _ E,
    history_ok E t (ts_heads current) (Some current) → ∃ s, state_at E ds s ∧ au ∈ ts_members s).
Proof.
  unfold author_member. case_decide as Hds.
  - eapply (reads_bind _ _ _ (λ b _, b = bool_decide (au ∈ ts_members current))); [by apply reads_ret|].
    intros b. apply reads_lift. intros [] E Hb -> Hok. exists current. revert Hb.
    case_bool_decide as Hin; [intros _|done]. split; [|done]. rewrite Hds. by apply (heads_state E t _ _ Hok).
  - eapply (reads_bind _ _ _ (λ b E, ∃ s, b = bool_decide (au ∈ ts_members s) ∧
      ∀ heads state, history_ok E t heads state → state_at E ds s)).
    { eapply reads_bind; [apply state_for_deps_reads|]. intros s. apply reads_ret. intros E Hs. by exists s. }
    intros b. apply reads_lift. intros [] E Hb (s & -> & Hs) Hok. exists s. revert Hb.
    case_bool_decide as Hin; [intros _|done]. split; [by eapply Hs|done].
Qed.
(** ** An operation that may follow a history *)

(** The operation of the body continues its actor's chain. *)
Definition next_in_chain E (b : OpBody) : Prop :=
  ∃ tip, is_tip E (actor_id b) tip ∧
    match tip with
    | Some (s, i) => actor_seq b = s + 1 ∧ s + 1 ≤ u64_max ∧ actor_prev b = Some i
    | None => actor_seq b = 1 ∧ actor_prev b = None
    end.

Definition author_at E (b : OpBody) : Prop :=
  ∃ s, state_at E (deps b) s ∧ author b ∈ ts_members s.

(** What [validate_op] establishes of the history it saw. *)
Record op_fits E (t : TopicId) op : Prop := {
  of_chain : next_in_chain E (obody op);
  of_prev : ∀ p, actor_prev (obody op) = Some p → p ∈ deps (obody op);
  of_payload : match payload (obody op) with
    | Genesis _ => deps (obody op) = ∅ ∧ ∀ i, ¬ member E i
    | Event env => author_at E (obody op) ∧
        ∃ s, history_ok E t (ts_heads s) (Some s) ∧ type_id env = ts_event_type_id s
    | Control _ => author_at E (obody op) ∧ ∃ s, history_ok E t (ts_heads s) (Some s)
    end;
  of_generation : (∀ d, d ∈ deps (obody op) → member E d) →
    generation_after E (bt_elements (deps (obody op))) (generation (obody op));
}.

Lemma validate_chain_reads op :
  reads (topic_id (obody op)) (validate_chain others op) (λ _ E,
    next_in_chain E (obody op) ∧ ∀ p, actor_prev (obody op) = Some p → p ∈ deps (obody op)).
Proof.
  unfold validate_chain. apply reads_bind_read. intros x0 _. apply reads_bind_lift. intros [] _.
  apply reads_bind_read. intros x Hx. apply reads_bind_lift. intros [seq prev] Hpos.
  apply reads_bind_lift. intros [] Hseq. apply reads_bind_lift. intros [] Hprev. apply reads_lift.
  intros [] E Hin Hs _. revert Hseq Hprev Hin.
  destruct (N.eqb_spec (actor_seq (obody op)) seq) as [<-|]; [intros _|done].
  case_bool_decide as Hp; [intros _|done]. intros Hin. split.
  - exists (l_actor_tip (s_log x) !! (topic_id (obody op), actor_id (obody op))). split; [by apply read_tip|].
    revert Hpos. unfold next_actor_position. destruct (_ !! _) as [[s i]|].
    + intros (next & Hn%ok_or_ok%checked_add_Some & [= <- <-])%bind_ok. by destruct Hn as [-> ?].
    + by intros [= <- <-].
  - intros p Hpp. rewrite Hpp in Hin. destruct (decide (p ∈ deps (obody op))) as [|Hd]; [done|].
    by rewrite bool_decide_true in Hin.
Qed.

Lemma validate_payload_reads op :
  reads (topic_id (obody op)) (validate_payload fuel others op) (λ _ E,
    match payload (obody op) with
    | Genesis _ => deps (obody op) = ∅ ∧ ∀ i, ¬ member E i
    | Event env => author_at E (obody op) ∧
        ∃ s, history_ok E (topic_id (obody op)) (ts_heads s) (Some s) ∧ type_id env = ts_event_type_id s
    | Control _ => author_at E (obody op) ∧ ∃ s, history_ok E (topic_id (obody op)) (ts_heads s) (Some s)
    end).
Proof.
  unfold validate_payload. destruct (payload (obody op)) as [g|env|c].
  - destruct (_ || _) eqn:Hbad; [by apply reads_lift|]. reflect_in Hbad. destruct Hbad as [_ Hd].
    apply reads_bind_read. intros x Hx. apply reads_lift. intros [] E Hn Hs. split; [done|].
    eapply read_no_state; [done..|]. revert Hn. case_bool_decide as Hst; [done|]. intros _. by apply eq_None_not_Some.
  - apply reads_bind_read. intros x Hx. apply reads_bind_lift. intros cur Hcur%ok_or_ok.
    apply reads_bind_lift. intros [] Hty. eapply reads_weaken; [apply author_member_reads|].
    cbv beta. intros [] E Hm Hs. pose proof (read_state x _ E cur Hx Hs Hcur) as Hok.
    split; [by apply Hm|]. exists cur. split; [done|]. revert Hty. unfold ensure_event_type. by case_decide.
  - apply reads_bind_read. intros x Hx. apply reads_bind_lift. intros cur Hcur%ok_or_ok.
    eapply reads_weaken; [apply author_member_reads|]. cbv beta. intros [] E Hm Hs.
    pose proof (read_state x _ E cur Hx Hs Hcur) as Hok. split; [by apply Hm|by exists cur].
Qed.

Lemma validate_generation_reads op :
  reads (topic_id (obody op)) (validate_generation others op) (λ _ E, ∀ heads state,
    history_ok E (topic_id (obody op)) heads state → (∀ d, d ∈ deps (obody op) → member E d) →
    generation_after E (bt_elements (deps (obody op))) (generation (obody op))).
Proof.
  unfold validate_generation.
  eapply (reads_bind _ _ _ (λ g E, ∀ heads state,
    history_ok E (topic_id (obody op)) heads state → (∀ d, d ∈ deps (obody op) → member E d) →
    generation_after E (bt_elements (deps (obody op))) g)).
  - eapply reads_weaken; [apply (reads_fold _ _ _ (λ pre g E, ∀ heads state,
      history_ok E (topic_id (obody op)) heads state → (∀ d, d ∈ deps (obody op) → member E d) →
      generation_after E pre g))|].
    2: { cbv beta. intros g E Hg. apply Hg. intros. apply generation_after_nil. }
    intros pre d rest g Hsplit. apply reads_bind_read. intros x Hx. apply reads_bind_lift. intros m Hm%ok_or_ok.
    apply reads_bind_lift. intros next Hn%ok_or_ok%checked_add_Some. apply reads_ret.
    intros E Hs Hpre heads state Hok Hds. destruct Hn as [-> _].
    destruct (read_member x _ E d m Hs) as [o He]; [|done|].
    { apply Hds, elem_of_bt_elements. rewrite Hsplit. set_solver. }
    eapply generation_after_snoc; [done..|]. by eapply Hpre.
  - intros g. apply reads_lift. intros [] E Hg Hpre heads state Hok Hds. revert Hg.
    destruct (N.eqb_spec (generation (obody op)) g) as [->|]; [intros _|done]. by eapply Hpre.
Qed.

Lemma validate_op_reads op :
  reads (topic_id (obody op)) (validate_op fuel others op) (λ _ E, ∀ heads state,
    history_ok E (topic_id (obody op)) heads state → op_fits E (topic_id (obody op)) op).
Proof.
  unfold validate_op. destruct (negb _); [by apply reads_lift|].
  eapply (reads_bind _ _ _ (λ _ _, True)).
  { unfold validate_genesis_type. destruct (payload (obody op)); [|by apply reads_ret..].
    destruct (_ <? _); [by apply reads_lift|]. apply reads_bind_read. intros x _. by apply reads_lift. }
  intros []. eapply reads_bind; [apply validate_chain_reads|]. intros []. cbv beta.
  eapply (reads_bind _ _ _ (λ _ _, True)).
  { eapply reads_weaken; [apply (reads_fold _ _ _ (λ _ _ _, True))|done]. intros pre d rest [] _.
    apply reads_bind_read. intros x _. by apply reads_lift. }
  intros []. eapply reads_bind; [apply validate_payload_reads|]. intros [].
  eapply reads_weaken; [apply validate_generation_reads|]. cbv beta.
  intros [] E Hgen Hpay _ [Hch Hpr] _ heads state Hok. split; [done..|]. by eapply Hgen.
Qed.

(** What [meta_for] computes. *)
Lemma meta_for_reads op :
  reads (topic_id (obody op)) (meta_for others op) (λ meta E, ∀ heads state,
    history_ok E (topic_id (obody op)) heads state →
    clock_after E (bt_elements (deps (obody op))) (om_observed_clock meta) ∧
    om_topic_id meta = topic_id (obody op) ∧ meta_matches op meta = true).
Proof.
  unfold meta_for. eapply (reads_bind _ _ _ (λ clock E, ∀ heads state,
    history_ok E (topic_id (obody op)) heads state →
    clock_after E (bt_elements (deps (obody op))) clock)).
  - unfold clock_from_deps. eapply reads_weaken; [apply (reads_fold _ _ _ (λ pre clock E, ∀ heads state,
      history_ok E (topic_id (obody op)) heads state → clock_after E pre clock))|].
    2: { cbv beta. intros g E Hg. apply Hg. intros. apply clock_after_nil. }
    intros pre d rest clock Hsplit. apply reads_bind_read. intros x Hx. apply reads_bind_lift.
    intros [hd ck] Hobs%ok_or_ok. apply fmap_Some in Hobs as (m & Hm & [= -> ->]).
    case_bool_decide as Ht; cbn [negb]; [|by apply reads_lift]. apply reads_ret.
    intros E Hs Hpre heads state Hok. destruct (read_meta x _ E d m Hx Hs Hm Ht) as [o He].
    eapply clock_after_snoc; [done..|]. by eapply Hpre.
  - intros clock. apply reads_ret. intros E Hc heads state Hok. cbn [om_observed_clock om_topic_id].
    split_and!; [by eapply Hc|done|]. by apply meta_matches_true.
Qed.

(** ** The entry it becomes *)

Lemma fits_entry E t heads state op (meta : OpMeta C) :
  history_ok E t heads state → topic_id (obody op) = t → op_fits E t op →
  clock_after E (bt_elements (deps (obody op))) (om_observed_clock meta) → om_topic_id meta = t →
  meta_matches op meta = true →
  entry_valid E t op meta ∧
  ∀ i o m, E i o m → om_actor_id m = om_actor_id meta → om_actor_seq m ≠ om_actor_seq meta.
Proof.
  intros Hok Ht [(tip & Htip & Hcont) Hprev Hpay Hgen] [Hmem Hck] Hmt Hmm.
  pose proof (proj1 (meta_matches_true _ _) Hmm) as (Hid & _ & Ha & Hs & Hpr & Hd & Hg & _).
  assert (∀ d, d ∈ deps (obody op) → member E d) as Hdeps
    by (intros d Hd'; by apply Hmem, elem_of_bt_elements).
  destruct (generation_after_set _ _ _ (Hgen Hdeps)) as (Hg1 & Hg2 & Hg3).
  assert (is_genesis op = false → author_at E (obody op)) as Hauthor.
  { intros Hng. unfold is_genesis in Hng. by destruct (payload (obody op)); [|destruct Hpay..]. }
  split.
  - split; rewrite ?Hd ?Hg ?Hpr ?Hs; try done.
    + destruct tip as [[s i]|]; destruct Hcont as (Hsq & Hcont); [|by rewrite Hcont].
      destruct Hcont as [_ Hpp]. rewrite Hpp. split; [by apply Hprev|].
      destruct Htip as [(o & m & He & Hma & Hms) _]. exists o, m. rewrite Ha. by rewrite Hms.
    + intros a s Hs1. rewrite (Hck a s Hs1). unfold counts. setoid_rewrite elem_of_bt_elements. naive_solver.
    + unfold is_genesis in *. destruct (payload (obody op)).
      * by destruct Hpay as [-> _].
      * destruct (Hauthor eq_refl) as (s & (ops & Hc & gop & g & Hin & _) & _). split; [done|]. intros He.
        apply Hc in Hin as (m & _ & d & Hd' & _). rewrite He in Hd'. by apply elem_of_empty in Hd'.
      * destruct (Hauthor eq_refl) as (s & (ops & Hc & gop & g & Hin & _) & _). split; [done|]. intros He.
        apply Hc in Hin as (m & _ & d & Hd' & _). rewrite He in Hd'. by apply elem_of_empty in Hd'.
  - eapply (continues_free E (om_actor_id meta) tip); [by rewrite Ha| |done|].
    + unfold continues. rewrite Hs Hpr. by destruct tip as [[s i]|].
    + intros j o m. apply (seq_positive E t _ _ Hok).
Qed.

(** All states of one history name the same event type. *)
Lemma history_type E t h1 h2 s1 s2 :
  history_ok E t h1 (Some s1) → history_ok E t h2 (Some s2) → ts_event_type_id s1 = ts_event_type_id s2.
Proof.
  intros H1 H2. pose proof (h_state _ _ _ _ H1) as (_ & (l & Hl & g1 & p1 & Hin1 & Hp1 & Hs1) & Hg1).
  pose proof (h_state _ _ _ _ H2) as (_ & (k & Hk & g2 & p2 & Hin2 & Hp2 & Hs2) & _).
  destruct (proj1 (Hl g1) Hin1) as [m1 Hm1], (proj1 (Hk g2) Hin2) as [m2 Hm2].
  destruct (Hg1 _ _ _ Hm1) as [Hi1 _], (Hg1 _ _ _ Hm2) as [Hi2 _].
  unfold is_genesis in Hi1, Hi2. rewrite Hp1 in Hi1. rewrite Hp2 in Hi2.
  rewrite (Hi1 eq_refl) in Hm1. rewrite (Hi2 eq_refl) in Hm2.
  destruct (h_fun _ _ _ _ H1 _ _ _ _ _ Hm1 Hm2) as [-> _].
  destruct Hs1 as (_ & -> & _), Hs2 as (_ & -> & _). congruence.
Qed.

Lemma apply_control_heads s h op c :
  apply_control (set_heads s h) op c = set_heads (apply_control s op c) h.
Proof. destruct c; simpl; by repeat (case_match; simpl). Qed.

(** [topic_state_after] follows the operation. *)
Lemma state_after_follows E t heads0 state op heads ts :
  history_ok E t heads0 state → topic_id (obody op) = t → op_fits E t op →
  topic_state_after op heads state = Ok ts →
  ∃ state', state_follows t op state state' ∧
    match ts with Some s => Some s | None => (λ s, set_heads s heads) <$> state end =
      (λ s, set_heads s heads) <$> state'.
Proof.
  intros Hok Ht Hfits. pose proof (of_payload _ _ _ Hfits) as Hpay.
  pose proof (h_state _ _ _ _ Hok) as Hst. unfold topic_state_after, state_follows.
  destruct (payload (obody op)) as [g|env|c].
  - destruct Hpay as [_ Hno]. intros [= <-]. exists (Some (genesis_state t op g)). rewrite -Ht. split; [|done].
    split; [|done]. destruct state as [s|]; [|done].
    destruct Hst as (_ & (ops & Hall & gop & g' & Hin & _) & _). apply Hall in Hin as [m Hm].
    destruct (Hno (op_id gop)). by exists gop, m.
  - destruct Hpay as [_ (s' & Hs' & Hty)]. intros [= <-]. exists state. split; [|done].
    destruct state as [s|].
    + exists s. split_and!; [done..|]. rewrite Hty. by eapply history_type.
    + destruct (h_state _ _ _ _ Hs') as (_ & (ops & Hall & gop & g' & Hin & _) & _). apply Hall in Hin as [m Hm].
      destruct (Hst (op_id gop)). by exists gop, m.
  - intros (s & Hs%ok_or_ok & [= <-])%bind_ok. rewrite Hs. exists (Some (apply_control s op c)).
    split; [by exists s|]. by rewrite apply_control_heads.
Qed.

(** ** The commit *)

(** The batch of [commit_admission]. *)
Definition local_batch op (meta : OpMeta C) heads state ts effs : AdmittedBatch C :=
  {| ab_topic_id := topic_id (obody op); ab_expected_heads := heads; ab_expected_topic_state := state;
     ab_entries := [(op, meta)]; ab_heads := heads_after heads op; ab_topic_state := ts;
     ab_effects := effs |}.

(** What makes an operation and its metadata an entry of the history of [st]. *)
Definition entry_fits st t op (meta : OpMeta C) : Prop :=
  op_fits (hist st t) t op ∧
  clock_after (hist st t) (bt_elements (deps (obody op))) (om_observed_clock meta) ∧
  om_topic_id meta = t ∧ meta_matches op meta = true.

(** An operation that continues its chain is not stored yet. *)
Lemma fits_not_stored st t op meta :
  valid st → universe op → topic_id (obody op) = t → entry_fits st t op meta →
  l_meta (s_log st) !! op_id op = None.
Proof.
  intros Hv Ho Ht (Hfits & Hck & Hmt & Hmm). pose proof (so_log _ (nd_store _ (v_node _ _ Hv))) as Hlog.
  pose proof (nd_topics _ (v_node _ _ Hv) t) as Hok.
  destruct (fits_entry _ _ _ _ _ _ Hok Ht Hfits Hck Hmt Hmm) as [_ Hfree].
  destruct (l_meta (s_log st) !! op_id op) as [m|] eqn:Hm; [|done]. exfalso.
  assert (is_Some (l_ops (s_log st) !! op_id op)) as [o' Ho'].
  { rewrite -elem_of_dom (lo_dom _ Hlog). apply elem_of_dom. by eexists. }
  destruct (lo_entry _ Hlog _ _ _ Ho' Hm) as (Hid & _ & Hmt' & _).
  assert (o' = op) as -> by (apply Hcf; [by eapply v_ops|done..]).
  assert (hist st t (op_id op) op m) as He by (split_and!; [done..|congruence]).
  destruct (h_entry _ _ _ _ Hok _ _ _ He) as [_ Hev].
  pose proof (proj1 (meta_matches_true _ _) (ev_matches _ _ _ _ Hev)) as (_ & _ & Ha & Hs & _).
  pose proof (proj1 (meta_matches_true _ _) Hmm) as (_ & _ & Ha' & Hs' & _).
  apply (Hfree _ _ _ He); congruence.
Qed.

(** The batch of an entry that fits. *)
Lemma local_extends st t op meta heads ts effs :
  valid st → universe op → topic_id (obody op) = t → entry_fits st t op meta →
  heads = default ∅ (s_heads st !! t) →
  topic_state_after op (heads_after heads op) (topic_state_locked st t) = Ok ts →
  batch_extends st t (local_batch op meta heads (topic_state_locked st t) ts effs).
Proof.
  intros Hv Ho Ht Hentry Hh Hts. pose proof (nd_topics _ (v_node _ _ Hv) t) as Hok.
  pose proof (fits_not_stored st t op meta Hv Ho Ht Hentry) as Hnew.
  destruct Hentry as (Hfits & Hck & Hmt & Hmm).
  destruct (fits_entry _ _ _ _ _ _ Hok Ht Hfits Hck Hmt Hmm) as [Hval Hfree].
  pose proof (proj1 (meta_matches_true _ _) Hmm) as (_ & _ & _ & _ & _ & Hd & _).
  destruct (state_after_follows _ _ _ _ _ _ _ Hok Ht Hfits Hts) as (state' & Hfol & Heq).
  split; cbn [local_batch ab_topic_id ab_expected_heads ab_expected_topic_state ab_entries ab_heads
    ab_topic_state]; try done.
  - split; [apply NoDup_singleton|]. cbn [local_batch ab_entries ab_topic_id].
    intros [o m] d md [= -> ->]%list_elem_of_singleton Hdd Hmd. simpl in Hdd.
    destruct (ev_deps _ _ _ _ Hval d Hdd) as (od & md' & (_ & Hmd' & Hdt)). congruence.
  - by intros e ->%list_elem_of_singleton.
  - rewrite Heq.
    assert (history_ok (with_entries (hist st t) [(op, meta)]) t (heads_after heads op) state') as HV.
    { eapply history_ok_iff; [intros; symmetry; apply (with_entries_snoc (hist st t) [])|].
      unfold heads_after. rewrite Hh -Hd. eapply history_extend.
      - eapply history_ok_iff; [intros; symmetry; apply with_entries_nil|exact Hok].
      - intros (o & m & [(_ & Hm & _)|[?%elem_of_nil _]]); [|done]. congruence.
      - eapply entry_valid_grow; [exact Hok| |exact Hval]. intros d _ o m. by rewrite with_entries_nil.
      - intros j o m Hj. exact (Hfree j o m (proj1 (with_entries_nil _ _ _ _) Hj)).
      - done. }
    destruct state' as [s'|]; [by apply history_set_heads|done].
Qed.

(** A batch is written as planned, or the store stays as it is. *)
Lemma admitted_or_same st (batch : AdmittedBatch C) st' r :
  valid st → admit_batch_locked st batch quota = (st', r) →
  (∃ e, r = Err e ∧ st' = st) ∨ (r = Ok () ∧ ∃ plan, admit_plan st batch quota = Ok plan).
Proof.
  intros Hv. unfold admit_batch_locked. destruct (admit_plan st batch quota) as [plan|e];
    [|intros [= <- <-]; left; by exists e].
  unfold admit_write.
  destruct (write_entries_ok (s_log st) (s_pool st) (ap_new_entries plan) (so_pool _ (nd_store _ (v_node _ _ Hv))))
    as (pool & -> & _). intros [= _ <-]. right. split; [done|by exists plan].
Qed.

(** ** One attempt *)

Lemma reads_valid {A} t (m : action C A) P n st n' st' r :
  reads t m P → valid st → m n st = (n', st', r) → valid st' ∧ evolves st st'.
Proof. intros Hm Hv Hr. by destruct (Hm _ _ _ _ _ Hv Hr) as (? & ? & _). Qed.

(** The store a batch is committed to, seen from the one its expectations were read in:
    if they hold there, nothing happened to the topic in between. *)
Lemma expectations_freeze st base t :
  valid st → valid base → evolves st base →
  topic_state_locked base t = topic_state_locked st t → frozen st base t (hist base t).
Proof.
  intros Hv Hb Hev Hst. split; [|done]. intros i o m. symmetry. eapply (evolves_same universe); try done.
  rewrite -(topic_ok_heads base t (nd_topics _ (v_node _ _ Hb) t)).
  by rewrite -(topic_ok_heads st t (nd_topics _ (v_node _ _ Hv) t)) Hst.
Qed.

(** What an attempt that succeeded left. *)
Record stored_as st st' t op (meta : OpMeta C) heads : Prop := {
  sa_entry : hist st' t (op_id op) op meta;
  sa_heads : s_heads st' !! t = Some heads;
  sa_keeps : keeps_ops st st';
  sa_only : ∀ i o, l_ops (s_log st') !! i = Some o → l_ops (s_log st) !! i = Some o ∨ o = op;
}.

(** [put_admitted_batch] of an entry that fits if the expectations hold. *)
Lemma put_local_ok n st t op meta heads state ts effs n' st' r :
  valid st → topic_id (obody op) = t →
  (∀ base, base = others n st → topic_state_locked base t = state → entry_fits base t op meta) →
  topic_state_after op (heads_after heads op) state = Ok ts →
  put_admitted_batch quota others (local_batch op meta heads state ts effs) n st = (n', st', r) →
  (r = Ok () → universe op) →
  valid st' ∧ evolves st st' ∧
  (r = Ok () → stored_as (others n st) st' t op meta (heads_after heads op)) ∧
  (∀ e, r = Err e → st' = others n st).
Proof.
  intros Hv Ht Hfits Hts. destruct (Hothers n st Hv) as [Hb Hev]. unfold put_admitted_batch.
  set (base := others n st) in *. destruct (admit_batch_locked base _ quota) as [st1 r1] eqn:Hadmit.
  intros [= _ <- <-] Huni.
  destruct (admitted_or_same _ _ _ _ Hb Hadmit) as [(e & -> & ->)|[-> [plan Hplan]]]; [by split_and!|].
  destruct (admit_plan_expected _ _ _ _ Hplan) as [Hh Hs].
  cbn [local_batch ab_expected_heads ab_topic_id ab_expected_topic_state] in Hh, Hs. rewrite Ht in Hh, Hs.
  specialize (Hfits base eq_refl (eq_sym Hs)). specialize (Huni eq_refl). subst state.
  pose proof (local_extends base t op meta heads ts effs Hb Huni Ht Hfits Hh Hts) as Hext.
  assert (∀ e, e ∈ ab_entries (local_batch op meta heads (topic_state_locked base t) ts effs) → universe e.1) as Hu
    by by intros e ->%list_elem_of_singleton.
  destruct (admitted_evolves universe _ _ _ _ _ _ Hb Hext Hu Hadmit) as (Hv' & Hev' & [Hin Hnew] & Hkeep).
  destruct (admitted_entries _ _ _ _ _ _ (nd_store _ (v_node _ _ Hb)) Hext Hadmit) as (_ & _ & _ & Hheads & _).
  split_and!; [done|by eapply (evolves_trans universe st base)| |done]. intros _. split.
  - apply Hin. by apply list_elem_of_singleton.
  - rewrite Hheads lookup_insert_eq. done.
  - done.
  - intros i o Ho. destruct (Hnew i o Ho) as [?|[m [= -> ->]%list_elem_of_singleton]]; [by left|by right].
Qed.

Lemma check_and_commit_ok n st1 st t op heads effects n' st' r :
  valid st1 → valid st → evolves st1 st → topic_id (obody op) = t →
  check_and_commit quota fuel others op heads (topic_state_locked st1 t) effects n st = (n', st', r) →
  (∀ meta, r = Ok meta → universe op) →
  valid st' ∧ evolves st st' ∧
  ∀ meta, r = Ok meta → ∃ base, valid base ∧ evolves st base ∧
    stored_as base st' t op meta (heads_after heads op).
Proof.
  intros Hv1 Hv Hev1 Ht. unfold check_and_commit, mbind at 1, action_bind at 1, lift at 1.
  destruct (validate_frame op) as [[]|e]; [|by intros [= _ <- <-] _; split_and!; [|apply evolves_refl|]].
  unfold mbind at 1, action_bind at 1. pose proof (validate_op_reads op) as Hval. rewrite Ht in Hval.
  destruct (validate_op fuel others op n st) as [[n2 st2] [[]|e]] eqn:H2;
    destruct (Hval _ _ _ _ _ Hv H2) as (Hv2 & Hev2 & HP2); [|by intros [= _ <- <-] _; split_and!].
  unfold mbind at 1, action_bind at 1. pose proof (meta_for_reads op) as Hmeta. rewrite Ht in Hmeta.
  destruct (meta_for others op n2 st2) as [[n3 st3] [meta|e]] eqn:H3;
    destruct (Hmeta _ _ _ _ _ Hv2 H3) as (Hv3 & Hev3 & HP3);
    [|by intros [= _ <- <-] _; split_and!; [|by eapply (evolves_trans universe st st2)|]].
  assert (evolves st st3) as Hev13 by by eapply (evolves_trans universe st st2).
  unfold commit_admission, mbind at 1, action_bind at 1, mbind at 1, action_bind at 1, lift at 1.
  destruct (topic_state_after op (heads_after heads op) (topic_state_locked st1 t)) as [ts|e] eqn:Hts;
    [|by intros [= _ <- <-] _; split_and!].
  unfold mbind at 1, action_bind at 1, lift at 1. destruct (ok_or _ _) as [eff|e]; [|by intros [= _ <- <-] _; split_and!].
  unfold mbind at 1, action_bind at 1, lift at 1. destruct (effects op meta eff) as [effs|e]; [|by intros [= _ <- <-] _; split_and!].
  fold (local_batch op meta heads (topic_state_locked st1 t) ts effs).
  destruct (put_admitted_batch _ _ _ n3 st3) as [[n4 st4] r4] eqn:Hput.
  assert (∀ base, base = others n3 st3 → topic_state_locked base t = topic_state_locked st1 t →
    entry_fits base t op meta) as Hfits.
  { intros base -> Hst. destruct (Hothers n3 st3 Hv3) as [Hb Hevb].
    set (base := others n3 st3) in *.
    assert (evolves st base) as Hsb by by eapply (evolves_trans universe st st3).
    pose proof (expectations_freeze st1 base t Hv1 Hb ltac:(by eapply (evolves_trans universe st1 st)) Hst) as Hfr.
    assert (same_history st t (hist base t)) as Hst0 by by eapply (squeeze st1 st base).
    assert (frozen st base t (hist base t)) as Hfr0 by done.
    assert (same_history st3 t (hist base t)) as Hs3 by by eapply (squeeze st st3 base).
    assert (same_history st2 t (hist base t)) as Hs2 by by eapply (squeeze st st2 st3).
    pose proof (nd_topics _ (v_node _ _ Hb) t) as Hok.
    destruct (HP3 meta (hist base t) eq_refl (conj Hs2 Hs3) _ _ Hok) as (Hck & Hmt & Hmm).
    split; [|done]. exact (HP2 () (hist base t) eq_refl (conj Hst0 Hs2) _ _ Hok). }
  intros Hr Huni.
  assert (r4 = Ok () → universe op) as Huni4 by (intros ->; injection Hr as _ _ <-; by eapply Huni).
  destruct (put_local_ok _ _ _ _ _ _ _ _ _ _ _ _ Hv3 Ht Hfits Hts Hput Huni4) as (Hv4 & Hev4 & Hok & _).
  assert (evolves st st4) as Hev04 by by eapply (evolves_trans universe st st3).
  destruct r4 as [[]|e]; injection Hr as _ <- <-; split_and!; try done.
  intros meta' [= <-]. exists (others n3 st3). destruct (Hothers n3 st3 Hv3) as [Hb Hevb].
  split_and!; [done|by eapply (evolves_trans universe st st3)|by apply Hok].
Qed.
(** ** The whole creation *)

(** An operation this signer made for the topic. *)
Definition made_by (signer : Signer) t pl (op : Op) : Prop :=
  topic_id (obody op) = t ∧ payload (obody op) = pl ∧ author (obody op) = signer_peer_id signer ∧
  op_validate op = Ok ().

Lemma op_sign_body b signer op : op_sign b signer = Ok op → obody op = b.
Proof.
  unfold op_sign, signed_op_sign. intros (s & Hs & Hnew)%bind_ok. case_decide; [|done].
  next_ok Hs as (m & _ & Hs). apply bind_ok in Hs as (sg & _ & [= <-]).
  by apply bind_ok in Hnew as (i & _ & [= <-]).
Qed.

(** What [next_local_op] makes: it depends on every head, new or kept from before. *)
Lemma next_local_op_ok t a ds pl signer previous n st n' st' op :
  next_local_op others t a ds pl signer previous n st = (n', st', Ok op) →
  (∀ o, previous = Some o → made_by signer t pl o) →
  made_by signer t pl op ∧ actor_id (obody op) = a ∧ ds ⊆ deps (obody op).
Proof.
  intros (n1 & st1 & tip & _ & Hr)%action_bind_ok Hprev.
  apply action_bind_ok in Hr as (n2 & st2 & [seq prev] & _ & Hr).
  apply action_bind_ok in Hr as (n3 & st3 & gen & _ & Hr).
  set (b := {| topic_id := t |}) in Hr.
  assert (topic_id b = t ∧ payload b = pl ∧ author b = signer_peer_id signer ∧ actor_id b = a ∧ ds ⊆ deps b)
    as (Ht & Hpl & Hau & Ha & Hsub) by (split_and!; [done..|]; cbn [b deps]; destruct prev; set_solver).
  clearbody b. cbv zeta in Hr.
  assert (obody op = b ∧ op_validate op = Ok ()) as [<- Hval]; [|done].
  destruct (match previous with Some o => if decide (obody o = b) then Some o else None | None => None end)
    as [o|] eqn:Hm.
  - injection Hr as _ _ <-. destruct previous as [o'|]; [|done]. case_decide as Hb; [|done].
    injection Hm as <-. split; [done|]. by apply Hprev.
  - apply action_bind_ok in Hr as (n4 & st4 & o & Hs & Hr). injection Hs as _ _ Hs.
    apply action_bind_ok in Hr as (n5 & st5 & u & Hv & Hr). injection Hv as _ _ Hv. injection Hr as _ _ <-.
    split; [by eapply op_sign_body|]. by destruct u.
Qed.

Lemma prepare_reads t a pl signer : reads t (prepare_local others t a pl signer) (λ _ _, True).
Proof.
  unfold prepare_local. eapply (reads_bind _ _ _ (λ _ _, True)).
  - assert (reads t (_ ← ensure_member others t (signer_peer_id signer);
      tip ← read others (λ st, l_actor_tip (s_log st) !! (t, a));
      if bool_decide (is_Some tip) then mret ()
      else count ← read others (λ st, actor_count st t);
           lift (refuse_if (MAX_TOPIC_ACTORS <=? count) TopicFull)) (λ _ _, True)) as Hcheck.
    { eapply (reads_bind _ _ _ (λ _ _, True)).
      { unfold ensure_member. apply reads_bind_read. intros x _. apply reads_bind_lift. intros s _. by apply reads_lift. }
      intros []. apply reads_bind_read. intros x _. case_bool_decide; [by apply reads_ret|].
      apply reads_bind_read. intros x' _. by apply reads_lift. }
    destruct pl; [by apply reads_ret|done..].
  - intros []. apply reads_bind_read. intros x _. apply reads_bind_read. intros y _. by apply reads_ret.
Qed.

(** The expected state is the one of the store after its read. *)
Lemma prepare_state t a pl signer n st n' st' heads state :
  prepare_local others t a pl signer n st = (n', st', Ok (heads, state)) →
  state = topic_state_locked st' t.
Proof.
  intros (n1 & st1 & u & _ & Hr)%action_bind_ok.
  apply action_bind_ok in Hr as (n2 & st2 & h & _ & Hr).
  apply action_bind_ok in Hr as (n3 & st3 & s & Hs & Hr).
  injection Hs as _ <- <-. by injection Hr as _ <- _ <-.
Qed.

Lemma next_local_reads t a ds pl signer previous :
  reads t (next_local_op others t a ds pl signer previous) (λ _ _, True).
Proof.
  unfold next_local_op. apply reads_bind_read. intros x _. apply reads_bind_lift. intros [seq prev] _.
  eapply (reads_bind _ _ _ (λ _ _, True)).
  { case_decide; [by apply reads_ret|]. apply reads_bind_read. intros y _. by apply reads_lift. }
  intros gen. destruct (match previous with Some _ => _ | None => _ end); [by apply reads_ret|].
  apply reads_bind_lift. intros op _. apply reads_bind_lift. intros [] _. by apply reads_ret.
Qed.
(** The result of a creation: the operation is stored and is the only head. *)
Definition created inner inner' t pl (signer : Signer) op (meta : OpMeta C) : Prop :=
  made_by signer t pl op ∧
  ∃ base, valid base ∧ evolves inner base ∧ stored_as base inner' t op meta {[op_id op]}.

Lemma heads_after_all (heads : gset OpId) op : heads ⊆ deps (obody op) → heads_after heads op = {[op_id op]}.
Proof. unfold heads_after. set_solver. Qed.

Lemma created_later st1 st2 st' t pl signer op meta :
  valid st1 → valid st2 → evolves st1 st2 → created st2 st' t pl signer op meta →
  created st1 st' t pl signer op meta.
Proof.
  intros H1 H2 Hev (Hm & base & Hb & Hevb & Hst). split; [done|]. exists base.
  split_and!; [done|by eapply (evolves_trans universe st1 st2)|done].
Qed.

Lemma try_local_ok t a pl signer signed effects n st n' st' signed' r :
  valid st → (∀ o, signed = Some o → made_by signer t pl o) →
  try_local_effects quota fuel others t a pl signer signed effects n st = (n', st', signed', r) →
  (∀ op meta, r = Ok (op, meta) → universe op) →
  valid st' ∧ evolves st st' ∧ (∀ o, signed' = Some o → made_by signer t pl o) ∧
  ∀ op meta, r = Ok (op, meta) → created st st' t pl signer op meta.
Proof.
  intros Hv Hsigned. unfold try_local_effects.
  destruct (prepare_local others t a pl signer n st) as [[n1 st1] [[heads state]|e]] eqn:H1;
    destruct (reads_valid _ _ _ _ _ _ _ _ (prepare_reads t a pl signer) Hv H1) as [Hv1 Hev1];
    [|by intros [= _ <- <- <-] _; split_and!].
  rewrite (prepare_state _ _ _ _ _ _ _ _ _ _ H1).
  destruct (next_local_op others t a heads pl signer signed n1 st1) as [[n2 st2] [op|e]] eqn:H2;
    destruct (reads_valid _ _ _ _ _ _ _ _ (next_local_reads t a heads pl signer signed) Hv1 H2) as [Hv2 Hev2];
    assert (evolves st st2) as Hev02 by (by eapply (evolves_trans universe st st1));
    [|by intros [= _ <- <- <-] _; split_and!].
  destruct (next_local_op_ok _ _ _ _ _ _ _ _ _ _ _ H2 Hsigned) as (Hmade & _ & Hsub).
  destruct (check_and_commit quota fuel others op heads _ effects n2 st2) as [[n3 st3] r3] eqn:H3.
  intros Hr Huni.
  assert (∀ meta, r3 = Ok meta → universe op) as Huni3.
  { intros meta ->. injection Hr as _ _ _ <-. by eapply Huni. }
  destruct (check_and_commit_ok _ _ _ _ _ _ _ _ _ _ Hv1 Hv2 Hev2 (proj1 Hmade) H3 Huni3) as (Hv3 & Hev3 & Hok).
  assert (evolves st st3) as Hev03 by by eapply (evolves_trans universe st st2).
  destruct r3 as [meta|e]; injection Hr as _ <- <- <-; split_and!; try done.
  - intros op' meta' [= <- <-]. destruct (Hok meta eq_refl) as (base & Hb & Hevb & Hst).
    split; [done|]. exists base. rewrite heads_after_all // in Hst.
    split_and!; [done|by eapply (evolves_trans universe st st2)|done].
  - by intros o [= <-].
Qed.

Lemma local_retries_ok tries t a pl signer signed effects n st n' st' r :
  valid st → (∀ o, signed = Some o → made_by signer t pl o) →
  local_retries quota fuel others tries t a pl signer signed effects n st = (n', st', r) →
  (∀ op meta, r = Ok (op, meta) → universe op) →
  valid st' ∧ evolves st st' ∧ ∀ op meta, r = Ok (op, meta) → created st st' t pl signer op meta.
Proof.
  revert signed n st. induction tries as [|tries IH]; intros signed n st Hv Hsigned; cbn [local_retries].
  { intros [= _ <- <-] _. split_and!; [done|apply evolves_refl|done]. }
  destruct (try_local_effects _ _ _ _ _ _ _ _ _ _ _) as [[[n1 st1] signed1] r1] eqn:Htry. intros Hrun Huni.
  assert (∀ op meta, r1 = Ok (op, meta) → universe op) as Huni1.
  { intros op meta ->. injection Hrun as _ _ <-. by eapply Huni. }
  destruct (try_local_ok _ _ _ _ _ _ _ _ _ _ _ _ Hv Hsigned Htry Huni1) as (Hv1 & Hev1 & Hs1 & Hok).
  destruct r1 as [[op meta]|e]; [by injection Hrun as _ <- <-|].
  destruct (is_admission_race e); [|by injection Hrun as _ <- <-].
  destruct (IH _ _ _ Hv1 Hs1 Hrun Huni) as (Hv2 & Hev2 & Hcr).
  split_and!; [done|by eapply (evolves_trans universe st st1)|].
  intros op meta Hr. by eapply (created_later st st1), Hcr.
Qed.

(** C3: local creation is safe under concurrency. Whatever harmless writers
    do between any two accesses of a creation, it leaves a valid store that evolved
    from the one it met. When it succeeds, the operation validates, carries the payload
    for the topic and the signer's name, was added alone, without losing anything, to
    the store it was committed to, and is the only head of its topic there. *)
Theorem creation_safe turn t a pl signer effects n inner n' inner' r :
  valid inner →
  create_local_effects quota fuel others turn t a pl signer effects n inner = (n', inner', r) →
  (∀ op meta, r = Ok (op, meta) → universe op) →
  valid inner' ∧ evolves inner inner' ∧
  ∀ op meta, r = Ok (op, meta) → created inner inner' t pl signer op meta.
Proof.
  unfold create_local_effects. intros Hv Hrun Huni. destruct turn as [u|e].
  - eapply (local_retries_ok MAX_ADMISSION_RETRIES t a pl signer None); [done|done|exact Hrun|done].
  - injection Hrun as _ <- <-. split_and!; [done|apply evolves_refl|done].
Qed.
End creation_inv.
