(* ===== verification/CreationPair.v ===== *)
(** * A genesis with its first event

    [create_genesis_effects] commits a topic's genesis and its first event as one
    batch: both are stored or neither, and the topic is new. *)

From stdpp Require Import relations.
From S2P Require Import Prelude Ids Frame ClockSpec Types Membership Topology.
From S2P Require Import Evidence Records Pool Store StoreLog StoreAdmit StoreOps StoreReset.
From S2P Require Import StoreEvidence StoreRun StoreReads.
From S2P Require Import Admission Dag Projection Building Commit Genesis Oplog Evolve OplogInv Creation.
From S2P Require Import CreationInv.

#[local] Open Scope N_scope.

Lemma try_fold_ext {E A S} (f g : S → A → result E S) s l :
  (∀ s a, a ∈ l → f s a = g s a) → try_fold f s l = try_fold g s l.
Proof.
  revert s. induction l as [|a l IH]; intros s Hfg; [done|]. simpl. rewrite Hfg; [by left|].
  destruct (g s a); [|done]. apply IH. intros s' b Hb. apply Hfg. by right.
Qed.

Section pair.
Context {C : Type} `{!ClockImpl C} `{!StoreEnv C} `{!Crypto} `{!OplogEnv}.
Context (universe : Op → Prop) (Hcf : collision_free universe).
Context (quota : option StagingQuota) (fuel : nat) (others : nat → MemoryInner C → MemoryInner C).
Context (Hothers : ∀ n, harmless universe (others n)).
Implicit Types (inner st x : MemoryInner C) (t : TopicId) (op ev : Op) (E : history (C := C)).

Abbreviation hist inner t := (entries_of (s_log inner) t).
Abbreviation valid := (valid universe).
Abbreviation reads := (reads universe).

(** Metadata whose dependencies are in the overlay does not depend on the store. *)
Lemma meta_for_overlay x y (metas : gmap OpId (OpMeta C)) op :
  (∀ d, d ∈ deps (obody op) → is_Some (metas !! d)) →
  meta_for_projected x metas op = meta_for_projected y metas op.
Proof.
  intros Hin. unfold meta_for_projected. erewrite try_fold_ext; [done|].
  intros clock d Hd%elem_of_bt_elements. unfold observe_dep, observation_projected.
  by destruct (Hin d Hd) as [m ->].
Qed.

(** ** The two entries *)

Section entries.
Context (x : MemoryInner C) (t : TopicId) (op ev : Op) (gm em : OpMeta C) (g : TopicGenesis).
Context (Hx : valid x) (Hempty : ∀ i, ¬ member (hist x t) i).
Context (Ht : topic_id (obody op) = t) (Hg : payload (obody op) = Genesis g).
Context (Hop : universe op) (Hev : universe ev) (Htev : topic_id (obody ev) = t).
Context (Hdev : deps (obody ev) = {[op_id op]}) (env : EventEnvelope) (Hpev : payload (obody ev) = Event env).

Lemma none_stored o : universe o → topic_id (obody o) = t → l_meta (s_log x) !! op_id o = None.
Proof. intros Ho Hto. by eapply (fresh_elsewhere universe Hcf). Qed.

Lemma same_base : base_for x x t false.
Proof. split; [apply (v_node _ _ Hx)|done|done]. Qed.

(** After the genesis alone. *)
Abbreviation bs1 := (push_admitted (build_start ∅ None ∅) t op gm
  (Some (genesis_state t op g)) true ∅).

Lemma genesis_built : entry_fits x t op gm → building x t [(op, gm)] bs1.
Proof.
  intros (Hfits & Hck & Hmt & Hmm). pose proof (nd_topics _ (v_node _ _ Hx) t) as Hok.
  assert (topic_state_locked x t = None) as Hnone by by apply empty_topic_state.
  assert (default ∅ (s_heads x !! t) = ∅) as Hheads
    by (by rewrite -(topic_ok_heads x t Hok) Hnone).
  destruct (fits_entry _ _ _ _ _ _ Hok Ht Hfits Hck Hmt Hmm) as [Hval Hfree].
  assert (projections_ok (hist x t) ∅) as Hproj by (intros i s; by rewrite lookup_empty).
  pose proof (build_start_ok x x t false [] ∅ same_base Hok Hproj) as Hstart.
  rewrite Hnone Hheads in Hstart. pose proof (sf_building _ _ _ _ _ _ _ _ _ Hstart) as Hb.
  assert (∀ i o m, with_entries (hist x t) [] i o m ↔ hist x t i o m) as Hnil by apply with_entries_nil.
  apply (push_entry_ok x x t false same_base []); [done|by apply none_stored|apply not_elem_of_nil| | | |].
  - eapply entry_valid_grow; [exact Hok| |exact Hval]. intros d _ o m. apply Hnil.
  - intros i s. by rewrite lookup_empty.
  - unfold state_follows. rewrite Hg. done.
  - cbn [build_start bs_tips]. rewrite lookup_empty.
    pose proof (base_tip x x t false same_base (om_actor_id gm)) as Htip.
    destruct (l_actor_tip (s_log x) !! _) as [[s i]|].
    { destruct Htip as [(o & m & He & _) _]. destruct (Hempty i). by exists o, m. }
    pose proof (of_chain _ _ _ Hfits) as (tip & Htip' & Hcont).
    pose proof (proj1 (meta_matches_true _ _) Hmm) as (_ & _ & Ha & Hs & Hp & _).
    unfold continues. rewrite Hs Hp. destruct tip as [[s i]|]; [|done].
    destruct Htip' as [(o & m & He & _) _]. destruct (Hempty i). by exists o, m.
Qed.

(** After the event too. *)
Lemma pair_built y s heads' projections :
  entry_fits x t op gm → op_id ev ≠ op_id op →
  validate_op_projected x (genesis_overlay op gm) ev {[op_id op]}
    (Some (set_heads (genesis_state t op g) heads')) ∅ = Ok (Admit, projections) →
  meta_for_projected y (bo_meta (genesis_overlay op gm)) ev = Ok em →
  s = genesis_state t op g →
  ∃ bs2, building x t [(op, gm); (ev, em)] bs2 ∧ bs_heads bs2 = {[op_id ev]} ∧ bs_state bs2 = Some s.
Proof.
  intros Hentry Hne Hval Hmeta ->. pose proof (genesis_built Hentry) as Hb.
  destruct Hentry as (_ & _ & _ & Hmm).
  pose proof (proj1 (meta_matches_true _ _) Hmm) as (_ & _ & Ha & _).
  assert (overlay_of bs1 false = genesis_overlay op gm) as Hov.
  { unfold overlay_of, genesis_overlay. cbn [push_admitted build_start bs_ops bs_meta bs_tips bs_index].
    by rewrite Ha Ht. }
  assert (bs_heads bs1 = {[op_id op]}) as Hh1.
  { cbn [push_admitted build_start bs_heads]. set_solver. }
  assert (missing_deps_projected x ev (bs_ops bs1) false = ∅) as Hmiss.
  { apply set_eq. intros d. unfold missing_deps_projected. rewrite elem_of_filter Hdev elem_of_singleton.
    split; [|by intros ?%elem_of_empty]. intros [[Hno _] ->].
    cbn [push_admitted build_start bs_ops] in Hno. by rewrite lookup_insert_eq in Hno. }
  change (validate_op_projected x (genesis_overlay op gm) ev {[op_id op]}
    (Some (genesis_state t op g)) ∅ = Ok (Admit, projections)) in Hval.
  assert (meta_for_projected x (bs_meta bs1) ev = Ok em) as Hmeta'.
  { rewrite -Hmeta. apply meta_for_overlay. intros d. rewrite Hdev. intros ->%elem_of_singleton.
    cbn [push_admitted build_start bs_meta]. rewrite lookup_insert_eq. by eexists. }
  exists (push_admitted bs1 t ev em (Some (genesis_state t op g)) false projections).
  assert (op_id ev ∉ (λ e : Op * OpMeta C, op_id e.1) <$> [(op, gm)]) as Hni
    by (by intros ?%list_elem_of_singleton).
  split_and!; [|cbn [push_admitted bs_heads]; rewrite Hdev; set_solver|done].
  apply (push_admitted_ok x x t false same_base [(op, gm)] bs1 ev em projections); try done.
  - by apply none_stored.
  - by rewrite Hov Hh1.
  - unfold next_state. by rewrite Hpev.
Qed.
End entries.
(** ** The commit of the pair *)

Definition pair_batch op gm ev em heads state effs g : AdmittedBatch C :=
  let heads' := heads_after (heads_after heads op) ev in
  {| ab_topic_id := topic_id (obody op); ab_expected_heads := heads; ab_expected_topic_state := state;
     ab_entries := [(op, gm); (ev, em)]; ab_heads := heads';
     ab_topic_state := Some (set_heads (genesis_state (topic_id (obody op)) op g) heads');
     ab_effects := effs |}.

Lemma pair_extends x base t op gm ev em (g : TopicGenesis) effs bs2 :
  valid x → valid base → (∀ i, ¬ member (hist x t) i) → (∀ i, ¬ member (hist base t) i) →
  topic_id (obody op) = t → deps (obody op) = ∅ → universe op → universe ev →
  topic_id (obody ev) = t → deps (obody ev) = {[op_id op]} →
  meta_matches op gm = true → meta_matches ev em = true →
  building x t [(op, gm); (ev, em)] bs2 → bs_heads bs2 = {[op_id ev]} →
  bs_state bs2 = Some (genesis_state t op g) →
  batch_extends base t (pair_batch op gm ev em ∅ None effs g).
Proof.
  intros Hx Hb Hex Heb Ht Hdop Hop Hev Htev Hdev Hmo Hme Hbuild Hheads Hstate.
  pose proof (nd_topics _ (v_node _ _ Hb) t) as Hok.
  assert (topic_state_locked base t = None) as Hnone by by apply empty_topic_state.
  assert (default ∅ (s_heads base !! t) = ∅) as Hh0 by by rewrite -(topic_ok_heads base t Hok) Hnone.
  assert (heads_after (heads_after ∅ op) ev = {[op_id ev]}) as Hh by (unfold heads_after; set_solver).
  assert (∀ o, universe o → topic_id (obody o) = t → l_meta (s_log base) !! op_id o = None) as Hfresh
    by (intros o Ho Hto; by eapply (fresh_elsewhere universe Hcf)).
  pose proof (proj1 (meta_matches_true _ _) Hmo) as (_ & _ & _ & _ & _ & Hdo & _).
  pose proof (proj1 (meta_matches_true _ _) Hme) as (_ & _ & _ & _ & _ & Hde & _).
  split; cbn [pair_batch ab_topic_id ab_expected_heads ab_expected_topic_state ab_entries ab_heads
    ab_topic_state]; try done.
  - split; [apply (bd_ids _ _ _ _ Hbuild)|]. cbn [pair_batch ab_entries ab_topic_id].
    intros [o m] d md He Hd Hmd. simpl in Hd. exfalso.
    apply elem_of_cons in He as [[= -> ->]|[= -> ->]%list_elem_of_singleton].
    + rewrite Hdo Hdop in Hd. by apply elem_of_empty in Hd.
    + rewrite Hde Hdev in Hd. apply elem_of_singleton in Hd as ->. by rewrite (Hfresh op Hop Ht) in Hmd.
  - intros e [->| ->%list_elem_of_singleton]%elem_of_cons; by apply Hfresh.
  - rewrite Hh Ht. apply history_set_heads. pose proof (bd_history _ _ _ _ Hbuild) as HV.
    rewrite Hheads Hstate in HV. eapply history_ok_iff; [|exact HV].
    intros i o m. unfold with_entries. split; (intros [Hi|?]; [exfalso|by right]).
    + apply (Hex i). by exists o, m.
    + apply (Heb i). by exists o, m.
Qed.

(** What a committed pair left. *)
Record pair_stored st st' t op gm ev em : Prop := {
  ps_new : ∀ i, ¬ member (hist st t) i;
  ps_genesis : hist st' t (op_id op) op gm;
  ps_event : hist st' t (op_id ev) ev em;
  ps_heads : s_heads st' !! t = Some {[op_id ev]};
  ps_keeps : keeps_ops st st';
  ps_only : ∀ i o, l_ops (s_log st') !! i = Some o → l_ops (s_log st) !! i = Some o ∨ o = op ∨ o = ev;
}.

Lemma put_pair_ok n st t op gm ev em heads state effs g n' st' r :
  valid st → topic_id (obody op) = t → deps (obody ev) = {[op_id op]} →
  (∀ base, base = others n st → heads = default ∅ (s_heads base !! t) →
    topic_state_locked base t = state → universe op → universe ev →
    (∀ i, ¬ member (hist base t) i) ∧ batch_extends base t (pair_batch op gm ev em ∅ None effs g)) →
  put_admitted_batch quota others (pair_batch op gm ev em heads state effs g) n st = (n', st', r) →
  (r = Ok () → universe op ∧ universe ev) →
  valid st' ∧ evolves st st' ∧ (r = Ok () → pair_stored (others n st) st' t op gm ev em).
Proof.
  intros Hv Ht Hdev Hfits. destruct (Hothers n st Hv) as [Hb Hev]. unfold put_admitted_batch.
  set (base := others n st) in *. destruct (admit_batch_locked base _ quota) as [st1 r1] eqn:Hadmit.
  intros [= _ <- <-] Huni.
  destruct (admitted_or_same universe quota _ _ _ _ Hb Hadmit) as [(e & -> & ->)|[-> [plan Hplan]]]; [by split_and!|].
  destruct (admit_plan_expected _ _ _ _ Hplan) as [Hh Hs].
  cbn [pair_batch ab_expected_heads ab_topic_id ab_expected_topic_state] in Hh, Hs. rewrite Ht in Hh, Hs.
  destruct (Huni eq_refl) as [Huo Hue]. destruct (Hfits base eq_refl Hh (eq_sym Hs) Huo Hue) as [Hempty Hext].
  pose proof (nd_topics _ (v_node _ _ Hb) t) as Hok.
  rewrite (empty_topic_state base t Hok Hempty) in Hs.
  rewrite -(topic_ok_heads base t Hok) (empty_topic_state base t Hok Hempty) in Hh. simpl in Hh. subst heads state.
  assert (∀ e, e ∈ ab_entries (pair_batch op gm ev em ∅ None effs g) → universe e.1) as Hu
    by by intros e [->| ->%list_elem_of_singleton]%elem_of_cons.
  destruct (admitted_evolves universe _ _ _ _ _ _ Hb Hext Hu Hadmit) as (Hv' & Hev' & [Hin Hnew] & Hkeep).
  destruct (admitted_entries _ _ _ _ _ _ (nd_store _ (v_node _ _ Hb)) Hext Hadmit) as (_ & _ & _ & Hheads & _).
  split_and!; [done|by eapply (evolves_trans universe st base)|]. intros _. split; try done.
  - apply Hin. by left.
  - apply Hin. by right; left.
  - rewrite Hheads lookup_insert_eq. f_equal. cbn [pair_batch ab_heads]. unfold heads_after. set_solver.
  - intros i o Ho. destruct (Hnew i o Ho) as [?|[m Hm]]; [by left|right].
    by apply elem_of_cons in Hm as [[= -> ->]|[= -> ->]%list_elem_of_singleton]; [left|right].
Qed.

(** The metadata of the genesis, known when the topic stood still while it was signed. *)
Definition meta_when st st' t op (gm : OpMeta C) : Prop :=
  ∀ E heads state, frozen st st' t E → history_ok E t heads state →
    clock_after E (bt_elements (deps (obody op))) (om_observed_clock gm) ∧
    om_topic_id gm = t ∧ meta_matches op gm = true.

Lemma admit_pair_ok n st1 st t op gm ev heads effects n' st' r g env :
  valid st1 → valid st → evolves st1 st → topic_id (obody op) = t → payload (obody op) = Genesis g →
  topic_id (obody ev) = t → deps (obody ev) = {[op_id op]} → payload (obody ev) = Event env →
  meta_when st1 st t op gm →
  admit_genesis_pair quota fuel others op gm ev heads (topic_state_locked st1 t) effects n st = (n', st', r) →
  (∀ p, r = Ok p → universe p.1.1 ∧ universe p.2.1) →
  valid st' ∧ evolves st st' ∧
  ∀ p, r = Ok p → ∃ em base, p = ((op, gm), (ev, em)) ∧ valid base ∧ evolves st base ∧
    pair_stored base st' t op gm ev em.
Proof.
  intros Hv1 Hv Hev1 Ht Hg Htev Hdev Hpev Hmeta.
  unfold admit_genesis_pair, mbind at 1, action_bind at 1, lift at 1.
  destruct (validate_frame op) as [[]|e]; [|by intros [= _ <- <-] _; split_and!; [|apply evolves_refl|]].
  unfold mbind at 1, action_bind at 1. pose proof (validate_op_reads universe Hcf fuel others Hothers op) as Hval.
  rewrite Ht in Hval.
  destruct (validate_op fuel others op n st) as [[n2 st2] [[]|e]] eqn:H2;
    destruct (Hval _ _ _ _ _ Hv H2) as (Hv2 & Hev2 & HP2); [|by intros [= _ <- <-] _; split_and!].
  unfold mbind at 1, action_bind at 1, lift at 1.
  destruct (validate_frame ev) as [[]|e]; [|by intros [= _ <- <-] _; split_and!].
  cbv zeta. unfold topic_state_after. rewrite Hg.
  unfold mbind at 1, action_bind at 1, lift at 1. unfold mbind at 1, action_bind at 1, lift at 1. cbn [ok_or].
  set (state := set_heads (genesis_state (topic_id (obody op)) op g) (heads_after heads op)).
  change {| ts_topic_id := topic_id (obody op) |} with state.
  unfold mbind at 1, action_bind at 1, read at 1. destruct (Hothers n2 st2 Hv2) as [Hvx Hevx].
  set (x := others n2 st2) in *.
  assert (evolves st x) as Hevsx by by eapply (evolves_trans universe st st2).
  unfold mbind at 1, action_bind at 1, lift at 1.
  destruct (validate_op_projected x _ ev _ _ _) as [[verdict projections]|e] eqn:Hverdict;
    [|by intros [= _ <- <-] _; split_and!].
  unfold mbind at 1, action_bind at 1, lift at 1.
  destruct verdict; [|by intros [= _ <- <-] _; split_and!].
  unfold mbind at 1, action_bind at 1, read at 1. destruct (Hothers (S n2) x Hvx) as [Hvy Hevy].
  set (y := others (S n2) x) in *.
  assert (evolves st y) as Hevsy by by eapply (evolves_trans universe st x).
  unfold mbind at 1, action_bind at 1, lift at 1.
  destruct (meta_for_projected y _ ev) as [em|e] eqn:Hem; [|by intros [= _ <- <-] _; split_and!].
  unfold mbind at 1, action_bind at 1, lift at 1.
  destruct (effects op gm state) as [effs|e]; [|by intros [= _ <- <-] _; split_and!].
  unfold mbind at 1, action_bind at 1, lift at 1.
  destruct (effects ev em _) as [more|e]; [|by intros [= _ <- <-] _; split_and!].
  unfold mbind at 1, action_bind at 1.
  change {| ab_topic_id := topic_id (obody op) |} with
    (pair_batch op gm ev em heads (topic_state_locked st1 t) (effs ++ more) g).
  destruct (put_admitted_batch _ _ _ _ y) as [[n4 st4] r4] eqn:Hput. intros Hr Huni.
  assert (∀ base, base = others (S (S n2)) y → heads = default ∅ (s_heads base !! t) →
    topic_state_locked base t = topic_state_locked st1 t →
    universe op → universe ev → (∀ i, ¬ member (hist base t) i) ∧
    batch_extends base t (pair_batch op gm ev em ∅ None (effs ++ more) g)) as Hfits.
  { intros base -> Hheads Hst Huo Hue. destruct (Hothers (S (S n2)) y Hvy) as [Hb Hevb].
    set (base := others (S (S n2)) y) in *.
    assert (evolves st base) as Hsb by by eapply (evolves_trans universe st y).
    assert (evolves x base) as Hxb by by eapply (evolves_trans universe x y).
    pose proof (expectations_freeze universe st1 base t Hv1 Hb
      ltac:(by eapply (evolves_trans universe st1 st)) Hst) as Hfr.
    assert (same_history st t (hist base t)) as Hs0 by by eapply (squeeze universe st1 st base).
    assert (same_history x t (hist base t)) as Hsx by by eapply (squeeze universe st x base).
    assert (same_history st2 t (hist base t)) as Hs2 by by eapply (squeeze universe st st2 x).
    pose proof (nd_topics _ (v_node _ _ Hb) t) as Hok.
    pose proof (HP2 () (hist base t) eq_refl (conj Hs0 Hs2) _ _ Hok) as Hof.
    pose proof (of_payload _ _ _ Hof) as Hpay. rewrite Hg in Hpay. destruct Hpay as [Hdop Hempty].
    assert (∀ i, ¬ member (hist x t) i) as Hex.
    { intros i (o & m & Hi). apply (Hempty i). exists o, m. by apply Hsx. }
    destruct (Hmeta (hist base t) _ _ (conj (proj1 Hfr) Hs0) Hok) as (Hck & Hmt & Hmm).
    assert (entry_fits x t op gm) as Hentry.
    { assert (history_ok (hist x t) t (default ∅ (s_heads base !! t)) (topic_state_locked base t)) as Hokx
        by (eapply history_ok_iff; [|exact Hok]; intros i o m; symmetry; apply Hsx).
      split; [|split_and!; [|done..]].
      - assert (same_history st t (hist x t)) as Hs0' by (intros i o m; rewrite Hs0; symmetry; apply Hsx).
        assert (same_history st2 t (hist x t)) as Hs2' by (intros i o m; rewrite Hs2; symmetry; apply Hsx).
        exact (HP2 () (hist x t) eq_refl (conj Hs0' Hs2') _ _ Hokx).
      - rewrite Hdop in Hck |- *. destruct Hck as [_ Hck]. split; [by intros d ?%elem_of_nil|].
        intros a s Hs1. rewrite (Hck a s Hs1). split; by intros (d & ?%elem_of_nil & _). }
    split; [done|].
    assert (op_id ev ≠ op_id op) as Hne.
    { intros Heq. assert (ev = op) as -> by by apply Hcf. congruence. }
    rewrite -(topic_ok_heads base t Hok) (empty_topic_state base t Hok Hempty) in Hheads. simpl in Hheads.
    assert (heads_after heads op = {[op_id op]}) as Hafter by (rewrite Hheads; unfold heads_after; set_solver).
    unfold state in Hverdict. rewrite Hafter Ht in Hverdict.
    destruct (pair_built x t op ev gm em g Hvx Hex Ht Hg Huo Hue Htev Hdev env Hpev y _ _ _ Hentry Hne Hverdict Hem
      eq_refl) as (bs2 & Hbuild & Hbh & Hbs).
    assert (meta_matches ev em = true) as Hmev.
    { revert Hem. unfold meta_for_projected. intros (clock & _ & [= <-])%bind_ok. by apply meta_matches_true. }
    by eapply (pair_extends x base t). }
  assert (r4 = Ok () → universe op ∧ universe ev) as Huni4.
  { intros ->. injection Hr as _ _ <-. exact (Huni _ eq_refl). }
  destruct (put_pair_ok _ _ _ _ _ _ _ _ _ _ _ _ _ _ Hvy Ht Hdev Hfits Hput Huni4) as (Hv4 & Hev4 & Hok).
  assert (evolves st st4) as Hev04 by by eapply (evolves_trans universe st y).
  destruct r4 as [[]|e]; injection Hr as _ <- <-; split_and!; try done.
  intros p [= <-]. exists em, (others (S (S n2)) y). destruct (Hothers (S (S n2)) y Hvy) as [Hb Hevb].
  split_and!; [done|done|by eapply (evolves_trans universe st y)|by apply Hok].
Qed.

(** ** Signing the pair *)

Lemma sign_pair_ok t a g env signer signed n st n' st' op gm ev heads state :
  valid st → (∀ p, signed = Some p → made_by signer t (Genesis g) p.1 ∧ made_by signer t (Event env) p.2) →
  sign_genesis_pair others t a g env signer signed n st = (n', st', Ok (op, gm, ev, heads, state)) →
  ∃ st1, valid st1 ∧ evolves st st1 ∧ evolves st1 st' ∧ state = topic_state_locked st1 t ∧
    made_by signer t (Genesis g) op ∧ made_by signer t (Event env) ev ∧
    deps (obody ev) = {[op_id op]} ∧ meta_when st1 st' t op gm.
Proof.
  intros Hv Hsigned (n1 & st0 & h & Hh & Hr)%action_bind_ok. injection Hh as <- <- <-.
  destruct (Hothers n st Hv) as [Hv0 Hev0]. apply action_bind_ok in Hr as (n2 & st1 & s & Hs & Hr).
  injection Hs as <- <- <-. destruct (Hothers (S n) _ Hv0) as [Hv1 Hev1]. set (st1 := others (S n) _) in *.
  apply action_bind_ok in Hr as (n3 & st3 & op' & Hop & Hr).
  destruct (reads_valid _ _ _ _ _ _ _ _ _ (next_local_reads universe others Hothers t a _ _ signer _) Hv1 Hop)
    as [Hv3 Hev3].
  destruct (next_local_op_ok universe Hcf others Hothers _ _ _ _ _ _ _ _ _ _ _ Hop) as (Hmade & _ & _).
  { intros o Ho. apply fmap_Some in Ho as (p & Hp & ->). by apply Hsigned. }
  apply action_bind_ok in Hr as (n4 & st4 & gm' & Hgm & Hr).
  pose proof (meta_for_reads universe others Hothers op') as Hreads. rewrite (proj1 Hmade) in Hreads.
  destruct (Hreads _ _ _ _ _ Hv3 Hgm) as (Hv4 & Hev4 & HP4).
  apply action_bind_ok in Hr as (n5 & st5 & b & Hb & Hr). injection Hb as <- <- Hb.
  apply action_bind_ok in Hr as (n6 & st6 & ev' & Hev & Hr).
  injection Hr as _ <- <- <- <- <- <-. exists st1.
  assert (st6 = st4 ∧ obody ev' = b ∧ op_validate ev' = Ok ()) as (-> & Hbody & Hval).
  { destruct (match signed with Some (_, e) => if decide (obody e = b) then Some e else None | None => None end)
      as [e|] eqn:Hm.
    - injection Hev as _ <- <-. destruct signed as [[o e']|]; [|done]. case_decide as Hd; [|done].
      injection Hm as <-. split_and!; [done..|]. by apply (Hsigned (o, e')).
    - apply action_bind_ok in Hev as (n7 & st7 & e & Hs & Hev). injection Hs as _ <- Hs.
      apply action_bind_ok in Hev as (n8 & st8 & u & Hv8 & Hev). injection Hv8 as _ <- Hv8. injection Hev as _ <- <-.
      destruct u. split_and!; [done|by eapply op_sign_body|done]. }
  revert Hb. unfold event_body. intros (seq & _ & Hb)%bind_ok. apply bind_ok in Hb as (gen & _ & [= <-]).
  split_and!; [done|by eapply (evolves_trans universe st (others n st))|
    by eapply (evolves_trans universe st1 st3)|done|done| |by rewrite Hbody|].
  - unfold made_by. rewrite Hbody. cbn [topic_id payload author]. split_and!; [apply Hmade|done..].
  - intros E heads state Hfr Hok. apply (HP4 gm' E eq_refl) with (heads := heads) (state := state); [|done].
    split; [by eapply (squeeze universe st1 st3 st4)|apply Hfr].
Qed.

Lemma sign_pair_reads t a g env signer signed :
  reads t (sign_genesis_pair others t a g env signer signed) (λ _ _, True).
Proof.
  unfold sign_genesis_pair. apply (reads_bind_read universe others Hothers). intros x _.
  apply (reads_bind_read universe others Hothers). intros y _.
  eapply reads_bind; [apply (next_local_reads universe others Hothers)|]. intros op.
  eapply (reads_bind _ _ _ _ (λ _ _, True)).
  { unfold meta_for. eapply (reads_bind _ _ _ _ (λ _ _, True)).
    - eapply reads_weaken; [apply (reads_fold universe _ _ _ (λ _ _ _, True))|done]. intros pre d rest clock _.
      apply (reads_bind_read universe others Hothers). intros z _. apply reads_bind_lift. intros [hd ck] _.
      destruct (negb _); [by apply reads_lift|by apply reads_ret].
    - intros clock. by apply reads_ret. }
  intros gm. apply reads_bind_lift. intros b _. eapply (reads_bind _ _ _ _ (λ _ _, True)).
  { destruct (match signed with Some (_, e) => if decide (obody e = b) then Some e else None | None => None end);
      [by apply reads_ret|].
    apply reads_bind_lift. intros e _. apply reads_bind_lift. intros [] _. by apply reads_ret. }
  intros ev. by apply reads_ret.
Qed.

(** The result of a creation with an event. *)
Definition created_pair inner inner' t g env (signer : Signer)
    (p : (Op * OpMeta C) * (Op * OpMeta C)) : Prop :=
  made_by signer t (Genesis g) p.1.1 ∧ made_by signer t (Event env) p.2.1 ∧
  ∃ base, valid base ∧ evolves inner base ∧ pair_stored base inner' t p.1.1 p.1.2 p.2.1 p.2.2.

Lemma try_genesis_ok t a g env signer signed effects n st n' st' signed' r :
  valid st → (∀ p, signed = Some p → made_by signer t (Genesis g) p.1 ∧ made_by signer t (Event env) p.2) →
  try_genesis_effects quota fuel others t a g env signer signed effects n st = (n', st', signed', r) →
  (∀ p, r = Ok p → universe p.1.1 ∧ universe p.2.1) →
  valid st' ∧ evolves st st' ∧
  (∀ p, signed' = Some p → made_by signer t (Genesis g) p.1 ∧ made_by signer t (Event env) p.2) ∧
  ∀ p, r = Ok p → created_pair st st' t g env signer p.
Proof.
  intros Hv Hsigned. unfold try_genesis_effects.
  destruct (sign_genesis_pair others t a g env signer signed n st)
    as [[n1 st2] [[[[[op gm] ev] heads] state]|e]] eqn:H1;
    destruct (reads_valid _ _ _ _ _ _ _ _ _ (sign_pair_reads t a g env signer signed) Hv H1) as [Hv2 Hev2];
    [|by intros [= _ <- <- <-] _; split_and!].
  destruct (sign_pair_ok _ _ _ _ _ _ _ _ _ _ _ _ _ _ _ Hv Hsigned H1)
    as (st1 & Hv1 & Hev1 & Hev12 & -> & Hop & Hev & Hdev & Hmeta).
  destruct (admit_genesis_pair quota fuel others op gm ev heads _ effects n1 st2) as [[n3 st3] r3] eqn:H3.
  intros Hr Huni. pose proof Hop as (Ht & Hg & _ & _). pose proof Hev as (Htev & Hpev & _ & _).
  assert (∀ p, r3 = Ok p → universe p.1.1 ∧ universe p.2.1) as Huni3.
  { intros p ->. injection Hr as _ _ _ <-. by apply Huni. }
  destruct (admit_pair_ok _ _ _ _ _ _ _ _ _ _ _ _ _ _ Hv1 Hv2 Hev12 Ht Hg Htev Hdev Hpev Hmeta H3 Huni3)
    as (Hv3 & Hev3 & Hok).
  assert (evolves st st3) as Hev03 by by eapply (evolves_trans universe st st2).
  destruct r3 as [p|e]; injection Hr as _ <- <- <-; split_and!; try done.
  - intros p' [= <-]. destruct (Hok p eq_refl) as (em & base & -> & Hb & Hevb & Hst).
    split_and!; [done..|]. exists base. split_and!; [done|by eapply (evolves_trans universe st st2)|done].
  - by intros p' [= <-].
Qed.

Lemma genesis_retries_ok tries t a g env signer signed effects n st n' st' r :
  valid st → (∀ p, signed = Some p → made_by signer t (Genesis g) p.1 ∧ made_by signer t (Event env) p.2) →
  genesis_retries quota fuel others tries t a g env signer signed effects n st = (n', st', r) →
  (∀ p, r = Ok p → universe p.1.1 ∧ universe p.2.1) →
  valid st' ∧ evolves st st' ∧ ∀ p, r = Ok p → created_pair st st' t g env signer p.
Proof.
  revert signed n st. induction tries as [|tries IH]; intros signed n st Hv Hsigned; cbn [genesis_retries].
  { intros [= _ <- <-] _. split_and!; [done|apply evolves_refl|done]. }
  destruct (try_genesis_effects _ _ _ _ _ _ _ _ _ _ _ _) as [[[n1 st1] signed1] r1] eqn:Htry. intros Hrun Huni.
  assert (∀ p, r1 = Ok p → universe p.1.1 ∧ universe p.2.1) as Huni1.
  { intros p ->. injection Hrun as _ _ <-. by apply Huni. }
  destruct (try_genesis_ok _ _ _ _ _ _ _ _ _ _ _ _ _ Hv Hsigned Htry Huni1) as (Hv1 & Hev1 & Hs1 & Hok).
  destruct r1 as [p|e]; [by injection Hrun as _ <- <-|].
  destruct (is_admission_race e); [|by injection Hrun as _ <- <-].
  destruct (IH _ _ _ Hv1 Hs1 Hrun Huni) as (Hv2 & Hev2 & Hcr).
  split_and!; [done|by eapply (evolves_trans universe st st1)|].
  intros p Hp. destruct (Hcr p Hp) as (Hg & He & base & Hb & Hevb & Hst). split_and!; [done..|].
  exists base. split_and!; [done|by eapply (evolves_trans universe st st1)|done].
Qed.

End pair.
