(* ===== verification/CreationEnds.v ===== *)
(** * Local creation succeeds

    Nobody else writes, memory suffices and the signer may write: then the first
    attempt of a creation succeeds. The operation it makes is the one of [local_body],
    and what [next_local_op] puts into it passes the checks of [validate_op] and of the
    store. *)

From stdpp Require Import relations.
From S2P Require Import Prelude Ids Frame ClockSpec Types Membership Topology.
From S2P Require Import Evidence Records Pool Store StoreLog StoreAdmit StoreOps StoreReset.
From S2P Require Import StoreEvidence StoreRun StoreReads.
From S2P Require Import Admission Dag Projection Building Commit Genesis Oplog Evolve OplogInv Creation.
From S2P Require Import CreationInv.

#[local] Open Scope N_scope.

Section creation_ends.
Context {C : Type} `{!ClockImpl C} `{!StoreEnv C} `{!Crypto} `{!OplogEnv}.
Context (universe : Op → Prop) (Hcf : collision_free universe).
Context (fuel : nat) (others : nat → MemoryInner C → MemoryInner C).
Context (Hquiet : ∀ n st, others n st = st).
Implicit Types (inner st : MemoryInner C) (t : TopicId) (op : Op) (E : history (C := C)).

Abbreviation hist inner t := (entries_of (s_log inner) t).
Abbreviation valid := (valid universe).

(** ** Runs that only read *)

Definition runs {A} (m : action C A) st (r : res A) : Prop := ∀ n, ∃ n', m n st = (n', st, r).

Lemma runs_lift {A} (r : res A) st : runs (lift r) st r.
Proof. intros n. by exists n. Qed.
Lemma runs_ret {A} (a : A) st : runs (mret a) st (Ok a).
Proof. intros n. by exists n. Qed.
Lemma runs_read {A} (f : MemoryInner C → A) st : runs (read others f) st (Ok (f st)).
Proof. intros n. exists (S n). unfold read. by rewrite Hquiet. Qed.
Lemma runs_bind {A B} (m : action C A) (f : A → action C B) st a r :
  runs m st (Ok a) → runs (f a) st r → runs (mbind f m) st r.
Proof.
  intros Hm Hf n. destruct (Hm n) as [n1 H1]. destruct (Hf n1) as [n2 H2]. exists n2.
  unfold mbind, action_bind. by rewrite H1.
Qed.
Lemma runs_bind_read {A B} (g : MemoryInner C → A) (f : A → action C B) st r :
  runs (f (g st)) st r → runs (mbind f (read others g)) st r.
Proof. apply runs_bind, runs_read. Qed.
Lemma runs_bind_lift {A B} (r' : res A) (f : A → action C B) st a r :
  r' = Ok a → runs (f a) st r → runs (mbind f (lift r')) st r.
Proof. intros ->. apply runs_bind, runs_lift. Qed.
Lemma runs_fold {A S} (f : S → A → action C S) (g : S → A → res S) st l s :
  (∀ s a, runs (f s a) st (g s a)) → runs (action_fold f s l) st (try_fold g s l).
Proof.
  intros Hfg. revert s. induction l as [|a l IH]; intros s; cbn [action_fold try_fold]; [apply runs_ret|].
  intros n. destruct (Hfg s a n) as [n1 H1]. unfold mbind, action_bind. rewrite H1.
  destruct (g s a) as [s1|e]; [apply IH|]. by exists n1.
Qed.

(** ** What may be created *)

(** The body [next_local_op] gives the operation. *)
Definition local_body st t a (pl : TopicPayload) (signer : Signer) : OpBody :=
  let tip := l_actor_tip (s_log st) !! (t, a) in
  let ds := match tip with Some (_, p) => {[p]} ∪ heads st t | None => heads st t end in
  {| topic_id := t; author := signer_peer_id signer; actor_id := a;
     actor_seq := match tip with Some (s, _) => s + 1 | None => 1 end;
     actor_prev := snd <$> tip; deps := ds;
     generation := if decide (ds = ∅) then 0 else max_generation st t + 1; payload := pl |}.

(** The signer may write [pl] to the topic. *)
Record may_create st t a (pl : TopicPayload) (signer : Signer) : Prop := {
  my_actor : a = actor_id_for t (signer_peer_id signer);
  my_seq : ∀ s i, l_actor_tip (s_log st) !! (t, a) = Some (s, i) → s + 1 ≤ u64_max;
  my_generation : max_generation st t + 1 ≤ u64_max;
  my_payload : match pl with
    | Genesis g => topic_state_locked st t = None ∧ str_len (event_type_id g) ≤ MAX_TYPE_BYTES
    | _ => ∃ s, topic_state_locked st t = Some s ∧ signer_peer_id signer ∈ ts_members s ∧
        (∀ env, pl = Event env → type_id env = ts_event_type_id s) ∧
        (is_Some (l_actor_tip (s_log st) !! (t, a)) ∨ actor_count st t < MAX_TOPIC_ACTORS)
    end;
}.

Section one.
Context (st : MemoryInner C) (t : TopicId) (a : ActorId) (pl : TopicPayload) (signer : Signer).
Context (Hv : valid st) (Hmay : may_create st t a pl signer).

Abbreviation E := (hist st t).
Abbreviation tip := (l_actor_tip (s_log st) !! (t, a)).
Abbreviation b := (local_body st t a pl signer).

Lemma history_here : history_ok E t (heads st t) (topic_state_locked st t).
Proof. apply (nd_topics _ (v_node _ _ Hv) t). Qed.

Lemma tip_here : is_tip E a tip.
Proof. by apply (read_tip universe). Qed.

Lemma heads_in_deps : heads st t ⊆ deps b.
Proof. cbn [local_body deps]. destruct tip as [[s i]|]; set_solver. Qed.

(** Every dependency is stored. *)
Lemma deps_here d : d ∈ deps b → member E d.
Proof.
  pose proof tip_here as Htip. cbn [local_body deps]. destruct tip as [[s i]|].
  - intros [->%elem_of_singleton|Hd]%elem_of_union.
    + destruct Htip as [(o & m & He & _) _]. by exists o, m.
    + by apply (h_heads _ _ _ _ history_here).
  - intros Hd. by apply (h_heads _ _ _ _ history_here).
Qed.

(** The generation is right: the greatest generation is that of a head. *)
Lemma max_generation_head i o m :
  E i o m → ∃ h oh mh, h ∈ heads st t ∧ E h oh mh ∧ om_generation mh = max_generation st t.
Proof.
  intros He. pose proof (so_log _ (nd_store _ (v_node _ _ Hv))) as Hlog. pose proof history_here as Hok.
  assert (∀ j oj mj, E j oj mj → om_generation mj ≤ max_generation st t) as Hle.
  { intros j oj mj (_ & Hm & Ht). pose proof (lo_generation _ Hlog j mj Hm) as Hg. by rewrite Ht in Hg. }
  assert (∃ j oj mj, E j oj mj ∧ om_generation mj = max_generation st t) as (j & oj & mj & Hj & Hg).
  { unfold max_generation in *. destruct (l_max_generation (s_log st) !! t) as [g|] eqn:Hmax; simpl in *.
    - destruct (lo_generation_tight _ Hlog t g Hmax) as (j & mj & Hmj & Ht & Hg).
      destruct (read_meta universe st t E j mj Hv) as [oj Hj]; [done..|]. by exists j, oj, mj.
    - exists i, o, m. split; [done|]. specialize (Hle i o m He). lia. }
  destruct (heads_cover _ _ _ _ Hok j) as (h & Hh & Hr); [by exists oj, mj|].
  destruct (h_heads _ _ _ _ Hok h Hh) as [(oh & mh & Heh) _]. exists h, oh, mh. split_and!; [done..|].
  apply rtc_inv in Hr as [->|(k & Hd & Hr)].
  - by destruct (h_fun _ _ _ _ Hok _ _ _ _ _ Heh Hj) as [-> ->].
  - exfalso. specialize (Hle _ _ _ Heh).
    assert (∀ x y, rtc (depends E) x y → ∀ ox mx oy my, E x ox mx → E y oy my →
      om_generation my ≤ om_generation mx) as Hmono.
    { intros x y Hxy. induction Hxy as [x|x y z Hxy _ IH]; intros ox mx oz mz Hx Hz.
      - destruct (h_fun _ _ _ _ Hok _ _ _ _ _ Hx Hz) as [-> ->]. lia.
      - destruct (depends_member _ _ _ _ Hok _ _ Hxy) as [_ (oy & my & Hy)].
        pose proof (depends_generation _ _ _ _ Hok _ _ _ _ _ _ Hxy Hx Hy).
        specialize (IH _ _ _ _ Hy Hz). lia. }
    destruct (depends_member _ _ _ _ Hok _ _ Hd) as [_ (ok & mk & Hk)].
    pose proof (depends_generation _ _ _ _ Hok _ _ _ _ _ _ Hd Heh Hk).
    pose proof (Hmono _ _ Hr _ _ _ _ Hk Hj). lia.
Qed.

Lemma generation_here : generation_after E (bt_elements (deps b)) (generation b).
Proof.
  pose proof history_here as Hok. pose proof (so_log _ (nd_store _ (v_node _ _ Hv))) as Hlog.
  destruct (decide (deps b = ∅)) as [Hnil|Hne].
  - assert (generation b = 0) as -> by (cbn [local_body generation] in *; by rewrite decide_True).
    rewrite Hnil. apply generation_after_nil.
  - assert (generation b = max_generation st t + 1) as -> by (cbn [local_body generation] in *; by rewrite decide_False).
    split_and!.
    + intros d o m _ (_ & Hm & Ht). pose proof (lo_generation _ Hlog d m Hm) as Hg. rewrite Ht in Hg.
      unfold max_generation. lia.
    + intros Hnil. destruct Hne. apply set_eq. intros d. rewrite -elem_of_bt_elements Hnil elem_of_nil. set_solver.
    + intros _. apply set_choose_L in Hne as [d Hd]. destruct (deps_here d Hd) as (o & m & He).
      destruct (max_generation_head d o m He) as (h & oh & mh & Hh & Heh & Hg). exists h, oh, mh.
      split_and!; [apply elem_of_bt_elements; by apply heads_in_deps|done|by rewrite Hg].
Qed.

Lemma generation_after_unique E' (l : list OpId) g1 g2 :
  generation_after E' l g1 → generation_after E' l g2 → g1 = g2.
Proof.
  intros (Hb1 & Hn1 & Ht1) (Hb2 & Hn2 & Ht2). destruct (decide (l = [])) as [Hnil|Hne].
  { by rewrite Hn1 // Hn2. }
  destruct (Ht1 Hne) as (d1 & o1 & m1 & Hd1 & He1 & ->), (Ht2 Hne) as (d2 & o2 & m2 & Hd2 & He2 & ->).
  specialize (Hb1 _ _ _ Hd2 He2). specialize (Hb2 _ _ _ Hd1 He1). lia.
Qed.
(** ** The attempt up to the checks *)

Lemma prepare_runs : runs (prepare_local others t a pl signer) st (Ok (heads st t, topic_state_locked st t)).
Proof.
  unfold prepare_local. eapply runs_bind; [|by do 2 apply runs_bind_read; apply runs_ret].
  assert (∀ s, topic_state_locked st t = Some s → signer_peer_id signer ∈ ts_members s →
    is_Some tip ∨ actor_count st t < MAX_TOPIC_ACTORS →
    runs (_ ← ensure_member others t (signer_peer_id signer);
      tip ← read others (λ st, l_actor_tip (s_log st) !! (t, a));
      if bool_decide (is_Some tip) then mret ()
      else count ← read others (λ st, actor_count st t);
           lift (refuse_if (MAX_TOPIC_ACTORS <=? count) TopicFull)) st (Ok ())) as Hcheck.
  { intros s Hs Hin Hroom. eapply runs_bind.
    { unfold ensure_member. apply runs_bind_read. eapply runs_bind_lift; [by rewrite Hs|].
      rewrite bool_decide_false; [by intros ?|]. apply runs_lift. }
    apply runs_bind_read. case_bool_decide as Htip; [apply runs_ret|].
    apply runs_bind_read. destruct (N.leb_spec MAX_TOPIC_ACTORS (actor_count st t)); [|apply runs_lift].
    destruct Hroom; [done|lia]. }
  pose proof (my_payload _ _ _ _ _ Hmay) as Hpay.
  destruct pl; [apply runs_ret|destruct Hpay as (s & Hs & Hin & _ & Hroom); by eapply Hcheck..].
Qed.

Lemma next_local_runs op :
  op_sign b signer = Ok op → op_validate op = Ok () →
  runs (next_local_op others t a (heads st t) pl signer None) st (Ok op).
Proof.
  intros Hsign Hval. unfold next_local_op. apply runs_bind_read.
  apply (runs_bind_lift _ _ _ (match tip with Some (s, _) => s + 1 | None => 1 end, snd <$> tip)).
  { destruct tip as [[s i]|] eqn:Htip; [|done].
    by rewrite (proj2 (checked_add_Some s 1 (s + 1)) (conj eq_refl (my_seq _ _ _ _ _ Hmay s i Htip))). }
  assert (match snd <$> tip with Some p => {[p]} ∪ heads st t | None => heads st t end = deps b) as ->.
  { cbn [local_body deps]. by destruct tip as [[s i]|]. }
  apply (runs_bind _ _ _ (generation b)).
  { case_decide as Hd.
    - assert (generation b = 0) as -> by (cbn [local_body generation deps] in *; by rewrite decide_True). apply runs_ret.
    - assert (generation b = max_generation st t + 1) as ->
        by (cbn [local_body generation deps] in *; by rewrite decide_False).
      apply runs_bind_read. rewrite (proj2 (checked_add_Some _ 1 _) (conj eq_refl (my_generation _ _ _ _ _ Hmay))).
      apply runs_lift. }
  cbv zeta. eapply runs_bind_lift; [exact Hsign|]. eapply runs_bind_lift; [exact Hval|]. apply runs_ret.
Qed.
(** ** The checks *)

(** The walk finds everything: it pops at most the frontier and the stored edges. *)
Lemma deps_walk_runs k ds stack R :
  walked E ds stack R → (∀ i, behind E ds i → member E i) →
  (length stack + edge_count (unseen (l_meta (s_log st)) (dom R)) ≤ k)%nat →
  ∃ R', runs (deps_walk others k t stack R) st (Ok R') ∧ walked E ds [] R'.
Proof.
  revert stack R. induction k as [|k IH]; intros [|i stack] R Hw Hmem Hk; cbn [deps_walk length] in *;
    try (exists R; split; [apply runs_ret|done]); [lia|].
  case_bool_decide as Hi.
  - destruct Hi as [o Hi]. apply IH; [by eapply walked_pop|done|lia].
  - destruct (Hmem i) as (o & m & He); [apply (wk_stack _ _ _ _ Hw); by left|].
    pose proof He as (Ho & Hm & Ht).
    destruct (h_entry _ _ _ _ history_here _ _ _ He) as [_ Hv'].
    pose proof (proj1 (meta_matches_true _ _) (ev_matches _ _ _ _ Hv')) as (_&_&_&_&_&Hdeps&_).
    destruct (IH (rev (bt_elements (deps (obody o))) ++ stack) (<[i := o]> R)) as (R' & Hrun & Hw'); [|done| |].
    + eapply walked_push; [apply history_here|done..].
    + rewrite dom_insert_L unseen_insert length_app length_rev bt_elements_length -Hdeps.
      assert (unseen (l_meta (s_log st)) (dom R) !! i = Some m) as Hu.
      { apply map_lookup_filter_Some. split; [done|]. simpl. by rewrite elem_of_dom. }
      pose proof (edge_count_delete _ _ _ Hu). lia.
    + exists R'. split; [|done]. apply runs_bind_read. eapply runs_bind_lift; [by rewrite Ho|].
      rewrite (bool_decide_true _ (ev_topic _ _ _ _ Hv')). exact Hrun.
Qed.

(** The state at the dependencies is there, and is the one of the topic. *)
Lemma state_for_deps_runs s :
  topic_state_locked st t = Some s → (size (deps b) + edge_count (l_meta (s_log st)) ≤ fuel)%nat →
  ∃ s', runs (state_for_deps fuel others t (deps b)) st (Ok s') ∧ ts_members s' = ts_members s.
Proof.
  intros Hs Hfuel. pose proof history_here as Hok. rewrite Hs in Hok.
  assert (∀ i, behind E (deps b) i → member E i) as Hmem.
  { intros i (d & Hd & Hr). destruct (rtc_inv_r _ _ Hr) as [<-|(y & _ & Hy)]; [by apply deps_here|].
    by apply (depends_member _ _ _ _ Hok) in Hy as [_ ?]. }
  destruct (deps_walk_runs fuel (deps b) (rev (bt_elements (deps b))) ∅) as (R & Hrun & Hw); [|done| |].
  { split; [by intros i o; rewrite lookup_empty| | |by intros i o d; rewrite lookup_empty].
    - intros i Hi. apply behind_here. by rewrite list_elem_of_In -in_rev -list_elem_of_In elem_of_bt_elements in Hi.
    - intros d Hd. left. by rewrite list_elem_of_In -in_rev -list_elem_of_In elem_of_bt_elements. }
  { rewrite length_rev bt_elements_length dom_empty_L.
    assert (unseen (l_meta (s_log st)) ∅ = l_meta (s_log st)) as ->; [|done]. apply map_filter_id. set_solver. }
  pose proof (walked_causal _ _ _ _ _ _ Hok Hw) as Hcausal. set (ops := snd <$> bt_entries R) in *.
  assert (state_at E (deps b) s) as (ops' & Hcausal' & gop & g & Hin & Hpl & Hspec).
  { apply (covered_state _ _ _ _ Hok); [done| |apply deps_here|].
    - destruct (heads_state _ _ _ _ Hok s eq_refl) as (l & Hl & gop & g & Hin & _).
      apply Hl in Hin as (m & _ & d & Hd & _). intros Hnil. apply heads_in_deps in Hd. rewrite Hnil in Hd. set_solver.
    - intros _ i o m _ He _ _. destruct (heads_cover _ _ _ _ Hok i) as (h & Hh & Hr); [by exists o, m|].
      exists h. split; [by apply heads_in_deps|done]. }
  assert (∀ op, op ∈ ops ↔ op ∈ ops') as Hsame by (intros op; by rewrite (Hcausal op) (Hcausal' op)).
  assert (∀ op, op ∈ ops → topic_id (obody op) = topic_id (obody gop)) as Htop.
  { assert (∀ op, op ∈ ops → topic_id (obody op) = t) as Hall.
    { intros op (m & He & _)%Hcausal. by destruct (h_entry _ _ _ _ Hok _ _ _ He) as [_ [_ ? _ _]]. }
    intros op Hop. by rewrite (Hall op Hop) (Hall gop (proj2 (Hsame gop) Hin)). }
  assert (∀ op, op ∈ ops → is_genesis op = true → op_id op = op_id gop) as Hgen.
  { pose proof (h_state _ _ _ _ Hok) as (_ & _ & Hg). intros op (m & He & _)%Hcausal Hop.
    apply Hcausal' in Hin as (mg & Heg & _). rewrite (proj1 (Hg _ _ _ He)) // (proj1 (Hg _ _ _ Heg)) //.
    by eapply genesis_is_genesis. }
  destruct (materialize_complete ops ∅ gop g (proj2 (Hsame gop) Hin) Hpl Htop Hgen) as [s' Hs'].
  exists s'. split; [by eapply runs_bind; [exact Hrun|]; rewrite Hs'; apply runs_lift|].
  apply materialize_sound in Hs' as (gop' & g' & Hin' & Hpl' & _ & Hg' & _ & Hspec').
  assert (set_heads s' ∅ = set_heads s ∅) as Heq; [|by apply (f_equal ts_members) in Heq].
  eapply (state_spec_unique ops ops' gop' gop); try done.
  - intros o1 o2 (m1 & H1 & _)%Hcausal (m2 & H2 & _)%Hcausal Hid. rewrite -Hid in H2.
    by destruct (h_fun _ _ _ _ Hok _ _ _ _ _ H1 H2).
  - symmetry. apply Hg'; [by apply Hsame|by eapply genesis_is_genesis].
Qed.
Context (op : Op) (Hbody : obody op = b).

Lemma chain_runs : runs (validate_chain others op) st (Ok ()).
Proof.
  pose proof (lo_tip _ (so_log _ (nd_store _ (v_node _ _ Hv))) t a) as Htip.
  unfold validate_chain. rewrite Hbody. cbn [local_body topic_id actor_id actor_seq actor_prev deps].
  apply runs_bind_read. apply runs_bind_lift with ().
  { destruct tip as [[s i]|]; [|by rewrite Htip]. destruct Htip as [_ Htip].
    destruct (_ !! (t, a, s + 1)) as [j|] eqn:Hj; [|done].
    assert (1 ≤ s + 1 ≤ s) by (apply Htip; by eexists). lia. }
  apply runs_bind_read.
  apply (runs_bind_lift _ _ _ (match tip with Some (s, _) => s + 1 | None => 1 end, snd <$> tip)).
  { unfold next_actor_position, checked_next. destruct tip as [[s i]|] eqn:Hs; [|done].
    by rewrite (proj2 (checked_add_Some s 1 (s + 1)) (conj eq_refl (my_seq _ _ _ _ _ Hmay s i Hs))). }
  rewrite N.eqb_refl bool_decide_true //. do 2 (eapply runs_bind_lift; [done|]).
  destruct tip as [[s i]|]; [|apply runs_lift]. cbn [fmap option_fmap option_map snd].
  rewrite bool_decide_false; [set_solver|]. apply runs_lift.
Qed.

Lemma deps_stored d : d ∈ deps b → ∃ o m, l_ops (s_log st) !! d = Some o ∧ l_meta (s_log st) !! d = Some m ∧
  om_topic_id m = t.
Proof. intros (o & m & ? & ? & ?)%deps_here. by exists o, m. Qed.

(** A loop over the dependencies whose steps all succeed and keep an invariant. *)
Lemma runs_over {S} (f : S → OpId → action C S) (P : list OpId → S → Prop) s :
  P [] s →
  (∀ pre s d, d ∈ deps b → P pre s → ∃ s', runs (f s d) st (Ok s') ∧ P (pre ++ [d]) s') →
  ∃ s', runs (action_fold f s (bt_elements (deps b))) st (Ok s') ∧ P (bt_elements (deps b)) s'.
Proof.
  intros HP Hf. assert (∀ d, d ∈ bt_elements (deps b) → d ∈ deps b) as Hin by (intros d; by rewrite elem_of_bt_elements).
  enough (∀ l pre s, (∀ d, d ∈ l → d ∈ deps b) → P pre s →
    ∃ s', runs (action_fold f s l) st (Ok s') ∧ P (pre ++ l) s') as Hall by by apply (Hall _ []).
  clear s HP Hin. induction l as [|d l IH]; intros pre s Hin HP; cbn [action_fold].
  { exists s. rewrite app_nil_r. split; [apply runs_ret|done]. }
  destruct (Hf pre s d (Hin d ltac:(by left)) HP) as (s1 & H1 & HP1).
  destruct (IH (pre ++ [d]) s1) as (s2 & H2 & HP2); [intros x Hx; apply Hin; by right|done|]. exists s2.
  rewrite -app_assoc in HP2. split; [by eapply runs_bind|done].
Qed.

Lemma member_runs s :
  topic_state_locked st t = Some s → signer_peer_id signer ∈ ts_members s →
  (size (deps b) + edge_count (l_meta (s_log st)) ≤ fuel)%nat →
  runs (author_member fuel others t (signer_peer_id signer) (deps b) s) st (Ok ()).
Proof.
  intros Hs Hin Hfuel. unfold author_member. apply runs_bind with true.
  - case_decide as Hd; [rewrite bool_decide_true //; apply runs_ret|].
    destruct (state_for_deps_runs s Hs Hfuel) as (s' & Hrun & Hm). eapply runs_bind; [exact Hrun|].
    rewrite Hm bool_decide_true //. apply runs_ret.
  - apply runs_lift.
Qed.

Lemma new_topic_fresh : topic_state_locked st t = None → heads st t = ∅ ∧ tip = None.
Proof.
  intros Hnone. pose proof history_here as Hok. rewrite Hnone in Hok.
  pose proof (h_state _ _ _ _ Hok) as Hno. split.
  - apply set_eq. intros h. split; [|set_solver]. intros Hh. by destruct (Hno h), (h_heads _ _ _ _ Hok h Hh).
  - pose proof tip_here as Htip. destruct tip as [[s i]|]; [|done].
    destruct Htip as [(o & m & He & _) _]. destruct (Hno i). by exists o, m.
Qed.

Lemma payload_runs :
  (size (deps b) + edge_count (l_meta (s_log st)) ≤ fuel)%nat →
  runs (validate_payload fuel others op) st (Ok ()).
Proof.
  intros Hfuel. unfold validate_payload. rewrite Hbody. cbn [local_body payload topic_id author].
  pose proof (my_payload _ _ _ _ _ Hmay) as Hpay. pose proof member_runs as Hmember.
  pose proof new_topic_fresh as Hfresh. clear Hbody Hmay. destruct pl as [g|env|c].
  - destruct Hpay as [Hnone _]. destruct (Hfresh Hnone) as [Hh Ht].
    cbn [local_body actor_seq actor_prev deps]. rewrite Ht Hh. cbn [fmap option_fmap option_map].
    rewrite bool_decide_false; [by intros []|]. rewrite bool_decide_true //. cbn [N.eqb Pos.eqb negb orb].
    apply runs_bind_read. rewrite Hnone bool_decide_false; [by intros []|]. apply runs_lift.
  - destruct Hpay as (s & Hs & Hin & Hty & _). apply runs_bind_read. eapply runs_bind_lift; [by rewrite Hs|].
    apply runs_bind_lift with (). { unfold ensure_event_type. by rewrite (Hty env eq_refl) decide_True. }
    by apply Hmember.
  - destruct Hpay as (s & Hs & Hin & _). apply runs_bind_read. eapply runs_bind_lift; [by rewrite Hs|].
    by apply Hmember.
Qed.
Lemma generation_runs : runs (validate_generation others op) st (Ok ()).
Proof.
  pose proof (so_log _ (nd_store _ (v_node _ _ Hv))) as Hlog.
  unfold validate_generation. rewrite Hbody.
  destruct (runs_over (λ gen i, meta ← read others (λ st, l_meta (s_log st) !! i);
      meta ← lift (ok_or meta (MissingDependency i));
      next ← lift (checked_next (om_generation meta)); mret (N.max gen next))
    (generation_after E) 0 (generation_after_nil E)) as (g & Hrun & Hg).
  { intros pre g d Hd Hpre. destruct (deps_here d Hd) as (o & m & He). pose proof He as (_ & Hm & Ht).
    exists (N.max g (om_generation m + 1)). split; [|by eapply generation_after_snoc; [apply history_here|..]].
    apply runs_bind_read. eapply runs_bind_lift; [by rewrite Hm|].
    apply runs_bind_lift with (om_generation m + 1); [|apply runs_ret].
    pose proof (lo_generation _ Hlog d m Hm) as Hle. rewrite Ht in Hle. pose proof (my_generation _ _ _ _ _ Hmay) as Hmax.
    unfold max_generation in Hmax. unfold checked_next.
    assert (om_generation m + 1 ≤ u64_max) as Hfit by lia.
    by rewrite (proj2 (checked_add_Some (om_generation m) 1 _) (conj eq_refl Hfit)). }
  eapply runs_bind; [exact Hrun|]. rewrite (generation_after_unique _ _ _ _ Hg generation_here) N.eqb_refl.
  apply runs_lift.
Qed.

Lemma validate_runs :
  (size (deps b) + edge_count (l_meta (s_log st)) ≤ fuel)%nat →
  runs (validate_op fuel others op) st (Ok ()).
Proof.
  intros Hfuel. unfold validate_op. rewrite Hbody. rewrite bool_decide_true; [apply (my_actor _ _ _ _ _ Hmay)|].
  cbn [negb]. apply runs_bind with ().
  { unfold validate_genesis_type. rewrite Hbody. cbn [local_body payload topic_id].
    pose proof (my_payload _ _ _ _ _ Hmay) as Hpay. clear Hbody Hmay. destruct pl as [g| |]; [|apply runs_ret..].
    destruct Hpay as [Hnone Hlen]. destruct (N.ltb_spec MAX_TYPE_BYTES (str_len (event_type_id g))); [lia|].
    apply runs_bind_read. rewrite Hnone bool_decide_false; [by intros []|]. apply runs_lift. }
  apply runs_bind with (); [apply chain_runs|]. apply runs_bind with ().
  { unfold validate_deps. rewrite Hbody.
    destruct (runs_over (λ _ dep, stored ← read others (λ st, l_ops (s_log st) !! dep);
      lift (refuse_if (bool_decide (stored = None)) (MissingDependency dep))) (λ _ _, True) ()) as ([] & Hrun & _);
      [done| |done].
    intros pre [] d (o & m & Ho & _)%deps_stored _. exists (). split; [|done]. apply runs_bind_read. rewrite Ho.
    rewrite bool_decide_false //. apply runs_lift. }
  apply runs_bind with (); [by apply payload_runs|]. apply generation_runs.
Qed.

Lemma meta_runs : ∃ meta, runs (meta_for others op) st (Ok meta).
Proof.
  unfold meta_for, clock_from_deps. rewrite Hbody.
  match goal with |- context [action_fold ?f ?s _] => destruct (runs_over f (λ _ _, True) s) as (ck & Hrun & _) end;
    [done| |eexists; eapply runs_bind; [exact Hrun|apply runs_ret]].
  intros pre ck d (o & m & _ & Hm & Ht)%deps_stored _. eexists. split; [|done]. apply runs_bind_read.
  eapply runs_bind_lift; [by rewrite Hm|]. cbv beta iota zeta. cbn [header_of hd_topic_id].
  rewrite bool_decide_true //. apply runs_ret.
Qed.
(** ** The commit *)

Context (Hin : universe op).

(** The entry passes every check of the store. *)
Lemma local_fits meta ts :
  entry_fits st t op meta → topic_state_after op (heads_after (heads st t) op) (topic_state_locked st t) = Ok ts →
  batch_fits st t (local_batch op meta (heads st t) (topic_state_locked st t) ts []).
Proof.
  intros Hentry Hts. pose proof history_here as Hok. pose proof (nd_store _ (v_node _ _ Hv)) as Hstore.
  assert (topic_id (obody op) = t) as Ht by by rewrite Hbody.
  pose proof (local_extends universe Hcf st t op meta (heads st t) ts [] Hv Hin Ht Hentry eq_refl Hts) as Hext.
  pose proof (fits_history _ _ _ Hext) as HV. cbn [local_batch ab_entries ab_heads] in HV.
  pose proof (fits_not_stored universe Hcf st t op meta Hv Hin Ht Hentry) as Hnew.
  destruct Hentry as (Hfits & Hck & Hmt & Hmm).
  destruct (fits_entry _ _ _ _ _ _ Hok Ht Hfits Hck Hmt Hmm) as [Hval Hfree].
  pose proof (proj1 (meta_matches_true _ _) Hmm) as (Hid & _ & Ha & Hs & Hp & _).
  assert (∀ e, e ∈ [(op, meta)] → entry_ok (local_batch op meta (heads st t) (topic_state_locked st t) ts []) e)
    as Hentries by (intros e ->%list_elem_of_singleton; by eapply entry_ok_valid).
  split; [done|..].
  - apply validate_batch_ok. cbn [local_batch ab_expected_topic_state ab_topic_state ab_entries ab_topic_id ab_heads].
    rewrite Ht. split_and!; [|intros s ->|done].
    + intros s Hs'. rewrite Hs' in Hok. by destruct (h_state _ _ _ _ Hok).
    + cbn [local_batch ab_topic_state] in HV. split; [by destruct (h_state _ _ _ _ HV)|].
      clear -Hts. unfold topic_state_after in Hts. destruct (payload (obody op)) as [g|env|c]; [by injection Hts as <-|done|].
      apply bind_ok in Hts as (s0 & _ & [= <-]). by rewrite apply_control_heads.
  - eapply (frontier_fits st t [(op, meta)]); [done|exact Hok|exact HV| |done..].
    by intros o m [= -> ->]%list_elem_of_singleton.
  - assert (base_for st st t false) as Hbase by (by split; [apply (v_node _ _ Hv)|..]).
    eexists. cbn [local_batch ab_entries try_fold].
    rewrite (scan_continues st st t false Hbase [] ∅ op meta) //.
    rewrite lookup_empty Ha Hbody. cbn [local_body actor_id]. unfold continues. rewrite Hs Hp Hbody.
    cbn [local_body actor_seq actor_prev]. destruct tip as [[s i]|] eqn:Htip; [|done].
    split_and!; [done|by eapply my_seq|done].
  - apply ensure_deps_resolvable_ok. cbn [local_batch ab_entries]. intros e d ->%list_elem_of_singleton Hd. right.
    destruct (ev_deps _ _ _ _ Hval d Hd) as (od & md & _ & Hmd & _).
    rewrite stored_complete //. apply bool_decide_eq_true. by eexists.
Qed.
Lemma quiet_harmless n : harmless universe (others n).
Proof. intros x Hx. rewrite Hquiet. split; [done|apply evolves_refl]. Qed.

(** What the store learns is what the operation and its metadata say. *)
Lemma meta_fits :
  (size (deps b) + edge_count (l_meta (s_log st)) ≤ fuel)%nat →
  ∃ meta, runs (meta_for others op) st (Ok meta) ∧ entry_fits st t op meta.
Proof.
  intros Hfuel. destruct meta_runs as [meta Hmeta]. exists meta. split; [done|].
  assert (topic_id (obody op) = t) as Ht by by rewrite Hbody.
  assert (frozen st st t E) as Hfr by done.
  destruct (validate_runs Hfuel 0%nat) as [n1 H1]. destruct (Hmeta 0%nat) as [n2 H2].
  pose proof (validate_op_reads universe Hcf fuel others quiet_harmless op _ _ _ _ _ Hv H1) as (_ & _ & Hop).
  pose proof (meta_for_reads universe others quiet_harmless op _ _ _ _ _ Hv H2) as (_ & _ & Hme).
  rewrite Ht in Hop Hme. pose proof history_here as Hok.
  split; [exact (Hop () E eq_refl Hfr _ _ Hok)|exact (Hme meta E eq_refl Hfr _ _ Hok)].
Qed.

Lemma state_after_ok : ∃ ts eff,
  topic_state_after op (heads_after (heads st t) op) (topic_state_locked st t) = Ok ts ∧
  match ts with Some s => Some s | None => topic_state_locked st t end = Some eff.
Proof.
  pose proof (my_payload _ _ _ _ _ Hmay) as Hpay. unfold topic_state_after. rewrite Hbody.
  cbn [local_body payload topic_id]. clear -Hpay. destruct pl as [g|env|c].
  - by do 2 eexists.
  - destruct Hpay as (s & Hs & _). by do 2 eexists.
  - destruct Hpay as (s & Hs & _). rewrite Hs. by do 2 eexists.
Qed.

Lemma commit_ends n :
  unbounded → validate_frame op = Ok () → (size (deps b) + edge_count (l_meta (s_log st)) ≤ fuel)%nat →
  ∃ n' st' meta, check_and_commit None fuel others op (heads st t) (topic_state_locked st t) no_effects n st =
    (n', st', Ok meta).
Proof.
  intros Hun Hframe Hfuel. destruct (meta_fits Hfuel) as (meta & Hmeta & Hfits).
  destruct state_after_ok as (ts & eff & Hts & Heff).
  destruct (fits_admitted st t (local_batch op meta (heads st t) (topic_state_locked st t) ts []) Hun) as [st' Hst'];
    [apply (v_node _ _ Hv)|by apply local_fits|done|].
  destruct (validate_runs Hfuel n) as [n1 H1]. destruct (Hmeta n1) as [n2 H2]. exists (S n2), st', meta.
  unfold check_and_commit, mbind, action_bind, lift. rewrite Hframe H1 H2.
  unfold commit_admission, mbind, action_bind, lift. rewrite Hts Heff. cbn [ok_or no_effects].
  fold (local_batch op meta (heads st t) (topic_state_locked st t) ts []).
  unfold put_admitted_batch. by rewrite Hquiet Hst'.
Qed.

Lemma attempt_ends n :
  unbounded → op_sign b signer = Ok op → op_validate op = Ok () → validate_frame op = Ok () →
  (size (deps b) + edge_count (l_meta (s_log st)) ≤ fuel)%nat →
  ∃ n' st' meta,
    local_retries None fuel others MAX_ADMISSION_RETRIES t a pl signer None no_effects n st = (n', st', Ok (op, meta)).
Proof.
  intros Hun Hsign Hval Hframe Hfuel. destruct (prepare_runs n) as [n1 H1].
  destruct (next_local_runs op Hsign Hval n1) as [n2 H2].
  destruct (commit_ends n2 Hun Hframe Hfuel) as (n3 & st' & meta & H3). exists n3, st', meta.
  change MAX_ADMISSION_RETRIES with (S (pred MAX_ADMISSION_RETRIES)). cbn [local_retries].
  unfold try_local_effects. by rewrite H1 H2 H3.
Qed.
End one.

(** C4: a member's write goes through. In a valid store where the signer
    may write the payload, with memory to spare, a signature that verifies and a frame
    that holds the operation, the first attempt to create it succeeds: the walk over its
    dependencies ends within as many steps as they and the stored edges are, the
    operation that follows every head passes all checks of the log and of the store, and
    it becomes the only head. *)
Theorem creation_succeeds st t a pl signer op n :
  valid st → unbounded → may_create st t a pl signer →
  op_sign (local_body st t a pl signer) signer = Ok op → op_validate op = Ok () →
  validate_frame op = Ok () → universe op →
  (size (deps (obody op)) + edge_count (l_meta (s_log st)) ≤ fuel)%nat →
  ∃ n' st' meta,
    create_local_effects None fuel others (Ok ()) t a pl signer no_effects n st = (n', st', Ok (op, meta)) ∧
    valid st' ∧ created universe st st' t pl signer op meta.
Proof.
  intros Hv Hun Hmay Hsign Hval Hframe Hin Hfuel. pose proof (op_sign_body _ _ _ Hsign) as Hbody.
  rewrite Hbody in Hfuel.
  destruct (attempt_ends st t a pl signer Hv Hmay op Hbody Hin n Hun Hsign Hval Hframe Hfuel) as (n' & st' & meta & Hrun).
  exists n', st', meta. split; [done|].
  destruct (local_retries_ok universe Hcf None fuel others quiet_harmless _ _ _ _ _ None _ _ _ _ _ _ Hv ltac:(done) Hrun)
    as (Hv' & _ & Hcr); [by intros ? ? [= <- <-]|]. split; [done|by apply Hcr].
Qed.
(** Why [try_local_effects] refuses a payload that is no genesis. *)
Definition refusal st t a (signer : Signer) : option Error :=
  match topic_state_locked st t with
  | None => Some TopicNotFound
  | Some s =>
      if decide (signer_peer_id signer ∈ ts_members s)
      then
        if bool_decide (is_Some (l_actor_tip (s_log st) !! (t, a))) then None
        else if MAX_TOPIC_ACTORS <=? actor_count st t then Some TopicFull else None
      else Some NotTopicMember
  end.

Lemma runs_bind_err {A B} (m : action C A) (f : A → action C B) st e :
  runs m st (Err e) → runs (mbind f m) st (Err e).
Proof. intros Hm n. destruct (Hm n) as [n1 H1]. exists n1. unfold mbind, action_bind. by rewrite H1. Qed.

Lemma prepare_refuses st t a pl signer e :
  (∀ g, pl ≠ Genesis g) → refusal st t a signer = Some e →
  runs (prepare_local others t a pl signer) st (Err e).
Proof.
  intros Hpl. unfold refusal, prepare_local.
  enough (refusal st t a signer = Some e → runs (_ ← ensure_member others t (signer_peer_id signer);
      tip ← read others (λ st, l_actor_tip (s_log st) !! (t, a));
      if bool_decide (is_Some tip) then mret ()
      else count ← read others (λ st, actor_count st t);
           lift (refuse_if (MAX_TOPIC_ACTORS <=? count) TopicFull)) st (Err e)) as Hcheck.
  { intros Href. apply runs_bind_err. destruct pl as [g| |]; [by destruct (Hpl g)|by apply Hcheck..]. }
  unfold refusal, ensure_member. destruct (topic_state_locked st t) as [s|] eqn:Hs.
  - case_decide as Hin.
    + case_bool_decide as Htip; [done|]. destruct (MAX_TOPIC_ACTORS <=? actor_count st t) eqn:Hfull; [|done].
      intros [= <-]. apply runs_bind with ().
      * apply runs_bind_read. eapply runs_bind_lift; [by rewrite Hs|].
        rewrite bool_decide_false; [by intros ?|]. apply runs_lift.
      * apply runs_bind_read. rewrite bool_decide_false //. apply runs_bind_read. rewrite Hfull. apply runs_lift.
    + intros [= <-]. apply runs_bind_err, runs_bind_read. eapply runs_bind_lift; [by rewrite Hs|].
      rewrite bool_decide_true //. apply runs_lift.
  - intros [= <-]. apply runs_bind_err, runs_bind_read, runs_bind_err. rewrite Hs. apply runs_lift.
Qed.

(** Who may not write is told why, at once. An event or a control for
    a topic the store does not know, by a signer that is not a member, or by a new actor
    in a topic that has its full number of actors, is refused with that error at the
    first attempt, without a signature and without a change of the store. *)
Theorem creation_refused quota st t a pl signer effects n e :
  (∀ g, pl ≠ Genesis g) → refusal st t a signer = Some e →
  ∃ n', create_local_effects quota fuel others (Ok ()) t a pl signer effects n st = (n', st, Err e) ∧
    (e = TopicNotFound ∨ e = NotTopicMember ∨ e = TopicFull).
Proof.
  intros Hpl Href. destruct (prepare_refuses st t a pl signer e Hpl Href n) as [n' Hrun]. exists n'.
  assert (e = TopicNotFound ∨ e = NotTopicMember ∨ e = TopicFull) as He.
  { unfold refusal in Href. repeat case_match; naive_solver. }
  split; [|done]. unfold create_local_effects. change MAX_ADMISSION_RETRIES with (S (pred MAX_ADMISSION_RETRIES)).
  cbn [local_retries]. unfold try_local_effects. rewrite Hrun. by destruct He as [->|[->| ->]].
Qed.
End creation_ends.
