(* ===== verification/Scheduler.v ===== *)
(** * The resync scheduler ([src/src/iroh/scheduler.rs])

    A target is a peer and a topic that must be synchronised. The table holds when each
    target is due, how often it failed, a revision that grows with every request, and
    the attempt that owns it. Claims are owned by leases and by guards taken out of
    them; dropping either hands its claims back.

    Methods hold the lock of the table throughout, so each is a function on the
    scheduler. Instants and durations are nanoseconds; an instant has no bound.
    [notify_one] leaves a permit for the loop. *)

From S2P Require Import Prelude Ids.

#[local] Open Scope N_scope.

(** [ResyncTargetKey], ordered by its fields. *)
Abbreviation ResyncTargetKey := (PeerId * TopicId)%type.
(** [AttemptId] *)
Abbreviation AttemptId := N.
Abbreviation Instant := N.
Abbreviation Duration := N.

(** [u32::MAX] and [Duration::MAX] *)
Definition u32_max : N := 4294967295.
Definition duration_max : Duration := u64_max * 1000000000 + 999999999.

(** [ResyncTarget] *)
Record ResyncTarget := {
  rt_key : ResyncTargetKey;
  rt_attempt : AttemptId;
  rt_covered : N;
  rt_force : option N;
}.

(** [ScheduledResync] *)
Record ScheduledResync := {
  sr_next_due : Instant;
  sr_failures : N;
  sr_requested : N;
  sr_active : option AttemptId;
  sr_force : option N;
}.

(** [ResyncScheduler] with the process-wide [NEXT_ATTEMPT]. *)
Record ResyncScheduler := {
  rs_inner : gmap ResyncTargetKey ScheduledResync;
  rs_notify : bool;
  rs_live : gset (ResyncTargetKey * AttemptId);
  rs_next_attempt : N;
}.

Implicit Types (s : ResyncScheduler) (k : ResyncTargetKey) (e : ScheduledResync) (c : ResyncTarget).

Definition scheduler_new (next : N) : ResyncScheduler :=
  {| rs_inner := ∅; rs_notify := false; rs_live := ∅; rs_next_attempt := next |}.

Definition set_inner s (targets : gmap ResyncTargetKey ScheduledResync) : ResyncScheduler :=
  {| rs_inner := targets; rs_notify := rs_notify s; rs_live := rs_live s;
     rs_next_attempt := rs_next_attempt s |}.
Definition set_live s (live : gset (ResyncTargetKey * AttemptId)) : ResyncScheduler :=
  {| rs_inner := rs_inner s; rs_notify := rs_notify s; rs_live := live;
     rs_next_attempt := rs_next_attempt s |}.
Definition notify_one s : ResyncScheduler :=
  {| rs_inner := rs_inner s; rs_notify := true; rs_live := rs_live s;
     rs_next_attempt := rs_next_attempt s |}.

(** ** Attempts *)

(** [next_attempt_id] *)
Definition next_attempt_id s : option (AttemptId * ResyncScheduler) :=
  next ← checked_add (rs_next_attempt s) 1;
  Some (rs_next_attempt s, {| rs_inner := rs_inner s; rs_notify := rs_notify s; rs_live := rs_live s;
                              rs_next_attempt := next |}).

(** [begin_attempts] *)
Definition begin_attempts s (keys : list ResyncTargetKey) (attempt : AttemptId) : ResyncScheduler :=
  set_live s (rs_live s ∪ list_to_set ((λ k, (k, attempt)) <$> keys)).

(** [end_attempt] *)
Definition end_attempt s k (attempt : AttemptId) : bool * ResyncScheduler :=
  (bool_decide ((k, attempt) ∈ rs_live s), set_live s (rs_live s ∖ {[(k, attempt)]})).

(** [LiveAttempts::drop] *)
Definition live_attempts_drop s (attempt : AttemptId) : ResyncScheduler :=
  set_live s (filter (λ ka, ka.2 ≠ attempt) (rs_live s)).

(** ** Requests *)

(** [schedule_after] *)
Definition schedule_after s (now : Instant) k (after : Duration) (force : bool) : ResyncScheduler :=
  let next_due := now + after in
  let target := match rs_inner s !! k with
    | Some e =>
        let requested := saturating_add (sr_requested e) 1 in
        {| sr_next_due :=
             if bool_decide (sr_active e = None) && ((sr_failures e =? 0) || force)
                && (next_due <? sr_next_due e)
             then next_due else sr_next_due e;
           sr_failures := sr_failures e; sr_requested := requested; sr_active := sr_active e;
           sr_force := if force then Some requested else sr_force e |}
    | None =>
        {| sr_next_due := next_due; sr_failures := 0; sr_requested := 1; sr_active := None;
           sr_force := if force then Some 1 else None |}
    end in
  notify_one (set_inner s (<[k := target]> (rs_inner s))).

(** [schedule_now] *)
Definition schedule_now s (now : Instant) k (force : bool) : ResyncScheduler :=
  schedule_after s now k 0 force.

(** [reconsider] *)
Definition reconsider s (now : Instant) k : ResyncScheduler :=
  match rs_inner s !! k with
  | Some e =>
      if bool_decide (is_Some (sr_active e)) then s
      else
        let next_due := if (sr_failures e =? 0) && (now <? sr_next_due e) then now else sr_next_due e in
        notify_one (set_inner s (<[k := {| sr_next_due := next_due; sr_failures := sr_failures e;
          sr_requested := sr_requested e; sr_active := sr_active e; sr_force := sr_force e |}]> (rs_inner s)))
  | None =>
      notify_one (set_inner s (<[k := {| sr_next_due := now; sr_failures := 0; sr_requested := 1;
        sr_active := None; sr_force := None |}]> (rs_inner s)))
  end.

(** [peer_reachable] *)
Definition peer_reachable s (now : Instant) (peer : PeerId) : ResyncScheduler :=
  let stuck k e := bool_decide (k.1 = peer) && (0 <? sr_failures e) in
  let targets := map_imap (λ k e, Some
    (if stuck k e then
       {| sr_next_due := if bool_decide (sr_active e = None) && (now <? sr_next_due e) then now else sr_next_due e;
          sr_failures := 0; sr_requested := sr_requested e; sr_active := sr_active e; sr_force := sr_force e |}
     else e)) (rs_inner s) in
  let changed := existsb (λ ke, stuck ke.1 ke.2) (bt_entries (rs_inner s)) in
  let s := set_inner s targets in
  if changed then notify_one s else s.

(** ** Turns *)

(** [busy_peers] *)
Definition busy_peers (targets : gmap ResyncTargetKey ScheduledResync) : gset PeerId :=
  list_to_set (omap (λ ke, if bool_decide (is_Some (sr_active ke.2)) then Some ke.1.1 else None)
    (bt_entries targets)).

(** The sorted vector [ready] of [due_targets]. *)
Definition ready_targets s (now : Instant) : list (Instant * ResyncTargetKey) :=
  let busy := busy_peers (rs_inner s) in
  merge_sort ble (omap (λ ke,
    if bool_decide (sr_active ke.2 = None) && (sr_next_due ke.2 <=? now) && bool_decide (ke.1.1 ∉ busy)
    then Some (sr_next_due ke.2, ke.1) else None) (bt_entries (rs_inner s))).

(** One iteration of the grouping loop. *)
Definition due_step (max_peers max_targets : nat) (due : gmap PeerId (list ResyncTargetKey))
    (entry : Instant * ResyncTargetKey) : gmap PeerId (list ResyncTargetKey) :=
  let k := entry.2 in
  match due !! k.1 with
  | Some keys =>
      if bool_decide (length keys < max_targets)%nat then <[k.1 := keys ++ [k]]> due else due
  | None => if bool_decide (size due < max_peers)%nat then <[k.1 := [k]]> due else due
  end.

(** The loop over the keys of one peer; the last component is [exhausted]. *)
Fixpoint claim_keys s (keys : list ResyncTargetKey) (batch : list ResyncTarget)
    : ResyncScheduler * list ResyncTarget * bool :=
  match keys with
  | [] => (s, batch, false)
  | k :: keys =>
      match rs_inner s !! k with
      | None => claim_keys s keys batch
      | Some e =>
          match next_attempt_id s with
          | None => (s, batch, true)
          | Some (attempt, s) =>
              let s := set_inner s (<[k := {| sr_next_due := sr_next_due e; sr_failures := sr_failures e;
                sr_requested := sr_requested e; sr_active := Some attempt; sr_force := sr_force e |}]> (rs_inner s)) in
              let s := set_live s ({[(k, attempt)]} ∪ rs_live s) in
              claim_keys s keys (batch ++ [{| rt_key := k; rt_attempt := attempt;
                rt_covered := sr_requested e; rt_force := sr_force e |}])
          end
      end
  end.

(** The loop over the peers. *)
Fixpoint claim_peers s (due : list (PeerId * list ResyncTargetKey)) (out : list (PeerId * list ResyncTarget))
    : ResyncScheduler * list (PeerId * list ResyncTarget) :=
  match due with
  | [] => (s, out)
  | (peer, keys) :: due =>
      let '(s, batch, exhausted) := claim_keys s keys [] in
      let out := if bool_decide (batch = []) then out else out ++ [(peer, batch)] in
      if exhausted : bool then (s, out) else claim_peers s due out
  end.

(** [due_targets] *)
Definition due_targets s (now : Instant) (max_peers max_targets : nat)
    : ResyncScheduler * list (PeerId * list ResyncTarget) :=
  claim_peers s (bt_entries (foldl (due_step max_peers max_targets) ∅ (ready_targets s now))) [].

(** [next_due] *)
Definition next_due s : option Instant :=
  let busy := busy_peers (rs_inner s) in
  foldl (λ least due, Some (match least with Some l => N.min l due | None => due end)) None
    (omap (λ ke, if bool_decide (sr_active ke.2 = None) && bool_decide (ke.1.1 ∉ busy)
                 then Some (sr_next_due ke.2) else None) (bt_entries (rs_inner s))).

(** [peer_topics] *)
Definition peer_topics s (peer : PeerId) (limit : nat) : list TopicId :=
  let start : ResyncTargetKey := (peer, small_id 0) in
  (λ k, k.2) <$> take limit (take_while (λ k, bool_decide (k.1 = peer))
    (filter (λ k, ble start k) (bt_elements (dom (rs_inner s))))).

(** ** Completions *)

(** The target, if the claim still owns it. *)
Definition owned_target s c : option ScheduledResync :=
  e ← rs_inner s !! rt_key c;
  if bool_decide (sr_active e = Some (rt_attempt c)) then Some e else None.

(** [complete_clean] *)
Definition complete_clean s (now : Instant) c : ResyncScheduler :=
  match owned_target s c with
  | None => s
  | Some e =>
      if negb (sr_requested e =? rt_covered c) || negb (bool_decide (sr_force e = rt_force c)) then
        notify_one (set_inner s (<[rt_key c := {| sr_next_due := now; sr_failures := 0;
          sr_requested := sr_requested e; sr_active := None; sr_force := sr_force e |}]> (rs_inner s)))
      else set_inner s (delete (rt_key c) (rs_inner s))
  end.

(** [complete_dirty] *)
Definition complete_dirty s (now : Instant) c (after : Duration) : ResyncScheduler :=
  match owned_target s c with
  | None => s
  | Some e =>
      notify_one (set_inner s (<[rt_key c :=
        {| sr_next_due := if sr_requested e =? rt_covered c then now + after else now;
           sr_failures := 0; sr_requested := sr_requested e; sr_active := None;
           sr_force := if bool_decide (sr_force e = rt_force c) then None else sr_force e |}]> (rs_inner s)))
  end.

(** The backoff after the given number of failures. *)
Definition backoff_after (failures : N) (initial_backoff max_backoff : Duration) : Duration :=
  let shift := N.min (saturating_sub failures 1) 20 in
  let multiplier := N.shiftl 1 shift in
  N.min (N.min (initial_backoff * multiplier) duration_max) max_backoff.

(** [complete_failed] *)
Definition complete_failed s (now : Instant) c (initial_backoff max_backoff : Duration) : ResyncScheduler :=
  match owned_target s c with
  | None => s
  | Some e =>
      let failures := N.min (sr_failures e + 1) u32_max in
      notify_one (set_inner s (<[rt_key c :=
        {| sr_next_due := now + backoff_after failures initial_backoff max_backoff;
           sr_failures := failures; sr_requested := sr_requested e; sr_active := None;
           sr_force := Some (sr_requested e) |}]> (rs_inner s)))
  end.

(** [release_claim] *)
Definition release_claim s (now : Instant) c (after : Duration) : ResyncScheduler :=
  let s := (end_attempt s (rt_key c) (rt_attempt c)).2 in
  match owned_target s c with
  | None => s
  | Some e =>
      notify_one (set_inner s (<[rt_key c :=
        {| sr_next_due := now + after; sr_failures := sr_failures e; sr_requested := sr_requested e;
           sr_active := None; sr_force := sr_force e |}]> (rs_inner s)))
  end.

(** ** Leases and guards *)

(** [ResyncLease] and [ClaimGuard]; the handle on the scheduler is the scheduler passed. *)
Record ResyncLease := {
  le_retry_after : Duration;
  le_claims : gmap ResyncTargetKey ResyncTarget;
}.
Record ClaimGuard := {
  cg_claim : option ResyncTarget;
  cg_retry_after : Duration;
}.

(** [lease] *)
Definition lease (claims : list ResyncTarget) (retry_after : Duration) : ResyncLease :=
  {| le_retry_after := retry_after; le_claims := foldl (λ m c, <[rt_key c := c]> m) ∅ claims |}.

(** [ResyncLease::targets] *)
Definition lease_targets (l : ResyncLease) : list ResyncTarget := (bt_entries (le_claims l)).*2.

(** [ResyncLease::guard] *)
Definition guard (l : ResyncLease) c : ClaimGuard :=
  {| cg_claim := Some c; cg_retry_after := le_retry_after l |}.

(** [ResyncLease::take_claim] *)
Definition take_claim (l : ResyncLease) k : ResyncLease * option ClaimGuard :=
  ({| le_retry_after := le_retry_after l; le_claims := delete k (le_claims l) |},
   guard l <$> le_claims l !! k).

(** [ResyncLease::drain_claims] *)
Definition drain_claims (l : ResyncLease) : ResyncLease * list ClaimGuard :=
  ({| le_retry_after := le_retry_after l; le_claims := ∅ |}, guard l <$> lease_targets l).

(** [ClaimGuard::settle]: the claim, and the guard that is dropped after it. *)
Definition settle (g : ClaimGuard) : option ResyncTarget * ClaimGuard :=
  (cg_claim g, {| cg_claim := None; cg_retry_after := cg_retry_after g |}).

(** [ClaimGuard::drop] and [ResyncLease::drop] *)
Definition guard_drop s (now : Instant) (g : ClaimGuard) : ResyncScheduler :=
  match cg_claim g with Some c => release_claim s now c (cg_retry_after g) | None => s end.
Definition lease_drop s (now : Instant) (l : ResyncLease) : ResyncScheduler :=
  foldl (λ s c, release_claim s now c (le_retry_after l)) s (lease_targets l).
