(* ===== verification/SchedulerInv.v ===== *)
(** * What the scheduler keeps

    [sound] relates the table to the claims that leases and guards hold: every owned
    target has exactly one holder, and no request is lost. Every method keeps it; claims
    are added by [due_targets] and consumed by completions and releases. The requests
    are tracked by two history variables: [asked] has for each target the attempt
    counter at its last request, [served] the attempt whose clean completion removed it
    last. *)

From S2P Require Import Prelude Ids Scheduler.

#[local] Open Scope N_scope.

Abbreviation clocked := (gmap ResyncTargetKey N).
Implicit Types (s : ResyncScheduler) (k : ResyncTargetKey) (e : ScheduledResync) (c : ResyncTarget).
Implicit Types (asked served : clocked) (n : N) (cs : list ResyncTarget).

(** The claim owns the target as it is. *)
Definition holds s asked c : Prop := ∃ e,
  rs_inner s !! rt_key c = Some e ∧ sr_active e = Some (rt_attempt c) ∧ rt_covered c ≤ sr_requested e ∧
  ∀ m, asked !! rt_key c = Some m → rt_attempt c < m → rt_covered c < sr_requested e.

Record sound s asked served n cs : Prop := {
  sd_keys : NoDup (rt_key <$> cs);
  sd_attempts : NoDup (rt_attempt <$> cs);
  sd_held : ∀ c, c ∈ cs → holds s asked c;
  sd_active : ∀ k e a, rs_inner s !! k = Some e → sr_active e = Some a →
    ∃ c, c ∈ cs ∧ rt_key c = k ∧ rt_attempt c = a;
  sd_fresh : ∀ c, c ∈ cs → rt_attempt c < rs_next_attempt s;
  sd_requested : ∀ k e, rs_inner s !! k = Some e → sr_requested e ≤ n + 1;
  sd_asked : ∀ k m, asked !! k = Some m → m ≤ rs_next_attempt s ∧
    (is_Some (rs_inner s !! k) ∨ ∃ a, served !! k = Some a ∧ m ≤ a);
}.

#[global] Instance sound_perm s asked served n : Proper ((≡ₚ) ==> iff) (sound s asked served n).
Proof.
  enough (∀ cs cs', cs ≡ₚ cs' → sound s asked served n cs → sound s asked served n cs') as Himp
    by by (intros cs cs' Hp; split; apply Himp).
  intros cs cs' Hp [H1 H2 H3 H4 H5 H6 H7]. split; [by rewrite -Hp|by rewrite -Hp| | | |done|done].
  - intros c Hc. apply H3. by rewrite Hp.
  - intros k e a Hk Ha. destruct (H4 k e a Hk Ha) as (c & Hc & ?). exists c. by rewrite -Hp.
  - intros c Hc. apply H5. by rewrite Hp.
Qed.

(** Only the table and the counter matter, and the counter may grow. *)
Lemma sound_counter s s' asked served n cs :
  rs_inner s' = rs_inner s → rs_next_attempt s ≤ rs_next_attempt s' →
  sound s asked served n cs → sound s' asked served n cs.
Proof.
  intros Hi Hn [H1 H2 H3 H4 H5 H6 H7]. split; try done.
  - intros c Hc. destruct (H3 c Hc) as (e & He). exists e. by rewrite Hi.
  - intros k e a. rewrite Hi. apply H4.
  - intros c Hc. specialize (H5 c Hc). lia.
  - intros k e. rewrite Hi. apply H6.
  - intros k m Hm. rewrite Hi. destruct (H7 k m Hm). split; [lia|done].
Qed.

Lemma sound_same s s' asked served n cs :
  rs_inner s' = rs_inner s → rs_next_attempt s' = rs_next_attempt s →
  sound s asked served n cs → sound s' asked served n cs.
Proof. intros Hi Hn. apply sound_counter; [done|lia]. Qed.

Lemma sound_notify s asked served n cs : sound s asked served n cs → sound (notify_one s) asked served n cs.
Proof. by apply sound_same. Qed.

(** ** Entries nobody claims or releases *)

(** The entry keeps its owner and its requests. *)
Definition same_work e e' : Prop := sr_active e' = sr_active e ∧ sr_requested e' = sr_requested e.

(** An entry is touched without a change of owner or work. *)
Lemma sound_touch s asked served n cs (targets : gmap ResyncTargetKey ScheduledResync) :
  (∀ k, match rs_inner s !! k, targets !! k with
        | Some e, Some e' => same_work e e'
        | None, Some e' => sr_active e' = None ∧ sr_requested e' ≤ 1
        | None, None => True
        | Some _, None => False
        end) →
  sound s asked served n cs → sound (set_inner s targets) asked served n cs.
Proof.
  intros Hsame [H1 H2 H3 H4 H5 H6 H7]. split; try done; cbn [set_inner rs_inner rs_next_attempt].
  - intros c Hc. destruct (H3 c Hc) as (e & He & Ha & Hr). specialize (Hsame (rt_key c)). rewrite He in Hsame.
    destruct (targets !! rt_key c) as [e'|] eqn:He'; [|done]. destruct Hsame as [Hact Hreq].
    exists e'. rewrite Hact Hreq. done.
  - intros k e' a He' Ha. specialize (Hsame k). rewrite He' in Hsame.
    destruct (rs_inner s !! k) as [e|] eqn:He; destruct Hsame as [Hact _]; [|congruence].
    apply (H4 k e a He). congruence.
  - intros k e' He'. specialize (Hsame k). rewrite He' in Hsame.
    destruct (rs_inner s !! k) as [e|] eqn:He; destruct Hsame as [_ Hreq]; [rewrite Hreq; by eapply H6|lia].
  - intros k m Hm. destruct (H7 k m Hm) as [Hle [[e He]|?]]; (split; [done|]); [left|by right].
    specialize (Hsame k). rewrite He in Hsame. by destruct (targets !! k).
Qed.

(** One entry is touched. *)
Lemma sound_touch_one s asked served n cs k e' :
  match rs_inner s !! k with Some e => same_work e e' | None => sr_active e' = None ∧ sr_requested e' ≤ 1 end →
  sound s asked served n cs → sound (set_inner s (<[k := e']> (rs_inner s))) asked served n cs.
Proof.
  intros He'. apply sound_touch. intros k'. destruct (decide (k = k')) as [->|Hne].
  - rewrite lookup_insert_eq. by destruct (rs_inner s !! k').
  - rewrite lookup_insert_ne //. by destruct (rs_inner s !! k').
Qed.

Lemma reconsider_sound s now k asked served n cs :
  sound s asked served n cs → sound (reconsider s now k) asked served n cs.
Proof.
  intros Hs. unfold reconsider. destruct (rs_inner s !! k) as [e|] eqn:He.
  - case_bool_decide; [done|]. apply sound_notify, sound_touch_one; [by rewrite He|done].
  - apply sound_notify, sound_touch_one; [by rewrite He|done].
Qed.

Lemma peer_reachable_sound s now peer asked served n cs :
  sound s asked served n cs → sound (peer_reachable s now peer) asked served n cs.
Proof.
  intros Hs. unfold peer_reachable.
  match goal with |- context [set_inner s ?m] => set (targets := m) end.
  assert (sound (set_inner s targets) asked served n cs) as Hs'; [|destruct (existsb _ _); [by apply sound_notify|done]].
  apply sound_touch; [|done]. intros k. unfold targets. rewrite map_lookup_imap.
  destruct (rs_inner s !! k) as [e|]; [|done]. simpl. by destruct (_ && _).
Qed.

(** ** New work *)

Lemma schedule_sound s now k after force asked served n cs :
  n + 1 < u64_max → sound s asked served n cs →
  sound (schedule_after s now k after force) (<[k := rs_next_attempt s]> asked) served (n + 1) cs.
Proof.
  intros Hn [H1 H2 H3 H4 H5 H6 H7]. unfold schedule_after.
  match goal with |- context [<[k := ?x]> (rs_inner s)] => set (e' := x) end.
  assert (match rs_inner s !! k with
          | Some e => sr_active e' = sr_active e ∧ sr_requested e' = sr_requested e + 1
          | None => sr_active e' = None ∧ sr_requested e' = 1 end) as He'.
  { unfold e'. destruct (rs_inner s !! k) as [e|] eqn:He; [|done]. split; [done|].
    cbn [sr_requested]. unfold saturating_add. specialize (H6 k e He). lia. }
  clearbody e'.
  split; try done; cbn [notify_one set_inner rs_inner rs_next_attempt].
  - intros c Hc. destruct (H3 c Hc) as (e & He & Ha & Hr & Hm). unfold holds. cbn [notify_one set_inner rs_inner].
    destruct (decide (k = rt_key c)) as [->|Hne].
    + rewrite lookup_insert_eq. exists e'. rewrite He in He'. destruct He' as [-> ->].
      split_and!; [done..|lia|]. intros m _ _. lia.
    + rewrite !lookup_insert_ne //. by exists e.
  - intros k' e a [[<- <-]|[Hne He]]%lookup_insert_Some Ha; [|by eapply H4].
    destruct (rs_inner s !! k) as [e|] eqn:He; destruct He' as [Hact _]; [|congruence].
    apply (H4 k e a He). congruence.
  - intros k' e [[<- <-]|[Hne He]]%lookup_insert_Some; [|specialize (H6 k' e He); lia].
    destruct (rs_inner s !! k) as [e|] eqn:He; destruct He' as [_ ->]; [specialize (H6 k e He)|]; lia.
  - intros k' m [[<- <-]|[Hne Hm]]%lookup_insert_Some.
    + split; [done|]. left. rewrite lookup_insert_eq. by eexists.
    + rewrite lookup_insert_ne //. by apply H7.
Qed.

(** ** Claims *)

(** What makes a claim: the target is nobody's, the attempt is new. *)
Lemma claim_sound s asked served n cs k e attempt s' :
  sound s asked served n cs → rs_inner s !! k = Some e → sr_active e = None →
  next_attempt_id s = Some (attempt, s') →
  sound (set_live (set_inner s' (<[k := {| sr_next_due := sr_next_due e; sr_failures := sr_failures e;
      sr_requested := sr_requested e; sr_active := Some attempt; sr_force := sr_force e |}]> (rs_inner s')))
    ({[(k, attempt)]} ∪ rs_live s')) asked served n
    ({| rt_key := k; rt_attempt := attempt; rt_covered := sr_requested e; rt_force := sr_force e |} :: cs).
Proof.
  intros [H1 H2 H3 H4 H5 H6 H7] He Hnone Hnext. unfold next_attempt_id in Hnext.
  apply bind_Some in Hnext as (next & [-> Hmax]%checked_add_Some & [= <- <-]).
  cbn [set_inner set_live rs_inner rs_next_attempt].
  assert (∀ c, c ∈ cs → rt_key c ≠ k) as Hne.
  { intros c Hc <-. destruct (H3 c Hc) as (e' & He' & Ha & _). congruence. }
  split; cbn [set_inner set_live rs_inner rs_next_attempt].
  - rewrite fmap_cons. apply NoDup_cons. split; [|done]. intros (c & Hk & Hc)%list_elem_of_fmap. by apply (Hne c Hc).
  - rewrite fmap_cons. apply NoDup_cons. split; [|done]. intros (c & Hk & Hc)%list_elem_of_fmap.
    specialize (H5 c Hc). simpl in Hk. lia.
  - intros c [->|Hc]%elem_of_cons.
    + eexists. cbn [rt_key set_live set_inner rs_inner]. rewrite lookup_insert_eq. split_and!; [done..|].
      cbn [rt_attempt]. intros m Hm Hlt. destruct (H7 k m Hm). lia.
    + destruct (H3 c Hc) as (e' & He'). exists e'. cbn [set_live set_inner rs_inner].
      rewrite lookup_insert_ne //. by apply not_eq_sym, Hne.
  - intros k' e' a [[<- <-]|[Hne' He']]%lookup_insert_Some Ha.
    + injection Ha as <-. eexists. split; [by left|done].
    + destruct (H4 k' e' a He' Ha) as (c & Hc & ?). exists c. split; [by right|done].
  - intros c [->|Hc]%elem_of_cons; [simpl; lia|]. specialize (H5 c Hc). lia.
  - intros k' e' [[<- <-]|[_ He']]%lookup_insert_Some; [by apply (H6 k e)|by eapply H6].
  - intros k' m Hm. destruct (H7 k' m Hm) as [Hle Hor]. split; [lia|].
    destruct Hor as [Hin|?]; [left|by right]. destruct (decide (k = k')) as [->|];
      [rewrite lookup_insert_eq; by eexists|by rewrite lookup_insert_ne].
Qed.

(** The keys are in the table, and nobody owns them. *)
Definition claimable s (keys : list ResyncTargetKey) : Prop :=
  NoDup keys ∧ ∀ k, k ∈ keys → ∃ e, rs_inner s !! k = Some e ∧ sr_active e = None.

(** A claim leaves the other entries alone. *)
Lemma claimable_claim s k e attempt s' live keys :
  next_attempt_id s = Some (attempt, s') → claimable s (k :: keys) →
  claimable (set_live (set_inner s' (<[k := e]> (rs_inner s'))) live) keys.
Proof.
  intros Hnext [[Hk Hnd]%NoDup_cons Hfree]. apply bind_Some in Hnext as (? & _ & [= _ <-]).
  split; [done|]. intros k' Hk'. destruct (Hfree k') as (e' & He'); [by right|]. exists e'.
  cbn [set_live set_inner rs_inner]. rewrite lookup_insert_ne; [by intros ->|done].
Qed.

Lemma claimable_app s keys keys' : claimable s (keys ++ keys') → claimable s keys ∧ claimable s keys'.
Proof.
  intros [(H1 & _ & H2)%NoDup_app Hfree]. split; (split; [done|]); intros k Hk; apply Hfree, elem_of_app; auto.
Qed.

Lemma claim_keys_keys keys keys' s batch s' batch' exhausted :
  claimable s (keys ++ keys') → claim_keys s keys batch = (s', batch', exhausted) →
  claimable s' keys' ∧ (exhausted = false → rt_key <$> batch' = (rt_key <$> batch) ++ keys).
Proof.
  revert s batch. induction keys as [|k keys IH]; intros s batch Hcl; cbn [claim_keys].
  { intros [= <- <- <-]. by rewrite app_nil_r. }
  destruct (proj2 Hcl k) as (e & He & Hnone); [by left|]. rewrite He.
  destruct (next_attempt_id s) as [[attempt s1]|] eqn:Hnext.
  2: { intros [= <- <- <-]. split; [by apply (claimable_app s (k :: keys))|done]. }
  intros Hrun. eapply IH in Hrun as [Hcl' Hall]; [|by eapply claimable_claim].
  split; [done|]. intros Hex. by rewrite (Hall Hex) fmap_app -app_assoc.
Qed.

Lemma claim_keys_sound keys s asked served n cs batch s' batch' exhausted :
  claimable s keys → sound s asked served n (batch ++ cs) →
  claim_keys s keys batch = (s', batch', exhausted) → sound s' asked served n (batch' ++ cs).
Proof.
  revert s batch. induction keys as [|k keys IH]; intros s batch Hcl Hs; cbn [claim_keys].
  { by intros [= <- <- <-]. }
  destruct (proj2 Hcl k) as (e & He & Hnone); [by left|]. rewrite He.
  destruct (next_attempt_id s) as [[attempt s1]|] eqn:Hnext; [|by intros [= <- <- <-]].
  pose proof (claim_sound _ _ _ _ _ _ _ _ _ Hs He Hnone Hnext) as Hs1.
  apply IH; [by eapply claimable_claim|]. rewrite -app_assoc. cbn [app]. by rewrite -Permutation_middle.
Qed.

(** Attempts run out only at the end of the counter. *)
Lemma claim_keys_enough keys s batch s' batch' exhausted :
  claimable s keys → rs_next_attempt s + N.of_nat (length keys) ≤ u64_max →
  claim_keys s keys batch = (s', batch', exhausted) →
  exhausted = false ∧ rs_next_attempt s' = rs_next_attempt s + N.of_nat (length keys).
Proof.
  revert s batch. induction keys as [|k keys IH]; intros s batch Hcl Hmax; cbn [claim_keys length] in *.
  { intros [= <- <- <-]. split; [done|lia]. }
  destruct (proj2 Hcl k) as (e & He & Hnone); [by left|]. rewrite He.
  destruct (next_attempt_id s) as [[attempt s1]|] eqn:Hnext.
  2: { unfold next_attempt_id, checked_add in Hnext. destruct (N.leb_spec (rs_next_attempt s + 1) u64_max); [done|lia]. }
  assert (rs_next_attempt s1 = rs_next_attempt s + 1) as Hs1
    by by apply bind_Some in Hnext as (? & [-> _]%checked_add_Some & [= _ <-]).
  intros Hrun. eapply IH in Hrun as [Hex Hn]; [|by eapply claimable_claim|cbn [set_live set_inner rs_next_attempt]; lia].
  split; [done|]. rewrite Hn. cbn [set_live set_inner rs_next_attempt]. lia.
Qed.

(** The keys of claimed batches. *)
Definition batch_keys (out : list (PeerId * list ResyncTarget)) : list (PeerId * list ResyncTargetKey) :=
  (λ pb : PeerId * list ResyncTarget, (pb.1, rt_key <$> pb.2)) <$> out.

Lemma claim_peers_sound due s asked served n cs out s' out' :
  claimable s (concat due.*2) → sound s asked served n (concat out.*2 ++ cs) →
  claim_peers s due out = (s', out') → sound s' asked served n (concat out'.*2 ++ cs).
Proof.
  revert s out. induction due as [|[peer keys] due IH]; intros s out Hcl Hs; cbn [claim_peers].
  { by intros [= <- <-]. }
  destruct (claim_keys s keys []) as [[s1 batch] exhausted] eqn:Hrun.
  destruct (claimable_app _ _ _ Hcl) as [Hck _]. destruct (claim_keys_keys _ _ _ _ _ _ _ Hcl Hrun) as [Hcl1 _].
  eapply claim_keys_sound in Hrun as Hs1; [|exact Hck|exact Hs].
  assert (sound s1 asked served n (concat (if bool_decide (batch = []) then out else out ++ [(peer, batch)]).*2 ++ cs)) as Hs2.
  { case_bool_decide as Hb; [by rewrite Hb in Hs1|].
    rewrite fmap_app concat_app /= app_nil_r -app_assoc. by rewrite Permutation_app_swap_app. }
  destruct exhausted; [by intros [= <- <-]|]. by apply IH.
Qed.

Lemma claim_peers_all due s out s' out' :
  claimable s (concat due.*2) → Forall (λ pk, pk.2 ≠ []) due →
  rs_next_attempt s + N.of_nat (length (concat due.*2)) ≤ u64_max →
  claim_peers s due out = (s', out') → batch_keys out' = batch_keys out ++ due.
Proof.
  revert s out. induction due as [|[peer keys] due IH]; intros s out Hcl Hne Hmax; cbn [claim_peers].
  { intros [= <- <-]. by rewrite app_nil_r. }
  apply Forall_cons in Hne as [Hk Hne]. cbn [fmap list_fmap concat snd] in Hcl, Hmax, Hk.
  rewrite length_app in Hmax. destruct (claim_keys s keys []) as [[s1 batch] exhausted] eqn:Hrun.
  destruct (claimable_app _ _ _ Hcl) as [Hck _].
  destruct (claim_keys_enough _ _ _ _ _ _ Hck ltac:(lia) Hrun) as [-> Hnext].
  destruct (claim_keys_keys _ _ _ _ _ _ _ Hcl Hrun) as [Hcl1 Hall].
  specialize (Hall eq_refl). cbn [fmap list_fmap app] in Hall.
  rewrite bool_decide_false; [intros ->; by rewrite -Hall in Hk|]. intros Hrun'.
  eapply IH in Hrun'; [|done..|by rewrite Hnext; lia].
  rewrite Hrun'. unfold batch_keys. rewrite fmap_app -app_assoc /=. by rewrite Hall.
Qed.

(** ** The groups *)

Section groups.
Context (max_peers max_targets : nat).
Implicit Types (due : gmap PeerId (list ResyncTargetKey)) (l : list (Instant * ResyncTargetKey)).

(** The keys one peer gets. *)
Definition key_group l (p : PeerId) (keys : list ResyncTargetKey) : Prop :=
  keys ≠ [] ∧ NoDup keys ∧ (length keys ≤ Nat.max 1 max_targets)%nat ∧ ∀ k, k ∈ keys → k.1 = p ∧ k ∈ l.*2.

(** What the grouping loop has made of the targets it saw. *)
Record grouped l due : Prop := {
  gr_keys : ∀ p keys, due !! p = Some keys → key_group l p keys;
  gr_peers : (size due ≤ max_peers)%nat;
  gr_left : ∀ i t k, l !! i = Some (t, k) →
    match due !! k.1 with
    | Some keys => k ∈ keys ∨ (max_targets ≤ length keys)%nat ∧ ∀ k', k' ∈ keys → k' ∈ (take i l).*2
    | None => size due = max_peers ∧ ∀ p keys, due !! p = Some keys → ∃ k', k' ∈ keys ∧ k' ∈ (take i l).*2
    end;
}.

Lemma grouped_nil : grouped [] ∅.
Proof. split; [done|rewrite map_size_empty; lia|done]. Qed.

Lemma key_group_snoc l x p keys : key_group l p keys → key_group (l ++ [x]) p keys.
Proof.
  intros (H1 & H2 & H3 & H4). split_and!; [done..|]. intros k Hk. destruct (H4 k Hk) as [? ?].
  rewrite fmap_app elem_of_app. auto.
Qed.

(** A position of a list that grew: an old one or the new one. *)
Lemma lookup_snoc_take {A} (l : list A) x i y :
  (l ++ [x]) !! i = Some y →
  l !! i = Some y ∧ take i (l ++ [x]) = take i l ∨ y = x ∧ take i (l ++ [x]) = l.
Proof.
  intros [Hi|[Hlen Hx]]%lookup_app_Some.
  - left. split; [done|]. rewrite take_app_le //. apply lookup_lt_Some in Hi. lia.
  - pose proof (lookup_lt_Some _ _ _ Hx) as Hlt. simpl in Hlt.
    apply list_elem_of_lookup_2, list_elem_of_singleton in Hx. right. split; [done|]. rewrite take_app_le; [lia|]. apply take_ge. lia.
Qed.

Lemma grouped_skip l due t k :
  match due !! k.1 with Some keys => (max_targets ≤ length keys)%nat | None => size due = max_peers end →
  grouped l due → grouped (l ++ [(t, k)]) due.
Proof.
  intros Hfull [Hkeys Hpeers Hleft]. split; [intros p keys Hp; by apply key_group_snoc, Hkeys|done|].
  intros i t' k' [[Hi Htake]|[[= -> ->] Htake]]%lookup_snoc_take; rewrite Htake; [by eapply Hleft|].
  destruct (due !! k.1) as [keys|] eqn:Hdue.
  - right. split; [done|]. intros x Hx. by apply (Hkeys _ _ Hdue).
  - split; [done|]. intros p keys' Hp. destruct (Hkeys p keys' Hp) as (Hne & _ & _ & Hin).
    destruct keys' as [|x keys']; [done|]. exists x. split; [by left|]. apply Hin. by left.
Qed.

Lemma grouped_add l due t k :
  k ∉ l.*2 →
  match due !! k.1 with Some keys => (length keys < max_targets)%nat | None => (size due < max_peers)%nat end →
  grouped l due → grouped (l ++ [(t, k)]) (<[k.1 := default [] (due !! k.1) ++ [k]]> due).
Proof.
  intros Hnew Hroom [Hkeys Hpeers Hleft]. split.
  - intros p keys' [[<- <-]|[Hp Hkeys']]%lookup_insert_Some; [|by apply key_group_snoc, Hkeys].
    assert (default [] (due !! k.1) = [] ∨ key_group l k.1 (default [] (due !! k.1))) as Hold.
    { destruct (due !! k.1) as [keys|] eqn:Hdue; [right; by apply Hkeys|by left]. }
    assert (length (default [] (due !! k.1)) < Nat.max 1 max_targets)%nat as Hlen.
    { destruct (due !! k.1); simpl; lia. }
    destruct Hold as [->|(_ & Hnd & _ & Hin)].
    + split_and!; [done|apply NoDup_singleton|simpl; lia|]. intros x ->%list_elem_of_singleton. rewrite fmap_app. set_solver.
    + split_and!; [by destruct (default [] _)|apply NoDup_app; split_and!; [done| |apply NoDup_singleton]| |].
      * intros x Hx ->%list_elem_of_singleton. by apply Hnew, Hin.
      * rewrite length_app /=. lia.
      * intros x [[? ?]%Hin| ->%list_elem_of_singleton]%elem_of_app; rewrite fmap_app; set_solver.
  - rewrite map_size_insert. destruct (due !! k.1); simpl; lia.
  - intros i t' k' [[Hi Htake]|[[= -> ->] Htake]]%lookup_snoc_take; rewrite Htake;
      [|rewrite lookup_insert_eq; left; set_solver].
    specialize (Hleft i t' k' Hi). destruct (decide (k.1 = k'.1)) as [Heq|Hne'].
    + rewrite -Heq lookup_insert_eq. rewrite -Heq in Hleft. left. destruct (due !! k.1) as [keys|]; simpl in *; [|lia].
      destruct Hleft as [?|[? _]]; [set_solver|lia].
    + rewrite lookup_insert_ne //. destruct (due !! k'.1) as [keys'|]; [done|]. destruct Hleft as [Hsize Hall].
      destruct (due !! k.1) as [keys|] eqn:Hdue; [|lia]. rewrite map_size_insert Hdue. split; [done|].
      intros p keys' [[<- <-]|[_ Hp]]%lookup_insert_Some; [|by eapply Hall].
      destruct (Hall _ _ Hdue) as (x & Hx & ?). exists x. split; [set_solver|done].
Qed.

Lemma grouped_step l due t k :
  k ∉ l.*2 → grouped l due → grouped (l ++ [(t, k)]) (due_step max_peers max_targets due (t, k)).
Proof.
  intros Hnew Hg. pose proof (gr_peers _ _ Hg) as Hsize.
  pose proof (grouped_add l due t k Hnew) as Hadd. pose proof (grouped_skip l due t k) as Hskip.
  unfold due_step. cbn [snd]. destruct (due !! k.1) as [keys|] eqn:Hdue; case_bool_decide as Hlim.
  - by apply Hadd.
  - apply Hskip; [lia|done].
  - by apply Hadd.
  - apply Hskip; [lia|done].
Qed.

Lemma grouped_fold l : NoDup l.*2 → grouped l (foldl (due_step max_peers max_targets) ∅ l).
Proof.
  induction l as [|[t k] l IH] using rev_ind; intros Hnd; [apply grouped_nil|].
  rewrite fmap_app in Hnd. apply NoDup_app in Hnd as (Hl & Hk & _).
  rewrite foldl_snoc. apply grouped_step; [|by apply IH]. intros Hin. apply (Hk k Hin). by left.
Qed.
End groups.

(** ** Turns *)

Lemma busy_peers_spec (targets : gmap ResyncTargetKey ScheduledResync) p :
  p ∈ busy_peers targets ↔ ∃ k e, targets !! k = Some e ∧ is_Some (sr_active e) ∧ k.1 = p.
Proof.
  unfold busy_peers. rewrite elem_of_list_to_set list_elem_of_omap. split.
  - intros ([k e] & Hin%elem_of_bt_entries & Hp). exists k, e. simpl in Hp. by case_bool_decide; simplify_eq.
  - intros (k & e & He & Ha & <-). exists (k, e). rewrite elem_of_bt_entries. by rewrite bool_decide_true.
Qed.

(** The target may be claimed now. *)
Definition is_ready s (now : Instant) k e : Prop :=
  rs_inner s !! k = Some e ∧ sr_active e = None ∧ sr_next_due e ≤ now ∧ k.1 ∉ busy_peers (rs_inner s).

Lemma ready_targets_spec s now t k :
  (t, k) ∈ ready_targets s now ↔ ∃ e, is_ready s now k e ∧ sr_next_due e = t.
Proof.
  unfold ready_targets, is_ready. rewrite merge_sort_Permutation list_elem_of_omap. split.
  - intros ([k' e] & Hin%elem_of_bt_entries & Hr). cbn [fst snd] in Hr.
    destruct (_ && _) eqn:Hc; [|done]. injection Hr as <- <-. exists e.
    apply andb_true_iff in Hc as [[Ha%bool_decide_eq_true Hd%N.leb_le]%andb_true_iff Hb%bool_decide_eq_true]. done.
  - intros (e & (He & Ha & Hd & Hb) & <-). exists (k, e). rewrite elem_of_bt_entries. split; [done|]. cbn [fst snd].
    rewrite !bool_decide_true // (proj2 (N.leb_le _ _) Hd). done.
Qed.

Lemma ready_targets_NoDup s now : NoDup (ready_targets s now).*2.
Proof.
  unfold ready_targets. rewrite merge_sort_Permutation.
  pose proof (bt_entries_NoDup (rs_inner s)) as Hnd. induction (bt_entries (rs_inner s)) as [|[k e] l IH]; [done|].
  rewrite fmap_cons in Hnd. apply NoDup_cons in Hnd as [Hk Hnd]. cbn [omap list_omap fst snd].
  destruct (_ && _); [|by apply IH]. rewrite fmap_cons. apply NoDup_cons. split; [|by apply IH].
  intros ([t' k'] & Heq & ([k2 e2] & Hin & Hr)%list_elem_of_omap)%list_elem_of_fmap. cbn [fst snd] in *.
  destruct (_ && _); [|done]. injection Hr as _ <-. apply Hk. rewrite Heq. apply list_elem_of_fmap. by exists (k2, e2).
Qed.

Lemma ready_targets_sorted s now i j x y :
  ready_targets s now !! i = Some x → ready_targets s now !! j = Some y → (i < j)%nat → ble x y.
Proof.
  intros Hi Hj Hlt.
  assert (StronglySorted ble (ready_targets s now)) as Hs by apply (StronglySorted_merge_sort ble _).
  revert i j Hi Hj Hlt. induction Hs as [|z l Hs IH Hz]; intros i j Hi Hj Hlt; [done|].
  destruct j as [|j]; [lia|]. destruct i as [|i]; simpl in *.
  - injection Hi as <-. rewrite Forall_forall in Hz. apply Hz. by eapply list_elem_of_lookup_2.
  - eapply IH; [done..|lia].
Qed.

Lemma elem_of_concat {A} (x : A) (ls : list (list A)) : x ∈ concat ls ↔ ∃ l, x ∈ l ∧ l ∈ ls.
Proof. rewrite list_elem_of_In in_concat. setoid_rewrite list_elem_of_In. naive_solver. Qed.

(** The keys of different peers are different. *)
Lemma groups_NoDup (due : list (PeerId * list ResyncTargetKey)) :
  NoDup due.*1 → (∀ p keys, (p, keys) ∈ due → NoDup keys ∧ ∀ k, k ∈ keys → k.1 = p) → NoDup (concat due.*2).
Proof.
  induction due as [|[p keys] due IH]; intros Hp Hk; [by apply NoDup_nil_2|].
  rewrite fmap_cons in Hp. apply NoDup_cons in Hp as [Hnew Hp]. cbn [fmap list_fmap concat snd].
  apply NoDup_app. split_and!; [apply (Hk p); by left| |apply IH; [done|]; intros; apply Hk; by right].
  intros k Hin (keys' & Hin' & ([p' keys2] & -> & Hd)%list_elem_of_fmap)%elem_of_concat. cbn [snd] in Hin'.
  apply Hnew. destruct (Hk p keys) as [_ H1]; [by left|]. destruct (Hk p' keys2) as [_ H2]; [by right|].
  rewrite -(H1 k Hin) (H2 k Hin'). apply list_elem_of_fmap. by exists (p', keys2).
Qed.

Section due.
Context (s : ResyncScheduler) (now : Instant) (max_peers max_targets : nat).

Abbreviation due := (foldl (due_step max_peers max_targets) ∅ (ready_targets s now)).

Lemma due_grouped : grouped max_peers max_targets (ready_targets s now) due.
Proof. apply grouped_fold, ready_targets_NoDup. Qed.

Lemma due_ready p keys k : due !! p = Some keys → k ∈ keys → k.1 = p ∧ ∃ e, is_ready s now k e.
Proof.
  intros Hp Hk. destruct (gr_keys _ _ _ _ due_grouped p keys Hp) as (_ & _ & _ & Hin).
  destruct (Hin k Hk) as [? ([t k'] & -> & Hr)%list_elem_of_fmap]. split; [done|].
  apply ready_targets_spec in Hr as (e & He & _). by exists e.
Qed.

Lemma due_claimable : claimable s (concat (bt_entries due).*2).
Proof.
  split.
  - apply groups_NoDup; [apply bt_entries_NoDup|]. intros p keys Hp%elem_of_bt_entries.
    destruct (gr_keys _ _ _ _ due_grouped p keys Hp) as (_ & Hnd & _ & Hin). split; [done|]. by intros k [? _]%Hin.
  - intros k (keys & Hk & ([p keys'] & -> & Hp%elem_of_bt_entries)%list_elem_of_fmap)%elem_of_concat.
    destruct (due_ready p keys' k Hp Hk) as (_ & e & He & Ha & _). by exists e.
Qed.

Lemma due_length : (length (concat (bt_entries due).*2) ≤ size (rs_inner s))%nat.
Proof.
  destruct due_claimable as [Hnd Hin]. rewrite -(size_list_to_set (C := gset ResyncTargetKey)) // -size_dom.
  apply subseteq_size. intros k Hk%elem_of_list_to_set. destruct (Hin k Hk) as (e & He & _).
  apply elem_of_dom. by eexists.
Qed.

Lemma due_targets_sound asked served n cs s' out :
  sound s asked served n cs → due_targets s now max_peers max_targets = (s', out) →
  sound s' asked served n (concat out.*2 ++ cs).
Proof. intros Hs Hrun. eapply (claim_peers_sound (bt_entries due) s _ _ _ _ []); [apply due_claimable|exact Hs|exact Hrun]. Qed.

Lemma due_targets_keys s' out :
  rs_next_attempt s + N.of_nat (size (rs_inner s)) ≤ u64_max →
  due_targets s now max_peers max_targets = (s', out) → batch_keys out = bt_entries due.
Proof.
  intros Hmax Hrun. pose proof due_length as Hlen.
  apply (claim_peers_all (bt_entries due) s [] s' out); [apply due_claimable| |lia|exact Hrun].
  apply Forall_forall. intros [p keys] Hp%elem_of_bt_entries. by destruct (gr_keys _ _ _ _ due_grouped p keys Hp).
Qed.
End due.

(** The target was due before the other: earlier, or at the same time with a smaller key. *)
Definition due_before s k k' : Prop := ∃ e e',
  rs_inner s !! k = Some e ∧ rs_inner s !! k' = Some e' ∧ blt (sr_next_due e, k) (sr_next_due e', k').

Lemma ready_before s now i t k k' :
  ready_targets s now !! i = Some (t, k) → k' ∈ (take i (ready_targets s now)).*2 → due_before s k' k.
Proof.
  intros Hi ([t' k2] & -> & (j & Hj)%list_elem_of_lookup)%list_elem_of_fmap. cbn [snd].
  apply lookup_take_Some in Hj as [Hj Hlt].
  pose proof (list_elem_of_lookup_2 _ _ _ Hi) as (e & (He & _) & <-)%ready_targets_spec.
  pose proof (list_elem_of_lookup_2 _ _ _ Hj) as (e' & (He' & _) & <-)%ready_targets_spec.
  exists e', e. split_and!; [done..|]. pose proof (ready_targets_sorted s now j i _ _ Hj Hi Hlt) as Hle.
  apply ble_lt_eq in Hle as [?|Heq]; [done|]. exfalso. injection Heq as _ Hk. pose proof (ready_targets_NoDup s now) as Hnd.
  assert (j = i); [|lia]. eapply NoDup_lookup; [exact Hnd|by rewrite list_lookup_fmap Hj|].
  by rewrite list_lookup_fmap Hi /= Hk.
Qed.

(** Turns are fair. A round claims ready targets only, for at most as
    many peers as asked, none of which was taking a turn, and at most the given number
    of targets each. A ready target is passed over only for targets that were due
    before it: those that fill its peer's batch, or one of each of the peers that fill
    the round. *)
Theorem due_targets_fair s now max_peers max_targets s' out :
  rs_next_attempt s + N.of_nat (size (rs_inner s)) ≤ u64_max →
  due_targets s now max_peers max_targets = (s', out) →
  NoDup out.*1 ∧ (length out ≤ max_peers)%nat ∧
  (∀ p batch, (p, batch) ∈ out → batch ≠ [] ∧ (length batch ≤ Nat.max 1 max_targets)%nat ∧
    ∀ c, c ∈ batch → (rt_key c).1 = p ∧ ∃ e, is_ready s now (rt_key c) e) ∧
  ∀ k e, is_ready s now k e →
    (∃ batch, (k.1, batch) ∈ out ∧ (k ∈ rt_key <$> batch ∨
      (max_targets ≤ length batch)%nat ∧ ∀ c, c ∈ batch → due_before s (rt_key c) k)) ∨
    length out = max_peers ∧ ∀ p batch, (p, batch) ∈ out → ∃ c, c ∈ batch ∧ due_before s (rt_key c) k.
Proof.
  intros Hmax Hrun. pose proof (due_targets_keys _ _ _ _ _ _ Hmax Hrun) as Hkeys.
  set (groups := foldl (due_step max_peers max_targets) ∅ (ready_targets s now)) in *.
  pose proof (due_grouped s now max_peers max_targets) as Hg. fold groups in Hg.
  assert (∀ p batch, (p, batch) ∈ out → groups !! p = Some (rt_key <$> batch)) as Hout.
  { intros p batch Hin. apply elem_of_bt_entries. rewrite -Hkeys. apply list_elem_of_fmap. by exists (p, batch). }
  assert (∀ p keys, groups !! p = Some keys → ∃ batch, (p, batch) ∈ out ∧ keys = rt_key <$> batch) as Hback.
  { intros p keys Hp%elem_of_bt_entries. rewrite -Hkeys in Hp. apply list_elem_of_fmap in Hp as ([p' batch] & [= -> ->] & ?).
    by exists batch. }
  assert (out.*1 = (bt_entries groups).*1) as Hpeers.
  { rewrite -Hkeys. unfold batch_keys. rewrite -list_fmap_compose. by apply list_fmap_ext. }
  assert (length out = size groups) as Hsize.
  { rewrite -(length_fmap fst) Hpeers bt_entries_keys bt_elements_length. apply size_dom. }
  split_and!.
  - rewrite Hpeers. apply bt_entries_NoDup.
  - rewrite Hsize. apply Hg.
  - intros p batch Hin%Hout. destruct (gr_keys _ _ _ _ Hg _ _ Hin) as (Hne & _ & Hlen & _).
    rewrite length_fmap in Hlen. split_and!; [by intros ->|done|]. intros c Hc.
    eapply due_ready; [exact Hin|by apply list_elem_of_fmap_2].
  - intros k e Hk. assert ((sr_next_due e, k) ∈ ready_targets s now) as (i & Hi)%list_elem_of_lookup
      by (apply ready_targets_spec; by exists e).
    pose proof (gr_left _ _ _ _ Hg _ _ _ Hi) as Hleft. destruct (groups !! k.1) as [keys|] eqn:Hp.
    + left. destruct (Hback _ _ Hp) as (batch & Hin & ->). exists batch. split; [done|].
      destruct Hleft as [?|[Hfull Hbefore]]; [by left|right]. rewrite length_fmap in Hfull. split; [done|].
      intros c Hc. eapply ready_before, Hbefore; [exact Hi|by apply list_elem_of_fmap_2].
    + right. destruct Hleft as [Hfull Hall]. split; [by rewrite Hsize|]. intros p batch Hin%Hout.
      destruct (Hall _ _ Hin) as (k' & (c & -> & Hc)%list_elem_of_fmap & Hbefore). exists c. split; [done|].
      by eapply ready_before.
Qed.

(** ** Completions *)

Lemma sound_owned s asked served n c cs :
  sound s asked served n (c :: cs) → ∃ e, owned_target s c = Some e ∧ rs_inner s !! rt_key c = Some e.
Proof.
  intros Hs. destruct (sd_held _ _ _ _ _ Hs c) as (e & He & Ha & _); [by left|]. exists e. split; [|done].
  unfold owned_target. rewrite He /=. by rewrite bool_decide_true.
Qed.

(** The target has no owner any more, the other targets are as before. *)
Lemma sound_end s asked served served' n c cs (targets : gmap ResyncTargetKey ScheduledResync) :
  (∀ k, k ≠ rt_key c → targets !! k = rs_inner s !! k) →
  (∀ k, k ≠ rt_key c → served' !! k = served !! k) →
  (∀ e', targets !! rt_key c = Some e' → sr_active e' = None ∧ sr_requested e' ≤ n + 1) →
  (∀ m, asked !! rt_key c = Some m → is_Some (targets !! rt_key c) ∨ ∃ a, served' !! rt_key c = Some a ∧ m ≤ a) →
  sound s asked served n (c :: cs) → sound (set_inner s targets) asked served' n cs.
Proof.
  intros Hother Hserved Hone Hask [H1 H2 H3 H4 H5 H6 H7].
  rewrite fmap_cons in H1. apply NoDup_cons in H1 as [Hk H1]. rewrite fmap_cons in H2. apply NoDup_cons in H2 as [_ H2].
  split; try done; cbn [set_inner rs_inner rs_next_attempt].
  - intros c' Hc'. destruct (H3 c') as (e & He); [by right|]. exists e. cbn [set_inner rs_inner].
    rewrite Hother //. intros Heq. apply Hk. rewrite -Heq. by apply list_elem_of_fmap_2.
  - intros k e a He Ha. destruct (decide (k = rt_key c)) as [->|Hne].
    { destruct (Hone e He). congruence. }
    rewrite Hother // in He. destruct (H4 k e a He Ha) as (c' & [->|Hc']%elem_of_cons & ?); [naive_solver|by exists c'].
  - intros c' Hc'. apply H5. by right.
  - intros k e He. destruct (decide (k = rt_key c)) as [->|Hne]; [by apply Hone|]. rewrite Hother // in He. by eapply H6.
  - intros k m Hm. destruct (H7 k m Hm) as [Hle Hor]. split; [done|].
    destruct (decide (k = rt_key c)) as [->|Hne]; [by apply Hask|]. by rewrite Hother // Hserved.
Qed.

Lemma sound_release s asked served n c cs e e' :
  sound s asked served n (c :: cs) → rs_inner s !! rt_key c = Some e →
  sr_active e' = None → sr_requested e' = sr_requested e →
  sound (set_inner s (<[rt_key c := e']> (rs_inner s))) asked served n cs.
Proof.
  intros Hs He Ha Hr. eapply sound_end; [by intros k Hne; rewrite lookup_insert_ne|done| | |exact Hs];
    rewrite lookup_insert_eq; [|left; by eexists].
  intros ? [= <-]. split; [done|]. rewrite Hr. by eapply sd_requested.
Qed.

(** The history variable [served] after a clean completion. *)
Definition served_after s c served : clocked :=
  match owned_target s c with
  | Some e => if (sr_requested e =? rt_covered c) && bool_decide (sr_force e = rt_force c)
              then <[rt_key c := rt_attempt c]> served else served
  | None => served
  end.

Lemma complete_clean_sound s now asked served n c cs :
  sound s asked served n (c :: cs) → sound (complete_clean s now c) asked (served_after s c served) n cs.
Proof.
  intros Hs. destruct (sound_owned _ _ _ _ _ _ Hs) as (e & Hown & He). unfold complete_clean, served_after. rewrite Hown.
  rewrite -negb_andb. destruct ((sr_requested e =? rt_covered c) && _) eqn:Hdone; cbn [negb].
  2: { apply sound_notify. by eapply sound_release. }
  apply andb_true_iff in Hdone as [Hreq%N.eqb_eq _].
  eapply sound_end; [by intros k Hne; rewrite lookup_delete_ne|by intros k Hne; rewrite lookup_insert_ne| | |exact Hs];
    rewrite lookup_delete_eq; [done|].
  intros m Hm. right. exists (rt_attempt c). rewrite lookup_insert_eq. split; [done|].
  destruct (sd_held _ _ _ _ _ Hs c) as (e' & He' & _ & _ & Hlost); [by left|]. specialize (Hlost m Hm).
  assert (e' = e) as -> by congruence. lia.
Qed.

Lemma complete_dirty_sound s now asked served n c cs after :
  sound s asked served n (c :: cs) → sound (complete_dirty s now c after) asked served n cs.
Proof.
  intros Hs. destruct (sound_owned _ _ _ _ _ _ Hs) as (e & Hown & He). unfold complete_dirty. rewrite Hown.
  apply sound_notify. by eapply sound_release.
Qed.

Lemma complete_failed_sound s now asked served n c cs initial_backoff max_backoff :
  sound s asked served n (c :: cs) → sound (complete_failed s now c initial_backoff max_backoff) asked served n cs.
Proof.
  intros Hs. destruct (sound_owned _ _ _ _ _ _ Hs) as (e & Hown & He). unfold complete_failed. rewrite Hown.
  apply sound_notify. by eapply sound_release.
Qed.

Lemma release_claim_sound s now asked served n c cs after :
  sound s asked served n (c :: cs) → sound (release_claim s now c after) asked served n cs.
Proof.
  intros Hs. unfold release_claim. set (s1 := (end_attempt s (rt_key c) (rt_attempt c)).2).
  assert (sound s1 asked served n (c :: cs)) as Hs1 by by apply (sound_same s).
  destruct (sound_owned _ _ _ _ _ _ Hs1) as (e & Hown & He). rewrite Hown.
  apply sound_notify. by eapply sound_release.
Qed.
