(* ===== verification/SchedulerRun.v ===== *)
(** * Runs of the scheduler

    The scheduler with the leases and guards that hold its claims, as a step relation:
    requests, rounds that hand their claims to leases, guards taken from leases,
    completions, and drops at any time, in any order. *)

From stdpp Require Import relations.
From S2P Require Import Prelude Ids Scheduler SchedulerInv.

#[local] Open Scope N_scope.

Implicit Types (s : ResyncScheduler) (k : ResyncTargetKey) (e : ScheduledResync) (c : ResyncTarget).

Record System := {
  sy_sched : ResyncScheduler;
  sy_leases : list ResyncLease;
  sy_guards : list ClaimGuard;
  (** History: the attempt counter at the last request, the last clean completion that
      removed the target, the number of requests. *)
  sy_asked : clocked;
  sy_served : clocked;
  sy_requests : N;
}.

Implicit Types (y : System).

Definition with_sched y s : System :=
  {| sy_sched := s; sy_leases := sy_leases y; sy_guards := sy_guards y; sy_asked := sy_asked y;
     sy_served := sy_served y; sy_requests := sy_requests y |}.
Definition with_owners y (leases : list ResyncLease) (guards : list ClaimGuard) : System :=
  {| sy_sched := sy_sched y; sy_leases := leases; sy_guards := guards; sy_asked := sy_asked y;
     sy_served := sy_served y; sy_requests := sy_requests y |}.
Definition with_served y (served : clocked) : System :=
  {| sy_sched := sy_sched y; sy_leases := sy_leases y; sy_guards := sy_guards y; sy_asked := sy_asked y;
     sy_served := served; sy_requests := sy_requests y |}.

Definition asked_for y s k : System :=
  {| sy_sched := s; sy_leases := sy_leases y; sy_guards := sy_guards y;
     sy_asked := <[k := rs_next_attempt (sy_sched y)]> (sy_asked y);
     sy_served := sy_served y; sy_requests := sy_requests y + 1 |}.

(** A round of [dispatch_due_resyncs]: every batch gets its lease. *)
Definition dispatch y (now : Instant) (slots max_targets : nat) (retry_after : Duration) : System :=
  let '(s, out) := due_targets (sy_sched y) now slots max_targets in
  with_owners (with_sched y s) (sy_leases y ++ ((λ pb, lease pb.2 retry_after) <$> out)) (sy_guards y).

(** The claims of leases and guards. *)
Definition claims y : list ResyncTarget :=
  concat (lease_targets <$> sy_leases y) ++ omap cg_claim (sy_guards y).

(** Consuming guard [j] by [settle] before a transition. *)
Definition settled y (j : nat) : System := with_owners y (sy_leases y) (delete j (sy_guards y)).

Inductive step y : System → Prop :=
  | step_schedule now k after force :
      step y (asked_for y (schedule_after (sy_sched y) now k after force) k)
  | step_reconsider now k : step y (with_sched y (reconsider (sy_sched y) now k))
  | step_reachable now peer : step y (with_sched y (peer_reachable (sy_sched y) now peer))
  | step_dispatch now slots max_targets retry_after : step y (dispatch y now slots max_targets retry_after)
  | step_take i k l g :
      sy_leases y !! i = Some l → (take_claim l k).2 = Some g →
      step y (with_owners y (<[i := (take_claim l k).1]> (sy_leases y)) (sy_guards y ++ [g]))
  | step_drain i l :
      sy_leases y !! i = Some l →
      step y (with_owners y (<[i := (drain_claims l).1]> (sy_leases y)) (sy_guards y ++ (drain_claims l).2))
  | step_clean j g c now :
      sy_guards y !! j = Some g → (settle g).1 = Some c →
      step y (with_served (with_sched (settled y j) (complete_clean (guard_drop (sy_sched y) now (settle g).2) now c))
        (served_after (sy_sched y) c (sy_served y)))
  | step_dirty j g c now after :
      sy_guards y !! j = Some g → (settle g).1 = Some c →
      step y (with_sched (settled y j) (complete_dirty (guard_drop (sy_sched y) now (settle g).2) now c after))
  | step_failed j g c now initial_backoff max_backoff :
      sy_guards y !! j = Some g → (settle g).1 = Some c →
      step y (with_sched (settled y j)
        (complete_failed (guard_drop (sy_sched y) now (settle g).2) now c initial_backoff max_backoff))
  | step_guard_drop j g now :
      sy_guards y !! j = Some g → step y (with_sched (settled y j) (guard_drop (sy_sched y) now g))
  | step_lease_drop i l now :
      sy_leases y !! i = Some l →
      step y (with_owners (with_sched y (lease_drop (sy_sched y) now l)) (delete i (sy_leases y)) (sy_guards y))
  | step_end_attempt k attempt : step y (with_sched y (end_attempt (sy_sched y) k attempt).2)
  | step_begin attempt s keys :
      next_attempt_id (sy_sched y) = Some (attempt, s) → step y (with_sched y (begin_attempts s keys attempt))
  | step_live_drop attempt : step y (with_sched y (live_attempts_drop (sy_sched y) attempt)).

(** A process starts with an empty table. *)
Definition system_start (next : N) : System :=
  {| sy_sched := scheduler_new next; sy_leases := []; sy_guards := []; sy_asked := ∅; sy_served := ∅;
     sy_requests := 0 |}.

Inductive reachable (next : N) : System → Prop :=
  | reach_start : reachable next (system_start next)
  | reach_step y y' : reachable next y → step y y' → reachable next y'.

(** ** Moving claims *)

Lemma lease_targets_delete (l : ResyncLease) k c :
  le_claims l !! k = Some c → lease_targets l ≡ₚ c :: lease_targets (take_claim l k).1.
Proof.
  intros Hk. unfold lease_targets, take_claim. cbn [fst le_claims]. rewrite !bt_entries_perm.
  by rewrite -(map_to_list_delete _ k c).
Qed.

Lemma lease_targets_new cs retry : NoDup (rt_key <$> cs) → lease_targets (lease cs retry) ≡ₚ cs.
Proof.
  unfold lease_targets, lease. cbn [le_claims]. induction cs as [|c cs IH] using rev_ind; intros Hnd; [done|].
  rewrite fmap_app in Hnd. apply NoDup_app in Hnd as (Hnd & Hnew & _). specialize (IH Hnd).
  rewrite foldl_snoc. set (m := foldl _ ∅ cs) in *.
  assert (m !! rt_key c = None) as Hm.
  { assert (∀ cs' k c', foldl (λ m c, <[rt_key c := c]> m) (∅ : gmap ResyncTargetKey ResyncTarget) cs' !! k = Some c' →
      k ∈ rt_key <$> cs') as Hin.
    { clear. induction cs' as [|c cs IH] using rev_ind; intros k c'; [by rewrite lookup_empty|].
      rewrite foldl_snoc fmap_app elem_of_app. intros [[<- <-]|[_ ?%IH]]%lookup_insert_Some; [right; by left|by left]. }
    apply eq_None_not_Some. intros [c' Hc']. apply (Hnew (rt_key c)); [by eapply Hin|by left]. }
  rewrite bt_entries_perm map_to_list_insert // fmap_cons -bt_entries_perm IH. by rewrite -Permutation_cons_append.
Qed.

(** Replacing one element of a list of lists. *)
Lemma concat_insert {A} (ls : list (list A)) i l l' :
  ls !! i = Some l → l ++ concat (<[i := l']> ls) ≡ₚ l' ++ concat ls.
Proof.
  intros Hi. rewrite -{2}(take_drop_middle ls i l) // insert_take_drop; [by eapply lookup_lt_Some|].
  rewrite !concat_app /=. solve_Permutation.
Qed.
Lemma concat_delete {A} (ls : list (list A)) i l :
  ls !! i = Some l → concat ls ≡ₚ l ++ concat (delete i ls).
Proof.
  intros Hi. rewrite -{1}(take_drop_middle ls i l) // delete_take_drop !concat_app /=. solve_Permutation.
Qed.

Lemma omap_delete {A B} (f : A → option B) (l : list A) j x :
  l !! j = Some x → omap f l ≡ₚ option_list (f x) ++ omap f (delete j l).
Proof.
  intros Hj. rewrite -{1}(take_drop_middle l j x) // delete_take_drop !omap_app.
  cbn [omap list_omap]. destruct (f x); simpl; solve_Permutation.
Qed.

(** ** Every step keeps the scheduler sound *)

Definition sys_sound y : Prop :=
  sound (sy_sched y) (sy_asked y) (sy_served y) (sy_requests y) (claims y).

Lemma claims_settle y j g c :
  sy_guards y !! j = Some g → cg_claim g = Some c → claims y ≡ₚ c :: claims (settled y j).
Proof.
  intros Hj Hc. unfold claims, settled. cbn [with_owners sy_leases sy_guards].
  rewrite (omap_delete cg_claim _ _ _ Hj) Hc /=. by rewrite Permutation_middle.
Qed.

Lemma claims_take y i k l g :
  sy_leases y !! i = Some l → (take_claim l k).2 = Some g →
  claims (with_owners y (<[i := (take_claim l k).1]> (sy_leases y)) (sy_guards y ++ [g])) ≡ₚ claims y.
Proof.
  intros Hi Hg. cbn [take_claim snd] in Hg. apply fmap_Some in Hg as (c & Hc & ->).
  unfold claims. cbn [with_owners sy_leases sy_guards]. rewrite list_fmap_insert omap_app.
  assert ((lease_targets <$> sy_leases y) !! i = Some (lease_targets l)) as Hl by by rewrite list_lookup_fmap Hi.
  pose proof (concat_insert _ _ _ (lease_targets (take_claim l k).1) Hl) as Hp.
  rewrite (lease_targets_delete l k c Hc) in Hp.
  apply (Permutation_app_inv_l (c :: lease_targets (take_claim l k).1)).
  cbn [omap list_omap guard cg_claim]. rewrite app_assoc Hp. solve_Permutation.
Qed.

Lemma claims_drain y i l :
  sy_leases y !! i = Some l →
  claims (with_owners y (<[i := (drain_claims l).1]> (sy_leases y)) (sy_guards y ++ (drain_claims l).2)) ≡ₚ claims y.
Proof.
  intros Hi. unfold claims. cbn [with_owners sy_leases sy_guards]. rewrite list_fmap_insert omap_app.
  assert ((lease_targets <$> sy_leases y) !! i = Some (lease_targets l)) as Hl by by rewrite list_lookup_fmap Hi.
  pose proof (concat_insert _ _ _ (lease_targets (drain_claims l).1) Hl) as Hp.
  assert (lease_targets (drain_claims l).1 = []) as Hnil by done. rewrite Hnil /= in Hp |- *.
  assert (∀ cs : list ResyncTarget, omap cg_claim (guard l <$> cs) = cs) as Hg.
  { induction cs as [|c cs IH]; [done|]. cbn [fmap list_fmap omap list_omap guard cg_claim]. by f_equal. }
  cbn [drain_claims snd]. rewrite Hg -Hp. solve_Permutation.
Qed.

Lemma claims_dispatch y s out retry :
  Forall (λ pb : PeerId * list ResyncTarget, NoDup (rt_key <$> pb.2)) out →
  claims (with_owners (with_sched y s) (sy_leases y ++ ((λ pb : PeerId * list ResyncTarget, lease pb.2 retry) <$> out)) (sy_guards y)) ≡ₚ
  concat out.*2 ++ claims y.
Proof.
  intros Hnd. unfold claims. cbn [with_owners with_sched sy_leases sy_guards]. rewrite fmap_app concat_app.
  enough (concat (lease_targets <$> ((λ pb : PeerId * list ResyncTarget, lease pb.2 retry) <$> out)) ≡ₚ concat out.*2) as ->
    by solve_Permutation.
  induction Hnd as [|[p batch] out Hb _ IH]; [done|]. cbn [fmap list_fmap concat snd].
  by rewrite IH (lease_targets_new batch retry Hb).
Qed.

Lemma lease_drop_sound s now l asked served n cs :
  sound s asked served n (lease_targets l ++ cs) → sound (lease_drop s now l) asked served n cs.
Proof.
  unfold lease_drop. generalize (lease_targets l) as ts. intros ts. revert s.
  induction ts as [|c ts IH]; intros s Hs; [done|]. cbn [foldl]. apply IH. by apply release_claim_sound.
Qed.

Lemma dispatch_sound y now slots max_targets retry :
  sys_sound y → sys_sound (dispatch y now slots max_targets retry).
Proof.
  unfold sys_sound, dispatch. intros Hs. destruct (due_targets _ now slots max_targets) as [s out] eqn:Hrun.
  pose proof (due_targets_sound _ _ _ _ _ _ _ _ _ _ Hs Hrun) as Hs'.
  rewrite claims_dispatch; [|exact Hs']. apply Forall_forall. intros [p batch] Hin.
  pose proof (sd_keys _ _ _ _ _ Hs') as Hnd. rewrite fmap_app in Hnd. apply NoDup_app in Hnd as [Hnd _].
  assert (∀ o : list (PeerId * list ResyncTarget), (p, batch) ∈ o → NoDup (rt_key <$> concat o.*2) → NoDup (rt_key <$> batch)) as Hone;
    [|by eapply Hone].
  clear. induction o as [|[p' b'] o IH]; [by intros ?%elem_of_nil|]. cbn [fmap list_fmap concat snd].
  rewrite fmap_app. intros [[= <- <-]|Hin]%elem_of_cons (H1 & _ & H2)%NoDup_app; [done|by apply IH].
Qed.

Lemma guard_spent s now (g : ClaimGuard) : guard_drop s now (settle g).2 = s.
Proof. done. Qed.

Lemma step_sound y y' : sys_sound y → sy_requests y' + 1 ≤ u64_max → step y y' → sys_sound y'.
Proof.
  unfold sys_sound. intros Hs Hn Hstep. destruct Hstep as [now k after force|now k|now peer| | |i l Hi|j g c now Hj Hc
    |j g c now after Hj Hc|j g c now ib mb Hj Hc|j g now Hj|i l now Hi|k a|a s keys Hnext|a].
  - apply schedule_sound; [simpl in Hn; lia|done].
  - by apply reconsider_sound.
  - by apply peer_reachable_sound.
  - by apply dispatch_sound.
  - by rewrite claims_take.
  - by rewrite claims_drain.
  - rewrite (claims_settle y j g c Hj Hc) in Hs. by apply complete_clean_sound.
  - rewrite (claims_settle y j g c Hj Hc) in Hs. by apply complete_dirty_sound.
  - rewrite (claims_settle y j g c Hj Hc) in Hs. by apply complete_failed_sound.
  - unfold guard_drop. destruct (cg_claim g) as [c|] eqn:Hc.
    + rewrite (claims_settle y j g c Hj Hc) in Hs. by apply release_claim_sound.
    + unfold claims in *. cbn [settled with_sched with_owners sy_leases sy_guards sy_sched sy_asked sy_served sy_requests].
      rewrite (omap_delete cg_claim _ _ _ Hj) Hc in Hs. exact Hs.
  - apply lease_drop_sound. unfold claims in *. cbn [with_sched with_owners sy_leases sy_guards].
    assert ((lease_targets <$> sy_leases y) !! i = Some (lease_targets l)) as Hl by by rewrite list_lookup_fmap Hi.
    rewrite list_fmap_delete app_assoc -(concat_delete _ _ _ Hl). done.
  - by apply (sound_same (sy_sched y)).
  - apply bind_Some in Hnext as (next & [-> _]%checked_add_Some & [= <- <-]). apply (sound_counter (sy_sched y)); [done|simpl; lia|done].
  - by apply (sound_same (sy_sched y)).
Qed.

Lemma step_requests y y' : step y y' → sy_requests y ≤ sy_requests y'.
Proof.
  intros Hstep. destruct Hstep; simpl; try lia. unfold dispatch. by destruct (due_targets _ _ _ _).
Qed.

Lemma reachable_sound next y : reachable next y → sy_requests y + 1 ≤ u64_max → sys_sound y.
Proof.
  induction 1 as [|y y' _ IH Hstep]; intros Hn.
  - split; try done; try apply NoDup_nil_2; by intros c ?%elem_of_nil.
  - eapply step_sound; [|exact Hn|exact Hstep]. apply IH. pose proof (step_requests _ _ Hstep). lia.
Qed.

(** C38: No target is stranded and none has two owners. In every run of fewer
    than 2^64 requests, whatever order requests, rounds, completions and drops of leases
    and guards come in, the targets marked as claimed are exactly those that a lease or
    a guard holds, each held once, under attempts that are all different and older than
    the next one. *)
Theorem claims_owned next y :
  reachable next y → sy_requests y + 1 ≤ u64_max →
  NoDup (rt_key <$> claims y) ∧ NoDup (rt_attempt <$> claims y) ∧
  (∀ c, c ∈ claims y → rt_attempt c < rs_next_attempt (sy_sched y)) ∧
  ∀ k a, (∃ e, rs_inner (sy_sched y) !! k = Some e ∧ sr_active e = Some a) ↔
    ∃ c, c ∈ claims y ∧ rt_key c = k ∧ rt_attempt c = a.
Proof.
  intros Hr Hn. pose proof (reachable_sound _ _ Hr Hn) as Hs. split_and!; [apply Hs..|].
  intros k a. split.
  - intros (e & He & Ha). by eapply sd_active.
  - intros (c & Hc & <- & <-). destruct (sd_held _ _ _ _ _ Hs c Hc) as (e & He & Ha & _). by exists e.
Qed.

(** C39: No request is lost. Whatever happens after a target was requested, it
    is still in the table, or an attempt that was claimed after the request completed
    clean: completions of attempts that began before the request, failures, releases
    and panics never remove it. *)
Theorem work_not_lost next y k m :
  reachable next y → sy_requests y + 1 ≤ u64_max → sy_asked y !! k = Some m →
  is_Some (rs_inner (sy_sched y) !! k) ∨ ∃ a, sy_served y !! k = Some a ∧ m ≤ a.
Proof. intros Hr Hn Hm. by apply (sd_asked _ _ _ _ _ (reachable_sound _ _ Hr Hn)). Qed.

(** ** Completions that come late *)

(** Owners are kept, dropped, or new. *)
Definition only_new s s' : Prop :=
  rs_next_attempt s ≤ rs_next_attempt s' ∧
  ∀ k e' a, rs_inner s' !! k = Some e' → sr_active e' = Some a →
    rs_next_attempt s ≤ a ∨ ∃ e, rs_inner s !! k = Some e ∧ sr_active e = Some a.

#[global] Instance only_new_refl : Reflexive only_new.
Proof. intros s. split; [done|]. intros k e a He Ha. right. by exists e. Qed.
#[global] Instance only_new_trans : Transitive only_new.
Proof.
  intros s1 s2 s3 [H1 H2] [H3 H4]. split; [lia|]. intros k e a He Ha.
  destruct (H4 k e a He Ha) as [?|(e2 & He2 & Ha2)]; [left; lia|by eapply H2].
Qed.

Lemma only_new_insert s s' k e' :
  rs_inner s' = <[k := e']> (rs_inner s) → rs_next_attempt s ≤ rs_next_attempt s' →
  match sr_active e' with
  | Some a => rs_next_attempt s ≤ a ∨ ∃ e, rs_inner s !! k = Some e ∧ sr_active e = Some a
  | None => True
  end → only_new s s'.
Proof.
  intros Hi Hn Ha. split; [done|]. intros k' e a. rewrite Hi.
  intros [[<- <-]|[_ He]]%lookup_insert_Some Hact; [by rewrite Hact in Ha|]. right. by exists e.
Qed.

Lemma only_new_same s s' : rs_inner s' = rs_inner s → rs_next_attempt s ≤ rs_next_attempt s' → only_new s s'.
Proof. intros Hi Hn. split; [done|]. intros k e a. rewrite Hi. intros He Ha. right. by exists e. Qed.

Lemma claim_keys_new keys s batch s' batch' exhausted :
  claim_keys s keys batch = (s', batch', exhausted) → only_new s s'.
Proof.
  revert s batch. induction keys as [|k keys IH]; intros s batch; cbn [claim_keys]; [by intros [= <- <- <-]|].
  destruct (rs_inner s !! k) as [e|]; [|by apply IH].
  destruct (next_attempt_id s) as [[attempt s1]|] eqn:Hnext; [|by intros [= <- <- <-]].
  apply bind_Some in Hnext as (next & [-> _]%checked_add_Some & [= <- <-]). intros Hrun%IH. etrans; [|exact Hrun].
  eapply only_new_insert; [done|simpl; lia|by left].
Qed.

Lemma claim_peers_new due s out s' out' : claim_peers s due out = (s', out') → only_new s s'.
Proof.
  revert s out. induction due as [|[p keys] due IH]; intros s out; cbn [claim_peers]; [by intros [= <- <-]|].
  destruct (claim_keys s keys []) as [[s1 batch] exhausted] eqn:Hk. apply claim_keys_new in Hk.
  destruct exhausted; [by intros [= <- <-]|]. intros Hrun%IH. by etrans.
Qed.

Lemma release_new s now c after : only_new s (release_claim s now c after).
Proof.
  unfold release_claim. set (s1 := (end_attempt s _ _).2). transitivity s1; [by apply only_new_same|].
  destruct (owned_target s1 c) as [e|]; [|done]. by eapply only_new_insert.
Qed.

Lemma complete_new s now c after ib mb :
  only_new s (complete_clean s now c) ∧ only_new s (complete_dirty s now c after) ∧
  only_new s (complete_failed s now c ib mb).
Proof.
  unfold complete_clean, complete_dirty, complete_failed. destruct (owned_target s c) as [e|]; [|done].
  split_and!; [|by eapply only_new_insert..]. destruct (_ || _); [by eapply only_new_insert|].
  split; [done|]. intros k e' a. cbn [set_inner rs_inner]. intros [_ He]%lookup_delete_Some Ha. right. by exists e'.
Qed.

Lemma request_new s now k after force : only_new s (schedule_after s now k after force) ∧ only_new s (reconsider s now k).
Proof.
  unfold schedule_after, reconsider. split.
  - eapply only_new_insert; [done..|]. destruct (rs_inner s !! k) as [e|] eqn:He; [|done].
    cbn [sr_active]. destruct (sr_active e) as [a|] eqn:Ha; [|done]. right. by exists e.
  - destruct (rs_inner s !! k) as [e|] eqn:He; [|by eapply only_new_insert].
    case_bool_decide as Hact; [done|]. eapply only_new_insert; [done..|]. cbn [sr_active].
    destruct (sr_active e); [|done]. by destruct Hact.
Qed.

Lemma reachable_new s now peer : only_new s (peer_reachable s now peer).
Proof.
  split; [unfold peer_reachable; by destruct (existsb _ _)|]. intros k e' a.
  assert (rs_inner (peer_reachable s now peer) !! k = Some e' →
    ∃ e, rs_inner s !! k = Some e ∧ sr_active e' = sr_active e) as Hsame.
  { unfold peer_reachable. destruct (existsb _ _); cbn [notify_one set_inner rs_inner]; rewrite map_lookup_imap;
      destruct (rs_inner s !! k) as [e|]; simpl; try done; intros [= <-]; exists e; by destruct (_ && _). }
  intros (e & He & Hact)%Hsame Ha. right. exists e. by rewrite -Hact.
Qed.

Lemma lease_drop_new s now l : only_new s (lease_drop s now l).
Proof.
  unfold lease_drop. generalize (lease_targets l) as ts. intros ts. revert s.
  induction ts as [|c ts IH]; intros s; [done|]. cbn [foldl]. etrans; [apply release_new|apply IH].
Qed.

Lemma step_new y y' : step y y' → only_new (sy_sched y) (sy_sched y').
Proof.
  intros Hstep. destruct Hstep as [now k after force|now k|now peer|now sl mt ra| | |j g c now Hj Hc
    |j g c now after Hj Hc|j g c now ib mb Hj Hc|j g now Hj|i l now Hi|k a|a s keys Hnext|a]; try done.
  - apply request_new.
  - by apply (request_new _ _ _ 0 false).
  - apply reachable_new.
  - unfold dispatch. destruct (due_targets _ _ _ _) as [s out] eqn:Hrun. by eapply claim_peers_new.
  - by apply (complete_new _ _ _ 0 0 0).
  - by apply (complete_new _ _ _ _ 0 0).
  - by apply (complete_new _ _ _ 0).
  - cbn [with_sched sy_sched]. unfold guard_drop. destruct (cg_claim g); [apply release_new|done].
  - apply lease_drop_new.
  - by apply only_new_same.
  - apply bind_Some in Hnext as (next & [-> _]%checked_add_Some & [= <- <-]). apply only_new_same; [done|simpl; lia].
  - by apply only_new_same.
Qed.

(** A completion counts once. When a claim does not own its target any
    more, because it completed, was released, or the target was removed, then in every
    later state, whatever was scheduled and claimed since, completing it again in any
    way changes nothing. *)
Theorem stale_completion y y' c now after ib mb :
  rtc step y y' → rt_attempt c < rs_next_attempt (sy_sched y) → owned_target (sy_sched y) c = None →
  complete_clean (sy_sched y') now c = sy_sched y' ∧ complete_dirty (sy_sched y') now c after = sy_sched y' ∧
  complete_failed (sy_sched y') now c ib mb = sy_sched y'.
Proof.
  intros Hsteps Hold Hgone.
  assert (only_new (sy_sched y) (sy_sched y')) as [_ Hnew].
  { clear Hold Hgone. induction Hsteps as [|y y1 y2 Hstep _ IH]; [done|]. etrans; [by apply step_new|done]. }
  assert (owned_target (sy_sched y') c = None) as Hgone'.
  { unfold owned_target in *. destruct (rs_inner (sy_sched y') !! rt_key c) as [e|] eqn:He; [|done]. simpl.
    case_bool_decide as Ha; [|done]. exfalso. destruct (Hnew _ _ _ He Ha) as [?|(e0 & He0 & Ha0)]; [lia|].
    rewrite He0 /= bool_decide_true in Hgone; done. }
  unfold complete_clean, complete_dirty, complete_failed. by rewrite Hgone'.
Qed.

(** ** A run

    A target is requested, claimed, requested again while its attempt runs, and the
    attempt completes clean. *)
Definition r_key : ResyncTargetKey := (small_id 3, small_id 1).
Definition r_asked : System := asked_for (system_start 1) (schedule_after (scheduler_new 1) 10 r_key 0 false) r_key.
Definition r_claimed : System := dispatch r_asked 10 4 8 100.
Definition r_again : System := asked_for r_claimed (schedule_after (sy_sched r_claimed) 11 r_key 0 false) r_key.
Definition r_lease : ResyncLease := default (lease [] 0) (sy_leases r_again !! O).
Definition r_guard : ClaimGuard := default {| cg_claim := None; cg_retry_after := 0 |} (take_claim r_lease r_key).2.
Definition r_taken : System :=
  with_owners r_again (<[O := (take_claim r_lease r_key).1]> (sy_leases r_again)) (sy_guards r_again ++ [r_guard]).
Definition r_claim : ResyncTarget :=
  {| rt_key := r_key; rt_attempt := 1; rt_covered := 1; rt_force := None |}.
Definition r_done : System :=
  with_served (with_sched (settled r_taken 0)
      (complete_clean (guard_drop (sy_sched r_taken) 12 (settle r_guard).2) 12 r_claim))
    (served_after (sy_sched r_taken) r_claim (sy_served r_taken)).

Lemma r_taken_reachable : reachable 1 r_taken.
Proof.
  eapply reach_step; [eapply reach_step; [eapply reach_step; [eapply reach_step; [apply reach_start|]|]|]|].
  - apply (step_schedule _ 10 r_key 0 false).
  - apply (step_dispatch _ 10 4 8 100).
  - apply (step_schedule _ 11 r_key 0 false).
  - apply step_take; vm_compute; reflexivity.
Qed.
Lemma r_done_step : step r_taken r_done.
Proof. eapply step_clean; vm_compute; reflexivity. Qed.

Lemma claims_owned_witness : ∃ c, c ∈ claims r_taken ∧ rt_key c = r_key ∧ rt_attempt c = 1.
Proof.
  destruct (claims_owned 1 r_taken) as (_ & _ & _ & Hown); [exact r_taken_reachable|vm_compute; discriminate|].
  apply Hown. eexists. split; vm_compute; reflexivity.
Defined.

(** The second request survives the completion of the attempt. *)
Lemma work_not_lost_witness : is_Some (rs_inner (sy_sched r_done) !! r_key).
Proof.
  destruct (work_not_lost 1 r_done r_key 2) as [Hin|(a & Ha & _)].
  - eapply reach_step; [exact r_taken_reachable|exact r_done_step].
  - vm_compute. discriminate.
  - vm_compute. reflexivity.
  - exact Hin.
  - vm_compute in Ha. discriminate Ha.
Defined.

Lemma stale_completion_witness : complete_clean (sy_sched r_done) 20 r_claim = sy_sched r_done.
Proof.
  destruct (stale_completion r_done r_done r_claim 20 0 0 0 (rtc_refl _ _)) as [Hc _];
    [vm_compute; reflexivity..|exact Hc].
Defined.

Lemma due_targets_fair_witness :
  ∃ batch, (small_id 3, batch) ∈ (due_targets (sy_sched r_done) 12 1 1).2 ∧ r_key ∈ rt_key <$> batch.
Proof.
  set (r := due_targets (sy_sched r_done) 12 1 1).
  destruct (due_targets_fair (sy_sched r_done) 12 1 1 r.1 r.2) as (_ & _ & _ & Hleft).
  - vm_compute. discriminate.
  - unfold r. apply surjective_pairing.
  - destruct (Hleft r_key {| sr_next_due := 12; sr_failures := 0; sr_requested := 2; sr_active := None; sr_force := None |})
      as [(batch & Hin & [Hk|[_ Hbefore]])|[_ Hall]].
    + split_and!; [vm_compute; reflexivity|reflexivity|vm_compute; discriminate|]. apply (bool_decide_unpack _). vm_compute. reflexivity.
    + exists batch. split; [exact Hin|exact Hk].
    + exists batch. split; [exact Hin|]. vm_compute in Hin. apply list_elem_of_singleton in Hin. injection Hin as Hb.
      rewrite Hb. by left.
    + vm_compute. eexists. split; [by left|by left].
Defined.
