(* ===== verification/Requests.v ===== *)
(** * Requests for part of the actors ([src/src/sync/request.rs], [src/src/sync/types.rs])

    A requester may be behind on more actors than one request can name. It names some of
    them with a range, describes an interval of actor ids completely, and sends a Bloom
    filter of the actors behind that it left out. A responder takes an actor that is
    neither named nor in the filter as held. *)

From S2P Require Import Prelude Ids ClockSpec.

#[local] Open Scope N_scope.

(** [sync::MAX_ACTOR_RANGE_HINT_SPAN], [sync::MAX_ACTOR_FILTER_BYTES], [sync::MAX_PAGE_MISSING] *)
Definition MAX_RANGE_SPAN : N := 65536.
Definition MAX_FILTER_BYTES : N := 1048576.
Definition MAX_PAGE_MISSING : nat := 256.

(** ** The filter of actors *)

Record ActorFilter := { af_bits : list N }.

Definition PROBES : nat := 7.

(** [u32::from_le_bytes] *)
Definition from_le_bytes (bytes : list N) : N := foldr (λ b acc, b + 256 * acc) 0 bytes.

(** [ActorFilter::probes] *)
Definition probes (bits : N) (a : ActorId) : list N :=
  (λ probe, from_le_bytes (take 4 (drop (probe * 4) (as_bytes a))) mod bits) <$> seq 0 PROBES.

(** [bits[bit / 8] |= 1 << (bit % 8)] *)
Definition set_bit (bits : list N) (bit : N) : list N :=
  alter (λ b, N.lor b (N.shiftl 1 (bit mod 8))) (N.to_nat (bit / 8)) bits.

(** [ActorFilter::sized] *)
Definition filter_sized (actors : list ActorId) (bytes : N) : ActorFilter :=
  let bytes := N.max bytes 1 in
  {| af_bits := foldl (λ bits a, foldl set_bit bits (probes (bytes * 8) a))
       (replicate (N.to_nat bytes) 0) actors |}.

(** [ActorFilter::new] *)
Definition filter_new (actors : list ActorId) (max_bytes : N) : option ActorFilter :=
  let bits := N.of_nat (length actors) * 10 in
  if u64_max <? bits then None
  else
    let bytes := N.max ((bits + 7) / 8) 1 in
    if max_bytes <? bytes then None else Some (filter_sized actors bytes).

(** [ActorFilter::contains] *)
Definition filter_contains (f : ActorFilter) (a : ActorId) : bool :=
  negb (bool_decide (af_bits f = [])) &&
  forallb (λ bit, negb (N.land (default 0 (af_bits f !! N.to_nat (bit / 8))) (N.shiftl 1 (bit mod 8)) =? 0))
    (probes (N.of_nat (length (af_bits f)) * 8) a).

(** ** Windows and hints *)

Record ActorWindow := {
  aw_after : option ActorId;
  aw_through : option ActorId;
  aw_behind : option ActorFilter;
}.

Definition window_default : ActorWindow := {| aw_after := None; aw_through := None; aw_behind := None |}.

(** [ActorWindow::contains] *)
Definition window_contains (w : ActorWindow) (a : ActorId) : bool :=
  (match aw_after w with Some after => bltb after a | None => true end) &&
  (match aw_through w with Some through => bleb a through | None => true end).

(** [ActorWindow::holds] *)
Definition window_holds (w : ActorWindow) (a : ActorId) : bool :=
  window_contains w a ||
  match aw_behind w with Some behind => negb (filter_contains behind a) | None => false end.

Record ActorRangeHint := {
  ah_actor_id : ActorId;
  ah_from_exclusive : N;
  ah_to_inclusive : N;
}.

(** [PageBudget] *)
Record PageBudget := { pb_ops : N; pb_bytes : N }.

(** ** What a requester carries between requests *)

Record RequestKnowledge := {
  kn_after : option ActorId;
  kn_positions : list ActorId;
  kn_capacity : nat;
  kn_revision : N;
  kn_quiet : N;
}.

(** [RequestKnowledge::with_capacity] *)
Definition with_capacity (capacity : nat) : RequestKnowledge :=
  {| kn_after := None; kn_positions := []; kn_capacity := Nat.max capacity 1; kn_revision := 0; kn_quiet := 0 |}.

(** [RequestKnowledge::settle] *)
Definition settle (kn : RequestKnowledge) (window : ActorWindow) (positions : gset ActorId) (continued received : bool)
    (actors : N) : RequestKnowledge :=
  let quiet := if received then 0 else kn_quiet kn + 1 in
  let advancing := quiet <=? saturating_add (saturating_mul actors 4) 64 in
  if continued then
    {| kn_after := kn_after kn; kn_positions := kn_positions kn; kn_capacity := kn_capacity kn;
       kn_revision := kn_revision kn + N.b2n advancing; kn_quiet := quiet |}
  else if negb (bool_decide (positions = ∅)) then
    {| kn_after := aw_through window;
       kn_positions := take (kn_capacity kn)
         (bt_elements positions ++ filter (λ a, a ∉ positions) (kn_positions kn));
       kn_capacity := kn_capacity kn;
       kn_revision := kn_revision kn + N.b2n advancing; kn_quiet := quiet |}
  else
    let partial := bool_decide (is_Some (aw_after window)) || bool_decide (is_Some (aw_through window)) in
    {| kn_after := aw_through window; kn_positions := []; kn_capacity := kn_capacity kn;
       kn_revision := kn_revision kn + N.b2n (advancing && negb received && partial); kn_quiet := quiet |}.

(** [deepest] *)
Definition deepest (needed : gmap ActorId N) (limit : nat) : gset ActorId :=
  list_to_set (snd <$> take limit (merge_sort ble ((λ an : ActorId * N, (an.2, an.1)) <$> bt_entries needed))).

(** [need] *)
Definition need (needed : gmap ActorId N) (a : ActorId) (generation : N) : gmap ActorId N :=
  <[a := match needed !! a with Some kept => N.min kept generation | None => generation end]> needed.

Section requests.
Context {C : Type} `{!ClockImpl C}.
Implicit Types (local remote held : C) (a : ActorId) (kn : RequestKnowledge) (w : ActorWindow).

(** ** What a responder takes from a request *)

Record ActorScope := {
  sc_named : gset ActorId;
  sc_prefixes : gmap ActorId N;
  sc_window : ActorWindow;
  sc_held : option C;
}.

(** [ActorScope::new] *)
Definition scope_new (hints : list ActorRangeHint) w : ActorScope :=
  let prefixes := foldl (λ m h, <[ah_actor_id h := match m !! ah_actor_id h with
      | Some known => N.min known (ah_from_exclusive h) | None => ah_from_exclusive h end]> m) ∅ hints in
  {| sc_named := dom prefixes; sc_prefixes := prefixes; sc_window := w; sc_held := None |}.

(** [ActorScope::whole] *)
Definition scope_whole : ActorScope :=
  {| sc_named := ∅; sc_prefixes := ∅; sc_window := window_default; sc_held := None |}.

(** [ActorScope::with_held] *)
Definition with_held (sc : ActorScope) (held : option C) : ActorScope :=
  {| sc_named := sc_named sc; sc_prefixes := sc_prefixes sc; sc_window := sc_window sc; sc_held := held |}.

(** [ActorScope::unknown], [ActorScope::informed], [ActorScope::holds_prefix], [ActorScope::known_prefix] *)
Definition unknown (sc : ActorScope) a : bool :=
  bool_decide (sc_held sc = None) && bool_decide (a ∉ sc_named sc) && negb (window_holds (sc_window sc) a).
Definition informed (sc : ActorScope) : bool := negb (bool_decide (sc_held sc = None)).
Definition holds_prefix (sc : ActorScope) a (seq : N) : bool :=
  bool_decide (a ∉ sc_named sc) &&
  match sc_held sc with Some held => seq <=? ck_get held a | None => false end.
Definition known_prefix (sc : ActorScope) a : option N :=
  match sc_prefixes sc !! a with
  | Some known => Some known
  | None => (λ held, ck_get held a) <$> sc_held sc
  end.

(** ** Building a request *)

(** [hint]: the hint and what is left of the span. *)
Definition hint local remote (span : N) a : ActorRangeHint * N :=
  let from := ck_get local a in
  let to := saturating_add (N.min (saturating_sub (ck_get remote a) from) span) from in
  ({| ah_actor_id := a; ah_from_exclusive := from; ah_to_inclusive := to |}, span - (to - from)).

(** [prefix_hint] *)
Definition prefix_hint local remote (span : N) a : ActorRangeHint * N :=
  let '(h, span) := hint local remote span a in
  let next := N.min (ah_to_inclusive h) (saturating_add (ah_from_exclusive h) 1) in
  ({| ah_actor_id := a; ah_from_exclusive := ah_from_exclusive h; ah_to_inclusive := next |},
   span + (ah_to_inclusive h - next)).

(** Mapping a hint function over actors, with the span it shares. *)
Fixpoint map_hints (f : N → ActorId → ActorRangeHint * N) (span : N) (actors : list ActorId)
    : list ActorRangeHint * N :=
  match actors with
  | [] => ([], span)
  | a :: actors =>
      let '(h, span) := f span a in
      let '(hs, span) := map_hints f span actors in (h :: hs, span)
  end.

(** The loop over [behind[start..]]: the hints, the last actor and the number taken. *)
Fixpoint window_run local remote (items : nat) (named : gset ActorId) (span : N) (hints : list ActorRangeHint)
    (through : option ActorId) (behind : list ActorId) : list ActorRangeHint * option ActorId * nat :=
  match behind with
  | [] => (hints, through, O)
  | a :: behind =>
      if bool_decide (a ∈ named) then
        let '(hs, th, n) := window_run local remote items named span hints (Some a) behind in (hs, th, S n)
      else if bool_decide (length hints = items) then (hints, through, O)
      else
        let '(h, span) := prefix_hint local remote span a in
        let '(hs, th, n) := window_run local remote items named span (hints ++ [h]) (Some a) behind in (hs, th, S n)
  end.

(** [Some(x) <= y] on options, where [None] is least. *)
Definition some_le a (o : option ActorId) : bool := match o with Some b => bleb a b | None => false end.

(** The doubling loop of [exact_filter]; the filter has at most 2^20 bytes. *)
Fixpoint exact_loop (fuel : nat) local remote w (omitted : list ActorId) (f : ActorFilter) : ActorFilter :=
  let collides := existsb (λ an : ActorId * N,
    (an.2 <=? ck_get local an.1) && negb (window_contains w an.1) && filter_contains f an.1) (ck_iter remote) in
  let bytes := N.of_nat (length (af_bits f)) * 2 in
  if negb collides || (MAX_FILTER_BYTES <? bytes) then f
  else match fuel with
       | O => f
       | S fuel => exact_loop fuel local remote w omitted (filter_sized omitted bytes)
       end.

(** [exact_filter] *)
Definition exact_filter local remote w (omitted : list ActorId) : option ActorFilter :=
  exact_loop 20 local remote w omitted <$> filter_new omitted MAX_FILTER_BYTES.

(** [window_ranges] *)
Definition window_ranges local remote (items : nat) (behind : list ActorId) (after : option ActorId)
    (named : list ActorId) : list ActorRangeHint * ActorWindow :=
  let named : gset ActorId := list_to_set named in
  let '(hints, span) := map_hints (prefix_hint local remote) MAX_RANGE_SPAN (bt_elements named) in
  let start := length (take_while (λ a, some_le a after) behind) in
  let '(after, start) := if bool_decide (start = length behind) then (None, O) else (after, start) in
  let '(hints, through, n) := window_run local remote items named span hints after (drop start behind) in
  let through := if bool_decide ((start + n)%nat = length behind) then None else through in
  let w := {| aw_after := after; aw_through := through; aw_behind := None |} in
  let omitted := filter (λ a, a ∉ named ∧ window_contains w a = false) behind in
  (hints, {| aw_after := after; aw_through := through; aw_behind := exact_filter local remote w omitted |}).

(** The actors the requester is behind on. *)
Definition behind_on local remote : list ActorId :=
  omap (λ an : ActorId * N, if ck_get local an.1 <? an.2 then Some an.1 else None) (ck_iter remote).

(** [request_ranges] *)
Definition request_ranges local remote (items : nat) kn : list ActorRangeHint * ActorWindow :=
  let behind := behind_on local remote in
  if bool_decide (length behind ≤ items)%nat then
    ((map_hints (hint local remote) MAX_RANGE_SPAN behind).1, window_default)
  else if bool_decide (items = O) then
    ([], {| aw_after := head behind; aw_through := head behind;
            aw_behind := filter_new behind MAX_FILTER_BYTES |})
  else
    let ahead := filter (λ a, ck_get local a < ck_get remote a) (kn_positions kn) in
    let held := filter (λ a, ¬ ck_get local a < ck_get remote a) (kn_positions kn) in
    let named := take (items - 1) ahead in
    let ranges := window_ranges local remote items behind (kn_after kn) named in
    let unheld := filter (λ a, window_holds ranges.2 a = false) held in
    if bool_decide (unheld = []) || bool_decide (length named = (items - 1)%nat) then ranges
    else window_ranges local remote items behind (kn_after kn) (named ++ take (items - 1 - length named) unheld).
End requests.
Arguments ActorScope C : clear implicits.

(** ** What a request tells

    A request never makes the responder believe that the requester holds something it
    does not: an actor the requester is behind on is named, or in the filter outside the
    window. *)

(** ** The filter has no false negatives *)

Definition bit_of (bits : list N) (bit : N) : bool :=
  negb (N.land (default 0 (bits !! N.to_nat (bit / 8))) (N.shiftl 1 (bit mod 8)) =? 0).

Lemma bit_of_testbit bits bit :
  bit_of bits bit = N.testbit (default 0 (bits !! N.to_nat (bit / 8))) (bit mod 8).
Proof.
  unfold bit_of. set (x := default 0 _). rewrite N.shiftl_1_l.
  destruct (N.testbit x (bit mod 8)) eqn:Ht.
  - apply negb_true_iff, N.eqb_neq. intros Heq. apply (f_equal (λ n, N.testbit n (bit mod 8))) in Heq.
    by rewrite N.land_spec Ht N.pow2_bits_true N.bits_0 in Heq.
  - apply negb_false_iff, N.eqb_eq. apply N.bits_inj. intros n. rewrite N.land_spec N.pow2_bits_eqb N.bits_0.
    destruct (N.eqb_spec (bit mod 8) n) as [<-|]; [by rewrite Ht|by rewrite andb_false_r].
Qed.

Lemma set_bit_length bits bit : length (set_bit bits bit) = length bits.
Proof. apply length_alter. Qed.
Lemma set_bits_length l bits : length (foldl set_bit bits l) = length bits.
Proof. revert bits. induction l as [|b l IH]; intros bits; [done|]. simpl. by rewrite IH set_bit_length. Qed.
Lemma set_actors_length n actors bits :
  length (foldl (λ bits a, foldl set_bit bits (probes n a)) bits actors) = length bits.
Proof. revert bits. induction actors as [|a l IH]; intros bits; [done|]. cbn [foldl]. by rewrite IH set_bits_length. Qed.

Lemma set_bit_keeps bits bit b : bit_of bits b = true → bit_of (set_bit bits bit) b = true.
Proof.
  rewrite !bit_of_testbit. unfold set_bit.
  destruct (decide (N.to_nat (bit / 8) = N.to_nat (b / 8))) as [Heq|Hne].
  - rewrite Heq list_lookup_alter_eq. destruct (bits !! _) as [x|]; [|done]. simpl. rewrite N.lor_spec. by intros ->.
  - by rewrite list_lookup_alter_ne.
Qed.
Lemma set_bit_sets bits bit : (N.to_nat (bit / 8) < length bits)%nat → bit_of (set_bit bits bit) bit = true.
Proof.
  intros [x Hx]%lookup_lt_is_Some_2. rewrite bit_of_testbit. unfold set_bit. rewrite list_lookup_alter_eq Hx /=.
  by rewrite N.lor_spec N.shiftl_1_l N.pow2_bits_true orb_true_r.
Qed.

Lemma set_bits_keeps l bits b : bit_of bits b = true → bit_of (foldl set_bit bits l) b = true.
Proof. revert bits. induction l as [|x l IH]; intros bits Hb; [done|]. by apply IH, set_bit_keeps. Qed.
Lemma set_bits_sets l bits b :
  (N.to_nat (b / 8) < length bits)%nat → b ∈ l → bit_of (foldl set_bit bits l) b = true.
Proof.
  revert bits. induction l as [|x l IH]; intros bits Hb; [by intros ?%elem_of_nil|].
  intros [->|Hin]%elem_of_cons; simpl; [by apply set_bits_keeps, set_bit_sets|].
  apply IH; [by rewrite set_bit_length|done].
Qed.

Lemma filter_sized_length actors bytes : N.of_nat (length (af_bits (filter_sized actors bytes))) = N.max bytes 1.
Proof. unfold filter_sized. cbn [af_bits]. rewrite set_actors_length length_replicate. lia. Qed.

Lemma filter_sized_contains actors bytes a : a ∈ actors → filter_contains (filter_sized actors bytes) a = true.
Proof.
  intros Hin. unfold filter_contains. rewrite filter_sized_length. set (n := N.max bytes 1).
  rewrite bool_decide_false; [intros Hnil; pose proof (filter_sized_length actors bytes) as Hl; rewrite Hnil in Hl; simpl in Hl; lia|].
  cbn [negb andb]. apply forallb_forall. intros b Hb%list_elem_of_In. fold (bit_of (af_bits (filter_sized actors bytes)) b).
  unfold filter_sized. cbn [af_bits]. fold n.
  assert (N.to_nat (b / 8) < N.to_nat n)%nat as Hlt.
  { apply list_elem_of_fmap in Hb as (probe & -> & _). set (x := from_le_bytes _).
    assert (x mod (n * 8) < n * 8) by (apply N.mod_lt; lia).
    assert (x mod (n * 8) / 8 < n) by (apply N.Div0.div_lt_upper_bound; lia). lia. }
  generalize (eq_refl (length (replicate (N.to_nat n) 0))). rewrite {2}length_replicate.
  generalize (replicate (N.to_nat n) 0) as bits. induction actors as [|x actors IH]; [by apply elem_of_nil in Hin|].
  intros bits Hl. cbn [foldl]. apply elem_of_cons in Hin as [->|Hin].
  - assert (bit_of (foldl set_bit bits (probes (n * 8) x)) b = true) as Hset by (apply set_bits_sets; [lia|done]).
    revert Hset. generalize (foldl set_bit bits (probes (n * 8) x)) as bits'. clear -Hlt.
    induction actors as [|y actors IH]; intros bits' Hb'; [done|]. cbn [foldl]. by apply IH, set_bits_keeps.
  - apply IH; [done|]. by rewrite set_bits_length.
Qed.

Lemma filter_new_sized actors max f : filter_new actors max = Some f → ∃ bytes, f = filter_sized actors bytes.
Proof. unfold filter_new. destruct (_ <? _); [done|]. destruct (_ <? _); [done|]. intros [= <-]. by eexists. Qed.

Section requests.
Context {C : Type} `{!ClockImpl C}.
Implicit Types (local remote : C) (a : ActorId) (kn : RequestKnowledge) (w : ActorWindow).

Lemma exact_loop_sized fuel local remote w omitted bytes :
  ∃ bytes', exact_loop fuel local remote w omitted (filter_sized omitted bytes) = filter_sized omitted bytes'.
Proof.
  revert bytes. induction fuel as [|fuel IH]; intros bytes; cbn [exact_loop]; destruct (_ || _); by eauto.
Qed.

(** Twenty doublings are enough: more fuel does not change the filter. *)
Lemma exact_loop_enough fuel extra local remote w omitted f :
  2 ^ (20 - N.of_nat fuel) ≤ N.of_nat (length (af_bits f)) → (fuel ≤ 20)%nat →
  exact_loop (fuel + extra) local remote w omitted f = exact_loop fuel local remote w omitted f.
Proof.
  revert f. induction fuel as [|fuel IH]; intros f Hlen Hle.
  - assert (MAX_FILTER_BYTES <? N.of_nat (length (af_bits f)) * 2 = true) as Hbig.
    { apply N.ltb_lt. unfold MAX_FILTER_BYTES. change (2 ^ (20 - N.of_nat 0)) with 1048576 in Hlen. lia. }
    destruct extra; cbn [Nat.add exact_loop]; by rewrite Hbig orb_true_r.
  - cbn [Nat.add exact_loop]. destruct (_ || _); [done|]. apply IH; [|lia]. rewrite filter_sized_length.
    replace (20 - N.of_nat fuel) with (N.succ (20 - N.of_nat (S fuel))) by lia. rewrite N.pow_succ_r'. lia.
Qed.

Lemma exact_filter_contains local remote w omitted f a :
  exact_filter local remote w omitted = Some f → a ∈ omitted → filter_contains f a = true.
Proof.
  unfold exact_filter. intros (f0 & (bytes & ->)%filter_new_sized & ->)%fmap_Some Hin.
  destruct (exact_loop_sized 20 local remote w omitted bytes) as [bytes' ->]. by apply filter_sized_contains.
Qed.

(** ** The actors behind *)

Lemma behind_on_spec local remote a : a ∈ behind_on local remote ↔ ck_get local a < ck_get remote a.
Proof.
  unfold behind_on. rewrite list_elem_of_omap ck_iter_view. split.
  - intros ([a' n] & Hin%elem_of_bt_entries & Hb). simpl in Hb.
    destruct (N.ltb_spec (ck_get local a') n); [|done]. injection Hb as <-. by rewrite (ck_get_view remote) Hin.
  - intros Hlt. rewrite (ck_get_view remote) in Hlt. destruct (ck_view remote !! a) as [n|] eqn:Hn; simpl in Hlt; [|lia].
    exists (a, n). rewrite elem_of_bt_entries. split; [done|]. simpl. by rewrite (proj2 (N.ltb_lt _ _) Hlt).
Qed.

Lemma behind_on_sorted local remote : StronglySorted blt (behind_on local remote).
Proof.
  unfold behind_on. rewrite ck_iter_view.
  assert (StronglySorted blt (bt_entries (ck_view remote)).*1) as Hs by (rewrite bt_entries_keys; apply bt_elements_sorted).
  induction (bt_entries (ck_view remote)) as [|[a n] l IH]; [constructor|]. rewrite fmap_cons in Hs.
  inversion Hs as [|? ? Hs' Hall]; subst. cbn [omap list_omap fst snd]. destruct (_ <? _); [|by apply IH].
  constructor; [by apply IH|]. apply Forall_forall. intros x ([x' m] & Hin & Hx)%list_elem_of_omap. simpl in Hx.
  destruct (_ <? _); [|done]. injection Hx as <-. rewrite Forall_forall in Hall. apply Hall.
  apply list_elem_of_fmap. by exists (x', m).
Qed.

Lemma sorted_app_lt {A} `{BOrd A} (l k : list A) x y : StronglySorted blt (l ++ k) → x ∈ l → y ∈ k → blt x y.
Proof.
  induction l as [|z l IH]; intros Hs Hx Hy; [by apply elem_of_nil in Hx|].
  simpl in Hs. inversion Hs as [|? ? Hs' Hall]; subst. apply elem_of_cons in Hx as [->|Hx]; [|by apply IH].
  rewrite Forall_forall in Hall. apply Hall, elem_of_app. by right.
Qed.

(** ** Hints *)

(** The positions of a clock are machine integers. *)
Definition clock_u64 (c : C) : Prop := ∀ a, ck_get c a ≤ u64_max.

(** The hint starts where the requester is and ends where the peer is, at most. *)
Definition hint_ok local remote (h : ActorRangeHint) : Prop :=
  ah_from_exclusive h = ck_get local (ah_actor_id h) ∧ ah_from_exclusive h ≤ ah_to_inclusive h ∧
  ah_to_inclusive h ≤ N.max (ah_from_exclusive h) (ck_get remote (ah_actor_id h)).

Definition hint_span (h : ActorRangeHint) : N := ah_to_inclusive h - ah_from_exclusive h.
Definition spanned (hs : list ActorRangeHint) : N := foldr (λ h n, hint_span h + n) 0 hs.

Lemma spanned_app l k : spanned (l ++ k) = spanned l + spanned k.
Proof. induction l as [|h l IH]; simpl; [lia|]. rewrite IH. lia. Qed.

Section local.
Context (local remote : C) (Hl : clock_u64 local) (Hr : clock_u64 remote).

(** A function that spends the span on the hints it makes. *)
Definition spends (f : N → ActorId → ActorRangeHint * N) : Prop := ∀ span a h span',
  f span a = (h, span') → ah_actor_id h = a ∧ hint_ok local remote h ∧ hint_span h + span' = span.

Lemma hint_spends : spends (hint local remote).
Proof.
  intros span a h span'. unfold hint, saturating_add, saturating_sub. intros [= <- <-].
  pose proof (Hl a) as Ha. pose proof (Hr a) as Hra. unfold hint_ok, hint_span.
  cbn [ah_actor_id ah_from_exclusive ah_to_inclusive]. split_and!; [done..|lia|lia|lia].
Qed.

Lemma prefix_hint_spends : spends (prefix_hint local remote).
Proof.
  intros span a h span'. unfold prefix_hint. destruct (hint local remote span a) as [h0 span0] eqn:Hh.
  destruct (hint_spends _ _ _ _ Hh) as (Ha & (H1 & H2 & H3) & H4). intros [= <- <-].
  pose proof (Hl (ah_actor_id h0)) as Hla. unfold hint_ok, hint_span, saturating_add in *. rewrite -Ha.
  cbn [ah_actor_id ah_from_exclusive ah_to_inclusive]. split_and!; [done..|lia|lia|lia].
Qed.

Lemma map_hints_ok f span actors hs span' :
  spends f → map_hints f span actors = (hs, span') →
  ah_actor_id <$> hs = actors ∧ Forall (hint_ok local remote) hs ∧ spanned hs + span' = span.
Proof.
  intros Hf. revert span hs span'. induction actors as [|a actors IH]; intros span hs span'; cbn [map_hints].
  { intros [= <- <-]. split_and!; [done|constructor|simpl; lia]. }
  destruct (f span a) as [h span1] eqn:Hh. destruct (map_hints f span1 actors) as [hs1 span2] eqn:Hm.
  destruct (Hf _ _ _ _ Hh) as (Ha & Hok & Hs). destruct (IH _ _ _ Hm) as (Hks & Hoks & Hspan).
  intros [= <- <-]. split_and!; [by rewrite fmap_cons Ha Hks|by constructor|simpl; lia].
Qed.

Lemma window_run_ok items named span hints through behind hs th n :
  window_run local remote items named span hints through behind = (hs, th, n) →
  (length hints ≤ items)%nat → spanned hints + span ≤ MAX_RANGE_SPAN → Forall (hint_ok local remote) hints →
  ∃ extra, hs = hints ++ extra ∧ ah_actor_id <$> extra = filter (λ a, a ∉ named) (take n behind) ∧
    (length hs ≤ items)%nat ∧ spanned hs ≤ MAX_RANGE_SPAN ∧ Forall (hint_ok local remote) hs ∧
    th = match last (take n behind) with Some a => Some a | None => through end ∧
    (n ≤ length behind)%nat ∧ ((length hints < items)%nat → behind ≠ [] → n ≠ O).
Proof.
  revert span hints through hs th n. induction behind as [|a behind IH]; intros span hints through hs th n; cbn [window_run].
  { intros [= <- <- <-] ? ? ?. exists []. rewrite app_nil_r. split_and!; [done..|lia|done|done|done|done]. }
  case_bool_decide as Ha.
  - destruct (window_run _ _ _ _ _ _ _ _) as [[hs1 th1] n1] eqn:Hrun. intros [= <- <- <-] ? ? ?.
    destruct (IH _ _ _ _ _ _ Hrun) as (extra & -> & Hex & ? & ? & ? & -> & ? & _); [done..|]. exists extra.
    split_and!; [done|by rewrite /= filter_cons_False; [set_solver|]|done..| |simpl; lia|done].
    cbn [take]. by rewrite last_cons; destruct (last _).
  - case_bool_decide as Hlen; [intros [= <- <- <-] ? ? ?; exists []; rewrite app_nil_r; split_and!; [done..|lia|done|done|lia|lia]|].
    destruct (prefix_hint local remote span a) as [h span1] eqn:Hh.
    destruct (prefix_hint_spends _ _ _ _ Hh) as (Hha & Hok & Hs).
    destruct (window_run _ _ _ _ _ _ _ _) as [[hs1 th1] n1] eqn:Hrun. intros [= <- <- <-] ? ? ?.
    destruct (IH _ _ _ _ _ _ Hrun) as (extra & -> & Hex & ? & ? & ? & -> & ? & _);
      [rewrite length_app /=; lia|rewrite spanned_app /=; lia|by apply Forall_app; split; [|constructor]|].
    exists (h :: extra). split_and!; [by rewrite -app_assoc| |done..| |simpl; lia|done].
    + cbn [take]. rewrite fmap_cons Hex Hha filter_cons_True //.
    + cbn [take]. by rewrite last_cons; destruct (last _).
Qed.

(** ** Windows *)

(** The window of a run covers exactly the run, among the actors behind. *)
Lemma window_covers_run (pre run post : list ActorId) after a f :
  StronglySorted blt (pre ++ run ++ post) →
  (∀ x, x ∈ pre → some_le x after = true) →
  let through := match last run with Some x => Some x | None => after end in
  let w := {| aw_after := after; aw_through := if bool_decide (post = []) then None else through; aw_behind := f |} in
  (post ≠ [] → run ≠ []) → a ∈ pre ++ run ++ post → window_contains w a = true → a ∈ run.
Proof.
  intros Hs Hpre through w Hne [Hin|[Hin|Hin]%elem_of_app]%elem_of_app Hw; [|done|].
  - specialize (Hpre a Hin). unfold window_contains, w in Hw. cbn [aw_after aw_through] in Hw.
    destruct after as [x|]; [|done]. apply andb_true_iff in Hw as [Hlt%bltb_lt _]. simpl in Hpre.
    unfold bleb in Hpre. unfold blt in Hlt. rewrite (bcmp_opp x a) Hlt in Hpre. done.
  - exfalso. unfold window_contains, w in Hw. cbn [aw_after aw_through] in Hw. apply andb_true_iff in Hw as [_ Hw].
    rewrite bool_decide_false in Hw; [by intros ->; apply elem_of_nil in Hin|]. unfold through in Hw.
    destruct (last run) as [x|] eqn:Hlast.
    + apply last_Some in Hlast as [run' ->]. assert (blt x a) as Hlt.
      { rewrite app_assoc in Hs. eapply (sorted_app_lt (pre ++ run' ++ [x]) post); [done| |done]. set_solver. }
      unfold bleb in Hw. unfold blt in Hlt. by rewrite (bcmp_opp x a) Hlt in Hw.
    + apply last_None in Hlast. apply Hne; [by intros ->; apply elem_of_nil in Hin|done].
Qed.

(** What a request says of the actors. *)
Record described (items : nat) (hints : list ActorRangeHint) w : Prop := {
  dc_items : (length hints ≤ items)%nat;
  dc_distinct : NoDup (ah_actor_id <$> hints);
  dc_hints : Forall (hint_ok local remote) hints;
  dc_span : spanned hints ≤ MAX_RANGE_SPAN;
  dc_behind : ∀ a, ck_get local a < ck_get remote a → a ∈ ah_actor_id <$> hints ∨ window_holds w a = false;
}.

Lemma list_to_set_size (l : list ActorId) : (size (list_to_set l : gset ActorId) ≤ length l)%nat.
Proof.
  induction l as [|x l IH]; [done|]. rewrite list_to_set_cons. cbn [length].
  destruct (decide (x ∈ (list_to_set l : gset ActorId))) as [Hin|Hni].
  - replace ({[x]} ∪ list_to_set l : gset ActorId) with (list_to_set l : gset ActorId) by set_solver. lia.
  - rewrite size_union; [set_solver|]. rewrite size_singleton. lia.
Qed.

Lemma sorted_NoDup (l : list ActorId) : StronglySorted blt l → NoDup l.
Proof.
  induction 1 as [|a l _ IH Hall]; constructor; [|done]. intros Hin. rewrite Forall_forall in Hall.
  by apply (blt_irrefl a), Hall.
Qed.

(** Where the run starts: after the actors up to [after], or at the first one. *)
Lemma window_start_ok (behind : list ActorId) after after' start :
  (if bool_decide (length (take_while (λ a, some_le a after) behind) = length behind) then (None, O)
   else (after, length (take_while (λ a, some_le a after) behind))) = (after', start) → behind ≠ [] →
  (∀ x, x ∈ take start behind → some_le x after' = true) ∧ (start < length behind)%nat.
Proof.
  intros Hstart Hsome. destruct (take_while_split (λ a, some_le a after) behind) as (k & Hk & Hin & _).
  revert Hstart. case_bool_decide as Hall; intros [= <- <-]; split.
  - by intros x ?%elem_of_nil.
  - by destruct behind; [|simpl; lia].
  - intros x. rewrite {2}Hk take_app_length. apply Hin.
  - apply (f_equal length) in Hk. rewrite length_app in Hk. lia.
Qed.

(** An actor behind that is neither named nor in the run is outside the window and in the filter. *)
Lemma window_omits (behind pre run post : list ActorId) (ns : gset ActorId) after through a :
  behind = pre ++ run ++ post →
  let w := {| aw_after := after; aw_through := through; aw_behind := None |} in
  StronglySorted blt behind → (∀ x, x ∈ pre → some_le x after = true) → run ≠ [] →
  through = (if bool_decide (post = []) then None else match last run with Some x => Some x | None => after end) →
  a ∈ behind → a ∉ ns → a ∉ run →
  window_holds {| aw_after := after; aw_through := through;
    aw_behind := exact_filter local remote w (filter (λ a, a ∉ ns ∧ window_contains w a = false) behind) |} a = false.
Proof.
  intros Hb w Hs Hpre Hrun -> Hin Hns Hnr. rewrite Hb in Hs Hin.
  assert (∀ f, window_contains {| aw_after := after; aw_through := if bool_decide (post = []) then None
    else match last run with Some x => Some x | None => after end; aw_behind := f |} a = false) as Hout.
  { intros f. apply not_true_iff_false. intros Hw. apply Hnr. by eapply (window_covers_run pre run post after a f). }
  unfold window_holds. rewrite Hout. cbn [orb aw_behind].
  destruct (exact_filter local remote _ _) as [f|] eqn:Hf; [|done]. apply negb_false_iff.
  eapply exact_filter_contains; [exact Hf|]. apply list_elem_of_filter. rewrite Hb. split; [|done]. split; [done|apply Hout].
Qed.

Lemma window_ranges_described items after named :
  (length named < items)%nat → behind_on local remote ≠ [] →
  described items (window_ranges local remote items (behind_on local remote) after named).1
    (window_ranges local remote items (behind_on local remote) after named).2.
Proof.
  intros Hitems Hsome. pose proof (behind_on_sorted local remote) as Hsorted.
  pose proof (behind_on_spec local remote) as Hspec. unfold window_ranges.
  set (behind := behind_on local remote) in *. set (ns := list_to_set named : gset ActorId).
  destruct (map_hints (prefix_hint local remote) MAX_RANGE_SPAN (bt_elements ns)) as [hints span] eqn:Hmap.
  destruct (map_hints_ok _ _ _ _ _ prefix_hint_spends Hmap) as (Hkeys & Hok & Hspan).
  destruct (if bool_decide (length (take_while (λ a, some_le a after) behind) = length behind) then (None, O)
    else (after, length (take_while (λ a, some_le a after) behind))) as [after' start] eqn:Hstart.
  destruct (window_start_ok _ _ _ _ Hstart Hsome) as [Hpre Hlt]. clear Hstart.
  destruct (window_run local remote items ns span hints after' (drop start behind)) as [[hs through] n] eqn:Hrun.
  assert (length hints < items)%nat as Hroom.
  { rewrite -(length_fmap ah_actor_id) Hkeys bt_elements_length. pose proof (list_to_set_size named). unfold ns. lia. }
  destruct (window_run_ok _ _ _ _ _ _ _ _ _ Hrun) as (extra & -> & Hextra & Hlen & Htotal & Hhints & -> & Hn & Hsome');
    [lia|lia|done|].
  set (run := take n (drop start behind)) in *. set (post := drop n (drop start behind)).
  assert (behind = take start behind ++ run ++ post) as Hsplit by by rewrite /run /post !take_drop.
  rewrite length_drop in Hn.
  assert (length post = length behind - (start + n))%nat as Hpost by (unfold post; rewrite !length_drop; lia).
  assert (run ≠ []) as Hrunne.
  { intros Hnil. apply (f_equal length) in Hnil. unfold run in Hnil. rewrite length_take length_drop /= in Hnil.
    assert (n ≠ O); [|lia]. apply Hsome'; [done|]. intros Hd. apply (f_equal length) in Hd. rewrite length_drop /= in Hd. lia. }
  cbn [fst snd]. split; [done| |done|done|].
  - rewrite fmap_app Hkeys Hextra. apply NoDup_app. split_and!; [apply bt_elements_NoDup| |].
    + intros x Hx%elem_of_bt_elements [? _]%list_elem_of_filter. done.
    + apply NoDup_filter. rewrite Hsplit in Hsorted. by apply sorted_NoDup, NoDup_app in Hsorted as (_ & _ & [? _]%NoDup_app).
  - intros a Hin%Hspec. destruct (decide (a ∈ ah_actor_id <$> hints ++ extra)) as [|Hno]; [by left|right].
    rewrite fmap_app Hkeys Hextra elem_of_app elem_of_bt_elements list_elem_of_filter in Hno.
    eapply window_omits; [exact Hsplit|done..| |done|tauto|tauto].
    assert ((start + n)%nat = length behind ↔ post = []) as Hiff by (rewrite -length_zero_iff_nil; lia).
    by rewrite (bool_decide_ext _ _ Hiff).
Qed.

(** Every request describes the actors. *)
Lemma request_described items kn :
  described items (request_ranges local remote items kn).1 (request_ranges local remote items kn).2.
Proof.
  unfold request_ranges. case_bool_decide as Hfit.
  { destruct (map_hints (hint local remote) MAX_RANGE_SPAN (behind_on local remote)) as [hs span] eqn:Hmap.
    destruct (map_hints_ok _ _ _ _ _ hint_spends Hmap) as (Hkeys & Hok & Hspan). cbn [fst snd]. split; [| |done|lia|].
    - by rewrite -(length_fmap ah_actor_id) Hkeys.
    - rewrite Hkeys. apply sorted_NoDup, behind_on_sorted.
    - intros a Ha. left. rewrite Hkeys. by apply behind_on_spec. }
  assert (behind_on local remote ≠ []) as Hne by (intros Hnil; apply Hfit; rewrite Hnil; simpl; lia).
  case_bool_decide as Hzero.
  { cbn [fst snd]. split; [simpl; lia|constructor|constructor|done|]. intros a Ha. right.
    unfold window_holds, window_contains. cbn [aw_after aw_through aw_behind].
    destruct (behind_on local remote) as [|x l] eqn:Hb; [done|]. cbn [head].
    assert (bltb x a && bleb a x = false) as ->.
    { unfold bltb, bleb. rewrite (bcmp_opp x a). by destruct (bcmp x a). }
    cbn [orb]. destruct (filter_new (x :: l) MAX_FILTER_BYTES) as [f|] eqn:Hf; [|done].
    apply negb_false_iff. apply filter_new_sized in Hf as [bytes ->]. apply filter_sized_contains.
    rewrite -Hb. by apply behind_on_spec. }
  set (named := take (items - 1) _).
  assert (length named ≤ items - 1)%nat as Hlen by (unfold named; rewrite length_take; lia).
  destruct (_ || _); apply window_ranges_described; [lia|done| |done].
  rewrite length_app length_take. lia.
Qed.

(** ** What the responder concludes *)

(** The prefixes of a scope are the starts of the hints. *)
Lemma scope_prefixes (hints : list ActorRangeHint) w a :
  NoDup (ah_actor_id <$> hints) → Forall (hint_ok local remote) hints →
  sc_prefixes (scope_new (C := C) hints w) !! a =
    if decide (a ∈ ah_actor_id <$> hints) then Some (ck_get local a) else None.
Proof.
  unfold scope_new. cbn [sc_prefixes].
  induction hints as [|h hints IH] using rev_ind; intros Hnd Hok; [done|].
  rewrite fmap_app in Hnd. apply NoDup_app in Hnd as (Hnd & Hnew & _). apply Forall_app in Hok as [Hok [(Hf & _) _]%Forall_cons].
  rewrite foldl_snoc fmap_app. specialize (IH Hnd Hok). set (m := foldl _ ∅ hints) in *.
  assert (ah_actor_id h ∉ ah_actor_id <$> hints) as Hni by (intros Hin; apply (Hnew _ Hin); by left).
  destruct (decide (ah_actor_id h = a)) as [<-|Hne].
  - rewrite lookup_insert_eq. rewrite decide_False // in IH. rewrite IH decide_True; [set_solver|by rewrite Hf].
  - rewrite lookup_insert_ne // IH. apply decide_ext. set_solver.
Qed.
End local.

(** C40: A request never overstates. However many actors the requester is
    behind on, the request names at most as many as it may, all different, each from
    the requester's own position towards the peer's, within the span limit. What the
    responder reads from it is right: a prefix it takes as known is the requester's
    position, and an actor the requester is behind on is known or unknown, never taken
    as held. *)
Theorem request_sound local remote items kn hints w :
  clock_u64 local → clock_u64 remote → request_ranges local remote items kn = (hints, w) →
  described local remote items hints w ∧
  ∀ a, (∀ k, known_prefix (scope_new (C := C) hints w) a = Some k → k = ck_get local a) ∧
    (ck_get local a < ck_get remote a →
      known_prefix (scope_new (C := C) hints w) a = Some (ck_get local a) ∨ unknown (scope_new (C := C) hints w) a = true).
Proof.
  intros Hl Hr Heq. pose proof (request_described local remote Hl Hr items kn) as Hd. rewrite Heq in Hd. cbn [fst snd] in Hd.
  split; [done|]. intros a.
  pose proof (scope_prefixes local remote Hl Hr hints w a (dc_distinct _ _ _ _ _ Hd) (dc_hints _ _ _ _ _ Hd)) as Hp.
  assert (known_prefix (scope_new (C := C) hints w) a = sc_prefixes (scope_new (C := C) hints w) !! a) as Hk.
  { unfold known_prefix. cbn [scope_new sc_held]. by destruct (sc_prefixes _ !! a). }
  rewrite Hk Hp. split; [intros k; by case_decide; intros [= <-]|]. intros Hlt. case_decide as Hin; [by left|right].
  destruct (dc_behind _ _ _ _ _ Hd a Hlt) as [?|Hh]; [done|]. unfold unknown.
  rewrite bool_decide_true // bool_decide_true; [|by rewrite /= in Hh |- *; rewrite Hh].
  change (sc_named (scope_new (C := C) hints w)) with (dom (sc_prefixes (scope_new (C := C) hints w))).
  rewrite elem_of_dom Hp. by intros [].
Qed.
End requests.

(** Three actors behind, two items: the third actor is in the filter. *)
Definition q_local : gmap ActorId N := {[small_id 1 := 1; small_id 9 := 5]}.
Definition q_remote : gmap ActorId N := {[small_id 1 := 3; small_id 2 := 2; small_id 3 := 1; small_id 9 := 5]}.
Definition q_request : list ActorRangeHint * ActorWindow := request_ranges q_local q_remote 2 (with_capacity 4).

Lemma q_bound (c : gmap ActorId N) : forallb (λ e, e.2 <=? u64_max) (map_to_list c) = true → clock_u64 c.
Proof.
  intros Hall a. rewrite ck_get_view. destruct (ck_view c !! a) as [n|] eqn:Hn; [|done].
  rewrite forallb_forall in Hall. apply N.leb_le, (Hall (a, n)). by apply list_elem_of_In, elem_of_map_to_list.
Qed.

Lemma request_sound_witness :
  length q_request.1 = 2%nat ∧ unknown (scope_new (C := gmap ActorId N) q_request.1 q_request.2) (small_id 3) = true.
Proof.
  split; [vm_compute; reflexivity|].
  destruct (request_sound q_local q_remote 2 (with_capacity 4) q_request.1 q_request.2) as [_ Ha].
  - apply q_bound. vm_compute. reflexivity.
  - apply q_bound. vm_compute. reflexivity.
  - apply surjective_pairing.
  - destruct (Ha (small_id 3)) as [_ [Hk|Hu]]; [vm_compute; reflexivity| |exact Hu].
    vm_compute in Hk. discriminate Hk.
Defined.
