(* ===== verification/SyncEvidence.v ===== *)
(** * Evidence of what peers hold ([sync/evidence.rs])

    A peer acknowledges what it accepted with a signed statement: the heads of its copy
    and their clock. The engine believes of it only what it can check: it looks up the
    heads it holds itself and computes their clock from its own records. What the store
    then keeps of a peer lets it drop what it owes the peer, so it must never say more
    than the peer holds.

    An acknowledgement is checked against one snapshot and recorded in another critical
    section; others may write in between. The message a signature covers is encoded
    outside the repository. *)

From S2P Require Import Prelude Ids Frame ClockSpec Types Evidence Records Pool Store StoreLog StoreAdmit StoreOps StoreReset StoreEvidence StoreRun StoreReads.
From S2P Require Import Admission Dag Projection Building Commit Genesis Evolve.

#[local] Open Scope N_scope.

(** [SyncAck] *)
Record SyncAck (C : Type) := {
  sa_topic_id : TopicId;
  sa_peer_id : PeerId;
  sa_genesis : option OpId;
  sa_accepted : gset OpId;
  sa_heads : gset OpId;
  sa_clock : C;
  sa_signature : option (list N);
}.
Arguments sa_topic_id {C}. Arguments sa_peer_id {C}. Arguments sa_genesis {C}. Arguments sa_accepted {C}.
Arguments sa_heads {C}. Arguments sa_clock {C}. Arguments sa_signature {C}.

(** [b"irokle/sync-ack/2"] *)
Definition ACK_SIGNING_DOMAIN : list N :=
  [105; 114; 111; 107; 108; 101; 47; 115; 121; 110; 99; 45; 97; 99; 107; 47; 50].

(** [canonical_bytes] of an [AckPayload] *)
Class AckCodec (C : Type) := {
  canonical_ack : TopicId → PeerId → option OpId → gset OpId → gset OpId → C → res (list N);
}.

Section engine.
Context {C : Type} `{!ClockImpl C} `{!StoreEnv C} `{!Crypto} `{!AckCodec C}.
Implicit Types (inner : MemoryInner C) (ack : SyncAck C) (t : TopicId) (p : PeerId).

(** ** Signatures *)

(** [SyncAck::signing_bytes] *)
Definition ack_signing_bytes ack : res (list N) :=
  payload ← canonical_ack (sa_topic_id ack) (sa_peer_id ack) (sa_genesis ack) (sa_accepted ack) (sa_heads ack) (sa_clock ack);
  Ok (ACK_SIGNING_DOMAIN ++ payload).

(** [SyncAck::sign] *)
Definition ack_sign ack (signer : Signer) : res (SyncAck C) :=
  if negb (bool_decide (signer_peer_id signer = sa_peer_id ack)) then Err WrongSigner
  else
    bytes ← ack_signing_bytes ack;
    signature ← signer_sign signer bytes;
    Ok {| sa_topic_id := sa_topic_id ack; sa_peer_id := sa_peer_id ack; sa_genesis := sa_genesis ack;
          sa_accepted := sa_accepted ack; sa_heads := sa_heads ack; sa_clock := sa_clock ack;
          sa_signature := Some signature |}.

(** [SyncAck::verify_signature] *)
Definition ack_verify ack : res unit :=
  signature ← ok_or (sa_signature ack) MissingSignature;
  bytes ← ack_signing_bytes ack;
  verify (sa_peer_id ack) bytes signature.

(** ** Checking an acknowledgement *)

(** [get_observation] *)
Definition get_observation inner (i : OpId) : option (OpHeader * C) :=
  (λ meta, (header_of meta, om_observed_clock meta)) <$> l_meta (s_log inner) !! i.

(** The loops of [validate_ack_in], over the ids an acknowledgement names and over the
    heads among them that are held here *)
Definition ack_step inner ack (held : gset OpId) (i : OpId) : res (gset OpId) :=
  match positions inner i with
  | None => Ok held
  | Some meta =>
      let head := bool_decide (i ∈ sa_heads ack) in
      let held := if head then {[i]} ∪ held else held in
      if negb (bool_decide (pos_topic_id meta = sa_topic_id ack)) then Err TopicMismatch
      else if head && (ck_get (sa_clock ack) (pos_actor_id meta) <? pos_actor_seq meta)
      then Err (InvalidSyncAck "head is not represented by ack clock")
      else Ok held
  end.
Definition certify_step inner (clock : C) (head : OpId) : res C :=
  '(header, observed) ← ok_or (get_observation inner head) (MissingDependency head);
  Ok (ck_observe (ck_merge clock observed) (hd_actor_id header) (hd_actor_seq header)).

(** [validate_ack_in], on the engine of the peer [me] *)
Definition validate_ack_in (me : PeerId) inner ack : res (option (PeerAck C)) :=
  view ← topic_view_locked inner (sa_topic_id ack) None;
  view ← ok_or view TopicNotFound;
  let state := tv_state view in
  _ ← match sa_genesis ack with
      | Some genesis => if bool_decide (genesis = ts_genesis state) then Ok () else Err StaleIncarnation
      | None => Err (InvalidSyncAck "acknowledgement does not name the topic incarnation it certifies")
      end;
  if negb (bool_decide (sa_peer_id ack ∈ ts_members state)) then Err NotTopicMember
  else
    let local_actor := actor_id_for (sa_topic_id ack) me in
    if ck_get (tv_clock view) local_actor <? ck_get (sa_clock ack) local_actor
    then Err (InvalidSyncAck "clock claims more than the local actor wrote")
    else
      held ← try_fold (ack_step inner ack) ∅ (bt_elements (sa_accepted ack) ++ bt_elements (sa_heads ack));
      if bool_decide (held = ∅) then Ok None
      else
        clock ← try_fold (certify_step inner) ck_new (bt_elements held);
        Ok (Some {| ack_peer_id := sa_peer_id ack; ack_topic_id := sa_topic_id ack; ack_genesis := sa_genesis ack;
                    ack_heads := held; ack_clock := clock |}).

(** What an acknowledgement certifies, when its signature is right too *)
Definition checked_ack (me : PeerId) inner ack : res (option (PeerAck C)) :=
  _ ← ack_verify ack; validate_ack_in me inner ack.

(** [Storage::apply_peer_ack] *)
Definition apply_peer_ack inner (evidence : PeerAck C) : MemoryInner C * res unit :=
  match apply_ack_locked inner evidence with
  | Ok (inner, _) => (inner, Ok ())
  | Err e => (inner, Err e)
  end.

(** [SyncEngine::apply_ack]; [others] write between the check and the record. *)
Definition apply_ack (me : PeerId) (others : MemoryInner C → MemoryInner C) inner ack : MemoryInner C * res unit :=
  match checked_ack me inner ack with
  | Err e => (inner, Err e)
  | Ok None => (inner, Ok ())
  | Ok (Some evidence) => apply_peer_ack (others inner) evidence
  end.

(** [SyncEngine::apply_acks]: each is checked in a snapshot of its own, and what passes is
    recorded together. The store answers every record, so the outcomes of the records go
    to the acknowledgements they are of. *)
Fixpoint ack_outcomes (checked : list (res (option (PeerAck C)))) (applied : list (res nat)) : list (res unit) :=
  match checked with
  | [] => []
  | Err e :: checked => Err e :: ack_outcomes checked applied
  | Ok None :: checked => Ok () :: ack_outcomes checked applied
  | Ok (Some _) :: checked =>
      match applied with
      | outcome :: applied => ((λ _, ()) <$> outcome) :: ack_outcomes checked applied
      | [] => Ok () :: ack_outcomes checked []
      end
  end.
Definition evidence_of (checked : list (res (option (PeerAck C)))) : list (PeerAck C) :=
  omap (λ c, match c with Ok (Some evidence) => Some evidence | _ => None end) checked.
Definition apply_acks (me : PeerId) (snapshots : nat → MemoryInner C) inner (acks : list (SyncAck C))
    : MemoryInner C * list (res unit) :=
  let checked := imap (λ k ack, checked_ack me (snapshots k) ack) acks in
  let '(inner, applied) := apply_peer_acks inner (evidence_of checked) in
  (inner, ack_outcomes checked applied).

(** ** Certifying one's own view *)

(** [SyncEngine::ack_frontier], of the answer of [whole_view]: a topic with a hole
    certifies nothing. *)
Definition ack_frontier (answer : option (TopicView C * bool)) : res (TopicState * gset OpId * C) :=
  '(view, whole) ← ok_or answer TopicNotFound;
  if negb (whole : bool) then Ok (tv_state view, ∅, ck_new)
  else Ok (tv_state view, ts_heads (tv_state view), tv_clock view).

(** [SyncEngine::record_peer_synced] and [SyncEngine::record_fingerprint] *)
Definition own_ack (state : TopicState) p t (heads : gset OpId) (clock : C) : PeerAck C :=
  {| ack_peer_id := p; ack_topic_id := t; ack_genesis := Some (ts_genesis state); ack_heads := heads; ack_clock := clock |}.
Definition record_peer_synced inner (answer : option (TopicView C * bool)) p t : MemoryInner C * res unit :=
  match ack_frontier answer with
  | Err e => (inner, Err e)
  | Ok (state, heads, clock) =>
      if negb (bool_decide (p ∈ ts_members state)) then (inner, Err NotTopicMember)
      else apply_peer_ack inner (own_ack state p t heads clock)
  end.
Definition record_fingerprint inner (answer : option (TopicView C * bool)) p t (fingerprint : list N)
    : MemoryInner C * res bool :=
  match ack_frontier answer with
  | Err e => (inner, Err e)
  | Ok (state, heads, clock) =>
      if negb (bool_decide (p ∈ ts_members state)) then (inner, Err NotTopicMember)
      else
        match topic_fingerprint_for heads clock with
        | Err e => (inner, Err e)
        | Ok own =>
            if negb (bool_decide (own = fingerprint)) then (inner, Ok false)
            else let '(inner, r) := apply_peer_ack inner (own_ack state p t heads clock) in (inner, (λ _, true) <$> r)
        end
  end.

(** ** Owing operations *)

(** [SyncEngine::put_obligation]; [others] write before every access. *)
Definition resolve_step (others : nat → MemoryInner C → MemoryInner C) t
    (st : nat * MemoryInner C * C * gset OpId * gset OpId) (i : OpId) : nat * MemoryInner C * C * gset OpId * gset OpId :=
  let '(k, inner, target, resolved, unresolved) := st in
  let inner := others k inner in
  match positions inner i with
  | Some meta =>
      if bool_decide (pos_topic_id meta = t)
      then (S k, inner, ck_observe target (pos_actor_id meta) (pos_actor_seq meta), {[i]} ∪ resolved, unresolved)
      else (S k, inner, target, resolved, {[i]} ∪ unresolved)
  | None => (S k, inner, target, resolved, {[i]} ∪ unresolved)
  end.
Definition owe_if (wanted : bool) inner (ob : SyncObligation C) (genesis : option OpId) : MemoryInner C * res unit :=
  if negb wanted then (inner, Ok ())
  else match put_sync_obligation inner ob genesis with Ok inner => (inner, Ok ()) | Err e => (inner, Err e) end.
Definition put_obligation (others : nat → MemoryInner C → MemoryInner C) inner p t (op_ids : gset OpId)
    : MemoryInner C * res unit :=
  if bool_decide (op_ids = ∅) then (inner, Ok ())
  else
    let inner := others O inner in
    let genesis := ts_genesis <$> topic_state_locked inner t in
    let '(k, inner, target, resolved, unresolved) :=
      foldl (resolve_step others t) (1%nat, inner, ck_new, ∅, ∅) (bt_elements op_ids) in
    let '(inner, r) := owe_if (negb (bool_decide (resolved = ∅))) (others k inner)
      {| ob_peer_id := p; ob_topic_id := t; ob_target := ClockTarget target |} genesis in
    match r with
    | Err e => (inner, Err e)
    | Ok () =>
        owe_if (negb (bool_decide (unresolved = ∅))) (others (S k) inner)
          {| ob_peer_id := p; ob_topic_id := t; ob_target := RepairTarget unresolved |} genesis
    end.

(** [SyncEngine::report] *)
Definition report inner p t : list (SyncObligation C) := sync_obligations inner p t.
End engine.
