(* ===== verification/SyncEvidenceInv.v ===== *)
(** * Evidence never says more than a peer holds *)

From S2P Require Import Prelude Ids Frame ClockSpec Types Evidence Records Pool Store StoreLog StoreAdmit StoreOps StoreReset StoreEvidence StoreRun StoreReads.
From S2P Require Import Admission Dag Projection Building Commit Genesis Evolve SyncEvidence.

#[local] Open Scope N_scope.

Section sound.
Context {C : Type} `{!ClockImpl C} `{!StoreEnv C} `{!Crypto} `{!AckCodec C} `{!OplogEnv}.
Context (universe : Op → Prop).
Implicit Types (inner : MemoryInner C) (ack : SyncAck C) (t : TopicId) (p : PeerId) (E : history (C := C)).

Abbreviation hist inner t := (entries_of (s_log inner) t).
Abbreviation valid := (valid universe).

(** ** What is certified *)

(** The heads that count: named by the peer, held here, in the topic. *)
Lemma held_spec inner ack l held :
  try_fold (ack_step inner ack) ∅ l = Ok held →
  ∀ i, i ∈ held → i ∈ sa_heads ack ∧ ∃ m, l_meta (s_log inner) !! i = Some m ∧ om_topic_id m = sa_topic_id ack.
Proof.
  apply (try_fold_inv (λ held, ∀ i, i ∈ held → i ∈ sa_heads ack ∧ ∃ m, l_meta (s_log inner) !! i = Some m ∧ om_topic_id m = sa_topic_id ack));
    [|by intros i ?%elem_of_empty].
  intros x s s' _ HI. unfold ack_step, positions. destruct (l_meta (s_log inner) !! x) as [m|] eqn:Hm; simpl; [|by intros [= <-]].
  case_bool_decide as Ht; [|done]. cbn [negb]. case_bool_decide as Hh; simpl.
  - case_match; [done|]. intros [= <-] i [->%elem_of_singleton|?]%elem_of_union; [|by apply HI]. split; [done|]. by exists m.
  - by intros [= <-].
Qed.

Lemma certify_spec inner t heads state l :
  history_ok (hist inner t) t heads state → (∀ d, d ∈ l → ∃ o m, hist inner t d o m) →
  ∃ clock, try_fold (certify_step inner) ck_new l = Ok clock ∧ clock_after (hist inner t) l clock.
Proof.
  intros Hok. induction l as [|d l IH] using rev_ind; intros Hl.
  { exists ck_new. split; [done|]. apply clock_after_nil. }
  destruct IH as (clock & Hf & Hc); [intros d' ?; apply Hl, elem_of_app; by left|].
  destruct (Hl d) as (o & m & Hd); [apply elem_of_app; right; by left|].
  exists (ck_observe (ck_merge clock (om_observed_clock m)) (om_actor_id m) (om_actor_seq m)). split.
  - rewrite try_fold_app Hf. simpl. unfold certify_step, get_observation. destruct Hd as (_ & -> & _). done.
  - by eapply clock_after_snoc.
Qed.

Lemma validate_spec me inner ack ev :
  node_ok inner → validate_ack_in me inner ack = Ok (Some ev) →
  ack_peer_id ev = sa_peer_id ack ∧ ack_topic_id ev = sa_topic_id ack ∧
  (∃ state, topic_state_locked inner (sa_topic_id ack) = Some state ∧ ack_genesis ev = Some (ts_genesis state)) ∧
  (∀ h, h ∈ ack_heads ev → h ∈ sa_heads ack ∧ member (hist inner (sa_topic_id ack)) h) ∧
  clock_after (hist inner (sa_topic_id ack)) (bt_elements (ack_heads ev)) (ack_clock ev).
Proof.
  intros [Hst Htopics] Hv. unfold validate_ack_in in Hv.
  apply bind_ok in Hv as (view & Hview & Hv). apply bind_ok in Hv as (view' & ->%ok_or_ok & Hv). cbv zeta in Hv.
  apply bind_ok in Hv as ([] & Hg & Hv). case_bool_decide; [|done]. cbn [negb] in Hv. case_match; [done|].
  apply bind_ok in Hv as (held & Hheld & Hv). case_bool_decide; [done|]. apply bind_ok in Hv as (clock & Hclock & Hv).
  injection Hv as <-. simpl.
  assert (∃ state, topic_state_locked inner (sa_topic_id ack) = Some state ∧ tv_state view' = state) as (state & Hs & Htv).
  { unfold topic_view_locked in Hview. destruct (topic_state_locked inner (sa_topic_id ack)) as [s|]; [|done].
    exists s. split; [done|]. apply bind_ok in Hview as (fp & _ & Hview). by injection Hview as <-. }
  pose proof (held_spec _ _ _ _ Hheld) as Hspec.
  assert (∀ h, h ∈ held → ∃ o m, hist inner (sa_topic_id ack) h o m) as Hmem.
  { intros h (_ & m & Hm & Ht)%Hspec. destruct (stored_entry inner _ h m Hst Hm Ht) as [o Ho]. by exists o, m. }
  split_and!; [done..| | |].
  - exists state. split; [done|]. destruct (sa_genesis ack) as [g|]; [|done]. case_bool_decide; [|done]. by subst.
  - intros h Hh. split; [by apply Hspec|by apply Hmem].
  - destruct (certify_spec inner (sa_topic_id ack) _ _ (bt_elements held) (Htopics _)) as (clock' & Hc' & Hafter).
    { intros d Hd%elem_of_bt_elements. by apply Hmem. }
    congruence.
Qed.

(** A position the clock counts is at or behind one of the heads, also when the history
    has grown since. *)
Lemma covered_behind E E' t heads state heads' state' l clock i o m :
  history_ok E t heads state → history_ok E' t heads' state' → extends_history E E' →
  clock_after E l clock → E' i o m → om_actor_seq m ≤ ck_get clock (om_actor_id m) →
  ∃ d, d ∈ l ∧ member E d ∧ rtc (depends E) d i.
Proof.
  intros Hok Hok' Hext [Hmem Hc] Hi Hle. pose proof (seq_positive _ _ _ _ Hok' _ _ _ Hi) as Hpos.
  apply (Hc _ _ Hpos) in Hle as (d & Hd & od & md & Hed & Hcount). specialize (Hmem d Hd). exists d. split_and!; [done..|].
  assert (E' d od md) as Hed' by by apply Hext. apply (rtc_grow E E' t heads state Hok Hext); [done|].
  destruct Hcount as [Hobs|[Ha Hs]].
  - apply (clock_counts _ _ _ _ Hok' _ _ _ _ _ _ Hed' Hi) in Hobs as (e & Hde & Hr). by eapply rtc_l.
  - by eapply (chain_behind _ _ _ _ Hok').
Qed.

(** ** What the store keeps of a peer *)

(** The peer whose copy of the topic is [E] holds what the store believes it to hold. *)
Definition believed inner p t E : Prop :=
  ∀ (record : PeerAck C) state, s_peer_acks inner !! (p, t) = Some record → topic_state_locked inner t = Some state →
    ack_genesis record = Some (ts_genesis state) →
    ∀ i o m, hist inner t i o m → om_actor_seq m ≤ ck_get (ack_clock record) (om_actor_id m) → member E i.

(** The operation at a position is owed to a peer by a clock obligation. *)
Definition owes inner p t (m : OpMeta C) : Prop :=
  ∃ ob target, owed (s_obligations inner) (t, p) ClockKind = Some ob ∧ ob_target ob = ClockTarget target ∧
    om_actor_seq m ≤ ck_get target (om_actor_id m).

Lemma effective_clock (existing : option (PeerAck C)) (evidence : PeerAck C) a :
  ck_get (ack_clock (effective_ack existing evidence)) a ≤ N.max (ck_get (ack_clock evidence) a)
    match existing with
    | Some e => if same_incarnation e evidence then ck_get (ack_clock e) a else 0
    | None => 0
    end.
Proof.
  destruct existing as [e|]; [|simpl; lia]. destruct (effective_ack_grows e evidence) as [_ ->]. case_match; lia.
Qed.

(** What an acknowledgement leaves of a clock obligation is what it does not prove. *)
Lemma still_owed inner (evidence : PeerAck C) ob target (m : OpMeta C) :
  ob_target ob = ClockTarget target → om_actor_seq m ≤ ck_get target (om_actor_id m) →
  ck_get (ack_clock evidence) (om_actor_id m) < om_actor_seq m →
  ∃ rest target', remaining inner evidence ob = Some rest ∧ ob_target rest = ClockTarget target' ∧
    om_actor_seq m ≤ ck_get target' (om_actor_id m).
Proof.
  intros Ht Hle Hlt. unfold remaining. destruct (settled_obligation_exact ob evidence (positions inner)) as (rest & -> & Hrest).
  rewrite Ht in Hrest. rewrite ck_get_view in Hle. destruct rest as [rest|].
  - destruct Hrest as (c & -> & Hc & _). exists (set_target ob (ClockTarget c)), c. split_and!; [done..|].
    rewrite ck_get_view Hc. destruct (ck_view target !! om_actor_id m) as [s|] eqn:Hs; simpl in Hle; [|lia].
    assert (filter (λ e, ck_get (ack_clock evidence) e.1 < e.2) (ck_view target) !! om_actor_id m = Some s) as ->; [|done].
    apply map_lookup_filter_Some. split; [done|]. simpl. lia.
  - specialize (Hrest (om_actor_id m)). lia.
Qed.

(** Recording evidence that is right: what is believed stays right, and what is not owed
    any more is held. *)
Lemma record_believed base (ev : PeerAck C) base' n p t E :
  valid base → believed base p t E → ack_peer_id ev = p → ack_topic_id ev = t →
  (∀ s i o m, topic_state_locked base t = Some s → ack_genesis ev = Some (ts_genesis s) → hist base t i o m →
    om_actor_seq m ≤ ck_get (ack_clock ev) (om_actor_id m) → member E i) →
  apply_ack_locked base ev = Ok (base', n) →
  believed base' p t E ∧ ∀ i o m, hist base t i o m → owes base p t m → owes base' p t m ∨ member E i.
Proof.
  intros HV Hb Hp Ht Hheld Hl. pose proof Hl as (Hguard & Heq & _ & Howed & _)%apply_ack_spec; [|apply HV].
  rewrite Hp Ht in Heq, Hguard, Howed.
  set (existing := s_peer_acks base !! (p, t)) in *. set (stored := effective_ack existing ev) in *.
  assert (∀ s i o m, topic_state_locked base t = Some s → hist base t i o m →
    om_actor_seq m ≤ ck_get (ack_clock stored) (om_actor_id m) → member E i) as Hcover.
  { intros s i o m Hs Hi Hle.
    assert (ack_genesis ev = Some (ts_genesis s)) as Hgev.
    { unfold topic_state_locked in Hs. destruct (s_topics base !! t) as [s0|] eqn:Hs0; [|done]. injection Hs as <-.
      by destruct (Hguard s0 eq_refl). }
    pose proof (effective_clock existing ev (om_actor_id m)) as Hmax.
    destruct (decide (om_actor_seq m ≤ ck_get (ack_clock ev) (om_actor_id m))) as [Hle'|Hgt]; [by eapply Hheld|].
    subst stored. destruct existing as [e|] eqn:He; [|lia]. destruct (same_incarnation e ev) eqn:Hsi; [|lia].
    apply same_incarnation_true in Hsi as (_ & _ & _ & Hge). eapply (Hb e s); [exact He|done|congruence|done|lia]. }
  split.
  - rewrite Heq. intros record s Hrec Hs _ i o m Hi. cbn [set_evidence s_peer_acks] in Hrec. rewrite lookup_insert_eq in Hrec.
    injection Hrec as <-. by apply (Hcover s i o m).
  - intros i o m Hi (ob & target & Hob & Htarget & Hle).
    destruct (topic_state_member _ _ _ (nd_topics _ (v_node _ _ HV) t) (ex_intro _ o (ex_intro _ m Hi))) as [s Hs].
    destruct (decide (om_actor_seq m ≤ ck_get (ack_clock stored) (om_actor_id m))) as [|Hgt]; [by right; eapply Hcover|left].
    destruct (still_owed base stored ob target m Htarget Hle) as (rest & target' & Hrest & Ht' & Hle'); [lia|].
    exists rest, target'. split_and!; [|done..]. rewrite Howed Hob. simpl.
    rewrite decide_True; [|exact Hrest]. unfold topic_state_locked in Hs. destruct (s_topics base !! t); done.
Qed.

Section apply.
Context (me : PeerId) (others : MemoryInner C → MemoryInner C) inner ack E (heads : gset OpId) (state : option TopicState).
Abbreviation t := (sa_topic_id ack).
Abbreviation p := (sa_peer_id ack).
Context (Hvalid : valid inner) (Hvalid' : valid (others inner)) (Hev : evolves inner (others inner)).
Context (Hpeer : history_ok E t heads state) (Hheads : ∀ h, h ∈ sa_heads ack → member E h).
Context (Hsame : ∀ i o1 m1 o2 m2, hist inner t i o1 m1 → E i o2 m2 → o1 = o2).

(** What is certified is held by the peer, in every later state of the branch. *)
Lemma certified_held ev state' i o m :
  checked_ack me inner ack = Ok (Some ev) → topic_state_locked (others inner) t = Some state' →
  ack_genesis ev = Some (ts_genesis state') → hist (others inner) t i o m →
  om_actor_seq m ≤ ck_get (ack_clock ev) (om_actor_id m) → member E i.
Proof using Hvalid Hvalid' Hev Hpeer Hheads Hsame.
  intros ([] & _ & Hv)%bind_ok Hs' Hg Hi Hle. pose proof (v_node _ _ Hvalid) as Hnode. pose proof (v_node _ _ Hvalid') as Hnode'.
  destruct (validate_spec me inner ack ev Hnode Hv) as (_ & _ & (s & Hs & Hgs) & Hhs & Hafter).
  assert (extends_history (hist inner t) (hist (others inner) t)) as Hext.
  { destruct (Hev t) as [|(s1 & s2 & Hs1 & Hs2 & Hlt)]; [done|]. rewrite Hs in Hs1. rewrite Hs' in Hs2. rewrite Hgs in Hg.
    injection Hs1 as <-. injection Hs2 as <-. injection Hg as Hg. rewrite Hg in Hlt. by apply (irreflexivity blt) in Hlt. }
  destruct (covered_behind _ _ _ _ _ _ _ _ _ i o m (nd_topics _ Hnode t) (nd_topics _ Hnode' t) Hext Hafter Hi Hle)
    as (d & Hd%elem_of_bt_elements & _ & Hr).
  eapply (rtc_shared (hist inner t) E); [by apply nd_topics|done|done| |exact Hr]. apply Hheads. by apply Hhs.
Qed.

Lemma apply_ack_outcome inner' r :
  apply_ack me others inner ack = (inner', r) →
  inner' = inner ∨ inner' = others inner ∨
  ∃ ev n, checked_ack me inner ack = Ok (Some ev) ∧ apply_ack_locked (others inner) ev = Ok (inner', n).
Proof using Type.
  clear Hvalid Hvalid' Hev Hpeer Hheads Hsame. unfold apply_ack, apply_peer_ack. destruct (checked_ack me inner ack) as [[ev|]|]; [|naive_solver..].
  destruct (apply_ack_locked (others inner) ev) as [[inner1 n]|] eqn:Ha; intros [= <- <-]; [|by right; left].
  right; right. by exists ev, n.
Qed.
End apply.


(** ** Matching fingerprints *)

(** A position the clock of a store counts is taken, also when the history has grown. *)
Lemma clock_taken inner inner' t i o m :
  node_ok inner → node_ok inner' → extends_history (hist inner t) (hist inner' t) → hist inner' t i o m →
  om_actor_seq m ≤ ck_get (clock_of inner t) (om_actor_id m) → member (hist inner t) i.
Proof.
  intros Hn Hn' Hext Hi Hle. pose proof (seq_positive _ _ _ _ (nd_topics _ Hn' t) _ _ _ Hi) as Hpos.
  pose proof (nd_store _ Hn) as Hst. rewrite ck_get_view (so_clock _ Hst) in Hle.
  pose proof (lo_tip _ (so_log _ Hst) t (om_actor_id m)) as Htip.
  destruct (l_actor_tip (s_log inner) !! (t, om_actor_id m)) as [[s j]|]; simpl in Hle; [|lia].
  destruct (proj2 (proj2 Htip (om_actor_seq m))) as [k Hk]; [lia|].
  apply (lo_seq _ (so_log _ Hst)) in Hk as (mk & Hmk & Htk & Hak & Hsk).
  destruct (stored_entry inner t k mk Hst Hmk Htk) as [ok Hok].
  assert (hist inner' t k ok mk) as Hok' by (apply Hext; [by exists ok, mk|done]).
  rewrite (h_slot _ _ _ _ (nd_topics _ Hn' t) _ _ _ _ _ _ Hi Hok'); [done..|]. by exists ok, mk.
Qed.

(** When a peer has the fingerprint of a topic, it is believed to hold the whole topic,
    and it does, unless its heads are others that have the same fingerprint: heads
    determine the history.
    A topic with a hole lends the peer nothing. *)
Theorem fingerprint_sound inner0 inner view whole p t fingerprint inner' E heads state (clock : C) :
  valid inner0 → valid inner → evolves inner0 inner → believed inner p t E →
  topic_view_locked inner0 t None = Ok (Some view) →
  history_ok E t heads state → (∀ i o1 m1 o2 m2, hist inner0 t i o1 m1 → E i o2 m2 → o1 = o2) →
  topic_fingerprint_for heads clock = Ok fingerprint →
  (∀ c, topic_fingerprint_for (ts_heads (tv_state view)) (c : C) = Ok fingerprint → ts_heads (tv_state view) = heads) →
  record_fingerprint inner (Some (view, whole)) p t fingerprint = (inner', Ok true) →
  believed inner' p t E.
Proof.
  intros HV0 HV Hev Hb Hview Hpeer Hsame Hfp Hinj Hrec. pose proof (v_node _ _ HV0) as Hn0. pose proof (v_node _ _ HV) as Hn.
  unfold topic_view_locked in Hview. destruct (topic_state_locked inner0 t) as [s0|] eqn:Hs0; [|done].
  apply bind_ok in Hview as (fp0 & _ & Hview). injection Hview as <-.
  unfold record_fingerprint, ack_frontier in Hrec. cbn [ok_or mbind result_bind] in Hrec.
  set (view := {| tv_state := s0 |}) in Hrec.
  assert (∃ hs c, (hs = ∅ ∧ c = ck_new ∨ hs = ts_heads s0 ∧ c = clock_of inner0 t) ∧
    (if negb whole then Ok (tv_state view, ∅, ck_new) else Ok (tv_state view, ts_heads (tv_state view), tv_clock view))
      = (Ok (s0, hs, c) : res _)) as (hs & c & Hcase & Heq).
  { destruct whole; cbn [negb]; do 2 eexists; (split; [|reflexivity]); [by right|by left]. }
  rewrite Heq in Hrec. case_bool_decide; [|done]. cbn [negb] in Hrec.
  destruct (topic_fingerprint_for hs c) as [own|] eqn:Hown; [|done]. case_bool_decide; [|done]. subst own. cbn [negb] in Hrec.
  unfold apply_peer_ack in Hrec. destruct (apply_ack_locked inner (own_ack s0 p t hs c)) as [[inner1 n]|] eqn:Hl; [|done].
  injection Hrec as ->. refine (proj1 (record_believed inner (own_ack s0 p t hs c) inner' n p t E HV Hb eq_refl eq_refl _ Hl)).
  intros s i o m Hs Hg Hi Hle. cbn [own_ack ack_genesis ack_clock] in Hg, Hle.
  destruct Hcase as [[-> ->]|[-> ->]].
  { pose proof (seq_positive _ _ _ _ (nd_topics _ Hn t) _ _ _ Hi). rewrite ck_get_view ck_view_new lookup_empty in Hle. simpl in Hle. lia. }
  assert (extends_history (hist inner0 t) (hist inner t)) as Hext.
  { destruct (Hev t) as [|(s1 & s2 & Hs1 & Hs2 & Hlt)]; [done|]. rewrite Hs0 in Hs1. rewrite Hs in Hs2.
    injection Hs1 as <-. injection Hs2 as <-. injection Hg as Hg. rewrite Hg in Hlt. by apply (irreflexivity blt) in Hlt. }
  pose proof (clock_taken inner0 inner t i o m Hn0 Hn Hext Hi Hle) as Hmem.
  pose proof (Hinj _ Hown) as Hheads. cbn [tv_state view] in Hheads.
  pose proof (nd_topics _ Hn0 t) as Ht0. pose proof (topic_ok_heads inner0 t Ht0) as Hh. rewrite Hs0 in Hh. simpl in Hh.
  unfold topic_ok in Ht0. rewrite -Hh Hheads in Ht0. by eapply (frontier_member (hist inner0 t) E t heads).
Qed.
End sound.

(** ** Several acknowledgements *)

Section several.
Context {C : Type} `{!ClockImpl C} `{!StoreEnv C} `{!Crypto} `{!AckCodec C}.
Implicit Types (inner : MemoryInner C) (ack : SyncAck C) (t : TopicId) (p : PeerId).

(** What is recorded in order. *)
Lemma apply_peer_acks_snoc inner (l : list (PeerAck C)) ev :
  apply_peer_acks inner (l ++ [ev]) =
  ((apply_peer_ack (apply_peer_acks inner l).1 ev).1,
   (apply_peer_acks inner l).2 ++ [snd <$> apply_ack_locked (apply_peer_acks inner l).1 ev]).
Proof.
  unfold apply_peer_acks, apply_peer_ack. rewrite foldl_app. cbn [foldl]. unfold apply_next_ack at 1.
  by destruct (apply_ack_locked _ ev) as [[? ?]|].
Qed.

Lemma apply_peer_acks_length inner (l : list (PeerAck C)) : length (apply_peer_acks inner l).2 = length l.
Proof.
  induction l as [|ev l IH] using rev_ind; [done|]. rewrite apply_peer_acks_snoc. simpl. by rewrite !length_app IH.
Qed.

Lemma ack_outcomes_app (checked : list (res (option (PeerAck C)))) c applied applied' :
  length applied = length (evidence_of checked) →
  ack_outcomes (checked ++ [c]) (applied ++ applied') = ack_outcomes checked applied ++ ack_outcomes [c] applied'.
Proof.
  revert applied. induction checked as [|[[ev|]|e] checked IH]; intros applied Hlen; simpl in Hlen.
  - by apply nil_length_inv in Hlen as ->.
  - destruct applied as [|o applied]; [done|]. simpl in *. f_equal. apply IH. by injection Hlen.
  - simpl. f_equal. by apply IH.
  - simpl. f_equal. by apply IH.
Qed.

Lemma evidence_of_app (checked checked' : list (res (option (PeerAck C)))) : evidence_of (checked ++ checked') = evidence_of checked ++ evidence_of checked'.
Proof. unfold evidence_of. by rewrite omap_app. Qed.

(** The outcome of an acknowledgement that is checked as [c] after [checked] was recorded. *)
Definition ack_outcome inner (checked : list (res (option (PeerAck C)))) (c : res (option (PeerAck C))) : res unit :=
  match c with
  | Err e => Err e
  | Ok None => Ok ()
  | Ok (Some ev) => (apply_peer_ack (apply_peer_acks inner (evidence_of checked)).1 ev).2
  end.

Lemma outcomes_spec inner checked :
  let '(inner', applied) := apply_peer_acks inner (evidence_of checked) in
  ack_outcomes checked applied = imap (λ k c, ack_outcome inner (take k checked) c) checked.
Proof.
  induction checked as [|c checked IH] using rev_ind; [done|].
  rewrite evidence_of_app imap_app. cbn [imap]. rewrite Nat.add_0_r take_app_length.
  assert (imap (λ k c', ack_outcome inner (take k (checked ++ [c])) c') checked =
    imap (λ k c', ack_outcome inner (take k checked) c') checked) as ->.
  { apply list_eq. intros k. rewrite !list_lookup_imap. destruct (checked !! k) as [c'|] eqn:Hk; [|done]. simpl.
    apply lookup_lt_Some in Hk. rewrite take_app_le; [lia|done]. }
  destruct (apply_peer_acks inner (evidence_of checked)) as [inner1 applied1] eqn:H1.
  pose proof (apply_peer_acks_length inner (evidence_of checked)) as Hlen. rewrite H1 in Hlen.
  destruct c as [[ev|]|e]; cbn [evidence_of omap list_omap].
  - rewrite apply_peer_acks_snoc H1. simpl. rewrite ack_outcomes_app // IH. f_equal. simpl.
    rewrite H1. simpl. unfold apply_peer_ack. by destruct (apply_ack_locked inner1 ev) as [[? ?]|].
  - rewrite app_nil_r H1. rewrite -{1}(app_nil_r applied1) ack_outcomes_app // IH. done.
  - rewrite app_nil_r H1. rewrite -{1}(app_nil_r applied1) ack_outcomes_app // IH. done.
Qed.

(** Acknowledgements that are applied together do not touch each other: every
    one gets the outcome of its own check, or of recording it after those before it that
    passed theirs. *)
Theorem apply_acks_isolated me snapshots inner (acks : list (SyncAck C)) :
  let checked := imap (λ k ack, checked_ack me (snapshots k) ack) acks in
  let '(inner', results) := apply_acks me snapshots inner acks in
  inner' = (apply_peer_acks inner (evidence_of checked)).1 ∧
  results = imap (λ k c, ack_outcome inner (take k checked) c) checked.
Proof.
  intros checked. unfold apply_acks. fold checked. pose proof (outcomes_spec inner checked) as Hspec.
  destruct (apply_peer_acks inner (evidence_of checked)) as [inner' applied]. by split.
Qed.
End several.

(** ** Owing operations *)

Section owing.
Context {C : Type} `{!ClockImpl C} `{!StoreEnv C} `{!Crypto}.
Implicit Types (inner : MemoryInner C) (ob merged : SyncObligation C) (t : TopicId) (p : PeerId).

(** An obligation that asks for at least as much. *)
Definition asks_more ob merged : Prop :=
  match ob_target ob, ob_target merged with
  | ClockTarget c, ClockTarget c' => ∀ a, ck_get c a ≤ ck_get c' a
  | RepairTarget ids, RepairTarget ids' => ids ⊆ ids'
  | _, _ => False
  end.

Lemma merged_asks_more existing ob merged :
  merged_obligation existing ob = Ok merged → (∀ e, existing = Some e → kind_of e = kind_of ob ∧
    ob_topic_id e = ob_topic_id ob ∧ ob_peer_id e = ob_peer_id ob) → ob_is_empty ob = false →
  asks_more ob merged ∧ filed (ob_topic_id ob, ob_peer_id ob) (kind_of ob) merged.
Proof.
  intros Hm Hex Hne. unfold merged_obligation in Hm. case_match; [done|]. destruct existing as [e|].
  2: { injection Hm as <-. split; [unfold asks_more; by case_match|done]. }
  destruct (Hex e eq_refl) as (Hk & Ht & Hp). unfold kind_of, asks_more, filed, ob_is_empty in *.
  destruct (ob_target e) as [c|ids] eqn:He, (ob_target ob) as [c'|ids'] eqn:Ho; try done.
  - injection Hm as <-. cbn [set_target ob_target ob_topic_id ob_peer_id]. split_and!; [|by rewrite Ht Hp|done|].
    + intros a. rewrite ck_get_merge. lia.
    + rewrite ck_is_empty_view in Hne. apply bool_decide_eq_false in Hne. rewrite ck_is_empty_view. apply bool_decide_eq_false. intros Hv. apply Hne.
      apply map_eq. intros a. rewrite lookup_empty. pose proof (f_equal (lookup a) Hv) as Ha. rewrite lookup_empty in Ha.
      rewrite ck_view_merge lookup_union_with in Ha. by destruct (ck_view c !! a), (ck_view c' !! a).
  - destruct (bool_decide (MAX_REPAIR_IDS < size (ids ∪ ids'))%nat); [done|]. injection Hm as <-. cbn [set_target ob_target ob_topic_id ob_peer_id].
    split_and!; [set_solver|by rewrite Ht Hp|done|]. apply bool_decide_eq_false in Hne. apply bool_decide_eq_false. set_solver.
Qed.

Lemma put_sync_owed inner ob genesis inner' :
  obligations_ok (s_obligations inner) → ob_is_empty ob = false → put_sync_obligation inner ob genesis = Ok inner' →
  let key := (ob_topic_id ob, ob_peer_id ob) in
  (∃ merged, owed (s_obligations inner') key (kind_of ob) = Some merged ∧ asks_more ob merged) ∧
  (∀ kind, kind ≠ kind_of ob → owed (s_obligations inner') key kind = owed (s_obligations inner) key kind) ∧
  obligations_ok (s_obligations inner').
Proof.
  intros Hok Hne Hput key. unfold put_sync_obligation in Hput. skip_ok Hput. skip_ok Hput.
  next_ok Hput as (merged & Hm & Hput). do 2 skip_ok Hput. injection Hput as <-. cbn [set_evidence s_obligations].
  unfold merged_obligation_locked in Hm. fold key in Hm.
  destruct (merged_asks_more _ _ _ Hm) as [Hask Hfiled]; [|done|].
  { intros e (records & Hr & He)%bind_Some. destruct (Hok _ _ Hr) as [_ Hf]. destruct (Hf _ _ He) as (Hkey & Hk & _).
    unfold key in Hkey. by injection Hkey. }
  fold key in Hfiled. split_and!; [| |by apply put_obligation_ok]; rewrite (put_obligation_filed _ key (kind_of ob)) //.
  - exists merged. split; [|done]. unfold owed. by rewrite lookup_insert_eq /= lookup_insert_eq.
  - intros kind Hkind. unfold owed. rewrite lookup_insert_eq /= lookup_insert_ne //. by destruct (s_obligations inner !! key).
Qed.

Lemma resolve_spec inner t (l : list OpId) k (target : C) (resolved unresolved : gset OpId) :
  (resolved ≠ ∅ → ck_is_empty target = false) →
  let '(_, inner', target', resolved', unresolved') := foldl (resolve_step (λ _ s, s) t) (k, inner, target, resolved, unresolved) l in
  inner' = inner ∧ (∀ a, ck_get target a ≤ ck_get target' a) ∧ resolved ⊆ resolved' ∧ unresolved ⊆ unresolved' ∧
  (resolved' ≠ ∅ → ck_is_empty target' = false) ∧
  ∀ i, i ∈ l → match positions inner i with
    | Some m => if bool_decide (pos_topic_id m = t) then i ∈ resolved' ∧ pos_actor_seq m ≤ ck_get target' (pos_actor_id m)
                else i ∈ unresolved'
    | None => i ∈ unresolved'
    end.
Proof.
  revert k target resolved unresolved. induction l as [|i l IH]; intros k target resolved unresolved Hne; cbn [foldl].
  { split_and!; try done. by intros i ?%elem_of_nil. }
  unfold resolve_step at 2.
  assert (∀ tgt r u, (r ≠ ∅ → ck_is_empty tgt = false) → (∀ a, ck_get target a ≤ ck_get tgt a) → resolved ⊆ r → unresolved ⊆ u →
    (match positions inner i with
     | Some m => if bool_decide (pos_topic_id m = t) then i ∈ r ∧ pos_actor_seq m ≤ ck_get tgt (pos_actor_id m) else i ∈ u
     | None => i ∈ u end) →
    let '(_, inner', target', resolved', unresolved') := foldl (resolve_step (λ _ s, s) t) (S k, inner, tgt, r, u) l in
    inner' = inner ∧ (∀ a, ck_get target a ≤ ck_get target' a) ∧ resolved ⊆ resolved' ∧ unresolved ⊆ unresolved' ∧
    (resolved' ≠ ∅ → ck_is_empty target' = false) ∧
    ∀ j, j ∈ i :: l → match positions inner j with
      | Some m => if bool_decide (pos_topic_id m = t) then j ∈ resolved' ∧ pos_actor_seq m ≤ ck_get target' (pos_actor_id m)
                  else j ∈ unresolved'
      | None => j ∈ unresolved'
      end) as Hgo.
  { intros tgt r u Hne' Hle Hr Hu Hi. specialize (IH (S k) tgt r u Hne').
    destruct (foldl _ _ l) as [[[[k' inner'] target'] r'] u']. destruct IH as (-> & Hle' & Hr' & Hu' & Hne2 & Hl).
    split_and!; [done| |set_solver|set_solver|done|]; [intros a; etrans; [apply Hle|apply Hle']|].
    intros j [->|Hj]%elem_of_cons; [|by apply Hl]. destruct (positions inner i) as [m|]; [|set_solver].
    case_bool_decide; [|set_solver]. destruct Hi as [? Hs]. split; [set_solver|]. etrans; [exact Hs|apply Hle']. }
  clear IH. destruct (positions inner i) as [m|] eqn:Hm; [case_bool_decide as Ht|]; apply Hgo; try reflexivity; try assumption;
    rewrite ?Hm ?(bool_decide_eq_true_2 _ Ht) ?(bool_decide_eq_false_2 _ Ht);
    try (apply elem_of_union_l; by apply elem_of_singleton); try apply union_subseteq_r.
  - intros _. rewrite ck_is_empty_view. apply bool_decide_eq_false. rewrite ck_view_observe. apply insert_non_empty.
  - intros a. rewrite ck_get_observe. case_decide; lia.
  - split; [apply elem_of_union_l; by apply elem_of_singleton|]. rewrite ck_get_observe decide_True //. lia.
Qed.

(** What a peer is to get is owed to it. After an obligation for some operations was
    recorded, every one of them that is stored in the topic is covered by the clock the
    peer is owed, and every other one is among the ids it is owed by name. *)
Theorem put_obligation_owes inner p t (ids : gset OpId) inner' :
  obligations_ok (s_obligations inner) → put_obligation (λ _ s, s) inner p t ids = (inner', Ok ()) →
  ∀ i, i ∈ ids →
  match positions inner i with
  | Some m =>
      if bool_decide (pos_topic_id m = t) then
        ∃ ob target, owed (s_obligations inner') (t, p) ClockKind = Some ob ∧ ob_target ob = ClockTarget target ∧
          pos_actor_seq m ≤ ck_get target (pos_actor_id m)
      else ∃ ob left, owed (s_obligations inner') (t, p) RepairKind = Some ob ∧ ob_target ob = RepairTarget left ∧ i ∈ left
  | None => ∃ ob left, owed (s_obligations inner') (t, p) RepairKind = Some ob ∧ ob_target ob = RepairTarget left ∧ i ∈ left
  end.
Proof.
  intros Hok Hput i Hi. unfold put_obligation in Hput. case_bool_decide as He; [set_solver|]. cbv zeta in Hput.
  pose proof (resolve_spec inner t (bt_elements ids) 1%nat ck_new ∅ ∅ ltac:(done)) as Hspec.
  destruct (foldl _ _ _) as [[[[k inner1] target] resolved] unresolved]. destruct Hspec as (-> & _ & _ & _ & Hne & Hl).
  set (g := ts_genesis <$> topic_state_locked inner t) in *.
  set (ob1 := {| ob_peer_id := p; ob_topic_id := t; ob_target := ClockTarget target |}) in *.
  set (ob2 := {| ob_peer_id := p; ob_topic_id := t; ob_target := RepairTarget unresolved |}) in *.
  assert (∃ inner2, obligations_ok (s_obligations inner2) ∧
    (resolved ≠ ∅ → ∃ ob, owed (s_obligations inner2) (t, p) ClockKind = Some ob ∧ asks_more ob1 ob) ∧
    owe_if (negb (bool_decide (unresolved = ∅))) inner2 ob2 g = (inner', Ok ())) as (inner2 & Hok2 & Hclock & Hput2).
  { unfold owe_if at 1 in Hput. case_bool_decide as Hr; cbn [negb] in Hput; [by exists inner|].
    destruct (put_sync_obligation inner ob1 g) as [inner2|] eqn:H1; [|done]. exists inner2.
    destruct (put_sync_owed inner ob1 g inner2 Hok (Hne Hr) H1) as ((ob & Hob & Hask) & _ & Hok2). split_and!; [done| |done].
    intros _. by exists ob. }
  assert ((unresolved ≠ ∅ → ∃ ob, owed (s_obligations inner') (t, p) RepairKind = Some ob ∧ asks_more ob2 ob) ∧
    owed (s_obligations inner') (t, p) ClockKind = owed (s_obligations inner2) (t, p) ClockKind) as [Hrepair Hsame].
  { unfold owe_if in Hput2. case_bool_decide as Hu; cbn [negb] in Hput2; [by injection Hput2 as ->|].
    destruct (put_sync_obligation inner2 ob2 g) as [inner3|] eqn:H2; [|done]. injection Hput2 as ->.
    destruct (put_sync_owed inner2 ob2 g inner' Hok2) as ((ob & Hob & Hask) & Hother & _); [by apply bool_decide_eq_false|done|].
    split; [intros _; by exists ob|]. by apply Hother. }
  assert (i ∈ unresolved → ∃ ob left, owed (s_obligations inner') (t, p) RepairKind = Some ob ∧ ob_target ob = RepairTarget left ∧ i ∈ left) as Hleft.
  { intros Hin. destruct Hrepair as (ob & Hob & Hask); [set_solver|]. unfold asks_more in Hask. simpl in Hask.
    destruct (ob_target ob) as [|left] eqn:Htg; [done|]. exists ob, left. split_and!; [done..|set_solver]. }
  specialize (Hl i (proj2 (elem_of_bt_elements _ _) Hi)). destruct (positions inner i) as [m|]; [|by apply Hleft].
  clear Hput Hput2. case_bool_decide; [|by apply Hleft]. destruct Hl as [Hin Hle]. destruct Hclock as (ob & Hob & Hask); [set_solver|].
  unfold asks_more in Hask. simpl in Hask. destruct (ob_target ob) as [target'|] eqn:Htg; [|done]. exists ob, target'.
  rewrite Hsame. split_and!; [done..|]. specialize (Hask (pos_actor_id m)). lia.
Qed.
End owing.
