(* ===== verification/Staging.v ===== *)
(** * Provisional namespaces ([storage/memory/staging.rs])

    What a peer sends of a topic this node does not hold is staged: a namespace of its
    own for every source and topic, a store beside the main one that nothing else reads.
    Once its history proves that this node is a member, the namespace is activated: its
    records become the topic of the main store in one critical section.

    A namespace is reached through a view, which names the session it was opened for; a
    view of a session that ended is refused. The registry and the records of a view are
    locked together, so a write through a view is one step, as is every function here. *)

From S2P Require Import Prelude Ids Frame ClockSpec Types Evidence Records Pool Store.

#[local] Open Scope N_scope.

(** [ProvisionalTopic] *)
Record ProvisionalTopic := {
  pt_source : PeerId;
  pt_topic_id : TopicId;
  pt_genesis : OpId;
  pt_session : N;
  pt_updated_ms : N;
  pt_activating : bool;
  pt_revision : N;
  pt_bytes : N;
}.
#[global] Instance ProvisionalTopic_eq_dec : EqDecision ProvisionalTopic.
Proof. solve_decision. Defined.

(** The [namespace] of a [MemoryStorage] that is a view *)
Record View := { vw_source : PeerId; vw_topic_id : TopicId; vw_session : N }.
Definition vw_key (v : View) : PeerId * TopicId := (vw_source v, vw_topic_id v).
Definition pt_key (p : ProvisionalTopic) : PeerId * TopicId := (pt_source p, pt_topic_id p).

(** [provisional.revision] and [provisional.bytes] after a change, [provisional.updated_ms]
    after a touch *)
Definition pt_changed (p : ProvisionalTopic) (bytes : N) : ProvisionalTopic :=
  {| pt_source := pt_source p; pt_topic_id := pt_topic_id p; pt_genesis := pt_genesis p; pt_session := pt_session p;
     pt_updated_ms := pt_updated_ms p; pt_activating := pt_activating p;
     pt_revision := saturating_add (pt_revision p) 1; pt_bytes := bytes |}.
Definition pt_touched (p : ProvisionalTopic) (now_ms : N) : ProvisionalTopic :=
  {| pt_source := pt_source p; pt_topic_id := pt_topic_id p; pt_genesis := pt_genesis p; pt_session := pt_session p;
     pt_updated_ms := N.max (pt_updated_ms p) now_ms; pt_activating := pt_activating p;
     pt_revision := pt_revision p; pt_bytes := pt_bytes p |}.

(** [Staging] *)
Record Staging (C : Type) := {
  sg_namespaces : gmap (PeerId * TopicId) (ProvisionalTopic * MemoryInner C);
  sg_sessions : N;
}.
Arguments sg_namespaces {C}. Arguments sg_sessions {C}.

(** The main store with its registry *)
Record MemoryStorage (C : Type) := { ms_inner : MemoryInner C; ms_staging : Staging C }.
Arguments ms_inner {C}. Arguments ms_staging {C}.

(** [check_pending_quota] and the waiters of [pending_moves] while it goes *)
Record Moves := {
  mv_total : PendingUsage;
  mv_topic : PendingUsage;
  mv_sources : gmap PeerId PendingUsage;
  mv_waiters : gmap OpId nat;
  mv_moved : gset OpId;
  mv_moves : list (nat * OpId * gset OpId);
}.

Section staging.
Context {C : Type} `{!ClockImpl C} `{!StoreEnv C} `{!Crypto}.
Context (limits : StagingLimits).
Implicit Types (st : MemoryStorage C) (sg : Staging C) (inner staged copied : MemoryInner C) (t : TopicId).

(** [inner.admitted_bytes + inner.pending_usage.bytes] *)
Definition held_bytes inner : N := s_admitted_bytes inner + pu_bytes (p_usage (s_pool inner)).

Definition set_namespaces sg namespaces : Staging C := {| sg_namespaces := namespaces; sg_sessions := sg_sessions sg |}.

(** ** Views *)

(** [Locked::quota]: what the other namespaces leave a view *)
Definition others_step (key : PeerId * TopicId) (st : N * N) (e : (PeerId * TopicId) * (ProvisionalTopic * MemoryInner C)) : N * N :=
  let '(others, source) := st in
  let '(other, (provisional, _)) := e in
  if bool_decide (other = key) then (others, source)
  else
    (saturating_add others (pt_bytes provisional),
     if bool_decide (other.1 = key.1) then saturating_add source (pt_bytes provisional) else source).
Definition view_quota sg (key : PeerId * TopicId) : StagingQuota :=
  let '(others, source) := foldl (others_step key) (0, 0) (bt_entries (sg_namespaces sg)) in
  staging_quota_new limits others source.

(** [MemoryStorage::lock] of a view *)
Definition lock_view sg (v : View) : res (MemoryInner C) :=
  match sg_namespaces sg !! vw_key v with
  | Some (provisional, records) =>
      if bool_decide (pt_session provisional = vw_session v) then Ok records else Err StaleIncarnation
  | None => Err StaleIncarnation
  end.

(** [Drop for Locked] of a view that changed its records *)
Definition release_view sg (v : View) (records : MemoryInner C) : Staging C :=
  set_namespaces sg (alter (λ e, (pt_changed e.1 (held_bytes records), records)) (vw_key v) (sg_namespaces sg)).

(** A method of a view: [f] gets the quota and the records, and gives back the records
    when it borrowed them mutably. *)
Definition through_view {A} st (v : View) (f : StagingQuota → MemoryInner C → option (MemoryInner C) * res A)
    : MemoryStorage C * res A :=
  match lock_view (ms_staging st) v with
  | Err e => (st, Err e)
  | Ok records =>
      match f (view_quota (ms_staging st) (vw_key v)) records with
      | (None, r) => (st, r)
      | (Some records, r) => ({| ms_inner := ms_inner st; ms_staging := release_view (ms_staging st) v records |}, r)
      end
  end.

(** [put_admitted_batch] and [put_pending_bound] of a view; the latter borrows the records
    mutably exactly when it writes. *)
Definition view_admit st (v : View) (batch : AdmittedBatch C) : MemoryStorage C * res unit :=
  through_view st v (λ quota records, let '(records, r) := admit_batch_locked records batch (Some quota) in (Some records, r)).
Definition view_put_pending st (v : View) (source_peer : PeerId) (op : Op) (meta : OpMeta C) (genesis : option OpId)
    : MemoryStorage C * res unit :=
  through_view st v (λ quota records,
    match put_pending_bound records (Some quota) source_peer op meta genesis with
    | Err e => (None, Err e)
    | Ok records' =>
        (if bool_decide (pr_missing <$> p_records (s_pool records') !! op_id op = pr_missing <$> p_records (s_pool records) !! op_id op)
         then None else Some records', Ok ())
    end).

(** ** The registry *)

(** [MemoryStorage::main_store], of a store that is a view or not *)
Definition main_store (namespace : option View) : res unit :=
  match namespace with Some _ => Err StaleIncarnation | None => Ok () end.

(** [read_namespaces] *)
Definition read_namespaces st : list ProvisionalTopic :=
  (λ e, e.2.1) <$> bt_entries (sg_namespaces (ms_staging st)).

(** [namespaces.keys().filter(|(peer, _)| *peer == source).count()] *)
Definition from_source_count sg (source : PeerId) : N :=
  N.of_nat (length (filter (λ e : (PeerId * TopicId) * (ProvisionalTopic * MemoryInner C), e.1.1 = source)
    (bt_entries (sg_namespaces sg)))).

(** [open_namespace] *)
Definition open_namespace (namespace : option View) st (source : PeerId) t (genesis : OpId) (now_ms : N)
    : MemoryStorage C * res ProvisionalTopic :=
  match main_store namespace with
  | Err e => (st, Err e)
  | Ok () =>
      let sg := ms_staging st in
      if bool_decide (is_Some (s_topics (ms_inner st) !! t)) then (st, Err AdmissionConflict)
      else match sg_namespaces sg !! (source, t) with
      | Some (provisional, _) => (st, Ok provisional)
      | None =>
          match
            _ ← check_namespaces limits (N.of_nat (size (sg_namespaces sg))) (from_source_count sg source);
            mem NamespaceRecord
          with
          | Err e => (st, Err e)
          | Ok () =>
              let sessions := sg_sessions sg + 1 in
              let provisional := {| pt_source := source; pt_topic_id := t; pt_genesis := genesis; pt_session := sessions;
                pt_updated_ms := now_ms; pt_activating := false; pt_revision := 0; pt_bytes := 0 |} in
              ({| ms_inner := ms_inner st;
                  ms_staging := {| sg_namespaces := <[(source, t) := (provisional, store_empty)]> (sg_namespaces sg);
                                   sg_sessions := sessions |} |}, Ok provisional)
          end
      end
  end.

(** [namespace_store] *)
Definition namespace_store (namespace : option View) st (provisional : ProvisionalTopic) : res (option View) :=
  _ ← main_store namespace;
  Ok match sg_namespaces (ms_staging st) !! pt_key provisional with
     | Some (current, _) =>
         if bool_decide (pt_session current = pt_session provisional)
         then Some {| vw_source := pt_source provisional; vw_topic_id := pt_topic_id provisional; vw_session := pt_session provisional |}
         else None
     | None => None
     end.

(** [touch_namespace] *)
Definition touch_namespace (namespace : option View) st (provisional : ProvisionalTopic) (now_ms : N)
    : MemoryStorage C * res unit :=
  match main_store namespace with
  | Err e => (st, Err e)
  | Ok () =>
      let sg := ms_staging st in
      ({| ms_inner := ms_inner st;
          ms_staging := set_namespaces sg (alter (λ e,
            if bool_decide (pt_session e.1 = pt_session provisional) then (pt_touched e.1 now_ms, e.2) else e)
            (pt_key provisional) (sg_namespaces sg)) |}, Ok ())
  end.

(** [discard_namespace]; the records that are emptied are not reached any more. *)
Definition discard_namespace (namespace : option View) st (provisional : ProvisionalTopic) : MemoryStorage C * res bool :=
  match main_store namespace with
  | Err e => (st, Err e)
  | Ok () =>
      let sg := ms_staging st in
      let current := match sg_namespaces sg !! pt_key provisional with
                     | Some (current, _) => bool_decide (current = provisional) && negb (pt_activating current)
                     | None => false
                     end in
      if current : bool
      then ({| ms_inner := ms_inner st; ms_staging := set_namespaces sg (delete (pt_key provisional) (sg_namespaces sg)) |}, Ok true)
      else (st, Ok false)
  end.

(** ** Activation *)

(** The loop over the obligations of an activation *)
Definition activation_effect inner t (genesis : OpId) (changes : gmap (PeerId * ObligationKind) (SyncObligation C))
    (ob : SyncObligation C) : res (gmap (PeerId * ObligationKind) (SyncObligation C)) :=
  if ob_is_empty ob || ack_covers (s_peer_acks inner !! (ob_peer_id ob, t)) (Some genesis) ob then Ok changes
  else
    let key := (ob_peer_id ob, kind_of ob) in
    let existing :=
      match changes !! key with
      | Some change => Some change
      | None => s_obligations inner !! (t, ob_peer_id ob) ≫= λ records, records !! kind_of ob
      end in
    merged ← merged_obligation existing ob;
    Ok (<[key := merged]> changes).

(** [pending_moves]: one more waiter of [dep], one buffered operation, all of a store *)
Definition add_waiter inner (waiters : gmap OpId nat) (dep : OpId) : res (gmap OpId nat) :=
  let added := default O (waiters !! dep) in
  let held := from_option size O (p_waiters (s_pool inner) !! dep) in
  if bool_decide (MAX_PENDING_WAITERS_PER_DEP ≤ held + added)%nat then Err (Storage "pending waiter quota exceeded")
  else Ok (<[dep := S added]> waiters).
Definition move_step copied inner t (index : nat) staged (mv : Moves) (i : OpId) : res Moves :=
  let resolvable := λ d, dep_resolvable_locked inner d || dep_resolvable_locked copied d in
  match p_records (s_pool staged) !! i with
  | None => Ok mv
  | Some record =>
      let rejected :=
        match s_rejected inner !! t with
        | Some rejected => existsb (λ x, bool_decide (x ∈ rj_ids rejected)) (i :: bt_elements (pr_missing record))
        | None => false
        end in
      if resolvable i || bool_decide (is_Some (p_records (s_pool inner) !! i)) || rejected || bool_decide (i ∈ mv_moved mv)
      then Ok mv
      else
        let source := default (usage_of (p_source (s_pool inner)) (pr_source record)) (mv_sources mv !! pr_source record) in
        _ ← check_pending_quota (mv_total mv) source (mv_topic mv) (pr_charge record);
        let missing := filter (λ d, resolvable d = false) (pr_missing record) in
        waiters ← try_fold (add_waiter inner) (mv_waiters mv) (bt_elements missing);
        Ok {| mv_total := charged (mv_total mv) (pr_charge record);
              mv_topic := charged (mv_topic mv) (pr_charge record);
              mv_sources := <[pr_source record := charged source (pr_charge record)]> (mv_sources mv);
              mv_waiters := waiters;
              mv_moved := {[i]} ∪ mv_moved mv;
              mv_moves := mv_moves mv ++ [(index, i, missing)] |}
  end.
Definition moves_of copied inner t (mv : Moves) (e : nat * MemoryInner C) : res Moves :=
  try_fold (move_step copied inner t e.1 e.2) mv (bt_elements (default ∅ (p_by_topic (s_pool e.2) !! t))).
Definition pending_moves (stores : list (MemoryInner C)) copied inner t : res (list (nat * OpId * gset OpId)) :=
  mv ← try_fold (moves_of copied inner t)
    {| mv_total := p_usage (s_pool inner); mv_topic := usage_of (p_topic (s_pool inner)) t; mv_sources := ∅;
       mv_waiters := ∅; mv_moved := ∅; mv_moves := [] |} (imap pair stores);
  Ok (mv_moves mv).

(** [move_pending] *)
Definition move_one (stores : list (MemoryInner C)) t (p : Pool) (mv : nat * OpId * gset OpId) : Pool :=
  let '(index, i, missing) := mv in
  match stores !! index with
  | None => p
  | Some staged =>
      match p_records (s_pool staged) !! i, p_ops (s_pool staged) !! i with
      | Some record, Some op =>
          {| p_ops := <[i := op]> (p_ops p);
             p_records := <[i := set_missing record missing]> (p_records p);
             p_by_topic := add_to (p_by_topic p) t i;
             p_waiters := foldl (λ w dep, add_to w dep i) (p_waiters p) (bt_elements missing);
             p_ready := if decide (missing = ∅) then {[i]} ∪ p_ready p else p_ready p;
             p_since := p_since p;
             p_usage := charged (p_usage p) (pr_charge record);
             p_source := <[pr_source record := charged (usage_of (p_source p) (pr_source record)) (pr_charge record)]> (p_source p);
             p_topic := <[t := charged (usage_of (p_topic p) t) (pr_charge record)]> (p_topic p) |}
      | _, _ => p
      end
  end.
Definition move_pending (stores : list (MemoryInner C)) inner t (moves : list (nat * OpId * gset OpId)) : MemoryInner C :=
  set_pool inner (foldl (move_one stores t) (s_pool inner) moves).

(** [copy_topic_locked] *)
Definition copy_entry staged (log : Log C) (i : OpId) : Log C :=
  match l_ops (s_log staged) !! i, l_meta (s_log staged) !! i with
  | Some op, Some meta =>
      MkLog (<[i := op]> (l_ops log)) (<[i := meta]> (l_meta log)) (l_topic_ops log)
        (foldl (λ ch d, add_to ch d i) (l_children log) (bt_elements (om_deps meta)))
        (l_actor_by_seq log) (l_actor_tip log) (l_max_generation log)
  | _, _ => log
  end.
Definition copy_if {A} t (from into : gmap TopicId A) : gmap TopicId A :=
  match from !! t with Some a => <[t := a]> into | None => into end.
Definition copy_log staged (log : Log C) t : Log C :=
  let ids := default ∅ (l_topic_ops (s_log staged) !! t) in
  let copied := foldl (copy_entry staged) log (bt_elements ids) in
  MkLog (l_ops copied) (l_meta copied) (<[t := ids]> (l_topic_ops copied)) (l_children copied)
    (filter (λ e, e.1.1.1 = t) (l_actor_by_seq (s_log staged)) ∪ l_actor_by_seq copied)
    (filter (λ e, e.1.1 = t) (l_actor_tip (s_log staged)) ∪ l_actor_tip copied)
    (copy_if t (l_max_generation (s_log staged)) (l_max_generation copied)).
Definition copy_topic_locked staged inner t : MemoryInner C :=
  MkInner (copy_log staged (s_log inner) t) (s_pool inner) (copy_if t (s_heads staged) (s_heads inner))
    (copy_if t (s_actor_clock staged) (s_actor_clock inner))
    (copy_if t (s_topic_fingerprint staged) (s_topic_fingerprint inner))
    (s_topics inner) (s_rejected inner) (s_peer_acks inner) (s_obligations inner) (s_sync_statuses inner)
    (s_evictions inner) (s_sealed_topics inner) (s_topic_epochs inner) (s_attempt_epoch inner) (s_admitted_bytes inner).

(** [inner.topics.insert(topic_id, expected.clone())] and the merged obligations *)
Definition publish inner t (expected : TopicState) (changes : gmap (PeerId * ObligationKind) (SyncObligation C)) : MemoryInner C :=
  MkInner (s_log inner) (s_pool inner) (s_heads inner) (s_actor_clock inner) (s_topic_fingerprint inner)
    (<[t := expected]> (s_topics inner)) (s_rejected inner) (s_peer_acks inner)
    (foldl (λ obs e, put_obligation_locked obs e.2) (s_obligations inner) (bt_entries changes)) (s_sync_statuses inner)
    (s_evictions inner) (s_sealed_topics inner) (s_topic_epochs inner) (s_attempt_epoch inner) (s_admitted_bytes inner).

(** The namespaces of a topic, in the order of the registry, and the records of those that
    hold the branch of [provisional] *)
Definition namespaces_of sg t : list ((PeerId * TopicId) * (ProvisionalTopic * MemoryInner C)) :=
  filter (λ e, e.1.2 = t) (bt_entries (sg_namespaces sg)).
Definition branch_of sg (provisional : ProvisionalTopic) : list (MemoryInner C) :=
  (λ e, e.2.2) <$> filter (λ e, pt_genesis e.2.1 = pt_genesis provisional) (namespaces_of sg (pt_topic_id provisional)).

(** The part of [activate_namespace] that reads, checks and reserves: the main store it is
    going to leave *)
Definition activated st (provisional : ProvisionalTopic) (expected : TopicState) (effects : list (SyncObligation C))
    : res (MemoryInner C) :=
  let t := pt_topic_id provisional in
  let inner := ms_inner st in
  let sg := ms_staging st in
  _ ← refuse_if (existsb (λ ob, negb (bool_decide (ob_topic_id ob = t))) effects) TopicMismatch;
  _ ← refuse_if (bool_decide (is_Some (s_topics inner !! t))) AdmissionConflict;
  staged ← lock_view sg {| vw_source := pt_source provisional; vw_topic_id := t; vw_session := pt_session provisional |};
  _ ← refuse_if (negb (bool_decide (topic_state_locked staged t = Some expected))) AdmissionConflict;
  _ ← mem CopyOfNamespace;
  _ ← mem (MergeWorkspace effects);
  changes ← try_fold (activation_effect inner t (ts_genesis expected)) ∅ effects;
  moves ← pending_moves (branch_of sg provisional) staged inner t;
  _ ← mem PlanNodes;
  _ ← try_fold (λ _ '(_, ob), mem (ObligationRecord ob)) () (bt_entries changes);
  Ok (publish (move_pending (branch_of sg provisional) (copy_topic_locked staged inner t) t moves) t expected changes).

(** [activate_namespace] *)
Definition activate_namespace (namespace : option View) st (provisional : ProvisionalTopic) (expected : TopicState)
    (effects : list (SyncObligation C)) : MemoryStorage C * res unit :=
  match main_store namespace with
  | Err e => (st, Err e)
  | Ok () =>
      match activated st provisional expected effects with
      | Err e => (st, Err e)
      | Ok inner =>
          ({| ms_inner := inner;
              ms_staging := set_namespaces (ms_staging st)
                (filter (λ e, e.1.2 ≠ pt_topic_id provisional) (sg_namespaces (ms_staging st))) |}, Ok ())
      end
  end.
End staging.
