(* ===== verification/StagingCopy.v ===== *)
(** * A staged topic in the main store

    The records of one topic are copied from a consistent store into another that has
    nothing of the topic: the result is consistent, holds the topic as the first store has
    it, and every other topic as the second one did. *)

From S2P Require Import Prelude Ids Frame ClockSpec Types Evidence Records Pool Store StoreLog StoreAdmit StoreOps StoreReset.
From S2P Require Import Staging.

#[local] Open Scope N_scope.

Section copy.
Context {C : Type} `{!ClockImpl C} `{!StoreEnv C} `{!Crypto}.
Implicit Types (log : Log C) (m : OpMeta C).
Abbreviation metas inner := (l_meta (s_log inner)).

(** ** Copying entries *)

Section entries.
Context (staged : MemoryInner C).
Definition has_entry (i : OpId) : Prop := ∃ o m, l_ops (s_log staged) !! i = Some o ∧ metas staged !! i = Some m.

Lemma copy_entries_frame (l : list OpId) log :
  let log' := foldl (copy_entry staged) log l in
  l_topic_ops log' = l_topic_ops log ∧ l_actor_by_seq log' = l_actor_by_seq log ∧
  l_actor_tip log' = l_actor_tip log ∧ l_max_generation log' = l_max_generation log.
Proof.
  revert log. induction l as [|i l IH]; intros log; [done|]. cbn [foldl].
  destruct (IH (copy_entry staged log i)) as (-> & -> & -> & ->). unfold copy_entry. repeat case_match; done.
Qed.

Lemma copy_entries_lookup (l : list OpId) log :
  (∀ i, i ∈ l → has_entry i) →
  let log' := foldl (copy_entry staged) log l in
  (∀ i, l_ops log' !! i = if decide (i ∈ l) then l_ops (s_log staged) !! i else l_ops log !! i) ∧
  (∀ i, l_meta log' !! i = if decide (i ∈ l) then metas staged !! i else l_meta log !! i).
Proof.
  revert log. induction l as [|i l IH]; intros log Hl; [done|]. cbn [foldl].
  destruct (IH (copy_entry staged log i)) as [Ho Hm]; [intros j Hj; apply Hl; by right|].
  destruct (Hl i) as (o & m & Hio & Him); [by left|].
  clear IH Hl. split; intros j; [rewrite Ho|rewrite Hm]; unfold copy_entry; rewrite Hio Him; cbn [l_ops l_meta]; clear Ho Hm;
    (destruct (decide (i = j)) as [<-|Hne];
      [rewrite (decide_True (P := i ∈ i :: l)); [by left|]; case_decide; [done|by rewrite lookup_insert_eq]|]);
    (case_decide as Hj; [rewrite decide_True //; by right|]);
    (rewrite lookup_insert_ne // decide_False //; by rewrite elem_of_cons; intros [->|?]).
Qed.

Lemma copy_entries_children (l : list OpId) log (R : OpId → OpId → Prop) :
  (∀ i, i ∈ l → has_entry i) → indexes (l_children log) R →
  indexes (l_children (foldl (copy_entry staged) log l))
    (λ c d, R c d ∨ (c ∈ l ∧ ∃ m, metas staged !! c = Some m ∧ d ∈ om_deps m)).
Proof.
  revert log R. induction l as [|i l IH]; intros log R Hl HR.
  { eapply indexes_iff; [exact HR|]. intros c d. set_solver. }
  cbn [foldl]. destruct (Hl i) as (o & m & Hio & Him); [by left|].
  eapply indexes_iff; [apply (IH _ (λ c d, R c d ∨ (c = i ∧ d ∈ om_deps m)))|].
  - intros j Hj. apply Hl. by right.
  - unfold copy_entry. rewrite Hio Him. cbn [l_children]. by apply add_children.
  - intros c d. cbv beta. rewrite elem_of_cons. split; [|naive_solver].
    intros [[?|[-> ?]]|[? ?]]; naive_solver.
Qed.
End entries.

(** ** The copied log *)

Section topic.
Context (inner staged : MemoryInner C) (t : TopicId).
Context (Hin : store_ok inner) (Hst : store_ok staged).
Context (Hgone : ∀ i m, metas inner !! i = Some m → om_topic_id m ≠ t).
Context (Hfresh : ∀ i m, metas staged !! i = Some m → om_topic_id m = t → metas inner !! i = None).
Context (Hsome : ∃ i m, metas staged !! i = Some m ∧ om_topic_id m = t).
Abbreviation ids := (default ∅ (l_topic_ops (s_log staged) !! t)).
Abbreviation copied := (copy_log staged (s_log inner) t).

Lemma ids_spec i : i ∈ ids ↔ ∃ m, metas staged !! i = Some m ∧ om_topic_id m = t.
Proof using Hin Hst Hgone Hfresh Hsome. apply (lo_topic _ (so_log _ Hst)). Qed.

Lemma ids_entries i : i ∈ bt_elements ids → has_entry staged i.
Proof using Hin Hst Hgone Hfresh Hsome.
  intros (m & Hm & _)%elem_of_bt_elements%ids_spec. assert (i ∈ dom (l_ops (s_log staged))) as [o Ho]%elem_of_dom.
  { rewrite (lo_dom _ (so_log _ Hst)). apply elem_of_dom. by eexists. }
  by exists o, m.
Qed.

(** An entry of the result is a staged one of the topic, or an old one of another. *)
Lemma copied_meta i m :
  l_meta copied !! i = Some m ↔ (metas staged !! i = Some m ∧ om_topic_id m = t) ∨ (metas inner !! i = Some m ∧ om_topic_id m ≠ t).
Proof using Hin Hst Hgone Hfresh Hsome.
  cbn [copy_log l_meta]. destruct (copy_entries_lookup staged (bt_elements ids) (s_log inner) ids_entries) as [_ ->].
  case_decide as Hi; rewrite elem_of_bt_elements in Hi.
  - destruct (proj1 (ids_spec i) Hi) as (m' & Hm' & Ht). split.
    + rewrite Hm'. intros [= <-]. by left.
    + intros [[Hm _]|[Hm _]]; [done|]. by rewrite (Hfresh i m' Hm' Ht) in Hm.
  - split; [intros Hm; right; split; [done|by eapply Hgone]|]. intros [[Hm Ht]|[Hm _]]; [|done].
    destruct Hi. apply ids_spec. by exists m.
Qed.

Lemma copied_ops i o :
  l_ops copied !! i = Some o ↔ (l_ops (s_log staged) !! i = Some o ∧ i ∈ ids) ∨ (l_ops (s_log inner) !! i = Some o ∧ i ∉ ids).
Proof using Hin Hst Hgone Hfresh Hsome.
  cbn [copy_log l_ops]. destruct (copy_entries_lookup staged (bt_elements ids) (s_log inner) ids_entries) as [-> _].
  case_decide as Hi; rewrite elem_of_bt_elements in Hi; naive_solver.
Qed.

(** What holds of the entries of a topic, told apart by the topic. *)
Lemma copied_at t' a s i :
  at_position (l_meta copied) t' a s i ↔
  if decide (t' = t) then at_position (metas staged) t a s i else at_position (metas inner) t' a s i.
Proof using Hin Hst Hgone Hfresh Hsome.
  unfold at_position. setoid_rewrite copied_meta. case_decide as Ht; [subst t'|]; split.
  - intros (m & [[Hm _]|[_ ?]] & ? & ? & ?); [by exists m|done].
  - intros (m & Hm & Ht & ? & ?). exists m. split; [by left|done].
  - intros (m & [[_ Ht']|[Hm _]] & <- & ? & ?); [done|by exists m].
  - intros (m & Hm & <- & ? & ?). exists m. split; [by right|done].
Qed.

Lemma copied_seq t' a s :
  l_actor_by_seq copied !! (t', a, s) =
  if decide (t' = t) then l_actor_by_seq (s_log staged) !! (t, a, s) else l_actor_by_seq (s_log inner) !! (t', a, s).
Proof using Hin Hst Hgone Hfresh Hsome.
  cbn [copy_log l_actor_by_seq]. destruct (copy_entries_frame staged (bt_elements ids) (s_log inner)) as (_ & -> & _ & _).
  case_decide as Ht; [subst t'|].
  - destruct (l_actor_by_seq (s_log staged) !! (t, a, s)) as [i|] eqn:Hs.
    + apply lookup_union_Some_l. by apply map_lookup_filter_Some.
    + rewrite lookup_union_r; [by apply map_lookup_filter_None; left|].
      destruct (l_actor_by_seq (s_log inner) !! (t, a, s)) as [i|] eqn:Hi; [|done].
      apply (lo_seq _ (so_log _ Hin)) in Hi as (m & Hm & Ht & _). by destruct (Hgone i m Hm).
  - apply lookup_union_r. apply map_lookup_filter_None. by right.
Qed.

Lemma copied_tip t' a :
  l_actor_tip copied !! (t', a) =
  if decide (t' = t) then l_actor_tip (s_log staged) !! (t, a) else l_actor_tip (s_log inner) !! (t', a).
Proof using Hin Hst Hgone Hfresh Hsome.
  cbn [copy_log l_actor_tip]. destruct (copy_entries_frame staged (bt_elements ids) (s_log inner)) as (_ & _ & -> & _).
  case_decide as Ht; [subst t'|].
  - destruct (l_actor_tip (s_log staged) !! (t, a)) as [x|] eqn:Hs.
    + apply lookup_union_Some_l. by apply map_lookup_filter_Some.
    + rewrite lookup_union_r; [by apply map_lookup_filter_None; left|].
      pose proof (lo_tip _ (so_log _ Hin) t a) as Htip.
      destruct (l_actor_tip (s_log inner) !! (t, a)) as [[s i]|]; [|done]. destruct Htip as [Hi _].
      apply (lo_seq _ (so_log _ Hin)) in Hi as (m & Hm & Ht & _). by destruct (Hgone i m Hm).
  - apply lookup_union_r. apply map_lookup_filter_None. by right.
Qed.

Lemma copied_generation t' :
  l_max_generation copied !! t' =
  if decide (t' = t) then l_max_generation (s_log staged) !! t else l_max_generation (s_log inner) !! t'.
Proof using Hin Hst Hgone Hfresh Hsome.
  cbn [copy_log l_max_generation]. destruct (copy_entries_frame staged (bt_elements ids) (s_log inner)) as (_ & _ & _ & ->).
  unfold copy_if. case_decide as Ht; [subst t'|].
  - destruct (l_max_generation (s_log staged) !! t) as [g|]; [by rewrite lookup_insert_eq|].
    destruct (l_max_generation (s_log inner) !! t) as [g|] eqn:Hg; [|done].
    apply (lo_generation_tight _ (so_log _ Hin)) in Hg as (i & m & Hm & Ht & _). by destruct (Hgone i m Hm).
  - destruct (l_max_generation (s_log staged) !! t); [by rewrite lookup_insert_ne|done].
Qed.

Lemma copied_log_ok : log_ok copied.
Proof using Hin Hst Hgone Hfresh Hsome.
  pose proof (so_log _ Hin) as Li. pose proof (so_log _ Hst) as Ls. split.
  - apply set_eq. intros i. rewrite !elem_of_dom. unfold is_Some. setoid_rewrite copied_ops. setoid_rewrite copied_meta. split.
    + intros (o & [[Ho (m & Hm & Ht)%ids_spec]|[Ho Hi]]); [exists m; by left|].
      assert (i ∈ dom (metas inner)) as [m Hm]%elem_of_dom by (rewrite -(lo_dom _ Li); apply elem_of_dom; by eexists).
      exists m. right. split; [done|by eapply Hgone].
    + intros (m & [[Hm Ht]|[Hm Ht]]).
      * assert (i ∈ ids) as Hi by (apply ids_spec; by exists m).
        destruct (ids_entries i) as (o & _ & Ho & _); [by apply elem_of_bt_elements|]. exists o. by left.
      * assert (i ∈ dom (l_ops (s_log inner))) as [o Ho]%elem_of_dom by (rewrite (lo_dom _ Li); apply elem_of_dom; by eexists).
        exists o. right. split; [done|]. intros (m' & Hm' & Ht')%ids_spec. by rewrite (Hfresh i m' Hm' Ht') in Hm.
  - intros i o m [[Ho Hi]|[Ho Hi]]%copied_ops [[Hm Ht]|[Hm Ht]]%copied_meta.
    + by apply (lo_entry _ Ls).
    + apply ids_spec in Hi as (m' & Hm' & Ht'). by rewrite (Hfresh i m' Hm' Ht') in Hm.
    + destruct Hi. apply ids_spec. by exists m.
    + by apply (lo_entry _ Li).
  - cbn [copy_log l_topic_ops]. destruct (copy_entries_frame staged (bt_elements ids) (s_log inner)) as (-> & _ & _ & _).
    destruct (lo_topic _ Li) as [Hidx Hne]. split.
    + intros t' i. setoid_rewrite copied_meta. destruct (decide (t' = t)) as [->|Ht'].
      * rewrite lookup_insert_eq /=. rewrite ids_spec. naive_solver.
      * rewrite lookup_insert_ne // Hidx. naive_solver.
    + intros t'. destruct (decide (t' = t)) as [->|Ht']; [|by rewrite lookup_insert_ne].
      rewrite lookup_insert_eq. intros [= He]. destruct Hsome as (i & m & Hm & Ht).
      assert (i ∈ ids) by (apply ids_spec; by exists m). set_solver.
  - cbn [copy_log l_children]. eapply indexes_iff; [apply (copy_entries_children staged _ _ _ ids_entries (lo_children _ Li))|].
    intros c d. cbv beta. setoid_rewrite copied_meta. rewrite elem_of_bt_elements ids_spec. split.
    + intros [(m & Hm & Hd)|[(m & Hm & Ht) (m' & Hm' & Hd)]].
      * exists m. split; [right; split; [done|by eapply Hgone]|done].
      * exists m. rewrite Hm in Hm'. injection Hm' as <-. split; [by left|done].
    + intros (m & [[Hm Ht]|[Hm _]] & Hd); [|left; by exists m]. right. split; by exists m.
  - intros t' a s i. rewrite copied_seq copied_at. case_decide; [apply (lo_seq _ Ls)|apply (lo_seq _ Li)].
  - intros t' a. rewrite copied_tip. case_decide as Ht; [subst t'; pose proof (lo_tip _ Ls t a) as Htip|pose proof (lo_tip _ Li t' a) as Htip].
    + assert (∀ s, l_actor_by_seq copied !! (t, a, s) = l_actor_by_seq (s_log staged) !! (t, a, s)) as Hs
        by (intros s; by rewrite copied_seq decide_True).
      destruct (l_actor_tip _ !! _) as [[s i]|]; by setoid_rewrite Hs.
    + assert (∀ s, l_actor_by_seq copied !! (t', a, s) = l_actor_by_seq (s_log inner) !! (t', a, s)) as Hs
        by (intros s; by rewrite copied_seq decide_False).
      destruct (l_actor_tip _ !! _) as [[s i]|]; by setoid_rewrite Hs.
  - intros i m [[Hm Ht]|[Hm Ht]]%copied_meta; rewrite copied_seq.
    + rewrite decide_True // -Ht. by apply (lo_prev _ Ls i).
    + rewrite decide_False //. by apply (lo_prev _ Li i).
  - intros i m [[Hm Ht]|[Hm Ht]]%copied_meta; rewrite copied_generation.
    + rewrite decide_True // -Ht. by eapply (lo_generation _ Ls).
    + rewrite decide_False //. by eapply (lo_generation _ Li).
  - intros t' g. rewrite copied_generation. setoid_rewrite copied_meta. case_decide as Ht.
    + subst t'. intros (i & m & Hm & Ht & Hg)%(lo_generation_tight _ Ls). exists i, m. naive_solver.
    + intros (i & m & Hm & Ht' & Hg)%(lo_generation_tight _ Li). exists i, m. subst t'. naive_solver.
Qed.

(** ** The copied store *)

(** Nothing that is buffered here is, or waits for, an operation of the staged topic. *)
Definition apart : Prop :=
  ∀ i r, p_records (s_pool inner) !! i = Some r → i ∉ ids ∧ ∀ d, d ∈ pr_missing r → d ∉ ids.

Abbreviation result := (copy_topic_locked staged inner t).

Lemma copied_absent i : i ∉ ids → metas inner !! i = None → metas result !! i = None.
Proof using Hin Hst Hgone Hfresh Hsome.
  intros Hi Hn. destruct (metas result !! i) as [m|] eqn:Hm; [|done].
  apply copied_meta in Hm as [[Hm Ht]|[Hm _]]; [|congruence]. destruct Hi. apply ids_spec. by exists m.
Qed.

Lemma copied_heads t' : default ∅ (s_heads result !! t') = if decide (t' = t) then default ∅ (s_heads staged !! t) else default ∅ (s_heads inner !! t').
Proof using Hin Hst Hgone Hfresh Hsome.
  cbn [copy_topic_locked s_heads]. unfold copy_if. case_decide as Ht; [subst t'|].
  - destruct (s_heads staged !! t); [by rewrite lookup_insert_eq|]. apply set_eq. intros i. split; [|by intros ?%elem_of_empty].
    intros [(m & Hm & Ht) _]%(so_heads _ Hin). by destruct (Hgone i m Hm).
  - destruct (s_heads staged !! t); [by rewrite lookup_insert_ne|done].
Qed.

Lemma copied_clock t' a :
  ck_view (clock_of result t') !! a =
  if decide (t' = t) then ck_view (clock_of staged t) !! a else ck_view (clock_of inner t') !! a.
Proof using Hin Hst Hgone Hfresh Hsome.
  unfold clock_of. cbn [copy_topic_locked s_actor_clock]. unfold copy_if. case_decide as Ht; [subst t'|].
  - destruct (s_actor_clock staged !! t) as [c|] eqn:Hc; [by rewrite lookup_insert_eq|].
    change (default ck_new (s_actor_clock inner !! t)) with (clock_of inner t). rewrite (so_clock _ Hin) /= ck_view_new lookup_empty.
    pose proof (lo_tip _ (so_log _ Hin) t a) as Htip. destruct (l_actor_tip (s_log inner) !! (t, a)) as [[s i]|]; [|done].
    destruct Htip as [(m & Hm & Ht & _)%(lo_seq _ (so_log _ Hin)) _]. by destruct (Hgone i m Hm).
  - destruct (s_actor_clock staged !! t); [by rewrite lookup_insert_ne|done].
Qed.

Lemma copied_store_ok : apart → store_ok result.
Proof using Hin Hst Hgone Hfresh Hsome.
  intros Hapart. split.
  - apply copied_log_ok.
  - apply (so_pool _ Hin).
  - intros i r Hr. destruct (Hapart i r Hr) as [Hi Hd]. destruct (so_buffered _ Hin i r Hr) as [Hni Hnd].
    split; [by apply copied_absent|]. intros d ?. apply copied_absent; [by apply Hd|by apply Hnd].
  - intros i m d [[Hm Ht]|[Hm Ht]]%copied_meta Hd.
    + destruct (so_deps _ Hst i m d Hm Hd) as (md & Hmd & Htd). exists md. split; [|done]. apply copied_meta. left. split; [done|congruence].
    + destruct (so_deps _ Hin i m d Hm Hd) as (md & Hmd & Htd). exists md. split; [|done]. apply copied_meta. right. split; [done|congruence].
  - intros t' i. rewrite copied_heads. setoid_rewrite copied_meta. case_decide as Ht; [subst t'; rewrite (so_heads _ Hst)|rewrite (so_heads _ Hin)]; split.
    + intros [(m & Hm & Ht) Hno]. split; [exists m; by split; [left|]|]. intros c mc [[Hc _]|[Hc Htc]]; [by apply (Hno c)|].
      intros Hd. destruct (so_deps _ Hin c mc i Hc Hd) as (md & Hmd & _). by rewrite (Hfresh i m Hm Ht) in Hmd.
    + intros [(m & [[Hm _]|[_ ?]] & Ht) Hno]; [|done]. split; [by exists m|]. intros c mc Hc Hd. eapply (Hno c mc); [|done]. left.
      split; [done|]. destruct (so_deps _ Hst c mc i Hc Hd) as (md & Hmd & <-). congruence.
    + intros [(m & Hm & Htm) Hno]. split; [exists m; by split; [right; split; [|congruence]|]|]. intros c mc [[Hc Htc]|[Hc _]]; [|by apply (Hno c)].
      intros Hd. destruct (so_deps _ Hst c mc i Hc Hd) as (md & Hmd & Htd). rewrite Htc in Htd. by rewrite (Hfresh i md Hmd Htd) in Hm.
    + intros [(m & [[_ ?]|[Hm _]] & Htm) Hno]; [congruence|]. split; [by exists m|]. intros c mc Hc. apply (Hno c mc). right. split; [done|by eapply Hgone].
  - intros t' a. rewrite copied_clock. change (s_log result) with copied. rewrite copied_tip. case_decide; [apply (so_clock _ Hst)|apply (so_clock _ Hin)].
  - apply (so_topics _ Hin).
  - apply (so_rejected _ Hin).
  - apply (so_rejected_ids _ Hin).
Qed.
End topic.
End copy.

(** ** Buffered operations of a staged topic

    When a topic becomes active, what its namespaces have buffered moves to the pool of
    the main store. The moves are checked first, against counts that go along with them:
    the pool that results is the one the counts say, within all quotas. *)

Section moves.
Context {C : Type} `{!ClockImpl C} `{!StoreEnv C} `{!Crypto}.
Abbreviation metas inner := (l_meta (s_log inner)).
Abbreviation waiting p d := (default ∅ (p_waiters p !! d)).

(** ** One move *)

Lemma move_is_buffer (stores : list (MemoryInner C)) t p index staged i record op missing :
  pool_ok p → pool_ok (s_pool staged) → stores !! index = Some staged →
  p_records (s_pool staged) !! i = Some record → p_ops (s_pool staged) !! i = Some op → pr_topic_id record = t →
  p_records p !! i = None →
  op_id op = i ∧ topic_id (obody op) = t ∧
  move_one stores t p (index, i, missing) = buffer p (pr_source record) op missing (pr_charge record).
Proof.
  intros Hp Hs Hidx Hr Ho Ht Hnone. destruct (po_op _ Hs i op record Ho Hr) as [Hid Htop]. split_and!; [done|congruence|].
  unfold move_one, buffer. rewrite Hidx Hr Ho Hid Hnone Htop Ht. cbn [from_option].
  assert (bt_elements (∅ ∖ missing) = []) as ->. { replace (∅ ∖ missing) with (∅ : gset OpId) by set_solver. done. }
  cbn [foldl]. assert (p_ready p = p_ready p ∖ {[i]}) as Hready.
  { apply set_eq. intros x. rewrite elem_of_difference elem_of_singleton. split; [|tauto]. intros Hx. split; [done|]. intros ->.
    apply (po_ready _ Hp) in Hx as (r & Hx & _). congruence. }
  f_equal; [|by case_decide]. by destruct record; simpl in *; subst.
Qed.

(** ** The waiters a move adds *)

Lemma add_waiters_spec (inner : MemoryInner C) (l : list OpId) w w' :
  NoDup l → try_fold (add_waiter inner) w l = Ok w' →
  (∀ d, d ∈ l → (size (waiting (s_pool inner) d) + default O (w !! d) < MAX_PENDING_WAITERS_PER_DEP)%nat) ∧
  ∀ d, default O (w' !! d) = (default O (w !! d) + if decide (d ∈ l) then 1 else 0)%nat.
Proof.
  revert w. induction l as [|d l IH]; intros w Hnd; simpl.
  { intros [= <-]. split; [by intros d ?%elem_of_nil|]. intros d. lia. }
  apply NoDup_cons in Hnd as [Hd Hnd]. unfold add_waiter at 1.
  assert (from_option size O (p_waiters (s_pool inner) !! d) = size (waiting (s_pool inner) d)) as ->.
  { destruct (p_waiters (s_pool inner) !! d) as [ws|]; reflexivity. }
  case_bool_decide as Hq; [done|]. intros (Hlt & Hw)%IH; [|done]. split.
  - intros e [->|He]%elem_of_cons; [lia|]. specialize (Hlt e He).
    destruct (decide (d = e)) as [->|Hne]; [done|]. by rewrite lookup_insert_ne in Hlt.
  - intros e. rewrite Hw. destruct (decide (d = e)) as [->|Hne].
    + rewrite lookup_insert_eq /=. rewrite decide_False // decide_True; [by left|lia].
    + rewrite lookup_insert_ne //. repeat case_decide; try lia; exfalso; set_solver.
Qed.

Lemma buffered_waiting (p : Pool) src (op : Op) missing charge d :
  pool_ok p → p_records p !! op_id op = None →
  (size (waiting (buffer p src op missing charge) d) ≤ size (waiting p d) + if decide (d ∈ missing) then 1 else 0)%nat.
Proof.
  intros Hp Hnone. pose proof (buffer_waiters p src op missing charge d Hp) as Hw.
  specialize (Hw ltac:(intros r Hr; congruence)).
  assert (waiting (buffer p src op missing charge) d ⊆ (if decide (d ∈ missing) then {[op_id op]} else ∅) ∪ waiting p d) as Hsub.
  { intros i Hi%Hw. case_decide as He; [|by apply elem_of_union_r]. subst i. rewrite decide_True //. apply elem_of_union_l. by apply elem_of_singleton. }
  apply subseteq_size in Hsub. etrans; [exact Hsub|]. case_decide.
  - pose proof (size_union_alt {[op_id op]} (waiting p d)) as Hu. rewrite size_singleton in Hu.
    pose proof (subseteq_size (waiting p d ∖ {[op_id op]}) (waiting p d) ltac:(apply subseteq_difference_l; reflexivity)) as Hle. lia.
  - rewrite (left_id_L ∅ (∪)). lia.
Qed.

(** ** All moves *)

Section all.
Context (inner staged0 base : MemoryInner C) (stores : list (MemoryInner C)) (t : TopicId).
Context (Hbase : store_ok base) (Hbound : pool_bounded (s_pool base)) (Hpool : s_pool base = s_pool inner).
Context (Hrej : s_rejected base = s_rejected inner).
Context (Habsent : ∀ d, dep_resolvable_locked inner d || dep_resolvable_locked staged0 d = false → metas base !! d = None).
Context (Hstores : ∀ k s, stores !! k = Some s → pool_ok (s_pool s) ∧ pool_bounded (s_pool s)).

Abbreviation after mv := (foldl (move_one stores t) (s_pool base) (mv_moves mv)).
Abbreviation rejects i r := (∃ rj, s_rejected inner !! t = Some rj ∧ (i ∈ rj_ids rj ∨ ∃ d, d ∈ pr_missing r ∧ d ∈ rj_ids rj)).

Record moves_ok (mv : Moves) : Prop := {
  mk_store : store_ok (set_pool base (after mv));
  mk_bounded : pool_bounded (after mv);
  mk_total : p_usage (after mv) = mv_total mv;
  mk_topic : usage_of (p_topic (after mv)) t = mv_topic mv;
  mk_sources : ∀ s, usage_of (p_source (after mv)) s = default (usage_of (p_source (s_pool inner)) s) (mv_sources mv !! s);
  mk_waiters : ∀ d, (size (waiting (after mv) d) ≤ size (waiting (s_pool inner) d) + default O (mv_waiters mv !! d))%nat;
  mk_records : ∀ i, is_Some (p_records (after mv) !! i) ↔ is_Some (p_records (s_pool inner) !! i) ∨ i ∈ mv_moved mv;
  (** Every record was here before or is one of the topic, moved with its operation. *)
  mk_moved : ∀ i r, p_records (after mv) !! i = Some r →
    p_records (s_pool inner) !! i = Some r ∧ p_ops (after mv) !! i = p_ops (s_pool inner) !! i ∨
    p_records (s_pool inner) !! i = None ∧ pr_topic_id r = t ∧
    ∃ k s r0, stores !! k = Some s ∧ p_records (s_pool s) !! i = Some r0 ∧ p_ops (after mv) !! i = p_ops (s_pool s) !! i ∧
      pr_source r = pr_source r0 ∧ pr_charge r = pr_charge r0 ∧ pr_missing r ⊆ pr_missing r0;
  mk_kept : ∀ i r, p_records (s_pool inner) !! i = Some r → p_records (after mv) !! i = Some r;
}.

Lemma not_rejected i (missing : gset OpId) r :
  (match s_rejected inner !! t with
   | Some rejected => existsb (λ x, bool_decide (x ∈ rj_ids rejected)) (i :: bt_elements (pr_missing r))
   | None => false end) = false →
  missing ⊆ pr_missing r → find_rejected base t i missing = None.
Proof using Hrej.
  clear - Hrej. intros Hno Hsub. unfold find_rejected. rewrite Hrej. destruct (s_rejected inner !! t) as [rj|]; [|done].
  destruct (filter _ _) as [|x l] eqn:Hf; [done|]. assert (x ∈ x :: l) as Hx by by left. rewrite -Hf in Hx.
  apply list_elem_of_filter in Hx as [Hx Hin]. apply not_true_iff_false in Hno. destruct Hno. apply existsb_exists.
  exists x. split; [|by apply bool_decide_eq_true]. apply list_elem_of_In. apply elem_of_cons in Hin as [->|Hin]; [by left|right].
  apply elem_of_bt_elements, Hsub. by apply elem_of_bt_elements in Hin.
Qed.

Lemma move_step_ok mv index staged i mv' :
  moves_ok mv → stores !! index = Some staged → i ∈ default ∅ (p_by_topic (s_pool staged) !! t) →
  move_step staged0 inner t index staged mv i = Ok mv' →
  moves_ok mv' ∧ (∀ j, is_Some (p_records (after mv) !! j) → is_Some (p_records (after mv') !! j)) ∧
  ∀ r, p_records (s_pool staged) !! i = Some r →
    dep_resolvable_locked inner i || dep_resolvable_locked staged0 i = true ∨ rejects i r ∨ is_Some (p_records (after mv') !! i).
Proof using Hbase Hbound Hpool Hrej Habsent Hstores.
  intros Hmk Hidx Hi. destruct (Hstores _ _ Hidx) as [Hsp Hsb]. unfold move_step.
  apply (po_by_topic _ Hsp) in Hi as (record & Hr & Ht). rewrite Hr.
  match goal with |- (if ?b then _ else _) = _ → _ => destruct b eqn:Hskip end.
  { intros [= <-]. split_and!; [done..|]. intros r [= <-]. apply orb_true_iff in Hskip as [[[?|Hin]%orb_true_iff|Hrj]%orb_true_iff|Hmv].
    - by left.
    - right; right. apply (mk_records _ Hmk). left. by apply bool_decide_eq_true in Hin.
    - right; left. destruct (s_rejected inner !! t) as [rj|]; [|done]. exists rj. split; [done|].
      apply existsb_exists in Hrj as (x & Hx%list_elem_of_In & Hxr%bool_decide_eq_true).
      apply elem_of_cons in Hx as [->|Hx%elem_of_bt_elements]; [by left|right; by exists x].
    - right; right. apply (mk_records _ Hmk). right. by apply bool_decide_eq_true in Hmv. }
  apply orb_false_iff in Hskip as [[[Hres Hin]%orb_false_iff Hrj]%orb_false_iff Hmv].
  apply bool_decide_eq_false in Hin, Hmv.
  set (missing := filter (λ d, dep_resolvable_locked inner d || dep_resolvable_locked staged0 d = false) (pr_missing record)).
  set (source := default _ _). intros ([] & Hq & (w & Hw & [= <-])%bind_ok)%bind_ok. cbn [mv_moves].
  assert (p_records (after mv) !! i = None) as Hnone.
  { apply eq_None_not_Some. rewrite (mk_records _ Hmk). tauto. }
  assert (i ∈ dom (p_ops (s_pool staged))) as [op Ho]%elem_of_dom by (rewrite (po_dom _ Hsp); apply elem_of_dom; by eexists).
  pose proof (so_pool _ (mk_store _ Hmk)) as Hp. cbn [set_pool s_pool] in Hp.
  destruct (move_is_buffer stores t (after mv) index staged i record op missing Hp Hsp Hidx Hr Ho Ht Hnone) as (Hid & Htop & Heq).
  apply add_waiters_spec in Hw as [Hlt Hww]; [|apply bt_elements_NoDup].
  assert (buffer_checks (set_pool base (after mv)) (pr_source record) op missing (pr_charge record)) as Hbc.
  { split; cbn [set_pool s_pool s_log]; rewrite ?Hid ?Hnone; try done.
    - etrans; [|apply (pb_missing _ Hsb i record Hr)]. apply subseteq_size. intros d Hd. by apply elem_of_filter in Hd as [_ ?].
    - by apply Habsent.
    - intros d [Hd _]%elem_of_filter. by apply Habsent.
    - rewrite Htop. eapply (not_rejected i missing record); [exact Hrj|]. by intros d [_ ?]%elem_of_filter.
    - intros d Hd _. specialize (Hlt d (proj2 (elem_of_bt_elements _ _) Hd)). pose proof (mk_waiters _ Hmk d). lia.
    - intros _. rewrite Htop (mk_total _ Hmk) (mk_topic _ Hmk) (mk_sources _ Hmk). exact Hq. }
  assert (after {| mv_total := charged (mv_total mv) (pr_charge record); mv_topic := charged (mv_topic mv) (pr_charge record);
    mv_sources := <[pr_source record := charged source (pr_charge record)]> (mv_sources mv); mv_waiters := w;
    mv_moved := {[i]} ∪ mv_moved mv; mv_moves := mv_moves mv ++ [(index, i, missing)] |} =
    buffer (after mv) (pr_source record) op missing (pr_charge record)) as Hafter.
  { cbn [mv_moves]. rewrite foldl_app. cbn [foldl]. exact Heq. }
  cbn [mv_moves] in Hafter.
  assert (p_records (foldl (move_one stores t) (s_pool base) (mv_moves mv ++ [(index, i, missing)])) =
    <[i := set_missing record missing]> (p_records (after mv))) as Hrecs.
  { rewrite Hafter buffer_records. unfold buffered_record. rewrite Hid Hnone Htop. f_equal. by destruct record; simpl in *; subst. }
  assert (p_ops (foldl (move_one stores t) (s_pool base) (mv_moves mv ++ [(index, i, missing)])) = <[i := op]> (p_ops (after mv))) as Hops.
  { rewrite Hafter. unfold buffer. by rewrite Hid Hnone. }
  split_and!.
  - split; cbn [mv_moves mv_total mv_topic mv_sources mv_waiters mv_moved].
    + rewrite Hafter. by apply (buffer_store_ok _ _ _ _ _ (mk_store _ Hmk) Hbc).
    + rewrite Hafter. by apply (buffer_bounded _ _ _ _ _ (mk_store _ Hmk) Hbc (mk_bounded _ Hmk)).
    + rewrite Hafter. unfold buffer. rewrite Hid Hnone. cbn [p_usage]. by rewrite (mk_total _ Hmk).
    + rewrite Hafter. unfold buffer. rewrite Hid Hnone Htop. cbn [p_topic]. unfold usage_of at 1. rewrite lookup_insert_eq /=. by rewrite (mk_topic _ Hmk).
    + intros s. rewrite Hafter. unfold buffer. rewrite Hid Hnone. cbn [p_source]. unfold usage_of at 1.
      destruct (decide (pr_source record = s)) as [<-|Hne]; [rewrite !lookup_insert_eq|rewrite !lookup_insert_ne //; apply (mk_sources _ Hmk)].
      cbn [default from_option]. by rewrite (mk_sources _ Hmk).
    + intros d. rewrite Hafter. pose proof (buffered_waiting (after mv) (pr_source record) op missing (pr_charge record) d Hp ltac:(by rewrite Hid)) as Hb.
      pose proof (mk_waiters _ Hmk d). rewrite Hww. destruct (decide (d ∈ missing)) as [Hd|Hd].
      * rewrite (decide_True (P := d ∈ bt_elements missing)); [by apply elem_of_bt_elements|lia].
      * rewrite (decide_False (P := d ∈ bt_elements missing)); [by rewrite elem_of_bt_elements|lia].
    + intros j. rewrite Hrecs elem_of_union elem_of_singleton. destruct (decide (i = j)) as [->|Hne]; [rewrite lookup_insert_eq|rewrite lookup_insert_ne // (mk_records _ Hmk)].
      * split; [by right; left|by eexists].
      * naive_solver.
    + intros j r. rewrite Hrecs Hops. destruct (decide (i = j)) as [->|Hne]; [rewrite !lookup_insert_eq|rewrite !lookup_insert_ne //; apply (mk_moved _ Hmk)].
      intros [= <-]. right. split; [by apply eq_None_not_Some|]. split; [done|]. exists index, staged, record. rewrite Ho. split_and!; try done.
      by intros d [_ ?]%elem_of_filter.
    + intros j r Hj. rewrite Hrecs. rewrite lookup_insert_ne; [|by apply (mk_kept _ Hmk)]. intros ->. apply Hin. by eexists.
  - intros j Hj. rewrite Hrecs. destruct (decide (i = j)) as [->|Hne]; [rewrite lookup_insert_eq; by eexists|by rewrite lookup_insert_ne].
  - intros r _. right; right. rewrite Hrecs lookup_insert_eq. by eexists.
Qed.

Abbreviation start := {| mv_total := p_usage (s_pool inner); mv_topic := usage_of (p_topic (s_pool inner)) t; mv_sources := ∅;
  mv_waiters := ∅; mv_moved := ∅; mv_moves := [] |}.

Lemma moves_start : moves_ok start.
Proof using Hbase Hbound Hpool Hrej Habsent Hstores.
  split; cbn [mv_moves mv_total mv_topic mv_sources mv_waiters mv_moved foldl]; rewrite ?Hpool //.
  - by eapply store_ok_frame, Hbase.
  - by rewrite -Hpool.
  - intros d. lia.
  - intros i. split; [by left|]. by intros [?|?%elem_of_empty].
  - intros i r Hr. by left.
Qed.

(** The buffered operations of the topic that the moves have dealt with. *)
Definition dealt (mv : Moves) i r : Prop :=
  dep_resolvable_locked inner i || dep_resolvable_locked staged0 i = true ∨ rejects i r ∨ is_Some (p_records (after mv) !! i).

Lemma moves_of_ok mv index staged mv' :
  moves_ok mv → stores !! index = Some staged → moves_of staged0 inner t mv (index, staged) = Ok mv' →
  moves_ok mv' ∧ (∀ j, is_Some (p_records (after mv) !! j) → is_Some (p_records (after mv') !! j)) ∧
  ∀ i r, p_records (s_pool staged) !! i = Some r → pr_topic_id r = t → dealt mv' i r.
Proof using Hbase Hbound Hpool Hrej Habsent Hstores.
  intros Hmk Hidx Hmoves. unfold moves_of in Hmoves. cbn [fst snd] in Hmoves.
  set (ids := default ∅ (p_by_topic (s_pool staged) !! t)) in *.
  assert (moves_ok mv' ∧ (∀ j, is_Some (p_records (after mv) !! j) → is_Some (p_records (after mv') !! j)) ∧
    ∀ i r, i ∈ bt_elements ids → p_records (s_pool staged) !! i = Some r → dealt mv' i r) as (Hmk' & Hkeep & Hall).
  { revert Hmoves. apply (try_fold_inv_prefix (λ done mv', moves_ok mv' ∧
      (∀ j, is_Some (p_records (after mv) !! j) → is_Some (p_records (after mv') !! j)) ∧
      ∀ i r, i ∈ done → p_records (s_pool staged) !! i = Some r → dealt mv' i r)).
    2: { split_and!; [done..|]. by intros i r ?%elem_of_nil. }
    intros l i rest mv1 mv2 Hl (Hmk1 & Hkeep1 & Hall1) Hstep.
    destruct (move_step_ok mv1 index staged i mv2 Hmk1 Hidx) as (Hmk2 & Hkeep2 & Hi); [|done|].
    { apply elem_of_bt_elements. fold ids. rewrite Hl. apply elem_of_app. right. by left. }
    split_and!; [done|by eauto|]. intros j r [Hj|Hj%list_elem_of_singleton]%elem_of_app Hr; [|subst j; by apply Hi].
    destruct (Hall1 j r Hj Hr) as [?|[?|?]]; [by left|by right; left|right; right; by apply Hkeep2]. }
  split_and!; [done..|]. intros i r Hr Ht. apply Hall; [|done]. apply elem_of_bt_elements.
  apply (po_by_topic _ (proj1 (Hstores _ _ Hidx))). by exists r.
Qed.

(** The pool after the moves is within its quotas; it has what it had, and of what was
    buffered in the namespaces every operation of the topic that is not stored or
    rejected. *)
Lemma pending_moves_ok moves :
  pending_moves stores staged0 inner t = Ok moves →
  ∃ mv, moves_ok mv ∧ mv_moves mv = moves ∧
    ∀ k s i r, stores !! k = Some s → p_records (s_pool s) !! i = Some r → pr_topic_id r = t → dealt mv i r.
Proof using Hbase Hbound Hpool Hrej Habsent Hstores.
  unfold pending_moves. intros (mv & Hmoves & [= <-])%bind_ok. exists mv.
  assert (moves_ok mv ∧ ∀ k s i r, (k, s) ∈ imap pair stores → p_records (s_pool s) !! i = Some r → pr_topic_id r = t → dealt mv i r)
    as (Hmk & Hall).
  { revert Hmoves. apply (try_fold_inv_prefix (λ done mv, moves_ok mv ∧
      ∀ k s i r, (k, s) ∈ done → p_records (s_pool s) !! i = Some r → pr_topic_id r = t → dealt mv i r)).
    2: { split; [apply moves_start|]. by intros k s i r ?%elem_of_nil. }
    intros l [index staged] rest mv1 mv2 Hl [Hmk1 Hall1] Hstep.
    assert (stores !! index = Some staged) as Hidx.
    { assert ((index, staged) ∈ imap pair stores) as (k & x & [= -> ->] & Hk)%elem_of_lookup_imap_1; [|done].
      rewrite Hl. apply elem_of_app. right. by left. }
    destruct (moves_of_ok mv1 index staged mv2 Hmk1 Hidx Hstep) as (Hmk2 & Hkeep & Hi). split; [done|].
    intros k s i r [Hk|[= -> ->]%list_elem_of_singleton]%elem_of_app Hr Ht; [|by apply Hi].
    destruct (Hall1 k s i r Hk Hr Ht) as [?|[?|?]]; [by left|by right; left|right; right; by apply Hkeep]. }
  split_and!; [done..|]. intros k s i r Hk. apply (Hall k s). by apply (elem_of_lookup_imap_2 pair stores s k).
Qed.
End all.
End moves.
