(* ===== verification/StagingInv.v ===== *)
(** * Activation publishes a staged history

    A namespace that is activated becomes the topic of the main store, whole or not at
    all: the store stays valid, has the history that was staged and keeps every other
    topic, and nothing that was buffered for the branch is lost. *)

From S2P Require Import Prelude Ids Frame ClockSpec Types Evidence Records Pool Store StoreLog StoreAdmit StoreOps StoreReset StoreEvidence StoreRun.
From S2P Require Import Admission Dag Projection Building Commit Genesis Evolve Staging StagingCopy.

#[local] Open Scope N_scope.

Section activation.
Context {C : Type} `{!ClockImpl C} `{!StoreEnv C} `{!Crypto} `{!OplogEnv}.
Context (universe : Op → Prop) (Hfree : collision_free universe).
Implicit Types (inner staged : MemoryInner C) (t : TopicId).
Abbreviation hist inner t := (entries_of (s_log inner) t).
Abbreviation valid := (valid universe).
Abbreviation metas inner := (l_meta (s_log inner)).

(** ** Two stores of one universe *)

Lemma inactive_gone inner t i m :
  valid inner → s_topics inner !! t = None → metas inner !! i = Some m → om_topic_id m ≠ t.
Proof using Type.
  clear Hfree. intros HV Ht Hm Hmt. destruct (stored_entry inner t i m (nd_store _ (v_node _ _ HV)) Hm Hmt) as [o Ho].
  pose proof (h_state _ _ _ _ (nd_topics _ (v_node _ _ HV) t)) as Hs. unfold topic_state_locked in Hs. rewrite Ht in Hs.
  apply (Hs i). by exists o, m.
Qed.

(** An id names one operation, so an operation that is stored has the topic of any copy. *)
Lemma stored_topic inner i m (o : Op) :
  valid inner → metas inner !! i = Some m → universe o → op_id o = i → om_topic_id m = topic_id (obody o).
Proof using Hfree.
  intros HV Hm Hu Hid. pose proof (nd_store _ (v_node _ _ HV)) as Hok.
  destruct (stored_entry inner (om_topic_id m) i m Hok Hm eq_refl) as (o' & Ho' & _).
  destruct (lo_entry _ (so_log _ Hok) i o' m Ho' Hm) as (Hid' & _ & -> & _).
  by rewrite (Hfree o' o (v_ops _ _ HV i o' Ho') Hu) // Hid' Hid.
Qed.

Lemma staged_fresh inner staged t i m :
  valid inner → valid staged → s_topics inner !! t = None → metas staged !! i = Some m → om_topic_id m = t → metas inner !! i = None.
Proof using Hfree.
  intros HV HS Ht Hm Hmt. pose proof (nd_store _ (v_node _ _ HS)) as Hok. destruct (metas inner !! i) as [m'|] eqn:Hm'; [|done].
  destruct (stored_entry staged t i m Hok Hm Hmt) as (o & Ho & _). destruct (lo_entry _ (so_log _ Hok) i o m Ho Hm) as (Hid & _ & Hto & _).
  destruct (inactive_gone inner t i m' HV Ht Hm'). rewrite (stored_topic inner i m' o HV Hm' (v_ops _ _ HS i o Ho) Hid). congruence.
Qed.

(** ** What is owed after an activation *)

Lemma changes_ok (l : list ((PeerId * ObligationKind) * SyncObligation C)) obs :
  obligations_ok obs → obligations_ok (foldl (λ obs e, put_obligation_locked obs e.2) obs l).
Proof using Type. clear. revert obs. induction l as [|e l IH]; intros obs Hobs; [done|]. by apply IH, put_obligation_ok. Qed.

(** An obligation of a topic touches no other. *)
Lemma effects_topic inner t genesis (effects : list (SyncObligation C)) changes :
  obligations_ok (s_obligations inner) → (∀ ob, ob ∈ effects → ob_topic_id ob = t) →
  try_fold (activation_effect inner t genesis) ∅ effects = Ok changes →
  ∀ key ob, changes !! key = Some ob → ob_topic_id ob = t.
Proof using Type.
  clear. intros Hobs Heff. apply (try_fold_inv (λ changes, ∀ key ob, changes !! key = Some ob → ob_topic_id ob = t));
    [|by intros key ob; rewrite lookup_empty].
  intros ob c c' Hin HI. unfold activation_effect. case_match; [by intros [= <-]|].
  intros (merged & Hm & [= <-])%bind_ok key x [[_ <-]|[_ Hx]]%lookup_insert_Some; [|by eapply HI].
  assert (∀ e, match c !! (ob_peer_id ob, kind_of ob) with Some change => Some change
    | None => s_obligations inner !! (t, ob_peer_id ob) ≫= λ records, records !! kind_of ob end = Some e → ob_topic_id e = t) as He.
  { intros e. destruct (c !! _) as [change|] eqn:Hc; [intros [= <-]; by eapply HI|].
    intros (records & Hr & Hk)%bind_Some. destruct (Hobs _ _ Hr) as [_ Hf]. destruct (Hf _ _ Hk) as (Hkey & _). by injection Hkey. }
  revert Hm He. generalize (match c !! (ob_peer_id ob, kind_of ob) with Some change => Some change
    | None => s_obligations inner !! (t, ob_peer_id ob) ≫= λ records, records !! kind_of ob end) as existing.
  intros existing Hm He. unfold merged_obligation in Hm. match type of Hm with (if ?b then _ else _) = _ => destruct b; [done|] end.
  destruct existing as [e|]; [|injection Hm as <-; by apply Heff].
  specialize (He e eq_refl). repeat case_match; try done; by injection Hm as <-.
Qed.

Lemma puts_other (l : list ((PeerId * ObligationKind) * SyncObligation C)) obs t :
  (∀ e, e ∈ l → ob_topic_id e.2 = t) →
  ∀ t' p, t' ≠ t → foldl (λ obs e, put_obligation_locked obs e.2) obs l !! (t', p) = obs !! (t', p).
Proof using Type.
  clear. revert obs. induction l as [|e l IH]; intros obs Hl t' p Hne; [done|]. cbn [foldl].
  rewrite IH //; [intros e' ?; apply Hl; by right|]. unfold put_obligation_locked. destruct (ob_is_empty e.2); [done|].
  apply lookup_insert_ne. intros [= Ht _]. apply Hne. rewrite -Ht. apply Hl. by left.
Qed.

(** ** The activated store *)

Section publish.
Context (inner staged : MemoryInner C) (t : TopicId) (expected : TopicState) (stores : list (MemoryInner C)).
Context (changes : gmap (PeerId * ObligationKind) (SyncObligation C)) (moves : list (nat * OpId * gset OpId)).
Context (HV : valid inner) (HS : valid staged) (Hnew : s_topics inner !! t = None).
Context (Hexp : topic_state_locked staged t = Some expected).
Context (Hstores : ∀ k s, stores !! k = Some s → valid s).
Context (Hmoves : pending_moves stores staged inner t = Ok moves).
Context (Hapart : apart inner staged t).
Context (Hchanges : ∀ key ob, changes !! key = Some ob → ob_topic_id ob = t).
Abbreviation copied := (copy_topic_locked staged inner t).
Abbreviation final := (publish (move_pending stores copied t moves) t expected changes).

Lemma staged_some : ∃ i m, metas staged !! i = Some m ∧ om_topic_id m = t.
Proof using HS Hexp.
  clear - HS Hexp. destruct (topic_state_genesis staged t expected (nd_topics _ (v_node _ _ HS) t) Hexp) as (gop & m & (_ & Hm & Ht) & _).
  by exists (ts_genesis expected), m.
Qed.

Let Hok : store_ok inner := nd_store _ (v_node _ _ HV).
Let HSok : store_ok staged := nd_store _ (v_node _ _ HS).
Let Hgone := λ i m Hm, inactive_gone inner t i m HV Hnew Hm.
Let Hfresh := λ i m Hm Hmt, staged_fresh inner staged t i m HV HS Hnew Hm Hmt.

Lemma final_meta i m : metas final !! i = Some m ↔ (metas staged !! i = Some m ∧ om_topic_id m = t) ∨ (metas inner !! i = Some m ∧ om_topic_id m ≠ t).
Proof using Hfree HV HS Hnew Hexp. apply (copied_meta inner staged t Hok HSok Hgone Hfresh staged_some). Qed.

Lemma final_hist t' i o m : hist final t' i o m ↔ if decide (t' = t) then hist staged t i o m else hist inner t' i o m.
Proof using Hfree HV HS Hnew Hexp.
  change (s_log final) with (copy_log staged (s_log inner) t). unfold entries_of.
  rewrite (copied_meta inner staged t Hok HSok Hgone Hfresh staged_some) (copied_ops inner staged t Hok HSok Hgone Hfresh staged_some).
  rewrite (ids_spec inner staged t Hok HSok Hgone Hfresh staged_some). case_decide as Ht; [subst t'|]; split.
  - intros ([[Ho _]|[_ Hno]] & [[Hm _]|[_ ?]] & Ht); try done. destruct Hno. by exists m.
  - intros (Ho & Hm & Ht). split_and!; [left; split; [done|by exists m]|by left|done].
  - intros ([[_ (m' & Hm' & Ht')]|[Ho _]] & [[_ ?]|[Hm _]] & Hmt); try congruence; [|done].
    exfalso. rewrite (Hfresh i m' Hm' Ht') in Hm. congruence.
  - intros (Ho & Hm & Hmt). split_and!; [right; split; [done|]|right; split; [done|congruence]|done].
    intros (m' & Hm' & Ht'). rewrite (Hfresh i m' Hm' Ht') in Hm. congruence.
Qed.

Lemma final_moves : ∃ mv, moves_ok inner copied stores t mv ∧ mv_moves mv = moves ∧
  ∀ k s i r, stores !! k = Some s → p_records (s_pool s) !! i = Some r → pr_topic_id r = t → dealt inner staged copied stores t mv i r.
Proof using Hfree HV HS Hnew Hexp Hstores Hmoves Hapart.
  apply (pending_moves_ok inner staged copied stores t); try done.
  - apply (copied_store_ok inner staged t Hok HSok Hgone Hfresh staged_some Hapart).
  - apply (co_pool _ (v_consistent _ _ HV)).
  - intros d [Hd1 Hd2]%orb_false_iff. rewrite stored_complete // in Hd1. rewrite stored_complete // in Hd2.
    apply bool_decide_eq_false in Hd1, Hd2. destruct (metas copied !! d) as [m|] eqn:Hm; [|done].
    apply (copied_meta inner staged t Hok HSok Hgone Hfresh staged_some) in Hm as [[Hm _]|[Hm _]]; [destruct Hd2|destruct Hd1]; by eexists.
  - intros k s Hs. specialize (Hstores k s Hs). split; [apply (so_pool _ (nd_store _ (v_node _ _ Hstores)))|apply (co_pool _ (v_consistent _ _ Hstores))].
Qed.

Lemma final_state t' : topic_state_locked final t' = if decide (t' = t) then Some expected else topic_state_locked inner t'.
Proof using Hfree HV HS Hnew Hexp.
  pose proof (copied_heads inner staged t Hok HSok Hgone Hfresh staged_some t') as Hh. unfold topic_state_locked.
  change (s_heads final) with (s_heads copied). change (s_topics final) with (<[t := expected]> (s_topics inner)). rewrite Hh.
  case_decide as Ht; [subst t'; rewrite lookup_insert_eq|by rewrite lookup_insert_ne].
  revert Hexp. unfold topic_state_locked. destruct (s_topics staged !! t) as [s|]; [|done]. intros [= <-]. done.
Qed.

Lemma final_topic_ok t' : topic_ok final t'.
Proof using Hfree HV HS Hnew Hexp.
  pose proof (copied_heads inner staged t Hok HSok Hgone Hfresh staged_some t') as Hh.
  unfold topic_ok. change (s_heads final) with (s_heads copied). rewrite final_state Hh.
  pose proof (final_hist t') as Hhist. case_decide as Ht.
  - subst t'. rewrite -Hexp. eapply history_ok_iff; [intros i o m; symmetry; apply Hhist|]. apply (nd_topics _ (v_node _ _ HS)).
  - eapply history_ok_iff; [intros i o m; symmetry; apply Hhist|]. apply (nd_topics _ (v_node _ _ HV)).
Qed.

Lemma final_valid : valid final.
Proof using Hfree HV HS Hnew Hexp Hstores Hmoves Hapart.
  destruct final_moves as (mv & Hmk & Hmv & _). pose proof (mk_store _ _ _ _ _ Hmk) as Hmok. rewrite Hmv in Hmok.
  assert (store_ok final) as Hfok.
  { pose proof (nd_topics _ (v_node _ _ HS) t) as Hts. pose proof (h_state _ _ _ _ Hts) as Hstate. rewrite Hexp in Hstate. destruct Hstate as [Htid _].
    change (store_ok (move_pending stores copied t moves)) in Hmok. destruct Hmok as [H1 H2 H3 H4 H5 H6 H7 H8 H9]. split; try done.
    intros t' s'. cbn [publish s_topics]. intros [[<- <-]|[_ Hs']]%lookup_insert_Some; [done|by apply (so_topics _ Hok)]. }
  split; [split; [done|apply final_topic_ok]| | |].
  - split; [done| | |].
    + pose proof (mk_bounded _ _ _ _ _ Hmk) as Hb. rewrite Hmv in Hb. exact Hb.
    + apply changes_ok. apply (co_obligations _ (v_consistent _ _ HV)).
    + apply (co_acks _ (v_consistent _ _ HV)).
  - intros i o Ho. change (s_log final) with (copy_log staged (s_log inner) t) in Ho.
    apply (copied_ops inner staged t Hok HSok Hgone Hfresh staged_some) in Ho as [[Ho _]|[Ho _]]; [by apply (v_ops _ _ HS i)|by apply (v_ops _ _ HV i)].
  - intros i o Ho. change (p_ops (foldl (move_one stores t) (s_pool copied) moves) !! i = Some o) in Ho.
    pose proof (so_pool _ (mk_store _ _ _ _ _ Hmk)) as Hpool. rewrite Hmv in Hpool. cbn [set_pool s_pool] in Hpool.
    assert (is_Some (p_records (foldl (move_one stores t) (s_pool copied) moves) !! i)) as [r Hr].
    { apply elem_of_dom. rewrite -(po_dom _ Hpool). apply elem_of_dom. by eexists. }
    pose proof (mk_moved _ _ _ _ _ Hmk i r) as Hmoved. rewrite Hmv in Hmoved.
    destruct (Hmoved Hr) as [[_ Heq]|(_ & _ & k & s & r0 & Hk & _ & Heq & _)]; rewrite Ho in Heq; symmetry in Heq.
    + by apply (v_buffered _ _ HV i).
    + by apply (v_buffered _ _ (Hstores k s Hk) i).
Qed.

(** Another topic is as it was. *)
Lemma final_same t' : t' ≠ t → topic_same inner final t'.
Proof using Hfree HV HS Hnew Hexp Hstores Hmoves Hapart Hchanges.
  intros Ht. destruct final_moves as (mv & Hmk & Hmv & _).
  assert (∀ A (from into : gmap TopicId A), copy_if t from into !! t' = into !! t') as Hif.
  { intros A from into. unfold copy_if. destruct (from !! t); [by rewrite lookup_insert_ne|done]. }
  split; try done.
  - intros i m Hm. rewrite final_meta. split; [intros [[_ ?]|[? _]]; [congruence|done]|]. intros ?. right. split; [done|congruence].
  - intros i r Hr. change (s_pool final) with (foldl (move_one stores t) (s_pool copied) moves).
    pose proof (mk_moved _ _ _ _ _ Hmk i r) as Hmoved. pose proof (mk_kept _ _ _ _ _ Hmk i r) as Hkept. rewrite Hmv in Hmoved, Hkept.
    split; [|done]. intros [[? _]|(_ & ? & _)]%Hmoved; [done|congruence].
  - apply Hif.
  - apply Hif.
  - cbn [publish s_topics]. by rewrite lookup_insert_ne.
  - intros p. apply puts_other with t; [|done]. intros [key ob] Hin%elem_of_bt_entries. by eapply Hchanges.
Qed.

Lemma final_evolves : evolves inner final.
Proof using Hfree HV HS Hnew Hexp.
  intros t'. left. pose proof (final_hist t') as Hh. intros d Hd o m. rewrite Hh. case_decide as Ht; [|done]. subst t'.
  destruct Hd as (o' & m' & _ & Hm & Hmt). by destruct (Hgone d m' Hm).
Qed.

(** Nothing that was buffered in a namespace is lost. *)
Lemma final_buffered k s i r :
  stores !! k = Some s → p_records (s_pool s) !! i = Some r → pr_topic_id r = t →
  is_Some (metas final !! i) ∨ is_Some (p_records (s_pool final) !! i) ∨
  ∃ rj, s_rejected inner !! t = Some rj ∧ (i ∈ rj_ids rj ∨ ∃ d, d ∈ pr_missing r ∧ d ∈ rj_ids rj).
Proof using Hfree HV HS Hnew Hexp Hstores Hmoves Hapart.
  intros Hk Hr Ht. destruct final_moves as (mv & _ & Hmv & Hdealt). pose proof (Hstores k s Hk) as Hs.
  destruct (Hdealt k s i r Hk Hr Ht) as [Hres|[Hrej|Hin]]; [left|by right; right|right; left; by rewrite Hmv in Hin].
  rewrite !stored_complete // in Hres. apply orb_true_iff in Hres as [[m Hm]%bool_decide_eq_true|[m Hm]%bool_decide_eq_true]; exists m; apply final_meta.
  - right. split; [done|by eapply Hgone].
  - left. split; [done|]. pose proof (nd_store _ (v_node _ _ Hs)) as Hsok.
    assert (i ∈ dom (p_ops (s_pool s))) as [o Ho]%elem_of_dom by (rewrite (po_dom _ (so_pool _ Hsok)); apply elem_of_dom; by eexists).
    destruct (po_op _ (so_pool _ Hsok) i o r Ho Hr) as [Hid Hto]. rewrite (stored_topic staged i m o HS Hm); [|done|congruence].
    by apply (v_buffered _ _ Hs i).
Qed.
End publish.

(** ** The theorem *)

Implicit Types (st : MemoryStorage C).
Abbreviation namespaces st := (sg_namespaces (ms_staging st)).

(** What an activation that succeeds leaves behind. *)
Record published st (provisional : ProvisionalTopic) (expected : TopicState) st' (staged : MemoryInner C) : Prop := {
  pb_valid : valid (ms_inner st');
  pb_evolves : evolves (ms_inner st) (ms_inner st');
  (** The topic is the staged one. *)
  pb_state : topic_state_locked (ms_inner st') (pt_topic_id provisional) = Some expected;
  pb_history : ∀ i o m, hist (ms_inner st') (pt_topic_id provisional) i o m ↔ hist staged (pt_topic_id provisional) i o m;
  pb_others : ∀ t, t ≠ pt_topic_id provisional → topic_same (ms_inner st) (ms_inner st') t;
  (** What the namespaces of the branch had buffered is stored, buffered or was rejected. *)
  pb_buffered : ∀ key p s i r, namespaces st !! key = Some (p, s) → key.2 = pt_topic_id provisional →
    pt_genesis p = pt_genesis provisional → p_records (s_pool s) !! i = Some r → pr_topic_id r = pt_topic_id provisional →
    is_Some (metas (ms_inner st') !! i) ∨ is_Some (p_records (s_pool (ms_inner st')) !! i) ∨
    ∃ rj, s_rejected (ms_inner st) !! pt_topic_id provisional = Some rj ∧ (i ∈ rj_ids rj ∨ ∃ d, d ∈ pr_missing r ∧ d ∈ rj_ids rj);
  (** The namespaces of the topic end, the others stay. *)
  pb_namespaces : ∀ key, namespaces st' !! key = if decide (key.2 = pt_topic_id provisional) then None else namespaces st !! key;
}.

End activation.
