(* ===== verification/StagingRun.v ===== *)
(** * Runs of the staged stores

    The registry, the main store and every namespace as one transition system. Whoever
    writes, what is staged stays within its limits: in total, for every source and for
    every namespace; a session names one namespace, and what a namespace is said to hold
    is what it holds. *)

From stdpp Require Import relations.
From S2P Require Import Prelude Ids Frame ClockSpec Types Evidence Records Pool Store StoreLog StoreAdmit StoreOps StoreReset StoreEvidence StoreRun Staging.

#[local] Open Scope N_scope.

(** ** Bytes of a write *)

Section bytes.
Context {C : Type} `{!ClockImpl C} `{!StoreEnv C} `{!Crypto}.
Implicit Types (inner : MemoryInner C).

(** A write grew a store by no more than the quota granted. *)
Definition granted (q : StagingQuota) (before after : N) : Prop :=
  after ≤ before ∨ ∃ charge, charge ≠ 0 ∧ quota_check q before charge = Ok () ∧ after ≤ before + charge.

Lemma granted_by q held charge after :
  quota_check q held charge = Ok () → after ≤ held + charge → granted q held after.
Proof. intros Hq Hle. destruct (decide (charge = 0)) as [->|Hne]; [left; lia|right; by exists charge]. Qed.

Lemma shrunk_bytes inner inner' :
  pool_ok (s_pool inner) → pool_ok (s_pool inner') → shrinks (p_records (s_pool inner)) (p_records (s_pool inner')) →
  pu_bytes (p_usage (s_pool inner')) ≤ pu_bytes (p_usage (s_pool inner)).
Proof.
  intros Hp Hp' Hsh. rewrite (po_usage _ Hp) (po_usage _ Hp').
  exact (proj2 (usage_sum_shrinks _ _ _ _ Hsh (conj (N.le_refl _) (N.le_refl _)))).
Qed.

Lemma subset_bytes inner inner' q :
  store_ok inner → pool_ok (s_pool inner') → p_records (s_pool inner') ⊆ p_records (s_pool inner) →
  s_admitted_bytes inner' ≤ s_admitted_bytes inner → granted q (held_bytes inner) (held_bytes inner').
Proof.
  intros Hok Hp' Hsub Hle. left. unfold held_bytes.
  pose proof (shrunk_bytes inner inner' (so_pool _ Hok) Hp' (subset_shrinks _ _ Hsub)). lia.
Qed.

Lemma reset_bytes (l : list OpId) (log : Log C) bytes : (reset_ops log bytes l).1.2 ≤ bytes.
Proof.
  revert log bytes. induction l as [|i l IH]; intros log bytes; simpl; [lia|].
  match goal with |- context [match ?x with _ => _ end] => destruct x as [refund|e] end; [|simpl; lia].
  etrans; [apply IH|]. unfold saturating_sub. lia.
Qed.

Lemma admit_bytes inner batch q inner' r :
  store_ok inner → batch_wf inner batch → admit_batch_locked inner batch (Some q) = (inner', r) →
  granted q (held_bytes inner) (held_bytes inner').
Proof.
  intros Hok Hwf Hadmit. destruct (admit_pool_shrinks _ _ _ _ _ Hok Hwf Hadmit) as [Hok' Hsh].
  pose proof (shrunk_bytes inner inner' (so_pool _ Hok) (so_pool _ Hok') Hsh) as Hle.
  unfold admit_batch_locked in Hadmit. destruct (admit_plan inner batch (Some q)) as [plan|e] eqn:Hplan; [|injection Hadmit as <- _; left; lia].
  assert (quota_check q (held_bytes inner) (ap_charge plan) = Ok ()) as Hq.
  { unfold admit_plan in Hplan. do 4 skip_ok Hplan. cbv zeta in Hplan. skip_ok Hplan. next_ok Hplan as (effects & _ & Hplan).
    next_ok Hplan as ([tips entries] & _ & Hplan). skip_ok Hplan. do 2 skip_ok Hplan. next_ok Hplan as (projected & _ & Hplan).
    do 3 skip_ok Hplan. skip_ok Hplan. next_ok Hplan as (fp & _ & Hplan). next_ok Hplan as (charge & Hcharge & Hplan).
    injection Hplan as <-. cbn [ap_charge]. next_ok Hcharge as (c & _ & Hcharge). next_ok Hcharge as ([] & Hc & Hcharge). by injection Hcharge as <-. }
  eapply granted_by; [exact Hq|]. unfold held_bytes in *.
  assert (s_admitted_bytes inner' = s_admitted_bytes inner + ap_charge plan) as ->; [|lia].
  unfold admit_write in Hadmit. destruct (write_entries _ _ _) as [[log pool] [u|e]]; by injection Hadmit as <- _.
Qed.

Lemma buffer_bytes inner q src (op : Op) meta genesis inner' :
  put_pending_bound inner (Some q) src op meta genesis = Ok inner' → granted q (held_bytes inner) (held_bytes inner').
Proof.
  intros Hput. unfold put_pending_bound in Hput. next_ok Hput as (charge & Hch & Hput). do 3 skip_ok Hput.
  destruct (dep_resolvable_locked _ _); [injection Hput as <-; left; lia|]. destruct (existsb _ _); [done|].
  destruct (find_rejected _ _ _ _); [done|]. destruct (_ && _); [done|]. case_bool_decide; [injection Hput as <-; left; lia|].
  skip_ok Hput. next_ok Hput as ([] & Hq & Hput). do 2 skip_ok Hput. injection Hput as <-. unfold held_bytes. cbn [set_pool s_pool s_admitted_bytes].
  unfold buffer. destruct (p_records (s_pool inner) !! op_id op) as [record|]; cbn [p_usage]; [left; lia|].
  eapply granted_by; [exact Hq|]. simpl. lia.
Qed.

Lemma step_bytes q inner inner' :
  consistent inner → step (Some q) inner inner' → granted q (held_bytes inner) (held_bytes inner').
Proof.
  intros Hco Hstep. pose proof (step_consistent _ _ _ Hco Hstep) as Hco'. pose proof (co_store _ Hco) as Hok. pose proof (so_pool _ (co_store _ Hco')) as Hp'.
  pose proof (so_pool _ Hok) as Hp. destruct Hstep as
    [batch inner' r Hwf Hadmit|src op meta genesis inner' Hput|i inner' n Hrej
    |dep p n Hpurge|now_ms max_idle_ms p n Hexp|ack inner' n Hack|ob genesis inner' Hob|acks
    |inner' n Hepoch|status inner' Hput|p t update inner' status Hup|i p Hrm|p t genesis
    |t inner' n Hreset|expected batch eviction inner' r ? Hwf Hrep|t inner' b Hseal|t|key]; try done.
  - by eapply admit_bytes.
  - by eapply buffer_bytes.
  - apply subset_bytes; [done..| |].
    + destruct (reject_pending_spec _ _ _ _ Hok (co_pool _ Hco) Hrej) as (_ & _ & Hrec). destruct (p_records (s_pool inner) !! i).
      * apply map_subseteq_spec. intros j r. by intros [? _]%(proj1 Hrec).
      * by destruct Hrec as [-> _].
    + unfold reject_pending_subtree in Hrej. destruct (p_records _ !! i); [|injection Hrej as <- _; lia].
      do 2 skip_ok Hrej. apply bind_ok in Hrej as (pool & _ & [= <- _]). simpl. lia.
  - destruct (purge_subset _ _ _ _ Hp Hpurge). apply subset_bytes; [done..|simpl; lia].
  - destruct (expire_subset _ _ _ _ _ Hp Hexp). apply subset_bytes; [done..|simpl; lia].
  - destruct (apply_ack_spec _ _ _ _ (co_obligations _ Hco) Hack) as (_ & -> & _). left. reflexivity.
  - do 2 skip_ok Hob. next_ok Hob as (merged & _ & Hob). do 2 skip_ok Hob. injection Hob as <-. left. reflexivity.
  - left. clear. unfold apply_peer_acks. change inner with (inner, @nil (res nat)).1 at 2. generalize (inner, @nil (res nat)) as st. clear inner.
    induction acks as [|ack acks IH]; intros st; [simpl; lia|]. cbn [foldl]. etrans; [apply IH|]. unfold apply_next_ack.
    destruct (apply_ack_locked st.1 ack) as [[inner' n]|e] eqn:Hack; [|reflexivity]. unfold apply_ack_locked in Hack.
    next_ok Hack as (commit & _ & Hack). do 3 skip_ok Hack. next_ok Hack as (settled & _ & Hack). destruct (foldl _ _ _). injection Hack as <- _. reflexivity.
  - apply bind_ok in Hepoch as (e & _ & [= <- _]). left. reflexivity.
  - do 2 skip_ok Hput. injection Hput as <-. left. reflexivity.
  - skip_ok Hup. cbv zeta in Hup. destruct (apply_status_update _ _) as [status' [|]]; [do 2 skip_ok Hup|]; injection Hup as <- _; left; reflexivity.
  - destruct (remove_pending_ok (s_pool inner) i Hp) as (p' & Hp1 & _ & Hr & _). rewrite Hp1 in Hrm. injection Hrm as <-.
    apply subset_bytes; [done..| |simpl; lia]. cbn [set_pool s_pool]. rewrite Hr. apply delete_subseteq.
  - left. unfold clear_peer_sync_state. destruct (negb _); reflexivity.
  - destruct (reset_shape _ _ _ _ Hok Hreset) as (_ & _ & _ & Hrec & _). apply subset_bytes; [done..| |].
    + rewrite Hrec. apply map_filter_subseteq.
    + unfold reset_topic_locked in Hreset. destruct (mem _); [|done]. pose proof (reset_bytes (bt_elements (default ∅ (l_topic_ops (s_log inner) !! t)))
        (MkLog (l_ops (s_log inner)) (l_meta (s_log inner)) (delete t (l_topic_ops (s_log inner))) (l_children (s_log inner))
          (l_actor_by_seq (s_log inner)) (l_actor_tip (s_log inner)) (l_max_generation (s_log inner))) (s_admitted_bytes inner)) as Hle.
      destruct (reset_ops _ _ _) as [[log bytes] [u'|e]]; [|done]. destruct (try_fold _ _ _); [|done]. injection Hreset as <- _. exact Hle.
  - do 2 skip_ok Hseal. injection Hseal as <- _. left. reflexivity.
  - left. reflexivity.
  - left. reflexivity.
Qed.
End bytes.

(** ** Sums over a registry *)

Section sums.
Context {K V : Type} `{Countable K} `{!BOrd K}.
Implicit Types (w : K * V → N) (m : gmap K V).

Definition sumw w m : N := foldr (λ e acc, w e + acc) 0 (bt_entries m).

Lemma sum_perm w (l l' : list (K * V)) : l ≡ₚ l' → foldr (λ e acc, w e + acc) 0 l = foldr (λ e acc, w e + acc) 0 l'.
Proof. induction 1; simpl; lia. Qed.

Lemma sumw_empty w : sumw w ∅ = 0.
Proof. unfold sumw. by rewrite (sum_perm w _ []); [rewrite bt_entries_perm map_to_list_empty|]. Qed.

Lemma sumw_insert w m k v : m !! k = None → sumw w (<[k := v]> m) = w (k, v) + sumw w m.
Proof.
  intros Hk. unfold sumw. rewrite (sum_perm w (bt_entries (<[k := v]> m)) ((k, v) :: bt_entries m)); [|done].
  rewrite !bt_entries_perm. by apply map_to_list_insert.
Qed.

Lemma sumw_delete w m k v : m !! k = Some v → sumw w m = w (k, v) + sumw w (delete k m).
Proof. intros Hk. rewrite -sumw_insert; [apply lookup_delete_eq|]. by rewrite insert_delete_id. Qed.

Lemma sumw_put w m k v v' : m !! k = Some v → sumw w (<[k := v']> m) = w (k, v') + sumw w (delete k m).
Proof. intros Hk. rewrite -(insert_delete_eq m k v'). apply sumw_insert, lookup_delete_eq. Qed.

Lemma sumw_subset w m m' : m' ⊆ m → sumw w m' ≤ sumw w m.
Proof.
  revert m. induction m' as [|k v m' Hk IH] using map_ind; intros m Hsub; [rewrite sumw_empty; lia|].
  rewrite sumw_insert //. assert (m !! k = Some v) as Hm by (eapply lookup_weaken; [|exact Hsub]; apply lookup_insert_eq).
  rewrite (sumw_delete w m k v Hm). enough (sumw w m' ≤ sumw w (delete k m)) by lia. apply IH.
  apply map_subseteq_spec. intros j x Hj. destruct (decide (k = j)) as [->|Hne]; [congruence|]. rewrite lookup_delete_ne //.
  eapply lookup_weaken; [|exact Hsub]. by rewrite lookup_insert_ne.
Qed.

Lemma sumw_ext w w' m : (∀ k v, m !! k = Some v → w (k, v) = w' (k, v)) → sumw w m = sumw w' m.
Proof.
  intros Hw. unfold sumw. assert (∀ e, e ∈ bt_entries m → w e = w' e) as He by (intros [k v] Hin%elem_of_bt_entries; by apply Hw).
  revert He. induction (bt_entries m) as [|e l IH]; intros He; [done|]. simpl. rewrite (He e); [by left|]. f_equal. apply IH. intros e' ?. apply He. by right.
Qed.
End sums.

(** ** The registry *)

Section run.
Context {C : Type} `{!ClockImpl C} `{!StoreEnv C} `{!Crypto}.
Context (limits : StagingLimits).
Implicit Types (st : MemoryStorage C) (sg : Staging C) (m : gmap (PeerId * TopicId) (ProvisionalTopic * MemoryInner C)).
Abbreviation namespaces st := (sg_namespaces (ms_staging st)).

Definition bytes_of (e : (PeerId * TopicId) * (ProvisionalTopic * MemoryInner C)) : N := pt_bytes e.2.1.
Definition bytes_from (source : PeerId) (e : (PeerId * TopicId) * (ProvisionalTopic * MemoryInner C)) : N :=
  if decide (e.1.1 = source) then pt_bytes e.2.1 else 0.
Definition one_from (source : PeerId) (e : (PeerId * TopicId) * (ProvisionalTopic * MemoryInner C)) : N :=
  if decide (e.1.1 = source) then 1 else 0.

Lemma source_count_sum sg source : from_source_count sg source = sumw (one_from source) (sg_namespaces sg).
Proof.
  unfold from_source_count, sumw. induction (bt_entries (sg_namespaces sg)) as [|e l IH]; [done|]. rewrite filter_cons. simpl. rewrite -IH.
  unfold one_from. case_decide; simpl; lia.
Qed.

(** The quota of a view is what the others leave, as long as their sizes do not overflow. *)
Lemma others_fold (key : PeerId * TopicId) l others source :
  others + foldr (λ e acc, bytes_of e + acc) 0 l ≤ u64_max → source ≤ others →
  foldl (others_step key) (others, source) l =
  (others + foldr (λ e acc, (if decide (e.1 = key) then 0 else bytes_of e) + acc) 0 l,
   source + foldr (λ e acc, (if decide (e.1 = key) then 0 else bytes_from key.1 e) + acc) 0 l).
Proof.
  revert others source. induction l as [|[other [p s]] l IH]; intros others source Hle Hso; simpl in *; [f_equal; lia|].
  unfold bytes_of, bytes_from in *. simpl in *. case_bool_decide as Hk.
  { rewrite IH; [lia..|]. rewrite !(decide_True (P := other = key)) //. }
  rewrite !(decide_False (P := other = key)) //. unfold saturating_add. case_bool_decide as Hs; [rewrite decide_True //|rewrite decide_False //];
    rewrite IH; try lia; f_equal; lia.
Qed.

Lemma view_quota_spec sg key :
  sumw bytes_of (sg_namespaces sg) ≤ u64_max →
  view_quota limits sg key = staging_quota_new limits (sumw bytes_of (delete key (sg_namespaces sg)))
    (sumw (bytes_from key.1) (delete key (sg_namespaces sg))).
Proof.
  intros Hle. unfold view_quota. rewrite others_fold; [done|lia|]. rewrite !N.add_0_l.
  assert (∀ w : (PeerId * TopicId) * (ProvisionalTopic * MemoryInner C) → N, foldr (λ e acc, (if decide (e.1 = key) then 0 else w e) + acc) 0 (bt_entries (sg_namespaces sg)) =
    sumw w (delete key (sg_namespaces sg))) as Hw; [|by rewrite !Hw].
  intros w. change (sumw (λ e, if decide (e.1 = key) then 0 else w e) (sg_namespaces sg) = sumw w (delete key (sg_namespaces sg))).
  assert (sumw (λ e, if decide (e.1 = key) then 0 else w e) (delete key (sg_namespaces sg)) = sumw w (delete key (sg_namespaces sg))) as Hd.
  { apply sumw_ext. intros k v Hk. simpl. rewrite decide_False //. intros ->. by rewrite lookup_delete_eq in Hk. }
  destruct (sg_namespaces sg !! key) as [e|] eqn:He; [|by rewrite delete_id // in Hd; rewrite delete_id].
  rewrite (sumw_delete _ _ key e He) Hd /= decide_True //.
Qed.

(** One critical section of the main store, of a namespace or of the registry. *)
Inductive staging_step st : MemoryStorage C → Prop :=
  | main_writes inner : step None (ms_inner st) inner → staging_step st {| ms_inner := inner; ms_staging := ms_staging st |}
  | view_writes v records records' :
      lock_view (ms_staging st) v = Ok records → step (Some (view_quota limits (ms_staging st) (vw_key v))) records records' →
      staging_step st {| ms_inner := ms_inner st; ms_staging := release_view (ms_staging st) v records' |}
  | opens namespace source t genesis now_ms st' r :
      open_namespace limits namespace st source t genesis now_ms = (st', r) → staging_step st st'
  | touches namespace provisional now_ms st' r : touch_namespace namespace st provisional now_ms = (st', r) → staging_step st st'
  | discards namespace provisional st' r : discard_namespace namespace st provisional = (st', r) → staging_step st st'
  | activates namespace provisional expected effects st' r :
      activate_namespace namespace st provisional expected effects = (st', r) → staging_step st st'.

Definition staging_empty : MemoryStorage C := {| ms_inner := store_empty; ms_staging := {| sg_namespaces := ∅; sg_sessions := 0 |} |}.

Record filed_at st (key : PeerId * TopicId) (p : ProvisionalTopic) (records : MemoryInner C) : Prop := {
  fl_key : pt_key p = key;
  fl_session : pt_session p ≤ sg_sessions (ms_staging st);
  fl_bytes : pt_bytes p = held_bytes records;
  fl_limit : pt_bytes p ≤ sl_namespace_bytes limits;
  fl_records : consistent records;
}.

Record limited st : Prop := {
  lm_filed : ∀ key p records, namespaces st !! key = Some (p, records) → filed_at st key p records;
  lm_sessions : ∀ key1 p1 s1 key2 p2 s2, namespaces st !! key1 = Some (p1, s1) → namespaces st !! key2 = Some (p2, s2) →
    pt_session p1 = pt_session p2 → key1 = key2;
  lm_total : sumw bytes_of (namespaces st) ≤ sl_total_bytes limits;
  lm_source : ∀ source, sumw (bytes_from source) (namespaces st) ≤ sl_source_bytes limits;
  lm_count : N.of_nat (size (namespaces st)) ≤ sl_namespaces limits;
  lm_source_count : ∀ source, from_source_count (ms_staging st) source ≤ sl_source_namespaces limits;
}.

(** Ending namespaces keeps the limits. *)
Lemma ended_limited st m inner :
  limited st → m ⊆ namespaces st → limited {| ms_inner := inner; ms_staging := set_namespaces (ms_staging st) m |}.
Proof.
  intros [Hf Hs Ht Hso Hc Hsc] Hsub. split; cbn [ms_staging set_namespaces sg_namespaces sg_sessions].
  - intros key p records Hk. destruct (Hf key p records) as [? ? ? ? ?]; [by eapply lookup_weaken|]. by split.
  - intros key1 p1 s1 key2 p2 s2 H1 H2. eapply (Hs key1 p1 s1 key2 p2 s2); by eapply lookup_weaken.
  - etrans; [by apply sumw_subset|done].
  - intros source. etrans; [by apply sumw_subset|done].
  - etrans; [|exact Hc]. apply subseteq_dom, subseteq_size in Hsub. rewrite !size_dom in Hsub. lia.
  - intros source. rewrite source_count_sum. cbn [set_namespaces sg_namespaces]. etrans; [by apply sumw_subset|]. rewrite -source_count_sum. apply Hsc.
Qed.

(** Replacing the records of a namespace keeps them when its bytes are granted. *)
Lemma replaced_limited st key p records p' records' :
  limited st → namespaces st !! key = Some (p, records) → pt_key p' = pt_key p → pt_session p' = pt_session p →
  pt_bytes p' = held_bytes records' → consistent records' →
  pt_bytes p' ≤ sl_namespace_bytes limits → sumw bytes_of (delete key (namespaces st)) + pt_bytes p' ≤ sl_total_bytes limits →
  sumw (bytes_from key.1) (delete key (namespaces st)) + pt_bytes p' ≤ sl_source_bytes limits →
  limited {| ms_inner := ms_inner st; ms_staging := set_namespaces (ms_staging st) (<[key := (p', records')]> (namespaces st)) |}.
Proof.
  intros [Hf Hs Ht Hso Hc Hsc] Hk Hkey Hsess Hb Hco Hn Htot Hsrc. split; cbn [ms_staging set_namespaces sg_namespaces sg_sessions].
  - intros key' q r [[<- [= <- <-]]|[_ Hq]]%lookup_insert_Some; [|by destruct (Hf key' q r Hq); split].
    destruct (Hf key p records Hk) as [? ? _ _ _]. split; cbn [ms_staging set_namespaces sg_sessions]; [congruence|by rewrite Hsess|done..].
  - assert (∀ k q r, <[key := (p', records')]> (namespaces st) !! k = Some (q, r) → ∃ q0 r0, namespaces st !! k = Some (q0, r0) ∧ pt_session q0 = pt_session q) as Hold.
    { intros k q r [[<- [= <- <-]]|[_ Hq]]%lookup_insert_Some; [by exists p, records|by exists q, r]. }
    intros key1 p1 s1 key2 p2 s2 (q1 & r1 & H1 & E1)%Hold (q2 & r2 & H2 & E2)%Hold He. eapply (Hs key1 q1 r1 key2 q2 r2); congruence.
  - rewrite (sumw_put _ _ _ _ _ Hk). unfold bytes_of at 1. simpl. lia.
  - intros source. rewrite (sumw_put _ _ _ _ _ Hk). unfold bytes_from at 1. simpl. case_decide as Hsd; [subst source; lia|].
    etrans; [|apply (Hso source)]. rewrite N.add_0_l. apply sumw_subset, delete_subseteq.
  - by rewrite map_size_insert_Some.
  - intros source. rewrite source_count_sum. cbn [set_namespaces sg_namespaces]. rewrite (sumw_put _ _ _ _ _ Hk). etrans; [|apply (Hsc source)].
    rewrite source_count_sum (sumw_delete _ _ _ _ Hk). unfold one_from at 1 3. simpl. lia.
Qed.

Lemma alter_at {K V} `{Countable K} (f : V → V) (m : gmap K V) k v : m !! k = Some v → alter f k m = <[k := f v]> m.
Proof.
  intros Hk. apply map_eq. intros j. destruct (decide (k = j)) as [<-|Hne]; [by rewrite lookup_alter_eq lookup_insert_eq Hk|].
  by rewrite lookup_alter_ne // lookup_insert_ne.
Qed.

Lemma alter_absent {K V} `{Countable K} (f : V → V) (m : gmap K V) k : m !! k = None → alter f k m = m.
Proof.
  intros Hk. apply map_eq. intros j. destruct (decide (k = j)) as [<-|Hne]; [by rewrite lookup_alter_eq Hk|by rewrite lookup_alter_ne].
Qed.

(** What the quota of a view grants fits the limits. *)
Lemma granted_fits st key p records after :
  sl_total_bytes limits ≤ u64_max → limited st → namespaces st !! key = Some (p, records) →
  granted (view_quota limits (ms_staging st) key) (held_bytes records) after →
  after ≤ sl_namespace_bytes limits ∧ sumw bytes_of (delete key (namespaces st)) + after ≤ sl_total_bytes limits ∧
  sumw (bytes_from key.1) (delete key (namespaces st)) + after ≤ sl_source_bytes limits.
Proof.
  intros Hmax Hlm Hk Hg. pose proof (lm_filed _ Hlm key p records Hk) as [_ _ Hb Hl _]. pose proof (lm_total _ Hlm) as Ht.
  pose proof (lm_source _ Hlm key.1) as Hs. rewrite view_quota_spec in Hg; [lia|].
  rewrite (sumw_delete _ _ _ _ Hk) in Ht. rewrite (sumw_delete _ _ _ _ Hk) in Hs. unfold bytes_of at 1 in Ht. unfold bytes_from at 1 in Hs.
  simpl in Ht, Hs. rewrite decide_True // in Hs. rewrite -Hb in Hg. destruct Hg as [Hle|(charge & Hne & Hq & Hle)]; [lia|].
  unfold quota_check, staging_quota_new, saturating_sub in Hq. destruct (N.eqb_spec charge 0); [done|].
  unfold checked_add in Hq. destruct (N.leb_spec (pt_bytes p + charge) u64_max); [|done]. simpl in Hq.
  repeat match type of Hq with (if ?a <? ?b then _ else _) = _ => destruct (N.ltb_spec a b); [done|] end. lia.
Qed.

Lemma step_limited st st' : sl_total_bytes limits ≤ u64_max → limited st → staging_step st st' → limited st'.
Proof.
  intros Hmax Hlm Hstep. pose proof Hlm as [Hf Hs Ht Hso Hc Hsc]. destruct Hstep as
    [inner Hw|v records records' Hlock Hw|ns source t genesis now_ms st' r Hop|ns p now_ms st' r Hop|ns p st' r Hop|ns p expected effects st' r Hop].
  - split; try done. intros key p records Hk. destruct (Hf key p records Hk). by split.
  - unfold lock_view in Hlock. destruct (namespaces st !! vw_key v) as [[p s]|] eqn:Hk; [|done]. case_bool_decide; [|done]. injection Hlock as ->.
    pose proof (Hf _ _ _ Hk) as [? ? Hb ? Hco].
    destruct (granted_fits st (vw_key v) p records (held_bytes records') Hmax Hlm Hk (step_bytes _ _ _ Hco Hw)) as (Hn & Htot & Hsrc).
    unfold release_view. rewrite (alter_at _ _ _ _ Hk). apply (replaced_limited st _ p records); try done.
    by eapply step_consistent.
  - unfold open_namespace in Hop. destruct ns as [v|]; [by injection Hop as <- _|]. cbn [main_store] in Hop. case_bool_decide; [by injection Hop as <- _|].
    destruct (namespaces st !! (source, t)) as [[q s]|] eqn:Hk; [by injection Hop as <- _|].
    destruct (check_namespaces limits _ _) as [[]|] eqn:Hq; [|by injection Hop as <- _]. simpl in Hop. destruct (mem NamespaceRecord) as [[]|]; [|by injection Hop as <- _].
    injection Hop as <- _. unfold check_namespaces in Hq.
    destruct (N.leb_spec (sl_namespaces limits) (N.of_nat (size (namespaces st)))); [done|].
    destruct (N.leb_spec (sl_source_namespaces limits) (from_source_count (ms_staging st) source)) as [|Hfs]; [done|].
    split; cbn [ms_staging sg_namespaces sg_sessions].
    + intros key q s [[<- [= <- <-]]|[_ Hq']]%lookup_insert_Some.
      * split; simpl; try done; [lia|]. apply store_empty_consistent.
      * destruct (Hf key q s Hq'). split; try done. simpl. lia.
    + intros key1 p1 s1 key2 p2 s2 [[<- [= <- <-]]|[_ He1]]%lookup_insert_Some [[<- [= <- <-]]|[_ He2]]%lookup_insert_Some He; try done; simpl in He.
      * destruct (Hf _ _ _ He2). lia.
      * destruct (Hf _ _ _ He1). lia.
      * by eapply Hs.
    + rewrite sumw_insert //.
    + intros s. rewrite sumw_insert //. unfold bytes_from at 1. simpl. case_decide; apply Hso.
    + rewrite map_size_insert_None //. lia.
    + intros s. rewrite source_count_sum. cbn [sg_namespaces]. rewrite sumw_insert // -source_count_sum. unfold one_from. simpl.
      case_decide; [subst s; lia|]. rewrite N.add_0_l. apply Hsc.
  - unfold touch_namespace in Hop. destruct ns as [v|]; [by injection Hop as <- _|]. injection Hop as <- _.
    destruct (namespaces st !! pt_key p) as [[q s]|] eqn:Hk.
    + rewrite (alter_at _ _ _ _ Hk). case_bool_decide; cbn [fst snd].
      * pose proof (Hf _ _ _ Hk) as [? ? ? ? ?]. pose proof (sumw_delete bytes_of _ _ _ Hk) as Hd1. pose proof (sumw_delete (bytes_from (pt_key p).1) _ _ _ Hk) as Hd2.
        unfold bytes_of at 2 in Hd1. unfold bytes_from at 2 in Hd2. simpl in Hd1, Hd2. rewrite decide_True // in Hd2. specialize (Hso (pt_key p).1). simpl in Hso.
        apply (replaced_limited st _ q s); try done; cbn [pt_touched pt_bytes]; simpl; lia.
      * rewrite insert_id //. by destruct st as [i [n' k']].
    + rewrite alter_absent //. by destruct st as [i [n' k']].
  - unfold discard_namespace in Hop. destruct ns as [v|]; [by injection Hop as <- _|]. cbn [main_store] in Hop.
    match type of Hop with (if ?b then _ else _) = _ => destruct b end; [|by injection Hop as <- _]. injection Hop as <- _.
    apply ended_limited; [done|apply delete_subseteq].
  - unfold activate_namespace in Hop. destruct ns as [v|]; [by injection Hop as <- _|]. cbn [main_store] in Hop.
    destruct (activated st p expected effects); [|by injection Hop as <- _]. injection Hop as <- _.
    apply ended_limited; [done|apply map_filter_subseteq].
Qed.

Lemma empty_limited : limited staging_empty.
Proof.
  split; cbn [staging_empty ms_staging sg_namespaces].
  - intros key p s. by rewrite lookup_empty.
  - intros key1 p1 s1 key2 p2 s2. by rewrite lookup_empty.
  - rewrite sumw_empty. lia.
  - intros source. rewrite sumw_empty. lia.
  - rewrite map_size_empty. lia.
  - intros source. rewrite source_count_sum sumw_empty. lia.
Qed.

(** C24: What is staged stays within its limits. However the main store, the views and the
    registry are used, all namespaces together, those of one source and every single one
    hold no more bytes than configured, there are no more of them than configured, in
    total and from one source, a session names one namespace, and what the registry says
    of a namespace is what it holds. *)
Theorem staged_within_limits st :
  sl_total_bytes limits ≤ u64_max → rtc staging_step staging_empty st → limited st.
Proof.
  intros Hmax Hrun. revert st Hrun. apply (rtc_ind_r (R := staging_step) limited staging_empty); [apply empty_limited|].
  intros x y _ Hxy Hx. by eapply step_limited.
Qed.

(** ** Sessions *)

(** The session of a view is over. *)
Definition ended st (v : View) : Prop :=
  vw_session v ≤ sg_sessions (ms_staging st) ∧ ∀ p s, namespaces st !! vw_key v = Some (p, s) → pt_session p ≠ vw_session v.

(** Writes, touches and ends open no session. *)
Lemma ended_keeps st st' v :
  ended st v → sg_sessions (ms_staging st') = sg_sessions (ms_staging st) →
  (∀ key p' s', namespaces st' !! key = Some (p', s') → ∃ p s, namespaces st !! key = Some (p, s) ∧ pt_session p = pt_session p') → ended st' v.
Proof.
  intros [Hle Hne] Hs Hold. split; [by rewrite Hs|]. intros p' s' (p & s & Hp & <-)%Hold. by eapply Hne.
Qed.

Lemma alter_sessions m (f : ProvisionalTopic * MemoryInner C → ProvisionalTopic * MemoryInner C) k :
  (∀ e, pt_session (f e).1 = pt_session e.1) →
  ∀ key p' s', alter f k m !! key = Some (p', s') → ∃ p s, m !! key = Some (p, s) ∧ pt_session p = pt_session p'.
Proof.
  intros Hf key p' s'. destruct (decide (k = key)) as [<-|Hne]; [rewrite lookup_alter_eq|rewrite lookup_alter_ne //; naive_solver].
  intros ([p s] & Hp & Heq)%fmap_Some. exists p, s. split; [done|]. by rewrite -(Hf (p, s)) -Heq.
Qed.

Lemma ended_step st st' v : ended st v → staging_step st st' → ended st' v.
Proof.
  intros Hend Hstep. destruct Hstep as
    [inner Hw|v' records records' Hlock Hw|ns source t genesis now_ms st' r Hop|ns p now_ms st' r Hop|ns p st' r Hop|ns p expected effects st' r Hop].
  - done.
  - apply (ended_keeps st); [done..|]. by apply alter_sessions.
  - unfold open_namespace in Hop. destruct ns as [w|]; [by injection Hop as <- _|]. cbn [main_store] in Hop. case_bool_decide; [by injection Hop as <- _|].
    destruct (namespaces st !! (source, t)) as [[q s]|] eqn:Hk; [by injection Hop as <- _|].
    match type of Hop with match ?x with _ => _ end = _ => destruct x as [[]|] end; [|by injection Hop as <- _].
    injection Hop as <- _. destruct Hend as [Hle Hne]. split; cbn [ms_staging sg_sessions sg_namespaces]; [lia|].
    intros q s [[_ [= <- <-]]|[_ Hq]]%lookup_insert_Some; [simpl; lia|by eapply Hne].
  - unfold touch_namespace in Hop. destruct ns as [w|]; [by injection Hop as <- _|]. injection Hop as <- _.
    apply (ended_keeps st); [done..|]. apply alter_sessions. intros [q s]. by case_bool_decide.
  - unfold discard_namespace in Hop. destruct ns as [w|]; [by injection Hop as <- _|]. cbn [main_store] in Hop.
    match type of Hop with (if ?b then _ else _) = _ => destruct b end; [|by injection Hop as <- _]. injection Hop as <- _.
    apply (ended_keeps st); [done..|]. cbn [ms_staging set_namespaces sg_namespaces]. intros key q s [_ Hq]%lookup_delete_Some. by exists q, s.
  - unfold activate_namespace in Hop. destruct ns as [w|]; [by injection Hop as <- _|]. cbn [main_store] in Hop.
    destruct (activated st p expected effects); [|by injection Hop as <- _]. injection Hop as <- _.
    apply (ended_keeps st); [done..|]. cbn [ms_staging set_namespaces sg_namespaces]. intros key q s [Hq _]%map_lookup_filter_Some. by exists q, s.
Qed.

(** A session that is over stays over. A view of a namespace that was discarded,
    replaced or activated is refused from then on, whatever is opened in its place. *)
Theorem stale_view_refused st st' v :
  ended st v → rtc staging_step st st' → lock_view (ms_staging st') v = Err StaleIncarnation.
Proof.
  intros Hend Hrun. assert (ended st' v) as [_ Hne] by (induction Hrun; [done|]; eauto using ended_step).
  unfold lock_view. destruct (namespaces st' !! vw_key v) as [[p s]|] eqn:Hk; [|done]. case_bool_decide as Hs; [|done]. by destruct (Hne p s).
Qed.
End run.
