(* ===== verification/Bootstrap.v ===== *)
(** * Room for staged topics ([node/bootstrap.rs])

    A node that is sent a topic it does not know stages it. When staging is full, weaker
    stagings of the same topic from other sources make room: those that hold less. Idle
    stagings are dropped.

    Each access of the registry is a critical section of its own: [others] write before
    each. A staging that changed since it was read is not dropped. *)

From S2P Require Import Prelude Ids Frame ClockSpec Types Evidence Records Pool Store StoreLog StoreAdmit StoreOps StoreReset StoreEvidence StoreRun.
From S2P Require Import Staging StagingRun.

#[local] Open Scope N_scope.

(** [MAX_STAGED_IDLE_MS] *)
Definition MAX_STAGED_IDLE_MS : N := 10 * 60 * 1000.

(** [reclaim_count]; the loop starts with no loser. *)
Fixpoint reclaim_loop (remaining incoming limit : N) (count : nat) (losers : list N) : option nat :=
  match losers with
  | [] => None
  | bytes :: losers =>
      let remaining := saturating_sub remaining bytes in
      if (match checked_add remaining incoming with Some after => after <=? limit | None => false end)
      then Some count else reclaim_loop remaining incoming limit (S count) losers
  end.
Definition reclaim_count (total incoming limit : N) (losers : list N) : option nat :=
  reclaim_loop total incoming limit O (0 :: losers).

(** [iter.fold(0_u64, u64::saturating_add)] *)
Definition sum_saturating (l : list N) : N := foldl saturating_add 0 l.

(** [rank] *)
Definition rank (p : ProvisionalTopic) : N * PeerId := (pt_bytes p, pt_source p).

Section bootstrap.
Context {C : Type} `{!ClockImpl C} `{!StoreEnv C} `{!Crypto}.
Context (limits : StagingLimits).
Implicit Types (st : MemoryStorage C).

(** The stagings [make_room] may drop, weakest first *)
Definition losers_of (held : list ProvisionalTopic) (current : ProvisionalTopic) : list ProvisionalTopic :=
  let own := default (0, pt_source current)
    (rank <$> head (filter (λ p, pt_topic_id p = pt_topic_id current ∧ pt_source p = pt_source current) held)) in
  merge_sort (λ p q, ble (rank p) (rank q))
    (filter (λ p, pt_topic_id p = pt_topic_id current ∧ pt_source p ≠ pt_source current ∧ pt_activating p = false ∧ blt (rank p) own) held).

(** [for loser in losers.into_iter().take(count) { storage.discard_provisional(loser)?; }] *)
Fixpoint discard_all (others : nat → MemoryStorage C → MemoryStorage C) (k : nat) st (l : list ProvisionalTopic) : MemoryStorage C * res unit :=
  match l with
  | [] => (st, Ok ())
  | loser :: l =>
      match discard_namespace None (others k st) loser with
      | (st, Ok _) => discard_all others (S k) st l
      | (st, Err e) => (st, Err e)
      end
  end.

(** [make_room] *)
Definition make_room (others : nat → MemoryStorage C → MemoryStorage C) st (current : ProvisionalTopic) (incoming : N)
    : MemoryStorage C * res unit :=
  let st := others O st in
  let held := read_namespaces st in
  let from_source := sum_saturating (pt_bytes <$> filter (λ p, pt_source p = pt_source current) held) in
  if sl_source_bytes limits <? saturating_add from_source incoming
  then (st, Err (StagingCapacity "bootstrap staging byte quota exceeded for source"))
  else
    let losers := losers_of held current in
    let total := sum_saturating (pt_bytes <$> held) in
    match reclaim_count total incoming (sl_total_bytes limits) (pt_bytes <$> losers) with
    | None => (st, Err (StagingCapacity "bootstrap staging byte budget is full"))
    | Some count => discard_all others 1 st (take count losers)
    end.

(** [expire_bootstraps] *)
Definition idle (now_ms : N) (p : ProvisionalTopic) : bool :=
  negb (pt_activating p) && (pt_updated_ms p <? saturating_sub now_ms MAX_STAGED_IDLE_MS).
Definition expire_bootstraps (others : nat → MemoryStorage C → MemoryStorage C) st (now_ms : N) : MemoryStorage C * res unit :=
  let st := others O st in
  discard_all others 1 st (filter (λ p, idle now_ms p = true) (read_namespaces st)).

(** ** How much must go *)

(** What is left of [total] when the first [n] go. *)
Definition left_after (total : N) (l : list N) (n : nat) : N := total - foldr N.add 0 (take n l).

Lemma reclaim_loop_spec remaining incoming limit count l :
  limit ≤ u64_max →
  match reclaim_loop remaining incoming limit count l with
  | Some n => ∃ k, n = (count + k)%nat ∧ (k < length l)%nat ∧ left_after remaining l (S k) + incoming ≤ limit ∧
      ∀ j, (j < k)%nat → limit < left_after remaining l (S j) + incoming
  | None => ∀ j, (j < length l)%nat → limit < left_after remaining l (S j) + incoming
  end.
Proof.
  intros Hmax. revert remaining count. induction l as [|bytes l IH]; intros remaining count; simpl; [lia|].
  assert (∀ j, left_after remaining (bytes :: l) (S j) = left_after (saturating_sub remaining bytes) l j) as Hl.
  { intros j. unfold left_after, saturating_sub. simpl. lia. }
  assert (left_after (saturating_sub remaining bytes) l O = saturating_sub remaining bytes) as H0 by (unfold left_after; simpl; lia).
  assert ((match checked_add (saturating_sub remaining bytes) incoming with Some after => after <=? limit | None => false end) =
    (saturating_sub remaining bytes + incoming <=? limit)) as ->.
  { unfold checked_add. destruct (N.leb_spec (saturating_sub remaining bytes + incoming) u64_max); [done|]. symmetry. apply N.leb_gt. lia. }
  destruct (N.leb_spec (saturating_sub remaining bytes + incoming) limit) as [Hfit|Hfit].
  { exists O. rewrite Hl H0. split_and!; [lia..|]. intros j ?. lia. }
  specialize (IH (saturating_sub remaining bytes) (S count)). destruct (reclaim_loop _ _ _ _ _) as [n|].
  - destruct IH as (k & -> & Hk & Hle & Hall). exists (S k). rewrite Hl. split_and!; [lia|lia|done|].
    intros [|j] Hj; rewrite Hl; [by rewrite H0|]. apply Hall. lia.
  - intros [|j] Hj; rewrite Hl; [by rewrite H0|]. apply IH. lia.
Qed.

(** As few go as make room, and none when all would not do. *)
Lemma reclaim_count_least total incoming limit losers :
  limit ≤ u64_max →
  match reclaim_count total incoming limit losers with
  | Some n => (n ≤ length losers)%nat ∧ left_after total losers n + incoming ≤ limit ∧
      ∀ j, (j < n)%nat → limit < left_after total losers j + incoming
  | None => limit < left_after total losers (length losers) + incoming
  end.
Proof.
  intros Hmax. unfold reclaim_count. pose proof (reclaim_loop_spec total incoming limit O (0 :: losers) Hmax) as Hspec.
  assert (∀ j, left_after total (0 :: losers) (S j) = left_after total losers j) as Hl by (intros j; unfold left_after; simpl; lia).
  destruct (reclaim_loop _ _ _ _ _) as [n|].
  - destruct Hspec as (k & -> & Hk & Hle & Hall). simpl in Hk. rewrite Hl in Hle. split_and!; [simpl; lia|done|].
    intros j Hj. rewrite -Hl. apply Hall. simpl in Hj. lia.
  - rewrite -Hl. apply Hspec. simpl. lia.
Qed.

(** ** Making room *)

Abbreviation namespaces st := (sg_namespaces (ms_staging st)).

Lemma sum_saturating_exact l : foldr N.add 0 l ≤ u64_max → sum_saturating l = foldr N.add 0 l.
Proof.
  unfold sum_saturating. assert (∀ acc, acc + foldr N.add 0 l ≤ u64_max → foldl saturating_add acc l = acc + foldr N.add 0 l) as Hacc; [|intros; by rewrite Hacc].
  induction l as [|x l IH]; intros acc Hle; simpl in *; [lia|]. rewrite IH; unfold saturating_add; lia.
Qed.

Lemma sum_app (l l' : list N) : foldr N.add 0 (l ++ l') = foldr N.add 0 l + foldr N.add 0 l'.
Proof. induction l as [|x l IH]; simpl; [done|]. rewrite IH. lia. Qed.

Lemma read_sum st : foldr N.add 0 (pt_bytes <$> read_namespaces st) = sumw bytes_of (namespaces st).
Proof. unfold read_namespaces, sumw. induction (bt_entries _) as [|e l IH]; [done|]. simpl. by rewrite IH. Qed.

Lemma read_from st source :
  limited limits st →
  foldr N.add 0 (pt_bytes <$> filter (λ p, pt_source p = source) (read_namespaces st)) = sumw (bytes_from source) (namespaces st).
Proof.
  intros Hlm. unfold read_namespaces, sumw.
  assert (∀ e, e ∈ bt_entries (namespaces st) → pt_source e.2.1 = e.1.1) as Hsrc.
  { intros [key [p s]] He%elem_of_bt_entries. destruct (lm_filed _ _ Hlm key p s He) as [<- _ _ _ _]. done. }
  revert Hsrc. induction (bt_entries _) as [|e l IH]; intros Hsrc; [done|]. rewrite fmap_cons filter_cons. simpl.
  rewrite -(IH ltac:(intros e' ?; apply Hsrc; by right)). unfold bytes_from at 1. rewrite -(Hsrc e ltac:(by left)). by case_decide.
Qed.

Lemma elem_of_read st p : limited limits st → p ∈ read_namespaces st ↔ ∃ s, namespaces st !! pt_key p = Some (p, s).
Proof.
  intros Hlm. unfold read_namespaces. rewrite list_elem_of_fmap. split.
  - intros ([key [q s]] & -> & He%elem_of_bt_entries). simpl. destruct (lm_filed _ _ Hlm key q s He) as [<- _ _ _ _]. by exists s.
  - intros [s Hs]. exists (pt_key p, (p, s)). split; [done|]. by apply elem_of_bt_entries.
Qed.

Lemma read_keys st : limited limits st → NoDup (pt_key <$> read_namespaces st).
Proof.
  intros Hlm. unfold read_namespaces. rewrite -list_fmap_compose.
  assert ((pt_key ∘ (λ e, e.2.1)) <$> bt_entries (namespaces st) = (bt_entries (namespaces st)).*1) as ->; [|apply bt_entries_NoDup].
  apply list_fmap_ext. intros k [key [p s]] He. simpl. apply list_elem_of_lookup_2, elem_of_bt_entries in He.
  by destruct (lm_filed _ _ Hlm key p s He).
Qed.

(** Stagings that are as they were read are dropped, and nothing else is. *)
Lemma discard_all_spec st l k :
  limited limits st → NoDup (pt_key <$> l) → (∀ p, p ∈ l → p ∈ read_namespaces st ∧ pt_activating p = false) →
  ∃ st', discard_all (λ _ st, st) k st l = (st', Ok ()) ∧
    (∀ key, namespaces st' !! key = if decide (key ∈ pt_key <$> l) then None else namespaces st !! key) ∧
    sumw bytes_of (namespaces st') + foldr N.add 0 (pt_bytes <$> l) = sumw bytes_of (namespaces st).
Proof.
  revert st k. induction l as [|p l IH]; intros st k Hlm Hnd Hl.
  { exists st. split_and!; [done|done|simpl; lia]. }
  rewrite fmap_cons in Hnd. apply NoDup_cons in Hnd as [Hp Hnd]. destruct (Hl p) as [Hpr Hact]; [by left|]. apply (elem_of_read _ _ Hlm) in Hpr as [s Hs].
  cbn [discard_all]. unfold discard_namespace. cbn [main_store]. rewrite Hs. rewrite bool_decide_true // Hact. cbn [andb negb].
  set (st1 := {| ms_inner := _ |}).
  assert (limited limits st1) as Hlm1 by (apply ended_limited; [done|apply delete_subseteq]).
  destruct (IH st1 (S k) Hlm1 Hnd) as (st' & Hrun & Hlook & Hsum).
  { intros q Hq. destruct (Hl q) as [Hqr Hqa]; [by right|]. apply (elem_of_read _ _ Hlm) in Hqr as [sq Hsq]. split; [|done]. apply (elem_of_read _ _ Hlm1). exists sq.
    cbn [st1 ms_staging set_namespaces sg_namespaces]. rewrite lookup_delete_ne //. intros He. apply Hp. rewrite He. by apply list_elem_of_fmap_2. }
  exists st'. split_and!; [done| |].
  - intros key. rewrite Hlook. cbn [st1 ms_staging set_namespaces sg_namespaces]. rewrite fmap_cons.
    destruct (decide (key = pt_key p)) as [->|Hne].
    + rewrite (decide_True (P := pt_key p ∈ pt_key p :: _)); [by left|]. case_decide; [done|apply lookup_delete_eq].
    + rewrite lookup_delete_ne //. repeat case_decide; try done; set_solver.
  - cbn [st1 ms_staging set_namespaces sg_namespaces] in Hsum. rewrite (sumw_delete _ _ _ _ Hs). change (bytes_of (pt_key p, (p, s))) with (pt_bytes p). rewrite fmap_cons. cbn [foldr]. lia.
Qed.

Lemma losers_spec held (current p : ProvisionalTopic) :
  p ∈ losers_of held current →
  p ∈ held ∧ pt_topic_id p = pt_topic_id current ∧ pt_source p ≠ pt_source current ∧ pt_activating p = false.
Proof. unfold losers_of. rewrite merge_sort_Permutation list_elem_of_filter. naive_solver. Qed.

Lemma losers_keys st current : limited limits st → NoDup (pt_key <$> losers_of (read_namespaces st) current).
Proof.
  intros Hlm. unfold losers_of. rewrite merge_sort_Permutation. eapply sublist_NoDup; [apply (read_keys st Hlm)|].
  apply fmap_sublist, sublist_filter.
Qed.

(** The stagings that went: of the same topic, from another source, not being activated,
    and holding less than that of the source room is made for. *)
Definition dropped_for st (current : ProvisionalTopic) (key : PeerId * TopicId) : Prop :=
  ∃ p s, namespaces st !! key = Some (p, s) ∧ pt_topic_id p = pt_topic_id current ∧ pt_source p ≠ pt_source current ∧
    pt_activating p = false ∧ p ∈ losers_of (read_namespaces st) current.


(** Exactly the idle stagings expire. *)
Lemma expire_drops_idle st now_ms :
  limited limits st →
  ∃ st', expire_bootstraps (λ _ st, st) st now_ms = (st', Ok ()) ∧
    ∀ key, namespaces st' !! key =
      match namespaces st !! key with Some (p, s) => if idle now_ms p then None else Some (p, s) | None => None end.
Proof.
  intros Hlm. destruct (discard_all_spec st (filter (λ p, idle now_ms p = true) (read_namespaces st)) 1 Hlm) as (st' & Hrun & Hlook & _).
  { eapply sublist_NoDup; [apply (read_keys st Hlm)|]. apply fmap_sublist, sublist_filter. }
  { intros p [Hidle Hp]%list_elem_of_filter. split; [done|]. unfold idle in Hidle. by destruct (pt_activating p). }
  exists st'. split; [done|]. intros key. rewrite Hlook. destruct (namespaces st !! key) as [[p s]|] eqn:Hk; [|by case_decide].
  destruct (lm_filed _ _ Hlm key p s Hk) as [Hkey _ _ _ _]. destruct (idle now_ms p) eqn:Hidle.
  - rewrite decide_True //. apply list_elem_of_fmap. exists p. split; [done|]. apply list_elem_of_filter. split; [done|].
    apply (elem_of_read _ _ Hlm). exists s. by rewrite Hkey.
  - rewrite decide_False //. intros (q & Hq & [Hqi Hqr]%list_elem_of_filter)%list_elem_of_fmap. apply (elem_of_read _ _ Hlm) in Hqr as [sq Hsq].
    rewrite -Hq Hk in Hsq. injection Hsq as <- <-. congruence.
Qed.
End bootstrap.
