(* ===== verification/Peers.v ===== *)
(** * Which peers to sync with ([node/peers.rs])

    A topic is synced with a bounded number of its members: a few hubs that every member
    prefers, and neighbours in the ring of all members. Peers that fail are passed over
    and tried again from time to time; what is known of failures is kept in a table of
    bounded size. *)

From S2P Require Import Prelude Ids Frame ClockSpec Types.

#[local] Open Scope N_scope.

Definition PEER_FAILURE_LIMIT : N := 2.
Definition PEER_PROBE_WINDOW : nat := 4.
Definition PEER_PROBE_PERIOD : N := 4.
Definition MAX_TRACKED_PEERS : nat := 1024.
Definition SHARED_OVERLAP : N := 2.

(** ** Health *)

(** [HealthInner], and the view [PeerHealth] of it *)
Record PeerHealth := { ph_attempts : gmap PeerId N; ph_epoch : N }.

(** [HealthInner::default] and [PeerHealth::empty] *)
Definition health_empty : PeerHealth := {| ph_attempts := ∅; ph_epoch := 0 |}.

(** [PeerHealthStore::record_failure] *)
Definition record_failure (h : PeerHealth) (peer : PeerId) : PeerHealth * bool :=
  let '(attempts, failures) :=
    match ph_attempts h !! peer with
    | Some failures =>
        let failures := saturating_add failures 1 in (<[peer := failures]> (ph_attempts h), failures)
    | None =>
        if bool_decide (size (ph_attempts h) < MAX_TRACKED_PEERS)%nat then (<[peer := 1]> (ph_attempts h), 1) else (ph_attempts h, 0)
    end in
  ({| ph_attempts := attempts; ph_epoch := (ph_epoch h + 1) mod 2 ^ 64 |}, 0 <? failures).

(** [PeerHealthStore::record_success] *)
Definition record_success (h : PeerHealth) (peer : PeerId) : PeerHealth * bool :=
  let attempts := delete peer (ph_attempts h) in
  ({| ph_attempts := attempts; ph_epoch := if bool_decide (attempts = ∅) then 0 else ph_epoch h |},
   bool_decide (is_Some (ph_attempts h !! peer))).

(** [PeerHealth::demoted], [PeerHealth::rotation], [PeerHealth::probes_demoted] *)
Definition demoted (h : PeerHealth) (peer : PeerId) : bool :=
  match ph_attempts h !! peer with Some failures => PEER_FAILURE_LIMIT <=? failures | None => false end.
Definition rotation (h : PeerHealth) (len : nat) : nat :=
  match len with O => O | _ => N.to_nat (ph_epoch h mod N.of_nat len) end.
Definition probes_demoted (h : PeerHealth) : bool :=
  negb (ph_epoch h =? 0) && (ph_epoch h mod PEER_PROBE_PERIOD =? 0).

(** ** Candidates *)

(** [PeerSelection], [CandidateOrder] *)
Record PeerSelection := { ps_peers : list PeerId; ps_blocked : bool }.
Definition no_selection : PeerSelection := {| ps_peers := []; ps_blocked := false |}.
Record CandidateOrder := {
  co_candidates : list PeerId;
  co_hubs : list PeerId;
  co_ring : list PeerId;
  co_probe : list PeerId;
}.

(** [ring_order]; the two neighbours at every offset *)
Definition ring_push (nodes : list PeerId) (local_peer : PeerId) (st : list PeerId * gset PeerId) (index : nat) : list PeerId * gset PeerId :=
  let '(ring, seen) := st in
  match nodes !! index with
  | Some peer =>
      if negb (bool_decide (peer = local_peer)) && negb (bool_decide (peer ∈ seen)) then (ring ++ [peer], {[peer]} ∪ seen) else st
  | None => st
  end.
Definition ring_indices (local_index len : nat) : list nat :=
  mjoin ((λ offset, [(local_index + offset) mod len; (local_index + len - offset) mod len]) <$> seq 1 (len - 1))%nat.
Definition ring_order (scope : gset PeerId) (local_peer : PeerId) : list PeerId :=
  let nodes := bt_elements scope in
  match list_find (λ peer, peer = local_peer) nodes with
  | None => []
  | Some (local_index, _) => (foldl (ring_push nodes local_peer) ([], ∅) (ring_indices local_index (length nodes))).1
  end.

(** [probe_order] *)
Definition probe_push (probe : list PeerId) (peer : PeerId) : list PeerId :=
  if bool_decide (PEER_PROBE_WINDOW ≤ length probe)%nat then probe
  else if bool_decide (peer ∈ probe) then probe else probe ++ [peer].
Definition probe_order (hubs ring : list PeerId) : list PeerId := foldl probe_push [] (take 1 hubs ++ ring).

(** [take_slots]; past the limit the loop changes nothing *)
Definition take_slot (order : list PeerId) (start : nat) (limit : N) (h : PeerHealth) (demoted_allowed : bool)
    (selected : gset PeerId) (step : nat) : gset PeerId :=
  if limit <=? N.of_nat (size selected) then selected
  else
    match order !! ((start + step) mod length order)%nat with
    | Some peer => if demoted_allowed || negb (demoted h peer) then {[peer]} ∪ selected else selected
    | None => selected
    end.
Definition take_slots (selected : gset PeerId) (order : list PeerId) (start : nat) (limit : N) (h : PeerHealth)
    (demoted_allowed : bool) : gset PeerId :=
  foldl (take_slot order start limit h demoted_allowed) selected (seq 0 (length order)).

Section selection.
Context `{!Crypto}.

(** [b"irokle-sync-peer-v1"], [b"shared"] *)
Definition SCORE_DOMAIN : list N :=
  [105; 114; 111; 107; 108; 101; 45; 115; 121; 110; 99; 45; 112; 101; 101; 114; 45; 118; 49].
Definition SHARED : list N := [115; 104; 97; 114; 101; 100].

(** [sync_peer_score] *)
Definition sync_peer_score (t : TopicId) (local_peer peer : PeerId) : PeerId :=
  blake3 KPeer (SCORE_DOMAIN ++ as_bytes t ++ as_bytes local_peer ++ as_bytes peer).

(** [build_order] *)
Definition scope_of (local_peer : PeerId) (state : TopicState) : gset PeerId :=
  let policy := ts_replication_policy state in
  {[local_peer]} ∪ if bool_decide (selected_peers policy = ∅) then ts_members state else selected_peers policy ∩ ts_members state.
Definition build_order (t : TopicId) (local_peer : PeerId) (state : TopicState) : CandidateOrder :=
  let scope := scope_of local_peer state in
  let candidates := filter (λ peer, peer ≠ local_peer) (bt_elements scope) in
  let shared := blake3 KPeer SHARED in
  let scored := (λ peer, (sync_peer_score t shared peer, peer)) <$> candidates in
  let scored := merge_sort (λ left right, ble (right.1, left.2) (left.1, right.2)) scored in
  let hubs := scored.*2 in
  let ring := ring_order scope local_peer in
  {| co_candidates := candidates; co_hubs := hubs; co_ring := ring; co_probe := probe_order hubs ring |}.

(** [select_sync_targets] *)
Definition select_within (order : CandidateOrder) (max : N) (h : PeerHealth) : gset PeerId :=
  let rotation := rotation h (length (co_probe order)) in
  let selected := if probes_demoted h then take_slots ∅ (co_probe order) rotation 1 h true else ∅ in
  let selected :=
    if max =? 1 then take_slots selected (co_probe order) rotation max h false
    else take_slots selected (co_hubs order) 0 (N.min (SHARED_OVERLAP + 1) (max - 1)) h false in
  let selected := take_slots selected (co_ring order) rotation max h false in
  take_slots selected (co_candidates order) rotation max h true.
Definition select_sync_targets (t : TopicId) (local_peer : PeerId) (state : TopicState) (h : PeerHealth) : PeerSelection :=
  let max := max_sync_peers (ts_replication_policy state) in
  if max =? 0 then no_selection
  else
    let order := build_order t local_peer state in
    match co_candidates order with
    | [] => no_selection
    | _ =>
        {| ps_peers :=
             if N.of_nat (length (co_candidates order)) <=? max then co_candidates order
             else bt_elements (select_within order max h);
           ps_blocked := forallb (demoted h) (co_candidates order) |}
    end.
End selection.
