(* ===== verification/PeersInv.v ===== *)
(** * Selected peers: allowed, bounded, connected *)

From stdpp Require Import relations.
From S2P Require Import Prelude Ids Frame ClockSpec Types Peers.

#[local] Open Scope N_scope.

(** ** The table of failures *)

(** One attempt and its outcome *)
Inductive health_step (h : PeerHealth) : PeerHealth → Prop :=
  | attempt_failed peer : health_step h (record_failure h peer).1
  | attempt_succeeded peer : health_step h (record_success h peer).1.

Record health_ok (h : PeerHealth) : Prop := {
  hk_size : (size (ph_attempts h) ≤ MAX_TRACKED_PEERS)%nat;
  hk_failed : ∀ peer failures, ph_attempts h !! peer = Some failures → 1 ≤ failures ≤ u64_max;
  hk_epoch : ph_epoch h < 2 ^ 64;
  (** Without failures the order is that of the policy. *)
  hk_rest : ph_attempts h = ∅ → ph_epoch h = 0;
}.

(** The table stays within its size, and the order goes back to that of the policy when
    every peer that failed was reached again. *)
Theorem health_reachable h : rtc health_step health_empty h → health_ok h.
Proof.
  revert h. apply (rtc_ind_r (R := health_step) health_ok health_empty).
  { split; cbn [health_empty ph_attempts ph_epoch]; [rewrite map_size_empty; lia|by intros peer f; rewrite lookup_empty|lia|done]. }
  intros h h' _ Hstep [Hsize Hfailed Hepoch Hrest]. destruct Hstep as [peer|peer].
  - assert ((ph_epoch h + 1) mod 2 ^ 64 < 2 ^ 64) as Hmod by (apply N.mod_lt; lia). unfold record_failure.
    destruct (ph_attempts h !! peer) as [f|] eqn:Hp; [|case_bool_decide as Hroom]; (split; cbn [fst ph_attempts ph_epoch]; [..|exact Hmod|]).
    + by rewrite map_size_insert_Some.
    + intros p g [[_ <-]|[_ Hg]]%lookup_insert_Some; [|by eapply Hfailed]. destruct (Hfailed peer f Hp). unfold saturating_add. lia.
    + intros He. by apply insert_non_empty in He.
    + rewrite map_size_insert_None //.
    + intros p g [[_ <-]|[_ Hg]]%lookup_insert_Some; [unfold u64_max; lia|by eapply Hfailed].
    + intros He. by apply insert_non_empty in He.
    + done.
    + done.
    + intros He. rewrite He map_size_empty in Hroom. unfold MAX_TRACKED_PEERS in Hroom. lia.
  - split; cbn [record_success fst ph_attempts ph_epoch].
    + etrans; [|exact Hsize]. rewrite -!size_dom. apply subseteq_size, subseteq_dom, delete_subseteq.
    + intros p g [_ Hg]%lookup_delete_Some. by eapply Hfailed.
    + case_bool_decide; [lia|done].
    + intros He. by rewrite bool_decide_true.
Qed.

Lemma health_rests h : rtc health_step health_empty h → ph_attempts h = ∅ → h = health_empty.
Proof. intros Hok%health_reachable He. pose proof (hk_rest _ Hok He) as H0. by destruct h as [a e]; simpl in *; subst. Qed.

(** ** Filling slots *)

(** Going round a list once meets every index. *)
Lemma round_meets (start len i : nat) : (i < len)%nat → ∃ step, (step < len)%nat ∧ ((start + step) mod len)%nat = i.
Proof.
  intros Hi. set (s := (start mod len)%nat). assert (s < len)%nat as Hs by (apply Nat.mod_upper_bound; lia).
  assert (∀ step, ((start + step) mod len = (s + step) mod len)%nat) as Hmod by (intros step; unfold s; by rewrite Nat.Div0.add_mod_idemp_l).
  destruct (decide (s ≤ i)%nat).
  - exists (i - s)%nat. split; [lia|]. rewrite Hmod. replace (s + (i - s))%nat with i by lia. by apply Nat.mod_small.
  - exists (len + i - s)%nat. split; [lia|]. rewrite Hmod. replace (s + (len + i - s))%nat with (i + 1 * len)%nat by lia.
    rewrite Nat.Div0.mod_add. by apply Nat.mod_small.
Qed.

Section slots.
Context (order : list PeerId) (start : nat) (limit : N) (h : PeerHealth) (allowed : bool).
Abbreviation slot := (take_slot order start limit h allowed).
Abbreviation eligible peer := (allowed || negb (demoted h peer)).

Lemma slots_grow (l : list nat) selected : selected ⊆ foldl slot selected l.
Proof.
  revert selected. induction l as [|step l IH]; intros selected; [done|]. cbn [foldl]. etrans; [|apply IH].
  unfold take_slot. repeat case_match; set_solver.
Qed.

Lemma slots_within (l : list nat) selected peer :
  peer ∈ foldl slot selected l → peer ∈ selected ∨ peer ∈ order ∧ eligible peer = true.
Proof.
  revert selected. induction l as [|step l IH]; intros selected; [by left|]. cbn [foldl]. intros [Hin|?]%IH; [|by right].
  unfold take_slot in Hin. destruct (limit <=? _); [by left|]. destruct (order !! _) as [p|] eqn:Hp; [|by left].
  destruct (eligible p) eqn:He; [|by left]. apply elem_of_union in Hin as [->%elem_of_singleton|?]; [|by left].
  right. split; [by eapply list_elem_of_lookup_2|done].
Qed.

Lemma slots_bounded (l : list nat) selected :
  N.of_nat (size (foldl slot selected l)) ≤ N.max (N.of_nat (size selected)) limit.
Proof.
  revert selected. induction l as [|step l IH]; intros selected; [simpl; lia|]. cbn [foldl]. etrans; [apply IH|].
  enough (N.of_nat (size (slot selected step)) ≤ N.max (N.of_nat (size selected)) limit) by lia.
  unfold take_slot. destruct (N.leb_spec limit (N.of_nat (size selected))); [lia|]. destruct (order !! _) as [p|]; [|lia]. destruct (eligible p); [|lia].
  pose proof (size_union_alt {[p]} selected) as Hu. rewrite size_singleton in Hu.
  pose proof (subseteq_size (selected ∖ {[p]}) selected ltac:(apply subseteq_difference_l; reflexivity)). lia.
Qed.

(** When there is room left, everything eligible that was met is in. *)
Lemma slots_full (l : list nat) selected step peer :
  N.of_nat (size (foldl slot selected l)) < limit → step ∈ l → order !! ((start + step) mod length order)%nat = Some peer →
  eligible peer = true → peer ∈ foldl slot selected l.
Proof.
  revert selected. induction l as [|s l IH]; intros selected Hroom Hin Hp He; [by apply elem_of_nil in Hin|]. cbn [foldl] in *.
  apply elem_of_cons in Hin as [<-|Hin]; [|by apply IH]. destruct (decide (limit ≤ N.of_nat (size selected))) as [Hfull|Hlt].
  { exfalso. pose proof (subseteq_size _ _ (slots_grow (step :: l) selected)) as Hle. cbn [foldl] in Hle. lia. }
  apply slots_grow. unfold take_slot. destruct (N.leb_spec limit (N.of_nat (size selected))); [lia|]. rewrite Hp He.
  apply elem_of_union_l. by apply elem_of_singleton.
Qed.

Lemma take_slots_spec selected :
  let selected' := take_slots selected order start limit h allowed in
  selected ⊆ selected' ∧
  (∀ peer, peer ∈ selected' → peer ∈ selected ∨ peer ∈ order ∧ eligible peer = true) ∧
  N.of_nat (size selected') ≤ N.max (N.of_nat (size selected)) limit ∧
  (limit ≤ N.of_nat (size selected') ∨ ∀ peer, peer ∈ order → eligible peer = true → peer ∈ selected').
Proof.
  intros selected'. split_and!; [apply slots_grow|apply slots_within|apply slots_bounded|].
  destruct (decide (limit ≤ N.of_nat (size selected'))) as [|Hroom]; [by left|right]. intros peer [i Hi]%list_elem_of_lookup_1 He.
  pose proof (lookup_lt_Some _ _ _ Hi) as Hlt. destruct (round_meets start (length order) i Hlt) as (step & Hs & Hmod).
  apply (slots_full _ _ step); [unfold selected', take_slots in Hroom; lia|apply elem_of_seq; lia|by rewrite Hmod|done].
Qed.

End slots.

(** The first slot goes to the peer the round starts at. *)
Lemma take_slots_first selected order start limit h allowed peer :
  N.of_nat (size selected) < limit → order !! (start mod length order)%nat = Some peer → allowed || negb (demoted h peer) = true →
  peer ∈ take_slots selected order start limit h allowed.
Proof.
  intros Hroom Hp He. unfold take_slots. assert (∃ l, seq 0 (length order) = O :: l) as [l ->].
  { destruct order; [done|]. by eexists. }
  cbn [foldl]. apply slots_grow. unfold take_slot. destruct (N.leb_spec limit (N.of_nat (size selected))); [lia|].
  rewrite Nat.add_0_r Hp He. apply elem_of_union_l. by apply elem_of_singleton.
Qed.

(** ** The ring *)

Section ring.
Context (nodes : list PeerId) (local : PeerId).
Abbreviation push := (ring_push nodes local).

Lemma ring_seen (l : list nat) ring seen :
  (∀ p, p ∈ ring ↔ p ∈ seen) → let '(ring', seen') := foldl push (ring, seen) l in
  (∀ p, p ∈ ring' ↔ p ∈ seen') ∧
  ∀ p, p ∈ ring' ↔ p ∈ ring ∨ (p ≠ local ∧ ∃ i, i ∈ l ∧ nodes !! i = Some p).
Proof.
  revert ring seen. induction l as [|i l IH]; intros ring seen Hseen; cbn [foldl].
  { split; [done|]. intros p. split; [by left|]. intros [?|(_ & i & ?%elem_of_nil & _)]; done. }
  unfold ring_push at 2. destruct (nodes !! i) as [q|] eqn:Hq.
  2: { specialize (IH ring seen Hseen). destruct (foldl _ _ _) as [ring' seen']. destruct IH as [? Hin]. split; [done|].
       intros p. rewrite Hin. setoid_rewrite elem_of_cons. naive_solver. }
  destruct (negb (bool_decide (q = local)) && negb (bool_decide (q ∈ seen))) eqn:Hpush.
  - apply andb_true_iff in Hpush as [Hne%negb_true_iff%bool_decide_eq_false Hns%negb_true_iff%bool_decide_eq_false].
    specialize (IH (ring ++ [q]) ({[q]} ∪ seen)). destruct (foldl _ _ _) as [ring' seen'].
    destruct IH as [? Hin]; [intros p; rewrite elem_of_app elem_of_union list_elem_of_singleton elem_of_singleton Hseen; tauto|].
    split; [done|]. intros p. rewrite Hin elem_of_app list_elem_of_singleton. setoid_rewrite elem_of_cons. naive_solver.
  - specialize (IH ring seen Hseen). destruct (foldl _ _ _) as [ring' seen']. destruct IH as [? Hin]. split; [done|].
    intros p. rewrite Hin. setoid_rewrite elem_of_cons. split; [naive_solver|]. intros [?|(Hp & j & [->|Hj] & Hj')]; [by left| |right; naive_solver].
    left. rewrite Hq in Hj'. injection Hj' as ->. apply andb_false_iff in Hpush as [Hl%negb_false_iff%bool_decide_eq_true|Hs%negb_false_iff%bool_decide_eq_true]; [done|by apply Hseen].
Qed.

Lemma ring_extends (l : list nat) ring seen : ∃ rest, (foldl push (ring, seen) l).1 = ring ++ rest.
Proof.
  revert ring seen. induction l as [|i l IH]; intros ring seen; cbn [foldl]; [exists []; by rewrite app_nil_r|].
  unfold ring_push at 2. destruct (nodes !! i) as [p|]; [|apply IH]. destruct (_ && _); [|apply IH].
  destruct (IH (ring ++ [p]) ({[p]} ∪ seen)) as [rest ->]. exists (p :: rest). by rewrite -app_assoc.
Qed.
End ring.

Lemma elem_of_ring_indices k len i :
  (k < len)%nat → (i < len)%nat → i ≠ k → i ∈ ring_indices k len.
Proof.
  intros Hk Hi Hne. assert (∃ m, (1 ≤ m < len)%nat ∧ ((k + m) mod len)%nat = i) as (m & Hm & Hmod).
  { destruct (decide (k ≤ i)%nat) as [Hle|Hgt].
    - exists (i - k)%nat. split; [lia|]. replace (k + (i - k))%nat with i by lia. by apply Nat.mod_small.
    - exists (len + i - k)%nat. split; [lia|]. replace (k + (len + i - k))%nat with (i + 1 * len)%nat by lia.
      rewrite Nat.Div0.mod_add. by apply Nat.mod_small. }
  unfold ring_indices. apply list_elem_of_join. exists [(k + m) mod len; (k + len - m) mod len]%nat.
  split; [apply elem_of_cons; by left|]. apply list_elem_of_fmap. exists m. split; [done|]. apply elem_of_seq. lia.
Qed.

Section selection.
Context `{!Crypto}.
Implicit Types (t : TopicId) (local peer : PeerId) (state : TopicState) (h : PeerHealth).

Abbreviation max_of state := (max_sync_peers (ts_replication_policy state)).

(** A peer that may be synced with: another member, and selected when some are. *)
Definition allowed local state peer : Prop :=
  peer ≠ local ∧ peer ∈ ts_members state ∧
  (selected_peers (ts_replication_policy state) = ∅ ∨ peer ∈ selected_peers (ts_replication_policy state)).

Lemma candidates_spec t local state peer : peer ∈ co_candidates (build_order t local state) ↔ allowed local state peer.
Proof.
  cbn [build_order co_candidates]. rewrite list_elem_of_filter elem_of_bt_elements. unfold scope_of, allowed.
  rewrite elem_of_union elem_of_singleton. case_bool_decide as Hs; [naive_solver|]. rewrite elem_of_intersection. naive_solver.
Qed.

Lemma candidates_NoDup t local state : NoDup (co_candidates (build_order t local state)).
Proof. cbn [build_order co_candidates]. apply NoDup_filter, bt_elements_NoDup. Qed.

Lemma hubs_spec t local state peer : peer ∈ co_hubs (build_order t local state) ↔ peer ∈ co_candidates (build_order t local state).
Proof.
  cbn [build_order co_hubs co_candidates]. rewrite merge_sort_Permutation -list_fmap_compose.
  assert ((snd ∘ (λ peer, (sync_peer_score t (blake3 KPeer SHARED) peer, peer))) <$> filter (λ peer, peer ≠ local) (bt_elements (scope_of local state)) =
    filter (λ peer, peer ≠ local) (bt_elements (scope_of local state))) as ->; [|done].
  rewrite -{2}(list_fmap_id (filter _ _)). by apply list_fmap_ext.
Qed.

Lemma local_index local state :
  ∃ k, list_find (λ peer, peer = local) (bt_elements (scope_of local state)) = Some (k, local) ∧
    bt_elements (scope_of local state) !! k = Some local.
Proof.
  destruct (list_find (λ peer, peer = local) (bt_elements (scope_of local state))) as [[k p]|] eqn:Hf.
  - apply list_find_Some in Hf as (Hk & -> & _). by exists k.
  - exfalso. apply list_find_None in Hf. rewrite Forall_forall in Hf. apply (Hf local); [|done]. apply elem_of_bt_elements. unfold scope_of. set_solver.
Qed.

(** The ring has every candidate. *)
Lemma ring_spec t local state peer : peer ∈ co_ring (build_order t local state) ↔ peer ∈ co_candidates (build_order t local state).
Proof.
  cbn [build_order co_ring co_candidates]. unfold ring_order. destruct (local_index local state) as (k & -> & Hk).
  set (nodes := bt_elements (scope_of local state)) in *.
  pose proof (ring_seen nodes local (ring_indices k (length nodes)) [] ∅) as Hr. destruct (foldl _ _ _) as [ring seen].
  destruct Hr as [_ Hr]; [set_solver|]. cbn [fst]. rewrite Hr list_elem_of_filter. split.
  - intros [?%elem_of_nil|(Hne & i & _ & Hi)]; [done|]. split; [done|]. by eapply list_elem_of_lookup_2.
  - intros [Hne [i Hi]%list_elem_of_lookup_1]. right. split; [done|]. exists i. split; [|done].
    apply elem_of_ring_indices; [by eapply lookup_lt_Some|by eapply lookup_lt_Some|]. intros ->. congruence.
Qed.

Lemma probe_within hubs ring peer : peer ∈ probe_order hubs ring → peer ∈ hubs ∨ peer ∈ ring.
Proof.
  unfold probe_order. assert (∀ l probe, peer ∈ foldl probe_push probe l → peer ∈ probe ∨ peer ∈ l) as Hp.
  { induction l as [|q l IH]; intros probe; [by left|]. cbn [foldl]. intros Hin%IH. destruct Hin as [Hin|Hin]; [|right; by right].
    unfold probe_push in Hin. repeat case_bool_decide; [by left..|]. apply elem_of_app in Hin as [Hin|Hin]; [by left|right].
    apply list_elem_of_singleton in Hin as ->. by left. }
  intros Hin%Hp. destruct Hin as [Hin|Hin]; [by apply elem_of_nil in Hin|]. apply elem_of_app in Hin as [Hin|Hin]; [left|by right].
  apply elem_of_take in Hin as (i & Hi & _). by eapply list_elem_of_lookup_2.
Qed.

Lemma probe_spec t local state peer : peer ∈ co_probe (build_order t local state) → peer ∈ co_candidates (build_order t local state).
Proof. intros Hp. apply probe_within in Hp as [Hp|Hp]; [by apply (hubs_spec t local state)|by apply (ring_spec t local state)]. Qed.

(** ** What is selected when not everyone is *)

Lemma select_within_spec t local state h :
  let order := build_order t local state in let max := max_of state in
  max ≠ 0 → max < N.of_nat (length (co_candidates order)) →
  let selected := select_within order max h in
  (∀ peer, peer ∈ selected → peer ∈ co_candidates order) ∧ N.of_nat (size selected) = max ∧
  (probes_demoted h = false → ∀ peer healthy, peer ∈ selected → demoted h peer = true →
    healthy ∈ co_candidates order → demoted h healthy = false → healthy ∈ selected).
Proof.
  intros order max Hmax Hlen selected. unfold selected, select_within. set (rot := rotation h _).
  set (s0 := if probes_demoted h then take_slots ∅ (co_probe order) rot 1 h true else ∅).
  assert (N.of_nat (size s0) ≤ 1 ∧ (∀ p, p ∈ s0 → p ∈ co_candidates order) ∧ (probes_demoted h = false → s0 = ∅)) as (Hs0 & Hin0 & Hnp).
  { unfold s0. destruct (probes_demoted h); [|split_and!; [rewrite size_empty; lia|by intros p ?%elem_of_empty|done]].
    destruct (take_slots_spec (co_probe order) rot 1 h true ∅) as (_ & Hin & Hb & _). rewrite size_empty in Hb. split_and!; [lia| |done].
    intros p [?%elem_of_empty|[Hp _]]%Hin; [done|]. by apply probe_spec in Hp. }
  set (s1 := if max =? 1 then _ else _).
  assert (N.of_nat (size s1) ≤ max ∧ (∀ p, p ∈ s1 → p ∈ co_candidates order) ∧ (∀ p, p ∈ s1 → p ∈ s0 ∨ demoted h p = false)) as (Hs1 & Hin1 & Hd1).
  { unfold s1. destruct (N.eqb_spec max 1).
    - destruct (take_slots_spec (co_probe order) rot max h false s0) as (_ & Hin & Hb & _). split_and!; [lia| |].
      + intros p [?|[Hp _]]%Hin; [by apply Hin0|]. by apply probe_spec in Hp.
      + intros p [?|[_ Hp]]%Hin; [by left|right]. by apply negb_true_iff in Hp.
    - destruct (take_slots_spec (co_hubs order) 0 (N.min (SHARED_OVERLAP + 1) (max - 1)) h false s0) as (_ & Hin & Hb & _). split_and!; [lia| |].
      + intros p [?|[Hp _]]%Hin; [by apply Hin0|by apply hubs_spec in Hp].
      + intros p [?|[_ Hp]]%Hin; [by left|right]. by apply negb_true_iff in Hp. }
  destruct (take_slots_spec (co_ring order) rot max h false s1) as (Hsub2 & Hin2 & Hb2 & Hfull2). set (s2 := take_slots s1 _ _ _ _ _) in *.
  destruct (take_slots_spec (co_candidates order) rot max h true s2) as (Hsub3 & Hin3 & Hb3 & Hfull3). set (s3 := take_slots s2 _ _ _ _ _) in *.
  assert (∀ p, p ∈ s2 → p ∈ co_candidates order) as Hc2.
  { intros p [?|[Hp _]]%Hin2; [by apply Hin1|by apply ring_spec in Hp]. }
  assert (N.of_nat (size s3) = max) as Hsize.
  { apply N.le_antisymm; [lia|]. destruct Hfull3 as [|Hall]; [done|].
    assert (list_to_set (co_candidates order) ⊆ s3) as Hsub by (intros p ?%elem_of_list_to_set; by apply Hall).
    apply subseteq_size in Hsub. rewrite size_list_to_set in Hsub; [apply candidates_NoDup|]. lia. }
  split_and!; [|done|].
  - intros p [?|[? _]]%Hin3; [by apply Hc2|done].
  - intros Hprobe peer healthy Hpeer Hdem Hh Hhd. apply Hsub3. destruct Hfull2 as [Hfull|Hall]; [|apply Hall; [by apply ring_spec|by rewrite Hhd]].
    exfalso. assert (s3 = s2) as Heq.
    { symmetry. apply set_subseteq_size_eq; [done|lia]. }
    rewrite Heq in Hpeer. apply Hin2 in Hpeer as [Hp|[_ Hp]]; [|by rewrite Hdem in Hp].
    destruct (Hd1 peer Hp) as [Hp0|]; [|congruence]. rewrite (Hnp Hprobe) in Hp0. by apply elem_of_empty in Hp0.
Qed.


(** ** Connectivity *)

(** The next member, round the ring of members. *)
Definition successor state (k : nat) : option PeerId := bt_elements (ts_members state) !! (S k mod length (bt_elements (ts_members state)))%nat.

Lemma member_scope local state : selected_peers (ts_replication_policy state) = ∅ → local ∈ ts_members state → scope_of local state = ts_members state.
Proof. intros Hs Hl. unfold scope_of. rewrite bool_decide_true //. set_solver. Qed.

Lemma ring_first t local state k peer :
  selected_peers (ts_replication_policy state) = ∅ → bt_elements (ts_members state) !! k = Some local →
  successor state k = Some peer → peer ≠ local → ∃ rest, co_ring (build_order t local state) = peer :: rest.
Proof.
  intros Hs Hk Hsucc Hne. assert (local ∈ ts_members state) as Hl by (apply elem_of_bt_elements; by eapply list_elem_of_lookup_2).
  cbn [build_order co_ring]. unfold ring_order. destruct (local_index local state) as (k' & -> & Hk'). rewrite (member_scope local state Hs Hl) in Hk' |- *.
  set (nodes := bt_elements (ts_members state)) in *.
  assert (k' = k) as ->. { eapply (NoDup_lookup nodes); [apply bt_elements_NoDup|done|done]. }
  unfold successor in Hsucc. fold nodes in Hsucc.
  assert (1 < length nodes)%nat as Hlen.
  { destruct (length nodes) as [|[|n]] eqn:Hlen; [| |lia].
    - apply nil_length_inv in Hlen. by rewrite Hlen in Hk.
    - rewrite Nat.mod_1_r in Hsucc. pose proof (lookup_lt_Some _ _ _ Hk) as Hlt. rewrite Hlen in Hlt. assert (k = O) as -> by lia. congruence. }
  assert (∃ rest, ring_indices k (length nodes) = (S k mod length nodes)%nat :: rest) as [rest ->].
  { unfold ring_indices. destruct (length nodes) as [|[|n]]; [lia..|]. eexists. cbn [seq Nat.sub fmap list_fmap mjoin list_join app]. by rewrite Nat.add_1_r. }
  cbn [foldl]. assert (ring_push nodes local ([], ∅) (S k mod length nodes)%nat = ([peer], {[peer]} ∪ ∅)) as ->.
  { unfold ring_push. rewrite Hsucc. by rewrite bool_decide_false. }
  destruct (ring_extends nodes local rest [peer] ({[peer]} ∪ ∅)) as [more ->]. by exists more.
Qed.

(** Without failures everybody syncs with the next member. *)
Lemma selects_successor t local state k peer :
  selected_peers (ts_replication_policy state) = ∅ → 2 ≤ max_of state → bt_elements (ts_members state) !! k = Some local →
  successor state k = Some peer → peer ≠ local → peer ∈ ps_peers (select_sync_targets t local state health_empty).
Proof.
  intros Hs Hmax Hk Hsucc Hne. destruct (ring_first t local state k peer Hs Hk Hsucc Hne) as [rest Hring].
  assert (peer ∈ co_candidates (build_order t local state)) as Hc by (apply ring_spec; rewrite Hring; by left).
  unfold select_sync_targets. destruct (N.eqb_spec (max_of state) 0); [lia|].
  destruct (co_candidates (build_order t local state)) as [|c l] eqn:Hcs; [by apply elem_of_nil in Hc|]. rewrite -Hcs in Hc |- *. cbn [ps_peers].
  destruct (N.leb_spec (N.of_nat (length (co_candidates (build_order t local state)))) (max_of state)) as [|Hlt]; [done|].
  apply elem_of_bt_elements. unfold select_within. assert (∀ n, rotation health_empty n = O) as Hrot.
  { intros [|len]; [done|]. unfold rotation. cbn [health_empty ph_epoch]. by rewrite N.mod_0_l. }
  rewrite !Hrot. cbn [probes_demoted health_empty ph_epoch N.eqb negb andb]. destruct (N.eqb_spec (max_of state) 1); [lia|].
  apply (take_slots_spec (co_candidates (build_order t local state)) 0 (max_of state) health_empty true).
  destruct (take_slots_spec (co_hubs (build_order t local state)) 0 (N.min (SHARED_OVERLAP + 1) (max_of state - 1)) health_empty false ∅) as (_ & _ & Hb & _).
  rewrite size_empty in Hb. apply take_slots_first; [lia| |].
  - rewrite Hring. cbn [length]. by rewrite Nat.Div0.mod_0_l.
  - unfold demoted. cbn [health_empty ph_attempts]. by rewrite lookup_empty.
Qed.

(** C26: A topic with two or more slots is connected while no attempts fail: whatever a
    member has reaches every other one along the peers its members select. *)
Theorem selection_connects t state (health : PeerId → PeerHealth) p q :
  selected_peers (ts_replication_policy state) = ∅ → 2 ≤ max_of state →
  (∀ a, rtc health_step health_empty (health a) ∧ ph_attempts (health a) = ∅) → p ∈ ts_members state → q ∈ ts_members state →
  rtc (λ a b, b ∈ ps_peers (select_sync_targets t a state (health a))) p q.
Proof.
  intros Hs Hmax Hhealth Hp Hq. assert (∀ a, health a = health_empty) as Hrest by (intros a; by apply health_rests; apply Hhealth).
  set (nodes := bt_elements (ts_members state)). set (R := λ a b, _).
  apply elem_of_bt_elements, list_elem_of_lookup_1 in Hp as [i Hi]. apply elem_of_bt_elements, list_elem_of_lookup_1 in Hq as [j Hj]. fold nodes in Hi, Hj.
  pose proof (lookup_lt_Some _ _ _ Hi) as Hlt. pose proof (lookup_lt_Some _ _ _ Hj) as Hlt'.
  assert (∀ step a, nodes !! ((i + step) mod length nodes)%nat = Some a → rtc R p a) as Hall.
  { induction step as [|step IH]; intros a Ha.
    - rewrite Nat.add_0_r Nat.mod_small // Hi in Ha. injection Ha as <-. done.
    - set (k := ((i + step) mod length nodes)%nat) in *. assert (k < length nodes)%nat as Hk by (apply Nat.mod_upper_bound; lia).
      destruct (lookup_lt_is_Some_2 nodes k Hk) as [b Hb]. specialize (IH b Hb).
      assert (successor state k = Some a) as Hsucc.
      { unfold successor. fold nodes. rewrite -Ha. f_equal. unfold k. rewrite Nat.add_succ_r -(Nat.add_1_l ((i + step) mod _)) Nat.Div0.add_mod_idemp_r. f_equal. }
      destruct (decide (a = b)) as [->|Hne]; [done|]. eapply rtc_r; [exact IH|]. unfold R. rewrite Hrest. by eapply selects_successor. }
  destruct (round_meets i (length nodes) j Hlt') as (step & _ & Hstep). apply (Hall step). by rewrite Hstep.
Qed.
End selection.

(** ** Peer selection in a topic of five members *)

#[local] Existing Instance toy_crypto.

(** Five members, of which each syncs with two *)
Definition p_state : TopicState :=
  {| ts_topic_id := small_id 1; ts_event_type_id := "note"; ts_genesis := small_id 10; ts_heads := ∅;
     ts_members := {[small_id 3; small_id 4; small_id 5; small_id 6; small_id 7]};
     ts_replication_policy := {| selected_peers := ∅; max_sync_peers := 2 |}; ts_membership_controls := ∅;
     ts_replication_policy_control := None |}.

(** Member 5 failed twice: it is passed over, and tried again when the rotation probes. *)
Definition p_failing : PeerHealth := (record_failure (record_failure health_empty (small_id 5)).1 (small_id 5)).1.
Definition p_probing : PeerHealth := (record_failure (record_failure p_failing (small_id 5)).1 (small_id 5)).1.

Example failing_peer_skipped : ps_peers (select_sync_targets (small_id 1) (small_id 4) p_state p_failing) = [small_id 6; small_id 7].
Proof. vm_compute. reflexivity. Qed.
Example failing_peer_probed : demoted p_probing (small_id 5) = true ∧ probes_demoted p_probing = true.
Proof. vm_compute. split; reflexivity. Qed.
Example no_slot_no_peer :
  select_sync_targets (small_id 1) (small_id 4)
    {| ts_topic_id := small_id 1; ts_event_type_id := "note"; ts_genesis := small_id 10; ts_heads := ∅; ts_members := ts_members p_state;
       ts_replication_policy := {| selected_peers := ∅; max_sync_peers := 0 |}; ts_membership_controls := ∅;
       ts_replication_policy_control := None |} health_empty = no_selection.
Proof. vm_compute. reflexivity. Qed.

Lemma selection_connects_witness :
  rtc (λ a b, b ∈ ps_peers (select_sync_targets (small_id 1) a p_state health_empty)) (small_id 6 : PeerId) (small_id 4).
Proof.
  refine (selection_connects (small_id 1) p_state (λ _, health_empty) (small_id 6) (small_id 4) _ _ _ _ _).
  - reflexivity.
  - vm_compute. discriminate.
  - intros _. split; [apply rtc_refl|reflexivity].
  - refine (bool_decide_unpack _ _). vm_compute. exact I.
  - refine (bool_decide_unpack _ _). vm_compute. exact I.
Defined.
