(* ===== verification/Programs.v ===== *)
(** * Programs: stateful, fallible code with loops

    The planner of pages mutates one object through many methods, each of which may
    return early with an error, and loops until its work slice is used up. [prog S A] is
    such a program over the state [S]: it gives a value and a state, fails with an error
    of the source, or, as a loop of the model has fuel, gives no result at all.

    [wp] is total: a program that runs out of fuel satisfies no postcondition. So what is
    proved with it holds of every run and includes that the fuel is enough. *)

From S2P Require Import Prelude Ids Types.

Definition prog (S A : Type) : Type := S → option (res (A * S)).

#[global] Instance prog_ret {S} : MRet (prog S) := λ A a s, Some (Ok (a, s)).
#[global] Instance prog_bind {S} : MBind (prog S) := λ A B f m s,
  match m s with
  | Some (Ok (a, s)) => f a s
  | Some (Err e) => Some (Err e)
  | None => None
  end.

Section programs.
Context {S : Type}.

(** A field of the state, a change of it, and [?] on a result. *)
Definition gets {A} (f : S → A) : prog S A := λ s, Some (Ok (f s, s)).
Definition modify (f : S → S) : prog S unit := λ s, Some (Ok ((), f s)).
Definition state {A} (f : S → A * S) : prog S A := λ s, Some (Ok (f s)).
Definition try {A} (r : res A) : prog S A := λ s, Some ((λ a, (a, s)) <$> r).
(** A method that fails or changes the state. *)
Definition attempt (f : S → res S) : prog S unit := λ s, Some ((λ s', ((), s')) <$> f s).

(** A loop with local variables [L]: the body goes on with [inl] or leaves with [inr]. *)
Fixpoint loop {L A} (fuel : nat) (body : L → prog S (L + A)) (l : L) : prog S A :=
  match fuel with
  | O => λ _, None
  | Datatypes.S fuel =>
      r ← body l;
      match r with inl l => loop fuel body l | inr a => mret a end
  end.

(** A loop whose fuel is a number computed when it begins. *)
Definition loop_upto {L A} (fuel : S → nat) (body : L → prog S (L + A)) (l : L) : prog S A :=
  λ s, loop (fuel s) body l s.

(** ** Total correctness *)

Definition wp {A} (m : prog S A) (Q : A → S → Prop) (s : S) : Prop :=
  match m s with
  | Some (Ok (a, s)) => Q a s
  | Some (Err _) => True
  | None => False
  end.

Lemma wp_ret {A} (a : A) Q s : Q a s → wp (mret a) Q s.
Proof. done. Qed.

Lemma wp_bind {A B} (m : prog S A) (f : A → prog S B) Q s :
  wp m (λ a, wp (f a) Q) s → wp (m ≫= f) Q s.
Proof. unfold wp, mbind, prog_bind. by destruct (m s) as [[[a s']|e]|]. Qed.

Lemma wp_mono {A} (m : prog S A) (Q R : A → S → Prop) s :
  wp m Q s → (∀ a s', Q a s' → R a s') → wp m R s.
Proof. unfold wp. destruct (m s) as [[[a s']|e]|]; naive_solver. Qed.

Lemma wp_and {A} (m : prog S A) (Q R : A → S → Prop) s :
  wp m Q s → wp m R s → wp m (λ a s', Q a s' ∧ R a s') s.
Proof. unfold wp. by destruct (m s) as [[[a s']|e]|]. Qed.

Lemma wp_gets {A} (f : S → A) Q s : Q (f s) s → wp (gets f) Q s.
Proof. done. Qed.

Lemma wp_modify f Q s : Q () (f s) → wp (modify f) Q s.
Proof. done. Qed.

Lemma wp_state {A} (f : S → A * S) Q s : Q (f s).1 (f s).2 → wp (state f) Q s.
Proof. unfold wp, state. by destruct (f s). Qed.

Lemma wp_try {A} (r : res A) Q s : (∀ a, r = Ok a → Q a s) → wp (try r) Q s.
Proof. unfold wp, try. destruct r; simpl; naive_solver. Qed.

Lemma wp_attempt f Q s : (∀ s', f s = Ok s' → Q () s') → wp (attempt f) Q s.
Proof. unfold wp, attempt. destruct (f s); simpl; naive_solver. Qed.

(** What a run that returned says. *)
Lemma wp_result {A} (m : prog S A) Q s a s' : wp m Q s → m s = Some (Ok (a, s')) → Q a s'.
Proof. unfold wp. by intros Hwp Heq; rewrite Heq in Hwp. Qed.

Lemma wp_ends {A} (m : prog S A) Q s : wp m Q s → m s ≠ None.
Proof. unfold wp. by destruct (m s). Qed.

(** A loop ends in a state that satisfies [Q] when an invariant is kept, the measure goes
    down with every iteration that goes on, and there is more fuel than that. *)
Lemma wp_loop {L A} (I : L → S → Prop) (measure : L → S → nat) (body : L → prog S (L + A)) Q :
  (∀ l s, I l s → wp (body l) (λ r s', match r with
     | inl l' => I l' s' ∧ (measure l' s' < measure l s)%nat
     | inr a => Q a s' end) s) →
  ∀ fuel l s, I l s → (measure l s < fuel)%nat → wp (loop fuel body l) Q s.
Proof.
  intros Hbody fuel. induction fuel as [|fuel IH]; intros l s HI Hf; [lia|]. cbn [loop].
  apply wp_bind. eapply wp_mono; [by apply Hbody|]. intros [l'|a] s'; [|done].
  intros [HI' Hm]. apply IH; [done|lia].
Qed.

Lemma wp_loop_upto {L A} (I : L → S → Prop) (measure : L → S → nat) (fuel : S → nat)
    (body : L → prog S (L + A)) Q l s :
  (∀ l s, I l s → wp (body l) (λ r s', match r with
     | inl l' => I l' s' ∧ (measure l' s' < measure l s)%nat
     | inr a => Q a s' end) s) →
  I l s → (measure l s < fuel s)%nat → wp (loop_upto fuel body l) Q s.
Proof. intros Hbody HI Hf. by eapply (wp_loop I measure). Qed.
End programs.
Arguments prog : clear implicits.

(** [wp_step] runs the next statement of a program. *)
Ltac wp_step :=
  lazymatch goal with
  | |- wp (mbind _ _) _ _ => apply wp_bind
  | |- wp (mret _) _ _ => apply wp_ret
  | |- wp (gets _) _ _ => apply wp_gets
  | |- wp (modify _) _ _ => apply wp_modify
  | |- wp (state _) _ _ => apply wp_state
  | |- wp (try _) _ _ => apply wp_try; intros ? ?
  | |- wp (attempt _) _ _ => apply wp_attempt; intros ? ?
  end; cbv beta.
Ltac wp_steps := repeat wp_step.

(** [iter().map(f).collect::<Result<Vec<_>>>()] *)
Definition traverse {S A B} (f : A → prog S B) : list A → prog S (list B) :=
  fix go l :=
    match l with
    | [] => mret []
    | x :: l => y ← f x; ys ← go l; mret (y :: ys)
    end.

(** ** Runs that return

    [wlp] says what holds of a run that returned; [returns] says that it does, without
    an error. *)

(** A run that returned is a run of its parts. *)
Lemma prog_bind_ok {S A B} (m : prog S A) (f : A → prog S B) s b s' :
  (m ≫= f) s = Some (Ok (b, s')) → ∃ a s1, m s = Some (Ok (a, s1)) ∧ f a s1 = Some (Ok (b, s')).
Proof. unfold mbind, prog_bind. destruct (m s) as [[[a s1]|e]|]; [|done..]. by exists a, s1. Qed.
Lemma prog_try_ok {S A} (r : res A) (s : S) a s' : try r s = Some (Ok (a, s')) → r = Ok a ∧ s' = s.
Proof. unfold try. destruct r; [|done]. by intros [= -> ->]. Qed.

Definition wlp {S A} (m : prog S A) (Q : A → S → Prop) (s : S) : Prop := ∀ a s', m s = Some (Ok (a, s')) → Q a s'.
Definition returns {S A} (m : prog S A) (Q : A → S → Prop) (s : S) : Prop :=
  ∃ a s', m s = Some (Ok (a, s')) ∧ Q a s'.

Lemma wlp_bind {S A B} (m : prog S A) (f : A → prog S B) Q s : wlp m (λ a, wlp (f a) Q) s → wlp (m ≫= f) Q s.
Proof. intros Hm b s' (a & s1 & Ha & Hb)%prog_bind_ok. by eapply Hm. Qed.
Lemma wlp_ret {S A} (a : A) Q (s : S) : Q a s → wlp (mret a) Q s.
Proof. by intros HQ ? ? [= <- <-]. Qed.
Lemma wlp_try {S A} (r : res A) Q (s : S) : (∀ a, r = Ok a → Q a s) → wlp (try r) Q s.
Proof. intros HQ a s' [Hr ->]%prog_try_ok. by apply HQ. Qed.
Lemma wlp_mono {S A} (m : prog S A) (Q R : A → S → Prop) s : wlp m Q s → (∀ a s', Q a s' → R a s') → wlp m R s.
Proof. intros HQ HR a s' Hm. by apply HR, HQ. Qed.
Lemma wlp_returns {S A} (m : prog S A) (Q R : A → S → Prop) s :
  returns m Q s → wlp m R s → returns m (λ a s', Q a s' ∧ R a s') s.
Proof. intros (a & s' & Ha & HQ) HR. exists a, s'. split; [done|]. split; [done|]. by apply HR. Qed.
Lemma returns_bind {S A B} (m : prog S A) (f : A → prog S B) Q s : returns m (λ a, returns (f a) Q) s → returns (m ≫= f) Q s.
Proof. intros (a & s1 & Ha & b & s' & Hb & HQ). exists b, s'. split; [|done]. unfold mbind, prog_bind. by rewrite Ha. Qed.
Lemma returns_ret {S A} (a : A) Q (s : S) : Q a s → returns (mret a) Q s.
Proof. intros HQ. by exists a, s. Qed.
Lemma returns_try {S A} (r : res A) Q (s : S) a : r = Ok a → Q a s → returns (try r) Q s.
Proof. intros -> HQ. by exists a, s. Qed.
Lemma returns_mono {S A} (m : prog S A) (Q R : A → S → Prop) s : returns m Q s → (∀ a s', Q a s' → R a s') → returns m R s.
Proof. intros (a & s' & ? & HQ) HR. exists a, s'. eauto. Qed.

Lemma wlp_traverse {S A B} (f : A → prog S B) (I : S → Prop) (R : A → B → Prop) l s :
  I s → (∀ x s, x ∈ l → I s → wlp (f x) (λ y s', R x y ∧ I s') s) → wlp (traverse f l) (λ ys s', Forall2 R l ys ∧ I s') s.
Proof.
  revert s. induction l as [|x l IH]; intros s HI Hf; [by apply wlp_ret|]. cbn [traverse].
  apply wlp_bind. eapply wlp_mono; [apply Hf; [by left|done]|]. intros y s1 [Hy HI1].
  apply wlp_bind. eapply wlp_mono; [apply IH; [done|intros ? ? ?; apply Hf; by right]|]. intros ys s2 [Hys HI2].
  apply wlp_ret. split; [by constructor|done].
Qed.

Lemma returns_traverse {S A B} (f : A → prog S B) (I : S → Prop) l ys s :
  I s → Forall2 (λ x y, ∀ s, I s → returns (f x) (λ y' s', y' = y ∧ I s') s) l ys →
  returns (traverse f l) (λ ys' s', ys' = ys ∧ I s') s.
Proof.
  intros HI Hf. revert s HI. induction Hf as [|x y l ys Hx _ IH]; intros s HI; [by apply returns_ret|]. cbn [traverse].
  apply returns_bind. eapply returns_mono; [by apply Hx|]. intros ? s1 [-> HI1].
  apply returns_bind. eapply returns_mono; [by apply IH|]. intros ? s2 [-> HI2]. by apply returns_ret.
Qed.

Lemma returns_wlp {S A} (m : prog S A) Q (s : S) : returns m Q s → wlp m Q s.
Proof. intros (a & s' & Hm & HQ) a' s'' Hm'. rewrite Hm in Hm'. by simplify_eq. Qed.

Lemma returns_loop {S L A} (I : L → S → Prop) (measure : L → S → nat) (body : L → prog S (L + A)) Q :
  (∀ l s, I l s → returns (body l) (λ r s', match r with
     | inl l' => I l' s' ∧ (measure l' s' < measure l s)%nat
     | inr a => Q a s' end) s) →
  ∀ fuel l s, I l s → (measure l s < fuel)%nat → returns (loop fuel body l) Q s.
Proof.
  intros Hbody fuel. induction fuel as [|fuel IH]; intros l s HI Hf; [lia|]. cbn [loop].
  apply returns_bind. eapply returns_mono; [by apply Hbody|]. intros [l'|a] s'; [|by apply returns_ret].
  intros [HI' Hm]. apply IH; [done|lia].
Qed.
