(* ===== verification/ClockStore.v ===== *)
(** * Stored clocks ([clock_store.rs])

    A clock is stored as its nodes, each under the hash of its encoding, with children
    named by their hashes. Writing a clock visits the nodes that are not stored yet;
    reading one follows the names and checks everything it reads: the bytes against
    their name, the shape of a branch against its children.

    Outside the repository are the postcard encoding of a node and blake3; the bytes of
    a snapshot come from [fetch]. A cache shares nodes between clocks. It refers to them
    weakly, so whether a name still leads to a node depends on what the rest of the
    program holds: [alive] tells, at each access, and [others] is what other readers did
    to the cache before it. *)

From S2P Require Import Prelude Ids Nibble Trie Clock Types Programs.

#[local] Open Scope N_scope.
Set Default Proof Using "Type".

(** [[u8; 32]] *)
Abbreviation Hash := (list N).

(** [enum Encoded] *)
Inductive Encoded :=
  | ELeaf (actor : ActorId) (seq : N)
  | EBranch (level bitmap len : N) (key : ActorId) (children : list Hash).

(** Stored records by name *)
Abbreviation NodeStore := (gmap Hash (list N)).

(** What the types of the fields hold. *)
Definition encodable (e : Encoded) : Prop :=
  match e with
  | ELeaf _ seq => seq ≤ u64_max
  | EBranch level bitmap len _ children =>
      level < 256 ∧ bitmap < 65536 ∧ len ≤ u64_max ∧ Forall (λ h, length h = 32%nat) children
  end.

Class NodeCodec := {
  (** [postcard::to_allocvec] and [postcard::from_bytes] of an [Encoded] *)
  node_to_bytes : Encoded → list N;
  node_from_bytes : list N → res Encoded;
  node_blake3 : list N → Hash;
  node_from_to e : encodable e → node_from_bytes (node_to_bytes e) = Ok e;
  node_from_fits b e : node_from_bytes b = Ok e → encodable e;
  node_blake3_length b : length (node_blake3 b) = 32%nat;
}.

(** [NODE_DOMAIN]: [b"irokle/clock-node/1"] *)
Definition NODE_DOMAIN : list N :=
  [105; 114; 111; 107; 108; 101; 47; 99; 108; 111; 99; 107; 45; 110; 111; 100; 101; 47; 49].

Definition corrupt : Error := Storage "corrupt stored clock node".

Section codec.
Context `{!NodeCodec}.
Implicit Types (h : Hash) (b : list N) (n c : Node).

(** [digest] *)
Definition digest b : Hash := node_blake3 (NODE_DOMAIN ++ b).

(** [Node::hash], with [Node::encoded] *)
Fixpoint node_hash n : Hash :=
  digest (node_to_bytes
    match n with
    | Leaf actor seq => ELeaf actor seq
    | Branch level bitmap len key children => EBranch level bitmap len key (node_hash <$> children)
    end).
Definition encoded n : Encoded :=
  match n with
  | Leaf actor seq => ELeaf actor seq
  | Branch level bitmap len key children => EBranch level bitmap len key (node_hash <$> children)
  end.
Lemma node_hash_encoded n : node_hash n = digest (node_to_bytes (encoded n)).
Proof. by destruct n. Qed.

(** [ActorClock::root_hash] *)
Definition root_hash (c : ActorClock) : option Hash := node_hash <$> root c.

(** ** Writing *)

(** [ActorClock::visit_nodes]: [visit] says whether a node is held already; then its
    subtree is not visited. *)
Section visit.
Context {S : Type} (visit : Node → Hash → prog S bool).
Definition visit_step (stack : list Node) : prog S (list Node + unit) :=
  match stack with
  | [] => mret (inr ())
  | node :: stack =>
      held ← visit node (node_hash node);
      if held : bool then mret (inl stack)
      else
        match node with
        | Branch _ _ _ _ children => mret (inl (reverse children ++ stack))
        | Leaf _ _ => mret (inl stack)
        end
  end.
Definition visit_nodes (c : ActorClock) : prog S unit :=
  loop (Datatypes.S (stack_count (option_list (root c)))) visit_step (option_list (root c)).
End visit.

(** Storing a clock: [visit_nodes] with a visitor that writes what is not stored, as
    [tx_put_meta] of the database store does within one transaction. *)
Definition store_visit n h : prog NodeStore bool :=
  stored ← gets (λ st, bool_decide (is_Some (st !! h)));
  if stored : bool then mret true
  else _ ← modify (λ st, <[h := node_to_bytes (encoded n)]> st); mret false.
Definition store_clock (c : ActorClock) : prog NodeStore unit := visit_nodes store_visit c.
End codec.

(** ** Reading *)

(** [CACHE_NODES] *)
Definition CACHE_NODES : N := 262144.

(** [CacheInner::name], when [alive] tells which nodes something holds *)
Definition name_node (alive : Hash → bool) (h : Hash) (n : Node) (nodes : gmap Hash Node) : gmap Hash Node :=
  if bool_decide (is_Some (nodes !! h)) then <[h := n]> nodes
  else
    let nodes :=
      if CACHE_NODES <=? N.of_nat (size nodes) then
        let live := filter (λ e, alive e.1 = true) nodes in
        if CACHE_NODES / 2 <=? N.of_nat (size live) then ∅ else live
      else nodes in
    <[h := n]> nodes.

(** The names of [CacheInner], and the accesses so far *)
Record ClockNames := { cn_nodes : gmap Hash Node; cn_accesses : nat }.

Section load.
Context `{!NodeCodec}.
Context (others : nat → gmap Hash Node → gmap Hash Node) (alive : nat → Hash → bool).
Context (fetch : Hash → res (option (list N))).
Implicit Types (h : Hash) (b : list N) (n c : Node).

(** Taking the lock of the cache. *)
Definition locked {A} (f : nat → gmap Hash Node → A * gmap Hash Node) : prog ClockNames A :=
  state (λ cn, let '(x, nodes) := f (cn_accesses cn) (others (cn_accesses cn) (cn_nodes cn)) in
               (x, {| cn_nodes := nodes; cn_accesses := S (cn_accesses cn) |})).

(** [nodes.get(hash).and_then(Weak::upgrade)] *)
Definition held_node h : prog ClockNames (option Node) :=
  locked (λ k nodes, (if alive k h then nodes !! h else None, nodes)).

Definition name h n : prog ClockNames unit := locked (λ k nodes, ((), name_node (alive k) h n nodes)).

(** What a branch says of itself, before its children are read, and of them. *)
Definition branch_ok (level bitmap : N) (children : list Hash) : bool :=
  negb (64 <=? level) && bool_decide (2 ≤ length children)%nat && (count_ones bitmap =? length children)%nat.
Fixpoint increasing (ds : list N) : bool :=
  match ds with
  | x :: (y :: _) as ds' => (x <? y) && increasing ds'
  | _ => true
  end.
Definition children_ok (level bitmap len : N) (children : list Node) : bool :=
  (foldl N.lor 0 (bit ∘ digit_of level <$> children) =? bitmap) && (sum_len children =? len) &&
  increasing (digit_of level <$> children).

(** A child shares its parent's nibbles before its level and branches below it. *)
Definition placed (parent : option (N * ActorId)) n : bool :=
  match parent with
  | None => true
  | Some (level, key) =>
      match n with Leaf _ _ => true | Branch child _ _ _ _ => level <? child end &&
      match first_difference (node_key n) key with Some at_ => negb (at_ <? level) | None => true end
  end.

(** [ClockCache::node] *)
Fixpoint load_node (fuel : nat) h (parent : option (N * ActorId)) : prog ClockNames Node :=
  match fuel with
  | O => λ _, None
  | S fuel =>
      held ← held_node h;
      node ← match held with
             | Some node => mret node
             | None =>
                 bytes ← try (fetch h);
                 bytes ← try (ok_or bytes corrupt);
                 if negb (bool_decide (digest bytes = h)) then try (Err corrupt)
                 else
                   e ← try (node_from_bytes bytes);
                   node ← match e with
                          | ELeaf actor seq => mret (Leaf actor seq)
                          | EBranch level bitmap len key children =>
                              if negb (branch_ok level bitmap children) then try (Err corrupt)
                              else
                                children ← traverse (λ child, load_node fuel child (Some (level, key))) children;
                                if children_ok level bitmap len children
                                then mret (Branch level bitmap len key children) else try (Err corrupt)
                          end;
                   _ ← name h node; mret node
             end;
      if placed parent node then mret node else try (Err corrupt)
  end.

(** [ActorClock::load] *)
Definition load_clock (fuel : nat) h : prog ClockNames ActorClock :=
  node ← load_node fuel h None; mret {| root := Some node |}.
End load.

(** The reads of a stored clock within one snapshot *)
Definition fetch_from (st : NodeStore) (h : Hash) : res (option (list N)) := Ok (st !! h).

(** ** Clocks on the wire *)

(** [ActorClock::decode_counted]: the clock of the entries of some actors, and how many
    entries there are; [take_entries] is the decoder of a map, which gives the entries in
    the order of the bytes and what follows them. *)
Definition decode_counted (take_entries : list N → res (list (ActorId * N) * list N)) (bytes : list N)
    (actors : gset ActorId) : res (ActorClock * nat) :=
  '(entries, rest) ← take_entries bytes;
  let selected :=
    foldl (λ (m : gmap ActorId N) '(actor, seq), if decide (actor ∈ actors) then <[actor := seq]> m else m) ∅ entries in
  if negb (bool_decide (rest = [])) then Err (Storage "trailing bytes in stored clock")
  else Ok (from_entries selected, length entries).
