(* ===== verification/ClockStoreInv.v ===== *)
(** * Stored clocks are read back, and nothing else is

    What [load_clock] accepts is a well-formed trie, described node by node by bytes
    under their hashes, whatever the store holds and whatever is cached. A clock that
    [store_clock] wrote is read back, also when other clocks were written before and
    after it and share nodes with it. *)

From S2P Require Import Prelude Ids Nibble Trie Clock Types Programs ClockStore.

#[local] Open Scope N_scope.
Set Default Proof Using "Type".

(** ** Shapes *)

Section shapes.
Implicit Types (n c : Node) (cs : list Node).

Lemma increasing_sorted (ds : list N) : increasing ds = true ↔ StronglySorted N.lt ds.
Proof.
  assert (∀ ds, increasing ds = true ↔ Sorted N.lt ds) as Hs.
  { intros l. induction l as [|x [|y l] IH]; [by split|by split; repeat constructor|].
    cbn [increasing]. rewrite andb_true_iff IH N.ltb_lt. split.
    - intros [? ?]. constructor; [done|by constructor].
    - intros Hs. inversion Hs as [|? ? Hl Hr]; subst. inversion Hr; subst. done. }
  rewrite Hs. split; [|apply StronglySorted_Sorted]. apply Sorted_StronglySorted. intros x y z. apply N.lt_trans.
Qed.

Lemma foldl_lor_bits (ds : list N) acc i :
  N.testbit (foldl N.lor acc (bit <$> ds)) i = true ↔ N.testbit acc i = true ∨ i ∈ ds.
Proof.
  revert acc. induction ds as [|d ds IH]; intros acc; simpl.
  - split; [by left|]. intros [?|?%elem_of_nil]; done.
  - rewrite IH testbit_lor_bit orb_true_iff N.eqb_eq elem_of_cons. tauto.
Qed.

Lemma foldl_lor_names (ds : list N) bm : foldl N.lor 0 (bit <$> ds) = bm ↔ names bm ds.
Proof.
  split.
  - intros <- d. rewrite foldl_lor_bits N.bits_0. split; [by intros [?|?]|by right].
  - intros Hn. apply N.bits_inj. intros i. apply eq_bool_prop_intro. rewrite !Is_true_true foldl_lor_bits N.bits_0 (Hn i).
    split; [by intros [?|?]|by right].
Qed.

(** The place of a node is what a well-formed branch asks of a child. *)
Lemma placed_kid l k c : l < 64 → placed (Some (l, k)) c = true ↔ l < node_level c ∧ agree (node_key c) k l.
Proof.
  intros Hl. unfold placed. rewrite andb_true_iff.
  assert (match c with Leaf _ _ => true | Branch child _ _ _ _ => l <? child end = true ↔ l < node_level c) as ->
    by (destruct c; simpl; [done|by rewrite N.ltb_lt]).
  apply and_iff_compat_l. destruct (first_difference (node_key c) k) as [d|] eqn:Hd.
  - rewrite negb_true_iff N.ltb_ge. split.
    + intros Hle. apply first_difference_Some in Hd as (_ & Ha & _). by eapply agree_le.
    + intros Ha. by eapply first_difference_ge.
  - apply first_difference_None in Hd as ->. split; [intros _; apply agree_refl|done].
Qed.

Lemma count_names bm ds : NoDup ds → (∀ x, x ∈ ds → x < 16) → names bm ds → count_ones bm = length ds.
Proof.
  intros Hnd Hlt Hbm. unfold count_ones. apply Permutation_length, NoDup_Permutation; [apply NoDup_filter, NoDup_digits16|done|].
  intros x. rewrite list_elem_of_filter elem_of_digits16 Is_true_true (Hbm x). naive_solver.
Qed.

(** What the checks on a branch accept, below children in their places, is exactly what
    is well formed. *)
Lemma wf_checks l bm len k (hs : list Hash) cs : length hs = length cs →
  wf (Branch l bm len k cs) ↔
  branch_ok l bm hs = true ∧ children_ok l bm len cs = true ∧ Forall wf cs ∧ Forall (λ c, placed (Some (l, k)) c = true) cs.
Proof.
  intros Hhs. unfold branch_ok, children_ok. rewrite Hhs. rewrite !andb_true_iff negb_true_iff bool_decide_eq_true N.leb_gt
    Nat.eqb_eq !N.eqb_eq increasing_sorted list_fmap_compose foldl_lor_names. split.
  - inversion 1 as [|? ? ? ? ? Hl H2 Hcs [Hkids Hs] Hn ->]; subst. split_and!; try done.
    + rewrite (count_names _ (digit_of l <$> cs)); [by apply StronglySorted_lt_NoDup|apply digit_lt|done|by rewrite length_fmap].
    + eapply Forall_impl; [exact Hkids|]. intros c. by apply placed_kid.
  - intros (([Hl H2] & _) & ((Hn & <-) & Hs) & Hcs & Hp). constructor; try done. split; [|done].
    eapply Forall_impl; [exact Hp|]. intros c. by apply placed_kid.
Qed.

(** Levels go up along every path, so a trie is at most 64 branches deep. *)
Lemma wf_height n : wf n → (height n + N.to_nat (node_level n) ≤ 64)%nat.
Proof.
  induction n as [|l bm len k cs IH] using Node_ind'; inversion 1 as [|? ? ? ? ? Hl H2 Hcs [Hkids _] _ _]; subst; [done|].
  cbn [height node_level].
  assert (Forall (λ c, height c + N.to_nat l < 64)%nat cs) as Hall.
  { rewrite !Forall_forall in IH Hcs Hkids |- *. intros c Hc.
    specialize (IH c Hc (Hcs c Hc)). destruct (Hkids c Hc) as [? _]. lia. }
  assert (N.to_nat l < 64)%nat by lia. clear - Hall H0. induction Hall; simpl; lia.
Qed.
End shapes.

(** ** What stored bytes describe *)

Section described.
Context `{!NodeCodec}.
Implicit Types (h : Hash) (b : list N) (n c : Node) (held : Hash → list N → Prop).

(** The node that is read under [h] when [held] says which bytes are read under a name. *)
Inductive described held : Hash → Node → Prop :=
  | described_leaf h b a s :
      held h b → digest b = h → node_from_bytes b = Ok (ELeaf a s) → described held h (Leaf a s)
  | described_branch h b l bm len k hs cs :
      held h b → digest b = h → node_from_bytes b = Ok (EBranch l bm len k hs) → Forall2 (described held) hs cs →
      described held h (Branch l bm len k cs).

Lemma described_mono held held' h n :
  (∀ h b, held h b → digest b = h → held' h b) → described held h n → described held' h n.
Proof.
  intros Hmono. revert h. induction n as [|l bm len k cs IH] using Node_ind'; intros h Hn;
    inversion Hn as [|? ? ? ? ? ? ? ? ? ? ? Hk]; subst; [eapply described_leaf; eauto|].
  eapply described_branch; [by eauto|done|done|]. clear -IH Hk. induction Hk; [constructor|]. apply Forall_cons in IH as [? ?]. constructor; auto.
Qed.

Lemma described_unique held h n n' :
  (∀ h b1 b2, held h b1 → held h b2 → digest b1 = h → digest b2 = h → b1 = b2) →
  described held h n → described held h n' → n = n'.
Proof.
  intros Hun. revert h n'. induction n as [a s|l bm len k cs IH] using Node_ind'; intros h n' Hn Hn';
    inversion Hn as [? b ? ? Hb Hd He|? b ? ? ? ? hs ? Hb Hd He Hk]; subst;
    inversion Hn' as [? b' ? ? Hb' Hd' He'|? b' ? ? ? ? hs' cs' Hb' Hd' He' Hk']; subst;
    pose proof (Hun _ _ _ Hb Hb' eq_refl Hd') as <-; rewrite He in He'; simplify_eq; [done|].
  f_equal. clear -IH Hk Hk'. revert cs' Hk'. induction Hk as [|h n hs cs Hn Hk IHk]; intros cs' Hk'; inversion Hk'; subst; [done|].
  apply Forall_cons in IH as [IHn IH]. f_equal; [by eapply IHn|by apply IHk].
Qed.
End described.

(** ** Reading *)

(** Naming a node keeps what holds of the nodes with names. *)
Lemma name_node_keeps (P : Hash → Node → Prop) (live : Hash → bool) h n nodes :
  map_Forall P nodes → P h n → map_Forall P (name_node live h n nodes).
Proof.
  intros Hn Hh. unfold name_node.
  assert (map_Forall P (filter (λ e : Hash * Node, live e.1 = true) nodes)) as Hf.
  { intros ? ? [? _]%map_lookup_filter_Some. by eapply Hn. }
  repeat case_match; apply map_Forall_insert_2; done || apply map_Forall_empty.
Qed.

Section load.
Context `{!NodeCodec}.
Context (others : nat → gmap Hash Node → gmap Hash Node) (alive : nat → Hash → bool).
Context (fetch : Hash → res (option (list N))).
Context (written : list N → Prop).
Implicit Types (h : Hash) (b : list N) (n c : Node) (cn : ClockNames).

(** A name leads to what the bytes under it describe, and to a well-formed node. *)
Definition named h n : Prop := wf n ∧ described (λ _, written) h n.
Definition nodes_ok (nodes : gmap Hash Node) : Prop := map_Forall named nodes.
Definition names_ok cn : Prop := nodes_ok (cn_nodes cn).

(** Other readers of the cache keep it so, and what is read was written at some time. *)
Context (others_ok : ∀ k nodes, nodes_ok nodes → nodes_ok (others k nodes)).

Lemma locked_ok {A} (f : nat → gmap Hash Node → A * gmap Hash Node) (Q : A → Prop) cn :
  names_ok cn → (∀ k nodes, nodes_ok nodes → Q (f k nodes).1 ∧ nodes_ok (f k nodes).2) →
  returns (locked others f) (λ x cn', Q x ∧ names_ok cn') cn.
Proof using others_ok.
  intros Hcn Hf. unfold locked, returns, state. destruct (Hf (cn_accesses cn) _ (others_ok (cn_accesses cn) _ Hcn)) as [HQ Hn].
  destruct (f _ _) as [x nodes] eqn:Heq. by exists x, {| cn_nodes := nodes; cn_accesses := S (cn_accesses cn) |}.
Qed.

Lemma held_node_ok h cn :
  names_ok cn → returns (held_node others alive h) (λ o cn', (∀ n, o = Some n → named h n) ∧ names_ok cn') cn.
Proof using others_ok.
  intros Hcn. apply (locked_ok _ (λ o, ∀ n, o = Some n → named h n)); [done|]. intros k nodes Hn. simpl. split; [|done].
  intros n. case_match; [|done]. apply Hn.
Qed.

Lemma name_ok h n cn : names_ok cn → named h n → returns (name others alive h n) (λ _ cn', names_ok cn') cn.
Proof using others_ok.
  intros Hcn Hh. eapply returns_mono; [apply (locked_ok _ (λ _, True)); [done|]|by intros ? ? [_ ?]].
  intros k nodes Hn. split; [done|]. by apply name_node_keeps.
Qed.

(** Whatever is fetched and cached, what is read is well formed and what was asked for. *)
Lemma load_node_sound fuel h parent cn :
  (∀ h b, fetch h = Ok (Some b) → written b) → names_ok cn →
  wlp (load_node others alive fetch fuel h parent) (λ n cn', named h n ∧ placed parent n = true ∧ names_ok cn') cn.
Proof using others_ok.
  intros Hfetch. revert h parent cn. induction fuel as [|fuel IH]; intros h parent cn Hcn; [by intros ? ?|]. cbn [load_node].
  apply wlp_bind. eapply wlp_mono; [by apply returns_wlp, held_node_ok|]. intros o cn1 [Ho Hcn1]. apply wlp_bind.
  apply wlp_mono with (Q := λ n cn', named h n ∧ names_ok cn').
  2: { intros n cn2 [Hn Hcn2]. case_match; [|by apply wlp_try]. by apply wlp_ret. }
  destruct o as [n|]; [by apply wlp_ret; eauto|].
  apply wlp_bind, wlp_try. intros o Hf. apply wlp_bind, wlp_try. intros b ->%ok_or_ok. apply Hfetch in Hf.
  case_match eqn:Hd; [by apply wlp_try|]. apply negb_false_iff, bool_decide_eq_true in Hd.
  apply wlp_bind, wlp_try. intros e He. apply wlp_bind.
  apply wlp_mono with (Q := λ n cn', named h n ∧ names_ok cn').
  2: { intros n cn2 [Hn Hcn2]. apply wlp_bind. eapply wlp_mono; [by apply returns_wlp, name_ok|]. intros [] cn3 Hcn3.
       by apply wlp_ret. }
  destruct e as [a s|l bm len k hs].
  { apply wlp_ret. split; [|done]. split; [constructor|by eapply described_leaf]. }
  case_match eqn:Hbr; [by apply wlp_try|]. apply negb_false_iff in Hbr. apply wlp_bind.
  eapply wlp_mono.
  { apply wlp_traverse with (R := λ h n, named h n ∧ placed (Some (l, k)) n = true) (I := names_ok); [done|].
    intros h' cn2 _ Hcn2. eapply wlp_mono; [by apply IH|]. intros n cn3 (? & ? & ?). done. }
  intros cs cn2 [Hcs Hcn2]. case_match eqn:Hch; [|by apply wlp_try]. apply wlp_ret. split; [|done].
  pose proof (Forall2_length _ _ _ Hcs) as Hlen. split.
  - apply (wf_checks _ _ _ _ hs); [done|]. split_and!; [done..| |].
    + eapply Forall2_Forall_r; [exact Hcs|]. by apply Forall_true; intros ? ? [[? _] _].
    + eapply Forall2_Forall_r; [exact Hcs|]. by apply Forall_true; intros ? ? [_ ?].
  - eapply described_branch; [done..|]. eapply Forall2_impl; [exact Hcs|]. by intros ? ? [[_ ?] _].
Qed.

(** A node that the snapshot holds is read, when the written bytes have different hashes. *)
Context (no_collision : ∀ b1 b2, written b1 → written b2 → digest b1 = digest b2 → b1 = b2).

Lemma named_unique h n n' : named h n → described (λ _, written) h n' → n = n'.
Proof using no_collision.
  intros [_ Hn] Hn'. eapply described_unique; [|done..]. intros ? ? ? ? ? <- ?. by apply no_collision.
Qed.

Lemma load_node_returns fuel h n parent cn :
  described (λ h b, fetch h = Ok (Some b) ∧ written b) h n → wf n → placed parent n = true → (height n < fuel)%nat → names_ok cn →
  returns (load_node others alive fetch fuel h parent) (λ n' cn', n' = n ∧ names_ok cn') cn.
Proof using others_ok no_collision.
  revert h n parent cn. induction fuel as [|fuel IH]; intros h n parent cn Hn Hwf Hp Hh Hcn; [lia|]. cbn [load_node].
  assert (described (λ _, written) h n) as Hw by (eapply described_mono; [|exact Hn]; by intros ? ? [_ ?]).
  apply returns_bind. eapply returns_mono; [by apply held_node_ok|]. intros o cn1 [Ho Hcn1]. apply returns_bind.
  apply returns_mono with (Q := λ n' cn', n' = n ∧ names_ok cn').
  2: { intros ? cn2 [-> Hcn2]. rewrite Hp. by apply returns_ret. }
  destruct o as [n'|].
  { apply returns_ret. split; [|done]. eapply named_unique; [by apply Ho|done]. }
  assert (∃ b, (fetch h = Ok (Some b) ∧ written b) ∧ digest b = h ∧
    match n with
    | Leaf a s => node_from_bytes b = Ok (ELeaf a s)
    | Branch l bm len k cs => ∃ hs, node_from_bytes b = Ok (EBranch l bm len k hs) ∧
        Forall2 (described (λ h b, fetch h = Ok (Some b) ∧ written b)) hs cs
    end) as (b & [Hf Hb] & Hd & He) by (inversion Hn; subst; naive_solver).
  apply returns_bind. eapply returns_try; [done|]. apply returns_bind. eapply returns_try; [done|].
  rewrite (bool_decide_eq_true_2 _ Hd). cbn [negb].
  apply returns_bind.
  destruct n as [a s|l bm len k cs].
  - eapply returns_try; [done|]. apply returns_bind, returns_ret, returns_bind. eapply returns_mono; [by apply name_ok|].
    intros [] cn2 Hcn2. by apply returns_ret.
  - destruct He as (hs & He & Hcs). eapply returns_try; [done|]. pose proof (Forall2_length _ _ _ Hcs) as Hlen.
    pose proof Hwf as (Hbr & Hch & Hwfs & Hps)%(wf_checks _ _ _ _ hs); [|done]. rewrite Hbr. cbn [negb].
    apply returns_bind, returns_bind.
    eapply returns_mono.
    { apply returns_traverse with (I := names_ok) (ys := cs); [done|]. apply Forall2_same_length_lookup_2; [done|].
      intros i h' c Hi Hc. apply Forall2_lookup_lr with (i := i) (x := h') (y := c) in Hcs; [|done..].
      intros cn2 Hcn2. rewrite !Forall_lookup in Hwfs Hps. apply IH; eauto.
      pose proof (height_child l bm len k cs c (list_elem_of_lookup_2 _ _ _ Hc)). lia. }
    intros ? cn2 [-> Hcn2]. rewrite Hch. apply returns_ret, returns_bind. eapply returns_mono; [by apply name_ok|].
    intros [] cn3 Hcn3. by apply returns_ret.
Qed.
End load.

(** ** Writing *)

(** A node and all nodes below it. *)
Fixpoint parts (n : Node) : list Node :=
  n :: match n with Leaf _ _ => [] | Branch _ _ _ _ children => mjoin (parts <$> children) end.

Lemma stack_count_reverse cs : stack_count (reverse cs) = stack_count cs.
Proof.
  induction cs as [|c cs IH]; [done|]. rewrite reverse_cons stack_count_app IH. unfold stack_count. simpl. lia.
Qed.

(** The counters of a node are machine integers. *)
Definition fits (n : Node) : Prop := node_len n ≤ u64_max ∧ Forall (λ e : ActorId * N, e.2 ≤ u64_max) (entries n).

Section store.
Context `{!NodeCodec}.
Context (written : list N → Prop).
Implicit Types (h : Hash) (b : list N) (n c : Node) (st : NodeStore).

Definition storable n : Prop := wf n ∧ fits n ∧ Forall (λ p, written (node_to_bytes (encoded p))) (parts n).

Lemma storable_kids l bm len k cs : storable (Branch l bm len k cs) → Forall storable cs.
Proof.
  intros (Hwf & [Hlen Hseq] & Hw). inversion Hwf as [|? ? ? ? ? _ _ Hwfs _ _ ->]; subst. cbn [parts entries node_len] in *.
  apply Forall_cons in Hw as [_ Hw]. clear Hwf. revert Hlen Hseq Hw Hwfs.
  induction cs as [|c cs IH]; intros Hlen Hseq Hw Hwfs; [constructor|]. cbn [sum_len foldr fmap list_fmap mjoin list_join] in *.
  apply Forall_app in Hseq as [? ?], Hw as [? ?]. apply Forall_cons in Hwfs as [? ?]. fold (sum_len cs) in Hlen.
  constructor; [|apply IH; try done; lia]. split; [done|]. split; [|done]. split; [lia|done].
Qed.

Lemma storable_encodable n : storable n → encodable (encoded n).
Proof.
  intros (Hwf & [Hlen Hseq] & _). destruct n as [a s|l bm len k cs]; simpl in *; [by inversion Hseq|].
  inversion Hwf as [|? ? ? ? ? Hl _ _ _ Hn _]; subst. split_and!; [lia| |done|].
  2: { apply Forall_fmap, Forall_true. intros c. simpl. rewrite node_hash_encoded. apply node_blake3_length. }
  destruct (decide (bm < 65536)) as [|Hge]; [done|]. assert (bm ≠ 0) as Hne by lia.
  pose proof (proj1 (Hn _) (N.bit_log2 bm Hne)) as Hlt%digit_lt.
  assert (16 ≤ N.log2 bm); [|lia]. change 16 with (N.log2 65536). apply N.log2_le_mono. lia.
Qed.

Definition kids_of (e : Encoded) : list Hash := match e with ELeaf _ _ => [] | EBranch _ _ _ _ hs => hs end.

(** Every record is named by its hash, and what it names is stored or among [todo]. *)
Definition closed_but (todo : list Node) st : Prop :=
  ∀ h b, st !! h = Some b → written b ∧ digest b = h ∧
    ∃ e, node_from_bytes b = Ok e ∧ Forall (λ hc, is_Some (st !! hc) ∨ hc ∈ node_hash <$> todo) (kids_of e).
Definition closed st : Prop := closed_but [] st.

Lemma closed_empty : closed ∅.
Proof. by intros h b ?%lookup_empty_Some. Qed.

(** A node that is stored already can be left out, one that is written brings its children. *)
Lemma closed_skip n todo st : is_Some (st !! node_hash n) → closed_but (n :: todo) st → closed_but todo st.
Proof.
  intros Hs Hc h b Hb. destruct (Hc h b Hb) as (? & ? & e & ? & Hk). split_and!; [done..|]. exists e. split; [done|].
  eapply Forall_impl; [exact Hk|]. intros hc. cbn [fmap list_fmap]. rewrite elem_of_cons. intros [?|[->|?]]; auto.
Qed.

Lemma closed_write n todo st :
  storable n → st !! node_hash n = None → closed_but (n :: todo) st →
  closed_but (match n with Leaf _ _ => todo | Branch _ _ _ _ cs => reverse cs ++ todo end)
    (<[node_hash n := node_to_bytes (encoded n)]> st).
Proof.
  intros Hn Hs Hc h b. rewrite lookup_insert_Some. intros [[<- <-]|[Hne Hb]].
  - split_and!; [|by rewrite node_hash_encoded|].
    { destruct Hn as (_ & _ & Hw). destruct n; by apply Forall_cons in Hw as [? _]. }
    exists (encoded n). split; [by apply node_from_to, storable_encodable|].
    destruct n as [|l bm len k cs]; [constructor|]. cbn [encoded kids_of]. apply Forall_forall. intros hc Hin. right.
    rewrite fmap_app fmap_reverse elem_of_app elem_of_reverse. by left.
  - destruct (Hc h b Hb) as (? & ? & e & ? & Hk). split_and!; [done..|]. exists e. split; [done|].
    eapply Forall_impl; [exact Hk|]. intros hc. cbn [fmap list_fmap]. rewrite elem_of_cons lookup_insert_is_Some.
    destruct (decide (node_hash n = hc)) as [|Hne']; [by left; left|]. intros [?|[?|?]]; [by left; right|done|].
    right. destruct n; [done|]. rewrite fmap_app elem_of_app. by right.
Qed.

Lemma store_loop fuel stack st :
  (stack_count stack < fuel)%nat → Forall storable stack → closed_but stack st →
  returns (loop fuel (visit_step store_visit) stack)
    (λ _ st', st ⊆ st' ∧ closed st' ∧ Forall (λ n, is_Some (st' !! node_hash n)) stack) st.
Proof.
  revert stack st. induction fuel as [|fuel IH]; intros stack st Hf Hst Hc; [lia|]. cbn [loop]. apply returns_bind.
  destruct stack as [|n stack].
  { apply returns_ret, returns_ret. split_and!; done. }
  apply Forall_cons in Hst as [Hn Hst].
  assert (∀ todo st1, (stack_count todo < fuel)%nat → Forall storable todo → closed_but todo st1 → st ⊆ st1 →
    is_Some (st1 !! node_hash n) → (∀ m, m ∈ stack → m ∈ todo) →
    returns (loop fuel (visit_step store_visit) todo)
      (λ _ st', st ⊆ st' ∧ closed st' ∧ Forall (λ n, is_Some (st' !! node_hash n)) (n :: stack)) st1) as Hgo.
  { intros todo st1 Hf1 Hst1 Hc1 Hsub [b Hb] Hin. eapply returns_mono; [by apply IH|]. intros _ st' (? & ? & Hall).
    split_and!; [by etrans|done|]. constructor; [by exists b; eapply lookup_weaken|].
    rewrite Forall_forall in Hall. apply Forall_forall. auto. }
  cbn [visit_step]. apply returns_bind. unfold store_visit. apply returns_bind.
  exists (bool_decide (is_Some (st !! node_hash n))), st. split; [done|].
  assert (stack_count stack < fuel)%nat as Hless.
  { pose proof (node_count_pos n). unfold stack_count in *. simpl in Hf. lia. }
  case_bool_decide as Hs; [|apply eq_None_not_Some in Hs].
  - apply returns_ret, returns_ret, Hgo; try done. by eapply closed_skip.
  - apply returns_bind. exists (), (<[node_hash n := node_to_bytes (encoded n)]> st). split; [done|]. apply returns_ret.
    pose proof (closed_write n stack st Hn Hs Hc) as Hw.
    assert (st ⊆ <[node_hash n := node_to_bytes (encoded n)]> st) by by apply insert_subseteq.
    assert (is_Some (<[node_hash n := node_to_bytes (encoded n)]> st !! node_hash n)) by by rewrite lookup_insert_eq.
    destruct n as [a s|l bm len k cs]; apply returns_ret, Hgo; try done.
    + rewrite stack_count_app stack_count_reverse. unfold stack_count in *. simpl in Hf. lia.
    + apply Forall_app. split; [|done]. apply Forall_reverse. by eapply storable_kids.
    + intros m Hm. apply elem_of_app. by right.
Qed.
End store.

(** ** Round trip *)

(** Storing several clocks, one after the other. *)
Definition store_clocks `{!NodeCodec} (cs : list ActorClock) : prog NodeStore (list unit) := traverse store_clock cs.

Section roundtrip.
Context `{!NodeCodec}.
Context (written : list N → Prop).
Context (no_collision : ∀ b1 b2, written b1 → written b2 → digest b1 = digest b2 → b1 = b2).
Implicit Types (h : Hash) (b : list N) (n : Node) (c : ActorClock) (st : NodeStore).

Definition clock_storable c : Prop := ∀ n, root c = Some n → storable written n.

Lemma store_clock_returns c st :
  clock_storable c → closed written st →
  returns (store_clock c) (λ _ st', st ⊆ st' ∧ closed written st' ∧ ∀ h, root_hash c = Some h → is_Some (st' !! h)) st.
Proof using Type.
  intros Hc Hst. unfold store_clock, visit_nodes. eapply returns_mono; [apply store_loop with (written := written); [lia| |]|].
  - unfold clock_storable in Hc. destruct (root c) as [n|]; simpl; [|constructor]. apply Forall_singleton. by apply Hc.
  - intros h b Hb. destruct (Hst h b Hb) as (? & ? & e & ? & Hk). split_and!; [done..|]. exists e. split; [done|].
    eapply Forall_impl; [exact Hk|]. intros hc [?|?%elem_of_nil]; [by left|done].
  - intros ? st' (? & ? & Hall). split_and!; [done..|]. unfold root_hash. destruct (root c) as [n|]; [|done].
    intros h [= <-]. by inversion Hall.
Qed.

Lemma store_clocks_returns cs st :
  Forall clock_storable cs → closed written st →
  returns (store_clocks cs) (λ _ st', st ⊆ st' ∧ closed written st' ∧
    ∀ c h, c ∈ cs → root_hash c = Some h → is_Some (st' !! h)) st.
Proof using Type.
  intros Hcs. revert st. induction Hcs as [|c cs Hc _ IH]; intros st Hst.
  { apply returns_ret. split_and!; [done..|]. by intros ? ? ?%elem_of_nil. }
  unfold store_clocks. cbn [traverse]. apply returns_bind. eapply returns_mono; [by apply store_clock_returns|].
  intros ? st1 (Hsub1 & Hst1 & Hr1). apply returns_bind. eapply returns_mono; [by apply IH|].
  intros ? st2 (Hsub2 & Hst2 & Hr2). apply returns_ret. split_and!; [by etrans|done|].
  intros c' h [->|Hin]%elem_of_cons Hh; [|by eapply Hr2]. destruct (Hr1 h Hh) as [b Hb]. exists b. by eapply lookup_weaken.
Qed.

(** Under the name of a node are its own bytes. *)
Lemma closed_bytes st n b : closed written st → storable written n → st !! node_hash n = Some b → b = node_to_bytes (encoded n).
Proof using no_collision.
  intros Hst (_ & _ & Hp) Hb. destruct (Hst _ _ Hb) as (Hw & Hd & _). apply no_collision; [done| |by rewrite Hd node_hash_encoded].
  destruct n; by apply Forall_cons in Hp as [? _].
Qed.

(** In a closed store a node whose name is stored can be read in full. *)
Lemma closed_described st n :
  closed written st → storable written n → is_Some (st !! node_hash n) →
  described (λ h b, fetch_from st h = Ok (Some b) ∧ written b) (node_hash n) n.
Proof using no_collision.
  intros Hst. induction n as [a s|l bm len k cs IH] using Node_ind'; intros Hn [b Hb];
    destruct (Hst _ _ Hb) as (Hw & Hd & e & He & Hk); pose proof Hn as Henc%storable_encodable;
    pose proof (closed_bytes _ _ _ Hst Hn Hb) as Heq; subst b; rewrite node_from_to // in He; injection He as <-.
  - eapply described_leaf; [|done|by apply node_from_to]. split; [|done]. unfold fetch_from. by rewrite Hb.
  - eapply described_branch; [|done|by apply node_from_to|].
    { split; [|done]. unfold fetch_from. by rewrite Hb. }
    apply storable_kids in Hn. clear -IH Hn Hk. cbn [encoded kids_of] in Hk.
    induction cs as [|c cs IHcs]; [constructor|]. cbn [fmap list_fmap] in *.
    apply Forall_cons in IH as [? ?], Hn as [? ?], Hk as [[?|?%elem_of_nil] ?]; [|done]. constructor; auto.
Qed.

Lemma storable_described n : storable written n → described (λ _, written) (node_hash n) n.
Proof using Type.
  induction n as [a s|l bm len k cs IH] using Node_ind'; intros Hn; pose proof Hn as Henc%storable_encodable;
    pose proof Hn as (_ & _ & [Hw _]%Forall_cons).
  - by eapply described_leaf; [exact Hw| |by apply node_from_to].
  - eapply described_branch; [exact Hw|done|by apply node_from_to|].
    apply storable_kids in Hn. clear -IH Hn. induction cs as [|c cs IHcs]; [constructor|].
    apply Forall_cons in IH as [? ?], Hn as [? ?]. cbn [fmap list_fmap]. constructor; auto.
Qed.
End roundtrip.

(** ** Clocks on the wire *)

Lemma select_entries (actors : gset ActorId) (l : list (ActorId * N)) (m : gmap ActorId N) a :
  NoDup l.*1 →
  foldl (λ (m : gmap ActorId N) '(actor, seq), if decide (actor ∈ actors) then <[actor := seq]> m else m) m l !! a =
  if decide (a ∈ actors) then match (list_to_map l : gmap ActorId N) !! a with Some s => Some s | None => m !! a end else m !! a.
Proof.
  revert m. induction l as [|[x s] l IH]; intros m; simpl; [by case_decide|]. intros [Hx Hnd]%NoDup_cons.
  rewrite IH //. destruct (decide (a = x)) as [->|Hne].
  - rewrite lookup_insert_eq (not_elem_of_list_to_map_1 _ _ Hx). case_decide; [by rewrite lookup_insert_eq|done].
  - rewrite (lookup_insert_ne (list_to_map l)) //. case_decide as Ha; case_decide; by rewrite ?lookup_insert_ne.
Qed.

(** Decoding the part of a clock gives that part, and counts the whole. *)
Lemma decode_counted_spec take_entries bytes c actors :
  wf_clock c → take_entries bytes = Ok (iter c, []) →
  ∃ d, decode_counted take_entries bytes actors = Ok (d, N.to_nat (len c)) ∧ wf_clock d ∧
    clock_map d = filter (λ e, e.1 ∈ actors) (clock_map c).
Proof.
  intros Hc Ht. unfold decode_counted. rewrite Ht. res_step. rewrite bool_decide_eq_true_2 //. cbn [negb].
  eexists. rewrite clock_len // Nat2N.id. split; [done|]. edestruct from_entries_spec as [Hw ->]. split; [done|].
  apply map_eq. intros a. rewrite select_entries; [by apply iter_NoDup|]. rewrite lookup_empty map_lookup_filter /clock_map.
  case_decide as Ha; destruct (list_to_map (iter c) !! a); simpl; [by rewrite option_guard_True|done|by rewrite option_guard_False|done].
Qed.

(** C18: Clocks written one after the other, sharing nodes with each other and with what a
    store holds, are written completely, and each of them is read back from the store under
    its root hash, whatever the cache holds and other readers do to it meanwhile: reading
    needs no more than 65 nested calls. Assumed is that blake3 has no collision among the
    byte strings that are ever written. *)
Theorem stored_clocks_load `{!NodeCodec} (written : list N → Prop)
    (others : nat → gmap Hash Node → gmap Hash Node) (alive : nat → Hash → bool) (cs : list ActorClock) (st0 : NodeStore) :
  (∀ b1 b2, written b1 → written b2 → digest b1 = digest b2 → b1 = b2) →
  (∀ k nodes, nodes_ok written nodes → nodes_ok written (others k nodes)) →
  closed written st0 → Forall (clock_storable written) cs →
  ∃ r st, store_clocks cs st0 = Some (Ok (r, st)) ∧ st0 ⊆ st ∧ closed written st ∧
    ∀ c h cn, c ∈ cs → root_hash c = Some h → names_ok written cn →
      ∃ cn', load_clock others alive (fetch_from st) 65 h cn = Some (Ok (c, cn')) ∧ names_ok written cn'.
Proof.
  intros Hcol Hoth Hst0 Hcs. destruct (store_clocks_returns written cs st0 Hcs Hst0) as (r & st & Hrun & Hsub & Hst & Hr).
  exists r, st. split_and!; [done..|]. intros c h cn Hc Hh Hcn. specialize (Hr c h Hc Hh).
  rewrite Forall_forall in Hcs. specialize (Hcs c Hc). unfold root_hash in Hh. unfold clock_storable in Hcs.
  destruct c as [[n|]]; [|done]. simpl in *. injection Hh as <-. specialize (Hcs n eq_refl).
  pose proof Hcs as (Hwf & _ & _). pose proof (wf_height n Hwf) as Hh.
  destruct (load_node_returns others alive (fetch_from st) written Hoth Hcol 65 (node_hash n) n None cn)
    as (n' & cn' & Hl & -> & Hcn'); [by apply closed_described|done|done|lia|done|].
  exists cn'. split; [|done]. unfold load_clock, mbind, prog_bind. by rewrite Hl.
Qed.

(** C19: Whatever the store answers, damaged or forged, and whatever is cached, a clock
    that is read is well formed and is the clock its name stands for: if a clock with that
    root hash was ever written, it is that clock. *)
Theorem load_only_stored `{!NodeCodec} (written : list N → Prop)
    (others : nat → gmap Hash Node → gmap Hash Node) (alive : nat → Hash → bool)
    (fetch : Hash → res (option (list N))) fuel (h : Hash) (cn : ClockNames) c cn' :
  (∀ b1 b2, written b1 → written b2 → digest b1 = digest b2 → b1 = b2) →
  (∀ k nodes, nodes_ok written nodes → nodes_ok written (others k nodes)) →
  (∀ h b, fetch h = Ok (Some b) → written b) → names_ok written cn →
  load_clock others alive fetch fuel h cn = Some (Ok (c, cn')) →
  wf_clock c ∧ names_ok written cn' ∧ ∀ d, clock_storable written d → root_hash d = Some h → c = d.
Proof.
  intros Hcol Hoth Hfetch Hcn Hl. unfold load_clock in Hl. apply prog_bind_ok in Hl as (n & cn1 & Hl & Heq).
  injection Heq as <- <-. apply load_node_sound with (written := written) in Hl as (Hn & _ & Hcn'); [|done..].
  split_and!; [|done|].
  - intros ? [= <-]. by destruct Hn.
  - intros [[m|]]; [|done]. intros Hm [= Hh]. do 2 f_equal. specialize (Hm m eq_refl).
    eapply named_unique; [done|exact Hn|]. rewrite -Hh. by apply storable_described.
Qed.
