(* ===== verification/ClockKeep.v ===== *)
(** * The clocks a cache retains ([clock_store.rs]: [keep], [remember], [release], [trim])

    The cache of stored clocks holds the latest clocks within a limit of bytes. Clocks
    share nodes, so it counts, for each node in memory, the retained parents and roots
    that lead to it, and charges a node once.

    Nodes here are allocations: a tree with the address of every node. An address is
    free again once nothing holds its node, so what stands at an address is known only
    for the time something holds it. Capacities of tables and vectors are the allocator's;
    [tables] is what they amount to at each look. A count or a sum that would go below
    zero stops a program of the model without result. *)

From S2P Require Import Prelude Ids Nibble Trie Clock Types Programs ClockStore.

#[local] Open Scope N_scope.
Set Default Proof Using "Type".

(** [Arc<Node>]: an allocation, with the hash its cell holds or will hold and the
    capacity of its children *)
Inductive Arc :=
  | ALeaf (address : N) (hash : Hash) (actor : ActorId) (seq : N)
  | ABranch (address : N) (hash : Hash) (level bitmap len : N) (key : ActorId) (capacity : N) (children : list Arc).

Definition address (n : Arc) : N := match n with ALeaf a _ _ _ | ABranch a _ _ _ _ _ _ _ => a end.
Definition arc_hash (n : Arc) : Hash := match n with ALeaf _ h _ _ | ABranch _ h _ _ _ _ _ _ => h end.
Definition arc_children (n : Arc) : list Arc := match n with ALeaf _ _ _ _ => [] | ABranch _ _ _ _ _ _ _ cs => cs end.
Fixpoint arc_node (n : Arc) : Node :=
  match n with
  | ALeaf _ _ actor seq => Leaf actor seq
  | ABranch _ _ level bitmap len key _ children => Branch level bitmap len key (arc_node <$> children)
  end.
Fixpoint arc_count (n : Arc) : nat :=
  match n with
  | ALeaf _ _ _ _ => 1
  | ABranch _ _ _ _ _ _ _ children => S (foldr (λ c s, arc_count c + s)%nat O children)
  end.

(** [CachedNode] *)
Record CachedNode := { references : N; is_root : bool }.

(** [CacheInner], and the accesses so far *)
Record CacheInner := {
  ci_nodes : gmap Hash Node;
  ci_latest : list Arc;
  ci_retained : gmap N CachedNode;
  ci_bytes : N;
  ci_accesses : nat;
}.

Definition no_clocks : CacheInner :=
  {| ci_nodes := ∅; ci_latest := []; ci_retained := ∅; ci_bytes := 0; ci_accesses := 0 |}.

(** [CACHE_BYTES] and [ENTRY_BYTES] *)
Definition CACHE_BYTES : N := 64 * 1024 * 1024.
Definition ENTRY_BYTES : N := 512.

Section keep.
Context (size_of_Node : N) (tables : nat → N) (alive : nat → Hash → bool).

(** [Node::bytes] *)
Definition arc_bytes (n : Arc) : N :=
  size_of_Node + 2 * 8 + 16 + match n with ALeaf _ _ _ _ => 0 | ABranch _ _ _ _ _ _ capacity _ => capacity * 8 + 16 end.

(** [CacheInner::root_bytes] *)
Definition root_bytes (ci : CacheInner) : N := ci_bytes ci + tables (ci_accesses ci).

Definition with_retained (f : gmap N CachedNode → gmap N CachedNode) (ci : CacheInner) : CacheInner :=
  {| ci_nodes := ci_nodes ci; ci_latest := ci_latest ci; ci_retained := f (ci_retained ci); ci_bytes := ci_bytes ci;
     ci_accesses := ci_accesses ci |}.
Definition with_latest (l : list Arc) (ci : CacheInner) : CacheInner :=
  {| ci_nodes := ci_nodes ci; ci_latest := l; ci_retained := ci_retained ci; ci_bytes := ci_bytes ci;
     ci_accesses := ci_accesses ci |}.
Definition accessed (ci : CacheInner) : CacheInner :=
  {| ci_nodes := ci_nodes ci; ci_latest := ci_latest ci; ci_retained := ci_retained ci; ci_bytes := ci_bytes ci;
     ci_accesses := S (ci_accesses ci) |}.

(** [if let Some(node) = self.retained.get_mut(address) { node.root = root; }] *)
Definition mark_root (root : bool) (n : Arc) : prog CacheInner unit :=
  modify (with_retained (alter (λ held, {| references := references held; is_root := root |}) (address n))).

(** [CacheInner::remember] *)
Definition remember_step (stack : list Arc) : prog CacheInner (list Arc + unit) :=
  match stack with
  | [] => mret (inr ())
  | node :: stack =>
      held ← gets (λ ci, ci_retained ci !! address node);
      match held with
      | Some held =>
          _ ← modify (with_retained (insert (address node) {| references := references held + 1; is_root := is_root held |}));
          mret (inl stack)
      | None =>
          _ ← modify (λ ci,
            {| ci_nodes := name_node (alive (ci_accesses ci)) (arc_hash node) (arc_node node) (ci_nodes ci);
               ci_latest := ci_latest ci;
               ci_retained := <[address node := {| references := 1; is_root := false |}]> (ci_retained ci);
               ci_bytes := ci_bytes ci + arc_bytes node;
               ci_accesses := S (ci_accesses ci) |});
          mret (inl (reverse (arc_children node) ++ stack))
      end
  end.
Definition remember (root : Arc) : prog CacheInner unit := loop (S (arc_count root)) remember_step [root].

(** [CacheInner::release] *)
Definition release_step (stack : list Arc) : prog CacheInner (list Arc + unit) :=
  match stack with
  | [] => mret (inr ())
  | node :: stack =>
      held ← gets (λ ci, ci_retained ci !! address node);
      kept ← match held with
             | Some held =>
                 if references held =? 0 then λ _, None
                 else
                   let references := references held - 1 in
                   _ ← modify (with_retained (insert (address node) {| references := references; is_root := is_root held |}));
                   mret (negb (references =? 0))
             | None => mret false
             end;
      if kept : bool then mret (inl stack)
      else
        _ ← (λ ci,
          if ci_bytes ci <? arc_bytes node then None
          else Some (Ok ((),
            {| ci_nodes := ci_nodes ci; ci_latest := ci_latest ci; ci_retained := delete (address node) (ci_retained ci);
               ci_bytes := ci_bytes ci - arc_bytes node; ci_accesses := ci_accesses ci |}))) : prog CacheInner unit;
        mret (inl (reverse (arc_children node) ++ stack))
  end.
Definition release (root : Arc) : prog CacheInner unit :=
  _ ← mark_root false root;
  loop (S (arc_count root)) release_step [root].

(** [CacheInner::trim]; shrinking tables changes their capacities only. *)
Definition trim_step (limit : N) (_ : unit) : prog CacheInner (unit + unit) :=
  over ← state (λ ci, (limit <? root_bytes ci, accessed ci));
  if negb over then mret (inr ())
  else
    oldest ← state (λ ci, match ci_latest ci with [] => (None, ci) | root :: l => (Some root, with_latest l ci) end);
    match oldest with
    | None => mret (inr ())
    | Some root => _ ← release root; mret (inl ())
    end.
Definition trim (limit : N) : prog CacheInner unit := loop_upto (λ ci, S (length (ci_latest ci))) (trim_step limit) ().

(** [ClockCache::keep] *)
Definition keep (clock : option Arc) : prog CacheInner unit :=
  match clock with
  | None => mret ()
  | Some root =>
      if CACHE_BYTES <? saturating_mul (node_len (arc_node root)) ENTRY_BYTES then mret ()
      else
        held ← gets (λ ci, ci_retained ci !! address root);
        if from_option is_root false held then mret ()
        else
          _ ← remember root;
          _ ← mark_root true root;
          _ ← modify (λ ci, with_latest (ci_latest ci ++ [root]) ci);
          trim CACHE_BYTES
  end.
End keep.
