(* ===== verification/ClockKeepInv.v ===== *)
(** * What the clock cache retains is what its clocks hold

    Every count of the cache is the number of retained parents and roots that lead to a
    node, so a node stays exactly as long as a latest clock holds it, and the bytes
    charged are those of the nodes the latest clocks reach, each once. *)

From S2P Require Import Prelude Ids Nibble Trie Clock Types Programs ClockStore ClockStoreInv ClockKeep.

#[local] Open Scope N_scope.
Set Default Proof Using "Type".

(** ** Occurrences and sums *)

Definition occ (a : N) (l : list N) : N := foldr (λ x s, (if decide (x = a) then 1 else 0) + s) 0 l.

Lemma occ_cons a x l : occ a (x :: l) = (if decide (x = a) then 1 else 0) + occ a l.
Proof. done. Qed.
Lemma occ_app a l l' : occ a (l ++ l') = occ a l + occ a l'.
Proof. induction l as [|x l IH]; simpl; [lia|]. rewrite IH. lia. Qed.
Lemma occ_reverse a l : occ a (reverse l) = occ a l.
Proof. induction l as [|x l IH]; [done|]. rewrite reverse_cons occ_app IH. simpl. lia. Qed.
Lemma occ_pos a l : a ∈ l ↔ 1 ≤ occ a l.
Proof.
  induction l as [|x l IH]; simpl; [split; [by intros ?%elem_of_nil|lia]|].
  rewrite elem_of_cons IH. destruct (decide (x = a)) as [->|]; [split; [lia|by left]|].
  split; [intros [?|?]; [congruence|lia]|right; lia].
Qed.

(** The sum of [f] over the keys of a map. *)
Definition weigh {A} (f : N → N) (m : gmap N A) : N := map_fold (λ p _ s, f p + s) 0 m.

Section weigh.
Context {A : Type} (f : N → N).
Implicit Types (m : gmap N A).

Lemma weigh_empty : weigh f (∅ : gmap N A) = 0.
Proof. by rewrite /weigh map_fold_empty. Qed.
Lemma weigh_insert m p x : m !! p = None → weigh f (<[p := x]> m) = f p + weigh f m.
Proof. intros Hp. unfold weigh. rewrite map_fold_insert_L //. intros. lia. Qed.
Lemma weigh_delete m p x : m !! p = Some x → weigh f m = f p + weigh f (delete p m).
Proof. intros Hp. rewrite -{1}(insert_delete_id m p x Hp) weigh_insert //. apply lookup_delete_eq. Qed.
Lemma weigh_update m p x y : m !! p = Some x → weigh f (<[p := y]> m) = weigh f m.
Proof.
  intros Hp. rewrite (weigh_delete _ _ _ Hp) -insert_delete_eq weigh_insert //. apply lookup_delete_eq.
Qed.
Lemma weigh_pos m p : is_Some (m !! p) → f p ≤ weigh f m.
Proof. intros [x Hp]. rewrite (weigh_delete _ _ _ Hp). lia. Qed.
Lemma weigh_witness m : 1 ≤ weigh f m → ∃ p, is_Some (m !! p) ∧ 1 ≤ f p.
Proof.
  induction m as [|p x m Hp IH] using map_ind; [by rewrite weigh_empty|]. rewrite weigh_insert //. intros Hw.
  destruct (decide (f p = 0)) as [Hz|]; [|exists p; rewrite lookup_insert_eq; eauto with lia].
  destruct IH as (q & Hq & ?); [lia|]. exists q. rewrite lookup_insert_is_Some. split; [|done].
  destruct (decide (p = q)); [by left|by right].
Qed.
End weigh.

Lemma weigh_ext {A} (f g : N → N) (m : gmap N A) : (∀ p, is_Some (m !! p) → f p = g p) → weigh f m = weigh g m.
Proof.
  induction m as [|p x m Hp IH] using map_ind; intros Hfg; [by rewrite !weigh_empty|].
  rewrite !weigh_insert // IH ?Hfg //; [|by rewrite lookup_insert_eq].
  intros q Hq. apply Hfg. rewrite lookup_insert_is_Some. destruct (decide (p = q)); [by left|by right].
Qed.

(** ** Trees in memory *)

Section Arc_ind.
Context (P : Arc → Prop) (HP : ∀ n, Forall P (arc_children n) → P n).
Fixpoint Arc_ind' (n : Arc) : P n :=
  HP n match n with
       | ALeaf _ _ _ _ => Forall_nil_2 P
       | ABranch _ _ _ _ _ _ _ cs =>
           (fix go cs : Forall P cs :=
              match cs with
              | [] => Forall_nil_2 P
              | c :: cs' => Forall_cons_2 P c cs' (Arc_ind' c) (go cs')
              end) cs
       end.
End Arc_ind.

Fixpoint arc_parts (n : Arc) : list Arc :=
  n :: match n with ALeaf _ _ _ _ => [] | ABranch _ _ _ _ _ _ _ cs => mjoin (arc_parts <$> cs) end.

Lemma elem_of_arc_parts n p : p ∈ arc_parts n ↔ p = n ∨ ∃ c, c ∈ arc_children n ∧ p ∈ arc_parts c.
Proof.
  destruct n as [|? ? ? ? ? ? ? cs]; cbn [arc_parts arc_children]; rewrite elem_of_cons.
  - split; [intros [?|?%elem_of_nil]; by left|]. intros [?|(? & ?%elem_of_nil & _)]; by left.
  - rewrite list_elem_of_join. split; (intros [?|?]; [by left|right]).
    + destruct H as (l & Hp & (c & -> & ?)%list_elem_of_fmap). by exists c.
    + destruct H as (c & ? & ?). exists (arc_parts c). split; [done|]. by apply list_elem_of_fmap_2.
Qed.

Lemma arc_parts_self n : n ∈ arc_parts n.
Proof. apply elem_of_arc_parts. by left. Qed.

Definition arcs_count (stack : list Arc) : nat := foldr (λ c s, arc_count c + s)%nat O stack.
Lemma arcs_count_app s1 s2 : arcs_count (s1 ++ s2) = (arcs_count s1 + arcs_count s2)%nat.
Proof. unfold arcs_count. induction s1; simpl; lia. Qed.
Lemma arcs_count_reverse s : arcs_count (reverse s) = arcs_count s.
Proof. induction s as [|n s IH]; [done|]. rewrite reverse_cons arcs_count_app IH. unfold arcs_count. simpl. lia. Qed.
Lemma arcs_count_children n : arc_count n = S (arcs_count (arc_children n)).
Proof. by destruct n. Qed.

(** ** Counts *)

Section accounts.
Context (size_of_Node : N) (tables : nat → N) (alive : nat → Hash → bool).
(** What stands at an address, and what holds of a node under its hash *)
Context (mem : N → option Arc) (P : Hash → Node → Prop).
Implicit Types (n root : Arc) (ci : CacheInner) (stack : list Arc) (R : gmap N CachedNode).

Abbreviation arc_bytes := (arc_bytes size_of_Node).

Definition resident n : Prop :=
  ∀ p, p ∈ arc_parts n → mem (address p) = Some p ∧ P (arc_hash p) (arc_node p).

Lemma resident_mem n : resident n → mem (address n) = Some n.
Proof. intros Hn. apply Hn, arc_parts_self. Qed.
Lemma resident_children n : resident n → Forall resident (arc_children n).
Proof. intros Hn. apply Forall_forall. intros c Hc p Hp. apply Hn, elem_of_arc_parts. right. by exists c. Qed.

Definition kids (a : N) : list N := from_option (λ n, address <$> arc_children n) [] (mem a).
Definition refs R (a : N) : N := from_option references 0 (R !! a).
Definition edges R (a : N) : N := weigh (λ p, occ a (kids p)) R.
Definition charge R : N := weigh (λ p, from_option arc_bytes 0 (mem p)) R.

(** The counts of a cache whose roots are [roots], less those that are still to be
    counted ([due]) and more those still to be given back ([surplus]). *)
Record accounted (roots due surplus : list N) ci : Prop := {
  ac_balance a : refs (ci_retained ci) a + occ a due = occ a roots + edges (ci_retained ci) a + occ a surplus;
  ac_counted a r : ci_retained ci !! a = Some r → 1 ≤ references r;
  ac_resident a : is_Some (ci_retained ci !! a) → ∃ n, mem a = Some n ∧ address n = a ∧ resident n;
  ac_bytes : ci_bytes ci = charge (ci_retained ci);
  ac_latest : Forall resident (ci_latest ci);
  ac_NoDup : NoDup (address <$> ci_latest ci);
  ac_held a : a ∈ address <$> ci_latest ci → is_Some (ci_retained ci !! a);
  ac_roots a r : ci_retained ci !! a = Some r → is_root r = true ↔ a ∈ address <$> ci_latest ci;
  ac_names : map_Forall P (ci_nodes ci);
}.

(** Between operations *)
Definition settled ci : Prop := accounted (address <$> ci_latest ci) [] [] ci.

Lemma refs_insert R a r a' : refs (<[a := r]> R) a' = if decide (a = a') then references r else refs R a'.
Proof. unfold refs. case_decide as Heq; [by rewrite Heq lookup_insert_eq|by rewrite lookup_insert_ne]. Qed.
Lemma refs_delete R a a' : refs (delete a R) a' = if decide (a = a') then 0 else refs R a'.
Proof. unfold refs. case_decide as Heq; [by rewrite Heq lookup_delete_eq|by rewrite lookup_delete_ne]. Qed.
Lemma refs_Some R a r : R !! a = Some r → refs R a = references r.
Proof. unfold refs. by intros ->. Qed.
Lemma refs_None R a : R !! a = None → refs R a = 0.
Proof. unfold refs. by intros ->. Qed.
Lemma kids_resident n : resident n → kids (address n) = address <$> arc_children n.
Proof. intros Hn%resident_mem. unfold kids. by rewrite Hn. Qed.

(** Changing a count changes nothing but the balance. *)
Lemma accounted_count roots due surplus due' surplus' ci a r count :
  ci_retained ci !! a = Some r → accounted roots due surplus ci → 1 ≤ count →
  (∀ a', (if decide (a = a') then count else refs (ci_retained ci) a') + occ a' due' =
         occ a' roots + edges (ci_retained ci) a' + occ a' surplus') →
  accounted roots due' surplus' (with_retained (insert a {| references := count; is_root := is_root r |}) ci).
Proof.
  intros Ha [] Hcount Hbal. constructor; simpl; try done.
  - intros a'. rewrite refs_insert /edges (weigh_update _ _ _ _ _ Ha). simpl. apply Hbal.
  - intros a' r'. rewrite lookup_insert_Some. intros [[<- <-]|[_ ?]]; [done|by eauto].
  - intros a'. rewrite lookup_insert_is_Some. intros [<-|[_ ?]]; eauto.
  - by rewrite /charge (weigh_update _ _ _ _ _ Ha).
  - intros a' Ha'. rewrite lookup_insert_is_Some. destruct (decide (a = a')); [by left|right; eauto].
  - intros a' r'. rewrite lookup_insert_Some. intros [[<- <-]|[_ ?]]; simpl; eauto.
Qed.

(** A node that is met for the first time: its children are to be counted. *)
Lemma accounted_meet roots stack ci n :
  ci_retained ci !! address n = None → resident n → accounted roots (address <$> n :: stack) [] ci →
  accounted roots (address <$> reverse (arc_children n) ++ stack) []
    {| ci_nodes := name_node (alive (ci_accesses ci)) (arc_hash n) (arc_node n) (ci_nodes ci);
       ci_latest := ci_latest ci;
       ci_retained := <[address n := {| references := 1; is_root := false |}]> (ci_retained ci);
       ci_bytes := ci_bytes ci + arc_bytes n;
       ci_accesses := S (ci_accesses ci) |}.
Proof.
  intros Ha Hn []. constructor; simpl; try done.
  - intros a. specialize (ac_balance0 a). cbn [fmap list_fmap occ foldr] in ac_balance0.
    rewrite refs_insert /edges weigh_insert // fmap_app fmap_reverse occ_app occ_reverse kids_resident //. simpl.
    fold (edges (ci_retained ci) a). fold (occ a (address <$> stack)) in ac_balance0.
    destruct (decide (address n = a)) as [<-|]; [rewrite (refs_None _ _ Ha) in ac_balance0|]; lia.
  - intros a r. rewrite lookup_insert_Some. intros [[_ <-]|[_ ?]]; [done|by eauto].
  - intros a. rewrite lookup_insert_is_Some. intros [<-|[_ ?]]; [|by eauto]. exists n. split_and!; [by apply resident_mem|done..].
  - rewrite /charge weigh_insert // (resident_mem _ Hn) ac_bytes0. simpl. unfold charge. lia.
  - intros a Hin. rewrite lookup_insert_is_Some. destruct (decide (address n = a)); [by left|right; eauto].
  - intros a r. rewrite lookup_insert_Some. intros [[<- <-]|[_ ?]]; [|by eauto]. simpl. split; [done|].
    intros [r Hr]%ac_held0. by rewrite Ha in Hr.
  - apply name_node_keeps; [done|]. by apply (Hn n), arc_parts_self.
Qed.

Lemma remember_loop roots fuel stack ci :
  (arcs_count stack < fuel)%nat → Forall resident stack → accounted roots (address <$> stack) [] ci →
  returns (loop fuel (remember_step size_of_Node alive) stack)
    (λ _ ci', accounted roots [] [] ci' ∧ ci_latest ci' = ci_latest ci) ci.
Proof.
  revert stack ci. induction fuel as [|fuel IH]; intros stack ci Hf Hst Hac; [lia|]. cbn [loop]. apply returns_bind.
  destruct stack as [|n stack]; [by apply returns_ret, returns_ret|]. apply Forall_cons in Hst as [Hn Hst].
  unfold arcs_count in Hf. simpl in Hf. rewrite arcs_count_children in Hf. fold (arcs_count stack) in Hf.
  cbn [remember_step]. apply returns_bind. exists (ci_retained ci !! address n), ci. split; [done|].
  destruct (ci_retained ci !! address n) as [r|] eqn:Ha; apply returns_bind; (eexists _, _; split; [done|]); apply returns_ret.
  - eapply returns_mono; [apply IH; [lia|done|]|by intros [] ? [? ->]]. eapply accounted_count; [done..|lia|]. intros a. pose proof (ac_balance _ _ _ _ Hac a) as Hb.
    cbn [fmap list_fmap occ foldr] in Hb. fold (occ a (address <$> stack)) in Hb.
    destruct (decide (address n = a)) as [<-|]; [rewrite (refs_Some _ _ _ Ha) in Hb|]; simpl in *; lia.
  - eapply returns_mono; [apply IH|by intros [] ? [? ->]].
    + rewrite arcs_count_app arcs_count_reverse. lia.
    + apply Forall_app. split; [|done]. by apply Forall_reverse, resident_children.
    + by apply accounted_meet.
Qed.

(** A node that nothing leads to any more: its children are given back. *)
Lemma accounted_drop stack ci n r :
  ci_retained ci !! address n = Some r → references r = 1 → resident n →
  accounted (address <$> ci_latest ci) [] (address <$> n :: stack) ci →
  accounted (address <$> ci_latest ci) [] (address <$> reverse (arc_children n) ++ stack)
    {| ci_nodes := ci_nodes ci; ci_latest := ci_latest ci; ci_retained := delete (address n) (ci_retained ci);
       ci_bytes := ci_bytes ci - arc_bytes n; ci_accesses := ci_accesses ci |}.
Proof.
  intros Ha Hr Hn []. simpl.
  assert (∀ a, refs (delete (address n) (ci_retained ci)) a =
    occ a (address <$> ci_latest ci) + edges (delete (address n) (ci_retained ci)) a +
    occ a (address <$> reverse (arc_children n) ++ stack)) as Hbal.
  { intros a. specialize (ac_balance0 a). rewrite /edges (weigh_delete _ _ _ _ Ha) kids_resident // in ac_balance0.
    rewrite fmap_app fmap_reverse occ_app occ_reverse refs_delete. fold (edges (delete (address n) (ci_retained ci)) a) in *.
    cbn [fmap list_fmap occ foldr] in ac_balance0. fold (occ a (address <$> stack)) in ac_balance0.
    destruct (decide (address n = a)) as [<-|]; [rewrite (refs_Some _ _ _ Ha) Hr in ac_balance0|]; lia. }
  assert (address n ∉ address <$> ci_latest ci) as Hnot.
  { intros Hin%occ_pos. specialize (Hbal (address n)). rewrite refs_delete decide_True // in Hbal. lia. }
  constructor; simpl; try done.
  - intros a. rewrite -Hbal. lia.
  - intros a r' [_ ?]%lookup_delete_Some. by eauto.
  - intros a [_ ?]%lookup_delete_is_Some. by eauto.
  - rewrite ac_bytes0 /charge (weigh_delete _ _ _ _ Ha) (resident_mem _ Hn). simpl. lia.
  - intros a Hin. apply lookup_delete_is_Some. split; [|by eauto]. intros <-. by destruct Hnot.
  - intros a r' [_ ?]%lookup_delete_Some. by eauto.
Qed.

Lemma release_loop fuel stack ci :
  (arcs_count stack < fuel)%nat → Forall resident stack →
  accounted (address <$> ci_latest ci) [] (address <$> stack) ci →
  returns (loop fuel (release_step size_of_Node) stack) (λ _ ci', settled ci' ∧ ci_latest ci' = ci_latest ci) ci.
Proof.
  revert stack ci. induction fuel as [|fuel IH]; intros stack ci Hf Hst Hac; [lia|]. cbn [loop]. apply returns_bind.
  destruct stack as [|n stack]; [by apply returns_ret, returns_ret|]. apply Forall_cons in Hst as [Hn Hst].
  unfold arcs_count in Hf. simpl in Hf. rewrite arcs_count_children in Hf. fold (arcs_count stack) in Hf.
  pose proof (λ a, ac_balance _ _ _ _ Hac a) as Hb. cbn [fmap list_fmap occ foldr] in Hb.
  pose proof (Hb (address n)) as Hbn. rewrite decide_True // in Hbn.
  destruct (ci_retained ci !! address n) as [r|] eqn:Ha; [|rewrite (refs_None _ _ Ha) in Hbn; lia].
  rewrite (refs_Some _ _ _ Ha) in Hbn.
  cbn [release_step]. apply returns_bind. exists (Some r), ci. split; [by unfold gets; rewrite Ha|].
  rewrite (proj2 (N.eqb_neq (references r) 0)); [lia|]. apply returns_bind, returns_bind.
  eexists _, _; split; [done|]. apply returns_ret. destruct (N.eqb_spec (references r - 1) 0) as [Hz|Hz]; cbn [negb].
  - apply returns_bind. eexists (), _. split.
    { unfold with_retained at 1. cbn [ci_bytes]. rewrite (proj2 (N.ltb_ge _ _)); [|done].
      rewrite (ac_bytes _ _ _ _ Hac) /charge (weigh_delete _ _ _ _ Ha) (resident_mem _ Hn). simpl. lia. }
    apply returns_ret. simpl. rewrite delete_insert_eq. eapply returns_mono; [apply IH|by intros [] ? [? ->]].
    + rewrite arcs_count_app arcs_count_reverse. lia.
    + apply Forall_app. split; [|done]. by apply Forall_reverse, resident_children.
    + cbn [ci_latest]. eapply accounted_drop; [done|lia|done..].
  - apply returns_ret. eapply returns_mono; [apply IH; [lia|done|]|by intros [] ? [? ->]].
    eapply accounted_count; [done..|lia|]. intros a. specialize (Hb a). fold (occ a (address <$> stack)) in Hb.
    destruct (decide (address n = a)) as [<-|]; [rewrite (refs_Some _ _ _ Ha) in Hb|]; simpl in *; lia.
Qed.

(** A clock joins or leaves the latest clocks. *)
Lemma accounted_mark roots surplus roots' surplus' ci a r l flag :
  ci_retained ci !! a = Some r → accounted roots [] surplus ci → Forall resident l → NoDup (address <$> l) →
  (flag = true ↔ a ∈ address <$> l) → (∀ a', a' ≠ a → a' ∈ address <$> l ↔ a' ∈ address <$> ci_latest ci) →
  (∀ a', occ a' roots' + occ a' surplus' = occ a' roots + occ a' surplus) →
  accounted roots' [] surplus'
    (with_latest l (with_retained (alter (λ held, {| references := references held; is_root := flag |}) a) ci)).
Proof.
  intros Ha [] Hl Hnd Hflag Hother Hocc.
  assert (alter (λ held, {| references := references held; is_root := flag |}) a (ci_retained ci) =
    <[a := {| references := references r; is_root := flag |}]> (ci_retained ci)) as Halter.
  { apply map_eq. intros a'. destruct (decide (a = a')) as [<-|]; [by rewrite lookup_alter_eq lookup_insert_eq Ha|].
    by rewrite lookup_alter_ne // lookup_insert_ne. }
  constructor; simpl; rewrite ?Halter; try done.
  - intros a'. specialize (ac_balance0 a'). specialize (Hocc a'). rewrite refs_insert /edges (weigh_update _ _ _ _ _ Ha).
    fold (edges (ci_retained ci) a'). destruct (decide (a = a')) as [<-|]; [rewrite (refs_Some _ _ _ Ha) in ac_balance0|];
      simpl in *; lia.
  - intros a' r'. rewrite lookup_insert_Some. intros [[<- <-]|[_ ?]]; simpl; eauto.
  - intros a'. rewrite lookup_insert_is_Some. intros [<-|[_ ?]]; eauto.
  - by rewrite /charge (weigh_update _ _ _ _ _ Ha).
  - intros a' Ha'. rewrite lookup_insert_is_Some. destruct (decide (a = a')); [by left|right].
    split; [done|]. by apply ac_held0, Hother.
  - intros a' r'. rewrite lookup_insert_Some. intros [[<- <-]|[? ?]]; [done|]. rewrite Hother //. by eauto.
Qed.

Lemma release_settled ci root l :
  settled ci → ci_latest ci = root :: l →
  returns (release size_of_Node root) (λ _ ci', settled ci' ∧ ci_latest ci' = l) (with_latest l ci).
Proof.
  intros Hs Hl. pose proof Hs as []. rewrite Hl in ac_latest0, ac_NoDup0, ac_held0.
  apply Forall_cons in ac_latest0 as [Hroot Hres]. cbn [fmap list_fmap] in ac_NoDup0, ac_held0. apply NoDup_cons in ac_NoDup0 as [Hnot Hnd].
  destruct (ac_held0 (address root)) as [r Hr]; [by left|].
  unfold release. apply returns_bind. eexists (), _. split; [done|].
  eapply returns_mono; [apply release_loop|by intros [] ? [? ->]].
  - unfold arcs_count. simpl. lia.
  - by apply Forall_singleton.
  - apply (accounted_mark (address <$> ci_latest ci) [] (address <$> l) [address root] ci (address root) r l false); try done.
    + intros a' Hne. rewrite Hl. cbn [fmap list_fmap]. rewrite elem_of_cons. naive_solver.
    + intros a'. rewrite Hl fmap_cons !occ_cons. simpl. lia.
Qed.

Lemma settled_accessed ci : settled ci → settled (accessed ci).
Proof. by intros []. Qed.

Lemma trim_settled limit ci :
  settled ci →
  returns (trim size_of_Node tables limit) (λ _ ci', settled ci' ∧ (ci_bytes ci' ≤ limit ∨ ci_latest ci' = [])) ci.
Proof.
  intros Hs. unfold trim, loop_upto.
  apply (returns_loop (λ _, settled) (λ _ ci, length (ci_latest ci))); [|done|lia]. clear ci Hs. intros [] ci Hs.
  unfold trim_step. apply returns_bind. eexists _, _. split; [done|].
  apply settled_accessed in Hs. destruct (N.ltb_spec limit (root_bytes tables ci)) as [|Hle]; cbn [negb].
  2: { apply returns_ret. split; [done|]. left. unfold root_bytes in Hle. simpl. lia. }
  change (ci_latest ci) with (ci_latest (accessed ci)). apply returns_bind.
  destruct (ci_latest (accessed ci)) as [|root l] eqn:Hl; eexists _, _; (split; [unfold state; rewrite Hl; reflexivity|]).
  - apply returns_ret. split; [done|]. by right.
  - apply returns_bind. eapply returns_mono; [by apply release_settled|].
    intros [] ci' [? Hl']. apply returns_ret. split; [done|]. rewrite Hl'. simpl. lia.
Qed.

(** ** What is retained *)

(** A node that a latest clock holds *)
Definition reached ci (a : N) : Prop := ∃ root p, root ∈ ci_latest ci ∧ p ∈ arc_parts root ∧ address p = a.

Lemma settled_retained ci a :
  settled ci → is_Some (ci_retained ci !! a) ↔ 1 ≤ occ a (address <$> ci_latest ci) + edges (ci_retained ci) a.
Proof.
  intros []. specialize (ac_balance0 a). cbn [occ foldr] in ac_balance0. split.
  - intros [r Hr]. rewrite (refs_Some _ _ _ Hr) in ac_balance0. specialize (ac_counted0 _ _ Hr). lia.
  - intros Hle. unfold refs in ac_balance0. destruct (ci_retained ci !! a) as [r|]; [done|]. simpl in ac_balance0. lia.
Qed.

Lemma retained_parts ci n :
  settled ci → resident n → is_Some (ci_retained ci !! address n) →
  ∀ p, p ∈ arc_parts n → is_Some (ci_retained ci !! address p).
Proof.
  intros Hs. induction n as [n IH] using Arc_ind'. intros Hn Ha p [->|(c & Hc & Hp)]%elem_of_arc_parts; [done|].
  rewrite Forall_forall in IH. pose proof (resident_children n Hn) as Hres. rewrite Forall_forall in Hres.
  apply (IH c Hc); [by apply Hres| |done]. apply settled_retained; [done|].
  assert (1 ≤ occ (address c) (kids (address n))) as Hocc.
  { apply occ_pos. rewrite kids_resident //. by apply list_elem_of_fmap_2. }
  pose proof (weigh_pos (λ p, occ (address c) (kids p)) _ _ Ha) as Hle. unfold edges. simpl in Hle. lia.
Qed.

Lemma retained_reached ci a : settled ci → is_Some (ci_retained ci !! a) → reached ci a.
Proof.
  intros Hs. pose proof Hs as [].
  set (size := λ p, N.of_nat (from_option arc_count O (mem p))).
  remember (N.to_nat (weigh size (ci_retained ci) - size a)) as k eqn:Hk. revert a Hk.
  induction k as [k IH] using lt_wf_ind. intros a -> Ha.
  destruct (ac_resident0 a Ha) as (n & Hmem & Haddr & Hn).
  pose proof Ha as Hone%settled_retained; [|done].
  destruct (decide (1 ≤ occ a (address <$> ci_latest ci))) as [Hroot|Hroot].
  { apply occ_pos, list_elem_of_fmap in Hroot as (root & Heq & Hin). exists root, root. split_and!; [done|apply arc_parts_self|done]. }
  destruct (weigh_witness (λ p, occ a (kids p)) (ci_retained ci)) as (p & Hp & Hocc%occ_pos); [unfold edges in Hone; lia|].
  destruct (ac_resident0 p Hp) as (q & Hq & Hqp & Hres). subst p. rewrite kids_resident // in Hocc.
  apply list_elem_of_fmap in Hocc as (c & Hca & Hc).
  assert (c = n) as ->.
  { pose proof (resident_children q Hres) as Hcs. rewrite Forall_forall in Hcs.
    pose proof (resident_mem c (Hcs c Hc)) as Hcm. rewrite -Hca Hmem in Hcm. by injection Hcm. }
  assert (size a < size (address q)) as Hlt.
  { unfold size. rewrite Hmem Hq. simpl. rewrite (arcs_count_children q).
    assert (arc_count n ≤ arcs_count (arc_children q))%nat; [|lia]. clear -Hc.
    induction (arc_children q) as [|c cs IHcs]; [by apply elem_of_nil in Hc|]. unfold arcs_count in *. simpl.
    apply elem_of_cons in Hc as [->|Hc]; [lia|]. specialize (IHcs Hc). lia. }
  pose proof (weigh_pos size _ _ Hp) as Hmax.
  destruct (IH (N.to_nat (weigh size (ci_retained ci) - size (address q))) ltac:(lia) (address q) eq_refl Hp)
    as (root & p & Hin & Hpart & Heq).
  exists root, n. split_and!; [done| |done].
  assert (p = q) as ->.
  { rewrite Forall_forall in ac_latest0. destruct (ac_latest0 root Hin p Hpart) as [Hpm _]. rewrite Heq Hq in Hpm. by injection Hpm. }
  clear -Hpart Hc. induction root as [root IH] using Arc_ind'. apply elem_of_arc_parts.
  apply elem_of_arc_parts in Hpart as [->|(c & Hcr & Hpart)]; right.
  - exists n. split; [done|]. apply arc_parts_self.
  - exists c. split; [done|]. rewrite Forall_forall in IH. by apply IH.
Qed.

Lemma settled_reached ci a : settled ci → is_Some (ci_retained ci !! a) ↔ reached ci a.
Proof.
  intros Hs. split; [by apply retained_reached|]. intros (root & p & Hin & Hp & <-). pose proof Hs as [].
  rewrite Forall_forall in ac_latest0. eapply retained_parts; [done|by apply ac_latest0| |done].
  by apply ac_held0, list_elem_of_fmap_2.
Qed.

Lemma settled_empty ci : settled ci → ci_latest ci = [] → ci_retained ci = ∅ ∧ ci_bytes ci = 0.
Proof.
  intros Hs Hl. assert (ci_retained ci = ∅) as He.
  { apply map_eq. intros a. rewrite lookup_empty. apply eq_None_not_Some. intros (root & ? & Hin & _)%settled_reached; [|done].
    rewrite Hl in Hin. by apply elem_of_nil in Hin. }
  split; [done|]. rewrite (ac_bytes _ _ _ _ Hs) He /charge. by rewrite weigh_empty.
Qed.

(** ** Keeping a clock *)

Lemma keep_settled clock ci :
  settled ci → ci_bytes ci ≤ CACHE_BYTES → (∀ root, clock = Some root → resident root) →
  returns (keep size_of_Node tables alive clock) (λ _ ci', settled ci' ∧ ci_bytes ci' ≤ CACHE_BYTES) ci.
Proof.
  intros Hs Hby Hclock. destruct clock as [root|]; [|by apply returns_ret]. specialize (Hclock root eq_refl).
  unfold keep. case_match; [by apply returns_ret|]. apply returns_bind. eexists _, _. split; [done|]. case_match eqn:Hflag; [by apply returns_ret|].
  pose proof Hs as [].
  assert (address root ∉ address <$> ci_latest ci) as Hnot.
  { intros Hin. destruct (ac_held0 _ Hin) as [r Hr]. rewrite Hr in Hflag. simpl in Hflag.
    apply (ac_roots0 _ _ Hr) in Hin. congruence. }
  apply returns_bind. eapply returns_mono.
  { apply (remember_loop (address root :: (address <$> ci_latest ci))); [unfold arcs_count; simpl; lia|by apply Forall_singleton|].
    constructor; try done. intros a. specialize (ac_balance0 a). simpl in *. lia. }
  intros [] ci1 [Hac1 Hl1].
  assert (is_Some (ci_retained ci1 !! address root)) as [r Hr].
  { pose proof (ac_balance _ _ _ _ Hac1 (address root)) as Hb. cbn [occ foldr] in Hb. rewrite decide_True // in Hb.
    unfold refs in Hb. destruct (ci_retained ci1 !! address root); [done|]. simpl in Hb. lia. }
  apply returns_bind. eexists (), _. split; [done|]. apply returns_bind. eexists (), _. split; [done|].
  eapply returns_mono; [apply trim_settled|].
  - unfold settled. cbn [ci_latest with_latest with_retained].
    eapply (accounted_mark (address root :: (address <$> ci_latest ci)) [] _ [] ci1 (address root) r (ci_latest ci1 ++ [root]) true);
      try done; rewrite Hl1 ?fmap_app.
    + apply Forall_app. split; [done|by apply Forall_singleton].
    + apply NoDup_app. split_and!; [done| |apply NoDup_singleton]. intros a Ha ->%list_elem_of_singleton. done.
    + rewrite elem_of_app list_elem_of_singleton. tauto.
    + intros a' Hne. rewrite elem_of_app list_elem_of_singleton. naive_solver.
    + intros a'. rewrite occ_app. simpl. lia.
  - intros [] ci' [Hs' [Hle|Hnil]]; (split; [done|]); [done|]. destruct (settled_empty ci' Hs' Hnil) as [_ ->]. done.
Qed.
End accounts.

(** Memory that nothing of the cache stands in may be used again. *)
Lemma settled_memory (size_of_Node : N) (mem mem' : N → option Arc) (P : Hash → Node → Prop) ci :
  settled size_of_Node mem P ci → (∀ a, is_Some (ci_retained ci !! a) → mem' a = mem a) →
  settled size_of_Node mem' P ci.
Proof.
  intros Hs Hmem. pose proof Hs as [].
  assert (∀ n, is_Some (ci_retained ci !! address n) → resident mem P n → resident mem' P n) as Hres.
  { intros n Ha Hn p Hp. destruct (Hn p Hp) as [Hpm HP]. split; [|done].
    rewrite Hmem; [by eapply retained_parts|done]. }
  constructor; try done.
  - intros a. specialize (ac_balance0 a). unfold edges in *.
    rewrite (weigh_ext _ (λ p, occ a (kids mem p))); [|done]. intros p Hp. unfold kids. by rewrite (Hmem p Hp).
  - intros a Ha. destruct (ac_resident0 a Ha) as (n & Hn & <- & Hr). exists n. split_and!; [by rewrite Hmem|done|by apply Hres].
  - rewrite ac_bytes0. unfold charge. apply weigh_ext. intros p Hp. by rewrite (Hmem p Hp).
  - rewrite Forall_forall in ac_latest0. apply Forall_forall. intros root Hin. apply Hres; [|by apply ac_latest0].
    by apply ac_held0, list_elem_of_fmap_2.
Qed.

Section history.
Context (size_of_Node : N) (tables : nat → N) (alive : nat → Hash → bool) (P : Hash → Node → Prop).

(** What can happen to a cache: it keeps a clock that stands in memory, nodes get other
    names, and memory that it does not hold is used for something else. *)
Inductive kept : (N → option Arc) → CacheInner → Prop :=
  | kept_none mem : kept mem no_clocks
  | kept_clock mem ci clock ci' :
      kept mem ci → (∀ root, clock = Some root → resident mem P root) →
      keep size_of_Node tables alive clock ci = Some (Ok ((), ci')) → kept mem ci'
  | kept_named mem ci nodes accesses :
      kept mem ci → map_Forall P nodes →
      kept mem {| ci_nodes := nodes; ci_latest := ci_latest ci; ci_retained := ci_retained ci; ci_bytes := ci_bytes ci;
                  ci_accesses := accesses |}
  | kept_memory mem mem' ci :
      kept mem ci → (∀ a, is_Some (ci_retained ci !! a) → mem' a = mem a) → kept mem' ci.

Lemma kept_settled mem ci : kept mem ci → settled size_of_Node mem P ci ∧ ci_bytes ci ≤ CACHE_BYTES.
Proof.
  induction 1 as [mem|mem ci clock ci' _ [Hs Hb] Hc Hk|mem ci nodes accesses _ [Hs Hb] Hn|mem mem' ci _ [Hs Hb] Hm].
  - split; [|done]. constructor; simpl; try done; try (by intros; simplify_map_eq).
    + constructor.
    + by intros a ?%elem_of_nil.
  - destruct (keep_settled size_of_Node tables alive mem P clock ci Hs Hb Hc) as ([] & ci1 & Hk1 & ?).
    rewrite Hk in Hk1. by injection Hk1 as <-.
  - split; [|done]. by destruct Hs.
  - split; [|done]. by eapply settled_memory.
Qed.

(** C21: However clocks are kept, share nodes, and are dropped for newer ones, the cache
    retains exactly the nodes its latest clocks hold, charges each of them once and stays
    within its limit, and no count or sum of it goes below zero: keeping one more clock
    always succeeds. *)
Theorem cache_exact mem ci clock :
  kept mem ci → (∀ root, clock = Some root → resident mem P root) →
  (∀ a, is_Some (ci_retained ci !! a) ↔ reached ci a) ∧
  ci_bytes ci = weigh (λ a, from_option (arc_bytes size_of_Node) 0 (mem a)) (ci_retained ci) ∧
  ci_bytes ci ≤ CACHE_BYTES ∧
  ∃ ci', keep size_of_Node tables alive clock ci = Some (Ok ((), ci')).
Proof.
  intros [Hs Hb]%kept_settled Hc. split_and!; [|by apply Hs|done|].
  - intros a. by eapply settled_reached.
  - destruct (keep_settled size_of_Node tables alive mem P clock ci Hs Hb Hc) as ([] & ci' & Hk & _). by exists ci'.
Qed.
End history.
