(* ===== verification/ClockScan.v ===== *)
(** * Checking stored clocks in a scan ([clock_scan.rs])

    A scan of a frozen namespace meets every node record once, in the order of the store.
    Instead of reading clocks through a cache, which follows names at random, it collects
    what each record says, checks every branch against its children when the first clock
    is asked for, and then only looks up roots. When that would need more memory than the
    limit, it forgets what it collected and reads clocks through a cache after all.

    The scan decodes a record in pieces; [PrefixCodec] says that these are the pieces the
    whole record is decoded from. Capacities are the allocator's. *)

From S2P Require Import Prelude Ids Nibble Trie Clock Types Programs ClockStore ClockKeep.

#[local] Open Scope N_scope.
Set Default Proof Using "Type".

(** [usize::checked_next_power_of_two] *)
Definition checked_next_power_of_two (n : N) : option N :=
  let p := if n <=? 1 then 1 else 2 ^ (N.log2 (n - 1) + 1) in
  if p <=? u64_max then Some p else None.

(** [enum Prefix] *)
Inductive Prefix :=
  | PLeaf (actor : ActorId) (seq : N)
  | PBranch (level bitmap len : N) (key : ActorId).

(** [as_chunks::<32>().0] of [rest.get(..count * 32)] *)
Fixpoint chunks (count : nat) (b : list N) : list Hash :=
  match count with O => [] | S count => take 32 b :: chunks count (drop 32 b) end.
Definition get_chunks (count : N) (b : list N) : option (list Hash) :=
  if count * 32 <=? N.of_nat (length b) then Some (chunks (N.to_nat count) b) else None.

Class PrefixCodec `{!NodeCodec} := {
  (** [postcard::take_from_bytes] of a [Prefix] and of a [usize] *)
  take_prefix : list N → res (Prefix * list N);
  take_count : list N → res (N * list N);
  (** A record is its prefix, then, in a branch, the number of its children and their
      hashes. *)
  from_bytes_prefix b e : node_from_bytes b = Ok e ↔
    match take_prefix b with
    | Ok (PLeaf actor seq, _) => e = ELeaf actor seq
    | Ok (PBranch level bitmap len key, rest) =>
        ∃ count rest' children, take_count rest = Ok (count, rest') ∧ get_chunks count rest' = Some children ∧
          e = EBranch level bitmap len key children
    | Err _ => False
    end;
}.

(** [Checked] *)
Record Checked := {
  ck_key : ActorId;
  ck_len : N;
  ck_level : N;
  ck_bitmap : N;
  ck_children : nat * nat;
}.

(** [ClockScan] *)
Record ClockScan := {
  sc_nodes : option (gmap Hash Checked);
  sc_children : list Hash;
  sc_capacity : N;
  sc_limit : N;
  sc_complete : bool;
  sc_fallback : CacheInner;
}.

(** [ClockScan::default] *)
Definition new_scan : ClockScan :=
  {| sc_nodes := Some ∅; sc_children := []; sc_capacity := 0; sc_limit := CACHE_BYTES; sc_complete := false;
     sc_fallback := no_clocks |}.

Section scan.
Context `{!NodeCodec, !PrefixCodec}.
Context (size_of_entry : N) (extend_capacity : N → N → N).
Implicit Types (h : Hash) (b : list N).

(** [ClockScan::bound] *)
Definition scan_bound (entries buffers : N) : N :=
  saturating_add (saturating_add
    (saturating_mul (default u64_max (checked_next_power_of_two entries)) (4 * (size_of_entry + 1))) buffers) 256.

(** What a record says: key, length, level, bitmap and children. *)
Definition read_record b : res (ActorId * N * N * N * list Hash) :=
  '(prefix, rest) ← take_prefix b;
  match prefix with
  | PLeaf actor _ => Ok (actor, 1, 64, 0, [])
  | PBranch level bitmap len key =>
      '(count, rest) ← take_count rest;
      if (64 <=? level) || negb ((2 <=? count) && (count <=? 16)) || negb (N.of_nat (count_ones bitmap) =? count)
      then Err corrupt
      else
        children ← ok_or (get_chunks count rest) corrupt;
        Ok (key, len, level, bitmap, children)
  end.

(** [ClockScan::push] *)
Definition scan_push (sc : ClockScan) h b : res ClockScan :=
  if negb (bool_decide (digest b = h)) then Err corrupt
  else
    match sc_nodes sc with
    | None => Ok sc
    | Some nodes =>
        if bool_decide (is_Some (nodes !! h)) then Ok sc
        else if sc_complete sc then Err corrupt
        else
          '(key, len, level, bitmap, children) ← read_record b;
          let needed := N.of_nat (length (sc_children sc) + length children) in
          let capacity :=
            if sc_capacity sc <? needed then N.max (N.max needed (sc_capacity sc * 2)) 4 else sc_capacity sc in
          let buffers := saturating_add (saturating_mul capacity (3 * 32)) 32 in
          if sc_limit sc <? scan_bound (N.of_nat (size nodes) + 1) buffers then
            Ok {| sc_nodes := None; sc_children := []; sc_capacity := 0; sc_limit := sc_limit sc;
                  sc_complete := sc_complete sc; sc_fallback := sc_fallback sc |}
          else
            let start := length (sc_children sc) in
            let all := sc_children sc ++ children in
            Ok {| sc_nodes := Some (<[h := {| ck_key := key; ck_len := len; ck_level := level; ck_bitmap := bitmap;
                                              ck_children := (start, length all) |}]> nodes);
                  sc_children := all;
                  sc_capacity := if sc_capacity sc <? needed then extend_capacity (sc_capacity sc) needed else sc_capacity sc;
                  sc_limit := sc_limit sc; sc_complete := sc_complete sc; sc_fallback := sc_fallback sc |}
    end.

(** [&self.children[range]] *)
Definition slice (range : nat * nat) (children : list Hash) : list Hash :=
  take (range.2 - range.1) (drop range.1 children).

(** The children of a branch in [ClockScan::validate] *)
Fixpoint check_children (nodes : gmap Hash Checked) (node : Checked) (hashes : list Hash)
    (bitmap len : N) (previous : option N) : res (N * N) :=
  match hashes with
  | [] => Ok (bitmap, len)
  | hash :: hashes =>
      child ← ok_or (nodes !! hash) corrupt;
      if (ck_level child <=? ck_level node) ||
         match first_difference (ck_key child) (ck_key node) with Some at_ => at_ <? ck_level node | None => false end
      then Err corrupt
      else
        let digit := nibble (ck_key child) (ck_level node) in
        if match previous with Some before => digit <=? before | None => false end then Err corrupt
        else
          len ← ok_or (checked_add len (ck_len child)) corrupt;
          check_children nodes node hashes (N.lor bitmap (bit digit)) len (Some digit)
  end.
Definition check_node (nodes : gmap Hash Checked) (children : list Hash) (node : Checked) : res unit :=
  if negb (ck_level node <? 64) then Ok ()
  else
    '(bitmap, len) ← check_children nodes node (slice (ck_children node) children) 0 0 None;
    if negb (bitmap =? ck_bitmap node) || negb (len =? ck_len node) then Err corrupt else Ok ().
Fixpoint check_nodes (nodes : gmap Hash Checked) (children : list Hash) (l : list Checked) : res unit :=
  match l with
  | [] => Ok ()
  | node :: l => _ ← check_node nodes children node; check_nodes nodes children l
  end.

(** ** [ClockScan::validate] *)

(** A program on part of a state *)
Definition within {S T A} (get : S → T) (set : T → S → S) (m : prog T A) : prog S A :=
  λ s, match m (get s) with
       | Some (Ok (a, t)) => Some (Ok (a, set t s))
       | Some (Err e) => Some (Err e)
       | None => None
       end.

Context (others : nat → gmap Hash Node → gmap Hash Node) (alive : nat → Hash → bool).
Context (size_of_Node : N) (tables : nat → N) (memory : CacheInner → Node → Arc).

Definition names_of (sc : ClockScan) : ClockNames :=
  {| cn_nodes := ci_nodes (sc_fallback sc); cn_accesses := ci_accesses (sc_fallback sc) |}.
Definition with_fallback (ci : CacheInner) (sc : ClockScan) : ClockScan :=
  {| sc_nodes := sc_nodes sc; sc_children := sc_children sc; sc_capacity := sc_capacity sc; sc_limit := sc_limit sc;
     sc_complete := sc_complete sc; sc_fallback := ci |}.
Definition with_names (cn : ClockNames) (sc : ClockScan) : ClockScan :=
  let ci := sc_fallback sc in
  with_fallback {| ci_nodes := cn_nodes cn; ci_latest := ci_latest ci; ci_retained := ci_retained ci;
                   ci_bytes := ci_bytes ci; ci_accesses := cn_accesses cn |} sc.
Definition completed (sc : ClockScan) : ClockScan :=
  {| sc_nodes := sc_nodes sc; sc_children := sc_children sc; sc_capacity := sc_capacity sc; sc_limit := sc_limit sc;
     sc_complete := true; sc_fallback := sc_fallback sc |}.

(** The order of [nodes.values()] does not matter: every refusal is the same. *)
Definition validate (fuel : nat) h (fetch : Hash → res (option (list N))) : prog ClockScan unit :=
  nodes ← gets sc_nodes;
  match nodes with
  | None =>
      clock ← within names_of with_names (load_clock others alive fetch fuel h);
      ci ← gets sc_fallback;
      within sc_fallback with_fallback (keep size_of_Node tables alive (memory ci <$> root clock))
  | Some nodes =>
      complete ← gets sc_complete;
      children ← gets sc_children;
      _ ← (if complete : bool then mret ()
           else _ ← try (check_nodes nodes children (map_to_list nodes).*2); modify completed);
      if bool_decide (is_Some (nodes !! h)) then mret () else try (Err corrupt)
  end.
End scan.

(** The records of a namespace, in the order it gives them. *)
Fixpoint push_all `{!NodeCodec, !PrefixCodec} (size_of_entry : N) (extend_capacity : N → N → N)
    (sc : ClockScan) (records : list (Hash * list N)) : res ClockScan :=
  match records with
  | [] => Ok sc
  | (h, b) :: records => sc ← scan_push size_of_entry extend_capacity sc h b; push_all size_of_entry extend_capacity sc records
  end.
