(* ===== verification/ClockScanInv.v ===== *)
(** * A scan accepts the clocks that can be read

    When every record of a namespace was pushed and the scan kept what it collected, it
    accepts a root exactly if every record of the namespace can be read as a clock and
    the root is among them. *)

From S2P Require Import Prelude Ids Nibble Trie Clock Types Programs ClockStore ClockStoreInv ClockKeep ClockScan.

#[local] Open Scope N_scope.
Set Default Proof Using "Type".

(** ** Records in pieces *)

Lemma chunks_length count b : length (chunks count b) = count.
Proof. revert b. induction count as [|count IH]; intros b; simpl; [done|]. by rewrite IH. Qed.

Lemma get_chunks_length count b hs : get_chunks count b = Some hs → N.of_nat (length hs) = count.
Proof. unfold get_chunks. case_match; [|done]. intros [= <-]. rewrite chunks_length. lia. Qed.

Lemma count_ones_le bm : (count_ones bm ≤ 16)%nat.
Proof.
  unfold count_ones. change 16%nat with (length digits16). generalize digits16. intros l.
  induction l as [|d l IH]; [done|]. rewrite filter_cons. case_decide; simpl; lia.
Qed.

(** The fields a scan collects of a record. *)
Definition record_ok (e : Encoded) : bool :=
  match e with ELeaf _ _ => true | EBranch level bitmap _ _ children => branch_ok level bitmap children end.
Definition record_fields (e : Encoded) : ActorId * N * N * N * list Hash :=
  match e with
  | ELeaf actor _ => (actor, 1, 64, 0, [])
  | EBranch level bitmap len key children => (key, len, level, bitmap, children)
  end.

Section records.
Context `{!NodeCodec, !PrefixCodec}.
Implicit Types (h : Hash) (b : list N) (e : Encoded).

Lemma read_record_spec b r :
  read_record b = Ok r ↔ ∃ e, node_from_bytes b = Ok e ∧ record_ok e = true ∧ r = record_fields e.
Proof.
  setoid_rewrite from_bytes_prefix. unfold read_record. destruct (take_prefix b) as [[p rest]|]; cbn [mbind result_bind].
  2: { split; [done|]. by intros (? & ? & _). }
  destruct p as [a s|l bm len k].
  - split; [intros [= <-]; by eexists|]. by intros (? & -> & _ & ->).
  - destruct (take_count rest) as [[count rest']|] eqn:Hc; cbn [mbind result_bind].
    2: { split; [done|]. intros (? & (? & ? & ? & ? & _) & _). congruence. }
    split.
    + case_match eqn:Hg; [done|]. apply orb_false_iff in Hg as [[Hl Hg]%orb_false_iff Hones].
      apply negb_false_iff, N.eqb_eq in Hones. apply negb_false_iff, andb_true_iff in Hg as [H2 _].
      destruct (get_chunks count rest') as [hs|] eqn:Hch; [|done]. cbn [ok_or mbind result_bind]. intros [= <-].
      pose proof (get_chunks_length _ _ _ Hch) as Hlen.
      exists (EBranch l bm len k hs). split_and!; [by eauto 10| |done]. simpl. unfold branch_ok.
      rewrite Hl. simpl. apply andb_true_iff. rewrite bool_decide_eq_true Nat.eqb_eq. apply N.leb_le in H2. lia.
    + intros (e & (count' & rest2 & hs & Heq & Hch & ->) & Hok & ->). injection Heq as <- <-. simpl in *.
      pose proof (get_chunks_length _ _ _ Hch) as Hlen. rewrite Hch. cbn [ok_or mbind result_bind].
      unfold branch_ok in Hok. rewrite !andb_true_iff negb_true_iff bool_decide_eq_true Nat.eqb_eq in Hok. destruct Hok as [[Hl H2] Hones].
      pose proof (count_ones_le bm). rewrite Hl. simpl.
      rewrite (proj2 (N.leb_le 2 count)); [lia|]. rewrite (proj2 (N.leb_le count 16)); [lia|].
      rewrite (proj2 (N.eqb_eq (N.of_nat (count_ones bm)) count)); [lia|]. done.
Qed.
End records.

(** ** What a scan has collected *)

(** What [nodes] holds of a record. *)
Definition collects (children : list Hash) (e : Encoded) (ck : Checked) : Prop :=
  ((ck_children ck).2 ≤ length children)%nat ∧
  record_fields e = (ck_key ck, ck_len ck, ck_level ck, ck_bitmap ck, slice (ck_children ck) children).

Lemma slice_app range l l' : (range.2 ≤ length l)%nat → slice range (l ++ l') = slice range l.
Proof.
  intros Hle. unfold slice. destruct (decide (range.1 ≤ length l)%nat) as [Hl|Hl].
  - rewrite drop_app_le //. rewrite take_app_le // length_drop. lia.
  - replace (range.2 - range.1)%nat with O by lia. done.
Qed.

Lemma slice_last (l l' : list Hash) : slice (length l, length (l ++ l')) (l ++ l') = l'.
Proof. unfold slice. simpl. rewrite drop_app_length length_app Nat.add_comm Nat.add_sub take_ge //. Qed.

Section collected.
Context `{!NodeCodec, !PrefixCodec}.
Context (size_of_entry : N) (extend_capacity : N → N → N).
Implicit Types (h : Hash) (b : list N) (e : Encoded) (sc : ClockScan) (seen : list (Hash * list N)).

Record collected seen nodes sc : Prop := {
  co_nodes : sc_nodes sc = Some nodes;
  co_open : sc_complete sc = false;
  co_dom h : is_Some (nodes !! h) ↔ h ∈ seen.*1;
  co_record h b : (h, b) ∈ seen → digest b = h ∧
    ∃ e ck, node_from_bytes b = Ok e ∧ record_ok e = true ∧ nodes !! h = Some ck ∧ collects (sc_children sc) e ck;
}.

Lemma collected_new : collected [] ∅ new_scan.
Proof.
  constructor; [done..| |].
  - intros h. rewrite lookup_empty. split; [by intros []|by intros ?%elem_of_nil].
  - by intros h b ?%elem_of_nil.
Qed.

(** A push that the scan does not give up on *)
Lemma push_collected seen nodes sc h b sc' nodes' :
  collected seen nodes sc → h ∉ seen.*1 →
  scan_push size_of_entry extend_capacity sc h b = Ok sc' → sc_nodes sc' = Some nodes' →
  collected (seen ++ [(h, b)]) nodes' sc'.
Proof.
  intros [] Hnew. unfold scan_push. case_match eqn:Hd; [done|]. apply negb_false_iff, bool_decide_eq_true in Hd.
  rewrite co_nodes0 co_open0. rewrite bool_decide_eq_false_2; [by rewrite co_dom0|].
  destruct (read_record b) as [[[[[key len] level] bitmap] children]|] eqn:Hr; [|done]. cbn [mbind result_bind].
  case_match; [by intros [= <-]|]. intros [= <-]. simpl. intros [= <-].
  apply read_record_spec in Hr as (e & He & Hok & Hf).
  constructor; simpl; [done|done| |].
  - intros h'. rewrite lookup_insert_is_Some fmap_app elem_of_app list_elem_of_singleton co_dom0. simpl. destruct (decide (h = h')); naive_solver.
  - intros h' b' [Hin|[= -> ->]%list_elem_of_singleton]%elem_of_app.
    + destruct (co_record0 h' b' Hin) as (? & e' & ck & ? & ? & Hck & Hle & Hf'). split; [done|]. exists e', ck.
      split_and!; [done..| |].
      * rewrite lookup_insert_ne //. intros ->. apply Hnew, list_elem_of_fmap. by eexists (h', b').
      * split; [rewrite length_app; lia|]. by rewrite slice_app.
    + split; [done|]. eexists e, _. split_and!; [done..|by rewrite lookup_insert_eq|]. split; simpl; [lia|]. by rewrite slice_last.
Qed.

(** A scan that gave up stays so. *)
Lemma push_all_gone sc l sc' :
  sc_nodes sc = None → push_all size_of_entry extend_capacity sc l = Ok sc' → sc_nodes sc' = None.
Proof.
  revert sc. induction l as [|[h b] l IH]; intros sc Hn; simpl; [by intros [= <-]|].
  unfold scan_push. case_match; [done|]. rewrite Hn. by apply IH.
Qed.

Lemma push_all_collected seen nodes sc l sc' nodes' :
  collected seen nodes sc → NoDup (seen ++ l).*1 →
  push_all size_of_entry extend_capacity sc l = Ok sc' → sc_nodes sc' = Some nodes' → collected (seen ++ l) nodes' sc'.
Proof.
  revert seen nodes sc. induction l as [|[h b] l IH]; intros seen nodes sc Hc Hnd; simpl.
  { intros [= <-] Hn. rewrite app_nil_r. pose proof (co_nodes _ _ _ Hc). by simplify_eq. }
  destruct (scan_push _ _ sc h b) as [sc1|] eqn:Hp; [|done]. cbn [mbind result_bind]. intros Hl Hn.
  destruct (sc_nodes sc1) as [nodes1|] eqn:Hn1; [|by rewrite (push_all_gone _ _ _ Hn1 Hl) in Hn].
  rewrite cons_middle app_assoc. rewrite cons_middle app_assoc in Hnd. eapply IH; [|done..].
  eapply push_collected; [done| |done..]. rewrite -app_assoc fmap_app in Hnd. apply NoDup_app in Hnd as (_ & Hdis & _).
  intros Hin. apply (Hdis h Hin). rewrite fmap_app. apply elem_of_app. left. by left.
Qed.
End collected.

(** ** The checks *)

(** A record as the node it heads *)
Definition like (ck : Checked) (n : Node) : Prop :=
  node_key n = ck_key ck ∧ node_len n = ck_len ck ∧ node_level n = ck_level ck.

Lemma placed_tests l k c :
  l < 64 → placed (Some (l, k)) c =
  negb ((node_level c <=? l) || match first_difference (node_key c) k with Some at_ => at_ <? l | None => false end).
Proof.
  intros Hl. unfold placed. rewrite negb_orb N.leb_antisym negb_involutive. f_equal; [|by case_match].
  destruct c; simpl; [|done]. symmetry. by apply N.ltb_lt.
Qed.

Lemma increasing_cons x y ds : increasing (x :: y :: ds) = (x <? y) && increasing (y :: ds).
Proof. done. Qed.

Lemma check_children_found nodes ck hs bm len previous r :
  check_children nodes ck hs bm len previous = Ok r →
  Forall (λ h, ∃ child, nodes !! h = Some child ∧ ck_level ck < ck_level child) hs.
Proof.
  revert bm len previous. induction hs as [|h hs IH]; intros bm len previous; cbn [check_children]; [constructor|].
  destruct (nodes !! h) as [child|] eqn:Hh; [|done]. cbn [ok_or]. res_step.
  destruct (_ || _) eqn:Hl; [done|]. destruct (match previous with Some before => _ | None => false end); [done|].
  destruct (checked_add _ _); [|done]. cbn [ok_or]. res_step. intros Hr. constructor; [|by eapply IH].
  exists child. split; [done|]. apply orb_false_iff in Hl as [Hl _]. by apply N.leb_gt in Hl.
Qed.

Lemma check_children_spec nodes ck hs cs bm len previous r :
  ck_level ck < 64 → len ≤ u64_max → Forall2 (λ h c, ∃ child, nodes !! h = Some child ∧ like child c) hs cs →
  check_children nodes ck hs bm len previous = Ok r ↔
  Forall (λ c, placed (Some (ck_level ck, ck_key ck)) c = true) cs ∧
  increasing (option_list previous ++ (digit_of (ck_level ck) <$> cs)) = true ∧
  len + sum_len cs ≤ u64_max ∧
  r = (foldl N.lor bm (bit <$> (digit_of (ck_level ck) <$> cs)), len + sum_len cs).
Proof.
  intros Hl Hlen Hcs. revert bm len previous Hlen.
  induction Hcs as [|h c hs cs (child & Hh & Hk & Hn & Hlev) _ IH]; intros bm len previous Hlen; cbn [check_children].
  - rewrite app_nil_r N.add_0_r. split.
    + intros [= <-]. split_and!; [constructor|by destruct previous|done|done].
    + by intros (_ & _ & _ & ->).
  - rewrite Hh. cbn [ok_or]. res_step. rewrite -Hk -Hlev Forall_cons placed_tests //.
    destruct (_ || _); cbn [negb]; [split; [done|]; by intros ([? _] & _)|].
    fold (digit_of (ck_level ck) c). cbn [fmap list_fmap sum_len foldr foldl]. fold (sum_len cs).
    set (d := digit_of (ck_level ck) c).
    assert (increasing (option_list previous ++ d :: (digit_of (ck_level ck) <$> cs)) =
      negb match previous with Some before => d <=? before | None => false end &&
      increasing (option_list (Some d) ++ (digit_of (ck_level ck) <$> cs))) as Hinc.
    { destruct previous as [before|]; simpl; [|done]. by rewrite N.ltb_antisym. }
    rewrite Hinc. destruct (match previous with Some before => d <=? before | None => false end); cbn [negb andb].
    { split; [done|]. by intros (_ & ? & _). }
    unfold checked_add. rewrite -Hn. destruct (N.leb_spec (len + node_len c) u64_max) as [Hle|Hgt]; cbn [ok_or]; res_step.
    + rewrite IH //. rewrite N.add_assoc. naive_solver.
    + split; [done|]. intros (_ & _ & ? & _). lia.
Qed.

(** A check accepts a branch exactly if its children fit. *)
Lemma check_node_spec nodes children ck cs :
  ck_level ck < 64 → ck_len ck ≤ u64_max →
  Forall2 (λ h c, ∃ child, nodes !! h = Some child ∧ like child c) (slice (ck_children ck) children) cs →
  check_node nodes children ck = Ok () ↔
  children_ok (ck_level ck) (ck_bitmap ck) (ck_len ck) cs = true ∧
  Forall (λ c, placed (Some (ck_level ck, ck_key ck)) c = true) cs.
Proof.
  intros Hl Hlen Hcs. unfold check_node. rewrite (proj2 (N.ltb_lt _ _) Hl). cbn [negb].
  pose proof (check_children_spec nodes ck (slice (ck_children ck) children) cs 0 0 None) as Hspec.
  unfold children_ok. rewrite !andb_true_iff !N.eqb_eq list_fmap_compose. split.
  - destruct (check_children _ _ _ _ _ _) as [[bm len]|]; [|done]. res_step.
    destruct (proj1 (Hspec (bm, len) Hl ltac:(done) Hcs) eq_refl) as (Hp & Hi & _ & [= -> ->]). simpl in Hi.
    case_match eqn:Hg; [done|]. apply orb_false_iff in Hg as [Hb Hn]. apply negb_false_iff, N.eqb_eq in Hb, Hn. done.
  - intros [[[Hb Hn] Hi] Hp].
    rewrite (proj2 (Hspec (ck_bitmap ck, ck_len ck) Hl ltac:(done) Hcs)); [|res_step; by rewrite !N.eqb_refl].
    split_and!; [done|done|lia|]. rewrite Hb. f_equal. lia.
Qed.

Lemma check_nodes_spec nodes children l :
  check_nodes nodes children l = Ok () ↔ Forall (λ ck, check_node nodes children ck = Ok ()) l.
Proof.
  induction l as [|ck l IH]; simpl; [done|]. rewrite Forall_cons -IH.
  destruct (check_node nodes children ck) as [[]|]; res_step; [tauto|]. split; [done|]. by intros [? _].
Qed.

(** ** Accepted records and readable clocks *)

Lemma Forall_choose {A B} (R : A → B → Prop) l : Forall (λ x, ∃ y, R x y) l → ∃ ys, Forall2 R l ys.
Proof. induction 1 as [|x l [y Hy] _ [ys Hys]]; [by exists []|exists (y :: ys); by constructor]. Qed.

Section accepted.
Context `{!NodeCodec, !PrefixCodec}.
Context (seen : list (Hash * list N)) (nodes : gmap Hash Checked) (sc : ClockScan).
Context (Hcol : collected seen nodes sc) (Hnd : NoDup seen.*1).
Implicit Types (h : Hash) (b : list N) (n c : Node) (ck : Checked).

Abbreviation readable := (described (λ h b, (h, b) ∈ seen)).

Lemma seen_unique h b b' : (h, b) ∈ seen → (h, b') ∈ seen → b = b'.
Proof using Hnd. intros Hb Hb'. eapply elem_of_list_to_map_1 in Hb, Hb'; [|done..]. by rewrite Hb in Hb'; injection Hb'. Qed.

Lemma seen_of h ck : nodes !! h = Some ck → ∃ b e, (h, b) ∈ seen ∧ digest b = h ∧
  node_from_bytes b = Ok e ∧ record_ok e = true ∧ collects (sc_children sc) e ck.
Proof using Hcol.
  intros Hck. pose proof (proj1 (co_dom _ _ _ Hcol h) ltac:(by eexists)) as ([h' b] & -> & Hin)%list_elem_of_fmap.
  destruct (co_record _ _ _ Hcol _ _ Hin) as (Hd & e & ck' & ? & ? & Hck' & ?). simpl in *. simplify_eq. by exists b, e.
Qed.

(** What was collected under a name is the node that is read there. *)
Lemma readable_like h n ck : readable h n → nodes !! h = Some ck → like ck n.
Proof using Hcol Hnd.
  intros Hn (b & e & Hin & _ & He & _ & _ & Hf)%seen_of. unfold like.
  inversion Hn as [? b' ? ? Hin' _ He'|? b' ? ? ? ? ? ? Hin' _ He' _]; subst;
    pose proof (seen_unique _ _ _ Hin Hin') as <-; rewrite He in He'; injection He' as ->; injection Hf; intros; by subst.
Qed.

Lemma readable_kids hs cs :
  Forall2 readable hs cs → Forall2 (λ h c, ∃ child, nodes !! h = Some child ∧ like child c) hs cs.
Proof using Hcol Hnd.
  intros Hcs. eapply Forall2_impl; [exact Hcs|]. intros h c Hc.
  assert (is_Some (nodes !! h)) as [child Hh].
  { apply (co_dom _ _ _ Hcol). inversion Hc; subst; apply list_elem_of_fmap; eexists (_, _); (split; [|eassumption]); done. }
  exists child. split; [done|]. by eapply readable_like.
Qed.

Lemma branch_fits b l bm len k hs : node_from_bytes b = Ok (EBranch l bm len k hs) → len ≤ u64_max.
Proof. by intros (_ & _ & ? & _)%node_from_fits. Qed.

(** Accepted records are read as well-formed clocks. *)
Lemma accepted_readable h ck :
  (∀ h ck, nodes !! h = Some ck → check_node nodes (sc_children sc) ck = Ok ()) →
  nodes !! h = Some ck → ∃ n, wf n ∧ readable h n.
Proof using Hcol Hnd.
  intros Hall. remember (N.to_nat (64 - ck_level ck)) as d eqn:Hd. revert h ck Hd.
  induction d as [d IH] using lt_wf_ind. intros h ck -> Hck.
  destruct (seen_of h ck Hck) as (b & e & Hin & Hdig & He & Hok & Hle & Hf).
  destruct e as [a s|l bm len k hs].
  { exists (Leaf a s). split; [constructor|]. by eapply described_leaf. }
  simpl in Hf. injection Hf as -> -> -> -> ->.
  assert (ck_level ck < 64) as Hl.
  { simpl in Hok. unfold branch_ok in Hok. rewrite !andb_true_iff negb_true_iff N.leb_gt in Hok. tauto. }
  pose proof (Hall h ck Hck) as Hcheck. pose proof Hcheck as Hc'. unfold check_node in Hc'.
  rewrite (proj2 (N.ltb_lt _ _) Hl) in Hc'. cbn [negb] in Hc'.
  destruct (check_children _ _ _ _ _ _) as [r|] eqn:Hcc; [|done]. clear Hc'. apply check_children_found in Hcc.
  destruct (Forall_choose (λ h c, wf c ∧ readable h c) (slice (ck_children ck) (sc_children sc))) as [cs Hcs].
  { eapply Forall_impl; [exact Hcc|]. intros h' (child & Hch & Hlt). eapply IH; [|reflexivity|done]. lia. }
  assert (Forall2 readable (slice (ck_children ck) (sc_children sc)) cs) as Hr
    by (eapply Forall2_impl; [exact Hcs|]; by intros ? ? [_ ?]).
  exists (Branch (ck_level ck) (ck_bitmap ck) (ck_len ck) (ck_key ck) cs). split; [|by eapply described_branch].
  pose proof Hcheck as [Hch Hp]%(check_node_spec _ _ _ cs); [|done|by eapply branch_fits|by apply readable_kids].
  apply (wf_checks _ _ _ _ (slice (ck_children ck) (sc_children sc))); [by eapply Forall2_length|]. split_and!; [done..| |done].
  eapply Forall2_Forall_r; [exact Hcs|]. by apply Forall_true; intros ? ? [? _].
Qed.

(** What is read as well-formed clocks is accepted. *)
Lemma readable_accepted :
  (∀ h, h ∈ seen.*1 → ∃ n, wf n ∧ readable h n) →
  ∀ h ck, nodes !! h = Some ck → check_node nodes (sc_children sc) ck = Ok ().
Proof using Hcol Hnd.
  intros Hall h ck Hck. destruct (Hall h) as (n & Hwf & Hn); [apply (co_dom _ _ _ Hcol); by eexists|].
  pose proof (readable_like _ _ _ Hn Hck) as (Hk & Hlen & Hlev).
  destruct (seen_of h ck Hck) as (b & e & Hin & Hdig & He & Hok & Hle & Hf).
  inversion Hn as [? b' ? ? Hin' _ He'|? b' l bm len k hs cs Hin' _ He' Hcs]; subst;
    pose proof (seen_unique _ _ _ Hin Hin') as <-; rewrite He in He'; injection He' as ->.
  - unfold check_node. simpl in Hlev. by rewrite -Hlev.
  - simpl in Hf. injection Hf as -> -> -> -> ->.
    apply (wf_checks _ _ _ _ (slice (ck_children ck) (sc_children sc))) in Hwf as (Hb & Hch & _ & Hp); [|by eapply Forall2_length].
    apply (check_node_spec _ _ _ cs); [|by eapply branch_fits|by apply readable_kids|done].
    unfold branch_ok in Hb. rewrite !andb_true_iff negb_true_iff N.leb_gt in Hb. tauto.
Qed.
End accepted.

(** ** The scan and the reader *)

Definition no_names : ClockNames := {| cn_nodes := ∅; cn_accesses := 0 |}.

Section reader.
Context `{!NodeCodec, !PrefixCodec}.
Context (alive : nat → Hash → bool) (l : list (Hash * list N)).
Context (Hnd : NoDup l.*1).
Implicit Types (h : Hash) (b : list N) (n : Node) (sc : ClockScan).

Abbreviation st := (list_to_map l : NodeStore).
Abbreviation readable := (described (λ h b, (h, b) ∈ l)).

(** A clock is read from the records with a cache of its own. *)
Definition loads h : Prop :=
  ∃ c cn, load_clock (λ _ nodes, nodes) alive (fetch_from st) 65 h no_names = Some (Ok (c, cn)).

Definition all_named : Prop := ∀ h b, (h, b) ∈ l → digest b = h.

Lemma lookup_records h b : st !! h = Some b ↔ (h, b) ∈ l.
Proof using Hnd. symmetry. by apply elem_of_list_to_map. Qed.

Lemma load_named fuel h b c cn :
  load_clock (λ _ nodes, nodes) alive (fetch_from st) (S fuel) h no_names = Some (Ok (c, cn)) → (h, b) ∈ l → digest b = h.
Proof using Hnd.
  intros (n & cn1 & Hl & _)%prog_bind_ok Hb%lookup_records. cbn [load_node] in Hl.
  apply prog_bind_ok in Hl as (o & cn2 & Hheld & Hl). unfold held_node, locked, state in Hheld. simpl in Hheld.
  rewrite lookup_empty in Hheld. assert (o = None) as -> by (destruct (alive 0 h); by injection Hheld).
  apply prog_bind_ok in Hl as (n' & cn3 & Hl & _). unfold fetch_from in Hl.
  apply prog_bind_ok in Hl as (bo & cn4 & [Hbo ->]%prog_try_ok & Hl). injection Hbo as <-.
  apply prog_bind_ok in Hl as (b' & cn5 & [Hb' ->]%prog_try_ok & Hl). rewrite Hb in Hb'. injection Hb' as <-.
  case_bool_decide as Hd; [done|]. by apply prog_try_ok in Hl as [? _].
Qed.

Definition in_records b : Prop := ∃ h, (h, b) ∈ l.

Lemma loads_readable h : all_named → loads h → ∃ n, wf n ∧ readable h n.
Proof using Hnd.
  intros Hnamed (c & cn & (n & cn1 & Hl & _)%prog_bind_ok).
  apply load_node_sound with (written := in_records) in Hl as ([Hwf Hn] & _ & _); [| done | |].
  - exists n. split; [done|]. eapply described_mono; [|exact Hn]. intros h' b [h'' Hin] <-. by rewrite (Hnamed _ _ Hin).
  - intros h' b [= Hb%lookup_records]. by exists h'.
  - apply map_Forall_empty.
Qed.

Lemma readable_loads h n : all_named → wf n → readable h n → loads h.
Proof using Hnd.
  intros Hnamed Hwf Hn. unfold loads, load_clock. pose proof (wf_height n Hwf).
  destruct (load_node_returns (λ _ nodes, nodes) alive (fetch_from st) in_records) with (fuel := 65%nat) (h := h) (n := n)
    (parent := None : option (N * ActorId)) (cn := no_names) as (? & cn & Hl & -> & _); [done| | |done|done|lia|apply map_Forall_empty|].
  - intros b1 b2 [h1 Hi1] [h2 Hi2] Heq. rewrite (Hnamed _ _ Hi1) (Hnamed _ _ Hi2) in Heq. subst. by eapply seen_unique.
  - eapply described_mono; [|exact Hn]. intros h' b Hin _. split; [|by exists h']. unfold fetch_from. f_equal. by apply lookup_records.
  - exists {| root := Some n |}, cn. unfold mbind, prog_bind. by rewrite Hl.
Qed.

Lemma all_loads_named : (∀ h, h ∈ l.*1 → loads h) → all_named.
Proof using Hnd.
  intros Hall h b Hb. destruct (Hall h) as (c & cn & Hl); [by apply (list_elem_of_fmap_2 fst _ _ Hb)|]. by eapply load_named.
Qed.
End reader.

Section matches.
Context `{!NodeCodec, !PrefixCodec}.
Context (size_of_entry : N) (extend_capacity : N → N → N).
Implicit Types (h : Hash) (b : list N) (n : Node) (sc : ClockScan).

(** A record that is read as a clock is never refused. *)
Lemma push_accepts sc h b n :
  sc_complete sc = false → wf n → described (λ h' b', h' = h → b' = b) h n → digest b = h →
  ∃ sc', scan_push size_of_entry extend_capacity sc h b = Ok sc' ∧ sc_complete sc' = false.
Proof.
  intros Hopen Hwf Hn Hd. unfold scan_push. rewrite bool_decide_eq_true_2 //. cbn [negb].
  destruct (sc_nodes sc) as [nodes|]; [|by exists sc]. case_bool_decide; [by exists sc|]. rewrite Hopen.
  assert (∃ e, node_from_bytes b = Ok e ∧ record_ok e = true) as (e & He & Hok).
  { inversion Hn as [? b' ? ? Hb' _ He'|? b' ? ? ? ? hs cs Hb' _ He' Hcs]; subst; rewrite Hb' // in He'.
    - eexists. split; [exact He'|done].
    - eexists. split; [exact He'|]. simpl. apply (wf_checks _ _ _ _ hs) in Hwf as [? _]; [done|]. by eapply Forall2_length. }
  rewrite (proj2 (read_record_spec b (record_fields e))); [by exists e|].
  destruct (record_fields e) as [[[[key len] level] bitmap] children]. res_step. case_match; by eexists.
Qed.

Lemma push_all_accepts l records sc :
  NoDup l.*1 → sc_complete sc = false → all_named l → (∀ h, h ∈ l.*1 → ∃ n, wf n ∧ described (λ h b, (h, b) ∈ l) h n) →
  (∀ r, r ∈ records → r ∈ l) → ∃ sc', push_all size_of_entry extend_capacity sc records = Ok sc'.
Proof.
  intros Hnd Hopen Hnamed Hall. revert sc Hopen. induction records as [|[h b] records IH]; intros sc Hopen Hin; [by exists sc|].
  cbn [push_all]. assert ((h, b) ∈ l) as Hb by (apply Hin; by left).
  destruct (Hall h) as (n & Hwf & Hn); [by apply (list_elem_of_fmap_2 fst _ _ Hb)|].
  destruct (push_accepts sc h b n) as (sc1 & -> & Hopen1); [done..| |by apply Hnamed|].
  - eapply described_mono; [|exact Hn]. intros h' b' Hb' _ ->. by eapply seen_unique.
  - res_step. apply IH; [done|]. intros r Hr. apply Hin. by right.
Qed.

(** C20: Checking stored clocks in a scan and reading them agree. If every record of a
    namespace can be read as a clock, in at most 65 nested calls, the scan refuses none of
    them, in whatever order they come. After a scan that kept what it collected, a root is
    accepted, without reading anything again, exactly if it is a record of the namespace
    and every record can be read as a clock. *)
Theorem scan_matches_load others alive size_of_Node tables memory fuel fetch (l : list (Hash * list N)) :
  NoDup l.*1 →
  ((∀ h, h ∈ l.*1 → loads alive l h) → ∃ sc, push_all size_of_entry extend_capacity new_scan l = Ok sc) ∧
  ∀ sc h, push_all size_of_entry extend_capacity new_scan l = Ok sc → is_Some (sc_nodes sc) →
    (∃ sc', validate others alive size_of_Node tables memory fuel h fetch sc = Some (Ok ((), sc'))) ↔
    h ∈ l.*1 ∧ ∀ h', h' ∈ l.*1 → loads alive l h'.
Proof.
  intros Hnd. split.
  { intros Hall. pose proof (all_loads_named alive l Hnd Hall) as Hnamed. eapply push_all_accepts; [done..| |by intros ? ?].
    intros h Hh. eapply loads_readable; [done..|]. by apply Hall. }
  intros sc h Hpush [nodes Hnodes].
  pose proof (push_all_collected size_of_entry extend_capacity [] ∅ new_scan l sc nodes collected_new Hnd Hpush Hnodes) as Hcol.
  cbn [app] in Hcol. assert (all_named l) as Hnamed by (intros ? ? ?; by apply (co_record _ _ _ Hcol)).
  unfold validate. setoid_rewrite <- (co_dom _ _ _ Hcol).
  assert (check_nodes nodes (sc_children sc) (map_to_list nodes).*2 = Ok () ↔
    ∀ h ck, nodes !! h = Some ck → check_node nodes (sc_children sc) ck = Ok ()) as Hchecks.
  { rewrite check_nodes_spec Forall_fmap Forall_forall. split.
    - intros Hf h' ck Hck. by apply (Hf (h', ck)), elem_of_map_to_list.
    - intros Hf [h' ck] Hin%elem_of_map_to_list. by eapply Hf. }
  unfold mbind, prog_bind, gets. rewrite Hnodes (co_open _ _ _ Hcol). split.
  - unfold try. destruct (check_nodes _ _ _) as [[]|]; simpl; [|by intros [? ?]]. case_bool_decide as Hh; [|by intros [? ?]].
    intros _. split; [done|]. intros h' [ck Hck].
    destruct (accepted_readable l nodes sc Hcol Hnd h' ck) as (n & Hwf & Hn); [by apply Hchecks|done|]. by eapply readable_loads.
  - intros [Hh Hall]. unfold try. rewrite (proj2 Hchecks).
    { eapply readable_accepted; [done..|]. intros h' Hh'. apply loads_readable with (alive := alive); [done..|].
      apply Hall. by apply (co_dom _ _ _ Hcol). }
    simpl. rewrite bool_decide_eq_true_2 //. by eexists.
Qed.
End matches.
