(* ===== verification/Slices.v ===== *)
(** * Slices: what one request may cost ([sync/slice.rs], [sync/space.rs])

    A responder plans a page within a slice: a bound on its reads and scanned actors, on
    the dependency edges it follows, on the bytes it decodes and on its workspace. The
    counters of [PageWork] only report the work and are left out. *)

From S2P Require Import Prelude Ids ClockSpec Types Records StoreReads Integrity.

#[local] Open Scope N_scope.

Definition MAX_PAGE_VISITS : N := 65536.
Definition MAX_PAGE_BYTES : N := 33554432.
Definition MAX_CONTINUATION_BYTES : N := 4194304.
Definition MAX_WORKSPACE_BYTES : N := 8388608.
Definition MAX_PREPARATION_BYTES : N := 134217728.

Record Slice := {
  sl_limit : N;
  sl_visits : N;
  sl_scanned : N;
  sl_edges : N;
  sl_workspace : N;
  sl_decoded : N;
  sl_decode_limit : N;
  sl_preparation : N;
  sl_input_units : N;
  sl_preparation_bytes : N;
  sl_authorization_reads : N;
  sl_captured : N;
}.
Implicit Types (sl : Slice).

Definition set_visits sl (x : N) : Slice :=
  {| sl_limit := sl_limit sl; sl_visits := x; sl_scanned := sl_scanned sl; sl_edges := sl_edges sl;
     sl_workspace := sl_workspace sl; sl_decoded := sl_decoded sl; sl_decode_limit := sl_decode_limit sl;
     sl_preparation := sl_preparation sl; sl_input_units := sl_input_units sl;
     sl_preparation_bytes := sl_preparation_bytes sl;
     sl_authorization_reads := sl_authorization_reads sl; sl_captured := sl_captured sl |}.
Definition set_scanned sl (x : N) : Slice :=
  {| sl_limit := sl_limit sl; sl_visits := sl_visits sl; sl_scanned := x; sl_edges := sl_edges sl;
     sl_workspace := sl_workspace sl; sl_decoded := sl_decoded sl; sl_decode_limit := sl_decode_limit sl;
     sl_preparation := sl_preparation sl; sl_input_units := sl_input_units sl;
     sl_preparation_bytes := sl_preparation_bytes sl;
     sl_authorization_reads := sl_authorization_reads sl; sl_captured := sl_captured sl |}.
Definition set_edges sl (x : N) : Slice :=
  {| sl_limit := sl_limit sl; sl_visits := sl_visits sl; sl_scanned := sl_scanned sl; sl_edges := x;
     sl_workspace := sl_workspace sl; sl_decoded := sl_decoded sl; sl_decode_limit := sl_decode_limit sl;
     sl_preparation := sl_preparation sl; sl_input_units := sl_input_units sl;
     sl_preparation_bytes := sl_preparation_bytes sl;
     sl_authorization_reads := sl_authorization_reads sl; sl_captured := sl_captured sl |}.
Definition set_workspace sl (x : N) : Slice :=
  {| sl_limit := sl_limit sl; sl_visits := sl_visits sl; sl_scanned := sl_scanned sl; sl_edges := sl_edges sl;
     sl_workspace := x; sl_decoded := sl_decoded sl; sl_decode_limit := sl_decode_limit sl;
     sl_preparation := sl_preparation sl; sl_input_units := sl_input_units sl;
     sl_preparation_bytes := sl_preparation_bytes sl;
     sl_authorization_reads := sl_authorization_reads sl; sl_captured := sl_captured sl |}.
Definition set_decoded sl (x : N) : Slice :=
  {| sl_limit := sl_limit sl; sl_visits := sl_visits sl; sl_scanned := sl_scanned sl; sl_edges := sl_edges sl;
     sl_workspace := sl_workspace sl; sl_decoded := x; sl_decode_limit := sl_decode_limit sl;
     sl_preparation := sl_preparation sl; sl_input_units := sl_input_units sl;
     sl_preparation_bytes := sl_preparation_bytes sl;
     sl_authorization_reads := sl_authorization_reads sl; sl_captured := sl_captured sl |}.
Definition set_preparation sl (units bytes : N) : Slice :=
  {| sl_limit := sl_limit sl; sl_visits := sl_visits sl; sl_scanned := sl_scanned sl; sl_edges := sl_edges sl;
     sl_workspace := sl_workspace sl; sl_decoded := sl_decoded sl; sl_decode_limit := sl_decode_limit sl;
     sl_preparation := units; sl_input_units := sl_input_units sl; sl_preparation_bytes := bytes;
     sl_authorization_reads := sl_authorization_reads sl; sl_captured := sl_captured sl |}.
Definition set_input sl (units bytes : N) : Slice :=
  {| sl_limit := sl_limit sl; sl_visits := sl_visits sl; sl_scanned := sl_scanned sl; sl_edges := sl_edges sl;
     sl_workspace := sl_workspace sl; sl_decoded := sl_decoded sl; sl_decode_limit := sl_decode_limit sl;
     sl_preparation := sl_preparation sl; sl_input_units := units; sl_preparation_bytes := bytes;
     sl_authorization_reads := sl_authorization_reads sl; sl_captured := sl_captured sl |}.
Definition set_authorization sl (reads captured : N) : Slice :=
  {| sl_limit := sl_limit sl; sl_visits := sl_visits sl; sl_scanned := sl_scanned sl; sl_edges := sl_edges sl;
     sl_workspace := sl_workspace sl; sl_decoded := sl_decoded sl; sl_decode_limit := sl_decode_limit sl;
     sl_preparation := sl_preparation sl; sl_input_units := sl_input_units sl;
     sl_preparation_bytes := sl_preparation_bytes sl;
     sl_authorization_reads := reads; sl_captured := captured |}.

(** [charge_read], [charge_actor], [charge_edge]: whether the charge was made *)
Definition charge_read sl : bool * Slice :=
  if sl_limit sl <=? sl_visits sl + sl_scanned sl then (false, sl) else (true, set_visits sl (sl_visits sl + 1)).
Definition charge_actor sl : bool * Slice :=
  if sl_limit sl <=? sl_visits sl + sl_scanned sl then (false, sl) else (true, set_scanned sl (sl_scanned sl + 1)).
Definition charge_edge sl : bool * Slice :=
  if sl_limit sl <=? sl_edges sl then (false, sl) else (true, set_edges sl (sl_edges sl + 1)).

(** [exhausted] *)
Definition exhausted sl : bool :=
  (sl_limit sl <=? sl_visits sl + sl_scanned sl) || (sl_limit sl <=? sl_edges sl).

(** [reserve] *)
Definition reserve sl (bytes : N) : res Slice :=
  let required := saturating_add (sl_workspace sl) bytes in
  if MAX_WORKSPACE_BYTES <? required then Err (SyncCapacity "planner workspace")
  else Ok (set_workspace sl required).

(** [Slice::new] *)
Definition slice_new (limit workspace : N) : res Slice :=
  reserve {| sl_limit := limit; sl_visits := 0; sl_scanned := 0; sl_edges := 0; sl_workspace := 0;
             sl_decoded := 0; sl_decode_limit := MAX_PAGE_BYTES; sl_preparation := 0; sl_input_units := 0;
             sl_preparation_bytes := 0; sl_authorization_reads := 0; sl_captured := 0 |} workspace.

(** [charge_preparation] *)
Definition charge_preparation sl (units bytes : N) : res Slice :=
  let units := saturating_add (sl_preparation sl) units in
  let bytes := saturating_add (sl_preparation_bytes sl) bytes in
  if (16 * MAX_PAGE_VISITS <? units) || (MAX_PREPARATION_BYTES <? bytes)
  then Err (SyncCapacity "request preparation") else Ok (set_preparation sl units bytes).

(** [charge_input] *)
Definition charge_input sl (units bytes limit : N) : res Slice :=
  let units := saturating_add (sl_input_units sl) units in
  let bytes := saturating_add (sl_preparation_bytes sl) bytes in
  if (limit <? units) || (MAX_PREPARATION_BYTES <? bytes)
  then Err (SyncCapacity "request input") else Ok (set_input sl units bytes).

(** [charge_authorization] *)
Definition charge_authorization sl : res Slice :=
  if 16 <=? sl_authorization_reads sl then Err (SyncCapacity "request authorization")
  else Ok (set_authorization sl (sl_authorization_reads sl + 1) (sl_captured sl)).

(** [charge_capture] *)
Definition charge_capture sl (entries raw bytes : N) : res Slice :=
  if saturating_sub MAX_PAGE_BYTES (sl_captured sl) <? raw then Err (SyncCapacity "request snapshot")
  else
    sl ← charge_preparation sl entries bytes;
    Ok (set_authorization sl (sl_authorization_reads sl) (sl_captured sl + raw)).

(** [charge_decode] *)
Definition charge_decode sl (bytes : N) : res (bool * Slice) :=
  if sl_decode_limit sl <? bytes then Err (SyncCapacity "operation decoding")
  else if sl_decode_limit sl - sl_decoded sl <? bytes then Ok (false, sl)
  else Ok (true, set_decoded sl (sl_decoded sl + bytes)).

(** ** Sizes of collections *)

(** [tree_bytes] of entries of the given size and alignment *)
Definition tree_bytes (entry align : N) (entries : N) : N :=
  let nodes := saturating_sub entries 1 / 5 + 1 in
  let leaf := 11 * entry + 48 + 2 * align in
  saturating_add (saturating_mul nodes leaf) (saturating_mul ((nodes + 3) / 6) 96).

(** [vector_bytes] of elements of the given size and alignment *)
Definition vector_bytes (size align : N) (capacity : N) : N :=
  if capacity =? 0 then 0
  else
    let bytes := saturating_mul capacity size in
    let slack := if 65536 <=? bytes then 65536 else 32 in
    saturating_add bytes (slack + 2 * align).

(** The layout of [OpId] and [ActorId], arrays of bytes. *)
Definition id_tree (entries : N) : N := tree_bytes 32 1 entries.

(** ** Bounds of a slice *)

(** No counter passes its limit. *)
Record slice_ok sl : Prop := {
  sk_reads : sl_visits sl + sl_scanned sl ≤ sl_limit sl;
  sk_edges : sl_edges sl ≤ sl_limit sl;
  sk_workspace : sl_workspace sl ≤ MAX_WORKSPACE_BYTES;
  sk_decoded : sl_decoded sl ≤ sl_decode_limit sl;
  sk_preparation : sl_preparation sl ≤ 16 * MAX_PAGE_VISITS ∧ sl_preparation_bytes sl ≤ MAX_PREPARATION_BYTES;
  sk_authorization : sl_authorization_reads sl ≤ 16;
  sk_captured : sl_captured sl ≤ MAX_PAGE_BYTES;
}.

(** Reads and edges that are left. *)
Definition reads_left sl : nat := N.to_nat (sl_limit sl - (sl_visits sl + sl_scanned sl)).
Definition edges_left sl : nat := N.to_nat (sl_limit sl - sl_edges sl).
Definition work_left sl : nat := (reads_left sl + edges_left sl)%nat.

(** What the planner does to its slice: the limits stay, the counters grow. *)
Record slice_le sl sl' : Prop := {
  le_ok : slice_ok sl → slice_ok sl';
  le_limit : sl_limit sl' = sl_limit sl;
  le_reads : (reads_left sl' ≤ reads_left sl)%nat;
  le_edges : (edges_left sl' ≤ edges_left sl)%nat;
}.

#[global] Instance slice_le_preorder : PreOrder slice_le.
Proof.
  split; [by split|]. intros a b c [] []. split; [auto|congruence|lia|lia].
Qed.

Lemma work_left_le sl sl' : slice_le sl sl' → (work_left sl' ≤ work_left sl)%nat.
Proof. intros []. unfold work_left. lia. Qed.

Lemma work_left_lt sl sl' : slice_le sl sl' → (reads_left sl' < reads_left sl)%nat → (work_left sl' < work_left sl)%nat.
Proof. intros []. unfold work_left. lia. Qed.

Ltac slice_case :=
  repeat match goal with |- context [if ?b then _ else _] => destruct b eqn:? end; autorewrite with reflect in *.

Lemma charge_read_le sl : slice_le sl (charge_read sl).2 ∧
  ((charge_read sl).1 = true → (reads_left (charge_read sl).2 < reads_left sl)%nat).
Proof.
  unfold charge_read. slice_case; (split; [|try done]).
  - done.
  - split; [intros []; split; simpl; (done || lia)|done|unfold reads_left; simpl; lia|done].
  - intros _. unfold reads_left. simpl. lia.
Qed.

Lemma charge_actor_le sl : slice_le sl (charge_actor sl).2 ∧
  ((charge_actor sl).1 = true → (reads_left (charge_actor sl).2 < reads_left sl)%nat).
Proof.
  unfold charge_actor. slice_case; (split; [|try done]).
  - done.
  - split; [intros []; split; simpl; (done || lia)|done|unfold reads_left; simpl; lia|done].
  - intros _. unfold reads_left. simpl. lia.
Qed.

(** A read or actor is refused when the slice is used up. *)
Lemma charge_read_refused sl : (charge_read sl).1 = false → exhausted (charge_read sl).2 = true.
Proof. unfold charge_read, exhausted. slice_case; simpl; [|done]. intros _. by left. Qed.
Lemma charge_actor_refused sl : (charge_actor sl).1 = false → exhausted (charge_actor sl).2 = true.
Proof. unfold charge_actor, exhausted. slice_case; simpl; [|done]. intros _. by left. Qed.

Lemma charge_edge_le sl : slice_le sl (charge_edge sl).2 ∧
  ((charge_edge sl).1 = true → (edges_left (charge_edge sl).2 < edges_left sl)%nat).
Proof.
  unfold charge_edge. slice_case; (split; [|try done]).
  - done.
  - split; [intros []; split; simpl; (done || lia)|done|done|unfold edges_left; simpl; lia].
  - intros _. unfold edges_left. simpl. lia.
Qed.

Lemma reserve_le sl bytes sl' : reserve sl bytes = Ok sl' → slice_le sl sl'.
Proof.
  unfold reserve. slice_case; [done|]. intros [= <-].
  split; [intros []; split; simpl; (done || lia)|done..].
Qed.

Lemma charge_decode_le sl bytes b sl' : charge_decode sl bytes = Ok (b, sl') → slice_le sl sl'.
Proof.
  unfold charge_decode. slice_case; [done|by intros [= <- <-]|]. intros [= <- <-].
  split; [intros []; split; simpl; (done || lia)|done..].
Qed.

Lemma charge_preparation_ok sl units bytes sl' :
  charge_preparation sl units bytes = Ok sl' → slice_ok sl → slice_ok sl'.
Proof.
  unfold charge_preparation. slice_case; [done|]. intros [= <-] []. split; simpl; (done || lia).
Qed.

Lemma charge_input_ok sl units bytes limit sl' :
  charge_input sl units bytes limit = Ok sl' → slice_ok sl → slice_ok sl'.
Proof.
  unfold charge_input. slice_case; [done|]. intros [= <-] []. split; simpl; (done || lia).
Qed.

Lemma charge_authorization_ok sl sl' : charge_authorization sl = Ok sl' → slice_ok sl → slice_ok sl'.
Proof. unfold charge_authorization. slice_case; [done|]. intros [= <-] []. split; simpl; (done || lia). Qed.

Lemma charge_capture_ok sl entries raw bytes sl' :
  charge_capture sl entries raw bytes = Ok sl' → slice_ok sl → slice_ok sl'.
Proof.
  unfold charge_capture, saturating_sub. slice_case; [done|].
  intros (sl1 & Hsl1 & [= <-])%bind_ok Hok. pose proof (charge_preparation_ok _ _ _ _ Hsl1 Hok) as Hok1.
  assert (sl_captured sl1 = sl_captured sl) as Hcap.
  { unfold charge_preparation in Hsl1. by destruct (_ || _); simplify_eq. }
  destruct Hok, Hok1. split; simpl; (done || lia).
Qed.

Lemma slice_new_ok limit workspace sl : slice_new limit workspace = Ok sl → slice_ok sl.
Proof. intros Hnew. eapply le_ok; [by eapply reserve_le|]. by split; simpl; try lia. Qed.

(** ** Records a plan keeps in memory ([sync/records.rs], [sync/space.rs])

    Operations a plan loads are charged to a pool that all plans of an engine share; a
    plan that has to wait for a dependency keeps the operation in a cache of its own and
    gives up cached operations when the pool is full.

    The pool is two atomic counters. Other plans change them at any time: before its
    [n]-th access a plan finds what [others n] made of them. *)

Definition CACHE_BYTES : N := 67108864.
Definition POOL_BYTES : N := 268435456.

(** Sizes the compiler and postcard decide: of types, in bytes, and of an encoded operation. *)
Class Sizes := {
  serialized_size : Op → res N;
  size_of_op : N;
  size_of_head : N;
  size_of_ancestor : N;
  size_of_scan : N;
}.

(** What planning reads of a snapshot besides positions: the chain of an actor, and an
    operation, whose size it asks to reserve before it returns it ([get_reserved_op]). *)
Class PageRead (R : Type) := {
  rd_actor_range : R → TopicId → ActorId → N → nat → res (list (N * OpId));
  rd_reserved_op : R → OpId → res (option (N * res (option Op)));
}.

Record RecordPool := { rp_live : N; rp_cached : N }.

(** [struct Claim] and [struct Record] *)
Record Claim := { cl_bytes : N; cl_cached : bool }.
Record PageRecord := { rec_op : Op; rec_claim : Claim; rec_owned : bool }.

(** [struct Records], with the accesses to the pool so far *)
Record Records := {
  rs_pool : RecordPool;
  rs_records : gmap OpId PageRecord;
  rs_bytes : N;
  rs_accesses : nat;
}.

(** [LoadError] and the results of [Records::take] *)
Inductive Load :=
  | Loaded (rec : PageRecord)
  | Absent
  | LoadYield
  | LoadFailed (e : Error).

Section records.
Context `{!Sizes} {R : Type} `{!PageRead R} (others : nat → RecordPool → RecordPool).
Implicit Types (rs : Records) (rec : PageRecord) (i : OpId) (r : R).

(** [charge] *)
Definition charge (bytes : N) : N :=
  saturating_add (saturating_mul bytes 3) (3 * size_of_op + 256).

(** [Records::new] *)
Definition records_new (pool : RecordPool) : Records :=
  {| rs_pool := pool; rs_records := ∅; rs_bytes := 0; rs_accesses := 0 |}.

Definition set_records rs (records : gmap OpId PageRecord) (bytes : N) : Records :=
  {| rs_pool := rs_pool rs; rs_records := records; rs_bytes := bytes; rs_accesses := rs_accesses rs |}.

(** One atomic operation on the pool. *)
Definition access {A} (f : RecordPool → A * RecordPool) rs : A * Records :=
  let '(x, pool) := f (others (rs_accesses rs) (rs_pool rs)) in
  (x, {| rs_pool := pool; rs_records := rs_records rs; rs_bytes := rs_bytes rs; rs_accesses := S (rs_accesses rs) |}).

Definition sub_live (bytes : N) (p : RecordPool) : unit * RecordPool :=
  ((), {| rp_live := rp_live p - bytes; rp_cached := rp_cached p |}).
Definition sub_cached (bytes : N) (p : RecordPool) : unit * RecordPool :=
  ((), {| rp_live := rp_live p; rp_cached := rp_cached p - bytes |}).

(** [reserve_bytes] on either counter *)
Definition reserve_live (bytes : N) (p : RecordPool) : bool * RecordPool :=
  match checked_add (rp_live p) bytes with
  | Some next => if next <=? POOL_BYTES then (true, {| rp_live := next; rp_cached := rp_cached p |}) else (false, p)
  | None => (false, p)
  end.
Definition reserve_cached (bytes limit : N) (p : RecordPool) : bool * RecordPool :=
  match checked_add (rp_cached p) bytes with
  | Some next => if next <=? limit then (true, {| rp_live := rp_live p; rp_cached := next |}) else (false, p)
  | None => (false, p)
  end.

(** [Drop for Claim] *)
Definition claim_drop (c : Claim) rs : Records :=
  let rs := if cl_cached c then (access (sub_cached (cl_bytes c)) rs).2 else rs in
  (access (sub_live (cl_bytes c)) rs).2.

(** [Records::contains] *)
Definition contains_record rs i : bool := bool_decide (is_Some (rs_records rs !! i)).

(** [Records::evict] *)
Definition evict rs : bool * Records :=
  match bt_entries (rs_records rs) with
  | [] => (false, rs)
  | (i, rec) :: _ =>
      (true, claim_drop (rec_claim rec)
        (set_records rs (delete i (rs_records rs)) (rs_bytes rs - cl_bytes (rec_claim rec))))
  end.

(** The loop of [take] that reserves, evicting until the reservation fits. *)
Fixpoint reserve_loop (fuel : nat) (bytes : N) rs : bool * Records :=
  let '(granted, rs) := access (reserve_live bytes) rs in
  if granted then (true, rs)
  else
    let '(evicted, rs) := evict rs in
    match fuel with
    | S fuel => if evicted then reserve_loop fuel bytes rs else (false, rs)
    | O => (false, rs)
    end.

(** The closure [take] passes to [get_reserved_op]. *)
Inductive Reservation :=
  | Claimed (c : Claim)
  | Denied
  | Refused (e : Error).
Definition reserve_op (bytes : N) (sl : Slice) rs : Reservation * Slice * Records :=
  if MAX_PAGE_BYTES <? bytes then (Refused (SyncCapacity "operation exceeds page capacity"), sl, rs)
  else
    match charge_decode sl bytes with
    | Err e => (Refused e, sl, rs)
    | Ok (false, sl) => (Denied, sl, rs)
    | Ok (true, sl) =>
        let bytes := charge bytes in
        let '(granted, rs) := reserve_loop (size (rs_records rs)) bytes rs in
        if granted then (Claimed {| cl_bytes := bytes; cl_cached := false |}, sl, rs)
        else (Refused (SyncCapacity "operation retention pool is occupied"), sl, rs)
    end.

(** [take] once the operation was read: the reservation shrinks to what it needs. *)
Definition fit_claim (c : Claim) (op : Op) rs : Load * Records :=
  match serialized_size op with
  | Err e => (LoadFailed e, claim_drop c rs)
  | Ok size =>
      let actual := charge size in
      if cl_bytes c <? actual then (LoadFailed (SyncCapacity "operation exceeded its reservation"), claim_drop c rs)
      else
        let rs := (access (sub_live (cl_bytes c - actual)) rs).2 in
        (Loaded {| rec_op := op; rec_claim := {| cl_bytes := actual; cl_cached := false |}; rec_owned := false |}, rs)
  end.

(** [Records::take] *)
Definition take_record r i (sl : Slice) rs : Load * Slice * Records :=
  match rs_records rs !! i with
  | Some rec =>
      let rs := set_records rs (delete i (rs_records rs)) (rs_bytes rs - cl_bytes (rec_claim rec)) in
      let rs := (access (sub_cached (cl_bytes (rec_claim rec))) rs).2 in
      (Loaded {| rec_op := rec_op rec;
                 rec_claim := {| cl_bytes := cl_bytes (rec_claim rec); cl_cached := false |};
                 rec_owned := rec_owned rec |}, sl, rs)
  | None =>
      match rd_reserved_op r i with
      | Err e => (LoadFailed e, sl, rs)
      | Ok None => (Absent, sl, rs)
      | Ok (Some (bytes, read)) =>
          match reserve_op bytes sl rs with
          | (Refused e, sl, rs) => (LoadFailed e, sl, rs)
          | (Denied, sl, rs) => (LoadYield, sl, rs)
          | (Claimed c, sl, rs) =>
              match read with
              | Err e => (LoadFailed e, sl, claim_drop c rs)
              | Ok None => (Absent, sl, claim_drop c rs)
              | Ok (Some op) => let '(l, rs) := fit_claim c op rs in (l, sl, rs)
              end
          end
      end
  end.

(** [while self.bytes + record.claim.bytes > CACHE_BYTES && self.evict() {}] *)
Fixpoint shrink_loop (fuel : nat) (bytes : N) rs : Records :=
  match fuel with
  | O => rs
  | S fuel =>
      if CACHE_BYTES <? rs_bytes rs + bytes then
        let '(evicted, rs) := evict rs in
        if evicted then shrink_loop fuel bytes rs else rs
      else rs
  end.

(** [Records::keep]; a record that is not kept is dropped *)
Definition keep_record rec rs : Records :=
  let bytes := cl_bytes (rec_claim rec) in
  let i := op_id (rec_op rec) in
  if CACHE_BYTES <? bytes then claim_drop (rec_claim rec) rs
  else
    let rs := match rs_records rs !! i with
              | Some old =>
                  claim_drop (rec_claim old) (set_records rs (delete i (rs_records rs)) (rs_bytes rs - cl_bytes (rec_claim old)))
              | None => rs
              end in
    let rs := shrink_loop (S (size (rs_records rs))) bytes rs in
    let cache_limit := POOL_BYTES - 2 * charge MAX_PAGE_BYTES in
    let '(granted, rs) := access (reserve_cached bytes cache_limit) rs in
    if granted then
      set_records rs
        (<[i := {| rec_op := rec_op rec; rec_claim := {| cl_bytes := bytes; cl_cached := true |}; rec_owned := true |}]>
          (rs_records rs)) (rs_bytes rs + bytes)
    else claim_drop (rec_claim rec) rs.

(** [Record::into_op]: the operation leaves, its claim ends *)
Definition into_op rec rs : Op * Records := (rec_op rec, claim_drop (rec_claim rec) rs).

(** Dropping all records, with the frontier that holds them. *)
Definition records_drop rs : Records :=
  foldl (λ rs p, claim_drop (rec_claim p.2) (set_records rs (delete p.1 (rs_records rs)) (rs_bytes rs - cl_bytes (rec_claim p.2))))
    rs (bt_entries (rs_records rs)).
End records.
