(* ===== verification/Repair.v ===== *)
(** * Repair: serving the records a requester asks for by name ([sync/repair.rs])

    The wanted records are sent lowest generation first, each after its dependencies or
    when the peer holds them. A root that has to wait is passed over and its scan kept,
    so the work is spread over slices and no slice starts over. *)

From S2P Require Import Prelude Ids Pages ClockSpec Types Records StoreReads Integrity Requests.
From S2P Require Import Programs Slices.

#[local] Open Scope N_scope.

(** [struct Waiting] and [struct Scan] *)
Record Waiting := { wt_actor : ActorId; wt_seq : N; wt_generation : N }.
Record Scan := { sc_after : option OpId; sc_waiting : option Waiting }.
Definition scan_default : Scan := {| sc_after := None; sc_waiting := None |}.

(** [struct Repair] *)
Record Repair := {
  rp_expected : gset OpId;
  rp_remaining : gset OpId;
  rp_emitted : gset OpId;
  rp_missing : gset OpId;
  rp_missing_after : option OpId;
  rp_ordered : gset (N * OpId);
  rp_scans : gmap OpId Scan;
  rp_prepared : bool;
  rp_preparing : option OpId;
  rp_prepared_after : option OpId;
  rp_after : option (N * OpId);
  rp_selected : option (N * OpId);
}.

(** [struct RepairPage] *)
Record RepairPage := {
  rg_ops : list Op;
  rg_missing : gset OpId;
  rg_too_large : option OpId;
  rg_positions : gmap ActorId N;
  rg_continued : bool;
}.
Definition repair_page_default : RepairPage :=
  {| rg_ops := []; rg_missing := ∅; rg_too_large := None; rg_positions := ∅; rg_continued := false |}.

(** What a step works on: the repair, the page it builds, its slice and the records. *)
Record RepairRun := {
  ru_repair : Repair;
  ru_page : RepairPage;
  ru_slice : Slice;
  ru_records : Records;
}.

(** Setters. *)
Section setters.
Implicit Types (rp : Repair) (pg : RepairPage) (u : RepairRun).
Definition rp_set_expected rp (x : gset OpId) : Repair :=
  {| rp_expected := x; rp_remaining := rp_remaining rp; rp_emitted := rp_emitted rp; rp_missing := rp_missing rp;
     rp_missing_after := rp_missing_after rp; rp_ordered := rp_ordered rp; rp_scans := rp_scans rp; rp_prepared
     := rp_prepared rp; rp_preparing := rp_preparing rp; rp_prepared_after := rp_prepared_after rp; rp_after :=
     rp_after rp; rp_selected := rp_selected rp |}.
Definition rp_set_remaining rp (x : gset OpId) : Repair :=
  {| rp_expected := rp_expected rp; rp_remaining := x; rp_emitted := rp_emitted rp; rp_missing := rp_missing rp;
     rp_missing_after := rp_missing_after rp; rp_ordered := rp_ordered rp; rp_scans := rp_scans rp; rp_prepared
     := rp_prepared rp; rp_preparing := rp_preparing rp; rp_prepared_after := rp_prepared_after rp; rp_after :=
     rp_after rp; rp_selected := rp_selected rp |}.
Definition rp_set_emitted rp (x : gset OpId) : Repair :=
  {| rp_expected := rp_expected rp; rp_remaining := rp_remaining rp; rp_emitted := x; rp_missing := rp_missing
     rp; rp_missing_after := rp_missing_after rp; rp_ordered := rp_ordered rp; rp_scans := rp_scans rp;
     rp_prepared := rp_prepared rp; rp_preparing := rp_preparing rp; rp_prepared_after := rp_prepared_after rp;
     rp_after := rp_after rp; rp_selected := rp_selected rp |}.
Definition rp_set_missing rp (x : gset OpId) : Repair :=
  {| rp_expected := rp_expected rp; rp_remaining := rp_remaining rp; rp_emitted := rp_emitted rp; rp_missing :=
     x; rp_missing_after := rp_missing_after rp; rp_ordered := rp_ordered rp; rp_scans := rp_scans rp;
     rp_prepared := rp_prepared rp; rp_preparing := rp_preparing rp; rp_prepared_after := rp_prepared_after rp;
     rp_after := rp_after rp; rp_selected := rp_selected rp |}.
Definition rp_set_missing_after rp (x : option OpId) : Repair :=
  {| rp_expected := rp_expected rp; rp_remaining := rp_remaining rp; rp_emitted := rp_emitted rp; rp_missing :=
     rp_missing rp; rp_missing_after := x; rp_ordered := rp_ordered rp; rp_scans := rp_scans rp; rp_prepared :=
     rp_prepared rp; rp_preparing := rp_preparing rp; rp_prepared_after := rp_prepared_after rp; rp_after :=
     rp_after rp; rp_selected := rp_selected rp |}.
Definition rp_set_ordered rp (x : gset (N * OpId)) : Repair :=
  {| rp_expected := rp_expected rp; rp_remaining := rp_remaining rp; rp_emitted := rp_emitted rp; rp_missing :=
     rp_missing rp; rp_missing_after := rp_missing_after rp; rp_ordered := x; rp_scans := rp_scans rp;
     rp_prepared := rp_prepared rp; rp_preparing := rp_preparing rp; rp_prepared_after := rp_prepared_after rp;
     rp_after := rp_after rp; rp_selected := rp_selected rp |}.
Definition rp_set_scans rp (x : gmap OpId Scan) : Repair :=
  {| rp_expected := rp_expected rp; rp_remaining := rp_remaining rp; rp_emitted := rp_emitted rp; rp_missing :=
     rp_missing rp; rp_missing_after := rp_missing_after rp; rp_ordered := rp_ordered rp; rp_scans := x;
     rp_prepared := rp_prepared rp; rp_preparing := rp_preparing rp; rp_prepared_after := rp_prepared_after rp;
     rp_after := rp_after rp; rp_selected := rp_selected rp |}.
Definition rp_set_prepared rp (x : bool) : Repair :=
  {| rp_expected := rp_expected rp; rp_remaining := rp_remaining rp; rp_emitted := rp_emitted rp; rp_missing :=
     rp_missing rp; rp_missing_after := rp_missing_after rp; rp_ordered := rp_ordered rp; rp_scans := rp_scans
     rp; rp_prepared := x; rp_preparing := rp_preparing rp; rp_prepared_after := rp_prepared_after rp; rp_after
     := rp_after rp; rp_selected := rp_selected rp |}.
Definition rp_set_preparing rp (x : option OpId) : Repair :=
  {| rp_expected := rp_expected rp; rp_remaining := rp_remaining rp; rp_emitted := rp_emitted rp; rp_missing :=
     rp_missing rp; rp_missing_after := rp_missing_after rp; rp_ordered := rp_ordered rp; rp_scans := rp_scans
     rp; rp_prepared := rp_prepared rp; rp_preparing := x; rp_prepared_after := rp_prepared_after rp; rp_after :=
     rp_after rp; rp_selected := rp_selected rp |}.
Definition rp_set_prepared_after rp (x : option OpId) : Repair :=
  {| rp_expected := rp_expected rp; rp_remaining := rp_remaining rp; rp_emitted := rp_emitted rp; rp_missing :=
     rp_missing rp; rp_missing_after := rp_missing_after rp; rp_ordered := rp_ordered rp; rp_scans := rp_scans
     rp; rp_prepared := rp_prepared rp; rp_preparing := rp_preparing rp; rp_prepared_after := x; rp_after :=
     rp_after rp; rp_selected := rp_selected rp |}.
Definition rp_set_after rp (x : option (N * OpId)) : Repair :=
  {| rp_expected := rp_expected rp; rp_remaining := rp_remaining rp; rp_emitted := rp_emitted rp; rp_missing :=
     rp_missing rp; rp_missing_after := rp_missing_after rp; rp_ordered := rp_ordered rp; rp_scans := rp_scans
     rp; rp_prepared := rp_prepared rp; rp_preparing := rp_preparing rp; rp_prepared_after := rp_prepared_after
     rp; rp_after := x; rp_selected := rp_selected rp |}.
Definition rp_set_selected rp (x : option (N * OpId)) : Repair :=
  {| rp_expected := rp_expected rp; rp_remaining := rp_remaining rp; rp_emitted := rp_emitted rp; rp_missing :=
     rp_missing rp; rp_missing_after := rp_missing_after rp; rp_ordered := rp_ordered rp; rp_scans := rp_scans
     rp; rp_prepared := rp_prepared rp; rp_preparing := rp_preparing rp; rp_prepared_after := rp_prepared_after
     rp; rp_after := rp_after rp; rp_selected := x |}.
Definition rg_set_ops pg (x : list Op) : RepairPage :=
  {| rg_ops := x; rg_missing := rg_missing pg; rg_too_large := rg_too_large pg; rg_positions := rg_positions pg;
     rg_continued := rg_continued pg |}.
Definition rg_set_missing pg (x : gset OpId) : RepairPage :=
  {| rg_ops := rg_ops pg; rg_missing := x; rg_too_large := rg_too_large pg; rg_positions := rg_positions pg;
     rg_continued := rg_continued pg |}.
Definition rg_set_too_large pg (x : option OpId) : RepairPage :=
  {| rg_ops := rg_ops pg; rg_missing := rg_missing pg; rg_too_large := x; rg_positions := rg_positions pg;
     rg_continued := rg_continued pg |}.
Definition rg_set_positions pg (x : gmap ActorId N) : RepairPage :=
  {| rg_ops := rg_ops pg; rg_missing := rg_missing pg; rg_too_large := rg_too_large pg; rg_positions := x;
     rg_continued := rg_continued pg |}.
Definition rg_set_continued pg (x : bool) : RepairPage :=
  {| rg_ops := rg_ops pg; rg_missing := rg_missing pg; rg_too_large := rg_too_large pg; rg_positions :=
     rg_positions pg; rg_continued := x |}.
Definition ru_set_repair u (x : Repair) : RepairRun :=
  {| ru_repair := x; ru_page := ru_page u; ru_slice := ru_slice u; ru_records := ru_records u |}.
Definition ru_set_page u (x : RepairPage) : RepairRun :=
  {| ru_repair := ru_repair u; ru_page := x; ru_slice := ru_slice u; ru_records := ru_records u |}.
Definition ru_set_slice u (x : Slice) : RepairRun :=
  {| ru_repair := ru_repair u; ru_page := ru_page u; ru_slice := x; ru_records := ru_records u |}.
Definition ru_set_records u (x : Records) : RepairRun :=
  {| ru_repair := ru_repair u; ru_page := ru_page u; ru_slice := ru_slice u; ru_records := x |}.
End setters.

(** ** Sets that are paid for *)

(** [reserve_set], for entries of the given size and alignment *)
Definition reserve_set {A} `{Countable A} (entry align : N) (X : gset A) (x : A) (sl : Slice) : res Slice :=
  if bool_decide (x ∈ X) then Ok sl
  else
    let count := N.of_nat (size X) in
    reserve sl (tree_bytes entry align (count + 1) - tree_bytes entry align count).

(** [Repair::new] *)
Definition repair_new `{!Sizes} (wants : gset OpId) (sl : Slice) : res (Repair * Slice) :=
  sl ← reserve sl (2 * id_tree (N.of_nat (size wants)) + 2 * id_tree 0 + tree_bytes 40 8 0 + tree_bytes (32 + size_of_scan) 8 0);
  Ok ({| rp_expected := wants; rp_remaining := wants; rp_emitted := ∅; rp_missing := ∅; rp_missing_after := None;
         rp_ordered := ∅; rp_scans := ∅; rp_prepared := false; rp_preparing := None; rp_prepared_after := None;
         rp_after := None; rp_selected := None |}, sl).

(** [Repair::advance] *)
Definition advance (rp : Repair) (root : N * OpId) : Repair := rp_set_selected (rp_set_after rp (Some root)) None.

(** [Repair::contains], [Repair::pending], [Repair::offered] *)
Definition repair_contains (rp : Repair) (i : OpId) : bool :=
  bool_decide (i ∈ rp_remaining rp) || (bool_decide (i ∈ rp_expected rp) && bool_decide (i ∈ rp_missing rp)).
Definition repair_pending (rp : Repair) : bool :=
  negb (bool_decide (rp_remaining rp = ∅)) || bool_decide (is_Some (rp_missing_after rp)).
Definition repair_offered (rp : Repair) : bool := negb (bool_decide (rp_emitted rp = ∅)).

(** What sending [op] leaves of the repair. *)
Definition emit (rp : Repair) (i : OpId) (generation : N) : Repair :=
  let rp := rp_set_emitted rp ({[i]} ∪ rp_emitted rp) in
  let rp := rp_set_remaining rp (rp_remaining rp ∖ {[i]}) in
  rp_set_ordered (rp_set_scans rp (delete i (rp_scans rp))) (rp_ordered rp ∖ {[(generation, i)]}).

(** [Repair::admit] *)
Definition repair_admit (ops : list Op) (rp : Repair) (sl : Slice) : res (Repair * Slice) :=
  try_fold (λ '(rp, sl) op,
    if bool_decide (op_id op ∈ rp_remaining rp) then
      sl ← reserve_set 32 1 (rp_emitted rp) (op_id op) sl;
      Ok (emit rp (op_id op) (generation (obody op)), sl)
    else Ok (rp, sl)) (rp, sl) ops.

(** [Repair::confirm], of the wants of a request: whether it goes on with this repair *)
Definition repair_confirm (wants : gset OpId) (rp : Repair) : bool * Repair :=
  if negb (bool_decide (wants ⊆ rp_expected rp)) || negb (bool_decide (rp_expected rp ∖ wants ⊆ rp_emitted rp))
  then (false, rp)
  else (true, rp_set_emitted (rp_set_expected rp (rp_expected rp ∩ wants)) (rp_emitted rp ∩ wants)).

Section repair.
Context {C : Type} `{!ClockImpl C} `{!Sizes} {R : Type} `{!SnapshotRead R} `{!PageRead R}.
Context (others : nat → RecordPool → RecordPool).
(** [RepairView] *)
Context (read : R) (t : TopicId) (peer : C) (scope : ActorScope C).
Context (budget : PageBudget) (position_limit : N).
Implicit Types (u : RepairRun) (rp : Repair) (i : OpId).

(** Access to the parts of a run. *)
Definition repair_do (f : Repair → Repair) : prog RepairRun unit := modify (λ u, ru_set_repair u (f (ru_repair u))).
Definition page_do (f : RepairPage → RepairPage) : prog RepairRun unit := modify (λ u, ru_set_page u (f (ru_page u))).
Definition ru_charge (f : Slice → bool * Slice) : prog RepairRun bool :=
  state (λ u, let '(b, sl) := f (ru_slice u) in (b, ru_set_slice u sl)).
Definition ru_reserve (f : RepairRun → Slice → res Slice) : prog RepairRun unit :=
  attempt (λ u, sl ← f u (ru_slice u); Ok (ru_set_slice u sl)).
Definition continued : prog RepairRun unit := page_do (λ pg, rg_set_continued pg true).

(** [holds] *)
Definition repair_holds (a : ActorId) (seq : N) : bool :=
  holds_prefix scope a seq || (negb (unknown scope a) && (seq <=? ck_get peer a)).

(** [need_position] *)
Definition repair_need (a : ActorId) (generation : N) : prog RepairRun bool :=
  positions ← gets (λ u, rg_positions (ru_page u));
  let count := N.of_nat (size positions) in
  if bool_decide (positions !! a = None) && (position_limit <=? count) then mret false
  else
    _ ← (if bool_decide (positions !! a = None)
         then ru_reserve (λ _ sl, reserve sl (tree_bytes 40 8 (count + 1) - tree_bytes 40 8 count)) else mret ());
    _ ← page_do (λ pg, rg_set_positions pg (need (rg_positions pg) a generation));
    mret true.

(** [Repair::mark_missing] *)
Definition mark_missing i : prog RepairRun unit :=
  _ ← ru_reserve (λ u sl, reserve_set 32 1 (rp_missing (ru_repair u)) i sl);
  repair_do (λ rp, rp_set_remaining (rp_set_missing rp ({[i]} ∪ rp_missing rp)) (rp_remaining rp ∖ {[i]})).

(** [Repair::save_scan] *)
Definition save_scan i (scan : Scan) : prog RepairRun unit :=
  _ ← ru_reserve (λ u sl, if bool_decide (is_Some (rp_scans (ru_repair u) !! i)) then Ok sl else
        let count := N.of_nat (size (rp_scans (ru_repair u))) in
        reserve sl (tree_bytes (32 + size_of_scan) 8 (count + 1) - tree_bytes (32 + size_of_scan) 8 count));
  repair_do (λ rp, rp_set_scans rp (<[i := scan]> (rp_scans rp))).

(** One iteration of [prepare]: [Some b] when it returns. *)
Definition prepare_step (_ : unit) : prog RepairRun (unit + bool) :=
  rp ← gets ru_repair;
  if rp_prepared rp then mret (inr true)
  else
    next ← (match rp_preparing rp with
            | Some i => mret (inr i)
            | None =>
                match head (bt_after (rp_expected rp) (rp_prepared_after rp)) with
                | None => _ ← repair_do (λ rp, rp_set_prepared rp true); mret (inl true)
                | Some i =>
                    b ← ru_charge charge_actor;
                    if b : bool then _ ← repair_do (λ rp, rp_set_preparing rp (Some i)); mret (inr i) else mret (inl false)
                end
            end);
    match next with
    | inl b => mret (inr b)
    | inr i =>
        b ← ru_charge charge_read;
        if negb b then mret (inr false)
        else
          header ← try (rd_header read i);
          _ ← match header with
              | Some h =>
                  if bool_decide (hd_topic_id h = t) then
                    let root := (hd_generation h, i) in
                    _ ← ru_reserve (λ u sl, reserve_set 40 8 (rp_ordered (ru_repair u)) root sl);
                    repair_do (λ rp, rp_set_ordered rp ({[root]} ∪ rp_ordered rp))
                  else mark_missing i
              | None => mark_missing i
              end;
          _ ← repair_do (λ rp, rp_set_preparing (rp_set_prepared_after rp (Some i)) None);
          mret (inl ())
    end.

Definition prepare : prog RepairRun bool := loop_upto (λ u, S (reads_left (ru_slice u))) prepare_step ().

(** The loop over the dependencies of a root: whether the root is ready, and its scan. *)
Fixpoint repair_deps (root : N * OpId) (deps : list OpId) (scan : Scan) : prog RepairRun (bool * Scan) :=
  match deps with
  | [] => mret (true, scan)
  | dep :: deps =>
      b ← ru_charge charge_edge;
      if negb b then _ ← continued; mret (false, scan)
      else
        rp ← gets ru_repair;
        if repair_contains rp dep then _ ← repair_do (λ rp, advance rp root); mret (false, scan)
        else if bool_decide (dep ∈ rp_emitted rp)
        then repair_deps root deps {| sc_after := Some dep; sc_waiting := sc_waiting scan |}
        else
          b ← ru_charge charge_read;
          if negb b then _ ← continued; mret (false, scan)
          else
            header ← try (rd_header read dep);
            match header with
            | None => _ ← mark_missing dep; _ ← repair_do (λ rp, advance rp root); mret (false, scan)
            | Some h =>
                if repair_holds (hd_actor_id h) (hd_actor_seq h)
                then repair_deps root deps {| sc_after := Some dep; sc_waiting := sc_waiting scan |}
                else
                  named ← (if unknown scope (hd_actor_id h)
                           then repair_need (hd_actor_id h) (hd_generation h) else mret true);
                  if negb named then mret (false, scan)
                  else
                    _ ← repair_do (λ rp, advance rp root);
                    mret (false, {| sc_after := Some dep;
                                    sc_waiting := Some {| wt_actor := hd_actor_id h; wt_seq := hd_actor_seq h;
                                                          wt_generation := hd_generation h |} |})
            end
  end.

(** The root the loop works on: the selected one, or the next of the order. *)
Definition select_root : prog RepairRun (option (N * OpId)) :=
  rp ← gets ru_repair;
  match rp_selected rp with
  | Some root => mret (Some root)
  | None =>
      match head (bt_after (rp_ordered rp) (rp_after rp)) with
      | None => _ ← repair_do (λ rp, rp_set_after rp None); mret None
      | Some root =>
          b ← ru_charge charge_actor;
          if b : bool then _ ← repair_do (λ rp, rp_set_selected rp (Some root)); mret (Some root)
          else _ ← continued; mret None
      end
  end.

(** What a root waits for: the scan to go on with, or whether to go on with another root. *)
Definition check_waiting (root : N * OpId) : prog RepairRun (bool + Scan) :=
  scan ← gets (λ u, default scan_default (rp_scans (ru_repair u) !! root.2));
  match sc_waiting scan with
  | None => mret (inr scan)
  | Some w =>
      b ← ru_charge charge_actor;
      if negb b then _ ← continued; mret (inl false)
      else if repair_holds (wt_actor w) (wt_seq w) then
        let scan := {| sc_after := sc_after scan; sc_waiting := None |} in
        _ ← save_scan root.2 scan; mret (inr scan)
      else
        named ← (if unknown scope (wt_actor w) then repair_need (wt_actor w) (wt_generation w) else mret true);
        if negb named then mret (inl false)
        else _ ← repair_do (λ rp, advance rp root); mret (inl true)
  end.

(** [records.take] with its charge; [None] when the slice has no read left *)
Definition repair_load i : prog RepairRun (option Load) :=
  cached ← gets (λ u, contains_record (ru_records u) i);
  b ← (if cached : bool then mret true else ru_charge charge_read);
  if negb b then mret None
  else
    l ← state (λ u, let '(l, sl, rs) := take_record others read i (ru_slice u) (ru_records u) in
                    (l, ru_set_records (ru_set_slice u sl) rs));
    mret (Some l).

Definition repair_keep (rec : PageRecord) : prog RepairRun unit :=
  modify (λ u, ru_set_records u (keep_record others rec (ru_records u))).

(** A root whose dependencies are all there is sent when it fits. *)
Definition repair_send (root : N * OpId) (rec : PageRecord) (scan : Scan) (bytes : N) : prog RepairRun (N + unit) :=
  size ← try (serialized_size (rec_op rec));
  if pb_bytes budget - bytes <? size then
    _ ← page_do (λ pg, if bool_decide (rg_ops pg = []) then rg_set_too_large pg (Some root.2) else pg);
    _ ← save_scan root.2 scan;
    _ ← repair_keep rec;
    mret (inr ())
  else
    _ ← ru_reserve (λ u sl, reserve_set 32 1 (rp_emitted (ru_repair u)) root.2 sl);
    _ ← repair_do (λ rp, advance (emit rp root.2 root.1) root);
    _ ← modify (λ u, let '(op, rs) := into_op others rec (ru_records u) in
          ru_set_records (ru_set_page u (rg_set_ops (ru_page u) (rg_ops (ru_page u) ++ [op]))) rs);
    mret (inl (bytes + size)).

(** One iteration of the loop of [step]. *)
Definition repair_step (bytes : N) : prog RepairRun (N + unit) :=
  ops ← gets (λ u, rg_ops (ru_page u));
  if negb ((N.of_nat (length ops) <? pb_ops budget) && (bytes <? pb_bytes budget)) then mret (inr ())
  else
    root ← select_root;
    match root with
    | None => mret (inr ())
    | Some root =>
        rp ← gets ru_repair;
        if bool_decide (root.2 ∉ rp_remaining rp) then _ ← repair_do (λ rp, advance rp root); mret (inl bytes)
        else
          waiting ← check_waiting root;
          match waiting with
          | inl true => mret (inl bytes)
          | inl false => mret (inr ())
          | inr scan =>
              l ← repair_load root.2;
              match l with
              | None | Some LoadYield => _ ← continued; mret (inr ())
              | Some (LoadFailed e) => try (Err e)
              | Some Absent => _ ← mark_missing root.2; _ ← repair_do (λ rp, advance rp root); mret (inl bytes)
              | Some (Loaded rec) =>
                  '(ready, scan) ← repair_deps root (bt_after (deps (obody (rec_op rec))) (sc_after scan)) scan;
                  if ready : bool then repair_send root rec scan bytes
                  else
                    _ ← save_scan root.2 scan;
                    _ ← repair_keep rec;
                    u ← gets (λ u, u);
                    if rg_continued (ru_page u) || negb (bool_decide (rp_after (ru_repair u) = Some root))
                    then mret (inr ()) else mret (inl bytes)
              end
          end
    end.

(** The part of the missing records the page names. *)
Definition name_missing : prog RepairRun unit :=
  missing ← gets (λ u, rp_missing (ru_repair u));
  if bool_decide (missing = ∅) then mret ()
  else
    _ ← ru_reserve (λ _ sl, reserve sl (id_tree (N.of_nat (Nat.min (size missing) MAX_PAGE_MISSING))));
    after ← gets (λ u, rp_missing_after (ru_repair u));
    let named := page missing after MAX_PAGE_MISSING in
    _ ← page_do (λ pg, rg_set_missing pg (list_to_set named ∪ rg_missing pg));
    match last named with
    | Some l =>
        if bool_decide (bt_after missing (Some l) = [])
        then repair_do (λ rp, rp_set_missing_after rp None)
        else _ ← repair_do (λ rp, rp_set_missing_after rp (Some l)); continued
    | None => repair_do (λ rp, rp_set_missing_after rp None)
    end.

(** The iterations are bounded by the slice: one without a charge uses up the selection. *)
Definition repair_fuel u : nat :=
  S (2 * work_left (ru_slice u) + (if bool_decide (is_Some (rp_selected (ru_repair u))) then 1 else 0))%nat.

(** [Repair::step] *)
Definition step : prog RepairRun unit :=
  if (pb_ops budget =? 0) || (pb_bytes budget =? 0) then mret ()
  else
    prepared ← prepare;
    if negb prepared then continued
    else
      _ ← loop_upto repair_fuel repair_step 0;
      name_missing.
End repair.
