(* ===== verification/Pager.v ===== *)
(** * Pager: planning one page of operations for a peer ([sync/plan.rs])

    A page is a causal prefix of what a peer lacks. The planner merges the chains of the
    actors the peer is behind on, lowest generation first. The head of a chain is sent
    when its dependencies were sent or the peer holds them; else it is suspended until
    the actor of the dependency gets there, which may raise the limit of that actor. A
    plan works within a slice and what is left of it is kept in a frontier, from which
    the next request goes on.

    [Walk] has the fields that [Frontier] and [Pager] share and that move from one to the
    other. Heaps are sorted lists, the cursor over a clock is the list of the entries that
    are left, and the stack of ancestors has its top first. *)

From S2P Require Import Prelude Ids Pages ClockSpec Types Records StoreReads Integrity Requests.
From S2P Require Import Programs Slices Repair.

#[local] Open Scope N_scope.

(** [RangeHead]: generation, actor, sequence, id and limit *)
Abbreviation RangeHead := (N * ActorId * N * OpId * N)%type.
Definition h_actor (h : RangeHead) : ActorId := h.1.1.1.2.
Definition h_seq (h : RangeHead) : N := h.1.1.2.
Definition h_id (h : RangeHead) : OpId := h.1.2.
Definition h_limit (h : RangeHead) : N := h.2.
Definition h_generation (h : RangeHead) : N := h.1.1.1.1.

(** [BinaryHeap::push]; the least element is the first, the greatest the last *)
Fixpoint heap_push (h : RangeHead) (l : list RangeHead) : list RangeHead :=
  match l with
  | [] => [h]
  | x :: l' => if bltb x h then x :: heap_push h l' else h :: l
  end.

(** [Vec::swap_remove] *)
Definition swap_remove {A} (i : nat) (l : list A) : list A :=
  match last l with
  | Some x => take (length l - 1) (<[i := x]> l)
  | None => l
  end.

(** [enum ActorState] *)
Inductive ActorState :=
  | Active
  | Suspended
  | Reached (limit : N)
  | Blocked.

(** [struct HeadScan] *)
Record HeadScan := { hs_actor : ActorId; hs_after : N; hs_limit : N; hs_next : option (N * OpId) }.

(** [enum Update] *)
Inductive Update :=
  | Wake (actor : ActorId) (seq : N) (index : nat)
  | Raise (actor : ActorId) (limit : N) (index : nat) (raised : option N)
  | Finish (actor : ActorId) (raised : option N) (index : nat)
  | Stop (actor : ActorId).

(** [struct Ancestor], with its pending [Dependency], and [struct DependencyScan] *)
Record Ancestor := {
  an_id : OpId;
  an_actor : ActorId;
  an_seq : N;
  an_cursor : DependencyCursor;
  an_pending : option (OpId * option OpHeader);
}.
Record DependencyScan := {
  ds_after : option OpId;
  ds_needed : gmap ActorId (N * N);
  ds_checked : option ActorId;
  ds_revision : N;
  ds_ancestry : list Ancestor;
}.
Definition scan_empty : DependencyScan :=
  {| ds_after := None; ds_needed := ∅; ds_checked := None; ds_revision := 0; ds_ancestry := [] |}.
Definition ds_set_after (ds : DependencyScan) (x : option OpId) : DependencyScan :=
  {| ds_after := x; ds_needed := ds_needed ds; ds_checked := ds_checked ds; ds_revision := ds_revision ds;
     ds_ancestry := ds_ancestry ds |}.
Definition ds_set_needed (ds : DependencyScan) (x : gmap ActorId (N * N)) : DependencyScan :=
  {| ds_after := ds_after ds; ds_needed := x; ds_checked := ds_checked ds; ds_revision := ds_revision ds;
     ds_ancestry := ds_ancestry ds |}.
Definition ds_set_checked (ds : DependencyScan) (x : option ActorId) (revision : N) : DependencyScan :=
  {| ds_after := ds_after ds; ds_needed := ds_needed ds; ds_checked := x; ds_revision := revision;
     ds_ancestry := ds_ancestry ds |}.
Definition ds_set_ancestry (ds : DependencyScan) (x : list Ancestor) : DependencyScan :=
  {| ds_after := ds_after ds; ds_needed := ds_needed ds; ds_checked := ds_checked ds;
     ds_revision := ds_revision ds; ds_ancestry := x |}.

(** [enum Wait] *)
Inductive Wait :=
  | WYield
  | WUnknown
  | WReady
  | WBlocked
  | WPosition (actor : ActorId) (seq : N).

(** [PlannedPage] *)
Record PlannedPage := {
  pp_ops : list Op;
  pp_more : bool;
  pp_missing : gset OpId;
  pp_too_large : option OpId;
  pp_positions : gset ActorId;
  pp_continued : bool;
}.
Definition page_default : PlannedPage :=
  {| pp_ops := []; pp_more := false; pp_missing := ∅; pp_too_large := None; pp_positions := ∅; pp_continued := false |}.

(** The fields of a plan that outlive its slice. *)
Record Walk (C : Type) := MkWalk {
  w_repair : option Repair;
  w_revision : N;
  w_pending : list HeadScan;
  w_updates : list Update;
  w_active : list RangeHead;
  w_selecting : option (list RangeHead);
  w_remainder : bool;
  w_deferred : list (ActorId * N);
  w_suspended : gmap ActorId (list (N * RangeHead));
  w_resumable : list RangeHead;
  w_states : gmap ActorId ActorState;
  w_covered : C;
  w_blocked : gset OpId;
  w_missing : gset OpId;
  w_positions : gmap ActorId N;
  w_checked : gmap OpId DependencyScan;
  w_records : Records;
}.
Arguments MkWalk {C}. Arguments w_repair {C}. Arguments w_revision {C}. Arguments w_pending {C}. Arguments
w_updates {C}. Arguments w_active {C}. Arguments w_selecting {C}. Arguments w_remainder {C}. Arguments
w_deferred {C}. Arguments w_suspended {C}. Arguments w_resumable {C}. Arguments w_states {C}. Arguments
w_covered {C}. Arguments w_blocked {C}. Arguments w_missing {C}. Arguments w_positions {C}. Arguments
w_checked {C}. Arguments w_records {C}.

(** [struct Pager]: what changes of it; the rest are parameters of the section below. *)
Record Pager (C : Type) := MkPager {
  pg_walk : Walk C;
  pg_slice : Slice;
  pg_ended : bool;
  pg_more : bool;
}.
Arguments MkPager {C}. Arguments pg_walk {C}. Arguments pg_slice {C}. Arguments pg_ended {C}. Arguments pg_more {C}.

Section setters.
Context {C : Type}.
Implicit Types (w : Walk C) (p : Pager C).
Definition w_set_repair w (x : option Repair) : Walk C :=
  MkWalk x (w_revision w) (w_pending w) (w_updates w) (w_active w) (w_selecting w) (w_remainder w) (w_deferred
    w) (w_suspended w) (w_resumable w) (w_states w) (w_covered w) (w_blocked w) (w_missing w) (w_positions w)
    (w_checked w) (w_records w).
Definition w_set_revision w (x : N) : Walk C :=
  MkWalk (w_repair w) x (w_pending w) (w_updates w) (w_active w) (w_selecting w) (w_remainder w) (w_deferred
    w) (w_suspended w) (w_resumable w) (w_states w) (w_covered w) (w_blocked w) (w_missing w) (w_positions w)
    (w_checked w) (w_records w).
Definition w_set_pending w (x : list HeadScan) : Walk C :=
  MkWalk (w_repair w) (w_revision w) x (w_updates w) (w_active w) (w_selecting w) (w_remainder w) (w_deferred
    w) (w_suspended w) (w_resumable w) (w_states w) (w_covered w) (w_blocked w) (w_missing w) (w_positions w)
    (w_checked w) (w_records w).
Definition w_set_updates w (x : list Update) : Walk C :=
  MkWalk (w_repair w) (w_revision w) (w_pending w) x (w_active w) (w_selecting w) (w_remainder w) (w_deferred
    w) (w_suspended w) (w_resumable w) (w_states w) (w_covered w) (w_blocked w) (w_missing w) (w_positions w)
    (w_checked w) (w_records w).
Definition w_set_active w (x : list RangeHead) : Walk C :=
  MkWalk (w_repair w) (w_revision w) (w_pending w) (w_updates w) x (w_selecting w) (w_remainder w) (w_deferred
    w) (w_suspended w) (w_resumable w) (w_states w) (w_covered w) (w_blocked w) (w_missing w) (w_positions w)
    (w_checked w) (w_records w).
Definition w_set_selecting w (x : option (list RangeHead)) : Walk C :=
  MkWalk (w_repair w) (w_revision w) (w_pending w) (w_updates w) (w_active w) x (w_remainder w) (w_deferred w)
    (w_suspended w) (w_resumable w) (w_states w) (w_covered w) (w_blocked w) (w_missing w) (w_positions w)
    (w_checked w) (w_records w).
Definition w_set_remainder w (x : bool) : Walk C :=
  MkWalk (w_repair w) (w_revision w) (w_pending w) (w_updates w) (w_active w) (w_selecting w) x (w_deferred w)
    (w_suspended w) (w_resumable w) (w_states w) (w_covered w) (w_blocked w) (w_missing w) (w_positions w)
    (w_checked w) (w_records w).
Definition w_set_deferred w (x : list (ActorId * N)) : Walk C :=
  MkWalk (w_repair w) (w_revision w) (w_pending w) (w_updates w) (w_active w) (w_selecting w) (w_remainder w)
    x (w_suspended w) (w_resumable w) (w_states w) (w_covered w) (w_blocked w) (w_missing w) (w_positions w)
    (w_checked w) (w_records w).
Definition w_set_suspended w (x : gmap ActorId (list (N * RangeHead))) : Walk C :=
  MkWalk (w_repair w) (w_revision w) (w_pending w) (w_updates w) (w_active w) (w_selecting w) (w_remainder w)
    (w_deferred w) x (w_resumable w) (w_states w) (w_covered w) (w_blocked w) (w_missing w) (w_positions w)
    (w_checked w) (w_records w).
Definition w_set_resumable w (x : list RangeHead) : Walk C :=
  MkWalk (w_repair w) (w_revision w) (w_pending w) (w_updates w) (w_active w) (w_selecting w) (w_remainder w)
    (w_deferred w) (w_suspended w) x (w_states w) (w_covered w) (w_blocked w) (w_missing w) (w_positions w)
    (w_checked w) (w_records w).
Definition w_set_states w (x : gmap ActorId ActorState) : Walk C :=
  MkWalk (w_repair w) (w_revision w) (w_pending w) (w_updates w) (w_active w) (w_selecting w) (w_remainder w)
    (w_deferred w) (w_suspended w) (w_resumable w) x (w_covered w) (w_blocked w) (w_missing w) (w_positions w)
    (w_checked w) (w_records w).
Definition w_set_covered w (x : C) : Walk C :=
  MkWalk (w_repair w) (w_revision w) (w_pending w) (w_updates w) (w_active w) (w_selecting w) (w_remainder w)
    (w_deferred w) (w_suspended w) (w_resumable w) (w_states w) x (w_blocked w) (w_missing w) (w_positions w)
    (w_checked w) (w_records w).
Definition w_set_blocked w (x : gset OpId) : Walk C :=
  MkWalk (w_repair w) (w_revision w) (w_pending w) (w_updates w) (w_active w) (w_selecting w) (w_remainder w)
    (w_deferred w) (w_suspended w) (w_resumable w) (w_states w) (w_covered w) x (w_missing w) (w_positions w)
    (w_checked w) (w_records w).
Definition w_set_missing w (x : gset OpId) : Walk C :=
  MkWalk (w_repair w) (w_revision w) (w_pending w) (w_updates w) (w_active w) (w_selecting w) (w_remainder w)
    (w_deferred w) (w_suspended w) (w_resumable w) (w_states w) (w_covered w) (w_blocked w) x (w_positions w)
    (w_checked w) (w_records w).
Definition w_set_positions w (x : gmap ActorId N) : Walk C :=
  MkWalk (w_repair w) (w_revision w) (w_pending w) (w_updates w) (w_active w) (w_selecting w) (w_remainder w)
    (w_deferred w) (w_suspended w) (w_resumable w) (w_states w) (w_covered w) (w_blocked w) (w_missing w) x
    (w_checked w) (w_records w).
Definition w_set_checked w (x : gmap OpId DependencyScan) : Walk C :=
  MkWalk (w_repair w) (w_revision w) (w_pending w) (w_updates w) (w_active w) (w_selecting w) (w_remainder w)
    (w_deferred w) (w_suspended w) (w_resumable w) (w_states w) (w_covered w) (w_blocked w) (w_missing w)
    (w_positions w) x (w_records w).
Definition w_set_records w (x : Records) : Walk C :=
  MkWalk (w_repair w) (w_revision w) (w_pending w) (w_updates w) (w_active w) (w_selecting w) (w_remainder w)
    (w_deferred w) (w_suspended w) (w_resumable w) (w_states w) (w_covered w) (w_blocked w) (w_missing w)
    (w_positions w) (w_checked w) x.
Definition set_walk p (w : Walk C) : Pager C := MkPager w (pg_slice p) (pg_ended p) (pg_more p).
Definition set_slice p (sl : Slice) : Pager C := MkPager (pg_walk p) sl (pg_ended p) (pg_more p).
Definition set_ended p (b : bool) : Pager C := MkPager (pg_walk p) (pg_slice p) b (pg_more p).
Definition set_more p (b : bool) : Pager C := MkPager (pg_walk p) (pg_slice p) (pg_ended p) b.
End setters.

(** [struct Frontier]: a plan between two requests, with the page it offered last *)
Record Offered := { of_id : OpId; of_actor : ActorId; of_seq : N; of_held : bool }.
Record Frontier (C : Type) := MkFrontier {
  fr_walk : Walk C;
  fr_evictable : bool;
  fr_offered : list Offered;
  fr_offer_positions : gset ActorId;
  fr_offer_missing : gset OpId;
  fr_offer_floor : option C;
  fr_replay : nat;
  fr_replaying : bool;
  fr_fresh : bool;
}.
Arguments MkFrontier {C}. Arguments fr_walk {C}. Arguments fr_evictable {C}. Arguments fr_offered {C}.
Arguments fr_offer_positions {C}. Arguments fr_offer_missing {C}. Arguments fr_offer_floor {C}.
Arguments fr_replay {C}. Arguments fr_replaying {C}. Arguments fr_fresh {C}.

(** A frontier that offered nothing. *)
Definition frontier_of {C} (w : Walk C) (evictable fresh : bool) : Frontier C :=
  MkFrontier w evictable [] ∅ ∅ None 0 false fresh.

(** [Frontier::new] *)
Definition frontier_new {C} `{!ClockImpl C} (peer : C) (scope : ActorScope C) (window : nat) (records : Records) : Frontier C :=
  frontier_of
    (MkWalk None 0 [] [] []
       (if informed scope && bool_decide (window < size (sc_named scope))%nat then Some [] else None)
       false [] ∅ [] ∅ peer ∅ ∅ ∅ ∅ records) false true.

Section pager.
Context {C : Type} `{!ClockImpl C} `{!Sizes} {R : Type} `{!SnapshotRead R} `{!PageRead R}.
Context (others : nat → RecordPool → RecordPool).
Context (read : R) (t : TopicId) (local : C) (goal : option C) (scope : ActorScope C) (sent : gset OpId).
Context (window position_limit : nat).
Implicit Types (w : Walk C) (p : Pager C) (a : ActorId) (i : OpId) (scan : DependencyScan).
Abbreviation plan A := (prog (Pager C) A).

(** ** Access to the parts of a pager *)

Definition walk_of {A} (f : Walk C → A) : plan A := gets (λ p, f (pg_walk p)).
Definition walk_do (f : Walk C → Walk C) : plan unit := modify (λ p, set_walk p (f (pg_walk p))).
Definition pg_charge (f : Slice → bool * Slice) : plan bool :=
  state (λ p, let '(b, sl) := f (pg_slice p) in (b, set_slice p sl)).
Definition pg_reserve (bytes : N) : plan unit :=
  attempt (λ p, sl ← reserve (pg_slice p) bytes; Ok (set_slice p sl)).
Definition pg_exhausted : plan bool := gets (λ p, exhausted (pg_slice p)).
Definition end_slice : plan unit := modify (λ p, set_ended p true).

Definition push_active (h : RangeHead) w : Walk C := w_set_active w (heap_push h (w_active w)).
Definition put_state a (x : ActorState) w : Walk C := w_set_states w (<[a := x]> (w_states w)).
Definition put_missing i w : Walk C := w_set_missing w ({[i]} ∪ w_missing w).
Definition put_checked i scan w : Walk C := w_set_checked w (<[i := scan]> (w_checked w)).
(** Queueing an update for the heads that wait for [a], when there are any. *)
Definition put_update a (u : Update) w : Walk C :=
  if bool_decide (is_Some (w_suspended w !! a)) then w_set_updates w (w_updates w ++ [u]) else w.

(** [Pager::limit] *)
Definition limit a : N :=
  match goal with Some g => N.min (ck_get g a) (ck_get local a) | None => ck_get local a end.

(** [Pager::observe] *)
Definition observed a (seq : N) w : Walk C :=
  if ck_get (w_covered w) a <? seq
  then w_set_revision (w_set_covered w (ck_observe (w_covered w) a seq)) ((w_revision w + 1) mod (u64_max + 1))
  else w.
Definition observe a (seq : N) : plan unit := walk_do (observed a seq).
(** [if let Some(known) = known_prefix(a) { observe(a, known.min(seq)) }] *)
Definition observe_known a (seq : N) : plan unit :=
  match known_prefix scope a with Some known => observe a (N.min known seq) | None => mret () end.

(** [Pager::wake] *)
Definition wake a (seq : N) : plan unit := walk_do (put_update a (Wake a seq 0)).

(** [Pager::reach] *)
Definition reached a (lim : N) w : Walk C :=
  let w := put_state a (Reached lim) w in
  if bool_decide (is_Some (w_suspended w !! a)) then w_set_updates w (w_updates w ++ [Raise a lim 0 None])
  else if informed scope then w_set_states w (delete a (w_states w)) else w.
Definition reach a (lim : N) : plan unit := walk_do (reached a lim).

(** [Pager::stop] and [Pager::block] *)
Definition stopped a w : Walk C := put_update a (Stop a) (put_state a Blocked w).
Definition stop a : plan unit := modify (λ p, set_more (set_walk p (stopped a (pg_walk p))) true).
Definition block a i : plan unit :=
  _ ← walk_do (λ w, w_set_blocked w ({[i]} ∪ w_blocked w)); stop a.

(** [Pager::activate] *)
Definition scan_from a (after lim : N) : HeadScan :=
  {| hs_actor := a; hs_after := after; hs_limit := lim; hs_next := None |}.
Definition activated a (after lim : N) w : Walk C :=
  put_state a Active (w_set_pending w (w_pending w ++ [scan_from a after lim])).
Definition activate a (after lim : N) : plan unit :=
  known ← walk_of (λ w, bool_decide (is_Some (w_states w !! a)));
  _ ← (if known : bool then mret () else pg_reserve 768);
  walk_do (activated a after lim).

(** ** Filling the active set *)

(** A scan goes back to the front of the queue when the slice has no read left. *)
Definition scan_later (scan : HeadScan) : plan (option RangeHead) :=
  _ ← walk_do (λ w, w_set_pending w (scan :: w_pending w)); _ ← end_slice; mret None.

(** [Pager::head] once the next position of the chain is known *)
Definition head_at (scan : HeadScan) (seq : N) i : plan (option RangeHead) :=
  b ← pg_charge charge_read;
  if negb b then scan_later {| hs_actor := hs_actor scan; hs_after := hs_after scan; hs_limit := hs_limit scan;
                               hs_next := Some (seq, i) |}
  else
    meta ← try (rd_header read i);
    match meta with
    | Some m =>
        if seq =? hs_after scan + 1 then mret (Some (hd_generation m, hs_actor scan, seq, i, hs_limit scan))
        else
          _ ← pg_reserve 256;
          _ ← walk_do (λ w, match hd_actor_prev m with Some prev => put_missing prev w | None => w end);
          _ ← stop (hs_actor scan);
          mret None
    | None =>
        _ ← pg_reserve 256;
        _ ← walk_do (put_missing i);
        _ ← stop (hs_actor scan);
        mret None
    end.

(** [Pager::head] *)
Definition head_of (scan : HeadScan) : plan (option RangeHead) :=
  match hs_next scan with
  | Some (seq, i) => head_at scan seq i
  | None =>
      b ← pg_charge charge_read;
      if negb b then scan_later scan
      else
        range ← try (rd_actor_range read t (hs_actor scan) (hs_after scan) 1);
        match last range with
        | None => _ ← stop (hs_actor scan); mret None
        | Some (seq, i) => head_at scan seq i
        end
  end.

(** The end of [Pager::select]: the selected heads, greatest first, become active. *)
Fixpoint select_drain (l : list RangeHead) : plan unit :=
  match l with
  | [] => end_slice
  | h :: l' =>
      b ← pg_charge charge_actor;
      if negb b then walk_do (λ w, w_set_selecting w (Some (reverse l)))
      else
        _ ← pg_reserve 768;
        _ ← walk_do (λ w, push_active h (put_state (h_actor h) Active w));
        select_drain l'
  end.

(** A head among the lowest [window] ones. *)
Definition select_head (h : RangeHead) (selected : list RangeHead) : plan (list RangeHead) :=
  if bool_decide (length selected < window)%nat then
    _ ← pg_reserve (2 * size_of_head); mret (heap_push h selected)
  else
    _ ← walk_do (λ w, w_set_remainder w true);
    mret (match last selected with
          | Some l => if bltb h l then heap_push h (take (length selected - 1) selected) else selected
          | None => selected
          end).

Definition keep_selecting (selected : list RangeHead) : plan unit := walk_do (λ w, w_set_selecting w (Some selected)).

(** One iteration of [Pager::select]. *)
Definition select_step (selected : list RangeHead) : plan (list RangeHead + unit) :=
  '(pending, deferred) ← walk_of (λ w, (w_pending w, w_deferred w));
  ex ← pg_exhausted;
  match pending, deferred with
  | [], [] => _ ← select_drain (reverse selected); mret (inr ())
  | _, _ =>
      if ex : bool then _ ← keep_selecting selected; mret (inr ())
      else
        match pending with
        | scan :: pending =>
            _ ← walk_do (λ w, w_set_pending w pending);
            h ← head_of scan;
            selected ← (match h with Some h => select_head h selected | None => mret selected end);
            ended ← gets pg_ended;
            if ended : bool then _ ← keep_selecting selected; mret (inr ()) else mret (inl selected)
        | [] =>
            b ← pg_charge charge_actor;
            if negb b then _ ← keep_selecting selected; mret (inr ())
            else
              match deferred with
              | [] => mret (inl selected)
              | (a, _) :: deferred =>
                  _ ← walk_do (λ w,
                    let after := ck_get (w_covered w) a in
                    let w := w_set_deferred w deferred in
                    if after <? limit a
                    then w_set_pending w (w_pending w ++ [scan_from a after (limit a)])
                    else w);
                  mret (inl selected)
              end
        end
  end.

(** [Pager::select] *)
Definition select (selected : list RangeHead) : plan unit :=
  loop_upto (λ p, S (reads_left (pg_slice p))) select_step selected.

(** One iteration of the loop of [Pager::fill]. *)
Definition fill_step (_ : unit) : plan (unit + unit) :=
  w ← walk_of (λ w, w);
  ex ← pg_exhausted;
  if negb (bool_decide (length (w_active w) < window)%nat) || ex then mret (inr ())
  else
    match w_pending w with
    | scan :: pending =>
        _ ← walk_do (λ w, w_set_pending w pending);
        h ← head_of scan;
        _ ← (match h with Some h => walk_do (push_active h) | None => mret () end);
        ended ← gets pg_ended;
        if ended : bool then mret (inr ()) else mret (inl ())
    | [] =>
        match w_resumable w with
        | h :: resumable =>
            b ← pg_charge charge_actor;
            if negb b then mret (inr ())
            else
              _ ← walk_do (λ w, put_state (h_actor h) Active (push_active h (w_set_resumable w resumable)));
              mret (inl ())
        | [] =>
            match w_deferred w with
            | [] => mret (inr ())
            | (a, _) :: deferred =>
                b ← pg_charge charge_actor;
                if negb b then mret (inr ())
                else
                  _ ← walk_do (λ w, w_set_deferred w deferred);
                  let covered := ck_get (w_covered w) a in
                  if bool_decide (is_Some (w_states w !! a)) || (limit a <=? covered) then mret (inl ())
                  else _ ← activate a covered (limit a); mret (inl ())
            end
        end
    end.

(** [Pager::fill] *)
Definition fill : plan unit :=
  selecting ← walk_of w_selecting;
  go ← (match selecting with
        | None => mret true
        | Some selected =>
            _ ← walk_do (λ w, w_set_selecting w None);
            _ ← select selected;
            p ← gets (λ p, p);
            mret (negb (bool_decide (is_Some (w_selecting (pg_walk p)))) && negb (pg_ended p))
        end);
  if go : bool then loop_upto (λ p, S (reads_left (pg_slice p))) fill_step () else mret ().

(** ** What a head waits for *)

(** [Pager::need_position] *)
Definition need_position a (gen : N) : plan bool :=
  positions ← walk_of w_positions;
  if bool_decide (positions !! a = None) && bool_decide (position_limit ≤ size positions)%nat then mret false
  else
    _ ← (if bool_decide (positions !! a = None) then pg_reserve 256 else mret ());
    _ ← walk_do (λ w, w_set_positions w (need (w_positions w) a gen));
    mret true.

(** [Pager::demand]: whether the position could be demanded, and the scan *)
Definition demand scan (m : OpHeader) : plan (bool * DependencyScan) :=
  let a := hd_actor_id m in
  let fresh := bool_decide (ds_needed scan !! a = None) in
  if fresh && bool_decide (position_limit ≤ size (ds_needed scan))%nat then mret (false, scan)
  else
    _ ← (if fresh then pg_reserve 256 else mret ());
    named ← need_position a (hd_generation m);
    if negb named then mret (false, scan)
    else mret (true, ds_set_needed scan (<[a := match ds_needed scan !! a with
           | Some (seq, gen) => (N.max seq (hd_actor_seq m), N.min gen (hd_generation m))
           | None => (hd_actor_seq m, hd_generation m)
           end]> (ds_needed scan))).

Definition new_ancestor i (m : OpHeader) : Ancestor :=
  {| an_id := i; an_actor := hd_actor_id m; an_seq := hd_actor_seq m; an_cursor := cursor_start; an_pending := None |}.
Definition an_set_pending (f : Ancestor) (x : option (OpId * option OpHeader)) : Ancestor :=
  {| an_id := an_id f; an_actor := an_actor f; an_seq := an_seq f; an_cursor := an_cursor f; an_pending := x |}.

(** The next dependency of an ancestor: [inl] when the loop goes on or returns without one. *)
Definition ancestor_next scan (frame : Ancestor)
    : plan ((DependencyScan + bool * DependencyScan) + OpId * option OpHeader) :=
  match an_pending frame with
  | Some dependency => mret (inr dependency)
  | None =>
      b ← pg_charge charge_read;
      if negb b then mret (inl (inr (false, ds_set_ancestry scan (frame :: ds_ancestry scan))))
      else
        next ← try (rd_dependency_ids read (an_id frame) (an_cursor frame) 1);
        match next with
        | None => _ ← pg_reserve 256; _ ← walk_do (put_missing (an_id frame)); mret (inl (inl scan))
        | Some ids =>
            match last ids with
            | None => mret (inl (inl scan))
            | Some i => mret (inr (i, None))
            end
        end
  end.

(** The header of the dependency, read unless it was kept: [None] without a charge left. *)
Definition ancestor_header (dependency : OpId * option OpHeader) : plan (option (option OpHeader)) :=
  match dependency.2 with
  | Some h => mret (Some (Some h))
  | None =>
      ex ← pg_exhausted;
      b ← (if ex : bool then mret false else pg_charge charge_edge);
      b ← (if b : bool then pg_charge charge_read else mret false);
      if negb b then mret None
      else h ← try (rd_header read dependency.1); mret (Some h)
  end.

(** Whether an ancestor's dependency belongs to an unknown actor beyond what is demanded. *)
Definition descends scan (h : option OpHeader) : option OpHeader :=
  match h with
  | Some m =>
      if unknown scope (hd_actor_id m) &&
         match ds_needed scan !! hd_actor_id m with Some (seq, _) => seq <? hd_actor_seq m | None => true end
      then Some m else None
  | None => None
  end.

(** One iteration of [Pager::unknown_ancestors]. *)
Definition ancestor_step scan : plan (DependencyScan + bool * DependencyScan) :=
  match ds_ancestry scan with
  | [] => mret (inr (true, scan))
  | frame :: rest =>
      let scan := ds_set_ancestry scan rest in
      covered ← walk_of (λ w, ck_get (w_covered w) (an_actor frame));
      if negb (unknown scope (an_actor frame)) && (holds_prefix scope (an_actor frame) (an_seq frame) || (an_seq frame <=? covered))
      then
        b ← pg_charge charge_actor;
        if b : bool then mret (inl scan) else mret (inr (false, ds_set_ancestry scan (frame :: rest)))
      else
        next ← ancestor_next scan frame;
        match next with
        | inl r => mret r
        | inr dependency =>
            header ← ancestor_header dependency;
            match header with
            | None => mret (inr (false, ds_set_ancestry scan (an_set_pending frame (Some dependency) :: rest)))
            | Some header =>
                let deeper := descends scan header in
                '(ok, scan) ← (match deeper with Some m => demand scan m | None => mret (true, scan) end);
                if negb ok
                then mret (inr (false, ds_set_ancestry scan (an_set_pending frame (Some (dependency.1, header)) :: rest)))
                else
                  _ ← try (ok_or (checked_add (N.of_nat (dc_offset (an_cursor frame))) 1) (SyncCapacity "dependency cursor overflow"));
                  let frame := {| an_id := an_id frame; an_actor := an_actor frame; an_seq := an_seq frame;
                                  an_cursor := {| dc_offset := S (dc_offset (an_cursor frame)); dc_after := Some dependency.1 |};
                                  an_pending := None |} in
                  match deeper with
                  | None => mret (inl (ds_set_ancestry scan (frame :: rest)))
                  | Some m =>
                      _ ← pg_reserve (2 * size_of_ancestor);
                      mret (inl (ds_set_ancestry scan (new_ancestor dependency.1 m :: frame :: rest)))
                  end
            end
        end
  end.

(** [Pager::unknown_ancestors]: an iteration makes a charge or uses a header that was kept. *)
Definition unknown_ancestors scan : plan (bool * DependencyScan) :=
  loop_upto (λ p, S (reads_left (pg_slice p) + length (ds_ancestry scan))) ancestor_step scan.

(** The scan is kept when [wait_for] returns before the operation is ready. *)
Definition keep_scan i scan (x : Wait) : plan Wait := _ ← walk_do (put_checked i scan); mret x.

(** The next needed position after the one checked last. *)
Definition next_needed scan : option (ActorId * (N * N)) :=
  head (filter (λ e, beyond (ds_checked scan) e.1) (bt_entries (ds_needed scan))).

(** One iteration over the needed positions: the result of [wait_for], or the scan. *)
Definition needed_step i scan : plan (DependencyScan + (Wait + DependencyScan)) :=
  match next_needed scan with
  | None => mret (inr (inr scan))
  | Some (a, (seq, gen)) =>
      b ← pg_charge charge_actor;
      if negb b then x ← keep_scan i scan WYield; mret (inr (inl x))
      else
        _ ← observe_known a seq;
        let checked scan := ds_set_checked scan (Some a) (ds_revision scan) in
        if unknown scope a then
          named ← need_position a gen;
          if negb named then x ← keep_scan i scan WUnknown; mret (inr (inl x)) else mret (inl (checked scan))
        else
          covered ← walk_of (λ w, ck_get (w_covered w) a);
          if holds_prefix scope a seq || (seq <=? covered)
          then mret (inl (checked (ds_set_needed scan (delete a (ds_needed scan)))))
          else x ← keep_scan i scan (WPosition a seq); mret (inr (inl x))
  end.

(** A dependency whose header was read: the result of [wait_for], or the scan. *)
Definition wait_dep i scan (dep : OpId) (m : OpHeader) : plan (Wait + DependencyScan) :=
  let a := hd_actor_id m in
  _ ← (match known_prefix scope a with
       | Some known => if 0 <? known then observe a (N.min known (hd_actor_seq m)) else mret ()
       | None => mret ()
       end);
  if holds_prefix scope a (hd_actor_seq m) then _ ← observe a (hd_actor_seq m); mret (inr (ds_set_after scan (Some dep)))
  else if unknown scope a then
    '(ok, scan) ← demand scan m;
    if negb ok then x ← keep_scan i scan WUnknown; mret (inl x)
    else
      _ ← pg_reserve (2 * size_of_ancestor);
      let scan := ds_set_after (ds_set_ancestry scan (new_ancestor dep m :: ds_ancestry scan)) (Some dep) in
      '(ok, scan) ← unknown_ancestors scan;
      if negb ok then x ← keep_scan i scan WYield; mret (inl x)
      else mret (inr (ds_set_after scan (Some dep)))
  else
    covered ← walk_of (λ w, ck_get (w_covered w) a);
    if covered <? hd_actor_seq m then x ← keep_scan i scan (WPosition a (hd_actor_seq m)); mret (inl x)
    else mret (inr (ds_set_after scan (Some dep))).

(** The loop over the dependencies of an operation. *)
Fixpoint wait_deps i (deps : list OpId) scan : plan (Wait + DependencyScan) :=
  match deps with
  | [] => mret (inr scan)
  | dep :: deps =>
      ex ← pg_exhausted;
      b ← (if ex : bool then mret false else pg_charge charge_edge);
      if negb b then x ← keep_scan i scan WYield; mret (inl x)
      else
        w ← walk_of (λ w, w);
        if bool_decide (dep ∈ w_blocked w) || match w_repair w with Some rp => repair_contains rp dep | None => false end
        then mret (inl WBlocked)
        else if bool_decide (dep ∈ sent) then wait_deps i deps (ds_set_after scan (Some dep))
        else
          b ← pg_charge charge_read;
          if negb b then x ← keep_scan i scan WYield; mret (inl x)
          else
            meta ← try (rd_header read dep);
            match meta with
            | None => _ ← pg_reserve 256; _ ← walk_do (put_missing dep); mret (inl WBlocked)
            | Some m =>
                r ← wait_dep i scan dep m;
                match r with inl x => mret (inl x) | inr scan => wait_deps i deps scan end
            end
  end.

(** [Pager::wait_for] *)
Definition wait_for (op : Op) : plan Wait :=
  let i := op_id op in
  scan ← walk_of (λ w, default scan_empty (w_checked w !! i));
  _ ← walk_do (λ w, w_set_checked w (delete i (w_checked w)));
  revision ← walk_of w_revision;
  let scan := if ds_revision scan =? revision then scan else ds_set_checked scan None revision in
  r ← loop_upto (λ p, S (reads_left (pg_slice p))) (needed_step i) scan;
  match r with
  | inl x => mret x
  | inr scan =>
      '(ok, scan) ← unknown_ancestors scan;
      if negb ok then keep_scan i scan WYield
      else
        r ← wait_deps i (bt_after (deps (obody op)) (ds_after scan)) scan;
        match r with
        | inl x => mret x
        | inr scan => if bool_decide (ds_needed scan = ∅) then mret WReady else keep_scan i scan WUnknown
        end
  end.

(** ** Suspended heads *)

(** The end of [Pager::suspend]: a head waits for position [seq] of [a]. *)
Definition parked (h : RangeHead) a (seq : N) w : Walk C :=
  let w := put_state (h_actor h) Suspended w in
  w_set_suspended w (<[a := default [] (w_suspended w !! a) ++ [(seq, h)]]> (w_suspended w)).
Definition park (h : RangeHead) a (seq : N) : plan unit :=
  blocked ← walk_of (λ w, match w_states w !! a with Some Blocked => true | _ => false end);
  if blocked : bool then block (h_actor h) (h_id h)
  else walk_do (parked h a seq).
(** [Pager::suspend] *)
Definition suspend (h : RangeHead) a (seq : N) : plan unit :=
  x ← walk_of (λ w, w_states w !! a);
  match x with
  | Some Blocked => block (h_actor h) (h_id h)
  | Some Active | Some Suspended => park h a seq
  | Some (Reached lim) =>
      if (seq <=? lim) || (negb (informed scope) && (ck_get local a <? seq)) then block (h_actor h) (h_id h)
      else _ ← activate a lim seq; park h a seq
  | None =>
      after ← walk_of (λ w, ck_get (w_covered w) a);
      _ ← activate a after (N.max seq (limit a));
      park h a seq
  end.

(** A head leaves those that wait for [a]. *)
Definition set_waiting a (l : list (N * RangeHead)) w : Walk C :=
  w_set_suspended w (match l with [] => delete a (w_suspended w) | _ => <[a := l]> (w_suspended w) end).
Definition unpark a (index : nat) w : Walk C :=
  match w_suspended w !! a with Some l => set_waiting a (swap_remove index l) w | None => w end.

(** The [index]-th head that waits for [a], with the position it needs. *)
Definition waiting_at a (index : nat) w : option (N * RangeHead) :=
  l ← w_suspended w !! a; l !! index.

Definition requeued (u : Update) w : Walk C := w_set_updates w (u :: w_updates w).
Definition requeue (u : Update) : plan unit := walk_do (requeued u).

(** An update waits for the next slice. *)
Definition update_later (u : Update) : plan (unit + unit) := _ ← requeue u; _ ← end_slice; mret (inr ()).

(** The cases of [Pager::settle]. *)
Definition settle_wake a (seq : N) (index : nat) : plan (unit + unit) :=
  next ← walk_of (waiting_at a index);
  match next with
  | None => mret (inl ())
  | Some (needed, h) =>
      b ← pg_charge charge_actor;
      if negb b then update_later (Wake a seq index)
      else if needed <=? seq then
        _ ← walk_do (λ w, let w := unpark a index w in w_set_resumable w (w_resumable w ++ [h]));
        _ ← requeue (Wake a seq index); mret (inl ())
      else _ ← requeue (Wake a seq (S index)); mret (inl ())
  end.
Definition settle_raise a (lim : N) (index : nat) (raised : option N) : plan (unit + unit) :=
  next ← walk_of (waiting_at a index);
  match next with
  | Some (needed, _) =>
      b ← pg_charge charge_actor;
      if negb b then update_later (Raise a lim index raised)
      else
        let raised := if (lim <? needed) && (informed scope || (needed <=? ck_get local a))
                      then Some (match raised with Some x => N.max x needed | None => needed end) else raised in
        _ ← requeue (Raise a lim (S index) raised); mret (inl ())
  | None =>
      _ ← (match raised with Some x => activate a lim x | None => mret () end);
      _ ← requeue (Finish a raised 0); mret (inl ())
  end.
Definition settle_finish a (raised : option N) (index : nat) : plan (unit + unit) :=
  next ← walk_of (waiting_at a index);
  match next with
  | None =>
      _ ← walk_do (λ w, match w_states w !! a with
                        | Some (Reached _) => if informed scope then w_set_states w (delete a (w_states w)) else w
                        | _ => w end);
      mret (inl ())
  | Some (needed, h) =>
      b ← pg_charge charge_actor;
      if negb b then update_later (Finish a raised index)
      else if match raised with Some x => needed <=? x | None => false end
      then _ ← requeue (Finish a raised (S index)); mret (inl ())
      else
        _ ← walk_do (unpark a index);
        _ ← block (h_actor h) (h_id h);
        _ ← requeue (Finish a raised index); mret (inl ())
  end.
Definition settle_stop a : plan (unit + unit) :=
  next ← walk_of (λ w, l ← w_suspended w !! a; last l);
  match next with
  | None => mret (inl ())
  | Some (_, h) =>
      b ← pg_charge charge_actor;
      if negb b then update_later (Stop a)
      else
        _ ← walk_do (λ w, match w_suspended w !! a with
                          | Some l => set_waiting a (take (length l - 1) l) w | None => w end);
        _ ← block (h_actor h) (h_id h);
        _ ← requeue (Stop a); mret (inl ())
  end.

Definition settle_step (_ : unit) : plan (unit + unit) :=
  updates ← walk_of w_updates;
  match updates with
  | [] => mret (inr ())
  | u :: updates =>
      _ ← walk_do (λ w, w_set_updates w updates);
      match u with
      | Wake a seq index => settle_wake a seq index
      | Raise a lim index raised => settle_raise a lim index raised
      | Finish a raised index => settle_finish a raised index
      | Stop a => settle_stop a
      end
  end.

(** An update ends, makes a charge, or is a [Raise] that turns into its [Finish]. *)
Definition update_weight (u : Update) : nat := match u with Raise _ _ _ _ => 2 | _ => 1 end.
Definition settle_fuel p : nat :=
  S (3 * reads_left (pg_slice p) + sum_list (update_weight <$> w_updates (pg_walk p))).

(** [Pager::settle] *)
Definition settle : plan unit := loop_upto settle_fuel settle_step ().

(** ** The plan *)

Definition load i : plan (option Load) :=
  cached ← walk_of (λ w, contains_record (w_records w) i);
  b ← (if cached : bool then mret true else pg_charge charge_read);
  if negb b then mret None
  else
    l ← state (λ p, let '(l, sl, rs) := take_record others read i (pg_slice p) (w_records (pg_walk p)) in
                    (l, set_slice (set_walk p (w_set_records (pg_walk p) rs)) sl));
    mret (Some l).
Definition keep (rec : PageRecord) : plan unit :=
  walk_do (λ w, w_set_records w (keep_record others rec (w_records w))).
Definition drop_record (rec : PageRecord) : plan unit :=
  walk_do (λ w, w_set_records w (claim_drop others (rec_claim rec) (w_records w))).

(** The loop of [Pager::plan] carries the page and its bytes; it leaves with the page and
    an operation that is too large for any page of this budget. *)
Abbreviation page_so_far := (list Op * N)%type.
Abbreviation page_end := (list Op * option OpId)%type.

(** The head goes back and the slice ends. *)
Definition put_back (h : RangeHead) (ops : list Op) (too_large : option OpId) : plan (page_so_far + page_end) :=
  _ ← walk_do (push_active h); _ ← end_slice; mret (inr (ops, too_large)).

(** After a head was passed or sent, its chain goes on or has reached its limit. *)
Definition go_on a (seq lim : N) : plan unit :=
  _ ← wake a seq; if seq <? lim then activate a seq lim else reach a lim.

Definition send (budget : PageBudget) (h : RangeHead) (rec : PageRecord) (ops : list Op) (bytes : N)
    : plan (page_so_far + page_end) :=
  size ← try (serialized_size (rec_op rec));
  if MAX_PAGE_BYTES <? size then try (Err (Storage "operation exceeds sync page budget"))
  else if (pb_ops budget <=? N.of_nat (length ops)) || (pb_bytes budget <? bytes + size) then
    _ ← keep rec;
    _ ← modify (λ p, set_more p true);
    put_back h ops (if bool_decide (ops = []) && (pb_bytes budget <? size) then Some (h_id h) else None)
  else
    _ ← observe (h_actor h) (h_seq h);
    _ ← walk_do (λ w, w_set_blocked w (w_blocked w ∖ {[h_id h]}));
    op ← state (λ p, let '(op, rs) := into_op others rec (w_records (pg_walk p)) in
                     (op, set_walk p (w_set_records (pg_walk p) rs)));
    _ ← go_on (h_actor h) (h_seq h) (h_limit h);
    mret (inl (ops ++ [op], bytes + size)).

(** The operation of a head that the peer does not hold yet. *)
Definition offer (budget : PageBudget) (h : RangeHead) (ops : list Op) (bytes : N) : plan (page_so_far + page_end) :=
  l ← load (h_id h);
  match l with
  | None | Some LoadYield => put_back h ops None
  | Some (LoadFailed e) => try (Err e)
  | Some Absent =>
      _ ← walk_do (put_missing (h_id h)); _ ← block (h_actor h) (h_id h); mret (inl (ops, bytes))
  | Some (Loaded rec) =>
      x ← wait_for (rec_op rec);
      match x with
      | WYield | WUnknown => _ ← keep rec; put_back h ops None
      | WReady => send budget h rec ops bytes
      | WBlocked => _ ← drop_record rec; _ ← block (h_actor h) (h_id h); mret (inl (ops, bytes))
      | WPosition a seq => _ ← keep rec; _ ← suspend h a seq; mret (inl (ops, bytes))
      end
  end.

Definition end_page (ops : list Op) : plan (page_so_far + page_end) := _ ← end_slice; mret (inr (ops, None)).

(** One iteration of [Pager::plan]. *)
Definition plan_step (budget : PageBudget) (l : page_so_far) : plan (page_so_far + page_end) :=
  let '(ops, bytes) := l in
  ex ← pg_exhausted;
  if (pb_ops budget <=? N.of_nat (length ops)) || (pb_bytes budget <=? bytes) || ex then end_page ops
  else
    _ ← settle;
    ended ← gets pg_ended;
    if ended : bool then mret (inr (ops, None))
    else
      _ ← fill;
      p ← gets (λ p, p);
      if pg_ended p || bool_decide (is_Some (w_selecting (pg_walk p))) || exhausted (pg_slice p) then end_page ops
      else
        match w_active (pg_walk p) with
        | [] => mret (inr (ops, None))
        | h :: active =>
            _ ← walk_do (λ w, w_set_active w active);
            _ ← observe_known (h_actor h) (h_limit h);
            held ← walk_of (λ w, ck_get (w_covered w) (h_actor h));
            if h_seq h <=? held then
              b ← pg_charge charge_actor;
              if negb b then put_back h ops None
              else
                _ ← go_on (h_actor h) held (h_limit h);
                mret (inl (ops, bytes))
            else offer budget h ops bytes
        end.

(** An iteration makes a charge or takes a head from the active set. *)
Definition plan_fuel p : nat := S (2 * work_left (pg_slice p) + length (w_active (pg_walk p))).

(** Whether a plan has work left. *)
Definition has_more p : bool :=
  let w := pg_walk p in
  pg_more p || w_remainder w || bool_decide (is_Some (w_selecting w)) || negb (bool_decide (w_active w = [])) ||
  match w_pending w with [] => false | _ => true end || from_option repair_pending false (w_repair w) ||
  negb (bool_decide (w_resumable w = [])) || existsb (λ e, match e.2 with [] => false | _ => true end) (bt_entries (w_suspended w)) ||
  negb (bool_decide (w_deferred w = [])).

(** [while missing.len() > MAX_PAGE_MISSING { missing.pop_last(); }] *)
Definition first_missing (missing : gset OpId) : gset OpId := list_to_set (take MAX_PAGE_MISSING (bt_elements missing)).

(** The end of [Pager::plan]: the page, the positions it needed and what is left to do. *)
Definition finish (ops : list Op) (too_large : option OpId)
    : plan (PlannedPage * gmap ActorId N * option (Frontier C)) :=
  _ ← attempt (λ p,
    match w_repair (pg_walk p) with
    | None => Ok p
    | Some rp =>
        '(rp, sl) ← repair_admit ops rp (pg_slice p);
        Ok (set_slice (set_walk p (w_set_repair (pg_walk p) (Some rp))) sl)
    end);
  p ← gets (λ p, p);
  let more := has_more p in
  let w := pg_walk p in
  let ended := pg_ended p && more in
  let page := {| pp_ops := ops; pp_more := more; pp_missing := first_missing (w_missing w); pp_too_large := too_large;
                 pp_positions := ∅; pp_continued := false |} in
  if (ended || from_option repair_pending false (w_repair w)) &&
     (bool_decide (ops = []) || negb (w_remainder w)) && bool_decide (too_large = None)
  then mret (page, w_positions w, Some (frontier_of w (negb (bool_decide (ops = []))) false))
  else
    _ ← walk_do (λ w, w_set_records w (records_drop others (w_records w)));
    mret (page, w_positions w, None).

(** [Pager::plan] *)
Definition plan_from (budget : PageBudget) (fresh : bool) : plan (PlannedPage * gmap ActorId N * option (Frontier C)) :=
  if fresh && ((pb_ops budget =? 0) || (pb_bytes budget =? 0)) then
    more ← walk_of (λ w, existsb (λ e : ActorId * N, ck_get (w_covered w) e.1 <? limit e.1) (ck_iter local));
    _ ← walk_do (λ w, w_set_records w (records_drop others (w_records w)));
    mret ({| pp_ops := []; pp_more := more; pp_missing := ∅; pp_too_large := None; pp_positions := ∅;
             pp_continued := false |}, ∅, None)
  else
    _ ← (if fresh then walk_do (λ w, w_set_deferred w
           (if negb (informed scope) && negb (bool_decide (sc_named scope = ∅))
            then ck_iter (ck_select local (sc_named scope)) else ck_iter local)) else mret ());
    '(ops, too_large) ← loop_upto plan_fuel (plan_step budget) ([], 0);
    finish ops too_large.
End pager.

(** ** Entry points *)

Section entry.
Context {C : Type} `{!ClockImpl C} `{!Sizes} {R : Type} `{!SnapshotRead R} `{!PageRead R}.
Context (others : nat → RecordPool → RecordPool) (window position_limit : nat).

(** [SyncEngine::pager] *)
Definition pager (fr : Frontier C) (sl : Slice) : Pager C := MkPager (fr_walk fr) sl false false.

(** [SyncEngine::plan_page] *)
Definition plan_page (read : R) (t : TopicId) (local peer : C) (goal : option C) (scope : ActorScope C)
    (sent excluded : gset OpId) (budget : PageBudget) (sl : Slice) (pool : RecordPool) :=
  let fr := frontier_new peer scope window (records_new pool) in
  plan_from others read t local goal scope sent window position_limit budget true
    (pager (frontier_of (w_set_blocked (fr_walk fr) excluded) false true) sl).

(** [SyncEngine::resume_page] *)
Definition resume_page (read : R) (t : TopicId) (local goal : C) (fr : Frontier C) (scope : ActorScope C)
    (budget : PageBudget) (sl : Slice) :=
  plan_from others read t local (Some goal) scope ∅ window position_limit budget (fr_fresh fr) (pager fr sl).
End entry.
