(* ===== verification/PagerInv.v ===== *)
(** * What a plan knows: the invariant of the pager

    Three things hold of a plan at every step.

    - [safe]: what the plan takes as covered is held by the peer or on the page, heads are
      at the next position of their chain at most, and a dependency scan has passed over
      satisfied dependencies only.
    - [goals]: an actor of the goal that is not done is still to be looked at, or its
      chain is somewhere in the plan.
    - [waits]: for a suspended head, the chain it waits for is somewhere in the plan and
      has not gone past the position, or an update that will handle the head is queued;
      and the position is older than the head. So heads do not wait for each other.

    Pieces of a plan that are in the hands of a function are listed in [hand]. *)

From S2P Require Import Prelude Ids Pages ClockSpec Types Records StoreReads Integrity Requests.
From S2P Require Import Programs Slices Repair Pager.

#[local] Open Scope N_scope.
Set Default Proof Using "Type".

(** A chain in a plan: the actor, its next position and its limit. *)
Abbreviation chain := (ActorId * N * N)%type.
Definition scan_chain (s : HeadScan) : chain := (hs_actor s, hs_after s + 1, hs_limit s).
Definition head_chain (h : RangeHead) : chain := (h_actor h, h_seq h, h_limit h).

Lemma elem_of_heap_push h l x : x ∈ heap_push h l ↔ x = h ∨ x ∈ l.
Proof.
  induction l as [|y l IH]; simpl; [set_solver|]. destruct (bltb y h); set_solver.
Qed.

Lemma length_heap_push h l : length (heap_push h l) = S (length l).
Proof. induction l as [|y l IH]; simpl; [done|]. destruct (bltb y h); simpl; by rewrite ?IH. Qed.

(** What [swap_remove] leaves: the last element moves to the index that is removed. *)
Lemma swap_remove_lookup {A} (l : list A) i k x :
  (i < length l)%nat → swap_remove i l !! k = Some x →
  ∃ k', l !! k' = Some x ∧ k' ≠ i ∧ (k' = k ∨ k = i ∧ (i ≤ k')%nat).
Proof.
  intros Hi. unfold swap_remove. destruct (last l) as [y|] eqn:Hlast.
  2: { apply last_None in Hlast. by subst. }
  intros Hk. pose proof (lookup_lt_Some _ _ _ Hk) as Hlt. rewrite length_take length_insert in Hlt.
  rewrite lookup_take_lt in Hk; [lia|]. destruct (decide (k = i)) as [->|Hne].
  - rewrite list_lookup_insert_eq // in Hk. injection Hk as ->. exists (length l - 1)%nat.
    rewrite last_lookup in Hlast. replace (length l - 1)%nat with (pred (length l)) by lia.
    split_and!; [done|lia|right; lia].
  - rewrite list_lookup_insert_ne // in Hk. exists k. split_and!; [done..|by left].
Qed.

Lemma swap_remove_perm {A} (l : list A) i y : l !! i = Some y → l ≡ₚ y :: swap_remove i l.
Proof.
  intros Hy. pose proof (lookup_lt_Some _ _ _ Hy) as Hi. unfold swap_remove.
  destruct (last l) as [z|] eqn:Hlast; [|by apply last_None in Hlast; subst].
  apply last_Some in Hlast as [l' ->]. rewrite length_app Nat.add_sub. destruct (decide (i = length l')) as [->|Hne].
  - rewrite lookup_app_r // Nat.sub_diag in Hy. injection Hy as ->.
    rewrite insert_app_r_alt // Nat.sub_diag. rewrite take_app_length. by rewrite Permutation_app_comm.
  - rewrite length_app /= in Hi. assert (i < length l')%nat as Hi' by lia.
    rewrite lookup_app_l // in Hy. rewrite insert_app_l // take_app_length'; [by rewrite length_insert|].
    rewrite -{1}(take_drop_middle l' i y) // insert_take_drop //. solve_Permutation.
Qed.

(** ** The snapshot *)

Section snapshot.
Context {R : Type} `{!SnapshotRead R} `{!PageRead R} (read : R) (t : TopicId).

(** [i] is stored in the topic, at the position [m]. *)
Definition at_header (i : OpId) (m : OpHeader) : Prop := rd_header read i = Ok (Some m) ∧ hd_topic_id m = t.
Definition at_pos (i : OpId) (a : ActorId) (s : N) : Prop := ∃ m, at_header i m ∧ hd_actor_id m = a ∧ hd_actor_seq m = s.
(** [d] has a lower generation than [i]. *)
Definition older (d i : OpId) : Prop := ∀ m m', at_header d m → at_header i m' → hd_generation m < hd_generation m'.

(** What the planner relies on: indices agree with positions, a position has one
    operation, dependencies are in the topic and older, chains grow older downwards. *)
Record coherent : Prop := {
  co_range : ∀ a after l s i m, rd_actor_range read t a after 1 = Ok l → last l = Some (s, i) →
    rd_header read i = Ok (Some m) → hd_topic_id m = t ∧ hd_actor_id m = a ∧ hd_actor_seq m = s;
  co_unique : ∀ i j a s, at_pos i a s → at_pos j a s → i = j;
  co_op : ∀ i n op, rd_reserved_op read i = Ok (Some (n, Ok (Some op))) →
    op_id op = i ∧ rd_deps read i = Some (deps (obody op));
  co_deps : ∀ i m ds d m', at_header i m → rd_deps read i = Some ds → d ∈ ds → rd_header read d = Ok (Some m') →
    hd_topic_id m' = t ∧ hd_generation m' < hd_generation m;
  co_chain : ∀ i j a s s', at_pos i a s → at_pos j a s' → s < s' → older i j;
}.

(** All stored operations of [a] up to [s] are among [H]. *)
Definition below (H : OpId → Prop) (a : ActorId) (s : N) : Prop := ∀ i s', at_pos i a s' → s' ≤ s → H i.

Lemma below_mono (H H' : OpId → Prop) a s s' : below H a s → (∀ i, H i → H' i) → s' ≤ s → below H' a s'.
Proof. intros Hb HH Hs i q Hi Hq. apply HH. eapply Hb; [done|lia]. Qed.

Lemma below_max H a s s' : below H a s → below H a s' → below H a (N.max s s').
Proof. intros Hs Hs' i q Hi Hq. destruct (N.max_spec s s') as [[_ Hm]|[_ Hm]]; rewrite Hm in Hq; eauto. Qed.

Lemma at_header_unique i m m' : at_header i m → at_header i m' → m = m'.
Proof. intros [Hm _] [Hm' _]. congruence. Qed.
End snapshot.

Section inv.
Context {C : Type} `{!ClockImpl C} {R : Type} `{!SnapshotRead R} `{!PageRead R}.
Context (read : R) (t : TopicId).
Implicit Types (w : Walk C) (H : OpId → Prop) (a : ActorId) (h : RangeHead) (i d : OpId).
Local Abbreviation at_header := (at_header read t).
Local Abbreviation at_pos := (at_pos read t).
Local Abbreviation older := (older read t).
Local Abbreviation below := (below read t).

Definition covers w a : N := ck_get (w_covered w) a.

(** ** Safety *)

(** The heads a plan holds, in any of its collections. *)
Definition head_in w h : Prop :=
  h ∈ w_active w ∨ (∃ l, w_selecting w = Some l ∧ h ∈ l) ∨ h ∈ w_resumable w ∨
  ∃ a l n, w_suspended w !! a = Some l ∧ (n, h) ∈ l.

Definition head_here h : Prop :=
  ∃ m, at_header (h_id h) m ∧ hd_actor_id m = h_actor h ∧ hd_actor_seq m = h_seq h ∧ hd_generation m = h_generation h.
Definition head_ok w h : Prop := head_here h ∧ h_seq h ≤ covers w (h_actor h) + 1.

Definition next_ok (s : HeadScan) : Prop := ∀ q i m, hs_next s = Some (q, i) → rd_header read i = Ok (Some m) →
  hd_topic_id m = t ∧ hd_actor_id m = hs_actor s ∧ hd_actor_seq m = q.
Definition scan_ok w (s : HeadScan) : Prop := hs_after s ≤ covers w (hs_actor s) ∧ next_ok s.

(** An ancestor on the stack of the scan for [i]. *)
Record frame_ok i (f : Ancestor) : Prop := {
  fo_here : ∃ m, at_header (an_id f) m;
  fo_older : older (an_id f) i;
  fo_pending : ∀ d o, an_pending f = Some (d, o) →
    (∃ ds, rd_deps read (an_id f) = Some ds ∧ d ∈ ds) ∧ ∀ m, o = Some m → rd_header read d = Ok (Some m);
}.

(** A dependency is there, or a position at or after it is demanded. *)
Definition satisfied H (needed : gmap ActorId (N * N)) d : Prop :=
  H d ∨ ∃ a s q g, at_pos d a s ∧ needed !! a = Some (q, g) ∧ s ≤ q.

Record scanned H i (sc : DependencyScan) : Prop := {
  sn_after : ∀ ds d, rd_deps read i = Some ds → d ∈ ds → ¬ beyond (ds_after sc) d → satisfied H (ds_needed sc) d;
  sn_needed : ∀ a q g, ds_needed sc !! a = Some (q, g) → ∃ d, at_pos d a q ∧ older d i;
  sn_frames : Forall (frame_ok i) (ds_ancestry sc);
}.

(** [op] is what the store has under [i]. *)
Definition record_ok i (op : Op) : Prop :=
  op_id op = i ∧ rd_deps read i = Some (deps (obody op)) ∧ ∃ n, rd_reserved_op read i = Ok (Some (n, Ok (Some op))).

Record safe H w : Prop := {
  sf_covered : ∀ a, below H a (covers w a);
  sf_heads : ∀ h, head_in w h → head_ok w h;
  sf_pending : ∀ s, s ∈ w_pending w → scan_ok w s;
  sf_reached : ∀ a l, w_states w !! a = Some (Reached l) → l ≤ covers w a;
  sf_raise : ∀ a l j r, Raise a l j r ∈ w_updates w → l ≤ covers w a;
  sf_checked : ∀ i sc, w_checked w !! i = Some sc → scanned H i sc;
  sf_records : ∀ i rec, rs_records (w_records w) !! i = Some rec → record_ok i (rec_op rec);
}.

(** [w'] is [w] but for what a plan remembers of positions and scans. *)
Record same_chains w w' : Prop := {
  sm_pending : w_pending w' = w_pending w;
  sm_updates : w_updates w' = w_updates w;
  sm_active : w_active w' = w_active w;
  sm_selecting : w_selecting w' = w_selecting w;
  sm_resumable : w_resumable w' = w_resumable w;
  sm_suspended : w_suspended w' = w_suspended w;
  sm_states : w_states w' = w_states w;
  sm_deferred : w_deferred w' = w_deferred w;
  sm_remainder : w_remainder w' = w_remainder w;
  sm_repair : w_repair w' = w_repair w;
  sm_blocked : w_blocked w' = w_blocked w;
  sm_covered : ∀ a, covers w a ≤ covers w' a;
}.

#[global] Instance same_chains_preorder : PreOrder same_chains.
Proof.
  split; [by split|]. intros w1 w2 w3 [] []. split; try congruence. intros a. by etrans; [apply sm_covered0|].
Qed.

Lemma satisfied_mono H H' needed d : (∀ i, H i → H' i) → satisfied H needed d → satisfied H' needed d.
Proof. intros HH [?|?]; [left; by apply HH|by right]. Qed.

Lemma scanned_mono H H' i sc : (∀ i, H i → H' i) → scanned H i sc → scanned H' i sc.
Proof. intros HH []. split; [|done..]. intros. eapply satisfied_mono; [done|eauto]. Qed.

Lemma safe_mono H H' w : (∀ i, H i → H' i) → safe H w → safe H' w.
Proof.
  intros HH []. split; try done.
  - intros a. eapply below_mono; [apply sf_covered0|done|lia].
  - intros i sc Hsc. eapply scanned_mono; eauto.
Qed.

(** Safety only needs to be checked again for what changed. *)
Lemma safe_same H w w' : same_chains w w' → safe H w → (∀ a, below H a (covers w' a)) →
  (∀ i sc, w_checked w' !! i = Some sc → scanned H i sc) →
  (∀ i rec, rs_records (w_records w') !! i = Some rec → record_ok i (rec_op rec)) → safe H w'.
Proof.
  intros [] [] Hc Hs Hr. split; [done|..].
  - intros h Hh. unfold head_in in Hh. rewrite sm_active0 sm_selecting0 sm_resumable0 sm_suspended0 in Hh.
    destruct (sf_heads0 h Hh) as [Hh1 Hh2].
    split; [done|]. specialize (sm_covered0 (h_actor h)). lia.
  - intros s Hin. destruct (sf_pending0 s) as [Hs1 Hs2]; [congruence|].
    split; [|done]. specialize (sm_covered0 (hs_actor s)). lia.
  - intros a l Ha. rewrite sm_states0 in Ha. specialize (sm_covered0 a). specialize (sf_reached0 _ _ Ha). lia.
  - intros a l j r Ha. rewrite sm_updates0 in Ha. specialize (sm_covered0 a). specialize (sf_raise0 _ _ _ _ Ha). lia.
  - done.
  - done.
Qed.

Lemma covers_observed w a s b : covers (observed a s w) b = if decide (a = b) then N.max (covers w b) s else covers w b.
Proof.
  unfold covers, observed. destruct (N.ltb_spec (ck_get (w_covered w) a) s); simpl.
  - by rewrite ck_get_observe.
  - case_decide; [subst; lia|done].
Qed.

Lemma observed_same w a s : same_chains w (observed a s w).
Proof.
  split; try (unfold observed; by destruct (_ <? _)). intros b. rewrite covers_observed. case_decide; lia.
Qed.

Lemma safe_observed H w a s : safe H w → below H a s → safe H (observed a s w).
Proof.
  intros Hs Hb. eapply safe_same; [apply observed_same|done|..].
  - intros b. rewrite covers_observed. case_decide as Hab; [subst|by apply Hs].
    apply below_max; [by apply Hs|done].
  - intros i sc Hsc. eapply (sf_checked _ _ Hs). unfold observed in Hsc. by destruct (_ <? _).
  - intros i rec Hrec. eapply (sf_records _ _ Hs). unfold observed in Hrec. by destruct (_ <? _).
Qed.

(** ** Chains *)

Implicit Types (hand : list chain) (c : chain).

Definition chain_in w c : Prop :=
  (∃ s, s ∈ w_pending w ∧ c = scan_chain s) ∨ ∃ h, head_in w h ∧ c = head_chain h.
Definition chains hand w c : Prop := c ∈ hand ∨ chain_in w c.

Definition live (x : ActorState) : Prop := x = Active ∨ x = Suspended.

(** ** Goals: [lim] is the limit of an actor, [wanted] the actors of the goal *)

Section goals.
Context (lim : ActorId → N) (wanted : ActorId → Prop).

(** Nothing more is to be done for [a] than going on with what is there; [given_up] when
    a chain was stopped or left out. *)
Definition done_for (given_up : Prop) hand w a : Prop :=
  given_up ∨ w_remainder w = true ∨ lim a ≤ covers w a ∨ ∃ s l, chains hand w (a, s, l) ∧ lim a ≤ l.

Definition busy hand w a : Prop :=
  is_Some (w_states w !! a) ∨ (∃ s l, chains hand w (a, s, l)) ∨ ∃ l j r, Raise a l j r ∈ w_updates w.

Record goals (given_up : Prop) hand w : Prop := {
  gl_wanted : ∀ a, wanted a → a ∈ (w_deferred w).*1 ∨ done_for given_up hand w a;
  gl_busy : ∀ a, busy hand w a → done_for given_up hand w a;
}.

Lemma done_for_step (g g' : Prop) hand hand' w w' a :
  (g → g') → (w_remainder w = true → w_remainder w' = true) → covers w a ≤ covers w' a →
  (∀ s l, chains hand w (a, s, l) → lim a ≤ l → done_for g' hand' w' a) →
  done_for g hand w a → done_for g' hand' w' a.
Proof.
  intros Hg Hr Hc Hch [?|[?|[?|(s & l & Hin & Hl)]]].
  - left. by apply Hg.
  - right; left. by apply Hr.
  - right; right; left. lia.
  - by eapply Hch.
Qed.

(** A step keeps the goals when nothing that was to be done is forgotten. *)
Lemma goals_step (g g' : Prop) hand hand' w w' :
  (g → g') → (w_remainder w = true → w_remainder w' = true) → (∀ a, covers w a ≤ covers w' a) →
  (∀ a s l, chains hand w (a, s, l) → lim a ≤ l → done_for g' hand' w' a) →
  (∀ a, a ∈ (w_deferred w).*1 → wanted a → a ∈ (w_deferred w').*1 ∨ done_for g' hand' w' a) →
  (∀ a, busy hand' w' a → busy hand w a ∨ done_for g' hand' w' a) →
  goals g hand w → goals g' hand' w'.
Proof.
  intros Hg Hr Hc Hch Hd Hb [Hw Hbz].
  assert (∀ a, done_for g hand w a → done_for g' hand' w' a) as Hdone.
  { intros a. eapply done_for_step; eauto. }
  split.
  - intros a Ha. destruct (Hw a Ha) as [?|?]; [by apply Hd|right; auto].
  - intros a Ha. destruct (Hb a Ha) as [?|?]; auto.
Qed.

Lemma goals_move (g g' : Prop) hand hand' w w' :
  (g → g') → w_remainder w' = w_remainder w → w_deferred w' = w_deferred w → (∀ a, covers w a ≤ covers w' a) →
  (∀ c, chains hand w c → chains hand' w' c) → (∀ a, busy hand' w' a → busy hand w a) →
  goals g hand w → goals g' hand' w'.
Proof.
  intros Hg Hr Hd Hc Hch Hb. apply goals_step; [done|congruence|done|..].
  - intros a s l Hin Hl. right; right; right. exists s, l. auto.
  - intros a Ha _. left. by rewrite Hd.
  - intros a Ha. left. auto.
Qed.
End goals.

(** ** Waiting heads *)

(** The [k]-th head that waits for [a] is [h] and needs the position [n]. *)
Definition entry w a (k : nat) (n : N) h : Prop := ∃ l, w_suspended w !! a = Some l ∧ l !! k = Some (n, h).

(** An update in the queue takes care of it. *)
Definition handled (us : list Update) a (k : nat) (n : N) : Prop :=
  (∃ s j, Wake a s j ∈ us ∧ n ≤ s ∧ (j ≤ k)%nat) ∨ (∃ l j r, Raise a l j r ∈ us) ∨
  (∃ r j, Finish a r j ∈ us ∧ (j ≤ k)%nat ∧ ∀ x, r = Some x → x < n) ∨ Stop a ∈ us.

Definition update_index (u : Update) : nat :=
  match u with Wake _ _ j | Raise _ _ j _ | Finish _ _ j => j | Stop _ => 0%nat end.

(** When the limit of a chain is raised, the heads that need less were woken before. *)
Definition raises_ordered w : Prop := ∀ u1 u2 a l j r k n h,
  w_updates w = u1 ++ Raise a l j r :: u2 → entry w a k n h → n ≤ l →
  ∃ s j', Wake a s j' ∈ u1 ∧ n ≤ s ∧ (j' ≤ k)%nat.

Record waits hand w : Prop := {
  wt_entry : ∀ a k n h, entry w a k n h →
    handled (w_updates w) a k n ∨ ∃ s l, chains hand w (a, s, l) ∧ s ≤ n;
  wt_raises : raises_ordered w;
  wt_index : Forall (λ u, update_index u = 0%nat) (tail (w_updates w));
  wt_older : ∀ a k n h, entry w a k n h → ∃ d, at_pos d a n ∧ older d (h_id h);
  wt_live : ∀ a x, w_states w !! a = Some x → live x → ∃ s l, chains hand w (a, s, l);
}.

Lemma handled_mono us us' a k n : (∀ u, u ∈ us → u ∈ us') → handled us a k n → handled us' a k n.
Proof. intros Hs [(? & ? & ? & ?)|[(? & ? & ? & ?)|[(? & ? & ? & ?)|?]]]; unfold handled; naive_solver. Qed.

(** Chains move between the hand and the collections of the plan. *)
Lemma waits_move hand hand' w w' :
  w_updates w' = w_updates w → w_suspended w' = w_suspended w →
  (∀ c, chains hand w c → chains hand' w' c) →
  (∀ a x, w_states w' !! a = Some x → live x →
    (∃ x', w_states w !! a = Some x' ∧ live x') ∨ ∃ s l, chains hand' w' (a, s, l)) →
  waits hand w → waits hand' w'.
Proof.
  intros Hu Hs Hc Hl [Hen Hra Hin Hol Hli].
  assert (∀ a k n h, entry w' a k n h ↔ entry w a k n h) as He by (unfold entry; by rewrite Hs).
  split.
  - intros a k n h Hh%He. rewrite Hu. destruct (Hen _ _ _ _ Hh) as [?|(s & l & ? & ?)]; [by left|right; eauto].
  - intros u1 u2 a l j r k n h Hup Hh%He. rewrite Hu in Hup. by eapply Hra.
  - by rewrite Hu.
  - intros a k n h Hh%He. eauto.
  - intros a x Hx Hlive. destruct (Hl _ _ Hx Hlive) as [(x' & Hx' & Hlive')|?]; [|done].
    destruct (Hli _ _ Hx' Hlive') as (s & l & ?). eauto.
Qed.
End inv.
