(* ===== verification/PagerMoves.v ===== *)
(** * Steps of a plan that keep its invariant

    The changes the functions of the pager make to a plan, as lemmas about [inv]: chains
    move between collections, go on, reach their limit, are stopped or are parked. *)

From S2P Require Import Prelude Ids Pages ClockSpec Types Records StoreReads Integrity Requests.
From S2P Require Import Programs Slices Repair Pager PagerInv.

#[local] Open Scope N_scope.
Set Default Proof Using "Type".

Section moves.
Context {C : Type} `{!ClockImpl C} {R : Type} `{!SnapshotRead R} `{!PageRead R}.
Context (read : R) (t : TopicId) (lim : ActorId → N) (wanted : ActorId → Prop).
Implicit Types (w : Walk C) (H : OpId → Prop) (a : ActorId) (h : RangeHead) (i d : OpId).
Implicit Types (hand : list chain) (c : chain) (g : Prop).

Record inv H g hand w : Prop := {
  iv_safe : safe read t H w;
  iv_goals : goals lim wanted g hand w;
  iv_waits : waits read t hand w;
}.

Local Abbreviation done_for := (done_for lim).

Lemma busy_same hand hand' w w' a :
  w_states w' !! a = w_states w !! a → (∀ s l, chains hand' w' (a, s, l) → chains hand w (a, s, l)) →
  w_updates w' = w_updates w → busy hand' w' a → busy hand w a.
Proof. intros Hs Hc Hu [?|[(s & l & ?)|?]]; unfold busy; [rewrite -Hs|rewrite -Hu|rewrite -Hu]; eauto 6. Qed.

Lemma chain_in_same w w' c : same_chains w w' → chain_in w' c ↔ chain_in w c.
Proof. intros []. unfold chain_in, head_in. by rewrite sm_pending sm_active sm_selecting sm_resumable sm_suspended. Qed.

Lemma inv_same H H' g hand w w' : same_chains w w' → safe read t H' w' → inv H g hand w → inv H' g hand w'.
Proof.
  intros Hs Hsf [_ Hg Hw].
  assert (∀ c, chains hand w' c ↔ chains hand w c) as Hc by (intros c; unfold chains; by rewrite chain_in_same).
  pose proof Hs as []. split; [done|..].
  - eapply goals_move; [done..|by intros c ?%Hc| |exact Hg].
    intros a. apply busy_same; [by rewrite sm_states|by intros s l ?%Hc|done].
  - eapply waits_move; [done..|by intros c ?%Hc| |exact Hw].
    intros a x Hx Hl. left. exists x. by rewrite -sm_states.
Qed.

(** The invariant keeps when facts about operations become known. *)
Lemma inv_mono H H' g hand w : (∀ i, H i → H' i) → inv H g hand w → inv H' g hand w.
Proof. intros HH Hi. eapply inv_same; [done|by eapply safe_mono, iv_safe|exact Hi]. Qed.

(** Taking up a chain. *)
Lemma inv_gain H g hand w c : done_for g (c :: hand) w c.1.1 → inv H g hand w → inv H g (c :: hand) w.
Proof.
  intros Hd [Hsf Hg Hw]. split; [done|..].
  - eapply goals_step; [done..| | | |exact Hg].
    + intros a s l Hin Hl. right; right; right. exists s, l. split; [|done]. destruct Hin; [by left; right|by right].
    + by left.
    + intros a [?|[(s & l & [Hin|?])|?]]; [left; by left| |left; right; left; exists s, l; by right|left; by right; right].
      apply elem_of_cons in Hin as [<-|Hin]; [by right|left; right; left; exists s, l; by left].
  - eapply waits_move; [done..| | |exact Hw].
    + intros c' [?|?]; [by left; right|by right].
    + intros a x Hx Hl. left. by exists x.
Qed.

(** Chains that only move, while states of actors with a chain change. *)
Lemma inv_moved H g hand hand' w w' :
  safe read t H w' → w_updates w' = w_updates w → w_suspended w' = w_suspended w → w_remainder w' = w_remainder w →
  w_deferred w' = w_deferred w → w_covered w' = w_covered w →
  (∀ c, chains hand w c ↔ chains hand' w' c) →
  (∀ a, w_states w' !! a = w_states w !! a ∨ ∃ s l, chains hand' w' (a, s, l)) →
  inv H g hand w → inv H g hand' w'.
Proof.
  intros Hsf Hu Hs Hr Hd Hc Hch Hst [_ Hg Hw]. split; [done|..].
  - eapply goals_move; [done..|by intros a; rewrite /covers Hc|by intros c ?%Hch| |exact Hg].
    intros a [Hb|[(s & l & Hb)|Hb]].
    + destruct (Hst a) as [Heq|(s & l & Hc')]; [left; by rewrite -Heq|right; left; exists s, l; by apply Hch].
    + right; left. exists s, l. by apply Hch.
    + right; right. by rewrite -Hu.
  - eapply waits_move; [done..|by intros c ?%Hch| |exact Hw].
    intros a x Hx Hl. destruct (Hst a) as [Heq|?]; [left; exists x; by rewrite -Heq|by right].
Qed.

(** Safety of a plan whose pieces were safe. *)
Lemma safe_moved H w w' :
  w_covered w' = w_covered w → w_checked w' = w_checked w → w_records w' = w_records w →
  (∀ a l, w_states w' !! a = Some (Reached l) → w_states w !! a = Some (Reached l) ∨ l ≤ covers w a) →
  (∀ a l j r, Raise a l j r ∈ w_updates w' → (∃ j' r', Raise a l j' r' ∈ w_updates w) ∨ l ≤ covers w a) →
  (∀ h, head_in w' h → head_in w h ∨ head_ok read t w h) →
  (∀ s, s ∈ w_pending w' → s ∈ w_pending w ∨ scan_ok read t w s) →
  safe read t H w → safe read t H w'.
Proof.
  intros Hc Hk Hr Hst Hup Hh Hp [].
  assert (∀ a, covers w' a = covers w a) as Hcov by (intros a; by rewrite /covers Hc).
  split; [intros a; by rewrite Hcov|..].
  - intros h Hin. destruct (Hh h Hin) as [Hin'|Hok]; [apply sf_heads in Hin' as Hok|]; unfold head_ok; by rewrite Hcov.
  - intros s Hin. destruct (Hp s Hin) as [Hin'|Hok]; [apply sf_pending in Hin' as Hok|]; unfold scan_ok; by rewrite Hcov.
  - intros a l Ha. rewrite Hcov. destruct (Hst a l Ha); eauto.
  - intros a l j r Ha. rewrite Hcov. destruct (Hup a l j r Ha) as [(? & ? & ?)|?]; eauto.
  - by rewrite Hk.
  - by rewrite Hr.
Qed.

(** Chains when a head is taken from the plan. *)
Lemma chains_head hand w w' h :
  w_pending w' = w_pending w → (∀ h', head_in w h' ↔ h' = h ∨ head_in w' h') →
  ∀ c, chains hand w c ↔ chains (head_chain h :: hand) w' c.
Proof.
  intros Hp Hh c. unfold chains, chain_in. rewrite Hp elem_of_cons. split.
  - intros [?|[?|(h' & [->|?]%Hh & ->)]]; [by left; right|by right; left|by left; left|right; right; by exists h'].
  - intros [[->|?]|[?|(h' & ? & ->)]]; [right; right|by left|by right; left|right; right].
    + exists h. split; [apply Hh; by left|done].
    + exists h'. split; [apply Hh; by right|done].
Qed.

(** ** Scans and heads *)

Lemma inv_pop_pending H g hand w s rest :
  w_pending w = s :: rest → inv H g hand w → inv H g (scan_chain s :: hand) (w_set_pending w rest).
Proof.
  intros Hp Hi. eapply (inv_moved _ _ _ _ w); [|done..| |by left|exact Hi].
  - eapply (safe_moved _ w); [done..|by left|by eauto|by left| |apply Hi]. simpl. rewrite Hp. set_solver.
  - intros c. unfold chains, chain_in. simpl. rewrite Hp. set_solver.
Qed.

Lemma inv_push_pending H g hand w s :
  scan_ok read t w s → inv H g (scan_chain s :: hand) w → inv H g hand (w_set_pending w (s :: w_pending w)).
Proof.
  intros Hs Hi. eapply (inv_moved _ _ _ _ w); [|done..| |by left|exact Hi].
  - eapply (safe_moved _ w); [done..|by left|by eauto|by left| |apply Hi]. simpl. set_solver.
  - intros c. unfold chains, chain_in. simpl. set_solver.
Qed.

Lemma inv_activated H g hand w a after l :
  after ≤ covers w a → inv H g ((a, after + 1, l) :: hand) w →
  inv H g hand (activated a after l w).
Proof.
  intros Hs Hi. eapply (inv_moved _ _ _ _ w); [|done..| | |exact Hi].
  - eapply (safe_moved _ w); [done..| |by eauto|by left| |apply Hi].
    + intros b lb. simpl. destruct (decide (a = b)) as [->|]; [by rewrite lookup_insert_eq|by rewrite lookup_insert_ne //; left].
    + simpl. intros s [?| ->%list_elem_of_singleton]%elem_of_app; [by left|]. right. by split.
  - intros c. unfold chains, chain_in. simpl. set_solver.
  - intros b. simpl. destruct (decide (a = b)) as [->|]; [right|left; by rewrite lookup_insert_ne].
    exists (after + 1), l. right; left. eexists. split; [apply elem_of_app; right; by apply list_elem_of_singleton|done].
Qed.

Lemma inv_pop_active H g hand w h rest :
  w_active w = h :: rest → inv H g hand w → inv H g (head_chain h :: hand) (w_set_active w rest) ∧ head_ok read t w h.
Proof.
  intros Hp Hi. split.
  2: { eapply (sf_heads _ _ _ _ (iv_safe _ _ _ _ Hi)). left. rewrite Hp. by left. }
  eapply (inv_moved _ _ _ _ w); [|done..| |by left|exact Hi].
  - eapply (safe_moved _ w); [done..|by left|by eauto| |by left|apply Hi]. unfold head_in. simpl. rewrite Hp. set_solver.
  - apply chains_head; [done|]. intros h'. unfold head_in. simpl. rewrite Hp elem_of_cons. tauto.
Qed.

Lemma inv_push_active H g hand w h :
  head_ok read t w h → inv H g (head_chain h :: hand) w → inv H g hand (push_active h w).
Proof.
  intros Hs Hi. eapply (inv_moved _ _ _ _ w); [|done..| |by left|exact Hi].
  - eapply (safe_moved _ w); [done..|by left|by eauto| |by left|apply Hi].
    unfold head_in. simpl. intros h'. rewrite elem_of_heap_push. naive_solver.
  - intros c. symmetry. revert c. apply chains_head; [done|]. intros h'. unfold head_in. simpl.
    rewrite elem_of_heap_push. tauto.
Qed.

(** A head becomes active again, with the state of its actor. *)
Lemma inv_put_active H g hand w a :
  inv H g hand w → (∃ s l, chains hand w (a, s, l)) → inv H g hand (put_state (a) Active w).
Proof.
  intros Hi Hc. eapply (inv_moved _ _ _ _ w); [|done..| | |exact Hi].
  - eapply (safe_moved _ w); [done..| |by eauto|by left|by left|apply Hi].
    intros b lb. simpl. destruct (decide (a = b)) as [->|]; [by rewrite lookup_insert_eq|by rewrite lookup_insert_ne //; left].
  - done.
  - intros b. simpl. destruct (decide (a = b)) as [->|]; [by right|left; by rewrite lookup_insert_ne].
Qed.

Lemma inv_pop_resumable H g hand w h rest :
  w_resumable w = h :: rest → inv H g hand w → inv H g (head_chain h :: hand) (w_set_resumable w rest) ∧ head_ok read t w h.
Proof.
  intros Hp Hi. split.
  2: { eapply (sf_heads _ _ _ _ (iv_safe _ _ _ _ Hi)). right; right; left. rewrite Hp. by left. }
  eapply (inv_moved _ _ _ _ w); [|done..| |by left|exact Hi].
  - eapply (safe_moved _ w); [done..|by left|by eauto| |by left|apply Hi]. unfold head_in. simpl. rewrite Hp. set_solver.
  - apply chains_head; [done|]. intros h'. unfold head_in. simpl. rewrite Hp elem_of_cons. tauto.
Qed.

Lemma inv_take_selecting H g hand w l :
  w_selecting w = Some l → inv H g hand w →
  inv H g ((head_chain <$> l) ++ hand) (w_set_selecting w None) ∧ Forall (head_ok read t w) l.
Proof.
  intros Hp Hi. split.
  2: { apply Forall_forall. intros h Hh. eapply (sf_heads _ _ _ _ (iv_safe _ _ _ _ Hi)). right; left. eauto. }
  eapply (inv_moved _ _ _ _ w); [|done..| |by left|exact Hi].
  - eapply (safe_moved _ w); [done..|by left|by eauto| |by left|apply Hi]. unfold head_in. simpl. naive_solver.
  - intros c. unfold chains, chain_in, head_in. simpl. rewrite Hp. setoid_rewrite elem_of_app.
    setoid_rewrite list_elem_of_fmap. naive_solver.
Qed.

Lemma inv_put_selecting H g hand w l :
  w_selecting w = None → Forall (head_ok read t w) l → inv H g ((head_chain <$> l) ++ hand) w →
  inv H g hand (w_set_selecting w (Some l)).
Proof.
  intros Hp Hok Hi. rewrite Forall_forall in Hok. eapply (inv_moved _ _ _ _ w); [|done..| |by left|exact Hi].
  - eapply (safe_moved _ w); [done..|by left|by eauto| |by left|apply Hi]. unfold head_in. simpl. naive_solver.
  - intros c. unfold chains, chain_in, head_in. simpl. rewrite Hp. setoid_rewrite elem_of_app.
    setoid_rewrite list_elem_of_fmap. naive_solver.
Qed.

(** ** Updates and states *)

Lemma entry_queue w us a k n h : entry (w_set_updates w us) a k n h ↔ entry w a k n h.
Proof. done. Qed.

Lemma raise_last (us u1 u2 : list Update) u a l j r : us ++ [u] = u1 ++ Raise a l j r :: u2 →
  (u = Raise a l j r ∧ us = u1) ∨ ∃ u2', us = u1 ++ Raise a l j r :: u2'.
Proof.
  destruct u2 as [|x u2 _] using rev_ind.
  - intros [-> [= ->]]%app_inj_tail. by left.
  - rewrite app_comm_cons app_assoc. intros [-> _]%app_inj_tail. right. by exists u2.
Qed.

Lemma waits_queue hand w u :
  update_index u = 0%nat →
  (∀ a l j r, u = Raise a l j r → ∀ k n h, entry w a k n h → n ≤ l →
    ∃ s j', Wake a s j' ∈ w_updates w ∧ n ≤ s ∧ (j' ≤ k)%nat) →
  waits read t hand w → waits read t hand (w_set_updates w (w_updates w ++ [u])).
Proof.
  intros Hu Hr [Hen Hra Hin Hol Hli]. split.
  - intros a k n h He. destruct (Hen _ _ _ _ He) as [?|?]; [left|by right].
    eapply handled_mono; [|done]. intros u' Hu'. apply elem_of_app. by left.
  - intros u1 u2 a l j r k n h [[-> <-]|(u2' & Hus)]%raise_last He Hl; [by eapply Hr|by eapply Hra].
  - simpl. destruct (w_updates w); simpl; [done|]. apply Forall_app. split; [done|by constructor].
  - done.
  - done.
Qed.

Lemma waits_state hand w a x :
  (live x → ∃ s l, chains hand w (a, s, l)) → waits read t hand w → waits read t hand (put_state a x w).
Proof.
  intros Hl Hw. eapply (waits_move _ _ hand hand w); [done..| |exact Hw]. intros b y. simpl.
  destruct (decide (a = b)) as [->|]; [rewrite lookup_insert_eq|rewrite lookup_insert_ne //; eauto].
  intros [= <-] Hlive. right. by apply Hl.
Qed.

Lemma waits_unstate hand w a : waits read t hand w → waits read t hand (w_set_states w (delete a (w_states w))).
Proof.
  intros Hw. eapply (waits_move _ _ hand hand w); [done..| |exact Hw]. intros b y. simpl.
  intros [? ?]%lookup_delete_Some. eauto.
Qed.

(** A chain leaves the hand when the heads that wait for its actor are cared for. *)
Lemma waits_drop hand w a s l :
  (∀ k n h, entry w a k n h → s ≤ n → handled (w_updates w) a k n ∨ ∃ s' l', chains hand w (a, s', l') ∧ s' ≤ n) →
  (∀ x, w_states w !! a = Some x → live x → ∃ s' l', chains hand w (a, s', l')) →
  waits read t ((a, s, l) :: hand) w → waits read t hand w.
Proof.
  intros He Hl [Hen Hra Hin Hol Hli].
  assert (∀ b s' l', chains ((a, s, l) :: hand) w (b, s', l') → b = a ∧ s' = s ∨ chains hand w (b, s', l')) as Hc.
  { intros b s' l' [[[= -> -> ->]|?]%elem_of_cons|?]; [by left|by right; left|by right; right]. }
  split; [|done..|].
  - intros b k n h Hb. destruct (Hen _ _ _ _ Hb) as [?|(s' & l' & [[-> ->]|?]%Hc & Hs)]; [by left|by eapply He|right; eauto].
  - intros b x Hx Hlive. destruct (Hli _ _ Hx Hlive) as (s' & l' & [[-> ->]|?]%Hc); [by eapply Hl|eauto].
Qed.

Lemma waits_hand hand hand' w : (∀ c, c ∈ hand → c ∈ hand') → waits read t hand w → waits read t hand' w.
Proof.
  intros Hh Hw. eapply (waits_move _ _ hand hand' w); [done..| | |exact Hw].
  - intros c [?|?]; [left; auto|by right].
  - eauto.
Qed.

Lemma goals_given g hand w : g → goals lim wanted g hand w.
Proof. intros Hg. split; [intros; right; by left|intros; by left]. Qed.

Lemma waits_update hand w a u :
  update_index u = 0%nat →
  (∀ b l j r, u = Raise b l j r → ∀ k n h, entry w b k n h → n ≤ l →
    ∃ s j', Wake b s j' ∈ w_updates w ∧ n ≤ s ∧ (j' ≤ k)%nat) →
  waits read t hand w → waits read t hand (put_update a u w).
Proof. intros Hu Hr Hw. unfold put_update. case_bool_decide; [by apply waits_queue|done]. Qed.

(** The update is there when somebody waits. *)
Lemma put_update_in w a u k n h : entry w a k n h → u ∈ w_updates (put_update a u w).
Proof.
  intros (l & Hl & _). unfold put_update. rewrite bool_decide_true; [by eexists|].
  apply elem_of_app. right. by left.
Qed.

Lemma put_update_suspended w a u : w_suspended (put_update a u w) = w_suspended w.
Proof. unfold put_update. by case_bool_decide. Qed.

Lemma chains_put_update hand w a u c : chains hand (put_update a u w) c ↔ chains hand w c.
Proof. unfold put_update. by case_bool_decide. Qed.

Lemma safe_put_update H w a u :
  (∀ b l j r, u = Raise b l j r → l ≤ covers w b) → safe read t H w → safe read t H (put_update a u w).
Proof.
  intros Hu Hs. unfold put_update. case_bool_decide; [|done].
  eapply (safe_moved _ w); [done..|by left| |by left|by left|done].
  intros b l j r [?|Heq%list_elem_of_singleton]%elem_of_app; [by eauto|right; by eapply Hu].
Qed.

Lemma safe_put_state H w a x : (∀ l, x = Reached l → l ≤ covers w a) → safe read t H w → safe read t H (put_state a x w).
Proof.
  intros Hx Hs. eapply (safe_moved _ w); [done..| |by eauto|by left|by left|done].
  intros b l. simpl. destruct (decide (a = b)) as [->|]; [|by rewrite lookup_insert_ne //; left].
  rewrite lookup_insert_eq. intros [= ->]. right. by apply Hx.
Qed.

(** A chain is given up: those that wait for it are told. *)
Lemma inv_stopped H g g' hand w a s l :
  g' → inv H g ((a, s, l) :: hand) w → inv H g' hand (stopped a w).
Proof.
  intros Hg' [Hsf _ Hw]. unfold stopped. split.
  - apply safe_put_update; [done|]. by apply safe_put_state.
  - by apply goals_given.
  - eapply (waits_drop _ _ a s l).
    + intros k n h He _. left. right; right; right. eapply put_update_in.
      unfold entry in He |- *. by rewrite put_update_suspended in He.
    + intros x. assert (w_states (put_update a (Stop a) (put_state a Blocked w)) !! a = Some Blocked) as ->.
      { unfold put_update. case_bool_decide; simpl; by rewrite lookup_insert_eq. }
      intros [= <-] [?|?]; done.
    + apply waits_update; [done..|]. apply waits_state; [by intros [?|?]|done].
Qed.

Lemma covers_put_update w a u b : covers (put_update a u w) b = covers w b.
Proof. unfold put_update. by case_bool_decide. Qed.

(** A chain goes on: those that waited for a position up to [q] are woken. *)
Lemma inv_advanced H g hand w a s q l :
  inv H g ((a, s, l) :: hand) w → inv H g ((a, q + 1, l) :: hand) (put_update a (Wake a q 0) w).
Proof.
  intros [Hsf Hg Hw].
  split.
  - by apply safe_put_update.
  - eapply (goals_step _ _ g g ((a, s, l) :: hand) _ w); [done| | | | | |exact Hg].
    + unfold put_update. by case_bool_decide.
    + intros b. by rewrite covers_put_update.
    + intros b s' l' Hin Hl. right; right; right.
      destruct (decide (b = a ∧ l' = l)) as [[-> ->]|Hne]; [exists (q + 1), l; split; [by left; left|done]|].
      exists s', l'. split; [|done]. apply chains_put_update. unfold chains in Hin |- *. rewrite !elem_of_cons in Hin |- *. naive_solver.
    + intros b Hb _. left. unfold put_update. by case_bool_decide.
    + intros b Hb. left. destruct Hb as [Hb|[(s' & l' & Hb)|(l' & j & r & Hb)]].
      * left. unfold put_update in Hb. by case_bool_decide.
      * right; left. apply chains_put_update in Hb. unfold chains in Hb. rewrite elem_of_cons in Hb.
        destruct Hb as [[[= -> -> ->]|Hb]|Hb]; [exists s, l; by left; left|exists s', l'; by left; right|exists s', l'; by right].
      * right; right. exists l', j, r. unfold put_update in Hb. case_bool_decide; [|done].
        apply elem_of_app in Hb as [?|Hb%list_elem_of_singleton]; done.
  - eapply (waits_drop _ _ a s l).
    + intros k n h He Hn. pose proof He as He'. unfold entry in He'. rewrite put_update_suspended in He'.
      destruct (decide (n ≤ q)); [left; left; exists q, O; split_and!; [by eapply put_update_in|done|lia]|].
      right. exists (q + 1), l. split; [by left; left|lia].
    + intros x Hx Hl. exists (q + 1), l. by left; left.
    + apply (waits_hand ((a, s, l) :: hand)); [set_solver|]. by apply waits_update.
Qed.

(** A chain has reached its limit: it may be raised for those that wait for more. *)
Lemma inv_reached (scope : ActorScope C) H g hand w a s l :
  l ≤ covers w a →
  (∀ k n h, entry w a k n h → n ≤ l → ∃ q j, Wake a q j ∈ w_updates w ∧ n ≤ q ∧ (j ≤ k)%nat) →
  inv H g ((a, s, l) :: hand) w → inv H g hand (reached scope a l w).
Proof.
  intros Hl Hwake Hi. pose proof Hi as [Hsf Hg Hw].
  assert (∀ c, chains hand (reached scope a l w) c ↔ chains hand w c) as Hc.
  { intros c. unfold reached. case_bool_decide; [done|]. by destruct (informed scope). }
  assert (∀ b, covers (reached scope a l w) b = covers w b) as Hcov.
  { intros b. unfold reached. case_bool_decide; [done|]. by destruct (informed scope). }
  assert (w_remainder (reached scope a l w) = w_remainder w ∧ w_deferred (reached scope a l w) = w_deferred w) as [Hr Hd].
  { unfold reached. case_bool_decide; [done|]. by destruct (informed scope). }
  split.
  - unfold reached. assert (safe read t H (put_state a (Reached l) w)) as Hsf'.
    { apply safe_put_state; [by intros ? [= <-]|done]. }
    pose proof (safe_put_update H (put_state a (Reached l) w) a (Raise a l 0 None)) as Hup. unfold put_update in Hup.
    case_bool_decide; [by apply Hup; [intros ? ? ? ? [= <- <- <- <-]|]|]. destruct (informed scope); [|done].
    eapply (safe_moved _ w); [done..| |by eauto|by left|by left|done]. intros b lb. simpl.
    intros [? Hb]%lookup_delete_Some. rewrite lookup_insert_ne // in Hb. by left.
  - assert (∀ b, done_for g ((a, s, l) :: hand) w b → done_for g hand (reached scope a l w) b) as Hdone.
    { intros b. apply done_for_step; [done|by rewrite Hr|by rewrite Hcov|]. intros s' l' Hin Hle.
      destruct Hin as [[[= -> -> ->]|Hin]%elem_of_cons|Hin].
      - right; right; left. rewrite Hcov. lia.
      - right; right; right. exists s', l'. split; [apply Hc; by left|done].
      - right; right; right. exists s', l'. split; [apply Hc; by right|done]. }
    assert (done_for g hand (reached scope a l w) a) as Ha.
    { apply Hdone, (gl_busy _ _ _ _ _ Hg). right; left. exists s, l. by left; left. }
    split; [intros b Hb; rewrite Hd; destruct (gl_wanted _ _ _ _ _ Hg b Hb); auto|]. intros b Hb.
    destruct (decide (b = a)) as [->|Hne]; [done|]. apply Hdone, (gl_busy _ _ _ _ _ Hg).
    destruct Hb as [Hb|[(s' & l' & Hb%Hc)|(l' & j & r & Hb)]].
    + left. unfold reached in Hb. case_bool_decide; simpl in Hb; [by rewrite lookup_insert_ne in Hb|].
      destruct (informed scope); simpl in Hb; by rewrite ?lookup_delete_ne ?lookup_insert_ne in Hb.
    + right; left. exists s', l'. destruct Hb; [by left; right|by right].
    + right; right. exists l', j, r. unfold reached in Hb. case_bool_decide; simpl in Hb; [|by destruct (informed scope)].
      apply elem_of_app in Hb as [?|[= <-]%list_elem_of_singleton]; done.
  - assert (waits read t ((a, s, l) :: hand) (put_state a (Reached l) w)) as Hw1.
    { apply waits_state; [by intros [?|?]|done]. }
    assert (∀ x, w_states (put_state a (Reached l) w) !! a = Some x → ¬ live x) as Hst.
    { intros x. simpl. rewrite lookup_insert_eq. by intros [= <-] [?|?]. }
    unfold reached. case_bool_decide as Hsus.
    + eapply (waits_drop _ _ a s l); [| |apply waits_queue; [done| |exact Hw1]].
      * intros k n h He _. left. right; left. exists l, O, None. simpl. set_solver.
      * intros x Hx Hlive. by eapply Hst in Hx.
      * intros b lb j r [= <- <- <- <-] k n h He Hn. by eapply Hwake.
    + assert (waits read t hand (put_state a (Reached l) w)) as Hw2.
      { eapply (waits_drop _ _ a s l); [| |exact Hw1].
        - intros k n h (la & Hla & _). destruct Hsus. by exists la.
        - intros x Hx Hlive. by eapply Hst in Hx. }
      destruct (informed scope); [by apply waits_unstate|done].
Qed.

(** A head is parked for a position that its chain has not passed. *)
Lemma entry_parked w h a n b k n' h' :
  entry (parked h a n w) b k n' h' → entry w b k n' h' ∨ b = a ∧ n' = n ∧ h' = h.
Proof.
  intros (l & Hl & Hk). unfold parked in Hl. simpl in Hl. destruct (decide (a = b)) as [->|].
  2: { rewrite lookup_insert_ne // in Hl. left. by exists l. }
  rewrite lookup_insert_eq in Hl. injection Hl as <-.
  apply lookup_app_Some in Hk as [Hk|[_ Hk]].
  - left. destruct (w_suspended w !! b) as [lb|] eqn:Hb; [by exists lb|done].
  - apply list_lookup_singleton_Some in Hk as [_ [= -> ->]]. by right.
Qed.

Lemma head_in_parked w h a n h' : head_in (parked h a n w) h' ↔ h' = h ∨ head_in w h'.
Proof. clear wanted lim.
  unfold head_in, parked. simpl. split.
  - intros [?|[?|[?|(b & l & n' & Hl & Hin)]]]; [tauto..|]. destruct (decide (a = b)) as [->|].
    + rewrite lookup_insert_eq in Hl. injection Hl as <-.
      apply elem_of_app in Hin as [Hin|[= -> ->]%list_elem_of_singleton]; [|by left].
      destruct (w_suspended w !! b) as [lb|] eqn:Hb; [|by apply elem_of_nil in Hin]. right; right; right; right. eauto.
    + rewrite lookup_insert_ne // in Hl. right; right; right; right. eauto.
  - intros [->|[?|[?|[?|(b & l & n' & Hl & Hin)]]]]; [|tauto..|].
    + right; right; right. exists a. eexists _, n. rewrite lookup_insert_eq. split; [done|]. apply elem_of_app. right. by left.
    + right; right; right. exists b. destruct (decide (a = b)) as [->|].
      * eexists _, n'. rewrite lookup_insert_eq Hl. split; [done|]. apply elem_of_app. by left.
      * exists l, n'. by rewrite lookup_insert_ne.
Qed.

Lemma inv_parked H g hand w h a n :
  head_ok read t w h → (∃ s l, chains hand w (a, s, l) ∧ s ≤ n) → (∀ l j r, Raise a l j r ∉ w_updates w) →
  (∃ d, at_pos read t d a n ∧ older read t d (h_id h)) →
  inv H g (head_chain h :: hand) w → inv H g hand (parked h a n w).
Proof.
  intros Hok (s & l & Hin & Hs) Hraise Hold Hi. pose proof Hi as [Hsf Hg Hw].
  assert (∀ c, chains hand (parked h a n w) c ↔ chains (head_chain h :: hand) w c) as Hc.
  { apply chains_head; [done|]. apply head_in_parked. }
  assert (chains hand (parked h a n w) (head_chain h)) as Hh by (apply Hc; by left; left).
  split.
  - eapply (safe_moved _ w); [done..| |by eauto| |by left|done].
    + intros b lb. simpl. destruct (decide (h_actor h = b)) as [<-|]; [by rewrite lookup_insert_eq|by rewrite lookup_insert_ne //; left].
    + intros h' [->|?]%head_in_parked; [by right|by left].
  - eapply (goals_move _ _ g g (head_chain h :: hand) _ w); [done..|by intros c ?%Hc| |exact Hg].
    intros b [Hb|[(s' & l' & Hb%Hc)|Hb]]; [|right; left; eauto|by right; right].
    simpl in Hb. destruct (decide (h_actor h = b)) as [<-|]; [|left; by rewrite lookup_insert_ne in Hb].
    right; left. eexists _, _. by left; left.
  - destruct Hw as [Hen Hra Hix Hol Hli]. split; [| |done| |].
    + intros b k n' h' [He|(-> & -> & ->)]%entry_parked.
      * destruct (Hen _ _ _ _ He) as [?|(s' & l' & Hin' & ?)]; [by left|right]. exists s', l'. by rewrite Hc.
      * right. exists s, l. split; [|done]. apply Hc. destruct Hin; [by left; right|by right].
    + intros u1 u2 b lb j r k n' h' Hu [He|(-> & -> & ->)]%entry_parked Hn; [by eapply Hra|].
      destruct (Hraise lb j r). simpl in Hu. rewrite Hu. set_solver.
    + intros b k n' h' [He|(-> & -> & ->)]%entry_parked; eauto.
    + intros b x. simpl. destruct (decide (h_actor h = b)) as [<-|].
      * intros _ _. eexists _, _. exact Hh.
      * rewrite lookup_insert_ne //. intros Hx Hlive. destruct (Hli _ _ Hx Hlive) as (s' & l' & ?). exists s', l'. by apply Hc.
Qed.

(** ** Updates in progress: [requeued u w] is [w] with [u] still to be done *)

Lemma requeued_pop w u us : w_updates w = u :: us → requeued u (w_set_updates w us) = w.
Proof. destruct w. simpl. by intros ->. Qed.

Lemma requeued_stopped w u a : requeued u (stopped a w) = stopped a (requeued u w).
Proof. unfold stopped, put_update. simpl. by case_bool_decide. Qed.

(** Another update, or none, is in progress: what it has to care for is cared for. *)
Lemma inv_updates H g hand w us us' :
  (∀ a l j r, Raise a l j r ∈ us' → (∃ j' r', Raise a l j' r' ∈ us)) →
  (∀ a k n h, entry w a k n h → handled us a k n → handled us' a k n ∨ ∃ s l, chains hand w (a, s, l) ∧ s ≤ n) →
  (∀ u1 u2 a l j r k n h, us' = u1 ++ Raise a l j r :: u2 → entry w a k n h → n ≤ l →
     ∃ s j', Wake a s j' ∈ u1 ∧ n ≤ s ∧ (j' ≤ k)%nat) →
  Forall (λ u, update_index u = 0%nat) (tail us') →
  inv H g hand (w_set_updates w us) → inv H g hand (w_set_updates w us').
Proof.
  intros Hraise Hh Hra Hix [Hsf Hg Hw]. split.
  - eapply (safe_moved _ (w_set_updates w us)); [done..|by left| |by left|by left|done].
    intros a l j r Hin. left. by eapply Hraise.
  - eapply (goals_move _ _ g g hand _ (w_set_updates w us)); [done..| |exact Hg].
    intros a [?|[?|(l & j & r & Hin)]]; [by left|by right; left|right; right].
    destruct (Hraise _ _ _ _ Hin) as (j' & r' & ?). by exists l, j', r'.
  - destruct Hw as [Hen _ _ Hol Hli]. split; [|done..].
    intros a k n h He. destruct (Hen _ _ _ _ He) as [Hha|?]; [|by right]. by eapply Hh.
Qed.

Lemma handled_cons u us a k n : handled (u :: us) a k n ↔ handled [u] a k n ∨ handled us a k n.
Proof. clear wanted lim. unfold handled. setoid_rewrite elem_of_cons. setoid_rewrite elem_of_nil. naive_solver. Qed.

(** The heads before a [Raise] that is not the first update. *)
Lemma raises_cons w u us : raises_ordered (w_set_updates w (u :: us)) →
  ∀ u1 u2 a l j r k n h, us = u1 ++ Raise a l j r :: u2 → entry w a k n h → n ≤ l →
    ∃ s j', Wake a s j' ∈ u :: u1 ∧ n ≤ s ∧ (j' ≤ k)%nat.
Proof. intros Hra u1 u2 a l j r k n h -> He Hn. by eapply (Hra (u :: u1)). Qed.

(** An update that is over: nothing it would care for is left. *)
Lemma inv_update_done H g hand w u :
  (∀ a k n h, entry w a k n h → ¬ handled [u] a k n) → (∀ a l j r, u ≠ Raise a l j r) →
  inv H g hand (requeued u w) → inv H g hand w.
Proof.
  intros Hnone Hnr Hi. pose proof (iv_waits _ _ _ _ Hi) as Hw.
  replace w with (w_set_updates w (w_updates w)) by by destruct w.
  eapply inv_updates; [| | | |exact Hi].
  - intros a l j r Hin. exists j, r. by right.
  - intros a k n h He [Hh|Hh]%handled_cons; [by eapply Hnone in Hh|by left].
  - intros u1 u2 a l j r k n h Hus He Hn.
    destruct (raises_cons w u _ (wt_raises _ _ _ _ Hw) _ _ _ _ _ _ _ _ _ Hus He Hn) as (s & j' & [<-|Hin]%elem_of_cons & Hns & Hj); [|eauto].
    destruct (Hnone _ _ _ _ He). left. exists s, j'. split_and!; [by left|done..].
  - pose proof (wt_index _ _ _ _ Hw) as Hix. simpl in Hix. by destruct (w_updates w); [|inversion Hix].
Qed.

(** An update goes on to the next head. *)
Lemma inv_update_next H g hand w u u' :
  (∀ a k n h, entry w a k n h → handled [u] a k n → handled [u'] a k n) →
  (∀ a l j r, u' = Raise a l j r → ∃ j' r', u = Raise a l j' r') →
  (∀ a s j k n h, u = Wake a s j → entry w a k n h → n ≤ s → (j ≤ k)%nat → ∃ j', u' = Wake a s j' ∧ (j' ≤ k)%nat) →
  inv H g hand (requeued u w) → inv H g hand (requeued u' w).
Proof.
  intros Hh Hr Hwk Hi. pose proof (iv_waits _ _ _ _ Hi) as Hw. eapply inv_updates; [| | | |exact Hi].
  - intros a l j r [<-|Hin]%elem_of_cons; [|exists j, r; by right].
    destruct (Hr _ _ _ _ eq_refl) as (j' & r' & ->). exists j', r'. by left.
  - intros a k n h He Hha. left. apply handled_cons. apply handled_cons in Hha as [?|?]; [left; eauto|by right].
  - intros u1 u2 a l j r k n h Hus He Hn. destruct u1 as [|x us1]; injection Hus as -> Hus.
    + destruct (Hr _ _ _ _ eq_refl) as (j' & r' & ->). exfalso.
      by destruct (wt_raises _ _ _ _ Hw [] (w_updates w) a l j' r' k n h eq_refl He Hn) as (? & ? & ?%elem_of_nil & _).
    + destruct (raises_cons w u _ (wt_raises _ _ _ _ Hw) _ _ _ _ _ _ _ _ _ Hus He Hn) as (s & j' & [<-|Hin]%elem_of_cons & Hns & Hj).
      * destruct (Hwk _ _ _ _ _ _ eq_refl He Hns Hj) as (j2 & -> & ?). exists s, j2. split_and!; [by left|done..].
      * exists s, j'. split_and!; [by right|done..].
  - exact (wt_index _ _ _ _ Hw).
Qed.

Lemma waiting_at_None w a j k n h : waiting_at a j w = None → entry w a k n h → (k < j)%nat.
Proof.
  unfold waiting_at. intros Hj (l & Hl & Hk). rewrite Hl /= in Hj. apply lookup_ge_None in Hj.
  apply lookup_lt_Some in Hk. lia.
Qed.
Lemma waiting_at_Some w a j k n h n' h' : waiting_at a j w = Some (n, h) → entry w a k n' h' → k = j → n' = n ∧ h' = h.
Proof. unfold waiting_at. intros Hj (l & Hl & Hk) ->. rewrite Hl /= in Hj. by simplify_eq. Qed.

Lemma handled_wake a s j b k n : handled [Wake a s j] b k n ↔ b = a ∧ n ≤ s ∧ (j ≤ k)%nat.
Proof. clear wanted lim. unfold handled. setoid_rewrite list_elem_of_singleton. naive_solver. Qed.
Lemma handled_raise a l j r b k n : handled [Raise a l j r] b k n ↔ b = a.
Proof. clear wanted lim. unfold handled. setoid_rewrite list_elem_of_singleton. naive_solver. Qed.
Lemma handled_finish a r j b k n : handled [Finish a r j] b k n ↔ b = a ∧ (j ≤ k)%nat ∧ ∀ x, r = Some x → x < n.
Proof. clear wanted lim. unfold handled. setoid_rewrite list_elem_of_singleton. naive_solver. Qed.
Lemma handled_stop a b k n : handled [Stop a] b k n ↔ b = a.
Proof. clear wanted lim. unfold handled. setoid_rewrite list_elem_of_singleton. naive_solver. Qed.

Lemma inv_wake_done H g hand w a s j :
  waiting_at a j w = None → inv H g hand (requeued (Wake a s j) w) → inv H g hand w.
Proof.
  intros Hj. apply inv_update_done; [|done]. intros b k n h He (-> & _ & ?)%handled_wake.
  pose proof (waiting_at_None _ _ _ _ _ _ Hj He). lia.
Qed.

Lemma inv_wake_next H g hand w a s j n0 h0 :
  waiting_at a j w = Some (n0, h0) → s < n0 →
  inv H g hand (requeued (Wake a s j) w) → inv H g hand (requeued (Wake a s (S j)) w).
Proof.
  intros Hj Hs. assert (∀ k n h, entry w a k n h → n ≤ s → (j ≤ k)%nat → (S j ≤ k)%nat) as Hk.
  { intros k n h He Hn Hle. destruct (decide (k = j)) as [Heq|]; [|lia].
    destruct (waiting_at_Some _ _ _ _ _ _ _ _ Hj He Heq) as [-> _]. lia. }
  apply inv_update_next; [|done|].
  - intros b k n h He (-> & Hn & Hle)%handled_wake. apply handled_wake. split_and!; eauto.
  - intros b s' j' k n h [= <- <- <-] He Hn Hle. exists (S j). eauto.
Qed.

Lemma inv_raise_next H g hand w a l j r j' r' :
  inv H g hand (requeued (Raise a l j r) w) → inv H g hand (requeued (Raise a l j' r') w).
Proof.
  apply inv_update_next; [|by intros ? ? ? ? [= <- <- <- <-]; eauto|done].
  intros b k n h He ->%handled_raise. by apply handled_raise.
Qed.

Lemma inv_finish_done H g hand w a r j :
  waiting_at a j w = None → inv H g hand (requeued (Finish a r j) w) → inv H g hand w.
Proof.
  intros Hj. apply inv_update_done; [|done]. intros b k n h He (-> & ? & _)%handled_finish.
  pose proof (waiting_at_None _ _ _ _ _ _ Hj He). lia.
Qed.

Lemma inv_finish_next H g hand w a x j n0 h0 :
  waiting_at a j w = Some (n0, h0) → n0 ≤ x →
  inv H g hand (requeued (Finish a (Some x) j) w) → inv H g hand (requeued (Finish a (Some x) (S j)) w).
Proof.
  intros Hj Hx. apply inv_update_next; [|done..].
  intros b k n h He (-> & Hle & Hn)%handled_finish. apply handled_finish. split_and!; [done| |done].
  destruct (decide (k = j)) as [Heq|]; [|lia]. destruct (waiting_at_Some _ _ _ _ _ _ _ _ Hj He Heq) as [-> _].
  specialize (Hn _ eq_refl). lia.
Qed.

Lemma inv_stop_done H g hand w a :
  (∀ k n h, ¬ entry w a k n h) → inv H g hand (requeued (Stop a) w) → inv H g hand w.
Proof. intros Hnone. apply inv_update_done; [|done]. intros b k n h He ->%handled_stop. by eapply Hnone. Qed.

(** All heads were looked at: the limit is raised, or the heads are given up. *)
Lemma inv_raised H g hand w a l j r :
  inv H g hand (requeued (Raise a l j r) w) →
  inv H g hand (requeued (Finish a r 0) (match r with Some x => activated a l x w | None => w end)).
Proof.
  intros Hi. pose proof Hi as [Hsf Hg Hw].
  assert (∀ k n h, entry w a k n h → l < n) as Hmore.
  { intros k n h He. apply N.nle_gt. intros Hn.
    by destruct (wt_raises _ _ _ _ Hw [] (w_updates w) a l j r k n h eq_refl He Hn) as (? & ? & ?%elem_of_nil & _). }
  assert (l ≤ covers w a) as Hl by (eapply (sf_raise _ _ _ _ Hsf); by left).
  assert (∀ hd, (∀ c, c ∈ hand → c ∈ hd) → (∀ x, r = Some x → (a, l + 1, x) ∈ hd) →
    inv H g hd (requeued (Raise a l j r) w) → inv H g hd (requeued (Finish a r 0) w)) as Hfin.
  { intros hd Hsub Hx Hi'. pose proof (iv_waits _ _ _ _ Hi') as Hw'. eapply inv_updates; [| | | |exact Hi'].
    - intros b lb jb rb [?|Hin]%elem_of_cons; [done|]. exists jb, rb. by right.
    - intros b k n h He [->%handled_raise|Hha]%handled_cons; [|left; apply handled_cons; by right].
      pose proof (Hmore _ _ _ He) as Hn. destruct r as [x|].
      + right. exists (l + 1), x. split; [left; by apply Hx|lia].
      + left. apply handled_cons. left. apply handled_finish. split_and!; [done|lia|done].
    - intros u1 u2 b lb jb rb k n h Hus He Hn. destruct u1 as [|x us1]; injection Hus as Heq Hus; [done|subst x].
      destruct (raises_cons w _ _ (wt_raises _ _ _ _ Hw') _ _ _ _ _ _ _ _ _ Hus He Hn) as (s & j' & [Heq|Hin]%elem_of_cons & Hns & Hj); [done|].
      exists s, j'. split_and!; [by right|done..].
    - exact (wt_index _ _ _ _ Hw'). }
  destruct r as [x|]; [|by apply Hfin].
  assert (inv H g ((a, l + 1, x) :: hand) (requeued (Finish a (Some x) 0) w)) as Hi2.
  { apply Hfin; [set_solver|intros ? [= <-]; by left|]. apply inv_gain; [|done]. simpl.
    eapply (done_for_step _ g g hand _ (requeued (Raise a l j (Some x)) w)); [done|done|done| |].
    - intros s lb Hin Hlb. right; right; right. exists s, lb. split; [|done]. destruct Hin; [by left; right|by right].
    - apply (gl_busy _ _ _ _ _ Hg). right; right. exists l, j, (Some x). by left. }
  exact (inv_activated _ _ _ (requeued (Finish a (Some x) 0) w) _ _ _ Hl Hi2).
Qed.

(** ** A head leaves those that wait *)

Lemma entry_unpark w a j n h b k n' h' :
  waiting_at a j w = Some (n, h) → entry (unpark a j w) b k n' h' →
  ∃ k', entry w b k' n' h' ∧ (k' = k ∨ b = a ∧ k = j ∧ (j ≤ k')%nat).
Proof.
  unfold waiting_at, unpark. destruct (w_suspended w !! a) as [l|] eqn:Hl; [|done]. simpl. intros Hj (l' & Hl' & Hk).
  assert (∀ m, m ≠ [] → set_waiting a m w = w_set_suspended w (<[a := m]> (w_suspended w))) as Hset by by intros [].
  destruct (decide (a = b)) as [->|Hne].
  2: { exists k. split; [|by left]. exists l'. split; [|done].
       destruct (swap_remove j l); simpl in Hl'; by rewrite ?lookup_delete_ne ?lookup_insert_ne in Hl'. }
  assert (l' = swap_remove j l) as ->.
  { destruct (swap_remove j l); simpl in Hl'; rewrite ?lookup_delete_eq ?lookup_insert_eq in Hl'; by simplify_eq. }
  destruct (swap_remove_lookup l j k (n', h')) as (k' & Hk' & _ & Hor); [by eapply lookup_lt_Some|done|].
  exists k'. split; [by exists l|]. destruct Hor as [->|[-> ?]]; [by left|by right].
Qed.

Lemma head_in_unpark w a j n h h' :
  waiting_at a j w = Some (n, h) → head_in w h' ↔ h' = h ∨ head_in (unpark a j w) h'.
Proof. clear wanted lim.
  unfold waiting_at, unpark, head_in. destruct (w_suspended w !! a) as [l|] eqn:Hl; [|done]. simpl. intros Hj.
  pose proof (swap_remove_perm l j _ Hj) as Hp.
  assert ((∃ b lb m, w_suspended w !! b = Some lb ∧ (m, h') ∈ lb) ↔
    h' = h ∨ ∃ b lb m, w_suspended (set_waiting a (swap_remove j l) w) !! b = Some lb ∧ (m, h') ∈ lb) as ->.
  2: { destruct (swap_remove j l); simpl; tauto. }
  split.
  - intros (b & lb & m & Hb & Hin). destruct (decide (a = b)) as [->|Hne].
    + simplify_eq. rewrite Hp in Hin. apply elem_of_cons in Hin as [[= -> ->]|Hin]; [by left|right].
      exists b. destruct (swap_remove j l) as [|y ys]; [by apply elem_of_nil in Hin|].
      exists (y :: ys), m. simpl. by rewrite lookup_insert_eq.
    + right. exists b, lb, m. split; [|done]. destruct (swap_remove j l); simpl; by rewrite ?lookup_delete_ne ?lookup_insert_ne.
  - intros [->|(b & lb & m & Hb & Hin)].
    + exists a, l, n. split; [done|]. rewrite Hp. by left.
    + destruct (decide (a = b)) as [->|Hne].
      * exists b, l, m. split; [done|]. rewrite Hp. right.
        destruct (swap_remove j l); simpl in Hb; rewrite ?lookup_delete_eq ?lookup_insert_eq in Hb; by simplify_eq.
      * exists b, lb, m. split; [|done].
        destruct (swap_remove j l); simpl in Hb; by rewrite ?lookup_delete_ne ?lookup_insert_ne in Hb.
Qed.

Lemma unpark_fields w a j :
  let w' := unpark a j w in
  w_pending w' = w_pending w ∧ w_updates w' = w_updates w ∧ w_states w' = w_states w ∧ w_covered w' = w_covered w ∧
  w_checked w' = w_checked w ∧ w_records w' = w_records w ∧ w_remainder w' = w_remainder w ∧ w_deferred w' = w_deferred w.
Proof. unfold unpark. by destruct (w_suspended w !! a). Qed.

Lemma handled_index us a k n k' :
  (∀ u, u ∈ us → (update_index u ≤ k)%nat) → handled us a k' n → handled us a k n.
Proof. clear wanted lim.
  intros Hix [(s & j & Hin & ? & ?)|[?|[(r & j & Hin & ? & ?)|?]]]; unfold handled.
  - left. exists s, j. split_and!; [done..|apply (Hix _ Hin)].
  - tauto.
  - right; right; left. exists r, j. split_and!; [done|apply (Hix _ Hin)|done].
  - tauto.
Qed.

Lemma inv_unparked H g hand w u a j n h :
  waiting_at a j w = Some (n, h) → (update_index u ≤ j)%nat → inv H g hand (requeued u w) →
  inv H g (head_chain h :: hand) (requeued u (unpark a j w)) ∧ head_ok read t w h.
Proof.
  intros Hj Hu Hi. pose proof Hi as [Hsf Hg Hw].
  destruct (unpark_fields w a j) as (Hp & Hup & Hst & Hcv & Hck & Hrc & Hrm & Hdf).
  assert (∀ u', u' ∈ u :: w_updates w → (update_index u' ≤ j)%nat) as Hix.
  { intros u' [->|Hin]%elem_of_cons; [done|]. pose proof (wt_index _ _ _ _ Hw) as Hall. simpl in Hall.
    rewrite Forall_forall in Hall. rewrite (Hall _ Hin). lia. }
  assert (head_ok read t w h) as Hok.
  { apply (sf_heads _ _ _ _ Hsf). apply (head_in_unpark w a j n h h Hj). by left. }
  assert (∀ c, chains hand w c ↔ chains (head_chain h :: hand) (unpark a j w) c) as Hc.
  { apply chains_head; [done|]. intros h'. by eapply head_in_unpark. }
  split; [|done]. split.
  - eapply (safe_moved _ (requeued u w)); [done..| | | | |exact Hsf]; simpl.
    + rewrite Hst. by left.
    + rewrite Hup. by eauto.
    + intros h' Hin. left. apply (head_in_unpark w a j n h h' Hj). by right.
    + rewrite Hp. by left.
  - eapply (goals_move _ _ g g hand _ (requeued u w)); [done..| | | |exact Hg].
    + intros b. by rewrite /covers /= Hcv.
    + intros c. apply Hc.
    + intros b. apply busy_same; simpl; [by rewrite Hst|intros s l; apply Hc|by rewrite Hup].
  - destruct Hw as [Hen Hra Hin Hol Hli].
    assert (∀ b k n' h', entry (requeued u (unpark a j w)) b k n' h' →
      ∃ k', entry (requeued u w) b k' n' h' ∧ (k' = k ∨ b = a ∧ k = j ∧ (j ≤ k')%nat)) as He.
    { intros b k n' h' He. exact (entry_unpark w a j n h b k n' h' Hj He). }
    split; simpl; rewrite ?Hup.
    + intros b k n' h' (k' & He' & Hk)%He. destruct (Hen _ _ _ _ He') as [Hha|(s & l & ? & ?)].
      * left. destruct Hk as [->|(-> & -> & Hle)]; [done|]. by eapply handled_index.
      * right. exists s, l. split; [|done]. by apply Hc.
    + intros u1 u2 b lb jb rb k n' h' Hus (k' & He' & Hk)%He Hn. simpl in Hus. rewrite Hup in Hus.
      destruct (Hra _ _ _ _ _ _ _ _ _ Hus He' Hn) as (s & j' & Hin' & ? & ?). exists s, j'. split_and!; [done..|].
      destruct Hk as [->|(-> & -> & Hle)]; [done|]. apply (Hix (Wake a s j')).
      change (Wake a s j' ∈ u :: w_updates w). rewrite Hus. set_solver.
    + done.
    + intros b k n' h' (k' & He' & _)%He. eauto.
    + rewrite Hst. intros b x Hx Hlive. destruct (Hli _ _ Hx Hlive) as (s & l & ?). exists s, l. by apply Hc.
Qed.

(** ** The actors that were not looked at yet *)

(** An actor is taken from the cursor when nothing is to be done for it. *)
Lemma inv_pop_deferred H g hand w a x rest :
  w_deferred w = (a, x) :: rest → done_for g hand w a → inv H g hand w → inv H g hand (w_set_deferred w rest).
Proof.
  intros Hd Ha [Hsf Hg Hw]. split.
  - by eapply (safe_moved _ w); [done..|by left|by eauto|by left|by left|].
  - eapply (goals_step _ _ g g hand _ w); [done..| | |by left|exact Hg].
    + intros b s l Hin Hl. right; right; right. by exists s, l.
    + intros b Hb _. rewrite Hd in Hb. apply elem_of_cons in Hb as [->|Hb]; [by right|by left].
  - by eapply (waits_move _ _ hand hand w); [done..|eauto|].
Qed.

(** A chain is queued without a state for its actor, while heads are selected. *)
Lemma inv_queue_scan H g hand w a after l :
  after ≤ covers w a → inv H g ((a, after + 1, l) :: hand) w →
  inv H g hand (w_set_pending w (w_pending w ++ [scan_from a after l])).
Proof.
  intros Hs Hi. eapply (inv_moved _ _ _ _ w); [|done..| |by left|exact Hi].
  - eapply (safe_moved _ w); [done..|by left|by eauto|by left| |apply Hi].
    simpl. intros s [?| ->%list_elem_of_singleton]%elem_of_app; [by left|]. right. by split.
  - intros c. unfold chains, chain_in. simpl. set_solver.
Qed.

(** A head that is not among the lowest is left to a later plan. *)
Lemma inv_leave_out H g hand w c :
  w_suspended w = ∅ → (∀ a x, w_states w !! a = Some x → ¬ live x) →
  inv H g (c :: hand) w → inv H g hand (w_set_remainder w true).
Proof.
  intros Hsus Hst [Hsf Hg Hw]. split.
  - by eapply (safe_moved _ w); [done..|by left|by eauto|by left|by left|].
  - split; [intros; right; by right; left|intros; by right; left].
  - assert (∀ a k n h, ¬ entry (w_set_remainder w true) a k n h) as Hne.
    { intros a k n h (l & Hl & _). simpl in Hl. by rewrite Hsus lookup_empty in Hl. }
    split.
    + intros a k n h He. by apply Hne in He.
    + intros u1 u2 a l j r k n h _ He. by apply Hne in He.
    + exact (wt_index _ _ _ _ Hw).
    + intros a k n h He. by apply Hne in He.
    + intros a x Hx Hlive. by apply Hst in Hx.
Qed.

(** The blocked operations are not part of the invariant. *)
Lemma inv_set_blocked H g hand w X : inv H g hand w → inv H g hand (w_set_blocked w X).
Proof.
  intros Hi. eapply (inv_moved _ _ _ _ w); [|done..|by left|exact Hi].
  by eapply (safe_moved _ w); [done..|by left|by eauto|by left|by left|apply Hi].
Qed.

(** An actor that reached its limit is forgotten. *)
Lemma inv_forget H g hand w a l :
  w_states w !! a = Some (Reached l) → inv H g hand w → inv H g hand (w_set_states w (delete a (w_states w))).
Proof.
  intros Ha Hi. pose proof Hi as [Hsf Hg Hw]. split; [| |by apply waits_unstate].
  - eapply (safe_moved _ w); [done..| |by eauto|by left|by left|done]. intros b lb. simpl.
    intros [_ ?]%lookup_delete_Some. by left.
  - eapply (goals_move _ _ g g hand _ w); [done..| |exact Hg].
    intros b [[x Hb]|[?|?]]; [|by right; left|by right; right]. simpl in Hb. apply lookup_delete_Some in Hb as [_ ?]. left. by exists x.
Qed.

(** A head goes to those that may be resumed. *)
Lemma inv_push_resumable H g hand w h :
  head_ok read t w h → inv H g (head_chain h :: hand) w → inv H g hand (w_set_resumable w (w_resumable w ++ [h])).
Proof.
  intros Hs Hi. eapply (inv_moved _ _ _ _ w); [|done..| |by left|exact Hi].
  - eapply (safe_moved _ w); [done..|by left|by eauto| |by left|apply Hi].
    unfold head_in. simpl. intros h'. rewrite elem_of_app list_elem_of_singleton. naive_solver.
  - intros c. symmetry. revert c. apply chains_head; [done|]. intros h'. unfold head_in. simpl.
    rewrite elem_of_app list_elem_of_singleton. tauto.
Qed.

(** ** Plans over stores without holes *)

(** [top] is the last position of a chain in the store. Nothing is stopped, and the limit
    of a chain is raised to all that wait for it. *)
Context (top : ActorId → N).

Definition fits c : Prop := c.1.2 ≤ c.2 ∧ c.2 ≤ top c.1.1.

Definition update_calm w (u : Update) : Prop :=
  match u with
  | Wake _ _ _ => True
  | Raise a l j r =>
      (∀ k n h, entry w a k n h → (k < j)%nat → ∃ x, r = Some x ∧ n ≤ x) ∧ ∀ x, r = Some x → l < x ∧ x ≤ top a
  | Finish a r j => ∀ k n h, entry w a k n h → (j ≤ k)%nat → ∃ x, r = Some x ∧ n ≤ x
  | Stop _ => False
  end.

(** The next position of a chain follows the one before and is readable. *)
Definition scan_calm (s : HeadScan) : Prop := ∀ q i, hs_next s = Some (q, i) → q = hs_after s + 1 ∧ rd_header read i ≠ Ok None.

Record calm hand w : Prop := {
  cm_states : ∀ a, w_states w !! a ≠ Some Blocked;
  cm_blocked : w_blocked w = ∅;
  cm_repair : w_repair w = None;
  cm_chains : ∀ c, chains hand w c → fits c;
  cm_scans : ∀ s, s ∈ w_pending w → scan_calm s;
  cm_updates : ∀ u, u ∈ w_updates w → update_calm w u;
}.

Lemma calm_move hand hand' w w' :
  w_updates w' = w_updates w → w_suspended w' = w_suspended w → w_blocked w' = w_blocked w → w_repair w' = w_repair w →
  (∀ a, w_states w' !! a = Some Blocked → w_states w !! a = Some Blocked) →
  (∀ c, chains hand' w' c → chains hand w c ∨ fits c) → (∀ s, s ∈ w_pending w' → s ∈ w_pending w ∨ scan_calm s) →
  calm hand w → calm hand' w'.
Proof.
  intros Hu Hs Hb Hr Hst Hc Hp [Ks Kb Kr Kc Kp Ku]. split; [by intros a ?%Hst%Ks|congruence|congruence| | |].
  - intros c [?|?]%Hc; auto.
  - intros s [?|?]%Hp; auto.
  - rewrite Hu. intros u Hin%Ku. unfold update_calm, entry in *. by rewrite Hs.
Qed.

(** Changed updates, and heads that wait at other places. *)
Lemma calm_updates hand hand' w w' :
  w_blocked w' = w_blocked w → w_repair w' = w_repair w → w_states w' = w_states w → w_pending w' = w_pending w →
  (∀ c, chains hand' w' c → chains hand w c) → (∀ u, u ∈ w_updates w' → update_calm w' u) →
  calm hand w → calm hand' w'.
Proof.
  intros Hb Hr Hst Hp Hc Hu []. split; [by rewrite Hst|congruence|congruence|by intros c ?%Hc; auto|by rewrite Hp|done].
Qed.
End moves.
