(* ===== verification/PagerSteps.v ===== *)
(** * The functions of the pager keep its invariant

    [winv] is the invariant of a plan with what a store without holes adds: over such a
    store nothing is ever stopped. *)

From S2P Require Import Prelude Ids Pages ClockSpec Types Records StoreReads Integrity Requests.
From S2P Require Import Programs Slices Repair Pager PagerInv PagerMoves.

#[local] Open Scope N_scope.
Set Default Proof Using "Type".

(** A store without holes, as the snapshot shows it: chains are there up to [top], and the
    operations of the topic and their dependencies can be read. *)
Record whole {R : Type} `{!SnapshotRead R} `{!PageRead R} (read : R) (t : TopicId) (top : ActorId → N) : Prop := {
  wh_range : ∀ a after l, after < top a → rd_actor_range read t a after 1 = Ok l →
    ∃ i, last l = Some (after + 1, i) ∧ rd_header read i ≠ Ok None;
  wh_op : ∀ i m, at_header read t i m → rd_reserved_op read i ≠ Ok None ∧ ∀ n, rd_reserved_op read i ≠ Ok (Some (n, Ok None));
  wh_deps : ∀ i m ds d, at_header read t i m → rd_deps read i = Some ds → d ∈ ds → rd_header read d ≠ Ok None;
  wh_top : ∀ i a s, at_pos read t i a s → s ≤ top a;
}.

Section steps.
Context {C : Type} `{!ClockImpl C} {R : Type} `{!SnapshotRead R} `{!PageRead R}.
Context (read : R) (t : TopicId) (local : C) (goal : option C) (scope : ActorScope C).
Context (wanted : ActorId → Prop) (stopped_before : Prop) (top : ActorId → N) (flawless : Prop).
Implicit Types (w : Walk C) (p : Pager C) (H : OpId → Prop) (a : ActorId) (h : RangeHead) (i d : OpId).
Implicit Types (hand : list chain) (c : chain) (more : bool).
Local Abbreviation lim := (limit local goal).
Local Abbreviation head_ok := (head_ok read t).
Local Abbreviation scan_ok := (scan_ok read t).
Local Abbreviation scan_calm := (scan_calm read).
Local Abbreviation calm := (calm read top).
Local Abbreviation fits := (fits top).
Local Abbreviation update_calm := (update_calm top).

Definition given_up more : Prop := more = true ∨ stopped_before.

Record winv H more hand w : Prop := {
  wi_inv : inv read t lim wanted H (given_up more) hand w;
  wi_calm : flawless → calm hand w ∧ more = false;
}.
Definition pinv H hand p : Prop := winv H (pg_more p) hand (pg_walk p).

Local Ltac calm_moved Hi := intros Hfl; destruct (wi_calm _ _ _ _ Hi Hfl) as [Hcalm ->]; split; [|done];
  eapply calm_move; [| | | | | | |exact Hcalm]; [done..| | |];
  [first [by eauto|intros b; simpl; by intros [[? ?]|[? ?]]%lookup_insert_Some]|try by left|try by left].

Lemma winv_same H H' more hand w w' : same_chains w w' → safe read t H' w' → winv H more hand w → winv H' more hand w'.
Proof.
  intros Hs Hsf Hi. split; [by eapply inv_same, wi_inv|]. intros Hfl. destruct (wi_calm _ _ _ _ Hi Hfl) as [Hcalm ->].
  split; [|done]. pose proof Hs as []. eapply calm_move; [| | | | | | |exact Hcalm]; [done..|by rewrite sm_states| |rewrite sm_pending; by left].
  intros c Hc. left. unfold chains in *. by rewrite -chain_in_same.
Qed.

Lemma winv_pop_pending H more hand w s rest :
  w_pending w = s :: rest → winv H more hand w →
  winv H more (scan_chain s :: hand) (w_set_pending w rest) ∧ scan_ok w s ∧ (flawless → scan_calm s).
Proof.
  intros Hp Hi. split_and!.
  - split; [by eapply inv_pop_pending, wi_inv|]. calm_moved Hi.
    + intros c. unfold chains, chain_in. simpl. rewrite Hp. set_solver.
    + simpl. rewrite Hp. set_solver.
  - eapply (sf_pending _ _ _ _ (iv_safe _ _ _ _ _ _ _ _ (wi_inv _ _ _ _ Hi))). rewrite Hp. by left.
  - intros Hfl. destruct (wi_calm _ _ _ _ Hi Hfl) as [Hcalm _]. apply (cm_scans _ _ _ _ Hcalm). rewrite Hp. by left.
Qed.

Lemma winv_safe H more hand w : winv H more hand w → safe read t H w.
Proof. intros Hi. apply Hi. Qed.

Lemma winv_fits H more hand w c : winv H more hand w → chains hand w c → flawless → fits c.
Proof. intros Hi Hc Hfl. destruct (wi_calm _ _ _ _ Hi Hfl) as [Hcalm _]. by apply (cm_chains _ _ _ _ Hcalm). Qed.

Lemma winv_push_pending H more hand w s :
  scan_ok w s → (flawless → scan_calm s) → winv H more (scan_chain s :: hand) w →
  winv H more hand (w_set_pending w (s :: w_pending w)).
Proof.
  intros Hs Hsc Hi. split; [by apply inv_push_pending, Hi|]. calm_moved Hi.
  - intros c. unfold chains, chain_in. simpl. set_solver.
  - simpl. intros s' [->|?]%elem_of_cons; [right; auto|by left].
Qed.

Lemma winv_queue_scan H more hand w a after l :
  after ≤ covers w a → winv H more ((a, after + 1, l) :: hand) w →
  winv H more hand (w_set_pending w (w_pending w ++ [scan_from a after l])).
Proof.
  intros Hs Hi. split; [by apply inv_queue_scan, Hi|]. calm_moved Hi.
  - intros c. unfold chains, chain_in. simpl. set_solver.
  - simpl. intros s' [?| ->%list_elem_of_singleton]%elem_of_app; [by left|right; by intros ? ?].
Qed.

Lemma winv_activated H more hand w a after l :
  after ≤ covers w a → winv H more ((a, after + 1, l) :: hand) w → winv H more hand (activated a after l w).
Proof.
  intros Hs Hi. split; [by apply inv_activated, Hi|]. calm_moved Hi.
  - intros c. unfold chains, chain_in. simpl. set_solver.
  - simpl. intros s' [?| ->%list_elem_of_singleton]%elem_of_app; [by left|right; by intros ? ?].
Qed.

Lemma winv_gain H more hand w a s l :
  done_for lim (given_up more) ((a, s, l) :: hand) w a → (flawless → fits (a, s, l)) →
  winv H more hand w → winv H more ((a, s, l) :: hand) w.
Proof.
  intros Hd Hf Hi. split; [by apply inv_gain, Hi|]. calm_moved Hi.
  intros c [[->|?]%elem_of_cons|?]; [right; auto|left; by left|left; by right].
Qed.

Lemma winv_pop_active H more hand w h rest :
  w_active w = h :: rest → winv H more hand w → winv H more (head_chain h :: hand) (w_set_active w rest) ∧ head_ok w h.
Proof.
  intros Hp Hi. destruct (inv_pop_active _ _ _ _ _ _ _ _ h rest Hp (wi_inv _ _ _ _ Hi)) as [Hi' Hok].
  split; [|done]. split; [done|]. calm_moved Hi. intros c Hc. left.
  apply (chains_head hand w (w_set_active w rest) h); [done| |done]. intros h'. unfold head_in. simpl. rewrite Hp elem_of_cons. tauto.
Qed.

Lemma chains_push_active hand w h c : chains hand (push_active h w) c ↔ chains (head_chain h :: hand) w c.
Proof. clear wanted top. apply chains_head; [done|]. intros h'. unfold head_in. simpl. rewrite elem_of_heap_push. tauto. Qed.

Lemma winv_push_active H more hand w h :
  head_ok w h → winv H more (head_chain h :: hand) w → winv H more hand (push_active h w).
Proof.
  intros Hok Hi. split; [by apply inv_push_active, Hi|]. calm_moved Hi. intros c Hc. left. by apply chains_push_active.
Qed.

Lemma winv_put_active H more hand w a :
  winv H more hand w → (∃ s l, chains hand w (a, s, l)) → winv H more hand (put_state a Active w).
Proof. intros Hi Hc. split; [apply inv_put_active; [apply Hi|done]|]. calm_moved Hi. Qed.

Lemma winv_pop_resumable H more hand w h rest :
  w_resumable w = h :: rest → winv H more hand w → winv H more (head_chain h :: hand) (w_set_resumable w rest) ∧ head_ok w h.
Proof.
  intros Hp Hi. destruct (inv_pop_resumable _ _ _ _ _ _ _ _ h rest Hp (wi_inv _ _ _ _ Hi)) as [Hi' Hok].
  split; [|done]. split; [done|]. calm_moved Hi. intros c Hc. left.
  apply (chains_head hand w (w_set_resumable w rest) h); [done| |done]. intros h'. unfold head_in. simpl. rewrite Hp elem_of_cons. tauto.
Qed.

Lemma winv_take_selecting H more hand w l :
  w_selecting w = Some l → winv H more hand w →
  winv H more ((head_chain <$> l) ++ hand) (w_set_selecting w None) ∧ Forall (head_ok w) l.
Proof.
  intros Hp Hi. destruct (inv_take_selecting _ _ _ _ _ _ _ _ l Hp (wi_inv _ _ _ _ Hi)) as [Hi' Hok].
  split; [|done]. split; [done|]. calm_moved Hi. intros c [[(h & -> & Hh)%list_elem_of_fmap|?]%elem_of_app|[?|(h & Hh & ->)]].
  - left. right; right. exists h. split; [|done]. right; left. by exists l.
  - left. by left.
  - left. right. by left.
  - left. right; right. exists h. split; [|done]. destruct Hh as [?|[(? & ? & ?)|?]]; [by left|done|by right; right].
Qed.

Lemma winv_put_selecting H more hand w l :
  w_selecting w = None → Forall (head_ok w) l → winv H more ((head_chain <$> l) ++ hand) w →
  winv H more hand (w_set_selecting w (Some l)).
Proof.
  intros Hp Hok Hi. split; [by apply inv_put_selecting, Hi|]. calm_moved Hi.
  intros c [?|[?|(h & [?|[(l' & [= <-] & ?)|?]] & ->)]].
  - left. left. set_solver.
  - left. by right; left.
  - left. right; right. exists h. split; [by left|done].
  - left. left. apply elem_of_app. left. by apply list_elem_of_fmap_2.
  - left. right; right. exists h. split; [by right; right|done].
Qed.

Lemma winv_pop_deferred H more hand w a x rest :
  w_deferred w = (a, x) :: rest → done_for lim (given_up more) hand w a → winv H more hand w →
  winv H more hand (w_set_deferred w rest).
Proof. intros Hd Ha Hi. split; [by eapply inv_pop_deferred, Hi|]. calm_moved Hi. Qed.

Lemma winv_leave_out H more hand w c :
  w_suspended w = ∅ → (∀ a x, w_states w !! a = Some x → ¬ live x) →
  winv H more (c :: hand) w → winv H more hand (w_set_remainder w true).
Proof.
  intros Hsus Hst Hi. split; [by eapply inv_leave_out, Hi|]. calm_moved Hi.
  intros c' [?|?]; left; [left; by right|by right].
Qed.

Lemma winv_stopped H more hand w a s l :
  ¬ flawless → winv H more ((a, s, l) :: hand) w → winv H true hand (stopped a w).
Proof. intros Hfl Hi. split; [|done]. eapply inv_stopped; [by left|apply Hi]. Qed.

(** ** Chains that go on *)

Lemma calm_put_update hand w a u : update_calm w u → calm hand w → calm hand (put_update a u w).
Proof.
  intros Hu Hc. unfold put_update. case_bool_decide; [|done]. eapply calm_updates; [| | | | | |exact Hc]; [done..|].
  intros u' [Hin| ->%list_elem_of_singleton]%elem_of_app; [|done]. by apply (cm_updates _ _ _ _ Hc) in Hin.
Qed.

Lemma winv_passed H more hand w a s q l :
  q ≤ covers w a → q < l → winv H more ((a, s, l) :: hand) w →
  winv H more hand (activated a q l (put_update a (Wake a q 0) w)).
Proof.
  intros Hq Hl Hi. apply winv_activated; [by rewrite covers_put_update|].
  split; [apply (inv_advanced _ _ _ _ _ _ _ _ a s), Hi|]. intros Hfl. destruct (wi_calm _ _ _ _ Hi Hfl) as [Hcalm ->].
  split; [|done]. apply calm_put_update; [done|]. eapply calm_move; [| | | | | | |exact Hcalm]; [done..|by eauto| |by left].
  intros c [[->|?]%elem_of_cons|?]; [|left; left; by right|left; by right]. right.
  destruct (cm_chains _ _ _ _ Hcalm (a, s, l)) as [_ ?]; [by left; left|]. split; simpl; [lia|done].
Qed.

Lemma winv_reached H more hand w a s q l :
  l ≤ covers w a → l ≤ q → winv H more ((a, s, l) :: hand) w →
  winv H more hand (reached scope a l (put_update a (Wake a q 0) w)).
Proof.
  intros Hl Hq Hi. split.
  - eapply inv_reached; [by rewrite covers_put_update| |apply (inv_advanced _ _ _ _ _ _ _ _ a s), Hi].
    intros k n h He Hn. exists q, O. split_and!; [|lia|lia]. eapply put_update_in.
    unfold entry in He. rewrite put_update_suspended in He. exact He.
  - intros Hfl. destruct (wi_calm _ _ _ _ Hi Hfl) as [Hcalm ->]. split; [|done].
    apply (calm_put_update _ _ a (Wake a q 0)) in Hcalm; [|done].
    set (w1 := put_update a (Wake a q 0) w) in *.
    assert (calm hand (put_state a (Reached l) w1)) as Hc1.
    { eapply calm_move; [| | | | | | |exact Hcalm]; [done..| | |by left].
      - intros b. simpl. by intros [[? ?]|[? ?]]%lookup_insert_Some.
      - intros c [?|?]; left; [left; by right|by right]. }
    unfold reached. case_bool_decide.
    + eapply calm_updates; [| | | | | |exact Hc1]; [done..|].
      intros u' [Hin| ->%list_elem_of_singleton]%elem_of_app; [by apply (cm_updates _ _ _ _ Hc1) in Hin|].
      split; [intros k n h _ Hk; lia|done].
    + destruct (informed scope); [|done]. eapply calm_move; [| | | | | | |exact Hc1]; [done..| |by left|by left].
      intros b. simpl. by intros [? ?]%lookup_delete_Some.
Qed.

Lemma winv_parked H more hand w h a n :
  head_ok w h → (∃ s l, chains hand w (a, s, l) ∧ s ≤ n) → (∀ u, u ∈ w_updates w → ∃ b, u = Stop b) →
  (∃ d, at_pos read t d a n ∧ older read t d (h_id h)) →
  winv H more (head_chain h :: hand) w → winv H more hand (parked h a n w).
Proof.
  intros Hok Hc Hstops Hold Hi. split.
  - apply inv_parked; [done|done| |done|apply Hi]. intros l j r [b ?]%Hstops. done.
  - intros Hfl. destruct (wi_calm _ _ _ _ Hi Hfl) as [Hcalm ->]. split; [|done].
    assert (w_updates w = []) as Hnil.
    { destruct (w_updates w) as [|u us] eqn:Hus; [done|]. destruct (Hstops u) as [b ->]; [by left|].
      destruct (cm_updates _ _ _ _ Hcalm (Stop b)). rewrite Hus. by left. }
    destruct Hcalm as [Ks Kb Kr Kc Kp Ku]. split; [|done..| |done|].
    + intros b. simpl. by intros [[? ?]|[? ?%Ks]]%lookup_insert_Some.
    + intros c Hin. apply Kc. by apply (chains_head hand (parked h a n w) w h); [|apply head_in_parked|].
    + simpl. rewrite Hnil. by intros u ?%elem_of_nil.
Qed.

(** ** Updates in progress *)

Local Ltac calm_update Hi := intros Hfl; destruct (wi_calm _ _ _ _ Hi Hfl) as [Hcalm ->]; split; [|done];
  eapply calm_updates; [| | | | | |exact Hcalm]; [done..|];
  intros u [->|Hin]%elem_of_cons; [|by apply (cm_updates _ _ _ _ Hcalm); right].

Lemma winv_update_done H more hand w u :
  inv read t lim wanted H (given_up more) hand w → winv H more hand (requeued u w) → winv H more hand w.
Proof.
  intros Hw Hi. split; [done|]. intros Hfl. destruct (wi_calm _ _ _ _ Hi Hfl) as [Hcalm ->]. split; [|done].
  eapply calm_updates; [| | | | | |exact Hcalm]; [done..|]. intros u' Hin. apply (cm_updates _ _ _ _ Hcalm). by right.
Qed.

Lemma winv_wake_done H more hand w a s j :
  waiting_at a j w = None → winv H more hand (requeued (Wake a s j) w) → winv H more hand w.
Proof. intros Hj Hi. eapply winv_update_done; [|done]. by eapply inv_wake_done, Hi. Qed.

Lemma winv_wake_next H more hand w a s j n0 h0 :
  waiting_at a j w = Some (n0, h0) → s < n0 →
  winv H more hand (requeued (Wake a s j) w) → winv H more hand (requeued (Wake a s (S j)) w).
Proof. intros Hj Hs Hi. split; [by eapply inv_wake_next, Hi|]. by calm_update Hi. Qed.

(** The heads looked at so far raise the limit to what they need. *)
Definition raised_by a (l n : N) (r : option N) : option N :=
  if (l <? n) && (informed scope || (n <=? ck_get local a)) then Some (match r with Some x => N.max x n | None => n end) else r.

Lemma winv_raise_next H more hand w a l j r n0 h0 :
  waiting_at a j w = Some (n0, h0) → (flawless → informed scope || (n0 <=? ck_get local a) = true ∧ n0 ≤ top a) →
  winv H more hand (requeued (Raise a l j r) w) → winv H more hand (requeued (Raise a l (S j) (raised_by a l n0 r)) w).
Proof.
  intros Hj Hloc Hi. split; [by eapply inv_raise_next, Hi|]. calm_update Hi.
  assert (∀ k n h, entry w a k n h → l < n) as Hmore.
  { intros k n h He. apply N.nle_gt. intros Hn. pose proof (wt_raises _ _ _ _ (iv_waits _ _ _ _ _ _ _ _ (wi_inv _ _ _ _ Hi))) as Hra.
    by destruct (Hra [] (w_updates w) a l j r k n h eq_refl He Hn) as (? & ? & ?%elem_of_nil & _). }
  destruct (cm_updates _ _ _ _ Hcalm (Raise a l j r)) as [Hold Hr]; [by left|]. destruct (Hloc Hfl) as [Hl Htop].
  unfold raised_by. rewrite Hl andb_true_r. split.
  - intros k n h He Hk. specialize (Hmore _ _ _ He) as Hn. destruct (decide (k = j)) as [Heq|].
    + destruct (waiting_at_Some _ _ _ _ _ _ _ _ Hj He Heq) as [-> _].
      apply N.ltb_lt in Hn as ->. destruct r as [x|]; eexists; (split; [done|lia]).
    + destruct (Hold k n h He) as (x & -> & ?); [lia|].
      destruct (l <? n0); [exists (N.max x n0)|exists x]; (split; [done|lia]).
  - intros x. destruct (N.ltb_spec l n0) as [Hlt|_]; [|apply Hr].
    destruct r as [y|]; intros [= <-]; [specialize (Hr _ eq_refl)|]; lia.
Qed.

Lemma winv_raised H more hand w a l j r :
  waiting_at a j w = None →
  winv H more hand (requeued (Raise a l j r) w) →
  winv H more hand (requeued (Finish a r 0) (match r with Some x => activated a l x w | None => w end)).
Proof.
  intros Hj Hi. split; [by eapply inv_raised, Hi|]. intros Hfl.
  destruct (wi_calm _ _ _ _ Hi Hfl) as [Hcalm ->]. split; [|done].
  assert (∀ w', entry w' = entry w → update_calm w' (Finish a r 0)) as Hfin.
  { intros w' Heq k n h He _. rewrite Heq in He. pose proof (waiting_at_None _ _ _ _ _ _ Hj He).
    destruct (cm_updates _ _ _ _ Hcalm (Raise a l j r)) as [Hold _]; [by left|]. eapply Hold; [done|lia]. }
  destruct (cm_updates _ _ _ _ Hcalm (Raise a l j r)) as [_ Hx]; [by left|].
  destruct Hcalm as [Ks Kb Kr Kc Kp Ku].
  assert (∀ u, u ∈ w_updates w → update_calm w u) as Hrest by (intros u Hin; apply (Ku u); by right).
  destruct r as [x|]; (split; [|done..| | |]); simpl.
  - intros b. by intros [[? ?]|[? ?%Ks]]%lookup_insert_Some.
  - intros c [?|[(s & [?| ->%list_elem_of_singleton]%elem_of_app & ->)|?]].
    + apply Kc. by left.
    + apply Kc. right; left. eauto.
    + specialize (Hx _ eq_refl). split; simpl; lia.
    + apply Kc. by right; right.
  - intros s [?| ->%list_elem_of_singleton]%elem_of_app; [by apply Kp|by intros ? ?].
  - intros u [->|Hin]%elem_of_cons; [by apply Hfin|by apply Hrest].
  - done.
  - done.
  - done.
  - intros u [->|Hin]%elem_of_cons; [by apply Hfin|by apply Hrest].
Qed.

Lemma winv_finish_done H more hand w a r j :
  waiting_at a j w = None → winv H more hand (requeued (Finish a r j) w) → winv H more hand w.
Proof. intros Hj Hi. eapply winv_update_done; [|done]. by eapply inv_finish_done, Hi. Qed.

Lemma winv_finish_next H more hand w a x j n0 h0 :
  waiting_at a j w = Some (n0, h0) → n0 ≤ x →
  winv H more hand (requeued (Finish a (Some x) j) w) → winv H more hand (requeued (Finish a (Some x) (S j)) w).
Proof.
  intros Hj Hx Hi. split; [by eapply inv_finish_next, Hi|]. calm_update Hi. intros k n h He Hk.
  eapply (cm_updates _ _ _ _ Hcalm (Finish a (Some x) j)); [by left|done|lia].
Qed.

Lemma winv_stop_done H more hand w a :
  (∀ k n h, ¬ entry w a k n h) → winv H more hand (requeued (Stop a) w) → winv H more hand w.
Proof. intros Hn Hi. eapply winv_update_done; [|done]. by eapply inv_stop_done, Hi. Qed.

(** Over a store without holes nothing is given up. *)
Lemma winv_finish_calm H more hand w a r j n0 h0 :
  waiting_at a j w = Some (n0, h0) → winv H more hand (requeued (Finish a r j) w) → flawless → ∃ x, r = Some x ∧ n0 ≤ x.
Proof.
  intros Hj Hi Hfl. destruct (wi_calm _ _ _ _ Hi Hfl) as [Hcalm _].
  unfold waiting_at in Hj. destruct (w_suspended w !! a) as [l|] eqn:Hl; [|done]. simpl in Hj.
  eapply (cm_updates _ _ _ _ Hcalm (Finish a r j)); [by left|by exists l|lia].
Qed.
Lemma winv_stop_calm H more hand w a : winv H more hand (requeued (Stop a) w) → ¬ flawless.
Proof.
  intros Hi Hfl. destruct (wi_calm _ _ _ _ Hi Hfl) as [Hcalm _]. apply (cm_updates _ _ _ _ Hcalm (Stop a)). by left.
Qed.

(** A head that was woken. *)
Lemma winv_unparked_wake H more hand w a s j n h :
  waiting_at a j w = Some (n, h) → winv H more hand (requeued (Wake a s j) w) →
  winv H more (head_chain h :: hand) (requeued (Wake a s j) (unpark a j w)) ∧ head_ok w h.
Proof.
  intros Hj Hi. destruct (inv_unparked _ _ _ _ _ _ _ _ (Wake a s j) _ _ _ _ Hj (le_n _) (wi_inv _ _ _ _ Hi)) as [Hinv Hok].
  split; [|done]. split; [done|]. intros Hfl. destruct (wi_calm _ _ _ _ Hi Hfl) as [Hcalm ->]. split; [|done].
  destruct (unpark_fields w a j) as (Hp & Hup & Hst & _).
  assert (w_blocked (unpark a j w) = w_blocked w ∧ w_repair (unpark a j w) = w_repair w) as [Hb Hr].
  { unfold unpark. by destruct (w_suspended w !! a). }
  eapply calm_updates; [| | | | | |exact Hcalm]; [done..| |].
  - intros c Hc. by apply (chains_head hand w (unpark a j w) h); [|intros h'; by eapply head_in_unpark|].
  - simpl. rewrite Hup. intros u [->|Hin]%elem_of_cons; [done|].
    pose proof (wt_index _ _ _ _ (iv_waits _ _ _ _ _ _ _ _ (wi_inv _ _ _ _ Hi))) as Hix. simpl in Hix.
    rewrite Forall_forall in Hix. specialize (Hix _ Hin).
    pose proof (cm_updates _ _ _ _ Hcalm u (ltac:(by right))) as Hu.
    assert (∀ b k n' h', entry (requeued (Wake a s j) (unpark a j w)) b k n' h' → ∃ k', entry w b k' n' h') as He.
    { intros b k n' h' He. by destruct (entry_unpark w a j n h b k n' h' Hj He) as (k' & ? & _); eauto. }
    destruct u; simpl in Hix, Hu |- *; subst; [done|split; [intros; lia|apply Hu]| |done].
    intros k n' h' (k' & He')%He _. eapply Hu; [done|lia].
Qed.

(** A head is given up while [u] is in progress. *)
Lemma winv_unparked_blocked H more hand w u a j n h :
  ¬ flawless → waiting_at a j w = Some (n, h) → (update_index u ≤ j)%nat → winv H more hand (requeued u w) →
  winv H true hand (requeued u (stopped (h_actor h) (unpark a j w))).
Proof.
  intros Hfl Hj Hu Hi. split; [|done].
  destruct (inv_unparked _ _ _ _ _ _ _ _ _ _ _ _ _ Hj Hu (wi_inv _ _ _ _ Hi)) as [Hinv _].
  rewrite requeued_stopped. eapply inv_stopped; [by left|exact Hinv].
Qed.

Lemma winv_set_blocked H more hand w X : ¬ flawless → winv H more hand w → winv H more hand (w_set_blocked w X).
Proof. intros Hfl Hi. split; [by apply inv_set_blocked, Hi|done]. Qed.

Lemma winv_unblocked H more hand w i : winv H more hand w → winv H more hand (w_set_blocked w (w_blocked w ∖ {[i]})).
Proof.
  intros Hi. split; [by apply inv_set_blocked, Hi|]. intros Hfl. destruct (wi_calm _ _ _ _ Hi Hfl) as [Hcalm ->]. split; [|done].
  destruct Hcalm as [Ks Kb Kr Kc Kp Ku]. split; try done. simpl. rewrite Kb. clear. set_solver.
Qed.

Lemma winv_forget H more hand w a l :
  w_states w !! a = Some (Reached l) → winv H more hand w → winv H more hand (w_set_states w (delete a (w_states w))).
Proof.
  intros Ha Hi. split; [by eapply inv_forget, Hi|]. intros Hfl. destruct (wi_calm _ _ _ _ Hi Hfl) as [Hcalm ->].
  split; [|done]. eapply calm_move; [| | | | | | |exact Hcalm]; [done..| |by left|by left].
  intros b. simpl. by intros [_ ?]%lookup_delete_Some.
Qed.

Lemma winv_push_resumable H more hand w h :
  head_ok w h → winv H more (head_chain h :: hand) w → winv H more hand (w_set_resumable w (w_resumable w ++ [h])).
Proof.
  intros Hok Hi. split; [by apply inv_push_resumable, Hi|]. calm_moved Hi. intros c Hc. left.
  apply (chains_head hand (w_set_resumable w (w_resumable w ++ [h])) w h); [done| |done].
  intros h'. unfold head_in. simpl. rewrite elem_of_app list_elem_of_singleton. tauto.
Qed.
End steps.
