(* ===== verification/PagerFill.v ===== *)
(** * Filling the active set and settling updates

    The loops of [fill], [select] and [settle] end within the slice and keep the
    invariant of the plan. *)

From S2P Require Import Prelude Ids Pages ClockSpec Types Records StoreReads Integrity Requests Programs Slices Repair Pager.
From S2P Require Import PagerInv PagerMoves PagerSteps.

#[local] Open Scope N_scope.
Set Default Proof Using "Type".

(** [pg_step] runs the next statement of the pager that makes no charge. *)
Ltac pg_step :=
  lazymatch goal with
  | |- wp (walk_do _) _ _ => apply wp_modify
  | |- wp (walk_of _) _ _ => apply wp_gets
  | |- wp pg_exhausted _ _ => apply wp_gets
  | |- wp end_slice _ _ => apply wp_modify
  | |- _ => wp_step
  end; cbv beta.

Section fill.
Context {C : Type} `{!ClockImpl C} `{SZ : !Sizes} {R : Type} `{!SnapshotRead R} `{!PageRead R}.
Context (read : R) (t : TopicId) (local : C) (goal : option C) (scope : ActorScope C) (window : nat).
Context (Hco : coherent read t) (wanted : ActorId → Prop) (stopped_before : Prop).
Context (top : ActorId → N) (flawless : Prop).
Context (Hwhole : flawless → whole read t top) (Hlimit : flawless → ∀ a, limit local goal a ≤ top a).
Context (Hlocal : flawless → informed scope = true ∨ ∀ a, top a ≤ ck_get local a).
Implicit Types (w : Walk C) (p : Pager C) (H : OpId → Prop) (a : ActorId) (h : RangeHead) (i d : OpId).
Implicit Types (hand : list chain) (c : chain) (more : bool).
Local Abbreviation lim := (limit local goal).
Local Abbreviation head_ok := (head_ok read t).
Local Abbreviation scan_ok := (scan_ok read t).
Local Abbreviation scan_calm := (scan_calm read).
Local Abbreviation winv := (winv read t local goal wanted stopped_before top flawless).
Local Abbreviation pinv := (pinv read t local goal wanted stopped_before top flawless).

(** ** Charges *)

Lemma wp_charge_read Q p :
  (∀ b sl, slice_le (pg_slice p) sl → (b = true → (reads_left sl < reads_left (pg_slice p))%nat) →
    (b = false → exhausted sl = true) → Q b (set_slice p sl)) →
  wp (pg_charge charge_read) Q p.
Proof.
  intros HQ. apply wp_state. destruct (charge_read_le (pg_slice p)) as [Hle Hlt].
  pose proof (charge_read_refused (pg_slice p)) as Hex. destruct (charge_read (pg_slice p)) as [b sl]. by apply HQ.
Qed.
Lemma wp_charge_actor Q p :
  (∀ b sl, slice_le (pg_slice p) sl → (b = true → (reads_left sl < reads_left (pg_slice p))%nat) →
    (b = false → exhausted sl = true) → Q b (set_slice p sl)) →
  wp (pg_charge charge_actor) Q p.
Proof.
  intros HQ. apply wp_state. destruct (charge_actor_le (pg_slice p)) as [Hle Hlt].
  pose proof (charge_actor_refused (pg_slice p)) as Hex. destruct (charge_actor (pg_slice p)) as [b sl]. by apply HQ.
Qed.
Lemma wp_charge_edge Q p :
  (∀ b sl, slice_le (pg_slice p) sl → Q b (set_slice p sl)) → wp (pg_charge charge_edge) Q p.
Proof.
  intros HQ. apply wp_state. destruct (charge_edge_le (pg_slice p)) as [Hle _].
  destruct (charge_edge (pg_slice p)) as [b sl]. by apply HQ.
Qed.
Lemma wp_reserve Q p bytes :
  (∀ sl, slice_le (pg_slice p) sl → Q () (set_slice p sl)) → wp (pg_reserve bytes) Q p.
Proof.
  intros HQ. apply wp_attempt. intros p' (sl & Hsl & [= <-])%bind_ok. apply HQ. by eapply reserve_le.
Qed.

(** ** Heads of chains *)

(** What reading the head of a chain may change. *)
Record scan_frame w w' : Prop := {
  fm_active : w_active w' = w_active w;
  fm_selecting : w_selecting w' = w_selecting w;
  fm_resumable : w_resumable w' = w_resumable w;
  fm_suspended : w_suspended w' = w_suspended w;
  fm_deferred : w_deferred w' = w_deferred w;
  fm_covered : w_covered w' = w_covered w;
  fm_updates : ∀ u, u ∈ w_updates w' → u ∈ w_updates w ∨ ∃ a, u = Stop a;
  fm_states : ∀ a x, w_states w' !! a = Some x → w_states w !! a = Some x ∨ x = Blocked;
  fm_quiet : w_suspended w = ∅ → w_updates w' = w_updates w;
}.
#[global] Instance scan_frame_preorder : PreOrder scan_frame.
Proof.
  split; [by split; auto|]. intros w1 w2 w3 [] []. split; try congruence.
  - intros u [?|?]%fm_updates1; auto.
  - intros a x [?|?]%fm_states1; auto.
  - intros Hs. rewrite fm_quiet1 ?fm_suspended0; auto.
Qed.

Lemma stopped_frame w a : scan_frame w (stopped a w).
Proof.
  unfold stopped, put_update. split; try by case_bool_decide.
  - intros u. case_bool_decide; simpl; [|by left]. intros [?| ->%list_elem_of_singleton]%elem_of_app; [by left|right; eauto].
  - intros b x. case_bool_decide; simpl; intros [[-> <-]|[_ ?]]%lookup_insert_Some; auto.
  - intros Hs. rewrite bool_decide_false //= Hs lookup_empty. by intros [].
Qed.

(** How the head of a chain comes back. *)
Definition head_post H hand (scan : HeadScan) p (r : option RangeHead) p' : Prop :=
  slice_le (pg_slice p) (pg_slice p') ∧ scan_frame (pg_walk p) (pg_walk p') ∧
  (pg_ended p' = true ∧ r = None ∨ pg_ended p' = pg_ended p ∧ (reads_left (pg_slice p') < reads_left (pg_slice p))%nat) ∧
  match r with
  | Some h => head_ok (pg_walk p') h ∧ head_chain h = scan_chain scan ∧ pg_ended p' = pg_ended p ∧ pinv H (scan_chain scan :: hand) p'
  | None => pinv H hand p'
  end.

Lemma scan_later_spec H hand scan p :
  scan_ok (pg_walk p) scan → (flawless → scan_calm scan) → pinv H (scan_chain scan :: hand) p →
  wp (scan_later scan) (head_post H hand scan p) p.
Proof.
  intros Hok Hcalm Hi. unfold scan_later. repeat pg_step. split_and!; [done|by split; auto|by left|].
  by apply winv_push_pending.
Qed.

(** A chain is stopped after [r], unless the store has no holes. *)
Lemma stop_spec H hand scan p p0 :
  ¬ flawless → pinv H (scan_chain scan :: hand) p → slice_le (pg_slice p0) (pg_slice p) → scan_frame (pg_walk p0) (pg_walk p) →
  pg_ended p = pg_ended p0 → (reads_left (pg_slice p) < reads_left (pg_slice p0))%nat →
  wp (_ ← stop (hs_actor scan); mret None) (head_post H hand scan p0) p.
Proof.
  intros Hfl Hi Hle Hfr Hend Hlt. repeat pg_step. unfold head_post. simpl. split_and!; [done| |by right|].
  - etrans; [done|apply stopped_frame].
  - by eapply winv_stopped.
Qed.

Lemma missing_same w X : same_chains w (w_set_missing w X).
Proof. by split. Qed.

Lemma winv_missing H more hand w X : winv H more hand w → winv H more hand (w_set_missing w X).
Proof.
  intros Hi. eapply winv_same; [apply missing_same| |exact Hi]. pose proof (winv_safe _ _ _ _ _ _ _ _ _ _ _ _ Hi) as Hs.
  eapply safe_same; [apply missing_same|done|apply Hs..].
Qed.

Lemma head_post_slice H hand scan p sl r p' :
  slice_le (pg_slice p) sl → head_post H hand scan (set_slice p sl) r p' → head_post H hand scan p r p'.
Proof.
  intros Hle (Hle' & Hfr & Hend & Hr). pose proof (le_reads _ _ Hle). simpl in *.
  split_and!; [by etrans|done|destruct Hend as [?|[? ?]]; [by left|right; split; [done|lia]]|done].
Qed.

Lemma head_at_spec H hand scan seq i p :
  scan_ok (pg_walk p) scan → pinv H (scan_chain scan :: hand) p →
  (∀ m, rd_header read i = Ok (Some m) → hd_topic_id m = t ∧ hd_actor_id m = hs_actor scan ∧ hd_actor_seq m = seq) →
  (flawless → seq = hs_after scan + 1 ∧ rd_header read i ≠ Ok None) →
  wp (head_at read scan seq i) (head_post H hand scan p) p.
Proof.
  intros [Hafter _] Hi Hread Hfl. unfold head_at. pg_step. apply wp_charge_read. intros [] sl Hle Hlt _; cbn [negb].
  2: { set (scan' := {| hs_actor := _ |}). eapply wp_mono; [apply (scan_later_spec H hand scan')|].
       - split; [done|]. intros q j m [= <- <-] Hm. by apply Hread.
       - intros Hf q j [= <- <-]. by apply Hfl.
       - done.
       - intros r p' Hpost. eapply head_post_slice; [done|]. exact Hpost. }
  specialize (Hlt eq_refl). pg_step. apply wp_try. intros [m|] Hm.
  - destruct (Hread m Hm) as (Ht & Ha & Hs). destruct (N.eqb_spec seq (hs_after scan + 1)) as [->|Hne].
    + pg_step. unfold head_post. simpl. split_and!; [done|done|by right| |by rewrite /head_chain /h_actor /h_seq /h_limit /scan_chain|done..].
      split; [exists m; split_and!; [by split|done..]|]. unfold h_seq, h_actor. simpl. unfold covers in Hafter |- *. simpl. lia.
    + pg_step. apply wp_reserve. intros sl' Hle'. do 2 pg_step. apply stop_spec; simpl in *.
      * by intros [? _]%Hfl.
      * destruct (hd_actor_prev m); [by apply winv_missing|done].
      * by etrans.
      * by destruct (hd_actor_prev m); split; auto.
      * done.
      * pose proof (le_reads _ _ Hle'). simpl in *. lia.
  - pg_step. apply wp_reserve. intros sl' Hle'. do 2 pg_step. apply stop_spec; simpl in *.
    + by intros [_ ?]%Hfl.
    + by apply winv_missing.
    + by etrans.
    + by split; auto.
    + done.
    + pose proof (le_reads _ _ Hle'). simpl in *. lia.
Qed.

Lemma head_of_spec H hand scan p :
  scan_ok (pg_walk p) scan → (flawless → scan_calm scan) → pinv H (scan_chain scan :: hand) p →
  wp (head_of read t scan) (head_post H hand scan p) p.
Proof using Type Hwhole Hco.
  intros Hok Hcalm Hi. unfold head_of. destruct (hs_next scan) as [[seq i]|] eqn:Hnext.
  { apply head_at_spec; [done|done| |].
    - intros m Hm. exact (proj2 Hok _ _ _ Hnext Hm).
    - intros Hfl. exact (Hcalm Hfl _ _ Hnext). }
  pg_step. apply wp_charge_read. intros [] sl Hle Hlt _; cbn [negb].
  2: { eapply wp_mono; [by apply (scan_later_spec H hand scan)|]. intros r p' Hpost. by eapply head_post_slice. }
  specialize (Hlt eq_refl). pg_step. apply wp_try. intros range Hrange.
  assert (flawless → hs_after scan < top (hs_actor scan)) as Htop.
  { intros Hfl. pose proof (winv_fits _ _ _ _ _ _ _ _ _ _ _ _ (scan_chain scan) Hi (or_introl (list_elem_of_here _ _)) Hfl) as [Hf1 Hf2].
    simpl in Hf1, Hf2. lia. }
  destruct (last range) as [[seq i]|] eqn:Hlast.
  - eapply wp_mono; [apply (head_at_spec H hand scan seq i)|].
    + done.
    + done.
    + intros m Hm. by eapply co_range.
    + intros Hfl. destruct (wh_range _ _ _ (Hwhole Hfl) _ _ _ (Htop Hfl) Hrange) as (j & Hj & Hne). by simplify_eq.
    + intros r p' Hpost. by eapply head_post_slice.
  - apply stop_spec; [|done..].
    intros Hfl. destruct (wh_range _ _ _ (Hwhole Hfl) _ _ _ (Htop Hfl) Hrange) as (j & Hj & _). by simplify_eq.
Qed.

(** ** Selecting the lowest heads *)

Lemma winv_hand H more hand hand' w : (∀ c, c ∈ hand ↔ c ∈ hand') → winv H more hand w → winv H more hand' w.
Proof.
  intros Hh Hi. assert (∀ c, chains hand w c ↔ chains hand' w c) as Hc by (intros c; unfold chains; by rewrite Hh).
  split.
  - eapply (inv_moved _ _ _ _ _ _ hand _ w); [apply (winv_safe _ _ _ _ _ _ _ _ _ _ _ _ Hi)|done..|by left|apply Hi].
  - intros Hfl. destruct (wi_calm _ _ _ _ _ _ _ _ _ _ _ _ Hi Hfl) as [Hcalm ->]. split; [|done].
    eapply calm_move; [| | | | | | |exact Hcalm]; [done..|by eauto| |by left]. intros c Hin. left. by apply Hc.
Qed.

(** While heads are selected nobody waits, and no actor has a head in the plan but those
    that are selected already. *)
Definition sel_ok w : Prop :=
  w_suspended w = ∅ ∧ w_updates w = [] ∧ ((w_pending w = [] ∧ w_deferred w = []) ∨ ∀ a x, w_states w !! a = Some x → ¬ live x).
Definition sel_inv w : Prop := is_Some (w_selecting w) → sel_ok w.

(** The work and the active heads a plan has left. *)
Definition mu p : nat := (2 * work_left (pg_slice p) + length (w_active (pg_walk p)))%nat.

(** The updates that filling adds stop chains, and it does not change what is covered. *)
Record only_stops_added w w' : Prop := {
  os_updates : ∀ u, u ∈ w_updates w' → u ∈ w_updates w ∨ ∃ a, u = Stop a;
  os_covered : w_covered w' = w_covered w;
}.
#[local] Hint Extern 0 (only_stops_added _ _) => match goal with Hos : only_stops_added _ _ |- _ => by destruct Hos end : core.

Definition select_post H hand p (_ : unit) p' : Prop :=
  slice_le (pg_slice p) (pg_slice p') ∧ (mu p' ≤ mu p)%nat ∧ only_stops_added (pg_walk p) (pg_walk p') ∧
  pinv H hand p' ∧ sel_inv (pg_walk p') ∧ (is_Some (w_selecting (pg_walk p')) ∨ pg_ended p' = true).

Lemma select_drain_spec H hand l p :
  Forall (head_ok (pg_walk p)) l → w_selecting (pg_walk p) = None → w_suspended (pg_walk p) = ∅ →
  w_updates (pg_walk p) = [] → w_pending (pg_walk p) = [] → w_deferred (pg_walk p) = [] →
  pinv H ((head_chain <$> l) ++ hand) p →
  wp (select_drain l) (select_post H hand p) p.
Proof.
  revert p. induction l as [|h l IH]; intros p Hok Hsel Hsus Hup Hpen Hdef Hi; cbn [select_drain].
  { pg_step. unfold select_post, mu. simpl. split_and!; [done|lia|by split; [left|]|done| |by right].
    rewrite /sel_inv /= Hsel. by intros []. }
  pg_step. apply wp_charge_actor. intros [] sl Hle Hlt _; cbn [negb].
  2: { pg_step. unfold select_post, mu. simpl. pose proof (work_left_le _ _ Hle). split_and!; [done|lia|by split; [left|]| | |by left].
       - apply winv_put_selecting; [done|by apply Forall_reverse|]. eapply winv_hand; [|exact Hi].
         intros c. rewrite !elem_of_app !list_elem_of_fmap. by setoid_rewrite elem_of_reverse.
       - intros _. split_and!; [done|done|by left]. }
  specialize (Hlt eq_refl). pg_step. apply wp_reserve. intros sl' Hle'. do 2 pg_step. apply Forall_cons in Hok as [Hh Hok].
  eapply wp_mono; [apply IH; simpl; [|done..|]|].
  - apply Forall_forall. rewrite Forall_forall in Hok. intros h' Hin. by apply Hok in Hin.
  - unfold pinv, PagerSteps.pinv. simpl. rewrite -/(put_state (h_actor h) Active (push_active h (pg_walk p))).
    change (winv H (pg_more p) ((head_chain <$> l) ++ hand) (put_state (h_actor h) Active (push_active h (pg_walk p)))).
    apply winv_put_active; [by apply winv_push_active|].
    exists (h_seq h), (h_limit h). apply chains_push_active. by left; left.
  - intros [] p' (Hle2 & Hmu & Hst & Hpost). unfold select_post, mu in *. simpl in *. rewrite length_heap_push in Hmu.
    pose proof (work_left_lt _ _ Hle Hlt). pose proof (work_left_le _ _ Hle'). simpl in *.
    split_and!; [by etrans; [done|etrans]|lia|by destruct Hst|apply Hpost..].
Qed.

Definition selected_hand (selected : list RangeHead) hand : list chain := (head_chain <$> selected) ++ hand.

Lemma select_head_spec H hand h selected p :
  w_suspended (pg_walk p) = ∅ → (∀ a x, w_states (pg_walk p) !! a = Some x → ¬ live x) →
  head_ok (pg_walk p) h → Forall (head_ok (pg_walk p)) selected → pinv H (head_chain h :: selected_hand selected hand) p →
  wp (select_head window h selected) (λ sel p', slice_le (pg_slice p) (pg_slice p') ∧ pg_ended p' = pg_ended p ∧
    (∃ b, pg_walk p' = w_set_remainder (pg_walk p) b) ∧ Forall (head_ok (pg_walk p)) sel ∧ pinv H (selected_hand sel hand) p') p.
Proof.
  intros Hsus Hst Hh Hsel Hi. rewrite !Forall_forall in Hsel |- *. unfold select_head. case_bool_decide.
  - pg_step. apply wp_reserve. intros sl Hle. pg_step. split_and!; [done|done|exists (w_remainder (pg_walk p)); simpl; by destruct (pg_walk p)|..].
    + apply Forall_forall. intros h' [->|Hin]%elem_of_heap_push; auto.
    + eapply winv_hand; [|exact Hi]. intros c. unfold selected_hand. rewrite elem_of_cons !elem_of_app !list_elem_of_fmap.
      setoid_rewrite elem_of_heap_push. naive_solver.
  - do 2 pg_step. pg_step.
    assert (∀ c sel, (∀ h', h' ∈ sel → h' = h ∨ h' ∈ selected) → (∀ c', c' ∈ head_chain h :: selected_hand selected hand ↔ c' ∈ c :: selected_hand sel hand) →
      slice_le (pg_slice p) (pg_slice p) ∧ pg_ended p = pg_ended p ∧ (∃ b, w_set_remainder (pg_walk p) true = w_set_remainder (pg_walk p) b) ∧
      Forall (head_ok (pg_walk p)) sel ∧ winv H (pg_more p) (selected_hand sel hand) (w_set_remainder (pg_walk p) true)) as Hgen.
    { intros c sel Hsub Hc. split_and!; [done|done|by exists true|apply Forall_forall; intros h' [->|?]%Hsub; auto|].
      eapply (winv_leave_out _ _ _ _ _ _ _ _ _ _ _ _ c); [done|done|]. eapply winv_hand; [|exact Hi]. done. }
    destruct (last selected) as [l|] eqn:Hl; [|by apply (Hgen (head_chain h)); [auto|]]. destruct (bltb h l); [|by apply (Hgen (head_chain h)); [auto|]].
    apply last_Some in Hl as [sel ->]. rewrite length_app Nat.add_sub take_app_length. apply (Hgen (head_chain l)).
    + intros h' [->|?]%elem_of_heap_push; [by left|right]. apply elem_of_app. by left.
    + intros c. unfold selected_hand. rewrite !elem_of_cons !elem_of_app !list_elem_of_fmap. setoid_rewrite elem_of_heap_push.
      setoid_rewrite elem_of_app. setoid_rewrite list_elem_of_singleton. naive_solver.
Qed.

Lemma only_stops_trans w1 w2 w3 : only_stops_added w1 w2 → only_stops_added w2 w3 → only_stops_added w1 w3.
Proof. intros [H1 ?] [H2 ?]. split; [intros u [?|?]%H2; auto|congruence]. Qed.

(** Before a head is selected from the next actor of the goal. *)
Lemma winv_next_actor H more hand w a x rest :
  w_deferred w = (a, x) :: rest → winv H more hand w →
  winv H more hand (let w' := w_set_deferred w rest in
    if ck_get (w_covered w) a <? lim a then w_set_pending w' (w_pending w' ++ [scan_from a (ck_get (w_covered w) a) (lim a)]) else w').
Proof using Type Hlimit.
  intros Hd Hi. destruct (N.ltb_spec (ck_get (w_covered w) a) (lim a)) as [Hlt|Hge]; cbv zeta.
  - apply winv_queue_scan; [done|]. eapply winv_pop_deferred; [done| |].
    + right; right; right. exists (ck_get (w_covered w) a + 1), (lim a). split; [by left; left|done].
    + apply winv_gain; [| |done].
      * right; right; right. exists (ck_get (w_covered w) a + 1), (lim a). split; [by left; left|done].
      * intros Hfl. split; simpl; [lia|by apply Hlimit].
  - eapply winv_pop_deferred; [done| |done]. right; right; left. done.
Qed.

(** The invariant of the loop of [select]. *)
Definition selecting_at H hand p0 (selected : list RangeHead) p : Prop :=
  slice_le (pg_slice p0) (pg_slice p) ∧ (mu p ≤ mu p0)%nat ∧ only_stops_added (pg_walk p0) (pg_walk p) ∧
  w_selecting (pg_walk p) = None ∧ sel_ok (pg_walk p) ∧ Forall (head_ok (pg_walk p)) selected ∧
  pinv H (selected_hand selected hand) p.

(** The selection is kept for the next slice. *)
Lemma keep_selecting_spec H hand p0 selected p :
  selecting_at H hand p0 selected p → wp (_ ← keep_selecting selected; mret (inr ()))
    (λ (r : list RangeHead + unit) p', match r with inl _ => False | inr u => select_post H hand p0 u p' end) p.
Proof.
  intros (Hle & Hmu & Hst & Hsel & Hok & Hall & Hi). unfold keep_selecting. repeat pg_step. unfold select_post, mu in *. simpl.
  split_and!; [done|done|done|by apply winv_put_selecting|by intros _|by left].
Qed.

Lemma select_step_spec H hand p0 selected p :
  selecting_at H hand p0 selected p →
  wp (select_step read t local goal window selected) (λ r p', match r with
    | inl sel => selecting_at H hand p0 sel p' ∧ (reads_left (pg_slice p') < reads_left (pg_slice p))%nat
    | inr u => select_post H hand p0 u p' end) p.
Proof using Type Hco Hwhole Hlimit.
  intros Hat. pose proof Hat as (Hle & Hmu & Hst & Hsel & Hok & Hall & Hi). unfold select_step. do 2 pg_step. do 2 pg_step.
  assert (wp (_ ← keep_selecting selected; mret (inr ())) (λ (r : list RangeHead + unit) p', match r with
    | inl sel => selecting_at H hand p0 sel p' ∧ (reads_left (pg_slice p') < reads_left (pg_slice p))%nat
    | inr u => select_post H hand p0 u p' end) p) as Hkeep.
  { eapply wp_mono; [by apply keep_selecting_spec|]. by intros [?|?] p' ?. }
  pose proof Hok as (Hsus & Hup & Hst').
  destruct (w_pending (pg_walk p)) as [|scan pending] eqn:Hpen.
  - destruct (w_deferred (pg_walk p)) as [|[a x] deferred] eqn:Hdef.
    + pg_step. eapply wp_mono; [apply (select_drain_spec H hand); try done; [by apply Forall_reverse|]|].
      { eapply winv_hand; [|exact Hi]. intros c. unfold selected_hand. rewrite !elem_of_app !list_elem_of_fmap. by setoid_rewrite elem_of_reverse. }
      intros [] p' (Hle2 & Hmu2 & Hst2 & Hpost). pg_step.
      split_and!; [by etrans|lia|by eapply only_stops_trans|apply Hpost..].
    + destruct (exhausted (pg_slice p)); [done|]. pg_step. apply wp_charge_actor. intros [] sl Hle2 Hlt _; cbn [negb].
      2: { eapply wp_mono; [apply (keep_selecting_spec H hand p0)|by intros [?|?] p' ?]. pose proof (work_left_le _ _ Hle2).
           unfold selecting_at, mu in *. simpl in *. split_and!; [by etrans|lia|done..]. }
      specialize (Hlt eq_refl). repeat pg_step. split; [|done]. pose proof (work_left_le _ _ Hle2).
      pose proof (winv_next_actor _ _ _ _ _ _ _ Hdef Hi) as Hi'. unfold selecting_at, mu, pinv, PagerSteps.pinv in *. simpl in *.
      destruct Hst' as [[_ ?]|Hst']; [congruence|].
      destruct (ck_get (w_covered (pg_walk p)) a <? lim a); simpl in *; (split_and!; try done; [by etrans|lia|by split_and!; [..|right]]).
  - destruct (exhausted (pg_slice p)); [by destruct (w_deferred (pg_walk p))|].
    assert (∀ a x, w_states (pg_walk p) !! a = Some x → ¬ live x) as Hdead by (destruct Hst' as [[? _]|?]; [congruence|done]).
    destruct (winv_pop_pending _ _ _ _ _ _ _ _ _ _ _ _ _ _ Hpen Hi) as (Hi1 & Hscan & Hcalm).
    do 2 pg_step. pg_step. eapply wp_mono; [by apply (head_of_spec H (selected_hand selected hand) scan)|].
    intros r p1 (Hle1 & Hfr & Hend & Hr). simpl in *.
    assert (∀ sel p2, slice_le (pg_slice p1) (pg_slice p2) → pg_ended p2 = pg_ended p1 →
      (∃ b, pg_walk p2 = w_set_remainder (pg_walk p1) b) → Forall (head_ok (pg_walk p1)) sel → pinv H (selected_hand sel hand) p2 →
      selecting_at H hand p0 sel p2 ∧ (pg_ended p2 = true ∨ (reads_left (pg_slice p2) < reads_left (pg_slice p))%nat)) as Hdone.
    { intros sel p2 Hle2 He2 (b & Hw2) Hall2 Hi2. pose proof (work_left_le _ _ Hle1). pose proof (work_left_le _ _ Hle2).
      split.
      - unfold selecting_at, mu in *. rewrite Hw2. simpl. destruct Hfr as [Fa Fs Fr Fu Fd Fc Fup Fst Fq]. simpl in *. rewrite Fa Fs.
        split_and!; [by etrans; [done|etrans]|lia| |done| |done|done].
        + split; [intros u [?|?]%Fup; [by apply Hst|by right]|simpl; rewrite Fc; apply Hst].
        + split_and!; [by rewrite Fu|by rewrite Fq|right]. intros a x [?| ->]%Fst; [by eapply Hdead|]. by intros [?|?].
      - destruct Hend as [[? _]|[? ?]]; [left; congruence|right]. pose proof (le_reads _ _ Hle2). lia. }
    assert (Forall (head_ok (pg_walk p1)) selected) as Hall1.
    { rewrite !Forall_forall in Hall |- *. intros h Hin. destruct (Hall h Hin) as [? ?]. split; [done|].
      unfold covers in *. by rewrite (fm_covered _ _ Hfr). }
    assert (∀ sel p2, selecting_at H hand p0 sel p2 ∧ (pg_ended p2 = true ∨ (reads_left (pg_slice p2) < reads_left (pg_slice p))%nat) →
      wp (ended ← gets pg_ended; if ended : bool then _ ← keep_selecting sel; mret (inr ()) else mret (inl sel))
        (λ r p', match r with
         | inl sel => selecting_at H hand p0 sel p' ∧ (reads_left (pg_slice p') < reads_left (pg_slice p))%nat
         | inr u => select_post H hand p0 u p' end) p2) as Hgo.
    { intros sel p2 [Hat2 Hor]. do 2 pg_step. destruct (pg_ended p2).
      - eapply wp_mono; [by apply keep_selecting_spec|]. by intros [?|?] p' ?.
      - pg_step. destruct Hor; done. }
    pg_step. destruct r as [h|].
    + destruct Hr as (Hh & Hhc & He1 & Hi2). rewrite -Hhc in Hi2.
      eapply wp_mono; [apply (select_head_spec H hand h selected); [| |done..]|].
      * rewrite (fm_suspended _ _ Hfr). done.
      * intros a x [?| ->]%(fm_states _ _ Hfr); [by eapply Hdead|]. by intros [?|?].
      * intros sel p2 (Hle2 & He2 & Hw2 & Hall2 & Hi3). by apply Hgo, Hdone.
    + pg_step. apply Hgo, Hdone; [done|done|exists (w_remainder (pg_walk p1)); by destruct (pg_walk p1)|done|done].
Qed.

Lemma select_spec H hand selected p :
  w_selecting (pg_walk p) = None → sel_ok (pg_walk p) → Forall (head_ok (pg_walk p)) selected →
  pinv H (selected_hand selected hand) p → wp (select read t local goal window selected) (select_post H hand p) p.
Proof using Type Hco Hwhole Hlimit.
  intros Hsel Hok Hall Hi. unfold select.
  apply (wp_loop_upto (selecting_at H hand p) (λ _ p, reads_left (pg_slice p))); [|by split_and!; [done|done|split; [left|]|done..]|simpl; lia].
  intros l s Hat. by apply select_step_spec.
Qed.

(** ** Filling *)

(** Nothing is left to be made active, or there is a reason to stop. *)
Definition filled p : Prop :=
  pg_ended p = true ∨ is_Some (w_selecting (pg_walk p)) ∨ exhausted (pg_slice p) = true ∨
  (window ≤ length (w_active (pg_walk p)))%nat ∨
  (w_pending (pg_walk p) = [] ∧ w_resumable (pg_walk p) = [] ∧ w_deferred (pg_walk p) = []).

Definition fill_post H p (_ : unit) p' : Prop :=
  slice_le (pg_slice p) (pg_slice p') ∧ (mu p' ≤ mu p)%nat ∧ only_stops_added (pg_walk p) (pg_walk p') ∧
  pinv H [] p' ∧ sel_inv (pg_walk p') ∧ filled p'.

Definition filling H p0 p : Prop :=
  slice_le (pg_slice p0) (pg_slice p) ∧ (mu p ≤ mu p0)%nat ∧ only_stops_added (pg_walk p0) (pg_walk p) ∧
  w_selecting (pg_walk p) = None ∧ pinv H [] p.

Lemma filling_done H p0 p : filling H p0 p → filled p → fill_post H p0 () p.
Proof. intros (Hle & Hmu & Hst & Hsel & Hi) Hf. split_and!; try done. rewrite /sel_inv Hsel. by intros []. Qed.

Lemma activate_spec H hand a after l p (Q : unit → Pager C → Prop) :
  after ≤ covers (pg_walk p) a → pinv H ((a, after + 1, l) :: hand) p →
  (∀ sl, slice_le (pg_slice p) sl → pinv H hand (set_walk (set_slice p sl) (activated a after l (pg_walk p))) →
    Q () (set_walk (set_slice p sl) (activated a after l (pg_walk p)))) →
  wp (activate a after l) Q p.
Proof.
  intros Ha Hi HQ. unfold activate. do 2 pg_step.
  assert (∀ sl, slice_le (pg_slice p) sl → wp (walk_do (activated a after l)) Q (set_slice p sl)) as Hgo.
  { intros sl Hle. pg_step. apply (HQ sl Hle). by apply winv_activated. }
  pg_step. case_bool_decide.
  - pg_step. replace p with (set_slice p (pg_slice p)) by by destruct p. by apply Hgo.
  - by apply wp_reserve.
Qed.

Lemma fill_step_spec H p0 p :
  filling H p0 p →
  wp (fill_step read t local goal window ()) (λ r p', match r with
    | inl _ => filling H p0 p' ∧ (reads_left (pg_slice p') < reads_left (pg_slice p))%nat
    | inr u => fill_post H p0 u p' end) p.
Proof using Type Hco Hwhole Hlimit.
  intros Hat. pose proof Hat as (Hle & Hmu & Hst & Hsel & Hi). unfold fill_step. do 4 pg_step.
  destruct (negb _ || _) eqn:Hcond.
  { pg_step. apply filling_done; [done|]. apply orb_true_iff in Hcond as [Hcond|Hcond].
    - right; right; right; left. apply negb_true_iff, bool_decide_eq_false in Hcond. lia.
    - by right; right; left. }
  clear Hcond. destruct (w_pending (pg_walk p)) as [|scan pending] eqn:Hpen.
  - destruct (w_resumable (pg_walk p)) as [|h resumable] eqn:Hres.
    + destruct (w_deferred (pg_walk p)) as [|[a x] deferred] eqn:Hdef.
      { pg_step. apply filling_done; [done|]. by right; right; right; right. }
      pg_step. apply wp_charge_actor. intros [] sl Hle2 Hlt Hex; cbn [negb].
      2: { pg_step. apply filling_done; [|right; right; left; by apply Hex]. pose proof (work_left_le _ _ Hle2).
           unfold filling, mu in *. simpl in *. split_and!; [by etrans|lia|done..]. }
      specialize (Hlt eq_refl). do 2 pg_step. cbv zeta. pose proof (work_left_lt _ _ Hle2 Hlt).
      destruct (_ || _) eqn:Hskip.
      * pg_step. split; [|done]. unfold filling, mu in *. simpl in *. split_and!; [by etrans|lia|done..|].
        eapply winv_pop_deferred; [done| |done]. apply orb_true_iff in Hskip as [Hskip|Hskip].
        { apply bool_decide_eq_true in Hskip. apply (gl_busy _ _ _ _ _ (iv_goals _ _ _ _ _ _ _ _ (wi_inv _ _ _ _ _ _ _ _ _ _ _ _ Hi))). by left. }
        right; right; left. by apply N.leb_le.
      * apply orb_false_iff in Hskip as [_ Hskip]. apply N.leb_gt in Hskip. set (after := ck_get (w_covered (pg_walk p)) a) in *.
        assert (∀ w', done_for lim (given_up stopped_before (pg_more p)) [(a, after + 1, lim a)] w' a) as Hdone.
        { intros w'. right; right; right. exists (after + 1), (lim a). split; [by left; left|done]. }
        pg_step. apply (activate_spec H []); [done| |].
        { eapply winv_pop_deferred; [done|done|]. apply winv_gain; [done| |done].
          intros Hfl. split; simpl; [lia|by apply Hlimit]. }
        intros sl' Hle' Hi'. pg_step. pose proof (le_reads _ _ Hle'). pose proof (work_left_le _ _ Hle').
        unfold filling, mu in *. simpl in *. split; [|lia]. split_and!; [by etrans; [done|etrans]|lia|done..].
    + pg_step. apply wp_charge_actor. intros [] sl Hle2 Hlt Hex; cbn [negb].
      2: { pg_step. apply filling_done; [|right; right; left; by apply Hex]. pose proof (work_left_le _ _ Hle2).
           unfold filling, mu in *. simpl in *. split_and!; [by etrans|lia|done..]. }
      specialize (Hlt eq_refl). do 2 pg_step. pg_step. split; [|done]. pose proof (work_left_lt _ _ Hle2 Hlt).
      destruct (winv_pop_resumable _ _ _ _ _ _ _ _ _ _ _ _ _ _ Hres Hi) as [Hi1 Hh].
      unfold filling, mu in *. simpl in *. rewrite length_heap_push. split_and!; [by etrans|lia|done..|].
      apply winv_put_active; [by apply winv_push_active|]. exists (h_seq h), (h_limit h). apply chains_push_active. by left; left.
  - destruct (winv_pop_pending _ _ _ _ _ _ _ _ _ _ _ _ _ _ Hpen Hi) as (Hi1 & Hscan & Hcalm).
    do 2 pg_step. pg_step. eapply wp_mono; [by apply (head_of_spec H [] scan)|].
    intros r p1 (Hle1 & Hfr & Hend & Hr). simpl in *.
    assert (only_stops_added (pg_walk p0) (pg_walk p1)) as Hst1.
    { split; [intros u [?|?]%(fm_updates _ _ Hfr); [by apply Hst|by right]|rewrite (fm_covered _ _ Hfr); apply Hst]. }
    pose proof (work_left_le _ _ Hle1).
    assert (∀ p2, filling H p0 p2 → (pg_ended p2 = true ∨ (reads_left (pg_slice p2) < reads_left (pg_slice p))%nat) →
      wp (ended ← gets pg_ended; if ended : bool then mret (inr ()) else mret (inl ()))
        (λ (r : unit + unit) p', match r with
         | inl _ => filling H p0 p' ∧ (reads_left (pg_slice p') < reads_left (pg_slice p))%nat
         | inr u => fill_post H p0 u p' end) p2) as Hgo.
    { intros p2 Hat2 Hor. do 2 pg_step. destruct (pg_ended p2) eqn:He; pg_step; [|by destruct Hor].
      apply filling_done; [done|by left]. }
    pg_step. destruct r as [h|].
    + destruct Hr as (Hh & Hhc & He1 & Hi2). rewrite -Hhc in Hi2. do 2 pg_step. apply Hgo; simpl; [|tauto].
      destruct Hend as [[_ ?]|[_ Hlt1]]; [done|]. pose proof (work_left_lt _ _ Hle1 Hlt1). unfold filling, mu in *. simpl in *.
      rewrite length_heap_push (fm_active _ _ Hfr) (fm_selecting _ _ Hfr). simpl.
      split_and!; [by etrans|lia|done|done|by apply winv_push_active].
    + pg_step. apply Hgo; [|tauto]. unfold filling, mu in *. simpl in *. rewrite (fm_active _ _ Hfr) (fm_selecting _ _ Hfr). simpl.
      split_and!; [by etrans|lia|done..].
Qed.

Lemma fill_spec H p :
  sel_inv (pg_walk p) → pinv H [] p → wp (fill read t local goal window) (fill_post H p) p.
Proof using Type Hco Hwhole Hlimit.
  intros Hsel Hi. unfold fill. do 2 pg_step.
  assert (w_selecting (pg_walk p) = None →
    wp (loop_upto (λ p, S (reads_left (pg_slice p))) (fill_step read t local goal window) ()) (fill_post H p) p) as Hloop.
  { intros Hnone. apply (wp_loop_upto (λ _, filling H p) (λ _ p, reads_left (pg_slice p))).
    - intros [] s Hat. by apply fill_step_spec.
    - by split_and!; [done|done|split; [left|]|done..].
    - simpl. lia. }
  destruct (w_selecting (pg_walk p)) as [selected|] eqn:Hs; [|pg_step; pg_step; by apply Hloop].
  destruct (winv_take_selecting _ _ _ _ _ _ _ _ _ _ _ _ _ Hs Hi) as [Hi1 Hall].
  do 4 pg_step. eapply wp_mono; [apply (select_spec H [] selected); [done| |done|done]|].
  - apply Hsel. by eexists.
  - intros [] p' (Hle & Hmu & Hst & Hi' & Hsel' & Hor). do 2 pg_step. pg_step.
    assert (fill_post H p () p') as Hpost.
    { split_and!; [done..|]. destruct Hor; [by right; left|by left]. }
    destruct Hor as [Hor|Hor]; [rewrite bool_decide_true //|rewrite Hor andb_false_r]; by pg_step.
Qed.
End fill.

(** ** Settling the updates of a plan

    [settle] handles the heads that wait for a chain that went on, reached its limit or
    was stopped. It ends within the slice and keeps the invariant. *)

Set Default Proof Using "Type".

Section settle.
Context {C : Type} `{!ClockImpl C} `{SZ : !Sizes} {R : Type} `{!SnapshotRead R} `{!PageRead R}.
Context (read : R) (t : TopicId) (local : C) (goal : option C) (scope : ActorScope C).
Context (wanted : ActorId → Prop) (stopped_before : Prop) (top : ActorId → N) (flawless : Prop).
Context (Hwhole : flawless → whole read t top).
Context (Hlocal : flawless → informed scope = true ∨ ∀ a, top a ≤ ck_get local a).
Implicit Types (w : Walk C) (p : Pager C) (H : OpId → Prop) (a : ActorId) (h : RangeHead) (i d : OpId).
Implicit Types (hand : list chain) (c : chain) (more : bool).
Local Abbreviation winv := (winv read t local goal wanted stopped_before top flawless).
Local Abbreviation pinv := (pinv read t local goal wanted stopped_before top flawless).

(** A plan with an update in progress. *)
Definition upinv H u p : Prop := winv H (pg_more p) [] (requeued u (pg_walk p)).

Definition weight (us : list Update) : nat := sum_list (update_weight <$> us).
Lemma weight_cons u us : weight (u :: us) = (update_weight u + weight us)%nat.
Proof. done. Qed.
Lemma weight_stopped w a : (weight (w_updates (stopped a w)) ≤ S (weight (w_updates w)))%nat.
Proof.
  unfold stopped, put_update, weight. case_bool_decide; simpl; [|lia]. rewrite fmap_app sum_list_with_app /=. lia.
Qed.

(** The measure of the loop, and what an iteration does to a plan. *)
Definition settle_left p : nat := (3 * reads_left (pg_slice p) + weight (w_updates (pg_walk p)))%nat.

(** What settling leaves as it is. *)
Definition same_heads w w' : Prop :=
  (w_active w', w_selecting w', w_covered w') = (w_active w, w_selecting w, w_covered w).

Definition settled_step H u p (r : unit + unit) p' : Prop :=
  slice_le (pg_slice p) (pg_slice p') ∧ same_heads (pg_walk p) (pg_walk p') ∧ pinv H [] p' ∧
  match r with
  | inl _ => pg_ended p' = pg_ended p ∧ (settle_left p' < settle_left p + update_weight u)%nat
  | inr _ => pg_ended p' = true
  end.

Lemma update_later_spec H u p sl :
  upinv H u p → slice_le (pg_slice p) sl → wp (update_later u) (settled_step H u p) (set_slice p sl).
Proof. intros Hi Hle. unfold update_later, requeue. repeat pg_step. by split_and!. Qed.

Lemma unpark_heads w a j : same_heads w (unpark a j w).
Proof. unfold unpark, same_heads. by destruct (w_suspended w !! a). Qed.

Lemma settle_wake_spec H a s j p :
  upinv H (Wake a s j) p → wp (settle_wake a s j) (settled_step H (Wake a s j) p) p.
Proof.
  intros Hi. unfold settle_wake. do 2 pg_step. destruct (waiting_at a j (pg_walk p)) as [[n h]|] eqn:Hj.
  2: { pg_step. split_and!; [done|done|by eapply winv_wake_done|done|simpl; lia]. }
  pg_step. apply wp_charge_actor. intros [] sl Hle Hlt _; cbn [negb].
  2: by apply (update_later_spec H).
  specialize (Hlt eq_refl). destruct (N.leb_spec n s) as [Hn|Hn].
  - destruct (winv_unparked_wake _ _ _ _ _ _ _ _ _ _ _ _ _ _ _ _ _ Hj Hi) as [Hi' Hok]. unfold requeue. repeat pg_step.
    assert (head_ok read t (requeued (Wake a s j) (unpark a j (pg_walk p))) h) as Hok'.
    { destruct Hok as [? Hs]. split; [done|]. unfold covers in *. simpl. by destruct (unpark_fields (pg_walk p) a j) as (_ & _ & _ & -> & _). }
    split_and!; [done|by apply (unpark_heads (pg_walk p))| |done|].
    { exact (winv_push_resumable _ _ _ _ _ _ _ _ _ _ _ _ _ Hok' Hi'). }
    unfold settle_left. simpl. destruct (unpark_fields (pg_walk p) a j) as (_ & -> & _). rewrite weight_cons. simpl. lia.
  - unfold requeue. repeat pg_step. split_and!; [done|done|by eapply winv_wake_next|done|].
    unfold settle_left. simpl. rewrite weight_cons. simpl. lia.
Qed.

(** A position that is waited for is in the store. *)
Lemma waiting_top H more w a l j r n h :
  waiting_at a j w = Some (n, h) → winv H more [] (requeued (Raise a l j r) w) → flawless →
  informed scope || (n <=? ck_get local a) = true ∧ n ≤ top a.
Proof using Type Hwhole Hlocal.
  intros Hj Hi Hfl. unfold waiting_at in Hj. destruct (w_suspended w !! a) as [ws|] eqn:Hws; [|done]. simpl in Hj.
  destruct (wt_older _ _ _ _ (iv_waits _ _ _ _ _ _ _ _ (wi_inv _ _ _ _ _ _ _ _ _ _ _ _ Hi)) a j n h) as (d & Hd & _); [by exists ws|].
  pose proof (wh_top _ _ _ (Hwhole Hfl) _ _ _ Hd) as Htop. split; [|done]. apply orb_true_iff.
  destruct (Hlocal Hfl) as [?|Hl]; [by left|right]. apply N.leb_le. specialize (Hl a). lia.
Qed.

Lemma settle_raise_spec H a l j r p :
  upinv H (Raise a l j r) p → wp (settle_raise local scope a l j r) (settled_step H (Raise a l j r) p) p.
Proof using Type Hwhole Hlocal.
  intros Hi. unfold settle_raise. do 2 pg_step. destruct (waiting_at a j (pg_walk p)) as [[n h]|] eqn:Hj.
  - pg_step. apply wp_charge_actor. intros [] sl Hle Hlt _; cbn [negb].
    2: by apply (update_later_spec H).
    specialize (Hlt eq_refl). unfold requeue. repeat pg_step. split_and!; [done|done| |done|].
    + eapply (winv_raise_next _ _ _ _ scope); [done| |done]. by eapply waiting_top.
    + unfold settle_left. simpl. rewrite weight_cons. simpl. lia.
  - pose proof (winv_raised _ _ _ _ _ _ _ _ _ _ _ _ _ _ _ _ Hj Hi) as Hi'.
    pg_step. destruct r as [x|].
    + unfold activate. do 2 pg_step. pg_step.
      assert (∀ sl, slice_le (pg_slice p) sl → wp (walk_do (activated a l x)) (λ _, wp (_ ← requeue (Finish a (Some x) 0); mret (inl ()))
        (settled_step H (Raise a l j (Some x)) p)) (set_slice p sl)) as Hgo.
      { intros sl Hle. unfold requeue. repeat pg_step. pose proof (le_reads _ _ Hle). split_and!; [done|done|done|done|].
        unfold settle_left. simpl. rewrite weight_cons. simpl. lia. }
      case_bool_decide.
      * pg_step. replace p with (set_slice p (pg_slice p)) at 2 by by destruct p. by apply Hgo.
      * by apply wp_reserve.
    + unfold requeue. repeat pg_step. split_and!; [done|done|done|done|].
      unfold settle_left. simpl. rewrite weight_cons. simpl. lia.
Qed.

(** Giving up the head at an index, in the middle of an update. *)
Lemma block_spec H u a j n h p sl p0 :
  ¬ flawless → waiting_at a j (pg_walk p) = Some (n, h) → (update_index u ≤ j)%nat → upinv H u p →
  slice_le (pg_slice p0) sl → (reads_left sl < reads_left (pg_slice p0))%nat → same_heads (pg_walk p0) (pg_walk p) →
  pg_ended p = pg_ended p0 → w_updates (pg_walk p) = w_updates (pg_walk p0) →
  wp (_ ← walk_do (unpark a j); _ ← block (h_actor h) (h_id h); _ ← requeue u; mret (inl ()))
    (settled_step H u p0) (set_slice p sl).
Proof.
  intros Hfl Hj Hu Hi Hle Hlt Hact Hend Hup. unfold block, stop, requeue. repeat pg_step.
  set (X := {[h_id h]} ∪ _).
  pose proof (winv_unparked_blocked _ _ _ _ _ _ _ _ _ _ _ _ _ _ _ _ _ Hfl Hj Hu Hi) as Hi'.
  assert (same_heads (pg_walk p0) (stopped (h_actor h) (w_set_blocked (unpark a j (pg_walk p)) X))) as Hact'.
  { unfold same_heads in *. rewrite -Hact -(unpark_heads (pg_walk p) a j). unfold stopped, put_update. by case_bool_decide. }
  split_and!; [done|done| |done|].
  - unfold PagerSteps.pinv. simpl. apply (winv_set_blocked _ _ _ _ _ _ _ _ _ _ _ _ X Hfl) in Hi'.
    assert (requeued u (stopped (h_actor h) (w_set_blocked (unpark a j (pg_walk p)) X)) =
            w_set_blocked (requeued u (stopped (h_actor h) (unpark a j (pg_walk p)))) X) as ->; [|done].
    unfold stopped, put_update. simpl. by case_bool_decide.
  - unfold settle_left. simpl. rewrite weight_cons.
    pose proof (weight_stopped (w_set_blocked (unpark a j (pg_walk p)) X) (h_actor h)) as Hw. simpl in Hw.
    destruct (unpark_fields (pg_walk p) a j) as (_ & Heq & _). rewrite Heq Hup in Hw. lia.
Qed.

Lemma settle_finish_spec H a r j p :
  upinv H (Finish a r j) p → wp (settle_finish scope a r j) (settled_step H (Finish a r j) p) p.
Proof. clear Hlocal Hwhole.
  intros Hi. unfold settle_finish. do 2 pg_step. destruct (waiting_at a j (pg_walk p)) as [[n h]|] eqn:Hj.
  2: { repeat pg_step. pose proof (winv_finish_done _ _ _ _ _ _ _ _ _ _ _ _ _ _ _ Hj Hi) as Hi'.
       destruct (w_states (pg_walk p) !! a) as [[]|] eqn:Ha; try (split_and!; [done|done|done|done|unfold settle_left; simpl; lia]).
       destruct (informed scope); split_and!; try done; try (unfold settle_left; simpl; lia). by eapply winv_forget. }
  pg_step. apply wp_charge_actor. intros [] sl Hle Hlt _; cbn [negb].
  2: by apply (update_later_spec H).
  specialize (Hlt eq_refl). destruct (match r with Some x => n <=? x | None => false end) eqn:Hr.
  - destruct r as [x|]; [|done]. apply N.leb_le in Hr. unfold requeue. repeat pg_step.
    split_and!; [done|done|by eapply winv_finish_next|done|]. unfold settle_left. simpl. rewrite weight_cons. simpl. lia.
  - eapply (block_spec H (Finish a r j) a j n h p sl p); try done.
    intros Hfl. destruct (winv_finish_calm _ _ _ _ _ _ _ _ _ _ _ _ _ _ _ _ _ Hj Hi Hfl) as (x & -> & Hx). apply N.leb_gt in Hr. lia.
Qed.

Lemma settle_stop_spec H a p : upinv H (Stop a) p → wp (settle_stop a) (settled_step H (Stop a) p) p.
Proof.
  intros Hi. unfold settle_stop. do 2 pg_step.
  destruct (w_suspended (pg_walk p) !! a ≫= λ l, last l) as [[n h]|] eqn:Hlast.
  2: { pg_step. split_and!; [done|done| |done|simpl; lia]. eapply winv_stop_done; [|done].
       intros k n h (l & Hl & Hk). rewrite Hl /= in Hlast. apply last_None in Hlast. by subst. }
  destruct (w_suspended (pg_walk p) !! a) as [l|] eqn:Hl; [|done]. simpl in Hlast.
  pg_step. apply wp_charge_actor. intros [] sl Hle Hlt _; cbn [negb].
  2: by apply (update_later_spec H).
  specialize (Hlt eq_refl).
  assert (waiting_at a (length l - 1) (pg_walk p) = Some (n, h)) as Hj.
  { unfold waiting_at. rewrite Hl /=. rewrite last_lookup in Hlast. by replace (length l - 1)%nat with (pred (length l)) by lia. }
  assert (take (length l - 1) l = swap_remove (length l - 1) l) as Hsw.
  { unfold swap_remove. rewrite Hlast list_insert_id //. rewrite last_lookup in Hlast.
    by replace (length l - 1)%nat with (pred (length l)) by lia. }
  pose proof (block_spec H (Stop a) a (length l - 1) n h p sl p) as Hb. unfold block, stop, requeue in Hb |- *.
  do 2 pg_step. simpl. rewrite Hl Hsw.
  assert (set_waiting a (swap_remove (length l - 1) l) (pg_walk p) = unpark a (length l - 1) (pg_walk p)) as ->.
  { unfold unpark. by rewrite Hl. }
  apply Hb; try done; [by eapply winv_stop_calm|simpl; lia].
Qed.

Definition settle_post H p (_ : unit) p' : Prop :=
  slice_le (pg_slice p) (pg_slice p') ∧ same_heads (pg_walk p) (pg_walk p') ∧ pinv H [] p' ∧ sel_inv (pg_walk p') ∧
  (pg_ended p' = true ∨ pg_ended p' = pg_ended p ∧ w_updates (pg_walk p') = []).

Lemma settle_step_spec H p :
  sel_inv (pg_walk p) → pinv H [] p →
  wp (settle_step local scope ()) (λ r p', slice_le (pg_slice p) (pg_slice p') ∧ same_heads (pg_walk p) (pg_walk p') ∧
    sel_inv (pg_walk p') ∧ pinv H [] p' ∧
    match r with
    | inl _ => pg_ended p' = pg_ended p ∧ (settle_left p' < settle_left p)%nat
    | inr _ => pg_ended p' = true ∨ pg_ended p' = pg_ended p ∧ w_updates (pg_walk p') = []
    end) p.
Proof using Type Hwhole Hlocal.
  intros Hsel Hi. unfold settle_step. do 2 pg_step. destruct (w_updates (pg_walk p)) as [|u us] eqn:Hus.
  { pg_step. split_and!; [done..|by right]. }
  assert (w_selecting (pg_walk p) = None) as Hnone.
  { destruct (w_selecting (pg_walk p)) eqn:Hs; [|done]. destruct Hsel as (_ & ? & _); [by eexists|]. congruence. }
  do 2 pg_step. set (p1 := set_walk p _).
  assert (upinv H u p1) as Hu.
  { unfold upinv. simpl. unfold requeued. simpl. rewrite -Hus. by destruct p as [[] ? ? ?]. }
  assert (settle_left p = settle_left p1 + update_weight u)%nat as Hleft.
  { unfold settle_left. simpl. rewrite Hus weight_cons. lia. }
  assert (∀ r p', settled_step H u p1 r p' → slice_le (pg_slice p) (pg_slice p') ∧ same_heads (pg_walk p) (pg_walk p') ∧
    sel_inv (pg_walk p') ∧ pinv H [] p' ∧
    match r with
    | inl _ => pg_ended p' = pg_ended p ∧ (settle_left p' < settle_left p)%nat
    | inr _ => pg_ended p' = true ∨ pg_ended p' = pg_ended p ∧ w_updates (pg_walk p') = []
    end) as Hdone.
  { intros r p' (Hle & Ha & Hi' & Hr). simpl in *. split_and!; [done|done| |done|].
    - injection Ha as _ Hs _. unfold sel_inv. simpl in Hs. rewrite Hs Hnone. by intros [].
    - destruct r; [|by left]. rewrite Hleft. done. }
  destruct u as [a s j|a l j r|a r j|a]; (eapply wp_mono; [|exact Hdone]).
  - by apply settle_wake_spec.
  - by apply settle_raise_spec.
  - by apply settle_finish_spec.
  - by apply settle_stop_spec.
Qed.

Lemma settle_spec H p : sel_inv (pg_walk p) → pinv H [] p → wp (settle local scope) (settle_post H p) p.
Proof using Type Hwhole Hlocal.
  intros Hsel Hi. unfold settle.
  apply (wp_loop_upto (λ _ q, slice_le (pg_slice p) (pg_slice q) ∧ same_heads (pg_walk p) (pg_walk q) ∧
    sel_inv (pg_walk q) ∧ pinv H [] q ∧ pg_ended q = pg_ended p) (λ _, settle_left)).
  - intros [] q (Hle & Ha & Hs & Hq & He). eapply wp_mono; [by apply settle_step_spec|].
    intros r q' (Hle' & Ha' & Hs' & Hq' & Hr). destruct r.
    + destruct Hr as [He' ?]. split_and!; [by etrans|by unfold same_heads in *; congruence|done|done|congruence|done].
    + split_and!; [by etrans|by unfold same_heads in *; congruence|done|done|]. rewrite -He. done.
  - by split_and!.
  - unfold settle_fuel, settle_left, weight. lia.
Qed.
End settle.
