(* ===== verification/PagerWait.v ===== *)
(** * What a head waits for

    [wait_for] goes over the dependencies of an operation. When it says that the
    operation is ready, all of them are with the peer or on the page. When it names a
    position, the position belongs to something older that is not covered yet. The scan
    ends within the slice, and what it found out is kept for the next time. *)

From S2P Require Import Prelude Ids Pages ClockSpec Types Records StoreReads Integrity Requests.
From S2P Require Import Programs Slices Repair Pager PagerInv PagerMoves PagerSteps PagerFill.

#[local] Open Scope N_scope.
Set Default Proof Using "Type".

(** ** Dependency scans *)

Section scans.
Context {R : Type} `{!SnapshotRead R} `{!PageRead R} (read : R) (t : TopicId).
Implicit Types (H : OpId → Prop) (a : ActorId) (i d : OpId) (sc : DependencyScan).
Local Abbreviation scanned := (scanned read t).
Local Abbreviation satisfied := (satisfied read t).
Local Abbreviation frame_ok := (frame_ok read t).

Lemma scanned_empty H i : scanned H i scan_empty.
Proof. split; [by intros ds d _ _ []|intros a q g Hq; by rewrite lookup_empty in Hq|done]. Qed.

Lemma scanned_checked H i sc x r : scanned H i sc → scanned H i (ds_set_checked sc x r).
Proof. intros []. by split. Qed.

Lemma scanned_frames H i sc fs : scanned H i sc → Forall (frame_ok i) fs → scanned H i (ds_set_ancestry sc fs).
Proof. intros []. by split. Qed.

(** The scan passes over the next dependency. *)
Lemma scanned_after H i ds sc d rest :
  rd_deps read i = Some ds → bt_after ds (ds_after sc) = d :: rest → satisfied H (ds_needed sc) d →
  scanned H i sc → scanned H i (ds_set_after sc (Some d)).
Proof.
  intros Hds Hrest Hd [Ha Hn Hf]. split; [|done..]. intros ds' d' Hds' Hin Hnb. simplify_eq. simpl in *.
  destruct (decide (beyond (ds_after sc) d')) as [Hb|Hb]; [|by eapply Ha].
  assert (d' ∈ bt_after ds (ds_after sc)) as Hin' by by apply elem_of_bt_after.
  rewrite Hrest in Hin'. apply elem_of_cons in Hin' as [->|Hin']; [done|].
  rewrite -(bt_after_split ds (ds_after sc) [] rest d Hrest) in Hin'. by apply elem_of_bt_after in Hin' as [_ ?].
Qed.

(** A position is demanded. *)
Definition demanded (needed : gmap ActorId (N * N)) (m : OpHeader) : gmap ActorId (N * N) :=
  <[hd_actor_id m := match needed !! hd_actor_id m with
     | Some (seq, gen) => (N.max seq (hd_actor_seq m), N.min gen (hd_generation m))
     | None => (hd_actor_seq m, hd_generation m)
     end]> needed.

Lemma satisfied_demanded H needed m d : satisfied H needed d → satisfied H (demanded needed m) d.
Proof.
  intros [?|(a & s & q & g & Hd & Hq & Hs)]; [by left|right]. unfold demanded.
  destruct (decide (hd_actor_id m = a)) as [<-|Hne].
  - rewrite Hq. eexists _, s, _, _. split_and!; [done|by rewrite lookup_insert_eq|lia].
  - exists a, s, q, g. by rewrite lookup_insert_ne.
Qed.

Lemma demanded_satisfied H needed m d : at_header read t d m → satisfied H (demanded needed m) d.
Proof.
  intros Hd. right. unfold demanded. exists (hd_actor_id m), (hd_actor_seq m).
  destruct (needed !! hd_actor_id m) as [[q g]|].
  - eexists _, _. split_and!; [by exists m|by rewrite lookup_insert_eq|lia].
  - eexists _, _. split_and!; [by exists m|by rewrite lookup_insert_eq|lia].
Qed.

Lemma scanned_demanded H i sc m d :
  at_header read t d m → older read t d i → scanned H i sc → scanned H i (ds_set_needed sc (demanded (ds_needed sc) m)).
Proof.
  intros Hd Hold [Ha Hn Hf]. split; simpl; [|intros a q g|done].
  - intros ds d' Hds Hin Hnb. apply satisfied_demanded. by eapply Ha.
  - unfold demanded. intros [[<- Hq]|[_ Hq]]%lookup_insert_Some; [|by eapply Hn].
    destruct (ds_needed sc !! hd_actor_id m) as [[q' g']|] eqn:Hq'.
    + injection Hq as <- <-. destruct (N.max_spec q' (hd_actor_seq m)) as [[_ ->]|[_ ->]].
      * exists d. split; [by exists m|done].
      * by eapply Hn.
    + injection Hq as <- <-. exists d. split; [by exists m|done].
Qed.

(** A demanded position was reached. *)
Lemma scanned_delete H i sc a q g :
  ds_needed sc !! a = Some (q, g) → below read t H a q → scanned H i sc →
  scanned H i (ds_set_needed sc (delete a (ds_needed sc))).
Proof.
  intros Hq Hb [Ha Hn Hf]. split; simpl; [|intros b q' g' [_ ?]%lookup_delete_Some; by eapply Hn|done].
  intros ds d Hds Hin Hnb. destruct (Ha ds d Hds Hin Hnb) as [?|(b & s & q' & g' & Hd & Hq' & Hs)]; [by left|].
  destruct (decide (a = b)) as [<-|Hne].
  - left. simplify_eq. by eapply Hb.
  - right. exists b, s, q', g'. by rewrite lookup_delete_ne.
Qed.

(** At the end nothing is demanded any more and all dependencies are there. *)
Lemma scanned_ready H i ds sc d :
  rd_deps read i = Some ds → bt_after ds (ds_after sc) = [] → ds_needed sc = ∅ → scanned H i sc → d ∈ ds → H d.
Proof.
  intros Hds Hnil Hn [Ha _ _] Hd. destruct (Ha ds d Hds Hd) as [?|(a & s & q & g & _ & Hq & _)]; [|done|].
  - intros Hb. assert (d ∈ bt_after ds (ds_after sc)) as Hin by by apply elem_of_bt_after. rewrite Hnil in Hin. by apply elem_of_nil in Hin.
  - by rewrite Hn in Hq.
Qed.

Lemma older_trans d e i : (∃ m, at_header read t e m) → older read t d e → older read t e i → older read t d i.
Proof. intros [m He] H1 H2 md mi Hd Hi. specialize (H1 _ _ Hd He). specialize (H2 _ _ He Hi). lia. Qed.

(** Dependencies are older, also those of ancestors. *)
Lemma dep_older i ds d m :
  coherent read t → (∃ mi, at_header read t i mi) → rd_deps read i = Some ds → d ∈ ds → rd_header read d = Ok (Some m) →
  at_header read t d m ∧ older read t d i.
Proof.
  intros Hco [mi Hi] Hds Hd Hm. destruct (co_deps _ _ Hco _ _ _ _ _ Hi Hds Hd Hm) as [Ht Hg].
  split; [by split|]. intros m1 m2 Hm1 Hm2.
  by rewrite (at_header_unique _ _ _ _ _ Hm2 Hi) (at_header_unique _ _ _ _ _ Hm1 (conj Hm Ht)).
Qed.
End scans.

(** ** The programs *)

Section wait.
Context {C : Type} `{!ClockImpl C} `{SZ : !Sizes} {R : Type} `{!SnapshotRead R} `{!PageRead R}.
Context (read : R) (t : TopicId) (scope : ActorScope C) (sent : gset OpId) (position_limit : nat).
Context (Hco : coherent read t) (H : OpId → Prop).
Context (Hknown : ∀ a k, known_prefix scope a = Some k → below read t H a k).
Context (Hholds : ∀ a s, holds_prefix scope a s = true → below read t H a s).
Context (Hsent : ∀ d, d ∈ sent → H d).
Context (i : OpId) (ds : gset OpId) (Hi : ∃ m, at_header read t i m) (Hds : rd_deps read i = Some ds).
Implicit Types (w : Walk C) (p q : Pager C) (a : ActorId) (d : OpId) (scan : DependencyScan).
Local Abbreviation safe := (safe read t H).
Local Abbreviation scanned := (scanned read t H i).
Local Abbreviation frame_ok := (frame_ok read t i).

(** While a head is examined the chains of the plan stay as they are. *)
Record steady p q : Prop := {
  sd_slice : slice_le (pg_slice p) (pg_slice q);
  sd_same : same_chains (pg_walk p) (pg_walk q);
  sd_safe : safe (pg_walk q);
  sd_ended : pg_ended q = pg_ended p;
  sd_more : pg_more q = pg_more p;
}.

Lemma set_slice_id p : set_slice p (pg_slice p) = p.
Proof. by destruct p. Qed.

Lemma steady_slice p q sl : steady p q → slice_le (pg_slice q) sl → steady p (set_slice q sl).
Proof. intros [] ?. split; [by etrans|done..]. Qed.

(** What is remembered besides the chains may change. *)
Lemma steady_walk p q w' :
  steady p q → same_chains (pg_walk q) w' → w_covered w' = w_covered (pg_walk q) → w_records w' = w_records (pg_walk q) →
  (∀ j sc, w_checked w' !! j = Some sc → PagerInv.scanned read t H j sc) → steady p (set_walk q w').
Proof.
  intros [] Hs Hc Hr Hk. split; simpl; [done|by etrans| |done|done]. eapply safe_same; [done..| |done|].
  - intros a. unfold covers. rewrite Hc. by apply sd_safe0.
  - rewrite Hr. apply sd_safe0.
Qed.

Lemma steady_missing p q d : steady p q → steady p (set_walk q (put_missing d (pg_walk q))).
Proof. intros Hs. apply steady_walk; [done|by split|done|done|]. apply (sd_safe _ _ Hs). Qed.

Lemma steady_checked p q scan : steady p q → scanned scan → steady p (set_walk q (put_checked i scan (pg_walk q))).
Proof.
  intros Hs Hsc. apply steady_walk; [done|by split|done|done|]. simpl.
  intros j sc [[<- <-]|[_ ?]]%lookup_insert_Some; [done|]. by apply (sd_safe _ _ Hs).
Qed.

Lemma steady_observed p q a s : steady p q → below read t H a s → steady p (set_walk q (observed a s (pg_walk q))).
Proof.
  intros [] Hb. split; simpl; [done|etrans; [done|apply observed_same]|by apply safe_observed|done|done].
Qed.

Lemma observe_known_spec p q a s (Q : unit → Pager C → Prop) :
  steady p q → (∀ q', steady p q' → pg_slice q' = pg_slice q → Q () q') → wp (observe_known scope a s) Q q.
Proof using Type Hknown.
  intros Hs HQ. unfold observe_known. destruct (known_prefix scope a) as [k|] eqn:Hk; [|pg_step; by apply HQ].
  unfold observe. pg_step. apply HQ; [|done]. apply steady_observed; [done|]. eapply below_mono; [by apply Hknown|done|lia].
Qed.

Lemma steady_positions p q X : steady p q → steady p (set_walk q (w_set_positions (pg_walk q) X)).
Proof. intros Hs. apply steady_walk; [done|by split|done|done|]. apply (sd_safe _ _ Hs). Qed.

Lemma need_position_spec p q a g (Q : bool → Pager C → Prop) :
  steady p q → (∀ b q', steady p q' → slice_le (pg_slice q) (pg_slice q') → Q b q') → wp (need_position position_limit a g) Q q.
Proof.
  intros Hs HQ. unfold need_position. do 2 pg_step. destruct (_ && _); [pg_step; by apply HQ|].
  assert (∀ sl, slice_le (pg_slice q) sl → wp (_ ← walk_do (λ w, w_set_positions w (need (w_positions w) a g)); mret true) Q (set_slice q sl)) as Hgo.
  { intros sl Hle. repeat pg_step. apply HQ; [|done]. apply (steady_positions p (set_slice q sl)). by apply steady_slice. }
  pg_step. case_bool_decide.
  - by apply wp_reserve.
  - pg_step. specialize (Hgo (pg_slice q)). rewrite set_slice_id in Hgo. by apply Hgo.
Qed.

Lemma demand_spec p q scan m d :
  at_header read t d m → older read t d i → steady p q → scanned scan →
  wp (demand position_limit scan m) (λ '(b, scan') q', steady p q' ∧ slice_le (pg_slice q) (pg_slice q') ∧
    scan' = (if b then ds_set_needed scan (demanded (ds_needed scan) m) else scan) ∧ scanned scan') q.
Proof.
  intros Hd Hold Hs Hsc. unfold demand. destruct (_ && _); [pg_step; by split_and!|].
  assert (∀ sl, slice_le (pg_slice q) sl → wp (named ← need_position position_limit (hd_actor_id m) (hd_generation m);
    if negb named then mret (false, scan) else mret (true, ds_set_needed scan (demanded (ds_needed scan) m)))
    (λ '(b, scan') q', steady p q' ∧ slice_le (pg_slice q) (pg_slice q') ∧
      scan' = (if b then ds_set_needed scan (demanded (ds_needed scan) m) else scan) ∧ scanned scan') (set_slice q sl)) as Hgo.
  { intros sl Hle. pg_step. eapply (need_position_spec p); [by apply steady_slice|]. intros [] q' Hs' Hle'; cbn [negb]; pg_step.
    - split_and!; [done|by etrans|done|by eapply scanned_demanded].
    - split_and!; [done|by etrans|done|done]. }
  pg_step. case_bool_decide.
  - by apply wp_reserve.
  - pg_step. specialize (Hgo (pg_slice q)). rewrite set_slice_id in Hgo. by apply Hgo.
Qed.

(** ** Ancestors of unknown actors *)

(** The ancestors whose next dependency was read already. *)
Definition held_headers (fs : list Ancestor) : nat :=
  length (filter (λ f, match an_pending f with Some (_, Some _) => true | _ => false end = true) fs).

Definition ancestors_left scan q : nat := (reads_left (pg_slice q) + held_headers (ds_ancestry scan))%nat.

(** An iteration over the ancestors. *)
Definition ancestor_post p q scan (r : DependencyScan + bool * DependencyScan) q' : Prop :=
  steady p q' ∧ match r with
  | inl scan' => scanned scan' ∧ ds_after scan' = ds_after scan ∧ (∀ d, satisfied read t H (ds_needed scan) d → satisfied read t H (ds_needed scan') d) ∧
                 (ancestors_left scan' q' < ancestors_left scan q)%nat
  | inr (_, scan') => scanned scan' ∧ ds_after scan' = ds_after scan ∧ (∀ d, satisfied read t H (ds_needed scan) d → satisfied read t H (ds_needed scan') d)
  end.

Lemma ancestor_next_spec p q scan f rest :
  ds_ancestry scan = f :: rest → steady p q → scanned scan →
  wp (ancestor_next read (ds_set_ancestry scan rest) f) (λ r q', steady p q' ∧ slice_le (pg_slice q) (pg_slice q') ∧
    match r with
    | inl r => ancestor_post p q scan r q'
    | inr (d, o) => (∃ fds, rd_deps read (an_id f) = Some fds ∧ d ∈ fds) ∧ (∀ m, o = Some m → rd_header read d = Ok (Some m)) ∧
                    (an_pending f = Some (d, o) ∨ o = None ∧ an_pending f = None ∧ (reads_left (pg_slice q') < reads_left (pg_slice q))%nat)
    end) q.
Proof.
  intros Hfs Hs Hsc. pose proof (sn_frames _ _ _ _ _ Hsc) as Hall. rewrite Hfs in Hall. apply Forall_cons in Hall as [Hf Hall].
  unfold ancestor_next. destruct (an_pending f) as [[d o]|] eqn:Hp.
  { pg_step. destruct (fo_pending _ _ _ _ Hf d o Hp) as [? ?]. split_and!; [done..|by left]. }
  assert (∀ q', steady p q' → (reads_left (pg_slice q') < reads_left (pg_slice q))%nat →
    ancestor_post p q scan (inl (ds_set_ancestry scan rest)) q') as Hpop.
  { intros q' Hs' Hlt. split; [done|]. split_and!; [by apply scanned_frames|done|done|].
    unfold ancestors_left, held_headers. rewrite Hfs. simpl. rewrite filter_cons. case_decide; simpl; lia. }
  pg_step. apply wp_charge_read. intros [] sl Hle Hlt _; cbn [negb].
  2: { pg_step. split_and!; [by apply steady_slice|done|]. split; [by apply steady_slice|]. simpl.
       split_and!; [|done|done]. apply (scanned_frames _ _ _ _ (ds_set_ancestry scan rest)); [by apply scanned_frames|by constructor]. }
  specialize (Hlt eq_refl). pg_step. apply wp_try. intros [ids|] Hids.
  - apply rd_deps_ok in Hids. destruct (rd_deps read (an_id f)) as [fds|] eqn:Hfds; [|done]. injection Hids as ->.
    destruct (last (page fds (dc_after (an_cursor f)) 1)) as [d|] eqn:Hlast; pg_step.
    + split_and!; [by apply steady_slice|done|exists fds; split; [done|]|done|by right].
      apply last_Some in Hlast as [l' Hl']. apply (elem_of_page fds (dc_after (an_cursor f)) 1). rewrite Hl'. apply elem_of_app. right. by left.
    + split_and!; [by apply steady_slice|done|]. apply Hpop; [by apply steady_slice|done].
  - pg_step. apply wp_reserve. intros sl' Hle'. repeat pg_step. pose proof (le_reads _ _ Hle'). simpl in *.
    assert (steady p (set_walk (set_slice q sl') (put_missing (an_id f) (pg_walk q)))) as Hs'.
    { apply (steady_missing p (set_slice q sl')), steady_slice; [done|by etrans]. }
    split_and!; [done|by etrans|]. apply Hpop; [done|simpl; lia].
Qed.

Lemma ancestor_header_spec p q d o :
  steady p q → (∀ m, o = Some m → rd_header read d = Ok (Some m)) →
  wp (ancestor_header read (d, o)) (λ r q', steady p q' ∧ slice_le (pg_slice q) (pg_slice q') ∧
    ∀ h, r = Some h → rd_header read d = Ok h ∧ (is_Some o ∨ (reads_left (pg_slice q') < reads_left (pg_slice q))%nat)) q.
Proof.
  intros Hs Ho. unfold ancestor_header. simpl. destruct o as [m|].
  { pg_step. split_and!; [done|done|]. intros h [= <-]. split; [by apply Ho|by left]. }
  assert (∀ sl, slice_le (pg_slice q) sl → steady p (set_slice q sl) ∧ slice_le (pg_slice q) (pg_slice (set_slice q sl)) ∧
    ∀ h, None = Some h → rd_header read d = Ok h ∧ (is_Some (@None OpHeader) ∨ (reads_left sl < reads_left (pg_slice q))%nat)) as Hno.
  { intros sl Hle. split_and!; [by apply steady_slice|done|done]. }
  do 2 pg_step. pg_step. destruct (exhausted (pg_slice q)).
  { repeat pg_step. cbn [negb]. pg_step. specialize (Hno (pg_slice q)). rewrite set_slice_id in Hno. by apply Hno. }
  apply wp_charge_edge. intros [] sl Hle; [|repeat pg_step; cbn [negb]; pg_step; by apply Hno].
  pg_step. apply wp_charge_read. intros [] sl' Hle' Hlt _; cbn [negb]; [|pg_step; apply Hno; by etrans].
  specialize (Hlt eq_refl). pg_step. apply wp_try. intros h Hh. pg_step. pose proof (le_reads _ _ Hle). simpl in *.
  split_and!; [apply (steady_slice _ (set_slice q sl)); [by apply steady_slice|done]|by etrans|].
  intros h' [= <-]. split; [done|right; lia].
Qed.

Lemma held_headers_cons f fs :
  held_headers (f :: fs) = (match an_pending f with Some (_, Some _) => 1 | _ => 0 end + held_headers fs)%nat.
Proof. unfold held_headers. rewrite filter_cons. destruct (an_pending f) as [[d [m|]]|]; case_decide; done. Qed.

Lemma ancestor_step_spec p q scan :
  steady p q → scanned scan → wp (ancestor_step read scope position_limit scan) (ancestor_post p q scan) q.
Proof using Type Hco.
  intros Hs Hsc. unfold ancestor_step. destruct (ds_ancestry scan) as [|f rest] eqn:Hfs; [pg_step; by split_and!|].
  pose proof (sn_frames _ _ _ _ _ Hsc) as Hall. rewrite Hfs in Hall. apply Forall_cons in Hall as [Hf Hall].
  cbv zeta. do 2 pg_step. destruct (_ && _).
  { pg_step. apply wp_charge_actor. intros [] sl Hle Hlt _; pg_step.
    - specialize (Hlt eq_refl). split_and!; [by apply steady_slice|by apply scanned_frames|done|done|].
      unfold ancestors_left. rewrite Hfs held_headers_cons. simpl. lia.
    - split_and!; [by apply steady_slice| |done|done]. by apply scanned_frames; [apply scanned_frames|constructor]. }
  pg_step. eapply wp_mono; [by apply (ancestor_next_spec p q scan f rest)|].
  intros [r|[d o]] q1 (Hs1 & Hle1 & Hr); [by pg_step|]. destruct Hr as (Hin & Ho & Hnew).
  pg_step. eapply wp_mono; [by apply (ancestor_header_spec p)|]. intros [h|] q2 (Hs2 & Hle2 & Hh).
  2: { pg_step. split_and!; [done| |done|done]. apply scanned_frames; [by apply scanned_frames|]. constructor; [|done].
       split; [apply Hf..|]. simpl. by intros d' o' [= <- <-]. }
  destruct (Hh h eq_refl) as [Hrd Hcost]. clear Hh.
  assert (∀ q3, slice_le (pg_slice q2) (pg_slice q3) → (reads_left (pg_slice q3) + 0 + held_headers rest < ancestors_left scan q)%nat) as Hmeas.
  { intros q3 Hle3. pose proof (le_reads _ _ Hle1). pose proof (le_reads _ _ Hle2). pose proof (le_reads _ _ Hle3).
    unfold ancestors_left. rewrite Hfs held_headers_cons.
    destruct Hnew as [Hp|(-> & Hp & ?)]; rewrite Hp; [|simpl in *; lia]. destruct Hcost as [[m ->]|?]; simpl; lia. }
  cbv zeta. destruct Hin as (fds & Hfds & Hin).
  assert (∀ m, h = Some m → at_header read t d m ∧ older read t d (an_id f)) as Hdep.
  { intros m ->. eapply dep_older; [done|apply Hf|done|done|done]. }
  destruct (descends scope (ds_set_ancestry scan rest) h) as [m|] eqn:Hdesc.
  - assert (h = Some m) as ->.
    { unfold descends in Hdesc. destruct h as [m'|]; [|done]. by destruct (_ && _); simplify_eq. }
    destruct (Hdep m eq_refl) as [Hhd Hold].
    assert (older read t d i) as Hold'. { eapply older_trans; [|done|]; apply Hf. }
    pg_step. eapply wp_mono; [apply (demand_spec p q2 (ds_set_ancestry scan rest) m d); [done|done|done|by apply scanned_frames]|].
    intros [b scan'] q3 (Hs3 & Hle3 & -> & Hsc'). destruct b; cbn [negb].
    2: { pg_step. split_and!; [done| |done|done]. apply (scanned_frames _ _ _ _ (ds_set_ancestry scan rest)); [done|].
         constructor; [|done]. split; [apply Hf..|]. simpl. intros d' o' [= <- <-]. split; [by exists fds|]. by intros ? [= <-]. }
    pg_step. apply wp_try. intros _ _. pg_step. apply wp_reserve. intros sl Hle4. pg_step.
    split_and!; [by apply steady_slice| |done|simpl; by intros d'; apply satisfied_demanded|].
    + apply (scanned_frames _ _ _ _ (ds_set_needed (ds_set_ancestry scan rest) _)); [done|]. constructor; [|constructor; [|done]].
      * split; simpl; [by exists m|done|done].
      * split; [apply Hf..|done].
    + specialize (Hmeas (set_slice q3 sl)). unfold ancestors_left. simpl. rewrite !held_headers_cons. simpl.
      simpl in Hmeas. rewrite Nat.add_0_r in Hmeas. apply Hmeas. by etrans.
  - do 2 pg_step. cbn [negb]. pg_step. apply wp_try. intros _ _. pg_step. split_and!; [done| |done|done|].
    + apply (scanned_frames _ _ _ _ (ds_set_ancestry scan rest)); [by apply scanned_frames|]. constructor; [|done].
      split; [apply Hf..|done].
    + specialize (Hmeas q2). unfold ancestors_left. simpl. rewrite !held_headers_cons. simpl.
      rewrite Nat.add_0_r in Hmeas. by apply Hmeas.
Qed.

Lemma unknown_ancestors_spec p q scan :
  steady p q → scanned scan →
  wp (unknown_ancestors read scope position_limit scan) (λ '(_, scan') q', steady p q' ∧ scanned scan' ∧
    ds_after scan' = ds_after scan ∧ ∀ d, satisfied read t H (ds_needed scan) d → satisfied read t H (ds_needed scan') d) q.
Proof using Type Hco.
  intros Hs Hsc. unfold unknown_ancestors.
  apply (wp_loop_upto (λ scan' q', steady p q' ∧ scanned scan' ∧ ds_after scan' = ds_after scan ∧
    ∀ d, satisfied read t H (ds_needed scan) d → satisfied read t H (ds_needed scan') d) ancestors_left).
  - intros scan1 q1 (Hs1 & Hsc1 & Ha1 & Hsat1). eapply wp_mono; [by apply (ancestor_step_spec p)|].
    intros [scan2|[b scan2]] q2 (Hs2 & Hr).
    + destruct Hr as (? & ? & Hsat & ?). split_and!; [done|done|congruence|auto|done].
    + destruct Hr as (? & ? & Hsat). split_and!; [done|done|congruence|auto].
  - by split_and!.
  - unfold ancestors_left, held_headers.
    pose proof (length_filter (λ f, match an_pending f with Some (_, Some _) => true | _ => false end = true) (ds_ancestry scan)). lia.
Qed.

(** ** The result of [wait_for] *)

Context (flawless : Prop) (Hdeps : flawless → ∀ d, d ∈ ds → rd_header read d ≠ Ok None).

Definition wait_post p (x : Wait) q : Prop :=
  steady p q ∧ match x with
  | WReady => ∀ d, d ∈ ds → H d
  | WPosition a s => covers (pg_walk q) a < s ∧ ∃ d, at_pos read t d a s ∧ older read t d i
  | WBlocked => ¬ flawless
  | WYield | WUnknown => True
  end.

Lemma keep_scan_spec p q scan x (Q : Wait → Pager C → Prop) :
  steady p q → scanned scan →
  match x with
  | WPosition a s => covers (pg_walk q) a < s ∧ ∃ d, at_pos read t d a s ∧ older read t d i
  | WYield | WUnknown => True
  | _ => False end → (∀ q', wait_post p x q' → Q x q') → wp (keep_scan i scan x) Q q.
Proof.
  intros Hs Hsc Hx HQ. unfold keep_scan. repeat pg_step. apply HQ. split; [by apply steady_checked|by destruct x].
Qed.

(** Positions found earlier. *)
Lemma next_needed_in scan a x : next_needed scan = Some (a, x) → ds_needed scan !! a = Some x.
Proof.
  intros Hn. apply head_Some in Hn as [l Hl]. apply elem_of_bt_entries.
  assert ((a, x) ∈ filter (λ e, beyond (ds_checked scan) e.1) (bt_entries (ds_needed scan))) as Hin by (rewrite Hl; by left).
  by apply list_elem_of_filter in Hin as [_ ?].
Qed.

Lemma needed_step_spec p q scan :
  steady p q → scanned scan →
  wp (needed_step scope position_limit i scan) (λ r q', match r with
    | inl scan' => steady p q' ∧ scanned scan' ∧ (reads_left (pg_slice q') < reads_left (pg_slice q))%nat
    | inr (inl x) => wait_post p x q'
    | inr (inr scan') => steady p q' ∧ scanned scan' end) q.
Proof using Type Hknown Hholds.
  intros Hs Hsc. unfold needed_step. destruct (next_needed scan) as [[a [s g]]|] eqn:Hn; [|by pg_step].
  apply next_needed_in in Hn. pg_step. apply wp_charge_actor. intros [] sl Hle Hlt _; cbn [negb].
  2: { pg_step. eapply keep_scan_spec; [by apply steady_slice|done|done|]. intros q' Hq'. by pg_step. }
  specialize (Hlt eq_refl). pg_step. eapply observe_known_spec; [by apply steady_slice|]. intros q1 Hs1 Hsl. simpl in Hsl.
  cbv zeta. destruct (unknown scope a).
  - pg_step. eapply (need_position_spec p); [done|]. intros [] q2 Hs2 Hle2; cbn [negb].
    + pg_step. split_and!; [done|by apply scanned_checked|]. pose proof (le_reads _ _ Hle2). rewrite Hsl in H0. lia.
    + pg_step. eapply keep_scan_spec; [done|done|done|]. intros q' Hq'. by pg_step.
  - do 2 pg_step. destruct (_ || _) eqn:Hhave.
    + pg_step. split_and!; [done| |by rewrite Hsl]. apply scanned_checked. eapply scanned_delete; [done| |done].
      apply orb_true_iff in Hhave as [Hhave|Hhave%N.leb_le]; [by apply Hholds|].
      eapply below_mono; [apply (sf_covered _ _ _ _ (sd_safe _ _ Hs1))|done|done].
    + apply orb_false_iff in Hhave as [_ Hhave%N.leb_gt]. pg_step.
      eapply keep_scan_spec; [done|done| |intros q' Hq'; by pg_step].
      split; [done|]. by eapply (sn_needed _ _ _ _ _ Hsc).
Qed.

(** The next dependency. *)
Lemma wait_dep_spec p q scan d m rest :
  steady p q → scanned scan → bt_after ds (ds_after scan) = d :: rest → rd_header read d = Ok (Some m) →
  wp (wait_dep read scope position_limit i scan d m) (λ r q', match r with
    | inl x => wait_post p x q'
    | inr scan' => steady p q' ∧ scanned scan' ∧ bt_after ds (ds_after scan') = rest end) q.
Proof using Type Hco Hknown Hholds Hi Hds.
  intros Hs Hsc Hrest Hm.
  assert (d ∈ ds) as Hd. { apply (elem_of_bt_after ds (ds_after scan)). rewrite Hrest. by left. }
  destruct (dep_older read t i ds d m Hco Hi Hds Hd Hm) as [Hhd Hold].
  pose proof (bt_after_split ds (ds_after scan) [] rest d Hrest) as Hrest'.
  assert (at_pos read t d (hd_actor_id m) (hd_actor_seq m)) as Hpos by by exists m.
  unfold wait_dep. cbv zeta. pg_step.
  assert (∀ (Q : unit → Pager C → Prop), (∀ q', steady p q' → Q () q') →
    wp (match known_prefix scope (hd_actor_id m) with
        | Some known => if 0 <? known then observe (hd_actor_id m) (N.min known (hd_actor_seq m)) else mret ()
        | None => mret () end) Q q) as Hobs.
  { intros Q HQ. destruct (known_prefix scope (hd_actor_id m)) as [k|] eqn:Hk; [|pg_step; by apply HQ].
    destruct (0 <? k); [|pg_step; by apply HQ]. unfold observe. pg_step. apply HQ, steady_observed; [done|].
    eapply below_mono; [by apply Hknown|done|lia]. }
  apply Hobs. clear Hobs. intros q1 Hs1. destruct (holds_prefix scope (hd_actor_id m) (hd_actor_seq m)) eqn:Hhold.
  { unfold observe. repeat pg_step. split_and!; [apply steady_observed; [done|by apply Hholds]| |done].
    eapply scanned_after; [done|done| |done]. left. by eapply Hholds. }
  destruct (unknown scope (hd_actor_id m)).
  - pg_step. eapply wp_mono; [by apply (demand_spec p q1 scan m d)|]. intros [b scan'] q2 (Hs2 & Hle2 & -> & Hsc'). destruct b; cbn [negb].
    2: { pg_step. eapply keep_scan_spec; [done|done|done|]. intros q' Hq'. by pg_step. }
    pg_step. apply wp_reserve. intros sl Hle3. cbv zeta. set (scan2 := ds_set_after _ _).
    assert (scanned scan2) as Hsc2.
    { apply (scanned_after _ _ _ _ ds (ds_set_ancestry (ds_set_needed scan (demanded (ds_needed scan) m)) _) d rest); [done|done| |].
      - by apply demanded_satisfied.
      - apply scanned_frames; [done|]. constructor; [split; simpl; [by exists m|done|done]|apply Hsc]. }
    pg_step. eapply wp_mono; [apply (unknown_ancestors_spec p); [by apply steady_slice|exact Hsc2]|].
    intros [b scan3] q3 (Hs3 & Hsc3 & Ha3 & Hsat). destruct b; cbn [negb].
    2: { pg_step. eapply keep_scan_spec; [done|done|done|]. intros q' Hq'. by pg_step. }
    pg_step. split_and!; [done| |done]. subst scan2. simpl in *.
    destruct Hsc3 as [Hs3a Hs3n Hs3f]. split; [|done..]. simpl. by rewrite Ha3 in Hs3a.
  - do 2 pg_step. destruct (N.ltb_spec (ck_get (w_covered (pg_walk q1)) (hd_actor_id m)) (hd_actor_seq m)) as [Hlt|Hge].
    + pg_step. eapply keep_scan_spec; [done|done| |intros q' Hq'; by pg_step]. split; [done|]. by exists d.
    + pg_step. split_and!; [done| |done]. eapply scanned_after; [done|done| |done]. left.
      by eapply (sf_covered _ _ _ _ (sd_safe _ _ Hs1)).
Qed.

Lemma wait_deps_spec p l q scan :
  (flawless → w_blocked (pg_walk p) = ∅ ∧ w_repair (pg_walk p) = None) →
  steady p q → scanned scan → bt_after ds (ds_after scan) = l →
  wp (wait_deps read scope sent position_limit i l scan) (λ r q', match r with
    | inl x => wait_post p x q'
    | inr scan' => steady p q' ∧ scanned scan' ∧ bt_after ds (ds_after scan') = [] end) q.
Proof using Type Hco Hknown Hholds Hsent Hi Hds Hdeps.
  intros Hcalm. revert q scan. induction l as [|d l IH]; intros q scan Hs Hsc Hl; cbn [wait_deps]; [by pg_step|].
  assert (d ∈ ds) as Hd. { apply (elem_of_bt_after ds (ds_after scan)). rewrite Hl. by left. }
  assert (∀ q', steady p q' → wp (x ← keep_scan i scan WYield; mret (inl x)) (λ (r : Wait + DependencyScan) q', match r with
    | inl x => wait_post p x q'
    | inr scan' => steady p q' ∧ scanned scan' ∧ bt_after ds (ds_after scan') = [] end) q') as Hyield.
  { intros q' Hq'. pg_step. eapply keep_scan_spec; [done|done|done|]. intros q2 Hq2. by pg_step. }
  do 2 pg_step. pg_step. destruct (exhausted (pg_slice q)); [pg_step; cbn [negb]; by apply Hyield|].
  apply wp_charge_edge. intros [] sl Hle; cbn [negb]; [|by apply Hyield, steady_slice].
  do 2 pg_step. simpl. destruct (_ || _) eqn:Hblock.
  { pg_step. split; [by apply steady_slice|]. intros Hfl. destruct (Hcalm Hfl) as [Hb Hr].
    rewrite (sm_blocked _ _ (sd_same _ _ Hs)) Hb (sm_repair _ _ (sd_same _ _ Hs)) Hr orb_false_r in Hblock.
    apply bool_decide_eq_true in Hblock. by apply not_elem_of_empty in Hblock. }
  destruct (bool_decide_reflect (d ∈ sent)) as [Hsn|_].
  { apply IH; [by apply steady_slice| |by apply (bt_after_split ds (ds_after scan) [])].
    eapply scanned_after; [done|done| |done]. left. by apply Hsent. }
  pg_step. apply wp_charge_read. intros [] sl' Hle' _ _; cbn [negb].
  2: { apply Hyield, (steady_slice p q); [done|]. by etrans. }
  pg_step. apply wp_try. intros [m|] Hm.
  - pg_step. eapply wp_mono; [apply (wait_dep_spec p _ scan d m l); [apply (steady_slice p q); [done|by etrans]|done..]|].
    intros [x|scan'] q'; [by intros; pg_step|]. intros (? & ? & ?). by apply IH.
  - pg_step. apply wp_reserve. intros sl2 Hle2. do 2 pg_step. pg_step. split.
    + apply (steady_missing p (set_slice q sl2)), steady_slice; [done|]. by etrans; [|etrans].
    + intros Hfl. by eapply Hdeps.
Qed.

Lemma wait_for_spec op p :
  op_id op = i → deps (obody op) = ds → safe (pg_walk p) →
  (flawless → w_blocked (pg_walk p) = ∅ ∧ w_repair (pg_walk p) = None) →
  wp (wait_for read scope sent position_limit op) (wait_post p) p.
Proof using Type Hco Hknown Hholds Hsent Hi Hds Hdeps.
  intros Hid Hdeps' Hs Hcalm. unfold wait_for. cbv zeta. rewrite Hid. do 2 pg_step.
  assert (scanned (default scan_empty (w_checked (pg_walk p) !! i))) as Hsc.
  { destruct (w_checked (pg_walk p) !! i) eqn:Hk; simpl; [by apply Hs|apply scanned_empty]. }
  set (scan := default _ _) in *. clearbody scan. do 2 pg_step. do 2 pg_step.
  match goal with |- wp _ _ ?q => set (q0 := q) end.
  assert (steady p q0) as Hs0.
  { apply steady_walk; [by split|by split|done|done|]. simpl. intros j sc [_ ?]%lookup_delete_Some. by apply Hs. }
  set (scan1 := if _ =? _ then _ else _).
  assert (scanned scan1) as Hsc1 by (unfold scan1; destruct (_ =? _); [done|by apply scanned_checked]). clearbody scan1.
  pg_step. apply (wp_loop_upto (λ scan q, steady p q ∧ scanned scan) (λ _ q, reads_left (pg_slice q))); [|done|lia].
  { intros sc q [Hq Hscq]. eapply wp_mono; [by apply (needed_step_spec p)|]. intros [sc'|[x|sc']] q'.
    - by intros (? & ? & ?).
    - intros Hx. by pg_step.
    - intros [Hq' Hsc']. pg_step. eapply wp_mono; [by apply (unknown_ancestors_spec p)|].
      intros [b sc2] q2 (Hq2 & Hsc2 & _ & _). destruct b; cbn [negb].
      2: { eapply keep_scan_spec; [done|done|done|]. done. }
      pg_step. eapply wp_mono; [by apply (wait_deps_spec p _ q2 sc2); [..|by rewrite Hdeps']|].
      intros [x|sc3] q3; [by intros; pg_step|]. intros (Hq3 & Hsc3 & Hnil). case_bool_decide as Hn.
      + pg_step. split; [done|]. intros d Hd. by eapply scanned_ready.
      + by eapply keep_scan_spec. }
Qed.
End wait.
