(* ===== verification/PagerPlan.v ===== *)
(** * The loop of a plan

    An iteration of [Pager::plan] settles, fills and looks at the lowest head, which is
    passed, sent, suspended or given up. The loop ends within the slice; every operation
    on the page comes after its dependencies; and when nothing ends the slice, no head is
    left behind. *)

From S2P Require Import Prelude Ids Pages ClockSpec Types Records StoreReads Integrity Requests.
From S2P Require Import Programs Slices Repair Pager PagerInv PagerMoves PagerSteps PagerFill PagerWait.

#[local] Open Scope N_scope.
Set Default Proof Using "Type".

(** ** Records *)

Section records.
Context `{SZ : !Sizes} {R : Type} `{!PageRead R} (others : nat → RecordPool → RecordPool).
Implicit Types (rs : Records) (rec : PageRecord) (i : OpId).

Definition sub_records rs rs' : Prop := rs_records rs' ⊆ rs_records rs.
#[local] Instance sub_records_preorder : PreOrder sub_records.
Proof. unfold sub_records. split; [intros x; reflexivity|intros x y z Hxy Hyz; by etrans]. Qed.

Lemma access_records {A} (f : RecordPool → A * RecordPool) rs : rs_records (access others f rs).2 = rs_records rs.
Proof. unfold access. by destruct (f _). Qed.
Lemma claim_drop_records c rs : rs_records (claim_drop others c rs) = rs_records rs.
Proof. unfold claim_drop. rewrite access_records. destruct (cl_cached c); [by rewrite access_records|done]. Qed.

Lemma evict_sub rs : sub_records rs (evict others rs).2.
Proof.
  unfold evict. destruct (bt_entries (rs_records rs)) as [|[i rec] l]; [done|]. unfold sub_records. simpl.
  rewrite claim_drop_records. apply delete_subseteq.
Qed.
Lemma reserve_loop_sub fuel bytes rs : sub_records rs (reserve_loop others fuel bytes rs).2.
Proof.
  revert rs. induction fuel as [|fuel IH]; intros rs; cbn [reserve_loop];
    (destruct (access others (reserve_live bytes) rs) as [granted rs1] eqn:Hac; assert (rs_records rs1 = rs_records rs) as Hrs
       by by rewrite -(access_records (reserve_live bytes) rs) Hac); destruct granted; try (unfold sub_records; by rewrite Hrs);
    pose proof (evict_sub rs1) as Hev; destruct (evict others rs1) as [evicted rs2]; simpl in *.
  - unfold sub_records in *. by rewrite -Hrs.
  - destruct evicted; [etrans; [|apply IH]|]; unfold sub_records in *; by rewrite -Hrs.
Qed.
Lemma shrink_loop_sub fuel bytes rs : sub_records rs (shrink_loop others fuel bytes rs).
Proof.
  revert rs. induction fuel as [|fuel IH]; intros rs; cbn [shrink_loop]; [done|]. destruct (_ <? _); [|done].
  pose proof (evict_sub rs) as Hev. destruct (evict others rs) as [[] rs2]; [|done]. etrans; [exact Hev|apply IH].
Qed.

(** What [keep_record] leaves: records that were there, and the one it keeps. *)
Lemma keep_record_in rec rs i rec' :
  rs_records (keep_record others rec rs) !! i = Some rec' →
  rs_records rs !! i = Some rec' ∨ i = op_id (rec_op rec) ∧ rec_op rec' = rec_op rec.
Proof.
  unfold keep_record. destruct (_ <? _); [rewrite claim_drop_records; by left|].
  set (rs1 := match rs_records rs !! _ with Some _ => _ | None => _ end).
  assert (sub_records rs rs1) as H1.
  { unfold rs1, sub_records. destruct (rs_records rs !! op_id (rec_op rec)); [|done]. rewrite claim_drop_records. apply delete_subseteq. }
  pose proof (shrink_loop_sub (S (size (rs_records rs1))) (cl_bytes (rec_claim rec)) rs1) as H2.
  set (rs2 := shrink_loop _ _ _ _) in *.
  destruct (access others (reserve_cached (cl_bytes (rec_claim rec)) _) rs2) as [granted rs3] eqn:Hac.
  assert (rs_records rs3 = rs_records rs2) as H3 by by rewrite -(access_records (reserve_cached (cl_bytes (rec_claim rec)) (POOL_BYTES - 2 * charge MAX_PAGE_BYTES)) rs2) Hac.
  assert (∀ rec', rs_records rs3 !! i = Some rec' → rs_records rs !! i = Some rec') as Hin.
  { intros r Hr. rewrite H3 in Hr. eapply lookup_weaken; [by eapply lookup_weaken|done]. }
  destruct granted.
  - simpl. intros [[<- <-]|[_ ?]]%lookup_insert_Some; [by right|left; auto].
  - rewrite claim_drop_records. left. auto.
Qed.

(** What [take_record] gives and leaves. *)
Lemma take_record_spec (r : R) i sl rs l sl' rs' :
  take_record others r i sl rs = (l, sl', rs') →
  slice_le sl sl' ∧ sub_records rs rs' ∧
  match l with
  | Loaded rec => (∃ rec0, rs_records rs !! i = Some rec0 ∧ rec_op rec0 = rec_op rec) ∨
                  ∃ n, rd_reserved_op r i = Ok (Some (n, Ok (Some (rec_op rec))))
  | Absent => rd_reserved_op r i = Ok None ∨ ∃ n, rd_reserved_op r i = Ok (Some (n, Ok None))
  | _ => True
  end.
Proof.
  unfold take_record. destruct (rs_records rs !! i) as [rec|] eqn:Hrec.
  { intros [= <- <- <-]. split_and!; [done|apply delete_subseteq|left; by exists rec]. }
  destruct (rd_reserved_op r i) as [[[n rd]|]|e] eqn:Hrd; [|intros [= <- <- <-]; split_and!; [done|done|by left]|by intros [= <- <- <-]].
  destruct (reserve_op others n sl rs) as [[rv sl1] rs1] eqn:Hrv.
  assert (slice_le sl sl1 ∧ sub_records rs rs1) as [Hle Hsub].
  { unfold reserve_op in Hrv. destruct (_ <? _); [by simplify_eq|].
    destruct (charge_decode sl n) as [[[] sl2]|] eqn:Hd; [|by simplify_eq; split; [eapply charge_decode_le|]|by simplify_eq].
    pose proof (reserve_loop_sub (size (rs_records rs)) (charge n) rs) as Hsub.
    destruct (reserve_loop others (size (rs_records rs)) (charge n) rs) as [[] rs2]; simplify_eq; (split; [by eapply charge_decode_le|done]). }
  assert (∀ c, sub_records rs (claim_drop others c rs1)) as Hdrop by (intros c; unfold sub_records; by rewrite claim_drop_records).
  destruct rv as [c| |e]; [|by intros [= <- <- <-]|by intros [= <- <- <-]].
  destruct rd as [[op|]|e].
  - unfold fit_claim. destruct (serialized_size op) as [z|e]; [destruct (_ <? _)|]; intros [= <- <- <-]; (split_and!; [done| |try done]).
    + apply Hdrop.
    + done.
    + right. by exists n.
    + apply Hdrop.
  - intros [= <- <- <-]. split_and!; [done|apply Hdrop|right; by exists n].
  - intros [= <- <- <-]. split_and!; [done|apply Hdrop|done].
Qed.
End records.

(** ** The parts of an iteration *)

Section plan.
Context {C : Type} `{!ClockImpl C} `{SZ : !Sizes} {R : Type} `{!SnapshotRead R} `{!PageRead R}.
Context (others : nat → RecordPool → RecordPool).
Context (read : R) (t : TopicId) (local : C) (goal : option C) (scope : ActorScope C) (sent : gset OpId).
Context (window position_limit : nat).
Context (Hco : coherent read t) (wanted : ActorId → Prop) (stopped_before : Prop).
Context (top : ActorId → N) (flawless : Prop).
Context (Hwhole : flawless → whole read t top) (Hlimit : flawless → ∀ a, limit local goal a ≤ top a).
Context (Hlocal : flawless → informed scope = true ∨ ∀ a, top a ≤ ck_get local a).
Implicit Types (w : Walk C) (p q : Pager C) (H : OpId → Prop) (a : ActorId) (h : RangeHead) (i d : OpId).
Implicit Types (hand : list chain).
Local Abbreviation lim := (limit local goal).
Local Abbreviation head_ok := (head_ok read t).
Local Abbreviation winv := (winv read t local goal wanted stopped_before top flawless).
Local Abbreviation pinv := (pinv read t local goal wanted stopped_before top flawless).

(** What the parts of an iteration leave as it is. *)
Record stays p q : Prop := {
  st_slice : slice_le (pg_slice p) (pg_slice q);
  st_active : w_active (pg_walk q) = w_active (pg_walk p);
  st_selecting : w_selecting (pg_walk q) = w_selecting (pg_walk p);
  st_covered : ∀ a, covers (pg_walk p) a ≤ covers (pg_walk q) a;
  st_ended : pg_ended q = pg_ended p;
}.
#[local] Instance stays_preorder : PreOrder stays.
Proof.
  clear. split; [by split|]. intros p1 p2 p3 [] []. split; [by etrans|congruence|congruence| |congruence].
  intros a. by etrans; [apply st_covered0|].
Qed.

Lemma stays_mu p q : stays p q → (mu q ≤ mu p)%nat.
Proof. clear. intros []. pose proof (work_left_le _ _ st_slice0). unfold mu. rewrite st_active0. lia. Qed.

Lemma stays_head p q h : stays p q → head_ok (pg_walk p) h → head_ok (pg_walk q) h.
Proof. clear. intros [] [? Hs]. split; [done|]. specialize (st_covered0 (h_actor h)). lia. Qed.

Lemma steady_stays H p q : steady read t H p q → stays p q.
Proof. clear. intros [? [] ? ? ?]. by split. Qed.

(** The records may change as long as they are those of the store. *)
Lemma winv_records H more hand w rs :
  (∀ i rec, rs_records rs !! i = Some rec → record_ok read i (rec_op rec)) →
  winv H more hand w → winv H more hand (w_set_records w rs).
Proof.
  intros Hrs Hi. pose proof (winv_safe _ _ _ _ _ _ _ _ _ _ _ _ Hi) as Hs.
  assert (same_chains w (w_set_records w rs)) as Hsame by by split.
  eapply winv_same; [done| |done]. eapply safe_same; [done|done|apply Hs|apply Hs|done].
Qed.

Lemma winv_sub_records H more hand w rs :
  rs_records rs ⊆ rs_records (w_records w) → winv H more hand w → winv H more hand (w_set_records w rs).
Proof.
  intros Hsub Hi. apply winv_records; [|done]. intros i rec Hrec.
  eapply (sf_records _ _ _ _ (winv_safe _ _ _ _ _ _ _ _ _ _ _ _ Hi)). by eapply lookup_weaken.
Qed.

Lemma load_spec H hand i p :
  (∃ m, at_header read t i m) → pinv H hand p →
  wp (load others read i) (λ r q, stays p q ∧ w_updates (pg_walk q) = w_updates (pg_walk p) ∧ pinv H hand q ∧ match r with
    | Some (Loaded rec) => record_ok read i (rec_op rec)
    | Some Absent => ¬ flawless
    | _ => True end) p.
Proof using Type Hco Hwhole.
  intros [m Hm] Hi. unfold load. do 2 pg_step. pg_step.
  assert (∀ sl, slice_le (pg_slice p) sl →
    wp (l ← state (λ p, let '(l, sl, rs) := take_record others read i (pg_slice p) (w_records (pg_walk p)) in
                        (l, set_slice (set_walk p (w_set_records (pg_walk p) rs)) sl)); mret (Some l))
      (λ r q, stays p q ∧ w_updates (pg_walk q) = w_updates (pg_walk p) ∧ pinv H hand q ∧ match r with
       | Some (Loaded rec) => record_ok read i (rec_op rec)
       | Some Absent => ¬ flawless
       | _ => True end) (set_slice p sl)) as Hgo.
  { intros sl Hle. do 3 pg_step. simpl. destruct (take_record others read i sl (w_records (pg_walk p))) as [[l sl'] rs'] eqn:Ht.
    apply take_record_spec in Ht as (Hle' & Hsub & Hl). simpl. split_and!; [split; simpl; [by etrans|done..]|done|by apply winv_sub_records|].
    destruct l as [rec| | |]; try done.
    - destruct Hl as [(rec0 & Hrec & <-)|[n Hn]].
      + by apply (sf_records _ _ _ _ (winv_safe _ _ _ _ _ _ _ _ _ _ _ _ Hi)).
      + destruct (co_op _ _ Hco _ _ _ Hn) as [Hid Hds]. by split_and!; [..|exists n].
    - intros Hfl. destruct (wh_op _ _ _ (Hwhole Hfl) _ _ Hm) as [Hop1 Hop2]. destruct Hl as [?|[n ?]]; [done|by eapply Hop2]. }
  destruct (contains_record _ _).
  - pg_step. cbn [negb]. specialize (Hgo (pg_slice p)). rewrite set_slice_id in Hgo. by apply Hgo.
  - apply wp_charge_read. intros [] sl Hle _ _; cbn [negb]; [by apply Hgo|]. pg_step. by split_and!; [split|..].
Qed.

(** A record goes back, or is dropped. *)
Lemma keep_spec H hand rec p (Q : unit → Pager C → Prop) :
  record_ok read (op_id (rec_op rec)) (rec_op rec) → pinv H hand p →
  (∀ q, stays p q → w_updates (pg_walk q) = w_updates (pg_walk p) → pinv H hand q → w_covered (pg_walk q) = w_covered (pg_walk p) → Q () q) →
  wp (keep others rec) Q p.
Proof.
  intros Hrec Hi HQ. unfold keep. pg_step. apply HQ; [by split|done| |done]. apply winv_records; [|done].
  intros i rec' [Hin|[-> ->]]%keep_record_in; [|done]. by apply (sf_records _ _ _ _ (winv_safe _ _ _ _ _ _ _ _ _ _ _ _ Hi)).
Qed.
Lemma drop_record_spec H hand rec p (Q : unit → Pager C → Prop) :
  pinv H hand p → (∀ q, stays p q → pinv H hand q → Q () q) → wp (drop_record others rec) Q p.
Proof.
  intros Hi HQ. unfold drop_record. pg_step. apply HQ; [by split|]. apply winv_sub_records; [|done]. by rewrite claim_drop_records.
Qed.

(** The chain in hand is given up. *)
Lemma block_head_spec H hand h p (Q : unit → Pager C → Prop) :
  ¬ flawless → pinv H (head_chain h :: hand) p → (∀ q, stays p q → pinv H hand q → Q () q) →
  wp (block (h_actor h) (h_id h)) Q p.
Proof.
  intros Hfl Hi HQ. unfold block, stop. repeat pg_step. set (w' := w_set_blocked _ _). apply HQ.
  - split; simpl; [done| | | |done]; subst w'; unfold stopped, put_update; case_bool_decide; done.
  - eapply winv_stopped; [done|]. by apply winv_set_blocked.
Qed.

(** The chain in hand goes on after [s], or has reached its limit. *)
Lemma go_on_spec H hand a s s' l p (Q : unit → Pager C → Prop) :
  s ≤ covers (pg_walk p) a → pinv H ((a, s', l) :: hand) p → (∀ q, stays p q → pinv H hand q → Q () q) →
  wp (go_on scope a s l) Q p.
Proof. clear Hlocal.
  intros Hs Hi HQ. unfold go_on, wake. do 2 pg_step.
  assert (∀ sl, slice_le (pg_slice p) sl → s < l →
    Q () (set_walk (set_slice p sl) (activated a s l (put_update a (Wake a s 0) (pg_walk p))))) as Hgo.
  { intros sl Hle Hl. apply HQ; [|by eapply winv_passed]. split; simpl; [done| | | |done];
      unfold put_update, activated, covers; case_bool_decide; done. }
  destruct (N.ltb_spec s l) as [Hl|Hl].
  - unfold activate. do 3 pg_step. case_bool_decide; [pg_step; pg_step; specialize (Hgo (pg_slice p)); rewrite set_slice_id in Hgo; by apply Hgo|].
    apply wp_reserve. intros sl Hle. pg_step. by apply Hgo.
  - unfold reach. pg_step. apply HQ; [|eapply winv_reached; [lia|done|done]].
    split; simpl; [done| | | |done]; unfold put_update, reached, covers; case_bool_decide; simpl;
      case_bool_decide; try done; destruct (informed scope); done.
Qed.

(** A head does not wait for its own chain. *)
Lemma other_chain w h a n d :
  head_ok w h → covers w a < n → at_pos read t d a n → older read t d (h_id h) → h_actor h ≠ a.
Proof using Type Hco.
  intros [(m & Hm & Ha & Hs & _) Hle] Hn Hd Hold <-.
  assert (at_pos read t (h_id h) (h_actor h) (h_seq h)) as Hh by by exists m.
  destruct Hd as (md & Hmd & Hda & Hds). pose proof (Hold _ _ Hmd Hm) as Hlt.
  destruct (decide (h_seq h = n)) as [Heq|Hne].
  - assert (h_id h = d) as <-. { eapply (co_unique _ _ Hco); [exact Hh|]. exists md. by rewrite Heq. }
    rewrite (at_header_unique _ _ _ _ _ Hmd Hm) in Hlt. lia.
  - assert (at_pos read t d (h_actor h) n) as Hd by by exists md.
    pose proof (co_chain _ _ Hco _ _ _ _ _ Hh Hd ltac:(lia) _ _ Hm Hmd). lia.
Qed.

(** Every chain of a plan is at most one position ahead of what is covered. *)
Lemma chains_next H more w a s l : winv H more [] w → chains [] w (a, s, l) → s ≤ covers w a + 1.
Proof.
  intros Hi%winv_safe [?%elem_of_nil|[(sc & Hin & [= -> -> ->])|(h & Hin & [= -> -> ->])]]; [done| |].
  - destruct (sf_pending _ _ _ _ Hi _ Hin) as [? _]. lia.
  - by destruct (sf_heads _ _ _ _ Hi _ Hin).
Qed.

(** The head in hand is suspended until [a] is at [n]. *)
Definition waits_for w h a n : Prop := covers w a < n ∧ ∃ d, at_pos read t d a n ∧ older read t d (h_id h).

Lemma park_spec H h a n p (Q : unit → Pager C → Prop) :
  head_ok (pg_walk p) h → waits_for (pg_walk p) h a n → (∀ u, u ∈ w_updates (pg_walk p) → ∃ b, u = Stop b) →
  w_states (pg_walk p) !! a ≠ Some Blocked → (∃ s l, chains [] (pg_walk p) (a, s, l) ∧ s ≤ covers (pg_walk p) a + 1) →
  pinv H [head_chain h] p → (∀ q, stays p q → pinv H [] q → Q () q) → wp (park h a n) Q p.
Proof.
  intros Hok [Hn Hd] Hst Hnb (s & l & Hc & Hs) Hi HQ. unfold park. do 2 pg_step.
  destruct (w_states (pg_walk p) !! a) as [[]|] eqn:Ha; try done; (pg_step; apply HQ; [by split|];
    eapply winv_parked; [done| |done|done|done]; exists s, l; split; [done|lia]).
Qed.

Lemma activate_park_spec H h a n after l p (Q : unit → Pager C → Prop) :
  head_ok (pg_walk p) h → waits_for (pg_walk p) h a n → (∀ u, u ∈ w_updates (pg_walk p) → ∃ b, u = Stop b) →
  after ≤ covers (pg_walk p) a → n ≤ l → (flawless → l ≤ top a) →
  (lim a ≤ l ∨ done_for lim (given_up stopped_before (pg_more p)) [head_chain h] (pg_walk p) a) →
  pinv H [head_chain h] p → (∀ q, stays p q → pinv H [] q → Q () q) → wp (_ ← activate a after l; park h a n) Q p.
Proof.
  intros Hok Hw Hst Hafter Hnl Htop Hdone Hi HQ. pose proof Hw as [Hn _]. pg_step.
  apply (activate_spec read t local goal wanted stopped_before top flawless H [head_chain h]); [done| |].
  { apply winv_gain; [|intros Hfl; split; simpl; [lia|auto]|done]. destruct Hdone as [Hl|Hdone].
    - right; right; right. exists (after + 1), l. split; [by left; left|done].
    - destruct Hdone as [?|[?|[?|(s & l' & [Hin|?] & ?)]]]; [by left|by right; left|by right; right; left|right; right; right..];
        exists s, l'; (split; [|done]); [left; by right|by right]. }
  intros sl Hle Hi'. eapply (park_spec H); [by destruct Hok|by destruct Hw|done| | |done|].
  - simpl. by rewrite lookup_insert_eq.
  - exists (after + 1), l. split; [|change (after + 1 ≤ covers (pg_walk p) a + 1); lia].
    right; left. exists (scan_from a after l). split; [simpl; apply elem_of_app; right; by left|done].
  - intros q [] Hi2. apply HQ; [|done]. simpl in *. split; [by etrans|done..].
Qed.

Lemma suspend_spec H h a n p (Q : unit → Pager C → Prop) :
  head_ok (pg_walk p) h → waits_for (pg_walk p) h a n → (∀ u, u ∈ w_updates (pg_walk p) → ∃ b, u = Stop b) →
  pinv H [head_chain h] p → (∀ q, stays p q → pinv H [] q → Q () q) → wp (suspend local goal scope h a n) Q p.
Proof using Type Hco Hwhole Hlimit Hlocal.
  intros Hok Hw Hst Hi HQ. pose proof Hw as (Hn & d & Hd & Hold). unfold suspend. do 2 pg_step.
  pose proof (winv_safe _ _ _ _ _ _ _ _ _ _ _ _ Hi) as Hsafe. pose proof (wi_inv _ _ _ _ _ _ _ _ _ _ _ _ Hi) as Hinv.
  pose proof (other_chain _ _ _ _ _ Hok Hn Hd Hold) as Hne.
  assert (flawless → n ≤ top a) as Htop by (intros Hfl; by eapply wh_top; [apply Hwhole|]).
  assert (∀ x, w_states (pg_walk p) !! a = Some x → live x → wp (park h a n) Q p) as Hpark.
  { intros x Hx Hlive. destruct (wt_live _ _ _ _ (iv_waits _ _ _ _ _ _ _ _ Hinv) a x Hx Hlive) as (s & l & Hc).
    assert (chains [] (pg_walk p) (a, s, l)) as Hc'.
    { destruct Hc as [Hc%list_elem_of_singleton|?]; [|by right]. injection Hc as -> _ _. done. }
    eapply (park_spec H); [done|done|done| | |done|done].
    - intros Heq. rewrite Heq in Hx. destruct Hlive as [->| ->]; done.
    - exists s, l. split; [done|]. destruct Hc' as [?%elem_of_nil|[(sc & Hin & [= -> -> ->])|(h' & Hin & [= -> -> ->])]]; [done| |].
      + destruct (sf_pending _ _ _ _ Hsafe _ Hin) as [? _]. lia.
      + by destruct (sf_heads _ _ _ _ Hsafe _ Hin). }
  destruct (w_states (pg_walk p) !! a) as [[| |l|]|] eqn:Ha.
  - eapply Hpark; [done|by left].
  - eapply Hpark; [done|by right].
  - pose proof (sf_reached _ _ _ _ Hsafe _ _ Ha) as Hl. destruct (_ || _) eqn:Hgive.
    + eapply (block_head_spec H []); [|done|done]. intros Hfl. apply orb_true_iff in Hgive as [Hgive%N.leb_le|Hgive]; [lia|].
      apply andb_true_iff in Hgive as [Hinf Hgive%N.ltb_lt]. specialize (Htop Hfl).
      destruct (Hlocal Hfl) as [Hx|Hx]; [by rewrite Hx in Hinf|specialize (Hx a); lia].
    + eapply (activate_park_spec H); [done|done|done|done|done|done| |done|done].
      right. apply (gl_busy _ _ _ _ _ (iv_goals _ _ _ _ _ _ _ _ Hinv)). left. by rewrite Ha.
  - eapply (block_head_spec H []); [|done|done]. intros Hfl. destruct (wi_calm _ _ _ _ _ _ _ _ _ _ _ _ Hi Hfl) as [Hcalm _].
    by apply (cm_states _ _ _ _ Hcalm) in Ha.
  - do 2 pg_step. eapply (activate_park_spec H); [done|done|done|done|lia| | |done|done].
    + intros Hfl. specialize (Htop Hfl). specialize (Hlimit Hfl a). lia.
    + left. lia.
Qed.

(** ** The page *)

Context (has : OpId → Prop).
Context (Hknown : ∀ a k, known_prefix scope a = Some k → below read t has a k).
Context (Hholds : ∀ a s, holds_prefix scope a s = true → below read t has a s).
Context (Hsent : ∀ d, d ∈ sent → has d).
Context (budget : PageBudget).
Implicit Types (ops : list Op) (op : Op) (bytes : N).

(** What the peer has once it applied these operations. *)
Definition had ops i : Prop := has i ∨ i ∈ op_id <$> ops.

Lemma had_snoc ops op i : had (ops ++ [op]) i ↔ had ops i ∨ i = op_id op.
Proof. clear. unfold had. rewrite fmap_app elem_of_app /= list_elem_of_singleton. tauto. Qed.

Definition op_size op : N := match serialized_size op with Ok n => n | Err _ => 0 end.
Fixpoint page_size ops : N := match ops with [] => 0 | op :: ops => op_size op + page_size ops end.
Lemma page_size_snoc ops op : page_size (ops ++ [op]) = page_size ops + op_size op.
Proof. clear. induction ops as [|x ops IH]; simpl; [lia|]. rewrite IH. lia. Qed.

(** The page stays within its budget. *)
Definition within ops bytes : Prop :=
  N.of_nat (length ops) ≤ pb_ops budget ∧ bytes = page_size ops ∧ bytes ≤ pb_bytes budget.

(** Dependencies and earlier positions come first, nothing comes twice, and what comes is
    what the store has. *)
Record page_ok w ops : Prop := {
  pk_causal : ∀ k op d, ops !! k = Some op → d ∈ deps (obody op) → had (take k ops) d;
  pk_chain : ∀ k op a s i s', ops !! k = Some op → at_pos read t (op_id op) a s → at_pos read t i a s' → s' < s → had (take k ops) i;
  pk_nodup : NoDup (op_id <$> ops);
  pk_here : ∀ op, op ∈ ops → record_ok read (op_id op) op ∧ ∃ a s, at_pos read t (op_id op) a s ∧ s ≤ covers w a;
}.

Lemma page_ok_nil w : page_ok w [].
Proof. clear. split; [by intros ?|by intros ?|constructor|by intros ? ?%elem_of_nil]. Qed.

Lemma page_ok_covers w w' ops : (∀ a, covers w a ≤ covers w' a) → page_ok w ops → page_ok w' ops.
Proof.
  clear. intros Hc []. split; [done..|]. intros op Hop. destruct (pk_here0 op Hop) as (? & a & s & ? & ?).
  split; [done|]. exists a, s. split; [done|]. specialize (Hc a). lia.
Qed.

Lemma at_pos_same i a s a' s' : at_pos read t i a s → at_pos read t i a' s' → a' = a ∧ s' = s.
Proof. clear. intros (m & Hm & <- & <-) (m' & Hm' & <- & <-). by rewrite (at_header_unique _ _ _ _ _ Hm Hm'). Qed.

(** A position that is not covered is not on the page. *)
Lemma page_ok_fresh w ops i a s : page_ok w ops → at_pos read t i a s → covers w a < s → i ∉ op_id <$> ops.
Proof.
  clear. intros [_ _ _ Kh] Hpos Hlt (x & -> & Hx)%list_elem_of_fmap. destruct (Kh x Hx) as (_ & b & s' & Hb & Hs').
  destruct (at_pos_same _ _ _ _ _ Hpos Hb) as [-> ->]. lia.
Qed.

Lemma lookup_snoc {A} (l : list A) (y : A) k x : (l ++ [y]) !! k = Some x →
  l !! k = Some x ∧ take k (l ++ [y]) = take k l ∨ x = y ∧ take k (l ++ [y]) = l.
Proof.
  clear. intros [Hk|[Hk Hx]]%lookup_app_Some.
  - left. split; [done|]. apply lookup_lt_Some in Hk. rewrite take_app_le; [lia|done].
  - right. apply list_lookup_singleton_Some in Hx as [Hk' ->]. split; [done|].
    replace k with (length l) by lia. by rewrite take_app_length.
Qed.

Lemma page_ok_snoc w w' ops op a s :
  page_ok w ops → (∀ b, covers w b ≤ covers w' b) → record_ok read (op_id op) op → at_pos read t (op_id op) a s →
  op_id op ∉ op_id <$> ops → s ≤ covers w' a → (∀ d, d ∈ deps (obody op) → had ops d) →
  (∀ i s', at_pos read t i a s' → s' < s → had ops i) → page_ok w' (ops ++ [op]).
Proof.
  clear. intros [Kc Kch Kn Kh] Hcov Hrec Hpos Hlt Hle Hdeps Hchain. split.
  - intros k x d [[Hx ->]|[-> ->]]%lookup_snoc; [by apply Kc|by apply Hdeps].
  - intros k x b s1 i s2 [[Hx ->]|[-> ->]]%lookup_snoc Hb Hi Hs; [by eapply Kch|].
    destruct (at_pos_same _ _ _ _ _ Hpos Hb) as [-> ->]. by eapply Hchain.
  - rewrite fmap_app. apply NoDup_app. split_and!; [done| |apply NoDup_singleton].
    intros i Hin ->%list_elem_of_singleton. done.
  - intros x [Hx| ->%list_elem_of_singleton]%elem_of_app.
    + destruct (Kh x Hx) as (? & b & s' & ? & ?). split; [done|]. exists b, s'. split; [done|]. specialize (Hcov b). lia.
    + split; [done|]. by exists a, s.
Qed.

(** ** The loop *)

Definition only_stops w : Prop := ∀ u, u ∈ w_updates w → ∃ b, u = Stop b.

(** Nothing is left but heads that wait. *)
Record drained w : Prop := {
  dr_active : w_active w = [];
  dr_pending : w_pending w = [];
  dr_resumable : w_resumable w = [];
  dr_deferred : w_deferred w = [];
  dr_selecting : w_selecting w = None;
  dr_updates : only_stops w;
}.

Record plan_post p0 (r : list Op * option OpId) p : Prop := {
  po_slice : slice_le (pg_slice p0) (pg_slice p);
  po_page : page_ok (pg_walk p) r.1;
  po_within : within r.1 (page_size r.1);
  po_sel : sel_inv (pg_walk p);
  po_inv : ∃ m, (m = true → pg_more p = true) ∧ (pg_ended p = false → m = pg_more p) ∧ winv (had r.1) m [] (pg_walk p);
  po_end : pg_ended p = true ∨ drained (pg_walk p);
}.

Record going p0 ops bytes p : Prop := {
  go_slice : slice_le (pg_slice p0) (pg_slice p);
  go_inv : pinv (had ops) [] p;
  go_sel : sel_inv (pg_walk p);
  go_ended : pg_ended p = false;
  go_page : page_ok (pg_walk p) ops;
  go_within : within ops bytes;
}.

Definition step_post p0 (left : nat) (r : (list Op * N) + (list Op * option OpId)) p : Prop :=
  match r with
  | inl (ops, bytes) => going p0 ops bytes p ∧ (mu p < left)%nat
  | inr r => plan_post p0 r p
  end.

(** The lowest head is in hand. *)
Record holding p0 left ops bytes h p : Prop := {
  ho_slice : slice_le (pg_slice p0) (pg_slice p);
  ho_inv : pinv (had ops) [head_chain h] p;
  ho_head : head_ok (pg_walk p) h;
  ho_selecting : w_selecting (pg_walk p) = None;
  ho_ended : pg_ended p = false;
  ho_page : page_ok (pg_walk p) ops;
  ho_within : within ops bytes;
  ho_stops : only_stops (pg_walk p);
  ho_left : (mu p < left)%nat;
}.

Lemma holding_stays p0 left ops bytes h p q :
  holding p0 left ops bytes h p → stays p q → pinv (had ops) [head_chain h] q →
  w_updates (pg_walk q) = w_updates (pg_walk p) → holding p0 left ops bytes h q.
Proof.
  intros [] Hst Hi Hu. pose proof (stays_mu _ _ Hst). pose proof Hst as []. split.
  - by etrans.
  - done.
  - by eapply stays_head.
  - congruence.
  - congruence.
  - by eapply page_ok_covers.
  - done.
  - unfold only_stops. by rewrite Hu.
  - lia.
Qed.

Lemma holding_done p0 left ops bytes h p q :
  holding p0 left ops bytes h p → stays p q → pinv (had ops) [] q → step_post p0 left (inl (ops, bytes)) q.
Proof.
  intros [] Hst Hi. pose proof (stays_mu _ _ Hst). pose proof Hst as []. split; [split|lia].
  - by etrans.
  - done.
  - rewrite /sel_inv st_selecting0 ho_selecting0. by intros [].
  - congruence.
  - by eapply page_ok_covers.
  - done.
Qed.

(** The head goes back and the page ends; [b] when the page is full. *)
Lemma put_back_spec p0 left ops bytes h x (b : bool) p :
  holding p0 left ops bytes h p → wp (put_back h ops x) (step_post p0 left) (if b then set_more p true else p).
Proof.
  intros []. unfold put_back. repeat pg_step. destruct ho_within0 as (Hw1 & -> & Hw2).
  assert (pg_walk (if b then set_more p true else p) = pg_walk p ∧ pg_slice (if b then set_more p true else p) = pg_slice p) as [Hwk Hsl]
    by by destruct b.
  split; simpl; rewrite ?Hwk ?Hsl.
  - done.
  - by eapply page_ok_covers; [|exact ho_page0].
  - done.
  - rewrite /sel_inv /= ho_selecting0. by intros [].
  - exists (pg_more p). split_and!; [by intros Hm; destruct b|done|]. by apply winv_push_active.
  - by left.
Qed.

(** A head whose dependencies are there is sent. *)
Lemma send_spec p0 left ops bytes h rec p :
  holding p0 left ops bytes h p → h_id h ∉ op_id <$> ops → record_ok read (h_id h) (rec_op rec) →
  (∀ d, d ∈ deps (obody (rec_op rec)) → had ops d) →
  wp (send others scope budget h rec ops bytes) (step_post p0 left) p.
Proof using Type Hco.
  intros Hold Hfresh Hrec Hdeps. unfold send. pg_step. apply wp_try. intros size Hsize.
  assert (op_size (rec_op rec) = size) as Hsz by by rewrite /op_size Hsize.
  destruct (_ <? _); [by apply wp_try|]. pose proof Hrec as [Hid _].
  destruct (_ || _) eqn:Hfull.
  - pg_step. eapply (keep_spec (had ops) [head_chain h]); [by rewrite Hid|apply Hold|]. intros q Hst Hu Hi _.
    do 2 pg_step. apply (put_back_spec _ _ _ bytes _ _ true). by eapply holding_stays.
  - apply orb_false_iff in Hfull as [Hf1%N.leb_gt Hf2%N.ltb_ge].
    pose proof Hold as [Ho1 Hi [Hhere Hnext] Ho4 Ho5 Hpage [Hw1 [Hw2 Hw3]] Ho8 Hleft].
    pose proof Hhere as (m & Hm & Ha & Hs & Hg). set (a := h_actor h) in *. set (s := h_seq h) in *.
    assert (at_pos read t (h_id h) a s) as Hpos by by exists m.
    assert (below read t (had (ops ++ [rec_op rec])) a s) as Hbelow.
    { intros j s' Hj Hs'. apply had_snoc. destruct (decide (s' = s)) as [->|].
      - right. rewrite Hid. by eapply (co_unique _ _ Hco).
      - left. eapply (sf_covered _ _ _ _ (winv_safe _ _ _ _ _ _ _ _ _ _ _ _ Hi)); [done|]. lia. }
    unfold observe. do 4 pg_step. do 2 pg_step. simpl.
    match goal with |- wp _ _ ?q => set (p1 := q) end.
    assert (pinv (had (ops ++ [rec_op rec])) [head_chain h] p1) as Hi1.
    { apply winv_sub_records; [by rewrite claim_drop_records|]. apply winv_unblocked.
      eapply winv_same; [apply observed_same| |exact Hi]. apply safe_observed; [|done].
      eapply safe_mono; [|by eapply winv_safe]. intros j Hj. apply had_snoc. by left. }
    assert (∀ b, covers (pg_walk p1) b = if decide (a = b) then N.max (covers (pg_walk p) b) s else covers (pg_walk p) b) as Hcov
      by (intros b; apply covers_observed).
    assert (s ≤ covers (pg_walk p1) a) as Hcova by (rewrite Hcov decide_True //; lia).
    pg_step. eapply (go_on_spec (had (ops ++ [rec_op rec])) [] a s s (h_limit h)); [exact Hcova|exact Hi1|].
    intros q Hst Hiq. pg_step. pose proof (stays_mu _ _ Hst) as Hmu. pose proof Hst as [].
    assert (w_active (pg_walk p1) = w_active (pg_walk p) ∧ w_selecting (pg_walk p1) = w_selecting (pg_walk p)) as [Hact Hsel].
    { subst p1. simpl. unfold observed. by destruct (_ <? _). }
    split; [split|].
    + etrans; [exact Ho1|done].
    + done.
    + rewrite /sel_inv st_selecting0 Hsel Ho4. by intros [].
    + by rewrite st_ended0.
    + eapply (page_ok_snoc (pg_walk p)); [done| |by rewrite Hid|by rewrite Hid|by rewrite Hid| |done|].
      * intros b. etrans; [|apply st_covered0]. rewrite Hcov. case_decide; lia.
      * etrans; [exact Hcova|apply st_covered0].
      * intros j s' Hj Hs'. eapply (sf_covered _ _ _ _ (winv_safe _ _ _ _ _ _ _ _ _ _ _ _ Hi)); [done|]. lia.
    + rewrite /within length_app page_size_snoc Hsz. simpl. lia.
    + unfold mu in *. rewrite Hact in Hmu. change (pg_slice p1) with (pg_slice p) in Hmu. lia.
Qed.

(** A head that is not covered. *)
Lemma offer_spec p0 left ops bytes h p :
  holding p0 left ops bytes h p → covers (pg_walk p) (h_actor h) < h_seq h →
  wp (offer others read local goal scope sent position_limit budget h ops bytes) (step_post p0 left) p.
Proof using Type Hco Hwhole Hlimit Hlocal Hknown Hholds Hsent.
  intros Hold Hlt. unfold offer. pose proof (ho_head _ _ _ _ _ _ Hold) as [(m & Hm & Ha & Hs & Hg) _].
  pg_step. eapply wp_mono; [apply (load_spec (had ops) [head_chain h]); [by exists m|apply Hold]|].
  intros r q (Hst & Hu & Hi & Hr). pose proof (holding_stays _ _ _ _ _ _ _ Hold Hst Hi Hu) as Hold'.
  assert (h_id h ∉ op_id <$> ops) as Hfresh.
  { eapply page_ok_fresh; [apply Hold| |exact Hlt]. by exists m. }
  destruct r as [[rec| | |e]|].
  - pose proof Hr as (Hid & Hds & _).
    pg_step. eapply wp_mono; [eapply (wait_for_spec read t scope sent position_limit Hco (had ops)) with (i := h_id h) (flawless := flawless)|].
    + intros a k Hk. eapply below_mono; [by apply Hknown|by left|done].
    + intros a k Hk. eapply below_mono; [by apply Hholds|by left|done].
    + intros d Hd. left. by apply Hsent.
    + by exists m.
    + exact Hds.
    + intros Hfl d Hd. by eapply (wh_deps _ _ _ (Hwhole Hfl)).
    + done.
    + done.
    + by eapply winv_safe.
    + intros Hfl. destruct (wi_calm _ _ _ _ _ _ _ _ _ _ _ _ Hi Hfl) as [[] _]. done.
    + intros x q2 [Hsd Hx].
      assert (holding p0 left ops bytes h q2) as Hold2.
      { eapply holding_stays; [exact Hold'|by eapply steady_stays| |apply (sm_updates _ _ (sd_same _ _ _ _ _ Hsd))].
        unfold PagerSteps.pinv. rewrite (sd_more _ _ _ _ _ Hsd).
        eapply winv_same; [apply (sd_same _ _ _ _ _ Hsd)|apply (sd_safe _ _ _ _ _ Hsd)|exact Hi]. }
      destruct x as [| | | |a n].
      * pg_step. eapply (keep_spec (had ops) [head_chain h]); [by rewrite Hid|apply Hold2|]. intros q3 Hst3 Hu3 Hi3 _.
        apply (put_back_spec _ _ _ bytes _ _ false). by eapply holding_stays.
      * pg_step. eapply (keep_spec (had ops) [head_chain h]); [by rewrite Hid|apply Hold2|]. intros q3 Hst3 Hu3 Hi3 _.
        apply (put_back_spec _ _ _ bytes _ _ false). by eapply holding_stays.
      * by apply send_spec.
      * pg_step. eapply (drop_record_spec (had ops) [head_chain h]); [apply Hold2|]. intros q3 Hst3 Hi3.
        pg_step. eapply (block_head_spec (had ops) []); [done|done|]. intros q4 Hst4 Hi4. pg_step.
        eapply holding_done; [exact Hold2|by etrans|done].
      * pg_step. eapply (keep_spec (had ops) [head_chain h]); [by rewrite Hid|apply Hold2|]. intros q3 Hst3 Hu3 Hi3 Hc3.
        pose proof (holding_stays _ _ _ _ _ _ _ Hold2 Hst3 Hi3 Hu3) as Hold3.
        pg_step. eapply (suspend_spec (had ops)); [apply (ho_head _ _ _ _ _ _ Hold3)| |apply (ho_stops _ _ _ _ _ _ Hold3)|done|].
        -- destruct Hx as [Hn Hd]. split; [|done]. by rewrite /covers Hc3.
        -- intros q4 Hst4 Hi4. pg_step. by eapply holding_done.
  - do 3 pg_step. assert (same_chains (pg_walk q) (put_missing (h_id h) (pg_walk q))) as Hsame by by split.
    eapply (block_head_spec (had ops) []); [done| |].
    + by apply winv_missing.
    + intros q2 Hst2 Hi2. pg_step. eapply holding_done; [exact Hold'| |done]. destruct Hst2. by split.
  - by apply (put_back_spec _ _ _ bytes _ _ false).
  - by apply wp_try.
  - by apply (put_back_spec _ _ _ bytes _ _ false).
Qed.

Lemma end_page_spec p0 left ops bytes p :
  slice_le (pg_slice p0) (pg_slice p) → pinv (had ops) [] p → sel_inv (pg_walk p) → page_ok (pg_walk p) ops → within ops bytes →
  wp (end_page ops) (step_post p0 left) p.
Proof.
  intros Hle Hi Hsel Hpage (Hw1 & -> & Hw2). unfold end_page. repeat pg_step. split; try done; [|by left].
  exists (pg_more p). by split_and!.
Qed.

Lemma same_page w w' ops : w_covered w' = w_covered w → page_ok w ops → page_ok w' ops.
Proof. intros Hc. apply page_ok_covers. intros a. by rewrite /covers Hc. Qed.

Context (Hwindow : (0 < window)%nat).

Lemma plan_step_spec p0 ops bytes p :
  going p0 ops bytes p →
  wp (plan_step others read t local goal scope sent window position_limit budget (ops, bytes)) (step_post p0 (mu p)) p.
Proof using Type Hco Hwhole Hlimit Hlocal Hknown Hholds Hsent Hwindow.
  intros []. unfold plan_step. do 2 pg_step. destruct (_ || _ || _); [by eapply end_page_spec|].
  pg_step. eapply wp_mono; [by apply (settle_spec read t local goal scope wanted stopped_before top flawless Hwhole Hlocal (had ops))|].
  intros [] p1 (Hle1 & Hh1 & Hi1 & Hsel1 & Hend1). injection Hh1 as Ha1 _ Hc1.
  assert (page_ok (pg_walk p1) ops) as Hpage1 by by eapply same_page.
  assert (mu p1 ≤ mu p)%nat as Hmu1 by (unfold mu; rewrite Ha1; pose proof (work_left_le _ _ Hle1); lia).
  do 2 pg_step. destruct (pg_ended p1) eqn:He1.
  { pg_step. destruct go_within0 as (? & -> & ?). split; [by etrans|done|done|done|by exists (pg_more p1)|by left]. }
  destruct Hend1 as [?|[_ Hup1]]; [done|].
  pg_step. eapply wp_mono; [by apply (fill_spec read t local goal window Hco wanted stopped_before top flawless Hwhole Hlimit (had ops))|].
  intros [] p2 (Hle2 & Hmu2 & [Hst2 Hc2] & Hi2 & Hsel2 & Hf2).
  assert (page_ok (pg_walk p2) ops) as Hpage2 by by eapply same_page.
  assert (slice_le (pg_slice p0) (pg_slice p2)) as Hle by (etrans; [done|by etrans]).
  assert (only_stops (pg_walk p2)) as Hstops.
  { intros u [Hin|?]%Hst2; [|done]. rewrite Hup1 in Hin. by apply elem_of_nil in Hin. }
  do 2 pg_step. destruct (pg_ended p2 || _ || _) eqn:Hstop; [by eapply end_page_spec|].
  apply orb_false_iff in Hstop as [[He2 Hsel%bool_decide_eq_false]%orb_false_iff Hex].
  assert (w_selecting (pg_walk p2) = None) as Hnone by (destruct (w_selecting (pg_walk p2)); [destruct Hsel; by eexists|done]).
  destruct (w_active (pg_walk p2)) as [|h rest] eqn:Hact.
  { pg_step. destruct go_within0 as (? & -> & ?).
    split; [done|done|done|done|by exists (pg_more p2)|right]. destruct Hf2 as [?|[?|[?|[Hlen|(? & ? & ?)]]]]; try congruence.
    - rewrite Hact /= in Hlen. lia.
    - by split. }
  destruct (winv_pop_active _ _ _ _ _ _ _ _ _ _ _ _ _ _ Hact Hi2) as [Hi3 Hok].
  do 2 pg_step. set (p3 := set_walk p2 _).
  assert (holding p0 (mu p) ops bytes h p3) as Hold.
  { split; try done; [by eapply same_page; [|exact Hpage2]|]. subst p3; unfold mu in *. rewrite Hact in Hmu2. simpl in *. lia. }
  pg_step. eapply (observe_known_spec read t scope (had ops)) with (p := p3).
  { intros a k Hk. eapply below_mono; [by apply Hknown|by left|done]. }
  { split; [done|done|by eapply winv_safe|done|done]. }
  intros q Hsd _. assert (holding p0 (mu p) ops bytes h q) as Hold'.
  { eapply holding_stays; [done|by eapply steady_stays| |apply (sm_updates _ _ (sd_same _ _ _ _ _ Hsd))].
    unfold PagerSteps.pinv. rewrite (sd_more _ _ _ _ _ Hsd).
    eapply winv_same; [apply (sd_same _ _ _ _ _ Hsd)|apply (sd_safe _ _ _ _ _ Hsd)|exact Hi3]. }
  do 2 pg_step. destruct (N.leb_spec (h_seq h) (ck_get (w_covered (pg_walk q)) (h_actor h))) as [Hheld|Hheld]; [|by apply offer_spec].
  set (held := ck_get (w_covered (pg_walk q)) (h_actor h)) in *.
  pg_step. apply wp_charge_actor. intros [] sl Hsl _ _; cbn [negb].
  - assert (stays q (set_slice q sl)) as Hst by by split.
    assert (holding p0 (mu p) ops bytes h (set_slice q sl)) as Hold3 by (eapply holding_stays; [done|done|apply Hold'|done]).
    pg_step. eapply (go_on_spec (had ops) [] (h_actor h) held (h_seq h)); [done|apply (ho_inv _ _ _ _ _ _ Hold3)|].
    intros q2 Hst3 Hi4. pg_step. by eapply holding_done.
  - assert (stays q (set_slice q sl)) as Hst by by split.
    apply (put_back_spec _ _ _ bytes _ _ false). eapply holding_stays; [done|done|apply Hold'|done].
Qed.

Lemma plan_loop_spec p :
  pinv has [] p → sel_inv (pg_walk p) → pg_ended p = false →
  wp (loop_upto plan_fuel (plan_step others read t local goal scope sent window position_limit budget) ([], 0)) (plan_post p) p.
Proof using Type Hco Hwhole Hlimit Hlocal Hknown Hholds Hsent Hwindow.
  intros Hi Hsel He.
  apply (wp_loop_upto (λ l q, going p l.1 l.2 q) (λ _, mu)).
  - intros [ops bytes] q Hq. eapply wp_mono; [by apply (plan_step_spec p)|]. by intros [[ops' bytes']|r] q' Hpost.
  - simpl. split; [done| |done|done|apply page_ok_nil|split; simpl; lia].
    unfold PagerSteps.pinv. eapply winv_same; [done| |exact Hi]. eapply safe_mono; [|by eapply winv_safe]. by left.
  - unfold mu, plan_fuel. lia.
Qed.

(** ** The end of a plan *)

Lemma winv_set_repair H more hand w x : ¬ flawless → winv H more hand w → winv H more hand (w_set_repair w x).
Proof.
  intros Hfl Hi. split; [|done]. eapply (inv_moved _ _ _ _ _ _ hand _ w); [|done..|by left|apply Hi].
  by eapply (safe_moved _ _ _ w); [done..|by left|by eauto|by left|by left|eapply winv_safe].
Qed.

Lemma repair_admit_le ops rp sl rp' sl' : repair_admit ops rp sl = Ok (rp', sl') → slice_le sl sl'.
Proof.
  intros Hr. enough (slice_le sl (rp', sl').2) by done. eapply (try_fold_inv (λ x, slice_le sl x.2)); [| |exact Hr]; [|done].
  intros op [rp1 sl1] [rp2 sl2] _ Hle. simpl in *. case_bool_decide; [|by intros [= -> ->]].
  intros (sl3 & Hsl & [= <- <-])%bind_ok. etrans; [exact Hle|]. unfold reserve_set in Hsl. case_bool_decide; [by simplify_eq|].
  by eapply reserve_le.
Qed.

(** What the end of a plan returns. *)
Definition finish_post p0 ops x (r : PlannedPage * gmap ActorId N * option (Frontier C)) p : Prop :=
  let '(page, positions, fr) := r in
  pp_ops page = ops ∧ pp_too_large page = x ∧
  ∃ q, plan_post p0 (ops, x) q ∧ pp_more page = has_more q ∧ positions = w_positions (pg_walk q) ∧
    pg_ended p = pg_ended q ∧ pg_slice p = pg_slice q ∧ w_remainder (pg_walk p) = w_remainder (pg_walk q) ∧
    ∀ fr', fr = Some fr' → fr_walk fr' = pg_walk q ∧ fr_fresh fr' = false ∧ (pp_more page = true ∨ ¬ flawless).

Lemma finish_spec p0 ops x p : plan_post p0 (ops, x) p → wp (finish others ops x) (finish_post p0 ops x) p.
Proof.
  intros Hpost. unfold finish. pg_step. apply wp_attempt. intros p1 Hp1.
  assert (plan_post p0 (ops, x) p1) as Hpost1.
  { destruct (w_repair (pg_walk p)) as [rp|] eqn:Hrp; [|by simplify_eq].
    apply bind_ok in Hp1 as ([rp' sl] & Hadm & [= <-]). apply repair_admit_le in Hadm.
    destruct Hpost as [Hle Hpage Hw Hsel (m & Hm & Hme & Hi) Hend].
    assert (¬ flawless) as Hfl.
    { intros Hfl. destruct (wi_calm _ _ _ _ _ _ _ _ _ _ _ _ Hi Hfl) as [[] _]. congruence. }
    split; simpl; [by etrans|by eapply same_page; [|exact Hpage]|done|done| |].
    - exists m. split_and!; [done|done|]. by apply winv_set_repair.
    - destruct Hend as [?|[]]; [by left|right]. by split. }
  clear Hpost Hp1. do 2 pg_step. cbv zeta. destruct (_ && _ && _) eqn:Hfr; repeat pg_step.
  - split_and!; [done|done|]. exists p1. split_and!; [done..|]. intros fr [= <-]. split_and!; [done|done|].
    apply andb_true_iff in Hfr as [Hfr _]. apply andb_true_iff in Hfr as [Hfr _].
    apply orb_true_iff in Hfr as [Hfr|Hfr].
    + left. simpl. by apply andb_true_iff in Hfr as [_ ?].
    + left. simpl. unfold has_more. rewrite Hfr !orb_true_r //.
  - split_and!; [done|done|]. exists p1. by split_and!.
Qed.

(** No chain is left when the plan says so. *)
Lemma has_more_chains p : has_more p = false →
  pg_more p = false ∧ w_remainder (pg_walk p) = false ∧ w_deferred (pg_walk p) = [] ∧ ∀ c, ¬ chains [] (pg_walk p) c.
Proof.
  clear. intros Hm. unfold has_more in Hm. rewrite !orb_false_iff in Hm.
  destruct Hm as [[[[[[[[Hmo Hre] Hse] Hac] Hpe] _] Hrs] Hsu] Hde]. rewrite !negb_false_iff !bool_decide_eq_true in Hac Hrs Hde.
  apply bool_decide_eq_false in Hse. split_and!; [done..|].
  intros c [?%elem_of_nil|[(sc & Hin & _)|(h & Hh & _)]]; [done| |].
  - destruct (w_pending (pg_walk p)); [by apply elem_of_nil in Hin|done].
  - destruct Hh as [Hh|[(l & Hl & _)|[Hh|(a & l & n & Hl & Hin)]]].
    + rewrite Hac in Hh. by apply elem_of_nil in Hh.
    + destruct Hse. by eexists.
    + rewrite Hrs in Hh. by apply elem_of_nil in Hh.
    + apply not_true_iff_false in Hsu. apply Hsu, existsb_exists. exists (a, l).
      split; [by apply list_elem_of_In, elem_of_bt_entries|]. simpl. by destruct l; [apply elem_of_nil in Hin|].
Qed.

(** A plan with nothing left has sent all that was wanted. *)
Lemma nothing_left p0 r p a :
  plan_post p0 r p → ¬ stopped_before → has_more p = false → wanted a → below read t (had r.1) a (lim a).
Proof.
  intros Hpost Hnb Hm Ha. apply has_more_chains in Hm as (Hmo & Hre & Hde & Hch).
  destruct Hpost as [_ _ _ _ (m & Hmm & _ & Hi) _].
  destruct (gl_wanted _ _ _ _ _ (iv_goals _ _ _ _ _ _ _ _ (wi_inv _ _ _ _ _ _ _ _ _ _ _ _ Hi)) a Ha) as [Hin|[[?|?]|[?|[Hle|(s & l & Hc & _)]]]].
  - rewrite Hde in Hin. by apply elem_of_nil in Hin.
  - rewrite Hmm // in Hmo.
  - done.
  - congruence.
  - eapply below_mono; [apply (sf_covered _ _ _ _ (winv_safe _ _ _ _ _ _ _ _ _ _ _ _ Hi))|done|done].
  - by apply Hch in Hc.
Qed.

(** Heads do not wait for each other: one with the lowest generation would wait for something older. *)
Lemma none_waits H more w :
  winv H more [] w → drained w → w_updates w = [] → ∀ a k n h, ¬ entry w a k n h.
Proof using Type Hco. clear Hwindow window.
  intros Hi Hdr Hup.
  enough (∀ g a k n h, h_generation h = g → ¬ entry w a k n h) as Hg by (intros a k n h; by eapply Hg).
  intros g. induction (N.lt_wf_0 g) as [g _ IH]. intros a k n h <- He.
  pose proof (iv_waits _ _ _ _ _ _ _ _ (wi_inv _ _ _ _ _ _ _ _ _ _ _ _ Hi)) as Hwt. pose proof (winv_safe _ _ _ _ _ _ _ _ _ _ _ _ Hi) as Hs.
  assert (∀ b j n' h', entry w b j n' h' → head_ok w h') as Hheads.
  { intros b j n' h' (l & Hl & Hj). apply (sf_heads _ _ _ _ Hs). right; right; right. exists b, l, n'. split; [done|by eapply list_elem_of_lookup_2]. }
  destruct (wt_older _ _ _ _ Hwt _ _ _ _ He) as (d & Hd & Hold).
  destruct (wt_entry _ _ _ _ Hwt _ _ _ _ He) as [Hha|(s & l & Hc & Hsn)].
  { rewrite Hup in Hha. destruct Hha as [(? & ? & ?%elem_of_nil & _)|[(? & ? & ? & ?%elem_of_nil)|[(? & ? & ?%elem_of_nil & _)|?%elem_of_nil]]]; done. }
  destruct Hdr. destruct Hc as [?%elem_of_nil|[(sc & Hin & _)|(h' & Hh' & [= -> -> ->])]]; [done| |].
  { rewrite dr_pending0 in Hin. by apply elem_of_nil in Hin. }
  destruct Hh' as [Hh'|[(l' & Hl' & _)|[Hh'|(b & l' & n' & Hl' & Hin)]]].
  { rewrite dr_active0 in Hh'. by apply elem_of_nil in Hh'. }
  { congruence. }
  { rewrite dr_resumable0 in Hh'. by apply elem_of_nil in Hh'. }
  apply list_elem_of_lookup_1 in Hin as [k' Hk']. assert (entry w b k' n' h') as He' by by exists l'.
  destruct (Hheads _ _ _ _ He) as [(m & Hm & _ & _ & Hg) _]. destruct (Hheads _ _ _ _ He') as [(m' & Hm' & Ha' & Hs' & Hg') _].
  eapply IH; [|reflexivity|exact He']. rewrite -Hg -Hg'. pose proof Hd as (md & Hmd & Hda & Hdn). pose proof (Hold _ _ Hmd Hm) as Hlt.
  destruct (decide (h_seq h' = n)) as [Heq|Hne].
  - assert (h_id h' = d) as <-. { eapply (co_unique _ _ Hco); [|exact Hd]. exists m'. by rewrite -Heq. }
    by rewrite (at_header_unique _ _ _ _ _ Hm' Hmd).
  - assert (at_pos read t (h_id h') (h_actor h') (h_seq h')) as Hp' by by exists m'.
    pose proof (co_chain _ _ Hco _ _ _ _ _ Hp' Hd ltac:(lia) _ _ Hm' Hmd). lia.
Qed.

(** A plan over a store without holes that was not cut short leaves nothing but heads beyond the window. *)
Lemma not_stalled p0 r p :
  plan_post p0 r p → flawless → pg_ended p = false → has_more p = w_remainder (pg_walk p).
Proof using Type Hco.
  intros [_ _ _ _ (m & _ & Hm & Hi) Hend] Hfl He. specialize (Hm He). subst m. destruct Hend as [?|Hdr]; [congruence|].
  destruct (wi_calm _ _ _ _ _ _ _ _ _ _ _ _ Hi Hfl) as [[_ _ Hre _ _ Hcu] Hmo].
  assert (w_updates (pg_walk p) = []) as Hup.
  { destruct (w_updates (pg_walk p)) as [|u us] eqn:Hus; [done|]. destruct (dr_updates _ Hdr u) as [b ->]; [rewrite Hus; by left|].
    destruct (Hcu (Stop b)). by left. }
  pose proof (none_waits _ _ _ Hi Hdr Hup) as Hnone. destruct Hdr. unfold has_more. cbv zeta.
  rewrite Hmo Hre dr_active0 dr_pending0 dr_resumable0 dr_deferred0 dr_selecting0 /=.
  rewrite !orb_false_r. destruct (w_remainder (pg_walk p)); [done|]. simpl. apply not_true_iff_false.
  intros ([a l] & Hin & Hl)%existsb_exists. apply list_elem_of_In, elem_of_bt_entries in Hin. simpl in Hl.
  destruct l as [|[n h] l]; [done|]. apply (Hnone a 0%nat n h). by eexists.
Qed.
End plan.
