(* ===== verification/PagerRun.v ===== *)
(** * What a page holds

    The theorems on [plan_page]. A snapshot is [coherent] when its indices agree and
    dependencies are older, [whole] when it has no holes; both are proved of the memory
    store below. What the peer has is any set of operations that the request
    is right about ([sound_scope]). *)

From stdpp Require Import relations.
From S2P Require Import Prelude Ids Pages ClockSpec Types Records Store StoreLog StoreReads Integrity Dag Commit Evolve.
From S2P Require Import Requests Programs Slices Repair Pager PagerInv PagerMoves PagerSteps PagerFill PagerPlan.

#[local] Open Scope N_scope.

Section run.
Context {C : Type} `{!ClockImpl C} `{SZ : !Sizes} {R : Type} `{!SnapshotRead R} `{!PageRead R}.
Implicit Types (a : ActorId) (i d : OpId) (has : OpId → Prop) (w : Walk C) (p : Pager C).

(** What the request says of the peer is true: the prefixes it names, the clock it holds
    and the operations it was sent. *)
Record sound_scope (read : R) (t : TopicId) (peer : C) (scope : ActorScope C) (sent : gset OpId) has : Prop := {
  ss_peer : ∀ a, below read t has a (ck_get peer a);
  ss_known : ∀ a k, known_prefix scope a = Some k → below read t has a k;
  ss_holds : ∀ a s, holds_prefix scope a s = true → below read t has a s;
  ss_sent : ∀ d, d ∈ sent → has d;
}.

(** The actors a plan is asked for. *)
Definition asked (scope : ActorScope C) a : Prop :=
  informed scope = true ∨ sc_named scope = ∅ ∨ a ∈ sc_named scope.

Section setting.
Context (others : nat → RecordPool → RecordPool) (window position_limit : nat).
Context (read : R) (t : TopicId) (local peer : C) (goal : option C) (scope : ActorScope C) (sent excluded : gset OpId).
Context (budget : PageBudget) (sl : Slice) (pool : RecordPool) (has : OpId → Prop).
Context (top : ActorId → N) (flawless : Prop).
Context (Hwindow : (0 < window)%nat) (Hco : coherent read t) (Hscope : sound_scope read t peer scope sent has).
Context (Hwhole : flawless → whole read t top) (Hlimit : flawless → ∀ a, limit local goal a ≤ top a).
Context (Hlocal : flawless → informed scope = true ∨ ∀ a, top a ≤ ck_get local a) (Hexcluded : flawless → excluded = ∅).
Local Abbreviation pinv := (pinv read t local goal (asked scope) False top flawless).
Local Abbreviation planned := (plan_page others window position_limit read t local peer goal scope sent excluded budget sl pool).

(** The plan before its first step. *)
Definition first_plan (deferred : list (ActorId * N)) : Pager C :=
  MkPager (w_set_deferred (w_set_blocked (fr_walk (frontier_new peer scope window (records_new pool))) excluded) deferred) sl false false.

Lemma no_heads deferred h : ¬ head_in (pg_walk (first_plan deferred)) h.
Proof.
  unfold first_plan, head_in. simpl. intros [?%elem_of_nil|[(l & Hl & Hin)|[?%elem_of_nil|(a & l & n & Hl & _)]]]; try done.
  destruct (_ && _); simplify_eq. by apply elem_of_nil in Hin.
Qed.

Lemma no_chains deferred c : ¬ chains [] (pg_walk (first_plan deferred)) c.
Proof.
  intros [?%elem_of_nil|[(s & ?%elem_of_nil & _)|(h & Hh & _)]]; [done..|]. by apply no_heads in Hh.
Qed.

Lemma first_plan_inv deferred :
  (∀ a, asked scope a → a ∈ deferred.*1 ∨ ck_get local a = 0) →
  pinv has [] (first_plan deferred) ∧ sel_inv (pg_walk (first_plan deferred)).
Proof using Hscope Hexcluded.
  clear Hwindow Hco Hwhole Hlimit Hlocal. intros Hdef.
  assert (∀ a k n h, ¬ entry (pg_walk (first_plan deferred)) a k n h) as Hne.
  { intros a k n h (l & Hl & _). by rewrite /= lookup_empty in Hl. }
  split; [split; [split|]|].
  - split; simpl.
    + apply Hscope.
    + intros h Hh. by apply no_heads in Hh.
    + by intros s ?%elem_of_nil.
    + intros a l. by rewrite lookup_empty.
    + by intros a l j r ?%elem_of_nil.
    + intros i sc. by rewrite lookup_empty.
    + intros i rec. by rewrite lookup_empty.
  - split.
    + intros a [?|Hz]%Hdef; [by left|right; right; right; left]. unfold limit. destruct goal; lia.
    + intros a [[x Hx]|[(s & l & Hc)|(l & j & r & Hin)]].
      * by rewrite /= lookup_empty in Hx.
      * by apply no_chains in Hc.
      * by apply elem_of_nil in Hin.
  - split; simpl.
    + intros a k n h He. by apply Hne in He.
    + intros u1 u2 a l j r k n h _ He. by apply Hne in He.
    + constructor.
    + intros a k n h He. by apply Hne in He.
    + intros a x. by rewrite lookup_empty.
  - intros Hfl. split; [|done]. split; simpl.
    + intros a. by rewrite lookup_empty.
    + by apply Hexcluded.
    + done.
    + intros c Hc. by apply no_chains in Hc.
    + by intros s ?%elem_of_nil.
    + by intros u ?%elem_of_nil.
  - intros _. split_and!; [done|done|right]. intros a x. by rewrite /= lookup_empty.
Qed.

(** The cursor over the clock is at all that was asked for. *)
Lemma cursor_all a :
  asked scope a →
  a ∈ (if negb (informed scope) && negb (bool_decide (sc_named scope = ∅))
       then ck_iter (ck_select local (sc_named scope)) else ck_iter local).*1 ∨ ck_get local a = 0.
Proof.
  intros Ha. rewrite ck_get_view. destruct (ck_view local !! a) as [s|] eqn:Hs; [|by right]. left.
  destruct (_ && _) eqn:Hsel.
  - apply andb_true_iff in Hsel as [Hinf%negb_true_iff Hne%negb_true_iff]. apply bool_decide_eq_false in Hne.
    destruct Ha as [?|[?|Ha]]; [congruence|done|]. rewrite ck_iter_view ck_view_select.
    apply list_elem_of_fmap. exists (a, s). split; [done|]. apply elem_of_bt_entries. by apply map_lookup_filter_Some.
  - rewrite ck_iter_view. apply list_elem_of_fmap. exists (a, s). split; [done|]. by apply elem_of_bt_entries.
Qed.

(** What a planned page satisfies. *)
Definition page_post (r : PlannedPage * gmap ActorId N * option (Frontier C)) p : Prop :=
  let '(page, _, _) := r in
  slice_le sl (pg_slice p) ∧ within budget (pp_ops page) (page_size (pp_ops page)) ∧
  (∃ w, page_ok read t has w (pp_ops page)) ∧
  (pp_more page = false → ∀ a, asked scope a → below read t (had has (pp_ops page)) a (limit local goal a)) ∧
  (flawless → pb_ops budget ≠ 0 → pb_bytes budget ≠ 0 → pg_ended p = false → pp_more page = w_remainder (pg_walk p)).

Lemma plan_page_spec :
  match planned with
  | Some (Ok (r, p)) => page_post r p
  | Some (Err _) => True
  | None => False
  end.
Proof using All.
  unfold plan_page. set (p0 := pager _ _).
  enough (wp (plan_from others read t local goal scope sent window position_limit budget true) page_post p0) as Hwp.
  { unfold wp in Hwp. by destruct (plan_from _ _ _ _ _ _ _ _ _ _ _ p0) as [[[r p]|e]|]. }
  unfold plan_from. cbn [andb]. destruct (_ || _) eqn:Hzero.
  - do 3 pg_step. repeat pg_step. unfold page_post. simpl. split_and!; [done|split; simpl; lia|exists (pg_walk p0); apply page_ok_nil| |].
    + intros Hex a _. destruct (decide (limit local goal a ≤ ck_get peer a)) as [Hle|Hgt].
      * eapply below_mono; [apply (ss_peer _ _ _ _ _ _ Hscope)|by left|done].
      * apply not_true_iff_false in Hex. destruct Hex. apply existsb_exists.
        assert (is_Some (ck_view local !! a)) as [s Hs].
        { apply not_eq_None_Some. intros Hn. assert (ck_get local a = 0) by by rewrite ck_get_view Hn. unfold limit in Hgt. destruct goal; lia. }
        exists (a, s). rewrite ck_iter_view. split; [by apply list_elem_of_In, elem_of_bt_entries|]. simpl. apply N.ltb_lt. lia.
    + intros _ ? ?. apply orb_true_iff in Hzero as [?%N.eqb_eq|?%N.eqb_eq]; done.
  - do 3 pg_step. set (deferred := if negb (informed scope) && _ then _ else _).
    destruct (first_plan_inv deferred) as [Hi Hsel]; [apply cursor_all|].
    change (set_walk p0 _) with (first_plan deferred).
    eapply wp_mono; [eapply (plan_loop_spec others read t local goal scope sent window position_limit Hco (asked scope) False
      top flawless Hwhole Hlimit Hlocal has); [apply Hscope|apply Hscope|apply Hscope|done|done|done|done]|].
    intros [ops x] q Hpost. eapply wp_mono; [by eapply finish_spec|].
    intros [[page pos] fr] p (Hops & _ & q' & Hpost' & Hmore & _ & Hend & Hslice & Hrem & _). subst ops. unfold page_post.
    split_and!.
    + rewrite Hslice. apply (po_slice _ _ _ _ _ _ _ _ _ _ _ _ _ Hpost').
    + apply (po_within _ _ _ _ _ _ _ _ _ _ _ _ _ Hpost').
    + exists (pg_walk q'). apply (po_page _ _ _ _ _ _ _ _ _ _ _ _ _ Hpost').
    + intros Hm a Ha. rewrite Hmore in Hm. apply (nothing_left read t local goal (asked scope) False top flawless has budget (first_plan deferred) (pp_ops page, x) q'); [done|by intros []|done|done].
    + intros Hfl _ _ He. rewrite Hmore Hrem. eapply not_stalled; [done|exact Hpost'|done|congruence].
Qed.
End setting.

(** C6: a page is causal. Every operation on it is the one the store has under its id,
    comes after the operations it depends on and after the earlier positions of its
    actor, unless the peer has them, and no operation is on the page twice. *)
Theorem plan_causal others window position_limit (read : R) t local peer goal scope sent excluded budget sl pool has page pos fr p :
  (0 < window)%nat → coherent read t → sound_scope read t peer scope sent has →
  plan_page others window position_limit read t local peer goal scope sent excluded budget sl pool = Some (Ok ((page, pos, fr), p)) →
  NoDup (op_id <$> pp_ops page) ∧
  ∀ k op, pp_ops page !! k = Some op →
    record_ok read (op_id op) op ∧
    (∀ d, d ∈ deps (obody op) → has d ∨ d ∈ op_id <$> take k (pp_ops page)) ∧
    ∃ a s, at_pos read t (op_id op) a s ∧ ∀ i s', at_pos read t i a s' → s' < s → has i ∨ i ∈ op_id <$> take k (pp_ops page).
Proof.
  intros Hwin Hco Hsc Hrun.
  pose proof (plan_page_spec others window position_limit read t local peer goal scope sent excluded budget sl pool has (λ _, 0) False
    Hwin Hco Hsc (False_ind _) (False_ind _) (False_ind _) (False_ind _)) as Hspec.
  rewrite Hrun in Hspec. destruct Hspec as (_ & _ & (w & [Hc Hch Hn Hh]) & _ & _). split; [done|]. intros k op Hk.
  destruct (Hh op) as (Hrec & a & s & Hpos & _); [by eapply list_elem_of_lookup_2|].
  split_and!; [done|by intros d; apply Hc|]. exists a, s. split; [done|]. intros i s'. by eapply Hch.
Qed.

(** C9: a page that leaves nothing is complete. When a plan says that there is no more,
    every stored operation of an actor it was asked for, up to the goal, is on the page
    or with the peer. *)
Theorem plan_complete others window position_limit (read : R) t local peer goal scope sent excluded budget sl pool has page pos fr p :
  (0 < window)%nat → coherent read t → sound_scope read t peer scope sent has →
  plan_page others window position_limit read t local peer goal scope sent excluded budget sl pool = Some (Ok ((page, pos, fr), p)) →
  pp_more page = false →
  ∀ a i s, asked scope a → at_pos read t i a s → s ≤ limit local goal a → has i ∨ i ∈ op_id <$> pp_ops page.
Proof.
  intros Hwin Hco Hsc Hrun Hm a i s Ha Hi Hs.
  pose proof (plan_page_spec others window position_limit read t local peer goal scope sent excluded budget sl pool has (λ _, 0) False
    Hwin Hco Hsc (False_ind _) (False_ind _) (False_ind _) (False_ind _)) as Hspec.
  rewrite Hrun in Hspec. destruct Hspec as (_ & _ & _ & Hall & _). by eapply (Hall Hm a Ha).
Qed.

(** C8: heads do not wait for each other. Over a store without holes, a plan that was
    not cut short leaves only the actors beyond its window; else all that was asked for
    is on the page. *)
Theorem plan_not_stalled others window position_limit (read : R) t local peer goal scope sent budget sl pool has top page pos fr p :
  (0 < window)%nat → coherent read t → whole read t top → sound_scope read t peer scope sent has →
  (∀ a, limit local goal a ≤ top a) → informed scope = true ∨ (∀ a, top a ≤ ck_get local a) →
  pb_ops budget ≠ 0 → pb_bytes budget ≠ 0 →
  plan_page others window position_limit read t local peer goal scope sent ∅ budget sl pool = Some (Ok ((page, pos, fr), p)) →
  pg_ended p = false →
  pp_more page = w_remainder (pg_walk p) ∧
  (w_remainder (pg_walk p) = false → ∀ a i s, asked scope a → at_pos read t i a s → s ≤ limit local goal a →
    has i ∨ i ∈ op_id <$> pp_ops page).
Proof.
  intros Hwin Hco Hwh Hsc Hlim Hloc Hb1 Hb2 Hrun He.
  pose proof (plan_page_spec others window position_limit read t local peer goal scope sent ∅ budget sl pool has top True
    Hwin Hco Hsc (λ _, Hwh) (λ _, Hlim) (λ _, Hloc) (λ _, eq_refl)) as Hspec.
  rewrite Hrun in Hspec. destruct Hspec as (_ & _ & _ & Hall & Hmore). specialize (Hmore I Hb1 Hb2 He).
  split; [done|]. intros Hr a i s Ha Hi Hs. rewrite Hr in Hmore. by eapply (Hall Hmore a Ha).
Qed.

(** C10: planning ends, whatever the slice, the budgets and the interference with the
    record pool, and a page stays within its budget and within the limits of its slice. *)
Theorem plan_ends others window position_limit (read : R) t local peer goal scope sent excluded budget sl pool has :
  (0 < window)%nat → coherent read t → sound_scope read t peer scope sent has →
  match plan_page others window position_limit read t local peer goal scope sent excluded budget sl pool with
  | Some (Ok ((page, _, _), p)) =>
      N.of_nat (length (pp_ops page)) ≤ pb_ops budget ∧ page_size (pp_ops page) ≤ pb_bytes budget ∧
      (slice_ok sl → slice_ok (pg_slice p))
  | Some (Err _) => True
  | None => False
  end.
Proof.
  intros Hwin Hco Hsc.
  pose proof (plan_page_spec others window position_limit read t local peer goal scope sent excluded budget sl pool has (λ _, 0) False
    Hwin Hco Hsc (False_ind _) (False_ind _) (False_ind _) (False_ind _)) as Hspec.
  destruct (plan_page _ _ _ _ _ _ _ _ _ _ _ _ _ _) as [[[[[page pos] fr] p]|e]|]; try done.
  destruct Hspec as (Hle & (? & _ & ?) & _). split_and!; [done..|]. apply Hle.
Qed.
End run.

(** ** Planning over the memory store

    The snapshot of a valid store is coherent and has no holes, up to the tips of its
    actors. So the theorems above hold of it without further hypotheses on what
    is read: a plan for a peer that is not cut short brings the peer everything. *)

Section store.
Context {C : Type} `{!ClockImpl C} `{!StoreEnv C} `{!Crypto} `{!OplogEnv} `{SZ : !Sizes}.
Implicit Types (inner : MemoryInner C) (t : TopicId) (a : ActorId) (i d : OpId).

(** The reads of [MemorySnapshot] that planning makes. *)
#[global] Instance memory_pages : PageRead (MemoryInner C) := {|
  rd_actor_range inner t a after n := Ok (actor_range_locked inner t a after n);
  rd_reserved_op inner i :=
    match l_ops (s_log inner) !! i with
    | None => Ok None
    | Some op => size ← serialized_size op; Ok (Some (size, Ok (Some op)))
    end;
|}.

Lemma at_pos_position inner t i a s : at_pos inner t i a s ↔ at_position (l_meta (s_log inner)) t a s i.
Proof.
  split.
  - intros (h & [Hh Ht] & Ha & Hs). simpl in Hh. injection Hh as Hh. apply fmap_Some in Hh as (m & Hm & ->). by exists m.
  - intros (m & Hm & Ht & Ha & Hs). exists (header_of m). split_and!; [split; simpl; [by rewrite Hm|done]|done..].
Qed.

Lemma at_header_meta inner t i h :
  at_header inner t i h ↔ ∃ m, l_meta (s_log inner) !! i = Some m ∧ h = header_of m ∧ om_topic_id m = t.
Proof.
  split.
  - intros [Hh Ht]. simpl in Hh. injection Hh as Hh. apply fmap_Some in Hh as (m & Hm & ->). by exists m.
  - intros (m & Hm & -> & Ht). split; simpl; [by rewrite Hm|done].
Qed.

Section valid.
Context inner t (Hok : node_ok inner) (Htips : ∀ a, tip_of inner t a ≤ u64_max).

Lemma entry_of i m : l_meta (s_log inner) !! i = Some m → om_topic_id m = t → ∃ op, entries_of (s_log inner) t i op m.
Proof using Hok.
  intros Hm Ht. assert (is_Some (l_ops (s_log inner) !! i)) as [op Hop].
  { apply elem_of_dom. rewrite (lo_dom _ (so_log _ (nd_store _ Hok))). apply elem_of_dom. by exists m. }
  by exists op.
Qed.

(** Dependencies have lower generations. *)
Lemma dep_generation i m d md :
  l_meta (s_log inner) !! i = Some m → om_topic_id m = t → d ∈ om_deps m → l_meta (s_log inner) !! d = Some md →
  om_topic_id md = t ∧ om_generation md < om_generation m.
Proof using Hok.
  intros Hm Ht Hd Hmd. destruct (so_deps _ (nd_store _ Hok) _ _ _ Hm Hd) as (md' & Hmd' & Htd).
  rewrite Hmd in Hmd'. injection Hmd' as <-. split; [congruence|]. rewrite Ht in Htd.
  destruct (entry_of _ _ Hm Ht) as [op He]. destruct (entry_of _ _ Hmd Htd) as [od Hed].
  destruct (h_entry _ _ _ _ (nd_topics _ Hok t) _ _ _ He) as [_ Hv]. by eapply (ev_generation _ _ _ _ Hv).
Qed.

(** Generations grow along the chain of an actor. *)
Lemma chain_generation a (n : nat) s i j mi mj :
  at_position (l_meta (s_log inner)) t a s i → at_position (l_meta (s_log inner)) t a (s + 1 + N.of_nat n) j →
  l_meta (s_log inner) !! i = Some mi → l_meta (s_log inner) !! j = Some mj → om_generation mi < om_generation mj.
Proof using Hok.
  pose proof (so_log _ (nd_store _ Hok)) as Hlog. revert j mj. induction n as [|n IH]; intros j mj Hi Hj Hmi Hmj.
  all: destruct Hj as (m & Hm & Ht & Ha & Hs); rewrite Hmj in Hm; injection Hm as <-.
  all: destruct (entry_of _ _ Hmj Ht) as [oj Hej]; destruct (h_entry _ _ _ _ (nd_topics _ Hok t) _ _ _ Hej) as [_ Hv].
  all: pose proof (ev_prev _ _ _ _ Hv) as Hprev; pose proof (lo_prev _ Hlog _ _ Hmj) as Hlp.
  all: destruct Hi as (m & Hm & Hti & Hai & Hsi); rewrite Hmi in Hm; injection Hm as <-.
  all: assert (om_actor_seq mi ≠ 0) as Hpos; [intros Hz; assert (at_position (l_meta (s_log inner)) t a 0 i) as Hat by (by exists mi; rewrite -Hz);
    apply (lo_seq _ Hlog) in Hat; pose proof (lo_tip _ Hlog t a) as Htip; destruct (l_actor_tip (s_log inner) !! (t, a)) as [[q x]|];
    [destruct (proj1 (proj2 Htip 0)); [by eexists|lia]|by rewrite Htip in Hat]|].
  all: destruct (om_actor_prev mj) as [p|]; [|lia].
  all: destruct Hprev as (Hpd & op & mp & (Hop & Hmp & Htp) & Hap & Hsp).
  all: destruct (dep_generation _ _ _ _ Hmj Ht Hpd Hmp) as [_ Hg].
  - assert (p = i) as ->.
    { assert (l_actor_by_seq (s_log inner) !! (t, a, s) = Some p) as H1 by (apply (lo_seq _ Hlog); exists mp; split_and!; [done|done|congruence|lia]).
      assert (l_actor_by_seq (s_log inner) !! (t, a, s) = Some i) as H2 by (apply (lo_seq _ Hlog); by exists mi). congruence. }
    rewrite Hmi in Hmp. by injection Hmp as <-.
  - etrans; [|exact Hg]. apply (IH p mp); [by exists mi| |done|done]. exists mp. split_and!; [done|done|congruence|lia].
Qed.

Lemma store_coherent : coherent inner t.
Proof using Hok Htips.
  pose proof (nd_store _ Hok) as Hst. pose proof (so_log _ Hst) as Hlog. split.
  - intros a after l s i h [= <-] Hlast Hh. apply last_Some in Hlast as [l' Hl'].
    destruct (actor_range_contiguous inner t a after 1 Hst (Htips a)) as [_ Hin].
    destruct (Hin s i) as (m & Hm & ? & ? & ?); [rewrite Hl'; apply elem_of_app; right; by left|].
    simpl in Hh. rewrite Hm in Hh. injection Hh as <-. done.
  - intros i j a s Hi%at_pos_position Hj%at_pos_position. apply (lo_seq _ Hlog) in Hi, Hj. congruence.
  - intros i n op Hop. simpl in Hop. destruct (l_ops (s_log inner) !! i) as [op'|] eqn:Ho; [|done].
    apply bind_ok in Hop as (size & _ & [= _ ->]).
    assert (is_Some (l_meta (s_log inner) !! i)) as [m Hm].
    { apply elem_of_dom. rewrite -(lo_dom _ Hlog). apply elem_of_dom. by exists op. }
    destruct (lo_entry _ Hlog _ _ _ Ho Hm) as (Hid & _ & _ & Hmatch). split; [done|]. simpl. rewrite Hm. simpl.
    unfold meta_matches in Hmatch. autorewrite with reflect in Hmatch. f_equal. tauto.
  - intros i h ds d h' Hi Hds Hd Hh'. apply at_header_meta in Hi as (m & Hm & -> & Ht). simpl in Hds, Hh'. rewrite Hm in Hds.
    injection Hds as <-. injection Hh' as Hh'. apply fmap_Some in Hh' as (md & Hmd & ->). by apply (dep_generation i m d md).
  - intros i j a s s' Hi%at_pos_position Hj%at_pos_position Hs hi hj (mi & Hmi & -> & _)%at_header_meta (mj & Hmj & -> & _)%at_header_meta.
    apply (chain_generation a (N.to_nat (s' - s - 1)) s i j); [done| |done|done]. by replace (s + 1 + _) with s' by lia.
Qed.

Lemma store_whole : whole inner t (tip_of inner t).
Proof using Hok Htips.
  pose proof (nd_store _ Hok) as Hst. pose proof (so_log _ Hst) as Hlog. split.
  - intros a after l Hlt [= <-]. destruct (actor_range_contiguous inner t a after 1 Hst (Htips a)) as [Hseq Hin].
    replace (1 `min` N.to_nat (tip_of inner t a - after))%nat with 1%nat in Hseq by lia.
    destruct (actor_range_locked inner t a after 1) as [|[s i] [|]]; [done| |done]. exists i. simpl in Hseq.
    injection Hseq as Hseq. assert (s = after + 1) as -> by lia. clear Hseq. split; [done|].
    destruct (Hin (after + 1) i) as (m & Hm & _); [by left|]. simpl. by rewrite Hm.
  - intros i h (m & Hm & _ & Ht)%at_header_meta. destruct (entry_of _ _ Hm Ht) as (op & Hop & _).
    simpl. rewrite Hop. split; [by intros (? & _ & ?)%bind_ok|]. by intros n (? & _ & ?)%bind_ok.
  - intros i h ds d (m & Hm & _ & Ht)%at_header_meta Hds Hd. simpl in Hds |- *. rewrite Hm in Hds. injection Hds as <-.
    destruct (so_deps _ Hst _ _ _ Hm Hd) as (md & Hmd & _). by rewrite Hmd.
  - intros i a s Hi%at_pos_position. apply (lo_seq _ Hlog) in Hi. unfold tip_of. pose proof (lo_tip _ Hlog t a) as Htip.
    destruct (l_actor_tip (s_log inner) !! (t, a)) as [[q x]|]; simpl; [|by rewrite Htip in Hi].
    destruct (proj1 (proj2 Htip s)); [by exists i|lia].
Qed.

(** Positions start at one: a clock that counts nothing says nothing. *)
Lemma nothing_below (has : OpId → Prop) a : below inner t has a 0.
Proof using Hok.
  intros i s Hi%at_pos_position Hs. apply (lo_seq _ (so_log _ (nd_store _ Hok))) in Hi.
  pose proof (lo_tip _ (so_log _ (nd_store _ Hok)) t a) as Htip.
  destruct (l_actor_tip (s_log inner) !! (t, a)) as [[q x]|]; [|by rewrite Htip in Hi].
  destruct (proj1 (proj2 Htip s)); [by exists i|lia].
Qed.

Lemma clock_tips a : ck_get (clock_of inner t) a = tip_of inner t a.
Proof using Hok. rewrite ck_get_view (so_clock _ (nd_store _ Hok)). done. Qed.
End valid.

End store.
