(* ===== verification/OplogWitness.v ===== *)
(** * A run of the op log

    A genesis, a note and a note that waits for a missing one arrive in one batch at an
    empty op log. The theorems on admission apply at this run. *)

From stdpp Require Import relations.
From S2P Require Import Prelude Ids Frame ClockSpec Types Membership Topology.
From S2P Require Import Pages Evidence Records Pool Store StoreLog StoreAdmit StoreOps StoreReset.
From S2P Require Import StoreEvidence StoreRun StoreWitness.
From S2P Require Import Admission Dag Projection Building Commit Genesis Oplog Evolve OplogInv Receive.

#[local] Open Scope N_scope.
#[local] Existing Instance toy_crypto.
#[local] Existing Instance toy_env.

#[local] Program Instance toy_oplog_env : OplogEnv := {|
  data_overhead _ := Ok 100;
  ptr_eq _ _ := false;
|}.
Next Obligation. done. Qed.

(** An operation of topic 1 with the actor its author has there. *)
Definition w_op (i : N) (p : PeerId) (seq : N) (prev : option OpId) (ds : gset OpId) (gen : N)
    (pl : TopicPayload) : Op :=
  {| op_id := small_id i;
     signed := {| body := {| topic_id := small_id 1; author := p; actor_id := actor_id_for (small_id 1) p;
       actor_seq := seq; actor_prev := prev; deps := ds; generation := gen; payload := pl |};
       signature := [] |} |}.

Definition w_peers : gset PeerId := {[small_id 3; small_id 4]}.
Definition w_genesis : Op :=
  w_op 20 (small_id 3) 1 None ∅ 0
    (Genesis {| event_type_id := "note"; initial_peers := w_peers; replication_policy := policy_all |}).
Definition w_note : Op :=
  w_op 21 (small_id 4) 1 None {[small_id 20]} 1 (Event {| type_id := "note"; ev_payload := [] |}).
Definition w_late : Op :=
  w_op 23 (small_id 4) 3 (Some (small_id 22)) {[small_id 22]} 3
    (Event {| type_id := "note"; ev_payload := [] |}).
Definition w_ops : list Op := [w_late; w_note; w_genesis].
Definition w_ids : gset OpId := {[small_id 20; small_id 21; small_id 23]}.
Definition w_universe (o : Op) : Prop := o ∈ w_ops.

Lemma w_collision_free : collision_free w_universe.
Proof.
  intros o o' Ho Ho' Hid. apply (ids_unique_NoDup w_ops); [|done..].
  apply (bool_decide_unpack _). vm_compute. reflexivity.
Qed.

Definition w_oplog : Oplog :=
  {| ol_cache := {| mc_epoch := 0; mc_states := ∅; mc_order := [] |}; ol_receive_genesis := None;
     ol_integrity := ∅ |}.
Lemma w_cache : cache_ok (C := mclock) (ol_cache w_oplog) store_empty.
Proof. intros i s. by rewrite lookup_empty. Qed.

Definition alone : nat → Attempt (C := mclock) := λ _,
  {| at_turn := Ok (); at_before st := st; at_between st := st |}.
Lemma alone_undisturbed : undisturbed alone.
Proof. by intros n st. Qed.
Lemma alone_harmless : harmless_others w_universe alone.
Proof. by apply undisturbed_harmless, alone_undisturbed. Qed.

Definition w_run := admit_with_retry (C := mclock) None alone w_oplog store_empty None w_ops w_ids None.
Definition w_view (r : Oplog * MemoryInner mclock * res (gset OpId * option TopicEviction))
  : option (list OpId * list OpId * list OpId) :=
  match r with
  | (_, inner, Ok (accepted, _)) =>
      Some (bt_elements accepted, bt_elements (default ∅ (s_heads inner !! small_id 1)),
        bt_elements (dom (p_ops (s_pool inner))))
  | _ => None
  end.

Lemma w_run_view :
  w_view w_run = Some ([small_id 20; small_id 21], [small_id 21], [small_id 23]).
Proof. vm_compute. reflexivity. Qed.

(** The op log and the store after a run. *)
Definition w_end : Oplog := w_run.1.1.
Definition w_store : MemoryInner mclock := w_run.1.2.
Lemma w_run_ends : w_run = (w_end, w_store, w_run.2).
Proof. unfold w_end, w_store. by destruct w_run as [[ol inner] r]. Qed.

Lemma w_universe_all o : o ∈ w_ops → w_universe o.
Proof. done. Qed.

Lemma admission_safe_witness :
  valid w_universe w_store ∧ cache_ok (ol_cache w_end) w_store ∧
  l_ops (s_log w_store) !! small_id 21 = Some w_note.
Proof.
  pose proof (admission_safe w_universe w_collision_free None alone w_oplog store_empty None w_ops w_ids None
    w_end w_store w_run.2 (store_empty_valid _) w_cache w_universe_all alone_harmless w_run_ends)
    as [Hv _ Hc _ _].
  split; [exact Hv|]. split; [exact Hc|]. vm_compute. reflexivity.
Defined.

Definition w_batch := admit_ops_batch (C := mclock) None w_oplog store_empty (λ st, st) None w_ops w_ids None None.

Lemma outcome_reported_witness : reported store_empty w_batch.1.2 w_batch.2.
Proof.
  apply (outcome_reported w_universe w_collision_free None w_oplog store_empty (λ st, st) None w_ops w_ids None None
    w_batch.1.1 w_batch.1.2 w_batch.2 (store_empty_valid _) w_cache w_universe_all).
  - intros st Hst. split; [exact Hst|apply evolves_refl].
  - intros p Hp. discriminate Hp.
  - unfold w_batch. by destruct (admit_ops_batch _ _ _ _ _ _ _ _ _) as [[ol inner] r].
Defined.

Definition w_built : option (BuiltBatch (C := mclock)) :=
  value (build_batch store_empty ∅ None None w_ops w_ids false None) None.
Definition w_no_batch : BuiltBatch (C := mclock) :=
  {| bb_accepted := ∅; bb_batch := batch2; bb_pending := []; bb_projections := ∅; bb_projection_tips := ∅ |}.
Lemma w_built_ok :
  build_batch store_empty (mc_states (ol_cache w_oplog)) None None w_ops w_ids false None =
    Ok (Some (default w_no_batch w_built)).
Proof.
  assert (is_Some w_built) as [b Hb]; [apply (bool_decide_unpack _); vm_compute; reflexivity|].
  rewrite Hb. revert Hb. unfold w_built. cbn [w_oplog ol_cache mc_states].
  destruct (build_batch _ _ _ _ _ _ _ _) as [[b'|]|]; simpl; congruence.
Qed.


Lemma pending_waits_witness :
  dep_resolvable_locked (C := mclock) store_empty (small_id 22) = false ∧
  (w_late, {[small_id 22]}) ∈ bb_pending (default w_no_batch w_built).
Proof.
  assert (bb_pending (default w_no_batch w_built) = [(w_late, {[small_id 22]})]) as Hp
    by (vm_compute; reflexivity).
  assert ((w_late, {[small_id 22]}) ∈ bb_pending (default w_no_batch w_built)) as Hin by (rewrite Hp; by left).
  destruct (pending_waits w_universe store_empty (ol_cache w_oplog) None None w_ops w_ids None
    (default w_no_batch w_built) w_late {[small_id 22]} (store_empty_valid _) w_cache w_built_ok Hin)
    as (_ & _ & _ & _ & _ & Hd).
  split; [|exact Hin]. apply (Hd (small_id 22)). by apply elem_of_singleton.
Defined.

(** Receiving the same batch: one admission, then a look at what is ready. *)
Definition w_received := receive_ops_admission (C := mclock) None 3 (λ _, alone) w_oplog store_empty None w_ops w_ids None.
Definition w_received_end : Oplog * MemoryInner mclock * res AdmittedOps :=
  default (w_oplog, store_empty, Err OpTooLarge) w_received.
Lemma w_received_ok : w_received = Some (w_received_end.1.1, w_received_end.1.2, w_received_end.2).
Proof.
  unfold w_received_end. assert (is_Some w_received) as [[[ol inner] r] Hr];
    [apply (bool_decide_unpack _); vm_compute; reflexivity|]. by rewrite Hr.
Qed.


Lemma receive_ends_witness :
  ∃ fuel, is_Some (receive_ops_admission (C := mclock) None fuel (λ _, alone) w_oplog store_empty None w_ops w_ids None).
Proof.
  apply (receive_ends w_universe w_collision_free None (λ _, alone) w_oplog store_empty None w_ops w_ids None
    (store_empty_valid _) w_cache w_universe_all (λ _, alone_undisturbed)).
Defined.

(** ** Equal frontiers *)

(** Another op log never heard of the late note. *)
Definition w_ops2 : list Op := [w_note; w_genesis].
Definition w_run2 := admit_with_retry (C := mclock) None alone w_oplog store_empty None w_ops2 w_ids None.
Definition w_store2 : MemoryInner mclock := w_run2.1.2.

Lemma w_store_valid : valid w_universe w_store.
Proof.
  apply (as_valid _ _ _ _ _ _ _ (admit_with_retry_ok w_universe w_collision_free None alone w_oplog store_empty None
    w_ops w_ids None w_end w_store w_run.2 (store_empty_valid _) w_cache w_universe_all alone_harmless w_run_ends)).
Qed.
Lemma w_store2_valid : valid w_universe w_store2.
Proof.
  assert (w_run2 = (w_run2.1.1, w_store2, w_run2.2)) as Hrun
    by (unfold w_store2; by destruct w_run2 as [[ol inner] r]).
  assert (∀ o, o ∈ w_ops2 → w_universe o) as Huni by (intros o Ho; right; exact Ho).
  apply (as_valid _ _ _ _ _ _ _ (admit_with_retry_ok w_universe w_collision_free None alone w_oplog store_empty None
    w_ops2 w_ids None w_run2.1.1 w_store2 w_run2.2 (store_empty_valid _) w_cache Huni alone_harmless Hrun)).
Qed.


(** Projecting to the note. *)
Definition w_projected : TopicState * gmap OpId TopicState :=
  value (project_membership w_store (small_id 1) {[small_id 21]} ∅ ∅ ∅) (state2, ∅).
Lemma stored_reads (inner : MemoryInner mclock) t i o m :
  entries_of (s_log inner) t i o m → op_projected inner ∅ i = Ok o ∧ meta_projected inner ∅ i = Ok m.
Proof. intros (Ho & Hm & _). unfold op_projected, meta_projected. by rewrite !lookup_empty Ho Hm. Qed.
Lemma stored_member (inner : MemoryInner mclock) t i :
  om_topic_id <$> l_meta (s_log inner) !! i = Some t → is_Some (l_ops (s_log inner) !! i) →
  member (entries_of (s_log inner) t) i.
Proof. intros (m & Hm & Ht)%fmap_Some [o Ho]. by exists o, m. Qed.
Lemma w_projected_ok : project_membership w_store (small_id 1) {[small_id 21]} ∅ ∅ ∅ =
  Ok (w_projected.1, w_projected.2).
Proof.
  unfold w_projected.
  assert (is_ok (project_membership w_store (small_id 1) {[small_id 21]} ∅ ∅ ∅) = true) as Hok
    by (vm_compute; reflexivity).
  by destruct (project_membership _ _ _ _ _ _) as [[s p]|e].
Qed.
Lemma w_note_member d : d ∈ ({[small_id 21]} : gset OpId) → member (entries_of (s_log w_store) (small_id 1)) d.
Proof.
  intros ->%elem_of_singleton. apply stored_member; [vm_compute; reflexivity|].
  apply (bool_decide_unpack _). vm_compute. reflexivity.
Qed.

Lemma projection_exact_witness :
  state_at (entries_of (s_log w_store) (small_id 1)) {[small_id 21]} w_projected.1.
Proof.
  refine (proj1 (projection_exact w_store ∅ ∅ (entries_of (s_log w_store) (small_id 1)) (small_id 1) _ _
    (nd_topics _ (v_node _ _ w_store_valid) (small_id 1)) (stored_reads w_store (small_id 1)) ∅ {[small_id 21]}
    w_projected.1 w_projected.2 _ w_note_member w_projected_ok)).
  intros i s Hi. discriminate Hi.
Defined.

(** ** Colliding genesis operations *)

(** Peer 4 created the topic too. *)
Definition w_rival : Op :=
  w_op 5 (small_id 4) 1 None ∅ 0
    (Genesis {| event_type_id := "note"; initial_peers := w_peers; replication_policy := policy_all |}).
Definition w_rival_store : MemoryInner mclock :=
  (admit_with_retry (C := mclock) None alone w_oplog store_empty None [w_rival] {[small_id 5]} None).1.2.
Definition w_state : TopicState := default state2 (topic_state_locked w_store (small_id 1)).
Definition w_rival_state : TopicState := default state2 (topic_state_locked w_rival_store (small_id 1)).

Lemma w_state_ok : topic_state_locked w_store (small_id 1) = Some w_state.
Proof. apply (bool_decide_unpack _). vm_compute. reflexivity. Qed.

Definition w_resolution := resolve_genesis_collision w_store [w_rival] {[small_id 5]}.
Definition w_resolved : list Op * option ResetPlan * option OpId := value w_resolution ([], None, None).
Lemma w_resolution_ok : w_resolution = Ok (w_resolved.1.1, w_resolved.1.2, w_resolved.2).
Proof.
  unfold w_resolved. assert (is_ok w_resolution = true) as Hok by (vm_compute; reflexivity).
  by destruct w_resolution as [[[k p] r]|e].
Qed.

(** The smaller rival resets the topic; the note of the losing branch is evicted. *)
Lemma collision_resolution_witness :
  blt (op_id w_rival) (ts_genesis w_state) ∧
  (te_losing_genesis ∘ rp_eviction) <$> w_resolved.1.2 = Some (small_id 20).
Proof.
  destruct (collision_resolution w_store [w_rival] {[small_id 5]} w_rival w_state
    w_resolved.1.1 w_resolved.1.2 w_resolved.2) as [_ Hres].
  - apply (nd_store _ (v_node _ _ w_store_valid)).
  - split; [reflexivity|]. split; [exact w_state_ok|]. vm_compute. discriminate.
  - exact w_resolution_ok.
  - assert (is_Some w_resolved.1.2) as [p Hp] by (apply (bool_decide_unpack _); vm_compute; reflexivity).
    rewrite Hp in Hres |- *. destruct Hres as (_ & _ & Hlt & _ & Hlose & _). split; [exact Hlt|].
    simpl. rewrite Hlose. vm_compute. reflexivity.
Defined.

