(* ===== verification/CreationWitness.v ===== *)
(** * A run of local creation

    Peer 3, whose genesis is no longer a head, writes a note to the topic of
    [OplogWitness]: the note depends on the genesis and on the note of peer 4, so the
    walk over its dependencies runs. Another topic is created together with its first
    note. *)

From stdpp Require Import relations.
From S2P Require Import Prelude Ids Frame ClockSpec Types Membership Topology.
From S2P Require Import Pages Evidence Records Pool Store StoreLog StoreAdmit StoreOps StoreReset.
From S2P Require Import StoreEvidence StoreRun StoreReads StoreWitness.
From S2P Require Import Admission Dag Projection Building Commit Genesis Oplog Evolve OplogInv OplogWitness.
From S2P Require Import Creation CreationInv CreationPair CreationEnds.

#[local] Open Scope N_scope.
#[local] Existing Instance toy_crypto.
#[local] Existing Instance toy_env.
#[local] Existing Instance toy_oplog_env.

Definition c_topic : TopicId := small_id 1.
Definition c_signer : Signer := toy_signer (small_id 3).
Definition c_actor : ActorId := actor_id_for c_topic (small_id 3).
Definition c_note : TopicPayload := Event {| type_id := "note"; ev_payload := [7] |}.
Definition c_alone : nat → MemoryInner mclock → MemoryInner mclock := λ _ st, st.

(** The operation of the body, as the signer signs it. *)
Definition c_op : Op := value (op_sign (local_body w_store c_topic c_actor c_note c_signer) c_signer) w_note.
Definition c_universe (o : Op) : Prop := o ∈ c_op :: w_ops.

Lemma c_collision_free : collision_free c_universe.
Proof.
  intros o o' Ho Ho' Hid. apply (ids_unique_NoDup (c_op :: w_ops)); [|done..].
  apply (bool_decide_unpack _). vm_compute. reflexivity.
Qed.
Lemma c_valid : valid c_universe w_store.
Proof.
  pose proof w_store_valid as [Hn Hc Ho Hb]. split; [exact Hn|exact Hc| |]; [|intros i o Hi; destruct (Hb i o Hi) as [Hu Hr]; split; [right; exact Hu|exact Hr]].
  intros i o Hi. right. exact (Ho i o Hi).
Qed.
Lemma c_signed : op_sign (local_body w_store c_topic c_actor c_note c_signer) c_signer = Ok c_op.
Proof. apply value_ok. vm_compute. reflexivity. Qed.

(** A run that succeeds, with its result. *)
Lemma run_ok {A B R} (x : A * B * res R) (d : R) : is_ok x.2 = true → x = (x.1.1, x.1.2, Ok (value x.2 d)).
Proof. by destruct x as [[a b] [r|e]]. Qed.

Definition c_run := create_local_effects (C := mclock) None 10%nat c_alone (Ok ()) c_topic c_actor c_note c_signer
  no_effects O w_store.
Definition c_made : Op * OpMeta mclock := value c_run.2 (w_note, unlimited_meta w_note ∅).
Lemma c_run_ok : c_run = (c_run.1.1, c_run.1.2, Ok c_made).
Proof. apply run_ok. vm_compute. reflexivity. Qed.
Lemma c_made_op : c_made.1 = c_op.
Proof. apply (bool_decide_unpack _). vm_compute. reflexivity. Qed.
Lemma c_universe_op : c_universe c_op.
Proof. by left. Qed.
Lemma c_harmless n : harmless c_universe (c_alone n).
Proof. intros st Hst. split; [exact Hst|apply evolves_refl]. Qed.

Lemma made_in (U : Op → Prop) (made : Op * OpMeta mclock) :
  U made.1 → ∀ op meta, (Ok made : res _) = Ok (op, meta) → U op.
Proof. by intros HU op meta [= ->]. Qed.
Lemma made_parts (made : Op * OpMeta mclock) : (Ok made : res _) = Ok (made.1, made.2).
Proof. by destruct made. Qed.

Lemma creation_safe_witness :
  valid c_universe c_run.1.2 ∧ created c_universe w_store c_run.1.2 c_topic c_note c_signer c_made.1 c_made.2.
Proof.
  destruct (creation_safe c_universe c_collision_free None 10%nat c_alone c_harmless (Ok ()) c_topic c_actor c_note c_signer
    no_effects O w_store c_run.1.1 c_run.1.2 (Ok c_made) c_valid c_run_ok) as (Hv & _ & Hcr).
  - apply made_in. rewrite c_made_op. exact c_universe_op.
  - split; [exact Hv|]. apply Hcr, made_parts.
Defined.

(** The note depends on both operations and the walk runs. *)
Lemma c_deps : bt_elements (deps (obody c_op)) = [small_id 20; small_id 21].
Proof. vm_compute. reflexivity. Qed.

Lemma c_may_create : may_create w_store c_topic c_actor c_note c_signer.
Proof.
  split; [reflexivity| | |].
  - intros s i Htip.
    assert (fst <$> l_actor_tip (s_log w_store) !! (c_topic, c_actor) = Some 1) as Hs by (vm_compute; reflexivity).
    rewrite Htip in Hs. injection Hs as ->. vm_compute. discriminate.
  - vm_compute. discriminate.
  - exists w_state. split; [exact w_state_ok|]. split; [apply (bool_decide_unpack _); vm_compute; reflexivity|].
    split; [|left; apply (bool_decide_unpack _); vm_compute; reflexivity].
    intros env [= <-]. vm_compute. reflexivity.
Qed.

Lemma creation_succeeds_witness :
  ∃ n st meta,
    create_local_effects None 10%nat c_alone (Ok ()) c_topic c_actor c_note c_signer no_effects O w_store =
      (n, st, Ok (c_op, meta)) ∧ l_ops (s_log st) !! op_id c_op = Some c_op.
Proof.
  destruct (creation_succeeds c_universe c_collision_free 10%nat c_alone (λ _ _, eq_refl) w_store c_topic c_actor c_note
    c_signer c_op O c_valid) as (n & st & meta & Hrun & _ & _ & base & _ & _ & Hst).
  - split; [reflexivity|]. intros heads clock. by eexists.
  - exact c_may_create.
  - exact c_signed.
  - vm_compute. reflexivity.
  - vm_compute. reflexivity.
  - exact c_universe_op.
  - apply (bool_decide_unpack _). vm_compute. reflexivity.
  - exists n, st, meta. split; [exact Hrun|]. apply (sa_entry _ _ _ _ _ _ Hst).
Defined.

(** Peer 9 is no member. *)
Lemma creation_refused_witness :
  ∃ n, create_local_effects None 10%nat c_alone (Ok ()) c_topic c_actor c_note (toy_signer (small_id 9)) no_effects O w_store =
    (n, w_store, Err NotTopicMember).
Proof.
  destruct (creation_refused 10%nat c_alone (λ _ _, eq_refl) None w_store c_topic c_actor c_note (toy_signer (small_id 9))
    no_effects O NotTopicMember) as (n & Hrun & _).
  - intros g Hg. discriminate Hg.
  - vm_compute. reflexivity.
  - exists n. exact Hrun.
Defined.

(** ** A topic and its first note *)

Definition p_genesis : TopicGenesis :=
  {| event_type_id := "note"; initial_peers := {[small_id 4]}; replication_policy := policy_all |}.
Definition p_event : EventEnvelope := {| type_id := "note"; ev_payload := [7] |}.
Definition p_run := create_genesis_effects (C := mclock) None 10%nat c_alone (Ok ()) c_topic c_actor p_genesis p_event c_signer
  no_effects O store_empty.
Definition p_made : (Op * OpMeta mclock) * (Op * OpMeta mclock) :=
  value p_run.2 ((w_note, unlimited_meta w_note ∅), (w_note, unlimited_meta w_note ∅)).
Lemma p_run_ok : p_run = (p_run.1.1, p_run.1.2, Ok p_made).
Proof. apply run_ok. vm_compute. reflexivity. Qed.
Definition p_universe (o : Op) : Prop := o ∈ [p_made.1.1; p_made.2.1].
Lemma p_collision_free : collision_free p_universe.
Proof.
  intros o o' Ho Ho' Hid. apply (ids_unique_NoDup [p_made.1.1; p_made.2.1]); [|done..].
  apply (bool_decide_unpack _). vm_compute. reflexivity.
Qed.
Lemma p_harmless n : harmless p_universe (c_alone n).
Proof. intros st Hst. split; [exact Hst|apply evolves_refl]. Qed.

Lemma both_in (U : Op → Prop) (made : (Op * OpMeta mclock) * (Op * OpMeta mclock)) :
  U made.1.1 → U made.2.1 → ∀ p, (Ok made : res _) = Ok p → U p.1.1 ∧ U p.2.1.
Proof. by intros H1 H2 p [= <-]. Qed.

