(* ===== verification/EvidenceWitness.v ===== *)
(** * Evidence of a peer and staged topics on small stores *)

From stdpp Require Import relations.
From S2P Require Import Prelude Ids Frame ClockSpec Types Membership Evidence Records Pool Store StoreLog StoreAdmit StoreOps.
From S2P Require Import StoreReset StoreEvidence StoreRun StoreReads StoreWitness Admission Dag Projection Building Commit Genesis Oplog Evolve OplogInv.
From S2P Require Import Receive SyncEvidence SyncEvidenceInv Staging StagingCopy StagingInv StagingRun Bootstrap OplogWitness.

#[local] Open Scope N_scope.
#[local] Existing Instance toy_crypto.
#[local] Existing Instance toy_env.
#[local] Existing Instance toy_oplog_env.

#[local] Instance toy_acks : AckCodec mclock := {| canonical_ack _ _ _ _ _ _ := Ok [] |}.

(** The peer has the same copy of the topic and owes nothing: it acknowledges its heads. *)
Definition e_topic : TopicId := small_id 1.
Definition e_peer : PeerId := small_id 4.
Definition e_heads : gset OpId := default ∅ (s_heads w_store !! e_topic).
Definition e_history : history (C := mclock) := entries_of (s_log w_store) e_topic.

Definition e_owing : MemoryInner mclock * res unit := put_obligation (λ _ s, s) w_store e_peer e_topic {[small_id 21; small_id 99]}.
Definition e_ack : SyncAck mclock :=
  {| sa_topic_id := e_topic; sa_peer_id := e_peer; sa_genesis := Some (small_id 20); sa_accepted := ∅; sa_heads := e_heads;
     sa_clock := clock_of w_store e_topic; sa_signature := Some ACK_SIGNING_DOMAIN |}.
Definition e_applied : MemoryInner mclock * res unit := apply_ack (small_id 3) (λ s, s) w_store e_ack.

Lemma e_owing_ok : is_ok e_owing.2 = true.
Proof. vm_compute. reflexivity. Qed.
Lemma e_acked : bool_decide (is_Some (s_peer_acks e_applied.1 !! (e_peer, e_topic))) = true.
Proof. vm_compute. reflexivity. Qed.

Lemma w_store_acks k : s_peer_acks w_store !! k = None.
Proof. assert (s_peer_acks w_store = ∅) as -> by by vm_compute. apply lookup_empty. Qed.

Lemma e_believed : believed w_store e_peer e_topic e_history.
Proof. intros record state Hrec. discriminate (eq_trans (eq_sym Hrec) (w_store_acks (e_peer, e_topic))). Qed.

Lemma e_same i o1 (m1 : OpMeta mclock) o2 m2 :
  entries_of (s_log w_store) e_topic i o1 m1 → e_history i o2 m2 → o1 = o2.
Proof. intros [H1 _] [H2 _]. pose proof (eq_trans (eq_sym H1) H2) as H. by injection H. Qed.

Lemma e_heads_held h : h ∈ e_heads → member e_history h.
Proof. intros Hh. by apply (h_heads _ _ _ _ (nd_topics _ (v_node _ _ w_store_valid) e_topic)). Qed.

Lemma e_applied_ends : e_applied = (e_applied.1, e_applied.2).
Proof. by destruct e_applied. Qed.


Lemma w_store_owes_none : s_obligations w_store = ∅.
Proof. by vm_compute. Qed.

Lemma put_obligation_owes_witness :
  ∃ ob left, owed (s_obligations e_owing.1) (e_topic, e_peer) RepairKind = Some ob ∧ ob_target ob = RepairTarget left ∧ small_id 99 ∈ left.
Proof.
  assert (obligations_ok (s_obligations w_store)) as Hok.
  { rewrite w_store_owes_none. intros k r Hr. by rewrite lookup_empty in Hr. }
  assert (e_owing = (e_owing.1, Ok ())) as Hrun.
  { pose proof e_owing_ok as Hr. destruct e_owing as [inner [[]|e]]; [reflexivity|discriminate Hr]. }
  assert (positions w_store (small_id 99) = None) as Hp by by vm_compute.
  pose proof (put_obligation_owes w_store e_peer e_topic {[small_id 21; small_id 99]} e_owing.1 Hok Hrun (small_id 99)) as H.
  rewrite Hp in H. apply H. apply elem_of_union_r. by apply elem_of_singleton.
Defined.

(** Every fingerprint is the same here, and the peer has the same heads. *)
Lemma e_view_some :
  ∃ view inner', topic_view_locked w_store e_topic None = Ok (Some view) ∧ ts_heads (tv_state view) = e_heads ∧
    record_fingerprint w_store (Some (view, true)) e_peer e_topic [] = (inner', Ok true).
Proof.
  assert (match topic_view_locked w_store e_topic None with
          | Ok (Some view) =>
              bool_decide (ts_heads (tv_state view) = e_heads) &&
              match (record_fingerprint w_store (Some (view, true)) e_peer e_topic []).2 with Ok b => b | _ => false end
          | _ => false end = true) as Hok by (vm_compute; reflexivity).
  destruct (topic_view_locked w_store e_topic None) as [[view|]|]; [|discriminate Hok..].
  apply andb_true_iff in Hok as [Hh Hr]. exists view.
  destruct (record_fingerprint w_store (Some (view, true)) e_peer e_topic []) as [inner' [[]|]]; [|discriminate Hr..].
  exists inner'. split; [reflexivity|]. split; [exact (bool_decide_eq_true_1 _ Hh)|reflexivity].
Qed.

Lemma fingerprint_sound_witness :
  ∃ view inner', topic_view_locked w_store e_topic None = Ok (Some view) ∧
    record_fingerprint w_store (Some (view, true)) e_peer e_topic [] = (inner', Ok true) ∧
    believed inner' e_peer e_topic e_history.
Proof.
  destruct e_view_some as (view & inner' & Hview & Hheads & Hrec). exists view, inner'. split; [exact Hview|]. split; [exact Hrec|].
  exact (fingerprint_sound w_universe w_store w_store view true e_peer e_topic [] inner' e_history e_heads
    (topic_state_locked w_store e_topic) ck_new w_store_valid w_store_valid (evolves_refl _) e_believed Hview
    (nd_topics _ (v_node _ _ w_store_valid) e_topic) e_same eq_refl (λ _ _, Hheads) Hrec).
Defined.

(** ** Staged topics on small stores *)

(** ** Activation

    A source staged the topic of the run of the op log: two stored operations and one that
    waits. The main store is empty. *)

Definition g_topic : TopicId := small_id 1.
Definition g_staged (source session bytes : N) : ProvisionalTopic :=
  {| pt_source := small_id source; pt_topic_id := g_topic; pt_genesis := small_id 20; pt_session := session; pt_updated_ms := 0;
     pt_activating := false; pt_revision := 0; pt_bytes := bytes |}.
Definition g_state : TopicState := default
  {| ts_topic_id := g_topic; ts_event_type_id := ""; ts_genesis := small_id 0; ts_heads := ∅; ts_members := ∅; ts_replication_policy := policy_all;
     ts_membership_controls := ∅; ts_replication_policy_control := None |} (topic_state_locked w_store g_topic).
Definition g_storage (inner : MemoryInner mclock) : MemoryStorage mclock :=
  {| ms_inner := inner;
     ms_staging := {| sg_namespaces := <[(small_id 5, g_topic) := (g_staged 5 1 10, w_store)]> ∅; sg_sessions := 1 |} |}.
Definition g_active : MemoryStorage mclock * res unit :=
  activate_namespace None (g_storage store_empty) (g_staged 5 1 10) g_state [].

Lemma g_active_ok : is_ok g_active.2 = true.
Proof. vm_compute. reflexivity. Qed.
Lemma g_active_buffered : bt_elements (dom (p_records (s_pool (ms_inner g_active.1)))) = [small_id 23].
Proof. vm_compute. reflexivity. Qed.

Lemma one_namespace (x : MemoryInner mclock) (k key : PeerId * TopicId) (q p : ProvisionalTopic) (s : MemoryInner mclock) :
  (<[k := (q, x)]> ∅ : gmap (PeerId * TopicId) (ProvisionalTopic * MemoryInner mclock)) !! key = Some (p, s) → s = x.
Proof. intros [[_ Heq]|[_ Hk]]%lookup_insert_Some; [by injection Heq|by rewrite lookup_empty in Hk]. Qed.


(** ** What an activation does not look at

    The main store has buffered an operation of another topic that waits for the genesis
    of this one. The genesis becomes active, and the operation still waits for it. *)

Definition g_other : Op :=
  {| op_id := small_id 40;
     signed := {| body := {| topic_id := small_id 2; author := small_id 3; actor_id := actor_id_for (small_id 2) (small_id 3);
       actor_seq := 2; actor_prev := Some (small_id 39); deps := {[small_id 20]}; generation := 2;
       payload := Event {| type_id := "note"; ev_payload := [] |} |}; signature := [] |} |}.
Definition g_waiting : MemoryInner mclock :=
  set_pool store_empty (buffer pool_empty (small_id 3) g_other {[small_id 20]} 10).
Definition g_after : MemoryStorage mclock * res unit := activate_namespace None (g_storage g_waiting) (g_staged 5 1 10) g_state [].

Theorem activation_leaves_waiter :
  is_ok g_after.2 = true ∧ dep_resolvable_locked (ms_inner g_after.1) (small_id 20) = true ∧
  pr_missing <$> p_records (s_pool (ms_inner g_after.1)) !! small_id 40 = Some {[small_id 20]} ∧
  small_id 40 ∉ p_ready (s_pool (ms_inner g_after.1)).
Proof.
  split; [vm_compute; reflexivity|]. split; [vm_compute; reflexivity|].
  split; apply (bool_decide_unpack _); vm_compute; reflexivity.
Qed.

(** ** Limits *)

Definition g_opened : MemoryStorage mclock * res ProvisionalTopic :=
  open_namespace staging_limits_memory None staging_empty (small_id 5) g_topic (small_id 20) 0.

Lemma staged_within_limits_witness : limited staging_limits_memory g_opened.1.
Proof.
  apply staged_within_limits; [by apply (bool_decide_unpack _)|]. eapply rtc_once, opens.
  exact (surjective_pairing g_opened).
Defined.

(** A namespace that was discarded; its session was the first. *)
Definition g_view : View := {| vw_source := small_id 5; vw_topic_id := g_topic; vw_session := 1 |}.
Definition g_empty : MemoryStorage mclock := {| ms_inner := store_empty; ms_staging := {| sg_namespaces := ∅; sg_sessions := 1 |} |}.
Definition g_reopened : MemoryStorage mclock * res ProvisionalTopic :=
  open_namespace staging_limits_memory None g_empty (small_id 5) g_topic (small_id 20) 0.

Lemma stale_view_refused_witness : lock_view (ms_staging g_reopened.1) g_view = Err StaleIncarnation.
Proof.
  apply (stale_view_refused staging_limits_memory g_empty g_reopened.1 g_view).
  - split; [by apply (bool_decide_unpack _)|]. intros p s Hp. by rewrite lookup_empty in Hp.
  - eapply rtc_once, opens. exact (surjective_pairing g_reopened).
Defined.

(** Two sources staged the topic; the limit leaves room for two such stagings and a half. *)
Definition g_limits : StagingLimits :=
  {| sl_total_bytes := 25; sl_source_bytes := 25; sl_namespace_bytes := 25; sl_namespaces := 4; sl_source_namespaces := 2 |}.
Definition g_two : MemoryStorage mclock :=
  {| ms_inner := store_empty;
     ms_staging := {| sg_namespaces := <[(small_id 5, g_topic) := (g_staged 5 1 10, w_store)]> (<[(small_id 6, g_topic) := (g_staged 6 2 10, w_store)]> ∅);
                      sg_sessions := 2 |} |}.
Definition g_room : MemoryStorage mclock * res unit := make_room g_limits (λ _ st, st) g_two (g_staged 6 2 10) 10.

Lemma two_namespaces (x : MemoryInner mclock) (k1 k2 key : PeerId * TopicId) (q1 q2 p : ProvisionalTopic) (s : MemoryInner mclock) :
  (<[k1 := (q1, x)]> (<[k2 := (q2, x)]> ∅) : gmap (PeerId * TopicId) (ProvisionalTopic * MemoryInner mclock)) !! key = Some (p, s) →
  s = x ∧ (key = k1 ∧ p = q1 ∨ key = k2 ∧ p = q2).
Proof.
  intros [[<- [= <- <-]]|[_ [[<- [= <- <-]]|[_ Hk]]%lookup_insert_Some]]%lookup_insert_Some; [split; [done|by left]|split; [done|by right]|].
  by rewrite lookup_empty in Hk.
Qed.

Lemma two_sum (x : MemoryInner mclock) (k1 k2 : PeerId * TopicId) (q1 q2 : ProvisionalTopic) (w : (PeerId * TopicId) * (ProvisionalTopic * MemoryInner mclock) → N) :
  k1 ≠ k2 → sumw w (<[k1 := (q1, x)]> (<[k2 := (q2, x)]> ∅)) = w (k1, (q1, x)) + w (k2, (q2, x)).
Proof.
  intros Hne. rewrite sumw_insert; [by rewrite lookup_insert_ne // lookup_empty|]. rewrite sumw_insert; [apply lookup_empty|].
  by rewrite sumw_empty N.add_0_r.
Qed.

Lemma g_two_cases key p s : sg_namespaces (ms_staging g_two) !! key = Some (p, s) →
  s = w_store ∧ (key = (small_id 5, g_topic) ∧ p = g_staged 5 1 10 ∨ key = (small_id 6, g_topic) ∧ p = g_staged 6 2 10).
Proof. exact (two_namespaces w_store _ _ key _ _ p s). Qed.

Lemma g_two_limited : limited g_limits g_two.
Proof.
  assert (∀ w : (PeerId * TopicId) * (ProvisionalTopic * MemoryInner mclock) → N, sumw w (sg_namespaces (ms_staging g_two)) =
    w ((small_id 5, g_topic), (g_staged 5 1 10, w_store)) + w ((small_id 6, g_topic), (g_staged 6 2 10, w_store))) as Hsum.
  { intros w. apply (two_sum w_store (small_id 5, g_topic) (small_id 6, g_topic) (g_staged 5 1 10) (g_staged 6 2 10) w).
    apply (bool_decide_unpack _). vm_compute. reflexivity. }
  split.
  - intros key p s (-> & Hk)%g_two_cases. assert (held_bytes w_store = 10) as Hheld by (vm_compute; reflexivity).
    destruct Hk as [[-> ->]|[-> ->]]; (split; [reflexivity|by apply (bool_decide_unpack _)|by rewrite Hheld|by apply (bool_decide_unpack _)|exact (v_consistent _ _ w_store_valid)]).
  - intros key1 p1 s1 key2 p2 s2 [_ He1]%g_two_cases [_ He2]%g_two_cases Hs.
    destruct He1 as [[-> ->]|[-> ->]], He2 as [[-> ->]|[-> ->]]; [reflexivity|discriminate Hs|discriminate Hs|reflexivity].
  - rewrite Hsum. by apply (bool_decide_unpack _).
  - intros source. rewrite Hsum. unfold bytes_from. repeat case_decide; by apply (bool_decide_unpack _).
  - assert (size (sg_namespaces (ms_staging g_two)) = 2%nat) as -> by (vm_compute; reflexivity). by apply (bool_decide_unpack _).
  - intros source. rewrite source_count_sum Hsum. unfold one_from. repeat case_decide; by apply (bool_decide_unpack _).
Qed.

