(* ===== verification/PagerWitness.v ===== *)
(** * A page planned over a small store

    The store of [OplogWitness.v] has a genesis and a note. The peer has nothing, and the
    theorems on planning apply to the page it gets. *)

From stdpp Require Import relations.
From S2P Require Import Prelude Ids Frame ClockSpec Types Membership Topology.
From S2P Require Import Pages Evidence Records Pool Store StoreLog StoreReads StoreWitness Integrity Requests.
From S2P Require Import Admission Dag Commit Oplog Evolve OplogWitness.
From S2P Require Import Programs Slices Pager PagerInv PagerSteps PagerPlan PagerRun.

#[local] Open Scope N_scope.
#[local] Existing Instance toy_crypto.
#[local] Existing Instance toy_env.
#[local] Existing Instance toy_oplog_env.

#[local] Instance toy_sizes : Sizes := {|
  serialized_size _ := Ok 100;
  size_of_op := 64; size_of_head := 96; size_of_ancestor := 96; size_of_scan := 128;
|}.

Definition p_slice : Slice :=
  {| sl_limit := 1000; sl_visits := 0; sl_scanned := 0; sl_edges := 0; sl_workspace := 0; sl_decoded := 0;
     sl_decode_limit := MAX_PAGE_BYTES; sl_preparation := 0; sl_input_units := 0; sl_preparation_bytes := 0;
     sl_authorization_reads := 0; sl_captured := 0 |}.
Definition p_budget : PageBudget := {| pb_ops := 16; pb_bytes := 4096 |}.
Definition p_pool : RecordPool := {| rp_live := 0; rp_cached := 0 |}.
(** Nobody else uses the pool of records. *)
Definition p_others : nat → RecordPool → RecordPool := λ _ pool, pool.
Definition p_topic : TopicId := small_id 1.
Definition p_clock : mclock := clock_of w_store p_topic.
Definition p_has : OpId → Prop := λ _, False.

Definition p_run : option (res (PlannedPage * gmap ActorId N * option (Frontier mclock) * Pager mclock)) :=
  plan_page p_others 8 8 w_store p_topic p_clock ck_new None scope_whole ∅ ∅ p_budget p_slice p_pool.
Definition p_none : PlannedPage * gmap ActorId N * option (Frontier mclock) * Pager mclock :=
  ((page_default, ∅, None), MkPager (fr_walk (frontier_new ck_new scope_whole 8 (records_new p_pool))) p_slice true true).
Definition p_out : PlannedPage * gmap ActorId N * option (Frontier mclock) * Pager mclock :=
  match p_run with
  | Some (Ok x) => x
  | _ => p_none
  end.

Lemma p_run_view :
  (match p_run with Some (Ok _) => true | _ => false end, op_id <$> pp_ops p_out.1.1.1, pp_more p_out.1.1.1, pg_ended p_out.2,
   w_remainder (pg_walk p_out.2)) = (true, [small_id 20; small_id 21], false, false, false).
Proof. vm_compute. reflexivity. Qed.

Lemma p_ok : match p_run with Some (Ok _) => true | _ => false end = true.
Proof. exact (f_equal (λ x, x.1.1.1.1) p_run_view). Qed.
Lemma p_ids : op_id <$> pp_ops p_out.1.1.1 = [small_id 20; small_id 21].
Proof. exact (f_equal (λ x, x.1.1.1.2) p_run_view). Qed.
Lemma p_more : pp_more p_out.1.1.1 = false.
Proof. exact (f_equal (λ x, x.1.1.2) p_run_view). Qed.
Lemma p_ended : pg_ended p_out.2 = false.
Proof. exact (f_equal (λ x, x.1.2) p_run_view). Qed.
Lemma p_remainder : w_remainder (pg_walk p_out.2) = false.
Proof. exact (f_equal snd p_run_view). Qed.
Lemma p_run_ends : p_run = Some (Ok ((p_out.1.1.1, p_out.1.1.2, p_out.1.2), p_out.2)).
Proof. pose proof p_ok as Hok. unfold p_out. by destruct p_run as [[[[[page pos] fr] p]|e]|]. Qed.

Lemma p_node : node_ok w_store.
Proof. apply (v_node _ _ w_store_valid). Qed.
Lemma p_tips a : tip_of w_store p_topic a ≤ u64_max.
Proof.
  assert (map_Forall (λ _ x, x.1 ≤ u64_max) (l_actor_tip (s_log w_store))) as Hall.
  { apply (bool_decide_unpack _). vm_compute. exact I. }
  unfold tip_of. destruct (l_actor_tip (s_log w_store) !! (p_topic, a)) as [x|] eqn:Hx; [|done].
  exact (Hall _ _ Hx).
Qed.
Lemma p_sound : sound_scope w_store p_topic ck_new scope_whole ∅ p_has.
Proof.
  split.
  - intros a. rewrite ck_get_view ck_view_new lookup_empty. apply nothing_below, p_node.
  - intros a k. unfold known_prefix. simpl. by rewrite lookup_empty.
  - intros a s. unfold holds_prefix. simpl. by rewrite andb_false_r.
  - by intros d ?%elem_of_empty.
Qed.

Definition p_author : ActorId := actor_id_for (small_id 1) (small_id 4).
Lemma p_note_at : at_pos w_store p_topic (small_id 21) p_author 1.
Proof.
  assert (match l_meta (s_log w_store) !! small_id 21 with
    | Some m => bool_decide (om_topic_id m = p_topic) && bool_decide (om_actor_id m = p_author) && (om_actor_seq m =? 1)
    | None => false end = true) as Hm by (vm_compute; reflexivity).
  apply at_pos_position. destruct (l_meta (s_log w_store) !! small_id 21) as [m|] eqn:Hl; [|done].
  autorewrite with reflect in Hm. exists m. tauto.
Qed.
Lemma p_note_meta : ∃ m, l_meta (s_log w_store) !! small_id 21 = Some m ∧ om_topic_id m = p_topic.
Proof. destruct (proj1 (at_pos_position _ _ _ _ _) p_note_at) as (m & Hm & Ht & _). exists m. split; assumption. Qed.
Lemma p_note_limit : 1 ≤ limit p_clock None p_author.
Proof. vm_compute. discriminate. Qed.

Lemma plan_causal_witness :
  ∃ ops, op_id <$> ops = [small_id 20; small_id 21] ∧ NoDup (op_id <$> ops).
Proof.
  exists (pp_ops p_out.1.1.1). split; [exact p_ids|].
  exact (proj1 (plan_causal p_others 8 8 w_store p_topic p_clock ck_new None scope_whole ∅ ∅ p_budget p_slice p_pool p_has
    p_out.1.1.1 p_out.1.1.2 p_out.1.2 p_out.2 ltac:(lia) (store_coherent w_store p_topic p_node p_tips) p_sound p_run_ends)).
Defined.

Lemma plan_complete_witness : p_has (small_id 21) ∨ small_id 21 ∈ op_id <$> pp_ops p_out.1.1.1.
Proof.
  apply (plan_complete p_others 8 8 w_store p_topic p_clock ck_new None scope_whole ∅ ∅ p_budget p_slice p_pool p_has
    p_out.1.1.1 p_out.1.1.2 p_out.1.2 p_out.2 ltac:(lia) (store_coherent w_store p_topic p_node p_tips) p_sound p_run_ends
    p_more p_author (small_id 21) 1).
  - right; left. reflexivity.
  - exact p_note_at.
  - exact p_note_limit.
Defined.

Lemma plan_not_stalled_witness : pp_more p_out.1.1.1 = w_remainder (pg_walk p_out.2).
Proof.
  refine (proj1 (plan_not_stalled p_others 8 8 w_store p_topic p_clock ck_new None scope_whole ∅ p_budget p_slice p_pool p_has
    (tip_of w_store p_topic) p_out.1.1.1 p_out.1.1.2 p_out.1.2 p_out.2 ltac:(lia) (store_coherent w_store p_topic p_node p_tips)
    (store_whole w_store p_topic p_node p_tips) p_sound _ _ ltac:(discriminate) ltac:(discriminate) p_run_ends p_ended)).
  - intros a. unfold limit, p_clock. rewrite clock_tips; [exact p_node|reflexivity].
  - right. intros a. unfold p_clock. rewrite clock_tips; [exact p_node|reflexivity].
Defined.

Lemma plan_ends_witness :
  match p_run with
  | Some (Ok ((page, _, _), p)) => N.of_nat (length (pp_ops page)) ≤ 16 ∧ page_size (pp_ops page) ≤ 4096 ∧ (slice_ok p_slice → slice_ok (pg_slice p))
  | Some (Err _) => True
  | None => False
  end.
Proof.
  exact (plan_ends p_others 8 8 w_store p_topic p_clock ck_new None scope_whole ∅ ∅ p_budget p_slice p_pool p_has
    ltac:(lia) (store_coherent w_store p_topic p_node p_tips) p_sound).
Defined.

