(* ===== verification/ClockWitness.v ===== *)
(** * Stored clocks: an encoding, and concrete clocks

    A plain encoding of nodes and an injective hash satisfy what is assumed of postcard
    and blake3, so the theorems on stored clocks can be applied to concrete clocks. *)

From S2P Require Import Prelude Ids Nibble Trie Clock Types Programs ClockStore ClockStoreInv ClockKeep ClockKeepInv ClockScan ClockScanInv.

#[local] Open Scope N_scope.

(** ** A plain encoding *)

Definition plain_to (e : Encoded) : list N :=
  match e with
  | ELeaf actor seq => 0 :: seq :: as_bytes actor
  | EBranch level bitmap len key children =>
      1 :: level :: bitmap :: len :: as_bytes key ++ N.of_nat (length children) :: mjoin children
  end.

Definition plain_prefix (b : list N) : res (Prefix * list N) :=
  match b with
  | tag :: seq :: rest =>
      if (tag =? 0) then
        if seq <=? u64_max then
          actor ← ok_or (from_bytes (take 32 rest)) corrupt; Ok (PLeaf actor seq, drop 32 rest)
        else Err corrupt
      else
        match rest with
        | bitmap :: len :: rest =>
            if (seq <? 256) && (bitmap <? 65536) && (len <=? u64_max) then
              key ← ok_or (from_bytes (take 32 rest)) corrupt; Ok (PBranch seq bitmap len key, drop 32 rest)
            else Err corrupt
        | _ => Err corrupt
        end
  | _ => Err corrupt
  end.

Definition plain_count (b : list N) : res (N * list N) := match b with count :: rest => Ok (count, rest) | [] => Err corrupt end.

Definition plain_from (b : list N) : res Encoded :=
  '(prefix, rest) ← plain_prefix b;
  match prefix with
  | PLeaf actor seq => Ok (ELeaf actor seq)
  | PBranch level bitmap len key =>
      '(count, rest) ← plain_count rest;
      children ← ok_or (get_chunks count rest) corrupt;
      Ok (EBranch level bitmap len key children)
  end.

Definition plain_hash (b : list N) : Hash := N.pos (encode b) :: replicate 31 0.

Lemma plain_chunks hs : Forall (λ h, length h = 32%nat) hs → get_chunks (N.of_nat (length hs)) (mjoin hs) = Some hs.
Proof.
  intros Hhs. assert (length (mjoin hs) = (length hs * 32)%nat ∧ chunks (length hs) (mjoin hs) = hs) as [Hlen Hch].
  { induction Hhs as [|h hs Hh _ [IHl IHc]]; [done|]. change (mjoin (h :: hs)) with (h ++ mjoin hs).
    cbn [length chunks]. rewrite length_app. split; [lia|].
    rewrite -Hh take_app_length drop_app_length. f_equal. exact IHc. }
  unfold get_chunks. rewrite Nat2N.id Hch. rewrite (proj2 (N.leb_le _ _)); [lia|done].
Qed.

Lemma chunks_32 count b hs : get_chunks count b = Some hs → Forall (λ h, length h = 32%nat) hs.
Proof.
  unfold get_chunks. case_match eqn:Hle; [|done]. apply N.leb_le in Hle. intros [= <-].
  assert (N.to_nat count * 32 ≤ length b)%nat as Hle' by lia. clear Hle. revert b Hle'.
  induction (N.to_nat count) as [|c IH]; intros b Hle; simpl; constructor.
  - rewrite length_take. lia.
  - apply IH. rewrite length_drop. lia.
Qed.

Lemma plain_id {k} (a : id k) rest : from_bytes (take 32 (as_bytes a ++ rest)) = Some a ∧ drop 32 (as_bytes a ++ rest) = rest.
Proof. change 32%nat with LEN. rewrite -(as_bytes_length a) take_app_length drop_app_length. split; [apply from_bytes_as_bytes|done]. Qed.

#[global] Program Instance plain_codec : NodeCodec := {|
  node_to_bytes := plain_to; node_from_bytes := plain_from; node_blake3 := plain_hash;
|}.
Next Obligation.
  intros [a s|l bm len k hs]; simpl.
  - intros Hs. destruct (plain_id a []) as [Ha _]. rewrite app_nil_r in Ha. unfold plain_from, plain_prefix. simpl.
    rewrite (proj2 (N.leb_le _ _) Hs). by rewrite Ha.
  - intros (Hl & Hb & Hn & Hhs). unfold plain_from, plain_prefix. cbn [N.eqb].
    rewrite (proj2 (N.ltb_lt _ _) Hl) (proj2 (N.ltb_lt _ _) Hb) (proj2 (N.leb_le _ _) Hn). cbn [andb].
    destruct (plain_id k (N.of_nat (length hs) :: mjoin hs)) as [-> ->]. cbn [ok_or]. res_step. cbn [plain_count]. res_step.
    by rewrite plain_chunks.
Qed.
Next Obligation.
  intros b e. unfold plain_from, plain_prefix. destruct b as [|tag [|seq rest]]; [done..|].
  destruct (tag =? 0).
  - destruct (N.leb_spec seq u64_max); [|done]. destruct (from_bytes _); [|done]. by intros [= <-].
  - destruct rest as [|bm [|len rest]]; [done..|].
    destruct (N.ltb_spec seq 256), (N.ltb_spec bm 65536), (N.leb_spec len u64_max); try done. cbn [andb].
    destruct (from_bytes _); [|done]. cbn [ok_or]. res_step. destruct (plain_count _) as [[count rest']|]; [|done]. res_step.
    destruct (get_chunks count rest') as [hs|] eqn:Hch; [|done]. intros [= <-]. split_and!; try done. by eapply chunks_32.
Qed.
Next Obligation. intros b. unfold plain_hash. by rewrite length_cons length_replicate. Qed.

#[global] Program Instance plain_prefixes : PrefixCodec := {| take_prefix := plain_prefix; take_count := plain_count |}.
Next Obligation.
  intros b e. simpl. unfold plain_from. destruct (plain_prefix b) as [[[a s|l bm len k] rest]|]; res_step; [naive_solver| |done].
  destruct (plain_count rest) as [[count rest']|]; res_step; [|naive_solver].
  destruct (get_chunks count rest') as [hs|] eqn:Hch; cbn [ok_or]; res_step; naive_solver.
Qed.

Lemma plain_no_collision (b1 b2 : list N) : True → True → digest b1 = digest b2 → b1 = b2.
Proof. unfold digest. simpl. unfold plain_hash. intros _ _ Heq. injection Heq as Heq%(inj encode). by simplify_eq. Qed.

(** ** Concrete clocks *)

Definition k_one : ActorClock := put (put new (small_id 1) (Some 3)) (small_id 2) (Some 5).
Definition k_two : ActorClock := put k_one (small_id 200) (Some 7).

Definition k_anything : list N → Prop := λ _, True.
Definition k_others : nat → gmap Hash Node → gmap Hash Node := λ _ nodes, nodes.
Definition k_alive : nat → Hash → bool := λ _ _, true.

Lemma k_storable c : wf_clock c → from_option (λ n, (node_len n <=? u64_max) && forallb (λ e : ActorId * N, e.2 <=? u64_max) (entries n)) true (root c) = true →
  clock_storable k_anything c.
Proof.
  intros Hwf Hfits n Hn. rewrite Hn in Hfits. simpl in Hfits. apply andb_true_iff in Hfits as [Hl He].
  split; [by apply Hwf|]. split; [|by apply Forall_true]. split; [by apply N.leb_le|].
  rewrite forallb_forall in He. apply Forall_forall. intros e Hin. apply N.leb_le, He. by apply list_elem_of_In.
Qed.
Lemma k_one_storable : clock_storable k_anything k_one.
Proof. apply k_storable; [do 2 apply wf_put; apply wf_new|by vm_compute]. Qed.
Lemma k_two_storable : clock_storable k_anything k_two.
Proof. apply k_storable; [do 3 apply wf_put; apply wf_new|by vm_compute]. Qed.
Lemma k_clocks : Forall (clock_storable k_anything) [k_one; k_two].
Proof. apply Forall_cons_2; [exact k_one_storable|]. apply Forall_cons_2; [exact k_two_storable|apply Forall_nil_2]. Qed.
Lemma k_others_ok k nodes : nodes_ok k_anything nodes → nodes_ok k_anything (k_others k nodes).
Proof. done. Qed.
Lemma k_no_names : names_ok k_anything no_names.
Proof. apply map_Forall_empty. Qed.

Lemma stored_clocks_load_witness :
  ∃ r st, store_clocks [k_one; k_two] ∅ = Some (Ok (r, st)) ∧
    ∀ h, root_hash k_one = Some h → ∃ cn, load_clock k_others k_alive (fetch_from st) 65 h no_names = Some (Ok (k_one, cn)).
Proof.
  destruct (stored_clocks_load k_anything k_others k_alive [k_one; k_two] ∅ plain_no_collision k_others_ok
    (closed_empty k_anything) k_clocks) as (r & st & Hrun & _ & _ & Hload).
  exists r, st. split; [exact Hrun|]. intros h Hh.
  destruct (Hload k_one h no_names (list_elem_of_here _ _) Hh k_no_names) as (cn & Hl & _). exists cn. exact Hl.
Defined.

(** Read from records, with a cache of its own *)
Definition k_store : NodeStore := match store_clocks [k_one; k_two] ∅ with Some (Ok (_, st)) => st | _ => ∅ end.
Definition k_root : Hash := default [] (root_hash k_two).
Definition k_run : option (res (ActorClock * ClockNames)) := load_clock k_others k_alive (fetch_from k_store) 65 k_root no_names.
Definition k_out : ActorClock * ClockNames := match k_run with Some (Ok out) => out | _ => (new, no_names) end.
Lemma k_run_ok : k_run = Some (Ok (k_out.1, k_out.2)).
Proof.
  assert (match k_run with Some (Ok _) => true | _ => false end = true) as Hok by by vm_compute.
  unfold k_out. destruct k_run as [[[c cn]|]|]; done.
Qed.
Lemma k_root_two : root_hash k_two = Some k_root.
Proof. unfold k_root, root_hash. by destruct (root k_two) eqn:H; [|vm_compute in H]. Qed.

Lemma load_only_stored_witness : k_out.1 = k_two.
Proof.
  apply (load_only_stored k_anything k_others k_alive (fetch_from k_store) 65 k_root no_names k_out.1 k_out.2
    plain_no_collision k_others_ok (λ _ _ _, I) k_no_names k_run_ok).
  - exact k_two_storable.
  - exact k_root_two.
Defined.

(** A scan of the records *)
Definition k_records : list (Hash * list N) := map_to_list k_store.
Lemma k_records_NoDup : NoDup k_records.*1.
Proof. apply NoDup_fst_map_to_list. Qed.

Definition k_grow (capacity needed : N) : N := N.max needed (2 * capacity).
Definition k_memory : CacheInner → Node → Arc := λ _ _, ALeaf 0 [] (small_id 0) 0.

Definition k_scan : ClockScan := match push_all 100 k_grow new_scan k_records with Ok sc => sc | Err _ => new_scan end.
Lemma k_pushed : push_all 100 k_grow new_scan k_records = Ok k_scan ∧ is_Some (sc_nodes k_scan) ∧ k_root ∈ k_records.*1.
Proof.
  assert (match push_all 100 k_grow new_scan k_records with
    | Ok sc => bool_decide (is_Some (sc_nodes sc)) && bool_decide (k_root ∈ k_records.*1) | Err _ => false end = true) as Hok by by vm_compute.
  unfold k_scan. destruct (push_all 100 k_grow new_scan k_records) as [sc|]; [|discriminate].
  apply andb_true_iff in Hok as [?%bool_decide_eq_true ?%bool_decide_eq_true]. split_and!; [reflexivity|assumption..].
Qed.
Definition k_free : nat → N := λ _, 0.
Definition k_nothing : Hash → res (option (list N)) := fetch_from ∅.
Lemma k_validated : ∃ sc, validate k_others k_alive 64 k_free k_memory 65 k_root k_nothing k_scan = Some (Ok ((), sc)).
Proof.
  assert (match validate k_others k_alive 64 k_free k_memory 65 k_root k_nothing k_scan with Some (Ok _) => true | _ => false end = true)
    as Hok by by vm_compute.
  destruct (validate _ _ _ _ _ _ _ _ k_scan) as [[[[] sc]|]|]; [by exists sc|discriminate..].
Qed.

Lemma scan_matches_load_witness : loads k_alive k_records k_root.
Proof.
  destruct k_pushed as (Hpush & Hkept & Hroot).
  exact (proj2 (proj1 (proj2 (scan_matches_load 100 k_grow k_others k_alive 64 k_free k_memory 65 k_nothing k_records
    k_records_NoDup) k_scan k_root Hpush Hkept) k_validated) k_root Hroot).
Defined.

(** A cache that keeps two clocks with a node in common *)
Definition k_leaf1 : Arc := ALeaf 1 [] (small_id 1) 3.
Definition k_leaf2 : Arc := ALeaf 2 [] (small_id 2) 5.
Definition k_leaf3 : Arc := ALeaf 3 [] (small_id 2) 6.
Definition k_old : Arc := ABranch 4 [] 63 6 2 (small_id 1) 4 [k_leaf1; k_leaf2].
Definition k_new : Arc := ABranch 5 [] 63 6 2 (small_id 1) 4 [k_leaf1; k_leaf3].
Definition k_mem (a : N) : option Arc := find (λ n, address n =? a) [k_leaf1; k_leaf2; k_leaf3; k_old; k_new].
Definition k_any : Hash → Node → Prop := λ _ _, True.

Lemma k_resident root : root ∈ [k_old; k_new] → resident k_mem k_any root.
Proof.
  intros Hroot p Hp. split; [|done]. revert p Hp. apply Forall_forall.
  repeat (apply elem_of_cons in Hroot as [->|Hroot]; [repeat constructor|]). by apply elem_of_nil in Hroot.
Qed.

Definition k_cache : CacheInner :=
  match keep 64 k_free k_alive (Some k_old) no_clocks with Some (Ok (_, ci)) => ci | _ => no_clocks end.
Lemma k_cache_kept : kept 64 k_free k_alive k_any k_mem k_cache.
Proof.
  eapply (kept_clock _ _ _ _ _ no_clocks (Some k_old)); [apply kept_none| |].
  - intros ? [= <-]. apply k_resident. by left.
  - vm_compute. reflexivity.
Qed.

Lemma cache_exact_witness :
  ci_bytes k_cache ≤ CACHE_BYTES ∧ ∃ ci, keep 64 k_free k_alive (Some k_new) k_cache = Some (Ok ((), ci)).
Proof.
  refine (proj2 (proj2 (cache_exact 64 k_free k_alive k_any k_mem k_cache (Some k_new) k_cache_kept _))).
  intros root Heq. injection Heq as <-. apply k_resident. right. left.
Defined.
